(* ===== verification/_CoqProject ===== *)
-Q . S2P
Prelude.v
Abi.v
TaskState.v
Rings.v
TreeIndex.v
Caps.v
UserHeap.v
NodeIndex.v
Kernel.v
Derivation.v
Forest.v
CapOps.v
CapTree.v
Revoke.v
Ipc.v
CapRun.v
CapIpc.v
CapSystem.v
Dispatch.v
Focus.v
Cobs.v
Crc.v
Frame.v
Endpoint.v
LinkPair.v
Sha256.v
Text.v
LinkApp.v
Outcome.v
BootSlots.v
Elf.v
Editor.v
EditorSearch.v
Cid.v
Cbor.v
Dag.v
DagTree.v
DagBuild.v
Directory.v
Journal.v
JournalStore.v
Tour.v
TreeDiff.v
Car.v
CarCodec.v
CarCheck.v
StoreRecords.v
StoreNames.v
StoreIndex.v
StoreMedium.v
StorePass.v
StoreOps.v
StoreMount.v
StoreLayout.v
StoreInv.v
StoreWrite.v
StoreSweep.v
StoreMark.v
StoreSafe.v
StoreRuns.v
StoreFresh.v
Wire.v
Pattern.v
Inflate.v
InflateBits.v
Huffman.v
InflateSpec.v
Wrapped.v
Archive.v
Unzip.v
Json.v
JsonWriter.v
Zone.v
Path.v
LogRing.v
