(* ===== verification/Prelude.v ===== *)
(** * MIND Core: a verification library of its kernel core, its link protocol, its block store and its shared libraries

    MIND Core is a capability microkernel with services in user space. The kernel ([src/kernel]) gives tasks capabilities,
    message passing, memory and processor time; a bootloader ([src/bootloader]) picks the slot to boot; services and
    programs share [src/libmind]; [src/linkproto] is the protocol with a peripheral board. This library models the parts
    that decide something, as executable functions over the source's data, and proves what makes them correct. Names are
    the source's where the language allows it; each definition's comment names its function.

    ** The files

    Shared: [Prelude] (machine words as [Z] below a power of two with the wrap-around written out, bytes, slices, results,
    automation), [Abi] (constants of [common/abi.rs]), [Text] (UTF-8, trimming, splitting, decimal numbers), [Outcome] (a
    value, a refusal or a panic: the effect of the readers that index into bytes).

    Kernel, tasks and time. [TaskState]: states and the round robin ([kernel/src/task_state.rs]). [Rings]: bounded queues
    ([kernel/src/input.rs]). [Kernel]: the records of a task and of the scheduler, shared by the operations. [Dispatch]:
    [ready], [select], [wake_idle], [timers] of [kernel/src/scheduler.rs]. [Focus]: [focus], [route_key], [INPUT_LISTEN].

    Kernel, capabilities and memory. [Caps]: capability tables, handles with generations, minting. [TreeIndex]: the open
    hash table of the derivation tree ([kernel/src/scheduler/tree.rs]); [NodeIndex]: the interface the tree's client uses,
    a class with its laws, which the hash table implements. [Derivation]: entries, links, revocation in bounded steps.
    [CapOps], [Ipc]: the system calls that make, move and take capabilities, and message passing with its timeouts.
    [Forest], [CapTree], [Revoke], [CapRun], [CapIpc], [CapSystem]: the invariant of the derivation forest, each
    operation's preservation of it, and the system of all of them as a step relation. [UserHeap]: a task's heap
    ([kernel/src/user_heap.rs]) over classes of address spaces and of the frame pool.

    Link. [Cobs], [Crc], [Frame]: frames ([linkproto/src/cobs.rs], [crc.rs], [frame.rs]); [Endpoint]: master and slave over
    classes of a line and of a service; [LinkPair]: both over a lossy line; [LinkApp]: the file service
    ([linkproto/src/app.rs]) over a class of file stores; [Sha256].

    Boot and programs. [BootSlots]: boot records, the plan of a boot, the updater's writes ([bootloader/src/slots.rs],
    [updater/src/plan.rs], [bootloader/src/mark.rs]). [Elf]: the program loader and the relocations. [Archive]: zip packages
    and update bundles; [Unzip]: reading an entry. [Inflate]: DEFLATE, zlib and gzip ([libmind/src/inflate.rs]) over classes of an
    input and of a sink; [InflateBits], [Huffman], [InflateSpec], [Wrapped]: the bits of a stream, canonical codes, and the
    formats as relations between bits and bytes.

    Content. [Cid] (content identifiers, [libmind/src/cid.rs]); [Cbor], [Dag], [DagTree], [DagBuild]: objects as trees of
    blocks ([libmind/src/dag.rs]): the codec, the readers over any store of blocks, the tree an object is, the builder.
    [Directory]: the codec of directories and the search of a name ([libmind/src/tree.rs]); [Tour]: the walks of trees and of
    journals; [TreeDiff]: the comparison of two trees. [Car]: copies of named roots ([libmind/src/car.rs]), read, checked,
    written and imported over classes of a source, a target and a store; [CarCodec], [CarCheck]: what its readers accept. [Journal], [JournalStore]: entries, append, check and list
    ([libmind/src/journal.rs]), over a class of stores and with its laws.

    The block store ([blockstore/src/store.rs]), over classes of the device, the cipher and the keeper of keys. Its model:
    [StoreRecords] (keys, sealed frames, every record of the medium), [StoreNames] (names with their newest versions),
    [StoreIndex] (where each block is), [StoreMedium] (the store's state, room, sealed writes, erasing), [StorePass] (reading,
    the passes of a mount and of a collection, marking), [StoreOps] (the requests), [StoreMount] (mounting, recovery, scrubbing).
    Its proof: [StoreLayout] (sectors and frames), [StoreInv] (the laws of the device and the invariant), [StoreWrite] (claims,
    writes and erasures keep it), [StoreSweep] and [StoreMark] (the sweep, the marking, a whole collection), [StoreSafe] and
    [StoreRuns] (every request), [StoreFresh] (a mount of a new medium, and the theorem).

    Libraries and services. [Wire] (IDL payloads, a class with laws and instances), [Pattern]
    (masks and patterns), [Path], [Json] (the parser's reader), [JsonWriter] (the agent's writer), [Editor] (the text buffer
    with undo), [EditorSearch] (its characters, cursor and search), [Zone] (what a file client may change), [LogRing] (the log service's ring).

    ** What the theorems show

    Capabilities. In every state reachable by any interleaving of the calls modelled (spawning, ending tasks and memory objects
    are not among them), timeouts and revocation steps, each node is in
    one place and each derived capability has its entry, within the depth limit ([CapSystem.caps_consistent]); a revocation
    alone ends and takes exactly what was derived ([Revoke.revoke_complete]), its steps do bounded work and never panic
    ([revoke_step_bounded], [CapSystem.revocation_no_panic]); with several in progress and calls in between
    [CapSystem.revoke_finished] says what may be left. Minting never widens authority, a writable memory object has one writer, stale handles are refused ([Caps]).
    The hash table refines a finite map ([TreeIndex]). A heap keeps its layout and its accounts ([UserHeap]).

    Time and input. While the periods of budgets are sound (positive and at most 2^63 ns), [select] runs a ready task with budget of the right band, no task starves within its band, a spent
    budget waits for its period, sleepers wake when due ([Dispatch], [TaskState]); an event reaches one task ([Focus]).

    Link. Frames survive noise, short bursts are detected, requests are carried out once however often they are sent, and an
    exchange succeeds if one try does; the file service never panics (with names up to 60 bytes), stays below its directory and
    commits a file only by its digest.

    Boot. While the sequence numbers of the records have room, the version floor never falls, torn record writes do no harm,
    a trial ends. No file makes the program loader panic, and a loaded image is what its headers and its relocations say.

    Content. An object written in any pieces is read back in any stretches; whatever the store answers, a read gives the
    object's own bytes or an error; [complete] tells exactly whether all is there ([DagBuild]). A directory that decodes
    answers every name ([Directory.find_exact]); a walk that succeeds visited every block under its root ([Tour.walk_covers]); a
    comparison of two trees visits exactly the paths where they differ, in order ([TreeDiff.diff_exact]); a check of a copy
    that succeeds read all of it and found every block under its names' roots ([CarCheck.copy_check_sound]). A journal only grows,
    whoever writes; a check that succeeds heard a chain of entries, and while writers append it hears every entry
    ([JournalStore]).

    The block store. No request loses what a name or a pin retains ([StoreFresh.retained_never_lost]): from the mount of a new
    medium on, through puts, publishes, removals, commits, pins, new domains, collections and scrubs in any order, every block
    under every retained root is given and is the one its CID names. It holds for every medium that keeps what is written to it
    and every cipher that opens what it sealed; the runs it speaks of are those where the device fails no call. The requests
    that let go of something on purpose (unpin, forgetting a domain, a recovery key) are not among them. A record sealed for a
    place opens there, a commit is read back whole ([StoreRecords]); the names do not depend on the order of the records
    ([StoreNames]); the index is a map ([StoreIndex]).

    Decompression. Every DEFLATE stream of RFC 1951 gives its bytes ([InflateSpec.inflate_decodes]), zlib and gzip streams with
    the right check values too ([Wrapped]); no input makes it panic; an entry of a package that reads well has the size and the
    CRC-32 of the directory ([Unzip.read_exact]).

    Data. JSON: the reader accepts exactly the texts of RFC 8259's grammar whose surrogate escapes come in pairs, the writer writes
    only such while no call runs out of room or levels, and the one reads what the other wrote. Identifiers and payloads have one encoding. Packages that open are within their limits. Masks match what
    they describe. Paths compose. Undo and redo walk through the texts there were. File zones give each badge its own places. The log ring
    is the end of the log.

    Several theorems and examples show where the code departs from its comments or its purpose: [CapSystem.revoke_finished],
    [Dispatch.busy_cpu_never_idles], [Dispatch.long_period_panics] and [long_period_refills] (periods beyond 2^63 ns),
    [BootSlots.trial_at_the_end] and [floor_lost_at_the_end] (the last sequence numbers), [Editor.insert_past_end_not_undone],
    [JsonWriter.written_on_after_error] and [cut_string_given_out], [Json.lone_surrogate_refused], [LinkApp.long_name_panics], [Pattern.glob_star_in_name], [Path.slash_reaches_volume],
    [Focus.release_can_go_astray].

    ** Fuel and bounds

    Loops that are not structural take a fuel argument that the calling definition supplies from the length of its input
    (probing: the table's size; revocation: 256 visits and the stack's length; JSON: twice the text's length; walks and comparisons of trees: the steps left;
    decompression: the bits of the input). Running out is a
    value of its own (a panic or [None]), and theorems of no panic or of totality show that it does not happen.

    ** Not modelled

    Page tables, interrupts, context switches and the start of CPUs (assembly and registers; address spaces and frames are
    interfaces). Of the scheduler: spawning, exit and reaping, device, DMA and memory-object calls, statistics. The FAT
    volume. Drivers, the network stack, TLS, SSH,
    neural and audio services (device I/O, third-party code or numeric kernels). Shells and screens beyond the logic named
    above. Unicode's lower case is a parameter. Clock readings are arguments, IPIs sent are a log. *)
From Stdlib Require Export ZArith Lia ZifyBool ZifyNat.
From stdpp Require Export base numbers list option gmap.

#[global] Open Scope Z_scope.

(** Bit operations of the source's machine words, in a scope of their own. *)
Declare Scope word_scope.
Delimit Scope word_scope with word.
Infix "&&&" := Z.land (at level 40, left associativity) : word_scope.
Infix "|||" := Z.lor (at level 50, left associativity) : word_scope.
Infix "^^^" := Z.lxor (at level 50, left associativity) : word_scope.
#[global] Open Scope word_scope.

(** ** Machine words: a w-bit unsigned integer is a [Z] in [0, 2^w). *)
Definition W8 : Z := 2 ^ 8.
Definition W16 : Z := 2 ^ 16.
Definition W32 : Z := 2 ^ 32.
Definition W64 : Z := 2 ^ 64.

Definition wrap8 (z : Z) : Z := z mod W8.
Definition wrap16 (z : Z) : Z := z mod W16.
Definition wrap32 (z : Z) : Z := z mod W32.
Definition wrap64 (z : Z) : Z := z mod W64.

(** [a.checked_add(b)], [a.checked_sub(b)] and [a.saturating_sub(b)] on [usize] and [u64]. *)
Definition checked_add (a b : Z) : option Z := if a + b <? W64 then Some (a + b) else None.
Definition checked_sub (a b : Z) : option Z := if b <=? a then Some (a - b) else None.
Definition saturating_sub (a b : Z) : Z := Z.max 0 (a - b).
Definition saturating_add (a b : Z) : Z := Z.min (W64 - 1) (a + b).

(** [a.next_multiple_of(m)] for a positive [m]. *)
Definition next_multiple_of (a m : Z) : Z := (a + m - 1) / m * m.

(** ** Results: [Ok] or an error, as the source's [Result]. *)
Inductive result (E A : Type) : Type :=
| Ok (a : A)
| Err (e : E).
Arguments Ok {E A} _.
Arguments Err {E A} _.

#[global] Instance result_ret {E} : MRet (result E) := fun A a => Ok a.
#[global] Instance result_bind {E} : MBind (result E) :=
  fun A B f r => match r with Ok a => f a | Err e => Err e end.
#[global] Instance result_fmap {E} : FMap (result E) :=
  fun A B f r => match r with Ok a => Ok (f a) | Err e => Err e end.

Definition ok_or {E A} (o : option A) (e : E) : result E A :=
  match o with Some a => Ok a | None => Err e end.

(** ** Bytes *)
Definition is_byte (b : Z) : Prop := 0 <= b < 256.
Abbreviation bytes := (list Z).

(** [x.to_le_bytes()] of an [n]-byte integer and [from_le_bytes]. *)
Fixpoint to_le (n : nat) (z : Z) : bytes :=
  match n with
  | O => []
  | S n => z mod 256 :: to_le n (z / 256)
  end.

Fixpoint of_le (bs : bytes) : Z :=
  match bs with
  | [] => 0
  | b :: rest => b + 256 * of_le rest
  end.

(** [&l[at..at + len]] where it is in range, and [l.get(at..at + len)]. *)
Definition slice {A} (l : list A) (at_ len : nat) : list A := take len (drop at_ l).
Definition get_slice {A} (l : list A) (at_ len : nat) : option (list A) :=
  if decide (at_ + len <= length l)%nat then Some (slice l at_ len) else None.

(** [l.iter().position(p)]. *)
Fixpoint position {A} (p : A -> bool) (l : list A) : option nat :=
  match l with
  | [] => None
  | x :: l => if p x then Some 0%nat else S <$> position p l
  end.

(** [slice::partition_point]: how many leading elements satisfy the predicate. *)
Fixpoint partition_point {A} (p : A -> bool) (l : list A) : nat :=
  match l with
  | [] => 0%nat
  | x :: l => if p x then S (partition_point p l) else 0%nat
  end.

(** ** Shared lemmas *)
Lemma position_Some {A} (p : A -> bool) l i :
  position p l = Some i -> exists x, l !! i = Some x /\ p x = true /\ forall j y, (j < i)%nat -> l !! j = Some y -> p y = false.
Proof.
  revert i. induction l as [|x l IH]; intros i; simpl; [done|]. destruct (p x) eqn:Hp.
  - intros [= <-]. exists x. split_and!; [done|done|]. intros; lia.
  - destruct (position p l) as [k|]; [|done]. intros [= <-]. destruct (IH k eq_refl) as (y & Hy & Hpy & Hmin).
    exists y. split_and!; [done|done|]. intros [|j] z Hj Hz; simpl in Hz; [congruence|]. apply (Hmin j); [lia|done].
Qed.

Lemma position_None {A} (p : A -> bool) l : position p l = None <-> Forall (fun x => p x = false) l.
Proof.
  induction l as [|x l IH]; simpl; [done|]. rewrite Forall_cons. destruct (p x); [split; [done|intros [? _]; done]|].
  split; [intros H; split; [done|]; apply IH; by destruct (position p l)|intros [_ H%IH]; by rewrite H].
Qed.

Section le_bytes.
Lemma length_to_le n z : length (to_le n z) = n.
Proof. revert z; induction n as [|n IH]; intros z; simpl; [done|by rewrite IH]. Qed.

Lemma to_le_bytes n z : Forall is_byte (to_le n z).
Proof.
  revert z; induction n as [|n IH]; intros z; simpl; constructor; [|done].
  unfold is_byte. apply Z.mod_pos_bound; lia.
Qed.

Lemma of_to_le n z : 0 <= z < 256 ^ Z.of_nat n -> of_le (to_le n z) = z.
Proof.
  revert z; induction n as [|n IH]; intros z Hz; simpl.
  - change (256 ^ Z.of_nat 0) with 1 in Hz. lia.
  - rewrite IH.
    + pose proof (Z.div_mod z 256). lia.
    + rewrite Nat2Z.inj_succ, Z.pow_succ_r in Hz by lia.
      split; [apply Z.div_pos; lia|apply Z.div_lt_upper_bound; lia].
Qed.

Lemma of_le_bound bs : Forall is_byte bs -> 0 <= of_le bs < 256 ^ Z.of_nat (length bs).
Proof.
  induction 1 as [|b bs Hb _ IH]; [by simpl|]. cbn [of_le length].
  rewrite Nat2Z.inj_succ, Z.pow_succ_r by lia. unfold is_byte in Hb. lia.
Qed.

Lemma to_of_le bs : Forall is_byte bs -> to_le (length bs) (of_le bs) = bs.
Proof.
  induction 1 as [|b bs Hb _ IH]; [done|]. cbn [of_le length to_le].
  unfold is_byte in Hb. f_equal.
  - rewrite Z.mul_comm, Z.mod_add by lia. apply Z.mod_small; lia.
  - rewrite Z.mul_comm, Z.div_add, (Z.div_small b), Z.add_0_l by lia. done.
Qed.
End le_bytes.

Lemma lor_byte a b : is_byte a -> is_byte b -> is_byte (a ||| b).
Proof.
  unfold is_byte. intros Ha Hb. split; [apply Z.lor_nonneg; lia|].
  destruct (Z.eq_dec (a ||| b) 0) as [->|Hne]; [done|].
  apply (Z.log2_lt_pow2 _ 8); [pose proof (proj2 (Z.lor_nonneg a b)); lia|]. rewrite Z.log2_lor by lia.
  assert (forall x, (0 <= x < 256 -> Z.log2 x < 8)%Z) as Hl; [|pose proof (Hl a Ha); pose proof (Hl b Hb); lia].
  intros x Hx. destruct (Z.eq_dec x 0) as [->|]; [done|]. apply Z.log2_lt_pow2; lia.
Qed.

Lemma get_slice_Some {A} (l : list A) i n s :
  get_slice l i n = Some s -> (i + n <= length l)%nat /\ s = slice l i n /\ length s = n.
Proof.
  unfold get_slice, slice. case_decide; intros [= <-]. split; [lia|]. split; [done|].
  rewrite length_take, length_drop. lia.
Qed.

Lemma slice_app_r {A} (l k : list A) n :
  slice (l ++ k) (length l) n = take n k.
Proof. unfold slice. by rewrite drop_app_length. Qed.

Lemma slice_mid {A} (a b c : list A) i n : i = length a -> n = length b -> slice (a ++ b ++ c) i n = b.
Proof. intros -> ->. unfold slice. by rewrite drop_app_length, take_app_length. Qed.

Lemma slice_length {A} (l : list A) i n : (i + n <= length l)%nat -> length (slice l i n) = n.
Proof. intros H. unfold slice. rewrite length_take, length_drop. lia. Qed.

Lemma drop_slice {A} (l : list A) i n : drop i l = slice l i n ++ drop (i + n) l.
Proof. unfold slice. rewrite <- (take_drop n (drop i l)) at 1. by rewrite drop_drop. Qed.

Lemma forall_slice {A} (P : A -> Prop) (l : list A) i n : Forall P l -> Forall P (slice l i n).
Proof. intros H. by apply Forall_take, Forall_drop. Qed.

Lemma nth_lookup_default {A} (l : list A) i d : nth i l d = default d (l !! i).
Proof. revert i. induction l as [|x l IH]; intros [|i]; try done. apply IH. Qed.

Lemma next_multiple_of_ge a m : 0 < m -> a <= next_multiple_of a m < a + m.
Proof.
  intros Hm. unfold next_multiple_of.
  pose proof (Z.div_mod (a + m - 1) m). pose proof (Z.mod_pos_bound (a + m - 1) m Hm). lia.
Qed.

Lemma next_multiple_of_mod a m : 0 < m -> next_multiple_of a m mod m = 0.
Proof. intros Hm. unfold next_multiple_of. apply Z.mod_mul. lia. Qed.

Lemma next_multiple_of_id a m : 0 < m -> a mod m = 0 -> next_multiple_of a m = a.
Proof.
  intros Hm Ha. unfold next_multiple_of.
  apply Z.div_exact in Ha; [|lia].
  replace (a + m - 1) with ((a / m) * m + (m - 1)) by lia.
  rewrite Z.div_add_l, (Z.div_small (m - 1)) by lia. lia.
Qed.

Section filters.
Context {A : Type} (P : A -> Prop) `{!forall x, Decision (P x)}.

Lemma filter_none (l : list A) : (forall x, x ∈ l -> ~ P x) -> filter P l = [].
Proof.
  induction l as [|x l IH]; intros Hn; [done|].
  rewrite filter_cons_False by (apply Hn; set_solver). apply IH. set_solver.
Qed.

Lemma filter_every (l : list A) : (forall x, x ∈ l -> P x) -> filter P l = l.
Proof.
  induction l as [|x l IH]; intros Hn; [done|].
  rewrite filter_cons_True by (apply Hn; set_solver). f_equal. apply IH. set_solver.
Qed.
End filters.

Lemma checked_add_Some a b c : checked_add a b = Some c -> c = a + b /\ c < W64.
Proof. unfold checked_add. case_match; intros [= <-]. lia. Qed.

(** Sums over lists, and what an update of one place changes. *)
Definition zsum (l : list Z) : Z := foldr Z.add 0 l.

Lemma zsum_cons x l : zsum (x :: l) = x + zsum l.
Proof. done. Qed.

Lemma zsum_insert {A} (f : A -> Z) l i x y :
  l !! i = Some x -> zsum (map f (<[i := y]> l)) = zsum (map f l) - f x + f y.
Proof.
  revert i. induction l as [|z l IH]; intros i Hi; [done|]. destruct i as [|i]; cbn in Hi.
  - simplify_eq. change (<[0%nat:=y]> (x :: l)) with (y :: l). cbn [map]. rewrite !zsum_cons. lia.
  - change (<[S i:=y]> (z :: l)) with (z :: <[i:=y]> l). cbn [map]. rewrite !zsum_cons, (IH i Hi). lia.
Qed.

Lemma zsum_nonneg {A} (f : A -> Z) l : (forall x, x ∈ l -> 0 <= f x) -> 0 <= zsum (map f l).
Proof.
  induction l as [|z l IH]; intros H; [done|]. cbn [map]. rewrite zsum_cons. pose proof (H z (list_elem_of_here _ _)).
  assert (0 <= zsum (map f l)) by (apply IH; intros; apply H; by apply list_elem_of_further). lia.
Qed.

Lemma zsum_ge {A} (f : A -> Z) l i x : (forall y, y ∈ l -> 0 <= f y) -> l !! i = Some x -> f x <= zsum (map f l).
Proof.
  revert i. induction l as [|z l IH]; intros i H Hi; [done|]. cbn [map]. rewrite zsum_cons.
  assert (forall y, y ∈ l -> 0 <= f y) as Hl by (intros; apply H; by apply list_elem_of_further).
  pose proof (H z (list_elem_of_here _ _)). destruct i as [|i]; cbn in Hi; [simplify_eq|].
  - pose proof (zsum_nonneg f l Hl). lia.
  - specialize (IH i Hl Hi). lia.
Qed.

Create HintDb mind discriminated.
Create Rewrite HintDb mind_len.
#[export] Hint Resolve to_le_bytes : mind.
#[export] Hint Rewrite length_to_le @length_app @length_take @length_drop @length_replicate : mind_len.

(** Splits the boolean tests of a hypothesis or the goal and closes linear leftovers. *)
Ltac bool_cases :=
  repeat (case_match || case_decide); simplify_eq/=.
