(* ===== verification/Abi.v ===== *)
(** * Constants of the system-call ABI ([common/abi.rs]) used by the kernel's components *)
From S2P Require Import Prelude.

(** Error codes: the top of the [usize] range. *)
Definition ERR_INVALID : Z := W64 - 1.
Definition ERR_NO_SLOT : Z := W64 - 2.
Definition ERR_RIGHTS : Z := W64 - 3.
Definition ERR_NOT_FOUND : Z := W64 - 4.
Definition ERR_PEER : Z := W64 - 5.
Definition ERR_NO_MEMORY : Z := W64 - 6.
Definition ERR_BUSY : Z := W64 - 7.
Definition ERR_LIMIT : Z := W64 - 8.
Definition ERR_TIMEOUT : Z := W64 - 9.
Definition ERR_REVOKING : Z := W64 - 12.

(** Rights of a capability. *)
Definition CAP_READ : Z := 1.
Definition CAP_WRITE : Z := 2.
Definition CAP_GRANT : Z := 4.
Definition CAP_KEEP : Z := 8.
Definition CAP_BADGE : Z := 16.
Definition CAP_TRANSFER_MOVE : Z := 256.
Definition BADGE_MAX : Z := 0xFFFF.

(** Capability kinds named by number. *)
Definition CAP_KIND_INPUT : Z := 6.
Definition CAP_KIND_DISPLAY : Z := 7.
Definition CAP_KIND_SPAWN : Z := 9.
Definition CAP_KIND_CONTROL : Z := 12.
Definition CAP_KIND_OBSERVE : Z := 14.
Definition CAP_KIND_FIRMWARE : Z := 16.

(** The capability table and its handles. *)
Definition CAP_SLOTS : nat := 107.
Definition CAP_SLOTS_MAX : nat := 4096.
Definition DERIVE_DEPTH_MAX : nat := 64.
Definition SLOT_DYNAMIC : nat := 43.
Definition HANDLE_SLOT_MASK : Z := 0xFFFFFF.
Definition HANDLE_GENERATION_SHIFT : Z := 24.
Definition HANDLE_GENERATION_MAX : Z := 0xFFFFFFFF.

(** IPC. *)
Definition IPC_TIMEOUT_SHIFT : Z := 32.
Definition MSG_FLAG_CALL : Z := 1.
Definition MSG_FLAG_IRQ : Z := 2.
Definition MSG_FLAG_EXIT : Z := 4.
Definition EXIT_KILLED : Z := 1.
Definition EXIT_NOTICES_MAX : nat := 16.
Definition IRQ_SHARERS : nat := 4.

(** Task memory. *)
Definition HEAP_PAGE_SIZE : Z := 4096.
Definition HEAP_MAX_BLOCKS : nat := 64.
Definition HEAP_MAX_BYTES : Z := 16 * 1024 * 1024.
Definition SHARED_MAX_BYTES : Z := 256 * 1024 * 1024.
Definition STACK_MIN_BYTES : Z := 64 * 1024.
Definition STACK_MAX_BYTES : Z := 8 * 1024 * 1024.
