(* ===== verification/TaskState.v ===== *)
(** * Task states and the round robin of one CPU ([kernel/src/task_state.rs])

    The scheduler picks the next slot of a CPU from that CPU's sorted list of slots ([next_in]); the host tests compare
    it with the plain round robin over all slots ([next_by]). Here the two are proved equal on every sorted list, and
    the round robin is proved free of starvation. *)
From Stdlib Require Import Sorted.
From S2P Require Import Prelude.
Local Open Scope nat_scope.

(** ** Data and operations *)

(** [enum State]: what a task waits for. [Sleeping] holds the monotonic nanoseconds to wake at. *)
Inductive State : Type :=
| Empty
| Ready
| Sleeping (deadline : Z)
| BlockedSend (ep : nat)
| BlockedRecv (ep : nat)
| BlockedReply (server : nat)
| BlockedIrq (line : nat)
| BlockedFlush
| Exited.

#[global] Instance State_eq_dec : EqDecision State.
Proof. solve_decision. Defined.

(** [State::wake]: a sleeper whose deadline is not in the future (half the 64-bit range) becomes ready. *)
Definition wake (s : State) (now : Z) : State :=
  match s with
  | Sleeping deadline => if (wrap64 (now - deadline) <? 2 ^ 63)%Z then Ready else s
  | _ => s
  end.

(** [next_by]: the first ready slot after [current] in a round over [len] slots, or 0. *)
Definition next_by (len current : nat) (ready : nat -> bool) : nat :=
  default 0 (List.find ready (map (fun step => (current + step) mod len) (seq 1 len))).

(** [next]: the round robin over a list of states. *)
Definition next (states : list State) (current : nat) : nat :=
  next_by (length states) current (fun slot => bool_decide (states !! slot = Some Ready)).

(** [next_in]: the same round robin over one CPU's sorted list of slots. *)
Definition next_in (slots : list nat) (current : nat) (ready : nat -> bool) : nat :=
  let after := partition_point (fun slot => slot <=? current) slots in
  default 0 (List.find ready (drop after slots ++ take after slots)).

(** The picks of a CPU, each the start of the next round. *)
Fixpoint picks (next : nat -> nat) (n current : nat) : list nat :=
  match n with
  | 0 => []
  | S n => let p := next current in p :: picks next n p
  end.

(** ** Lemmas *)
Abbreviation sorted := (StronglySorted lt).

Lemma find_app {A} (p : A -> bool) (l k : list A) :
  List.find p (l ++ k) = match List.find p l with Some x => Some x | None => List.find p k end.
Proof. induction l as [|x l IH]; simpl; [done|]. by destruct (p x). Qed.

Lemma partition_sorted slots current :
  sorted slots ->
  let after := partition_point (fun slot => slot <=? current) slots in
  take after slots = filter (fun s => s <= current) slots /\
  drop after slots = filter (fun s => current < s) slots.
Proof.
  induction 1 as [|x l Hs IH Hx]; [done|]. simpl.
  destruct (Nat.leb_spec x current) as [Hle|Hgt]; simpl.
  - destruct IH as [IH1 IH2]. rewrite filter_cons_True by lia.
    rewrite filter_cons_False by lia. by rewrite IH1, IH2.
  - rewrite filter_cons_False by lia. rewrite filter_cons_True by lia.
    rewrite Forall_forall in Hx. split.
    + symmetry. apply filter_none. intros y Hel. apply Hx in Hel. lia.
    + f_equal. symmetry. apply filter_every. intros y Hel. apply Hx in Hel. lia.
Qed.

(** [find] on a sorted list is the least element that satisfies the test. *)
Lemma find_sorted_Some (p : nat -> bool) l s :
  sorted l ->
  List.find p l = Some s <-> s ∈ l /\ p s = true /\ (forall y, y ∈ l -> y < s -> p y = false).
Proof.
  induction 1 as [|x l Hs IH Hx]; simpl.
  - split; [done|]. intros [H _]. by apply not_elem_of_nil in H.
  - rewrite Forall_forall in Hx. destruct (p x) eqn:Hp.
    + split.
      * intros [= <-]. split; [rewrite elem_of_cons; auto|]. split; [done|].
        intros y [->|Hy]%elem_of_cons ?; [lia|]. specialize (Hx y Hy). lia.
      * intros (Hel & Hps & Hmin). apply elem_of_cons in Hel as [->|Hel]; [done|].
        specialize (Hx s Hel). specialize (Hmin x (list_elem_of_here _ _) ltac:(lia)). congruence.
    + rewrite IH. split.
      * intros (Hel & Hps & Hmin). split; [rewrite elem_of_cons; auto|]. split; [done|].
        intros y [->|Hy]%elem_of_cons ?; [done|]. by apply Hmin.
      * intros (Hel & Hps & Hmin). apply elem_of_cons in Hel as [->|Hel]; [congruence|].
        split; [done|]. split; [done|]. intros y Hy. apply Hmin. rewrite elem_of_cons; auto.
Qed.

Lemma seq_sorted a n : sorted (seq a n).
Proof.
  revert a; induction n as [|n IH]; intros a; simpl; constructor; [apply IH|].
  apply Forall_forall. intros y Hy. apply elem_of_seq in Hy. lia.
Qed.

Lemma filter_sorted (P : nat -> Prop) `{!forall x, Decision (P x)} l : sorted l -> sorted (filter P l).
Proof.
  induction 1 as [|x l Hs IH Hx]; [constructor|]. rewrite filter_cons.
  case_decide; [|done]. constructor; [done|].
  rewrite Forall_forall in *. intros y [_ Hy]%list_elem_of_filter. by apply Hx.
Qed.

(** Filtering a sorted list by a range is a scan of that range. *)
Lemma find_range_sorted slots (ready : nat -> bool) a n (P : nat -> Prop) `{!forall x, Decision (P x)} :
  sorted slots -> (forall s, s ∈ slots -> P s <-> a <= s < a + n) ->
  List.find (fun s => bool_decide (s ∈ slots) && ready s) (seq a n) = List.find ready (filter P slots).
Proof.
  intros Hs HP. apply option_eq. intros s.
  rewrite !find_sorted_Some by auto using seq_sorted, filter_sorted.
  rewrite list_elem_of_filter, elem_of_seq, andb_true_iff, bool_decide_eq_true.
  split.
  - intros (Hr & [Hel Hps] & Hmin). split; [by rewrite HP|]. split; [done|].
    intros y [HPy Hy]%list_elem_of_filter Hlt. specialize (Hmin y).
    rewrite bool_decide_eq_true_2 in Hmin by done. apply Hmin; [|done].
    rewrite elem_of_seq. apply HP in HPy; [lia|done].
  - intros ([HPs Hel] & Hps & Hmin). pose proof (proj1 (HP s Hel) HPs). split; [lia|]. split; [done|].
    intros y Hy Hlt. apply andb_false_iff. destruct (decide (y ∈ slots)) as [Hin|Hni].
    + right. apply Hmin; [|done]. apply list_elem_of_filter. split; [|done]. apply HP; [done|].
      apply elem_of_seq in Hy. lia.
    + left. by apply bool_decide_eq_false_2.
Qed.

Lemma map_seq_shift (f : nat -> nat) m j k :
  (forall x, j <= x < j + m -> f x = k + (x - j)) -> map f (seq j m) = seq k m.
Proof.
  revert j k; induction m as [|m IH]; intros j k Hf; simpl; [done|].
  f_equal; [rewrite Hf; lia|]. apply IH. intros x Hx. rewrite Hf; lia.
Qed.

(** The slots of a round in the order [next_by] visits them. *)
Lemma round_order len current :
  current < len ->
  map (fun step => (current + step) mod len) (seq 1 len) =
  seq (S current) (len - S current) ++ seq 0 (S current).
Proof.
  intros Hc.
  assert (seq 1 len = seq 1 (len - S current) ++ seq (1 + (len - S current)) (S current)) as ->.
  { rewrite <- seq_app. f_equal. lia. }
  rewrite map_app. f_equal; apply map_seq_shift; intros x Hx.
  - rewrite Nat.mod_small; lia.
  - replace (current + x) with (0 + (x - (len - current)) + 1 * len) by lia.
    rewrite Nat.Div0.mod_add, Nat.mod_small; lia.
Qed.

(** ** Properties *)

Lemma next_in_reference slots len current ready :
  sorted slots -> Forall (fun s => s < len) slots -> current < len ->
  next_in slots current ready = next_by len current (fun s => bool_decide (s ∈ slots) && ready s).
Proof.
  intros Hs Hlen Hc. unfold next_in, next_by. rewrite round_order by done.
  destruct (partition_sorted slots current Hs) as [Ht Hd]. rewrite Ht, Hd.
  rewrite Forall_forall in Hlen.
  rewrite !find_app, !(find_range_sorted _ _ _ _ (fun s => current < s)) by
    (done || (intros s Hel; specialize (Hlen s Hel); lia)).
  rewrite !(find_range_sorted _ _ 0 _ (fun s => s <= current)) by
    (done || (intros s Hel; specialize (Hlen s Hel); lia)).
  done.
Qed.

(** on a CPU's sorted list of slots the list round robin picks what the round robin over all slots picks. *)
Theorem next_in_is_next_by slots len current ready :
  sorted slots -> Forall (fun s => s < len) slots -> current < len ->
  next_in slots current ready = next_by len current (fun s => bool_decide (s ∈ slots) && ready s).
Proof. apply next_in_reference. Qed.

(** How many steps after [c] a round reaches slot [s]. *)
Definition distance (len s c : nat) : nat := if c <? s then s - c else s + len - c.

Lemma next_by_near len current ready s :
  s < len -> current < len -> ready s = true ->
  exists k, 1 <= k <= distance len s current /\ next_by len current ready = (current + k) mod len.
Proof.
  intros Hs Hc Hr. unfold next_by. set (d := distance len s current).
  assert (1 <= d <= len /\ (current + d) mod len = s) as [Hd Hmod].
  { unfold d, distance. destruct (Nat.ltb_spec current s).
    - split; [lia|]. rewrite Nat.mod_small; lia.
    - split; [lia|]. replace (current + (s + len - current)) with (s + 1 * len) by lia.
      rewrite Nat.Div0.mod_add, Nat.mod_small; lia. }
  assert (seq 1 len = seq 1 d ++ seq (1 + d) (len - d)) as ->.
  { rewrite <- seq_app. f_equal. lia. }
  rewrite map_app, find_app.
  destruct (List.find ready (map _ (seq 1 d))) as [p|] eqn:Hf.
  - apply List.find_some in Hf as [Hin _]. apply List.in_map_iff in Hin as (k & <- & Hk).
    apply List.in_seq in Hk. exists k. split; [lia|done].
  - exfalso. apply (List.find_none _ _ ) with (x := s) in Hf; [congruence|].
    apply List.in_map_iff. exists d. split; [done|]. apply List.in_seq. lia.
Qed.

Lemma distance_step len s current k :
  s < len -> current < len -> 1 <= k < distance len s current ->
  (current + k) mod len < len /\
  distance len s ((current + k) mod len) = distance len s current - k.
Proof.
  intros Hs Hc. unfold distance. destruct (Nat.ltb_spec current s); intros Hk.
  - rewrite Nat.mod_small by lia. destruct (Nat.ltb_spec (current + k) s); lia.
  - destruct (Nat.lt_ge_cases (current + k) len) as [Hlt|Hge].
    + rewrite Nat.mod_small by lia. destruct (Nat.ltb_spec (current + k) s); lia.
    + replace (current + k) with ((current + k - len) + 1 * len) by lia.
      rewrite Nat.Div0.mod_add, Nat.mod_small by lia.
      destruct (Nat.ltb_spec (current + k - len) s); lia.
Qed.

Lemma picks_reach len s ready n current :
  s < len -> current < len -> ready s = true -> distance len s current <= n ->
  s ∈ picks (fun c => next_by len c ready) n current.
Proof.
  intros Hs Hc Hr. revert current Hc. induction n as [|n IH]; intros current Hc Hd.
  - destruct (next_by_near len current ready s Hs Hc Hr) as (k & Hk & _). lia.
  - destruct (next_by_near len current ready s Hs Hc Hr) as (k & Hk & Hp). simpl. rewrite Hp.
    destruct (decide (k = distance len s current)) as [->|Hne].
    + assert ((current + distance len s current) mod len = s) as ->; [|constructor].
      unfold distance. destruct (Nat.ltb_spec current s).
      * rewrite Nat.mod_small; lia.
      * replace (current + (s + len - current)) with (s + 1 * len) by lia.
        rewrite Nat.Div0.mod_add, Nat.mod_small; lia.
    + destruct (distance_step len s current k Hs Hc) as [Hlt Hdist]; [lia|].
      apply list_elem_of_further. apply IH; lia.
Qed.

Lemma picks_ext f g n current (P : nat -> Prop) :
  P current -> (forall c, P c -> f c = g c /\ P (g c)) -> picks f n current = picks g n current.
Proof.
  intros HP Hfg. revert current HP. induction n as [|n IH]; intros c HP; simpl; [done|].
  destruct (Hfg c HP) as [-> HP']. f_equal. by apply IH.
Qed.

Lemma next_by_lt len current ready : current < len -> next_by len current ready < len.
Proof.
  intros Hc. unfold next_by. destruct (List.find _ _) as [p|] eqn:Hf; simpl; [|lia].
  apply List.find_some in Hf as [Hin _]. apply List.in_map_iff in Hin as (k & <- & _).
  apply Nat.mod_upper_bound. lia.
Qed.

(** C9: no starvation: a slot of the CPU that stays ready is picked within one round of the task table, whatever
    the cursor and the other slots' readiness. *)
Theorem round_robin_no_starvation slots len current ready s :
  sorted slots -> Forall (fun s => s < len) slots -> current < len ->
  s ∈ slots -> ready s = true ->
  s ∈ picks (fun c => next_in slots c ready) len current.
Proof.
  intros Hs Hlen Hc Hel Hr.
  assert (s < len) as Hsl by (rewrite Forall_forall in Hlen; auto).
  rewrite (picks_ext _ (fun c => next_by len c (fun s => bool_decide (s ∈ slots) && ready s)) _ _ (fun c => c < len)).
  - apply picks_reach; [done..| |].
    + rewrite bool_decide_eq_true_2 by done. done.
    + unfold distance. destruct (Nat.ltb_spec current s); lia.
  - done.
  - intros c Hlt. split; [by apply next_in_reference|by apply next_by_lt].
Qed.

(** what [next_in] picks is 0 or a ready slot of the list. *)
Theorem next_in_sound slots current ready :
  next_in slots current ready = 0 \/
  (next_in slots current ready ∈ slots /\ ready (next_in slots current ready) = true).
Proof.
  unfold next_in. destruct (List.find _ _) as [p|] eqn:Hf; simpl; [right|by left].
  apply List.find_some in Hf as [Hin Hr]. split; [|done].
  apply list_elem_of_In in Hin. revert Hin. generalize (partition_point (λ slot, slot <=? current) slots).
  intros k. rewrite <- (take_drop k slots) at 3. rewrite !elem_of_app. tauto.
Qed.

(** Witness: CPU with slots 2, 5 and 7 of a table of 32, all ready. *)
Lemma next_in_is_next_by_witness :
  next_in [2; 5; 7] 5 (fun _ => true) = next_by 32 5 (fun s => bool_decide (s ∈ [2; 5; 7]) && true).
Proof.
  apply (next_in_is_next_by [2; 5; 7] 32 5 (fun _ => true)).
  - repeat constructor.
  - repeat constructor; lia.
  - lia.
Defined.

Lemma round_robin_no_starvation_witness : 2 ∈ picks (fun c => next_in [2; 5; 7] c (fun _ => true)) 32 5.
Proof.
  apply (round_robin_no_starvation [2; 5; 7] 32 5 (fun _ => true) 2).
  - repeat constructor.
  - repeat constructor; lia.
  - lia.
  - set_solver.
  - reflexivity.
Defined.
