(* ===== verification/Rings.v ===== *)
(** * The kernel's bounded queues ([kernel/src/input.rs], [Text] of [kernel/src/scheduler.rs])

    [Queue] (console and log bytes) and [Events] (input words) drop their oldest element when full and ignore zeros;
    [Text] (a task's text input) takes only what fits. Each is a ring over an array of [N] places; the theorems relate
    it to the list of its contents, oldest first. *)
From S2P Require Import Prelude.
Local Open Scope nat_scope.

(** ** The ring: [bytes]/[words], [head], [len] *)
Record Ring := mkRing { cells : list Z; head : nat; len : nat }.

Section ring.
Context (N : nat).

(** [Queue::new] and [Events::new]. *)
Definition new : Ring := mkRing (replicate N 0%Z) 0 0.

(** [Queue::push]. *)
Definition push (value : Z) (q : Ring) : Ring :=
  if (value =? 0)%Z then q else
  let q := if len q =? N then mkRing (cells q) ((head q + 1) mod N) (len q - 1) else q in
  mkRing (<[(head q + len q) mod N := value]> (cells q)) (head q) (len q + 1).

(** [Queue::pop]. *)
Definition pop (q : Ring) : option (Z * Ring) :=
  if len q =? 0 then None
  else Some (nth (head q) (cells q) 0%Z, mkRing (cells q) ((head q + 1) mod N) (len q - 1)).

(** [Queue::clear], [is_empty], [room]. *)
Definition clear (q : Ring) : Ring := mkRing (cells q) 0 0.
Definition is_empty (q : Ring) : bool := len q =? 0.
Definition room (q : Ring) : nat := N - len q.

(** [Events::push], [pop], [clear], [is_empty]: the same operations on event words. *)
Definition events_push (event : Z) (q : Ring) : Ring :=
  if (event =? 0)%Z then q else
  let q := if len q =? N then mkRing (cells q) ((head q + 1) mod N) (len q - 1) else q in
  mkRing (<[(head q + len q) mod N := event]> (cells q)) (head q) (len q + 1).
Definition events_pop (q : Ring) : option (Z * Ring) :=
  if len q =? 0 then None
  else Some (nth (head q) (cells q) 0%Z, mkRing (cells q) ((head q + 1) mod N) (len q - 1)).
Definition events_clear (q : Ring) : Ring := mkRing (cells q) 0 0.

(** ** Abstraction: the queued elements, oldest first *)
Definition cell (q : Ring) (i : nat) : Z := nth ((head q + i) mod N) (cells q) 0%Z.
Definition contents (q : Ring) : list Z := map (cell q) (seq 0 (len q)).
Definition wf (q : Ring) : Prop := length (cells q) = N /\ head q < N /\ len q <= N.

Lemma length_contents q : length (contents q) = len q.
Proof. unfold contents. by rewrite length_map, length_seq. Qed.

Lemma mod_ne a b h : 0 < N -> a < b -> b < N -> (h + a) mod N <> (h + b) mod N.
Proof.
  intros HN Hab Hb Heq.
  assert (((h + b) - (h + a)) mod N = 0) as Hz.
  { pose proof (Nat.div_mod_eq (h + a) N) as Ha. pose proof (Nat.div_mod_eq (h + b) N) as Hb'.
    rewrite Heq in Ha.
    assert (h + b - (h + a) = ((h + b) / N - (h + a) / N) * N) as -> by (rewrite Nat.mul_sub_distr_r; lia).
    apply Nat.Div0.mod_mul. }
  replace (h + b - (h + a)) with (b - a) in Hz by lia. rewrite Nat.mod_small in Hz; lia.
Qed.

(** Advancing the head shifts the contents. *)
Lemma contents_advance q n :
  wf q -> n <= len q ->
  contents (mkRing (cells q) ((head q + n) mod N) (len q - n)) = drop n (contents q).
Proof.
  intros (Hc & Hh & Hl) Hn. unfold contents. cbn [len cells head].
  rewrite List.skipn_map, List.skipn_seq.
  apply list_eq. intros i. rewrite !list_lookup_fmap.
  destruct (decide (i < len q - n)) as [Hi|Hi].
  - rewrite !lookup_seq_lt by lia. cbn [fmap option_fmap option_map]. f_equal. unfold cell.
    cbn [cells head]. rewrite Nat.add_0_l. f_equal.
    rewrite Nat.Div0.add_mod_idemp_l. f_equal. lia.
  - rewrite !lookup_seq_ge by lia. done.
Qed.

(** Writing just past the last element appends it. *)
Lemma contents_write q v :
  wf q -> len q < N ->
  contents (mkRing (<[(head q + len q) mod N := v]> (cells q)) (head q) (len q + 1)) = contents q ++ [v].
Proof.
  intros (Hc & Hh & Hl) Hn. unfold contents. cbn [len cells head].
  rewrite seq_app, map_app. cbn [seq map]. f_equal.
  - apply map_ext_in. intros i Hi%List.in_seq. unfold cell. cbn [cells head].
    rewrite !nth_lookup. rewrite list_lookup_insert_ne; [done|].
    apply not_eq_sym, mod_ne; lia.
  - f_equal. unfold cell. cbn [cells head]. rewrite nth_lookup.
    rewrite list_lookup_insert_eq; [done|]. rewrite Hc. apply Nat.mod_upper_bound. lia.
Qed.

(** ** [Text]: a task's text input *)

(** The loop of [Text::push]: byte [i] goes to place [(head + len + i) % TEXT_QUEUE]. *)
Fixpoint write_from (at_ : nat) (data : list Z) (cs : list Z) : list Z :=
  match data with
  | [] => cs
  | b :: data => write_from (at_ + 1) data (<[at_ mod N := b]> cs)
  end.

(** [Text::push]: appends what fits of [data]; how much. *)
Definition text_push (data : list Z) (q : Ring) : Ring * nat :=
  let n := Nat.min (length data) (N - len q) in
  (mkRing (write_from (head q + len q) (take n data) (cells q)) (head q) (len q + n), n).

(** [Text::pop] into a buffer of [room] bytes: the bytes taken from the front. *)
Definition text_pop (room : nat) (q : Ring) : Ring * list Z :=
  let n := Nat.min room (len q) in
  (mkRing (cells q) ((head q + n) mod N) (len q - n), map (fun i => nth ((head q + i) mod N) (cells q) 0%Z) (seq 0 n)).

Lemma write_from_contents data q :
  wf q -> len q + length data <= N ->
  let q' := mkRing (write_from (head q + len q) data (cells q)) (head q) (len q + length data) in
  wf q' /\ contents q' = contents q ++ data.
Proof.
  revert q; induction data as [|b data IH]; intros q Hwf Hl; cbn [write_from length] in *.
  - rewrite Nat.add_0_r, app_nil_r. by destruct q.
  - assert (wf (mkRing (<[(head q + len q) mod N := b]> (cells q)) (head q) (len q + 1))) as Hwf1.
    { destruct Hwf as (Hc & Hh & _). split; [by cbn; rewrite length_insert|]. cbn. lia. }
    specialize (IH _ Hwf1). cbn [cells head len] in IH.
    replace (head q + len q + 1) with (head q + (len q + 1)) by lia.
    replace (len q + S (length data)) with (len q + 1 + length data) by lia.
    destruct IH as [IHwf IHc]; [lia|]. split; [done|].
    rewrite IHc, contents_write by (done || lia). by rewrite <- app_assoc.
Qed.

Lemma wf_advance q n :
  wf q -> n <= len q -> wf (mkRing (cells q) ((head q + n) mod N) (len q - n)).
Proof.
  intros (Hc & Hh & Hl) Hn. split; [done|]. cbn. split; [apply Nat.mod_upper_bound; lia|lia].
Qed.

Lemma push_nonzero q v :
  wf q -> v <> 0%Z ->
  wf (push v q) /\ contents (push v q) = drop (len q + 1 - N) (contents q ++ [v]).
Proof.
  intros Hwf Hv. unfold push. rewrite (proj2 (Z.eqb_neq v 0)) by done.
  assert (0 < N) as HN by (destruct Hwf; lia).
  destruct (Nat.eqb_spec (len q) N) as [Hfull|Hne].
  - pose proof (wf_advance q 1 Hwf ltac:(lia)) as Hwf1.
    destruct (write_from_contents [v] _ Hwf1) as [Hw Hc]; cbn [cells head len length write_from] in *; [lia|].
    split; [done|]. rewrite Hc, contents_advance by (done || lia). rewrite Hfull.
    replace (N + 1 - N) with 1 by lia. rewrite drop_app_le; [done|]. rewrite length_contents. lia.
  - destruct (write_from_contents [v] q Hwf) as [Hw Hc]; cbn [length write_from] in *; [destruct Hwf; lia|].
    split; [done|]. rewrite Hc. replace (len q + 1 - N) with 0 by (destruct Hwf; lia). done.
Qed.

(** ** Properties *)

(** a push keeps the ring well formed; a zero is ignored, and otherwise the new value is last and only the
    oldest element goes when the ring was full. *)
Theorem push_spec q v :
  wf q ->
  wf (push v q) /\
  contents (push v q) = if (v =? 0)%Z then contents q else drop (len q + 1 - N) (contents q ++ [v]).
Proof.
  intros Hwf. destruct (Z.eqb_spec v 0) as [->|Hv]; [done|by apply push_nonzero].
Qed.

(** a pop returns the oldest element and leaves the rest; only an empty ring has none. *)
Theorem pop_spec q :
  wf q ->
  match pop q with
  | None => contents q = []
  | Some (v, q') => wf q' /\ contents q = v :: contents q'
  end.
Proof.
  intros Hwf. unfold pop. destruct (Nat.eqb_spec (len q) 0) as [Hz|Hz].
  - unfold contents. by rewrite Hz.
  - split; [apply wf_advance; [done|lia]|]. rewrite contents_advance by (done || lia).
    unfold contents. destruct (len q) as [|n] eqn:E; [done|]. cbn [seq map drop]. f_equal.
    unfold cell. rewrite Nat.add_0_r, Nat.mod_small; [done|]. destruct Hwf as (_ & ? & _). done.
Qed.

(** the text input is a bounded FIFO: a write appends exactly the prefix that fits and reports its length, a
    read takes a prefix of what is queued, and what is read followed by what stays is what was queued. *)
Theorem text_fifo q data n :
  wf q ->
  let '(q1, k) := text_push data q in
  let '(q2, out) := text_pop n q1 in
  wf q1 /\ wf q2 /\ k = Nat.min (length data) (N - len q) /\
  contents q1 = contents q ++ take k data /\ contents q1 = out ++ contents q2 /\
  length out = Nat.min n (len q1).
Proof.
  intros Hwf. unfold text_push. set (k := Nat.min (length data) (N - len q)).
  assert (length (take k data) = k) as Hk by (rewrite length_take; lia).
  destruct (write_from_contents (take k data) q Hwf) as [Hw Hc]; [destruct Hwf; lia|].
  rewrite Hk in Hw, Hc. set (q1 := mkRing _ _ (len q + k)) in *. unfold text_pop.
  set (m := Nat.min n (len q1)).
  split; [done|]. split; [apply wf_advance; [done|lia]|]. split; [done|]. split; [done|]. split.
  - rewrite contents_advance by (done || lia). unfold contents at 1 2.
    rewrite List.skipn_map, List.skipn_seq, <- map_app.
    rewrite <- seq_app. f_equal. f_equal. lia.
  - by rewrite length_map, length_seq.
Qed.

(** a full text input takes nothing, an empty one gives nothing. *)
Theorem text_limits q data n :
  wf q ->
  (len q = N -> (text_push data q).2 = 0) /\ (len q = 0 -> (text_pop n q).2 = []).
Proof.
  intros Hwf. split; intros Hl; unfold text_push, text_pop; cbn [snd].
  - lia.
  - by rewrite Hl, Nat.min_0_r.
Qed.
End ring.

(** The event queue is the byte queue on words. *)
Lemma events_are_queue N : events_push N = push N /\ events_pop N = pop N /\ events_clear = clear.
Proof. done. Qed.

Lemma new_wf N : 0 < N -> wf N (new N) /\ contents N (new N) = [].
Proof. intros HN. split; [|done]. split; [apply length_replicate|]. cbn. lia. Qed.

Lemma push_spec_witness :
  contents 2 (push 2 7 (push 2 6 (push 2 5 (new 2)))) = [6%Z; 7%Z] /\ wf 2 (push 2 5 (new 2)).
Proof. split; [reflexivity|]. apply (push_spec 2 (new 2) 5). apply new_wf. lia. Defined.

Lemma pop_spec_witness : contents 2 (push 2 5 (new 2)) = [5%Z].
Proof.
  pose proof (pop_spec 2 (push 2 5 (new 2))) as H. simpl in H.
  apply H. repeat split; simpl; lia.
Defined.

Lemma text_fifo_witness : (text_pop 4 2 (text_push 4 [1; 2; 3]%Z (new 4)).1).2 = [1; 2]%Z /\ wf 4 (text_push 4 [1; 2; 3]%Z (new 4)).1.
Proof.
  split; [reflexivity|]. apply (text_fifo 4 (new 4) [1; 2; 3]%Z 2). apply new_wf. lia.
Defined.

Lemma text_limits_witness : (text_pop 4 3 (new 4)).2 = [].
Proof. apply (text_limits 4 (new 4) [] 3); [apply new_wf; lia|reflexivity]. Defined.
