(* ===== verification/TreeIndex.v ===== *)
(** * The derivation tree's index ([kernel/src/scheduler/tree.rs], [struct Tree])

    Entries by node id in open addressing: a power-of-two table, a multiplicative hash, linear probing and removal by
    moving later entries up. The theorems show that the table implements a finite map from ids to entries, that its
    probing loops end, and that growing and shrinking it keep the map. *)
From S2P Require Import Prelude.
Local Open Scope nat_scope.

Module Tree.

(** ** Data *)

(** [enum At]: where a node is: a task's slot, a copy in a task's send, or nowhere but in the tree. *)
Inductive At : Type :=
| AtSlot (task : nat) (pid : Z) (index : nat)
| AtSend (task : nat) (pid : Z)
| Ghost.

#[global] Instance At_eq_dec : EqDecision At.
Proof. solve_decision. Defined.

(** [struct Entry]: a node's parent, depth, place, children list ([first], [next], [prev]) and the tasks that mapped
    memory through it. Id 0 marks a free place. *)
Record Entry := mkEntry {
  id : Z; parent : Z; depth : nat; at_ : At;
  first : Z; next : Z; prev : Z;
  maps : list (nat * Z); more_maps : bool;
}.

(** [Entry::FREE]. *)
Definition FREE : Entry := mkEntry 0 0 0 Ghost 0 0 0 [(0, 0%Z); (0, 0%Z)] false.

#[global] Instance Entry_eq_dec : EqDecision Entry.
Proof. solve_decision. Defined.

(** [struct Tree]. *)
Record Tree := mkTree { places : list Entry; live : nat; sweep : nat }.

Definition PLACES_MIN : nat := 256.
Definition SWEEP : nat := 256.

(** ** Operations *)

(** [Tree::new]. *)
Definition tree_new : Tree := mkTree (replicate PLACES_MIN FREE) 0 0.

(** [Tree::size_for]: the smallest doubling of [PLACES_MIN] that [live] entries fill to at most 7/10. The loop doubles
    at most [live] times. *)
Fixpoint size_loop (fuel live size : nat) : nat :=
  match fuel with
  | 0 => size
  | S fuel => if size * 7 <? live * 10 then size_loop fuel live (size * 2) else size
  end.
Definition size_for (live : nat) : nat := size_loop live live PLACES_MIN.

(** [usize::trailing_zeros]. *)
Fixpoint pos_trailing_zeros (p : positive) : nat :=
  match p with
  | xO p => S (pos_trailing_zeros p)
  | _ => 0
  end.
Definition trailing_zeros (n : nat) : nat :=
  match Z.of_nat n with Z.pos p => pos_trailing_zeros p | _ => 64 end.

(** [Tree::home]: the place where an id's probing starts. *)
Definition home_of (size : nat) (id : Z) : nat :=
  Z.to_nat (Z.shiftr (wrap64 (id * 0x9E3779B97F4A7C15)) (64 - Z.of_nat (trailing_zeros size))).

Definition mask_of (ps : list Entry) : nat := length ps - 1.
Definition place (ps : list Entry) (at_ : nat) : Entry := default FREE (ps !! at_).
Definition succ_of (ps : list Entry) (at_ : nat) : nat := Nat.land (at_ + 1) (mask_of ps).

(** The loop of [Tree::find]; [None] when the fuel ends first. *)
Fixpoint find_loop (fuel : nat) (ps : list Entry) (wanted : Z) (at_ : nat) : option (option nat) :=
  match fuel with
  | 0 => None
  | S fuel =>
      let found := id (place ps at_) in
      if (found =? 0)%Z then Some None
      else if (found =? wanted)%Z then Some (Some at_)
      else find_loop fuel ps wanted (succ_of ps at_)
  end.

(** [Tree::find]. *)
Definition find (t : Tree) (wanted : Z) : option nat :=
  if (wanted =? 0)%Z then None
  else default None (find_loop (length (places t)) (places t) wanted (home_of (length (places t)) wanted)).

(** [Tree::get] and [Tree::get_mut] with an update. *)
Definition get (t : Tree) (wanted : Z) : option Entry := place (places t) <$> find t wanted.
Definition get_mut (t : Tree) (wanted : Z) (f : Entry -> Entry) : Tree :=
  match find t wanted with
  | Some p => mkTree (<[p := f (place (places t) p)]> (places t)) (live t) (sweep t)
  | None => t
  end.

(** The loop of [Tree::insert]: the first free place from [at_]. *)
Fixpoint free_loop (fuel : nat) (ps : list Entry) (at_ : nat) : option nat :=
  match fuel with
  | 0 => None
  | S fuel => if (id (place ps at_) =? 0)%Z then Some at_ else free_loop fuel ps (succ_of ps at_)
  end.

(** [Tree::insert]. *)
Definition insert (t : Tree) (entry : Entry) : Tree :=
  match free_loop (length (places t)) (places t) (home_of (length (places t)) (id entry)) with
  | Some p => mkTree (<[p := entry]> (places t)) (live t + 1) (sweep t)
  | None => t
  end.

(** [a.wrapping_sub(b) & mask] on [usize]. *)
Definition gap (ps : list Entry) (a b : nat) : nat :=
  Z.to_nat (wrap64 (Z.of_nat a - Z.of_nat b) &&& Z.of_nat (mask_of ps)).

(** The loop of [Tree::remove] after the entry left its place [hole]: the entries after it that probed past the hole
    move up. *)
Fixpoint shift_loop (fuel : nat) (ps : list Entry) (hole at_ : nat) : list Entry :=
  match fuel with
  | 0 => ps
  | S fuel =>
      let e := place ps at_ in
      if (id e =? 0)%Z then ps
      else if gap ps at_ hole <=? gap ps at_ (home_of (length ps) (id e))
      then shift_loop fuel (<[at_ := FREE]> (<[hole := e]> ps)) at_ (succ_of ps at_)
      else shift_loop fuel ps hole (succ_of ps at_)
  end.

(** [Tree::remove]. *)
Definition remove (t : Tree) (wanted : Z) : Tree :=
  match find t wanted with
  | None => t
  | Some hole =>
      let ps := <[hole := FREE]> (places t) in
      mkTree (shift_loop (length ps) ps hole (succ_of ps hole)) (live t - 1) (sweep t)
  end.

(** [Tree::resize]; [room] says whether the kernel heap has the new table. *)
Definition resize (room : bool) (t : Tree) (size : nat) : Tree * bool :=
  if room then
    (fold_left insert (filter (fun e => id e <> 0%Z) (places t)) (mkTree (replicate size FREE) 0 (sweep t)), true)
  else (t, false).

(** [Tree::reserve]: room for [more] entries, growing if need be. *)
Definition reserve (room : bool) (t : Tree) (more : nat) : Tree * bool :=
  let size := size_for (live t + more) in
  if size <=? length (places t) then (t, true) else resize room t size.

(** ** Cyclic positions of a table of [n] places *)
Definition adv (n h d : nat) : nat := if h + d <? n then h + d else h + d - n.
Definition dist (n h p : nat) : nat := if h <=? p then p - h else p + n - h.

Ltac cyc := unfold adv, dist in *;
  repeat match goal with
  | |- context [?a <? ?b] => destruct (Nat.ltb_spec a b)
  | |- context [?a <=? ?b] => destruct (Nat.leb_spec a b)
  | H : context [?a <? ?b] |- _ => destruct (Nat.ltb_spec a b)
  | H : context [?a <=? ?b] |- _ => destruct (Nat.leb_spec a b)
  end; try lia.

Section positions.
Context (n : nat).
Lemma adv_lt h d : h < n -> d <= n -> adv n h d < n.
Proof. intros; cyc. Qed.
Lemma dist_lt h p : h < n -> p < n -> dist n h p < n.
Proof. intros; cyc. Qed.
Lemma adv_dist h p : h < n -> p < n -> adv n h (dist n h p) = p.
Proof. intros; cyc. Qed.
Lemma dist_adv h d : h < n -> d < n -> dist n h (adv n h d) = d.
Proof. intros; cyc. Qed.
Lemma adv_succ h d : h < n -> S d <= n -> adv n (adv n h d) 1 = adv n h (S d).
Proof. intros; cyc. Qed.
Lemma adv_0 h : h < n -> adv n h 0 = h.
Proof. intros; cyc. Qed.
End positions.

Lemma land_mask k a : Nat.land a (2 ^ k - 1) = a mod 2 ^ k.
Proof. rewrite <- Nat.land_ones. f_equal. rewrite Nat.ones_equiv. lia. Qed.

(** The table's size is a power of two that a 64-bit hash can index. *)
Definition sized (ps : list Entry) : Prop := exists k, 1 <= k <= 63 /\ length ps = 2 ^ k.

Lemma sized_pos ps : sized ps -> 2 <= length ps.
Proof. intros (k & Hk & ->). change 2 with (2 ^ 1) at 1. apply Nat.pow_le_mono_r; lia. Qed.

Lemma succ_of_adv ps p : sized ps -> p < length ps -> succ_of ps p = adv (length ps) p 1.
Proof.
  intros Hs Hp. pose proof (sized_pos ps Hs). destruct Hs as (k & Hk & Hl).
  unfold succ_of, mask_of, adv. rewrite Hl, land_mask, <- Hl.
  destruct (Nat.ltb_spec (p + 1) (length ps)); [by apply Nat.mod_small|].
  replace (p + 1) with (length ps) by lia. rewrite Nat.Div0.mod_same. lia.
Qed.

Lemma gap_dist ps a b : sized ps -> a < length ps -> b < length ps -> gap ps a b = dist (length ps) b a.
Proof.
  intros (k & Hk & Hl) Ha Hb. unfold gap, mask_of, wrap64, W64.
  assert (Z.of_nat (length ps) = 2 ^ Z.of_nat k)%Z as HZ by (rewrite Hl, Nat2Z.inj_pow; done).
  replace (Z.of_nat (length ps - 1)) with (Z.ones (Z.of_nat k)) by (rewrite Z.ones_equiv; lia).
  rewrite Z.land_ones by lia.
  rewrite Z.mod_mod_divide by (exists (2 ^ (64 - Z.of_nat k))%Z; rewrite <- Z.pow_add_r by lia; f_equal; lia).
  rewrite <- HZ. unfold dist. destruct (Nat.leb_spec b a).
  - rewrite Z.mod_small by lia. lia.
  - rewrite <- (Z.mod_add _ 1) by lia. rewrite Z.mod_small by lia. lia.
Qed.

Lemma pos_trailing_zeros_pow k : pos_trailing_zeros (Pos.pow 2 (Pos.of_succ_nat k)) = S k.
Proof.
  induction k as [|k IH]; [done|].
  change (Pos.of_succ_nat (S k)) with (Pos.succ (Pos.of_succ_nat k)).
  rewrite Pos.pow_succ_r. change (2 * 2 ^ Pos.of_succ_nat k)%positive with (xO (2 ^ Pos.of_succ_nat k)).
  cbn [pos_trailing_zeros]. by rewrite IH.
Qed.

Lemma trailing_zeros_pow k : 1 <= k -> trailing_zeros (2 ^ k) = k.
Proof.
  intros Hk. unfold trailing_zeros. destruct k as [|k]; [lia|].
  assert (Z.of_nat (2 ^ S k) = Z.pos (Pos.pow 2 (Pos.of_succ_nat k))) as ->.
  { by rewrite Nat2Z.inj_pow, Pos2Z.inj_pow. }
  apply pos_trailing_zeros_pow.
Qed.

Lemma home_lt ps i : sized ps -> home_of (length ps) i < length ps.
Proof.
  intros (k & Hk & Hl). unfold home_of. rewrite Hl, trailing_zeros_pow by lia.
  assert (0 <= wrap64 (i * 0x9E3779B97F4A7C15) < 2 ^ 64)%Z by (apply Z.mod_pos_bound; done).
  assert (Z.shiftr (wrap64 (i * 0x9E3779B97F4A7C15)) (64 - Z.of_nat k) < 2 ^ Z.of_nat k)%Z as Hlt.
  { rewrite Z.shiftr_div_pow2 by lia. apply Z.div_lt_upper_bound; [apply Z.pow_pos_nonneg; lia|].
    rewrite <- Z.pow_add_r by lia. replace (64 - Z.of_nat k + Z.of_nat k)%Z with 64%Z by lia. lia. }
  assert (0 <= Z.shiftr (wrap64 (i * 0x9E3779B97F4A7C15)) (64 - Z.of_nat k))%Z by (apply Z.shiftr_nonneg; lia).
  apply Nat2Z.inj_lt. rewrite Z2Nat.id by done. by rewrite Nat2Z.inj_pow.
Qed.


(** ** The table's invariant *)
Definition occ (ps : list Entry) (p : nat) : Prop := id (place ps p) <> 0%Z.
Definition home_at (ps : list Entry) (p : nat) : nat := home_of (length ps) (id (place ps p)).

(** No two places hold the same id. *)
Definition unique_ids (ps : list Entry) : Prop :=
  forall p q, p < length ps -> q < length ps -> occ ps p -> id (place ps p) = id (place ps q) -> p = q.

(** Every entry is reached by probing from its home: the places before it are taken, or the one being emptied. *)
Definition reachable (ps : list Entry) (hole : option nat) : Prop :=
  forall p d, p < length ps -> occ ps p -> d < dist (length ps) (home_at ps p) p ->
    let q := adv (length ps) (home_at ps p) d in occ ps q \/ hole = Some q.

Definition count (ps : list Entry) : nat := length (filter (fun e => id e <> 0%Z) ps).

Record wf (t : Tree) : Prop := {
  wf_sized : sized (places t);
  wf_unique : unique_ids (places t);
  wf_reachable : reachable (places t) None;
  wf_live : live t = count (places t);
  wf_room : live t < length (places t);
}.

(** The finite map the table stands for. *)
Definition abs (t : Tree) : gmap Z Entry :=
  list_to_map ((fun e => (id e, e)) <$> filter (fun e => id e <> 0%Z) (places t)).

Lemma occ_dec ps p : {occ ps p} + {~ occ ps p}.
Proof. unfold occ. destruct (decide (id (place ps p) = 0%Z)); [right|left]; congruence. Qed.

Lemma place_insert ps i e p :
  i < length ps -> place (<[i := e]> ps) p = if decide (p = i) then e else place ps p.
Proof.
  intros Hi. unfold place. case_decide; subst.
  - by rewrite list_lookup_insert_eq.
  - by rewrite list_lookup_insert_ne.
Qed.

Lemma place_lookup ps p e : ps !! p = Some e -> place ps p = e.
Proof. intros H. unfold place. by rewrite H. Qed.

Lemma lookup_place ps p : p < length ps -> ps !! p = Some (place ps p).
Proof. intros H. unfold place. destruct (lookup_lt_is_Some_2 ps p H) as [e He]. by rewrite He. Qed.

Lemma count_insert ps i e :
  i < length ps ->
  count (<[i := e]> ps) + (if decide (id (place ps i) = 0%Z) then 0 else 1) =
  count ps + (if decide (id e = 0%Z) then 0 else 1).
Proof.
  intros Hi. pose proof (lookup_place ps i Hi) as Hl. unfold count.
  rewrite insert_take_drop by done.
  pose proof (f_equal (fun l => length (filter (fun e => id e <> 0%Z) l)) (take_drop_middle ps i _ Hl)) as Hc.
  cbv beta in Hc. rewrite <- Hc. rewrite !filter_app, !length_app, !filter_cons.
  repeat case_decide; simpl; try done; lia.
Qed.

Lemma free_exists ps : count ps < length ps -> exists f, f < length ps /\ ~ occ ps f.
Proof.
  unfold count. intros Hlt.
  destruct (decide (Exists (fun e => id e = 0%Z) ps)) as [Hex|Hn].
  - apply Exists_exists in Hex as (e & Hel & He). apply list_elem_of_lookup in Hel as (f & Hf).
    exists f. split; [by eapply lookup_lt_Some|]. unfold occ. rewrite (place_lookup _ _ _ Hf). auto.
  - exfalso. rewrite filter_every in Hlt; [lia|]. intros e Hel Hz. apply Hn.
    apply Exists_exists. eauto.
Qed.

(** ** Probing *)
Section probing.
Context (ps : list Entry) (Hs : sized ps).
Local Abbreviation n := (length ps).

Lemma find_loop_hit fuel wanted p h d :
  wanted <> 0%Z -> h < n -> p < n -> id (place ps p) = wanted ->
  d <= dist n h p -> dist n h p - d < fuel ->
  (forall j, d <= j < dist n h p -> occ ps (adv n h j) /\ id (place ps (adv n h j)) <> wanted) ->
  find_loop fuel ps wanted (adv n h d) = Some (Some p).
Proof.
  intros Hw Hh Hp Hid. revert d. induction fuel as [|fuel IH]; intros d Hd Hf Hpath; [lia|].
  cbn [find_loop]. pose proof (dist_lt n h p Hh Hp).
  destruct (decide (d = dist n h p)) as [->|Hne].
  - rewrite adv_dist by done. rewrite Hid. rewrite (proj2 (Z.eqb_neq wanted 0)) by done.
    by rewrite Z.eqb_refl.
  - destruct (Hpath d) as [Ho Hi]; [lia|]. unfold occ in Ho.
    rewrite (proj2 (Z.eqb_neq _ 0)) by done. rewrite (proj2 (Z.eqb_neq _ wanted)) by done.
    rewrite succ_of_adv by (done || apply adv_lt; lia). rewrite adv_succ by lia.
    apply IH; [lia|lia|]. intros j Hj. apply Hpath. lia.
Qed.

Lemma find_loop_miss fuel wanted f h :
  h < n -> f < n -> ~ occ ps f -> (forall p, p < n -> id (place ps p) <> wanted) ->
  dist n h f < fuel -> find_loop fuel ps wanted h = Some None.
Proof.
  intros Hh Hf Hfree Habs. revert h Hh. induction fuel as [|fuel IH]; intros h Hh Hd; [lia|].
  cbn [find_loop]. destruct (Z.eqb_spec (id (place ps h)) 0) as [Hz|Hz]; [done|].
  rewrite (proj2 (Z.eqb_neq _ wanted)) by auto.
  assert (h <> f) as Hne by (intros ->; auto).
  rewrite succ_of_adv by done. apply IH; [apply adv_lt; lia|]. cyc.
Qed.

Lemma free_loop_spec fuel f h :
  h < n -> f < n -> ~ occ ps f -> dist n h f < fuel ->
  exists q, free_loop fuel ps h = Some q /\ q < n /\ ~ occ ps q /\
    (forall d, d < dist n h q -> occ ps (adv n h d)).
Proof.
  intros Hh Hf Hfree. revert h Hh. induction fuel as [|fuel IH]; intros h Hh Hd; [lia|].
  cbn [free_loop]. destruct (Z.eqb_spec (id (place ps h)) 0) as [Hz|Hz].
  - exists h. split; [done|]. split; [done|]. split; [by unfold occ; auto|]. intros d. cyc.
  - assert (h <> f) as Hne by (intros ->; auto).
    rewrite succ_of_adv by done. destruct (IH (adv n h 1)) as (q & Hq & Hlt & Hnq & Hpath).
    + apply adv_lt; lia.
    + cyc.
    + exists q. split; [done|]. split; [done|]. split; [done|]. intros d Hdq.
      destruct d as [|d]; [by rewrite adv_0|].
      assert (h <> q) by (intros ->; apply Hnq; done).
      replace (adv n h (S d)) with (adv n (adv n h 1) d) by (clear Hpath; cyc).
      apply Hpath. clear Hpath. cyc.
Qed.
End probing.


Lemma find_hit t wanted p :
  wf t -> wanted <> 0%Z -> p < length (places t) -> id (place (places t) p) = wanted -> find t wanted = Some p.
Proof.
  intros [Hs Hu Hr _ _] Hw Hp Hid. unfold find. rewrite (proj2 (Z.eqb_neq wanted 0)) by done.
  pose proof (home_lt _ wanted Hs) as Hh. set (h := home_of _ wanted) in *.
  rewrite <- (adv_0 (length (places t)) h) by done.
  rewrite (find_loop_hit _ Hs _ _ p); [done|done..|lia| |].
  - pose proof (dist_lt _ h p Hh Hp). lia.
  - intros j Hj. assert (occ (places t) p) as Ho by (unfold occ; congruence).
    destruct (Hr p j Hp Ho) as [Ho'|?]; [unfold home_at; rewrite Hid; apply Hj| |done].
    unfold home_at in Ho'. rewrite Hid in Ho'. fold h in Ho'. split; [done|]. intros Heq.
    assert (adv (length (places t)) h j = p) as Hjp.
    { apply Hu; [apply adv_lt; [done|pose proof (dist_lt _ h p Hh Hp); lia]|done|done|congruence]. }
    pose proof (dist_lt _ h p Hh Hp). pose proof (dist_adv (length (places t)) h j Hh) as Hda.
    rewrite Hjp in Hda. lia.
Qed.

Lemma find_miss t wanted :
  wf t -> (forall p, p < length (places t) -> id (place (places t) p) <> wanted) -> find t wanted = None.
Proof.
  intros [Hs Hu Hr Hl Hro] Habs. unfold find. case_match; [done|].
  destruct (free_exists (places t)) as (f & Hf & Hfree); [lia|].
  rewrite (find_loop_miss _ Hs _ _ f); [done| |done..|].
  - by apply home_lt.
  - apply dist_lt; [by apply home_lt|done].
Qed.

(** The probing loop of [find] ends within one turn of the table. *)
Lemma find_loop_ends t wanted :
  wf t -> wanted <> 0%Z ->
  find_loop (length (places t)) (places t) wanted (home_of (length (places t)) wanted) <> None.
Proof.
  intros Hwf Hw. pose proof Hwf as [Hs Hu Hr Hl Hro].
  destruct (decide (Exists (fun e => id e = wanted) (places t))) as [Hex|Hn].
  - apply Exists_exists in Hex as (e & Hel & He). apply list_elem_of_lookup in Hel as (p & Hp).
    pose proof (find_hit t wanted p Hwf Hw (lookup_lt_Some _ _ _ Hp)) as Hf.
    rewrite (place_lookup _ _ _ Hp) in Hf. specialize (Hf He). unfold find in Hf.
    rewrite (proj2 (Z.eqb_neq wanted 0)) in Hf by done. by destruct (find_loop _ _ _ _).
  - destruct (free_exists (places t)) as (f & Hf & Hfree); [lia|].
    rewrite (find_loop_miss _ Hs _ _ f); [done| |done| done| |].
    + by apply home_lt.
    + intros p Hp Heq. apply Hn. apply Exists_exists. exists (place (places t) p). split; [|done].
      apply list_elem_of_lookup. exists p. by apply lookup_place.
    + apply dist_lt; [by apply home_lt|done].
Qed.

Lemma unique_NoDup ps :
  unique_ids ps -> NoDup (id <$> filter (fun e => id e <> 0%Z) ps).
Proof.
  induction ps as [|x l IH]; intros Hu; [constructor|].
  assert (unique_ids l) as Hul.
  { intros p q Hp Hq Ho Heq. specialize (Hu (S p) (S q)). simpl in Hu.
    assert (S p = S q); [|lia]. apply Hu; (lia || done). }
  rewrite filter_cons. case_decide as Hz; [|by apply IH].
  rewrite fmap_cons. constructor; [|by apply IH].
  intros (e & He & Hel)%list_elem_of_fmap. apply list_elem_of_filter in Hel as [_ Hel].
  apply list_elem_of_lookup in Hel as (j & Hj).
  specialize (Hu 0 (S j)). unfold occ in Hu. change (place (x :: l) 0) with x in Hu.
  change (place (x :: l) (S j)) with (place l j) in Hu. rewrite (place_lookup _ _ _ Hj) in Hu.
  apply lookup_lt_Some in Hj. simpl in Hu. specialize (Hu ltac:(lia) ltac:(lia) Hz He). lia.
Qed.

Lemma abs_Some t i e :
  unique_ids (places t) ->
  abs t !! i = Some e <->
  i <> 0%Z /\ id e = i /\ exists p, p < length (places t) /\ place (places t) p = e.
Proof.
  intros Hu. unfold abs. rewrite <- elem_of_list_to_map.
  2:{ rewrite <- list_fmap_compose. apply unique_NoDup. done. }
  rewrite list_elem_of_fmap. split.
  - intros (e' & [= -> ->] & [Hz Hel]%list_elem_of_filter).
    apply list_elem_of_lookup in Hel as (p & Hp). split; [done|]. split; [done|].
    exists p. split; [by eapply lookup_lt_Some|by apply place_lookup].
  - intros (Hz & <- & p & Hp & <-). exists (place (places t) p). split; [done|].
    apply list_elem_of_filter. split; [done|]. apply list_elem_of_lookup. exists p. by apply lookup_place.
Qed.

Lemma get_abs_aux t i : wf t -> get t i = abs t !! i.
Proof.
  intros Hwf. pose proof Hwf as [Hs Hu Hr Hl Hro]. apply option_eq. intros e. rewrite abs_Some by done.
  unfold get. rewrite fmap_Some. split.
  - intros (p & Hf & ->). destruct (decide (i = 0%Z)) as [->|Hi]; [done|]. split; [done|].
    destruct (decide (Exists (fun e => id e = i) (places t))) as [Hex|Hn].
    + apply Exists_exists in Hex as (e & Hel & He). apply list_elem_of_lookup in Hel as (q & Hq).
      pose proof (find_hit t i q Hwf Hi (lookup_lt_Some _ _ _ Hq)) as Hf'.
      rewrite (place_lookup _ _ _ Hq) in Hf'. rewrite Hf in Hf'. specialize (Hf' He). simplify_eq.
      rewrite (place_lookup _ _ _ Hq). split; [done|]. exists q. split; [by eapply lookup_lt_Some|].
      by apply place_lookup.
    + rewrite find_miss in Hf; [done|done|]. intros q Hq Heq. apply Hn, Exists_exists.
      exists (place (places t) q). split; [|done]. apply list_elem_of_lookup. exists q. by apply lookup_place.
  - intros (Hi & Hid & p & Hp & <-). exists p. split; [|done]. by apply find_hit.
Qed.


(** ** Insertion *)
Lemma occ_insert ps i e p :
  i < length ps -> id e <> 0%Z -> occ ps p -> occ (<[i := e]> ps) p.
Proof. intros Hi He Ho. unfold occ. rewrite place_insert by done. by case_decide. Qed.

Lemma insert_reachable ps q e :
  sized ps -> q < length ps -> ~ occ ps q -> id e <> 0%Z -> reachable ps None ->
  (forall d, d < dist (length ps) (home_of (length ps) (id e)) q ->
     occ ps (adv (length ps) (home_of (length ps) (id e)) d)) ->
  reachable (<[q := e]> ps) None.
Proof.
  intros Hs Hq Hfree He Hr Hpath p d Hp Ho Hd. unfold home_at in *.
  rewrite length_insert in *. unfold occ in Ho. rewrite place_insert in Ho, Hd |- * by done.
  left. apply occ_insert; [done..|]. case_decide as Hpq; [subst p; by apply Hpath|].
  by destruct (Hr p d Hp Ho Hd).
Qed.

Lemma abs_None_place t i p :
  wf t -> i <> 0%Z -> abs t !! i = None -> p < length (places t) -> id (place (places t) p) <> i.
Proof.
  intros Hwf Hi Hnone Hp Heq.
  assert (abs t !! i = Some (place (places t) p)) as H; [|congruence].
  apply abs_Some; [apply Hwf|]. eauto.
Qed.

Lemma insert_free t e :
  wf t -> exists q, free_loop (length (places t)) (places t) (home_of (length (places t)) (id e)) = Some q /\
    q < length (places t) /\ ~ occ (places t) q /\
    (forall d, d < dist (length (places t)) (home_of (length (places t)) (id e)) q ->
       occ (places t) (adv (length (places t)) (home_of (length (places t)) (id e)) d)).
Proof.
  intros [Hs Hu Hr Hl Hro]. destruct (free_exists (places t)) as (f & Hf & Hfree); [lia|].
  apply (free_loop_spec _ Hs _ f); [by apply home_lt|done|done|apply dist_lt; [by apply home_lt|done]].
Qed.

Lemma insert_wf t e :
  wf t -> id e <> 0%Z -> abs t !! id e = None -> live t + 1 < length (places t) ->
  wf (insert t e) /\ abs (insert t e) = <[id e := e]> (abs t) /\ live (insert t e) = live t + 1 /\
  length (places (insert t e)) = length (places t).
Proof.
  intros Hwf He Hnew Hroom. pose proof (insert_free t e Hwf) as (q & Hq & Hlt & Hnq & Hpath).
  pose proof Hwf as [Hs Hu Hr Hl Hro]. unfold insert. rewrite Hq.
  assert (unique_ids (<[q := e]> (places t))) as Hu'.
  { intros p p' Hp Hp' Ho. unfold occ in Ho. rewrite length_insert in Hp, Hp'.
    rewrite !place_insert in * by done.
    pose proof (abs_None_place t (id e) p Hwf He Hnew Hp). pose proof (abs_None_place t (id e) p' Hwf He Hnew Hp').
    repeat case_decide; intros; subst; try done; try congruence. by apply Hu. }
  assert (wf (mkTree (<[q := e]> (places t)) (live t + 1) (sweep t))) as Hwf'.
  { split; cbn [places live].
    - unfold sized. by rewrite length_insert.
    - done.
    - by apply insert_reachable.
    - pose proof (count_insert (places t) q e Hlt) as Hc. unfold occ in Hnq.
      repeat case_decide; try done; lia.
    - rewrite length_insert. lia. }
  split; [done|]. split; [|cbn; by rewrite length_insert].
  apply map_eq. intros i. apply option_eq. intros x. rewrite abs_Some by done.
  rewrite lookup_insert_Some, abs_Some by done. cbn [places]. rewrite length_insert. split.
  - intros (Hi & Hid & p & Hp & Hx). rewrite place_insert in Hx by done. case_decide; subst; [by left|].
    right. split; [|eauto]. intros Heq. by apply (abs_None_place t (id e) p).
  - intros [[<- ->]|(Hne & Hi & Hid & p & Hp & Hx)].
    + split; [done|]. split; [done|]. exists q. split; [done|]. rewrite place_insert by done. by case_decide.
    + split; [done|]. split; [done|]. exists p. split; [done|]. rewrite place_insert by done.
      case_decide as Hpq; [|done]. subst. by unfold occ in Hnq.
Qed.

(** ** Updating an entry in place *)
Lemma get_mut_wf t i f :
  wf t -> (forall e, id (f e) = id e) ->
  wf (get_mut t i f) /\ abs (get_mut t i f) = alter f i (abs t) /\
  length (places (get_mut t i f)) = length (places t) /\ live (get_mut t i f) = live t.
Proof.
  intros Hwf Hf. pose proof Hwf as [Hs Hu Hr Hl Hro]. unfold get_mut.
  pose proof (get_abs_aux t i Hwf) as Hg. unfold get in Hg.
  destruct (find t i) as [p|] eqn:Hfind; cbn [fmap option_fmap option_map] in Hg.
  2:{ split; [done|]. split; [|done]. symmetry. apply map_eq. intros j. rewrite lookup_alter.
      case_decide; [subst; by rewrite <- Hg|done]. }
  symmetry in Hg. apply abs_Some in Hg as (Hi & Hid & p0 & Hp0 & Hpl); [|done].
  assert (p < length (places t)) as Hp.
  { destruct (decide (p < length (places t))); [done|]. exfalso. apply Hi. rewrite <- Hid.
    unfold place. rewrite lookup_ge_None_2 by lia. done. }
  assert (forall q, id (place (<[p := f (place (places t) p)]> (places t)) q) = id (place (places t) q)) as Hids.
  { intros q. rewrite place_insert by done. case_decide; [subst; apply Hf|done]. }
  set (ps := <[p := f (place (places t) p)]> (places t)) in *.
  assert (length ps = length (places t)) as Hlen by apply length_insert.
  assert (unique_ids ps) as Hu'.
  { intros a b Ha Hb Ho. unfold occ in Ho. rewrite Hids in Ho. rewrite !Hids. intros Heq.
    apply Hu; [lia|lia|done|done]. }
  split; [|split; [|done]].
  - split; cbn [places live]; rewrite ?Hlen; [|done| | |].
    + unfold sized. by rewrite Hlen.
    + intros a d Ha Ho Hd. unfold home_at in *. unfold occ in *. rewrite Hids in *. rewrite Hlen in *.
      destruct (Hr a d Ha Ho Hd) as [?|?]; [left; by rewrite Hids|done].
    + pose proof (count_insert (places t) p (f (place (places t) p)) Hp) as Hc. rewrite Hf in Hc. fold ps in Hc.
      repeat case_decide; lia.
    + done.
  - apply map_eq. intros j. apply option_eq. intros x. rewrite abs_Some by done.
    rewrite lookup_alter. cbn [places]. rewrite Hlen.
    assert (p0 = p) as -> by (apply Hu; [done|done|unfold occ; congruence|congruence]).
    case_decide as Hij.
    + subst j. rewrite fmap_Some. split.
      * intros (_ & Hx & q & Hq & Hpq). exists (place (places t) p). split; [apply abs_Some; eauto|].
        assert (q = p) as ->.
        { apply Hu; [done|done|unfold occ; rewrite <- Hids; congruence|rewrite <- Hids; congruence]. }
        rewrite <- Hpq. unfold ps. rewrite place_insert by done. by case_decide.
      * intros (e & Habs & ->). apply abs_Some in Habs as (_ & He & q & Hq & <-); [|done].
        split; [done|]. split; [by rewrite Hf|]. exists q. split; [done|]. unfold ps.
        rewrite place_insert by done. assert (q = p) as -> by (apply Hu; [done|done|unfold occ; congruence|congruence]).
        by case_decide.
    + rewrite abs_Some by done. split; intros (Hj & Hx & q & Hq & Hpq);
        (split; [done|]; split; [done|]; exists q; split; [done|]).
      * rewrite <- Hpq. unfold ps. rewrite place_insert by done. case_decide; [|done]. subst q.
        exfalso. apply Hij. rewrite <- Hx, <- Hpq, Hids. congruence.
      * rewrite <- Hpq. unfold ps. rewrite place_insert by done. case_decide; [|done]. subst q. congruence.
Qed.


(** ** Removal: the entries behind a hole move up *)

(** What the loop of [remove] keeps true: the hole is free, every probe path is whole but for the hole, and the entries
    passed over so far do not probe past the hole. [stop] is a free place at which the loop ends at the latest. *)
Record shifting (ps : list Entry) (hole at_ stop : nat) : Prop := {
  sh_sized : sized ps;
  sh_hole : hole < length ps /\ ~ occ ps hole;
  sh_unique : unique_ids ps;
  sh_reach : reachable ps (Some hole);
  sh_stop : stop < length ps /\ ~ occ ps stop;
  sh_at : at_ < length ps /\ 1 <= dist (length ps) hole at_ <= dist (length ps) hole stop;
  sh_passed : forall d, 1 <= d < dist (length ps) hole at_ ->
    occ ps (adv (length ps) hole d) /\
    dist (length ps) (home_at ps (adv (length ps) hole d)) (adv (length ps) hole d) < d;
}.

Definition same_entries (ps ps' : list Entry) : Prop :=
  length ps' = length ps /\ count ps' = count ps /\
  forall e, id e <> 0%Z ->
    (exists p, p < length ps' /\ place ps' p = e) <-> (exists p, p < length ps /\ place ps p = e).

Lemma same_entries_trans a b c : same_entries a b -> same_entries b c -> same_entries a c.
Proof.
  intros (L1 & C1 & E1) (L2 & C2 & E2). split; [congruence|]. split; [congruence|].
  intros e He. by rewrite E2, E1.
Qed.

Lemma shifting_done ps hole at_ stop :
  shifting ps hole at_ stop -> ~ occ ps at_ -> reachable ps None.
Proof.
  intros [Hs [Hh Hnh] Hu Hr _ [Hat Hda] Hpass] Hfree p d Hp Ho Hd. left.
  destruct (Hr p d Hp Ho Hd) as [?|Heq]; [done|]. exfalso. injection Heq as Heq.
  pose proof (home_lt ps (id (place ps p)) Hs) as Hhome. fold (home_at ps p) in Hhome.
  set (n := length ps) in *. set (h := home_at ps p) in *.
  assert (dist n h p = d + dist n hole p /\ 1 <= dist n hole p) as [Hsum Hpos].
  { clear Hr Hpass Hda. rewrite Heq. cyc. }
  destruct (Nat.lt_ge_cases (dist n hole p) (dist n hole at_)) as [Hlt|Hge].
  - destruct (Hpass (dist n hole p)) as [_ Hb]; [lia|]. rewrite adv_dist in Hb by done. fold h in Hb. lia.
  - destruct (decide (p = at_)) as [->|Hne]; [done|].
    assert (dist n hole p <> dist n hole at_) as Hdne.
    { intros E. apply Hne. rewrite <- (adv_dist n hole p), E, adv_dist by done. done. }
    assert (adv n h (d + dist n hole at_) = at_) as Hp'.
    { clear Hr Hpass. rewrite Heq in *. clear Heq. cyc. }
    destruct (Hr p (d + dist n hole at_) Hp Ho) as [Hoc|Hho].
    + fold h n. lia.
    + fold h n in Hoc. rewrite Hp' in Hoc. done.
    + fold h n in Hho. rewrite Hp' in Hho. injection Hho as ->. unfold dist in Hda. 
      rewrite Nat.leb_refl in Hda. lia.
Qed.

Lemma place_move ps hole at_ e p :
  hole < length ps -> at_ < length ps ->
  place (<[at_ := FREE]> (<[hole := e]> ps)) p =
  if decide (p = at_) then FREE else if decide (p = hole) then e else place ps p.
Proof.
  intros Hh Ha. rewrite place_insert by (by rewrite length_insert).
  destruct (decide (p = at_)); [done|]. by rewrite place_insert.
Qed.

Lemma move_same_entries ps hole at_ :
  hole < length ps -> at_ < length ps -> hole <> at_ -> ~ occ ps hole -> occ ps at_ ->
  same_entries ps (<[at_ := FREE]> (<[hole := place ps at_]> ps)).
Proof.
  intros Hh Ha Hne Hnh Hoa. split; [by rewrite !length_insert|]. split.
  - pose proof (count_insert ps hole (place ps at_) Hh) as C1.
    pose proof (count_insert (<[hole := place ps at_]> ps) at_ FREE) as C2.
    rewrite length_insert in C2. specialize (C2 Ha). rewrite place_insert in C2 by done.
    unfold occ in *. change (id FREE) with 0%Z in C2. repeat case_decide; try done; try congruence; lia.
  - intros e He. rewrite !length_insert. split; intros (p & Hp & <-).
    + rewrite place_move by done. destruct (decide (p = at_)) as [->|]; [rewrite place_move in He by done|].
      { by case_decide. }
      destruct (decide (p = hole)) as [->|]; eauto.
    + destruct (decide (p = at_)) as [->|Hpa].
      * exists hole. split; [done|]. rewrite place_move by done. by repeat case_decide.
      * destruct (decide (p = hole)) as [->|]; [done|]. exists p. split; [done|].
        rewrite place_move by done. by repeat case_decide.
Qed.

Lemma shifting_move ps hole at_ stop :
  shifting ps hole at_ stop -> occ ps at_ ->
  dist (length ps) hole at_ <= dist (length ps) (home_at ps at_) at_ ->
  shifting (<[at_ := FREE]> (<[hole := place ps at_]> ps)) at_ (adv (length ps) at_ 1) stop.
Proof.
  intros [Hs [Hh Hnh] Hu Hr [Hst Hnst] [Hat Hda] Hpass] Hoa Hle.
  pose proof (sized_pos ps Hs) as Hn2.
  assert (hole <> at_) as Hne by (intros ->; done).
  assert (stop <> at_ /\ stop <> hole) as [Hsa Hsh].
  { split; intros ->; [done|]. unfold dist in Hda. rewrite Nat.leb_refl in Hda. lia. }
  pose proof (home_lt ps (id (place ps at_)) Hs) as Hha. fold (home_at ps at_) in Hha.
  assert (forall q, q <> at_ -> occ ps q -> occ (<[at_ := FREE]> (<[hole := place ps at_]> ps)) q) as Hkeep.
  { intros q Hq Ho. unfold occ. rewrite place_move by done. repeat case_decide; try done. }
  split; rewrite ?length_insert.
  - unfold sized. by rewrite !length_insert.
  - split; [done|]. unfold occ. rewrite place_move by done. case_decide; [by intros []|done].
  - intros p q Hp Hq Ho. rewrite !length_insert in *. unfold occ in Ho. rewrite !place_move in * by done.
    repeat case_decide; subst; intros Heq; try done; try congruence.
    + exfalso. assert (at_ = q); [|congruence]. by apply Hu.
    + exfalso. assert (p = at_); [|congruence]. by apply Hu.
    + by apply Hu.
  - intros p d Hp Ho Hd. rewrite !length_insert in *. unfold home_at in *. unfold occ in Ho.
    rewrite !length_insert in *. rewrite place_move in * by done.
    destruct (decide (p = at_)) as [->|Hpa]; [done|].
    destruct (decide (p = hole)) as [->|Hph].
    + destruct (Hr at_ d Hat Hoa) as [Ho'|Ho']; unfold home_at in *.
      * clear Hr Hpass. cyc.
      * left. apply Hkeep; [|done]. intros E. clear Hr Hpass Ho' Hkeep. subst. cyc.
      * injection Ho' as Ho'. exfalso. clear Hr Hpass Hkeep.
        set (h := home_of (length ps) (id (place ps at_))) in *. cyc.
    + destruct (Hr p d Hp Ho Hd) as [Ho'|Ho']; unfold home_at in *.
      * destruct (decide (adv (length ps) (home_of (length ps) (id (place ps p))) d = at_)) as [->|]; [by right|].
        left. by apply Hkeep.
      * injection Ho' as Ho'. left. rewrite <- Ho'. unfold occ. rewrite place_move by done.
        repeat case_decide; try done; congruence.
  - split; [done|]. unfold occ. rewrite place_move by done. repeat case_decide; try done.
  - split; [apply adv_lt; lia|]. clear Hr Hpass Hkeep. cyc.
  - intros d Hd. exfalso. clear Hr Hpass Hkeep. cyc.
Qed.


Lemma shifting_pass ps hole at_ stop :
  shifting ps hole at_ stop -> occ ps at_ ->
  dist (length ps) (home_at ps at_) at_ < dist (length ps) hole at_ ->
  shifting ps hole (adv (length ps) at_ 1) stop.
Proof.
  intros [Hs [Hh Hnh] Hu Hr [Hst Hnst] [Hat Hda] Hpass] Hoa Hlt.
  pose proof (sized_pos ps Hs) as Hn2.
  assert (stop <> at_) as Hsa by (intros ->; done).
  assert (dist (length ps) hole (adv (length ps) at_ 1) = S (dist (length ps) hole at_)) as Hd.
  { clear Hr Hpass. cyc. }
  split; [done|done|done|done|done| |].
  - split; [apply adv_lt; lia|]. clear Hr Hpass. cyc.
  - intros d Hd'. rewrite Hd in Hd'. destruct (decide (d = dist (length ps) hole at_)) as [->|].
    + rewrite adv_dist by done. done.
    + apply Hpass. lia.
Qed.

Lemma shift_loop_spec fuel ps hole at_ stop :
  shifting ps hole at_ stop -> dist (length ps) at_ stop < fuel ->
  sized (shift_loop fuel ps hole at_) /\ unique_ids (shift_loop fuel ps hole at_) /\
  reachable (shift_loop fuel ps hole at_) None /\ same_entries ps (shift_loop fuel ps hole at_).
Proof.
  revert ps hole at_. induction fuel as [|fuel IH]; intros ps hole at_ Hsh Hf; [lia|].
  cbn [shift_loop]. pose proof Hsh as [Hs [Hh Hnh] Hu Hr [Hst Hnst] [Hat Hda] _].
  pose proof (sized_pos ps Hs). destruct (Z.eqb_spec (id (place ps at_)) 0) as [Hz|Hz].
  { split; [done|]. split; [done|]. split; [|done]. eapply shifting_done; [done|]. by unfold occ; auto. }
  assert (stop <> at_) as Hsa by (intros ->; done).
  assert (hole <> at_) as Hha by (intros ->; done).
  rewrite !gap_dist by (done || by apply home_lt). fold (home_at ps at_). rewrite succ_of_adv by done.
  destruct (Nat.leb_spec (dist (length ps) hole at_) (dist (length ps) (home_at ps at_) at_)) as [Hle|Hlt].
  - pose proof (shifting_move ps hole at_ stop Hsh Hz Hle) as Hsh'. apply IH in Hsh'.
    + destruct Hsh' as (A & B & C & D). split; [done|]. split; [done|]. split; [done|].
      eapply same_entries_trans; [|done]. by apply move_same_entries.
    + rewrite !length_insert. clear -Hf Hsa Hat Hst. cyc.
  - apply IH; [by apply shifting_pass|]. clear -Hf Hsa Hat Hst. cyc.
Qed.

(** The shifting loop starts with its invariant once the entry left its place. *)
Lemma shifting_start t hole :
  wf t -> hole < length (places t) -> occ (places t) hole ->
  let ps := <[hole := FREE]> (places t) in
  exists stop, shifting ps hole (adv (length ps) hole 1) stop.
Proof.
  intros [Hs Hu Hr Hl Hro] Hh Ho ps. pose proof (sized_pos _ Hs).
  destruct (free_exists (places t)) as (f & Hf & Hnf); [lia|].
  assert (f <> hole) as Hfh by (intros ->; done). exists f.
  assert (forall q, q <> hole -> place ps q = place (places t) q) as Hpl.
  { intros q Hq. unfold ps. rewrite place_insert by done. by case_decide. }
  assert (place ps hole = FREE) as Hph by (unfold ps; rewrite place_insert by done; by case_decide).
  assert (length ps = length (places t)) as Hlen by apply length_insert.
  split; rewrite ?Hlen.
  - unfold sized. by rewrite Hlen.
  - split; [done|]. unfold occ. rewrite Hph. by intros [].
  - intros p q Hp Hq Hop Heq. unfold occ in Hop.
    destruct (decide (p = hole)) as [->|]; [by rewrite Hph in Hop|]. rewrite (Hpl p) in * by done.
    destruct (decide (q = hole)) as [->|]; [by rewrite Hph in Heq|]. rewrite (Hpl q) in * by done.
    apply Hu; [lia|lia|done|done].
  - intros p d Hp Hop Hd. unfold occ, home_at in *. rewrite Hlen in *.
    destruct (decide (p = hole)) as [->|]; [by rewrite Hph in Hop|]. rewrite (Hpl p) in * by done.
    destruct (Hr p d Hp Hop Hd) as [Hoq|?]; [|done]. unfold home_at, occ in Hoq.
    destruct (decide (adv (length (places t)) (home_of (length (places t)) (id (place (places t) p))) d = hole))
      as [->|]; [by right|left]. by rewrite Hpl.
  - split; [done|]. unfold occ. by rewrite Hpl.
  - split; [apply adv_lt; lia|]. clear -H Hh Hf Hfh. cyc.
  - intros d Hd. exfalso. clear -H Hh Hd. cyc.
Qed.

Lemma remove_wf t i :
  wf t -> wf (remove t i) /\ abs (remove t i) = delete i (abs t) /\
  length (places (remove t i)) = length (places t) /\
  live (remove t i) = live t - (if decide (is_Some (abs t !! i)) then 1 else 0).
Proof.
  intros Hwf. pose proof Hwf as [Hs Hu Hr Hl Hro]. pose proof (get_abs_aux t i Hwf) as Hg.
  unfold get in Hg. unfold remove. destruct (find t i) as [hole|] eqn:Hfind.
  2:{ simpl in Hg. rewrite <- Hg. split; [done|]. split; [by rewrite delete_id|]. split; [done|].
      case_decide as Hi; [by destruct Hi|lia]. }
  cbn [fmap option_fmap option_map] in Hg. symmetry in Hg. rewrite Hg.
  destruct (decide (is_Some _)) as [_|Hn]; [|by destruct Hn; eauto].
  apply abs_Some in Hg as (Hi & Hid & p0 & Hp0 & Hpl); [|done].
  assert (hole < length (places t)) as Hh.
  { destruct (decide (hole < length (places t))); [done|]. exfalso. apply Hi. rewrite <- Hid.
    unfold place. rewrite lookup_ge_None_2 by lia. done. }
  assert (occ (places t) hole) as Ho by (unfold occ; congruence).
  destruct (shifting_start t hole Hwf Hh Ho) as (stop & Hsh).
  set (ps := <[hole := FREE]> (places t)) in *.
  assert (length ps = length (places t)) as Hlen by apply length_insert.
  rewrite succ_of_adv; [|by destruct Hsh|lia].
  pose proof (shift_loop_spec (length ps) ps hole (adv (length ps) hole 1) stop Hsh) as Hsl.
  destruct Hsl as (As & Au & Ar & Al & Ac & Ae).
  { apply dist_lt; [by destruct Hsh as [_ _ _ _ _ [? _] _]|by destruct Hsh as [_ _ _ _ [? _] _ _]]. }
  pose proof (count_insert (places t) hole FREE Hh) as Hc. fold ps in Hc. unfold occ in Ho.
  change (id FREE) with 0%Z in Hc. repeat case_decide; try done.
  split; [|split; [|split]].
  - split; cbn [places live]; [done..| |]; lia.
  - apply map_eq. intros j. apply option_eq. intros x.
    rewrite lookup_delete_Some, !abs_Some by done. cbn [places].
    assert (forall y, id y <> 0%Z -> id y <> i ->
      (exists p, p < length ps /\ place ps p = y) <-> (exists p, p < length (places t) /\ place (places t) p = y)) as Hpsy.
    { intros y Hy Hyi. rewrite Hlen. split; intros (p & Hp & Hpy); exists p; (split; [done|]).
      - unfold ps in Hpy. rewrite place_insert in Hpy by done. case_decide; [|done]. subst y. by destruct Hy.
      - unfold ps. rewrite place_insert by done. case_decide; [|done]. subst p. congruence. }
    split.
    + intros (Hj & Hx & Hex). rewrite Ae in Hex by congruence.
      assert (id x <> i) as Hxi.
      { intros E. destruct Hex as (p & Hp & Hpx). unfold ps in Hpx. rewrite place_insert in Hpx by done.
        case_decide; subst; [done|]. assert (p = hole); [|done]. apply Hu; [lia|done|done|congruence]. }
      rewrite Hpsy in Hex by congruence. split; [congruence|]. done.
    + intros (Hji & Hj & Hx & Hex). split; [done|]. split; [done|].
      rewrite Ae by congruence. apply Hpsy; congruence.
  - cbn. lia.
  - done.
Qed.


(** ** Growing and shrinking *)
Lemma empty_wf k sweep :
  1 <= k <= 63 -> wf (mkTree (replicate (2 ^ k) FREE) 0 sweep) /\ abs (mkTree (replicate (2 ^ k) FREE) 0 sweep) = ∅.
Proof.
  intros Hk. assert (forall p, place (replicate (2 ^ k) FREE) p = FREE) as Hpl.
  { intros p. unfold place. destruct (replicate (2 ^ k) FREE !! p) as [e|] eqn:E; [|done].
    apply lookup_replicate in E as [-> _]. done. }
  assert (filter (fun e => id e <> 0%Z) (replicate (2 ^ k) FREE) = []) as Hf.
  { apply filter_none. intros e Hel. apply elem_of_replicate in Hel as [-> _]. intros []. done. }
  split; [split; cbn [places live]|].
  - exists k. by rewrite length_replicate.
  - intros p q _ _ Ho. unfold occ in Ho. by rewrite Hpl in Ho.
  - intros p d _ Ho. unfold occ in Ho. by rewrite Hpl in Ho.
  - unfold count. by rewrite Hf.
  - rewrite length_replicate. pose proof (Nat.pow_nonzero 2 k). lia.
  - unfold abs. cbn [places]. by rewrite Hf.
Qed.

Lemma fold_insert_wf es t :
  wf t -> NoDup (id <$> es) -> (forall e, e ∈ es -> id e <> 0%Z /\ abs t !! id e = None) ->
  live t + length es < length (places t) ->
  wf (fold_left insert es t) /\ live (fold_left insert es t) = live t + length es /\
  length (places (fold_left insert es t)) = length (places t) /\
  forall i e, abs (fold_left insert es t) !! i = Some e <-> (e ∈ es /\ id e = i) \/ abs t !! i = Some e.
Proof.
  revert t. induction es as [|x es IH]; intros t Hwf Hnd Hnew Hroom; cbn [fold_left].
  - split; [done|]. split; [cbn; lia|]. split; [done|]. intros i e. split; [by right|].
    intros [[H _]|?]; [by apply not_elem_of_nil in H|done].
  - cbn [fmap list_fmap length] in *. apply NoDup_cons in Hnd as [Hni Hnd].
    destruct (Hnew x) as [Hx Hax]; [constructor|].
    destruct (insert_wf t x Hwf Hx Hax) as (Hwf' & Habs & Hlive & Hlen); [lia|].
    destruct (IH (insert t x)) as (A & B & C & D); [done|done| |lia|].
    { intros e He. destruct (Hnew e) as [He0 Hae]; [by constructor|]. split; [done|].
      rewrite Habs, lookup_insert_ne; [done|]. intros E. apply Hni. rewrite E. by apply list_elem_of_fmap_2. }
    split; [done|]. split; [lia|]. split; [lia|]. intros i e. rewrite D, Habs, lookup_insert_Some, elem_of_cons.
    split; [intros [[? ?]|[[<- <-]|[? ?]]]; auto|].
    intros [[[->|?] <-]|He]; [by right; left|by left|].
    right. destruct (decide (id x = i)) as [<-|]; [by rewrite Hax in He|by right].
Qed.

Lemma resize_wf t k room :
  wf t -> 1 <= k <= 63 -> live t < 2 ^ k ->
  wf (resize room t (2 ^ k)).1 /\ abs (resize room t (2 ^ k)).1 = abs t /\ live (resize room t (2 ^ k)).1 = live t /\
  (resize room t (2 ^ k)).2 = room /\
  length (places (resize room t (2 ^ k)).1) = if room then 2 ^ k else length (places t).
Proof.
  intros Hwf Hk Hlt. unfold resize. destruct room; [|done]. cbn [fst snd].
  destruct (empty_wf k (sweep t) Hk) as [Hwe Hae]. pose proof Hwf as [Hs Hu Hr Hl Hro].
  destruct (fold_insert_wf (filter (fun e => id e <> 0%Z) (places t)) _ Hwe) as (A & B & C & D).
  - by apply unique_NoDup.
  - intros e [He _]%list_elem_of_filter. by rewrite Hae.
  - cbn [live places]. rewrite length_replicate. fold (count (places t)). lia.
  - split; [done|]. split; [|split; [rewrite B; fold (count (places t)); cbn; lia|]].
    + apply map_eq. intros i. apply option_eq. intros e. rewrite D, Hae, abs_Some by done. split.
      * intros [[[He Hel]%list_elem_of_filter <-]|?]; [|done]. split; [done|]. split; [done|].
        apply list_elem_of_lookup in Hel as (p & Hp). exists p. split; [by eapply lookup_lt_Some|by apply place_lookup].
      * intros (Hi & Hid & p & Hp & <-). left. split; [|done]. apply list_elem_of_filter. split; [congruence|].
        apply list_elem_of_lookup. exists p. by apply lookup_place.
    + split; [done|]. rewrite C. cbn. by rewrite length_replicate.
Qed.

Lemma size_loop_pow fuel l j : exists k, j <= k <= j + fuel /\ size_loop fuel l (2 ^ j) = 2 ^ k.
Proof.
  revert j. induction fuel as [|fuel IH]; intros j; cbn [size_loop]; [exists j; split; [lia|done]|].
  case_match; [|exists j; split; [lia|done]].
  replace (2 ^ j * 2) with (2 ^ S j) by (simpl; lia).
  destruct (IH (S j)) as (k & Hk & E). exists k. split; [lia|done].
Qed.

Lemma size_loop_enough fuel l size :
  l * 10 <= size * 2 ^ fuel * 7 -> l * 10 <= size_loop fuel l size * 7.
Proof.
  revert size. induction fuel as [|fuel IH]; intros size Hle; cbn [size_loop]; [cbn in Hle; lia|].
  destruct (Nat.ltb_spec (size * 7) (l * 10)); [|lia]. apply IH. cbn in Hle. nia.
Qed.

Lemma size_loop_least fuel l size :
  size_loop fuel l size = size \/ (exists s, size_loop fuel l size = 2 * s /\ s * 7 < l * 10).
Proof.
  revert size. induction fuel as [|fuel IH]; intros size; cbn [size_loop]; [by left|].
  destruct (Nat.ltb_spec (size * 7) (l * 10)); [|by left]. right.
  destruct (IH (size * 2)) as [E|E]; [|done]. rewrite E. exists size. lia.
Qed.

Lemma pow2_ge n : n < 2 ^ n.
Proof. apply Nat.pow_gt_lin_r. lia. Qed.


(** Few enough entries that the next sizes stay below 2^63. *)
Definition few (l : nat) : Prop := (Z.of_nat l < 2 ^ 58)%Z.

Lemma size_for_spec l :
  few l -> exists k, 8 <= k <= 63 /\ size_for l = 2 ^ k /\ l * 10 <= size_for l * 7.
Proof.
  intros Hf. unfold size_for. change PLACES_MIN with (2 ^ 8).
  destruct (size_loop_pow l l 8) as (k & Hk & E).
  assert (l * 10 <= size_loop l l (2 ^ 8) * 7) as Hen.
  { apply size_loop_enough. pose proof (pow2_ge l). change (2 ^ 8) with 256. lia. }
  exists k. split; [|by rewrite <- E]. split; [lia|].
  destruct (size_loop_least l l (2 ^ 8)) as [E'|(s & E' & Hs)].
  - rewrite E in E'. apply Nat.pow_inj_r in E'; lia.
  - rewrite E in E'. destruct k as [|k]; [lia|]. rewrite Nat.pow_succ_r' in E'.
    assert (s = 2 ^ k) as -> by lia. unfold few in Hf.
    assert (2 ^ Z.of_nat k < 2 ^ 62)%Z as Hlt.
    { pose proof (Nat2Z.inj_pow 2 k) as Hp. change (Z.of_nat 2) with 2%Z in Hp. rewrite <- Hp.
      apply Z.lt_trans with (10 * 2 ^ 58)%Z; [lia|done]. }
    apply Z.pow_lt_mono_r_iff in Hlt; lia.
Qed.

Lemma reserve_wf t room more :
  wf t -> few (live t + more) ->
  wf (reserve room t more).1 /\ abs (reserve room t more).1 = abs t /\ live (reserve room t more).1 = live t /\
  ((reserve room t more).2 = true -> (live t + more) * 10 <= length (places (reserve room t more).1) * 7) /\
  (room = true -> (reserve room t more).2 = true) /\ ((reserve room t more).2 = false -> (reserve room t more).1 = t).
Proof.
  intros Hwf Hf. destruct (size_for_spec _ Hf) as (k & Hk & E & Hload). unfold reserve. rewrite E in *.
  destruct (Nat.leb_spec (2 ^ k) (length (places t))); cbn [fst snd].
  - split; [done|]. split; [done|]. split; [done|]. split; [lia|done].
  - destruct (resize_wf t k room Hwf ltac:(lia)) as (A & B & C & D & F).
    { pose proof (wf_room _ Hwf). lia. }
    rewrite D. split; [done|]. split; [done|]. split; [done|]. rewrite F.
    split; [intros ->; lia|]. split; [done|]. by intros ->.
Qed.

(** ** Runs of the index *)

(** What the scheduler does to the index between two looks at it: a node entered after room was made ([Scheduler::enter]),
    an entry changed in place, an entry removed, room reserved, and the reaper's shrinking ([sweep_tree]). *)
Inductive Op : Type :=
| OpEnter (room : bool) (e : Entry)
| OpUpdate (i : Z) (f : Entry -> Entry)
| OpRemove (i : Z)
| OpReserve (room : bool) (more : nat)
| OpShrink (room : bool).

Definition step (t : Tree) (o : Op) : Tree :=
  match o with
  | OpEnter room e =>
      if (id e =? 0)%Z then t else
      match get t (id e) with
      | Some _ => t
      | None => let '(t', ok) := reserve room t 1 in if ok then insert t' e else t'
      end
  | OpUpdate i f => get_mut t i f
  | OpRemove i => remove t i
  | OpReserve room more => (reserve room t more).1
  | OpShrink room =>
      let want := size_for (live t) in
      if want <? length (places t) then (resize room t want).1 else t
  end.

(** The same on a finite map: entering may be refused for want of memory, nothing else is lost. *)
Inductive mstep : gmap Z Entry -> Op -> gmap Z Entry -> Prop :=
| m_enter room e m : id e <> 0%Z -> m !! id e = None -> mstep m (OpEnter room e) (<[id e := e]> m)
| m_enter_again room e m : id e = 0%Z \/ is_Some (m !! id e) -> mstep m (OpEnter room e) m
| m_enter_refused e m : mstep m (OpEnter false e) m
| m_update i f m : mstep m (OpUpdate i f) (alter f i m)
| m_remove i m : mstep m (OpRemove i) (delete i m)
| m_reserve room more m : mstep m (OpReserve room more) m
| m_shrink room m : mstep m (OpShrink room) m.

Inductive mrun : gmap Z Entry -> list Op -> gmap Z Entry -> Prop :=
| mrun_nil m : mrun m [] m
| mrun_cons m o m' os m'' : mstep m o m' -> mrun m' os m'' -> mrun m (o :: os) m''.

(** Updates never change an entry's id; reservations ask for a bounded number of entries. *)
Definition op_ok (o : Op) : Prop :=
  match o with
  | OpUpdate _ f => forall e, id (f e) = id e
  | OpReserve _ more => (Z.of_nat more < 2 ^ 57)%Z
  | _ => True
  end.

Lemma step_simulates t o :
  wf t -> op_ok o -> (Z.of_nat (live t) < 2 ^ 57)%Z ->
  wf (step t o) /\ mstep (abs t) o (abs (step t o)) /\ live (step t o) <= live t + 1.
Proof.
  intros Hwf Hok Hfew. destruct o as [room e|i f|i|room more|room]; cbn [step op_ok] in *.
  - destruct (Z.eqb_spec (id e) 0) as [Hz|Hz]; [split; [done|]; split; [apply m_enter_again; auto|lia]|].
    rewrite get_abs_aux by done. destruct (abs t !! id e) as [x|] eqn:Hx.
    { split; [done|]. split; [apply m_enter_again; eauto|lia]. }
    destruct (reserve_wf t room 1 Hwf) as (A & B & C & D & E & F).
    { unfold few. change (2 ^ 58)%Z with (2 * 2 ^ 57)%Z. lia. }
    destruct (reserve room t 1) as [t' ok] eqn:Hres. cbn [fst snd] in *. destruct ok.
    + destruct (insert_wf t' e A Hz) as (A' & B' & C' & _).
      * by rewrite B.
      * pose proof (sized_pos _ (wf_sized _ A)). rewrite C. specialize (D eq_refl). lia.
      * split; [done|]. rewrite B', C', B, C. split; [by apply m_enter|lia].
    + rewrite (F eq_refl). destruct room; [by specialize (E eq_refl)|]. split; [done|]. split; [apply m_enter_refused|lia].
  - destruct (get_mut_wf t i f Hwf Hok) as (A & B & _ & C). split; [done|]. rewrite B, C. split; [constructor|lia].
  - destruct (remove_wf t i Hwf) as (A & B & _ & C). split; [done|]. rewrite B, C. split; [constructor|]. case_decide; lia.
  - destruct (reserve_wf t room more Hwf) as (A & B & C & _).
    { unfold few. change (2 ^ 58)%Z with (2 * 2 ^ 57)%Z. lia. }
    split; [done|]. rewrite B, C. split; [constructor|lia].
  - destruct (Nat.ltb_spec (size_for (live t)) (length (places t))); [|split; [done|]; split; [constructor|lia]].
    destruct (size_for_spec (live t)) as (k & Hk & E & Hl). { unfold few. change (2 ^ 58)%Z with (2 * 2 ^ 57)%Z. lia. }
    rewrite E in *. assert (live t < 2 ^ k) as Hlt by (pose proof (Nat.pow_nonzero 2 k); lia).
    destruct (resize_wf t k room Hwf ltac:(lia) Hlt) as (A & B & C & _).
    split; [done|]. rewrite B, C. split; [constructor|lia].
Qed.

(** ** Properties *)

(** C10: any run of the index's operations from the empty table stays well formed and simulates the same run on a
    finite map; every lookup then gives the map's answer. *)
Theorem index_simulates_map ops :
  Forall op_ok ops -> (Z.of_nat (length ops) < 2 ^ 57)%Z ->
  let t := fold_left step ops tree_new in
  wf t /\ mrun ∅ ops (abs t) /\ forall i, get t i = abs t !! i.
Proof.
  intros Hok Hlen.
  assert (forall t, wf t -> (Z.of_nat (live t + length ops) < 2 ^ 57)%Z ->
    wf (fold_left step ops t) /\ mrun (abs t) ops (abs (fold_left step ops t))) as Hrun.
  { clear Hlen. induction Hok as [|o ops Ho _ IH]; intros t Hwf Hl; cbn [fold_left]; [split; [done|constructor]|].
    cbn [length] in Hl. destruct (step_simulates t o Hwf Ho) as (A & B & C); [lia|].
    destruct (IH (step t o) A) as [D E]; [lia|]. split; [done|]. by econstructor. }
  destruct (empty_wf 8 0) as [Hwe Hae]; [lia|].
  destruct (Hrun tree_new Hwe) as [A B]; [done|].
  change tree_new with (mkTree (replicate (2 ^ 8) FREE) 0 0) in *. rewrite Hae in B.
  split; [done|]. split; [done|]. intros i. by apply get_abs_aux.
Qed.

(** probing ends: on a well-formed table the loop of [find] reaches the id or a free place within one turn. *)
Theorem find_terminates t wanted :
  wf t -> wanted <> 0%Z ->
  exists r, find_loop (length (places t)) (places t) wanted (home_of (length (places t)) wanted) = Some r /\ r = find t wanted.
Proof.
  intros Hwf Hw. pose proof (find_loop_ends t wanted Hwf Hw) as He. unfold find.
  rewrite (proj2 (Z.eqb_neq wanted 0)) by done.
  destruct (find_loop _ _ _ _) as [r|]; [|done]. exists r. done.
Qed.

(** A node entered, its copy entered under it, and the first removed again. *)
Definition sample_ops : list Op :=
  [OpEnter true (mkEntry 5 0 0 (AtSlot 1 7 2) 0 0 0 (maps FREE) false);
   OpEnter true (mkEntry 6 5 1 (AtSend 1 7) 0 0 0 (maps FREE) false);
   OpRemove 5; OpShrink true].

Lemma index_simulates_map_witness :
  let t := fold_left step sample_ops tree_new in wf t /\ mrun ∅ sample_ops (abs t) /\ forall i, get t i = abs t !! i.
Proof.
  apply (index_simulates_map sample_ops).
  - repeat constructor.
  - done.
Defined.

Lemma find_terminates_witness :
  exists r, find_loop 256 (places tree_new) 9 (home_of 256 9) = Some r /\ r = find tree_new 9.
Proof.
  apply (find_terminates tree_new 9).
  - apply (empty_wf 8 0). lia.
  - lia.
Defined.

End Tree.
