(* ===== verification/Caps.v ===== *)
(** * Capabilities and a task's capability table ([kernel/src/scheduler.rs])

    The capability type, what [CAP_MINT] and a transfer make of one, and the table that names capabilities by handles
    (slot and generation). The theorems: derived capabilities never have more authority than their source, a badge is
    set once, a writable object without the grant right keeps one writer, and stale handles are refused. *)
From S2P Require Import Prelude Abi.

(** ** Capabilities *)

(** [enum Capability]. *)
Inductive Capability : Type :=
| Endpoint (id : nat) (rights : Z) (badge : Z)
| Memory (base size : Z) (rights : Z)
| Dma (base size : Z)
| Mmio (base size : Z)
| IoPorts (base count : Z)
| Interrupt (line : Z)
| Input
| Display
| Spawn
| Reply (slot : nat) (pid : Z) (seq : Z)
| Platform
| Control
| Restart
| Observe
| Escrow (kind : Z)
| Firmware
| Text (slot : nat) (pid : Z).

#[global] Instance Capability_eq_dec : EqDecision Capability.
Proof. solve_decision. Defined.

(** [rights & R != 0]. *)
Definition has (rights r : Z) : bool := negb (rights &&& r =? 0).

(** [Capability::privilege]. *)
Definition privilege (kind : Z) : option Capability :=
  if kind =? CAP_KIND_INPUT then Some Input
  else if kind =? CAP_KIND_DISPLAY then Some Display
  else if kind =? CAP_KIND_SPAWN then Some Spawn
  else if kind =? CAP_KIND_CONTROL then Some Control
  else if kind =? CAP_KIND_OBSERVE then Some Observe
  else if kind =? CAP_KIND_FIRMWARE then Some Firmware
  else None.

(** [Capability::overlaps]. *)
Definition overlaps (c : Capability) (physical size : Z) : bool :=
  match c with
  | Memory p s _ | Dma p s => (p <? physical + size) && (physical <? p + s)
  | _ => false
  end.

(** [Scheduler::move_only]: a writable memory object without the grant right. *)
Definition move_only (c : Capability) : bool :=
  match c with
  | Memory _ _ r => has r CAP_WRITE && negb (has r CAP_GRANT)
  | _ => false
  end.

(** The closure [range] of [Scheduler::mint]: a sub-range of [size] units at [base]. *)
Definition mint_range (offset length base size align : Z) : option (Z * Z) :=
  length' ← (if length =? 0 then checked_sub size offset else Some length);
  if (offset mod align =? 0) && (length' mod align =? 0) && (0 <? length') then
    end_ ← checked_add offset length';
    if end_ <=? size then Some (base + offset, length') else None
  else None.

(** [Scheduler::mint] (CAP_MINT): a child with narrower authority. *)
Definition mint (cap : Capability) (mask offset length badge : Z) : option Capability :=
  let range base size align := mint_range offset length base size align in
  match cap with
  | Endpoint id rights old =>
      if (badge <=? BADGE_MAX) && ((badge =? 0) || (old =? badge) || ((old =? 0) && has rights CAP_BADGE)) then
        let badge := if negb (old =? 0) then old else wrap16 badge in
        let rights := (rights ||| (if has rights CAP_KEEP then CAP_READ else 0)) &&& wrap8 mask in
        Some (Endpoint id (if negb (badge =? 0) then Z.ldiff rights CAP_BADGE else rights) badge)
      else None
  | IoPorts base count => '(b, c) ← range base count 1; Some (IoPorts (wrap16 b) (wrap16 c))
  | Memory base size rights =>
      let allowed := if negb (has rights CAP_GRANT) then Z.ldiff rights CAP_WRITE else rights in
      '(b, s) ← range base size 4096; Some (Memory b s (allowed &&& wrap8 mask))
  | Dma base size => '(b, s) ← range base size 4096; Some (Dma b s)
  | Mmio base size => '(b, s) ← range base size 4096; Some (Mmio b s)
  | Reply _ _ _ => None
  | other => Some other
  end.

(** The capability [Scheduler::transfer] hands over from a slot holding [cap] under the sender's mask. *)
Definition narrowed (cap : Capability) (mask : Z) : option Capability :=
  match cap with
  | Endpoint id rights badge => Some (Endpoint id (rights &&& wrap8 mask) badge)
  | Reply _ _ _ => None
  | other => Some other
  end.

(** ** Authority *)

(** A right of [a] is a right of [b], counting that a keeper may mint readers. *)
Definition effective (rights : Z) : Z := rights ||| (if has rights CAP_KEEP then CAP_READ else 0).
Definition rights_le (a b : Z) : Prop := Z.land a b = a.

(** [no_more c p]: capability [c] gives no authority that [p] does not give. *)
Definition no_more (c p : Capability) : Prop :=
  match c, p with
  | Endpoint i r b, Endpoint i' r' b' =>
      i = i' /\ rights_le r (effective r') /\ (b' <> 0 -> b = b') /\ (b <> b' -> has r' CAP_BADGE = true)
  | Memory a s r, Memory a' s' r' =>
      a' <= a /\ a + s <= a' + s' /\ rights_le r r'
  | Dma a s, Dma a' s' | Mmio a s, Mmio a' s' | IoPorts a s, IoPorts a' s' => a' <= a /\ a + s <= a' + s'
  | _, _ => c = p
  end.

(** Capabilities the kernel makes: words in range. *)
Definition cap_wf (c : Capability) : Prop :=
  match c with
  | Endpoint _ r b => 0 <= r < 256 /\ 0 <= b <= BADGE_MAX /\ (b <> 0 -> has r CAP_BADGE = false)
  | Memory a s r => 0 <= a /\ 0 <= s /\ a + s <= W64 /\ 0 <= r < 256
  | Dma a s | Mmio a s => 0 <= a /\ 0 <= s /\ a + s <= W64
  | IoPorts a s => 0 <= a < W16 /\ 0 <= s < W16 /\ a + s <= W16
  | _ => True
  end.

(** ** Lemmas on rights *)
Lemma rights_le_bits a b :
  rights_le a b <-> forall n, 0 <= n -> Z.testbit a n = true -> Z.testbit b n = true.
Proof.
  unfold rights_le. split.
  - intros H n Hn. rewrite <- H at 1. rewrite Z.land_spec. by intros [_ ?]%andb_true_iff.
  - intros H. apply Z.bits_inj'. intros n Hn. rewrite Z.land_spec. specialize (H n Hn).
    destruct (Z.testbit a n); [by rewrite H|done].
Qed.

Lemma rights_le_refl a : rights_le a a.
Proof. apply Z.land_diag. Qed.

Lemma rights_le_trans a b c : rights_le a b -> rights_le b c -> rights_le a c.
Proof. rewrite !rights_le_bits. auto. Qed.

Lemma rights_le_mask a b m : rights_le a b -> rights_le (a &&& m) b.
Proof. rewrite !rights_le_bits. intros H n Hn. rewrite Z.land_spec. intros [? _]%andb_true_iff. auto. Qed.

Lemma rights_le_ldiff a b m : rights_le a b -> rights_le (Z.ldiff a m) b.
Proof. rewrite !rights_le_bits. intros H n Hn. rewrite Z.ldiff_spec. intros [? _]%andb_true_iff. auto. Qed.

Lemma rights_le_effective a : rights_le a (effective a).
Proof.
  rewrite rights_le_bits. intros n Hn. unfold effective. rewrite Z.lor_spec. by intros ->.
Qed.

Lemma has_mono a b r : rights_le a b -> has a r = true -> has b r = true.
Proof.
  unfold has, rights_le. rewrite !negb_true_iff, !Z.eqb_neq. intros H Ha Hb. apply Ha.
  rewrite <- H, <- Z.land_assoc, Hb. apply Z.land_0_r.
Qed.

Lemma has_le_land a b r : has (a &&& b) r = true -> has a r = true.
Proof. apply has_mono. apply rights_le_mask, rights_le_refl. Qed.

(** Only the keeper's right to mint readers is added, so the effective rights are closed. *)
Lemma effective_mono a b : rights_le a (effective b) -> rights_le (effective a) (effective b).
Proof.
  unfold rights_le, effective. intros H. destruct (has a CAP_KEEP) eqn:Ha; [|by rewrite Z.lor_0_r].
  assert (has b CAP_KEEP = true) as Hb.
  { apply (has_mono _ _ CAP_KEEP H) in Ha. destruct (has b CAP_KEEP) eqn:E; [done|].
    rewrite Z.lor_0_r in Ha. congruence. }
  rewrite Hb in *. rewrite Z.land_lor_distr_l, H. f_equal. rewrite Z.land_lor_distr_r.
  rewrite Z.land_diag. apply Z.bits_inj'; intros. rewrite Z.lor_spec, Z.land_spec.
  destruct (Z.testbit CAP_READ n), (Z.testbit b n); done.
Qed.

Lemma land_bound a b : 0 <= b < 256 -> 0 <= a &&& b < 256.
Proof.
  intros Hb. replace b with (b &&& Z.ones 8) by (rewrite Z.land_ones by lia; apply Z.mod_small; lia).
  rewrite Z.land_assoc, Z.land_ones by lia. apply Z.mod_pos_bound. lia.
Qed.

Lemma ldiff_bound a b : 0 <= a < 256 -> 0 <= Z.ldiff a b < 256.
Proof.
  intros Ha. rewrite Z.ldiff_land, Z.land_comm. by apply land_bound.
Qed.

Lemma has_ldiff a r : has (Z.ldiff a r) r = false.
Proof.
  unfold has. apply negb_false_iff, Z.eqb_eq. apply Z.bits_inj'. intros n Hn.
  rewrite Z.land_spec, Z.ldiff_spec, Z.bits_0. by destruct (Z.testbit a n), (Z.testbit r n).
Qed.

Lemma wrap8_bound m : 0 <= wrap8 m < 256.
Proof. apply Z.mod_pos_bound. done. Qed.

(** ** Minting *)
Lemma mint_range_Some offset length base size align b l :
  0 <= offset -> 0 <= length -> mint_range offset length base size align = Some (b, l) ->
  b = base + offset /\ 0 < l /\ base <= b /\ b + l <= base + size.
Proof.
  intros Ho Hl. unfold mint_range, mbind, option_bind.
  destruct (if length =? 0 then _ else _) as [l'|] eqn:Hl'; [|done].
  destruct (_ && (0 <? l')) eqn:Hc; [|done]. destruct (checked_add offset l') as [e|] eqn:He; [|done].
  destruct (Z.leb_spec e size); [|done]. intros [= <- <-]. apply checked_add_Some in He. lia.
Qed.

Lemma mint_no_more cap mask offset length badge c :
  cap_wf cap -> 0 <= offset -> 0 <= length -> 0 <= badge ->
  mint cap mask offset length badge = Some c -> no_more c cap /\ cap_wf c.
Proof.
  intros Hwf Ho Hl Hb. destruct cap; cbn [mint]; try (intros [= <-]; done).
  - case_match eqn:Hc; [|done]. intros [= <-]. cbn [cap_wf no_more] in *.
    destruct Hwf as (Hr & Hbd & Hbad). apply andb_true_iff in Hc as [Hc1 Hc2].
    unfold BADGE_MAX in *. pose proof (wrap8_bound mask) as Hm.
    fold (effective rights).
    assert (wrap16 badge = badge) as Hw by (apply Z.mod_small; unfold W16; lia).
    rewrite Hw. set (nb := if negb (badge0 =? 0) then badge0 else badge).
    assert (rights_le (effective rights &&& wrap8 mask) (effective rights)) as Hle
      by apply rights_le_mask, rights_le_refl.
    split; [split; [done|split; [|split]]|split; [|split]].
    + case_match; [by apply rights_le_ldiff|done].
    + unfold nb. intros Hn. destruct (Z.eqb_spec badge0 0); [done|]. done.
    + unfold nb. destruct (Z.eqb_spec badge0 0) as [->|]; cbn; [|done]. intros Hn.
      destruct (has rights CAP_BADGE); [done|]. exfalso. lia.
    + case_match; [apply ldiff_bound|]; by apply land_bound.
    + unfold nb. destruct (Z.eqb_spec badge0 0); cbn; lia.
    + intros Hn. rewrite (proj2 (Z.eqb_neq nb 0)) by done. apply has_ldiff.
  - destruct (mint_range _ _ _ _ _) as [[b l]|] eqn:Hr; [|done]. intros [= <-].
    apply mint_range_Some in Hr as (? & ? & ? & ?); [|done..]. cbn [cap_wf no_more] in *.
    pose proof (wrap8_bound mask). split; [|split; [lia|split; [lia|split; [lia|by apply land_bound]]]].
    split; [done|]. split; [done|]. apply rights_le_mask. case_match; [apply rights_le_ldiff|]; apply rights_le_refl.
  - destruct (mint_range _ _ _ _ _) as [[b l]|] eqn:Hr; [|done]. intros [= <-].
    apply mint_range_Some in Hr as (? & ? & ? & ?); [|done..]. cbn in *. lia.
  - destruct (mint_range _ _ _ _ _) as [[b l]|] eqn:Hr; [|done]. intros [= <-].
    apply mint_range_Some in Hr as (? & ? & ? & ?); [|done..]. cbn in *. lia.
  - destruct (mint_range _ _ _ _ _) as [[b l]|] eqn:Hr; [|done]. intros [= <-].
    apply mint_range_Some in Hr as (? & ? & ? & ?); [|done..]. cbn in *. unfold wrap16, W16 in *.
    rewrite !Z.mod_small by lia. lia.
Qed.

Lemma narrowed_no_more cap mask c :
  cap_wf cap -> narrowed cap mask = Some c -> no_more c cap /\ cap_wf c.
Proof.
  intros Hwf. destruct cap; cbn [narrowed]; try (intros [= <-]; cbn; try done; lia).
  - intros [= <-]. cbn [cap_wf no_more] in *. destruct Hwf as (Hr & Hb & Hbad). pose proof (wrap8_bound mask).
    split; [split; [done|split; [|split; done]]|split; [by apply land_bound|split; [done|]]].
    + apply rights_le_mask, rights_le_effective.
    + intros Hn. apply not_true_iff_false. intros E%has_le_land. by rewrite Hbad in E.
  - intros [= <-]. cbn in *. split; [|done]. split; [lia|]. split; [lia|apply rights_le_refl].
Qed.

Lemma effective_badge r : has (effective r) CAP_BADGE = has r CAP_BADGE.
Proof.
  unfold effective, has. f_equal. f_equal. rewrite Z.land_lor_distr_l.
  destruct (negb (r &&& CAP_KEEP =? 0)); [|apply Z.lor_0_r].
  change (CAP_READ &&& CAP_BADGE) with 0. apply Z.lor_0_r.
Qed.

Lemma no_more_refl c : cap_wf c -> no_more c c.
Proof.
  destruct c; cbn; try done; try lia; intros Hwf.
  - split; [done|]. split; [apply rights_le_effective|done].
  - split; [lia|]. split; [lia|apply rights_le_refl].
Qed.

Lemma no_more_trans a b c : cap_wf b -> no_more a b -> no_more b c -> no_more a c.
Proof.
  intros Hwf Hab Hbc. destruct b; cbn in *; try (destruct a; cbn in *; try done; simplify_eq; done).
  - destruct a; try done. destruct c; try done. cbn in *.
    destruct Hab as (-> & Hr & Hb1 & Hb2), Hbc as (-> & Hr' & Hb1' & Hb2'), Hwf as (_ & _ & Hbad).
    split; [done|]. split.
    { eapply rights_le_trans; [done|]. by apply effective_mono. }
    split; [intros Hn; rewrite <- Hb1'; [apply Hb1; rewrite Hb1'|]; done|].
    intros Hne. destruct (decide (badge0 = badge)) as [->|Hne']; [by apply Hb2'|].
    specialize (Hb2 Hne'). apply (has_mono _ _ _ Hr') in Hb2. by rewrite effective_badge in Hb2.
  - destruct a; try done. destruct c; try done. cbn in *.
    destruct Hab as (? & ? & Hr), Hbc as (? & ? & Hr'). split; [lia|]. split; [lia|]. by eapply rights_le_trans.
  - destruct a; try done. destruct c; try done. cbn in *. lia.
  - destruct a; try done. destruct c; try done. cbn in *. lia.
  - destruct a; try done. destruct c; try done. cbn in *. lia.
Qed.

(** A derivation step: a mint, or a transfer (copy or move) under a mask. *)
Inductive derives (p : Capability) : Capability -> Prop :=
| derives_mint mask offset length badge c :
    0 <= offset -> 0 <= length -> 0 <= badge -> mint p mask offset length badge = Some c -> derives p c
| derives_transfer mask c : narrowed p mask = Some c -> derives p c.

Lemma derives_wf p c : cap_wf p -> derives p c -> no_more c p /\ cap_wf c.
Proof.
  intros Hwf [mask offset length badge c' Ho Hl Hb H|mask c' H]; [|exact (narrowed_no_more _ _ _ Hwf H)].
  exact (mint_no_more _ _ _ _ _ _ Hwf Ho Hl Hb H).
Qed.

Lemma derives_star p c : cap_wf p -> rtc derives p c -> no_more c p /\ cap_wf c.
Proof.
  intros Hwf Hr. induction Hr as [p|p q c Hpq _ IH]; [split; [by apply no_more_refl|done]|].
  destruct (derives_wf p q Hwf Hpq) as [Hq Hwq]. destruct (IH Hwq) as [Hc Hwc].
  split; [|done]. exact (no_more_trans _ _ _ Hwq Hc Hq).
Qed.

(** ** Properties of derivation *)

(** C11: however often a capability is minted, copied and moved on, what results has no more authority than the
    first one: no new endpoint, range or right (a keeper's minted readers aside), and no second badge. *)
Theorem derived_no_more p c : cap_wf p -> rtc derives p c -> no_more c p.
Proof. intros Hwf Hr. by apply derives_star. Qed.

Lemma derived_no_more_witness :
  no_more (Endpoint 3 CAP_WRITE 9) (Endpoint 3 (CAP_WRITE ||| CAP_BADGE) 0).
Proof.
  apply derived_no_more; [by split_and!|].
  eapply rtc_l; [|eapply rtc_l; [|apply rtc_refl]].
  - by apply (derives_mint _ 255 0 0 9).
  - by apply (derives_transfer _ 2).
Defined.

(** an endpoint capability with a badge keeps that badge through every derivation, so a server can tell the
    holders apart by it. *)
Theorem badge_set_once id rights badge c :
  cap_wf (Endpoint id rights badge) -> badge <> 0 -> rtc derives (Endpoint id rights badge) c ->
  exists r, c = Endpoint id r badge /\ has r CAP_BADGE = false.
Proof.
  intros Hwf Hb Hr. destruct (derives_star _ _ Hwf Hr) as [Hle Hwc].
  destruct c as [id' r b| | | | | | | | | | | | | | | |]; try done. cbn in *. destruct Hle as (-> & _ & Hbb & _), Hwc as (_ & _ & Hbad).
  rewrite (Hbb Hb) in *. exists r. split; [done|]. by apply Hbad.
Qed.

Lemma badge_set_once_witness :
  exists r, Endpoint 3 CAP_WRITE 9 = Endpoint 3 r 9 /\ has r CAP_BADGE = false.
Proof.
  apply (badge_set_once 3 (CAP_WRITE ||| CAP_GRANT) 9); [by split_and!|done|].
  apply rtc_once. by apply (derives_mint _ 2 0 0 9).
Defined.

(** Derivations that leave the source in place: mints, and copies of what may be copied. *)
Inductive copies (p : Capability) : Capability -> Prop :=
| copies_mint mask offset length badge c :
    0 <= offset -> 0 <= length -> 0 <= badge -> mint p mask offset length badge = Some c -> copies p c
| copies_copy mask c : move_only p = false -> narrowed p mask = Some c -> copies p c.

Definition writable (c : Capability) : bool :=
  match c with Memory _ _ r => has r CAP_WRITE | _ => false end.

Lemma copies_not_writable p c : writable p = false \/ move_only p = true -> copies p c -> writable c = false.
Proof.
  intros Hp [mask offset length badge c' _ _ _ Hm|mask c' Hmo Hn].
  - destruct p; cbn [mint] in Hm; try (simplify_eq; done).
    + case_match; simplify_eq; done.
    + destruct (mint_range _ _ _ _ _) as [[b l]|]; [|done]. cbn in Hm. simplify_eq. cbn in *.
      destruct (has (_ &&& wrap8 mask) CAP_WRITE) eqn:E; [|done]. apply has_le_land in E.
      destruct (has rights CAP_GRANT) eqn:G; cbn in *.
      * rewrite andb_false_r in Hp. destruct Hp; congruence.
      * rewrite has_ldiff in E. done.
    + destruct (mint_range _ _ _ _ _) as [[b l]|]; [|done]. cbn in Hm. by simplify_eq.
    + destruct (mint_range _ _ _ _ _) as [[b l]|]; [|done]. cbn in Hm. by simplify_eq.
    + destruct (mint_range _ _ _ _ _) as [[b l]|]; [|done]. cbn in Hm. by simplify_eq.
  - destruct Hp as [Hp|Hp]; [|congruence]. destruct p; cbn in *; simplify_eq; done.
Qed.

(** one writer: everything copied or minted, at any distance, from a writable memory object without the grant
    right is read-only, so only its holder writes it. *)
Theorem one_writer p q c : move_only p = true -> copies p q -> rtc copies q c -> writable c = false.
Proof.
  intros Hm Hpq Hr. assert (writable q = false) as Hq by (eapply copies_not_writable; [by right|done]).
  clear Hm Hpq p. induction Hr as [q|q r c Hqr _ IH]; [done|]. apply IH.
  eapply copies_not_writable; [by left|done].
Qed.

Lemma one_writer_witness : writable (Memory 8192 4096 CAP_READ) = false.
Proof.
  apply (one_writer (Memory 4096 8192 (CAP_READ ||| CAP_WRITE)) (Memory 8192 4096 CAP_READ)); [done| |apply rtc_refl].
  by apply (copies_mint _ 255 4096 4096 0).
Defined.

(** the part of a memory object that a mint gives is not empty, lies inside the source's range in whole pages,
    has the asked length (the rest of the object for 0), no right the source lacks, and no write right unless the source
    has the grant right. *)
Theorem mint_subrange base size rights mask offset length badge c :
  cap_wf (Memory base size rights) -> 0 <= offset -> 0 <= length ->
  mint (Memory base size rights) mask offset length badge = Some c ->
  exists s r, c = Memory (base + offset) s r /\ 0 < s /\ offset + s <= size /\ offset mod 4096 = 0 /\ s mod 4096 = 0 /\
    (length <> 0 -> s = length) /\ rights_le r rights /\ (has rights CAP_GRANT = false -> has r CAP_WRITE = false).
Proof.
  intros Hwf Ho Hl. cbn [mint]. unfold mint_range, mbind, option_bind.
  destruct (if length =? 0 then _ else _) as [l'|] eqn:Hl'; [|done].
  destruct (_ && (0 <? l')) eqn:Hc; [|done]. destruct (checked_add offset l') as [e|] eqn:He; [|done].
  destruct (Z.leb_spec e size); [|done]. intros [= <-]. apply checked_add_Some in He as [-> _].
  eexists _, _. split; [done|].
  assert (length <> 0 -> l' = length) as Hll by (intros; destruct (Z.eqb_spec length 0); [done|by simplify_eq]).
  repeat (split; [first [done | lia]|]). split.
  - apply rights_le_mask. destruct (negb (has rights CAP_GRANT)); [apply rights_le_ldiff|]; apply rights_le_refl.
  - intros ->. cbn. destruct (has (_ &&& wrap8 mask) CAP_WRITE) eqn:E; [|done].
    apply has_le_land in E. by rewrite has_ldiff in E.
Qed.

Lemma mint_subrange_witness : exists s r, Memory 8192 4096 1 = Memory (4096 + 4096) s r /\ 0 < s /\ 4096 + s <= 8192 /\
  4096 mod 4096 = 0 /\ s mod 4096 = 0 /\ (0 <> 0 -> s = 0) /\ rights_le r 3 /\ (has 3 CAP_GRANT = false -> has r CAP_WRITE = false).
Proof. apply (mint_subrange 4096 8192 3 255 4096 0 0); [by split_and!|done|done|done]. Defined.

(** ** The capability table of a task *)

(** [struct Node]: identity in the derivation tree; parent 0 is a root. *)
Record Node : Type := MkNode { node_id : Z; node_parent : Z }.
Definition Node_default : Node := {| node_id := 0; node_parent := 0 |}.

(** The fields [cspace], [generations] and [nodes] of [struct Task]. *)
Record CTable : Type := MkCTable {
  cspace : list (option Capability);
  generations : list Z;
  nodes : list Node;
}.

(** A table as [Scheduler::spawn] makes it: the granted capabilities in the fixed slots, [CAP_SLOTS] slots in all. *)
Definition ctable_new (caps : list (option Capability)) (ns : list Node) : CTable :=
  {| cspace := resize CAP_SLOTS None caps; generations := replicate CAP_SLOTS 1; nodes := resize CAP_SLOTS Node_default ns |}.

(** [Scheduler::free_slot]. *)
Definition free_slot (cs : list (option Capability)) : option nat :=
  match List.find (fun i => bool_decide (cs !! i = Some None)) (seq SLOT_DYNAMIC (length cs - SLOT_DYNAMIC)) with
  | Some i => Some i
  | None => if (length cs <? CAP_SLOTS_MAX)%nat then Some (length cs) else None
  end.

(** [Scheduler::index] on one task's table: handle to slot. *)
Definition index (t : CTable) (handle : Z) : option nat :=
  let i := Z.to_nat (handle &&& HANDLE_SLOT_MASK) in
  let generation := Z.shiftr handle HANDLE_GENERATION_SHIFT in
  if (i =? 0)%nat || (length (cspace t) <=? i)%nat then None
  else
    let expected := if (i <? SLOT_DYNAMIC)%nat then 0 else default 0 (generations t !! i) in
    if generation =? expected then Some i else None.

(** [Scheduler::handle]: slot to handle. *)
Definition handle (t : CTable) (i : nat) : Z :=
  if (i <? SLOT_DYNAMIC)%nat then Z.of_nat i
  else Z.of_nat i ||| Z.shiftl (default 0 (generations t !! i)) HANDLE_GENERATION_SHIFT.

(** [Scheduler::cap]: the capability a handle names. *)
Definition cap (t : CTable) (h : Z) : option Capability :=
  i ← index t h; mjoin (cspace t !! i).

(** [Scheduler::room]; [fits] is whether the frame pool can grow the three vectors. *)
Definition room (fits : bool) (t : CTable) : option (nat * CTable) :=
  i ← free_slot (cspace t);
  if (i =? length (cspace t))%nat then
    let more := Nat.min (length (cspace t)) (CAP_SLOTS_MAX - length (cspace t)) in
    if fits then
      Some (i, {| cspace := cspace t ++ replicate more None;
                  generations := generations t ++ replicate more 1;
                  nodes := nodes t ++ replicate more Node_default |})
    else None
  else Some (i, t).

(** [Scheduler::insert]. *)
Definition insert_cap (fits : bool) (t : CTable) (c : Capability) (n : Node) : option (Z * CTable) :=
  '(i, t) ← room fits t;
  let t := {| cspace := <[i := Some c]> (cspace t); generations := generations t; nodes := <[i := n]> (nodes t) |} in
  Some (handle t i, t).

(** [Scheduler::clear]. *)
Definition next_generation (g : Z) : Z := g mod HANDLE_GENERATION_MAX + 1.

Definition clear_cap (t : CTable) (i : nat) : CTable :=
  {| cspace := <[i := None]> (cspace t);
     generations := if (SLOT_DYNAMIC <=? i)%nat then alter next_generation i (generations t) else generations t;
     nodes := nodes t |}.

(** The invariant of a table. *)
Record ct_wf (t : CTable) : Prop := {
  ct_gens : length (generations t) = length (cspace t);
  ct_nodes : length (nodes t) = length (cspace t);
  ct_fixed : (SLOT_DYNAMIC <= length (cspace t))%nat;
  ct_max : (length (cspace t) <= CAP_SLOTS_MAX)%nat;
  ct_range : Forall (fun g => 1 <= g <= HANDLE_GENERATION_MAX) (generations t);
}.

(** ** Lemmas on the table *)
Lemma pack_unpack i g : 0 <= i < 2 ^ 24 ->
  (i ||| Z.shiftl g 24) &&& HANDLE_SLOT_MASK = i /\ Z.shiftr (i ||| Z.shiftl g 24) 24 = g.
Proof.
  intros Hi. change HANDLE_SLOT_MASK with (Z.ones 24). split.
  - rewrite Z.land_lor_distr_l, (Z.land_ones (Z.shiftl g 24)), Z.shiftl_mul_pow2, Z.mod_mul by lia.
    rewrite Z.lor_0_r, Z.land_ones by lia. apply Z.mod_small. lia.
  - rewrite Z.shiftr_lor, Z.shiftr_shiftl_l by lia. rewrite Z.shiftl_0_r.
    rewrite Z.shiftr_div_pow2, Z.div_small by lia. apply Z.lor_0_l.
Qed.

Lemma unpack_pack h : 0 <= h -> h = (h &&& HANDLE_SLOT_MASK) ||| Z.shiftl (Z.shiftr h 24) 24.
Proof.
  intros Hh. change HANDLE_SLOT_MASK with (Z.ones 24). apply Z.bits_inj'. intros n Hn.
  rewrite Z.lor_spec, Z.land_spec, Z.testbit_ones_nonneg by lia.
  destruct (Z.ltb_spec n 24) as [Hlt|Hge].
  - rewrite Z.shiftl_spec_low, orb_false_r, andb_true_r by lia. done.
  - rewrite andb_false_r, Z.shiftl_spec, Z.shiftr_spec by lia. cbn. f_equal. lia.
Qed.

Lemma ct_gen t i : ct_wf t -> (i < length (cspace t))%nat ->
  exists g, generations t !! i = Some g /\ 1 <= g <= HANDLE_GENERATION_MAX.
Proof.
  intros [Hg _ _ _ Hr] Hi. rewrite <- Hg in Hi. apply lookup_lt_is_Some in Hi as [g Hlk].
  exists g. split; [done|]. rewrite Forall_forall in Hr. apply Hr. by eapply list_elem_of_lookup_2.
Qed.

Lemma slot_mask i t : ct_wf t -> (i < length (cspace t))%nat -> 0 <= Z.of_nat i < 2 ^ 24.
Proof. intros Hwf Hi. pose proof (ct_max t Hwf) as Hm. unfold CAP_SLOTS_MAX in Hm. lia. Qed.

Lemma free_slot_Some cs i : free_slot cs = Some i ->
  (SLOT_DYNAMIC <= length cs -> SLOT_DYNAMIC <= i)%nat /\
  ((i < length cs)%nat /\ cs !! i = Some None \/
   i = length cs /\ (length cs < CAP_SLOTS_MAX)%nat /\ (forall j, (SLOT_DYNAMIC <= j)%nat -> cs !! j <> Some None)).
Proof.
  unfold free_slot. destruct (List.find _ _) as [j|] eqn:Hf.
  - intros [= <-]. apply find_some in Hf as [Hin Hb]. apply bool_decide_eq_true in Hb.
    apply in_seq in Hin. split; [lia|]. left. split; [by eapply lookup_lt_Some|done].
  - destruct (Nat.ltb_spec (length cs) CAP_SLOTS_MAX); intros [= <-]. split; [done|]. right.
    split; [done|split; [done|]]. intros j Hj Hn. assert (j < length cs)%nat by (by eapply lookup_lt_Some).
    assert (In j (seq SLOT_DYNAMIC (length cs - SLOT_DYNAMIC))) as Hin by (apply in_seq; lia).
    pose proof (find_none _ _ Hf j Hin) as Hb. cbv beta in Hb. apply bool_decide_eq_false in Hb. done.
Qed.

Lemma next_generation_range g : 1 <= next_generation g <= HANDLE_GENERATION_MAX.
Proof. unfold next_generation, HANDLE_GENERATION_MAX. pose proof (Z.mod_pos_bound g 0xFFFFFFFF). lia. Qed.

(** What [room] gives: an empty kernel-allocated slot of a well-formed table that keeps every slot it had. *)
Lemma room_spec fits t i t' : ct_wf t -> room fits t = Some (i, t') ->
  ct_wf t' /\ (SLOT_DYNAMIC <= i < length (cspace t'))%nat /\ cspace t' !! i = Some None /\
  cspace t `prefix_of` cspace t' /\ generations t `prefix_of` generations t' /\ nodes t `prefix_of` nodes t'.
Proof.
  intros Hwf. unfold room, mbind, option_bind. destruct (free_slot (cspace t)) as [j|] eqn:Hf; [|done].
  apply free_slot_Some in Hf as [Hd Hc]. pose proof (ct_fixed t Hwf) as Hfix. specialize (Hd Hfix).
  destruct (Nat.eqb_spec j (length (cspace t))) as [->|Hne].
  - destruct Hc as [[? _]|(_ & Hlt & _)]; [lia|]. destruct fits; [|done]. intros [= <- <-].
    set (more := Nat.min _ _). assert (0 < more)%nat by (unfold more, SLOT_DYNAMIC in *; lia).
    cbn. split; [|split; [|split; [|split; [|split]]]]; try (by eexists).
    + destruct Hwf as [Hg Hn ? ? Hr]. split; cbn; rewrite ?length_app, ?length_replicate; try lia.
      apply Forall_app; split; [done|]. apply Forall_replicate. unfold HANDLE_GENERATION_MAX; lia.
    + rewrite length_app, length_replicate. lia.
    + rewrite lookup_app_r, Nat.sub_diag by lia. apply lookup_replicate_2. lia.
  - destruct Hc as [[? ?]|[? _]]; [|done]. intros [= <- <-]. done.
Qed.

Lemma insert_cap_spec fits t c n h t' : ct_wf t -> insert_cap fits t c n = Some (h, t') ->
  exists i t1, room fits t = Some (i, t1) /\ h = handle t' i /\ generations t' = generations t1 /\
    cspace t' = <[i := Some c]> (cspace t1) /\ nodes t' = <[i := n]> (nodes t1) /\ ct_wf t'.
Proof.
  intros Hwf. unfold insert_cap, mbind, option_bind. destruct (room fits t) as [[i t1]|] eqn:Hr; [|done].
  intros [= <- <-]. exists i, t1. split; [done|]. split; [done|]. split; [done|]. split; [done|]. split; [done|].
  apply room_spec in Hr as ([] & _); [|done]. split; cbn; rewrite ?length_insert; done.
Qed.

Lemma clear_cap_wf t i : ct_wf t -> ct_wf (clear_cap t i).
Proof.
  intros [Hg Hn Hf Hm Hr]. split; cbn; rewrite ?length_insert; try done.
  - case_match; [by rewrite length_alter|done].
  - case_match; [|done]. apply Forall_alter; [done|]. intros; apply next_generation_range.
Qed.

Lemma ctable_new_wf caps ns : ct_wf (ctable_new caps ns).
Proof.
  unfold ctable_new. split; cbn [cspace generations nodes]; rewrite ?length_resize, ?length_replicate; try done;
    try (unfold CAP_SLOTS, CAP_SLOTS_MAX, SLOT_DYNAMIC; lia).
  apply Forall_replicate. unfold HANDLE_GENERATION_MAX. lia.
Qed.

(** ** Properties of the table *)

Lemma index_handle t i : ct_wf t -> (0 < i < length (cspace t))%nat -> index t (handle t i) = Some i.
Proof.
  intros Hwf Hi. destruct (ct_gen t i Hwf) as (g & Hg & Hr); [lia|]. pose proof (slot_mask i t Hwf ltac:(lia)) as Hb.
  unfold index, handle. rewrite Hg. change (default 0 (Some g)) with g. unfold HANDLE_GENERATION_SHIFT.
  destruct (Nat.ltb_spec i SLOT_DYNAMIC) as [Hlt|Hge].
  - change HANDLE_SLOT_MASK with (Z.ones 24). rewrite Z.land_ones, Z.mod_small, Nat2Z.id by lia.
    rewrite (proj2 (Nat.eqb_neq i 0)), (proj2 (Nat.leb_gt _ _)) by lia. cbn [orb].
    rewrite (proj2 (Nat.ltb_lt i SLOT_DYNAMIC)) by done.
    rewrite Z.shiftr_div_pow2, Z.div_small by lia. done.
  - destruct (pack_unpack (Z.of_nat i) g Hb) as [-> ->]. rewrite Nat2Z.id.
    rewrite (proj2 (Nat.eqb_neq i 0)), (proj2 (Nat.leb_gt _ _)) by lia. cbn [orb].
    rewrite (proj2 (Nat.ltb_ge i SLOT_DYNAMIC)), Hg by done. change (default 0 (Some g)) with g. by rewrite Z.eqb_refl.
Qed.

(** a handle names slot [i] exactly when [i] is a slot of the table other than 0 and the handle is the one
    [handle] gives for it: each slot has one valid handle, and each handle names at most one slot. *)
Theorem handle_names_one_slot t h i :
  ct_wf t -> 0 <= h -> index t h = Some i <-> (0 < i < length (cspace t))%nat /\ h = handle t i.
Proof.
  intros Hwf Hh. split; [|intros [Hi ->]; by apply index_handle].
  unfold index. destruct (Nat.eqb_spec (Z.to_nat (h &&& HANDLE_SLOT_MASK)) 0) as [|Hn]; [done|].
  destruct (Nat.leb_spec (length (cspace t)) (Z.to_nat (h &&& HANDLE_SLOT_MASK))) as [|Hlt]; [done|].
  cbn [orb]. case_match eqn:He; [|done]. intros [= <-]. split; [lia|].
  apply Z.eqb_eq in He. unfold handle, HANDLE_GENERATION_SHIFT in *.
  assert (0 <= h &&& HANDLE_SLOT_MASK) as Hp by (apply Z.land_nonneg; lia).
  rewrite (unpack_pack h Hh) at 1. rewrite He. case_match; rewrite Z2Nat.id by done; [|done].
  rewrite Z.shiftl_0_l. apply Z.lor_0_r.
Qed.

Lemma handle_names_one_slot_witness :
  ct_wf (ctable_new [] []) /\ (index (ctable_new [] []) (43 + 2 ^ 24) = Some 43%nat <->
    (0 < 43 < length (cspace (ctable_new [] [])))%nat /\ 43 + 2 ^ 24 = handle (ctable_new [] []) 43).
Proof.
  split; [apply ctable_new_wf|]. apply handle_names_one_slot; [apply ctable_new_wf|done].
Defined.

(** inserting a capability succeeds with a handle that names it, in a slot that was empty; every capability
    already in the table keeps its slot, its node and its handle. *)
Theorem insert_cap_fresh fits t c n h t' :
  ct_wf t -> insert_cap fits t c n = Some (h, t') ->
  cap t' h = Some c /\ (exists i, index t' h = Some i /\ nodes t' !! i = Some n /\ mjoin (cspace t !! i) = None) /\
  (forall j d, cspace t !! j = Some (Some d) ->
    cspace t' !! j = Some (Some d) /\ nodes t' !! j = nodes t !! j /\ handle t' j = handle t j).
Proof.
  intros Hwf Hi. destruct (insert_cap_spec _ _ _ _ _ _ Hwf Hi) as (i & t1 & Hr & -> & Hg & Hc & Hn & Hwf').
  destruct (room_spec _ _ _ _ Hwf Hr) as (Hwf1 & Hlt & He & Hpc & Hpg & Hpn).
  assert (length (nodes t1) = length (cspace t1)) as Hln by apply Hwf1.
  assert (index t' (handle t' i) = Some i) as Hidx.
  { apply index_handle; [done|]. rewrite Hc, length_insert. unfold SLOT_DYNAMIC in *. lia. }
  split; [|split].
  - unfold cap. rewrite Hidx. cbn. by rewrite Hc, list_lookup_insert_eq by lia.
  - exists i. split; [done|]. split; [rewrite Hn; apply list_lookup_insert_eq; lia|].
    destruct (cspace t !! i) as [o|] eqn:Ho; [|done]. pose proof (prefix_lookup_Some _ _ _ _ Ho Hpc). cbn. congruence.
  - intros j d Hj. pose proof (prefix_lookup_Some _ _ _ _ Hj Hpc) as Hj1.
    assert (i <> j) as Hne by congruence. apply lookup_lt_Some in Hj.
    rewrite Hc, Hn, !list_lookup_insert_ne by done. split; [done|].
    split; [symmetry; apply prefix_lookup_lt; [by rewrite (ct_nodes t Hwf)|done]|].
    unfold handle. rewrite Hg. rewrite (prefix_lookup_lt (generations t) (generations t1)); [done| |done].
    by rewrite (ct_gens t Hwf).
Qed.

Lemma insert_cap_fresh_witness : exists h t',
  insert_cap true (ctable_new [] []) Spawn (MkNode 7 0) = Some (h, t') /\ cap t' h = Some Spawn.
Proof.
  destruct (insert_cap true (ctable_new [] []) Spawn (MkNode 7 0)) as [[h t']|] eqn:E; [|by exfalso].
  exists h, t'. split; [done|].
  exact (proj1 (insert_cap_fresh true _ _ _ _ _ (ctable_new_wf [] []) E)).
Defined.

(** A task's table over time: insertions (refused ones change nothing) and clearings. *)
Inductive ct_op : Type :=
| OpInsert (fits : bool) (c : Capability) (n : Node)
| OpClear (i : nat).

Definition ct_step (t : CTable) (o : ct_op) : CTable :=
  match o with
  | OpInsert fits c n => match insert_cap fits t c n with Some (_, t') => t' | None => t end
  | OpClear i => clear_cap t i
  end.

Definition ct_run (t : CTable) (os : list ct_op) : CTable := foldl ct_step t os.

(** How often a run clears slot [i]. *)
Fixpoint clears (i : nat) (os : list ct_op) : nat :=
  match os with
  | [] => 0
  | OpClear j :: os => if (j =? i)%nat then S (clears i os) else clears i os
  | _ :: os => clears i os
  end.

Lemma ct_step_wf t o : ct_wf t -> ct_wf (ct_step t o).
Proof.
  intros Hwf. destruct o as [fits c n|i]; cbn; [|by apply clear_cap_wf].
  destruct (insert_cap fits t c n) as [[h t']|] eqn:E; [|done].
  by destruct (insert_cap_spec _ _ _ _ _ _ Hwf E) as (? & ? & ? & ? & ? & ? & ? & ?).
Qed.

Lemma ct_step_generation t o i g : ct_wf t -> (SLOT_DYNAMIC <= i)%nat -> generations t !! i = Some g ->
  generations (ct_step t o) !! i = Some (Nat.iter (clears i [o]) next_generation g).
Proof.
  intros Hwf Hi Hg. destruct o as [fits c n|j]; cbn [ct_step clears clear_cap generations].
  - destruct (insert_cap fits t c n) as [[h t']|] eqn:E; [|done].
    destruct (insert_cap_spec _ _ _ _ _ _ Hwf E) as (k & t1 & Hr & _ & -> & _).
    destruct (room_spec _ _ _ _ Hwf Hr) as (_ & _ & _ & _ & Hpg & _). by eapply prefix_lookup_Some.
  - destruct (Nat.eqb_spec j i) as [->|Hne].
    + rewrite (proj2 (Nat.leb_le _ _)) by done. rewrite list_lookup_alter_eq, Hg. done.
    + case_match; [rewrite list_lookup_alter_ne by done|]; done.
Qed.

Lemma ct_run_generation os t i g : ct_wf t -> (SLOT_DYNAMIC <= i)%nat -> generations t !! i = Some g ->
  ct_wf (ct_run t os) /\ generations (ct_run t os) !! i = Some (Nat.iter (clears i os) next_generation g).
Proof.
  revert t g. induction os as [|o os IH]; intros t g Hwf Hi Hg; [done|].
  destruct (IH (ct_step t o) _ (ct_step_wf t o Hwf) Hi (ct_step_generation t o i g Hwf Hi Hg)) as [Hw Hr].
  split; [done|]. unfold ct_run in *. cbn [foldl]. rewrite Hr. f_equal.
  destruct o as [|j]; cbn; [done|]. destruct (Nat.eqb_spec j i); [|done]. cbn. by rewrite Nat.iter_swap.
Qed.

Lemma iter_next_generation k g : 1 <= g <= HANDLE_GENERATION_MAX ->
  Nat.iter k next_generation g = (g - 1 + Z.of_nat k) mod HANDLE_GENERATION_MAX + 1.
Proof.
  intros Hg. induction k as [|k IH].
  - cbn. rewrite Z.add_0_r, Z.mod_small by lia. lia.
  - cbn [Nat.iter nat_rect]. change (nat_rect _ g _ k) with (Nat.iter k next_generation g). rewrite IH.
    unfold next_generation. rewrite Nat2Z.inj_succ. f_equal.
    rewrite Z.add_mod_idemp_l by (unfold HANDLE_GENERATION_MAX; done). f_equal. lia.
Qed.

Lemma shift_mod_id m a k : 0 < m -> 0 <= a < m -> 0 <= k -> (a + k) mod m = a <-> k mod m = 0.
Proof.
  intros Hm Ha Hk. rewrite <- Z.add_mod_idemp_r by lia. pose proof (Z.mod_pos_bound k m Hm) as Hb.
  set (r := k mod m) in *. split; [|intros ->; rewrite Z.add_0_r; by apply Z.mod_small].
  destruct (Z.ltb_spec (a + r) m); [rewrite Z.mod_small by lia; lia|].
  intros He. pose proof (Z.mod_add (a + r - m) 1 m ltac:(lia)) as Hs.
  replace (a + r - m + 1 * m) with (a + r) in Hs by lia. rewrite Hs, Z.mod_small in He by lia. lia.
Qed.

(** C12: a handle of a kernel-allocated slot stays good while the slot is not cleared and is refused after it was:
    through any run of insertions and clearings, until the slot has been cleared a multiple of 2^32 - 1 times. *)
Theorem stale_handle_refused t os i :
  ct_wf t -> (SLOT_DYNAMIC <= i < length (cspace t))%nat ->
  index (ct_run t os) (handle t i) =
    if Z.of_nat (clears i os) mod HANDLE_GENERATION_MAX =? 0 then Some i else None.
Proof.
  intros Hwf Hi. destruct (ct_gen t i Hwf) as (g & Hg & Hr); [lia|].
  destruct (ct_run_generation os t i g Hwf ltac:(lia) Hg) as [Hw Hg'].
  assert (i < length (cspace (ct_run t os)))%nat as Hl.
  { rewrite <- (ct_gens _ Hw). by eapply lookup_lt_Some. }
  unfold index, handle. rewrite (proj2 (Nat.ltb_ge i SLOT_DYNAMIC)), Hg by lia.
  change (default 0 (Some g)) with g. unfold HANDLE_GENERATION_SHIFT.
  destruct (pack_unpack (Z.of_nat i) g (slot_mask i t Hwf ltac:(lia))) as [-> ->]. rewrite Nat2Z.id.
  rewrite (proj2 (Nat.eqb_neq i 0)), (proj2 (Nat.leb_gt _ _)) by (unfold SLOT_DYNAMIC in *; lia). cbn [orb].
  rewrite (proj2 (Nat.ltb_ge i SLOT_DYNAMIC)), Hg' by lia.
  change (default 0 (Some ?x)) with x. rewrite iter_next_generation by done.
  pose proof (shift_mod_id HANDLE_GENERATION_MAX (g - 1) (Z.of_nat (clears i os)) ltac:(done) ltac:(lia) ltac:(lia)).
  destruct (Z.eqb_spec (Z.of_nat (clears i os) mod HANDLE_GENERATION_MAX) 0);
    destruct (Z.eqb_spec g ((g - 1 + Z.of_nat (clears i os)) mod HANDLE_GENERATION_MAX + 1)); [done|lia..|done].
Qed.

Lemma stale_handle_refused_witness :
  let t := ctable_new [] [] in
  index (ct_run t [OpInsert true Spawn (MkNode 7 0); OpClear 43; OpInsert true Input (MkNode 8 0)]) (handle t 43) = None.
Proof.
  intros t. subst t. rewrite (stale_handle_refused (ctable_new [] []) _ 43 (ctable_new_wf [] [])); [reflexivity|].
  unfold SLOT_DYNAMIC; cbn [cspace ctable_new]. rewrite length_resize. unfold CAP_SLOTS. lia.
Defined.
