(* ===== verification/UserHeap.v ===== *)
(** * A task's heap window ([kernel/src/user_heap.rs])

    The blocks a task has in its heap window: its own memory, foreign memory it mapped through a capability, and the
    zeroed page put in a revoked lease's place. The address space and the frame pool are interfaces ([Space], [Pool]);
    the heap's theorems hold for any of them. They show that blocks never overlap and keep a guard page between them,
    stay inside the window, that the byte counts are exact and within the quota, that the search for a hole finds the
    lowest one there is, and that a revocation leaves no mapping made through the revoked nodes. *)
From S2P Require Import Prelude Abi.

Definition PAGE : Z := 4096.
(** The start of a task's window on x86_64. *)
Definition USER_IMAGE : Z := 0x8000000000.
Definition USER_HEAP : Z := USER_IMAGE + 0x06000000.
Definition USER_END : Z := USER_IMAGE + 2 ^ 39.
Definition LARGE : Z := 2 * 1024 * 1024.
Definition HUGE : Z := 2 ^ 30.

(** ** Interfaces *)

(** [Region]: physical memory, by address and length. *)
Record Region : Type := mkRegion { ptr : Z; region_len : Z }.

(** [Region::task] and [Region::task_unzeroed] of the frame pool: [None] when it has no such region; and a
    region given back. *)
Class Pool (P : Type) : Type := {
  pool_task : P -> Z -> Z -> P * option Region;
  pool_task_unzeroed : P -> Z -> Z -> P * option Region;
  pool_drop : P -> Region -> P;
}.

(** [paging::Caching]. *)
Inductive Caching : Type := CacheMemory | CacheDevice | CacheWriteCombining.
#[global] Instance Region_eq_dec : EqDecision Region.
Proof. solve_decision. Defined.
#[global] Instance Caching_eq_dec : EqDecision Caching.
Proof. solve_decision. Defined.

(** The operations of [paging::Space] the heap uses; [false] is an error. *)
Class Space (S : Type) : Type := {
  space_map : S -> Z -> Z -> Z -> bool -> bool -> S * bool;
  space_map_small : S -> Z -> Z -> Z -> bool -> S * bool;
  space_map_device : S -> Z -> Z -> Z -> S * bool;
  space_map_framebuffer : S -> Z -> Z -> Z -> bool -> S * bool;
  space_map_repeated : S -> Z -> Z -> Z -> bool -> S * bool;
  space_unmap : S -> Z -> Z -> S;
  space_unmap_leaves : S -> Z -> Z -> S;
}.

(** ** The heap *)
Record Block : Type := mkBlock {
  address : Z; physical : Z; memory : option Region; size : Z; node : Z; writable : bool; device : bool; sink : bool
}.

#[global] Instance Block_eq_dec : EqDecision Block.
Proof. solve_decision. Defined.

(** [Block::owned]. *)
Definition owned (b : Block) : Z := if sink b then PAGE else size b.

Record Heap : Type := mkHeap {
  blocks : list (option Block); heap_bytes : Z; retained : Z; shared : Z; limit : Z
}.

(** The blocks there are. *)
Definition live (h : Heap) : list Block := omap (fun b => b) (blocks h).

Definition alignment (size : Z) : Z := if HUGE <=? size then HUGE else if LARGE <=? size then LARGE else PAGE.

(** [pieces]: the ranges a large block is zeroed in. *)
Definition pieces (len : Z) : list (Z * Z) :=
  map (fun i => let at_ := Z.of_nat i * LARGE in (at_, Z.min (at_ + LARGE) len)) (seq 0 (Z.to_nat ((len + LARGE - 1) / LARGE))).

(** [requested.checked_add(PAGE - 1)? & !(PAGE - 1)]. *)
Definition page_up (requested : Z) : option Z := n ← checked_add requested (PAGE - 1); Some (Z.ldiff n (PAGE - 1)).

(** [Heap::with_limit]. *)
Definition with_limit (limit : Z) : Heap := mkHeap (replicate HEAP_MAX_BLOCKS None) 0 0 0 limit.

(** A block in the way of [start .. end]: its bytes and its guard page. *)
Definition in_way (start end_ : Z) (b : Block) : bool :=
  (start <? address b + size b + PAGE) && (address b <? end_).

(** The loop of [Heap::find_hole]; each turn goes past one block, so one turn more than there are blocks is enough. *)
Fixpoint hole_loop (fuel : nat) (bs : list Block) (sz align start : Z) : option Z :=
  match fuel with
  | O => None
  | S fuel =>
      end_ ← checked_add start (sz + PAGE);
      if USER_END <? end_ then None
      else match List.find (in_way start end_) bs with
           | Some b => hole_loop fuel bs sz align (next_multiple_of (address b + size b + PAGE) align)
           | None => Some start
           end
  end.

Definition find_hole (h : Heap) (size : Z) : option Z :=
  let align := alignment size in
  hole_loop (S (length (live h))) (live h) size align (next_multiple_of (USER_HEAP + PAGE) align).

(** [self.blocks.iter().position(Option::is_none)]. *)
Definition free_block (h : Heap) : option nat := position (fun b => bool_decide (b = None)) (blocks h).

Definition with_blocks (h : Heap) (bs : list (option Block)) : Heap := mkHeap bs (heap_bytes h) (retained h) (shared h) (limit h).
Definition add_bytes (h : Heap) (n : Z) : Heap := mkHeap (blocks h) (heap_bytes h + n) (retained h) (shared h) (limit h).
Definition add_shared (h : Heap) (n : Z) : Heap := mkHeap (blocks h) (heap_bytes h) (retained h) (shared h + n) (limit h).

(** [Heap::shared_limit]. *)
Definition shared_limit (h : Heap) : Z := Z.max SHARED_MAX_BYTES (limit h).

(** What is left of the quota. *)
Definition quota_left (h : Heap) : Z := saturating_sub (limit h) (heap_bytes h + retained h).

(** The conditions of [detach] and [free]: an own block by its start; any block by its start, a device mapping also by
    an address in its first page. *)
Definition own_at (addr : Z) (b : Block) : bool := (address b =? addr) && bool_decide (memory b <> None) && negb (sink b).
Definition named_by (addr : Z) (b : Block) : bool :=
  (address b =? addr) || (device b && (address b =? Z.ldiff addr (PAGE - 1))).

Section ops.
Context {Sp Po : Type} `{!Space Sp, !Pool Po}.

(** [frames]: as aligned as the pool allows. *)
Definition frames (pool : Po) (size : Z) (zeroed : bool) : Po * option Region :=
  let task pool align := if zeroed then pool_task pool size align else pool_task_unzeroed pool size align in
  let try pool aligns := foldl (fun '(pool, got) align => match got with Some r => (pool, Some r) | None => task pool align end)
                               (pool, None) aligns in
  try pool (if alignment size =? HUGE then [HUGE; LARGE; PAGE] else if alignment size =? LARGE then [LARGE; PAGE] else [PAGE]).

(** [Heap::map_own]. *)
Definition map_own (sp : Sp) (addr : Z) (m : Region) (small : bool) : Sp * bool :=
  if small then space_map_small sp addr (ptr m) (region_len m) true else space_map sp addr (ptr m) (region_len m) true false.

(** A block of the task's own memory. *)
Definition own_block (addr : Z) (m : Region) (size : Z) : Block := mkBlock addr (ptr m) (Some m) size 0 true false false.

(** [Heap::allocate]. *)
Definition allocate (h : Heap) (sp : Sp) (pool : Po) (requested : Z) (small : bool) : Heap * Sp * Po * option Z :=
  let refused := (h, sp, pool, None) in
  if requested =? 0 then refused else
  match page_up requested with None => refused | Some size =>
  if quota_left h <? size then refused else
  match free_block h with None => refused | Some slot =>
  match find_hole h size with None => refused | Some addr =>
  let '(pool, m) := frames pool size true in
  match m with None => (h, sp, pool, None) | Some m =>
  let '(sp, ok) := map_own sp addr m small in
  if ok then (add_bytes (with_blocks h (<[slot := Some (own_block addr m size)]> (blocks h))) size, sp, pool, Some addr)
  else (h, sp, pool_drop pool m, None)
  end end end end.

(** [Heap::reserve], [unreserve] and [place]: a large block in two steps. *)
Definition reserve (h : Heap) (requested : Z) : option (Heap * Z) :=
  size ← page_up requested;
  if (size =? 0) || (quota_left h <? size) || forallb (fun b => bool_decide (b <> None)) (blocks h) then None
  else Some (add_bytes h size, size).
Definition unreserve (h : Heap) (size : Z) : Heap := add_bytes h (- size).
Definition place (h : Heap) (sp : Sp) (pool : Po) (m : Region) (small : bool) : Heap * Sp * Po * option Z :=
  let refused := (h, sp, pool_drop pool m, None) in
  match free_block h with None => refused | Some slot =>
  match find_hole h (region_len m) with None => refused | Some addr =>
  let '(sp, ok) := map_own sp addr m small in
  if ok then (with_blocks h (<[slot := Some (own_block addr m (region_len m))]> (blocks h)), sp, pool, Some addr)
  else (h, sp, pool_drop pool m, None)
  end end.

(** [Heap::map_shared]. *)
Definition map_shared (h : Heap) (sp : Sp) (phys requested : Z) (caching : Caching) (wr : bool) (nd : Z) : Heap * Sp * option Z :=
  let dev := bool_decide (caching = CacheDevice) in
  if (requested =? 0) || negb (phys mod PAGE =? 0) then (h, sp, None) else
  match page_up requested with None => (h, sp, None) | Some size =>
  if saturating_sub (shared_limit h) (shared h) <? size then (h, sp, None) else
  match free_block h with None => (h, sp, None) | Some slot =>
  match find_hole h size with None => (h, sp, None) | Some addr =>
  let '(sp, ok) := match caching with
                   | CacheDevice => space_map_device sp addr phys size
                   | CacheWriteCombining => space_map_framebuffer sp addr phys size wr
                   | CacheMemory => space_map sp addr phys size wr false
                   end in
  if ok then (add_shared (with_blocks h (<[slot := Some (mkBlock addr phys None size nd (wr || dev) dev false)]> (blocks h))) size,
              sp, Some addr)
  else (h, sp, None)
  end end end.

(** [Heap::shareable]: the exact start of an own block. *)
Definition shareable (h : Heap) (addr requested : Z) : option (Z * Z) :=
  b ← List.find (own_at addr) (live h);
  sz ← (if requested =? 0 then Some (size b) else page_up requested);
  if sz <=? size b then Some (physical b, sz) else None.

(** [Heap::maps_foreign], [made_from], [writes], [kind_at], [block_count]. *)
Definition maps_foreign (h : Heap) (phys sz : Z) : bool :=
  existsb (fun b => bool_decide (memory b = None) && (physical b <? phys + sz) && (phys <? physical b + size b)) (live h).
Definition made_from (h : Heap) (id : Z) : bool :=
  existsb (fun b => bool_decide (memory b = None) && (node b =? id)) (live h).
Definition writes (h : Heap) (phys sz : Z) : bool :=
  existsb (fun b => writable b && (physical b <? phys + sz) && (phys <? physical b + owned b)) (live h).
Definition kind_at (h : Heap) (addr : Z) : option (bool * bool) :=
  (fun b => (bool_decide (memory b <> None), device b)) <$>
    List.find (fun b => (address b <=? addr) && (addr <? address b + size b)) (live h).
Definition block_count (h : Heap) : nat := length (live h).

(** The body of [Heap::revoke]'s loop at [index]. *)
Definition revoke_at (nodes : list Z) (reclaim sink_ok : bool) (st : Heap * Sp * Po * bool * nat) (index : nat) :
    Heap * Sp * Po * bool * nat :=
  let '(h, sp, pool, any, sinks) := st in
  match mjoin (blocks h !! index) with
  | Some b =>
      if bool_decide (memory b = None) && bool_decide (node b ∈ nodes) then
        let sp := space_unmap_leaves sp (address b) (size b) in
        let h := add_shared (with_blocks h (<[index := None]> (blocks h))) (- size b) in
        let room := PAGE <=? quota_left h in
        let '(pool, page) := if device b || negb room || negb sink_ok then (pool, None) else pool_task pool PAGE PAGE in
        let '(sp, mapped) := match page with
                             | Some page => space_map_repeated sp (address b) (ptr page) (size b) (writable b)
                             | None => (sp, false)
                             end in
        match page with
        | Some page =>
            if mapped then
              (add_bytes (with_blocks h (<[index := Some (mkBlock (address b) (ptr page) (Some page) (size b) 0 (writable b) false true)]> (blocks h))) PAGE,
               sp, pool, true, S sinks)
            else (h, (if reclaim then space_unmap sp (address b) (size b) else sp), pool_drop pool page, true, sinks)
        | None => (h, (if reclaim then space_unmap sp (address b) (size b) else sp), pool, true, sinks)
        end
      else st
  | None => st
  end.

(** [Heap::revoke]. *)
Definition revoke (h : Heap) (sp : Sp) (pool : Po) (nodes : list Z) (reclaim sink_ok : bool) : Heap * Sp * Po * bool * nat :=
  foldl (revoke_at nodes reclaim sink_ok) (h, sp, pool, false, 0%nat) (seq 0 (length (blocks h))).

(** The block at a found place. *)
Definition at_block (h : Heap) (i : option nat) : option (nat * Block) :=
  i ← i; b ← mjoin (blocks h !! i); Some (i, b).

(** [Heap::detach]. *)
Definition detach (h : Heap) (sp : Sp) (addr : Z) : Heap * Sp * option Region :=
  match at_block h (position (fun ob => match ob with Some b => own_at addr b | None => false end) (blocks h)) with
  | Some (i, b) =>
      (add_bytes (with_blocks h (<[i := None]> (blocks h))) (- size b), space_unmap sp (address b) (size b), memory b)
  | _ => (h, sp, None)
  end.

(** [Heap::take_regions]. *)
Definition take_regions (h : Heap) : Heap * list Region :=
  (with_blocks h (map (option_map (fun b => mkBlock (address b) (physical b) None (size b) (node b) (writable b) (device b) (sink b))) (blocks h)),
   omap (M := list) memory (live h)).

(** [Heap::free]. *)
Definition free (h : Heap) (sp : Sp) (addr : Z) : Heap * Sp * option (option Region) :=
  match at_block h (position (fun ob => match ob with Some b => named_by addr b | None => false end) (blocks h)) with
  | Some (i, b) =>
      let h := with_blocks h (<[i := None]> (blocks h)) in
      (if bool_decide (memory b <> None) then add_bytes h (- owned b) else add_shared h (- size b),
       space_unmap sp (address b) (size b), Some (memory b))
  | _ => (h, sp, None)
  end.
End ops.

(** ** The search for a hole *)

(** [x] has room for [sz] bytes and a guard page after them, clear of every block and its guard page. *)
Definition clear_of (bs : list Block) (sz x : Z) : Prop :=
  forall b, b ∈ bs -> x + sz + PAGE <= address b \/ address b + size b + PAGE <= x.
Definition fits (bs : list Block) (sz x : Z) : Prop :=
  x mod alignment sz = 0 /\ USER_HEAP + PAGE <= x /\ x + sz + PAGE <= USER_END /\ clear_of bs sz x.

Lemma alignment_pos sz : 0 < alignment sz.
Proof. unfold alignment, HUGE, LARGE, PAGE. repeat case_match; lia. Qed.

Lemma next_multiple_least a m x : 0 < m -> a <= x -> x mod m = 0 -> next_multiple_of a m <= x.
Proof.
  intros Hm Ha Hx. apply Z.div_exact in Hx; [|lia]. unfold next_multiple_of. rewrite Hx, (Z.mul_comm m).
  apply Z.mul_le_mono_nonneg_r; [lia|]. assert ((a + m - 1) / m < x / m + 1); [|lia].
  apply Z.div_lt_upper_bound; lia.
Qed.

Lemma in_way_spec sz x b : in_way x (x + (sz + PAGE)) b = false <->
  x + sz + PAGE <= address b \/ address b + size b + PAGE <= x.
Proof. unfold in_way. rewrite andb_false_iff, !Z.ltb_ge. lia. Qed.

(** The blocks that end after [x]: each turn of the search goes past one. *)
Definition ahead (bs : list Block) (x : Z) : nat := length (filter (fun b => x < address b + size b + PAGE) bs).

Lemma ahead_cons c bs x : ahead (c :: bs) x = ((if decide (x < address c + size c + PAGE)%Z then 1 else 0) + ahead bs x)%nat.
Proof. unfold ahead. rewrite filter_cons. by case_decide. Qed.

Lemma ahead_mono bs x y : x <= y -> (ahead bs y <= ahead bs x)%nat.
Proof. intros Hxy. induction bs as [|c bs IH]; [done|]. rewrite !ahead_cons. repeat case_decide; lia. Qed.

Lemma ahead_decreases bs x y b : b ∈ bs -> x < address b + size b + PAGE -> address b + size b + PAGE <= y ->
  (ahead bs y < ahead bs x)%nat.
Proof.
  intros Hb Hx Hy. induction bs as [|c bs IH]; [by apply not_elem_of_nil in Hb|]. rewrite !ahead_cons.
  pose proof (ahead_mono bs x y ltac:(lia)). apply elem_of_cons in Hb as [->|Hb]; [|specialize (IH Hb)];
    repeat case_decide; lia.
Qed.

Lemma hole_loop_spec fuel bs sz : forall start,
  0 <= sz -> start mod alignment sz = 0 -> (ahead bs start < fuel)%nat ->
  match hole_loop fuel bs sz (alignment sz) start with
  | Some a => a mod alignment sz = 0 /\ start <= a /\ a + sz + PAGE <= USER_END /\ clear_of bs sz a /\
              forall x, start <= x < a -> x mod alignment sz = 0 -> ~ clear_of bs sz x
  | None => forall x, start <= x -> x mod alignment sz = 0 -> x + sz + PAGE <= USER_END -> ~ clear_of bs sz x
  end.
Proof.
  induction fuel as [|fuel IH]; intros start Hsz Hst Hf; [lia|]. cbn [hole_loop]. unfold mbind, option_bind.
  destruct (checked_add start (sz + PAGE)) as [e|] eqn:He.
  2:{ unfold checked_add in He. destruct (Z.ltb_spec (start + (sz + PAGE)) W64) as [|Hov]; [done|]. intros x Hx _ Hend.
      pose proof (eq_refl : USER_END = 1099511627776). pose proof (eq_refl : W64 = 18446744073709551616). lia. }
  apply checked_add_Some in He as [-> _]. destruct (Z.ltb_spec USER_END (start + (sz + PAGE))) as [Hend|Hend].
  { intros x Hx _ Hend'. lia. }
  destruct (List.find (in_way start (start + (sz + PAGE))) bs) as [b|] eqn:Hfind.
  - apply find_some in Hfind as [Hin Hw]. apply list_elem_of_In in Hin.
    assert (forall x, start <= x -> x mod alignment sz = 0 ->
      x < next_multiple_of (address b + size b + PAGE) (alignment sz) -> ~ clear_of bs sz x) as Hskip.
    { intros x Hx Hm Hlt Hcl. destruct (Hcl b Hin) as [Hc|Hc].
      - unfold in_way in Hw. apply andb_true_iff in Hw as [_ Hw]. apply Z.ltb_lt in Hw. lia.
      - pose proof (next_multiple_least _ _ x (alignment_pos sz) Hc Hm). lia. }
    unfold in_way in Hw. apply andb_true_iff in Hw as [Hw1%Z.ltb_lt Hw2%Z.ltb_lt].
    pose proof (next_multiple_of_ge (address b + size b + PAGE) (alignment sz) (alignment_pos sz)) as Hn.
    specialize (IH (next_multiple_of (address b + size b + PAGE) (alignment sz)) Hsz
      (next_multiple_of_mod _ _ (alignment_pos sz))
      ltac:(pose proof (ahead_decreases bs start (next_multiple_of (address b + size b + PAGE) (alignment sz)) b Hin Hw1 ltac:(lia)); lia)).
    destruct (hole_loop fuel bs sz (alignment sz) _) as [a|].
    + destruct IH as (H1 & H2 & H3 & H4 & H5). split_and!; try done; [lia|]. intros x Hx Hm.
      destruct (Z.lt_ge_cases x (next_multiple_of (address b + size b + PAGE) (alignment sz))); [apply Hskip; lia|apply H5; lia].
    + intros x Hx Hm Hend'.
      destruct (Z.lt_ge_cases x (next_multiple_of (address b + size b + PAGE) (alignment sz))); [apply Hskip; lia|apply IH; lia].
  - split; [done|]. split; [lia|]. split; [lia|]. split; [|intros; lia]. intros b Hb. apply in_way_spec.
    apply (find_none _ _ Hfind). by apply list_elem_of_In.
Qed.

Lemma find_hole_fits h sz a : 0 <= sz -> find_hole h sz = Some a -> fits (live h) sz a.
Proof.
  intros Hsz Hf. unfold find_hole in Hf.
  pose proof (hole_loop_spec (S (length (live h))) (live h) sz (next_multiple_of (USER_HEAP + PAGE) (alignment sz)) Hsz
    (next_multiple_of_mod _ _ (alignment_pos sz))) as H.
  assert (forall x, (ahead (live h) x < S (length (live h)))%nat) as Ha.
  { intros x. unfold ahead. pose proof (length_filter (fun b => x < address b + size b + PAGE) (live h)). lia. }
  specialize (H (Ha _)). rewrite Hf in H. destruct H as (H1 & H2 & H3 & H4 & _).
  pose proof (next_multiple_of_ge (USER_HEAP + PAGE) (alignment sz) (alignment_pos sz)). split_and!; try done. lia.
Qed.

(** first fit: the search for a hole ends, with the lowest aligned address of the window that has room for the
    block between guard pages, and fails only when there is none. *)
Theorem find_hole_first_fit h sz :
  0 <= sz ->
  match find_hole h sz with
  | Some a => fits (live h) sz a /\ forall x, fits (live h) sz x -> a <= x
  | None => forall x, ~ fits (live h) sz x
  end.
Proof.
  intros Hsz. unfold find_hole.
  pose proof (hole_loop_spec (S (length (live h))) (live h) sz (next_multiple_of (USER_HEAP + PAGE) (alignment sz)) Hsz
    (next_multiple_of_mod _ _ (alignment_pos sz))) as H.
  assert (forall x, fits (live h) sz x -> next_multiple_of (USER_HEAP + PAGE) (alignment sz) <= x) as Hleast.
  { intros x (Hm & Hx & _). by apply next_multiple_least; [apply alignment_pos|..]. }
  assert (ahead (live h) (next_multiple_of (USER_HEAP + PAGE) (alignment sz)) < S (length (live h)))%nat as Ha.
  { unfold ahead. pose proof (length_filter (fun b => next_multiple_of (USER_HEAP + PAGE) (alignment sz) < address b + size b + PAGE) (live h)). lia. }
  specialize (H Ha). destruct (hole_loop _ _ _ _ _) as [a|].
  - destruct H as (H1 & H2 & H3 & H4 & H5).
    pose proof (next_multiple_of_ge (USER_HEAP + PAGE) (alignment sz) (alignment_pos sz)).
    split; [split_and!; try done; lia|]. intros x Hx. destruct (Z.lt_ge_cases x a) as [Hlt|]; [|lia].
    exfalso. apply (H5 x); [split; [by apply Hleast|done]|apply Hx|apply Hx].
  - intros x Hx. apply (H x); [by apply Hleast|apply Hx..].
Qed.

Lemma find_hole_first_fit_witness :
  match find_hole (with_limit HEAP_MAX_BYTES) 8192 with
  | Some a => fits (live (with_limit HEAP_MAX_BYTES)) 8192 a /\ forall x, fits (live (with_limit HEAP_MAX_BYTES)) 8192 x -> a <= x
  | None => forall x, ~ fits (live (with_limit HEAP_MAX_BYTES)) 8192 x
  end.
Proof. apply (find_hole_first_fit (with_limit HEAP_MAX_BYTES) 8192). lia. Defined.

(** ** The invariant *)
Definition own_of (ob : option Block) : Z :=
  match ob with Some b => if bool_decide (memory b <> None) then owned b else 0 | None => 0 end.
Definition foreign_of (ob : option Block) : Z :=
  match ob with Some b => if bool_decide (memory b <> None) then 0 else size b | None => 0 end.

(** Two blocks with a guard page between them. *)
Definition apart (b c : Block) : Prop := address b + size b + PAGE <= address c \/ address c + size c + PAGE <= address b.

(** A block in whole pages inside the window, guard pages around it; a revoked lease's place is the task's own page. *)
Definition block_ok (b : Block) : Prop :=
  0 < size b /\ size b mod PAGE = 0 /\ address b mod PAGE = 0 /\ USER_HEAP + PAGE <= address b /\
  address b + size b + PAGE <= USER_END /\ (sink b = true -> memory b <> None).

(** [res]: the bytes reserved for blocks not placed yet. *)
Record heap_wf (res : Z) (h : Heap) : Prop := {
  wf_length : length (blocks h) = HEAP_MAX_BLOCKS;
  wf_blocks : forall i b, blocks h !! i = Some (Some b) -> block_ok b;
  wf_apart : forall i j b c, i <> j -> blocks h !! i = Some (Some b) -> blocks h !! j = Some (Some c) -> apart b c;
  wf_bytes : heap_bytes h = zsum (map own_of (blocks h)) + res;
  wf_shared : shared h = zsum (map foreign_of (blocks h));
  wf_res : 0 <= res /\ 0 <= retained h;
  wf_quota : heap_bytes h + retained h <= limit h;
  wf_shared_limit : shared h <= shared_limit h;
}.

Lemma elem_live h b : b ∈ live h <-> exists i, blocks h !! i = Some (Some b).
Proof.
  unfold live. rewrite list_elem_of_omap. split.
  - intros (ob & Hin & ->). by apply list_elem_of_lookup in Hin.
  - intros [i Hi]. exists (Some b). split; [by eapply list_elem_of_lookup_2|done].
Qed.

Lemma with_limit_wf l : 0 <= l -> heap_wf 0 (with_limit l).
Proof.
  intros Hl. assert (forall i ob, (replicate HEAP_MAX_BLOCKS None : list (option Block)) !! i = Some ob -> ob = None) as Hnone.
  { intros i ob Hi. by apply lookup_replicate in Hi as [-> _]. }
  split; cbn [with_limit blocks heap_bytes shared retained limit]; try done.
  - intros i b Hi. by apply Hnone in Hi.
  - intros i j b c _ Hi. by apply Hnone in Hi.
  - unfold shared_limit, SHARED_MAX_BYTES. cbn [shared limit with_limit]. lia.
Qed.

Lemma page_up_spec requested sz : 0 <= requested -> page_up requested = Some sz ->
  sz mod PAGE = 0 /\ requested <= sz < requested + PAGE /\ 0 <= sz.
Proof.
  intros Hr. unfold page_up, mbind, option_bind. destruct (checked_add requested (PAGE - 1)) as [n|] eqn:Hn; [|done].
  intros [= <-]. apply checked_add_Some in Hn as [-> _]. change (PAGE - 1) with (Z.ones 12).
  rewrite Z.ldiff_ones_r, Z.shiftl_mul_pow2, Z.shiftr_div_pow2 by lia. change (Z.ones 12) with 4095. change (2 ^ 12) with PAGE.
  pose proof (Z.div_mod (requested + 4095) PAGE) as Hd. pose proof (Z.mod_pos_bound (requested + 4095) PAGE) as Hb.
  unfold PAGE in *. split; [apply Z.mod_mul; lia|]. lia.
Qed.

Lemma alignment_page sz x : x mod alignment sz = 0 -> x mod PAGE = 0.
Proof.
  unfold alignment, PAGE. intros H. repeat case_match; [| |done]; apply Z.mod_divide in H; [|done| |done];
    apply Z.mod_divide; [done| |done|]; (eapply Z.divide_trans; [|exact H]);
    [exists (2 ^ 18)|exists 512]; reflexivity.
Qed.

(** A new block at a hole keeps the blocks apart, inside the window. *)
Lemma insert_block_wf res h i b :
  heap_wf res h -> blocks h !! i = Some None -> block_ok b -> clear_of (live h) (size b) (address b) ->
  forall j k c d, j <> k -> <[i := Some b]> (blocks h) !! j = Some (Some c) -> <[i := Some b]> (blocks h) !! k = Some (Some d) -> apart c d.
Proof.
  intros Hwf Hi Hb Hcl j k c d Hjk Hj Hk.
  assert (forall m e, m <> i -> blocks h !! m = Some (Some e) -> apart b e) as Hnew.
  { intros m e Hm He. destruct (Hcl e) as [H|H]; [apply elem_live; by exists m|left|right]; lia. }
  apply list_lookup_insert_Some in Hj as [(-> & Hj & _)|(Hji & Hj)]; apply list_lookup_insert_Some in Hk as [(-> & Hk & _)|(Hki & Hk)]; simplify_eq.
  - by eapply Hnew.
  - destruct (Hnew j c) as [H|H]; [done|done|right|left]; lia.
  - by eapply (wf_apart _ _ Hwf j k).
Qed.

(** Removing a block keeps the rest. *)
Lemma remove_block h i j c : <[i := None]> (blocks h) !! j = Some (Some c) -> j <> i /\ blocks h !! j = Some (Some c).
Proof. intros Hj. apply list_lookup_insert_Some in Hj as [(-> & Hj & _)|(Hji & Hj)]; [done|done]. Qed.

Lemma own_of_nonneg res h : heap_wf res h -> forall ob, ob ∈ blocks h -> 0 <= own_of ob.
Proof.
  intros Hwf [b|] Hin; [|done]. apply list_elem_of_lookup in Hin as [i Hi]. destruct (wf_blocks _ _ Hwf i b Hi) as (Hs & _).
  unfold own_of, owned, PAGE. repeat case_match; lia.
Qed.

Lemma add_block_wf res res' h i b bytes' shared' :
  heap_wf res h -> blocks h !! i = Some None -> block_ok b -> clear_of (live h) (size b) (address b) ->
  bytes' = heap_bytes h + own_of (Some b) + (res' - res) -> shared' = shared h + foreign_of (Some b) ->
  0 <= res' -> bytes' + retained h <= limit h -> shared' <= shared_limit h ->
  heap_wf res' (mkHeap (<[i := Some b]> (blocks h)) bytes' (retained h) shared' (limit h)).
Proof.
  intros Hwf Hi Hb Hcl -> -> Hres Hq Hs.
  split; cbn [blocks heap_bytes retained shared limit]; rewrite ?length_insert; try apply Hwf; try done.
  - intros j c Hj. apply list_lookup_insert_Some in Hj as [(-> & Hj & _)|(_ & Hj)]; [by simplify_eq|by eapply (wf_blocks _ _ Hwf)].
  - by eapply insert_block_wf.
  - rewrite (zsum_insert own_of _ _ _ _ Hi), (wf_bytes _ _ Hwf). cbn [own_of]. lia.
  - rewrite (zsum_insert foreign_of _ _ _ _ Hi), (wf_shared _ _ Hwf). cbn [foreign_of]. lia.
  - split; [done|apply Hwf].
Qed.

Lemma remove_block_wf res h i b :
  heap_wf res h -> blocks h !! i = Some (Some b) ->
  heap_wf res (mkHeap (<[i := None]> (blocks h)) (heap_bytes h - own_of (Some b)) (retained h) (shared h - foreign_of (Some b)) (limit h)).
Proof.
  intros Hwf Hi. assert (0 <= own_of (Some b)) as Ho by (eapply own_of_nonneg; [done|by eapply list_elem_of_lookup_2]).
  assert (0 <= foreign_of (Some b)) as Hf.
  { destruct (wf_blocks _ _ Hwf i b Hi) as (Hs & _). unfold foreign_of. case_match; lia. }
  pose proof (wf_quota _ _ Hwf). pose proof (wf_shared_limit _ _ Hwf).
  split; cbn [blocks heap_bytes retained shared limit]; rewrite ?length_insert; try apply Hwf; try lia.
  - intros j c Hj. apply remove_block in Hj as [_ Hj]. by eapply (wf_blocks _ _ Hwf).
  - intros j k c d Hjk Hj Hk. apply remove_block in Hj as [_ Hj]. apply remove_block in Hk as [_ Hk]. by eapply (wf_apart _ _ Hwf j k).
  - rewrite (zsum_insert own_of _ _ _ _ Hi), (wf_bytes _ _ Hwf). cbn [own_of]. lia.
  - rewrite (zsum_insert foreign_of _ _ _ _ Hi), (wf_shared _ _ Hwf). cbn [foreign_of]. lia.
  - unfold shared_limit in *. cbn [shared limit]. lia.
Qed.

Lemma free_block_Some h i : free_block h = Some i -> blocks h !! i = Some None.
Proof. intros H. apply position_Some in H as (x & Hx & Hp & _). apply bool_decide_eq_true in Hp. by subst. Qed.

Lemma quota_left_spec res h sz : heap_wf res h -> (quota_left h <? sz) = false -> heap_bytes h + sz + retained h <= limit h.
Proof. intros Hwf Hq. pose proof (wf_quota _ _ Hwf). unfold quota_left, saturating_sub in Hq. lia. Qed.

(** A block of [sz] bytes at a hole found for it. *)
Lemma hole_block_ok h sz addr b :
  0 < sz -> sz mod PAGE = 0 -> find_hole h sz = Some addr -> address b = addr -> size b = sz ->
  (sink b = true -> memory b <> None) -> block_ok b /\ clear_of (live h) (size b) (address b).
Proof.
  intros Hpos Hm Hf <- <- Hs. destruct (find_hole_fits h (size b) (address b) ltac:(lia) Hf) as (H1 & H2 & H3 & H4).
  split; [|done]. split_and!; try done. by eapply alignment_page.
Qed.

Section preserve.
Context {Sp Po : Type} `{!Space Sp, !Pool Po}.

Lemma allocate_wf res h (sp : Sp) (pool : Po) requested small :
  heap_wf res h -> 0 <= requested -> heap_wf res (allocate h sp pool requested small).1.1.1.
Proof.
  intros Hwf Hr. unfold allocate. destruct (Z.eqb_spec requested 0) as [|Hnz]; [done|].
  destruct (page_up requested) as [sz|] eqn:Hp; [|done]. destruct (page_up_spec _ _ Hr Hp) as (Hm & Hle & _).
  destruct (quota_left h <? sz) eqn:Hq; [done|]. apply (quota_left_spec _ _ _ Hwf) in Hq.
  destruct (free_block h) as [i|] eqn:Hi; [|done]. apply free_block_Some in Hi.
  destruct (find_hole h sz) as [addr|] eqn:Hf; [|done]. destruct (frames pool sz true) as [pool' [m|]]; [|done].
  destruct (map_own sp addr m small) as [sp' []]; [|done]. cbn [fst].
  destruct (hole_block_ok h sz addr (own_block addr m sz) ltac:(lia) Hm Hf eq_refl eq_refl ltac:(done)) as [Hb Hcl].
  pose proof (wf_shared_limit _ _ Hwf). pose proof (proj1 (wf_res _ _ Hwf)).
  apply (add_block_wf res res h i (own_block addr m sz)); cbn; try done; lia.
Qed.

Lemma heap_reserve_wf res h requested h' sz : heap_wf res h -> 0 <= requested -> reserve h requested = Some (h', sz) ->
  heap_wf (res + sz) h' /\ 0 < sz /\ sz mod PAGE = 0.
Proof.
  intros Hwf Hr. unfold reserve, mbind, option_bind. destruct (page_up requested) as [n|] eqn:Hp; [|done].
  destruct (page_up_spec _ _ Hr Hp) as (Hm & Hle & Hn). destruct (_ || _) eqn:Hc; [done|]. intros [= <- <-].
  apply orb_false_iff in Hc as [[Hz Hq]%orb_false_iff _]. apply Z.eqb_neq in Hz. apply (quota_left_spec _ _ _ Hwf) in Hq.
  split; [|lia]. destruct Hwf as [? ? ? Hb ? [? ?] ? ?]. split; cbn [add_bytes unreserve blocks heap_bytes retained shared limit]; try done; lia.
Qed.

Lemma unreserve_wf res h sz : heap_wf res h -> 0 <= sz <= res -> heap_wf (res - sz) (unreserve h sz).
Proof. intros [? ? ? Hb ? [? ?] ? ?] Hs. split; cbn [add_bytes unreserve blocks heap_bytes retained shared limit]; try done; lia. Qed.

Lemma place_wf res h (sp : Sp) (pool : Po) m small :
  heap_wf res h -> 0 < region_len m <= res -> region_len m mod PAGE = 0 ->
  let '(h', _, _, r) := place h sp pool m small in
  heap_wf (match r with Some _ => res - region_len m | None => res end) h'.
Proof.
  intros Hwf Hl Hm. unfold place. destruct (free_block h) as [i|] eqn:Hi; [|done]. apply free_block_Some in Hi.
  destruct (find_hole h (region_len m)) as [addr|] eqn:Hf; [|done]. destruct (map_own sp addr m small) as [sp' []]; [|done].
  destruct (hole_block_ok h (region_len m) addr (own_block addr m (region_len m)) ltac:(lia) Hm Hf eq_refl eq_refl ltac:(done)) as [Hb Hcl].
  pose proof (wf_quota _ _ Hwf). pose proof (wf_shared_limit _ _ Hwf).
  apply (add_block_wf res (res - region_len m) h i (own_block addr m (region_len m))); cbn; try done; lia.
Qed.

Lemma map_shared_wf res h (sp : Sp) phys requested caching wr nd :
  heap_wf res h -> 0 <= requested -> heap_wf res (map_shared h sp phys requested caching wr nd).1.1.
Proof.
  intros Hwf Hr. unfold map_shared. destruct (_ || _) eqn:Hz; [done|]. apply orb_false_iff in Hz as [Hz%Z.eqb_neq _].
  destruct (page_up requested) as [sz|] eqn:Hp; [|done]. destruct (page_up_spec _ _ Hr Hp) as (Hm & Hle & _).
  destruct (_ <? sz) eqn:Hq; [done|]. destruct (free_block h) as [i|] eqn:Hi; [|done]. apply free_block_Some in Hi.
  destruct (find_hole h sz) as [addr|] eqn:Hf; [|done]. set (dev := bool_decide _).
  destruct (match caching with CacheMemory => _ | CacheDevice => _ | CacheWriteCombining => _ end) as [sp' []]; [|done].
  cbn [fst]. set (b := mkBlock addr phys None sz nd (wr || dev) dev false).
  destruct (hole_block_ok h sz addr b ltac:(lia) Hm Hf eq_refl eq_refl ltac:(done)) as [Hb Hcl].
  pose proof (wf_quota _ _ Hwf). pose proof (wf_shared_limit _ _ Hwf). pose proof (proj1 (wf_res _ _ Hwf)).
  apply (add_block_wf res res h i b); cbn; try done; try lia.
  unfold saturating_sub in Hq. lia.
Qed.

Lemma at_block_Some h i k b : at_block h i = Some (k, b) -> i = Some k /\ blocks h !! k = Some (Some b).
Proof.
  unfold at_block, mbind, option_bind. destruct i as [i|]; [|done]. destruct (blocks h !! i) as [[c|]|] eqn:Hi; cbn; [|done..].
  intros [= <- <-]. done.
Qed.

Lemma detach_wf res h (sp : Sp) addr : heap_wf res h -> heap_wf res (detach h sp addr).1.1.
Proof.
  intros Hwf. unfold detach. destruct (at_block h _) as [[i b]|] eqn:Ha; [|done].
  apply at_block_Some in Ha as [Hp Hi]. apply position_Some in Hp as (x & Hx & Hown & _). rewrite Hi in Hx. simplify_eq.
  unfold own_at in Hown. apply andb_true_iff in Hown as [[_ Hmem]%andb_true_iff Hs%negb_true_iff].
  pose proof (remove_block_wf res h i b Hwf Hi) as Hr. unfold own_of, foreign_of, owned in Hr. rewrite Hmem, Hs in Hr.
  cbn [fst]. unfold add_bytes, with_blocks. cbn. by rewrite Z.sub_0_r in Hr.
Qed.

Lemma free_wf res h (sp : Sp) addr : heap_wf res h -> heap_wf res (free h sp addr).1.1.
Proof.
  intros Hwf. unfold free. destruct (at_block h _) as [[i b]|] eqn:Ha; [|done].
  apply at_block_Some in Ha as [_ Hi]. pose proof (remove_block_wf res h i b Hwf Hi) as Hr. unfold own_of, foreign_of in Hr.
  cbn [fst]. unfold add_bytes, add_shared, with_blocks. case_match; cbn; by rewrite Z.sub_0_r in Hr.
Qed.
End preserve.

(** ** Revocation of mappings *)
Definition revoked_by (nodes : list Z) (ob : option Block) : bool :=
  match ob with Some b => bool_decide (memory b = None) && bool_decide (node b ∈ nodes) | None => false end.

(** What revoking leaves at a place: nothing, or the task's own zeroed page at the same range. *)
Definition replaced (ob ob' : option Block) : Prop :=
  match ob, ob' with
  | Some b, None => True
  | Some b, Some c => memory c <> None /\ sink c = true /\ address c = address b /\ size c = size b
  | None, _ => False
  end.

Section revocation.
Context {Sp Po : Type} `{!Space Sp, !Pool Po}.

Lemma sink_block_wf res h i b page :
  heap_wf res h -> blocks h !! i = Some (Some b) -> memory b = None ->
  let h1 := add_shared (with_blocks h (<[i := None]> (blocks h))) (- size b) in
  heap_wf res h1 /\
  (PAGE <= quota_left h1 ->
   heap_wf res (add_bytes (with_blocks h1 (<[i := Some (mkBlock (address b) (ptr page) (Some page) (size b) 0 (writable b) false true)]> (blocks h1))) PAGE)).
Proof.
  intros Hwf Hi Hm h1. pose proof (remove_block_wf res h i b Hwf Hi) as Hr.
  unfold own_of, foreign_of in Hr. rewrite bool_decide_eq_false_2, Z.sub_0_r in Hr by (rewrite Hm; auto).
  assert (heap_wf res h1) as Hwf1 by exact Hr. split; [done|]. intros Hq.
  destruct (wf_blocks _ _ Hwf i b Hi) as (H1 & H2 & H3 & H4 & H5 & _).
  assert (i < length (blocks h))%nat as Hlt by (by eapply lookup_lt_Some).
  pose proof (wf_shared_limit _ _ Hwf1). pose proof (proj1 (wf_res _ _ Hwf1)).
  apply (add_block_wf res res h1 i (mkBlock (address b) (ptr page) (Some page) (size b) 0 (writable b) false true));
    cbn [own_of foreign_of owned sink memory size address]; try done.
  - cbn. by apply list_lookup_insert_eq.
  - intros c Hc. apply elem_live in Hc as [j Hj]. apply remove_block in Hj as [Hji Hj].
    destruct (wf_apart _ _ Hwf i j b c) as [Ha|Ha]; [done..|left|right]; lia.
  - cbn. lia.
  - cbn. lia.
  - pose proof (wf_quota _ _ Hwf1). unfold quota_left, saturating_sub, PAGE in *. cbn in *. lia.
Qed.

(** One turn of the loop. *)
Lemma revoke_at_spec nodes reclaim sink_ok res h (sp : Sp) (pool : Po) any sinks i h' sp' pool' any' sinks' :
  heap_wf res h -> revoke_at nodes reclaim sink_ok (h, sp, pool, any, sinks) i = (h', sp', pool', any', sinks') ->
  heap_wf res h' /\ length (blocks h') = length (blocks h) /\ (forall j, j <> i -> blocks h' !! j = blocks h !! j) /\
  (forall ob, blocks h !! i = Some ob ->
    if revoked_by nodes ob then any' = true /\ exists ob', blocks h' !! i = Some ob' /\ replaced ob ob'
    else h' = h /\ any' = any) /\
  heap_bytes h' = heap_bytes h + PAGE * (Z.of_nat sinks' - Z.of_nat sinks) /\ (any = true -> any' = true).
Proof.
  intros Hwf. unfold revoke_at. destruct (blocks h !! i) as [[b|]|] eqn:Hi; cbn [mjoin option_join].
  2:{ intros [= <- <- <- <- <-]. split_and!; try done; [|lia]. by intros ob [= <-]. }
  2:{ intros [= <- <- <- <- <-]. split_and!; try done. lia. }
  destruct (bool_decide (memory b = None) && bool_decide (node b ∈ nodes)) eqn:Hhit.
  2:{ intros [= <- <- <- <- <-]. split_and!; try done; [|lia]. intros ob [= <-]. cbn [revoked_by]. by rewrite Hhit. }
  pose proof Hhit as [Hm%bool_decide_eq_true _]%andb_true_iff.
  assert (i < length (blocks h))%nat as Hlt by (by eapply lookup_lt_Some).
  set (h1 := add_shared _ _). destruct (if device b || _ || _ then _ else _) as [pool1 page] eqn:Hpool.
  assert (forall j, j <> i -> <[i := None]> (blocks h) !! j = blocks h !! j) as Hother
    by (intros; by apply list_lookup_insert_ne).
  assert (heap_wf res h1) as Hwf1 by exact (proj1 (sink_block_wf res h i b (mkRegion 0 0) Hwf Hi Hm)).
  assert (forall ob, Some (Some b) = Some ob -> if revoked_by nodes ob then true = true /\
    exists ob', blocks h1 !! i = Some ob' /\ replaced ob ob' else h1 = h /\ true = any) as Hnone.
  { intros ob [= <-]. cbn [revoked_by]. rewrite Hhit. split; [done|]. exists None. split; [|done]. by apply list_lookup_insert_eq. }
  assert (length (blocks h1) = length (blocks h)) as Hl1 by apply length_insert.
  assert (i < length (blocks h1))%nat as Hlt1 by (by rewrite Hl1).
  destruct page as [page|].
  - destruct (space_map_repeated _ _ _ _ _) as [sp1 mapped]. destruct mapped; intros [= <- <- <- <- <-].
    + assert (PAGE <= quota_left h1) as Hroom.
      { destruct (device b || _ || _) eqn:Hc; [done|]. apply orb_false_iff in Hc as [[_ Hc]%orb_false_iff _].
        apply negb_false_iff, Z.leb_le in Hc. exact Hc. }
      pose proof (proj2 (sink_block_wf res h i b page Hwf Hi Hm) Hroom) as Hwf2.
      split_and!; try done.
      * cbn. by rewrite !length_insert.
      * intros j Hj. cbn. by rewrite !list_lookup_insert_ne.
      * intros ob [= <-]. cbn [revoked_by]. rewrite Hhit. split; [done|]. eexists. split; [apply list_lookup_insert_eq; exact Hlt1|done].
      * cbn [add_bytes with_blocks heap_bytes add_shared h1]. unfold PAGE. lia.
    + split_and!; try done. cbn. unfold PAGE. lia.
  - intros [= <- <- <- <- <-]. split_and!; try done. cbn. unfold PAGE. lia.
Qed.

Lemma revoke_loop_spec nodes reclaim sink_ok idx : forall res h (sp : Sp) (pool : Po) any sinks h' sp' pool' any' sinks',
  heap_wf res h -> NoDup idx -> (forall i, i ∈ idx -> (i < length (blocks h))%nat) ->
  foldl (revoke_at nodes reclaim sink_ok) (h, sp, pool, any, sinks) idx = (h', sp', pool', any', sinks') ->
  heap_wf res h' /\ length (blocks h') = length (blocks h) /\ (forall j, j ∉ idx -> blocks h' !! j = blocks h !! j) /\
  (forall i ob, i ∈ idx -> blocks h !! i = Some ob ->
    if revoked_by nodes ob then any' = true /\ exists ob', blocks h' !! i = Some ob' /\ replaced ob ob'
    else blocks h' !! i = Some ob) /\
  heap_bytes h' = heap_bytes h + PAGE * (Z.of_nat sinks' - Z.of_nat sinks) /\ (any = true -> any' = true).
Proof.
  induction idx as [|i idx IH]; intros res h sp pool any sinks h' sp' pool' any' sinks' Hwf Hnd Hin; cbn [foldl].
  - intros [= <- <- <- <- <-]. split_and!; try done; [|lia]. intros i ob Hi. by apply not_elem_of_nil in Hi.
  - apply NoDup_cons in Hnd as [Hni Hnd].
    destruct (revoke_at nodes reclaim sink_ok (h, sp, pool, any, sinks) i) as [[[[h1 sp1] pool1] any1] sinks1] eqn:H1.
    destruct (revoke_at_spec _ _ _ _ _ _ _ _ _ _ _ _ _ _ _ Hwf H1) as (Hwf1 & Hl1 & Hoth1 & Hat1 & Hb1 & Ha1). intros H2.
    destruct (IH res h1 sp1 pool1 any1 sinks1 h' sp' pool' any' sinks' Hwf1 Hnd) as (Hwf2 & Hl2 & Hoth2 & Hat2 & Hb2 & Ha2);
      [intros j Hj; rewrite Hl1; apply Hin; by apply list_elem_of_further|exact H2|].
    split_and!; [done|congruence| | |lia|auto].
    + intros j Hj. rewrite not_elem_of_cons in Hj. rewrite Hoth2, Hoth1 by tauto. done.
    + intros j ob Hj Hob. apply elem_of_cons in Hj as [->|Hj].
      * specialize (Hat1 ob Hob). rewrite Hoth2 by done. destruct (revoked_by nodes ob).
        { destruct Hat1 as [-> Hex]. auto. }
        { by destruct Hat1 as [-> _]. }
      * rewrite <- (Hoth1 j) in Hob by congruence. by apply Hat2.
Qed.

Lemma revoke_spec nodes reclaim sink_ok res h (sp : Sp) (pool : Po) h' sp' pool' any sinks :
  heap_wf res h -> revoke h sp pool nodes reclaim sink_ok = (h', sp', pool', any, sinks) ->
  heap_wf res h' /\ heap_bytes h' = heap_bytes h + PAGE * Z.of_nat sinks /\
  (forall i ob, blocks h !! i = Some ob ->
    if revoked_by nodes ob then any = true /\ exists ob', blocks h' !! i = Some ob' /\ replaced ob ob'
    else blocks h' !! i = Some ob).
Proof.
  intros Hwf Hr. unfold revoke in Hr. apply (revoke_loop_spec _ _ _ _ res) in Hr; [|done|apply NoDup_seq|].
  - destruct Hr as (H1 & _ & _ & H2 & H3 & _). split_and!; [done|lia|]. intros i ob Hi. apply H2; [|done].
    apply elem_of_seq. apply lookup_lt_Some in Hi. lia.
  - intros i Hi. apply elem_of_seq in Hi. lia.
Qed.

(** a revocation of nodes leaves no mapping of foreign memory made through any of them: each such block is gone,
    or its range holds one zeroed page of the task's own, which is what is charged; every other block is untouched and
    the heap stays well formed. *)
Theorem revoke_unmaps nodes reclaim sink_ok res h (sp : Sp) (pool : Po) h' sp' pool' any sinks :
  heap_wf res h -> revoke h sp pool nodes reclaim sink_ok = (h', sp', pool', any, sinks) ->
  (forall n, n ∈ nodes -> made_from h' n = false) /\
  (forall b, b ∈ live h -> revoked_by nodes (Some b) = false -> b ∈ live h') /\
  heap_bytes h' = heap_bytes h + PAGE * Z.of_nat sinks /\ heap_wf res h'.
Proof.
  intros Hwf Hr. destruct (revoke_spec _ _ _ _ _ _ _ _ _ _ _ _ Hwf Hr) as (Hwf' & Hbytes & Hat). split_and!; try done.
  - intros n Hn. apply not_true_iff_false. intros Hm. apply existsb_exists in Hm as (c & Hc & Hcn).
    apply andb_true_iff in Hcn as [Hmem%bool_decide_eq_true Hnode%Z.eqb_eq]. apply list_elem_of_In, elem_live in Hc as [i Hi].
    assert (i < length (blocks h))%nat as Hlt.
    { rewrite (wf_length _ _ Hwf), <- (wf_length _ _ Hwf'). by eapply lookup_lt_Some. }
    apply lookup_lt_is_Some in Hlt as [ob Hob]. specialize (Hat i ob Hob). destruct (revoked_by nodes ob) eqn:Hrev.
    + destruct Hat as (_ & ob' & Hob' & Hrep). rewrite Hi in Hob'. simplify_eq. destruct ob as [b|]; [|done].
      destruct Hrep as (? & _). done.
    + rewrite Hi in Hat. simplify_eq. cbn [revoked_by] in Hrev. rewrite !bool_decide_eq_true_2 in Hrev; done.
  - intros b [i Hi]%elem_live Hrev. specialize (Hat i (Some b) Hi). rewrite Hrev in Hat. apply elem_live. by exists i.
Qed.
End revocation.

(** ** The heap over a task's life *)
Section life.
Context {Sp Po : Type} `{!Space Sp, !Pool Po}.

(** A step of the heap and of the bytes reserved: any operation, in any state of the address space and of the pool.
    The kernel adds to [retained] a freed block's bytes that others still hold, and takes them off when it lets go. *)
Inductive heap_step : Z * Heap -> Z * Heap -> Prop :=
| step_allocate res h (sp : Sp) (pool : Po) requested small :
    0 <= requested -> heap_step (res, h) (res, (allocate h sp pool requested small).1.1.1)
| step_reserve res h requested h' sz :
    0 <= requested -> reserve h requested = Some (h', sz) -> heap_step (res, h) (res + sz, h')
| step_unreserve res h sz : 0 <= sz <= res -> heap_step (res, h) (res - sz, unreserve h sz)
| step_place res h (sp : Sp) (pool : Po) m small h' sp' pool' r :
    0 < region_len m <= res -> region_len m mod PAGE = 0 -> place h sp pool m small = (h', sp', pool', r) ->
    heap_step (res, h) (match r with Some _ => res - region_len m | None => res end, h')
| step_map_shared res h (sp : Sp) phys requested caching wr nd :
    0 <= requested -> heap_step (res, h) (res, (map_shared h sp phys requested caching wr nd).1.1)
| step_revoke res h (sp : Sp) (pool : Po) nodes reclaim sink_ok :
    heap_step (res, h) (res, (revoke h sp pool nodes reclaim sink_ok).1.1.1.1)
| step_detach res h (sp : Sp) addr : heap_step (res, h) (res, (detach h sp addr).1.1)
| step_free res h (sp : Sp) addr : heap_step (res, h) (res, (free h sp addr).1.1)
| step_retain res h n :
    0 <= n -> heap_bytes h + retained h + n <= limit h ->
    heap_step (res, h) (res, mkHeap (blocks h) (heap_bytes h) (retained h + n) (shared h) (limit h))
| step_release res h n :
    0 <= n <= retained h -> heap_step (res, h) (res, mkHeap (blocks h) (heap_bytes h) (retained h - n) (shared h) (limit h)).

Lemma heap_step_wf a b : heap_step a b -> heap_wf a.1 a.2 -> heap_wf b.1 b.2.
Proof.
  intros Hs Hwf. destruct Hs as [res h sp pool rq small Hr|res h rq h' sz Hr He|res h sz Hr|res h sp pool m small h' sp' pool' r Hl Hm He
    |res h sp phys rq ca wr nd Hr|res h sp pool nodes rc sk|res h sp addr|res h sp addr|res h n Hn Hq|res h n Hn]; cbn [fst snd] in *.
  - by apply allocate_wf.
  - by destruct (heap_reserve_wf _ _ _ _ _ Hwf Hr He).
  - by apply unreserve_wf.
  - pose proof (place_wf res h sp pool m small Hwf Hl Hm) as H. by rewrite He in H.
  - by apply map_shared_wf.
  - destruct (revoke h sp pool nodes rc sk) as [[[[h' sp'] pool'] any] sinks] eqn:He.
    by destruct (revoke_spec _ _ _ _ _ _ _ _ _ _ _ _ Hwf He).
  - by apply detach_wf.
  - by apply free_wf.
  - destruct Hwf as [? ? ? ? ? [? ?] ? ?]. split; cbn [blocks heap_bytes retained shared limit]; try done; lia.
  - destruct Hwf as [? ? ? ? ? [? ?] ? ?]. split; cbn [blocks heap_bytes retained shared limit]; try done; lia.
Qed.

(** C13: in every heap reachable by the kernel's operations the blocks lie inside the heap window, in whole pages,
    any two with a guard page between them; the private bytes are exactly those of the task's own blocks and
    reservations, the shared bytes those of the foreign mappings; and private and retained bytes together never exceed
    the task's memory quota. *)
Theorem heap_invariant l res h :
  0 <= l -> rtc heap_step (0, with_limit l) (res, h) ->
  (forall b, b ∈ live h -> block_ok b) /\
  (forall i j b c, i <> j -> blocks h !! i = Some (Some b) -> blocks h !! j = Some (Some c) -> apart b c) /\
  heap_bytes h = zsum (map own_of (blocks h)) + res /\ shared h = zsum (map foreign_of (blocks h)) /\
  0 <= res /\ heap_bytes h + retained h <= limit h.
Proof.
  intros Hl Hs. assert (forall a b, rtc heap_step a b -> heap_wf a.1 a.2 -> heap_wf b.1 b.2) as Hinv.
  { induction 1 as [|a b c Hab _ IH]; [done|]. intros Ha. apply IH. by eapply heap_step_wf. }
  apply Hinv in Hs; [|by apply with_limit_wf]. cbn [fst snd] in Hs. split_and!; try apply Hs.
  intros b [i Hi]%elem_live. by eapply (wf_blocks _ _ Hs).
Qed.
End life.

(** ** Witnesses: an address space that takes every mapping and a pool that hands out addresses in order *)
#[export] Instance any_space : Space unit := {
  space_map s _ _ _ _ _ := (s, true); space_map_small s _ _ _ _ := (s, true); space_map_device s _ _ _ := (s, true);
  space_map_framebuffer s _ _ _ _ := (s, true); space_map_repeated s _ _ _ _ := (s, true);
  space_unmap s _ _ := s; space_unmap_leaves s _ _ := s;
}.
#[export] Instance any_pool : Pool Z := {
  pool_task p n _ := (p + n, Some (mkRegion p n)); pool_task_unzeroed p n _ := (p + n, Some (mkRegion p n)); pool_drop p _ := p;
}.

Definition sample_heap : Heap := (map_shared (allocate (with_limit HEAP_MAX_BYTES) tt 4096 5000 false).1.1.1 tt 8192 4096 CacheMemory true 9).1.1.

Lemma sample_reachable : rtc (heap_step (Sp := unit) (Po := Z)) (0, with_limit HEAP_MAX_BYTES) (0, sample_heap).
Proof.
  eapply rtc_l; [exact (step_allocate 0 (with_limit HEAP_MAX_BYTES) tt 4096 5000 false ltac:(done))|].
  apply rtc_once. exact (step_map_shared 0 _ tt 8192 4096 CacheMemory true 9 ltac:(done)).
Qed.

Lemma heap_invariant_witness :
  (forall b, b ∈ live sample_heap -> block_ok b) /\
  (forall i j b c, i <> j -> blocks sample_heap !! i = Some (Some b) -> blocks sample_heap !! j = Some (Some c) -> apart b c) /\
  heap_bytes sample_heap = zsum (map own_of (blocks sample_heap)) + 0 /\ shared sample_heap = zsum (map foreign_of (blocks sample_heap)) /\
  0 <= 0 /\ heap_bytes sample_heap + retained sample_heap <= limit sample_heap.
Proof. exact (heap_invariant HEAP_MAX_BYTES 0 sample_heap ltac:(done) sample_reachable). Defined.

Lemma sample_wf : heap_wf 0 sample_heap.
Proof. apply map_shared_wf; [apply allocate_wf; [by apply with_limit_wf|done]|done]. Qed.

Lemma revoke_unmaps_witness :
  let '(h', _, _, any, sinks) := revoke sample_heap tt 4096 [9] true true in
  (forall n, n ∈ [9] -> made_from h' n = false) /\ (forall b, b ∈ live sample_heap -> revoked_by [9] (Some b) = false -> b ∈ live h') /\
  heap_bytes h' = heap_bytes sample_heap + PAGE * Z.of_nat sinks /\ heap_wf 0 h'.
Proof.
  destruct (revoke sample_heap tt 4096 [9] true true) as [[[[h' sp'] pool'] any] sinks] eqn:E.
  exact (revoke_unmaps [9] true true 0 sample_heap tt 4096 h' sp' pool' any sinks sample_wf E).
Defined.
