(* ===== verification/NodeIndex.v ===== *)
(** * The index of the derivation tree as the scheduler uses it

    [Scheduler] reaches the tree only through [Tree::get], [get_mut], [reserve], [insert], [remove] and the reaper's
    sweep. [NodeIndex] is that interface and [NodeIndexLaws] what it promises: a finite map from node ids to entries, and
    room that, once reserved, does not fail later. The open-addressing table of [TreeIndex] is its implementation. *)
From S2P Require Import Prelude TreeIndex.
Import TreeIndex.Tree.
Local Open Scope nat_scope.

(** ** The interface *)
Class NodeIndex (T : Type) : Type := {
  ix_get : T -> Z -> option Entry;
  ix_upd : T -> Z -> (Entry -> Entry) -> T;
  ix_reserve : bool -> T -> nat -> T * bool;
  ix_insert : T -> Entry -> T;
  ix_remove : T -> Z -> T;
  ix_live : T -> nat;
  ix_sweep : T -> T * list Z;
  ix_shrink : bool -> T -> T;
}.

(** What a number of entries must stay below for the table's size to be a machine word. *)
Definition few_entries (n : nat) : Prop := (Z.of_nat n < 2 ^ 57)%Z.

Class NodeIndexLaws (T : Type) `{!NodeIndex T} : Type := {
  ix_map : T -> gmap Z Entry;
  ix_ok : T -> Prop;
  ix_spare : T -> nat -> Prop;
  law_ids t i e : ix_ok t -> ix_map t !! i = Some e -> id e = i /\ i <> 0%Z;
  law_get t i : ix_ok t -> ix_get t i = ix_map t !! i;
  law_live t : ix_ok t -> ix_live t = size (ix_map t);
  law_upd t i f : ix_ok t -> (forall e, id (f e) = id e) ->
    ix_ok (ix_upd t i f) /\ ix_map (ix_upd t i f) = alter f i (ix_map t) /\ forall n, ix_spare t n -> ix_spare (ix_upd t i f) n;
  law_remove t i : ix_ok t ->
    ix_ok (ix_remove t i) /\ ix_map (ix_remove t i) = delete i (ix_map t) /\ forall n, ix_spare t n -> ix_spare (ix_remove t i) n;
  law_reserve room t n : ix_ok t -> few_entries (ix_live t) -> few_entries n ->
    ix_ok (ix_reserve room t n).1 /\ ix_map (ix_reserve room t n).1 = ix_map t /\
    ((ix_reserve room t n).2 = true -> ix_spare (ix_reserve room t n).1 n) /\ (room = true -> (ix_reserve room t n).2 = true);
  law_spare room t n : ix_ok t -> few_entries (ix_live t) -> ix_spare t (S n) -> ix_reserve room t 1 = (t, true);
  law_spare_le t n : ix_spare t (S n) -> ix_spare t n;
  law_insert t e n : ix_ok t -> ix_spare t (S n) -> id e <> 0%Z -> ix_map t !! id e = None ->
    ix_ok (ix_insert t e) /\ ix_map (ix_insert t e) = <[id e := e]> (ix_map t) /\ ix_spare (ix_insert t e) n;
  law_sweep t : ix_ok t -> ix_ok (ix_sweep t).1 /\ ix_map (ix_sweep t).1 = ix_map t;
  law_shrink room t : ix_ok t -> few_entries (ix_live t) -> ix_ok (ix_shrink room t) /\ ix_map (ix_shrink room t) = ix_map t;
}.

(** ** The table of [TreeIndex] implements it *)

(** The places the reaper looks at next, and the ghosts in them ([Scheduler::sweep_tree]). *)
Definition sweep_window (t : Tree) : Tree * list Z :=
  let size := length (places t) in
  let from := Nat.min (sweep t) size in
  let to := Nat.min (sweep t + SWEEP) size in
  let ghosts := map id (filter (fun e => id e <> 0%Z /\ at_ e = Ghost) (slice (places t) from (to - from))) in
  (mkTree (places t) (live t) (if to =? size then 0 else to), ghosts).

(** The end of [Scheduler::sweep_tree]: the table back to the size its live entries ask for. *)
Definition shrink (room : bool) (t : Tree) : Tree :=
  let want := size_for (live t) in
  if want <? length (places t) then (resize room t want).1 else t.

(** Room for [n] more entries without growing. *)
Definition spare (t : Tree) (n : nat) : Prop :=
  (live t + n) * 10 <= length (places t) * 7.

#[export] Instance tree_index : NodeIndex Tree := {
  ix_get := get; ix_upd := get_mut; ix_reserve := reserve; ix_insert := insert; ix_remove := remove; ix_live := live;
  ix_sweep := sweep_window; ix_shrink := shrink;
}.

(** A table is a doubling of [PLACES_MIN]. *)
Definition table_ok (t : Tree) : Prop := wf t /\ exists k, 8 <= k <= 63 /\ length (places t) = 2 ^ k.

Lemma abs_id t i e : wf t -> abs t !! i = Some e -> id e = i /\ i <> 0%Z.
Proof. intros Hwf. rewrite abs_Some by apply Hwf. by intros (? & ? & _). Qed.

Lemma abs_size t : wf t -> size (abs t) = live t.
Proof.
  intros Hwf. rewrite (wf_live _ Hwf). unfold abs, count. rewrite map_size_list_to_map.
  - by rewrite length_fmap.
  - rewrite <- list_fmap_compose. apply unique_NoDup, Hwf.
Qed.

(** [size_for] asks for no more than a table that is loaded to at most 7/10. *)
Lemma size_for_le l k : 8 <= k -> l * 10 <= 2 ^ k * 7 -> size_for l <= 2 ^ k.
Proof.
  intros Hk Hl. unfold size_for. change PLACES_MIN with (2 ^ 8).
  destruct (size_loop_least l l (2 ^ 8)) as [->|(s & E & Hs)]; [by apply Nat.pow_le_mono_r; lia|].
  destruct (size_loop_pow l l 8) as (j & Hj & E'). rewrite E' in *.
  destruct j as [|j]; [lia|]. rewrite Nat.pow_succ_r' in E. assert (s = 2 ^ j) as -> by lia.
  apply Nat.pow_le_mono_r; [lia|]. destruct (decide (S j <= k)) as [|Hgt]; [done|].
  pose proof (Nat.pow_le_mono_r 2 k j ltac:(lia) ltac:(lia)). lia.
Qed.

Lemma few_few l n : few_entries l -> few_entries n -> few (l + n).
Proof. unfold few_entries, few. change (2 ^ 58)%Z with (2 * 2 ^ 57)%Z. lia. Qed.

Lemma few_0 : few_entries 0.
Proof. done. Qed.

Lemma reserve_table room t n : table_ok t -> few_entries (live t) -> few_entries n ->
  table_ok (reserve room t n).1 /\ abs (reserve room t n).1 = abs t /\ live (reserve room t n).1 = live t /\
  ((reserve room t n).2 = true -> spare (reserve room t n).1 n) /\ (room = true -> (reserve room t n).2 = true).
Proof.
  intros [Hwf (k & Hk & Hlen)] Hl Hn. pose proof (few_few _ _ Hl Hn) as Hf.
  destruct (reserve_wf t room n Hwf Hf) as (A & B & C & D & E & F).
  split; [split; [done|]|].
  - destruct (size_for_spec _ Hf) as (j & Hj & Ej & Hload). unfold reserve. rewrite Ej.
    destruct (Nat.leb_spec (2 ^ j) (length (places t))); cbn [fst]; [by exists k|].
    destruct (resize_wf t j room Hwf ltac:(lia)) as (_ & _ & _ & _ & ->). { pose proof (wf_room _ Hwf). lia. }
    destruct room; [by exists j|by exists k].
  - split; [done|]. split; [done|]. split; [|done]. unfold spare. rewrite C. exact D.
Qed.

Lemma spare_reserve room t n : table_ok t -> spare t (S n) -> reserve room t 1 = (t, true).
Proof.
  intros [Hwf (k & Hk & Hlen)] Hs. unfold spare in Hs. unfold reserve.
  pose proof (size_for_le (live t + 1) k). rewrite Hlen in *.
  destruct (Nat.leb_spec (size_for (live t + 1)) (2 ^ k)); [done|lia].
Qed.

Lemma insert_table t e n : table_ok t -> spare t (S n) -> id e <> 0%Z -> abs t !! id e = None ->
  table_ok (insert t e) /\ abs (insert t e) = <[id e := e]> (abs t) /\ spare (insert t e) n.
Proof.
  intros [Hwf (k & Hk & Hlen)] Hs He Hn. unfold spare in *. pose proof (sized_pos _ (wf_sized _ Hwf)).
  destruct (insert_wf t e Hwf He Hn ltac:(lia)) as (A & B & C & D). rewrite C, D.
  split; [split; [done|exists k; by rewrite D]|]. split; [done|lia].
Qed.

Lemma shrink_table room t : table_ok t -> few_entries (live t) -> table_ok (shrink room t) /\ abs (shrink room t) = abs t.
Proof.
  intros [Hwf (k & Hk & Hlen)] Hl. unfold shrink.
  destruct (Nat.ltb_spec (size_for (live t)) (length (places t))); [|by split; [split; [|exists k]|]].
  pose proof (few_few _ _ Hl few_0) as Hf. rewrite Nat.add_0_r in Hf.
  destruct (size_for_spec _ Hf) as (j & Hj & E & Hload). rewrite E in *.
  destruct (resize_wf t j room Hwf ltac:(lia)) as (A & B & C & D & F). { pose proof (Nat.pow_nonzero 2 j). lia. }
  split; [split; [done|]|done]. rewrite F. destruct room; [by exists j|by exists k].
Qed.

Lemma sweep_table t : table_ok t -> table_ok (sweep_window t).1 /\ abs (sweep_window t).1 = abs t.
Proof. by intros [[] ?]. Qed.

#[export] Instance tree_index_laws : NodeIndexLaws Tree.
Proof.
  refine {| ix_map := abs; ix_ok := table_ok; ix_spare := spare |}.
  - intros t i e [Hwf _]. by apply abs_id.
  - intros t i [Hwf _]. by apply get_abs_aux.
  - intros t [Hwf _]. symmetry. by apply abs_size.
  - intros t i f [Hwf (k & Hk)] Hf. destruct (get_mut_wf t i f Hwf Hf) as (A & B & C & D).
    split; [split; [done|exists k; cbn [ix_upd tree_index]; by rewrite C]|]. split; [done|]. intros n. unfold spare. cbn [ix_upd tree_index]. by rewrite C, D.
  - intros t i [Hwf (k & Hk)]. destruct (remove_wf t i Hwf) as (A & B & C & D).
    split; [split; [done|exists k; cbn [ix_remove tree_index]; by rewrite C]|]. split; [done|]. intros n. unfold spare. cbn [ix_remove tree_index]. rewrite C, D. lia.
  - intros room t n Hok Hl Hn. destruct (reserve_table room t n Hok Hl Hn) as (A & B & C & D & E). done.
  - intros room t n Hok _ Hs. by apply (spare_reserve room t n).
  - intros t n. unfold spare. lia.
  - intros t e n. apply insert_table.
  - apply sweep_table.
  - apply shrink_table.
Defined.

Lemma new_table : table_ok tree_new /\ abs tree_new = ∅.
Proof.
  destruct (empty_wf 8 0) as [A B]; [lia|]. change (2 ^ 8) with PLACES_MIN in *. fold tree_new in *.
  split; [split; [done|exists 8; split; [lia|done]]|done].
Qed.
