(* ===== verification/Kernel.v ===== *)
(** * The scheduler's state ([kernel/src/scheduler.rs]: [struct Task], [struct Scheduler])

    The records the kernel's operations share, and the accounts of private memory ([charge], [uncharge], [walk_payers],
    [payer_of]). A task's fields are grouped by the component that uses them. The clock, the IPIs and the page tables are
    outside: clock readings are arguments, IPIs sent are a log, address spaces and the frame pool are the interfaces of
    [UserHeap]. *)
From S2P Require Import Prelude Abi TaskState TreeIndex NodeIndex Caps UserHeap.
Import TreeIndex.Tree.
Local Open Scope nat_scope.

(** [struct Pending]: a capability waiting in a blocked send. *)
Record Pending : Type := mkPending { p_cap : Capability; p_node : Node; moved_from : option nat; p_source : Node * At }.

(** [SyscallMailbox]: a task's request and answer. *)
Record Mailbox : Type := mkMailbox { syscall_num : Z; arg1 : Z; arg2 : Z; msg : list Z; mb_result : Z }.
Definition msg_at (m : Mailbox) (i : nat) : Z := default 0%Z (msg m !! i).

(** A task's message passing: the send waiting for a receiver, the client awaiting a reply, the call number and the
    deadline of a blocked wait. *)
Record Ipc : Type := mkIpc {
  pending_cap : option Pending; pending_call : bool; pending_badge : Z; send_seq : Z;
  reply_to : option (nat * Z * Z); call_seq : Z; deadline : Z;
}.

(** A task's scheduling context. *)
Record Budget : Type := mkBudget { band : Z; budget_ns : Z; period_ns : Z; period_start : Z; consumed : Z }.

(** A task's quotas and accounts; [fixed_bytes] is its image, stack, screen and kept program, [kernel] its kernel
    structures as last charged. *)
Record Account : Type := mkAccount {
  parent : option (nat * Z); quota_tasks : Z; quota_endpoints : Z; memory_quota : Z; memory_tree : Z;
  payer : option (nat * Z); fixed_bytes : Z; kernel : Z;
}.

(** What a task's end touches. *)
Record Life : Type := mkLife {
  watch : option nat; exit_reason : Z; worker_of : option (nat * Z); service : bool;
}.

(** Its counters. *)
Record Counters : Type := mkCounters { runs : Z; calls : Z; run_ns : Z; sends : Z; receives : Z }.

Record Task (Sp : Type) : Type := mkTask {
  pid : Z; state : State; cpu : nat; table : CTable; heap : Heap; space : Sp; mailbox : Mailbox; ipc : Ipc;
  budget : Budget; account : Account; life : Life; counters : Counters; dirty : bool;
}.
Arguments mkTask {Sp}.
Arguments pid {Sp}. Arguments state {Sp}. Arguments cpu {Sp}. Arguments table {Sp}. Arguments heap {Sp}.
Arguments space {Sp}. Arguments mailbox {Sp}. Arguments ipc {Sp}. Arguments budget {Sp}. Arguments account {Sp}.
Arguments life {Sp}. Arguments counters {Sp}. Arguments dirty {Sp}.

(** [struct IrqBinding]. *)
Record IrqBinding : Type := mkBinding { b_ep : nat; b_slot : nat; b_pid : Z; b_pending : bool; b_unacked : bool }.
(** [struct Storm]: an MSI vector's storm count and whether it is masked at the device for one. *)
Record Storm : Type := mkStorm { since : Z; lost : Z; masked : bool; said : option Z }.
(** [struct EndpointCounters]. *)
Record EpCount : Type := mkEpCount { ep_messages : Z; ep_busy : Z; ep_timeouts : Z }.

(** Per CPU: the slot it runs, a pending TLB flush, a wake IPI on its way; the CPUs a task became ready for; IPIs sent. *)
Record Cpus : Type := mkCpus { current : list nat; flush : list bool; woken : list bool; readied : gset nat; ipis : list nat }.

(** The derivation tree. *)
Record Deriv (T : Type) : Type := mkDeriv { tree : T; revoking : list Z; next_node : Z }.
Arguments mkDeriv {T}. Arguments tree {T}. Arguments revoking {T}. Arguments next_node {T}.

(** The endpoints, interrupt lines, exit notices and the earliest deadline. *)
Record Ports : Type := mkPorts {
  endpoints : list bool; endpoint_owner : list (option (nat * Z)); ep_counts : list EpCount;
  irq_bind : list (list (option IrqBinding)); irq_pending : list bool; irqs : list Z; msi : list (option (nat * Z)); storms : list Storm; exits : list (nat * Z * Z); exits_lost : Z;
  last_send : Z; next_expiry : Z; next_wake : Z;
}.

Record Scheduler (T Sp Po : Type) : Type := mkScheduler {
  tasks : list (option (Task Sp)); cpus : Cpus; deriv : Deriv T; ports : Ports; pool : Po;
}.
Arguments mkScheduler {T Sp Po}. Arguments tasks {T Sp Po}. Arguments cpus {T Sp Po}. Arguments deriv {T Sp Po}.
Arguments ports {T Sp Po}. Arguments pool {T Sp Po}.

(** ** Field updates *)
Section updates.
Context {T Sp Po : Type}.
Implicit Types (t : Task Sp) (k : Scheduler T Sp Po).

Definition set_state s t : Task Sp :=
  mkTask (pid t) s (cpu t) (table t) (heap t) (space t) (mailbox t) (ipc t) (budget t) (account t) (life t) (counters t) (dirty t).
Definition set_table c t : Task Sp :=
  mkTask (pid t) (state t) (cpu t) c (heap t) (space t) (mailbox t) (ipc t) (budget t) (account t) (life t) (counters t) (dirty t).
Definition set_memory h sp t : Task Sp :=
  mkTask (pid t) (state t) (cpu t) (table t) h sp (mailbox t) (ipc t) (budget t) (account t) (life t) (counters t) (dirty t).
Definition set_mailbox m t : Task Sp :=
  mkTask (pid t) (state t) (cpu t) (table t) (heap t) (space t) m (ipc t) (budget t) (account t) (life t) (counters t) (dirty t).
Definition set_ipc i t : Task Sp :=
  mkTask (pid t) (state t) (cpu t) (table t) (heap t) (space t) (mailbox t) i (budget t) (account t) (life t) (counters t) (dirty t).
Definition set_budget b t : Task Sp :=
  mkTask (pid t) (state t) (cpu t) (table t) (heap t) (space t) (mailbox t) (ipc t) b (account t) (life t) (counters t) (dirty t).
Definition set_account a t : Task Sp :=
  mkTask (pid t) (state t) (cpu t) (table t) (heap t) (space t) (mailbox t) (ipc t) (budget t) a (life t) (counters t) (dirty t).
Definition set_life l t : Task Sp :=
  mkTask (pid t) (state t) (cpu t) (table t) (heap t) (space t) (mailbox t) (ipc t) (budget t) (account t) l (counters t) (dirty t).
Definition set_counters c t : Task Sp :=
  mkTask (pid t) (state t) (cpu t) (table t) (heap t) (space t) (mailbox t) (ipc t) (budget t) (account t) (life t) c (dirty t).
Definition set_dirty d t : Task Sp :=
  mkTask (pid t) (state t) (cpu t) (table t) (heap t) (space t) (mailbox t) (ipc t) (budget t) (account t) (life t) (counters t) d.

Definition set_pending p t : Task Sp :=
  set_ipc (mkIpc p (pending_call (ipc t)) (pending_badge (ipc t)) (send_seq (ipc t)) (reply_to (ipc t)) (call_seq (ipc t)) (deadline (ipc t))) t.
Definition set_reply_to r t : Task Sp :=
  set_ipc (mkIpc (pending_cap (ipc t)) (pending_call (ipc t)) (pending_badge (ipc t)) (send_seq (ipc t)) r (call_seq (ipc t)) (deadline (ipc t))) t.
Definition set_call_seq n t : Task Sp :=
  set_ipc (mkIpc (pending_cap (ipc t)) (pending_call (ipc t)) (pending_badge (ipc t)) (send_seq (ipc t)) (reply_to (ipc t)) n (deadline (ipc t))) t.
Definition set_deadline d t : Task Sp :=
  set_ipc (mkIpc (pending_cap (ipc t)) (pending_call (ipc t)) (pending_badge (ipc t)) (send_seq (ipc t)) (reply_to (ipc t)) (call_seq (ipc t)) d) t.
Definition set_tree_bytes n t : Task Sp :=
  set_account (mkAccount (parent (account t)) (quota_tasks (account t)) (quota_endpoints (account t)) (memory_quota (account t)) n
                 (payer (account t)) (fixed_bytes (account t)) (kernel (account t))) t.
Definition set_payer p t : Task Sp :=
  set_account (mkAccount (parent (account t)) (quota_tasks (account t)) (quota_endpoints (account t)) (memory_quota (account t))
                 (memory_tree (account t)) p (fixed_bytes (account t)) (kernel (account t))) t.
Definition set_kernel n t : Task Sp :=
  set_account (mkAccount (parent (account t)) (quota_tasks (account t)) (quota_endpoints (account t)) (memory_quota (account t))
                 (memory_tree (account t)) (payer (account t)) (fixed_bytes (account t)) n) t.
Definition set_result r t : Task Sp :=
  set_mailbox (mkMailbox (syscall_num (mailbox t)) (arg1 (mailbox t)) (arg2 (mailbox t)) (msg (mailbox t)) r) t.

Definition set_tasks ts k : Scheduler T Sp Po := mkScheduler ts (cpus k) (deriv k) (ports k) (pool k).
Definition set_cpus c k : Scheduler T Sp Po := mkScheduler (tasks k) c (deriv k) (ports k) (pool k).
Definition set_deriv d k : Scheduler T Sp Po := mkScheduler (tasks k) (cpus k) d (ports k) (pool k).
Definition set_ports p k : Scheduler T Sp Po := mkScheduler (tasks k) (cpus k) (deriv k) p (pool k).
Definition set_pool p k : Scheduler T Sp Po := mkScheduler (tasks k) (cpus k) (deriv k) (ports k) p.
Definition set_tree (x : T) k : Scheduler T Sp Po := set_deriv (mkDeriv x (revoking (deriv k)) (next_node (deriv k))) k.

Definition with_endpoints eps owners counts (p : Ports) : Ports :=
  mkPorts eps owners counts (irq_bind p) (irq_pending p) (irqs p) (msi p) (storms p) (exits p) (exits_lost p) (last_send p) (next_expiry p) (next_wake p).
Definition with_irqs binds pendings counts sts (p : Ports) : Ports :=
  mkPorts (endpoints p) (endpoint_owner p) (ep_counts p) binds pendings counts (msi p) sts (exits p) (exits_lost p) (last_send p) (next_expiry p) (next_wake p).
Definition with_exits xs lost_ (p : Ports) : Ports :=
  mkPorts (endpoints p) (endpoint_owner p) (ep_counts p) (irq_bind p) (irq_pending p) (irqs p) (msi p) (storms p) xs lost_ (last_send p) (next_expiry p) (next_wake p).
Definition with_times sent expiry wakes (p : Ports) : Ports :=
  mkPorts (endpoints p) (endpoint_owner p) (ep_counts p) (irq_bind p) (irq_pending p) (irqs p) (msi p) (storms p) (exits p) (exits_lost p) sent expiry wakes.

(** [self.tasks[slot]], and an update of it. *)
Definition task k (slot : nat) : option (Task Sp) := mjoin (tasks k !! slot).
Definition on_task k (slot : nat) (f : Task Sp -> Task Sp) : Scheduler T Sp Po :=
  set_tasks (alter (option_map f) slot (tasks k)) k.

(** [self.readied.mark(cpu)]. *)
Definition mark k (c : nat) : Scheduler T Sp Po :=
  set_cpus (mkCpus (current (cpus k)) (flush (cpus k)) (woken (cpus k)) ({[c]} ∪ readied (cpus k)) (ipis (cpus k))) k.

(** A task at [slot] that has not exited and is still [pid]. *)
Definition live_as k (slot : nat) (p : Z) : bool :=
  match task k slot with Some t => (pid t =? p)%Z && negb (bool_decide (state t = Exited)) | None => false end.

(** [Scheduler::live]. *)
Definition live k (slot : nat) : bool :=
  negb (slot =? 0) && match task k slot with Some t => negb (bool_decide (state t = Exited)) | None => false end.

(** [Scheduler::find]: the slot of a live task. *)
Definition find_pid k (p : Z) : option nat :=
  List.find (fun i => live_as k i p) (seq 1 (length (tasks k) - 1)).

(** ** Accounts of private memory *)

(** [Scheduler::payer_of]. *)
Definition payer_of k (slot : nat) : option nat :=
  t ← task k slot; '(up, p) ← payer (account t); if live_as k up p then Some up else None.

(** [Scheduler::walk_payers]: [f] on the task and every payer above it; at most as many as there are tasks. *)
Fixpoint walk_n (n : nat) k (at_ : option nat) (f : Task Sp -> Task Sp) : Scheduler T Sp Po :=
  match n, at_ with
  | S n, Some s => let k := on_task k s f in walk_n n k (payer_of k s) f
  | _, _ => k
  end.
Definition walk_payers k (slot : nat) (f : Task Sp -> Task Sp) : Scheduler T Sp Po :=
  walk_n (length (tasks k)) k (Some slot) f.

(** [Scheduler::charge]: none may go over its quota. *)
Fixpoint within_n (n : nat) k (at_ : option nat) (bytes : Z) : bool :=
  match n, at_ with
  | S n, Some s =>
      match task k s with
      | Some t => (saturating_add (memory_tree (account t)) bytes <=? memory_quota (account t))%Z && within_n n k (payer_of k s) bytes
      | None => false
      end
  | _, _ => true
  end.
Definition add_bytes (bytes : Z) t : Task Sp := set_tree_bytes (memory_tree (account t) + bytes)%Z t.
Definition charge k (slot : nat) (bytes : Z) : Scheduler T Sp Po * bool :=
  if within_n (length (tasks k)) k (Some slot) bytes then (walk_payers k slot (add_bytes bytes), true) else (k, false).

(** [Scheduler::uncharge]. *)
Definition sub_bytes (bytes : Z) t : Task Sp := set_tree_bytes (saturating_sub (memory_tree (account t)) bytes) t.
Definition uncharge k (slot : nat) (bytes : Z) : Scheduler T Sp Po := walk_payers k slot (sub_bytes bytes).

(** [Scheduler::settle_kernel]; [now] is [kernel_bytes] of the task. *)
Definition settle_kernel k (slot : nat) (now : Z) : Scheduler T Sp Po :=
  match task k slot with
  | None => k
  | Some t =>
      let charged := kernel (account t) in
      if (now =? charged)%Z then k else
      let k := on_task k slot (set_kernel now) in
      match payer_of k slot with
      | None => k
      | Some up => if (charged <? now)%Z then walk_payers k up (add_bytes (now - charged)) else uncharge k up (charged - now)
      end
  end.

(** [Scheduler::used_tasks] and [used_endpoints]. *)
Definition is_child (slot : nat) (p : Z) (t : Task Sp) : bool :=
  negb (bool_decide (state t = Exited)) && bool_decide (parent (account t) = Some (slot, p)).
Definition tasks_in k : list (Task Sp) := omap (fun o : option (Task Sp) => o) (tasks k).
Definition FIRST_ENDPOINT : nat := 1.
Definition used_tasks k (slot : nat) : Z :=
  match task k slot with
  | Some t => zsum (map (fun c => (1 + quota_tasks (account c))%Z) (List.filter (is_child slot (pid t)) (tasks_in k)))
  | None => 0%Z
  end.
Definition used_endpoints k (slot : nat) : Z :=
  match task k slot with
  | Some t =>
      let created := List.filter (fun e => bool_decide (endpoints (ports k) !! e = Some true) &&
                                           bool_decide (endpoint_owner (ports k) !! e = Some (Some (slot, pid t))))
                       (seq FIRST_ENDPOINT (length (endpoints (ports k)) - FIRST_ENDPOINT)) in
      (Z.of_nat (length created) + zsum (map (fun c => quota_endpoints (account c)) (List.filter (is_child slot (pid t)) (tasks_in k))))%Z
  | None => 0%Z
  end.

(** [Scheduler::descends_from]: the parent links, while each lives. *)
Fixpoint descends_n (n : nat) k (at_ ancestor : nat) : bool :=
  match n with
  | 0 => false
  | S n =>
      match (t ← task k at_; parent (account t)) with
      | None => false
      | Some (up, p) => if live_as k up p then (up =? ancestor) || descends_n n k up ancestor else false
      end
  end.
Definition descends_from k (slot ancestor : nat) : bool := descends_n (length (tasks k)) k slot ancestor.
End updates.
