(* ===== verification/Derivation.v ===== *)
(** * Derivation and revocation of capabilities ([kernel/src/scheduler/tree.rs], [impl Scheduler])

    Every copied or minted capability has an entry in the derivation tree under its source; children hang in doubly
    linked lists. [CAP_REVOKE] removes everything below a node in steps of at most [REVOKE_STEP] nodes, between which the
    scheduler's lock is let go. Here are the tree's operations on the scheduler's state; [Forest] proves that they keep
    the lists and the tables consistent, [Revoke] that a revocation ends and leaves nothing below its root. *)
From S2P Require Import Prelude Abi TaskState TreeIndex NodeIndex Caps UserHeap Kernel.
Import TreeIndex.Tree(At, AtSlot, AtSend, Ghost, Entry, mkEntry, id, depth, at_, first, next, prev, maps, more_maps, FREE).
Local Open Scope nat_scope.

Definition REVOKE_STEP : nat := 256.

(** ** Updates of an entry *)
Definition with_at (a : At) (e : Entry) : Entry :=
  mkEntry (id e) (Tree.parent e) (depth e) a (first e) (next e) (prev e) (maps e) (more_maps e).
Definition with_first (x : Z) (e : Entry) : Entry :=
  mkEntry (id e) (Tree.parent e) (depth e) (at_ e) x (next e) (prev e) (maps e) (more_maps e).
Definition with_next (x : Z) (e : Entry) : Entry :=
  mkEntry (id e) (Tree.parent e) (depth e) (at_ e) (first e) x (prev e) (maps e) (more_maps e).
Definition with_prev (x : Z) (e : Entry) : Entry :=
  mkEntry (id e) (Tree.parent e) (depth e) (at_ e) (first e) (next e) x (maps e) (more_maps e).
Definition with_maps (ms : list (nat * Z)) (more : bool) (e : Entry) : Entry :=
  mkEntry (id e) (Tree.parent e) (depth e) (at_ e) (first e) (next e) (prev e) ms more.

Definition optf {A} (o : option Entry) (d : A) (f : Entry -> A) : A := match o with Some e => f e | None => d end.

(** ** Operations on the index alone *)
Section index.
Context {T : Type} `{!NodeIndex T}.

(** [Scheduler::link]: a child put at the head of its parent's list. *)
Definition link (x : T) (p i : Z) : T :=
  let f := optf (ix_get x p) 0%Z first in
  let x := ix_upd x i (fun e => with_prev 0 (with_next f e)) in
  let x := ix_upd x f (with_prev i) in
  ix_upd x p (with_first i).

(** [Scheduler::unlink]: and taken out of it. *)
Definition unlink (x : T) (i : Z) : T :=
  match ix_get x i with
  | None => x
  | Some e =>
      let x := if negb (prev e =? 0)%Z then ix_upd x (prev e) (with_next (next e))
               else if optf (ix_get x (Tree.parent e)) false (fun p => (first p =? i)%Z)
                    then ix_upd x (Tree.parent e) (with_first (next e)) else x in
      let x := ix_upd x (next e) (with_prev (prev e)) in
      ix_upd x i (fun e => with_prev 0 (with_next 0 e))
  end.

(** [Scheduler::enter]: a node entered at its place under its parent's entry; moved, only its place changes. [room] says
    whether the kernel heap could grow the index. *)
Definition enter (room : bool) (x : T) (n : Node) (a : At) : T :=
  if (node_id n =? 0)%Z then x
  else match ix_get x (node_id n) with
  | Some _ => ix_upd x (node_id n) (with_at a)
  | None =>
      let '(x, ok) := ix_reserve room x 1 in
      if negb ok then x else
      let d := if (node_parent n =? 0)%Z then 0 else optf (ix_get x (node_parent n)) 1 (fun p => depth p + 1) in
      let x := ix_insert x (mkEntry (node_id n) (node_parent n) d a (first FREE) (next FREE) (prev FREE) (maps FREE) (more_maps FREE)) in
      if negb (node_parent n =? 0)%Z then link x (node_parent n) (node_id n) else x
  end.

(** [Scheduler::enter_source]. *)
Definition enter_source (room : bool) (x : T) (n : Node) (a : At) : T :=
  match ix_get x (node_id n) with Some _ => x | None => enter room x n a end.

(** [Scheduler::moved]. *)
Definition moved (x : T) (i : Z) (a : At) : T := ix_upd x i (with_at a).

(** [Scheduler::mapped]: a task that mapped memory through a child node. *)
Definition note_map (s : nat) (p : Z) (e : Entry) : Entry :=
  if bool_decide ((s, p) ∈ maps e) then e
  else match position (fun m => (m.2 =? 0)%Z) (maps e) with
       | Some free => with_maps (<[free := (s, p)]> (maps e)) (more_maps e) e
       | None => with_maps (maps e) true e
       end.
Definition mapped (room : bool) (x : T) (n : Node) (a : At) (s : nat) (p : Z) : T :=
  if (node_parent n =? 0)%Z then x
  else ix_upd (enter_source room x n a) (node_id n) (note_map s p).
End index.

(** ** Operations on the scheduler *)
Section ops.
Context {T Sp Po : Type} `{!NodeIndex T, !Space Sp, !Pool Po}.
Implicit Types (k : Scheduler T Sp Po) (t : Task Sp).

Definition tree_of k : T := tree (deriv k).

(** The task in [slot] while it is still [p]. *)
Definition task_as k (slot : nat) (p : Z) : option (Task Sp) :=
  t ← task k slot; if (pid t =? p)%Z then Some t else None.

(** [Scheduler::holds_at]: whether node [i] is still where [a] says. *)
Definition holds_at k (i : Z) (a : At) : bool :=
  match a with
  | AtSlot slot p index =>
      match task_as k slot p with
      | Some t => match mjoin (cspace (table t) !! index), nodes (table t) !! index with
                  | Some _, Some n => (node_id n =? i)%Z
                  | _, _ => false
                  end
      | None => false
      end
  | AtSend slot p =>
      match t ← task_as k slot p; pending_cap (ipc t) with
      | Some pe => bool_decide (moved_from pe = None) && (node_id (p_node pe) =? i)%Z
      | None => false
      end
  | Ghost => true
  end.

(** [Scheduler::mapped_by] and [Scheduler::derived]: whether anything still derives from an entry's node. *)
Definition mapped_by k (slot : nat) (p i : Z) : bool :=
  negb (p =? 0)%Z && match task_as k slot p with Some t => made_from (heap t) i | None => false end.
Definition derived k (e : Entry) : bool :=
  negb (first e =? 0)%Z || existsb (fun m => mapped_by k m.1 m.2 (id e)) (maps e)
    || (more_maps e && existsb (fun t => made_from (heap t) (id e)) (tasks_in k)).

(** [Scheduler::tree_room]. *)
Definition tree_room (room : bool) k (copies : nat) : Scheduler T Sp Po * bool :=
  let '(x, ok) := ix_reserve room (tree_of k) (2 * copies) in (set_tree x k, ok).

(** [Scheduler::forget] and [let_go_of], which call each other up the parents: a node gone from its place for good is a
    ghost while anything derives from it, else forgotten, and then its parent if that kept its entry only for its
    children. Each turn removes an entry, so one more turn than there are entries is enough. *)
Fixpoint forget_n (n : nat) k (i : Z) : Scheduler T Sp Po :=
  match n with
  | 0 => k
  | S n =>
      match ix_get (tree_of k) i with
      | None => k
      | Some e =>
          if derived k e then set_tree (ix_upd (tree_of k) i (with_at Ghost)) k
          else
            let k := set_tree (ix_remove (unlink (tree_of k) i) i) k in
            match ix_get (tree_of k) (Tree.parent e) with
            | None => k
            | Some pe =>
                if derived k pe then k
                else if bool_decide (at_ pe = Ghost) then forget_n n k (Tree.parent e)
                else if (Tree.parent pe =? 0)%Z then set_tree (ix_remove (tree_of k) (Tree.parent e)) k
                else k
            end
      end
  end.
Definition forget k (i : Z) : Scheduler T Sp Po := forget_n (S (ix_live (tree_of k))) k i.
Definition let_go_of k (i : Z) : Scheduler T Sp Po :=
  match ix_get (tree_of k) i with
  | None => k
  | Some e =>
      if derived k e then k
      else if bool_decide (at_ e = Ghost) then forget k i
      else if (Tree.parent e =? 0)%Z then set_tree (ix_remove (tree_of k) i) k
      else k
  end.

(** [Scheduler::forget_send]: a copy in a send that will not arrive. *)
Definition forget_send k (p : option Pending) : Scheduler T Sp Po :=
  match p with
  | Some pe => if bool_decide (moved_from pe = None) then forget k (node_id (p_node pe)) else k
  | None => k
  end.

(** [Scheduler::derive_refused]: a copy, mint or transfer of a node that a revocation in progress covers, or that would be
    too deep. *)
Fixpoint covered_n (n : nat) (rs : list Z) (x : T) (i : Z) : bool :=
  match n with
  | 0 => false
  | S n =>
      bool_decide (i ∈ rs) ||
      match ix_get x i with
      | Some e => if negb (Tree.parent e =? 0)%Z then covered_n n rs x (Tree.parent e) else false
      | None => false
      end
  end.
Definition derive_refused k (i : Z) (copy : bool) : option Z :=
  let d := optf (ix_get (tree_of k) i) 0 depth in
  if negb (bool_decide (revoking (deriv k) = [])) && covered_n (S DERIVE_DEPTH_MAX) (revoking (deriv k)) (tree_of k) i
  then Some ERR_REVOKING
  else if copy && (DERIVE_DEPTH_MAX <? d + 1) then Some ERR_LIMIT else None.

(** ** Stepwise revocation *)

(** [struct Revocation]. *)
Record Revocation : Type := mkRevocation {
  r_slot : nat; r_pid : Z; r_root : Z; stack : list Z; removed : nat; r_wait : bool; steps : nat; longest_ns : Z
}.

(** [Scheduler::unmap_revoked]: a mapping made through a revoked node goes; a space live on another CPU keeps its page
    tables until that CPU switched away. *)
Definition unmap_revoked k (slot : nat) (p i : Z) (this : nat) (w : bool) : Scheduler T Sp Po * bool :=
  match task_as k slot p with
  | None => (k, w)
  | Some t =>
      let remote := negb (cpu t =? this) && bool_decide (current (cpus k) !! cpu t = Some slot) in
      let '(h, sp, po, changed, made) := revoke (heap t) (space t) (pool k) [i] (negb remote) (negb (bool_decide (state t = Exited))) in
      let k := set_pool po (on_task k slot (set_memory h sp)) in
      let c := cpus k in
      let '(k, w) := if changed && remote
                     then (set_cpus (mkCpus (current c) (<[cpu t := true]> (flush c)) (woken c) (readied c) (ipis c ++ [cpu t])) k, true)
                     else (k, w) in
      (if 0 <? made then walk_payers k slot (add_bytes (Z.of_nat made * HEAP_PAGE_SIZE)) else k, w)
  end.

(** The mappings of a visited entry: those it names, and when it could not name all, those of every task. *)
Definition unmap_named (i : Z) (this : nat) (st : Scheduler T Sp Po * bool) (m : nat * Z) : Scheduler T Sp Po * bool :=
  if (m.2 =? 0)%Z then st else unmap_revoked st.1 m.1 m.2 i this st.2.
Definition unmap_any (i : Z) (this : nat) (st : Scheduler T Sp Po * bool) (slot : nat) : Scheduler T Sp Po * bool :=
  match task st.1 slot with
  | Some t => if made_from (heap t) i then unmap_revoked st.1 slot (pid t) i this st.2 else st
  | None => st
  end.
Definition unmap_entry k (e : Entry) (i : Z) (this : nat) (w : bool) : Scheduler T Sp Po * bool :=
  let st := foldl (unmap_named i this) (k, w) (maps e) in
  if more_maps e then foldl (unmap_any i this) st (seq 1 (length (tasks k) - 1)) else st.

(** The capability of a visited entry goes from where it is. *)
Definition take_away k (e : Entry) (i : Z) : Scheduler T Sp Po * nat :=
  if holds_at k i (at_ e) then
    match at_ e with
    | AtSlot slot _ index => (on_task k slot (fun t => set_table (clear_cap (table t) index) t), 1)
    | AtSend slot _ => (on_task k slot (set_pending None), 1)
    | Ghost => (k, 0)
    end
  else (k, 0).

(** One visit of [Scheduler::revoke_step]: the newest child [kid] of the node on top of the stack; [None] is the panic of
    [unwrap] on a child without entry. *)
Definition visit k (job : Revocation) (kid : Z) (this : nat) : option (Scheduler T Sp Po * Revocation) :=
  let k := set_tree (unlink (tree_of k) kid) k in
  match ix_get (tree_of k) kid with
  | None => None
  | Some e =>
      let '(k, gone) := take_away k e kid in
      let '(k, w) := unmap_entry k e kid this (r_wait job) in
      match ix_get (tree_of k) kid with
      | None => None
      | Some _ =>
          let k := set_tree (ix_upd (tree_of k) kid (fun e => with_maps [(0, 0%Z); (0, 0%Z)] false (with_at Ghost e))) k in
          Some (k, mkRevocation (r_slot job) (r_pid job) (r_root job) (kid :: stack job) (removed job + gone) w (steps job) (longest_ns job))
      end
  end.

(** The loop of [Scheduler::revoke_step]; the top of the stack is the head of the list. [None]: a panic, or no fuel. *)
Fixpoint revoke_loop (fuel budget : nat) k (job : Revocation) (this : nat) : option (Scheduler T Sp Po * Revocation) :=
  match fuel with
  | 0 => None
  | S fuel =>
      if budget =? 0 then Some (k, job)
      else match stack job with
      | [] => Some (k, job)
      | top :: rest =>
          let kid := optf (ix_get (tree_of k) top) 0%Z first in
          if (kid =? 0)%Z then
            let k := if (top =? r_root job)%Z then let_go_of k top else set_tree (ix_remove (tree_of k) top) k in
            revoke_loop fuel budget k
              (mkRevocation (r_slot job) (r_pid job) (r_root job) rest (removed job) (r_wait job) (steps job) (longest_ns job)) this
          else
            match visit k job kid this with
            | None => None
            | Some (k, job) => revoke_loop fuel (budget - 1) k job this
            end
      end
  end.

(** [Scheduler::revoke_step]; [started] and [ended] are the clock at its start and end. Each visit takes one of the budget
    and adds one to the stack, each other turn takes one off the stack: the fuel covers them all. *)
Definition revoke_step k (job : Revocation) (this : nat) (started ended : Z) : option (Scheduler T Sp Po * Revocation * bool) :=
  '(k, job) ← revoke_loop (2 * REVOKE_STEP + length (stack job) + 1) REVOKE_STEP k job this;
  Some (k, mkRevocation (r_slot job) (r_pid job) (r_root job) (stack job) (removed job) (r_wait job) (S (steps job))
             (Z.max (longest_ns job) (saturating_sub ended started)), bool_decide (stack job = [])).

(** [Scheduler::begin_revoke]. *)
Definition begin_revoke k (slot : nat) (root : Z) (this : nat) (started ended : Z) : option (Scheduler T Sp Po * Revocation * bool) :=
  t ← task k slot;
  let k := set_deriv (mkDeriv (tree_of k) (revoking (deriv k) ++ [root]) (next_node (deriv k))) k in
  revoke_step k (mkRevocation slot (pid t) root [root] 0 false 0 0) this started ended.

(** [Vec::swap_remove]. *)
Definition swap_remove {A} (l : list A) (i : nat) : list A :=
  match last l with
  | Some x => if i =? length l - 1 then take i l else <[i := x]> (take (length l - 1) l)
  | None => l
  end.

(** [Scheduler::end_revoke]: the caller's answer, and whether it waits for another CPU to switch away; [None] when the
    caller is gone. *)
Definition end_revoke k (job : Revocation) : Scheduler T Sp Po * option bool :=
  let d := deriv k in
  let rs := match position (Z.eqb (r_root job)) (revoking d) with Some i => swap_remove (revoking d) i | None => revoking d end in
  let k := set_deriv (mkDeriv (tree d) rs (next_node d)) k in
  if negb (live_as k (r_slot job) (r_pid job)) then (k, None)
  else
    let k := on_task k (r_slot job) (fun t =>
      let m := mailbox t in
      set_mailbox (mkMailbox (syscall_num m) (arg1 m) (Z.of_nat (steps job)) (<[0 := longest_ns job]> (msg m)) (Z.of_nat (removed job))) t) in
    if r_wait job && existsb (fun f => f) (flush (cpus k))
    then (on_task k (r_slot job) (set_state BlockedFlush), Some true)
    else (k, Some false).

(** [Scheduler::sweep_tree]. *)
Definition sweep_tree (room : bool) k : Scheduler T Sp Po :=
  let '(x, ghosts) := ix_sweep (tree_of k) in
  let k := foldl let_go_of (set_tree x k) ghosts in
  if bool_decide (revoking (deriv k) = []) then set_tree (ix_shrink room (tree_of k)) k else k.
End ops.
