(* ===== verification/Forest.v ===== *)
(** * The derivation tree's lists ([kernel/src/scheduler/tree.rs]: [link], [unlink], [enter], [forget])

    The entries of the index form a forest whose children lists are doubly linked through [first], [next] and [prev].
    [forest m kids U] says so of the map [m] of entries: [kids] gives each node's children, newest first, and [U] the
    nodes a revocation has taken out of their lists and not yet removed. Every operation of the tree keeps it. *)
From stdpp Require Import functions.
From S2P Require Import Prelude Abi TaskState TreeIndex NodeIndex Caps UserHeap Kernel Derivation.
Import TreeIndex.Tree(At, AtSlot, AtSend, Ghost, Entry, mkEntry, id, depth, at_, first, next, prev, maps, more_maps, FREE).

(** ** Doubly linked lists of entries *)
Definition hd0 (z : Z) (l : list Z) : Z := match l with [] => z | c :: _ => c end.
Fixpoint last0 (a : Z) (l : list Z) : Z := match l with [] => a | c :: l => last0 c l end.

(** The nodes of [l] in order, between [a] before it and [z] after it. *)
Fixpoint dll (m : gmap Z Entry) (a : Z) (l : list Z) (z : Z) : Prop :=
  match l with
  | [] => True
  | c :: l => (exists e, m !! c = Some e /\ prev e = a /\ next e = hd0 z l) /\ dll m c l z
  end.

Lemma hd0_app z l l' : hd0 z (l ++ l') = hd0 (hd0 z l') l.
Proof. by destruct l. Qed.
Lemma last0_app a l l' : last0 a (l ++ l') = last0 (last0 a l) l'.
Proof. revert a. induction l; cbn; auto. Qed.
Lemma hd0_elem z l : hd0 z l = z \/ hd0 z l ∈ l.
Proof. destruct l; cbn; [by left|right; by left]. Qed.
Lemma last0_elem a l : last0 a l = a \/ last0 a l ∈ l.
Proof.
  revert a. induction l as [|c l IH]; intros a; cbn; [by left|]. destruct (IH c) as [->|H]; right; [by left|by right].
Qed.

Lemma dll_app m a l1 l2 z : dll m a (l1 ++ l2) z <-> dll m a l1 (hd0 z l2) /\ dll m (last0 a l1) l2 z.
Proof.
  revert a. induction l1 as [|c l1 IH]; intros a; cbn; [tauto|]. rewrite IH, hd0_app. tauto.
Qed.

(** A list depends only on the links of its nodes. *)
Lemma dll_ext m m' a l z :
  (forall c e, c ∈ l -> m !! c = Some e -> exists e', m' !! c = Some e' /\ prev e' = prev e /\ next e' = next e) ->
  dll m a l z -> dll m' a l z.
Proof.
  revert a. induction l as [|c l IH]; intros a Hext; cbn; [done|]. intros [(e & He & Hp & Hn) Hd]. split.
  - destruct (Hext c e) as (e' & He' & Hp' & Hn'); [by left|done|]. exists e'. by rewrite Hp', Hn'.
  - apply IH; [|done]. intros c' e' Hc. apply Hext. by right.
Qed.

Lemma dll_in m a l z c : dll m a l z -> c ∈ l -> is_Some (m !! c).
Proof.
  revert a. induction l as [|x l IH]; intros a; cbn; [by intros _ ?%not_elem_of_nil|].
  intros [(e & He & _) Hd] [->|Hc]%elem_of_cons; [by eexists|eauto].
Qed.

(** The node before a list's head, and after its last, change with one update. *)
Lemma dll_before m a a' l z : NoDup l -> dll m a l z ->
  dll (alter (with_prev a') (hd0 0 l) m) a' l z.
Proof.
  destruct l as [|c l]; cbn; [done|]. intros [Hc _]%NoDup_cons [(e & He & _ & Hn) Hd]. split.
  - exists (with_prev a' e). split; [by rewrite lookup_alter_eq, He|done].
  - eapply dll_ext; [|done]. intros x ex Hx Hex. exists ex. rewrite lookup_alter_ne by (intros ->; done). done.
Qed.

Lemma dll_after m a l z z' : NoDup l -> l <> [] -> dll m a l z ->
  dll (alter (with_next z') (last0 0 l) m) a l z'.
Proof.
  intros Hnd Hne. destruct l as [|c l _] using rev_ind; [done|].
  rewrite last0_app. cbn [last0]. apply NoDup_app in Hnd as (_ & Hc & _). rewrite !dll_app. cbn [dll hd0].
  intros [Hd [(e & He & Hp & _) _]]. split.
  - eapply dll_ext; [|done]. intros x ex Hx Hex. exists ex. rewrite lookup_alter_ne; [done|].
    intros <-. eapply Hc; [done|by left].
  - split; [|done]. exists (with_next z' e). split; [by rewrite lookup_alter_eq, He|done].
Qed.

(** ** The forest *)
Record forest (m : gmap Z Entry) (kids : Z -> list Z) (U : gset Z) : Prop := {
  fo_zero : m !! 0 = None;
  fo_first p e : m !! p = Some e -> first e = hd0 0 (kids p);
  fo_kids p c : c ∈ kids p -> (c ∉ U) /\ p <> 0 /\ is_Some (m !! p) /\ exists e, m !! c = Some e /\ Tree.parent e = p;
  fo_nodup p : NoDup (kids p);
  fo_dll p : dll m 0 (kids p) 0;
  fo_in c e : m !! c = Some e -> Tree.parent e <> 0 -> c ∉ U -> c ∈ kids (Tree.parent e);
  fo_free c e : m !! c = Some e -> Tree.parent e = 0 \/ c ∈ U -> prev e = 0 /\ next e = 0;
  fo_depth c e pe : m !! c = Some e -> c ∉ U -> m !! Tree.parent e = Some pe -> depth e = S (depth pe);
  fo_out c : c ∈ U -> is_Some (m !! c);
  fo_root c e : m !! c = Some e -> Tree.parent e = 0 -> depth e = 0%nat;
}.

(** What an update of an entry's links, place or mappings keeps. *)
Definition same_node (e e' : Entry) : Prop := id e' = id e /\ Tree.parent e' = Tree.parent e /\ depth e' = depth e.

Lemma fo_ne m kids U c e : forest m kids U -> m !! c = Some e -> c <> 0.
Proof. intros Hf He ->. by rewrite (fo_zero _ _ _ Hf) in He. Qed.

Lemma kids_of_absent m kids U p : forest m kids U -> m !! p = None -> kids p = [].
Proof.
  intros Hf Hp. destruct (kids p) as [|c l] eqn:Hk; [done|]. exfalso.
  destruct (fo_kids _ _ _ Hf p c) as (_ & _ & [? Hs] & _); [rewrite Hk; by left|]. congruence.
Qed.

Lemma first_0_kids m kids U p e : forest m kids U -> m !! p = Some e -> first e = 0 -> kids p = [].
Proof.
  intros Hf Hp Hz. rewrite (fo_first _ _ _ Hf p e Hp) in Hz. destruct (kids p) as [|c l] eqn:Hk; [done|]. cbn in Hz. subst c.
  destruct (fo_kids _ _ _ Hf p 0) as (_ & _ & _ & ? & H0 & _); [rewrite Hk; by left|]. by rewrite (fo_zero _ _ _ Hf) in H0.
Qed.

(** A child of two nodes is a child of one. *)
Lemma kids_parent m kids U p c e : forest m kids U -> c ∈ kids p -> m !! c = Some e -> p = Tree.parent e.
Proof. intros Hf Hc He. destruct (fo_kids _ _ _ Hf p c Hc) as (_ & _ & _ & e' & He' & <-). congruence. Qed.

(** Updates that keep the links, parent and depth. *)
Lemma forest_alter m kids U i f : forest m kids U ->
  (forall e, same_node e (f e) /\ first (f e) = first e /\ next (f e) = next e /\ prev (f e) = prev e)->
  forest (alter f i m) kids U.
Proof.
  intros Hf Hs.
  assert (forall c e, alter f i m !! c = Some e -> exists e0, m !! c = Some e0 /\
    Tree.parent e = Tree.parent e0 /\ depth e = depth e0 /\ first e = first e0 /\ next e = next e0 /\ prev e = prev e0) as Hinv.
  { intros c e. destruct (decide (c = i)) as [->|Hne].
    - rewrite lookup_alter_eq, fmap_Some. intros (e0 & H0 & ->). exists e0. destruct (Hs e0) as ((_ & ? & ?) & ? & ? & ?). split_and!; auto.
    - rewrite lookup_alter_ne by done. intros He. exists e. split_and!; auto. }
  assert (forall c e0, m !! c = Some e0 -> exists e, alter f i m !! c = Some e /\
    Tree.parent e = Tree.parent e0 /\ depth e = depth e0 /\ prev e = prev e0 /\ next e = next e0) as Hfwd.
  { intros c e0 H0. destruct (decide (c = i)) as [->|Hne].
    - rewrite lookup_alter_eq, H0. eexists. split; [done|]. destruct (Hs e0) as ((_ & ? & ?) & ? & ? & ?). auto.
    - rewrite lookup_alter_ne by done. eauto 8. }
  split.
  - apply eq_None_not_Some. intros [e (e0 & H0 & _)%Hinv]. by rewrite (fo_zero _ _ _ Hf) in H0.
  - intros p e (e0 & H0 & _ & _ & -> & _)%Hinv. by apply (fo_first _ _ _ Hf).
  - intros p c Hc. destruct (fo_kids _ _ _ Hf p c Hc) as (H1 & H2 & [pe Hpe] & e0 & He0 & H3). split; [done|]. split; [done|].
    destruct (Hfwd p pe Hpe) as (pe' & -> & _). destruct (Hfwd c e0 He0) as (e & -> & ? & _). split; [by eexists|]. eexists. split; [done|congruence].
  - apply Hf.
  - intros p. eapply dll_ext; [|apply (fo_dll _ _ _ Hf)]. intros c e0 _ H0. destruct (Hfwd c e0 H0) as (e & He & _ & _ & ? & ?). eauto.
  - intros c e (e0 & H0 & -> & _)%Hinv. by apply (fo_in _ _ _ Hf).
  - intros c e (e0 & H0 & -> & _ & _ & -> & ->)%Hinv. by apply (fo_free _ _ _ Hf).
  - intros c e pe (e0 & H0 & -> & -> & _)%Hinv Hu (pe0 & Hp0 & _ & -> & _)%Hinv. by apply (fo_depth _ _ _ Hf c e0).
  - intros c [e0 H0]%(fo_out _ _ _ Hf). destruct (Hfwd c e0 H0) as (e & -> & _). by eexists.
  - intros c e (e0 & H0 & -> & -> & _)%Hinv. by apply (fo_root _ _ _ Hf c).
Qed.

(** ** Lists under updates elsewhere *)
Lemma dll_alter_out m a l z i f : i ∉ l -> dll m a l z -> dll (alter f i m) a l z.
Proof. intros Hi. apply dll_ext. intros c e Hc He. exists e. rewrite lookup_alter_ne by (intros ->; done). done. Qed.

Lemma dll_alter_keep m a l z i f : (forall e, prev (f e) = prev e /\ next (f e) = next e) ->
  dll m a l z -> dll (alter f i m) a l z.
Proof.
  intros Hf. apply dll_ext. intros c e Hc He. destruct (decide (c = i)) as [->|Hne].
  - exists (f e). rewrite lookup_alter_eq, He. destruct (Hf e). done.
  - exists e. by rewrite lookup_alter_ne.
Qed.

(** An entry without its links. *)
Definition erase (e : Entry) : Entry := with_first 0 (with_next 0 (with_prev 0 e)).

Lemma erase_alter f i (m : gmap Z Entry) : (forall e, erase (f e) = erase e) -> erase <$> alter f i m = erase <$> m.
Proof.
  intros Hf. apply map_eq. intros c. rewrite !lookup_fmap. destruct (decide (c = i)) as [->|Hne].
  - rewrite lookup_alter_eq. destruct (m !! i); cbn; [by rewrite Hf|done].
  - by rewrite lookup_alter_ne.
Qed.

Lemma erase_lookup (m m' : gmap Z Entry) c e : erase <$> m' = erase <$> m -> m' !! c = Some e -> exists e0, m !! c = Some e0 /\ erase e = erase e0.
Proof.
  intros He Hc. assert (erase <$> m' !! c = erase <$> m !! c) as Hq by (by rewrite <- !lookup_fmap, He).
  rewrite Hc in Hq. destruct (m !! c) as [e0|]; [|done]. exists e0. split; [done|]. cbn [fmap option_fmap option_map] in Hq. congruence.
Qed.

Lemma erase_fields e e0 : erase e = erase e0 ->
  id e = id e0 /\ Tree.parent e = Tree.parent e0 /\ depth e = depth e0 /\ at_ e = at_ e0 /\ maps e = maps e0 /\ more_maps e = more_maps e0.
Proof. unfold erase, with_first, with_next, with_prev. cbn. by intros [=]. Qed.

(** ** [unlink] on the map *)
Definition munlink (m : gmap Z Entry) (i : Z) : gmap Z Entry :=
  match m !! i with
  | None => m
  | Some e =>
      let m := if negb (prev e =? 0) then alter (with_next (next e)) (prev e) m
               else if optf (m !! Tree.parent e) false (fun p => first p =? i)
                    then alter (with_first (next e)) (Tree.parent e) m else m in
      let m := alter (with_prev (prev e)) (next e) m in
      alter (fun e => with_prev 0 (with_next 0 e)) i m
  end.

Lemma munlink_erase m i : erase <$> munlink m i = erase <$> m.
Proof.
  unfold munlink. destruct (m !! i) as [e|]; [|done]. rewrite !erase_alter by done.
  case_match; [by rewrite erase_alter|]. case_match; [by rewrite erase_alter|done].
Qed.

Lemma alter_0 (m : gmap Z Entry) f : m !! 0 = None -> alter f 0 m = m.
Proof. intros H. apply map_eq. intros c. destruct (decide (c = 0)) as [->|]; [by rewrite lookup_alter_eq, H|by rewrite lookup_alter_ne]. Qed.

Lemma alter_id (m : gmap Z Entry) f i : (forall e, m !! i = Some e -> f e = e) -> alter f i m = m.
Proof.
  intros H. apply map_eq. intros c. destruct (decide (c = i)) as [->|]; [|by rewrite lookup_alter_ne].
  rewrite lookup_alter_eq. destruct (m !! i) eqn:E; cbn; [by rewrite H|done].
Qed.

(** A root, and a node already taken out of its list, have no links. *)
Lemma munlink_id m kids U i e : forest m kids U -> m !! i = Some e -> Tree.parent e = 0 \/ i ∈ U -> munlink m i = m.
Proof.
  intros Hf He Hc. destruct (fo_free _ _ _ Hf i e He Hc) as [Hp Hn]. unfold munlink. rewrite He, Hp, Hn. cbn [negb Z.eqb].
  pose proof (fo_ne _ _ _ _ _ Hf He) as Hi0.
  assert (optf (m !! Tree.parent e) false (fun p => first p =? i) = false) as ->.
  { destruct (m !! Tree.parent e) as [pe|] eqn:Hpe; [|done]. cbn. apply Z.eqb_neq. intros Heq.
    rewrite (fo_first _ _ _ Hf _ _ Hpe) in Heq.
    destruct (hd0_elem 0 (kids (Tree.parent e))) as [H0|Hin]; [congruence|]. rewrite Heq in Hin.
    destruct (fo_kids _ _ _ Hf _ _ Hin) as (Hu & Hp0 & _). tauto. }
  rewrite alter_0 by apply Hf. apply alter_id. intros e' He'. assert (e' = e) as -> by congruence.
  destruct e; cbn in *; by subst.
Qed.

Lemma kids_split m kids U i e : forest m kids U -> m !! i = Some e -> Tree.parent e <> 0 -> i ∉ U ->
  exists l1 l2, kids (Tree.parent e) = l1 ++ i :: l2 /\ prev e = last0 0 l1 /\ next e = hd0 0 l2 /\
    (i ∉ l1) /\ (i ∉ l2) /\ NoDup (l1 ++ l2) /\ dll m 0 l1 i /\ dll m i l2 0.
Proof.
  intros Hf He Hp Hu. destruct (list_elem_of_split _ _ (fo_in _ _ _ Hf i e He Hp Hu)) as (l1 & l2 & Hk).
  pose proof (fo_dll _ _ _ Hf (Tree.parent e)) as Hd. pose proof (fo_nodup _ _ _ Hf (Tree.parent e)) as Hnd. rewrite Hk in Hd, Hnd.
  apply dll_app in Hd as [Hd1 Hd2]. cbn [dll hd0] in Hd1, Hd2. destruct Hd2 as [(e' & He' & Hpr & Hnx) Hd2].
  assert (e' = e) as -> by congruence. exists l1, l2.
  apply NoDup_app in Hnd as (Hn1 & Hn & [Hn2 Hn3]%NoDup_cons). split_and!; try done.
  - intros Hin. apply (Hn i Hin). by left.
  - apply NoDup_app. split_and!; try done. intros x Hx Hx2. apply (Hn x Hx). by right.
Qed.

Lemma last0_nil l : 0 ∉ l -> last0 0 l = 0 -> l = [].
Proof.
  intros Hn. destruct l as [|c l]; [done|]. cbn. intros H. exfalso. apply Hn.
  destruct (last0_elem c l) as [E|E]; rewrite H in E; [rewrite E; by left|by right].
Qed.

(** The children lists after [i] left its own. *)
Lemma munlink_dll m kids U i e l1 l2 : forest m kids U -> m !! i = Some e -> Tree.parent e <> 0 ->
  kids (Tree.parent e) = l1 ++ i :: l2 -> prev e = last0 0 l1 -> next e = hd0 0 l2 -> i ∉ l1 -> i ∉ l2 -> NoDup (l1 ++ l2) ->
  dll m 0 l1 i -> dll m i l2 0 ->
  dll (munlink m i) 0 (l1 ++ l2) 0 /\ (forall q, q <> Tree.parent e -> dll (munlink m i) 0 (kids q) 0) /\
  (forall q eq, munlink m i !! q = Some eq -> exists eq0, m !! q = Some eq0 /\
     first eq = if decide (q = Tree.parent e) then hd0 0 (l1 ++ l2) else first eq0).
Proof.
  intros Hf He Hp0 Hk Hpr Hnx Hi1 Hi2 Hnd Hd1 Hd2.
  assert (forall x, x ∈ l1 ++ i :: l2 -> x <> 0 /\ forall q, x ∈ kids q -> q = Tree.parent e) as Hmem.
  { intros x Hx. rewrite <- Hk in Hx. destruct (fo_kids _ _ _ Hf _ _ Hx) as (_ & _ & _ & ex & Hex & Hpx). split.
    - by eapply fo_ne.
    - intros q Hq. rewrite <- Hpx. by eapply kids_parent. }
  assert (0 ∉ l1) as H01 by (intros Hin; by apply (Hmem 0); [set_solver|]).
  assert (0 ∉ l2) as H02 by (intros Hin; by apply (Hmem 0); [set_solver|]).
  apply NoDup_app in Hnd as (Hn1 & Hn12 & Hn2).
  pose proof (fo_zero _ _ _ Hf) as Hz. pose proof (fo_ne _ _ _ _ _ Hf He) as Hi0.
  set (a := last0 0 l1) in *. set (b := hd0 0 l2) in *.
  assert (forall q, q <> Tree.parent e -> (a <> 0 -> a ∉ kids q) /\ (b <> 0 -> b ∉ kids q) /\ i ∉ kids q) as Hout.
  { intros q Hq. split_and!.
    - intros Ha Hin. destruct (last0_elem 0 l1) as [?|Hel]; [done|]. apply Hq, (Hmem a); [set_solver|done].
    - intros Hb Hin. destruct (hd0_elem 0 l2) as [?|Hel]; [done|]. apply Hq, (Hmem b); [set_solver|done].
    - intros Hin. apply Hq, (Hmem i); [set_solver|done]. }
  unfold munlink. rewrite He, Hpr, Hnx.
  (* the neighbour before *)
  set (m1 := if negb (a =? 0) then _ else _).
  assert (dll m1 0 l1 b /\ dll m1 i l2 0 /\ (forall q, q <> Tree.parent e -> dll m1 0 (kids q) 0) /\ m1 !! 0 = None /\
    (forall q eq, m1 !! q = Some eq -> exists eq0, m !! q = Some eq0 /\
       first eq = if decide (q = Tree.parent e) then hd0 0 (l1 ++ l2) else first eq0)) as (A1 & A2 & A3 & A4 & A5).
  { pose proof (fo_first _ _ _ Hf) as Hfst. unfold m1. destruct (Z.eqb_spec a 0) as [Ha|Ha]; cbn [negb].
    - assert (l1 = []) as -> by (by apply last0_nil).
      destruct (fo_kids _ _ _ Hf (Tree.parent e) i) as (_ & _ & [pe Hpe] & _); [rewrite Hk; by left|].
      rewrite Hpe. cbn [optf]. rewrite (Hfst _ _ Hpe), Hk. cbn [hd0 app]. rewrite Z.eqb_refl.
      split_and!; [done|by apply dll_alter_keep| |by rewrite lookup_alter_ne|].
      + intros q Hq. apply dll_alter_keep; [done|]. apply Hf.
      + intros q eq. rewrite lookup_alter. case_decide as Hd; [subst q|].
        * rewrite Hpe. intros [= <-]. exists pe. by rewrite decide_True.
        * intros Hq. exists eq. by rewrite decide_False by congruence.
    - destruct (last0_elem 0 l1) as [?|Hel]; [done|]. fold a in Hel.
      split_and!.
      + apply dll_after with (z := i); [done|by intros ->|done].
      + apply dll_alter_out; [|done]. intros Hin. by apply (Hn12 a).
      + intros q Hq. apply dll_alter_out; [by apply Hout|apply Hf].
      + by rewrite lookup_alter_ne.
      + intros q eq. rewrite lookup_alter. case_decide as Hd; [subst q|].
        * rewrite fmap_Some. intros (e0 & He0 & ->). exists e0. split; [done|]. cbn [first with_next].
          case_decide as Hd; [|done]. rewrite (Hfst _ _ He0), Hd, Hk. destruct l1; [set_solver|done].
        * intros Hq. exists eq. split; [done|]. case_decide as Hd'; [|done].
          rewrite (Hfst _ _ Hq), Hd', Hk. destruct l1; [set_solver|done]. }
  clearbody m1.
  (* the neighbour after, and the node itself *)
  split_and!.
  - apply dll_alter_out; [set_solver|]. apply dll_app. fold b. destruct (Z.eqb_spec b 0) as [Hb|Hb].
    + rewrite Hb, alter_0 by done. destruct l2 as [|c l2]; [|set_solver]. rewrite <- Hb. done.
    + destruct (hd0_elem 0 l2) as [?|Hel]; [done|]. fold b in Hel. split.
      * apply dll_alter_out; [|done]. intros Hin. by apply (Hn12 b).
      * fold a. apply dll_before with (a := i); done.
  - intros q Hq. apply dll_alter_out; [by apply Hout|]. destruct (Z.eqb_spec b 0) as [Hb|Hb].
    + rewrite Hb, alter_0 by done. by apply A3.
    + apply dll_alter_out; [by apply Hout|]. by apply A3.
  - intros q eq Hq. rewrite lookup_alter in Hq.
    assert (exists e1, m1 !! q = Some e1 /\ first eq = first e1) as (e1 & He1 & ->); [|by apply A5].
    case_decide; subst; [rewrite fmap_Some in Hq; destruct Hq as (e2 & Hq & ->)|rename eq into e2];
      rewrite lookup_alter in Hq; (case_decide; subst; [rewrite fmap_Some in Hq; destruct Hq as (e3 & Hq & ->)|]); eauto.
Qed.

Lemma fn_insert_at {A} (f : Z -> A) p x q : <[p := x]> f q = if decide (q = p) then x else f q.
Proof. unfold insert, fn_insert. repeat case_decide; congruence. Qed.

(** An entry after [unlink]. *)
Lemma munlink_lookup m i c e : munlink m i !! c = Some e -> exists e0, m !! c = Some e0 /\ erase e = erase e0.
Proof. apply erase_lookup, munlink_erase. Qed.
Lemma munlink_fwd m i c e0 : m !! c = Some e0 -> exists e, munlink m i !! c = Some e /\ erase e = erase e0.
Proof. intros H. destruct (erase_lookup (munlink m i) m c e0) as (e & He & Hq); [by rewrite munlink_erase|done|eauto]. Qed.

(** The links of the unlinked node itself, and of the others without siblings. *)
Lemma munlink_free m kids U i e c ec : forest m kids U -> m !! i = Some e -> Tree.parent e <> 0 -> i ∉ U ->
  munlink m i !! c = Some ec -> Tree.parent ec = 0 \/ c ∈ {[i]} ∪ U -> prev ec = 0 /\ next ec = 0.
Proof.
  intros Hf He Hp Hu Hc Hcase. destruct (decide (c = i)) as [->|Hne].
  { unfold munlink in Hc. rewrite He in Hc. rewrite lookup_alter_eq, fmap_Some in Hc. destruct Hc as (x & _ & ->). done. }
  destruct (munlink_lookup _ _ _ _ Hc) as (e0 & He0 & (_ & Hpar & _)%erase_fields). rewrite Hpar in Hcase.
  destruct (kids_split _ _ _ _ _ Hf He Hp Hu) as (l1 & l2 & Hk & Hpr & Hnx & _).
  assert (forall x, x ∈ kids (Tree.parent e) -> c <> x) as Hnot.
  { intros x Hx ->. destruct (fo_kids _ _ _ Hf _ _ Hx) as (HxU & Hp0 & _ & ex & Hex & Hpx). simplify_eq.
    destruct Hcase as [?|[?%elem_of_singleton|?]%elem_of_union]; congruence || done. }
  assert (c <> prev e /\ c <> next e) as [Hn1 Hn2].
  { pose proof (fo_ne _ _ _ _ _ Hf He0). rewrite Hpr, Hnx. split.
    - destruct (last0_elem 0 l1) as [->|Hel]; [done|]. apply Hnot. rewrite Hk. set_solver.
    - destruct (hd0_elem 0 l2) as [->|Hel]; [done|]. apply Hnot. rewrite Hk. set_solver. }
  assert (prev e0 = 0 /\ next e0 = 0) as [Hz1 Hz2]. { apply (fo_free _ _ _ Hf c e0 He0). set_solver. }
  unfold munlink in Hc. rewrite He in Hc. rewrite lookup_alter_ne, lookup_alter_ne in Hc by done.
  revert Hc. case_match; [rewrite lookup_alter_ne by done; intros; by simplify_eq|].
  case_match; [|intros; by simplify_eq]. rewrite lookup_alter. case_decide; [|intros; by simplify_eq].
  rewrite fmap_Some. intros (x & Hx & ->). by simplify_eq.
Qed.

(** [unlink] takes a listed node out of its parent's list. *)
Lemma forest_unlink m kids U i e : forest m kids U -> m !! i = Some e -> Tree.parent e <> 0 -> i ∉ U ->
  exists l1 l2, kids (Tree.parent e) = l1 ++ i :: l2 /\
    forest (munlink m i) (<[Tree.parent e := l1 ++ l2]> kids) ({[i]} ∪ U).
Proof.
  intros Hf He Hp Hu. destruct (kids_split _ _ _ _ _ Hf He Hp Hu) as (l1 & l2 & Hk & Hpr & Hnx & Hi1 & Hi2 & Hnd & Hd1 & Hd2).
  exists l1, l2. split; [done|].
  destruct (munlink_dll _ _ _ _ _ _ _ Hf He Hp Hk Hpr Hnx Hi1 Hi2 Hnd Hd1 Hd2) as (D1 & D2 & D3).
  assert (forall q c, c ∈ (<[Tree.parent e := l1 ++ l2]> kids) q -> c ∈ kids q /\ c <> i) as Hsub.
  { intros q c. rewrite fn_insert_at. case_decide as Hq; [subst q; rewrite Hk; set_solver|]. intros Hc. split; [done|].
    intros ->. apply Hq. by eapply kids_parent. }
  split.
  - apply eq_None_not_Some. intros [x (e0 & H0 & _)%munlink_lookup]. by rewrite (fo_zero _ _ _ Hf) in H0.
  - intros q eq Hq. destruct (D3 q eq Hq) as (eq0 & Hq0 & ->). rewrite fn_insert_at. case_decide; [done|]. by apply (fo_first _ _ _ Hf).
  - intros q c [Hc Hci]%Hsub. destruct (fo_kids _ _ _ Hf q c Hc) as (H1 & H2 & [pe Hpe] & e0 & He0 & H3).
    destruct (munlink_fwd m i q pe Hpe) as (pe' & -> & _). destruct (munlink_fwd m i c e0 He0) as (e' & -> & (_ & Hpar & _)%erase_fields).
    split; [set_solver|]. split; [done|]. split; [by eexists|]. exists e'. split; [done|congruence].
  - intros q. rewrite fn_insert_at. case_decide; [done|apply Hf].
  - intros q. rewrite fn_insert_at. case_decide; [done|by apply D2].
  - intros c ec (e0 & He0 & (_ & Hpar & _)%erase_fields)%munlink_lookup Hp0 Hcu. rewrite Hpar in *. rewrite not_elem_of_union in Hcu.
    destruct Hcu as [Hci%not_elem_of_singleton Hcu]. pose proof (fo_in _ _ _ Hf c e0 He0 Hp0 Hcu) as Hin. rewrite fn_insert_at.
    case_decide as Hq; [|done]. rewrite Hq, Hk in Hin. set_solver.
  - intros c ec. by apply (munlink_free m kids U i e).
  - intros c ec pe (e0 & He0 & (_ & Hpar & Hdep & _)%erase_fields)%munlink_lookup Hcu. rewrite Hpar.
    intros (pe0 & Hpe0 & (_ & _ & Hdep' & _)%erase_fields)%munlink_lookup. rewrite Hdep, Hdep'.
    apply (fo_depth _ _ _ Hf c e0); [done|set_solver|done].
  - intros c Hc. assert (exists x, m !! c = Some x) as [x Hx].
    { apply elem_of_union in Hc as [->%elem_of_singleton|Hc]; [eauto|by apply (fo_out _ _ _ Hf)]. }
    destruct (munlink_fwd m i c x Hx) as (? & -> & _). by eexists.
  - intros c ec (e0 & He0 & (_ & Hpar & Hdep & _)%erase_fields)%munlink_lookup. rewrite Hpar, Hdep. by apply (fo_root _ _ _ Hf c).
Qed.

(** A node with no children and in no list goes. *)
Lemma forest_delete m kids U i : forest m kids U -> kids i = [] ->
  (forall e, m !! i = Some e -> Tree.parent e = 0 \/ i ∈ U) -> forest (delete i m) kids (U ∖ {[i]}).
Proof.
  intros Hf Hk Hc.
  assert (forall q c, c ∈ kids q -> q <> i /\ c <> i) as Hne.
  { intros q c Hin. split; [intros ->; by rewrite Hk in Hin; apply not_elem_of_nil in Hin|]. intros ->.
    destruct (fo_kids _ _ _ Hf q i Hin) as (H1 & H2 & _ & e & He & H3). destruct (Hc e He); [congruence|done]. }
  split.
  - rewrite lookup_delete_None. right. apply Hf.
  - intros p e [_ He]%lookup_delete_Some. by apply (fo_first _ _ _ Hf).
  - intros p c Hin. destruct (Hne p c Hin) as [Hp Hci]. destruct (fo_kids _ _ _ Hf p c Hin) as (H1 & H2 & H3 & e & He & H4).
    rewrite !lookup_delete_ne by done. split; [set_solver|]. eauto.
  - apply Hf.
  - intros p. eapply dll_ext; [|apply (fo_dll _ _ _ Hf)]. intros c e Hin He. exists e. rewrite lookup_delete_ne; [done|].
    intros <-. by destruct (Hne p i Hin).
  - intros c e [Hci He]%lookup_delete_Some Hp Hcu. apply (fo_in _ _ _ Hf c e He Hp). set_solver.
  - intros c e [Hci He]%lookup_delete_Some Hcase. apply (fo_free _ _ _ Hf c e He). set_solver.
  - intros c e pe [Hci He]%lookup_delete_Some Hcu [_ Hpe]%lookup_delete_Some. apply (fo_depth _ _ _ Hf c e); [done|set_solver|done].
  - intros c [Hcu Hci]%elem_of_difference. rewrite lookup_delete_ne by set_solver. by apply (fo_out _ _ _ Hf).
  - intros c e [Hci He]%lookup_delete_Some. by apply (fo_root _ _ _ Hf c).
Qed.

(** ** [enter] on the map *)
Definition mlink (m : gmap Z Entry) (p i : Z) : gmap Z Entry :=
  let f := optf (m !! p) 0 first in
  let m := alter (fun e => with_prev 0 (with_next f e)) i m in
  let m := alter (with_prev i) f m in
  alter (with_first i) p m.

Definition new_entry (i p : Z) (d : nat) (a : At) : Entry :=
  mkEntry i p d a (first FREE) (next FREE) (prev FREE) (maps FREE) (more_maps FREE).

Definition menter (m : gmap Z Entry) (n : Node) (a : At) : gmap Z Entry :=
  match m !! node_id n with
  | Some _ => alter (with_at a) (node_id n) m
  | None =>
      let d := if node_parent n =? 0 then 0%nat else optf (m !! node_parent n) 1%nat (fun p => depth p + 1)%nat in
      let m := <[node_id n := new_entry (node_id n) (node_parent n) d a]> m in
      if negb (node_parent n =? 0) then mlink m (node_parent n) (node_id n) else m
  end.

Lemma mlink_erase m p i : erase <$> mlink m p i = erase <$> m.
Proof. unfold mlink. by rewrite !erase_alter. Qed.

(** A new root. *)
Lemma forest_new_root m kids U i a : forest m kids U -> m !! i = None -> i <> 0 ->
  forest (<[i := new_entry i 0 0 a]> m) kids U.
Proof.
  intros Hf Hi Hi0. pose proof (kids_of_absent _ _ _ _ Hf Hi) as Hk.
  assert (i ∉ U) as HiU by (intros [? ?]%(fo_out _ _ _ Hf); congruence).
  assert (forall c e, m !! c = Some e -> c <> i) as Hne by congruence.
  split.
  - rewrite lookup_insert_ne by done. apply Hf.
  - intros p e [[<- <-]|[? He]]%lookup_insert_Some; [by rewrite Hk|by apply (fo_first _ _ _ Hf)].
  - intros p c Hc. destruct (fo_kids _ _ _ Hf p c Hc) as (H1 & H2 & [pe Hpe] & e & He & H3).
    rewrite !lookup_insert_ne by (intros ->; congruence). rewrite Hpe. eauto 6.
  - apply Hf.
  - intros p. eapply dll_ext; [|apply (fo_dll _ _ _ Hf)]. intros c e _ He. exists e. by rewrite lookup_insert_ne by (intros ->; congruence).
  - intros c e [[<- <-]|[? He]]%lookup_insert_Some; [done|by apply (fo_in _ _ _ Hf)].
  - intros c e [[<- <-]|[? He]]%lookup_insert_Some; [done|by apply (fo_free _ _ _ Hf)].
  - intros c e pe [[<- <-]|[? He]]%lookup_insert_Some Hcu.
    + cbn [new_entry Tree.parent]. rewrite lookup_insert_ne, (fo_zero _ _ _ Hf) by done. done.
    + intros [[Hpi _]|[_ Hpe]]%lookup_insert_Some; [|by apply (fo_depth _ _ _ Hf c e)].
      exfalso. destruct (decide (Tree.parent e = 0)) as [Hz|Hz].
      * congruence.
      * pose proof (fo_in _ _ _ Hf c e He Hz Hcu) as Hin. by rewrite <- Hpi, Hk in Hin; apply not_elem_of_nil in Hin.
  - intros c [e He]%(fo_out _ _ _ Hf). rewrite lookup_insert_ne by (intros ->; congruence). by eexists.
  - intros c e [[<- <-]|[? He]]%lookup_insert_Some; [done|by apply (fo_root _ _ _ Hf c)].
Qed.

(** The lists after a new node [i] was put at the head of [p]'s. *)
Lemma mlink_dll m kids U i p pe d a : forest m kids U -> m !! i = None -> i <> 0 -> m !! p = Some pe ->
  let m' := mlink (<[i := new_entry i p d a]> m) p i in
  dll m' 0 (i :: kids p) 0 /\ (forall q, q <> p -> dll m' 0 (kids q) 0) /\
  (forall q eq, m' !! q = Some eq -> first eq = if decide (q = p) then i else hd0 0 (kids q)).
Proof.
  intros Hf Hi Hi0 Hpe m'. set (m1 := <[i := _]> m) in *. subst m'.
  assert (p <> i) as Hpi by congruence. pose proof (kids_of_absent _ _ _ _ Hf Hi) as Hki.
  assert (forall c q, c ∈ kids q -> c <> i /\ c <> 0 /\ exists e, m !! c = Some e /\ Tree.parent e = q) as Hmem.
  { intros c q Hc. destruct (fo_kids _ _ _ Hf q c Hc) as (_ & _ & _ & e & He & Hq). split_and!; [congruence| |eauto]. by eapply fo_ne. }
  unfold mlink. assert (m1 !! p = Some pe) as -> by (unfold m1; by rewrite lookup_insert_ne). cbn [optf].
  rewrite (fo_first _ _ _ Hf p pe Hpe). set (f := hd0 0 (kids p)).
  assert (f = 0 \/ f ∈ kids p) as Hff by apply hd0_elem.
  assert (f <> i) as Hfi by (destruct Hff as [->|Hin]; [congruence|by destruct (Hmem f p Hin)]).
  set (m2 := alter (fun e => with_prev 0 (with_next f e)) i m1).
  assert (forall q, dll m2 0 (kids q) 0) as H2.
  { intros q. eapply dll_ext; [|apply (fo_dll _ _ _ Hf q)]. intros c e Hc He. exists e. destruct (Hmem c q Hc) as (? & _).
    unfold m2, m1. by rewrite lookup_alter_ne, lookup_insert_ne. }
  assert (m2 !! i = Some (with_prev 0 (with_next f (new_entry i p d a)))) as Hm2i by (unfold m2, m1; by rewrite lookup_alter_eq, lookup_insert_eq).
  assert (forall q, f ∈ kids q -> q = p) as Hfq.
  { intros q Hq. destruct Hff as [Hz|Hin].
    - destruct (Hmem f q Hq) as (_ & ? & _). congruence.
    - destruct (Hmem f q Hq) as (_ & _ & e & ? & <-), (Hmem f p Hin) as (_ & _ & e' & ? & <-). congruence. }
  split_and!.
  - apply dll_alter_keep; [done|]. split.
    + eexists. split; [rewrite lookup_alter_ne by done; exact Hm2i|done].
    + apply dll_before with (a := 0); [apply Hf|apply H2].
  - intros q Hq. apply dll_alter_keep; [done|]. apply dll_alter_out; [naive_solver|apply H2].
  - assert (forall q eq, m2 !! q = Some eq -> first eq = hd0 0 (kids q)) as Hf2.
    { intros q eq. unfold m2, m1. destruct (decide (q = i)) as [->|Hqi].
      - rewrite lookup_alter_eq, lookup_insert_eq. intros [= <-]. by rewrite Hki.
      - rewrite lookup_alter_ne, lookup_insert_ne by done. apply (fo_first _ _ _ Hf). }
    intros q eq. rewrite lookup_alter. case_decide as Hqp; [subst q|]; rewrite lookup_alter.
    + case_decide; rewrite ?fmap_Some; [intros (? & (? & ? & ->)%fmap_Some & ->)|intros (? & ? & ->)]; by rewrite decide_True.
    + rewrite (decide_False (P := q = p)) by congruence. case_decide as Hfq'; [|by apply Hf2]. rewrite fmap_Some. intros (x & Hx & ->).
      rewrite <- Hfq'. exact (Hf2 f x Hx).
Qed.

Lemma mlink_lookup m p i c e : mlink m p i !! c = Some e -> exists e0, m !! c = Some e0 /\ erase e = erase e0.
Proof. apply erase_lookup, mlink_erase. Qed.
Lemma mlink_fwd m p i c e0 : m !! c = Some e0 -> exists e, mlink m p i !! c = Some e /\ erase e = erase e0.
Proof. intros H. destruct (erase_lookup (mlink m p i) m c e0) as (e & He & Hq); [by rewrite mlink_erase|done|eauto]. Qed.

(** The nodes outside every list keep their links. *)
Lemma mlink_free m kids U i p pe d a c ec : forest m kids U -> m !! i = None -> i <> 0 -> m !! p = Some pe -> p <> 0 ->
  mlink (<[i := new_entry i p d a]> m) p i !! c = Some ec -> Tree.parent ec = 0 \/ c ∈ U -> prev ec = 0 /\ next ec = 0.
Proof.
  intros Hf Hi Hi0 Hpe Hp0 Hc Hcase. destruct (mlink_lookup _ _ _ _ _ Hc) as (e0 & He0 & (_ & Hpar & _)%erase_fields).
  assert (i ∉ U) as HiU by (intros [? ?]%(fo_out _ _ _ Hf); congruence).
  assert (c <> i) as Hci.
  { intros ->. rewrite lookup_insert_eq in He0. simplify_eq. cbn in Hpar. destruct Hcase; congruence. }
  rewrite lookup_insert_ne in He0 by done. rewrite Hpar in Hcase.
  destruct (fo_free _ _ _ Hf c e0 He0 Hcase) as [Hz1 Hz2].
  assert (c <> hd0 0 (kids p)) as Hcf.
  { destruct (hd0_elem 0 (kids p)) as [Hz|Hin]; [rewrite Hz; by eapply fo_ne|]. intros Hcf. rewrite <- Hcf in Hin.
    destruct (fo_kids _ _ _ Hf p c Hin) as (H1 & _ & _ & x & Hx & H2). simplify_eq. destruct Hcase; congruence. }
  unfold mlink in Hc. rewrite (lookup_insert_ne m i p) in Hc by congruence. rewrite Hpe in Hc. cbn [optf] in Hc.
  rewrite (fo_first _ _ _ Hf p pe Hpe) in Hc.
  rewrite lookup_alter in Hc. case_decide; [apply fmap_Some in Hc as (x & Hc & ->)|];
    rewrite lookup_alter_ne, lookup_alter_ne, lookup_insert_ne in Hc by congruence; by simplify_eq.
Qed.

(** A new child at the head of its parent's list. *)
Lemma forest_new_child m kids U i p pe a : forest m kids U -> m !! i = None -> i <> 0 -> m !! p = Some pe ->
  forest (mlink (<[i := new_entry i p (depth pe + 1) a]> m) p i) (<[p := i :: kids p]> kids) U.
Proof.
  intros Hf Hi Hi0 Hpe. pose proof (fo_ne _ _ _ _ _ Hf Hpe) as Hp0. assert (p <> i) as Hpi by congruence.
  destruct (mlink_dll m kids U i p pe (depth pe + 1) a Hf Hi Hi0 Hpe) as (D1 & D2 & D3).
  pose proof (kids_of_absent _ _ _ _ Hf Hi) as Hki.
  assert (i ∉ U) as HiU by (intros [? ?]%(fo_out _ _ _ Hf); congruence).
  assert (i ∉ kids p) as Hikp. { intros Hin. destruct (fo_kids _ _ _ Hf p i Hin) as (_ & _ & _ & ? & ? & _). congruence. }
  assert (forall c e, mlink (<[i := new_entry i p (depth pe + 1) a]> m) p i !! c = Some e ->
    exists e0, <[i := new_entry i p (depth pe + 1) a]> m !! c = Some e0 /\ Tree.parent e = Tree.parent e0 /\ depth e = depth e0) as Hinv.
  { intros c e (e0 & He0 & (_ & ? & ? & _)%erase_fields)%mlink_lookup. eauto. }
  assert (forall c e0, m !! c = Some e0 ->
    exists e, mlink (<[i := new_entry i p (depth pe + 1) a]> m) p i !! c = Some e /\ Tree.parent e = Tree.parent e0) as Hfwd.
  { intros c e0 He0. assert (<[i := new_entry i p (depth pe + 1) a]> m !! c = Some e0) as Hc by (rewrite lookup_insert_ne; [done|congruence]).
    destruct (mlink_fwd _ p i c e0 Hc) as (e & He & (_ & ? & _)%erase_fields). eauto. }
  split.
  - apply eq_None_not_Some. intros [x (e0 & H0 & _)%Hinv]. rewrite lookup_insert_ne in H0 by done. by rewrite (fo_zero _ _ _ Hf) in H0.
  - intros q eq Hq. rewrite (D3 q eq Hq), fn_insert_at. by case_decide.
  - intros q c. rewrite fn_insert_at. case_decide as Hq; [subst q; intros [->|Hc]%elem_of_cons|intros Hc].
    { destruct (Hfwd p pe Hpe) as (pe' & -> & _). split; [done|]. split; [done|]. split; [by eexists|].
      destruct (mlink_fwd (<[i := new_entry i p (depth pe + 1) a]> m) p i i _ (lookup_insert_eq _ _ _)) as (e & He & (_ & ? & _)%erase_fields). eauto. }
    all: destruct (fo_kids _ _ _ Hf _ c Hc) as (H1 & H2 & [qe Hqe] & e & He & H3);
      destruct (Hfwd _ qe Hqe) as (? & -> & _), (Hfwd c e He) as (? & -> & ?); split; [done|]; split; [done|]; split; [by eexists|]; eexists; split; [done|congruence].
  - intros q. rewrite fn_insert_at. case_decide; [|apply Hf]. apply NoDup_cons. split; [done|apply Hf].
  - intros q. rewrite fn_insert_at. case_decide; [done|by apply D2].
  - intros c e (e0 & [[<- <-]|[Hci He0]]%lookup_insert_Some & Hpar & _)%Hinv Hcp HcU; rewrite fn_insert_at, Hpar.
    + cbn. rewrite decide_True by done. by left.
    + rewrite Hpar in Hcp. pose proof (fo_in _ _ _ Hf c e0 He0 Hcp HcU) as Hin. case_decide as Hq; [|done]. rewrite Hq in Hin. by right.
  - intros c ec. by apply (mlink_free m kids U i p pe).
  - intros c e qe (e0 & He0 & Hpar & Hdep)%Hinv HcU. rewrite Hpar, Hdep. intros (qe0 & Hq0 & _ & ->)%Hinv.
    apply lookup_insert_Some in He0 as [[<- <-]|[Hci He0]].
    + cbn in Hq0. rewrite lookup_insert_ne in Hq0 by done. simplify_eq. cbn. lia.
    + apply lookup_insert_Some in Hq0 as [[Hpi' _]|[_ Hq0]]; [|by apply (fo_depth _ _ _ Hf c e0)].
      exfalso. assert (Tree.parent e0 <> 0) as Hz by congruence. pose proof (fo_in _ _ _ Hf c e0 He0 Hz HcU) as Hin.
      rewrite <- Hpi', Hki in Hin. by apply not_elem_of_nil in Hin.
  - intros c [e0 H0]%(fo_out _ _ _ Hf). destruct (Hfwd c e0 H0) as (? & -> & _). by eexists.
  - intros c e (e0 & [[<- <-]|[Hci He0]]%lookup_insert_Some & Hpar & Hdep)%Hinv Hz; [by cbn in Hpar; congruence|]. rewrite Hpar in Hz. rewrite Hdep.
    by apply (fo_root _ _ _ Hf c e0).
Qed.

(** ** The index operations follow the map operations *)
Section index_map.
Context {T : Type} `{!NodeIndex T, !NodeIndexLaws T}.
Implicit Types x : T.

(** [x'] is an index of map [m'] with at least the spare room of [x]. *)
Definition follows x x' (m' : gmap Z Entry) : Prop :=
  ix_ok x' /\ ix_map x' = m' /\ forall n, ix_spare x n -> ix_spare x' n.

Lemma follows_upd x x' m i f : follows x x' m -> (forall e, id (f e) = id e) -> follows x (ix_upd x' i f) (alter f i m).
Proof. intros (Hok & <- & Hs) Hf. destruct (law_upd x' i f Hok Hf) as (A & B & C). split; [done|]. split; [done|auto]. Qed.

Lemma follows_refl x : ix_ok x -> follows x x (ix_map x).
Proof. by repeat split. Qed.

Lemma unlink_follows x i : ix_ok x -> follows x (unlink x i) (munlink (ix_map x) i).
Proof.
  intros Hok. unfold unlink, munlink. rewrite (law_get x i Hok).
  destruct (ix_map x !! i) as [e|]; [|by apply follows_refl]. rewrite (law_get x (Tree.parent e) Hok).
  apply follows_upd; [|done]. apply follows_upd; [|done].
  case_match; [apply follows_upd; [by apply follows_refl|done]|].
  case_match; [apply follows_upd; [by apply follows_refl|done]|by apply follows_refl].
Qed.

Lemma link_follows x p i : ix_ok x -> follows x (link x p i) (mlink (ix_map x) p i).
Proof.
  intros Hok. unfold link, mlink. rewrite (law_get x p Hok).
  apply follows_upd; [|done]. apply follows_upd; [|done]. apply follows_upd; [by apply follows_refl|done].
Qed.

Lemma remove_follows x x' m i : follows x x' m -> follows x (ix_remove x' i) (delete i m).
Proof. intros (Hok & <- & Hs). destruct (law_remove x' i Hok) as (A & B & C). split; [done|]. split; [done|auto]. Qed.

(** A node entered with room for it. *)
Lemma enter_map room x n a c : ix_ok x -> few_entries (ix_live x) -> ix_spare x (S c) -> node_id n <> 0 ->
  ix_ok (enter room x n a) /\ ix_map (enter room x n a) = menter (ix_map x) n a /\ ix_spare (enter room x n a) c /\
  (is_Some (ix_map x !! node_id n) -> ix_spare (enter room x n a) (S c)).
Proof.
  intros Hok Hfew Hs Hn. unfold enter, menter. rewrite (proj2 (Z.eqb_neq _ _) Hn), (law_get x _ Hok).
  destruct (ix_map x !! node_id n) as [e|] eqn:He.
  - destruct (law_upd x (node_id n) (with_at a) Hok) as (A & B & C); [done|]. split_and!; auto using law_spare_le.
  - rewrite (law_spare room x c Hok Hfew Hs). cbn [negb].
    rewrite (law_get x _ Hok).
    set (d := if node_parent n =? 0 then _ else _).
    destruct (law_insert x (new_entry (node_id n) (node_parent n) d a) c Hok Hs Hn He) as (A & B & C).
    fold (new_entry (node_id n) (node_parent n) d a). case_match.
    + destruct (link_follows _ (node_parent n) (node_id n) A) as (A' & B' & C'). rewrite B', B. split_and!; auto. by intros [].
    + split_and!; auto. by intros [].
Qed.
End index_map.
