(* ===== verification/CapOps.v ===== *)
(** * Capability operations of the scheduler ([kernel/src/scheduler.rs])

    Identities, transfers between tasks, and the system calls on a task's own table: [ENDPOINT_CREATE], [CAP_MINT],
    [CAP_DROP] and the storing of a platform capability. *)
From S2P Require Import Prelude Abi TaskState TreeIndex NodeIndex Caps UserHeap Kernel Derivation.
Import TreeIndex.Tree(At, AtSlot, AtSend, Ghost, Entry, mkEntry, id, depth, at_, first, next, prev, maps, more_maps, FREE).
Local Open Scope nat_scope.

Definition ENDPOINTS : nat := 128.
Definition ENDPOINT_ALL : Z := (CAP_READ ||| CAP_WRITE ||| CAP_GRANT ||| CAP_KEEP ||| CAP_BADGE)%Z.

Section ops.
Context {T Sp Po : Type} `{!NodeIndex T, !Space Sp, !Pool Po}.
Implicit Types (k : Scheduler T Sp Po) (t : Task Sp).

(** [Scheduler::fresh] and [Scheduler::root]. *)
Definition fresh k : Scheduler T Sp Po * Z :=
  let i := (next_node (deriv k) + 1)%Z in
  (set_deriv (mkDeriv (tree_of k) (revoking (deriv k)) i) k, i).
Definition root k : Scheduler T Sp Po * Node := let '(k, i) := fresh k in (k, MkNode i 0).

(** The table of the task in [slot]. *)
Definition with_table k (slot : nat) (f : CTable -> CTable) : Scheduler T Sp Po :=
  on_task k slot (fun t => set_table (f (table t)) t).
Definition node_at (c : CTable) (i : nat) : Node := default Node_default (nodes c !! i).

(** [Scheduler::index] and [Scheduler::cap] of the task in [slot]. *)
Definition index_of k (slot : nat) (h : Z) : option nat := t ← task k slot; index (table t) h.
Definition cap_of k (slot : nat) (h : Z) : option Capability := t ← task k slot; cap (table t) h.

(** [Scheduler::remove]: a capability goes from a table; its descendants stay revocable through a ghost node. *)
Definition remove k (slot i : nat) : Scheduler T Sp Po :=
  match task k slot with
  | None => k
  | Some t =>
      match mjoin (cspace (table t) !! i) with
      | None => k
      | Some _ => forget (with_table k slot (fun c => clear_cap c i)) (node_id (node_at (table t) i))
      end
  end.

(** [Scheduler::transfer]: a capability to hand over, a copy under a new node or, moved, the same node. *)
Definition transfer k (slot : nat) (h mask : Z) : Scheduler T Sp Po * option Pending :=
  if (h =? 0)%Z then (k, None) else
  match (t ← task k slot; i ← index (table t) h; c ← cap (table t) h; c ← narrowed c mask; Some (t, i, c)) with
  | None => (k, None)
  | Some (t, i, c) =>
      let source := node_at (table t) i in
      let moves := has mask CAP_TRANSFER_MOVE in
      let is_memory := match c with Memory _ _ _ => true | _ => false end in
      if move_only c && negb moves then (k, None)
      else if moves && is_memory && made_from (heap t) (node_id source) then (k, None)
      else
        let at_slot := (source, AtSlot slot (pid t) i) in
        if moves then (k, Some (mkPending c source (Some i) at_slot))
        else let '(k, n) := fresh k in (k, Some (mkPending c (MkNode n (node_id source)) None at_slot))
  end.

(** [Scheduler::transfer_refused]: refused while a revocation covers it, or a copy too deep, or without room for its
    entries. *)
Definition transfer_refused (grow : bool) k (slot : nat) (h mask : Z) : Scheduler T Sp Po * option Z :=
  match (t ← task k slot; i ← index (table t) h; if (h =? 0)%Z then None else Some (t, i)) with
  | None => (k, None)
  | Some (t, i) =>
      let copy := negb (has mask CAP_TRANSFER_MOVE) in
      match derive_refused k (node_id (node_at (table t) i)) copy with
      | Some e => (k, Some e)
      | None => if copy then let '(k, ok) := tree_room grow k 1 in (k, if ok then None else Some ERR_NO_MEMORY) else (k, None)
      end
  end.

(** [Scheduler::arrived]: a copy entered under its source, a move's node at its new place. *)
Definition arrived (grow : bool) k (p : Pending) (a : At) : Scheduler T Sp Po :=
  match moved_from p with
  | Some _ => set_tree (moved (tree_of k) (node_id (p_node p)) a) k
  | None => set_tree (enter grow (enter_source grow (tree_of k) (p_source p).1 (p_source p).2) (p_node p) a) k
  end.

(** [Scheduler::place]: a transferred capability in a fixed slot of [to]. *)
Definition place (grow : bool) k (from to receive : nat) (p : Pending) : Scheduler T Sp Po :=
  let still := match moved_from p with
               | None => true
               | Some i => match task k from with
                           | Some t => (node_id (node_at (table t) i) =? node_id (p_node p))%Z && bool_decide (is_Some (mjoin (cspace (table t) !! i)))
                           | None => false
                           end
               end in
  if negb still then k else
  let k := match moved_from p with Some i => with_table k from (fun c => clear_cap c i) | None => k end in
  let k := remove k to receive in
  let k := with_table k to (fun c => MkCTable (<[receive := Some (p_cap p)]> (cspace c)) (generations c) (<[receive := p_node p]> (nodes c))) in
  match task k to with
  | Some t => arrived grow k p (AtSlot to (pid t) receive)
  | None => k
  end.

(** [Scheduler::copy_refused]. *)
Definition copy_refused k (slot : nat) (h mask : Z) : bool :=
  negb (h =? 0)%Z && negb (has mask CAP_TRANSFER_MOVE) && match cap_of k slot h with Some c => move_only c | None => false end.

(** [Scheduler::new_endpoint]: a free endpoint, the tables doubled when full. *)
Definition new_endpoint (grow : bool) k : option (nat * Scheduler T Sp Po) :=
  let po := ports k in
  match List.find (fun e => bool_decide (endpoints po !! e = Some false)) (seq FIRST_ENDPOINT (length (endpoints po) - FIRST_ENDPOINT)) with
  | Some e => Some (e, k)
  | None =>
      let n := length (endpoints po) in
      if grow then
        Some (n, set_ports (with_endpoints (endpoints po ++ replicate n false) (endpoint_owner po ++ replicate n None)
                              (ep_counts po ++ replicate n (mkEpCount 0 0 0)) po) k)
      else None
  end.

(** A capability with its node stored in a free kernel-allocated slot of [slot]'s table ([Scheduler::insert]); its handle. *)
Definition store (fits : bool) k (slot : nat) (c : Capability) (n : Node) : option (Z * Scheduler T Sp Po) :=
  t ← task k slot; '(h, tb) ← insert_cap fits (table t) c n; Some (h, on_task k slot (set_table tb)).

(** [SYSCALL_ENDPOINT_CREATE]: both the endpoint table and the capability table are grown before the quota is looked at. *)
Definition endpoint_create (grow fits : bool) k (slot : nat) : Scheduler T Sp Po * result Z Z :=
  match task k slot with
  | None => (k, Err ERR_INVALID)
  | Some t =>
      let '(ep, k) := match new_endpoint grow k with Some (e, k) => (Some e, k) | None => (None, k) end in
      let '(ok, k) := match room fits (table t) with Some (_, tb) => (true, on_task k slot (set_table tb)) | None => (false, k) end in
      if (quota_endpoints (account t) <=? used_endpoints k slot)%Z then (k, Err ERR_LIMIT)
      else match ep, ok with
      | Some e, true =>
          let po := ports k in
          let k := set_ports (with_endpoints (<[e := true]> (endpoints po)) (<[e := Some (slot, pid t)]> (endpoint_owner po)) (ep_counts po) po) k in
          let '(k, n) := root k in
          match store fits k slot (Endpoint e ENDPOINT_ALL 0) n with
          | Some (h, k) => (k, Ok h)
          | None => (k, Err ERR_NO_SLOT)
          end
      | _, _ => (k, Err ERR_NO_SLOT)
      end
  end.

(** [SYSCALL_CAP_MINT]: a narrower child in a new slot, entered under its source. *)
Definition cap_mint (grow fits : bool) k (slot : nat) (m : Mailbox) : Scheduler T Sp Po * result Z Z :=
  match task k slot with
  | None => (k, Err ERR_INVALID)
  | Some t0 =>
      let '(ok, k) := match room fits (table t0) with Some (_, tb) => (true, on_task k slot (set_table tb)) | None => (false, k) end in
      match cap (table t0) (arg1 m), index (table t0) (arg1 m), ok with
      | Some c, Some i, true =>
          let source := node_at (table t0) i in
          match mint c (arg2 m) (msg_at m 0) (msg_at m 1) (msg_at m 2), derive_refused k (node_id source) true with
          | _, Some error => (k, Err error)
          | None, None => (k, Err ERR_INVALID)
          | Some child, None =>
              let '(k, room) := tree_room grow k 1 in
              if negb room then (k, Err ERR_NO_MEMORY) else
              let '(k, n) := fresh k in
              let node := MkNode n (node_id source) in
              match store fits k slot child node with
              | None => (k, Err ERR_NO_SLOT)
              | Some (h, k) =>
                  let x := enter_source grow (tree_of k) source (AtSlot slot (pid t0) i) in
                  let x := enter grow x node (AtSlot slot (pid t0) (Z.to_nat (h &&& HANDLE_SLOT_MASK))) in
                  (set_tree x k, Ok h)
              end
          end
      | Some _, Some _, false => (k, Err ERR_NO_SLOT)
      | _, _, _ => (k, Err ERR_INVALID)
      end
  end.

(** [SYSCALL_CAP_DROP]. *)
Definition cap_drop k (slot : nat) (h : Z) : Scheduler T Sp Po * result Z Z :=
  match index_of k slot h with Some i => (remove k slot i, Ok 0%Z) | None => (k, Err ERR_INVALID) end.

(** [Scheduler::holds]. *)
Definition holds_cap t (c : Capability) : bool := bool_decide (Some c ∈ cspace (table t)).

(** [SYSCALL_PLATFORM_CAP]: a new root for the resource; [c] is the answer of [Scheduler::platform_cap], which validates it. *)
Definition platform_store (fits : bool) k (slot : nat) (c : result Z Capability) : Scheduler T Sp Po * result Z Z :=
  match task k slot with
  | None => (k, Err ERR_INVALID)
  | Some t =>
      if negb (holds_cap t Platform) then (k, Err ERR_RIGHTS) else
      let '(ok, k) := match room fits (table t) with Some (_, tb) => (true, on_task k slot (set_table tb)) | None => (false, k) end in
      match ok, c with
      | true, Ok c =>
          let '(k, n) := root k in
          match store fits k slot c n with Some (h, k) => (k, Ok h) | None => (k, Err ERR_NO_SLOT) end
      | false, Ok _ => (k, Err ERR_NO_SLOT)
      | _, Err e => (k, Err e)
      end
  end.

(** [SYSCALL_CAP_REVOKE]: the first step, and the end when that was the last; [None] is a panic. *)
Definition cap_revoke k (slot : nat) (h : Z) (this : nat) (started ended : Z) :
    option (Scheduler T Sp Po * result Z (option Revocation)) :=
  match (t ← task k slot; i ← index (table t) h; _ ← mjoin (cspace (table t) !! i); Some (node_id (node_at (table t) i))) with
  | None => Some (k, Err ERR_INVALID)
  | Some r =>
      match begin_revoke k slot r this started ended with
      | Some (k, job, finished) => if finished then Some ((end_revoke k job).1, Ok None) else Some (k, Ok (Some job))
      | None => None
      end
  end.
End ops.
