(* ===== verification/CapTree.v ===== *)
(** * Capability tables and the derivation tree agree

    [caps_ok par k kids U] is the invariant of the capability system: the tree's entries form a forest, every capability a
    task holds or has in a send has one node, a derived node has an entry that names its place, and the nodes a revocation
    took out ([U]) are held by nobody. [par] is the history of identities: each node id ever made and its parent. The
    operations of [CapOps] and [Derivation] keep the invariant. *)
From S2P Require Import Prelude Abi TaskState TreeIndex NodeIndex Caps UserHeap Kernel Derivation Forest CapOps.
Import TreeIndex.Tree(At, AtSlot, AtSend, Ghost, Entry, mkEntry, id, depth, at_, first, next, prev, maps, more_maps, FREE).

Section invariant.
Context {T Sp Po : Type} `{!NodeIndex T, !NodeIndexLaws T, !Space Sp, !Pool Po}.
Implicit Types (k : Scheduler T Sp Po) (t : Task Sp) (par : gmap Z Z) (U : gset Z).

Definition mp k : gmap Z Entry := ix_map (tree_of k).

(** What the invariant sees of a task. *)
Definition seen t : Z * CTable * option Pending := (pid t, table t, pending_cap (ipc t)).
Definition vtask k (s : nat) : option (Z * CTable * option Pending) := seen <$> task k s.

(** Node [n] is at place [a]. *)
Definition holds k (n : Node) (a : At) : Prop :=
  match a with
  | AtSlot s p i => exists c pe x, vtask k s = Some (p, c, pe) /\ cspace c !! i = Some (Some x) /\ nodes c !! i = Some n
  | AtSend s p => exists c pe, vtask k s = Some (p, c, Some pe) /\ moved_from pe = None /\ p_node pe = n
  | Ghost => False
  end.

Record node_ok par (m : gmap Z Entry) (n : Node) (a : At) : Prop := {
  no_par : par !! node_id n = Some (node_parent n);
  no_entry : node_parent n <> 0 -> is_Some (m !! node_id n);
  no_at e : m !! node_id n = Some e -> at_ e = a;
}.

(** A capability in a send: its node is known; a copy's source is its parent. *)
Definition pending_ok par (pe : Pending) : Prop :=
  par !! node_id (p_node pe) = Some (node_parent (p_node pe)) /\ (moved_from pe = None -> node_id (p_source pe).1 = node_parent (p_node pe)).

Record caps_ok par k (kids : Z -> list Z) U : Prop := {
  co_tree : ix_ok (tree_of k);
  co_forest : forest (mp k) kids U;
  co_tables s p c pe : vtask k s = Some (p, c, pe) -> ct_wf c;
  co_holds n a : holds k n a -> node_ok par (mp k) n a;
  co_unique n n' a a' : holds k n a -> holds k n' a' -> node_id n = node_id n' -> a = a';
  co_sent n s p : holds k n (AtSend s p) -> node_parent n <> 0;
  co_moves s p c pe : vtask k s = Some (p, c, Some pe) -> pending_ok par pe;
  co_entries i e : mp k !! i = Some e -> par !! i = Some (Tree.parent e);
  co_ids i p : par !! i = Some p -> 0 < i <= next_node (deriv k) /\ p < i /\ (p <> 0 -> is_Some (par !! p));
  co_gone u e : u ∈ U -> mp k !! u = Some e -> at_ e = Ghost /\ Tree.parent e <> 0;
  co_depth i e : mp k !! i = Some e -> (depth e <= DERIVE_DEPTH_MAX)%nat;
}.

(** Nobody holds node [i]. *)
Definition loose k (i : Z) : Prop := forall n a, holds k n a -> node_id n <> i.

Lemma holds_ext k k' n a : (forall s, vtask k' s = vtask k s) -> holds k' n a <-> holds k n a.
Proof. intros Hv. destruct a; cbn; try setoid_rewrite Hv; done. Qed.

Lemma tree_set_tree x k : tree_of (set_tree x k) = x.
Proof. done. Qed.
Lemma vtask_set_tree x k s : vtask (set_tree x k) s = vtask k s.
Proof. done. Qed.

(** Another index, without touching the tasks. *)
Lemma caps_ok_index par k kids U x kids' U' :
  caps_ok par k kids U -> ix_ok x -> forest (ix_map x) kids' U' ->
  (forall i e, ix_map x !! i = Some e -> par !! i = Some (Tree.parent e) /\ (depth e <= DERIVE_DEPTH_MAX)%nat /\
     forall n a, holds k n a -> node_id n = i -> at_ e = a) ->
  (forall n a, holds k n a -> node_parent n <> 0 -> is_Some (ix_map x !! node_id n)) ->
  (forall u e, u ∈ U' -> ix_map x !! u = Some e -> at_ e = Ghost /\ Tree.parent e <> 0) ->
  caps_ok par (set_tree x k) kids' U'.
Proof.
  intros Hok Hx Hf Hent Hheld HU. split; try done; try apply Hok.
  - intros n a Hh. change (holds k n a) in Hh. destruct (co_holds _ _ _ _ Hok n a Hh) as [H1 H2 H3]. split; [done|by apply (Hheld n a)|].
    intros e He. destruct (Hent _ _ He) as (_ & _ & H). by apply (H n).
  - intros i e He. by apply (Hent i e).
  - intros i e He. by apply (Hent i e).
Qed.

(** Entries gone, or moved where nobody holds them. *)
Lemma caps_ok_tree par k kids U x kids' U' :
  caps_ok par k kids U -> ix_ok x -> forest (ix_map x) kids' U' ->
  (forall i e, ix_map x !! i = Some e -> exists e0, mp k !! i = Some e0 /\ Tree.parent e = Tree.parent e0 /\ depth e = depth e0 /\
     (at_ e = at_ e0 \/ loose k i)) ->
  (forall i e0, mp k !! i = Some e0 -> ix_map x !! i = None -> Tree.parent e0 = 0 \/ loose k i) ->
  (forall u e, u ∈ U' -> ix_map x !! u = Some e -> at_ e = Ghost /\ Tree.parent e <> 0) ->
  caps_ok par (set_tree x k) kids' U'.
Proof.
  intros Hok Hx Hf Hold Hgone HU. apply (caps_ok_index par k kids U); try done.
  - intros i e (e0 & He0 & -> & -> & Hat)%Hold. split; [by apply (co_entries _ _ _ _ Hok)|]. split; [by apply (co_depth _ _ _ _ Hok i)|].
    intros n a Hh <-. destruct Hat as [->|Hl]; [|by destruct (Hl n a)]. by apply (no_at _ _ _ _ (co_holds _ _ _ _ Hok n a Hh)).
  - intros n a Hh Hp. destruct (co_holds _ _ _ _ Hok n a Hh) as [H1 H2 H3]. destruct (H2 Hp) as [e0 He0].
    destruct (ix_map x !! node_id n) eqn:Hi; [by eexists|]. exfalso. destruct (Hgone _ _ He0 Hi) as [Hz|Hl]; [|by apply (Hl n a)].
    pose proof (co_entries _ _ _ _ Hok _ _ He0). congruence.
Qed.

(** Another place for an unheld node: a ghost, or where it is about to be stored. *)
Lemma relocate_ok par k kids U i a : caps_ok par k kids U -> loose k i -> a = Ghost \/ (i ∉ U) ->
  caps_ok par (set_tree (ix_upd (tree_of k) i (with_at a)) k) kids U.
Proof.
  intros Hok Hl Ha. destruct (law_upd (tree_of k) i (with_at a) (co_tree _ _ _ _ Hok)) as (A & B & C); [done|].
  assert (forall j e, alter (with_at a) i (mp k) !! j = Some e -> exists e0, mp k !! j = Some e0 /\ Tree.parent e = Tree.parent e0 /\
    depth e = depth e0 /\ (at_ e = at_ e0 \/ loose k j) /\ (at_ e = at_ e0 \/ j = i /\ at_ e = a)) as Hinv.
  { intros j e. rewrite lookup_alter. case_decide as Hd; [subst j|eauto 9]. rewrite fmap_Some. intros (e0 & H0 & ->). cbn. eauto 9. }
  fold (mp k) in B. apply (caps_ok_tree par k kids U _ kids U Hok A); rewrite ?B.
  - apply forest_alter; [apply Hok|done].
  - intros j e (e0 & ? & ? & ? & ? & _)%Hinv. eauto 8.
  - intros j e0 He0. rewrite lookup_alter. case_decide; subst; rewrite He0; done.
  - intros u e Hu He. destruct (Hinv u e He) as (e0 & He0 & -> & _ & _ & Hat). destruct (co_gone _ _ _ _ Hok u e0 Hu He0) as [H1 H2].
    split; [|done]. destruct Hat as [->|[-> ->]]; [done|]. by destruct Ha.
Qed.

(** What removing nodes leaves: the tasks, the room and the place of every kept entry, or a ghost. *)
Record shrinks k k' (kids kids' : Z -> list Z) (U U' : gset Z) : Prop := {
  sh_tasks s : task k' s = task k s;
  sh_number : length (tasks k') = length (tasks k);
  sh_spare n : ix_spare (tree_of k) n -> ix_spare (tree_of k') n;
  sh_next : next_node (deriv k') = next_node (deriv k);
  sh_revoking : revoking (deriv k') = revoking (deriv k);
  sh_kids p : kids' p ⊆ kids p;
  sh_out : U' ⊆ U;
  sh_still u : u ∈ U -> is_Some (mp k' !! u) -> u ∈ U';
  sh_entries i e : mp k' !! i = Some e -> exists e0, mp k !! i = Some e0 /\ Tree.parent e = Tree.parent e0 /\ (at_ e = at_ e0 \/ at_ e = Ghost);
  sh_depth i e e0 : mp k' !! i = Some e -> mp k !! i = Some e0 -> depth e = depth e0;
  sh_rest : cpus k' = cpus k /\ ports k' = ports k /\ pool k' = pool k;
}.

Lemma shrinks_trans k1 k2 k3 kids1 kids2 kids3 U1 U2 U3 :
  shrinks k1 k2 kids1 kids2 U1 U2 -> shrinks k2 k3 kids2 kids3 U2 U3 -> shrinks k1 k3 kids1 kids3 U1 U3.
Proof.
  intros A B. split.
  - intros s. by rewrite (sh_tasks _ _ _ _ _ _ B), (sh_tasks _ _ _ _ _ _ A).
  - by rewrite (sh_number _ _ _ _ _ _ B), (sh_number _ _ _ _ _ _ A).
  - intros n Hn. by apply (sh_spare _ _ _ _ _ _ B), (sh_spare _ _ _ _ _ _ A).
  - by rewrite (sh_next _ _ _ _ _ _ B), (sh_next _ _ _ _ _ _ A).
  - by rewrite (sh_revoking _ _ _ _ _ _ B), (sh_revoking _ _ _ _ _ _ A).
  - intros p. etransitivity; [apply (sh_kids _ _ _ _ _ _ B)|apply (sh_kids _ _ _ _ _ _ A)].
  - etransitivity; [apply (sh_out _ _ _ _ _ _ B)|apply (sh_out _ _ _ _ _ _ A)].
  - intros u Hu Hs. apply (sh_still _ _ _ _ _ _ B); [|done]. apply (sh_still _ _ _ _ _ _ A); [done|].
    destruct Hs as [e (e1 & -> & _)%(sh_entries _ _ _ _ _ _ B)]. by eexists.
  - intros i e (e1 & He1 & Hp1 & Ha1)%(sh_entries _ _ _ _ _ _ B).
    destruct (sh_entries _ _ _ _ _ _ A i e1 He1) as (e0 & He0 & Hp0 & Ha0).
    exists e0. split; [done|]. split; [congruence|]. destruct Ha1 as [->|]; auto.
  - intros i e e0 He He0. destruct (sh_entries _ _ _ _ _ _ B i e He) as (e1 & He1 & _).
    by rewrite (sh_depth _ _ _ _ _ _ B i e e1), (sh_depth _ _ _ _ _ _ A i e1 e0).
  - destruct (sh_rest _ _ _ _ _ _ A) as (? & ? & ?), (sh_rest _ _ _ _ _ _ B) as (? & ? & ?).
    split_and!; congruence.
Qed.

Lemma shrinks_refl k kids U : shrinks k k kids kids U U.
Proof. split; try done; [|congruence]. intros i e He. exists e. eauto. Qed.

(** A childless unheld node, or root, goes with its links. *)
Lemma drop_node_ok par k kids U i e : caps_ok par k kids U -> mp k !! i = Some e -> first e = 0 -> loose k i \/ Tree.parent e = 0 ->
  exists kids' U', caps_ok par (set_tree (ix_remove (unlink (tree_of k) i) i) k) kids' U' /\
    shrinks k (set_tree (ix_remove (unlink (tree_of k) i) i) k) kids kids' U U' /\
    mp (set_tree (ix_remove (unlink (tree_of k) i) i) k) = delete i (munlink (mp k) i).
Proof.
  intros Hok He Hfst Hl. pose proof (co_forest _ _ _ _ Hok) as Hf. pose proof (co_tree _ _ _ _ Hok) as Htree.
  pose proof (first_0_kids _ _ _ _ _ Hf He Hfst) as Hk.
  destruct (remove_follows _ _ _ i (unlink_follows (tree_of k) i Htree)) as (A & B & C).
  assert (exists kids' U', forest (delete i (munlink (mp k) i)) kids' U' /\ (forall p, kids' p ⊆ kids p) /\ U' ⊆ U /\ (forall u, u ∈ U -> u <> i -> u ∈ U'))
    as (kids' & U' & Hf' & Hks & HU & Hst).
  { destruct (decide (Tree.parent e = 0 \/ i ∈ U)) as [Hc|Hc].
    - rewrite (munlink_id _ _ _ _ _ Hf He Hc). exists kids, (U ∖ {[i]}). split; [|set_solver].
      apply forest_delete; [done|done|]. intros e' He'. by simplify_eq.
    - destruct (forest_unlink _ _ _ _ _ Hf He) as (l1 & l2 & Hsp & Hf'); [tauto|tauto|].
      assert (Tree.parent e <> i) as Hpi. { intros Hpi. rewrite Hpi, Hk in Hsp. by destruct l1. }
      exists (<[Tree.parent e := l1 ++ l2]> kids), (({[i]} ∪ U) ∖ {[i]}). split_and!; [|intros p; rewrite fn_insert_at|set_solver|set_solver].
      + apply forest_delete; [done|by rewrite fn_insert_at, decide_False by congruence|]. intros e1 He1. right. set_solver.
      + case_decide; [subst p; rewrite Hsp; set_solver|done]. }
  assert (forall j ej, delete i (munlink (mp k) i) !! j = Some ej -> exists e0, mp k !! j = Some e0 /\ erase ej = erase e0) as Hinv.
  { intros j ej [_ Hj]%lookup_delete_Some. by apply munlink_lookup in Hj. }
  exists kids', U'. split; [|split; [|done]].
  - apply (caps_ok_tree par k kids U _ kids' U' Hok A); rewrite ?B.
    + done.
    + intros j ej (e0 & He0 & (_ & ? & ? & ? & _)%erase_fields)%Hinv. eauto 8.
    + intros j e0 He0 Hn. apply lookup_delete_None in Hn as [<-|Hn].
      * simplify_eq. tauto.
      * destruct (munlink_fwd _ i _ _ He0) as (? & ? & _). unfold mp in *. congruence.
    + intros u eu Hu (e0 & He0 & (_ & -> & _ & -> & _)%erase_fields)%Hinv. apply (co_gone _ _ _ _ Hok u); [by apply HU|done].
  - split; try done.
    + intros u Hu. unfold mp. rewrite tree_set_tree, B. intros [x [Hne _]%lookup_delete_Some]. by apply Hst.
    + intros j ej Hj. unfold mp in Hj. rewrite tree_set_tree, B in Hj.
    destruct (Hinv j ej Hj) as (e0 & He0 & (_ & ? & _ & ? & _)%erase_fields). eauto.
    + intros j ej e0 Hj He0. unfold mp in Hj. rewrite tree_set_tree, B in Hj.
      destruct (Hinv j ej Hj) as (e1 & He1 & (_ & _ & -> & _)%erase_fields). congruence.
Qed.

(** A childless root's entry goes. *)
Lemma remove_root_ok par k kids U i e : caps_ok par k kids U -> mp k !! i = Some e -> first e = 0 -> Tree.parent e = 0 ->
  exists kids' U', caps_ok par (set_tree (ix_remove (tree_of k) i) k) kids' U' /\
    shrinks k (set_tree (ix_remove (tree_of k) i) k) kids kids' U U'.
Proof.
  intros Hok He Hfst Hz. destruct (law_remove (tree_of k) i (co_tree _ _ _ _ Hok)) as (A & B & C). fold (mp k) in B.
  pose proof (first_0_kids _ _ _ _ _ (co_forest _ _ _ _ Hok) He Hfst) as Hk.
  exists kids, (U ∖ {[i]}). split.
  - apply (caps_ok_tree par k kids U _ _ _ Hok A); rewrite ?B.
    + apply forest_delete; [apply Hok|done|]. intros e' He'. simplify_eq. by left.
    + intros j ej [_ Hj]%lookup_delete_Some. eauto 8.
    + intros j e0 He0 [<-|Hn]%lookup_delete_None; [|congruence]. simplify_eq. by left.
    + intros u eu Hu [_ Heu]%lookup_delete_Some. apply (co_gone _ _ _ _ Hok u); [set_solver|done].
  - split; try done; [set_solver| | |].
    + intros u Hu. unfold mp. rewrite tree_set_tree, B. intros [x [Hne _]%lookup_delete_Some]. set_solver.
    + intros j ej. unfold mp. rewrite tree_set_tree, B. intros [_ Hj]%lookup_delete_Some. eauto.
    + intros j ej e0. unfold mp. rewrite tree_set_tree, B. intros [_ Hj]%lookup_delete_Some. unfold mp in Hj. congruence.
Qed.

Lemma derived_first k e : derived k e = false -> first e = 0.
Proof. unfold derived. rewrite !orb_false_iff, negb_false_iff, Z.eqb_eq. tauto. Qed.

(** A ghost is held by nobody. *)
Lemma ghost_loose par k kids U i e : caps_ok par k kids U -> mp k !! i = Some e -> at_ e = Ghost -> loose k i.
Proof.
  intros Hok He Hg n a Hh Hn. destruct (co_holds _ _ _ _ Hok n a Hh) as [_ _ H]. rewrite Hn in H.
  specialize (H e He). rewrite Hg in H. by subst a.
Qed.

Lemma loose_shrinks k k' kids kids' U U' i : shrinks k k' kids kids' U U' -> loose k i -> loose k' i.
Proof.
  intros Hs Hl n a Hh. apply (Hl n a). revert Hh. apply holds_ext. intros s. unfold vtask. by rewrite (sh_tasks _ _ _ _ _ _ Hs).
Qed.

(** [forget] of an unheld node, with any fuel. *)
Lemma forget_n_ok par n : forall k kids U i, caps_ok par k kids U -> loose k i ->
  exists kids' U', caps_ok par (forget_n n k i) kids' U' /\ shrinks k (forget_n n k i) kids kids' U U'.
Proof.
  induction n as [|n IH]; intros k kids U i Hok Hl; cbn [forget_n]; [eauto using shrinks_refl|].
  rewrite law_get by apply Hok. destruct (ix_map (tree_of k) !! i) as [e|] eqn:He; [|eauto using shrinks_refl].
  destruct (derived k e) eqn:Hd.
  { exists kids, U. split; [by apply relocate_ok; [| |left]|]. destruct (law_upd (tree_of k) i (with_at Ghost) (co_tree _ _ _ _ Hok)) as (A & B & C); [done|].
    split; try done; intros j ej; unfold mp; rewrite tree_set_tree, B, lookup_alter; (case_decide as Hj; [subst j|eauto]).
    - rewrite fmap_Some. intros (e0 & He0 & ->). cbn. eauto.
    - intros e0. rewrite fmap_Some. intros (e1 & He1 & ->) He0. cbn. congruence.
    - intros e0. congruence. }
  destruct (drop_node_ok par k kids U i e Hok He (derived_first _ _ Hd) (or_introl Hl)) as (kids1 & U1 & Hok1 & Hs1 & Hm1).
  set (k1 := set_tree _ k) in *. rewrite law_get by apply Hok1.
  destruct (ix_map (tree_of k1) !! Tree.parent e) as [pe|] eqn:Hpe; [|eauto].
  destruct (derived k1 pe) eqn:Hdp; [eauto|].
  case_bool_decide as Hg.
  { destruct (IH k1 kids1 U1 (Tree.parent e) Hok1) as (kids2 & U2 & Hok2 & Hs2); [by eapply ghost_loose|].
    exists kids2, U2. split; [done|]. by eapply shrinks_trans. }
  destruct (Z.eqb_spec (Tree.parent pe) 0) as [Hz|]; [|eauto].
  destruct (remove_root_ok par k1 kids1 U1 (Tree.parent e) pe Hok1 Hpe (derived_first _ _ Hdp) Hz) as (kids2 & U2 & Hok2 & Hs2).
  exists kids2, U2. split; [done|]. by eapply shrinks_trans.
Qed.

Lemma forget_ok par k kids U i : caps_ok par k kids U -> loose k i ->
  exists kids' U', caps_ok par (forget k i) kids' U' /\ shrinks k (forget k i) kids kids' U U'.
Proof. apply forget_n_ok. Qed.

Lemma let_go_of_ok par k kids U i : caps_ok par k kids U ->
  exists kids' U', caps_ok par (let_go_of k i) kids' U' /\ shrinks k (let_go_of k i) kids kids' U U'.
Proof.
  intros Hok. unfold let_go_of. rewrite law_get by apply Hok.
  destruct (ix_map (tree_of k) !! i) as [e|] eqn:He; [|eauto using shrinks_refl].
  destruct (derived k e) eqn:Hd; [eauto using shrinks_refl|]. case_bool_decide as Hg.
  - apply forget_ok; [done|]. by eapply ghost_loose.
  - destruct (Z.eqb_spec (Tree.parent e) 0) as [Hz|]; [|eauto using shrinks_refl].
    apply (remove_root_ok par k kids U i e Hok He (derived_first _ _ Hd) Hz).
Qed.

(** The tasks' tables and sends, changed so that they hold no more than before. *)
Lemma caps_ok_fewer par k k' kids U : caps_ok par k kids U -> tree_of k' = tree_of k -> next_node (deriv k') = next_node (deriv k) ->
  (forall n a, holds k' n a -> holds k n a) -> (forall s p c pe, vtask k' s = Some (p, c, pe) -> ct_wf c) ->
  (forall s p c pe, vtask k' s = Some (p, c, Some pe) -> pending_ok par pe) ->
  caps_ok par k' kids U.
Proof.
  intros Hok Ht Hn Hh Hw Hm. assert (mp k' = mp k) as Hmp by (unfold mp; by rewrite Ht).
  split; rewrite ?Ht, ?Hn, ?Hmp; try apply Hok; try done.
  - intros n a H. apply (co_holds _ _ _ _ Hok). auto.
  - intros n n' a a' H H'. apply (co_unique _ _ _ _ Hok); auto.
  - intros n s p H. apply (co_sent _ _ _ _ Hok n s p). auto.
Qed.

Lemma task_on_task k s f s' : task (on_task k s f) s' = if decide (s' = s) then f <$> task k s else task k s'.
Proof.
  unfold task, on_task. cbn. rewrite list_lookup_alter. case_decide as Hd; [subst s'|].
  - rewrite decide_True by done. by destruct (tasks k !! s) as [[t|]|].
  - by rewrite decide_False by congruence.
Qed.

Lemma vtask_on_task k s f s' : vtask (on_task k s f) s' = if decide (s' = s) then seen ∘ f <$> task k s else vtask k s'.
Proof. unfold vtask. rewrite task_on_task. case_decide; [|done]. by destruct (task k s). Qed.

(** Changes of a task the invariant does not see. *)
Lemma caps_ok_unseen par k kids U s f : caps_ok par k kids U -> (forall t, seen (f t) = seen t) -> caps_ok par (on_task k s f) kids U.
Proof.
  intros Hok Hf. assert (forall s', vtask (on_task k s f) s' = vtask k s') as Hv.
  { intros s'. rewrite vtask_on_task. case_decide; [subst s'|done]. unfold vtask. destruct (task k s); cbn; [by rewrite Hf|done]. }
  apply (caps_ok_fewer par k); try done.
  - intros n a. by apply holds_ext.
  - intros s' p c pe. rewrite Hv. apply (co_tables _ _ _ _ Hok).
  - intros s' p c pe. rewrite Hv. apply (co_moves _ _ _ _ Hok).
Qed.

(** A task's table and send, changed so that they hold no more than before. *)
Definition holds_no_more t t' : Prop :=
  pid t' = pid t /\ (ct_wf (table t) -> ct_wf (table t')) /\
  (forall i c n, cspace (table t') !! i = Some (Some c) -> nodes (table t') !! i = Some n ->
     exists c', cspace (table t) !! i = Some (Some c') /\ nodes (table t) !! i = Some n) /\
  (forall pe, pending_cap (ipc t') = Some pe -> pending_cap (ipc t) = Some pe).

Lemma holds_task_fewer k s f n a : (forall t, task k s = Some t -> holds_no_more t (f t)) -> holds (on_task k s f) n a -> holds k n a.
Proof.
  intros Hf. assert (forall p c pe, vtask (on_task k s f) s = Some (p, c, pe) -> exists t, task k s = Some t /\ p = pid t /\ c = table (f t) /\ pe = pending_cap (ipc (f t))) as Hinv.
  { intros p c pe. rewrite vtask_on_task, decide_True by done. rewrite fmap_Some. intros (t & Ht & [= -> -> ->]). exists t.
    destruct (Hf t Ht) as (? & _). cbn. auto. }
  assert (forall s', s' <> s -> vtask (on_task k s f) s' = vtask k s') as Hne by (intros; by rewrite vtask_on_task, decide_False).
  destruct a as [s' p i|s' p|]; cbn [holds]; [| |done]; destruct (decide (s' = s)) as [->|Hs]; try (by rewrite Hne).
  - intros (c & pe & x & (t & Ht & -> & -> & ->)%Hinv & Hc & Hn). destruct (Hf t Ht) as (_ & _ & H & _).
    destruct (H i x n Hc Hn) as (x' & Hx & Hn'). exists (table t), (pending_cap (ipc t)), x'. split; [|done]. unfold vtask. by rewrite Ht.
  - intros (c & pe & (t & Ht & -> & -> & Hpe)%Hinv & Hm & Hn). destruct (Hf t Ht) as (_ & _ & _ & H).
    exists (table t), pe. split; [|done]. unfold vtask. rewrite Ht. cbn. unfold seen. by rewrite (H pe).
Qed.

Lemma caps_ok_task_fewer par k kids U s f : caps_ok par k kids U -> (forall t, task k s = Some t -> holds_no_more t (f t)) ->
  caps_ok par (on_task k s f) kids U.
Proof.
  intros Hok Hf. apply (caps_ok_fewer par k); try done.
  - intros n a. by apply holds_task_fewer.
  - intros s' p c pe. rewrite vtask_on_task. case_decide; [subst s'|apply (co_tables _ _ _ _ Hok)].
    rewrite fmap_Some. intros (t & Ht & [= -> -> ->]). destruct (Hf t Ht) as (_ & H & _). apply H.
    apply (co_tables _ _ _ _ Hok s (pid t) _ (pending_cap (ipc t))). unfold vtask. by rewrite Ht.
  - intros s' p c pe. rewrite vtask_on_task. case_decide; [subst s'|apply (co_moves _ _ _ _ Hok)].
    rewrite fmap_Some. intros (t & Ht & [= -> -> Hpe]). destruct (Hf t Ht) as (_ & _ & _ & H). symmetry in Hpe. apply H in Hpe.
    apply (co_moves _ _ _ _ Hok s (pid t) (table t)). unfold vtask. rewrite Ht. cbn. unfold seen. by rewrite Hpe.
Qed.

(** Clearing a slot, and a send taken back. *)
Lemma clear_fewer t i : holds_no_more t (set_table (clear_cap (table t) i) t).
Proof.
  split; [done|]. split; [apply clear_cap_wf|]. split; [|done]. intros j c n. cbn. intros [(_ & [=] & _)|[_ Hc]]%list_lookup_insert_Some Hn. eauto.
Qed.

Lemma take_send_fewer t : holds_no_more t (set_pending None t).
Proof. split; [done|]. split; [done|]. split; [eauto|done]. Qed.

Lemma clear_ok par k kids U s i : caps_ok par k kids U -> caps_ok par (with_table k s (fun c => clear_cap c i)) kids U.
Proof. intros Hok. apply caps_ok_task_fewer; [done|]. intros t _. apply clear_fewer. Qed.

(** A cleared slot's node is held by nobody. *)
Lemma cleared_loose par k kids U s p c pe i x n : caps_ok par k kids U -> vtask k s = Some (p, c, pe) ->
  cspace c !! i = Some (Some x) -> nodes c !! i = Some n -> loose (with_table k s (fun c => clear_cap c i)) (node_id n).
Proof.
  intros Hok Hs Hc Hn n' a Hh Heq. assert (holds k n (AtSlot s p i)) as H0 by (by exists c, pe, x).
  pose proof Hh as Hh'. apply holds_task_fewer in Hh'; [|intros; apply clear_fewer].
  pose proof (co_unique _ _ _ _ Hok _ _ _ _ Hh' H0 Heq) as ->. destruct Hh as (c1 & pe1 & x1 & Hv & Hc1 & _).
  unfold with_table in Hv. rewrite vtask_on_task, decide_True in Hv by done. unfold vtask in Hs.
  destruct (task k s) as [t|]; [|done]. injection Hs as <- <- <-. injection Hv as Hc1' _. subst c1. cbn [clear_cap cspace set_table table] in Hc1.
  rewrite list_lookup_insert_eq in Hc1; [done|]. by eapply lookup_lt_Some.
Qed.

(** [remove]: a capability dropped or overwritten. *)
Lemma remove_ok par k kids U s i : caps_ok par k kids U ->
  exists kids' U', caps_ok par (remove k s i) kids' U' /\
    shrinks (with_table k s (fun c => clear_cap c i)) (remove k s i) kids kids' U U' \/
    (remove k s i = k /\ forall t, task k s = Some t -> mjoin (cspace (table t) !! i) = None).
Proof.
  intros Hok. unfold remove. destruct (task k s) as [t|] eqn:Ht; [|exists kids, U; right; by split].
  destruct (mjoin (cspace (table t) !! i)) as [x|] eqn:Hx; [|exists kids, U; right; split; [done|]; intros; by simplify_eq].
  assert (vtask k s = Some (pid t, table t, pending_cap (ipc t))) as Hv by (unfold vtask; by rewrite Ht).
  assert (cspace (table t) !! i = Some (Some x)) as Hc by (by destruct (cspace (table t) !! i) as [[?|]|]; simplify_eq/=).
  destruct (nodes (table t) !! i) as [n|] eqn:Hn.
  2:{ exfalso. pose proof (co_tables _ _ _ _ Hok _ _ _ _ Hv) as [_ Hl _ _ _]. apply lookup_ge_None in Hn. apply lookup_lt_Some in Hc. lia. }
  unfold node_at. rewrite Hn. cbn [default from_option].
  destruct (forget_ok par (with_table k s (fun c => clear_cap c i)) kids U (node_id n)) as (kids' & U' & H1 & H2); [by apply clear_ok|by eapply cleared_loose|].
  exists kids', U'. by left.
Qed.

(** ** New nodes *)

(** A task's table or send that holds one node more. *)
Lemma caps_ok_more par k k' kids U n a : caps_ok par k kids U -> tree_of k' = tree_of k -> next_node (deriv k') = next_node (deriv k) ->
  (forall n' a', holds k' n' a' -> holds k n' a' \/ n' = n /\ a' = a) -> loose k (node_id n) -> node_ok par (mp k) n a ->
  (forall s p, a = AtSend s p -> node_parent n <> 0) ->
  (forall s p c pe, vtask k' s = Some (p, c, pe) -> ct_wf c) ->
  (forall s p c pe, vtask k' s = Some (p, c, Some pe) -> pending_ok par pe) ->
  caps_ok par k' kids U.
Proof.
  intros Hok Ht Hn Hh Hl Hno Hsend Hw Hm. assert (mp k' = mp k) as Hmp by (unfold mp; by rewrite Ht).
  split; rewrite ?Ht, ?Hn, ?Hmp; try apply Hok; try done.
  - intros n' a' [H|[-> ->]]%Hh; [by apply (co_holds _ _ _ _ Hok)|done].
  - intros n1 n2 a1 a2 [H1|[-> ->]]%Hh [H2|[-> ->]]%Hh Heq; [by eapply (co_unique _ _ _ _ Hok)| | |done].
    + by destruct (Hl n1 a1).
    + by destruct (Hl n2 a2).
  - intros n' s p [H|[-> Ha]]%Hh; [by apply (co_sent _ _ _ _ Hok n' s p)|]. by eapply Hsend.
Qed.

(** The state with a new identity. *)
Lemma fresh_ok par k kids U p : caps_ok par k kids U -> p = 0 \/ is_Some (par !! p) -> 0 <= next_node (deriv k) ->
  let i := next_node (deriv k) + 1 in
  par !! i = None /\ mp k !! i = None /\ loose k i /\ caps_ok (<[i := p]> par) (fresh k).1 kids U.
Proof.
  intros Hok Hp Hnn i.
  assert (par !! i = None) as Hi.
  { apply eq_None_not_Some. intros [q Hq]. destruct (co_ids _ _ _ _ Hok i q Hq). lia. }
  assert (mp k !! i = None) as Hm.
  { apply eq_None_not_Some. intros [e He]. pose proof (co_entries _ _ _ _ Hok i e He). congruence. }
  assert (loose k i) as Hl.
  { intros n a Hh <-. pose proof (no_par _ _ _ _ (co_holds _ _ _ _ Hok n a Hh)). congruence. }
  assert (forall j q, par !! j = Some q -> <[i := p]> par !! j = Some q) as Hext by (intros; rewrite lookup_insert_ne; [done|congruence]).
  split_and!; try done. split; try apply Hok.
  - intros n a Hh. destruct (co_holds _ _ _ _ Hok n a Hh) as [H1 H2 H3]. split; auto.
  - intros s q c pe Hv. destruct (co_moves _ _ _ _ Hok s q c pe Hv) as [H1 H2]. split; [by apply Hext|done].
  - intros j e He. apply Hext. by apply (co_entries _ _ _ _ Hok).
  - intros j q [[<- <-]|[Hne Hj]]%lookup_insert_Some.
    + cbn. fold i. split; [lia|]. destruct Hp as [->|[q Hq]]; [split; [lia|done]|].
      destruct (co_ids _ _ _ _ Hok p q Hq). split; [lia|]. intros _. eexists. by apply Hext.
    + destruct (co_ids _ _ _ _ Hok j q Hj) as (? & ? & H). cbn. split; [lia|]. split; [lia|]. intros Hq. destruct (H Hq) as [r Hr]. eauto.
Qed.

(** The source of a copy has an entry. *)
Lemma enter_source_ok par k kids U room n a c : caps_ok par k kids U -> holds k n a -> few_entries (ix_live (tree_of k)) ->
  ix_spare (tree_of k) (S c) ->
  let k' := set_tree (enter_source room (tree_of k) n a) k in
  caps_ok par k' kids U /\ (exists e, mp k' !! node_id n = Some e /\ Tree.parent e = node_parent n) /\ ix_spare (tree_of k') c /\
  (forall i e, mp k !! i = Some e -> mp k' !! i = Some e) /\ (forall i, i <> node_id n -> mp k' !! i = mp k !! i) /\
  (forall e, mp k' !! node_id n = Some e -> mp k !! node_id n = Some e \/ depth e = 0%nat).
Proof.
  intros Hok Hh Hfew Hs k'. destruct (co_holds _ _ _ _ Hok n a Hh) as [Hpar Hent Hat].
  destruct (co_ids _ _ _ _ Hok _ _ Hpar) as [Hid _].
  subst k'. unfold enter_source. rewrite (law_get (tree_of k) _ (co_tree _ _ _ _ Hok)). fold (mp k).
  destruct (mp k !! node_id n) as [e|] eqn:He.
  { assert (set_tree (tree_of k) k = k) as -> by (by destruct k as [? ? [] ? ?]).
    split; [done|]. split; [|split_and!; eauto using law_spare_le; intros e' He'; left; congruence]. exists e. split; [done|].
    pose proof (co_entries _ _ _ _ Hok _ _ He). congruence. }
  destruct (decide (node_parent n = 0)) as [Hz|Hz]; [|by destruct (Hent Hz)].
  destruct (enter_map room (tree_of k) n a c (co_tree _ _ _ _ Hok) Hfew Hs) as (A & B & C & _); [lia|]. fold (mp k) in B.
  unfold menter in B. rewrite He, Hz in B. cbn [Z.eqb negb] in B.
  set (x := enter room (tree_of k) n a) in *.
  assert (caps_ok par (set_tree x k) kids U) as Hok'.
  { apply (caps_ok_index par k kids U); try done; rewrite ?B.
    - apply forest_new_root; [apply Hok|done|lia].
    - intros i e [[<- <-]|[Hne Hi]]%lookup_insert_Some.
      + cbn. split; [congruence|]. split; [lia|]. intros n' a' Hh' Heq. by apply (co_unique _ _ _ _ Hok n n').
      + split; [by apply (co_entries _ _ _ _ Hok)|]. split; [by apply (co_depth _ _ _ _ Hok i)|].
        intros n' a' Hh' <-. by apply (no_at _ _ _ _ (co_holds _ _ _ _ Hok n' a' Hh')).
    - intros n' a' Hh' Hp'. destruct (no_entry _ _ _ _ (co_holds _ _ _ _ Hok n' a' Hh') Hp') as [e' He'].
      rewrite lookup_insert_ne by congruence. by eexists.
    - intros u e Hu [[<- <-]|[Hne Hi]]%lookup_insert_Some; [|by apply (co_gone _ _ _ _ Hok u)].
      apply (fo_out _ _ _ (co_forest _ _ _ _ Hok)) in Hu as [? Hu]. unfold mp in *. congruence. }
  assert (mp (set_tree x k) = <[node_id n := new_entry (node_id n) 0 0 a]> (mp k)) as Hmp by exact B.
  split; [done|]. rewrite Hmp, lookup_insert_eq. split_and!; try done.
  - eexists. split; [done|]. cbn. congruence.
  - intros i e Hi. rewrite lookup_insert_ne by congruence. done.
  - intros i Hi. by rewrite lookup_insert_ne by congruence.
  - intros e [= <-]. by right.
Qed.

(** A new child of an entered node. *)
Lemma enter_child_ok par k kids U room i p pe a c : caps_ok par k kids U -> few_entries (ix_live (tree_of k)) -> ix_spare (tree_of k) (S c) ->
  mp k !! p = Some pe -> (depth pe < DERIVE_DEPTH_MAX)%nat -> mp k !! i = None -> loose k i -> par !! i = Some p -> p <> 0 ->
  let k' := set_tree (enter room (tree_of k) (MkNode i p) a) k in
  exists kids', caps_ok par k' kids' U /\ node_ok par (mp k') (MkNode i p) a /\ ix_spare (tree_of k') c /\
    (forall j, j <> i -> mp k !! j = None -> mp k' !! j = None).
Proof.
  intros Hok Hfew Hs Hpe Hdep Hi Hl Hpar Hp0 k'. destruct (co_ids _ _ _ _ Hok _ _ Hpar) as [Hid _].
  destruct (enter_map room (tree_of k) (MkNode i p) a c (co_tree _ _ _ _ Hok) Hfew Hs) as (A & B & C & _); [cbn; lia|]. fold (mp k) in B.
  unfold menter in B. cbn [node_id node_parent] in B. rewrite Hi, (proj2 (Z.eqb_neq _ _) Hp0), Hpe in B. cbn [negb optf] in B.
  set (m1 := <[i := new_entry i p (depth pe + 1) a]> (mp k)) in *. set (x := enter _ _ _ _) in *.
  assert (forall j e, mlink m1 p i !! j = Some e -> (j = i /\ erase e = erase (new_entry i p (depth pe + 1) a)) \/
    exists e0, mp k !! j = Some e0 /\ erase e = erase e0) as Hinv.
  { intros j e (e0 & [[<- <-]|[Hne He0]]%lookup_insert_Some & Her)%mlink_lookup; [by left|right; eauto]. }
  assert (forall j e0, mp k !! j = Some e0 -> is_Some (mlink m1 p i !! j)) as Hfwd.
  { intros j e0 He0. assert (m1 !! j = Some e0) as Hj by (unfold m1; rewrite lookup_insert_ne; [done|congruence]).
    destruct (mlink_fwd _ p i j e0 Hj) as (e & -> & _). by eexists. }
  exists (<[p := i :: kids p]> kids). split_and!; [| |done|].
  3:{ intros j Hj Hn. assert (mp k' = mlink m1 p i) as -> by exact B. apply eq_None_not_Some.
      intros [e [[-> _]|(e0 & He0 & _)]%Hinv]; congruence. }
  - apply (caps_ok_index par k kids U); try done; rewrite ?B.
    + apply forest_new_child; [apply Hok|done|lia|done].
    + intros j e [[-> (_ & -> & -> & _)%erase_fields]|(e0 & He0 & (_ & -> & -> & -> & _)%erase_fields)]%Hinv.
      * cbn. split; [done|]. split; [lia|]. intros n a' Hh Hn. by destruct (Hl n a').
      * split; [by apply (co_entries _ _ _ _ Hok)|]. split; [by apply (co_depth _ _ _ _ Hok j)|].
        intros n' a' Hh' <-. by apply (no_at _ _ _ _ (co_holds _ _ _ _ Hok n' a' Hh')).
    + intros n' a' Hh' Hp'. destruct (no_entry _ _ _ _ (co_holds _ _ _ _ Hok n' a' Hh') Hp') as [e' He']. by eapply Hfwd.
    + intros u e Hu [[-> _]|(e0 & He0 & (_ & -> & _ & -> & _)%erase_fields)]%Hinv; [|by apply (co_gone _ _ _ _ Hok u)].
      apply (fo_out _ _ _ (co_forest _ _ _ _ Hok)) in Hu as [? Hu]. congruence.
  - assert (mp k' = mlink m1 p i) as -> by exact B.
    destruct (mlink_fwd m1 p i i (new_entry i p (depth pe + 1) a)) as (e & He & (_ & _ & _ & Hat & _)%erase_fields);
      [unfold m1; by rewrite lookup_insert_eq|].
    split; cbn [node_id node_parent]; [done|by eexists|]. intros e' He'. by simplify_eq.
Qed.
End invariant.
