(* ===== verification/Revoke.v ===== *)
(** * Stepwise revocation is complete ([kernel/src/scheduler/tree.rs]: [begin_revoke], [revoke_step], [end_revoke])

    A step visits at most [REVOKE_STEP] nodes and never panics; a revocation that goes on has removed that many nodes from
    their lists, so it ends; when it ends, nobody holds a capability derived from its root, save below a node that another
    revocation in progress has taken out and not yet finished. Everything not derived from the root is untouched. *)
From S2P Require Import Prelude Abi TaskState TreeIndex NodeIndex Caps UserHeap Kernel Derivation Forest CapOps CapTree.
Import TreeIndex.Tree(At, AtSlot, AtSend, Ghost, Entry, mkEntry, id, depth, at_, first, next, prev, maps, more_maps, FREE).

(** ** Descent by the history of identities *)
Inductive below (par : gmap Z Z) (r : Z) : Z -> Prop :=
| below_kid c : par !! c = Some r -> below par r c
| below_step p c : below par r p -> par !! c = Some p -> below par r c.

Lemma below_mono par par' r c : par ⊆ par' -> below par r c -> below par' r c.
Proof. intros Hs. induction 1; [apply below_kid|eapply below_step; [done|]]; by eapply lookup_weaken. Qed.

Section steps.
Context {T Sp Po : Type} `{!NodeIndex T, !NodeIndexLaws T, !Space Sp, !Pool Po}.
Implicit Types (k : Scheduler T Sp Po) (t : Task Sp) (par : gmap Z Z) (U V : gset Z).

(** The invariant depends on what it sees. *)
Lemma caps_ok_view par k k' kids U : caps_ok par k kids U -> (forall s, vtask k' s = vtask k s) -> tree_of k' = tree_of k ->
  next_node (deriv k') = next_node (deriv k) -> caps_ok par k' kids U.
Proof.
  intros Hok Hv Ht Hn. apply (caps_ok_fewer par k); try done.
  - intros n a. by apply holds_ext.
  - intros s p c pe. rewrite Hv. apply (co_tables _ _ _ _ Hok).
  - intros s p c pe. rewrite Hv. apply (co_moves _ _ _ _ Hok).
Qed.

(** ** Mappings: what unmapping leaves alone *)
Definition same_view k k' : Prop := (forall s, vtask k' s = vtask k s) /\ deriv k' = deriv k /\ length (tasks k') = length (tasks k).

Lemma same_view_refl k : same_view k k.
Proof. done. Qed.
Lemma same_view_trans k1 k2 k3 : same_view k1 k2 -> same_view k2 k3 -> same_view k1 k3.
Proof. intros (A & B & C) (D & E & F). split; [intros s; by rewrite D|]. split; congruence. Qed.

Lemma on_task_view k s f : (forall t, seen (f t) = seen t) -> same_view k (on_task k s f).
Proof.
  intros Hf. split; [|split; [done|by cbn; rewrite length_alter]]. intros s'. rewrite vtask_on_task. case_decide; [subst s'|done].
  unfold vtask. destruct (task k s); cbn; [by rewrite Hf|done].
Qed.

Lemma walk_view n k at_ f : (forall t, seen (f t) = seen t) -> same_view k (walk_n n k at_ f).
Proof.
  intros Hf. revert k at_. induction n as [|n IH]; intros k [s|]; cbn [walk_n]; try apply same_view_refl.
  eapply same_view_trans; [by apply (on_task_view k s f)|apply IH].
Qed.

Lemma unmap_view k slot p i this w : same_view k (unmap_revoked k slot p i this w).1.
Proof.
  unfold unmap_revoked. destruct (task_as k slot p) as [t|]; [|done].
  destruct (revoke _ _ _ _ _ _) as [[[[h sp] po] changed] made].
  set (k1 := set_pool po (on_task k slot (set_memory h sp))).
  assert (same_view k k1) as H1 by (apply (on_task_view k slot (set_memory h sp)); done).
  destruct (changed && _); cbn [fst]; (case_match; [|done]).
  all: eapply same_view_trans; [|by apply walk_view]; exact H1.
Qed.

Lemma foldl_view {A} (f : Scheduler T Sp Po * bool -> A -> Scheduler T Sp Po * bool) l :
  (forall st x, same_view st.1 (f st x).1) -> forall st, same_view st.1 (foldl f st l).1.
Proof. intros Hf. induction l as [|x l IH]; intros st; [done|]. cbn [foldl]. eapply same_view_trans; [apply Hf|apply IH]. Qed.

Lemma unmap_entry_view k e i this w : same_view k (unmap_entry k e i this w).1.
Proof.
  unfold unmap_entry. assert (same_view k (foldl (unmap_named i this) (k, w) (maps e)).1) as H1.
  { apply (foldl_view (unmap_named i this) (maps e)). intros st m. unfold unmap_named. case_match; [done|apply unmap_view]. }
  case_match; [|done]. eapply same_view_trans; [exact H1|]. apply foldl_view. intros st s. unfold unmap_any.
  destruct (task st.1 s); [|done]. case_match; [apply unmap_view|done].
Qed.

(** ** A visit *)
Lemma take_away_tree x k e i : take_away (set_tree x k) e i = (set_tree x (take_away k e i).1, (take_away k e i).2).
Proof.
  unfold take_away. assert (holds_at (set_tree x k) i (at_ e) = holds_at k i (at_ e)) as -> by done.
  destruct (holds_at k i (at_ e)); [|done]. by destruct (at_ e).
Qed.

Lemma holds_at_spec par k kids U n a : caps_ok par k kids U -> holds k n a -> holds_at k (node_id n) a = true.
Proof.
  intros Hok. destruct a as [s p i|s p|]; cbn [holds]; [| |done]; unfold vtask, holds_at, task_as; destruct (task k s) as [t|]; cbn.
  - intros (c & pe & x & [= <- <- <-] & Hc & Hn). rewrite Z.eqb_refl. cbn. rewrite Hc, Hn. cbn. apply Z.eqb_refl.
  - naive_solver.
  - intros (c & pe & [= <- <- Hpe] & Hm & <-). rewrite Z.eqb_refl. cbn. rewrite Hpe. by rewrite bool_decide_eq_true_2, Z.eqb_refl.
  - naive_solver.
Qed.

(** What [take_away] takes is the visited node's capability and nothing else. *)
Lemma take_away_spec par k kids U e i : caps_ok par k kids U ->
  (forall n a, holds k n a -> node_id n = i -> at_ e = a) ->
  let k' := (take_away k e i).1 in
  caps_ok par k' kids U /\ deriv k' = deriv k /\ loose k' i /\ (forall n a, holds k' n a -> holds k n a) /\
  (forall n a, holds k n a -> node_id n <> i -> holds k' n a).
Proof.
  intros Hok Hat k'. subst k'. unfold take_away. destruct (holds_at k i (at_ e)) eqn:Hh.
  2:{ cbn [fst]. split_and!; try done. intros n a Hn Heq. pose proof (Hat n a Hn Heq) as Ha. rewrite <- Heq, Ha in Hh.
      rewrite (holds_at_spec par k kids U n a Hok Hn) in Hh. done. }
  destruct (at_ e) as [s p j|s p|] eqn:Hae; cbn [fst].
  - unfold holds_at, task_as in Hh. destruct (task k s) as [t|] eqn:Ht; [|done]. cbn in Hh.
    destruct (Z.eqb_spec (pid t) p) as [Hp|]; [|done]. cbn in Hh.
    destruct (cspace (table t) !! j) as [[x|]|] eqn:Hc; [|done|done]. cbn in Hh.
    destruct (nodes (table t) !! j) as [n0|] eqn:Hn; [|done]. apply Z.eqb_eq in Hh.
    assert (vtask k s = Some (p, table t, pending_cap (ipc t))) as Hv by (unfold vtask; rewrite Ht; cbn; unfold seen; by rewrite Hp).
    split_and!; [by apply (clear_ok par k kids U s j)|done| | |].
    + rewrite <- Hh. by apply (cleared_loose par k kids U s p (table t) (pending_cap (ipc t)) j x).
    + intros n a. apply holds_task_fewer. intros; apply clear_fewer.
    + intros n a Hna Hne. destruct a as [s' p' j'|s' p'|]; cbn [holds] in *; [| |done].
      * destruct Hna as (c & pe & y & Hv' & Hc' & Hn'). destruct (decide (s' = s)) as [->|Hs].
        -- rewrite Hv in Hv'. injection Hv' as <- <- <-. exists (clear_cap (table t) j), (pending_cap (ipc t)), y.
           rewrite vtask_on_task, decide_True, Ht by done. cbn [fmap option_fmap option_map compose seen]. unfold seen. cbn [pid set_table table ipc]. rewrite Hp.
           split; [done|]. assert (j <> j') by congruence. cbn [clear_cap cspace nodes]. by rewrite list_lookup_insert_ne.
        -- exists c, pe, y. by rewrite vtask_on_task, decide_False.
      * destruct Hna as (c & pe & Hv' & Hm & Hn'). destruct (decide (s' = s)) as [->|Hs].
        -- rewrite Hv in Hv'. injection Hv' as <- <- Hpe. exists (clear_cap (table t) j), pe.
           rewrite vtask_on_task, decide_True, Ht by done. cbn [fmap option_fmap option_map compose]. unfold seen. cbn [pid set_table table ipc]. by rewrite Hp, Hpe.
        -- exists c, pe. by rewrite vtask_on_task, decide_False.
  - unfold holds_at, task_as in Hh. destruct (task k s) as [t|] eqn:Ht; [|done]. cbn in Hh.
    destruct (Z.eqb_spec (pid t) p) as [Hp|]; [|done]. cbn in Hh.
    destruct (pending_cap (ipc t)) as [pe|] eqn:Hpe; [|done]. apply andb_true_iff in Hh as [Hm%bool_decide_eq_true Hi%Z.eqb_eq].
    assert (vtask k s = Some (p, table t, Some pe)) as Hv by (unfold vtask; rewrite Ht; cbn; unfold seen; by rewrite Hp, Hpe).
    assert (vtask (on_task k s (set_pending None)) s = Some (p, table t, None)) as Hv1.
    { rewrite vtask_on_task, decide_True, Ht by done. cbn [fmap option_fmap option_map compose]. unfold seen. cbn. by rewrite Hp. }
    assert (holds k (p_node pe) (AtSend s p)) as Hold by (by exists (table t), pe).
    split_and!; [|done| | |].
    + apply caps_ok_task_fewer; [done|]. intros; apply take_send_fewer.
    + intros n a Hna Heq. pose proof Hna as Hna'. apply holds_task_fewer in Hna'; [|intros; apply take_send_fewer].
      rewrite <- Hi in Heq. pose proof (co_unique _ _ _ _ Hok _ _ _ _ Hna' Hold Heq) as ->.
      destruct Hna as (c & pe' & Hv' & _). by rewrite Hv1 in Hv'.
    + intros n a. apply holds_task_fewer. intros; apply take_send_fewer.
    + intros n a Hna Hne. destruct a as [s' p' j'|s' p'|]; cbn [holds] in *; [| |done].
      * destruct Hna as (c & pe' & y & Hv' & Hc'). destruct (decide (s' = s)) as [->|Hs].
        -- rewrite Hv in Hv'. injection Hv' as <- <- <-. by exists (table t), None, y.
        -- exists c, pe', y. by rewrite vtask_on_task, decide_False.
      * destruct Hna as (c & pe' & Hv' & Hm' & Hn'). destruct (decide (s' = s)) as [->|Hs].
        -- rewrite Hv in Hv'. injection Hv' as <- <- <-. congruence.
        -- exists c, pe'. by rewrite vtask_on_task, decide_False.
  - split_and!; try done. intros n a Hn Heq. pose proof (Hat n a Hn Heq). by subst a.
Qed.

(** The mark a visited entry gets. *)
Definition gone_mark (e : Entry) : Entry := with_maps [(0%nat, 0); (0%nat, 0)] false (with_at Ghost e).

(** What a part of a revocation does to the state: capabilities only go, only those of the nodes in [S]. *)
Record takes k U k' U' (S : Z -> Prop) : Prop := {
  tk_less n a : holds k' n a -> holds k n a;
  tk_keep n a : holds k n a -> ~ S (node_id n) -> holds k' n a;
  tk_revoking : revoking (deriv k') = revoking (deriv k);
  tk_next : next_node (deriv k') = next_node (deriv k);
  tk_number : length (tasks k') = length (tasks k);
  tk_gone i : mp k !! i = None -> mp k' !! i = None;
  tk_out u : u ∈ U -> is_Some (mp k' !! u) -> u ∈ U';
}.

Lemma takes_refl k U S : takes k U k U S.
Proof. done. Qed.
Lemma takes_trans k1 k2 k3 U1 U2 U3 S : takes k1 U1 k2 U2 S -> takes k2 U2 k3 U3 S -> takes k1 U1 k3 U3 S.
Proof.
  intros A B. split.
  - intros n a H. by apply (tk_less _ _ _ _ _ A), (tk_less _ _ _ _ _ B).
  - intros n a H HS. by apply (tk_keep _ _ _ _ _ B), HS; apply (tk_keep _ _ _ _ _ A).
  - by rewrite (tk_revoking _ _ _ _ _ B), (tk_revoking _ _ _ _ _ A).
  - by rewrite (tk_next _ _ _ _ _ B), (tk_next _ _ _ _ _ A).
  - by rewrite (tk_number _ _ _ _ _ B), (tk_number _ _ _ _ _ A).
  - intros i Hi. by apply (tk_gone _ _ _ _ _ B), (tk_gone _ _ _ _ _ A).
  - intros u Hu Hs. apply (tk_out _ _ _ _ _ B); [|done]. apply (tk_out _ _ _ _ _ A); [done|].
    destruct (mp k2 !! u) eqn:He; [by eexists|]. rewrite (tk_gone _ _ _ _ _ B u He) in Hs. by destruct Hs.
Qed.
Lemma takes_mono k U k' U' (S S' : Z -> Prop) : (forall i, S i -> S' i) -> takes k U k' U' S -> takes k U k' U' S'.
Proof. intros HS [A B C D E F G]. split; auto. Qed.
Lemma shrinks_takes k k' kids kids' U U' S : shrinks k k' kids kids' U U' -> takes k U k' U' S.
Proof.
  intros Hs. assert (forall n a, holds k' n a <-> holds k n a) as Hh.
  { intros n a. apply holds_ext. intros s. unfold vtask. by rewrite (sh_tasks _ _ _ _ _ _ Hs). }
  split; try apply Hs; [intros n a; rewrite Hh; done..|]. intros i Hi. apply eq_None_not_Some.
  intros [e (e0 & He0 & _)%(sh_entries _ _ _ _ _ _ Hs)]. congruence.
Qed.

(** A visit of the newest child of a node. *)
Lemma visit_ok par k kids U job this top kid rest : caps_ok par k kids U -> kids top = kid :: rest ->
  exists k' gone w, visit k job kid this =
      Some (k', mkRevocation (r_slot job) (r_pid job) (r_root job) (kid :: stack job) (removed job + gone) w (steps job) (longest_ns job)) /\
    caps_ok par k' (<[top := rest]> kids) ({[kid]} ∪ U) /\ takes k U k' ({[kid]} ∪ U) (eq kid) /\ dom (mp k') = dom (mp k) /\
    (kid ∉ U) /\ par !! kid = Some top /\ kid ∈ dom (mp k) /\ top <> 0.
Proof.
  intros Hok Hk. pose proof (co_forest _ _ _ _ Hok) as Hf.
  destruct (fo_kids _ _ _ Hf top kid) as (HkU & Htop & _ & e & He & Hpe); [rewrite Hk; by left|].
  pose proof (co_entries _ _ _ _ Hok kid e He) as Hpar. rewrite Hpe in Hpar.
  destruct (unlink_follows (tree_of k) kid (co_tree _ _ _ _ Hok)) as (A & B & _). fold (mp k) in B.
  destruct (munlink_fwd (mp k) kid kid e He) as (e1 & He1 & Her).
  pose proof (erase_fields _ _ Her) as (_ & Hpar1 & Hdep1 & Hat1 & _).
  destruct (take_away_spec par k kids U e1 kid Hok) as (Hokt & Hdt & Hlt & Hless & Hkeep).
  { intros n a Hn Heq. rewrite Hat1. apply (no_at _ _ _ _ (co_holds _ _ _ _ Hok n a Hn)). by rewrite Heq. }
  unfold visit. rewrite tree_set_tree, law_get by done. rewrite B, He1, take_away_tree.
  set (kt := (take_away k e1 kid).1) in *. destruct (unmap_entry _ _ _ _ _) as [k2 w] eqn:Hun.
  assert (same_view (set_tree (unlink (tree_of k) kid) kt) k2) as (Hv2 & Hd2 & Hl2).
  { pose proof (unmap_entry_view (set_tree (unlink (tree_of k) kid) kt) e1 kid this (r_wait job)) as H. by rewrite Hun in H. }
  assert (tree_of k2 = unlink (tree_of k) kid) as Ht2 by (unfold tree_of; by rewrite Hd2).
  rewrite Ht2, law_get, B, He1 by done.
  destruct (law_upd (unlink (tree_of k) kid) kid gone_mark A) as (A3 & B3 & _); [done|]. rewrite B in B3.
  set (x3 := ix_upd (unlink (tree_of k) kid) kid gone_mark) in *.
  destruct (forest_unlink _ _ _ _ _ Hf He) as (l1 & l2 & Hsp & Hf1); [congruence|done|].
  assert (l1 = [] /\ l2 = rest) as [-> ->].
  { rewrite Hpe, Hk in Hsp. destruct l1 as [|c l1]; cbn in Hsp; [by simplify_eq|]. exfalso. injection Hsp as <- Hr.
    pose proof (fo_nodup _ _ _ Hf top) as Hnd. rewrite Hk, Hr in Hnd. apply NoDup_cons in Hnd as [Hn _]. apply Hn. set_solver. }
  rewrite Hpe in Hf1. cbn [app] in Hf1.
  assert (forall i ei, alter gone_mark kid (munlink (mp k) kid) !! i = Some ei -> exists e0, mp k !! i = Some e0 /\
    Tree.parent ei = Tree.parent e0 /\ depth ei = depth e0 /\ (if decide (i = kid) then at_ ei = Ghost else at_ ei = at_ e0)) as Hinv.
  { intros i ei. rewrite lookup_alter. case_decide as Hd; [subst i|].
    - rewrite fmap_Some. intros (e2 & He2 & ->). exists e. rewrite decide_True by done. simplify_eq. cbn. auto.
    - intros (e0 & He0 & (_ & ? & ? & ? & _)%erase_fields)%munlink_lookup. exists e0. rewrite decide_False by congruence. auto. }
  assert (caps_ok par (set_tree x3 kt) (<[top := rest]> kids) ({[kid]} ∪ U)) as Hok3.
  { assert (mp kt = mp k) as Hmt by (unfold mp, tree_of; by rewrite Hdt).
    apply (caps_ok_tree par kt kids U x3 _ _ Hokt A3); rewrite ?B3, ?Hmt.
    - by apply forest_alter.
    - intros i ei (e0 & He0 & ? & ? & Hat)%Hinv. exists e0. split_and!; try done. case_decide; [subst i; by right|by left].
    - intros i e0 He0. rewrite lookup_alter. destruct (munlink_fwd _ kid _ _ He0) as (e2 & He2 & _). unfold mp in *.
      case_decide; [subst i|]; rewrite He2; done.
    - intros u eu Hu (e0 & He0 & Hpu & _ & Hat)%Hinv. rewrite Hpu. case_decide as Hd; [subst u; simplify_eq; by split|].
      rewrite Hat. apply (co_gone _ _ _ _ Hok u); [set_solver|done]. }
  eexists _, _, w. split; [done|]. split_and!; try done.
  - apply (caps_ok_view par (set_tree x3 kt)); [done| | |].
    + intros s. change (vtask k2 s = vtask kt s). by rewrite Hv2.
    + done.
    + change (next_node (deriv k2) = next_node (deriv kt)). by rewrite Hd2.
  - assert (forall n a, holds (set_tree x3 k2) n a <-> holds kt n a) as Hh by (intros; apply holds_ext; intros; apply Hv2).
    split; cbn.
    + intros n a H. by apply Hless, Hh.
    + intros n a H Hne. apply Hh, Hkeep; [done|congruence].
    + change (revoking (deriv k2) = revoking (deriv k)). by rewrite Hd2, <- Hdt.
    + change (next_node (deriv k2) = next_node (deriv k)). by rewrite Hd2, <- Hdt.
    + rewrite Hl2. cbn. unfold kt, take_away. destruct (holds_at _ _ _); [|done]. destruct (at_ e1); cbn; rewrite ?length_alter; done.
    + intros i Hi. apply eq_None_not_Some. intros [x Hx]. change (ix_map x3 !! i = Some x) in Hx. rewrite B3 in Hx.
      destruct (Hinv i x Hx) as (e0 & He0 & _). congruence.
    + set_solver.
  - change (dom (ix_map x3) = dom (mp k)). rewrite B3, dom_alter_L. apply set_eq. intros i. rewrite !elem_of_dom. split.
    + intros [x (e0 & -> & _)%munlink_lookup]. by eexists.
    + intros [x (e2 & -> & _)%(munlink_fwd _ kid)]. by eexists.
  - by eapply elem_of_dom_2.
Qed.

(** ** The loop of a step *)

(** The nodes still in a list. *)
Definition listed k U : nat := base.size (dom (mp k) ∖ U).

(** A revocation in progress: its root at the bottom of the stack, above it nodes taken out of their lists; every node
    taken out is on this stack or, in [V], another revocation's. *)
Record job_ok par k (kids : Z -> list Z) U V (job : Revocation) : Prop := {
  jo_bottom : stack job = [] /\ kids (r_root job) = [] \/ exists l, stack job = l ++ [r_root job];
  jo_out x : x ∈ stack job -> x <> r_root job -> x ∈ U \/ mp k !! x = None;
  jo_below x : x ∈ stack job -> x = r_root job \/ below par (r_root job) x;
  jo_rest u : u ∈ U -> u ∈ stack job /\ u <> r_root job \/ u ∈ V;
}.

(** The same revocation with another stack. *)
Definition same_job (j j' : Revocation) : Prop := r_root j' = r_root j /\ r_slot j' = r_slot j /\ r_pid j' = r_pid j /\ steps j' = steps j.

Lemma shrinks_listed k k' kids kids' U U' : shrinks k k' kids kids' U U' -> (listed k' U' <= listed k U)%nat.
Proof.
  intros Hs. apply subseteq_size. intros i. rewrite !elem_of_difference, !elem_of_dom. intros [[e He] HU]. split.
  - destruct (sh_entries _ _ _ _ _ _ Hs i e He) as (e0 & -> & _). by eexists.
  - intros Hi. apply HU. by eapply (sh_still _ _ _ _ _ _ Hs); [|eexists].
Qed.

(** A finished node that is not the root goes. *)
Lemma drop_gone_ok par k kids U i : caps_ok par k kids U -> kids i = [] -> i ∈ U \/ mp k !! i = None ->
  exists U', caps_ok par (set_tree (ix_remove (tree_of k) i) k) kids U' /\
    shrinks k (set_tree (ix_remove (tree_of k) i) k) kids kids U U' /\ i ∉ U'.
Proof.
  intros Hok Hk Hi. destruct (law_remove (tree_of k) i (co_tree _ _ _ _ Hok)) as (A & B & C). fold (mp k) in B.
  exists (U ∖ {[i]}). split; [|split; [|set_solver]].
  - apply (caps_ok_tree par k kids U _ _ _ Hok A); rewrite ?B.
    + apply forest_delete; [apply Hok|done|]. intros e He. right. destruct Hi; [done|congruence].
    + intros j ej [_ Hj]%lookup_delete_Some. eauto 8.
    + intros j e0 He0 [<-|Hn]%lookup_delete_None; [|congruence]. right. destruct Hi as [Hi|]; [|congruence].
      eapply ghost_loose; [done|exact He0|]. by apply (co_gone _ _ _ _ Hok i).
    + intros u eu Hu [_ Heu]%lookup_delete_Some. apply (co_gone _ _ _ _ Hok u); [set_solver|done].
  - split; try done; [set_solver| | |].
    + intros u Hu. unfold mp. rewrite tree_set_tree, B. intros [x [Hne _]%lookup_delete_Some]. set_solver.
    + intros j ej. unfold mp. rewrite tree_set_tree, B. intros [_ Hj]%lookup_delete_Some. eauto.
    + intros j ej e0. unfold mp. rewrite tree_set_tree, B. intros [_ Hj]%lookup_delete_Some. unfold mp in Hj. congruence.
Qed.

(** The top of the stack, with nothing left below it, goes. *)
Lemma pop_ok par k kids U V job top rest : caps_ok par k kids U -> job_ok par k kids U V job -> stack job = top :: rest -> kids top = [] ->
  let k' := if top =? r_root job then let_go_of k top else set_tree (ix_remove (tree_of k) top) k in
  let job' := mkRevocation (r_slot job) (r_pid job) (r_root job) rest (removed job) (r_wait job) (steps job) (longest_ns job) in
  exists kids' U', caps_ok par k' kids' U' /\ job_ok par k' kids' U' V job' /\ shrinks k k' kids kids' U U'.
Proof.
  intros Hok Hj Hst Hk k' job'.
  assert (exists kids' U', caps_ok par k' kids' U' /\ shrinks k k' kids kids' U U' /\ (top <> r_root job -> top ∉ U')) as (kids' & U' & Hok' & Hs & Htop).
  { subst k'. destruct (Z.eqb_spec top (r_root job)) as [->|Hne].
    - destruct (let_go_of_ok par k kids U (r_root job) Hok) as (kids' & U' & ? & ?). by exists kids', U'.
    - destruct (drop_gone_ok par k kids U top Hok Hk) as (U' & ? & ? & ?); [apply (jo_out _ _ _ _ _ _ Hj); [rewrite Hst; by left|done]|].
      by exists kids, U'. }
  exists kids', U'. split; [done|]. split; [|done]. split; cbn [stack r_root job'].
  - destruct (jo_bottom _ _ _ _ _ _ Hj) as [[Hnil _]|[l Hl]]; [congruence|]. rewrite Hst in Hl. destruct l as [|c l]; cbn in Hl.
    + injection Hl as -> ->. left. split; [done|]. pose proof (sh_kids _ _ _ _ _ _ Hs (r_root job)) as Hsub. rewrite Hk in Hsub.
      destruct (kids' (r_root job)) as [|c l]; [done|]. exfalso. by apply (not_elem_of_nil c), Hsub; left.
    + injection Hl as _ ->. right. by exists l.
  - intros x Hx Hne. destruct (jo_out _ _ _ _ _ _ Hj x) as [HU|Hn]; [rewrite Hst; by right|done| |].
    + destruct (mp k' !! x) as [e|] eqn:He; [left|by right]. by eapply (sh_still _ _ _ _ _ _ Hs); [|eexists].
    + right. apply eq_None_not_Some. intros [e (e0 & He0 & _)%(sh_entries _ _ _ _ _ _ Hs)]. congruence.
  - intros x Hx. apply (jo_below _ _ _ _ _ _ Hj). rewrite Hst. by right.
  - intros u Hu. destruct (jo_rest _ _ _ _ _ _ Hj u) as [[Hin Hne]|HV]; [by apply (sh_out _ _ _ _ _ _ Hs)| |by right].
    rewrite Hst in Hin. apply elem_of_cons in Hin as [->|Hin]; [by apply Htop in Hne|by left].
Qed.

Lemma below_lt par k kids U r c : caps_ok par k kids U -> below par r c -> r < c.
Proof.
  intros Hok. induction 1 as [c Hc|p c _ IH Hc]; destruct (co_ids _ _ _ _ Hok _ _ Hc) as (_ & ? & _); lia.
Qed.

(** The newest child of the top of the stack is visited. *)
Lemma visit_push_ok par k kids U V job this top rest kid more : caps_ok par k kids U -> job_ok par k kids U V job -> stack job = top :: rest ->
  kids top = kid :: more ->
  exists k' job' kids' U', visit k job kid this = Some (k', job') /\ caps_ok par k' kids' U' /\ job_ok par k' kids' U' V job' /\
    takes k U k' U' (below par (r_root job)) /\ (listed k' U' + 1 <= listed k U)%nat /\ same_job job job' /\ length (stack job') = S (length (stack job)).
Proof.
  intros Hok Hj Hst Hk. destruct (visit_ok par k kids U job this top kid more Hok Hk) as (k' & gone & w & Hv & Hok' & Htk & Hdom & HkU & Hpar & Hkd & Ht0).
  assert (below par (r_root job) kid) as Hbelow.
  { destruct (jo_below _ _ _ _ _ _ Hj top) as [->|Hb]; [rewrite Hst; by left|by apply below_kid|by eapply below_step]. }
  pose proof (below_lt _ _ _ _ _ _ Hok Hbelow) as Hlt.
  eexists k', _, _, _. split; [exact Hv|]. split; [exact Hok'|]. split_and!; [|eapply takes_mono; [|exact Htk]; by intros ? <-| |done|done].
  - split; cbn [stack r_root].
    + right. destruct (jo_bottom _ _ _ _ _ _ Hj) as [[Hnil _]|[l Hl]]; [congruence|]. exists (kid :: l). by rewrite Hl.
    + intros x [->|Hx]%elem_of_cons Hne; [left; set_solver|]. destruct (jo_out _ _ _ _ _ _ Hj x Hx Hne) as [?|Hn]; [left; set_solver|right].
      apply not_elem_of_dom. rewrite Hdom. by apply not_elem_of_dom.
    + intros x [->|Hx]%elem_of_cons; [by right|by apply (jo_below _ _ _ _ _ _ Hj)].
    + intros u [->%elem_of_singleton|Hu]%elem_of_union; [left; split; [by left|lia]|].
      destruct (jo_rest _ _ _ _ _ _ Hj u Hu) as [[? ?]|?]; [left; split; [by right|done]|by right].
  - unfold listed. rewrite Hdom.
    assert (dom (mp k) ∖ ({[kid]} ∪ U) ⊂ dom (mp k) ∖ U) as Hsub%subset_size; [|lia].
    split; [set_solver|]. intros Hsub. specialize (Hsub kid). set_solver.
Qed.

Lemma same_job_trans a b c : same_job a b -> same_job b c -> same_job a c.
Proof. intros (A & B & C & D) (E & F & G & H). unfold same_job. split_and!; congruence. Qed.

(** The whole loop: it ends within its fuel, never panics, and either finishes or uses up its budget on listed nodes. *)
Lemma revoke_loop_ok par V this fuel : forall budget k kids U job, caps_ok par k kids U -> job_ok par k kids U V job ->
  (2 * budget + length (stack job) < fuel)%nat ->
  exists k' job' kids' U', revoke_loop fuel budget k job this = Some (k', job') /\ caps_ok par k' kids' U' /\ job_ok par k' kids' U' V job' /\
    takes k U k' U' (below par (r_root job)) /\ same_job job job' /\ (listed k' U' <= listed k U)%nat /\
    (stack job' = [] \/ (listed k' U' + budget <= listed k U)%nat).
Proof.
  induction fuel as [|fuel IH]; intros budget k kids U job Hok Hj Hfuel; [lia|]. cbn [revoke_loop].
  destruct (Nat.eqb_spec budget 0) as [->|Hb].
  { exists k, job, kids, U. split_and!; try done. right. lia. }
  destruct (stack job) as [|top rest] eqn:Hst.
  { exists k, job, kids, U. split_and!; try done. by left. }
  rewrite law_get by apply Hok. cbn [length] in Hfuel.
  assert (optf (ix_map (tree_of k) !! top) 0 first = hd0 0 (kids top)) as ->.
  { fold (mp k). destruct (mp k !! top) as [e|] eqn:He; cbn [optf]; [by apply (fo_first _ _ _ (co_forest _ _ _ _ Hok))|].
    by rewrite (kids_of_absent _ _ _ _ (co_forest _ _ _ _ Hok) He). }
  destruct (kids top) as [|kid more] eqn:Hk; cbn [hd0].
  - destruct (pop_ok par k kids U V job top rest Hok Hj Hst Hk) as (kids1 & U1 & Hok1 & Hj1 & Hs1). cbn [Z.eqb].
    destruct (IH budget _ kids1 U1 _ Hok1 Hj1) as (k' & job' & kids' & U' & E & Hok' & Hj' & Htk & Hsame & Hle & Hdone); [cbn; lia|].
    exists k', job', kids', U'. rewrite E. pose proof (shrinks_listed _ _ _ _ _ _ Hs1). split_and!; try done; [|lia|].
    + eapply takes_trans; [by eapply shrinks_takes|exact Htk].
    + destruct Hdone; [by left|right; lia].
  - destruct (visit_push_ok par k kids U V job this top rest kid more Hok Hj Hst Hk) as (k1 & job1 & kids1 & U1 & E1 & Hok1 & Hj1 & Htk1 & Hl1 & Hsame1 & Hlen).
    assert (kid =? 0 = false) as ->.
    { apply Z.eqb_neq. destruct (fo_kids _ _ _ (co_forest _ _ _ _ Hok) top kid) as (_ & _ & _ & e & He & _); [rewrite Hk; by left|].
      by eapply (fo_ne _ _ _ _ _ (co_forest _ _ _ _ Hok)). }
    rewrite E1. rewrite Hst in Hlen. cbn [length] in Hlen.
    destruct (IH (budget - 1)%nat k1 kids1 U1 job1 Hok1 Hj1) as (k' & job' & kids' & U' & E & Hok' & Hj' & Htk & Hsame & Hle & Hdone); [lia|].
    exists k', job', kids', U'. split_and!; try done; [|by eapply same_job_trans|lia|].
    + eapply takes_trans; [exact Htk1|]. destruct Hsame1 as (<- & _). exact Htk.
    + destruct Hdone; [by left|right; lia].
Qed.

(** ** What is left below a node without children *)
Lemma left_below par k kids U r c : caps_ok par k kids U -> kids r = [] -> r <> 0 -> below par r c -> c ∈ dom (mp k) ->
  c ∈ U \/ exists u, u ∈ U /\ below par u c.
Proof.
  intros Hok Hr Hr0. induction 1 as [c Hc|p c Hb IH Hc]; intros Hd; destruct (decide (c ∈ U)) as [HU|HU]; [by left| |by left|].
  all: apply elem_of_dom in Hd as [e He]; pose proof (co_entries _ _ _ _ Hok c e He) as Hpe.
  - assert (Tree.parent e = r) as Hp by congruence. pose proof (fo_in _ _ _ (co_forest _ _ _ _ Hok) c e He) as Hin.
    rewrite Hp, Hr in Hin. specialize (Hin Hr0 HU). by apply not_elem_of_nil in Hin.
  - assert (Tree.parent e = p) as Hp by congruence. pose proof (below_lt _ _ _ _ _ _ Hok Hb) as Hlt.
    destruct (co_ids _ _ _ _ Hok _ _ Hc) as (_ & _ & Hpp).
    assert (p <> 0) as Hp0.
    { intros ->. inversion Hb as [? H0|? ? _ H0]; destruct (co_ids _ _ _ _ Hok _ _ H0); lia. }
    pose proof (fo_in _ _ _ (co_forest _ _ _ _ Hok) c e He) as Hin. rewrite Hp in Hin. specialize (Hin Hp0 HU).
    destruct (fo_kids _ _ _ (co_forest _ _ _ _ Hok) _ _ Hin) as (_ & _ & Hs & _).
    right. destruct (IH (proj2 (elem_of_dom _ _) Hs)) as [HpU|(u & Hu & Hup)].
    + exists p. split; [done|by apply below_kid].
    + exists u. split; [done|by eapply below_step].
Qed.

(** A derived capability someone holds. *)
Lemma held_below par k kids U n a r : caps_ok par k kids U -> holds k n a -> r <> 0 -> below par r (node_id n) ->
  node_id n ∈ dom (mp k) /\ node_id n ∉ U.
Proof.
  intros Hok Hh Hr Hb. destruct (co_holds _ _ _ _ Hok n a Hh) as [Hpar Hent Hat].
  assert (node_parent n <> 0) as Hp.
  { intros Hz. rewrite Hz in Hpar. inversion Hb as [? H0|? ? Hb' H0]; rewrite Hpar in H0; simplify_eq.
    inversion Hb' as [? H1|? ? _ H1]; destruct (co_ids _ _ _ _ Hok _ _ H1); lia. }
  destruct (Hent Hp) as [e He]. split; [by eapply elem_of_dom_2|]. intros HU.
  destruct (co_gone _ _ _ _ Hok _ e HU He) as [Hg _]. rewrite (Hat e He) in Hg. by subst a.
Qed.

(** ** Steps *)
Lemma revoke_step_ok par V this started ended k kids U job : caps_ok par k kids U -> job_ok par k kids U V job ->
  exists k' job' finished kids' U', revoke_step k job this started ended = Some (k', job', finished) /\ caps_ok par k' kids' U' /\
    job_ok par k' kids' U' V job' /\ takes k U k' U' (below par (r_root job)) /\ r_root job' = r_root job /\ steps job' = S (steps job) /\
    (listed k' U' <= listed k U)%nat /\ (if finished then stack job' = [] else (listed k' U' + REVOKE_STEP <= listed k U)%nat).
Proof.
  intros Hok Hj. destruct (revoke_loop_ok par V this (2 * REVOKE_STEP + length (stack job) + 1) REVOKE_STEP k kids U job Hok Hj ltac:(lia))
    as (k' & job' & kids' & U' & E & Hok' & Hj' & Htk & (Hr & _ & _ & Hst) & Hle & Hdone).
  unfold revoke_step. rewrite E. cbn [mbind option_bind]. eexists k', _, _, kids', U'. split; [reflexivity|].
  split; [done|]. split; [by destruct Hj'; split|]. cbn [r_root steps stack]. split_and!; try done; [congruence|].
  case_bool_decide as Hn; [done|]. by destruct Hdone.
Qed.

(** A revocation with nothing else done between its steps: the loop of [interrupt] that drives it. [clock] gives the
    readings around each step. *)
Fixpoint revoke_rest (fuel : nat) k (job : Revocation) (this : nat) (clock : nat -> Z * Z) : option (Scheduler T Sp Po * Revocation) :=
  match fuel with
  | 0%nat => None
  | S fuel =>
      match revoke_step k job this (clock (steps job)).1 (clock (steps job)).2 with
      | None => None
      | Some (k, job, finished) => if finished then Some (k, job) else revoke_rest fuel k job this clock
      end
  end.

Lemma revoke_rest_ok par V this clock fuel : forall k kids U job, caps_ok par k kids U -> job_ok par k kids U V job ->
  (listed k U / REVOKE_STEP < fuel)%nat ->
  exists k' job' kids' U', revoke_rest fuel k job this clock = Some (k', job') /\ caps_ok par k' kids' U' /\ job_ok par k' kids' U' V job' /\
    takes k U k' U' (below par (r_root job)) /\ r_root job' = r_root job /\ stack job' = [] /\
    (steps job' <= steps job + 1 + listed k U / REVOKE_STEP)%nat.
Proof.
  induction fuel as [|fuel IH]; intros k kids U job Hok Hj Hf; [lia|]. cbn [revoke_rest].
  destruct (revoke_step_ok par V this (clock (steps job)).1 (clock (steps job)).2 k kids U job Hok Hj)
    as (k1 & job1 & finished & kids1 & U1 & -> & Hok1 & Hj1 & Htk & Hr & Hst & Hle & Hdone).
  destruct finished.
  - exists k1, job1, kids1, U1. split_and!; try done. lia.
  - assert (listed k1 U1 / REVOKE_STEP + 1 <= listed k U / REVOKE_STEP)%nat as Hdiv.
    { rewrite <- Nat.div_add by (unfold REVOKE_STEP; lia). apply Nat.Div0.div_le_mono. lia. }
    destruct (IH k1 kids1 U1 job1 Hok1 Hj1) as (k' & job' & kids' & U' & E & Hok' & Hj' & Htk' & Hr' & Hst' & Hsteps); [lia|].
    exists k', job', kids', U'. split_and!; try done; [|congruence|lia]. eapply takes_trans; [exact Htk|]. by rewrite <- Hr.
Qed.

(** The first step's revocation. *)
Definition first_job (slot : nat) (p root : Z) : Revocation := mkRevocation slot p root [root] 0 false 0 0.

Lemma begin_ok par k kids U V slot t root : caps_ok par k kids U -> (forall u, u ∈ U -> u ∈ V) -> task k slot = Some t ->
  let k1 := set_deriv (mkDeriv (tree_of k) (revoking (deriv k) ++ [root]) (next_node (deriv k))) k in
  caps_ok par k1 kids U /\ job_ok par k1 kids U V (first_job slot (pid t) root) /\
  (forall n a, holds k1 n a <-> holds k n a) /\ listed k1 U = listed k U.
Proof.
  intros Hok HV Ht k1. split_and!; try done.
  - apply (caps_ok_view par k); done.
  - split; cbn [stack r_root first_job].
    + right. by exists [].
    + intros x ->%list_elem_of_singleton. done.
    + intros x ->%list_elem_of_singleton. by left.
    + auto.
Qed.

(** [CAP_REVOKE] and the steps after it, with nothing else done in between. *)
Definition revoke_all (fuel : nat) k (slot : nat) (root : Z) (this : nat) (clock : nat -> Z * Z) : option (Scheduler T Sp Po * Revocation) :=
  match begin_revoke k slot root this (clock 0%nat).1 (clock 0%nat).2 with
  | None => None
  | Some (k, job, finished) => if finished then Some (k, job) else revoke_rest fuel k job this clock
  end.

Lemma revoke_all_rest fuel k slot t root this clock : task k slot = Some t ->
  revoke_all fuel k slot root this clock =
  revoke_rest (S fuel) (set_deriv (mkDeriv (tree_of k) (revoking (deriv k) ++ [root]) (next_node (deriv k))) k) (first_job slot (pid t) root) this clock.
Proof.
  intros Ht. unfold revoke_all, begin_revoke. rewrite Ht. unfold first_job. cbn [mbind option_bind revoke_rest steps]. reflexivity.
Qed.

(** ** Properties *)

(** C1: a revocation is complete. When no other revocation is in progress and nothing else is done between its steps,
    [CAP_REVOKE] of a node ends within one step
    per [REVOKE_STEP] entries of the tree, without a panic; afterwards a capability is held exactly if it was held before
    and is not derived from the root, and the tree and the tables still agree. *)
Theorem revoke_complete par k kids slot t root this clock fuel :
  caps_ok par k kids ∅ -> task k slot = Some t -> root <> 0 -> (base.size (mp k) / REVOKE_STEP < fuel)%nat ->
  exists k' job kids', revoke_all fuel k slot root this clock = Some (k', job) /\
    (forall n a, holds k' n a <-> holds k n a /\ ~ below par root (node_id n)) /\
    caps_ok par k' kids' ∅ /\ (steps job <= base.size (mp k) / REVOKE_STEP + 1)%nat.
Proof.
  intros Hok Ht Hr Hf. destruct (begin_ok par k kids ∅ ∅ slot t root Hok ltac:(set_solver) Ht) as (Hok1 & Hj1 & Hh1 & Hl1).
  assert (listed k ∅ = base.size (mp k)) as Hl by (unfold listed; by rewrite difference_empty_L, size_dom).
  set (k1 := set_deriv _ k) in *.
  destruct (revoke_rest_ok par ∅ this clock (S fuel) k1 kids ∅ _ Hok1 Hj1) as (k' & job & kids' & U' & E & Hok' & Hj' & Htk & Hroot & Hst & Hsteps);
    [rewrite Hl1, Hl; lia|].
  assert (U' = ∅) as ->. { apply set_eq. intros u. split; [|set_solver]. intros Hu. destruct (jo_rest _ _ _ _ _ _ Hj' u Hu) as [[Hin _]|]; [|done].
    rewrite Hst in Hin. by apply not_elem_of_nil in Hin. }
  assert (kids' root = []) as Hkids.
  { destruct (jo_bottom _ _ _ _ _ _ Hj') as [[_ H]|[l H]]; [by rewrite Hroot in H|]. rewrite Hst in H. by destruct l. }
  exists k', job, kids'. split_and!; [| |done|cbn [steps first_job] in Hsteps; rewrite Hl1, Hl in Hsteps; lia].
  - by rewrite (revoke_all_rest _ _ _ t).
  - intros n a. split.
    + intros Hh. split; [by apply Hh1, (tk_less _ _ _ _ _ Htk)|]. intros Hb. destruct (held_below _ _ _ _ _ _ _ Hok' Hh Hr Hb) as [Hd HU].
      destruct (left_below _ _ _ _ _ _ Hok' Hkids Hr Hb Hd) as [|(u & Hu & _)]; set_solver.
    + intros [Hh Hb]. apply (tk_keep _ _ _ _ _ Htk); [by apply Hh1|done].
Qed.

(** When a revocation's stack is empty a capability derived from its root is held only below a node that another
    revocation in progress ([V]) took out. *)
Lemma revoked_below par k kids U V job :
  caps_ok par k kids U -> job_ok par k kids U V job -> stack job = [] -> r_root job <> 0 ->
  forall n a, holds k n a -> below par (r_root job) (node_id n) -> exists v, v ∈ V /\ below par v (node_id n).
Proof.
  intros Hok Hj Hst Hr n a Hh Hb. assert (kids (r_root job) = []) as Hk.
  { destruct (jo_bottom _ _ _ _ _ _ Hj) as [[_ H]|[l H]]; [done|]. rewrite Hst in H. by destruct l. }
  destruct (held_below _ _ _ _ _ _ _ Hok Hh Hr Hb) as [Hd HU].
  destruct (left_below _ _ _ _ _ _ Hok Hk Hr Hb Hd) as [|(u & Hu & Hub)]; [done|]. exists u. split; [|done].
  destruct (jo_rest _ _ _ _ _ _ Hj u Hu) as [[Hin _]|]; [|done]. rewrite Hst in Hin. by apply not_elem_of_nil in Hin.
Qed.

(** a step of a revocation never panics and never runs on: from any consistent state it returns, keeps the tree
    and the tables consistent, takes away only capabilities derived from the root, and when it is not the last it has
    taken [REVOKE_STEP] nodes out of their lists. *)
Theorem revoke_step_bounded par V this started ended k kids U job :
  caps_ok par k kids U -> job_ok par k kids U V job ->
  exists k' job' finished kids' U', revoke_step k job this started ended = Some (k', job', finished) /\
    caps_ok par k' kids' U' /\ job_ok par k' kids' U' V job' /\ (forall n a, holds k' n a -> holds k n a) /\
    (forall n a, holds k n a -> ~ below par (r_root job) (node_id n) -> holds k' n a) /\
    (if finished then stack job' = [] else (listed k' U' + REVOKE_STEP <= listed k U)%nat).
Proof.
  intros Hok Hj. destruct (revoke_step_ok par V this started ended k kids U job Hok Hj)
    as (k' & job' & finished & kids' & U' & E & Hok' & Hj' & Htk & _ & _ & _ & Hdone).
  exists k', job', finished, kids', U'. split_and!; try done; [apply Htk|]. intros n a. by apply (tk_keep _ _ _ _ _ Htk).
Qed.
End steps.
