(* ===== verification/Ipc.v ===== *)
(** * Message passing ([kernel/src/scheduler.rs]: [deliver], [ipc_send], [ipc_recv], [ipc_reply], [expire], notices)

    Synchronous messages over endpoints: a sender blocks until a receiver takes its message, a caller until the reply; the
    kernel's own notices (an ended task, an interrupt) reach a waiting receiver or are kept. The clock is an argument in
    milliseconds; masking an MSI vector at its device is a parameter. *)
From S2P Require Import Prelude Abi TaskState TreeIndex NodeIndex Caps UserHeap Kernel Derivation CapOps.
Import TreeIndex.Tree(At, AtSlot, AtSend, Ghost).
Local Open Scope nat_scope.

Definition RECEIVE_MASK : Z := (2 ^ IPC_TIMEOUT_SHIFT - 1)%Z.
Definition U64_MAX : Z := (W64 - 1)%Z.
Definition MSI_FIRST : nat := 16.
Definition MSI_VECTORS : nat := 16.
Definition LINES : nat := MSI_FIRST + MSI_VECTORS.
Definition STORM_LOST : Z := 1000.
Definition STORM_MS : Z := 100.
Definition STORM_SAY_MS : Z := 10000.

Section ipc.
Context {T Sp Po : Type} `{!NodeIndex T, !Space Sp, !Pool Po}.
Implicit Types (k : Scheduler T Sp Po) (t : Task Sp).

(** A task made ready: its state and the CPU to look at. *)
Definition make_ready k (slot : nat) : Scheduler T Sp Po :=
  match task k slot with Some t => mark (on_task k slot (set_state Ready)) (cpu t) | None => k end.

(** [Scheduler::blocked]: the first task in a given state. *)
Definition blocked k (st : State) : option nat :=
  List.find (fun i => match task k i with Some t => bool_decide (state t = st) | None => false end) (seq 1 (length (tasks k) - 1)).

(** [Scheduler::receivable]: someone alive can still receive on the endpoint. *)
Definition reads (ep : nat) t : bool :=
  negb (bool_decide (state t = Exited)) &&
  existsb (fun c => match c with Some (Endpoint e rights _) => (e =? ep) && has rights CAP_READ | _ => false end) (cspace (table t)).
Definition receivable k (ep : nat) : bool :=
  match mjoin (endpoint_owner (ports k) !! ep) with
  | Some (slot, p) => match task k slot with Some t => (pid t =? p)%Z && reads ep t | None => false end
  | None => false
  end
  || existsb (reads ep) (tasks_in k)
  || existsb (existsb (fun b => match b with Some b => b_ep b =? ep | None => false end)) (irq_bind (ports k)).

(** [Scheduler::deadline]: the uptime at which a wait with this handle word ends (0: never). *)
Definition deadline_of k (now word : Z) : Scheduler T Sp Po * Z :=
  let ms := Z.shiftr word IPC_TIMEOUT_SHIFT in
  if (ms =? 0)%Z then (k, 0%Z)
  else
    let at_ := Z.max (now + ms) 1 in
    let po := ports k in
    (set_ports (with_times (last_send po) (Z.min (next_expiry po) at_) (next_wake po) po) k, at_).

(** [Scheduler::awaits_reply] and [Scheduler::fail_reply]. *)
Definition awaits_reply k (client : nat) (p seq : Z) (server : nat) : bool :=
  match task k client with
  | Some t => (pid t =? p)%Z && (call_seq (ipc t) =? seq)%Z && bool_decide (state t = BlockedReply server)
  | None => false
  end.
Definition fail_reply k (slot : nat) : Scheduler T Sp Po := make_ready (on_task k slot (set_result ERR_PEER)) slot.

(** A blocked wait whose deadline passed fails. *)
Definition waits_ipc (s : State) : bool :=
  match s with BlockedSend _ | BlockedRecv _ | BlockedReply _ => true | _ => false end.
Definition count_timeout k (s : State) : Scheduler T Sp Po :=
  match s with
  | BlockedSend ep | BlockedRecv ep =>
      let po := ports k in
      set_ports (with_endpoints (endpoints po) (endpoint_owner po)
        (alter (fun c => mkEpCount (ep_messages c) (ep_busy c) (ep_timeouts c + 1)) ep (ep_counts po)) po) k
  | _ => k
  end.

(** [Scheduler::expire] at one slot. *)
Definition expire_at (now : Z) (st : Scheduler T Sp Po * bool) (slot : nat) : Scheduler T Sp Po * bool :=
  let '(k, woken) := st in
  match task k slot with
  | None => st
  | Some t =>
      if (deadline (ipc t) =? 0)%Z || negb (waits_ipc (state t)) then st
      else if (now <? deadline (ipc t))%Z then
        let po := ports k in
        (set_ports (with_times (last_send po) (Z.min (next_expiry po) (deadline (ipc t))) (next_wake po) po) k, woken)
      else
        let k := count_timeout k (state t) in
        let k := on_task k slot (fun t => set_deadline 0 (set_pending None (set_state Ready t))) in
        let k := forget_send (mark k (cpu t)) (pending_cap (ipc t)) in
        (on_task k slot (set_result ERR_TIMEOUT), true)
  end.

(** [Scheduler::expire]. *)
Definition expire k (now : Z) : Scheduler T Sp Po * bool :=
  let po := ports k in
  let k := set_ports (with_times (last_send po) U64_MAX (next_wake po) po) k in
  foldl (expire_at now) (k, false) (seq 1 (length (tasks k) - 1)).

(** [Scheduler::deliver]: the message of a blocked or current sender reaches the receiver. *)
Definition deliver (grow : bool) k (from to : nat) : Scheduler T Sp Po :=
  match task k from, task k to with
  | Some sender, Some receiver =>
      let call := pending_call (ipc sender) in
      let cap := pending_cap (ipc sender) in
      let from_mb := mailbox sender in
      let to_mb := mailbox receiver in
      let receive := (arg2 to_mb &&& RECEIVE_MASK)%Z in
      let delivered := bool_decide (is_Some cap) && (1 <=? receive)%Z && (receive <? Z.of_nat SLOT_DYNAMIC)%Z in
      let k := on_task k from (set_pending None) in
      let k := match cap with
               | Some p => if delivered then place grow k from to (Z.to_nat receive) p else forget_send k cap
               | None => k
               end in
      let k := on_task k to (fun t => set_mailbox
        (mkMailbox (syscall_num to_mb) (pid sender) (pending_badge (ipc sender))
           [Z.b2z delivered; if call then MSG_FLAG_CALL else 0%Z; msg_at from_mb 2; msg_at from_mb 3] 0) t) in
      let k := make_ready k to in
      let k := on_task k to (fun t => set_counters (mkCounters (runs (counters t)) (calls (counters t)) (run_ns (counters t)) (sends (counters t)) (receives (counters t) + 1)%Z) t) in
      if call then
        let seq := (call_seq (ipc sender) + 1)%Z in
        let k := on_task k from (set_call_seq seq) in
        let previous := reply_to (ipc receiver) in
        let k := on_task k to (set_reply_to (Some (from, pid sender, seq))) in
        let k := match previous with
                 | Some (old, old_pid, old_seq) => if awaits_reply k old old_pid old_seq to then fail_reply k old else k
                 | None => k
                 end in
        on_task k from (set_state (BlockedReply to))
      else make_ready (on_task k from (set_result 0)) from
  | _, _ => k
  end.

(** [Scheduler::notify_exit] and [Scheduler::notify_irq]: messages from the kernel, sender 0, no capability. *)
Definition kernel_message k (to : nat) (m : list Z) : Scheduler T Sp Po :=
  make_ready (on_task k to (fun t => set_mailbox (mkMailbox (syscall_num (mailbox t)) 0 0 m 0) t)) to.
Definition notify_exit k (to : nat) (p reason : Z) : Scheduler T Sp Po :=
  let po := ports k in
  let k := set_ports (with_exits (exits po) 0 po) k in
  kernel_message k to [0; MSG_FLAG_EXIT; p; (reason ||| Z.shiftl (exits_lost po) 32)%Z]%Z.
Definition notify_irq k (to : nat) (irq : nat) : Scheduler T Sp Po :=
  kernel_message k to [0; MSG_FLAG_IRQ; Z.of_nat irq; 0]%Z.

(** [Scheduler::post_exit]: an exit notice to a waiting receiver, otherwise kept (bounded). *)
Definition post_exit k (ep : nat) (p reason : Z) : Scheduler T Sp Po :=
  match blocked k (BlockedRecv ep) with
  | Some receiver => notify_exit k receiver p reason
  | None =>
      let po := ports k in
      if length (exits po) <? EXIT_NOTICES_MAX then set_ports (with_exits (exits po ++ [(ep, p, reason)]) (exits_lost po) po) k
      else set_ports (with_exits (exits po) (exits_lost po + 1)%Z po) k
  end.

(** [Scheduler::storm] and [Scheduler::calm]: an MSI vector with too many messages not taken is masked at its device;
    [can_mask] says whether the device lets it. *)
Definition storm (can_mask : nat -> Z -> bool) k (irq : nat) (now : Z) : Scheduler T Sp Po :=
  let po := ports k in
  match (v ← (if MSI_FIRST <=? irq then Some (irq - MSI_FIRST) else None); s ← storms po !! v; Some (v, s)) with
  | None => k
  | Some (v, s) =>
      let s := if (since s + STORM_MS <=? now)%Z then mkStorm now 0 (masked s) (said s) else s in
      let s := mkStorm (since s) (lost s + 1) (masked s) (said s) in
      let s := if negb (masked s) && (STORM_LOST <=? lost s)%Z then
                 let m := match mjoin (msi po !! v) with Some (device, entry) => can_mask device entry | None => masked s end in
                 let say := m && match said s with None => true | Some at_ => (at_ + STORM_SAY_MS <=? now)%Z end in
                 mkStorm (since s) (lost s) m (if say then Some now else said s)
               else s in
      set_ports (with_irqs (irq_bind po) (irq_pending po) (irqs po) (<[v := s]> (storms po)) po) k
  end.
Definition calm k (irq : nat) : Scheduler T Sp Po :=
  let po := ports k in
  match (v ← (if MSI_FIRST <=? irq then Some (irq - MSI_FIRST) else None); s ← storms po !! v; if masked s then Some (v, s) else None) with
  | None => k
  | Some (v, s) => set_ports (with_irqs (irq_bind po) (irq_pending po) (irqs po) (<[v := mkStorm (since s) (lost s) false (said s)]> (storms po)) po) k
  end.

(** [Scheduler::raise_irq]: an interrupt of a bound line reaches every binder; of an unbound one, its waiters. *)
Definition set_binding k (irq i : nat) (b : IrqBinding) : Scheduler T Sp Po :=
  let po := ports k in
  set_ports (with_irqs (alter (<[i := Some b]>) irq (irq_bind po)) (irq_pending po) (irqs po) (storms po) po) k.
Definition raise_at (irq : nat) (st : Scheduler T Sp Po * bool) (i : nat) : Scheduler T Sp Po * bool :=
  let '(k, taken) := st in
  match mjoin (line ← irq_bind (ports k) !! irq; line !! i) with
  | None => st
  | Some b =>
      match blocked k (BlockedRecv (b_ep b)) with
      | Some receiver => (set_binding (notify_irq k receiver irq) irq i (mkBinding (b_ep b) (b_slot b) (b_pid b) (b_pending b) true), true)
      | None => (set_binding k irq i (mkBinding (b_ep b) (b_slot b) (b_pid b) true true), taken || negb (b_pending b))
      end
  end.
Definition wake_irq (irq : nat) (st : Scheduler T Sp Po * bool) (slot : nat) : Scheduler T Sp Po * bool :=
  match task st.1 slot with
  | Some t => if bool_decide (state t = BlockedIrq irq) then (make_ready st.1 slot, true) else st
  | None => st
  end.
Definition raise_irq (can_mask : nat -> Z -> bool) k (irq : nat) (now : Z) : Scheduler T Sp Po :=
  let po := ports k in
  let k := set_ports (with_irqs (irq_bind po) (irq_pending po) (alter (Z.add 1) irq (irqs po)) (storms po) po) k in
  if existsb (fun b => bool_decide (is_Some b)) (default [] (irq_bind po !! irq)) then
    let '(k, taken) := foldl (raise_at irq) (k, false) (seq 0 IRQ_SHARERS) in
    if taken then k else storm can_mask k irq now
  else
    let '(k, woken) := foldl (wake_irq irq) (k, false) (seq 1 (length (tasks k) - 1)) in
    if woken then k
    else
      let k := if default false (irq_pending (ports k) !! irq) then storm can_mask k irq now else k in
      let po := ports k in
      set_ports (with_irqs (irq_bind po) (<[irq := true]> (irq_pending po)) (irqs po) (storms po) po) k.

(** [Scheduler::ipc_send]: [Ok true] when the caller is blocked and the CPU selects another task, [Ok false] when the
    message was taken at once. *)
Definition count_message k (ep : nat) : Scheduler T Sp Po :=
  let po := ports k in
  set_ports (with_endpoints (endpoints po) (endpoint_owner po)
    (alter (fun c => mkEpCount (ep_messages c + 1) (ep_busy c) (ep_timeouts c)) ep (ep_counts po)) po) k.
Definition ipc_send (grow : bool) k (slot : nat) (now : Z) (request : Mailbox) (call : bool) : Scheduler T Sp Po * result Z bool :=
  match cap_of k slot (arg1 request) with
  | Some (Endpoint ep rights badge) =>
      if negb (has rights CAP_WRITE) then (k, Err ERR_RIGHTS) else
      let receiver := blocked k (BlockedRecv ep) in
      if bool_decide (receiver = None) && negb (receivable k ep) then (k, Err ERR_PEER) else
      if copy_refused k slot (msg_at request 0) (msg_at request 1) then (k, Err ERR_RIGHTS) else
      let '(k, refused) := if has rights CAP_GRANT then transfer_refused grow k slot (msg_at request 0) (msg_at request 1) else (k, None) in
      match refused with
      | Some error => (k, Err error)
      | None =>
          let k := count_message k ep in
          let '(k, cap) := if has rights CAP_GRANT then transfer k slot (msg_at request 0) (msg_at request 1) else (k, None) in
          let seq := (last_send (ports k) + 1)%Z in
          let k := set_ports (with_times seq (next_expiry (ports k)) (next_wake (ports k)) (ports k)) k in
          let '(k, d) := deadline_of k now (arg2 request) in
          let k := on_task k slot (fun t =>
            set_counters (mkCounters (runs (counters t)) (calls (counters t)) (run_ns (counters t)) (sends (counters t) + 1)%Z (receives (counters t)))
              (set_ipc (mkIpc cap call badge seq (reply_to (ipc t)) (call_seq (ipc t)) d) t)) in
          let k := match cap, task k slot with
                   | Some p, Some t => if bool_decide (moved_from p = None) then arrived grow k p (AtSend slot (pid t)) else k
                   | _, _ => k
                   end in
          match receiver with
          | Some r =>
              let k := deliver grow k slot r in
              if call then (on_task k slot (set_dirty true), Ok true) else (k, Ok false)
          | None => (on_task k slot (fun t => set_dirty true (set_state (BlockedSend ep) t)), Ok true)
          end
      end
  | _ => (k, Err ERR_INVALID)
  end.

(** The oldest message waiting for [ep]: the least [send_seq], the first slot among equals ([Iterator::min_by_key]). *)
Definition older (a b : option (nat * Z)) : option (nat * Z) :=
  match a, b with
  | Some (_, x), Some (_, y) => if (y <? x)%Z then b else a
  | None, _ => b
  | _, None => a
  end.
Definition waiting_send k (ep i : nat) : option (nat * Z) :=
  match task k i with Some t => if bool_decide (state t = BlockedSend ep) then Some (i, send_seq (ipc t)) else None | None => None end.
Definition oldest_send k (ep : nat) : option nat :=
  fst <$> foldl older None (map (waiting_send k ep) (seq 1 (length (tasks k) - 1))).

(** The first binding of [ep] with an interrupt it has not received. *)
Definition pending_line k (ep : nat) : option (nat * nat) :=
  let at_ line i := match mjoin (l ← irq_bind (ports k) !! line; l !! i) with Some b => (b_ep b =? ep) && b_pending b | None => false end in
  List.find (fun x => at_ x.1 x.2) (list_prod (seq 0 LINES) (seq 0 IRQ_SHARERS)).

(** [Scheduler::ipc_recv]: an interrupt first, then an exit notice, then the oldest message; otherwise the task waits. *)
Definition ipc_recv (grow : bool) k (slot : nat) (now : Z) (request : Mailbox) : Scheduler T Sp Po * result Z bool :=
  match cap_of k slot (arg1 request) with
  | Some (Endpoint ep rights _) =>
      if negb (has rights CAP_READ) then (k, Err ERR_RIGHTS) else
      match pending_line k ep with
      | Some (irq, i) =>
          let k := match mjoin (l ← irq_bind (ports k) !! irq; l !! i) with
                   | Some b => set_binding k irq i (mkBinding (b_ep b) (b_slot b) (b_pid b) false (b_unacked b))
                   | None => k
                   end in
          (notify_irq (calm k irq) slot irq, Ok false)
      | None =>
          match position (fun e => e.1.1 =? ep) (exits (ports k)) with
          | Some i =>
              let po := ports k in
              let '(_, p, reason) := default (0, 0%Z, 0%Z) (exits po !! i) in
              (notify_exit (set_ports (with_exits (delete i (exits po)) (exits_lost po) po) k) slot p reason, Ok false)
          | None =>
              match oldest_send k ep with
              | Some sender => (deliver grow k sender slot, Ok false)
              | None =>
                  let '(k, d) := deadline_of k now (arg2 request) in
                  (on_task k slot (fun t => set_deadline d (set_dirty true (set_state (BlockedRecv ep) t))), Ok true)
              end
          end
      end
  | _ => (k, Err ERR_INVALID)
  end.

(** [Scheduler::ipc_reply]: to the last client, or to the client of a saved reply capability, which is used up. *)
Definition ipc_reply (grow : bool) k (slot : nat) (request : Mailbox) : Scheduler T Sp Po * result Z Z :=
  let '(k, target) :=
    if (arg1 request =? 0)%Z then (on_task k slot (set_reply_to None), t ← task k slot; reply_to (ipc t))
    else match cap_of k slot (arg1 request), index_of k slot (arg1 request) with
         | Some (Reply caller p seq), Some i => (with_table k slot (fun c => clear_cap c i), Some (caller, p, seq))
         | _, _ => (k, None)
         end in
  match target with
  | None => (k, Err ERR_INVALID)
  | Some (caller, p, seq) =>
      if negb (awaits_reply k caller p seq slot) then (k, Err ERR_PEER) else
      if copy_refused k slot (msg_at request 0) (msg_at request 1) then (k, Err ERR_RIGHTS) else
      let '(k, refused) := transfer_refused grow k slot (msg_at request 0) (msg_at request 1) in
      match refused with
      | Some error => (k, Err error)
      | None =>
          let '(k, cap) := transfer k slot (msg_at request 0) (msg_at request 1) in
          match task k slot, task k caller with
          | Some server, Some client =>
              let mb := mailbox client in
              let receive := (arg2 mb &&& RECEIVE_MASK)%Z in
              let delivered := bool_decide (is_Some cap) && (1 <=? receive)%Z && (receive <? Z.of_nat SLOT_DYNAMIC)%Z in
              let k := match cap with Some pe => if delivered then place grow k slot caller (Z.to_nat receive) pe else k | None => k end in
              let k := on_task k caller (fun t => set_mailbox
                (mkMailbox (syscall_num mb) (pid server) 0 [Z.b2z delivered; 0%Z; msg_at request 2; msg_at request 3] 0) t) in
              (make_ready k caller, Ok 0%Z)
          | _, _ => (k, Err ERR_PEER)
          end
      end
  end.

(** [SYSCALL_IPC_SAVE_REPLY]: the server keeps the client's reply for later. *)
Definition save_reply (fits : bool) k (slot : nat) : Scheduler T Sp Po * result Z Z :=
  match task k slot with
  | None => (k, Err ERR_INVALID)
  | Some t =>
      let '(ok, k) := match room fits (table t) with Some (_, tb) => (true, on_task k slot (set_table tb)) | None => (false, k) end in
      match reply_to (ipc t), ok with
      | Some (caller, p, seq), true =>
          let k := on_task k slot (set_reply_to None) in
          let '(k, n) := root k in
          match store fits k slot (Reply caller p seq) n with Some (h, k) => (k, Ok h) | None => (k, Err ERR_NO_SLOT) end
      | None, _ => (k, Err ERR_INVALID)
      | Some _, false => (k, Err ERR_NO_SLOT)
      end
  end.
End ipc.
