(* ===== verification/CapRun.v ===== *)
(** * Every capability operation keeps the capability invariant

    [caps_ok] holds through [CAP_MINT], [CAP_DROP], [ENDPOINT_CREATE], platform capabilities, saved replies, sends, receives,
    replies and timeouts, also while revocations are in progress; [evolves] is what such an operation may do to them. *)
From S2P Require Import Prelude Abi TaskState TreeIndex NodeIndex Caps UserHeap Kernel Derivation Forest CapOps CapTree Revoke Ipc.
Import TreeIndex.Tree(At, AtSlot, AtSend, Ghost, Entry, mkEntry, id, depth, at_, first, next, prev, maps, more_maps, FREE).

Section run.
Context {T Sp Po : Type} `{!NodeIndex T, !NodeIndexLaws T, !Space Sp, !Pool Po}.
Implicit Types (k : Scheduler T Sp Po) (t : Task Sp) (par : gmap Z Z) (U V : gset Z).

(** ** What an operation may do to revocations in progress *)
Record evolves par k U par' k' U' : Prop := {
  ev_par : par ⊆ par';
  ev_out : U' ⊆ U;
  ev_still u : u ∈ U -> is_Some (mp k' !! u) -> u ∈ U';
  ev_absent i p : par !! i = Some p -> p <> 0 -> mp k !! i = None -> mp k' !! i = None;
}.

Lemma evolves_same par k U k' : mp k' = mp k -> evolves par k U par k' U.
Proof. intros Hm. split; try done. by rewrite Hm. Qed.

Lemma evolves_trans par1 k1 U1 par2 k2 U2 par3 k3 U3 :
  evolves par1 k1 U1 par2 k2 U2 -> evolves par2 k2 U2 par3 k3 U3 ->
  (forall u, u ∈ U1 -> exists p, par1 !! u = Some p /\ p <> 0) -> evolves par1 k1 U1 par3 k3 U3.
Proof.
  intros A B HU. split.
  - etransitivity; [apply (ev_par _ _ _ _ _ _ A)|apply (ev_par _ _ _ _ _ _ B)].
  - etransitivity; [apply (ev_out _ _ _ _ _ _ B)|apply (ev_out _ _ _ _ _ _ A)].
  - intros u Hu Hs. apply (ev_still _ _ _ _ _ _ B); [|done]. apply (ev_still _ _ _ _ _ _ A); [done|].
    destruct (mp k2 !! u) eqn:He; [by eexists|]. destruct (HU u Hu) as (p & Hp & Hp0).
    rewrite (ev_absent _ _ _ _ _ _ B u p) in Hs; [by destruct Hs| |done|done].
    by eapply lookup_weaken; [|apply (ev_par _ _ _ _ _ _ A)].
  - intros i p Hi Hp Hn. apply (ev_absent _ _ _ _ _ _ B i p); [|done|by apply (ev_absent _ _ _ _ _ _ A i p)].
    by eapply lookup_weaken; [|apply (ev_par _ _ _ _ _ _ A)].
Qed.

Lemma evolves_shrinks par k k' kids kids' U U' : shrinks k k' kids kids' U U' -> evolves par k U par k' U'.
Proof.
  intros Hs. split; try done; [apply Hs|apply Hs|]. intros i p _ _ Hn. apply eq_None_not_Some.
  intros [e (e0 & He0 & _)%(sh_entries _ _ _ _ _ _ Hs)]. congruence.
Qed.

(** An operation's outcome: the invariant again, with history and revocations as they may evolve. *)
Definition keeps par k U k' : Prop := exists par' kids' U', caps_ok par' k' kids' U' /\ evolves par k U par' k' U'.

Lemma out_par par k kids U u : caps_ok par k kids U -> u ∈ U -> exists p, par !! u = Some p /\ p <> 0.
Proof.
  intros Hok Hu. destruct (fo_out _ _ _ (co_forest _ _ _ _ Hok) u Hu) as [e He]. exists (Tree.parent e).
  split; [by apply (co_entries _ _ _ _ Hok)|by apply (co_gone _ _ _ _ Hok u)].
Qed.

Lemma keeps_refl par k kids U : caps_ok par k kids U -> keeps par k U k.
Proof. intros Hok. exists par, kids, U. split; [done|]. by apply evolves_same. Qed.

Lemma keeps_trans par k kids U k1 k2 : caps_ok par k kids U -> keeps par k U k1 ->
  (forall par' kids' U', caps_ok par' k1 kids' U' -> evolves par k U par' k1 U' -> keeps par' k1 U' k2) -> keeps par k U k2.
Proof.
  intros Hok (par1 & kids1 & U1 & Hok1 & Hev1) H. destruct (H par1 kids1 U1 Hok1 Hev1) as (par2 & kids2 & U2 & Hok2 & Hev2).
  exists par2, kids2, U2. split; [done|]. eapply evolves_trans; [done|done|]. intros u. by eapply out_par.
Qed.

Lemma keeps_from par k0 k U k' : mp k0 = mp k -> keeps par k0 U k' -> keeps par k U k'.
Proof. intros Hm (par' & kids' & U' & Hok & [A B C D]). exists par', kids', U'. split; [done|]. rewrite Hm in D. by split. Qed.

Lemma keeps_view par k kids U k' : caps_ok par k kids U -> (forall s, vtask k' s = vtask k s) -> tree_of k' = tree_of k ->
  next_node (deriv k') = next_node (deriv k) -> keeps par k U k'.
Proof.
  intros Hok Hv Ht Hn. exists par, kids, U. split; [by eapply caps_ok_view|]. apply evolves_same. unfold mp. by rewrite Ht.
Qed.

Lemma table_wf par k kids U s t : caps_ok par k kids U -> task k s = Some t -> ct_wf (table t).
Proof. intros Hok Ht. apply (co_tables _ _ _ _ Hok s (pid t) _ (pending_cap (ipc t))). unfold vtask. by rewrite Ht. Qed.

Lemma keeps_fewer par k kids U s f : caps_ok par k kids U -> (forall t, task k s = Some t -> ct_wf (table t) -> holds_no_more t (f t)) ->
  keeps par k U (on_task k s f).
Proof.
  intros Hok Hf. exists par, kids, U. split; [|by apply evolves_same]. apply caps_ok_task_fewer; [done|]. intros t Ht.
  apply Hf; [done|]. by eapply table_wf.
Qed.

(** ** Room *)
Definition small k : Prop := few_entries (ix_live (tree_of k) + 2) /\ 0 <= next_node (deriv k).

Lemma few_le a b : few_entries a -> (b <= a)%nat -> few_entries b.
Proof. unfold few_entries. lia. Qed.
Lemma small_few k : small k -> few_entries (ix_live (tree_of k)).
Proof. intros [H _]. eapply few_le; [exact H|lia]. Qed.

Lemma tree_room_ok par k kids U room n : caps_ok par k kids U -> small k -> few_entries (2 * n) ->
  let k' := (tree_room room k n).1 in
  caps_ok par k' kids U /\ mp k' = mp k /\ small k' /\ ((tree_room room k n).2 = true -> ix_spare (tree_of k') (2 * n)) /\
  (forall s, task k' s = task k s) /\ next_node (deriv k') = next_node (deriv k) /\ revoking (deriv k') = revoking (deriv k).
Proof.
  intros Hok Hsm Hn. pose proof (small_few k Hsm) as Hfew. destruct Hsm as [Hfew2 Hnn].
  destruct (law_reserve room (tree_of k) (2 * n) (co_tree _ _ _ _ Hok) Hfew Hn) as (A & B & C & _).
  unfold tree_room. destruct (ix_reserve room (tree_of k) (2 * n)) as [x ok]. cbn [fst snd] in *.
  assert (mp (set_tree x k) = mp k) as Hmp by exact B. split_and!; try done.
  - apply (caps_ok_index par k kids U); [done|done|rewrite B; apply Hok| | |]; rewrite B; fold (mp k).
    + intros i e He. split; [by apply (co_entries _ _ _ _ Hok)|]. split; [by apply (co_depth _ _ _ _ Hok i)|].
      intros n' a Hh <-. by apply (no_at _ _ _ _ (co_holds _ _ _ _ Hok n' a Hh)).
    + intros n' a Hh. apply (no_entry _ _ _ _ (co_holds _ _ _ _ Hok n' a Hh)).
    + intros u e. apply (co_gone _ _ _ _ Hok).
  - split; [|done]. rewrite tree_set_tree, (law_live x A), B. rewrite <- (law_live (tree_of k)); [done|apply Hok].
Qed.

(** A capability table grown by [room] holds what it held. *)
Lemma room_fewer fits t i tb : ct_wf (table t) -> room fits (table t) = Some (i, tb) -> holds_no_more t (set_table tb t).
Proof.
  intros Hwf Hr. split; [done|]. cbn [table set_table ipc]. split; [|split; [|done]].
  - intros _. by apply room_spec in Hr as [? _].
  - unfold room, mbind, option_bind in Hr. destruct (free_slot _) as [j|]; [|done]. case_match; [|simplify_eq; eauto].
    destruct fits; [|done]. simplify_eq. cbn [cspace nodes]. intros j' c n Hc Hn.
    rewrite lookup_app in Hc. destruct (cspace (table t) !! j') as [oc|] eqn:Hj; [|apply lookup_replicate in Hc as [? _]; done].
    simplify_eq. exists c. split; [done|]. rewrite lookup_app_l in Hn; [done|].
    rewrite (ct_nodes _ Hwf). by eapply lookup_lt_Some.
Qed.

(** Growing a task's table. *)
Definition grown (fits : bool) k (slot : nat) t : bool * Scheduler T Sp Po :=
  match room fits (table t) with Some (_, tb) => (true, on_task k slot (set_table tb)) | None => (false, k) end.

Lemma grown_ok par k kids U fits slot t : caps_ok par k kids U -> task k slot = Some t ->
  let k' := (grown fits k slot t).2 in
  caps_ok par k' kids U /\ deriv k' = deriv k /\ (forall n a, holds k' n a -> holds k n a) /\
  (exists t', task k' slot = Some t' /\ pid t' = pid t /\ account t' = account t /\
     cspace (table t) `prefix_of` cspace (table t') /\ nodes (table t) `prefix_of` nodes (table t')) /\
  (forall s, s <> slot -> task k' s = task k s).
Proof.
  intros Hok Ht. pose proof (table_wf _ _ _ _ _ _ Hok Ht) as Hwf. unfold grown.
  destruct (room fits (table t)) as [[i tb]|] eqn:Hr; cbn [snd].
  - destruct (room_spec _ _ _ _ Hwf Hr) as (_ & _ & _ & Hp1 & _ & Hp2). split_and!.
    + apply caps_ok_task_fewer; [done|]. intros t' Ht'. simplify_eq. by eapply room_fewer.
    + done.
    + intros n a. apply holds_task_fewer. intros t' Ht'. simplify_eq. by eapply room_fewer.
    + exists (set_table tb t). rewrite task_on_task, decide_True, Ht by done. done.
    + intros s Hs. by rewrite task_on_task, decide_False.
  - split_and!; try done. exists t. done.
Qed.

(** ** Storing a capability *)

(** What [store] adds: one node in one kernel-allocated slot, the one the handle names. *)
Lemma store_holds par k kids U fits slot t c n h k' : caps_ok par k kids U -> task k slot = Some t -> store fits k slot c n = Some (h, k') ->
  let i := Z.to_nat (h &&& HANDLE_SLOT_MASK) in
  (forall n' a', holds k' n' a' -> holds k n' a' \/ n' = n /\ a' = AtSlot slot (pid t) i) /\ deriv k' = deriv k /\
  (forall s p c pe, vtask k' s = Some (p, c, pe) -> ct_wf c /\ exists c0, vtask k s = Some (p, c0, pe)) /\
  holds k' n (AtSlot slot (pid t) i).
Proof.
  intros Hok Ht. unfold store, mbind, option_bind. rewrite Ht. pose proof (table_wf _ _ _ _ _ _ Hok Ht) as Hwf.
  destruct (insert_cap fits (table t) c n) as [[h' tb]|] eqn:Hi; [|done]. intros [= <- <-].
  destruct (insert_cap_spec _ _ _ _ _ _ Hwf Hi) as (j & t1 & Hr & -> & _ & Hcs & Hns & Hwf').
  destruct (room_spec _ _ _ _ Hwf Hr) as (Hwf1 & Hj & Hempty & _).
  pose proof (room_fewer _ _ _ _ Hwf Hr) as (_ & _ & Hfew & _). cbn [table set_table] in Hfew.
  assert (j < length (cspace tb))%nat as Hjl by (rewrite Hcs, length_insert; lia).
  assert (Z.to_nat (handle tb j &&& HANDLE_SLOT_MASK) = j) as ->.
  { pose proof (index_handle tb j Hwf' ltac:(unfold SLOT_DYNAMIC in *; lia)) as Hx. unfold index in Hx.
    destruct (_ || _); [done|]. destruct (Z.shiftr _ _ =? _); [|done]. by injection Hx. }
  assert (vtask (on_task k slot (set_table tb)) slot = Some (pid t, tb, pending_cap (ipc t))) as Hv.
  { rewrite vtask_on_task, decide_True, Ht by done. done. }
  assert (vtask k slot = Some (pid t, table t, pending_cap (ipc t))) as Hv0 by (unfold vtask; by rewrite Ht).
  split_and!.
  - intros n' [s p i|s p|]; cbn [holds]; [| |done]; (destruct (decide (s = slot)) as [->|Hs]; [|rewrite vtask_on_task, decide_False by done; by left]);
      rewrite Hv, Hv0.
    + intros (c' & pe & x & [= <- <- <-] & Hc & Hn). rewrite Hcs in Hc. rewrite Hns in Hn.
      destruct (decide (i = j)) as [->|Hij].
      * right. rewrite list_lookup_insert_eq in Hn by (rewrite (ct_nodes _ Hwf1); lia). split; [congruence|done].
      * left. rewrite list_lookup_insert_ne in Hc by congruence. rewrite list_lookup_insert_ne in Hn by congruence.
        destruct (Hfew i x n' Hc Hn) as (x' & ? & ?). by exists (table t), (pending_cap (ipc t)), x'.
    + intros (c' & pe & [= <- <- Hpe] & Hm). left. exists (table t), pe. by rewrite Hpe.
  - done.
  - intros s p c' pe. destruct (decide (s = slot)) as [->|Hs].
    + rewrite Hv, Hv0. intros [= <- <- <-]. eauto.
    + rewrite vtask_on_task, decide_False by done. intros Hs'. split; [by eapply (co_tables _ _ _ _ Hok)|eauto].
  - cbn [holds]. exists tb, (pending_cap (ipc t)), c. rewrite Hv, Hcs, Hns, !list_lookup_insert_eq; [done|rewrite (ct_nodes _ Hwf1); lia|lia].
Qed.

Lemma store_ok par k kids U fits slot t c n h k' : caps_ok par k kids U -> task k slot = Some t -> store fits k slot c n = Some (h, k') ->
  loose k (node_id n) -> node_ok par (mp k) n (AtSlot slot (pid t) (Z.to_nat (h &&& HANDLE_SLOT_MASK))) -> caps_ok par k' kids U.
Proof.
  intros Hok Ht Hs Hl Hn. destruct (store_holds _ _ _ _ _ _ _ _ _ _ _ Hok Ht Hs) as (Hh & Hd & Hv & _).
  eapply (caps_ok_more par k k' kids U n); try done.
  - unfold tree_of. by rewrite Hd.
  - by rewrite Hd.
  - intros s p c' pe H. by apply (Hv s p c' pe).
  - intros s p c' pe H. destruct (Hv _ _ _ _ H) as [_ [c0 Hc0]]. by apply (co_moves _ _ _ _ Hok s p c0).
Qed.

(** A new root stored. *)
Lemma store_root_ok par k kids U fits slot t c : caps_ok par k kids U -> task k slot = Some t -> 0 <= next_node (deriv k) ->
  let '(k1, n) := root k in
  match store fits k1 slot c n with Some (_, k2) => keeps par k U k2 | None => keeps par k U k1 end.
Proof.
  intros Hok Ht Hnn. unfold root. destruct (fresh k) as [k1 i] eqn:Hfr.
  assert (k1 = (fresh k).1 /\ i = next_node (deriv k) + 1) as [-> ->] by (by injection Hfr as <- <-).
  destruct (fresh_ok par k kids U 0 Hok (or_introl eq_refl) Hnn) as (Hi & Hm & Hl & Hok1).
  set (i := next_node (deriv k) + 1) in *. clear Hfr.
  assert (evolves par k U (<[i := 0]> par) (fresh k).1 U) as Hev.
  { split; try done. by apply insert_subseteq. }
  destruct (store fits (fresh k).1 slot c (MkNode i 0)) as [[h k2]|] eqn:Hs; [|by exists (<[i := 0]> par), kids, U].
  exists (<[i := 0]> par), kids, U. split.
  - eapply (store_ok _ _ _ _ _ slot t); [exact Hok1|done|exact Hs|done|]. split; cbn [node_id node_parent]; [by rewrite lookup_insert_eq|done|].
    intros e He. change (mp k !! i = Some e) in He. congruence.
  - destruct (store_holds _ _ _ _ _ _ _ _ _ _ _ Hok1 Ht Hs) as (_ & Hd & _).
    destruct Hev as [? ? ? Habs]. split; try done. intros j p Hj Hp Hn. unfold mp, tree_of. rewrite Hd. by apply (Habs j p).
Qed.

(** ** A copy entered under its source *)
Definition entered (grow : bool) k (source : Node) (a_s : At) (n : Node) (a : At) : Scheduler T Sp Po :=
  set_tree (enter grow (enter_source grow (tree_of k) source a_s) n a) k.

(** The depth a copy's source may have. *)
Definition shallow k (i : Z) : Prop := (optf (mp k !! i) 0%nat depth < DERIVE_DEPTH_MAX)%nat.

Lemma entered_ok par k kids U grow source a_s i a c : caps_ok par k kids U -> small k -> ix_spare (tree_of k) (S (S c)) ->
  holds k source a_s -> shallow k (node_id source) -> par !! i = Some (node_id source) -> mp k !! i = None -> loose k i ->
  let k' := entered grow k source a_s (MkNode i (node_id source)) a in
  exists kids', caps_ok par k' kids' U /\ node_ok par (mp k') (MkNode i (node_id source)) a /\
    (forall j p, par !! j = Some p -> p <> 0 -> j <> i -> mp k !! j = None -> mp k' !! j = None).
Proof.
  intros Hok Hsm Hs Hh Hsh Hpar Hi Hl k'. pose proof (small_few k Hsm) as Hfew. destruct Hsm as [Hfew2 Hnn].
  destruct (enter_source_ok par k kids U grow source a_s (S c) Hok Hh Hfew Hs) as (Hok1 & (e & He & Hpe) & Hs1 & Hold & Hnew & Hd).
  set (k1 := set_tree (enter_source grow (tree_of k) source a_s) k) in *.
  destruct (co_holds _ _ _ _ Hok source a_s Hh) as [Hps _ _]. destruct (co_ids _ _ _ _ Hok _ _ Hps) as [Hid _].
  assert (i <> node_id source) as Hne by (intros ->; congruence || (by destruct (Hl source a_s))).
  assert (few_entries (ix_live (tree_of k1))) as Hfew1.
  { eapply few_le; [exact Hfew2|]. rewrite (law_live _ (co_tree _ _ _ _ Hok1)), (law_live _ (co_tree _ _ _ _ Hok)).
    fold (mp k1) (mp k). rewrite <- !size_dom. transitivity (base.size ({[node_id source]} ∪ dom (mp k))).
    - apply subseteq_size. intros j. rewrite elem_of_union, elem_of_singleton, !elem_of_dom.
      destruct (decide (j = node_id source)) as [->|Hj]; [by left|]. right. by rewrite <- Hnew.
    - rewrite size_union_alt, size_singleton. pose proof (subseteq_size (dom (mp k) ∖ {[node_id source]}) (dom (mp k)) ltac:(set_solver)). lia. }
  destruct (enter_child_ok par k1 kids U grow i (node_id source) e a c Hok1 Hfew1 Hs1 He) as (kids' & Hok' & Hno & _ & Habs).
  - unfold shallow in Hsh. destruct (Hd e He) as [H0|H0]; [by rewrite H0 in Hsh|rewrite H0; unfold DERIVE_DEPTH_MAX; lia].
  - by rewrite Hnew.
  - done.
  - done.
  - lia.
  - exists kids'. split; [exact Hok'|]. split; [exact Hno|]. intros j p Hj Hp Hji Hn. apply Habs; [done|].
    destruct (decide (j = node_id source)) as [->|Hjs]; [|by rewrite Hnew].
    exfalso. assert (node_parent source <> 0) as Hp0 by congruence. destruct (no_entry _ _ _ _ (co_holds _ _ _ _ Hok _ _ Hh) Hp0). congruence.
Qed.

Lemma derive_shallow par k kids U i : caps_ok par k kids U -> derive_refused k i true = None -> shallow k i.
Proof.
  intros Hok. unfold derive_refused, shallow. rewrite law_get by apply Hok. fold (mp k). case_match; [done|]. cbn [andb].
  case_match eqn:Hd; [done|]. intros _. apply Nat.ltb_ge in Hd. lia.
Qed.

(** The capability a handle names, with its node. *)
Lemma cap_held par k kids U slot t h c i : caps_ok par k kids U -> task k slot = Some t -> cap (table t) h = Some c -> index (table t) h = Some i ->
  holds k (node_at (table t) i) (AtSlot slot (pid t) i).
Proof.
  intros Hok Ht Hc Hi. unfold cap, mbind, option_bind in Hc. rewrite Hi in Hc.
  destruct (cspace (table t) !! i) as [[x|]|] eqn:Hx; simplify_eq/=. pose proof (table_wf _ _ _ _ _ _ Hok Ht) as Hwf.
  destruct (nodes (table t) !! i) as [n|] eqn:Hn.
  - exists (table t), (pending_cap (ipc t)), c. unfold vtask, node_at. rewrite Ht, Hn. done.
  - apply lookup_ge_None in Hn. apply lookup_lt_Some in Hx. rewrite (ct_nodes _ Hwf) in Hn. lia.
Qed.

(** The state after a grown table: the invariant, and the handle still names its capability. *)
Lemma grown_held par k kids U fits slot t h c i : caps_ok par k kids U -> task k slot = Some t -> cap (table t) h = Some c ->
  index (table t) h = Some i -> exists t', task (grown fits k slot t).2 slot = Some t' /\ pid t' = pid t /\
    holds (grown fits k slot t).2 (node_at (table t) i) (AtSlot slot (pid t) i).
Proof.
  intros Hok Ht Hc Hi. destruct (grown_ok par k kids U fits slot t Hok Ht) as (_ & _ & _ & (t' & Ht' & Hp & _ & [l1 H1] & [l2 H2]) & _).
  exists t'. split; [done|]. split; [done|]. destruct (cap_held _ _ _ _ _ _ _ _ _ Hok Ht Hc Hi) as (c0 & pe & x & Hv & Hx & Hn).
  unfold vtask in Hv. rewrite Ht in Hv. injection Hv as <- <-. exists (table t'), (pending_cap (ipc t')), x.
  unfold vtask. rewrite Ht'. cbn. unfold seen. rewrite Hp, H1, H2. split; [done|]. split; by apply lookup_app_l_Some.
Qed.

(** ** The system calls on a task's own table *)

Lemma keeps_grown par k kids U fits slot t : caps_ok par k kids U -> task k slot = Some t -> keeps par k U (grown fits k slot t).2.
Proof.
  intros Hok Ht. destruct (grown_ok par k kids U fits slot t Hok Ht) as (H1 & H2 & _). exists par, kids, U. split; [done|].
  apply evolves_same. unfold mp, tree_of. by rewrite H2.
Qed.

(** A minted child stored and entered. *)
Lemma mint_store_ok par k kids U grow fits slot t i source child c : caps_ok par k kids U -> small k -> task k slot = Some t ->
  ix_spare (tree_of k) (S (S c)) -> holds k source (AtSlot slot (pid t) i) -> shallow k (node_id source) ->
  let '(k1, n) := fresh k in
  match store fits k1 slot child (MkNode n (node_id source)) with
  | None => keeps par k U k1
  | Some (h, k2) => keeps par k U (entered grow k2 source (AtSlot slot (pid t) i) (MkNode n (node_id source)) (AtSlot slot (pid t) (Z.to_nat (h &&& HANDLE_SLOT_MASK))))
  end.
Proof.
  intros Hok Hsm Ht Hs Hh Hsh. destruct (co_holds _ _ _ _ Hok _ _ Hh) as [Hps _ _].
  destruct (fresh_ok par k kids U (node_id source) Hok (or_intror (mk_is_Some _ _ Hps)) (proj2 Hsm)) as (Hi & Hm & Hl & Hok1).
  cbn [fresh]. set (n := next_node (deriv k) + 1) in *. set (k1 := (fresh k).1) in *. change (set_deriv _ k) with k1.
  assert (evolves par k U (<[n := node_id source]> par) k1 U) as Hev by (split; try done; by apply insert_subseteq).
  destruct (store fits k1 slot child (MkNode n (node_id source))) as [[h k2]|] eqn:Hst; [|by exists (<[n := node_id source]> par), kids, U].
  set (a := AtSlot slot (pid t) (Z.to_nat (h &&& HANDLE_SLOT_MASK))).
  assert (small k1) as Hsm1. { split; [apply Hsm|]. cbn. unfold n. destruct Hsm. lia. }
  destruct (entered_ok (<[n := node_id source]> par) k1 kids U grow source (AtSlot slot (pid t) i) n a c Hok1 Hsm1) as (kids' & Hok2 & Hno & Habs);
    [done|exact Hh|exact Hsh|by rewrite lookup_insert_eq|done|done|].
  destruct (store_holds _ _ _ _ _ _ _ _ _ _ _ Hok1 Ht Hst) as (_ & Hd & _).
  assert (store fits (entered grow k1 source (AtSlot slot (pid t) i) (MkNode n (node_id source)) a) slot child (MkNode n (node_id source)) =
    Some (h, entered grow k2 source (AtSlot slot (pid t) i) (MkNode n (node_id source)) a)) as Hst'.
  { unfold store, mbind, option_bind in Hst |- *. change (task (entered grow k1 source (AtSlot slot (pid t) i) (MkNode n (node_id source)) a) slot) with (task k1 slot).
    destruct (task k1 slot) as [t1|]; [|done]. destruct (insert_cap fits (table t1) child (MkNode n (node_id source))) as [[h1 tb]|]; [|done].
    by injection Hst as <- <-. }
  exists (<[n := node_id source]> par), kids', U. split.
  - eapply (store_ok _ _ _ _ _ slot t); [exact Hok2|done|exact Hst'|done|exact Hno].
  - split; [by apply insert_subseteq|done|done|].
    intros j p Hj Hp Hn. change (mp (entered grow k2 source (AtSlot slot (pid t) i) (MkNode n (node_id source)) a) !! j = None).
    assert (mp (entered grow k2 source (AtSlot slot (pid t) i) (MkNode n (node_id source)) a) = mp (entered grow k1 source (AtSlot slot (pid t) i) (MkNode n (node_id source)) a)) as ->.
    { unfold mp, entered. rewrite !tree_set_tree. unfold tree_of. by rewrite Hd. }
    apply (Habs j p); [|done|congruence|done]. rewrite lookup_insert_ne; [done|congruence].
Qed.

Lemma cap_mint_ok par k kids U grow fits slot m : caps_ok par k kids U -> small k -> keeps par k U (cap_mint grow fits k slot m).1.
Proof.
  intros Hok Hsm. unfold cap_mint. destruct (task k slot) as [t0|] eqn:Ht; [|by eapply keeps_refl].
  fold (grown fits k slot t0). pose proof (grown_ok par k kids U fits slot t0 Hok Ht) as (Hok1 & Hd1 & _).
  pose proof (keeps_grown par k kids U fits slot t0 Hok Ht) as Hk1.
  pose proof (fun h c i => grown_held par k kids U fits slot t0 h c i Hok Ht) as Hheld.
  destruct (grown fits k slot t0) as [ok k1]. cbn [snd] in *.
  destruct (cap (table t0) (arg1 m)) as [c|] eqn:Hc; [|done]. destruct (index (table t0) (arg1 m)) as [i|] eqn:Hi; [|done].
  destruct ok; [|done]. set (source := node_at (table t0) i) in *.
  destruct (mint c _ _ _ _) as [child|], (derive_refused k1 (node_id source) true) eqn:Hdr; try done.
  destruct (Hheld _ _ _ Hc Hi) as (t' & Ht' & Hpid & Hh).
  assert (small k1) as Hsm1 by (destruct Hsm as [H1 H2]; split; unfold tree_of; by rewrite Hd1).
  destruct (tree_room_ok par k1 kids U grow 1 Hok1 Hsm1 ltac:(done)) as (Hok2 & Hmp2 & Hsm2 & Hsp2 & Ht2 & Hn2 & _).
  destruct (tree_room grow k1 1) as [k2 room2] eqn:Hroom. cbn [fst snd] in *.
  assert (mp k2 = mp k) as Hmp by (rewrite Hmp2; unfold mp, tree_of; by rewrite Hd1).
  destruct room2; cbn [negb]; [|by eapply keeps_from, keeps_refl].
  apply (keeps_from par k2 k); [done|]. specialize (Hsp2 eq_refl). rewrite <- Ht2 in Ht'.
  assert (holds k2 source (AtSlot slot (pid t') i)) as Hh2.
  { rewrite Hpid. revert Hh. apply holds_ext. intros s. unfold vtask. by rewrite Ht2. }
  assert (shallow k2 (node_id source)) as Hsh.
  { unfold shallow. rewrite Hmp2. by apply (derive_shallow par k1 kids U). }
  pose proof (mint_store_ok par k2 kids U grow fits slot t' i source child 0 Hok2 Hsm2 Ht' Hsp2 Hh2 Hsh) as Hfin. rewrite Hpid in Hfin.
  destruct (fresh k2) as [k3 n]. destruct (store fits k3 slot child _) as [[h k4]|]; exact Hfin.
Qed.

(** A root stored after the table was grown; [g] changes what the invariant does not see. *)
Lemma grown_root_ok par k kids U fits slot t k1 c : caps_ok par k kids U -> 0 <= next_node (deriv k) -> task k slot = Some t ->
  same_view (grown fits k slot t).2 k1 ->
  let '(k2, n) := root k1 in
  match store fits k2 slot c n with Some (_, k3) => keeps par k U k3 | None => keeps par k U k2 end.
Proof.
  intros Hok Hnn Ht (Hv & Hd & Hl). destruct (grown_ok par k kids U fits slot t Hok Ht) as (Hok1 & Hd1 & _ & (t1 & Ht1 & _) & _).
  assert (caps_ok par k1 kids U) as Hok2.
  { eapply caps_ok_view; [exact Hok1|exact Hv| |by rewrite Hd]. unfold tree_of. by rewrite Hd. }
  assert (mp k1 = mp k) as Hmp by (unfold mp, tree_of; by rewrite Hd, Hd1).
  assert (is_Some (task k1 slot)) as [t2 Ht2].
  { specialize (Hv slot). unfold vtask in Hv. rewrite Ht1 in Hv. destruct (task k1 slot); [by eexists|done]. }
  pose proof (store_root_ok par k1 kids U fits slot t2 c Hok2 Ht2 ltac:(by rewrite Hd, Hd1)) as H.
  destruct (root k1) as [k2 n]. destruct (store fits k2 slot c n) as [[h k3]|]; by apply (keeps_from par k1 k).
Qed.

Lemma platform_store_ok par k kids U fits slot c : caps_ok par k kids U -> small k -> keeps par k U (platform_store fits k slot c).1.
Proof.
  intros Hok Hsm. unfold platform_store. destruct (task k slot) as [t|] eqn:Ht; [|by eapply keeps_refl].
  destruct (negb _); [by eapply keeps_refl|].
  fold (grown fits k slot t). pose proof (keeps_grown par k kids U fits slot t Hok Ht) as Hk1.
  pose proof (fun c => grown_root_ok par k kids U fits slot t (grown fits k slot t).2 c Hok (proj2 Hsm) Ht ltac:(apply same_view_refl)) as H.
  destruct (grown fits k slot t) as [ok k1]. cbn [snd] in *. destruct ok, c as [c|e]; try exact Hk1.
  specialize (H c). destruct (root k1) as [k2 n]. destruct (store fits k2 slot c n) as [[h k3]|]; exact H.
Qed.

Lemma save_reply_ok par k kids U fits slot : caps_ok par k kids U -> small k -> keeps par k U (save_reply fits k slot).1.
Proof.
  intros Hok Hsm. unfold save_reply. destruct (task k slot) as [t|] eqn:Ht; [|by eapply keeps_refl].
  fold (grown fits k slot t). pose proof (keeps_grown par k kids U fits slot t Hok Ht) as Hk1.
  pose proof (fun c => grown_root_ok par k kids U fits slot t (on_task (grown fits k slot t).2 slot (set_reply_to None)) c Hok (proj2 Hsm) Ht
    ltac:(by apply on_task_view)) as H.
  destruct (grown fits k slot t) as [ok k1]. cbn [snd] in *. destruct (reply_to (ipc t)) as [[[caller p] seq]|], ok; try exact Hk1.
  specialize (H (Reply caller p seq)). destruct (root _) as [k2 n]. destruct (store fits k2 slot _ n) as [[h k3]|]; exact H.
Qed.

Lemma endpoint_create_ok par k kids U grow fits slot : caps_ok par k kids U -> small k -> keeps par k U (endpoint_create grow fits k slot).1.
Proof.
  intros Hok Hsm. unfold endpoint_create. destruct (task k slot) as [t|] eqn:Ht; [|by eapply keeps_refl].
  assert (exists ep k0, match new_endpoint grow k with Some (e, k') => (Some e, k') | None => (None, k) end = (ep, k0) /\
    tasks k0 = tasks k /\ deriv k0 = deriv k) as (ep & k0 & -> & Hts & Hd0).
  { unfold new_endpoint. destruct (List.find _ _); [by eexists _, _|]. destruct grow; by eexists _, _. }
  assert (task k0 slot = Some t) as Ht0 by (unfold task; by rewrite Hts).
  assert (caps_ok par k0 kids U) as Hok0.
  { eapply caps_ok_view; [exact Hok| | |by rewrite Hd0]; [intros s; unfold vtask, task; by rewrite Hts|unfold tree_of; by rewrite Hd0]. }
  apply (keeps_from par k0 k); [unfold mp, tree_of; by rewrite Hd0|].
  assert (0 <= next_node (deriv k0)) as Hnn by (rewrite Hd0; apply Hsm).
  fold (grown fits k0 slot t). pose proof (keeps_grown par k0 kids U fits slot t Hok0 Ht0) as Hk1.
  pose proof (fun p c => grown_root_ok par k0 kids U fits slot t (set_ports p (grown fits k0 slot t).2) c Hok0 Hnn Ht0 ltac:(done)) as H.
  destruct (grown fits k0 slot t) as [ok k1]. cbn [snd] in *. destruct (_ <=? _); [exact Hk1|]. destruct ep as [e|], ok; try exact Hk1.
  cbv zeta. match goal with |- context [root (set_ports ?p k1)] => specialize (H p) end.
  specialize (H (Endpoint e ENDPOINT_ALL 0)). destruct (root _) as [k2 n]. destruct (store fits k2 slot _ n) as [[h k3]|]; exact H.
Qed.

Lemma cap_drop_ok par k kids U slot h : caps_ok par k kids U -> keeps par k U (cap_drop k slot h).1.
Proof.
  intros Hok. unfold cap_drop. destruct (index_of k slot h) as [i|]; [|by eapply keeps_refl]. cbn [fst].
  destruct (remove_ok par k kids U slot i Hok) as (kids' & U' & [[Hok' Hs]|[-> _]]); [|by eapply keeps_refl].
  exists par, kids', U'. split; [done|]. destruct (evolves_shrinks par _ _ _ _ _ _ Hs) as [A B C D]. by split.
Qed.
End run.
