(* ===== verification/CapIpc.v ===== *)
(** * Capabilities sent in messages keep the capability invariant

    Transfers ([transfer], [place], [arrived]), sends, deliveries, replies and timeouts: a copy is entered under its source
    when it is sent, a move keeps its node, a capability that will not arrive is forgotten. *)
From S2P Require Import Prelude Abi TaskState TreeIndex NodeIndex Caps UserHeap Kernel Derivation Forest CapOps CapTree Revoke Ipc CapRun.
Import TreeIndex.Tree(At, AtSlot, AtSend, Ghost, Entry, mkEntry, id, depth, at_, first, next, prev, maps, more_maps, FREE).

Section transfers.
Context {T Sp Po : Type} `{!NodeIndex T, !NodeIndexLaws T, !Space Sp, !Pool Po}.
Implicit Types (k : Scheduler T Sp Po) (t : Task Sp) (par : gmap Z Z) (U V : gset Z).

Lemma keeps_same_view par k U k1 k2 : keeps par k U k1 -> same_view k1 k2 -> keeps par k U k2.
Proof.
  intros (par' & kids' & U' & Hok & [A B C D]) (Hv & Hd & _). exists par', kids', U'. assert (mp k2 = mp k1) as Hm by (unfold mp, tree_of; by rewrite Hd).
  split; [|by split; rewrite ?Hm]. eapply caps_ok_view; [exact Hok|done| |by rewrite Hd]. unfold tree_of. by rewrite Hd.
Qed.

(** ** Entries that stay *)

(** Forgetting a node leaves every other derived node that is somewhere. *)
Lemma forget_n_stays par n : forall k kids U i j e, caps_ok par k kids U -> loose k i -> j <> i ->
  mp k !! j = Some e -> at_ e <> Ghost -> Tree.parent e <> 0 -> exists e', mp (forget_n n k i) !! j = Some e' /\ at_ e' <> Ghost.
Proof.
  induction n as [|n IH]; intros k kids U i j e Hok Hl Hji Hj Ha Hp; cbn [forget_n]; [eauto|].
  rewrite law_get by apply Hok. destruct (ix_map (tree_of k) !! i) as [ei|] eqn:He; [|eauto].
  destruct (derived k ei) eqn:Hd.
  { destruct (law_upd (tree_of k) i (with_at Ghost) (co_tree _ _ _ _ Hok)) as (_ & B & _); [done|].
    exists e. unfold mp. rewrite tree_set_tree, B, lookup_alter_ne by done. done. }
  destruct (drop_node_ok par k kids U i ei Hok He (derived_first _ _ Hd) (or_introl Hl)) as (kids1 & U1 & Hok1 & _ & Hm1).
  set (k1 := set_tree _ k) in *.
  assert (exists e1, mp k1 !! j = Some e1 /\ at_ e1 <> Ghost /\ Tree.parent e1 <> 0) as (e1 & He1 & Ha1 & Hp1).
  { destruct (munlink_fwd (mp k) i j e Hj) as (e1 & He1 & (_ & Hpar & _ & Hat & _)%erase_fields). exists e1.
    rewrite Hm1, lookup_delete_ne by done. split; [done|]. split; congruence. }
  rewrite law_get by apply Hok1. destruct (ix_map (tree_of k1) !! Tree.parent ei) as [pe|] eqn:Hpe; [|eauto].
  destruct (derived k1 pe) eqn:Hdp; [eauto|]. case_bool_decide as Hg.
  { apply (IH k1 kids1 U1 (Tree.parent ei) j e1); try done; [by eapply ghost_loose|]. intros ->. unfold mp in *. congruence. }
  destruct (Z.eqb_spec (Tree.parent pe) 0) as [Hz|]; [|eauto].
  destruct (law_remove (tree_of k1) (Tree.parent ei) (co_tree _ _ _ _ Hok1)) as (_ & B & _).
  exists e1. unfold mp. rewrite tree_set_tree, B, lookup_delete_ne; [done|]. intros <-. unfold mp in *. congruence.
Qed.

(** A node ready to be stored: nobody holds it, and if derived it has an entry that is neither a ghost nor taken out. *)
Definition unplaced par k U (n : Node) : Prop :=
  loose k (node_id n) /\ par !! node_id n = Some (node_parent n) /\ (node_id n ∉ U) /\
  (node_parent n <> 0 -> exists e, mp k !! node_id n = Some e /\ at_ e <> Ghost).

(** Emptying a slot for it. *)
Lemma remove_unplaced par k kids U to receive t : caps_ok par k kids U -> task k to = Some t -> (receive < length (cspace (table t)))%nat ->
  let k' := remove k to receive in
  exists kids' U', caps_ok par k' kids' U' /\ evolves par k U par k' U' /\ (forall n, unplaced par k U n -> unplaced par k' U' n) /\
    (forall i, loose k i -> loose k' i) /\ (forall i, shallow k i -> shallow k' i) /\ (small k -> small k') /\
    (forall m, ix_spare (tree_of k) m -> ix_spare (tree_of k') m) /\
    (exists t', task k' to = Some t' /\ pid t' = pid t /\ cspace (table t') !! receive = Some None) /\ (forall s, s <> to -> task k' s = task k s).
Proof.
  intros Hok Ht Hr k'. subst k'. unfold remove. rewrite Ht.
  destruct (cspace (table t) !! receive) as [[x|]|] eqn:Hx; cbn [mjoin option_join].
  3:{ apply lookup_ge_None in Hx. lia. }
  2:{ exists kids, U. split; [done|]. split; [by apply evolves_same|]. split_and!; try done; eauto. }
  pose proof (table_wf _ _ _ _ _ _ Hok Ht) as Hwf.
  destruct (nodes (table t) !! receive) as [nr|] eqn:Hn; [|apply lookup_ge_None in Hn; rewrite (ct_nodes _ Hwf) in Hn; lia].
  unfold node_at. rewrite Hn. change (default Node_default (Some nr)) with nr.
  set (k1 := with_table k to (fun c => clear_cap c receive)).
  assert (caps_ok par k1 kids U) as Hok1 by by apply clear_ok.
  assert (vtask k to = Some (pid t, table t, pending_cap (ipc t))) as Hv by (unfold vtask; by rewrite Ht).
  assert (loose k1 (node_id nr)) as Hl1 by (by eapply cleared_loose).
  destruct (forget_ok par k1 kids U (node_id nr) Hok1 Hl1) as (kids' & U' & Hok2 & Hs). exists kids', U'.
  assert (evolves par k U par (forget k1 (node_id nr)) U') as Hev by (destruct (evolves_shrinks par _ _ _ _ _ _ Hs); by split).
  assert (forall i, loose k i -> loose (forget k1 (node_id nr)) i) as Hloose.
  { intros i Hl. eapply loose_shrinks; [exact Hs|]. intros n' a Hh. apply (Hl n' a). revert Hh. apply holds_task_fewer. intros t' _. apply clear_fewer. }
  split; [done|]. split; [done|]. split_and!; try done.
  - intros n (Hl & Hpar & HU & Hent). split_and!; [by apply Hloose|done| |].
    { intros Hin. by apply HU, (ev_out _ _ _ _ _ _ Hev). }
    assert (node_id nr <> node_id n) as Hne. { apply (Hl nr (AtSlot to (pid t) receive)). by exists (table t), (pending_cap (ipc t)), x. }
    intros Hp. destruct (Hent Hp) as (e & He & Ha). apply (forget_n_stays par _ k1 kids U _ _ e); try done.
    pose proof (co_entries _ _ _ _ Hok _ _ He). congruence.
  - intros i. unfold shallow. destruct (mp (forget k1 (node_id nr)) !! i) as [e|] eqn:He; cbn [optf]; [|unfold DERIVE_DEPTH_MAX; lia].
    destruct (sh_entries _ _ _ _ _ _ Hs i e He) as (e0 & He0 & _). rewrite (sh_depth _ _ _ _ _ _ Hs i e e0 He He0).
    change (mp k !! i = Some e0) in He0. by rewrite He0.
  - intros [Hfew Hnn]. split; [|by rewrite (sh_next _ _ _ _ _ _ Hs)]. eapply few_le; [exact Hfew|].
    rewrite (law_live _ (co_tree _ _ _ _ Hok)), (law_live _ (co_tree _ _ _ _ Hok2)). fold (mp k) (mp (forget k1 (node_id nr))).
    rewrite <- !size_dom. apply Nat.add_le_mono_r, subseteq_size. intros i. rewrite !elem_of_dom.
    intros [e (e0 & ? & _)%(sh_entries _ _ _ _ _ _ Hs)]. by exists e0.
  - apply Hs.
  - exists (set_table (clear_cap (table t) receive) t). rewrite (sh_tasks _ _ _ _ _ _ Hs). unfold k1, with_table.
    rewrite task_on_task, decide_True, Ht by done. split; [done|]. split; [done|]. cbn. by apply list_lookup_insert_eq.
  - intros s Hs'. rewrite (sh_tasks _ _ _ _ _ _ Hs). unfold k1, with_table. by rewrite task_on_task, decide_False.
Qed.

(** ** A capability put in an empty fixed slot *)
Definition put (c : Capability) (n : Node) (receive : nat) (tb : CTable) : CTable :=
  MkCTable (<[receive := Some c]> (cspace tb)) (generations tb) (<[receive := n]> (nodes tb)).

Lemma put_wf c n r tb : ct_wf tb -> ct_wf (put c n r tb).
Proof. intros [A B C D E]. split; cbn [cspace generations nodes put]; by rewrite ?length_insert. Qed.

Lemma put_ok par k kids U to t receive c n : caps_ok par k kids U -> task k to = Some t -> cspace (table t) !! receive = Some None ->
  loose k (node_id n) -> node_ok par (mp k) n (AtSlot to (pid t) receive) -> caps_ok par (with_table k to (put c n receive)) kids U.
Proof.
  intros Hok Ht Hr Hl Hno. pose proof (table_wf _ _ _ _ _ _ Hok Ht) as Hwf.
  assert (vtask k to = Some (pid t, table t, pending_cap (ipc t))) as Hv by (unfold vtask; by rewrite Ht).
  assert (vtask (with_table k to (put c n receive)) to = Some (pid t, put c n receive (table t), pending_cap (ipc t))) as Hv'.
  { unfold with_table. rewrite vtask_on_task, decide_True, Ht by done. done. }
  assert (forall s, s <> to -> vtask (with_table k to (put c n receive)) s = vtask k s) as Hne.
  { intros s Hs. unfold with_table. by rewrite vtask_on_task, decide_False. }
  eapply (caps_ok_more par k _ kids U n (AtSlot to (pid t) receive)); try done.
  - intros n' [s p i|s p|]; cbn [holds]; [| |done]; (destruct (decide (s = to)) as [->|Hs]; [|rewrite Hne by done; by left]); rewrite Hv', Hv.
    + intros (c' & pe & x & [= <- <- <-] & Hc & Hn). cbn [put cspace nodes] in Hc, Hn. destruct (decide (i = receive)) as [->|Hi].
      * right. apply lookup_lt_Some in Hr. rewrite list_lookup_insert_eq in Hn by (rewrite (ct_nodes _ Hwf); lia). split; [congruence|done].
      * left. rewrite list_lookup_insert_ne in Hc by done. rewrite list_lookup_insert_ne in Hn by done. by exists (table t), (pending_cap (ipc t)), x.
    + intros (c' & pe & [= <- <- Hpe] & Hm). left. exists (table t), pe. by rewrite Hpe.
  - intros s p c' pe. destruct (decide (s = to)) as [->|Hs].
    + rewrite Hv'. intros [= <- <- <-]. by apply put_wf.
    + rewrite Hne by done. apply (co_tables _ _ _ _ Hok).
  - intros s p c' pe. destruct (decide (s = to)) as [->|Hs].
    + rewrite Hv'. intros [= <- <- Hpe]. apply (co_moves _ _ _ _ Hok to (pid t) (table t)). by rewrite Hv, Hpe.
    + rewrite Hne by done. apply (co_moves _ _ _ _ Hok).
Qed.

(** A node that is somewhere else in the tree, placed. *)
Lemma place_known par k kids U to t receive c n : caps_ok par k kids U -> unplaced par k U n -> task k to = Some t ->
  (receive < length (cspace (table t)))%nat ->
  keeps par k U (set_tree (ix_upd (tree_of (remove k to receive)) (node_id n) (with_at (AtSlot to (pid t) receive)))
    (with_table (remove k to receive) to (put c n receive))).
Proof.
  intros Hok Hun Ht Hr. destruct (remove_unplaced _ _ _ _ _ _ _ Hok Ht Hr)
    as (kids' & U' & Hok2 & Hev & Hun2 & _ & _ & _ & _ & (t' & Ht' & Hpid & Hc) & _). destruct (Hun2 _ Hun) as (Hl & Hpar & HU & Hent). clear Hun2.
  set (k2 := remove k to receive) in *. set (a := AtSlot to (pid t) receive).
  pose proof (relocate_ok par k2 kids' U' (node_id n) a Hok2 Hl (or_intror HU)) as Hok3.
  destruct (law_upd (tree_of k2) (node_id n) (with_at a) (co_tree _ _ _ _ Hok2)) as (_ & B & _); [done|].
  set (x := ix_upd _ _ _) in *. exists par, kids', U'. split.
  - change (set_tree x (with_table k2 to (put c n receive))) with (with_table (set_tree x k2) to (put c n receive)).
    apply (put_ok par (set_tree x k2) kids' U' to t'); try done. unfold mp. rewrite tree_set_tree, B. split; [done| |].
    + intros Hp. destruct (Hent Hp) as (e & He & _). unfold mp in He. rewrite lookup_alter_eq, He. by eexists.
    + intros e. rewrite lookup_alter_eq, fmap_Some. intros (e0 & _ & ->). cbn. by rewrite Hpid.
  - destruct Hev as [E1 E2 E3 E4].
    assert (forall i, is_Some (ix_map x !! i) <-> is_Some (mp k2 !! i)) as Hdom.
    { intros i. rewrite B, lookup_alter. unfold mp. case_decide; subst; [by rewrite fmap_is_Some|done]. }
    split; try done.
    + intros u Hu Hs. apply E3; [done|]. by apply Hdom.
    + intros i p Hi Hp Hn. apply eq_None_not_Some. intros Hs%Hdom. rewrite (E4 i p) in Hs by done. by destruct Hs.
Qed.

(** The node of an entry not taken out has its parent entered. *)
Lemma parent_entered par k kids U i e : caps_ok par k kids U -> mp k !! i = Some e -> Tree.parent e <> 0 -> (i ∉ U) -> is_Some (mp k !! Tree.parent e).
Proof.
  intros Hok He Hp HU. pose proof (co_forest _ _ _ _ Hok) as Hf.
  by destruct (fo_kids _ _ _ Hf _ _ (fo_in _ _ _ Hf i e He Hp HU)) as (_ & _ & ? & _).
Qed.

(** A held node is not one a revocation took out. *)
Lemma held_in par k kids U n a : caps_ok par k kids U -> holds k n a -> node_id n ∉ U.
Proof.
  intros Hok Hh HU. destruct (fo_out _ _ _ (co_forest _ _ _ _ Hok) _ HU) as [e He].
  destruct (co_gone _ _ _ _ Hok _ e HU He) as [Hg _]. rewrite (no_at _ _ _ _ (co_holds _ _ _ _ Hok n a Hh) e He) in Hg. by subst a.
Qed.

(** [arrived] of a copy whose entry is there. *)
Lemma arrived_entered par k kids U grow p a : caps_ok par k kids U -> pending_ok par p -> moved_from p = None -> unplaced par k U (p_node p) ->
  node_parent (p_node p) <> 0 ->
  enter grow (enter_source grow (tree_of k) (p_source p).1 (p_source p).2) (p_node p) a = ix_upd (tree_of k) (node_id (p_node p)) (with_at a).
Proof.
  intros Hok [_ Hsrc] Hm (_ & Hpar & HU & Hent) Hp. destruct (Hent Hp) as (e & He & _).
  pose proof (co_entries _ _ _ _ Hok _ _ He) as Hpe. assert (Tree.parent e = node_parent (p_node p)) as Hpe' by congruence.
  destruct (parent_entered _ _ _ _ _ _ Hok He) as [es Hes]; [congruence|done|].
  unfold enter_source. rewrite (law_get _ _ (co_tree _ _ _ _ Hok)), (Hsrc Hm), <- Hpe'. fold (mp k). rewrite Hes.
  unfold enter. rewrite (law_get _ _ (co_tree _ _ _ _ Hok)). fold (mp k). rewrite He.
  destruct (co_ids _ _ _ _ Hok _ _ Hpar). by rewrite (proj2 (Z.eqb_neq (node_id (p_node p)) 0)) by lia.
Qed.

(** [place] once the move's slot is empty: [k1]. *)
Definition placed grow k1 (to receive : nat) (p : Pending) : Scheduler T Sp Po :=
  let k2 := with_table (remove k1 to receive) to (put (p_cap p) (p_node p) receive) in
  match task k2 to with Some t => arrived grow k2 p (AtSlot to (pid t) receive) | None => k2 end.

Lemma placed_absent k1 to receive p grow : task k1 to = None -> placed grow k1 to receive p = with_table k1 to (put (p_cap p) (p_node p) receive).
Proof. intros Ht. unfold placed, remove. rewrite Ht. unfold with_table. by rewrite task_on_task, decide_True, Ht by done. Qed.

Lemma on_task_absent_view k s f : task k s = None -> same_view k (on_task k s f).
Proof.
  intros Hs. split; [|split; [done|by cbn; rewrite length_alter]]. intros s'. rewrite vtask_on_task. case_decide; [subst s'|done].
  unfold vtask. by rewrite Hs.
Qed.

Lemma placed_ok par k kids U grow to receive p : caps_ok par k kids U -> pending_ok par p -> (receive < SLOT_DYNAMIC)%nat ->
  unplaced par k U (p_node p) -> (moved_from p = None -> node_parent (p_node p) <> 0) -> keeps par k U (placed grow k to receive p).
Proof.
  intros Hok Hp Hr Hun Hcopy. destruct (task k to) as [t|] eqn:Ht.
  2:{ rewrite placed_absent by done. eapply keeps_same_view; [by eapply keeps_refl|]. by apply on_task_absent_view. }
  pose proof (ct_fixed _ (table_wf _ _ _ _ _ _ Hok Ht)) as Hlen. assert (receive < length (cspace (table t)))%nat as Hr' by lia.
  pose proof (place_known par k kids U to t receive (p_cap p) (p_node p) Hok Hun Ht Hr') as Hk.
  destruct (remove_unplaced _ _ _ _ _ _ _ Hok Ht Hr') as (kids' & U' & Hok2 & _ & Hun2 & _ & _ & _ & _ & (t' & Ht' & Hpid & _) & _).
  specialize (Hun2 _ Hun).
  unfold placed. unfold with_table at 1. rewrite task_on_task, decide_True, Ht' by done. cbn [fmap option_fmap option_map].
  change (pid (set_table _ t')) with (pid t'). rewrite Hpid. unfold arrived. destruct (moved_from p) eqn:Hm; [exact Hk|].
  change (tree_of (with_table (remove k to receive) to _)) with (tree_of (remove k to receive)).
  rewrite (arrived_entered par _ kids' U'); auto.
Qed.

(** [place] of a move, and of a copy already entered. *)
Lemma place_ok par k kids U grow from to receive p : caps_ok par k kids U -> pending_ok par p -> (receive < SLOT_DYNAMIC)%nat ->
  (moved_from p = None -> unplaced par k U (p_node p) /\ node_parent (p_node p) <> 0) -> keeps par k U (place grow k from to receive p).
Proof.
  intros Hok Hp Hr Hcopy. unfold place. destruct (moved_from p) as [i|] eqn:Hm; cbn [negb].
  2:{ destruct (Hcopy eq_refl) as [Hun Hz]. by apply (placed_ok par k kids U grow to receive p). }
  destruct (task k from) as [t|] eqn:Ht; [|by eapply keeps_refl].
  destruct (Z.eqb_spec (node_id (node_at (table t) i)) (node_id (p_node p))) as [Hid|]; [|by eapply keeps_refl].
  case_bool_decide as Hs; [|by eapply keeps_refl]. cbn [andb negb].
  pose proof (table_wf _ _ _ _ _ _ Hok Ht) as Hwf.
  assert (exists x, cspace (table t) !! i = Some (Some x)) as [x Hx].
  { destruct Hs as [x Hx]. exists x. by destruct (cspace (table t) !! i) as [[?|]|]; simplify_eq/=. }
  destruct (nodes (table t) !! i) as [n|] eqn:Hn.
  2:{ apply lookup_ge_None in Hn. apply lookup_lt_Some in Hx. rewrite (ct_nodes _ Hwf) in Hn. lia. }
  assert (node_at (table t) i = n) as Hna by (unfold node_at; by rewrite Hn). rewrite Hna in Hid.
  assert (holds k n (AtSlot from (pid t) i)) as Hh.
  { exists (table t), (pending_cap (ipc t)), x. split; [unfold vtask; by rewrite Ht|done]. }
  set (k1 := with_table k from (fun c => clear_cap c i)).
  apply (keeps_from par k1 k); [done|]. apply (placed_ok par k1 kids U grow to receive p); [by apply clear_ok|done|done| |congruence].
  destruct Hp as [Hpar _]. split_and!.
  - rewrite <- Hid. eapply cleared_loose; [exact Hok| |exact Hx|exact Hn]. unfold vtask. by rewrite Ht.
  - done.
  - rewrite <- Hid. by eapply held_in.
  - intros Hz. destruct (co_holds _ _ _ _ Hok n _ Hh) as [H1 H2 H3]. rewrite Hid in *. destruct H2 as [e He]; [congruence|].
    exists e. split; [done|]. by rewrite (H3 e He).
Qed.

(** ** Sends *)

(** A task's send set: nothing, a move, or a copy that is entered. *)
Lemma set_send_ok par k kids U slot t f : caps_ok par k kids U -> task k slot = Some t -> pid (f t) = pid t -> table (f t) = table t ->
  (forall pe, pending_cap (ipc (f t)) = Some pe -> pending_ok par pe /\
     (moved_from pe = None -> loose k (node_id (p_node pe)) /\ node_ok par (mp k) (p_node pe) (AtSend slot (pid t)) /\ node_parent (p_node pe) <> 0)) ->
  caps_ok par (on_task k slot f) kids U.
Proof.
  intros Hok Ht Hp Htb Hpe. pose proof (table_wf _ _ _ _ _ _ Hok Ht) as Hwf.
  assert (vtask k slot = Some (pid t, table t, pending_cap (ipc t))) as Hv by (unfold vtask; by rewrite Ht).
  assert (vtask (on_task k slot f) slot = Some (pid t, table t, pending_cap (ipc (f t)))) as Hv'.
  { rewrite vtask_on_task, decide_True, Ht by done. cbn. unfold seen. by rewrite Hp, Htb. }
  assert (forall s, s <> slot -> vtask (on_task k slot f) s = vtask k s) as Hne by (intros; by rewrite vtask_on_task, decide_False).
  assert (forall s p c pe, vtask (on_task k slot f) s = Some (p, c, pe) -> ct_wf c) as Hw.
  { intros s p c pe. destruct (decide (s = slot)) as [->|Hs]; [rewrite Hv'; by intros [= <- <- <-]|]. rewrite Hne by done. apply (co_tables _ _ _ _ Hok). }
  assert (forall s p c pe, vtask (on_task k slot f) s = Some (p, c, Some pe) -> pending_ok par pe) as Hm.
  { intros s p c pe. destruct (decide (s = slot)) as [->|Hs]; [rewrite Hv'; intros [= <- <- H]; by apply Hpe|].
    rewrite Hne by done. apply (co_moves _ _ _ _ Hok). }
  assert (forall n s p i, holds (on_task k slot f) n (AtSlot s p i) -> holds k n (AtSlot s p i)) as Hsl.
  { intros n s p i. cbn [holds]. destruct (decide (s = slot)) as [->|Hs]; [|by rewrite Hne]. rewrite Hv', Hv.
    intros (c & pe & x & [= <- <- <-] & H). by exists (table t), (pending_cap (ipc t)), x. }
  destruct (pending_cap (ipc (f t))) as [pe|] eqn:Hpc.
  - destruct (moved_from pe) as [i|] eqn:Hmv.
    + apply (caps_ok_fewer par k); try done. intros n [s p i'|s p|]; [apply Hsl| |done]. cbn [holds].
      destruct (decide (s = slot)) as [->|Hs]; [|by rewrite Hne]. rewrite Hv'. intros (c & pe' & [= <- <- <-] & ? & _). congruence.
    + destruct (Hpe pe eq_refl) as (_ & H). destruct (H Hmv) as (Hl & Hno & Hz).
      eapply (caps_ok_more par k _ kids U (p_node pe) (AtSend slot (pid t))); try done.
      intros n [s p i'|s p|]; [left; by apply Hsl| |done]. cbn [holds]. destruct (decide (s = slot)) as [->|Hs]; [|rewrite Hne by done; by left].
      rewrite Hv'. intros (c & pe' & [= <- <- <-] & _ & <-). by right.
  - apply (caps_ok_fewer par k); try done. intros n [s p i'|s p|]; [apply Hsl| |done]. cbn [holds].
    destruct (decide (s = slot)) as [->|Hs]; [|by rewrite Hne]. rewrite Hv'. by intros (c & pe' & [= ] & _).
Qed.

(** A send taken from its sender. *)
Lemma taken_unplaced par k kids U from t p : caps_ok par k kids U -> task k from = Some t -> pending_cap (ipc t) = Some p -> moved_from p = None ->
  unplaced par (on_task k from (set_pending None)) U (p_node p) /\ node_parent (p_node p) <> 0.
Proof.
  intros Hok Ht Hp Hm. assert (holds k (p_node p) (AtSend from (pid t))) as Hh.
  { exists (table t), p. split; [unfold vtask; rewrite Ht; cbn; unfold seen; by rewrite Hp|done]. }
  pose proof (co_sent _ _ _ _ Hok _ _ _ Hh) as Hz. destruct (co_holds _ _ _ _ Hok _ _ Hh) as [H1 H2 H3]. split; [|done]. split_and!.
  - intros n a Hn Heq. assert (holds k n a) as Hn' by (revert Hn; apply holds_task_fewer; intros; apply take_send_fewer).
    pose proof (co_unique _ _ _ _ Hok _ _ _ _ Hn' Hh Heq) as ->. cbn [holds] in Hn.
    rewrite vtask_on_task, decide_True, Ht in Hn by done. by destruct Hn as (c & pe & [= ] & _).
  - done.
  - by eapply held_in.
  - intros _. destruct (H2 Hz) as [e He]. exists e. split; [done|]. by rewrite (H3 e He).
Qed.

Lemma forget_send_ok par k kids U p : caps_ok par k kids U -> (forall pe, p = Some pe -> moved_from pe = None -> loose k (node_id (p_node pe))) ->
  keeps par k U (forget_send k p).
Proof.
  intros Hok Hl. destruct p as [pe|]; cbn [forget_send]; [|by eapply keeps_refl]. case_bool_decide as Hm; [|by eapply keeps_refl].
  destruct (forget_ok par k kids U _ Hok (Hl pe eq_refl Hm)) as (kids' & U' & Hok' & Hs). exists par, kids', U'.
  split; [done|]. by eapply evolves_shrinks.
Qed.

(** The send of the task in [from] taken, and placed or forgotten. *)
Definition hand_over grow k (from to receive : nat) (delivered : bool) (cap : option Pending) : Scheduler T Sp Po :=
  let k := on_task k from (set_pending None) in
  match cap with Some p => if delivered then place grow k from to receive p else forget_send k cap | None => k end.

Lemma hand_over_ok par k kids U grow from t to receive delivered : caps_ok par k kids U -> task k from = Some t ->
  (delivered = true -> receive < SLOT_DYNAMIC)%nat -> keeps par k U (hand_over grow k from to receive delivered (pending_cap (ipc t))).
Proof.
  intros Hok Ht Hr. unfold hand_over. set (k0 := on_task k from (set_pending None)).
  assert (caps_ok par k0 kids U) as Hok0 by (apply caps_ok_task_fewer; [done|]; intros; apply take_send_fewer).
  apply (keeps_from par k0 k); [done|]. destruct (pending_cap (ipc t)) as [p|] eqn:Hp; [|by eapply keeps_refl].
  destruct delivered.
  - eapply place_ok; [done| |by apply Hr|intros; by eapply taken_unplaced].
    apply (co_moves _ _ _ _ Hok from (pid t) (table t)). unfold vtask. rewrite Ht. cbn. unfold seen. by rewrite Hp.
  - apply (forget_send_ok par k0 kids U); [done|]. intros pe [= <-] Hm. by apply (taken_unplaced par k kids U from t p).
Qed.

(** ** What leaves capabilities alone *)
Lemma make_ready_view k s : same_view k (make_ready k s).
Proof. unfold make_ready. destruct (task k s); [|done]. by apply (on_task_view k s (set_state Ready)). Qed.
Lemma fail_reply_view k s : same_view k (fail_reply k s).
Proof. eapply same_view_trans; [|apply make_ready_view]. by apply on_task_view. Qed.
Lemma kernel_message_view k s m : same_view k (kernel_message k s m).
Proof. eapply same_view_trans; [|apply make_ready_view]. by apply on_task_view. Qed.
Lemma notify_exit_view k s p r : same_view k (notify_exit k s p r).
Proof. unfold notify_exit. eapply same_view_trans; [|apply kernel_message_view]. done. Qed.
Lemma calm_view k irq : same_view k (calm k irq).
Proof. unfold calm. repeat case_match; done. Qed.
Lemma deadline_view k now w : same_view k (deadline_of k now w).1.
Proof. unfold deadline_of. by case_match. Qed.
Lemma count_timeout_view k s : same_view k (count_timeout k s).
Proof. by destruct s. Qed.

Lemma deliver_ok par k kids U grow from to : caps_ok par k kids U -> keeps par k U (deliver grow k from to).
Proof.
  intros Hok. unfold deliver. destruct (task k from) as [sender|] eqn:Hf; [|by eapply keeps_refl].
  destruct (task k to) as [receiver|] eqn:Ht; [|by eapply keeps_refl].
  set (receive := _ &&& RECEIVE_MASK). set (delivered := bool_decide _ && _ && _).
  fold (hand_over grow k from to (Z.to_nat receive) delivered (pending_cap (ipc sender))).
  assert (keeps par k U (hand_over grow k from to (Z.to_nat receive) delivered (pending_cap (ipc sender)))) as Hk.
  { apply (hand_over_ok par k kids U); [done|done|]. unfold delivered. rewrite !andb_true_iff, Z.leb_le, Z.ltb_lt. lia. }
  eapply keeps_same_view; [exact Hk|]. set (k1 := hand_over _ _ _ _ _ _ _). clearbody k1 delivered receive.
  cbv zeta. match goal with |- context [make_ready (on_task k1 to ?f) to] => set (k2 := make_ready (on_task k1 to f) to) end.
  match goal with |- context [on_task k2 to ?f] => set (k3 := on_task k2 to f) end.
  assert (same_view k1 k3) as H3.
  { eapply same_view_trans; [|by apply on_task_view]. eapply same_view_trans; [|apply make_ready_view]. by apply on_task_view. }
  clearbody k3. eapply same_view_trans; [exact H3|]. destruct (pending_call (ipc sender)).
  - eapply same_view_trans; [|by apply on_task_view]. match goal with |- same_view _ (match reply_to (ipc receiver) with _ => _ end) => idtac end.
    match goal with |- context [on_task (on_task k3 from ?f) to ?g] => set (k4 := on_task (on_task k3 from f) to g) end.
    assert (same_view k3 k4) as H4 by (eapply same_view_trans; by apply on_task_view). eapply same_view_trans; [exact H4|].
    destruct (reply_to (ipc receiver)) as [[[old op] os]|]; [|done]. case_match; [apply fail_reply_view|done].
  - eapply same_view_trans; [|apply make_ready_view]. by apply on_task_view.
Qed.

(** ** Timeouts *)
Lemma expire_at_ok par k kids U now w slot : caps_ok par k kids U -> keeps par k U (expire_at now (k, w) slot).1.
Proof.
  intros Hok. unfold expire_at. destruct (task k slot) as [t|] eqn:Ht; [|by eapply keeps_refl].
  case_match; [by eapply keeps_refl|]. case_match; [eapply keeps_same_view; [by eapply keeps_refl|done]|]. cbn [fst]. cbv zeta.
  assert (same_view k (count_timeout k (state t))) as (Hv & Hd & _) by apply count_timeout_view.
  assert (task (count_timeout k (state t)) slot = Some t) as Ht1 by (by destruct (state t)).
  set (k1 := count_timeout k (state t)) in *.
  assert (caps_ok par k1 kids U) as Hok1. { eapply caps_ok_view; [done|done| |by rewrite Hd]. unfold tree_of. by rewrite Hd. }
  apply (keeps_from par k1 k); [unfold mp, tree_of; by rewrite Hd|]. clearbody k1.
  set (f := fun t => set_deadline 0 (set_pending None (set_state Ready t))).
  assert (same_view (on_task k1 slot (set_pending None)) (mark (on_task k1 slot f) (cpu t))) as (Hv2 & Hd2 & _).
  { split_and!; [|done|cbn; by rewrite !length_alter]. intros s. change (vtask (mark (on_task k1 slot f) (cpu t)) s) with (vtask (on_task k1 slot f) s).
    by rewrite !vtask_on_task. }
  set (k2 := mark _ _) in *.
  assert (caps_ok par k2 kids U) as Hok2.
  { eapply caps_ok_view; [|exact Hv2|unfold tree_of; by rewrite Hd2|by rewrite Hd2].
    apply caps_ok_task_fewer; [done|]. intros; apply take_send_fewer. }
  apply (keeps_from par k2 k1); [done|]. eapply keeps_same_view; [|by apply on_task_view].
  apply (forget_send_ok par k2 kids U); [done|]. intros pe Hpe Hm. destruct (taken_unplaced par k1 kids U slot t pe Hok1 Ht1 Hpe Hm) as [[Hl _] _].
  intros n a Hh. apply (Hl n a). revert Hh. by apply holds_ext.
Qed.

Lemma keeps_foldl {A} (f : Scheduler T Sp Po * bool -> A -> Scheduler T Sp Po * bool) l :
  (forall par k kids U w x, caps_ok par k kids U -> keeps par k U (f (k, w) x).1) ->
  forall par k kids U w, caps_ok par k kids U -> keeps par k U (foldl f (k, w) l).1.
Proof.
  intros Hf. induction l as [|x l IH]; intros par k kids U w Hok; [by eapply keeps_refl|]. cbn [foldl].
  pose proof (Hf par k kids U w x Hok) as Hk. destruct (f (k, w) x) as [k1 w1]. eapply keeps_trans; [done|exact Hk|]. intros. by eapply IH.
Qed.

Lemma expire_ok par k kids U now : caps_ok par k kids U -> keeps par k U (expire k now).1.
Proof.
  intros Hok. unfold expire. set (k1 := set_ports _ k). apply (keeps_from par k1 k); [done|].
  apply (keeps_foldl (expire_at now) _) with (kids := kids); [intros; by eapply expire_at_ok|]. by apply (caps_ok_view par k).
Qed.

(** ** Receiving *)
Lemma ipc_recv_ok par k kids U grow slot now request : caps_ok par k kids U -> keeps par k U (ipc_recv grow k slot now request).1.
Proof.
  intros Hok. pose proof (keeps_refl _ _ _ _ Hok) as Hr. unfold ipc_recv. destruct (cap_of _ _ _) as [c|]; [|exact Hr].
  destruct c as [ep rights b| | | | | | | | | | | | | | | | ]; try exact Hr.
  destruct (negb _); [exact Hr|]. destruct (pending_line k ep) as [[irq i]|]; cbn [fst].
  - eapply keeps_same_view; [exact Hr|]. eapply same_view_trans; [|apply kernel_message_view].
    eapply same_view_trans; [|apply calm_view]. by case_match.
  - destruct (position _ _) as [i|].
    + destruct (default _ _) as [[? p'] reason]. cbn [fst]. eapply keeps_same_view; [exact Hr|].
      eapply same_view_trans; [|apply notify_exit_view]. done.
    + destruct (oldest_send k ep) as [sender|]; [by eapply deliver_ok|].
      pose proof (deadline_view k now (arg2 request)) as Hd. destruct (deadline_of _ _ _) as [k1 d]. cbn [fst] in *.
      eapply keeps_same_view; [exact Hr|]. eapply same_view_trans; [exact Hd|]. by apply on_task_view.
Qed.

(** ** A capability to hand over *)

(** [transfer_refused] when it does not refuse. *)
Lemma transfer_room par k kids U grow slot h mask : caps_ok par k kids U -> small k ->
  let k' := (transfer_refused grow k slot h mask).1 in
  caps_ok par k' kids U /\ small k' /\ mp k' = mp k /\ (forall s, task k' s = task k s) /\ next_node (deriv k') = next_node (deriv k) /\
  ((transfer_refused grow k slot h mask).2 = None -> has mask CAP_TRANSFER_MOVE = false -> h <> 0 ->
   forall t i, task k slot = Some t -> index (table t) h = Some i -> ix_spare (tree_of k') 2 /\ shallow k' (node_id (node_at (table t) i))).
Proof.
  intros Hok Hsm. unfold transfer_refused, mbind, option_bind. destruct (task k slot) as [t|] eqn:Ht; [|split_and!; try done].
  destruct (index (table t) h) as [i|] eqn:Hi; [|split_and!; try done; intros; simplify_eq].
  destruct (Z.eqb_spec h 0) as [Hz|Hz]; [split_and!; done|].
  destruct (derive_refused k _ _) eqn:Hd; [split_and!; done|].
  destruct (has mask CAP_TRANSFER_MOVE) eqn:Hm; cbn [negb] in *; [split_and!; done|].
  pose proof (tree_room_ok par k kids U grow 1 Hok Hsm ltac:(done)) as (A & B & C & D & E & F & _).
  destruct (tree_room grow k 1) as [k1 ok]. cbn [fst snd] in *. split_and!; try done. intros Hn _ _ t' i' [= <-] Hi'. simplify_eq.
  destruct ok; [|done]. split; [by apply D|]. unfold shallow. rewrite B. by apply (derive_shallow par k kids U).
Qed.

(** What [transfer] makes: nothing, a move of a known node, or a copy under a new identity whose source is held. *)
Record sendable k slot (par' : gmap Z Z) k' (p : Pending) : Prop := {
  se_pending : pending_ok par' p;
  se_loose : moved_from p = None -> loose k' (node_id (p_node p)) /\ mp k' !! node_id (p_node p) = None;
  se_source : moved_from p = None -> node_parent (p_node p) = node_id (p_source p).1 /\ 0 < node_parent (p_node p) /\
    shallow k' (node_id (p_source p).1) /\ holds k' (p_source p).1 (p_source p).2;
  se_from : moved_from p = None -> exists t i, task k slot = Some t /\ (p_source p).2 = AtSlot slot (pid t) i;
}.

Lemma sendable_view k slot par' k3 k4 p : (forall s, vtask k4 s = vtask k3 s) -> mp k4 = mp k3 -> sendable k slot par' k3 p -> sendable k slot par' k4 p.
Proof.
  intros Hv Hm [S1 S2 S3 S4]. assert (forall n a, holds k4 n a <-> holds k3 n a) as Hh by (intros; by apply holds_ext).
  split; try done; unfold shallow, loose; rewrite Hm.
  - intros Hn. destruct (S2 Hn) as [Hl ?]. split; [|done]. intros n a ?%Hh. by eapply Hl.
  - intros Hn. rewrite Hh. exact (S3 Hn).
Qed.

Lemma transfer_ok par k kids U slot h mask : caps_ok par k kids U -> small k ->
  (has mask CAP_TRANSFER_MOVE = false -> h <> 0 -> forall t i, task k slot = Some t -> index (table t) h = Some i -> shallow k (node_id (node_at (table t) i))) ->
  let '(k', cap) := transfer k slot h mask in
  exists par', caps_ok par' k' kids U /\ evolves par k U par' k' U /\ small k' /\ tree_of k' = tree_of k /\ (forall s, task k' s = task k s) /\
    forall p, cap = Some p -> sendable k slot par' k' p /\ has mask CAP_TRANSFER_MOVE = bool_decide (is_Some (moved_from p)) /\
      h <> 0 /\ (moved_from p = None -> par !! node_id (p_node p) = None) /\ exists t i, task k slot = Some t /\ index (table t) h = Some i.
Proof.
  intros Hok Hsm Hsh. unfold transfer, mbind, option_bind. destruct (Z.eqb_spec h 0) as [Hz|Hz]; [exists par; split_and!; try done; by apply evolves_same|].
  assert (exists par', caps_ok par' k kids U /\ evolves par k U par' k U /\ small k /\ tree_of k = tree_of k /\ (forall s, task k s = task k s) /\
    forall p, None = Some p -> sendable k slot par' k p /\ has mask CAP_TRANSFER_MOVE = bool_decide (is_Some (moved_from p)) /\ h <> 0 /\
    (moved_from p = None -> par !! node_id (p_node p) = None) /\ exists t i, task k slot = Some t /\ index (table t) h = Some i) as Hnone.
  { exists par. split_and!; done. }
  destruct (task k slot) as [t|] eqn:Ht; [|exact Hnone]. destruct (index (table t) h) as [i|] eqn:Hi; [|exact Hnone].
  destruct (cap (table t) h) as [c|] eqn:Hc; [|exact Hnone]. destruct (narrowed c mask) as [c'|]; [|exact Hnone].
  destruct (move_only c' && _); [exact Hnone|]. destruct (_ && _ && _); [exact Hnone|]. clear Hnone.
  pose proof (cap_held _ _ _ _ _ _ _ _ _ Hok Ht Hc Hi) as Hh. set (source := node_at (table t) i) in *.
  destruct (co_holds _ _ _ _ Hok _ _ Hh) as [Hps _ _]. destruct (co_ids _ _ _ _ Hok _ _ Hps) as [Hid _].
  destruct (has mask CAP_TRANSFER_MOVE) eqn:Hm.
  { exists par. split_and!; try done. intros p [= <-]. split; [split; cbn; done|]. cbn. split_and!; try done. by exists t, i. }
  destruct (fresh_ok par k kids U (node_id source) Hok (or_intror (mk_is_Some _ _ Hps)) (proj2 Hsm)) as (Hp & Hmn & Hl & Hok1).
  cbn [fresh]. set (n := next_node (deriv k) + 1) in *. set (k1 := (fresh k).1) in *. change (set_deriv _ k) with k1.
  exists (<[n := node_id source]> par). split_and!; try done.
  - split; try done. by apply insert_subseteq.
  - split; [apply Hsm|]. cbn. destruct Hsm. lia.
  - intros p [= <-]. split; [|cbn; split_and!; try done; by exists t, i]. split; cbn [p_node p_source moved_from fst snd node_id node_parent]; try done.
    + split; cbn; [by rewrite lookup_insert_eq|done].
    + intros _. split; [done|]. split; [lia|]. split; [by eapply Hsh|exact Hh].
    + intros _. by exists t, i.
Qed.

(** The copy of a transfer entered, wherever it goes. *)
Lemma sendable_entered par k kids U slot par' k' p grow a c : caps_ok par' k' kids U -> small k' -> ix_spare (tree_of k') (S (S c)) ->
  sendable k slot par' k' p -> moved_from p = None ->
  let x := enter grow (enter_source grow (tree_of k') (p_source p).1 (p_source p).2) (p_node p) a in
  exists kids', caps_ok par' (set_tree x k') kids' U /\ node_ok par' (mp (set_tree x k')) (p_node p) a /\
    (forall j q, par' !! j = Some q -> q <> 0 -> j <> node_id (p_node p) -> mp k' !! j = None -> mp (set_tree x k') !! j = None).
Proof.
  intros Hok Hsm Hs [[Hpar _] Hl Hsrc _] Hm. destruct (Hl Hm) as [Hl1 Hl2]. destruct (Hsrc Hm) as (H1 & H2 & H3 & H4).
  assert (p_node p = MkNode (node_id (p_node p)) (node_id (p_source p).1)) as Hn by (rewrite <- H1; by destruct (p_node p)).
  rewrite Hn. cbn [node_id]. apply (entered_ok par' k' kids U grow (p_source p).1 (p_source p).2 (node_id (p_node p)) a c); try done. congruence.
Qed.

(** ** Sending *)

(** A send recorded in its task, and a copy entered there. *)
Definition posted grow k (slot : nat) (f : Task Sp -> Task Sp) (cap : option Pending) : Scheduler T Sp Po :=
  let k := on_task k slot f in
  match cap, task k slot with
  | Some p, Some t => if bool_decide (moved_from p = None) then arrived grow k p (AtSend slot (pid t)) else k
  | _, _ => k
  end.

Lemma posted_ok par0 k0 par k kids U grow slot t f cap : caps_ok par k kids U -> small k -> task k slot = Some t ->
  pid (f t) = pid t -> table (f t) = table t -> pending_cap (ipc (f t)) = cap ->
  (forall p, cap = Some p -> sendable k0 slot par k p /\ (moved_from p = None -> ix_spare (tree_of k) 2)) ->
  evolves par0 k0 U par k U ->
  (forall p, cap = Some p -> moved_from p = None -> par0 !! node_id (p_node p) = None) -> keeps par0 k0 U (posted grow k slot f cap).
Proof.
  intros Hok Hsm Ht Hp Htb Hc Hse Hev Hnew. unfold posted. rewrite task_on_task, decide_True, Ht by done. cbn [fmap option_fmap option_map]. rewrite Hp.
  destruct cap as [p|].
  2:{ exists par, kids, U. split; [|by destruct Hev]. apply (set_send_ok par k kids U slot t f); try done. by rewrite Hc. }
  destruct (Hse p eq_refl) as [Hs Hspare]. case_bool_decide as Hm.
  2:{ exists par, kids, U. split; [|by destruct Hev]. apply (set_send_ok par k kids U slot t f); try done.
      rewrite Hc. intros pe [= <-]. split; [apply Hs|done]. }
  unfold arrived. rewrite Hm. change (tree_of (on_task k slot f)) with (tree_of k).
  destruct (sendable_entered par0 k0 kids U slot par k p grow (AtSend slot (pid t)) 0 Hok Hsm (Hspare Hm) Hs Hm) as (kids' & Hok' & Hno & Habs).
  set (x := enter _ _ _ _) in *. change (set_tree x (on_task k slot f)) with (on_task (set_tree x k) slot f).
  destruct (se_source _ _ _ _ _ Hs Hm) as (_ & Hz & _). destruct (se_loose _ _ _ _ _ Hs Hm) as [Hl _].
  exists par, kids', U. split.
  - apply (set_send_ok par (set_tree x k) kids' U slot t f); try done. rewrite Hc. intros pe [= <-]. split; [apply Hs|].
    intros _. split; [exact Hl|]. split; [exact Hno|lia].
  - destruct Hev as [E1 E2 E3 E4]. split; try done. intros i q Hi Hq Hn.
    apply (Habs i q); [by eapply lookup_weaken|done| |by eapply E4]. intros ->. rewrite Hnew in Hi by done. done.
Qed.

(** [transfer_refused], what is counted, and [transfer], when the endpoint or the reply grants. *)
Lemma prepare_ok par k kids U grow (g : bool) slot h mask : caps_ok par k kids U -> small k ->
  let '(k1, refused) := if g then transfer_refused grow k slot h mask else (k, None) in
  keeps par k U k1 /\ (refused = None -> forall k2, (forall s, task k2 s = task k1 s) -> deriv k2 = deriv k1 ->
    let '(k3, cap) := if g then transfer k2 slot h mask else (k2, None) in
    exists par', caps_ok par' k3 kids U /\ evolves par k U par' k3 U /\ small k3 /\ mp k3 = mp k /\ (forall s, task k3 s = task k s) /\
      forall p, cap = Some p -> (sendable k slot par' k3 p /\ (moved_from p = None -> ix_spare (tree_of k3) 2)) /\
        (moved_from p = None -> par !! node_id (p_node p) = None)).
Proof.
  intros Hok Hsm. destruct g.
  2:{ split; [by eapply keeps_refl|]. intros _ k2 Ht2 Hd2. exists par.
      assert (mp k2 = mp k) as Hmp by (unfold mp, tree_of; by rewrite Hd2). split_and!; try done; [|by apply evolves_same|].
      - apply (caps_ok_view par k); [done| |unfold tree_of; by rewrite Hd2|by rewrite Hd2]. intros s. unfold vtask. by rewrite Ht2.
      - unfold small, tree_of. by rewrite Hd2. }
  destruct (transfer_room par k kids U grow slot h mask Hok Hsm) as (Hok1 & Hsm1 & Hm1 & Ht1 & Hn1 & Hroom).
  destruct (transfer_refused grow k slot h mask) as [k1 refused]. cbn [fst snd] in *.
  split; [apply (keeps_from par k1 k); [done|by eapply keeps_refl]|]. intros -> k2 Ht2 Hd2. specialize (Hroom eq_refl).
  assert (caps_ok par k2 kids U) as Hok2.
  { apply (caps_ok_view par k1); [done| |unfold tree_of; by rewrite Hd2|by rewrite Hd2]. intros s. unfold vtask. by rewrite Ht2. }
  assert (tree_of k2 = tree_of k1) as Htr2 by (unfold tree_of; by rewrite Hd2).
  assert (small k2) as Hsm2 by (unfold small, tree_of; by rewrite Hd2).
  assert (mp k2 = mp k) as Hm2 by (unfold mp; by rewrite Htr2).
  assert (forall s, task k2 s = task k s) as Hts by (intros; by rewrite Ht2).
  pose proof (transfer_ok par k2 kids U slot h mask Hok2 Hsm2) as Htr. destruct (transfer k2 slot h mask) as [k3 cap].
  destruct Htr as (par' & Hok3 & Hev & Hsm3 & Htr3 & Ht3 & Hc).
  { intros Hmv Hh t i Ht Hi. rewrite Hts in Ht. destruct (Hroom Hmv Hh t i Ht Hi) as [_ Hsh]. unfold shallow in *. unfold mp. by rewrite Htr2. }
  exists par'. split_and!; try done.
  - destruct Hev as [A B C D]. rewrite Hm2 in D. by split.
  - unfold mp. by rewrite Htr3.
  - intros s. by rewrite Ht3.
  - intros p Hp. destruct (Hc p Hp) as ([S1 S2 S3 S4] & Hmv & Hh & Hnew & t & i & Ht & Hi). rewrite Hts in *. split; [|done]. split.
    + by split.
    + intros Hm. rewrite Hm in Hmv. rewrite bool_decide_eq_false_2 in Hmv by (by intros [? ?]). rewrite Htr3, Htr2. by apply (Hroom Hmv Hh t i).
Qed.

Lemma ipc_send_ok par k kids U grow slot now request call : caps_ok par k kids U -> small k ->
  keeps par k U (ipc_send grow k slot now request call).1.
Proof.
  intros Hok Hsm. pose proof (keeps_refl _ _ _ _ Hok) as Hr. unfold ipc_send. destruct (cap_of k slot (arg1 request)) as [c|] eqn:Hcap; [|exact Hr].
  assert (exists t, task k slot = Some t) as [t Ht] by (unfold cap_of in Hcap; destruct (task k slot); [by eexists|done]).
  destruct c as [ep rights badge| | | | | | | | | | | | | | | | ]; try exact Hr.
  destruct (negb _); [exact Hr|]. destruct (_ && _); [exact Hr|]. destruct (copy_refused _ _ _ _); [exact Hr|].
  pose proof (prepare_ok par k kids U grow (has rights CAP_GRANT) slot (msg_at request 0) (msg_at request 1) Hok Hsm) as Hprep.
  destruct (if has rights CAP_GRANT then _ else _) as [k1 refused]. destruct Hprep as [Hk1 Hprep]. destruct refused; [exact Hk1|].
  specialize (Hprep eq_refl (count_message k1 ep) ltac:(done) ltac:(done)).
  destruct (if has rights CAP_GRANT then transfer _ _ _ _ else _) as [k3 cap]. destruct Hprep as (par' & Hok3 & Hev & Hsm3 & _ & Ht3 & Hc).
  set (kp := set_ports _ k3). pose proof (deadline_view kp now (arg2 request)) as (Hvd & Hdd & _).
  assert (forall s, task (deadline_of kp now (arg2 request)).1 s = task k3 s) as Htd by (intros s; unfold deadline_of; by case_match).
  destruct (deadline_of kp now (arg2 request)) as [k4 d]. cbn [fst] in *.
  assert (deriv k4 = deriv k3) as Hd4 by (by rewrite Hdd).
  assert (caps_ok par' k4 kids U) as Hok4.
  { apply (caps_ok_view par' k3); [done|done|unfold tree_of; by rewrite Hd4|by rewrite Hd4]. }
  assert (mp k4 = mp k3) as Hm4 by (unfold mp, tree_of; by rewrite Hd4).
  match goal with |- context [on_task k4 slot ?g] => set (f := g) end.
  fold (posted grow k4 slot f cap).
  assert (keeps par k U (posted grow k4 slot f cap)) as Hpost.
  { apply (posted_ok par k par' k4 kids U grow slot t f cap); try done.
    - unfold small, tree_of. by rewrite Hd4.
    - by rewrite Htd, Ht3.
    - intros p Hp. destruct (Hc p Hp) as ((Hs & Hsp) & _). split; [|unfold tree_of in *; by rewrite Hd4].
      by apply (sendable_view k slot par' k3).
    - destruct Hev as [A B C D]. split; rewrite ?Hm4; done.
    - intros p Hp. by apply (Hc p Hp). }
  destruct (blocked k (BlockedRecv ep)) as [r|]; cbn [fst].
  - assert (keeps par k U (deliver grow (posted grow k4 slot f cap) slot r)) as Hdel.
    { eapply keeps_trans; [done|exact Hpost|]. intros. by eapply deliver_ok. }
    destruct call; cbn [fst]; [|exact Hdel]. eapply keeps_same_view; [exact Hdel|]. by apply on_task_view.
  - eapply keeps_same_view; [exact Hpost|]. by apply on_task_view.
Qed.

(** ** Replying *)

(** A copy with a new identity placed in another task. *)
Lemma placed_fresh par0 par k kids U grow slot to receive p : caps_ok par k kids U -> small k -> (receive < SLOT_DYNAMIC)%nat ->
  sendable k slot par k p -> moved_from p = None -> ix_spare (tree_of k) 2 -> to <> slot -> par0 ⊆ par -> par0 !! node_id (p_node p) = None ->
  is_Some (task k to) -> keeps par0 k U (placed grow k to receive p).
Proof.
  intros Hok Hsm Hr Hse Hm Hsp Hto Hsub Hnew [t Ht]. pose proof (ct_fixed _ (table_wf _ _ _ _ _ _ Hok Ht)) as Hlen.
  destruct (remove_unplaced _ _ _ _ _ receive _ Hok Ht ltac:(lia))
    as (kids2 & U2 & Hok2 & Hev & _ & Hloose & Hshal & Hsmall & Hspare & (t' & Ht' & Hpid & Hc) & Hsame).
  set (k2 := remove k to receive) in *. destruct Hse as [S1 S2 S3 S4]. destruct (S2 Hm) as [Hl Hno], (S3 Hm) as (H1 & H2 & H3 & H4), (S4 Hm) as (ts & i & Hts & Hat).
  assert (mp k2 !! node_id (p_node p) = None) as Hno2.
  { destruct S1 as [Hpar _]. apply (ev_absent _ _ _ _ _ _ Hev _ _ Hpar); [lia|done]. }
  assert (sendable k slot par k2 p) as Hse2.
  { split; try done; intros _; [split; [by apply Hloose|done]|]. split_and!; try done; [by apply Hshal|].
    rewrite Hat in *. cbn [holds] in *. unfold vtask. by rewrite Hsame. }
  destruct (sendable_entered par k kids2 U2 slot par k2 p grow (AtSlot to (pid t) receive) 0 Hok2 (Hsmall Hsm) (Hspare _ Hsp) Hse2 Hm)
    as (kids' & Hok' & Hnode & Habs).
  unfold placed. fold k2. unfold with_table at 1. rewrite task_on_task, decide_True, Ht' by done. cbn [fmap option_fmap option_map].
  change (pid (set_table _ t')) with (pid t'). rewrite Hpid. unfold arrived. rewrite Hm.
  change (tree_of (with_table k2 to _)) with (tree_of k2). set (x := enter _ _ _ _) in *.
  change (set_tree x (with_table k2 to ?f)) with (with_table (set_tree x k2) to f).
  exists par, kids', U2. split.
  - apply (put_ok par (set_tree x k2) kids' U2 to t'); try done; [by apply Hloose|by rewrite Hpid].
  - destruct Hev as [E1 E2 E3 E4]. split; try done.
    + intros u Hu [e He]. change (mp (set_tree x k2) !! u = Some e) in He. apply E3; [done|]. apply not_eq_None_Some. intros Hn.
      destruct (out_par _ _ _ _ _ Hok Hu) as (q & Hq & Hq0). rewrite (Habs u q) in He; try done. intros ->.
      destruct (fo_out _ _ _ (co_forest _ _ _ _ Hok) _ Hu). congruence.
    + intros j q Hj Hq Hn. apply (Habs j q); [by eapply lookup_weaken|done| |]; [intros ->; congruence|].
      apply (E4 j q); [by eapply lookup_weaken|done|done].
Qed.

(** The client's slot filled: [place] in a reply. *)
Lemma place_reply_ok par0 k0 par k kids U grow slot to receive p : caps_ok par k kids U -> small k -> (receive < SLOT_DYNAMIC)%nat ->
  evolves par0 k0 U par k U -> sendable k0 slot par k p -> (forall s, task k s = task k0 s) -> (moved_from p = None -> ix_spare (tree_of k) 2) ->
  (moved_from p = None -> par0 !! node_id (p_node p) = None) -> to <> slot -> is_Some (task k to) -> mp k = mp k0 ->
  (forall u, u ∈ U -> exists q, par0 !! u = Some q /\ q <> 0) -> keeps par0 k0 U (place grow k slot to receive p).
Proof.
  intros Hok Hsm Hr Hev Hse Hts Hsp Hnew Hto Hex Hmp HU.
  destruct (moved_from p) as [i|] eqn:Hm.
  - destruct (place_ok par k kids U grow slot to receive p Hok (se_pending _ _ _ _ _ Hse) Hr) as (par' & kids' & U' & Hok' & Hev'); [congruence|].
    exists par', kids', U'. split; [done|]. eapply evolves_trans; [exact Hev|exact Hev'|done].
  - unfold place. rewrite Hm. cbn [negb]. change (keeps par0 k0 U (placed grow k to receive p)). apply (keeps_from par0 k k0); [done|].
    eapply placed_fresh; try done; [|by apply Hsp|apply Hev|by apply Hnew].
    destruct Hse as [S1 S2 S3 S4]. split; try done. by rewrite Hts.
Qed.

(** [BlockedReply] of itself: a task never waits for its own reply. *)
Lemma ipc_reply_ok par k kids U grow slot request : caps_ok par k kids U -> small k ->
  (forall t, task k slot = Some t -> state t <> BlockedReply slot) -> keeps par k U (ipc_reply grow k slot request).1.
Proof.
  intros Hok Hsm Hself. unfold ipc_reply.
  match goal with |- context [let '(_, _) := ?e in _] => set (start := e) end.
  assert (keeps par k U start.1 /\ mp start.1 = mp k /\ small start.1 /\ caps_ok par start.1 kids U /\ (forall t, task start.1 slot = Some t -> state t <> BlockedReply slot))
    as (Hk0 & Hm0 & Hsm0 & Hok0 & Hself0).
  { assert (forall f, (forall t, state (f t) = state t) -> forall t, task (on_task k slot f) slot = Some t -> state t <> BlockedReply slot) as Hst.
    { intros f Hf t. rewrite task_on_task, decide_True by done. rewrite fmap_Some. intros (t0 & Ht0 & ->). rewrite Hf. by apply Hself. }
    pose proof (keeps_refl _ _ _ _ Hok) as Hr. subst start. case_match; cbn [fst].
    - split_and!; try done; [|by apply caps_ok_unseen|by apply Hst]. eapply keeps_same_view; [exact Hr|]. by apply on_task_view.
    - destruct (cap_of k slot (arg1 request)) as [c|]; [|done]. destruct c; try done. destruct (index_of k slot (arg1 request)) as [i|]; [|done].
      cbn [fst]. split_and!; try done; [|by apply clear_ok|by apply Hst]. exists par, kids, U. split; [by apply clear_ok|by apply evolves_same]. }
  destruct start as [k0 target]. cbn [fst] in *. destruct target as [[[caller p] seq]|]; [|exact Hk0].
  destruct (awaits_reply k0 caller p seq slot) eqn:Haw; cbn [negb]; [|exact Hk0]. destruct (copy_refused _ _ _ _); [exact Hk0|].
  apply (keeps_from par k0 k); [done|]. clear Hk0 Hm0.
  assert (exists tc, task k0 caller = Some tc /\ caller <> slot) as (tc & Htc & Hne).
  { unfold awaits_reply in Haw. destruct (task k0 caller) as [tc|] eqn:Htc; [|done]. exists tc. split; [done|]. intros ->.
    apply (Hself0 tc Htc). rewrite !andb_true_iff in Haw. destruct Haw as [_ Hb]. by apply bool_decide_eq_true in Hb. }
  pose proof (prepare_ok par k0 kids U grow true slot (msg_at request 0) (msg_at request 1) Hok0 Hsm0) as Hprep.
  destruct (transfer_refused grow k0 slot _ _) as [k1 refused]. destruct Hprep as [Hk1 Hprep]. destruct refused; [exact Hk1|].
  specialize (Hprep eq_refl k1 ltac:(done) ltac:(done)). destruct (transfer k1 slot _ _) as [k3 cap].
  destruct Hprep as (par' & Hok3 & Hev & Hsm3 & Hm3 & Ht3 & Hc).
  assert (keeps par k0 U k3) as Hk3 by (by exists par', kids, U).
  destruct (task k3 slot) as [server|]; [|exact Hk3]. rewrite Ht3, Htc.
  set (receive := _ &&& RECEIVE_MASK). set (delivered := bool_decide _ && _ && _). cbn [fst]. cbv zeta.
  eapply keeps_same_view; [|apply make_ready_view]. eapply keeps_same_view; [|by apply on_task_view].
  destruct cap as [pe|]; [|exact Hk3]. destruct delivered eqn:Hd; [|exact Hk3]. destruct (Hc pe eq_refl) as ((Hse & Hsp) & Hnew).
  apply (place_reply_ok par k0 par' k3 kids U); try done; [|rewrite Ht3, Htc; by eexists|by intros u; apply (out_par par k0 kids)].
  unfold delivered in Hd. rewrite !andb_true_iff, Z.leb_le, Z.ltb_lt in Hd. lia.
Qed.
End transfers.
