(* ===== verification/CapSystem.v ===== *)
(** * The capability system as a whole

    The scheduler with any number of revocations in progress, under capability calls, timeouts and revocation steps in
    any order: the step relation [step], its invariant [sys_ok], and what holds in every reachable state. Spawning and
    ending a task and the calls on memory objects are not among the steps. *)
From stdpp Require Import relations.
From S2P Require Import Prelude Abi TaskState TreeIndex NodeIndex Caps UserHeap Kernel Derivation Forest CapOps CapTree Revoke Ipc CapRun CapIpc.
Import TreeIndex.Tree(At, AtSlot, AtSend, Ghost, Entry, mkEntry, id, depth, at_, first, next, prev, maps, more_maps, FREE).

Section system.
Context {T Sp Po : Type} `{!NodeIndex T, !NodeIndexLaws T, !Space Sp, !Pool Po}.
Implicit Types (k : Scheduler T Sp Po) (t : Task Sp) (par : gmap Z Z) (U V : gset Z) (js : list Revocation).

(** ** System calls *)
Inductive Call : Type :=
| EndpointCreate (grow fits : bool) (slot : nat)
| CapMint (grow fits : bool) (slot : nat) (m : Mailbox)
| CapDrop (slot : nat) (h : Z)
| PlatformCap (fits : bool) (slot : nat) (c : result Z Capability)
| SaveReply (fits : bool) (slot : nat)
| Send (grow : bool) (slot : nat) (now : Z) (m : Mailbox) (call : bool)
| Recv (grow : bool) (slot : nat) (now : Z) (m : Mailbox)
| ReplyTo (grow : bool) (slot : nat) (m : Mailbox)
| Tick (now : Z).

Definition run_call k (c : Call) : Scheduler T Sp Po :=
  match c with
  | EndpointCreate grow fits slot => (endpoint_create grow fits k slot).1
  | CapMint grow fits slot m => (cap_mint grow fits k slot m).1
  | CapDrop slot h => (cap_drop k slot h).1
  | PlatformCap fits slot c => (platform_store fits k slot c).1
  | SaveReply fits slot => (save_reply fits k slot).1
  | Send grow slot now m call => (ipc_send grow k slot now m call).1
  | Recv grow slot now m => (ipc_recv grow k slot now m).1
  | ReplyTo grow slot m => (ipc_reply grow k slot m).1
  | Tick now => (expire k now).1
  end.

(** The caller of a system call runs: it does not wait for its own reply. *)
Definition running k (c : Call) : Prop :=
  match c with ReplyTo _ slot _ => forall t, task k slot = Some t -> state t <> BlockedReply slot | _ => True end.

Lemma run_call_ok par k kids U c : caps_ok par k kids U -> small k -> running k c -> keeps par k U (run_call k c).
Proof.
  intros Hok Hsm Hrun. destruct c; cbn [run_call];
    eauto using endpoint_create_ok, cap_mint_ok, cap_drop_ok, platform_store_ok, save_reply_ok, ipc_send_ok, ipc_recv_ok, ipc_reply_ok, expire_ok.
Qed.

(** ** Revocations in progress *)
Record progress_ok par k U (j : Revocation) : Prop := {
  po_root : r_root j <> 0;
  po_bottom : exists l, stack j = l ++ [r_root j];
  po_out x : x ∈ stack j -> x <> r_root j -> x ∈ U \/ mp k !! x = None;
  po_below x : x ∈ stack j -> x = r_root j \/ below par (r_root j) x;
}.

Definition taken_by (j : Revocation) (u : Z) : Prop := u ∈ stack j /\ u <> r_root j.

Definition sys_ok par k js : Prop := exists kids U, caps_ok par k kids U /\
  (forall j, j ∈ js -> progress_ok par k U j) /\ (forall u, u ∈ U -> exists j, j ∈ js /\ taken_by j u).

Lemma below_parent par k kids U r x : caps_ok par k kids U -> r <> 0 -> below par r x -> exists p, par !! x = Some p /\ p <> 0.
Proof.
  intros Hok Hr Hb. inversion Hb as [? Hp|p ? Hb' Hp]; subst; [by eexists|]. exists p. split; [done|].
  inversion Hb' as [? H1|? ? _ H1]; destruct (co_ids _ _ _ _ Hok _ _ H1); lia.
Qed.

Lemma progress_evolves par k kids U par' k' U' j : caps_ok par k kids U -> evolves par k U par' k' U' -> progress_ok par k U j -> progress_ok par' k' U' j.
Proof.
  intros Hok Hev [A B C D]. split; try done.
  - intros x Hx Hne. destruct (C x Hx Hne) as [HU|Hn].
    + destruct (mp k' !! x) eqn:He; [left|by right]. by apply (ev_still _ _ _ _ _ _ Hev); [|eexists].
    + right. destruct (D x Hx) as [->|Hb]; [done|]. destruct (below_parent _ _ _ _ _ _ Hok A Hb) as (p & Hp & Hp0).
      by apply (ev_absent _ _ _ _ _ _ Hev x p).
  - intros x Hx. destruct (D x Hx) as [|Hb]; [by left|right]. eapply below_mono; [|exact Hb]. apply Hev.
Qed.

Lemma progress_takes par k U k' U' S j : takes k U k' U' S -> progress_ok par k U j -> progress_ok par k' U' j.
Proof.
  intros Htk [A B C D]. split; try done. intros x Hx Hne. destruct (C x Hx Hne) as [HU|Hn].
  - destruct (mp k' !! x) eqn:He; [left|by right]. by apply (tk_out _ _ _ _ _ Htk); [|eexists].
  - right. by apply (tk_gone _ _ _ _ _ Htk).
Qed.

(** The nodes revocations took out. *)
Definition outs js : gset Z := list_to_set (js ≫= fun j => filter (fun u => u <> r_root j) (stack j)).

Lemma elem_of_outs js u : u ∈ outs js <-> exists j, j ∈ js /\ taken_by j u.
Proof. unfold outs, taken_by. rewrite elem_of_list_to_set, list_elem_of_bind. setoid_rewrite list_elem_of_filter. naive_solver. Qed.

Lemma progress_job par k kids U l1 j l2 : (forall i, i ∈ l1 ++ j :: l2 -> progress_ok par k U i) ->
  (forall u, u ∈ U -> exists i, i ∈ l1 ++ j :: l2 /\ taken_by i u) -> job_ok par k kids U (outs (l1 ++ l2)) j.
Proof.
  intros Hp HU. destruct (Hp j ltac:(set_solver)) as [A B C D]. split; try done; [by right|].
  intros u Hu. destruct (HU u Hu) as (i & Hi & Ht). rewrite elem_of_outs. rewrite elem_of_app, elem_of_cons in Hi.
  destruct Hi as [Hi|[->|Hi]]; [right|by left|right]; exists i; (split; [set_solver|done]).
Qed.

Lemma job_progress par k kids U V j : job_ok par k kids U V j -> r_root j <> 0 -> stack j <> [] -> progress_ok par k U j.
Proof. intros [A B C D] Hr Hs. split; try done. by destruct A as [[? _]|]. Qed.

(** ** Steps *)
Inductive step : Scheduler T Sp Po * list Revocation -> Scheduler T Sp Po * list Revocation -> Prop :=
| step_call k js c : small k -> running k c -> step (k, js) (run_call k c, js)
| step_revoke k js slot h this started ended k' job : cap_revoke k slot h this started ended = Some (k', Ok (Some job)) ->
    step (k, js) (k', js ++ [job])
| step_revoked k js slot h this started ended k' : cap_revoke k slot h this started ended = Some (k', Ok None) -> step (k, js) (k', js)
| step_on k l1 j l2 this started ended k' j' : revoke_step k j this started ended = Some (k', j', false) ->
    step (k, l1 ++ j :: l2) (k', l1 ++ j' :: l2)
| step_end k l1 j l2 this started ended k' j' : revoke_step k j this started ended = Some (k', j', true) ->
    step (k, l1 ++ j :: l2) ((end_revoke k' j').1, l1 ++ l2).

Lemma end_revoke_view k j : (forall s, vtask (end_revoke k j).1 s = vtask k s) /\ tree_of (end_revoke k j).1 = tree_of k /\
  next_node (deriv (end_revoke k j).1) = next_node (deriv k).
Proof.
  unfold end_revoke. set (k1 := set_deriv _ k). assert (forall f g, (forall t, seen (f t) = seen t) -> (forall t, seen (g t) = seen t) ->
    forall s, vtask (on_task (on_task k1 (r_slot j) f) (r_slot j) g) s = vtask k s) as H2.
  { intros f g Hf Hg s. rewrite (proj1 (on_task_view (on_task k1 (r_slot j) f) (r_slot j) g Hg)).
    by rewrite (proj1 (on_task_view k1 (r_slot j) f Hf)). }
  case_match; [done|]. case_match; cbn [fst]; (split; [|done]); [by apply H2|].
  intros s. match goal with |- context [on_task k1 _ ?f] => by rewrite (proj1 (on_task_view k1 (r_slot j) f ltac:(done))) end.
Qed.

Lemma revoke_step_ends k j this started ended k' j' finished : revoke_step k j this started ended = Some (k', j', finished) ->
  finished = bool_decide (stack j' = []).
Proof. unfold revoke_step, mbind, option_bind. destruct (revoke_loop _ _ _ _ _) as [[k1 j1]|]; [|done]. by intros [= <- <- <-]. Qed.

(** One step of one revocation among the others. *)
Lemma revoke_step_among par k l1 j l2 this started ended k' j' finished : sys_ok par k (l1 ++ j :: l2) ->
  revoke_step k j this started ended = Some (k', j', finished) -> sys_ok par k' (if finished then l1 ++ l2 else l1 ++ j' :: l2).
Proof.
  intros (kids & U & Hok & Hp & HU) Hs. destruct (Hp j ltac:(set_solver)) as [Hr _ _ _].
  destruct (revoke_step_ok par (outs (l1 ++ l2)) this started ended k kids U j Hok (progress_job _ _ _ _ _ _ _ Hp HU))
    as (k1 & j1 & fin & kids' & U' & E & Hok' & Hj' & Htk & Hr' & _ & _ & Hdone).
  rewrite Hs in E. injection E as <- <- <-. exists kids', U'. split; [done|].
  assert (forall i, i ∈ l1 ++ l2 -> progress_ok par k' U' i) as Hothers.
  { intros i Hi. eapply progress_takes; [exact Htk|]. apply Hp. set_solver. }
  assert (forall u, u ∈ U' -> taken_by j' u \/ exists i, i ∈ l1 ++ l2 /\ taken_by i u) as Hcov.
  { intros u Hu. rewrite <- elem_of_outs. unfold taken_by. by apply (jo_rest _ _ _ _ _ _ Hj'). }
  destruct finished.
  - split; [done|]. intros u Hu. destruct (Hcov u Hu) as [[Hin _]|]; [|done]. rewrite Hdone in Hin. by apply not_elem_of_nil in Hin.
  - split.
    + intros i Hi. rewrite elem_of_app, elem_of_cons in Hi. destruct Hi as [Hi|[->|Hi]]; [apply Hothers; set_solver| |apply Hothers; set_solver].
      eapply job_progress; [exact Hj'|congruence|]. apply revoke_step_ends in Hs. symmetry in Hs. by apply bool_decide_eq_false in Hs.
    + intros u Hu. destruct (Hcov u Hu) as [Ht|(i & Hi & Ht)]; [exists j'|exists i]; (split; [set_solver|done]).
Qed.

(** The invariant depends on what it sees. *)
Lemma sys_ok_view par k k' js : (forall s, vtask k' s = vtask k s) -> tree_of k' = tree_of k -> next_node (deriv k') = next_node (deriv k) ->
  sys_ok par k js -> sys_ok par k' js.
Proof.
  intros Hv Ht Hn (kids & U & Hok & Hp & HU). exists kids, U. split; [by eapply caps_ok_view|]. split; [|done].
  intros j Hj. destruct (Hp j Hj) as [A B C D]. split; try done. unfold mp. by rewrite Ht.
Qed.

(** A revocation begun by [CAP_REVOKE], before its first step. *)
Lemma revoke_begun par k js slot t h i x : sys_ok par k js -> task k slot = Some t -> index (table t) h = Some i ->
  mjoin (cspace (table t) !! i) = Some x -> let root := node_id (node_at (table t) i) in
  sys_ok par (set_deriv (mkDeriv (tree_of k) (revoking (deriv k) ++ [root]) (next_node (deriv k))) k) (js ++ [first_job slot (pid t) root]).
Proof.
  intros Hsys Ht Hi Hx root. assert (root <> 0) as Hroot.
  { destruct Hsys as (kids & U & Hok & _). assert (cap (table t) h = Some x) as Hc by (unfold cap, mbind, option_bind; by rewrite Hi).
    pose proof (cap_held _ _ _ _ _ _ _ _ _ Hok Ht Hc Hi) as Hh. pose proof (no_par _ _ _ _ (co_holds _ _ _ _ Hok _ _ Hh)) as Hp.
    destruct (co_ids _ _ _ _ Hok _ _ Hp). unfold root. lia. }
  apply (sys_ok_view par k); [done..|]. destruct Hsys as (kids & U & Hok & Hp & HU). exists kids, U. split; [done|]. split.
  - intros j. rewrite elem_of_app, list_elem_of_singleton. intros [Hj| ->]; [by apply Hp|]. split; cbn; [done|by exists []| |].
    + by intros y ->%list_elem_of_singleton.
    + intros y ->%list_elem_of_singleton. by left.
  - intros u Hu. destruct (HU u Hu) as (j & Hj & Htk). exists j. split; [set_solver|done].
Qed.

(** [CAP_REVOKE] among revocations in progress: a first step of a new one. *)
Lemma cap_revoke_among par k js slot h this started ended k' r : sys_ok par k js -> cap_revoke k slot h this started ended = Some (k', r) ->
  sys_ok par k' (match r with Ok (Some job) => js ++ [job] | _ => js end).
Proof.
  intros Hsys. unfold cap_revoke, mbind, option_bind. destruct (task k slot) as [t|] eqn:Ht; [|by intros [= <- <-]].
  destruct (index (table t) h) as [i|] eqn:Hi; [|by intros [= <- <-]]. destruct (mjoin (cspace (table t) !! i)) as [x|] eqn:Hx; [|by intros [= <- <-]].
  pose proof (revoke_begun par k js slot t h i x Hsys Ht Hi Hx) as Hsys1. cbv zeta in Hsys1. unfold first_job in Hsys1.
  unfold begin_revoke, mbind, option_bind. rewrite Ht. set (k1 := set_deriv _ k) in *. set (j0 := mkRevocation _ _ _ _ _ _ _ _) in *.
  destruct (revoke_step k1 j0 this started ended) as [[[k2 j1] fin]|] eqn:Hs; [|done].
  apply (revoke_step_among par k1 js j0 [] _ _ _ _ _ _ Hsys1) in Hs. destruct fin; intros [= <- <-]; [|done].
  rewrite app_nil_r in Hs. destruct (end_revoke_view k2 j1) as (A & B & C). by apply (sys_ok_view par k2).
Qed.

Lemma step_ok par k js k' js' : sys_ok par k js -> step (k, js) (k', js') -> exists par', par ⊆ par' /\ sys_ok par' k' js'.
Proof.
  intros Hsys Hs. inversion Hs; subst.
  - destruct Hsys as (kids & U & Hok & Hp & HU).
    match goal with H1 : small k, H2 : running k ?c |- _ => destruct (run_call_ok par k kids U c Hok H1 H2) as (par' & kids' & U' & Hok' & Hev) end.
    exists par'. split; [apply Hev|]. exists kids', U'. split; [done|]. split.
    + intros j Hj. eapply progress_evolves; [exact Hok|exact Hev|by apply Hp].
    + intros u Hu. by apply HU, (ev_out _ _ _ _ _ _ Hev).
  - exists par. split; [done|]. by match goal with H : cap_revoke _ _ _ _ _ _ = _ |- _ => apply (cap_revoke_among par k js _ _ _ _ _ _ _ Hsys) in H end.
  - exists par. split; [done|]. by match goal with H : cap_revoke _ _ _ _ _ _ = _ |- _ => apply (cap_revoke_among par k js' _ _ _ _ _ _ _ Hsys) in H end.
  - exists par. split; [done|]. by match goal with H : revoke_step _ _ _ _ _ = _ |- _ => apply (revoke_step_among par _ _ _ _ _ _ _ _ _ _ Hsys) in H end.
  - exists par. split; [done|]. match goal with H : revoke_step _ _ _ _ _ = Some (?k2, ?j2, _) |- _ =>
      apply (revoke_step_among par _ _ _ _ _ _ _ _ _ _ Hsys) in H; destruct (end_revoke_view k2 j2) as (A & B & C); by apply (sys_ok_view par k2) end.
Qed.

Lemma steps_ok par s s' : sys_ok par s.1 s.2 -> rtc step s s' -> exists par', par ⊆ par' /\ sys_ok par' s'.1 s'.2.
Proof.
  intros Hsys Hr. revert par Hsys. induction Hr as [s|[k js] [k1 js1] s' Hs _ IH]; intros par Hsys; [by exists par|].
  destruct (step_ok par k js k1 js1 Hsys Hs) as (par1 & Hsub & Hsys1). destruct (IH par1 Hsys1) as (par2 & Hsub2 & Hsys2).
  exists par2. split; [by etransitivity|done].
Qed.

(** A scheduler in which nobody holds a capability. *)
Lemma empty_ok k : ix_ok (tree_of k) -> mp k = ∅ ->
  (forall s t, task k s = Some t -> ct_wf (table t) /\ (forall c, c ∈ cspace (table t) -> c = None) /\ pending_cap (ipc t) = None) ->
  caps_ok ∅ k (fun _ => []) ∅.
Proof.
  intros Hix Hmp Htasks.
  assert (forall s p c pe, vtask k s = Some (p, c, pe) -> ct_wf c /\ (forall x, x ∈ cspace c -> x = None) /\ pe = None) as Hv.
  { intros s p c pe. unfold vtask. rewrite fmap_Some. intros (t & Ht & [= -> -> ->]). by apply (Htasks s). }
  assert (forall n a, ~ holds k n a) as Hno.
  { intros n [s p i|s p|]; cbn [holds]; [| |by intros []].
    - intros (c & pe & x & (_ & Hc & _)%Hv & Hx & _). specialize (Hc (Some x)). discriminate Hc. by apply list_elem_of_lookup_2 in Hx.
    - by intros (c & pe & (_ & _ & [=])%Hv & _). }
  split; try rewrite Hmp; try done; try (by intros ? ? ?%Hno); try (by intros ? ? ? ?%Hno).
  - split; try done; try (by intros; rewrite lookup_empty in *); try (by intros ? ? ?%not_elem_of_nil); intros p; constructor.
  - intros s p c pe H. by apply (Hv s p c pe).
  - intros n n' a a' H. by apply Hno in H.
  - intros s p c pe (_ & _ & ?)%Hv. done.
Qed.

Lemma sys_start par k kids : caps_ok par k kids ∅ -> sys_ok par k [].
Proof. intros Hok. exists kids, ∅. split; [done|]. split; [by intros j ?%not_elem_of_nil|set_solver]. Qed.

Lemma reached_alone par0 k0 kids0 k : caps_ok par0 k0 kids0 ∅ -> rtc step (k0, []) (k, []) -> exists par kids, caps_ok par k kids ∅.
Proof.
  intros Hok Hr. destruct (steps_ok par0 (k0, []) (k, []) (sys_start _ _ _ Hok) Hr) as (par & _ & kids & U & Hok' & _ & HU).
  exists par, kids. assert (U = ∅) as HU0; [|rewrite <- HU0; exact Hok'].
  apply set_eq. intros u. split; [|by intros ?%not_elem_of_empty]. intros (j & Hj & _)%HU. by apply not_elem_of_nil in Hj.
Qed.

(** ** Properties *)

(** C3: capabilities stay consistent under every interleaving. From a consistent state, after any sequence of mints,
    drops, endpoint creations, sends, receives, replies, timeouts and steps of any number of revocations, every node is
    in one place at most, in one task's slot or one send, and every derived capability has its entry in the derivation
    tree, which names that place and its source and is at most [DERIVE_DEPTH_MAX] derivations from a root. *)
Theorem caps_consistent par k js k' js' : sys_ok par k js -> rtc step (k, js) (k', js') ->
  exists par', par ⊆ par' /\ sys_ok par' k' js' /\
    (forall n n' a a', holds k' n a -> holds k' n' a' -> node_id n = node_id n' -> a = a') /\
    (forall n a, holds k' n a -> node_parent n <> 0 ->
       exists e, ix_get (tree_of k') (node_id n) = Some e /\ at_ e = a /\ Tree.parent e = node_parent n /\ (depth e <= DERIVE_DEPTH_MAX)%nat).
Proof.
  intros Hsys Hr. destruct (steps_ok par (k, js) (k', js') Hsys Hr) as (par' & Hsub & Hsys'). exists par'. split; [done|]. split; [done|].
  destruct Hsys' as (kids & U & Hok & _). split; [apply (co_unique _ _ _ _ Hok)|]. intros n a Hh Hp.
  destruct (co_holds _ _ _ _ Hok n a Hh) as [H1 H2 H3]. destruct (H2 Hp) as [e He]. exists e.
  rewrite law_get by apply Hok. split; [done|]. split; [by apply H3|]. split; [|by apply (co_depth _ _ _ _ Hok (node_id n))].
  pose proof (co_entries _ _ _ _ Hok _ _ He). congruence.
Qed.

(** C5: the kernel never panics on a child without an entry: in every reachable state each step of each revocation in
    progress returns, and so does [CAP_REVOKE] of any handle. *)
Theorem revocation_no_panic par k js k' js' : sys_ok par k js -> rtc step (k, js) (k', js') ->
  (forall j this started ended, j ∈ js' -> is_Some (revoke_step k' j this started ended)) /\
  (forall slot h this started ended, is_Some (cap_revoke k' slot h this started ended)).
Proof.
  intros Hsys Hr. destruct (steps_ok par (k, js) (k', js') Hsys Hr) as (par' & _ & kids & U & Hok & Hp & HU). cbn [fst snd] in *. split.
  - intros j this started ended Hj. apply list_elem_of_split in Hj as (l1 & l2 & ->).
    destruct (revoke_step_ok par' (outs (l1 ++ l2)) this started ended k' kids U j Hok (progress_job _ _ _ _ _ _ _ Hp HU))
      as (k1 & j1 & fin & _ & _ & -> & _). by eexists.
  - intros slot h this started ended. unfold cap_revoke, mbind, option_bind. destruct (task k' slot) as [t|] eqn:Ht; [|done].
    destruct (index (table t) h) as [i|]; [|done]. destruct (mjoin _) as [x|]; [|done]. unfold begin_revoke, mbind, option_bind. rewrite Ht.
    destruct (begin_ok par' k' kids U U slot t (node_id (node_at (table t) i)) Hok ltac:(done) Ht) as (Hok1 & Hj1 & _).
    destruct (revoke_step_ok par' U this started ended _ kids U _ Hok1 Hj1) as (k1 & j1 & fin & _ & _ & E & _).
    unfold first_job in E. rewrite E. destruct fin; by eexists.
Qed.
(** What a revocation step that finishes leaves, among the others. *)
Lemma revoke_step_left par k l1 j l2 this started ended k' j' : sys_ok par k (l1 ++ j :: l2) -> revoke_step k j this started ended = Some (k', j', true) ->
  forall n a, holds k' n a -> below par (r_root j) (node_id n) -> exists i v, i ∈ l1 ++ l2 /\ taken_by i v /\ below par v (node_id n).
Proof.
  intros (kids & U & Hok & Hp & HU) Hs n a Hh Hb. destruct (Hp j ltac:(set_solver)) as [Hr _ _ _].
  destruct (revoke_step_ok par (outs (l1 ++ l2)) this started ended k kids U j Hok (progress_job _ _ _ _ _ _ _ Hp HU))
    as (k1 & j1 & fin & kids' & U' & E & Hok' & Hj' & _ & Hr' & _ & _ & Hdone). rewrite Hs in E. injection E as <- <- <-.
  destruct (revoked_below par k' kids' U' _ j' Hok' Hj' Hdone) with (n := n) (a := a) as (v & Hv & Hvb); [congruence|done|congruence|].
  apply elem_of_outs in Hv as (i & Hi & Ht). eauto.
Qed.

Lemma holds_view k k' n a : (forall s, vtask k' s = vtask k s) -> holds k' n a -> holds k n a.
Proof. intros Hv. destruct a; cbn [holds]; by rewrite ?Hv. Qed.

(** C4: a revocation among others. From a consistent state, after any sequence of steps (capability calls, timeouts,
    steps of any revocations, this one among them), when a step of a revocation in progress reports that it is finished,
    or [CAP_REVOKE] returns at once, then a capability derived from its root is still held only below a node that
    another revocation in progress took out. *)
Theorem revoke_finished par k js k' js' : sys_ok par k js -> rtc step (k, js) (k', js') ->
  exists par', par ⊆ par' /\ sys_ok par' k' js' /\
    (forall l1 j l2 this started ended k2 j2, js' = l1 ++ j :: l2 -> revoke_step k' j this started ended = Some (k2, j2, true) ->
       forall n a, holds (end_revoke k2 j2).1 n a -> below par' (r_root j) (node_id n) ->
         exists i v, i ∈ l1 ++ l2 /\ taken_by i v /\ below par' v (node_id n)) /\
    (forall slot h this started ended k2 t i, cap_revoke k' slot h this started ended = Some (k2, Ok None) ->
       task k' slot = Some t -> index (table t) h = Some i ->
       forall n a, holds k2 n a -> below par' (node_id (node_at (table t) i)) (node_id n) ->
         exists j v, j ∈ js' /\ taken_by j v /\ below par' v (node_id n)).
Proof.
  intros Hsys Hr. destruct (steps_ok par (k, js) (k', js') Hsys Hr) as (par' & Hsub & Hsys'). cbn [fst snd] in *. exists par'. split; [done|]. split; [done|]. split.
  - intros l1 j l2 this started ended k2 j2 -> Hs n a Hh. apply (revoke_step_left par' k' l1 j l2 _ _ _ _ _ Hsys' Hs n a).
    eapply holds_view; [|exact Hh]. apply end_revoke_view.
  - intros slot h this started ended k2 t i. unfold cap_revoke, mbind, option_bind. intros Hc Ht Hi. rewrite Ht, Hi in Hc.
    destruct (mjoin (cspace (table t) !! i)) as [x|] eqn:Hx; [|done]. unfold begin_revoke, mbind, option_bind in Hc. rewrite Ht in Hc.
    assert (sys_ok par' (set_deriv (mkDeriv (tree_of k') (revoking (deriv k') ++ [node_id (node_at (table t) i)]) (next_node (deriv k'))) k')
      (js' ++ [first_job slot (pid t) (node_id (node_at (table t) i))])) as Hsys1 by (by eapply revoke_begun).
    unfold first_job in Hsys1. set (k1 := set_deriv _ k') in *. set (j0 := mkRevocation _ _ _ _ _ _ _ _) in *.
    destruct (revoke_step k1 j0 this started ended) as [[[k3 j1] fin]|] eqn:Hs; [|done]. destruct fin; [|done]. injection Hc as <-.
    intros n a Hh Hb. destruct (revoke_step_left par' k1 js' j0 [] _ _ _ _ _ Hsys1 Hs n a) as (j & v & Hj & Htk); [|exact Hb|rewrite app_nil_r in Hj; eauto].
    eapply holds_view; [|exact Hh]. apply end_revoke_view.
Qed.
End system.

(** ** Witnesses: two tasks, an endpoint of the first, a child of its capability *)
Definition demo_task (p : Z) : Task unit :=
  mkTask p Ready 0 (ctable_new [] []) (with_limit HEAP_MAX_BYTES) tt (mkMailbox 0 0 0 [0; 0; 0; 0] 0) (mkIpc None false 0 0 None 0 0)
    (mkBudget 1 0 0 0 0) (mkAccount None 8 8 0 0 None 0 0) (mkLife None 0 None false) (mkCounters 0 0 0 0 0) false.
Definition demo : Scheduler TreeIndex.Tree.Tree unit Z :=
  mkScheduler [None; Some (demo_task 7); Some (demo_task 8)] (mkCpus [0%nat] [false] [false] ∅ []) (mkDeriv TreeIndex.Tree.tree_new [] 0)
    (mkPorts [false; false] [None; None] [] [] [] [] [] [] [] 0 0 0 0) 0.
Definition demo_root : Z := 2 ^ 24 + 43.
Definition demo1 : Scheduler TreeIndex.Tree.Tree unit Z := run_call demo (EndpointCreate true true 1).
Definition demo2 : Scheduler TreeIndex.Tree.Tree unit Z := run_call demo1 (CapMint true true 1 (mkMailbox 0 demo_root 1 [0; 0; 0; 0] 0)).

Lemma demo_ok : caps_ok ∅ demo (fun _ => []) ∅.
Proof.
  destruct new_table as [Hok Hmap]. apply empty_ok; [exact Hok|exact Hmap|]. intros s t Ht.
  assert (exists p, t = demo_task p) as [p ->] by (destruct s as [|[|[|s]]]; cbn in Ht; simplify_eq; by eexists).
  split; [|split; [|done]].
  - split; cbn [demo_task table ctable_new cspace generations nodes]; rewrite ?length_resize, ?length_replicate; try done.
    + unfold SLOT_DYNAMIC, CAP_SLOTS. lia.
    + unfold CAP_SLOTS_MAX, CAP_SLOTS. lia.
    + apply Forall_replicate. unfold HANDLE_GENERATION_MAX. lia.
  - intros c. change (cspace (table (demo_task p))) with (replicate CAP_SLOTS (@None Capability)). by intros [-> _]%elem_of_replicate.
Qed.

Lemma demo_steps : rtc step (demo, []) (demo2, []).
Proof.
  eapply rtc_l; [apply (step_call demo [] (EndpointCreate true true 1)); [split; vm_compute; congruence|done]|].
  apply rtc_once. apply (step_call demo1 []); [split; vm_compute; congruence|done].
Qed.

Lemma demo2_held : holds demo2 (MkNode 2 1) (AtSlot 1 7 44).
Proof. cbn [holds]. eexists _, _, _. split; [vm_compute; reflexivity|]. split; vm_compute; reflexivity. Qed.

Lemma demo2_task : exists t, task demo2 1 = Some t /\ pid t = 7.
Proof. eexists. split; vm_compute; reflexivity. Qed.

Lemma demo2_live : ix_live (tree_of demo2) = 2%nat.
Proof. vm_compute. reflexivity. Qed.

(** The state reached, with what the witnesses need of it. *)
Lemma demo_reached : exists k : Scheduler TreeIndex.Tree.Tree unit Z, rtc step (demo, []) (k, []) /\ holds k (MkNode 2 1) (AtSlot 1 7 44) /\
  (exists t, task k 1 = Some t /\ pid t = 7) /\ ix_live (tree_of k) = 2%nat.
Proof. exists demo2. exact (conj demo_steps (conj demo2_held (conj demo2_task demo2_live))). Qed.

Lemma caps_consistent_witness : exists (k : Scheduler TreeIndex.Tree.Tree unit Z) par', sys_ok par' k [] /\
  (forall n n' a a', holds k n a -> holds k n' a' -> node_id n = node_id n' -> a = a') /\ holds k (MkNode 2 1) (AtSlot 1 7 44).
Proof.
  destruct demo_reached as (k & Hr & Hh & _).
  destruct (caps_consistent ∅ demo [] k [] (sys_start _ _ _ demo_ok) Hr) as (par' & _ & A & B & _).
  exists k, par'. exact (conj A (conj B Hh)).
Defined.

Lemma revocation_no_panic_witness : exists k : Scheduler TreeIndex.Tree.Tree unit Z, holds k (MkNode 2 1) (AtSlot 1 7 44) /\
  forall slot h, is_Some (cap_revoke k slot h 0 0 0).
Proof.
  destruct demo_reached as (k & Hr & Hh & _). exists k. split; [exact Hh|]. intros slot h.
  exact (proj2 (revocation_no_panic ∅ demo [] k [] (sys_start _ _ _ demo_ok) Hr) slot h 0%nat 0 0).
Defined.

Lemma revoke_complete_witness : exists (k : Scheduler TreeIndex.Tree.Tree unit Z) par k' job,
  revoke_all 1 k 1 1 0 (fun _ => (0, 0)) = Some (k', job) /\ holds k (MkNode 2 1) (AtSlot 1 7 44) /\ below par 1 2 /\
  (forall n a, holds k' n a <-> holds k n a /\ ~ below par 1 (node_id n)).
Proof.
  destruct demo_reached as (k & Hr & Hh & (t & Ht & _) & Hl). destruct (reached_alone _ _ _ _ demo_ok Hr) as (par & kids & Hok).
  destruct (revoke_complete par k kids 1 t 1 0 (fun _ => (0, 0)) 1 Hok Ht) as (k' & job & kids' & A & B & _); [discriminate| |].
  - rewrite (law_live (tree_of k) (co_tree _ _ _ _ Hok)) in Hl. unfold mp. rewrite Hl. vm_compute. lia.
  - exists k, par, k', job. split; [exact A|]. split; [exact Hh|]. split; [|exact B].
    apply below_kid. exact (no_par _ _ _ _ (co_holds _ _ _ _ Hok _ _ Hh)).
Defined.

Lemma revoke_step_bounded_witness : exists (k k' : Scheduler TreeIndex.Tree.Tree unit Z) job' finished,
  holds k (MkNode 2 1) (AtSlot 1 7 44) /\ revoke_step k (first_job 1 7 1) 0 0 0 = Some (k', job', finished).
Proof.
  destruct demo_reached as (k & Hr & Hh & (t & Ht & Hpid) & Hl). destruct (reached_alone _ _ _ _ demo_ok Hr) as (par & kids & Hok).
  destruct (begin_ok par k kids ∅ ∅ 1 t 1 Hok (fun u Hu => Hu) Ht) as (Hok1 & Hj1 & Hh1 & _). rewrite Hpid in Hj1.
  destruct (revoke_step_bounded par ∅ 0 0 0 _ kids ∅ _ Hok1 Hj1) as (k' & job' & fin & _ & _ & E & _).
  eexists _, k', job', fin. split; [|exact E]. apply Hh1. exact Hh.
Defined.

(** [CAP_REVOKE] of the endpoint the first task made: it returns at once and the capability minted from it is gone. *)
Lemma demo2_revoked : exists k2 t, cap_revoke demo2 1 demo_root 0 0 0 = Some (k2, Ok None) /\ task demo2 1 = Some t /\
  index (table t) demo_root = Some 43%nat /\ node_at (table t) 43 = MkNode 1 0.
Proof. eexists _, _. split; [vm_compute; reflexivity|]. split; [vm_compute; reflexivity|]. split; vm_compute; reflexivity. Qed.

Lemma revoke_finished_witness : exists (k2 : Scheduler TreeIndex.Tree.Tree unit Z) par', cap_revoke demo2 1 demo_root 0 0 0 = Some (k2, Ok None) /\
  below par' 1 2 /\ forall n a, holds k2 n a -> ~ below par' 1 (node_id n).
Proof.
  destruct demo2_revoked as (k2 & t & Hc & Ht & Hi & Hn).
  destruct (revoke_finished ∅ demo [] demo2 [] (sys_start _ _ _ demo_ok) demo_steps) as (par' & _ & (kids & U & Hok & _) & _ & Hleft).
  exists k2, par'. split; [exact Hc|]. split; [apply below_kid; exact (no_par _ _ _ _ (co_holds _ _ _ _ Hok _ _ demo2_held))|].
  intros n a Hh Hb. destruct (Hleft 1%nat demo_root 0%nat 0 0 k2 t 43%nat Hc Ht Hi n a Hh) as (j & v & Hj & _); [rewrite Hn; exact Hb|exact (not_elem_of_nil _ Hj)].
Defined.
