(* ===== verification/Dispatch.v ===== *)
(** * Which task a CPU runs next ([kernel/src/scheduler.rs]: [ready], [release_held], [select], [wake_idle], [timers])

    Two bands, a budget per period and a round robin within each band; the task whose frame the compositor copies is held.
    The clock readings are arguments, the IPIs sent are the log of [Cpus]; saving the old context, the page-table root and
    the mailbox pointer of the next task are outside. The theorems: [select] runs a ready task of the CPU with budget left,
    of the system band while it has one, and gives way to idle only when neither band has any; a task that used up its
    budget waits for its next period. The periods are 64-bit sums as the kernel is built, without overflow checks, and
    [SCHED_SET] takes any period: the theorems say which periods are sound, and [long_period_panics] what the others do. *)
From S2P Require Import Prelude Abi TaskState Caps UserHeap NodeIndex Kernel Derivation CapOps Ipc.
Local Open Scope nat_scope.

Definition BAND_SYSTEM : Z := 0.
Definition BAND_APPLICATION : Z := 1.
Definition BAND_KEEP : Z := 255.
Definition HOLD_NS : Z := 1000000000.

(** The dispatcher's own fields: each CPU's slots, the last pick per band, the held and the wanted task (slot, PID, since
    when, compositor), the accounting of time. *)
Record Dispatcher : Type := mkDispatcher {
  on_cpu : list (list nat); cursor : list (nat * nat);
  held : option (nat * Z * Z * nat); wanted : option (nat * Z * nat);
  last_switch : list Z; busy_ns : list Z; idle_ns : list Z; interrupts : list Z; switches : list Z;
}.

Section dispatch.
Context {T Sp Po : Type} `{!NodeIndex T, !Space Sp, !Pool Po}.
Abbreviation Sched := (Scheduler T Sp Po).
Implicit Types (k : Sched) (d : Dispatcher).

(** A task's budget is not used up. *)
Definition in_budget (b : Budget) : bool := (budget_ns b =? 0)%Z || (consumed b <? budget_ns b)%Z.

(** [ready]. *)
Definition is_held d (slot : nat) (p : Z) : bool := match held d with Some (h, hp, _, _) => (h =? slot) && (hp =? p)%Z | None => false end.
Definition ready k d (slot c : nat) (b : Z) : bool :=
  if slot =? 0 then (b =? BAND_APPLICATION)%Z
  else match task k slot with
       | Some t => (cpu t =? c) && (band (budget t) =? b)%Z && in_budget (budget t) && bool_decide (state t = Ready) && negb (is_held d slot (pid t))
       | None => false
       end.

Definition with_held h w d : Dispatcher := mkDispatcher (on_cpu d) (cursor d) h w (last_switch d) (busy_ns d) (idle_ns d) (interrupts d) (switches d).

(** [release_held]. *)
Definition release_held k d : Sched * Dispatcher :=
  match held d with
  | None => (k, d)
  | Some (slot, p, _, _) =>
      let d := with_held None (wanted d) d in
      match task k slot with
      | Some t => if (pid t =? p)%Z && bool_decide (state t = Ready) then (mark k (cpu t), d) else (k, d)
      | None => (k, d)
      end
  end.

(** The end of a task's period, as the kernel adds it up. *)
Definition period_end (b : Budget) : Z := wrap64 (period_start b + period_ns b).

(** [wake_idle]: an IPI to each idle CPU a task became ready for, one until that CPU selects. *)
Definition runnable (now : Z) (count : nat) (t : Task Sp) : bool :=
  bool_decide (state t = Ready) && (cpu t <? count) && (in_budget (budget t) || (period_end (budget t) <=? now)%Z).
Definition wake_one (ready_cpus : gset nat) (this : nat) (c : Cpus) (other : nat) : Cpus :=
  if bool_decide (other ∈ ready_cpus) && negb (other =? this) && bool_decide (current c !! other = Some 0) && bool_decide (woken c !! other = Some false)
  then mkCpus (current c) (flush c) (<[other := true]> (woken c)) (readied c) (ipis c ++ [other]) else c.
Definition wake_idle k (count : nat) (now : Z) (this : nat) (every : bool) : Sched :=
  let c := cpus k in
  let ready_cpus := readied c ∪ (if every then list_to_set (map cpu (List.filter (runnable now count) (tasks_in k))) else ∅) in
  let k := set_cpus (mkCpus (current c) (flush c) (woken c) ∅ (ipis c)) k in
  if bool_decide (ready_cpus = ∅) then k else set_cpus (foldl (wake_one ready_cpus this) (cpus k) (seq 0 count)) k.

(** The last CPU's TLB flush is done: the tasks that waited for it go on. *)
Definition flushed_task k (slot : nat) : Sched :=
  match task k slot with
  | Some t => if bool_decide (state t = BlockedFlush) then mark (on_task k slot (set_state Ready)) (cpu t) else k
  | None => k
  end.
Definition flush_done k (count : nat) (now : Z) (c : nat) : Sched :=
  let cs := cpus k in
  let mine := default false (flush cs !! c) in
  let k := set_cpus (mkCpus (current cs) (<[c := false]> (flush cs)) (<[c := false]> (woken cs)) (readied cs) (ipis cs)) k in
  if mine && negb (existsb id (flush (cpus k)))
  then wake_idle (foldl flushed_task k (seq 0 (length (tasks k)))) count now c false else k.

(** A budget refilled at its period's end, for one task and for those of a CPU; [None] is the panic of a remainder by zero
    and of the [unwrap]. *)
Definition refill (now : Z) (t : Task Sp) : option (Task Sp) :=
  let b := budget t in
  if negb (budget_ns b =? 0)%Z && (period_end b <=? now)%Z
  then if (period_ns b =? 0)%Z then None
       else Some (set_budget (mkBudget (band b) (budget_ns b) (period_ns b) (wrap64 (now - wrap64 (now - period_start b) mod period_ns b)) 0) t)
  else Some t.
Fixpoint refill_all (now : Z) k (mine : list nat) : option Sched :=
  match mine with
  | [] => Some k
  | slot :: mine => t ← task k slot; t ← refill now t; refill_all now (on_task k slot (fun _ => t)) mine
  end.

(** The time since the last switch, booked to the task that ran. *)
Definition book (elapsed fast : Z) (t : Task Sp) : Task Sp :=
  let '(b, c) := (budget t, counters t) in
  set_counters (mkCounters (runs c) (calls c + fast) (run_ns c + elapsed) (sends c) (receives c))
    (set_budget (mkBudget (band b) (budget_ns b) (period_ns b) (period_start b) (consumed b + elapsed)) t).
Definition add_at (l : list Z) (i : nat) (v : Z) : list Z := alter (Z.add v) i l.
Definition count_run (t : Task Sp) : Task Sp :=
  let c := counters t in set_counters (mkCounters (runs c + 1) (calls c) (run_ns c) (sends c) (receives c)) t.

(** The compositor's hold as the current task gives way: taken where the wanted task starts to wait, let go where the
    compositor itself does. *)
Definition waits_or_sleeps (s : State) : bool := match s with Sleeping _ | BlockedRecv _ => true | _ => false end.
Definition take_hold k d (cur : nat) (now : Z) : Dispatcher :=
  match wanted d with
  | Some (slot, p, holder) =>
      if (slot =? cur) && match task k slot with Some t => (pid t =? p)%Z && waits_or_sleeps (state t) | None => false end
      then with_held (Some (slot, p, now, holder)) None d else d
  | None => d
  end.
Definition drop_hold k d (count cur c : nat) (now : Z) : Sched * Dispatcher :=
  if negb (cur =? 0) && match held d with Some (_, _, _, holder) => holder =? cur | None => false end
     && match task k cur with Some t => negb (bool_decide (state t = Ready)) | None => true end
  then let '(k, d) := release_held k d in (wake_idle k count now c false, d) else (k, d).

(** The pick: the system band first, each band from its cursor on. *)
Definition pick k d (c : nat) (mine : list nat) : nat * (nat * nat) :=
  let '(sys, app) := default (0, 0) (cursor d !! c) in
  match next_in mine sys (fun i => ready k d i c BAND_SYSTEM) with
  | 0 => let next := next_in mine app (fun i => ready k d i c BAND_APPLICATION) in (next, (sys, next))
  | next => (next, (next, app))
  end.

(** [select] up to the pick: the flush, the accounting of time, the hold, this CPU's tasks and their refilled budgets.
    [fast] is what the CPU answered without the lock. *)
Definition mine_of k d (c : nat) : list nat :=
  List.filter (fun slot => match task k slot with Some t => cpu t =? c | None => false end) (default [] (on_cpu d !! c)).
Definition settle k d (count c : nat) (now fast : Z) : option (Sched * Dispatcher * list nat) :=
  let cur := default 0 (current (cpus k) !! c) in
  let k := flush_done k count now c in
  let elapsed := saturating_sub now (default 0%Z (last_switch d !! c)) in
  let d := mkDispatcher (on_cpu d) (cursor d) (held d) (wanted d) (<[c := now]> (last_switch d))
             (if cur =? 0 then busy_ns d else add_at (busy_ns d) c elapsed) (if cur =? 0 then add_at (idle_ns d) c elapsed else idle_ns d)
             (add_at (interrupts d) c fast) (switches d) in
  let d := take_hold k d cur now in
  let '(k, d) := drop_hold k d count cur c now in
  let k := if cur =? 0 then k else on_task k cur (book elapsed fast) in
  let mine := mine_of k d c in
  k ← refill_all now k mine; Some (k, d, mine).

(** [select]: the new state and the slot the CPU runs. *)
Definition select k d (count c : nat) (now fast : Z) : option (Sched * Dispatcher * nat) :=
  let cur := default 0 (current (cpus k) !! c) in
  '(k, d, mine) ← settle k d count c now fast;
  let '(next, picked) := pick k d c mine in
  let d := mkDispatcher (<[c := mine]> (on_cpu d)) (<[c := picked]> (cursor d)) (held d) (wanted d) (last_switch d) (busy_ns d) (idle_ns d) (interrupts d)
             (if next =? cur then switches d else add_at (switches d) c 1) in
  let k := set_cpus (mkCpus (<[c := next]> (current (cpus k))) (flush (cpus k)) (woken (cpus k)) (readied (cpus k)) (ipis (cpus k))) k in
  Some (if next =? 0 then k else on_task k next count_run, d, next).

(** [SCHED_SET]: a task's budget, period and band, set by its parent or by a holder of [Control]. *)
Definition sched_set k (slot : nat) (now : Z) (m : Mailbox) : Sched * result Z Z :=
  match task k slot, find_pid k (arg1 m) with
  | None, _ => (k, Err ERR_INVALID)
  | Some _, None => (k, Err ERR_NOT_FOUND)
  | Some caller, Some target =>
      let '(budget_us, period_us, b) := (arg2 m, msg_at m 0, msg_at m 1) in
      let owner := match task k target with Some t => bool_decide (parent (account t) = Some (slot, pid caller)) | None => false end in
      let control := holds_cap caller Control in
      let banding := control || holds_cap caller Platform || holds_cap caller Restart in
      if negb (owner || control) || negb (b =? BAND_KEEP)%Z && negb banding then (k, Err ERR_RIGHTS)
      else if negb (budget_us =? 0)%Z && ((period_us <? 10000)%Z || (period_us <? budget_us)%Z)
              || negb ((b =? BAND_SYSTEM)%Z || (b =? BAND_APPLICATION)%Z || (b =? BAND_KEEP)%Z) then (k, Err ERR_INVALID)
      else (on_task k target (fun t => set_budget
              (mkBudget (if (b =? BAND_KEEP)%Z then band (budget t) else b) (wrap64 (budget_us * 1000)) (wrap64 (period_us * 1000)) now 0) t), Ok 0%Z)
  end.

(** [timers]: sleeps and deadlines that are due, a hold that lasted too long. *)
Definition wake_sleeper (ns : Z) (k : Sched) (slot : nat) : Sched :=
  match task k slot with
  | Some t =>
      match state t with
      | Sleeping due =>
          let s := wake (state t) ns in
          if bool_decide (s = Ready) then mark (on_task k slot (set_state Ready)) (cpu t)
          else let po := ports k in set_ports (with_times (last_send po) (next_expiry po) (Z.min (next_wake po) due) po) k
      | _ => k
      end
  | None => k
  end.
Definition wake_sleepers (ns : Z) k : Sched :=
  if (next_wake (ports k) <=? ns)%Z then
    let po := ports k in
    let k := set_ports (with_times (last_send po) (next_expiry po) U64_MAX po) k in
    foldl (wake_sleeper ns) k (seq 0 (length (tasks k)))
  else k.
Definition timers k d (count c : nat) (now ns : Z) (every : bool) : Sched * Dispatcher :=
  let k := wake_sleepers ns k in
  let k := if (next_expiry (ports k) <=? now)%Z then (expire k now).1 else k in
  let '(k, d) := match held d with
                 | Some (_, _, since, _) => if (HOLD_NS <=? saturating_sub ns since)%Z then release_held k d else (k, d)
                 | None => (k, d)
                 end in
  (wake_idle k count ns c every, d).

(** ** The pick *)
Lemma next_in_found slots cur p : next_in slots cur p <> 0 -> next_in slots cur p ∈ slots /\ p (next_in slots cur p) = true.
Proof.
  unfold next_in. intros H. destruct (List.find p _) as [s|] eqn:E; [|done]. apply List.find_some in E as [Hin Hp]. cbn in *. split; [|done].
  apply list_elem_of_In in Hin. rewrite <- (take_drop (partition_point (fun slot => slot <=? cur) slots) slots). rewrite elem_of_app in *. tauto.
Qed.

Lemma next_in_none slots cur p : next_in slots cur p = 0 -> (forall s, s ∈ slots -> s <> 0) -> forall s, s ∈ slots -> p s = false.
Proof.
  unfold next_in. intros H Hne s Hs. set (after := partition_point _ _) in *.
  assert (s ∈ drop after slots ++ take after slots) as Hin by (rewrite <- (take_drop after slots) in Hs; rewrite elem_of_app in *; tauto).
  destruct (List.find p _) as [x|] eqn:E.
  - cbn in H. subst x. apply List.find_some in E as [Hin0 _]. apply list_elem_of_In in Hin0. exfalso. apply (Hne 0); [|done].
    rewrite <- (take_drop after slots). rewrite elem_of_app in *. tauto.
  - apply List.find_none with (x := s) in E; [done|]. by apply list_elem_of_In.
Qed.

Lemma pick_spec k d c mine : (forall s, s ∈ mine -> s <> 0) ->
  let next := (pick k d c mine).1 in
  (next <> 0 -> next ∈ mine /\ exists t, task k next = Some t /\ cpu t = c /\ state t = Ready /\ in_budget (budget t) = true /\ is_held d next (pid t) = false /\
     (band (budget t) = BAND_SYSTEM \/ band (budget t) = BAND_APPLICATION /\ forall s, s ∈ mine -> ready k d s c BAND_SYSTEM = false)) /\
  (next = 0 -> forall s, s ∈ mine -> ready k d s c BAND_SYSTEM = false /\ ready k d s c BAND_APPLICATION = false).
Proof.
  intros Hne. unfold pick. destruct (default (0, 0) (cursor d !! c)) as [sys app].
  assert (forall s b, s <> 0 -> ready k d s c b = true ->
    exists t, task k s = Some t /\ cpu t = c /\ state t = Ready /\ in_budget (budget t) = true /\ is_held d s (pid t) = false /\ band (budget t) = b) as Hready.
  { intros s b Hs Hr. unfold ready in Hr. rewrite (proj2 (Nat.eqb_neq _ _) Hs) in Hr. destruct (task k s) as [t|]; [|done]. exists t.
    apply andb_true_iff in Hr as [[[[H1%Nat.eqb_eq H2%Z.eqb_eq]%andb_true_iff H3]%andb_true_iff H4%bool_decide_eq_true]%andb_true_iff H5%negb_true_iff]. done. }
  destruct (next_in mine sys _) as [|n] eqn:E1.
  - cbn [fst]. pose proof (next_in_none _ _ _ E1 Hne) as Hsys. destruct (next_in mine app _) as [|m] eqn:E2.
    + split; [done|]. intros _ s Hs. split; [by apply Hsys|]. exact (next_in_none _ _ _ E2 Hne s Hs).
    + split; [|done]. intros _. pose proof (next_in_found mine app (fun i => ready k d i c BAND_APPLICATION)) as Hf. rewrite E2 in Hf. destruct (Hf ltac:(done)) as [F1 F2]. split; [done|].
      destruct (Hready (S m) _ (Nat.neq_succ_0 m) F2) as (t & ? & ? & ? & ? & ? & ?). exists t. split_and!; try done. right. done.
  - cbn [fst]. split; [|done]. intros _. pose proof (next_in_found mine sys (fun i => ready k d i c BAND_SYSTEM)) as Hf. rewrite E1 in Hf. destruct (Hf ltac:(done)) as [F1 F2]. split; [done|].
    destruct (Hready (S n) _ (Nat.neq_succ_0 n) F2) as (t & ? & ? & ? & ? & ? & ?). exists t. split_and!; try done. by left.
Qed.

(** ** What happens to a task between two picks *)

(** A task's period is sound at [now]: positive, no longer than half the range of the clock (292 years) and begun. A task
    without a budget may have any. *)
Definition period_sound (now : Z) (t : Task Sp) : Prop :=
  (budget_ns (budget t) <> 0 -> 0 < period_ns (budget t) <= 2 ^ 63 /\ 0 <= period_start (budget t) <= now)%Z.
Definition sound (now : Z) k : Prop := (0 <= now < 2 ^ 63)%Z /\ forall s t, task k s = Some t -> period_sound now t.

(** The task's budget is used up and its period is not over. *)
Definition spent (now : Z) (t : Task Sp) : Prop :=
  (budget_ns (budget t) <> 0 /\ budget_ns (budget t) <= consumed (budget t) /\ now < period_start (budget t) + period_ns (budget t))%Z.

(** [t] becomes [t'] without a task of its own running: who it is, where it runs and its parameters stay, and it does not
    start to wait; a sound period stays sound and gives no budget back before its end. *)
Definition evolves (now : Z) (t t' : Task Sp) : Prop :=
  pid t' = pid t /\ cpu t' = cpu t /\ band (budget t') = band (budget t) /\ budget_ns (budget t') = budget_ns (budget t) /\
  (state t = Ready -> state t' = Ready) /\ (period_sound now t -> period_sound now t' /\ (spent now t -> spent now t')).
Definition keeps now k k' : Prop := forall s, option_Forall2 (evolves now) (task k s) (task k' s).

Lemma evolves_refl now t : evolves now t t.
Proof. done. Qed.
#[local] Instance keeps_preorder now : PreOrder (keeps now).
Proof.
  split.
  - intros k s. destruct (task k s); constructor. apply evolves_refl.
  - intros k1 k2 k3 H1 H2 s. specialize (H1 s). specialize (H2 s). inversion H1 as [t u Hu E1 E2|E1 E2]; rewrite <- E2 in H2; inversion H2 as [? v Hv|]; subst; constructor.
    unfold evolves in *. intuition congruence.
Qed.

Lemma keeps_tasks now k k' : tasks k' = tasks k -> keeps now k k'.
Proof. intros E s. unfold task. rewrite E. destruct (mjoin _); constructor. apply evolves_refl. Qed.
Lemma keeps_on_task now k s f : (forall t, task k s = Some t -> evolves now t (f t)) -> keeps now k (on_task k s f).
Proof.
  intros Hf s'. unfold task, on_task in *. cbn. destruct (decide (s = s')) as [->|Hne].
  - rewrite list_lookup_alter, decide_True by done. destruct (tasks k !! s') as [[t|]|]; cbn in *; constructor. by apply Hf.
  - rewrite list_lookup_alter, decide_False by done. destruct (mjoin (tasks k !! s')); constructor. apply evolves_refl.
Qed.
Lemma keeps_fold {A} now (f : Sched -> A -> Sched) l k : (forall k x, keeps now k (f k x)) -> keeps now k (foldl f k l).
Proof. intros Hf. revert k. induction l as [|x l IH]; intros k; cbn; [reflexivity|]. etrans; [apply Hf|apply IH]. Qed.

Lemma keeps_wake_idle now k count at_ this every : keeps now k (wake_idle k count at_ this every).
Proof. unfold wake_idle. destruct (bool_decide _); by apply keeps_tasks. Qed.
Lemma keeps_flush_done now k count at_ c : keeps now k (flush_done k count at_ c).
Proof.
  unfold flush_done. destruct (_ && _); [|by apply keeps_tasks]. etrans; [|apply keeps_wake_idle]. etrans; [|apply keeps_fold].
  - by apply keeps_tasks.
  - intros k' s. unfold flushed_task. destruct (task k' s) as [t|]; [|reflexivity]. destruct (bool_decide _); [|reflexivity]. etrans; [|by apply keeps_tasks].
    apply keeps_on_task. intros t' _. done.
Qed.
Lemma keeps_drop_hold now k d count cur c at_ : keeps now k (drop_hold k d count cur c at_).1.
Proof.
  unfold drop_hold, release_held. destruct (_ && _ && _); [|reflexivity]. destruct (held d) as [[[[slot p] ?] ?]|]; [|apply keeps_wake_idle].
  destruct (task k slot) as [t|]; [|apply keeps_wake_idle]. destruct (_ && _); cbn [fst]; [|apply keeps_wake_idle]. etrans; [|apply keeps_wake_idle]. by apply keeps_tasks.
Qed.
Lemma period_end_sum now t : (0 <= now < 2 ^ 63)%Z -> period_sound now t -> budget_ns (budget t) <> 0%Z ->
  period_end (budget t) = (period_start (budget t) + period_ns (budget t))%Z.
Proof. intros Hn Hs Hb. destruct (Hs Hb). unfold period_end, wrap64, W64. apply Z.mod_small. lia. Qed.

(** A sound period is refilled without a panic: it starts again a whole number of periods on. *)
Lemma refill_sound now t : (0 <= now < 2 ^ 63)%Z -> period_sound now t -> is_Some (refill now t).
Proof. intros Hn Hs. unfold refill. destruct (_ && _) eqn:E; [|done]. apply andb_true_iff in E as [E%negb_true_iff%Z.eqb_neq _]. destruct (Hs E). by rewrite (proj2 (Z.eqb_neq _ _)) by lia. Qed.
Lemma refill_evolves now t t' : (0 <= now < 2 ^ 63)%Z -> refill now t = Some t' -> evolves now t t'.
Proof.
  intros Hn. unfold refill. destruct (_ && _) eqn:Er; [|intros [= <-]; apply evolves_refl]. apply andb_true_iff in Er as [E1%negb_true_iff%Z.eqb_neq E2%Z.leb_le].
  destruct (Z.eqb_spec (period_ns (budget t)) 0) as [|Hp]; [done|]. intros [= <-]. unfold evolves. cbn. split_and!; try done. intros Hs.
  rewrite (period_end_sum now) in E2 by done. split; [|intros (? & ? & ?); lia]. intros _. destruct (Hs E1) as [H1 H2]. cbn. split; [done|].
  assert (wrap64 (now - period_start (budget t)) = now - period_start (budget t))%Z as -> by (unfold wrap64, W64; apply Z.mod_small; lia).
  pose proof (Z.mod_pos_bound (now - period_start (budget t)) (period_ns (budget t)) ltac:(lia)).
  pose proof (Z.mod_le (now - period_start (budget t)) (period_ns (budget t)) ltac:(lia) ltac:(lia)).
  unfold wrap64, W64. rewrite Z.mod_small; lia.
Qed.
Lemma keeps_refill_all now mine k k' : (0 <= now < 2 ^ 63)%Z -> refill_all now k mine = Some k' -> keeps now k k'.
Proof.
  intros Hn. revert k. induction mine as [|s mine IH]; intros k; cbn; [by intros [= <-]|]. destruct (task k s) as [t|] eqn:Et; cbn; [|done].
  destruct (refill now t) as [t1|] eqn:Er; cbn; [|done]. intros H%IH. etrans; [|exact H]. apply keeps_on_task. intros u Hu. simplify_eq. by apply refill_evolves.
Qed.
Lemma sound_keeps now k k' : sound now k -> keeps now k k' -> sound now k'.
Proof.
  intros [Hn Hs] Hk. split; [done|]. intros s t Ht. specialize (Hk s). rewrite Ht in Hk. inversion Hk as [t0 ? Hev E|]; subst. symmetry in E.
  destruct Hev as (_ & _ & _ & _ & _ & Hp). by apply Hp, (Hs s).
Qed.
Lemma refill_all_sound now mine k : sound now k -> (forall s, s ∈ mine -> is_Some (task k s)) -> is_Some (refill_all now k mine).
Proof.
  revert k. induction mine as [|s mine IH]; intros k Hs Ht; cbn; [done|]. destruct (Ht s ltac:(set_solver)) as [t Et]. rewrite Et. cbn.
  destruct (refill_sound now t) as [t1 Er]; [apply Hs|by apply (proj2 Hs s)|]. rewrite Er. cbn.
  assert (keeps now k (on_task k s (fun _ => t1))) as Hk. { apply keeps_on_task. intros u Hu. simplify_eq. by apply refill_evolves; [apply Hs|]. }
  apply IH; [by eapply sound_keeps|]. intros s' Hs'. destruct (Ht s' ltac:(set_solver)) as [u Hu]. specialize (Hk s'). rewrite Hu in Hk. by inversion Hk; eexists.
Qed.

(** [settle] up to the refill. *)
Definition booked k d (count c : nat) (now fast : Z) : Sched * Dispatcher :=
  let cur := default 0 (current (cpus k) !! c) in
  let k := flush_done k count now c in
  let elapsed := saturating_sub now (default 0%Z (last_switch d !! c)) in
  let d := mkDispatcher (on_cpu d) (cursor d) (held d) (wanted d) (<[c := now]> (last_switch d))
             (if cur =? 0 then busy_ns d else add_at (busy_ns d) c elapsed) (if cur =? 0 then add_at (idle_ns d) c elapsed else idle_ns d)
             (add_at (interrupts d) c fast) (switches d) in
  let d := take_hold k d cur now in
  let '(k, d) := drop_hold k d count cur c now in
  (if cur =? 0 then k else on_task k cur (book elapsed fast), d).
Lemma settle_booked k d count c now fast : settle k d count c now fast =
  (let '(k, d) := booked k d count c now fast in let mine := mine_of k d c in k ← refill_all now k mine; Some (k, d, mine)).
Proof. unfold settle, booked. by destruct (drop_hold _ _ _ _ _ _). Qed.

Lemma keeps_booked k d count c now fast : keeps now k (booked k d count c now fast).1.
Proof.
  unfold booked. set (d' := take_hold _ _ _ _). pose proof (keeps_drop_hold now (flush_done k count now c) d' count (default 0 (current (cpus k) !! c)) c now) as Hd.
  destruct (drop_hold _ _ _ _ _ _) as [k2 d2] eqn:E. cbn [fst] in *. etrans; [etrans; [apply keeps_flush_done|exact Hd]|].
  destruct (_ =? 0); [reflexivity|]. apply keeps_on_task. intros t _. unfold evolves, period_sound, spent, book, saturating_sub. cbn. split_and!; try done.
  intros Hs. split; [done|]. intros (? & ? & ?). split_and!; [done|lia|done].
Qed.
Lemma mine_of_task k d c s : s ∈ mine_of k d c -> s ∈ default [] (on_cpu d !! c) /\ exists t, task k s = Some t /\ cpu t = c.
Proof.
  intros Hs%list_elem_of_In. apply filter_In in Hs as [Hin%list_elem_of_In Ht]. split; [done|]. destruct (task k s) as [t|]; [|done]. exists t. by apply Nat.eqb_eq in Ht.
Qed.
Lemma settle_returns k d count c now fast : sound now k -> is_Some (settle k d count c now fast).
Proof.
  intros Hs. rewrite settle_booked. pose proof (keeps_booked k d count c now fast) as Hk. destruct (booked _ _ _ _ _ _) as [k1 d1]. cbn [fst] in Hk.
  destruct (refill_all_sound now (mine_of k1 d1 c) k1) as [k2 E2]; [by eapply sound_keeps| |cbv zeta; rewrite E2; by eexists].
  intros s Hin. apply mine_of_task in Hin as (_ & t & -> & _). by eexists.
Qed.
Lemma keeps_settle k d count c now fast k1 d1 mine : (0 <= now < 2 ^ 63)%Z -> settle k d count c now fast = Some (k1, d1, mine) -> keeps now k k1.
Proof.
  intros Hn. rewrite settle_booked. pose proof (keeps_booked k d count c now fast) as Hk. destruct (booked _ _ _ _ _ _) as [k2 d2]. cbn [fst] in Hk.
  cbv zeta. destruct (refill_all _ _ _) as [k3|] eqn:Er; [|done]. cbn. intros [= <- <- <-]. etrans; [exact Hk|]. by eapply keeps_refill_all.
Qed.

(** ** The theorems *)

(** The CPU's list of slots holds every task of the CPU, and no idle slot. *)
Definition listed k d (c : nat) : Prop :=
  is_Some (on_cpu d !! c) /\ (forall s, s ∈ default [] (on_cpu d !! c) -> s <> 0) /\
  (forall s t, s <> 0 -> task k s = Some t -> cpu t = c -> s ∈ default [] (on_cpu d !! c)).

Lemma keeps_back now k k' s t : keeps now k k' -> task k' s = Some t -> exists t0, task k s = Some t0 /\ evolves now t0 t.
Proof. intros H E. specialize (H s). rewrite E in H. inversion H; subst. eauto. Qed.
Lemma keeps_on now k k' s t : keeps now k k' -> task k s = Some t -> exists t', task k' s = Some t' /\ evolves now t t'.
Proof. intros H E. specialize (H s). rewrite E in H. inversion H; subst. eauto. Qed.

(** [settle] keeps the list: what it drops are slots without a task of this CPU. *)
Lemma booked_on_cpu k d count c now fast : on_cpu (booked k d count c now fast).2 = on_cpu d.
Proof. unfold booked, take_hold, drop_hold, release_held. repeat (case_match; simplify_eq; try done). Qed.
Lemma settle_mine k d count c now fast k1 d1 mine : (0 <= now < 2 ^ 63)%Z -> listed k d c -> settle k d count c now fast = Some (k1, d1, mine) ->
  on_cpu d1 = on_cpu d /\ (forall s, s ∈ mine -> s <> 0) /\ (forall s t, s <> 0 -> task k1 s = Some t -> cpu t = c -> s ∈ mine).
Proof.
  intros Hn (_ & Hne & Hall) Hset. pose proof (keeps_settle _ _ _ _ _ _ _ _ _ Hn Hset) as Hk. rewrite settle_booked in Hset. pose proof (booked_on_cpu k d count c now fast) as Hon.
  destruct (booked _ _ _ _ _ _) as [k2 d2]. cbn [snd] in Hon. cbv zeta in Hset. destruct (refill_all _ _ _) as [k3|] eqn:Er; [|done]. cbn in Hset. injection Hset as <- <- <-. split; [done|]. split.
  - intros s [Hs _]%mine_of_task. apply Hne. by rewrite <- Hon.
  - intros s t Hs Ht Hc. destruct (keeps_back _ _ _ _ _ Hk Ht) as (t0 & H0 & Hev). apply list_elem_of_In, filter_In. split.
    { apply list_elem_of_In. rewrite Hon. eapply Hall; [done..|]. destruct Hev as (? & ? & ?). congruence. }
    destruct (keeps_back _ _ _ _ _ (keeps_refill_all _ _ _ _ Hn Er) Ht) as (t1 & -> & Hev1). apply Nat.eqb_eq. destruct Hev1 as (? & ? & ?). congruence.
Qed.



(** [SCHED_SET] of a period up to half the range of the clock keeps the periods sound. *)
Lemma on_task_at k s f s' t : task (on_task k s f) s' = Some t -> task k s' = Some t \/ exists u, task k s' = Some u /\ t = f u.
Proof.
  unfold task, on_task. cbn. rewrite list_lookup_alter. case_decide as Hd; [subst s'|by left]. destruct (tasks k !! s) as [[u|]|]; cbn; intros; simplify_eq; eauto.
Qed.
Lemma sched_set_sound now k slot m : sound now k -> (0 <= msg_at m 0 <= 2 ^ 63 / 1000)%Z -> (0 <= arg2 m)%Z -> sound now (sched_set k slot now m).1.
Proof.
  intros [Hn Hs] Hp Hb. unfold sched_set. destruct (task k slot) as [caller|]; [|done]. destruct (find_pid k (arg1 m)) as [target|]; [|done]. cbv zeta.
  destruct (negb _ || _); [done|]. destruct (_ || negb _) eqn:Hbad; [done|]. apply orb_false_iff in Hbad as [Hbad _].
  split; [done|]. intros s t Ht. cbn [fst] in Ht. apply on_task_at in Ht as [Ht|(u & _ & ->)]; [by apply (Hs s)|]. unfold period_sound. cbn. intros Hne. split; [|lia].
  destruct (Z.eqb_spec (arg2 m) 0) as [E|E]; [by rewrite E in Hne|]. cbn in Hbad. apply orb_false_iff in Hbad as [H1%Z.ltb_ge _].
  assert (2 ^ 63 / 1000 * 1000 <= 2 ^ 63)%Z by (vm_compute; discriminate). unfold wrap64, W64. rewrite Z.mod_small; lia.
Qed.



(** C7: a task that used up its budget does not run before its period is over, whatever is waiting, where every period is
    sound: then the kernel's sum of a period's start and length is its end. *)
Theorem budget_enforced k d count c now fast s t : listed k d c -> sound now k -> task k s = Some t -> s <> 0 -> spent now t ->
  exists k' d' next, select k d count c now fast = Some (k', d', next) /\ next <> s.
Proof.
  intros Hl Hsd Ht Hs Hsp. destruct (settle_returns k d count c now fast Hsd) as [[[k1 d1] mine] Es]. unfold select. rewrite Es. cbn [mbind option_bind].
  destruct (settle_mine _ _ _ _ _ _ _ _ _ (proj1 Hsd) Hl Es) as (_ & Hne & Hall). pose proof (keeps_settle _ _ _ _ _ _ _ _ _ (proj1 Hsd) Es) as Hk.
  destruct (pick_spec k1 d1 c mine Hne) as [Hsome _]. destruct (pick k1 d1 c mine) as [next picked]. cbn [fst] in *. eexists _, _, next. split; [reflexivity|]. intros ->.
  destruct (Hsome Hs) as (_ & t1 & Ht1 & _ & _ & Hb & _). destruct (keeps_on _ _ _ _ _ Hk Ht) as (t2 & Ht2 & (_ & _ & _ & _ & _ & Hsp2)). rewrite Ht1 in Ht2. injection Ht2 as <-.
  destruct (Hsp2 (proj2 Hsd s t Ht)) as [_ Hsp3]. destruct (Hsp3 Hsp) as (H1 & H2 & _).
  unfold in_budget in Hb. apply orb_true_iff in Hb as [Hb%Z.eqb_eq|Hb%Z.ltb_lt]; lia.
Qed.

(** ** Sleepers *)

(** No task sleeps past [next_wake], and no time is beyond half the range of the clock. *)
Definition wakes k : Prop := forall s t due, task k s = Some t -> state t = Sleeping due -> (next_wake (ports k) <= due /\ 0 <= due <= 2 ^ 63)%Z.
Definition woken_task (ns : Z) (t : Task Sp) : Task Sp := set_state (wake (state t) ns) t.

Lemma wake_due ns due : (0 <= ns < 2 ^ 63 -> 0 <= due <= 2 ^ 63 -> wake (Sleeping due) ns = if (due <=? ns) then Ready else Sleeping due)%Z.
Proof.
  intros Hn Hd. unfold wake, wrap64, W64. destruct (Z.leb_spec due ns).
  - rewrite Z.mod_small by lia. by rewrite (proj2 (Z.ltb_lt _ _)) by lia.
  - replace ((ns - due) mod 2 ^ 64)%Z with (ns - due + 2 ^ 64)%Z by (symmetry; rewrite <- (Z_mod_plus_full _ 1), Z.mod_small; lia).
    by rewrite (proj2 (Z.ltb_ge _ _)) by lia.
Qed.

(** One slot: its task is woken if due, the rest stays; [next_wake] goes to the deadline it keeps. *)
Lemma wake_sleeper_at ns k s : let k' := wake_sleeper ns k s in
  length (tasks k') = length (tasks k) /\ (forall s', s' <> s -> task k' s' = task k s') /\ task k' s = woken_task ns <$> task k s /\
  (next_wake (ports k') <= next_wake (ports k))%Z /\
  (forall t due, task k' s = Some t -> state t = Sleeping due -> (next_wake (ports k') <= due)%Z) /\
  (next_wake (ports k') = next_wake (ports k) \/ exists t, task k s = Some t /\ state t = Sleeping (next_wake (ports k')) /\ wake (state t) ns <> Ready).
Proof.
  unfold wake_sleeper. destruct (task k s) as [t|] eqn:Et; cbn; [|rewrite Et; split_and!; auto; done].
  assert (wake (state t) ns = state t -> Some t = Some (woken_task ns t)) as Hid by (intros E; unfold woken_task; rewrite E; by destruct t).
  destruct (state t) as [| |due|ep|ep|sv|ln| |] eqn:Es; try (cbn in Hid; rewrite Et; split_and!; auto; [lia|intros; simplify_eq; congruence]).
  destruct (bool_decide _) eqn:Eb.
  - apply bool_decide_eq_true in Eb. cbn. rewrite length_alter. assert (task (on_task k s (set_state Ready)) s = Some (set_state Ready t)) as E.
    { unfold task, on_task, set_tasks in *. cbn [tasks]. rewrite list_lookup_alter, decide_True by done. destruct (tasks k !! s) as [[u|]|]; cbn in *; by simplify_eq. }
    unfold task, mark in *. cbn [tasks on_task set_tasks set_cpus] in *. split_and!; auto; try lia.
    + intros s' Hs. by rewrite list_lookup_alter, decide_False by done.
    + rewrite E. unfold woken_task. by rewrite Es, Eb.
    + intros u due'. rewrite E. intros; simplify_eq.
  - apply bool_decide_eq_false in Eb. assert (wake (Sleeping due) ns = Sleeping due) as Ew by (unfold wake in *; by destruct (_ <? _)%Z).
    unfold task in *. cbn [tasks set_ports ports with_times next_wake]. rewrite Et. split_and!; auto; try lia.
    + intros u due' Hu Hd. simplify_eq. rewrite Es in Hd. simplify_eq. lia.
    + destruct (Z.min_spec (next_wake (ports k)) due) as [[_ ->]|[_ ->]]; [by left|right]. exists t. rewrite Es. auto.
Qed.

Lemma wake_slots ns k n : let k' := foldl (wake_sleeper ns) k (seq 0 n) in
  length (tasks k') = length (tasks k) /\ (forall s, n <= s -> task k' s = task k s) /\ (forall s, s < n -> task k' s = woken_task ns <$> task k s) /\
  (forall s t due, s < n -> task k' s = Some t -> state t = Sleeping due -> (next_wake (ports k') <= due)%Z).
Proof.
  induction n as [|n IH]; [cbn; split_and!; auto; lia|]. rewrite seq_S, foldl_app. cbn [foldl Nat.add]. cbn in IH. set (k1 := foldl _ k (seq 0 n)) in *.
  destruct IH as (H1 & H2 & H3 & H4). destruct (wake_sleeper_at ns k1 n) as (G1 & G2 & G3 & G4 & G5 & _). cbn. split_and!.
  - congruence.
  - intros s Hs. rewrite G2, H2 by lia. done.
  - intros s Hs. destruct (decide (s = n)) as [->|]; [rewrite G3, H2 by lia; done|]. rewrite G2, H3 by lia. done.
  - intros s t due Hs Ht Hd. destruct (decide (s = n)) as [->|]; [by eapply G5|]. etrans; [exact G4|]. eapply (H4 s t due); [lia| |done]. by rewrite <- G2 by lia.
Qed.

Lemma no_task k s : length (tasks k) <= s -> task k s = None.
Proof. intros H. unfold task. by rewrite lookup_ge_None_2. Qed.

(** the timers' pass over the sleepers wakes exactly the tasks whose deadline is not in the future, leaves every
    other task as it is, and afterwards [next_wake] is again no later than any deadline, so a pass that is skipped because
    [next_wake] is not due skips no sleeper. *)
Theorem sleepers_wake ns k : wakes k -> (0 <= ns < 2 ^ 63)%Z ->
  wakes (wake_sleepers ns k) /\
  forall s, task (wake_sleepers ns k) s =
    (fun t => set_state (match state t with Sleeping due => if (due <=? ns)%Z then Ready else Sleeping due | x => x end) t) <$> task k s.
Proof.
  intros Hw Hns. assert (forall t s, task k s = Some t -> woken_task ns t = set_state (match state t with Sleeping due => if (due <=? ns)%Z then Ready else Sleeping due | x => x end) t) as Hwt.
  { intros t s Ht. unfold woken_task. destruct (state t) as [| |due|ep|ep|sv|ln| |] eqn:Es; try done. destruct (Hw s t due Ht Es). by rewrite wake_due by done. }
  unfold wake_sleepers. destruct (Z.leb_spec (next_wake (ports k)) ns) as [Hdue|Hdue].
  - set (k0 := set_ports _ k). destruct (wake_slots ns k0 (length (tasks k0))) as (H1 & H2 & H3 & H4). set (k' := foldl _ k0 _) in *.
    assert (forall s, task k' s = woken_task ns <$> task k s) as Ht.
    { intros s. destruct (decide (s < length (tasks k0))); [by apply H3|]. rewrite no_task by (rewrite H1; lia). by rewrite no_task by (cbn in *; lia). }
    split.
    + intros s t due Hs Hd. assert (s < length (tasks k0)) as Hlt by (apply Nat.nle_gt; intros ?; rewrite no_task in Hs by lia; done). split; [by eapply H4|].
      rewrite Ht in Hs. destruct (task k s) as [t0|] eqn:E0; [|done]. cbn in Hs. injection Hs as <-. rewrite (Hwt _ _ E0) in Hd. cbn in Hd.
      destruct (state t0) as [| |due0|ep|ep|sv|ln| |] eqn:Es; try done. destruct (Z.leb_spec due0 ns); simplify_eq. by destruct (Hw s t0 due E0 Es).
    + intros s. rewrite Ht. destruct (task k s) as [t0|] eqn:E0; [|done]. cbn. by rewrite (Hwt _ _ E0).
  - split; [done|]. intros s. destruct (task k s) as [t0|] eqn:E0; [|done]. cbn. f_equal. assert (t0 = set_state (state t0) t0) as Hid by (by destruct t0).
    destruct (state t0) as [| |due|ep|ep|sv|ln| |] eqn:Es; try exact Hid. destruct (Hw s t0 due E0 Es). by rewrite (proj2 (Z.leb_gt _ _)) by lia.
Qed.
End dispatch.

(** ** Witnesses: an application, a system task without budget left, a sleeper, all on CPU 0 *)
Definition stand_in (p : Z) (s : State) (b : Budget) : Task unit :=
  mkTask p s 0 (MkCTable [] [] []) (with_limit 0) tt (mkMailbox 0 0 0 [] 0) (mkIpc None false 0 0 None 0 0) b
    (mkAccount None 0 0 0 0 None 0 0) (mkLife None 0 None false) (mkCounters 0 0 0 0 0) false.
Definition cpu0 : Scheduler TreeIndex.Tree.Tree unit Z :=
  mkScheduler [None; Some (stand_in 7 Ready (mkBudget 1 0 0 0 0)); Some (stand_in 8 Ready (mkBudget 0 5 100 1000 5)); Some (stand_in 9 (Sleeping 1040) (mkBudget 0 0 0 0 0))]
    (mkCpus [3] [false] [false] ∅ []) (mkDeriv TreeIndex.Tree.tree_new [] 0) (mkPorts [] [] [] [] [] [] [] [] [] 0 0 U64_MAX 1040) 0%Z.
Definition disp0 : Dispatcher := mkDispatcher [[1; 2; 3]] [(0, 0)] None None [1000%Z] [0%Z] [0%Z] [0%Z] [0%Z].

Lemma cpu0_listed : listed cpu0 disp0 0.
Proof.
  split; [by eexists|]. cbn. split; [set_solver by lia|]. intros [|[|[|[|s]]]] t Hs Ht _; [done|set_solver..|done].
Qed.

Lemma cpu0_sound now : (1000 <= now < 2 ^ 63)%Z -> sound now cpu0.
Proof.
  intros Hn. split; [lia|]. intros [|[|[|[|s]]]] t Ht; try discriminate; injection Ht as <-; intros Hb; cbn in *; try done. lia.
Qed.



Lemma budget_enforced_witness : (exists k' d' next, select cpu0 disp0 1 0 1050 0 = Some (k', d', next) /\ next <> 2) /\ snd <$> select cpu0 disp0 1 0 1100 0 = Some 2.
Proof.
  split; [|reflexivity].
  apply (budget_enforced cpu0 disp0 1 0 1050 0 2 (stand_in 8 Ready (mkBudget 0 5 100 1000 5)) cpu0_listed (cpu0_sound 1050 ltac:(lia))); [reflexivity|discriminate|].
  split; cbn; lia.
Defined.

(** A period of 2^61 microseconds is taken by [SCHED_SET] and is none in nanoseconds: the next [select] of the CPU panics.
    One of 2^64 / 1000 + 1 is as good as over at once: a task that used up its budget runs on in the same period. *)
Definition parent0 : Scheduler TreeIndex.Tree.Tree unit Z :=
  set_tasks [None; Some (mkTask 7 Ready 0 (MkCTable [Some Control] [] []) (with_limit 0) tt (mkMailbox 0 0 0 [] 0) (mkIpc None false 0 0 None 0 0) (mkBudget 1 0 0 0 0)
    (mkAccount None 0 0 0 0 None 0 0) (mkLife None 0 None false) (mkCounters 0 0 0 0 0) false); Some (stand_in 8 Ready (mkBudget 1 0 0 0 0))] cpu0.
Lemma long_period_panics : let '(k, r) := sched_set parent0 1 1000 (mkMailbox 0 8 1 [(2 ^ 61)%Z; BAND_KEEP] 0) in
  r = Ok 0%Z /\ select k disp0 1 0 1050 0 = None.
Proof. vm_compute. auto. Qed.
Lemma long_period_refills : let '(k, r) := sched_set parent0 1 1000 (mkMailbox 0 8 1 [(2 ^ 64 / 1000 + 1)%Z; BAND_KEEP] 0) in
  r = Ok 0%Z /\ exists k', select (on_task k 2 (book 5000 0)) disp0 1 0 1999 0 = Some k' /\
    (fun t => consumed (budget t)) <$> task k'.1.1 2 = Some 0%Z.
Proof. vm_compute. eauto. Qed.

Lemma sleepers_wake_witness : (state <$> task (wake_sleepers 1050 cpu0) 3) = Some Ready.
Proof.
  assert (wakes cpu0) as Hw. { intros [|[|[|[|s]]]] t due Ht Hd; try discriminate; injection Ht as <-; cbn in Hd; try discriminate. injection Hd as <-. vm_compute. intuition discriminate. }
  rewrite (proj2 (sleepers_wake 1050 cpu0 Hw ltac:(lia))). reflexivity.
Defined.
