(* ===== verification/Focus.v ===== *)
(** * Input focus ([kernel/src/scheduler.rs]: [focus], [push_notice], [route_key], [INPUT_LISTEN])

    Which task gets an input event: the focused one, or the task that listens to the key. A task's queue is the ring of
    [Rings]; the rest of a task is [Kernel]'s. The theorems: an event reaches one task at most, the one that is due; the
    attention key reaches none; and a listener that is held down through a second press can take a later release that
    belongs to the focused task. *)
From S2P Require Import Prelude Abi TaskState Rings Caps UserHeap NodeIndex Kernel Derivation CapOps Ipc Dispatch.
Local Open Scope nat_scope.

Definition KEY_POINTER : Z := 32.
Definition LISTEN_MODS : Z := 7.
Definition INPUT_QUEUE : nat := 64.
Definition INPUT_LISTENERS : nat := 8.
Definition NOTICES : nat := 8.

(** [event_key], [event_mods], [event_pressed]. *)
Definition event_key (e : Z) : Z := wrap16 (Z.shiftr e 8).
Definition event_mods (e : Z) : Z := wrap8 (Z.shiftr e 24).
Definition event_pressed (e : Z) : bool := Z.testbit e 32.

Record Listener : Type := mkListener { l_key : Z; l_mods : Z; l_slot : nat; l_pid : Z; down : bool }.
(** A task's input: its queue and whether it asked for the pointer. *)
Record Input : Type := mkInput { queue : Ring; pointer : bool }.
Record Focus : Type := mkFocus { foreground : nat; focus_owner : nat; listeners : list (option Listener); notices : list Z; inputs : list Input; redraw : bool }.

Section focus.
Context {T Sp Po : Type} `{!NodeIndex T, !Space Sp, !Pool Po}.
Abbreviation Sched := (Scheduler T Sp Po).
Implicit Types (k : Sched) (d : Dispatcher) (f : Focus).

Definition clear_input (i : Input) : Input := mkInput (events_clear (queue i)) (pointer i).
Definition push_input (e : Z) (i : Input) : Input := mkInput (events_push INPUT_QUEUE e (queue i)) (pointer i).
Definition set_inputs l f : Focus := mkFocus (foreground f) (focus_owner f) (listeners f) (notices f) l (redraw f).
Definition set_listeners l f : Focus := mkFocus (foreground f) (focus_owner f) l (notices f) (inputs f) (redraw f).

(** [focus]. *)
Definition focus k d f (slot : nat) : Sched * Dispatcher * Focus :=
  let f := mkFocus slot (focus_owner f) (listeners f) (notices f) (alter clear_input slot (alter clear_input (foreground f) (inputs f))) true in
  let '(k, d) := release_held k (with_held (held d) None d) in
  (k, d, f).

(** [push_notice]: dropped when the list is full. *)
Definition push_notice (value : Z) f : Focus :=
  if length (notices f) <? NOTICES then mkFocus (foreground f) (focus_owner f) (listeners f) (notices f ++ [value]) (inputs f) (redraw f) else f.

(** The listener that takes an event. *)
Definition takes (e : Z) (l : option Listener) : bool :=
  match l with
  | Some l => (l_key l =? event_key e)%Z && (if event_pressed e then (Z.land (event_mods e) LISTEN_MODS =? l_mods l)%Z else down l)
  | None => false
  end.
Definition taken f (e : Z) : option nat := if (event_key e =? 0)%Z then None else position (takes e) (listeners f).

(** The event to a task's queue, which wakes a sleeper. *)
Definition wake_reader k (slot : nat) : Sched :=
  match task k slot with
  | Some t => match state t with Sleeping _ => mark (on_task k slot (set_state Ready)) (cpu t) | _ => k end
  | None => k
  end.
Definition give k d f (slot : nat) (e : Z) : Sched * Dispatcher * Focus := (wake_reader k slot, d, set_inputs (alter (push_input e) slot (inputs f)) f).

(** [route_key]. *)
Definition route_key k d f (app owner : Z) (attention : bool) : Sched * Dispatcher * Focus :=
  let target := foreground f in
  if attention then
    if negb (target =? focus_owner f) && live k target && live k (focus_owner f) then
      match task k target with
      | Some t => let '(k, d, f) := focus k d f (focus_owner f) in (k, d, push_notice (pid t) f)
      | None => (k, d, f)
      end
    else (k, d, f)
  else
  match taken f owner with
  | Some i =>
      match mjoin (listeners f !! i) with
      | None => (k, d, f)
      | Some l =>
          let f := set_listeners (<[i := Some (mkListener (l_key l) (l_mods l) (l_slot l) (l_pid l) (event_pressed owner))]> (listeners f)) f in
          if live_as k (l_slot l) (l_pid l) && live k (l_slot l) then give k d f (l_slot l) owner else (k, d, f)
      end
  | None =>
      if negb (live k target) then (k, d, f) else
      let e := if target =? focus_owner f then owner else app in
      if (event_key e =? KEY_POINTER)%Z && negb (default false (pointer <$> inputs f !! target)) then (k, d, f) else give k d f target e
  end.

(** [SYSCALL_INPUT_LISTEN] by the task at [slot]: [on] registers the key, else it stops listening. *)
Definition input_listen k f (slot : nat) (arg : Z) (on : bool) : Focus * result Z Z :=
  let '(key, mods) := (wrap16 arg, wrap8 (Z.shiftr arg 16)) in
  if (key =? 0)%Z || (key =? KEY_POINTER)%Z || negb (Z.ldiff mods LISTEN_MODS =? 0)%Z || negb (Z.shiftr arg 24 =? 0)%Z then (f, Err ERR_INVALID) else
  let same := position (fun l => match l with Some l => (l_key l =? key)%Z && (l_mods l =? mods)%Z | None => false end) (listeners f) in
  if negb on then
    match same with
    | Some i => match mjoin (listeners f !! i) with
                | Some l => if l_slot l =? slot then (set_listeners (<[i := None]> (listeners f)) f, Ok 0%Z) else (f, Err ERR_NOT_FOUND)
                | None => (f, Err ERR_NOT_FOUND)
                end
    | None => (f, Err ERR_NOT_FOUND)
    end
  else
    match (match same with Some i => Some i | None => position (fun l => match l with None => true | Some _ => false end) (listeners f) end), task k slot with
    | Some i, Some t => (set_listeners (<[i := Some (mkListener key mods slot (pid t) false)]> (listeners f)) f, Ok 0%Z)
    | _, _ => (f, Err ERR_NO_SLOT)
    end.

(** ** The theorems *)

(** Who is due an event: the live listener that takes it, else the live focused task. *)
Definition due k f (app owner : Z) (slot : nat) (e : Z) : Prop :=
  live k slot = true /\
  match taken f owner with
  | Some i => e = owner /\ exists l, listeners f !! i = Some (Some l) /\ l_slot l = slot /\ l_key l = event_key owner /\ live_as k slot (l_pid l) = true
  | None => slot = foreground f /\ e = (if slot =? focus_owner f then owner else app) /\
            (event_key e = KEY_POINTER -> exists i, inputs f !! slot = Some i /\ pointer i = true)
  end.

(** C14: an input event is put in the queue of one task at most, the one that is due: the live task that listens to the
    key, else the live focused task, which gets a pointer event only if it asked for them; nobody else's queue changes, and
    the focus stays. The attention key is put in no queue: it gives the focus back to its owner or does nothing. *)
Theorem key_reaches_one k d f app owner :
  (let f' := (route_key k d f app owner false).2 in
   foreground f' = foreground f /\ focus_owner f' = focus_owner f /\
   (inputs f' = inputs f \/ exists slot e, due k f app owner slot e /\ inputs f' = alter (push_input e) slot (inputs f))) /\
  (let f' := (route_key k d f app owner true).2 in
   f' = f \/ (live k (focus_owner f) = true /\ foreground f' = focus_owner f /\ inputs f' = alter clear_input (focus_owner f) (alter clear_input (foreground f) (inputs f)))).
Proof.
  unfold route_key. cbn zeta. split.
  - destruct (taken f owner) as [i|] eqn:Et.
    + destruct (mjoin (listeners f !! i)) as [l|] eqn:El; [|by auto]. destruct (_ && _) eqn:Eb; [|cbn; auto]. apply andb_true_iff in Eb as [E1 E2]. cbn. split_and!; [done|done|right].
      exists (l_slot l), owner. split; [|done]. split; [done|]. rewrite Et. split; [done|]. exists l. destruct (listeners f !! i) as [[l'|]|] eqn:Eo; cbn in El; simplify_eq. split_and!; try done.
      unfold taken in Et. destruct (_ =? 0)%Z; [done|]. apply position_Some in Et as (x & Hx & Hp & _). rewrite Eo in Hx. injection Hx as <-. cbn in Hp. apply andb_true_iff in Hp as [Hp _]. by apply Z.eqb_eq.
    + destruct (live k (foreground f)) eqn:Elv; cbn [negb]; [|by auto]. destruct (_ && _) eqn:Eb; [by auto|]. cbn. split_and!; [done|done|right]. eexists _, _. split; [|done]. split; [done|]. rewrite Et.
      split_and!; [done|done|]. intros Hk. rewrite Hk, Z.eqb_refl in Eb. cbn in Eb. destruct (inputs f !! foreground f) as [i|]; cbn in Eb; [|done]. exists i. split; [done|]. by destruct (pointer i).
  - destruct (negb _ && _ && _) eqn:Eb; [|by left]. apply andb_true_iff in Eb as [[_ _]%andb_true_iff Eb]. destruct (task k (foreground f)) as [t|]; [|by left].
    unfold focus. destruct (release_held _ _) as [k1 d1]. right. unfold push_notice. case_match; cbn; auto.
Qed.

(** A release finds its listener: the one whose press was last, if no earlier one for the key is down. *)
Lemma release_follows f press release i l : taken f press = Some i -> listeners f !! i = Some (Some l) -> event_pressed press = true -> event_pressed release = false ->
  event_key release = event_key press ->
  (forall j l', j < i -> listeners f !! j = Some (Some l') -> l_key l' = event_key press -> down l' = false) ->
  taken (set_listeners (<[i := Some (mkListener (l_key l) (l_mods l) (l_slot l) (l_pid l) true)]> (listeners f)) f) release = Some i.
Proof.
  unfold taken. intros Ht Hl Hp Hr Hk Hearlier. rewrite Hk. destruct (_ =? 0)%Z; [done|]. cbn [listeners set_listeners]. apply position_Some in Ht as (x & Hx & Htk & _). simplify_eq.
  cbn in Htk. apply andb_true_iff in Htk as [Hkey _].
  assert (forall ls, (forall j l', j < i -> ls !! j = Some (Some l') -> l_key l' = event_key press -> down l' = false) -> ls !! i = Some (Some l) ->
    position (takes release) (<[i := Some (mkListener (l_key l) (l_mods l) (l_slot l) (l_pid l) true)]> ls) = Some i) as H; [|by apply H].
  clear -Hkey Hk Hr. induction i as [|i IH]; intros [|y ls] He Hls; try done.
  - match goal with |- context [<[0:=?x]> (y :: ls)] => change (<[0:=x]> (y :: ls)) with (x :: ls) end. cbn [position takes l_key down]. rewrite Hk, Hkey, Hr. done.
  - match goal with |- context [<[S i:=?x]> (y :: ls)] => change (<[S i:=x]> (y :: ls)) with (y :: <[i:=x]> ls) end. cbn [position]. assert (takes release y = false) as ->.
    { destruct y as [y|]; [|done]. cbn [takes]. rewrite Hk, Hr. destruct (Z.eqb_spec (l_key y) (event_key press)) as [E|]; [|done]. by rewrite (He 0 y (Nat.lt_0_succ _) eq_refl E). }
    rewrite IH; [done| |done]. intros j l' Hj Hl'. apply (He (S j) l'); [lia|done].
Qed.
End focus.

(** ** A press under other modifiers: the program at slot 1 listens to key 30 alone and to Ctrl with key 30; slot 2 has the focus *)
Definition key_event (mods : Z) (pressed : bool) : Z := (30 * 2 ^ 8 + mods * 2 ^ 24 + (if pressed then 2 ^ 32 else 0))%Z.
Definition three : Scheduler TreeIndex.Tree.Tree unit Z :=
  mkScheduler [None; Some (stand_in 7 Ready (mkBudget 1 0 0 0 0)); Some (stand_in 8 Ready (mkBudget 1 0 0 0 0)); Some (stand_in 9 Ready (mkBudget 1 0 0 0 0))]
    (mkCpus [0] [false] [false] ∅ []) (mkDeriv TreeIndex.Tree.tree_new [] 0) (mkPorts [] [] [] [] [] [] [] [] [] 0 0 U64_MAX U64_MAX) 0%Z.
Definition quiet : Input := mkInput (new INPUT_QUEUE) false.
Definition listening : Focus :=
  mkFocus 2 3 (Some (mkListener 30 0 1 7 false) :: Some (mkListener 30 2 1 7 false) :: replicate 6 None) [] [quiet; quiet; quiet; quiet] false.
Definition after_events (es : list Z) : Focus := (foldl (fun '(k, d, f) e => route_key k d f e e false) (three, disp0, listening) es).2.
Definition queued (f : Focus) (slot : nat) : list Z := match inputs f !! slot with Some i => contents INPUT_QUEUE (queue i) | None => [] end.

(** while a listened key is held, a repeat of it under the modifiers of a second listener leaves that listener down
    after the release; a later press of the key that goes to the focused task is then not followed there by its release,
    which goes to the listener. *)
Theorem release_can_go_astray :
  let held_through := [key_event 0 true; key_event 2 true; key_event 0 false] in
  queued (after_events held_through) 1 = held_through /\
  queued (after_events (held_through ++ [key_event 1 true; key_event 1 false])) 2 = [key_event 1 true] /\
  queued (after_events [key_event 1 true; key_event 1 false]) 2 = [key_event 1 true; key_event 1 false].
Proof. vm_compute. split_and!; reflexivity. Qed.
