(* ===== verification/Cobs.v ===== *)
(** * Consistent overhead byte stuffing ([linkproto/src/cobs.rs])

    [encode] and [decode] with their output buffers and bounds checks, a reference encoding on lists ([stuffed]), and
    the theorem that what [encode] writes has no zero byte, is at most [max_encoded] long and decodes to the data. *)
From S2P Require Import Prelude.
Local Open Scope nat_scope.

(** [*out.get_mut(at)? = b]. *)
Definition put (out : bytes) (at_ : nat) (b : Z) : option bytes :=
  if at_ <? length out then Some (<[at_ := b]> out) else None.

(** [out.get_mut(at..at + n)?.copy_from_slice(src)] with [n = src.len()]. *)
Definition put_slice (out : bytes) (at_ : nat) (src : bytes) : option bytes :=
  if at_ + length src <=? length out then Some (take at_ out ++ src ++ drop (at_ + length src) out) else None.

(** The loop of [encode]: [code_at], [o], [code] and the buffer. [code] is at most 255 ([encode_loop_spec]). *)
Fixpoint encode_loop (data : bytes) (code_at o code : nat) (out : bytes) : option (nat * bytes) :=
  match data with
  | [] => out ← put out code_at (Z.of_nat code); Some (o, out)
  | b :: data =>
      '(out, o, code) ← (if (b =? 0)%Z then Some (out, o, code)
                         else out ← put out o b; Some (out, o + 1, code + 1));
      if (b =? 0)%Z || (code =? 0xFF) then
        out ← put out code_at (Z.of_nat code);
        encode_loop data o (o + 1) 1 out
      else encode_loop data code_at o code out
  end.

Definition encode (data out : bytes) : option (nat * bytes) :=
  if length out =? 0 then None else encode_loop data 0 1 1 out.

(** The loop of [decode]; each turn moves [i] on by at least one, so [length data] turns are enough ([decode_enough]). *)
Fixpoint decode_loop (fuel : nat) (data out : bytes) (i o : nat) : option (nat * bytes) :=
  match fuel with
  | O => None
  | S fuel =>
      if i <? length data then
        let code := Z.to_nat (nth i data 0%Z) in
        if code =? 0 then None
        else
          let end_ := i + code in
          if length data <? end_ then None
          else
            let n := code - 1 in
            out ← put_slice out o (slice data (i + 1) (end_ - (i + 1)));
            let o := o + n in
            let i := end_ in
            if (code <? 0xFF) && (i <? length data) then
              out ← put out o 0%Z; decode_loop fuel data out i (o + 1)
            else decode_loop fuel data out i o
      else Some (o, out)
  end.

Definition decode (data out : bytes) : option (nat * bytes) := decode_loop (S (length data)) data out 0 0.

Definition max_encoded (n : nat) : nat := n + n / 254 + 1.

(** ** The reference encoding: [g] is the block being gathered. *)
Fixpoint stuff (g data : bytes) : bytes :=
  match data with
  | [] => Z.of_nat (length g + 1) :: g
  | b :: data =>
      if (b =? 0)%Z then Z.of_nat (length g + 1) :: g ++ stuff [] data
      else if length g + 2 =? 0xFF then 255%Z :: g ++ b :: stuff [] data
      else stuff (g ++ [b]) data
  end.

Definition stuffed (data : bytes) : bytes := stuff [] data.

(** ** The encoder writes the reference encoding *)
Lemma put_head P x T b : put (P ++ x :: T) (length P) b = Some (P ++ b :: T).
Proof.
  unfold put. rewrite (proj2 (Nat.ltb_lt _ _)) by (rewrite length_app; simpl; lia).
  f_equal. by rewrite insert_app_r_alt, Nat.sub_diag by lia.
Qed.

Lemma put_beyond out at_ b : length out <= at_ -> put out at_ b = None.
Proof. intros H. unfold put. by rewrite (proj2 (Nat.ltb_ge _ _)). Qed.

Lemma stuff_length g data : length g + 1 <= length (stuff g data).
Proof.
  revert g. induction data as [|b data IH]; intros g; simpl; [lia|].
  case_match; [simpl; rewrite length_app; lia|]. case_match; [simpl; rewrite length_app; lia|].
  specialize (IH (g ++ [b])). rewrite length_app in IH. simpl in IH. lia.
Qed.

(** What a result of the encoder must be when [P] is written and [w] is still to write. *)
Definition written (P w out : bytes) : option (nat * bytes) :=
  if length P + length w <=? length out then Some (length P + length w, P ++ w ++ drop (length P + length w) out) else None.

Lemma written_app P a a' R w :
  length a = length a' -> written (P ++ a) w (P ++ a ++ R) = written P (a ++ w) (P ++ a' ++ R).
Proof.
  intros Hl. unfold written. rewrite !length_app, Hl, !Nat.add_assoc. case_match; [|done].
  do 2 f_equal. rewrite <- !app_assoc. do 3 f_equal.
  rewrite !(drop_app_ge P), !(drop_app_ge a), !(drop_app_ge a') by lia. f_equal. lia.
Qed.

Lemma written_none P w out : length out < length P + length w -> written P w out = None.
Proof. intros H. unfold written. by rewrite (proj2 (Nat.leb_gt _ _)). Qed.

Lemma encode_loop_full data P : encode_loop data (length P) (length P + 1) 1 P = None.
Proof.
  destruct data as [|b data]; cbn [encode_loop]; [by rewrite put_beyond|].
  destruct (Z.eqb_spec b 0); cbn; by rewrite put_beyond by lia.
Qed.

(** The encoder on [data] writes the reference encoding, a block [g] gathered after the place [x] of its code. *)
Definition encodes (data : bytes) : Prop := forall P x g R, length g <= 253 ->
  encode_loop data (length P) (length P + 1 + length g) (length g + 1) (P ++ x :: g ++ R) =
    written P (stuff g data) (P ++ x :: g ++ R).

Lemma encodes_start data P R : encodes data ->
  encode_loop data (length P) (length P + 1) 1 (P ++ R) = written P (stuff [] data) (P ++ R).
Proof.
  intros IH. destruct R as [|y R].
  - rewrite app_nil_r, encode_loop_full, written_none; [done|]. pose proof (stuff_length [] data). simpl in *. lia.
  - pose proof (IH P y [] R ltac:(simpl; lia)) as H. simpl in H. by rewrite Nat.add_0_r in H.
Qed.

(** A finished block [a], in place of the as long [a'], and the encoder at the next. *)
Lemma encodes_block data P a a' R : encodes data -> length a = length a' ->
  encode_loop data (length P + length a) (length P + length a + 1) 1 (P ++ a ++ R) =
    written P (a ++ stuff [] data) (P ++ a' ++ R).
Proof.
  intros IH Hl. rewrite <- (written_app P a a' R) by done.
  pose proof (encodes_start data (P ++ a) R IH) as H. rewrite <- app_assoc, length_app in H. exact H.
Qed.

Lemma encodes_nil : encodes [].
Proof.
  intros P x g R Hg. cbn [encode_loop stuff]. rewrite put_head. cbn [mbind option_bind]. unfold written.
  replace (length P + 1 + length g) with (length P + length (Z.of_nat (length g + 1) :: g)) by (simpl; lia).
  rewrite (proj2 (Nat.leb_le _ _)) by (rewrite !length_app; simpl; rewrite length_app; lia).
  do 3 f_equal. rewrite drop_app_ge by lia.
  replace (length P + _ - length P) with (S (length g)) by (simpl; lia). simpl. by rewrite drop_app_length.
Qed.

Lemma encodes_zero data : encodes data -> encodes (0%Z :: data).
Proof.
  intros IH P x g R Hg. cbn [encode_loop stuff]. change (0 =? 0)%Z with true. cbn [mbind option_bind orb].
  rewrite put_head. cbn [mbind option_bind].
  pose proof (encodes_block data P (Z.of_nat (length g + 1) :: g) (x :: g) R IH eq_refl) as H.
  simpl in H. rewrite <- H. f_equal; simpl; lia.
Qed.

Lemma encodes_other data b : b <> 0%Z -> encodes data -> encodes (b :: data).
Proof.
  intros Hb IH P x g R Hg. cbn [encode_loop stuff]. rewrite (proj2 (Z.eqb_neq b 0)) by done.
  cbn [orb]. destruct R as [|y R].
  - rewrite app_nil_r, put_beyond by (rewrite length_app; simpl; lia).
    cbn. rewrite written_none; [done|]. rewrite length_app. simpl.
    pose proof (stuff_length [] data). pose proof (stuff_length (g ++ [b]) data).
    rewrite length_app in *. case_match; simpl in *; rewrite ?length_app; simpl; lia.
  - replace (P ++ x :: g ++ y :: R) with ((P ++ x :: g) ++ y :: R) by (by rewrite <- app_assoc).
    replace (length P + 1 + length g) with (length (P ++ x :: g)) by (rewrite length_app; simpl; lia).
    rewrite put_head. cbn [mbind option_bind]. rewrite <- !app_assoc. cbn [app].
    replace (length g + 1 + 1) with (length g + 2) by lia.
    destruct (Nat.eqb_spec (length g + 2) 255) as [He|He].
    + rewrite put_head. cbn [mbind option_bind].
      pose proof (encodes_block data P (255%Z :: g ++ [b]) (x :: g ++ [y]) R IH) as H.
      simpl in H. rewrite <- !app_assoc in H. simpl in H. rewrite <- H by (rewrite !length_app; simpl; lia).
      rewrite He. change (Z.of_nat 255) with 255%Z. f_equal; rewrite !length_app; simpl; lia.
    + pose proof (IH P x (g ++ [b]) R) as H. rewrite length_app in H. simpl in H. rewrite <- !app_assoc in H. simpl in H.
      replace (length (P ++ x :: g) + 1) with (length P + 1 + (length g + 1)) by (rewrite length_app; simpl; lia).
      replace (length g + 2) with (length g + 1 + 1) by lia. rewrite H by lia.
      pose proof (stuff_length (g ++ [b]) data) as Hs. rewrite length_app in Hs. simpl in Hs.
      unfold written. rewrite !length_app. simpl. rewrite !length_app. simpl. case_match; [|done].
      do 4 f_equal. rewrite !(drop_app_ge P) by lia.
      replace (x :: g ++ b :: R) with ((x :: g ++ [b]) ++ R) by (simpl; by rewrite <- app_assoc).
      replace (x :: g ++ y :: R) with ((x :: g ++ [y]) ++ R) by (simpl; by rewrite <- app_assoc).
      rewrite !drop_app_ge by (simpl; rewrite length_app; simpl; lia). f_equal. simpl. by rewrite !length_app.
Qed.

Lemma encodes_all data : encodes data.
Proof.
  induction data as [|b data IH]; [apply encodes_nil|].
  destruct (Z.eq_dec b 0%Z) as [->|Hb]; [by apply encodes_zero|by apply encodes_other].
Qed.

(** [encode] writes the reference encoding at the front of the buffer, or fails when the buffer is too small for it. *)
Lemma encode_stuffed data out :
  encode data out = if length (stuffed data) <=? length out
                    then Some (length (stuffed data), stuffed data ++ drop (length (stuffed data)) out) else None.
Proof.
  unfold encode. pose proof (stuff_length [] data) as Hs. destruct out as [|x out].
  - unfold stuffed. rewrite (proj2 (Nat.leb_gt _ _)) by (simpl in *; lia). done.
  - cbn [length Nat.eqb]. exact (encodes_start data [] (x :: out) (encodes_all data)).
Qed.

(** ** The reference encoding: no zero, bounded length *)
Lemma stuff_nonzero data : forall g, Forall (fun b => b <> 0%Z) g -> length g <= 253 ->
  Forall (fun b => b <> 0%Z) (stuff g data).
Proof.
  induction data as [|b data IH]; intros g Hg Hl; cbn [stuff].
  - constructor; [lia|done].
  - destruct (Z.eqb_spec b 0).
    + constructor; [lia|]. apply Forall_app; split; [done|]. apply IH; [constructor|simpl; lia].
    + destruct (Nat.eqb_spec (length g + 2) 255).
      * constructor; [done|]. apply Forall_app; split; [done|]. constructor; [done|].
        apply IH; [constructor|simpl; lia].
      * apply IH; [apply Forall_app; split; [done|by constructor]|rewrite length_app; simpl; lia].
Qed.

Lemma stuff_bytes data : forall g, Forall is_byte data -> Forall is_byte g -> length g <= 253 ->
  Forall is_byte (stuff g data).
Proof.
  induction data as [|b data IH]; intros g Hd Hg Hl; cbn [stuff].
  - constructor; [unfold is_byte; lia|done].
  - apply Forall_cons in Hd as [Hb Hd]. assert (Forall is_byte (stuff [] data)) by (apply IH; simpl; auto; lia).
    case_match; [|case_match eqn:He].
    + constructor; [unfold is_byte; lia|]. by apply Forall_app.
    + constructor; [done|]. apply Forall_app. auto.
    + apply Nat.eqb_neq in He. apply IH; [done|apply Forall_app; auto|rewrite length_app; simpl; lia].
Qed.

Lemma stuff_bound data : forall g, length g <= 253 ->
  length (stuff g data) <= length g + length data + (length g + length data) / 254 + 1.
Proof.
  induction data as [|b data IH]; intros g Hl; cbn [stuff].
  - cbn [length]. lia.
  - case_match; cbn [length]; [|case_match eqn:He].
    + rewrite length_app. specialize (IH [] ltac:(cbn; lia)). cbn [length app Nat.add] in IH.
      assert (length data / 254 <= (length g + S (length data)) / 254) by (apply Nat.Div0.div_le_mono; lia). lia.
    + cbn [length]. rewrite length_app. cbn [length]. specialize (IH [] ltac:(cbn; lia)). cbn [length app Nat.add] in IH.
      apply Nat.eqb_eq in He. replace (length g + S (length data)) with (length data + 1 * 254) by lia.
      rewrite Nat.div_add by lia. lia.
    + specialize (IH (g ++ [b])). rewrite length_app in IH. cbn [length app Nat.add] in IH. apply Nat.eqb_neq in He.
      replace (length g + 1 + length data) with (length g + S (length data)) in IH by lia. lia.
Qed.

(** ** Decoding *)
Lemma put_slice_app O src R : length src <= length R ->
  put_slice (O ++ R) (length O) src = Some ((O ++ src) ++ drop (length src) R).
Proof.
  intros H. unfold put_slice. rewrite (proj2 (Nat.leb_le _ _)) by (rewrite length_app; lia).
  rewrite take_app_length, drop_app_ge, <- app_assoc by lia. do 4 f_equal. lia.
Qed.

Lemma slice_middle pre blk rest (c : Z) :
  slice (pre ++ c :: blk ++ rest) (length pre + 1) (length blk) = blk.
Proof.
  unfold slice. rewrite drop_app_ge by lia. replace (length pre + 1 - length pre) with 1 by lia.
  cbn [drop]. apply take_app_length.
Qed.

(** One turn of the decoder on a block: its bytes go out, and a zero if it stands for one. *)
Lemma decode_block fuel pre blk rest O R :
  let z := if (length blk + 1 <? 255) && (0 <? length rest) then [0%Z] else [] in
  length blk + length z <= length R ->
  decode_loop (S fuel) (pre ++ Z.of_nat (length blk + 1) :: blk ++ rest) (O ++ R) (length pre) (length O) =
  decode_loop fuel ((pre ++ Z.of_nat (length blk + 1) :: blk) ++ rest)
    ((O ++ blk ++ z) ++ drop (length blk + length z) R)
    (length (pre ++ Z.of_nat (length blk + 1) :: blk)) (length (O ++ blk ++ z)).
Proof.
  intros z Hz.
  cbn [decode_loop]. set (data := pre ++ _ :: blk ++ rest).
  assert (length data = length pre + 1 + length blk + length rest) as Hd.
  { unfold data. rewrite length_app. simpl. rewrite length_app. lia. }
  rewrite (proj2 (Nat.ltb_lt _ _)) by lia.
  assert (nth (length pre) data 0%Z = Z.of_nat (length blk + 1)) as ->.
  { unfold data. rewrite app_nth2, Nat.sub_diag by lia. done. }
  rewrite Nat2Z.id, (proj2 (Nat.eqb_neq _ 0)), (proj2 (Nat.ltb_ge _ _)) by lia.
  replace (length pre + (length blk + 1) - (length pre + 1)) with (length blk) by lia.
  assert (slice data (length pre + 1) (length blk) = blk) as -> by apply slice_middle.
  rewrite put_slice_app by lia. cbn [mbind option_bind].
  replace (length O + (length blk + 1 - 1)) with (length (O ++ blk)) by (rewrite length_app; lia).
  replace (length pre + (length blk + 1)) with (length (pre ++ Z.of_nat (length blk + 1) :: blk))
    by (rewrite length_app; simpl; lia).
  replace data with ((pre ++ Z.of_nat (length blk + 1) :: blk) ++ rest) by (unfold data; by rewrite <- app_assoc).
  rewrite (length_app _ rest).
  replace (length (pre ++ Z.of_nat (length blk + 1) :: blk) <? _) with (0 <? length rest) by lia.
  subst z. destruct ((length blk + 1 <? 255) && (0 <? length rest)).
  - destruct (drop (length blk) R) as [|y R'] eqn:HR.
    { apply (f_equal length) in HR. rewrite length_drop in HR. simpl in *. lia. }
    rewrite put_head. cbn [mbind option_bind]. rewrite <- drop_drop, HR.
    f_equal; [by rewrite <- !app_assoc|rewrite !length_app; simpl; lia].
  - simpl. by rewrite app_nil_r, Nat.add_0_r.
Qed.

(** The decoder on the reference encoding, with [O] already out and room for the rest. *)
Lemma decode_stuff data : forall fuel pre g O R,
  length g <= 253 -> length g + length data <= length R -> length (stuff g data) < fuel ->
  decode_loop fuel (pre ++ stuff g data) (O ++ R) (length pre) (length O) =
    Some (length (O ++ g ++ data), (O ++ g ++ data) ++ drop (length (g ++ data)) R).
Proof.
  induction data as [|b data IH]; intros fuel pre g O R Hg HR Hf; (destruct fuel as [|fuel]; [simpl in Hf; lia|]).
  - cbn [stuff] in *. pose proof (decode_block fuel pre g [] O R) as H. rewrite app_nil_r, andb_false_r in H.
    rewrite H by (simpl in *; lia). rewrite !app_nil_r, Nat.add_0_r. simpl in Hf.
    destruct fuel as [|fuel]; [lia|]. cbn [decode_loop]. by rewrite Nat.ltb_irrefl.
  - cbn [stuff] in *. pose proof (stuff_length [] data) as Hs. destruct (Z.eqb_spec b 0) as [->|Hb].
    + cbn [length] in *. rewrite length_app in Hf.
      pose proof (decode_block fuel pre g (stuff [] data) O R) as H.
      rewrite (proj2 (Nat.ltb_lt (length g + 1) 255)), (proj2 (Nat.ltb_lt 0 _)) in H by (simpl in *; lia).
      cbn [andb length] in H. rewrite H by lia. rewrite IH by (rewrite ?length_drop; simpl in *; lia).
      rewrite drop_drop. rewrite <- !app_assoc, !length_app. simpl. apply f_equal, f_equal2; [lia|]. do 5 f_equal. lia.
    + destruct (Nat.eqb_spec (length g + 2) 255) as [He|He].
      * cbn [length] in *. rewrite length_app in Hf. cbn [length] in Hf.
        pose proof (decode_block fuel pre (g ++ [b]) (stuff [] data) O R) as H.
        rewrite length_app in H. cbn [length] in H.
        replace (length g + 1 + 1) with 255 in H by lia. cbn [Nat.ltb Nat.leb andb length] in H.
        change (Z.of_nat 255) with 255%Z in H.
        replace (pre ++ 255%Z :: g ++ b :: stuff [] data) with (pre ++ 255%Z :: (g ++ [b]) ++ stuff [] data)
          by (by rewrite <- !app_assoc).
        rewrite H by lia.
        rewrite IH by (rewrite ?length_drop; simpl in *; lia).
        rewrite drop_drop, app_nil_r, <- !app_assoc. simpl. rewrite !length_app. simpl. apply f_equal, f_equal2; [lia|]. do 5 f_equal. lia.
      * rewrite IH by (rewrite ?length_app in *; simpl in *; lia). by rewrite <- !app_assoc.
Qed.

Lemma decode_stuffed data out : length data <= length out ->
  decode (stuffed data) out = Some (length data, data ++ drop (length data) out).
Proof.
  intros H. unfold decode, stuffed.
  exact (decode_stuff data (S (length (stuff [] data))) [] [] [] out ltac:(simpl; lia) H ltac:(lia)).
Qed.

(** More turns than [length data] change nothing: [decode] never runs out. *)
Lemma decode_enough fuel data out i o : length data - i < fuel ->
  decode_loop fuel data out i o = decode_loop (S (length data - i)) data out i o.
Proof.
  intros Hf. remember (length data - i) as n eqn:Hn. revert fuel n out i o Hf Hn.
  induction fuel as [fuel IH] using lt_wf_ind. intros n out i o Hf Hn. destruct fuel as [|fuel]; [lia|].
  cbn [decode_loop]. destruct (Nat.ltb_spec i (length data)); [|done].
  set (code := Z.to_nat _). destruct (Nat.eqb_spec code 0); [done|].
  destruct (Nat.ltb_spec (length data) (i + code)); [done|].
  assert (forall out o, decode_loop fuel data out (i + code) o = decode_loop n data out (i + code) o) as Heq.
  { intros out' o'. rewrite (IH fuel ltac:(lia) (length data - (i + code))) by lia.
    destruct (decide (n = S (length data - (i + code)))) as [->|]; [done|]. symmetry.
    destruct fuel; [lia|]. apply (IH n); lia. }
  destruct (put_slice _ _ _); [|done]. cbn [mbind option_bind].
  case_match; [|apply Heq]. destruct (put _ _ _); [|done]. cbn [mbind option_bind]. apply Heq.
Qed.

(** The buffer keeps its length, and what is decoded is within it. *)
Lemma decode_loop_length fuel : forall data out i o n out',
  o <= length out -> decode_loop fuel data out i o = Some (n, out') -> length out' = length out /\ n <= length out.
Proof.
  induction fuel as [|fuel IH]; intros data out i o n out' Ho; cbn [decode_loop]; [done|].
  destruct (i <? length data); [|by intros [= <- <-]]. set (code := Z.to_nat _).
  destruct (Nat.eqb_spec code 0) as [|Hc]; [done|]. destruct (Nat.ltb_spec (length data) (i + code)) as [|Hle]; [done|].
  assert (length (slice data (i + 1) (i + code - (i + 1))) = code - 1) as Hs.
  { unfold slice. rewrite length_take, length_drop. lia. }
  unfold put_slice, mbind, option_bind. rewrite Hs.
  destruct (Nat.leb_spec (o + (code - 1)) (length out)) as [Hfit|]; [|done].
  set (out1 := take o out ++ _ ++ _).
  assert (length out1 = length out) as Ho1.
  { unfold out1. rewrite !length_app, length_take, length_drop, Hs. lia. }
  case_match; [|intros He; apply IH in He; lia]. unfold put.
  destruct (Nat.ltb_spec (o + (code - 1)) (length out1)); [|done]. intros He. apply IH in He; rewrite ?length_insert in *; lia.
Qed.

Lemma decode_length data out n out' : decode data out = Some (n, out') -> length out' = length out /\ n <= length out.
Proof. apply decode_loop_length. lia. Qed.

Lemma decode_loop_bytes fuel : forall data out i o n out',
  Forall is_byte data -> Forall is_byte out -> decode_loop fuel data out i o = Some (n, out') -> Forall is_byte out'.
Proof.
  induction fuel as [|fuel IH]; intros data out i o n out' Hd Ho; cbn [decode_loop]; [done|].
  destruct (i <? length data); [|by intros [= <- <-]]. set (code := Z.to_nat _).
  destruct (code =? 0); [done|]. destruct (length data <? i + code); [done|].
  unfold put_slice, mbind, option_bind. case_match eqn:Hp; [|done]. case_match eqn:Hq; [|done]. simplify_eq.
  assert (Forall is_byte (take o out ++ slice data (i + 1) (i + code - (i + 1)) ++
    drop (o + length (slice data (i + 1) (i + code - (i + 1)))) out)) as Ho1.
  { rewrite !Forall_app. unfold slice. auto using Forall_take, Forall_drop. }
  case_match; [|by apply IH]. unfold put. case_match eqn:Hl; [|done]. case_match eqn:Hl'; [|done]. simplify_eq.
  apply IH; [done|]. by apply Forall_insert.
Qed.

Lemma decode_bytes data out n out' :
  Forall is_byte data -> Forall is_byte out -> decode data out = Some (n, out') -> Forall is_byte out'.
Proof. apply decode_loop_bytes. Qed.

(** ** Properties *)

(** framing survives the line: data encoded into a buffer of at least [max_encoded] bytes gives at most that many
    bytes, none of them zero, and decoding them gives the data back. *)
Theorem cobs_roundtrip data out out' :
  max_encoded (length data) <= length out -> length data <= length out' ->
  exists n enc, encode data out = Some (n, enc ++ drop n out) /\ length enc = n /\ n <= max_encoded (length data) /\
    Forall (fun b => b <> 0%Z) enc /\
    decode enc out' = Some (length data, data ++ drop (length data) out').
Proof.
  intros Hout Hout'. pose proof (stuff_bound data [] ltac:(simpl; lia)) as Hb. cbn [length Nat.add] in Hb.
  exists (length (stuffed data)), (stuffed data). unfold max_encoded in *. unfold stuffed in *.
  split; [|split; [done|split; [done|split]]].
  - rewrite encode_stuffed. unfold stuffed. by rewrite (proj2 (Nat.leb_le _ _)) by lia.
  - apply stuff_nonzero; [constructor|simpl; lia].
  - by apply decode_stuffed.
Qed.

Lemma cobs_roundtrip_witness :
  exists n enc, encode [1; 0; 2]%Z (replicate 8 0%Z) = Some (n, enc ++ drop n (replicate 8 0%Z)) /\ length enc = n /\
    n <= max_encoded 3 /\ Forall (fun b => b <> 0%Z) enc /\
    decode enc (replicate 4 0%Z) = Some (3, [1; 0; 2]%Z ++ drop 3 (replicate 4 0%Z)).
Proof. apply (cobs_roundtrip [1; 0; 2]%Z (replicate 8 0%Z) (replicate 4 0%Z)); vm_compute; lia. Defined.
