(* ===== verification/Crc.v ===== *)
(** * CRC-32C ([linkproto/src/crc.rs])

    The build-time table and the byte-wise update, the bit-wise reference ([feed]), and the theorems: the table-driven
    update is the reference, and a change of up to four neighbouring bytes always changes the checksum. *)
From S2P Require Import Prelude.

(** The reflected Castagnoli polynomial. *)
Definition POLY : Z := 0x82F63B78.

(** One turn of the inner loop of [TABLE]. *)
Definition bit_step (c : Z) : Z := if negb (c &&& 1 =? 0) then POLY ^^^ Z.shiftr c 1 else Z.shiftr c 1.

(** [TABLE]: entry [i] is eight turns from [i]. *)
Definition TABLE : list Z := map (fun i => Nat.iter 8 bit_step (Z.of_nat i)) (seq 0 256).

(** [!c] on [u32]. *)
Definition not32 (c : Z) : Z := c ^^^ 0xFFFFFFFF.

(** The body of the loop of [update]. *)
Definition byte_step (c b : Z) : Z := nth (Z.to_nat ((c ^^^ b) &&& 0xFF)) TABLE 0 ^^^ Z.shiftr c 8.

(** [update]: the CRC of [data] continued from [crc]. *)
Definition update (crc : Z) (data : bytes) : Z := not32 (foldl byte_step (not32 crc) data).

Definition crc32c (data : bytes) : Z := update 0 data.

(** ** The bit-wise reference *)
Definition feed (c b : Z) : Z := Nat.iter 8 bit_step (c ^^^ b).

Definition is_u32 (c : Z) : Prop := 0 <= c < W32.

(** ** Bits *)
Lemma u32_bits c : 0 <= c -> is_u32 c <-> forall n, 32 <= n -> Z.testbit c n = false.
Proof.
  intros Hc. unfold is_u32, W32. split.
  - intros [_ Hlt] n Hn. destruct (Z.eq_dec c 0) as [->|]; [apply Z.bits_0|].
    apply Z.bits_above_log2; [done|]. assert (Z.log2 c < 32) by (apply Z.log2_lt_pow2; lia). lia.
  - intros H. split; [done|]. destruct (Z.lt_ge_cases c (2 ^ 32)) as [|Hge]; [done|].
    assert (0 < c) by lia. pose proof (Z.bit_log2 c ltac:(lia)) as Hb.
    rewrite H in Hb; [done|]. by apply Z.log2_le_pow2.
Qed.

Lemma lxor_u32 a b : is_u32 a -> is_u32 b -> is_u32 (a ^^^ b).
Proof.
  intros Ha Hb. apply u32_bits; [apply Z.lxor_nonneg; unfold is_u32 in *; lia|]. intros n Hn.
  rewrite Z.lxor_spec, (proj1 (u32_bits a ltac:(apply Ha)) Ha), (proj1 (u32_bits b ltac:(apply Hb)) Hb) by done. done.
Qed.

Lemma shiftr_u32 a k : 0 <= k -> is_u32 a -> is_u32 (Z.shiftr a k).
Proof.
  intros Hk [H0 H1]. rewrite Z.shiftr_div_pow2 by done. split; [apply Z.div_pos; lia|].
  apply Z.le_lt_trans with a; [|done]. apply Z.div_le_upper_bound; [lia|].
  assert (1 <= 2 ^ k) by lia. nia.
Qed.

Lemma bit_step_odd c : bit_step c = (if Z.testbit c 0 then POLY else 0) ^^^ Z.shiftr c 1.
Proof.
  unfold bit_step. change 1 with (Z.ones 1) at 1. rewrite Z.land_ones, Z.pow_1_r by lia.
  rewrite Z.bit0_odd, Zmod_odd. by destruct (Z.odd c); rewrite ?Z.lxor_0_l.
Qed.

Lemma bit_step_u32 c : is_u32 c -> is_u32 (bit_step c).
Proof.
  intros Hc. rewrite bit_step_odd. apply lxor_u32; [|by apply shiftr_u32].
  case_match; unfold is_u32, POLY, W32; lia.
Qed.

(** The step is linear, and one to one on 32-bit words: the polynomial's top bit tells the bit shifted out. *)
Lemma bit_step_lxor a b : bit_step (a ^^^ b) = bit_step a ^^^ bit_step b.
Proof.
  rewrite !bit_step_odd, Z.lxor_spec, Z.shiftr_lxor. apply Z.bits_inj'. intros n Hn. rewrite !Z.lxor_spec.
  destruct (Z.testbit a 0), (Z.testbit b 0), (Z.testbit (Z.shiftr a 1) n), (Z.testbit (Z.shiftr b 1) n);
    cbn [xorb]; rewrite ?Z.bits_0; by destruct (Z.testbit POLY n).
Qed.

Lemma bit_step_zero c : is_u32 c -> bit_step c = 0 -> c = 0.
Proof.
  intros Hc H. rewrite bit_step_odd in H. destruct (Z.testbit c 0) eqn:H0.
  - assert (Z.testbit (POLY ^^^ Z.shiftr c 1) 31 = true) as Ht; [|by rewrite H, Z.bits_0 in Ht].
    rewrite Z.lxor_spec, Z.shiftr_spec by done.
    rewrite (proj1 (u32_bits c ltac:(apply Hc)) Hc) by done. done.
  - rewrite Z.lxor_0_l in H. apply Z.bits_inj'. intros n Hn. rewrite Z.bits_0.
    destruct (decide (n = 0)) as [->|]; [done|].
    replace n with ((n - 1) + 1) by lia. rewrite <- Z.shiftr_spec, H by lia. apply Z.bits_0.
Qed.

Definition steps (k : nat) (c : Z) : Z := Nat.iter k bit_step c.

Lemma steps_S k c : steps (S k) c = bit_step (steps k c).
Proof. done. Qed.

Lemma steps_add j k c : steps (j + k) c = steps j (steps k c).
Proof. apply Nat.iter_add. Qed.

Lemma steps_u32 k c : is_u32 c -> is_u32 (steps k c).
Proof. intros Hc. induction k; [done|]. rewrite steps_S. by apply bit_step_u32. Qed.

Lemma steps_lxor k a b : steps k (a ^^^ b) = steps k a ^^^ steps k b.
Proof. induction k as [|k IH]; [done|]. by rewrite !steps_S, IH, bit_step_lxor. Qed.

Lemma steps_zero k c : is_u32 c -> steps k c = 0 -> c = 0.
Proof.
  intros Hc. induction k as [|k IH]; [done|]. rewrite steps_S. intros H%bit_step_zero; [by apply IH|by apply steps_u32].
Qed.

Lemma steps_inj k a b : is_u32 a -> is_u32 b -> steps k a = steps k b -> a = b.
Proof.
  intros Ha Hb H. apply Z.lxor_eq_0_iff. apply (steps_zero k); [by apply lxor_u32|].
  by rewrite steps_lxor, H, Z.lxor_nilpotent.
Qed.

(** Zero low bits are shifted out without the polynomial. *)
Lemma steps_shiftl k w : 0 <= w -> steps k (Z.shiftl w (Z.of_nat k)) = w.
Proof.
  intros Hw. revert w Hw. induction k as [|k IH]; intros w Hw; [by rewrite Z.shiftl_0_r|].
  replace (S k) with (k + 1)%nat by lia. rewrite steps_add. change (steps 1 ?x) with (bit_step x).
  rewrite bit_step_odd. rewrite Z.shiftl_spec_low by lia. rewrite Z.lxor_0_l.
  rewrite Z.shiftr_shiftl_l by lia. replace (Z.of_nat (k + 1) - 1) with (Z.of_nat k) by lia. by apply IH.
Qed.

Lemma split_byte x : 0 <= x -> x = (x &&& 0xFF) ^^^ Z.shiftl (Z.shiftr x 8) 8.
Proof.
  intros Hx. change 0xFF with (Z.ones 8). apply Z.bits_inj'. intros n Hn. rewrite Z.lxor_spec, Z.land_spec.
  destruct (Z.ltb_spec n 8) as [Hlt|Hge].
  - rewrite Z.ones_spec_low, Z.shiftl_spec_low by lia. by rewrite andb_true_r, xorb_false_r.
  - rewrite Z.ones_spec_high, Z.shiftl_spec, Z.shiftr_spec by lia. rewrite andb_false_r, xorb_false_l.
    f_equal. lia.
Qed.

Lemma join_byte b w : is_byte b -> 0 <= w -> b + 256 * w = b ^^^ Z.shiftl w 8.
Proof.
  intros Hb Hw. unfold is_byte in Hb. assert (0 <= b + 256 * w) as Hp by lia. rewrite (split_byte _ Hp). f_equal.
  - change 0xFF with (Z.ones 8). rewrite Z.land_ones, Z.mul_comm, Z.mod_add by lia. apply Z.mod_small. lia.
  - f_equal. rewrite Z.shiftr_div_pow2, Z.mul_comm, Z.div_add, Z.div_small by lia. lia.
Qed.

Lemma table_entry i : 0 <= i < 256 -> nth (Z.to_nat i) TABLE 0 = steps 8 i.
Proof.
  intros Hi. unfold TABLE. set (f := fun i : nat => Nat.iter 8 bit_step (Z.of_nat i)).
  rewrite (nth_indep _ 0 (f 0%nat)) by (rewrite length_map, length_seq; lia).
  rewrite map_nth, seq_nth by lia. unfold f. cbn [Nat.add]. by rewrite Z2Nat.id by lia.
Qed.

Lemma byte_step_feed c b : 0 <= c -> is_byte b -> byte_step c b = feed c b.
Proof.
  intros Hc Hb. unfold byte_step, feed. fold (steps 8 (c ^^^ b)). set (x := c ^^^ b).
  assert (0 <= x) as Hx by (apply Z.lxor_nonneg; unfold is_byte in Hb; lia).
  assert (Z.shiftr x 8 = Z.shiftr c 8) as Hs.
  { unfold x. rewrite Z.shiftr_lxor, (Z.shiftr_div_pow2 b), (Z.div_small b) by (unfold is_byte in Hb; lia).
    apply Z.lxor_0_r. }
  assert (0 <= x &&& 0xFF < 256) as Hl.
  { change 0xFF with (Z.ones 8). rewrite Z.land_ones by lia. by apply Z.mod_pos_bound. }
  rewrite table_entry by done. rewrite (split_byte x Hx) at 2. rewrite steps_lxor, Hs. f_equal.
  symmetry. apply (steps_shiftl 8). rewrite Z.shiftr_nonneg. done.
Qed.

Lemma feed_u32 c b : is_u32 c -> is_byte b -> is_u32 (feed c b).
Proof. intros Hc Hb. apply (steps_u32 8), lxor_u32; [done|]. unfold is_byte, is_u32, W32 in *. lia. Qed.

Lemma fold_feed data c : is_u32 c -> Forall is_byte data ->
  foldl byte_step c data = foldl feed c data /\ is_u32 (foldl feed c data).
Proof.
  intros Hc Hd. revert c Hc. induction Hd as [|b data Hb _ IH]; intros c Hc; [done|]. cbn [foldl].
  rewrite byte_step_feed by (done || apply Hc). apply IH. by apply feed_u32.
Qed.

(** Feeding bytes is stepping over their little-endian number. *)
Lemma fold_feed_word data c : 0 <= c -> Forall is_byte data ->
  foldl feed c data = steps (8 * length data) (c ^^^ of_le data).
Proof.
  intros Hc Hd. revert c Hc. induction Hd as [|b data Hb Hd IH]; intros c Hc; [by rewrite Z.lxor_0_r|].
  cbn [foldl of_le length]. pose proof (of_le_bound data Hd) as Hw.
  assert (forall k x, 0 <= x -> 0 <= steps k x) as Hn.
  { intros k x Hx. induction k; [done|]. rewrite steps_S, bit_step_odd. apply Z.lxor_nonneg.
    rewrite Z.shiftr_nonneg. case_match; unfold POLY; lia. }
  assert (0 <= c ^^^ b) as Hcb by (apply Z.lxor_nonneg; unfold is_byte in Hb; lia).
  rewrite IH by (unfold feed; by apply (Hn 8%nat)).
  replace (8 * S (length data))%nat with (8 * length data + 8)%nat by lia. rewrite steps_add. f_equal.
  rewrite join_byte by (done || lia). rewrite <- Z.lxor_assoc, steps_lxor. f_equal.
  symmetry. apply (steps_shiftl 8). lia.
Qed.

Lemma not32_u32 c : is_u32 c -> is_u32 (not32 c).
Proof. intros H. apply lxor_u32; [done|]. unfold is_u32, W32. lia. Qed.

Lemma not32_not32 c : not32 (not32 c) = c.
Proof. unfold not32. by rewrite Z.lxor_assoc, Z.lxor_nilpotent, Z.lxor_0_r. Qed.

Lemma fold_feed_inj data c c' : is_u32 c -> is_u32 c' -> Forall is_byte data ->
  foldl feed c data = foldl feed c' data -> c = c'.
Proof.
  intros Hc Hc' Hd. rewrite !fold_feed_word by (done || apply Hc || apply Hc'). rewrite !steps_lxor. intros H.
  apply (steps_inj (8 * length data)); [done..|]. 
  apply (f_equal (fun z => z ^^^ steps (8 * length data) (of_le data))) in H.
  by rewrite !Z.lxor_assoc, !Z.lxor_nilpotent, !Z.lxor_0_r in H.
Qed.

Lemma crc_fold data : Forall is_byte data ->
  crc32c data = not32 (foldl feed 0xFFFFFFFF data) /\ is_u32 (crc32c data).
Proof.
  intros Hd. unfold crc32c, update. change (not32 0) with 0xFFFFFFFF.
  destruct (fold_feed data 0xFFFFFFFF ltac:(unfold is_u32, W32; lia) Hd) as [-> Hu]. split; [done|by apply not32_u32].
Qed.

(** ** Properties *)

(** the table-driven update is the bit-wise CRC, a 32-bit word, and it may be computed in parts. *)
Theorem update_is_crc crc a b :
  is_u32 crc -> Forall is_byte a -> Forall is_byte b ->
  update crc (a ++ b) = update (update crc a) b /\ is_u32 (update crc a) /\
  update crc a = not32 (foldl feed (not32 crc) a).
Proof.
  intros Hc Ha Hb. unfold update. rewrite not32_not32, foldl_app.
  destruct (fold_feed a (not32 crc) (not32_u32 _ Hc) Ha) as [-> Hu]. split; [done|]. split; [by apply not32_u32|done].
Qed.

Lemma update_is_crc_witness :
  update 0 ([49; 50] ++ [51]) = update (update 0 [49; 50]) [51] /\ is_u32 (update 0 [49; 50]) /\
  update 0 [49; 50] = not32 (foldl feed (not32 0) [49; 50]).
Proof. apply update_is_crc; repeat constructor; done. Defined.

(** C17: a frame whose only damage is a change within four neighbouring bytes never passes the CRC. *)
Theorem crc_detects_burst pre x y post :
  Forall is_byte (pre ++ x ++ post) -> Forall is_byte y -> length y = length x -> (length x <= 4)%nat -> x <> y ->
  crc32c (pre ++ y ++ post) <> crc32c (pre ++ x ++ post).
Proof.
  intros [Hp [Hx Hq]%Forall_app]%Forall_app Hy Hl H4 Hne He.
  apply Hne.
  assert (forall z, Forall is_byte z -> Forall is_byte (pre ++ z ++ post)) as Hall
    by (intros z Hz; rewrite !Forall_app; done).
  rewrite (proj1 (crc_fold _ (Hall _ Hy))), (proj1 (crc_fold _ (Hall _ Hx))) in He.
  apply (f_equal not32) in He. rewrite !not32_not32, !foldl_app in He.
  destruct (fold_feed pre 0xFFFFFFFF ltac:(unfold is_u32, W32; lia) Hp) as [_ Hc]. set (c := foldl feed 0xFFFFFFFF pre) in *.
  apply fold_feed_inj in He; [|by apply fold_feed..|done].
  rewrite !fold_feed_word, Hl in He by (done || apply Hc).
  assert (forall l, Forall is_byte l -> (length l <= 4)%nat -> is_u32 (of_le l)) as Hw.
  { intros l Hb Hl4. pose proof (of_le_bound l Hb). unfold is_u32, W32.
    assert (256 ^ Z.of_nat (length l) <= 256 ^ 4) by (apply Z.pow_le_mono_r; lia). lia. }
  apply steps_inj in He; [|apply lxor_u32; [done|apply Hw; [done|lia]]..].
  apply (f_equal (Z.lxor c)) in He. rewrite <- !Z.lxor_assoc, Z.lxor_nilpotent, !Z.lxor_0_l in He.
  rewrite <- (to_of_le x Hx), <- (to_of_le y Hy), Hl. by rewrite He.
Qed.

Lemma crc_detects_burst_witness : crc32c ([1] ++ [3; 2] ++ [9]) <> crc32c ([1] ++ [2; 3] ++ [9]).
Proof. apply crc_detects_burst; [repeat constructor; done|repeat constructor; done|done|simpl; lia|done]. Defined.

(** The check value of CRC-32C: the digits 1 to 9. *)
Example crc32c_check : crc32c [49; 50; 51; 52; 53; 54; 55; 56; 57] = 0xE3069283.
Proof. vm_compute. reflexivity. Qed.
