(* ===== verification/Frame.v ===== *)
(** * Frames of the link ([linkproto/src/frame.rs])

    A frame is a header, a payload and their CRC-32C, COBS-encoded and ended by a zero byte. [encode] writes one;
    [Decoder] gathers them from the line's bytes. The theorems: a stream of encoded frames decodes to the frames, in
    order, nothing dropped; after any noise a zero byte resynchronises the decoder. *)
From S2P Require Import Prelude Cobs Crc.
Local Open Scope nat_scope.

Definition VERSION : Z := 1.
Definition VERSION_ADDRESSED : Z := 2.
Definition HEADER : nat := 8.
Definition HEADER_ADDRESSED : nat := HEADER + 1.
Definition CRC : nat := 4.
Definition MAX_PAYLOAD : nat := 1024.
Definition MAX_FRAME : nat := HEADER_ADDRESSED + MAX_PAYLOAD + CRC.
Definition MAX_WIRE : nat := max_encoded MAX_FRAME + 1.
Definition ADDRESS_MAX : Z := 247.

Record Header : Type := mkHeader { address : Z; channel : Z; kind : Z; flags : Z; seq_no : Z }.

#[global] Instance Header_eq_dec : EqDecision Header.
Proof. solve_decision. Defined.

(** [raw[..end]] of [encode]: the header, with an address in version 2, and the payload. *)
Definition rest_bytes (h : Header) (payload : bytes) : bytes :=
  let len := Z.of_nat (length payload) in
  [channel h; kind h; flags h; wrap8 (seq_no h); wrap8 (Z.shiftr (seq_no h) 8); wrap8 len; wrap8 (Z.shiftr len 8)].

Definition raw_bytes (h : Header) (payload : bytes) : bytes :=
  (if (address h =? 0)%Z then [VERSION] else [VERSION_ADDRESSED; address h]) ++ rest_bytes h payload ++ payload.

(** [encode]: the frame in [out], its separating zero last, and its length. *)
Definition encode (h : Header) (payload out : bytes) : option (nat * bytes) :=
  if (MAX_PAYLOAD <? length payload) || (ADDRESS_MAX <? address h)%Z then None
  else
    let raw := raw_bytes h payload in
    let crc := crc32c raw in
    '(n, out) ← Cobs.encode (raw ++ to_le CRC crc) out;
    out ← put out n 0%Z;
    Some (n + 1, out).

(** [Decoder]: [wire] is the first [len] bytes of the source's array; [raw] keeps what earlier frames left in it. *)
Record Decoder : Type := mkDecoder {
  wire : bytes; overflow : bool; raw : bytes; header : nat; payload_len : nat; dropped : Z
}.

Definition decoder_new : Decoder := mkDecoder [] false (replicate MAX_FRAME 0%Z) HEADER 0 0.

(** [Decoder::payload]. *)
Definition payload (d : Decoder) : bytes := slice (raw d) (header d) (payload_len d).

(** [Decoder::check] on the gathered bytes: the header and the fields it sets ([raw], [header], [payload_len]). *)
Definition check (w raw : bytes) : option (Header * (bytes * nat * nat)) :=
  '(n, r) ← Cobs.decode w raw;
  if n <? HEADER + CRC then None
  else
    '(header, address) ←
      (if (nth 0 r 0 =? VERSION)%Z then Some (HEADER, 0%Z)
       else if (nth 0 r 0 =? VERSION_ADDRESSED)%Z && (HEADER_ADDRESSED + CRC <=? n) &&
               (1 <=? nth 1 r 0)%Z && (nth 1 r 0 <=? ADDRESS_MAX)%Z then Some (HEADER_ADDRESSED, nth 1 r 0%Z)
       else None);
    let h := slice r (header - 7) 7 in
    let payload_len := Z.to_nat (of_le [nth 5 h 0%Z; nth 6 h 0%Z]) in
    if (MAX_PAYLOAD <? payload_len) || negb (n =? header + payload_len + CRC) then None
    else
      let end_ := header + payload_len in
      if bool_decide (to_le CRC (crc32c (take end_ r)) = slice r end_ CRC) then
        Some (mkHeader address (nth 0 h 0%Z) (nth 1 h 0%Z) (nth 2 h 0%Z) (of_le [nth 3 h 0%Z; nth 4 h 0%Z]),
              (r, header, payload_len))
      else None.

(** [Decoder::push]. After a failed [check] the source's [raw] holds what was decoded of the bad frame; it is not read
    before the next frame overwrites it. *)
Definition push (d : Decoder) (byte : Z) : option Header * Decoder :=
  if negb (byte =? 0)%Z then
    (None, if length (wire d) <? MAX_WIRE
           then mkDecoder (wire d ++ [byte]) (overflow d) (raw d) (header d) (payload_len d) (dropped d)
           else mkDecoder (wire d) true (raw d) (header d) (payload_len d) (dropped d))
  else
    let w := wire d in
    let clean := mkDecoder [] false (raw d) (header d) (payload_len d) in
    if length w =? 0 then (None, clean (dropped d))
    else match (if overflow d then None else check w (raw d)) with
         | None => (None, clean (wrap32 (dropped d + 1)))
         | Some (h, (r, hl, pl)) => (Some h, mkDecoder [] false r hl pl (dropped d))
         end.

(** The decoder over a run of bytes: each frame it completes, with its payload. *)
Fixpoint pushes (d : Decoder) (bs : bytes) : list (Header * bytes) * Decoder :=
  match bs with
  | [] => ([], d)
  | b :: bs =>
      let '(r, d) := push d b in
      let '(fs, d') := pushes d bs in
      (match r with Some h => (h, payload d) :: fs | None => fs end, d')
  end.

(** A header's fields in their widths, and a payload that fits. *)
Definition header_ok (h : Header) : Prop :=
  (0 <= address h <= ADDRESS_MAX)%Z /\ is_byte (channel h) /\ is_byte (kind h) /\ is_byte (flags h) /\ (0 <= seq_no h < W16)%Z.
Definition frame_ok (f : Header * bytes) : Prop :=
  header_ok f.1 /\ Forall is_byte f.2 /\ length f.2 <= MAX_PAYLOAD.

(** A decoder whose buffer has its size. *)
Definition decoder_ok (d : Decoder) : Prop := length (raw d) = MAX_FRAME.
Definition decoder_clean (d : Decoder) : Prop := decoder_ok d /\ wire d = [] /\ overflow d = false.

(** ** Lemmas *)
Lemma max_wire : MAX_WIRE = 1043.
Proof. reflexivity. Qed.

Lemma le16 z : (0 <= z < W16)%Z -> of_le [wrap8 z; wrap8 (Z.shiftr z 8)] = z.
Proof.
  intros Hz. cbn [of_le]. unfold wrap8, W8, W16 in *. rewrite Z.shiftr_div_pow2 by lia.
  pose proof (Z.div_mod z (2 ^ 8)). rewrite (Z.mod_small (z / 2 ^ 8)) by (split; [apply Z.div_pos; lia|apply Z.div_lt_upper_bound; lia]).
  lia.
Qed.

Lemma raw_length h p : length (raw_bytes h p) = (if (address h =? 0)%Z then HEADER else HEADER_ADDRESSED) + length p.
Proof. unfold raw_bytes, HEADER_ADDRESSED, HEADER. rewrite !length_app. by destruct (address h =? 0)%Z. Qed.

(** The bytes that go through COBS. *)
Definition body (h : Header) (p : bytes) : bytes := raw_bytes h p ++ to_le CRC (crc32c (raw_bytes h p)).

Lemma body_length h p : length p <= MAX_PAYLOAD -> HEADER + CRC <= length (body h p) <= MAX_FRAME.
Proof.
  intros Hp. unfold body. rewrite length_app, length_to_le, raw_length.
  unfold MAX_FRAME, HEADER_ADDRESSED, HEADER, CRC, MAX_PAYLOAD in *. case_match; lia.
Qed.

Definition version_bytes (h : Header) : bytes :=
  if (address h =? 0)%Z then [VERSION] else [VERSION_ADDRESSED; address h].
Definition header_len (h : Header) : nat := if (address h =? 0)%Z then HEADER else HEADER_ADDRESSED.

Lemma header_len_version h : header_len h = length (version_bytes h) + 7.
Proof. unfold header_len, version_bytes. by case_match. Qed.

(** The parts of a decoded buffer that starts with a frame's body. *)
Lemma body_parts h p tail :
  let r := body h p ++ tail in
  slice r (header_len h - 7) 7 = rest_bytes h p /\
  take (header_len h + length p) r = raw_bytes h p /\
  slice r (header_len h + length p) CRC = to_le CRC (crc32c (raw_bytes h p)) /\
  slice r (header_len h) (length p) = p.
Proof.
  assert (raw_bytes h p = version_bytes h ++ rest_bytes h p ++ p) as Hraw by done.
  assert (length (raw_bytes h p) = header_len h + length p) as Hl by apply raw_length.
  unfold body, slice. cbn zeta. rewrite <- app_assoc. split; [|split; [|split]].
  - rewrite header_len_version, Nat.add_sub, Hraw, <- app_assoc, drop_app_length, <- app_assoc. done.
  - rewrite <- Hl. apply take_app_length.
  - rewrite <- Hl, drop_app_length. rewrite take_app_le by (by rewrite length_to_le).
    apply take_ge. by rewrite length_to_le.
  - rewrite header_len_version, Hraw, <- !app_assoc, <- drop_drop, drop_app_length.
    change 7 with (length (rest_bytes h p)). rewrite drop_app_length. apply take_app_length.
Qed.

Lemma check_body h p r :
  frame_ok (h, p) -> length r = MAX_FRAME ->
  exists r', check (stuffed (body h p)) r = Some (h, (r', header_len h, length p)) /\
    length r' = MAX_FRAME /\ slice r' (header_len h) (length p) = p.
Proof.
  intros ((Ha & Hc & Hk & Hfl & Hs) & Hb & Hl) Hr. cbn [fst snd] in *.
  pose proof (body_length h p Hl) as Hbl. exists (body h p ++ drop (length (body h p)) r).
  destruct (body_parts h p (drop (length (body h p)) r)) as (Hrest & Hraw & Hcrc & Hpay).
  split; [|split; [rewrite length_app, length_drop; lia|done]].
  assert (length (body h p) = header_len h + length p + CRC) as Hlen.
  { unfold body. by rewrite length_app, length_to_le, raw_length. }
  unfold check. rewrite decode_stuffed by lia. cbn [mbind option_bind].
  rewrite (proj2 (Nat.ltb_ge _ _)) by lia. set (r' := body h p ++ _) in *.
  assert ((if (nth 0 r' 0 =? VERSION)%Z then Some (HEADER, 0%Z)
       else if (nth 0 r' 0 =? VERSION_ADDRESSED)%Z && (HEADER_ADDRESSED + CRC <=? length (body h p)) &&
               (1 <=? nth 1 r' 0)%Z && (nth 1 r' 0 <=? ADDRESS_MAX)%Z then Some (HEADER_ADDRESSED, nth 1 r' 0%Z)
       else None) = Some (header_len h, address h)) as ->.
  { assert (address h <> 0%Z -> HEADER_ADDRESSED + CRC <= length (body h p)) as Hle.
    { intros Hne. rewrite Hlen. unfold header_len. rewrite (proj2 (Z.eqb_neq _ _)) by done. lia. }
    unfold r', body, raw_bytes, header_len in *. destruct (Z.eqb_spec (address h) 0) as [->|Hne]; [done|].
    specialize (Hle Hne). cbn [app nth]. rewrite (proj2 (Z.eqb_neq VERSION_ADDRESSED VERSION)), (proj2 (Nat.leb_le _ _)) by (done || lia).
    rewrite (proj2 (Z.leb_le 1 _)), (proj2 (Z.leb_le _ ADDRESS_MAX)) by lia. done. }
  cbn [mbind option_bind]. rewrite Hrest. unfold rest_bytes. cbn [nth].
  rewrite !le16, Nat2Z.id by (done || (unfold W16, MAX_PAYLOAD in *; lia)).
  rewrite (proj2 (Nat.ltb_ge _ _)), Hlen, Nat.eqb_refl by done. cbn [orb negb].
  rewrite Hraw, Hcrc, bool_decide_eq_true_2 by done. by destruct h.
Qed.

Definition frame_wire (f : Header * bytes) : bytes := stuffed (body f.1 f.2) ++ [0%Z].

Lemma wire_fits h p : length p <= MAX_PAYLOAD -> length (stuffed (body h p)) < MAX_WIRE.
Proof.
  intros Hp. pose proof (body_length h p Hp) as Hb. pose proof (stuff_bound (body h p) [] ltac:(cbn; lia)) as Hs.
  cbn [length Nat.add] in Hs. unfold stuffed, MAX_WIRE, max_encoded.
  assert (length (body h p) / 254 <= MAX_FRAME / 254) by (apply Nat.Div0.div_le_mono; lia). lia.
Qed.

(** What [encode] writes is the frame's wire form; a buffer of [MAX_WIRE] bytes is always enough. *)
Lemma encode_wire h p out n out' : encode h p out = Some (n, out') -> take n out' = frame_wire (h, p).
Proof.
  unfold encode. case_match; [done|]. rewrite encode_stuffed. fold (body h p).
  case_match eqn:Hle; [|done]. cbn [mbind option_bind]. apply Nat.leb_le in Hle. set (w := stuffed (body h p)) in *.
  destruct (drop (length w) out) as [|x R] eqn:HR; [by rewrite app_nil_r, put_beyond|].
  rewrite put_head. cbn [mbind option_bind]. intros [= <- <-]. unfold frame_wire. cbn [fst snd].
  rewrite take_app_add. done.
Qed.

Lemma encode_length h p out n out' : encode h p out = Some (n, out') -> length out' = length out.
Proof.
  unfold encode. case_match; [done|]. rewrite encode_stuffed. case_match eqn:Hle; [|done]. cbn [mbind option_bind].
  apply Nat.leb_le in Hle. revert Hle. generalize (stuffed (raw_bytes h p ++ to_le CRC (crc32c (raw_bytes h p)))) as w.
  intros w Hle. unfold put. case_match; [|done]. cbn [mbind option_bind]. intros [= _ <-].
  rewrite length_insert, length_app, length_drop. lia.
Qed.

Lemma encode_fits h p out :
  frame_ok (h, p) -> MAX_WIRE <= length out ->
  exists out', encode h p out = Some (length (stuffed (body h p)) + 1, out').
Proof.
  intros ((Ha & _) & _ & Hl) Hout. cbn [fst snd] in *. pose proof (wire_fits h p Hl) as Hw. unfold encode.
  rewrite (proj2 (Nat.ltb_ge _ _)), (proj2 (Z.ltb_ge _ _)) by lia. cbn [orb].
  rewrite encode_stuffed. fold (body h p). rewrite (proj2 (Nat.leb_le _ _)) by lia. cbn [mbind option_bind].
  destruct (drop (length (stuffed (body h p))) out) as [|x R] eqn:HR.
  { apply (f_equal length) in HR. rewrite length_drop in HR. simpl in HR. lia. }
  rewrite put_head. by eexists.
Qed.

(** ** The decoder *)
Lemma pushes_app d a b :
  pushes d (a ++ b) =
    let '(fs, d1) := pushes d a in let '(gs, d2) := pushes d1 b in (fs ++ gs, d2).
Proof.
  revert d. induction a as [|x a IH]; intros d; cbn [app pushes].
  - by destruct (pushes d b).
  - destruct (push d x) as [r d1]. rewrite IH. destruct (pushes d1 a) as [fs d2], (pushes d2 b) as [gs d3].
    by destruct r.
Qed.

Lemma pushes_gather w d :
  Forall (fun b => b <> 0%Z) w -> length (wire d) + length w <= MAX_WIRE ->
  pushes d w = ([], mkDecoder (wire d ++ w) (overflow d) (raw d) (header d) (payload_len d) (dropped d)).
Proof.
  intros Hw. revert d. induction Hw as [|b w Hb _ IH]; intros d Hl; cbn [pushes].
  - rewrite app_nil_r. by destruct d.
  - unfold push. rewrite (proj2 (Z.eqb_neq b 0)) by done. cbn [negb length] in *.
    rewrite (proj2 (Nat.ltb_lt _ _)) by lia. rewrite IH by (cbn [wire]; rewrite length_app; simpl; lia).
    cbn [wire overflow raw header payload_len dropped]. by rewrite <- app_assoc.
Qed.

Lemma pushes_frame f d : frame_ok f -> decoder_clean d ->
  exists d', pushes d (frame_wire f) = ([f], d') /\ decoder_clean d' /\ dropped d' = dropped d.
Proof.
  destruct f as [h p]. intros Hf (Hok & Hw & Ho). destruct (check_body h p (raw d) Hf Hok) as (r' & Hc & Hl & Hp).
  unfold frame_wire. cbn [fst snd]. rewrite pushes_app.
  pose proof (wire_fits h p ltac:(apply Hf)) as Hfit. pose proof (stuff_length [] (body h p)) as Hs.
  rewrite pushes_gather by
    (rewrite ?Hw; first [apply stuff_nonzero; [constructor|cbn; lia]|cbn [length]; lia]).
  rewrite Hw. cbn [app pushes]. unfold push. cbn [negb Z.eqb wire overflow raw dropped header payload_len].
  unfold stuffed in *. rewrite (proj2 (Nat.eqb_neq _ 0)), Ho, Hc by (cbn [length] in Hs; lia).
  unfold payload. cbn [raw header payload_len]. rewrite Hp. by eexists.
Qed.

(** Before its zero byte a frame completes nothing. *)
Lemma gathers_nothing f d fs d1 :
  frame_ok f -> decoder_clean d -> pushes d (stuffed (body f.1 f.2)) = (fs, d1) -> fs = [].
Proof.
  intros Hf (_ & Hw & _). pose proof (wire_fits f.1 f.2 ltac:(apply Hf)) as Hfit. rewrite pushes_gather; [by intros [= <- _]| |].
  - apply stuff_nonzero; [constructor|cbn; lia].
  - rewrite Hw. cbn [length]. lia.
Qed.

Lemma pushes_frames fs d : Forall frame_ok fs -> decoder_clean d ->
  exists d', pushes d (concat (map frame_wire fs)) = (fs, d') /\ decoder_clean d' /\ dropped d' = dropped d.
Proof.
  intros Hfs. revert d. induction Hfs as [|f fs Hf _ IH]; intros d Hd; cbn [map concat]; [by exists d|].
  destruct (pushes_frame f d Hf Hd) as (d1 & H1 & Hd1 & He1). destruct (IH d1 Hd1) as (d2 & H2 & Hd2 & He2).
  exists d2. rewrite pushes_app, H1, H2. split; [done|]. split; [done|congruence].
Qed.

Lemma check_length w r h r' hl pl : check w r = Some (h, (r', hl, pl)) -> length r' = length r.
Proof.
  unfold check, mbind, option_bind. destruct (Cobs.decode w r) as [[n r1]|] eqn:Hd; [|done].
  apply decode_length in Hd as [Hl _]. repeat (case_match; try done); intros; simplify_eq; done.
Qed.

Lemma push_ok d b : decoder_ok d -> decoder_ok (push d b).2.
Proof.
  intros Hd. unfold push, decoder_ok in *. destruct (negb _); [case_match; done|]. case_match; [done|].
  destruct (if overflow d then None else check (wire d) (raw d)) as [[h [[r hl] pl]]|] eqn:He; [|done].
  cbn [snd raw]. destruct (overflow d); [done|]. apply check_length in He. by rewrite He.
Qed.

Lemma pushes_ok bs d : decoder_ok d -> decoder_ok (pushes d bs).2.
Proof.
  revert d. induction bs as [|b bs IH]; intros d Hd; cbn [pushes]; [done|].
  pose proof (push_ok d b Hd) as H1. destruct (push d b) as [r d1]. cbn [snd] in H1. specialize (IH d1 H1).
  by destruct (pushes d1 bs).
Qed.

Lemma push_zero_clean d : decoder_ok d -> decoder_clean (push d 0).2.
Proof.
  intros Hd. pose proof (push_ok d 0 Hd) as Hok. unfold decoder_clean. split; [done|].
  unfold push. cbn [negb Z.eqb]. case_match; [done|].
  destruct (if overflow d then None else check (wire d) (raw d)) as [[h [[r hl] pl]]|]; done.
Qed.

(** ** Properties *)

(** [w] is what [encode] gives for the frame in some buffer. *)
Definition encoded (f : Header * bytes) (w : bytes) : Prop :=
  exists out n out', encode f.1 f.2 out = Some (n, out') /\ w = take n out'.

Lemma encoded_wires fs ws : Forall2 encoded fs ws -> concat ws = concat (map frame_wire fs).
Proof.
  induction 1 as [|[h p] w fs ws (out & n & out' & He & ->) _ IH]; [done|]. cbn [map concat].
  apply encode_wire in He. cbn [fst snd] in He. by rewrite He, IH.
Qed.

(** encoded frames sent one after the other come out of the decoder as they went in: the same headers and
    payloads in the same order, none dropped. *)
Theorem frame_stream fs ws d :
  Forall frame_ok fs -> Forall2 encoded fs ws -> decoder_clean d ->
  exists d', pushes d (concat ws) = (fs, d') /\ decoder_clean d' /\ dropped d' = dropped d.
Proof. intros Hfs Hws Hd. rewrite (encoded_wires fs ws Hws). by apply pushes_frames. Qed.

(** resynchronisation: whatever bytes came before, after a zero byte every frame sent is received. *)
Theorem frame_resync noise fs ws d :
  Forall frame_ok fs -> Forall2 encoded fs ws -> decoder_ok d ->
  exists junk d', pushes d (noise ++ 0%Z :: concat ws) = (junk ++ fs, d') /\ decoder_clean d'.
Proof.
  intros Hfs Hws Hd. rewrite (encoded_wires fs ws Hws), pushes_app.
  pose proof (pushes_ok noise d Hd) as H1. destruct (pushes d noise) as [js d1]. cbn [snd] in H1. cbn [pushes].
  pose proof (push_zero_clean d1 H1) as H2. destruct (push d1 0) as [r d2]. cbn [snd] in H2.
  destruct (pushes_frames fs d2 Hfs H2) as (d3 & -> & Hd3 & _).
  exists (js ++ match r with Some h => [(h, payload d2)] | None => [] end), d3. split; [|done].
  destruct r; by rewrite <- app_assoc.
Qed.

Lemma body_bytes h p : frame_ok (h, p) -> Forall is_byte (body h p).
Proof.
  intros ((Ha & Hc & Hk & Hf & Hs) & Hp & Hl). cbn [fst snd] in *. unfold body, raw_bytes, rest_bytes.
  assert (forall z, is_byte (wrap8 z)) as Hw by (intros; apply Z.mod_pos_bound; done).
  rewrite !Forall_app. split; [split; [|split; [repeat (apply Forall_cons; split; [done|]); constructor|done]]|apply to_le_bytes].
  unfold ADDRESS_MAX in Ha. case_match; repeat constructor; unfold VERSION, VERSION_ADDRESSED; lia.
Qed.

Lemma le16_inv a b : is_byte a -> is_byte b ->
  (0 <= of_le [a; b] < W16)%Z /\ wrap8 (of_le [a; b]) = a /\ wrap8 (Z.shiftr (of_le [a; b]) 8) = b.
Proof.
  unfold is_byte, wrap8, W8, W16. intros Ha Hb. cbn [of_le]. split; [lia|].
  replace (a + 256 * (b + 256 * 0))%Z with (a + b * 2 ^ 8)%Z by lia.
  rewrite Z.mod_add, Z.shiftr_div_pow2, Z.div_add, (Z.div_small a), Z.add_0_l, !Z.mod_small by lia. done.
Qed.

(** A buffer that starts with a version and seven header bytes is the raw form of the frame read from them. *)
Lemma raw_of_parts a v c k f s0 s1 l0 l1 p :
  Forall is_byte [c; k; f; s0; s1; l0; l1] -> Z.to_nat (of_le [l0; l1]) = length p ->
  v = version_bytes (mkHeader a c k f (of_le [s0; s1])) ->
  raw_bytes (mkHeader a c k f (of_le [s0; s1])) p = v ++ [c; k; f; s0; s1; l0; l1] ++ p.
Proof.
  intros Hb Hl ->. repeat (apply Forall_cons in Hb as [? Hb]).
  destruct (le16_inv s0 s1) as (_ & E1 & E2); [done..|]. destruct (le16_inv l0 l1) as (E3 & E4 & E5); [done..|].
  unfold raw_bytes, rest_bytes, version_bytes. cbn [address channel kind flags seq_no].
  rewrite <- Hl, Z2Nat.id, E1, E2, E4, E5 by apply E3. done.
Qed.

(** What a successful [check] established, in terms of the bytes it decoded. *)
Lemma check_parts n r1 (a : Z) v :
  Forall is_byte r1 -> n <= length r1 -> (0 <= a <= ADDRESS_MAX)%Z ->
  let hl := length v + 7 in
  let h := slice r1 (hl - 7) 7 in
  let pl := Z.to_nat (of_le [nth 5 h 0%Z; nth 6 h 0%Z]) in
  let hd := mkHeader a (nth 0 h 0%Z) (nth 1 h 0%Z) (nth 2 h 0%Z) (of_le [nth 3 h 0%Z; nth 4 h 0%Z]) in
  take (length v) r1 = v -> v = version_bytes hd ->
  pl <= MAX_PAYLOAD -> n = hl + pl + CRC -> to_le CRC (crc32c (take (hl + pl) r1)) = slice r1 (hl + pl) CRC ->
  frame_ok (hd, slice r1 hl pl) /\ take n r1 = body hd (slice r1 hl pl).
Proof.
  intros Hb Hn Ha. cbn zeta. rewrite Nat.add_sub. intros Hv Hver.
  assert (r1 = v ++ drop (length v) r1) as Hr by (by rewrite <- Hv at 1; rewrite take_drop).
  set (t := drop (length v) r1) in *. assert (slice r1 (length v) 7 = take 7 t) as Hs7 by done.
  rewrite Hs7 in *. clear Hs7.
  assert (length r1 = length v + length t) as Hlr by (rewrite Hr, length_app; done).
  assert (Forall is_byte t) as Hbt by (by apply Forall_drop).
  intros Hp -> Hcrc. unfold CRC in Hn. destruct t as [|c [|k [|f [|s0 [|s1 [|l0 [|l1 X]]]]]]]; try (simpl in Hlr; lia).
  cbn [take nth] in *. set (pl := Z.to_nat (of_le [l0; l1])) in *. set (hd := mkHeader a c k f (of_le [s0; s1])) in *.
  assert (slice r1 (length v + 7) pl = take pl X) as ->.
  { unfold slice. rewrite Hr, <- drop_drop, drop_app_length. done. }
  assert (length (take pl X) = pl) as Hlp by (rewrite length_take; simpl in Hlr; lia).
  assert (Forall is_byte [c; k; f; s0; s1; l0; l1] /\ Forall is_byte X) as [Hh HX] by (by rewrite <- Forall_app).
  assert (raw_bytes hd (take pl X) = take (length v + 7 + pl) r1) as Hraw.
  { unfold hd. rewrite (raw_of_parts a v _ _ _ _ _ l0 l1) by done. rewrite Hr, <- Nat.add_assoc, take_app_add. done. }
  split.
  - repeat (apply Forall_cons in Hh as [? Hh]). split; [|cbn [fst snd]; rewrite Hlp; auto using Forall_take].
    split; [exact Ha|]. do 3 (split; [done|]). by apply le16_inv.
  - unfold body. rewrite Hraw, Hcrc. unfold slice. by rewrite take_take_drop.
Qed.

(** Witness: two frames, one of them addressed. *)
Definition sample_frames : list (Header * bytes) :=
  [(mkHeader 0 1 20 0 700, [104; 0; 105]%Z); (mkHeader 5 2 12 0 701, [])].
Definition sample_wires : list bytes := map frame_wire sample_frames.

Lemma sample_ok : Forall frame_ok sample_frames.
Proof. repeat constructor; cbn; unfold ADDRESS_MAX, W16, is_byte, MAX_PAYLOAD; lia. Qed.

Lemma encoded_map fs : Forall frame_ok fs -> Forall2 encoded fs (map frame_wire fs).
Proof.
  assert (forall f, frame_ok f -> encoded f (frame_wire f)) as H.
  { intros [h p] Hf. destruct (encode_fits h p (replicate MAX_WIRE 0%Z) Hf) as [out' He]; [by rewrite length_replicate|].
    eexists _, _, out'. split; [exact He|]. symmetry. exact (encode_wire _ _ _ _ _ He). }
  induction 1; cbn [map]; constructor; auto.
Qed.

Lemma sample_encoded : Forall2 encoded sample_frames sample_wires.
Proof. apply encoded_map, sample_ok. Qed.

Lemma decoder_new_clean : decoder_clean decoder_new.
Proof. split; [apply length_replicate|done]. Qed.

(** integrity: a frame the decoder accepts is one whose decoded bytes are exactly the body of a well-formed
    frame with that header and payload, its CRC included. *)
Theorem check_sound w r h r' hl pl :
  Forall is_byte w -> Forall is_byte r -> check w r = Some (h, (r', hl, pl)) ->
  frame_ok (h, slice r' hl pl) /\
  exists n, Cobs.decode w r = Some (n, r') /\ take n r' = body h (slice r' hl pl).
Proof.
  intros Hw Hr. unfold check, mbind, option_bind. destruct (Cobs.decode w r) as [[n r1]|] eqn:Hd; [|done].
  pose proof (decode_bytes _ _ _ _ Hw Hr Hd) as Hb. destruct (decode_length _ _ _ _ Hd) as [Hl1 Hl2].
  rewrite <- Hl1 in Hl2. destruct (Nat.ltb_spec n (HEADER + CRC)) as [|Hn]; [done|].
  set (ver := if (nth 0 r1 0 =? VERSION)%Z then _ else _).
  assert (forall hl0 a, ver = Some (hl0, a) -> (0 <= a <= ADDRESS_MAX)%Z /\ exists v, hl0 = length v + 7 /\
    take (length v) r1 = v /\ forall c k f s, v = version_bytes (mkHeader a c k f s)) as Hver.
  { intros hl0 a. unfold ver. assert (12 <= length r1) as H12 by (unfold HEADER, CRC in *; lia).
    destruct r1 as [|x0 [|x1 r1]]; try (simpl in H12; lia). cbn [nth].
    destruct (Z.eqb_spec x0 VERSION) as [->|]; [intros [= <- <-]; split; [done|]; by exists [VERSION]|].
    destruct (Z.eqb_spec x0 VERSION_ADDRESSED) as [->|]; [|done]. cbn [andb].
    case_match eqn:Hx; [|done]. intros [= <- <-]. apply andb_true_iff in Hx as [[_ Hx1]%andb_true_iff Hx2].
    apply Z.leb_le in Hx1, Hx2. split; [lia|]. exists [VERSION_ADDRESSED; x1].
    split; [done|]. split; [done|]. intros. unfold version_bytes. cbn [address].
    by rewrite (proj2 (Z.eqb_neq x1 0)) by lia. }
  destruct ver as [[hl0 a]|]; [|done]. destruct (Hver hl0 a eq_refl) as (Ha & v & -> & Hv & Hvb).
  destruct (_ || _) eqn:Hc; [done|]. apply orb_false_iff in Hc as [Hp Hn']. case_bool_decide as Hcrc; [|done].
  intros [= <- <- <- <-]. apply negb_false_iff, Nat.eqb_eq in Hn'. apply Nat.ltb_ge in Hp.
  destruct (check_parts n r1 a v Hb Hl2 Ha Hv (Hvb _ _ _ _) Hp Hn' Hcrc) as [Hok Htake].
  split; [exact Hok|]. exists n. split; [done|exact Htake].
Qed.

Lemma stuffed_body_bytes h p : frame_ok (h, p) -> Forall is_byte (stuffed (body h p)).
Proof. intros Hf. unfold stuffed. apply stuff_bytes; [by apply body_bytes|constructor|cbn; lia]. Qed.

Lemma check_sound_witness :
  exists n r', Cobs.decode (stuffed (body (mkHeader 0 1 20 0 700) [104; 0; 105]%Z)) (replicate MAX_FRAME 0%Z) = Some (n, r') /\
    take n r' = body (mkHeader 0 1 20 0 700) [104; 0; 105]%Z.
Proof.
  assert (Forall is_byte (replicate MAX_FRAME 0%Z)) as Hr by (by apply Forall_replicate).
  pose proof (Forall_inv sample_ok) as Hok.
  destruct (check_body _ _ (replicate MAX_FRAME 0%Z) Hok (length_replicate _ _)) as (r' & Hc & _ & Hp).
  destruct (check_sound _ _ _ r' _ _ (stuffed_body_bytes _ _ Hok) Hr Hc) as [_ (n & H2 & H3)].
  rewrite Hp in H3. exists n, r'. split; [exact H2|exact H3].
Defined.

Lemma frame_stream_witness :
  exists d', pushes decoder_new (concat sample_wires) = (sample_frames, d') /\ decoder_clean d' /\ dropped d' = dropped decoder_new.
Proof. exact (frame_stream sample_frames sample_wires decoder_new sample_ok sample_encoded decoder_new_clean). Defined.

Lemma frame_resync_witness :
  exists junk d', pushes decoder_new ([7; 9; 200]%Z ++ 0%Z :: concat sample_wires) = (junk ++ sample_frames, d') /\ decoder_clean d'.
Proof. exact (frame_resync [7; 9; 200]%Z sample_frames sample_wires decoder_new sample_ok sample_encoded (proj1 decoder_new_clean)). Defined.
