(* ===== verification/Endpoint.v ===== *)
(** * The two ends of the link ([linkproto/src/endpoint.rs])

    [Master::exchange] sends a request and waits for its answer, sending it again a bounded number of times;
    [Slave::serve] answers each request once and repeats its last answer when the same request comes again. The line and
    the service are the source's traits [Line] and [Service], as classes over the state of the line and of the service.
    The theorems: a request is never carried out twice however often it is repeated, each repetition gets the same
    answer; an exchange returns only the answer to its own request and sends it at most [tries] times. *)
From S2P Require Import Prelude Cobs Crc Frame.
Local Open Scope nat_scope.

(** Kinds of frame used here, and their marks. *)
Definition REPLY : Z := 0x80.
Definition ERROR : Z := 0xFF.
Definition WAIT_MAX_MS : Z := 4000.

Inductive Error : Type := LineFailed | Timeout | TooBig | Refused (code : Z) | Protocol.

(** [trait Line]. *)
Class Line (L : Type) : Type := {
  line_write : L -> bytes -> L * bool;
  line_read : L -> nat -> Z -> L * bytes;
  line_now : L -> L * Z;
  line_turnaround : L -> L;
  line_claim : L -> L;
  line_release : L -> L;
}.

(** [trait Service]: the reply buffer is passed and given back, with the reply's length or an error code. *)
Class Service (Sv : Type) : Type :=
  service_handle : Sv -> Z -> Z -> bytes -> bytes -> Sv * bytes * result Z nat.

Record Stats : Type := mkStats { requests : Z; retries : Z; stat_dropped : Z }.
Definition stats_default : Stats := mkStats 0 0 0.

(** ** The slave *)
Record Slave : Type := mkSlave {
  s_decoder : Decoder;
  last : option (Z * Z * Z * Z);
  answer : bytes;
  answer_len : nat;
  reply : bytes;
  s_stats : Stats;
  s_address : Z;
}.

Definition slave_new : Slave :=
  mkSlave decoder_new None (replicate MAX_WIRE 0%Z) 0 (replicate MAX_PAYLOAD 0%Z) stats_default 0.

(** The identity of a request: channel, kind, sequence and CRC-32C of its payload. *)
Definition request_id (h : Header) (p : bytes) : Z * Z * Z * Z := (channel h, kind h, seq_no h, crc32c p).

Section slave.
Context {L Sv : Type} `{!Line L, !Service Sv}.

(** What [serve] does when the decoder completes a frame with header [h] (its payload in the decoder). *)
Definition serve_frame (sl : Slave) (s : Sv) (l : L) (h : Header) : Slave * Sv * L * result Error bool :=
  if negb (kind h &&& REPLY =? 0)%Z || negb (address h =? s_address sl)%Z then (sl, s, l, Ok false)
  else
    let p := payload (s_decoder sl) in
    let st := mkStats (wrap32 (requests (s_stats sl) + 1)) (retries (s_stats sl)) (stat_dropped (s_stats sl)) in
    let id := request_id h p in
    let '(sl, s, ok) :=
      if bool_decide (last sl = Some id) then
        (mkSlave (s_decoder sl) (last sl) (answer sl) (answer_len sl) (reply sl)
                 (mkStats (requests st) (wrap32 (retries st + 1)) (stat_dropped st)) (s_address sl), s, true)
      else
        let '(s, buf, r) := service_handle s (channel h) (kind h) p (reply sl) in
        let '(k, n, buf) :=
          match r with
          | Ok n => (kind h ||| REPLY, Nat.min n MAX_PAYLOAD, buf)
          | Err code => (ERROR, 1, <[0 := code]> buf)
          end in
        match encode (mkHeader (s_address sl) (channel h) k 0 (seq_no h)) (take n buf) (answer sl) with
        | None => (mkSlave (s_decoder sl) (last sl) (answer sl) (answer_len sl) buf st (s_address sl), s, false)
        | Some (n, a) => (mkSlave (s_decoder sl) (Some id) a n buf st (s_address sl), s, true)
        end in
    if ok then
      let l := line_turnaround l in
      let '(l, sent) := line_write l (take (answer_len sl) (answer sl)) in
      (sl, s, l, if sent then Ok true else Err LineFailed)
    else (sl, s, l, Err TooBig).

Definition with_decoder (sl : Slave) (d : Decoder) : Slave :=
  mkSlave d (last sl) (answer sl) (answer_len sl) (reply sl) (s_stats sl) (s_address sl).

(** The loop of [serve] over the bytes read. *)
Fixpoint serve_loop (bs : bytes) (sl : Slave) (s : Sv) (l : L) (answered : nat) : Slave * Sv * L * result Error nat :=
  match bs with
  | [] =>
      let st := mkStats (requests (s_stats sl)) (retries (s_stats sl)) (dropped (s_decoder sl)) in
      (mkSlave (s_decoder sl) (last sl) (answer sl) (answer_len sl) (reply sl) st (s_address sl), s, l, Ok answered)
  | b :: bs =>
      let '(r, d) := push (s_decoder sl) b in
      let sl := with_decoder sl d in
      match r with
      | None => serve_loop bs sl s l answered
      | Some h =>
          let '(sl, s, l, r) := serve_frame sl s l h in
          match r with
          | Err e => (sl, s, l, Err e)
          | Ok a => serve_loop bs sl s l (if a then answered + 1 else answered)
          end
      end
  end.

(** [Slave::serve]. *)
Definition serve (sl : Slave) (s : Sv) (l : L) (timeout_ms : Z) : Slave * Sv * L * result Error nat :=
  let '(l, got) := line_read l 256 timeout_ms in
  serve_loop got sl s l 0.
End slave.

(** ** What a slave promises: each request carried out once, each repetition answered with the same bytes *)

(** The laws a service keeps: it works within the reply buffer and its error codes are bytes. *)
Class ServiceLaws (Sv : Type) `{!Service Sv} : Prop :=
  service_buffer : forall (s : Sv) c k p buf,
    length buf = MAX_PAYLOAD -> Forall is_byte buf ->
    let '(_, buf', r) := service_handle s c k p buf in
    length buf' = MAX_PAYLOAD /\ Forall is_byte buf' /\ match r with Ok _ => True | Err e => is_byte e end.

Section promise.
Context {L Sv : Type} `{!Line L, !Service Sv}.

(** A request carried out: the service's new state, the reply buffer, and the answer's frame. *)
Definition carry_out (addr : Z) (s : Sv) (buf : bytes) (f : Header * bytes) : Sv * bytes * (Header * bytes) :=
  let '(s, buf, r) := service_handle s (channel f.1) (kind f.1) f.2 buf in
  match r with
  | Ok n => (s, buf, (mkHeader addr (channel f.1) (kind f.1 ||| REPLY) 0 (seq_no f.1), take (Nat.min n MAX_PAYLOAD) buf))
  | Err code =>
      let buf := <[0 := code]> buf in
      (s, buf, (mkHeader addr (channel f.1) ERROR 0 (seq_no f.1), take 1 buf))
  end.

(** The abstract slave: service, reply buffer, the last request's identity, its answer's bytes. *)
Record Abstract : Type := mkAbstract { a_service : Sv; a_reply : bytes; a_last : option (Z * Z * Z * Z); a_answer : bytes }.

Definition a_step (addr : Z) (a : Abstract) (f : Header * bytes) : Abstract :=
  if bool_decide (a_last a = Some (request_id f.1 f.2)) then a
  else
    let '(s, buf, g) := carry_out addr (a_service a) (a_reply a) f in
    mkAbstract s buf (Some (request_id f.1 f.2)) (frame_wire g).

Fixpoint a_run (addr : Z) (a : Abstract) (fs : list (Header * bytes)) : Abstract * list bytes :=
  match fs with
  | [] => (a, [])
  | f :: fs =>
      let a := a_step addr a f in
      let '(a', outs) := a_run addr a fs in
      (a', a_answer a :: outs)
  end.

(** The line after [outs] were sent. *)
Definition send_all (l : L) (outs : list bytes) : L :=
  foldl (fun l w => (line_write (line_turnaround l) w).1) l outs.

(** What a slave holds, abstractly, and its invariant. *)
Definition abstract_of (sl : Slave) (s : Sv) : Abstract :=
  mkAbstract s (reply sl) (last sl) (take (answer_len sl) (answer sl)).

Definition slave_ok (sl : Slave) : Prop :=
  decoder_clean (s_decoder sl) /\ length (answer sl) = MAX_WIRE /\ length (reply sl) = MAX_PAYLOAD /\
  Forall is_byte (reply sl) /\ (0 <= s_address sl <= ADDRESS_MAX)%Z.

(** A request for this slave. *)
Definition request_for (addr : Z) (f : Header * bytes) : Prop :=
  frame_ok f /\ (kind f.1 &&& REPLY = 0)%Z /\ address f.1 = addr.

Context `{!ServiceLaws Sv}.
Hypothesis writes_succeed : forall (l : L) w, (line_write l w).2 = true.

Lemma answer_ok addr ch k sq p :
  (0 <= addr <= ADDRESS_MAX)%Z -> is_byte ch -> is_byte k -> (0 <= sq < W16)%Z -> Forall is_byte p ->
  length p <= MAX_PAYLOAD -> frame_ok (mkHeader addr ch k 0 sq, p).
Proof. intros. split; [|done]. split; [done|]. split; [done|]. split; [done|]. split; [done|]. done. Qed.

Lemma carry_out_ok addr s buf f :
  request_for addr f -> (0 <= addr <= ADDRESS_MAX)%Z -> length buf = MAX_PAYLOAD -> Forall is_byte buf ->
  let '(_, buf', g) := carry_out addr s buf f in
  length buf' = MAX_PAYLOAD /\ Forall is_byte buf' /\ frame_ok g.
Proof.
  destruct f as [h p]. intros (((Ha & Hc & Hk & Hf & Hs) & _) & _ & _) Haddr Hl Hb. cbn [fst snd] in *. unfold carry_out.
  cbn [fst snd]. pose proof (service_buffer s (channel h) (kind h) p buf Hl Hb) as Hsb.
  destruct (service_handle s (channel h) (kind h) p buf) as [[s' buf'] [n|code]]; destruct Hsb as (Hl' & Hb' & Hcode).
  - split; [done|]. split; [done|]. apply answer_ok; try done; [apply lor_byte; [done|unfold is_byte, REPLY; lia]|by apply Forall_take|rewrite length_take; lia].
  - rewrite length_insert. split; [done|]. assert (Forall is_byte (<[0:=code]> buf')) as Hi by (by apply Forall_insert).
    split; [done|]. apply answer_ok; try done; [by apply Forall_take|rewrite length_take; unfold MAX_PAYLOAD; lia].
Qed.

Lemma serve_frame_refines sl s l f :
  slave_ok sl -> request_for (s_address sl) f -> payload (s_decoder sl) = f.2 ->
  exists sl', serve_frame sl s l f.1 =
    (sl', a_service (a_step (s_address sl) (abstract_of sl s) f),
     (line_write (line_turnaround l) (a_answer (a_step (s_address sl) (abstract_of sl s) f))).1, Ok true) /\
    slave_ok sl' /\ s_address sl' = s_address sl /\
    abstract_of sl' (a_service (a_step (s_address sl) (abstract_of sl s) f)) = a_step (s_address sl) (abstract_of sl s) f.
Proof.
  intros Hok Hreq Hp. pose proof Hok as (Hcl & Han & Hre & Hby & Had). pose proof Hreq as (Hf & Hk & Ha).
  unfold serve_frame. rewrite Hk, Ha, (Z.eqb_refl (s_address sl)). change (negb (0 =? 0)%Z || negb true) with false.
  rewrite Hp. unfold a_step, abstract_of. cbn [a_last a_service a_reply a_answer].
  case_bool_decide as Hlast.
  - cbn [a_service a_answer answer_len answer].
    pose proof (writes_succeed (line_turnaround l) (take (answer_len sl) (answer sl))) as Hw.
    destruct (line_write _ _) as [l' sent]. cbn [fst snd] in *. subst sent. eexists. split; [reflexivity|].
    split; [|done]. exact Hok.
  - pose proof (carry_out_ok (s_address sl) s (reply sl) f Hreq Had Hre Hby) as Hco. unfold carry_out in *.
    destruct (service_handle s (channel f.1) (kind f.1) f.2 (reply sl)) as [[s' buf] r].
    set (g := match r with Ok n => _ | Err code => _ end) in *. destruct g as [[s2 buf2] [gh gp]] eqn:Hg.
    assert (s2 = s' /\ exists k n, match r with
          | Ok n => (kind f.1 ||| REPLY, Nat.min n MAX_PAYLOAD, buf)
          | Err code => (ERROR, 1, <[0 := code]> buf)
          end = (k, n, buf2) /\ gh = mkHeader (s_address sl) (channel f.1) k 0 (seq_no f.1) /\ gp = take n buf2)
      as (-> & k & n & -> & -> & ->).
    { destruct r; unfold g in Hg; simplify_eq; eauto 10. }
    destruct Hco as (Hl2 & Hb2 & Hfok).
    destruct (encode_fits _ _ (answer sl) Hfok) as [a' He]; [lia|]. rewrite He.
    pose proof (encode_wire _ _ _ _ _ He) as Hwire. cbn [answer_len answer a_answer a_service].
    rewrite Hwire. pose proof (writes_succeed (line_turnaround l)
      (frame_wire (mkHeader (s_address sl) (channel f.1) k 0 (seq_no f.1), take n buf2))) as Hw.
    destruct (line_write _ _) as [l' sent]. cbn [fst snd] in *. subst sent. eexists. split; [reflexivity|].
    split; [|split; [done|cbn; by rewrite Hwire]].
    split; [exact Hcl|]. split; [|split; [exact Hl2|split; [exact Hb2|exact Had]]].
    exact (eq_trans (encode_length _ _ _ _ _ He) Han).
Qed.

Lemma serve_loop_skip w : forall rest sl s l n d,
  pushes (s_decoder sl) w = ([], d) -> serve_loop (w ++ rest) sl s l n = serve_loop rest (with_decoder sl d) s l n.
Proof.
  induction w as [|b w IH]; intros rest sl s l n d; cbn [pushes app serve_loop].
  - intros [= <-]. by destruct sl.
  - destruct (push (s_decoder sl) b) as [r d1]. destruct (pushes d1 w) as [fs d2] eqn:Hp.
    destruct r; [done|]. intros [= -> <-]. by rewrite (IH rest (with_decoder sl d1) s l n d2) by done.
Qed.

(** A request's frame on the line is one step of the abstract slave. *)
Lemma serve_loop_frame sl s l n f rest :
  slave_ok sl -> request_for (s_address sl) f ->
  let a := a_step (s_address sl) (abstract_of sl s) f in
  exists sl', serve_loop (frame_wire f ++ rest) sl s l n =
      serve_loop rest sl' (a_service a) (line_write (line_turnaround l) (a_answer a)).1 (n + 1) /\
    slave_ok sl' /\ s_address sl' = s_address sl /\ abstract_of sl' (a_service a) = a.
Proof.
  intros Hok Hreq a. pose proof Hok as (Hcl & Hrest). pose proof Hreq as (Hf & _).
  destruct (pushes_frame f (s_decoder sl) Hf Hcl) as (d' & Hp & Hcl' & _).
  unfold frame_wire in *. rewrite pushes_app in Hp. rewrite <- app_assoc.
  destruct (pushes (s_decoder sl) (stuffed (body f.1 f.2))) as [fs d1] eqn:Hg.
  assert (fs = []) as -> by exact (gathers_nothing f _ _ _ Hf Hcl Hg).
  rewrite (serve_loop_skip _ _ sl s l n d1) by done. cbn [pushes app serve_loop with_decoder s_decoder] in *.
  destruct (push d1 0) as [r d2]. destruct r as [h|]; simplify_eq/=.
  destruct (serve_frame_refines (with_decoder (with_decoder sl d1) d') s l (h, payload d')) as (sl' & He & Hok' & Had & Hab);
    [by split|done|done|].
  cbn [fst with_decoder] in He. rewrite He. by exists sl'.
Qed.

(** ** The slave refines its promise, over any run of requests *)
Lemma serve_refines fs : forall sl s l n,
  slave_ok sl -> Forall (request_for (s_address sl)) fs ->
  let '(a, outs) := a_run (s_address sl) (abstract_of sl s) fs in
  exists sl', serve_loop (concat (map frame_wire fs)) sl s l n = (sl', a_service a, send_all l outs, Ok (n + length fs)) /\
    slave_ok sl' /\ s_address sl' = s_address sl /\ abstract_of sl' (a_service a) = a.
Proof.
  induction fs as [|f fs IH]; intros sl s l n Hok Hfs; cbn [a_run map concat].
  - eexists. cbn [serve_loop length]. rewrite Nat.add_0_r. split; [reflexivity|]. split; [exact Hok|]. done.
  - apply Forall_cons in Hfs as [Hf Hfs].
    destruct (serve_loop_frame sl s l n f (concat (map frame_wire fs)) Hok Hf) as (sl1 & -> & Hok1 & Had & Hab).
    set (a1 := a_step (s_address sl) (abstract_of sl s) f) in *. rewrite <- Had in Hfs.
    specialize (IH sl1 (a_service a1) (line_write (line_turnaround l) (a_answer a1)).1 (n + 1) Hok1 Hfs).
    rewrite Hab, Had in IH. destruct (a_run (s_address sl) a1 fs) as [a outs]. destruct IH as (sl2 & -> & Hok2 & Had2 & Hab2).
    exists sl2. rewrite Had2. cbn [length]. replace (n + 1 + length fs) with (n + S (length fs)) by lia. done.
Qed.

(** ** Each request carried out once *)

(** The service's state, the reply buffer and the answers when every request of [fs] is carried out once, in order. *)
Fixpoint carry_all (addr : Z) (s : Sv) (buf : bytes) (fs : list (Header * bytes)) : Sv * bytes * list (Header * bytes) :=
  match fs with
  | [] => (s, buf, [])
  | f :: fs =>
      let '(s, buf, g) := carry_out addr s buf f in
      let '(s, buf, gs) := carry_all addr s buf fs in
      (s, buf, g :: gs)
  end.

(** Requests with how many times each is sent again, and what comes on the line. *)
Definition sent (gs : list (Header * bytes * nat)) : list (Header * bytes) :=
  concat (map (fun g => replicate (S g.2) g.1) gs).

(** No request has the identity of the one before it. *)
Fixpoint fresh_ids (last : option (Z * Z * Z * Z)) (gs : list (Header * bytes * nat)) : Prop :=
  match gs with
  | [] => True
  | (f, _) :: gs => last <> Some (request_id f.1 f.2) /\ fresh_ids (Some (request_id f.1 f.2)) gs
  end.

Definition answers_sent (gs : list (Header * bytes * nat)) (answers : list (Header * bytes)) : list bytes :=
  concat (zip_with (fun g a => replicate (S g.2) (frame_wire a)) gs answers).

Lemma a_run_same addr a f k fs : a_last a = Some (request_id f.1 f.2) ->
  a_run addr a (replicate k f ++ fs) =
    let '(a', outs) := a_run addr a fs in (a', replicate k (a_answer a) ++ outs).
Proof.
  intros Hl. induction k as [|k IH]; cbn [replicate app]; [by destruct (a_run addr a fs)|].
  cbn [a_run]. unfold a_step. rewrite bool_decide_eq_true_2 by done. rewrite IH. by destruct (a_run addr a fs).
Qed.

Lemma a_run_sent addr gs : forall a, fresh_ids (a_last a) gs ->
  let '(s, buf, answers) := carry_all addr (a_service a) (a_reply a) (map fst gs) in
  exists a', a_run addr a (sent gs) = (a', answers_sent gs answers) /\ a_service a' = s /\ a_reply a' = buf.
Proof.
  induction gs as [|[f k] gs IH]; intros a Hfr; cbn [map carry_all fst].
  - by exists a.
  - destruct Hfr as [Hne Hfr]. destruct (carry_out addr (a_service a) (a_reply a) f) as [[s1 buf1] g] eqn:Hc.
    specialize (IH (mkAbstract s1 buf1 (Some (request_id f.1 f.2)) (frame_wire g)) Hfr). cbn [a_service a_reply a_last] in IH.
    destruct (carry_all addr s1 buf1 (map fst gs)) as [[s2 buf2] answers]. destruct IH as (a' & Hr & Hs & Hb).
    exists a'. split; [|done]. unfold sent. cbn [map concat fst snd replicate app a_run].
    assert (a_step addr a f = mkAbstract s1 buf1 (Some (request_id f.1 f.2)) (frame_wire g)) as ->.
    { unfold a_step. rewrite bool_decide_eq_false_2 by done. by rewrite Hc. }
    rewrite a_run_same by done. change (concat (map _ gs)) with (sent gs). rewrite Hr. done.
Qed.

Lemma sent_requests addr gs : Forall (request_for addr) (map fst gs) -> Forall (request_for addr) (sent gs).
Proof.
  intros Hreq. unfold sent. apply Forall_concat, Forall_map. rewrite Forall_map in Hreq.
  eapply Forall_impl; [exact Hreq|]. intros g Hg. by apply Forall_replicate.
Qed.

(** C15: at most once: however often each request is sent again before the next one, the service carries it out
    exactly once, in order, and every sending gets that request's answer. *)
Theorem slave_at_most_once gs ws sl s l n :
  slave_ok sl -> Forall (request_for (s_address sl)) (map fst gs) -> fresh_ids (last sl) gs ->
  Forall2 encoded (sent gs) ws ->
  let '(s', buf', answers) := carry_all (s_address sl) s (reply sl) (map fst gs) in
  exists sl', serve_loop (concat ws) sl s l n = (sl', s', send_all l (answers_sent gs answers), Ok (n + length (sent gs))) /\
    slave_ok sl'.
Proof.
  intros Hok Hreq Hfr Hws. rewrite (encoded_wires _ _ Hws).
  pose proof (sent_requests _ _ Hreq) as Hsent.
  pose proof (a_run_sent (s_address sl) gs (abstract_of sl s) Hfr) as Hrun. cbn [a_service a_reply abstract_of] in Hrun.
  destruct (carry_all (s_address sl) s (reply sl) (map fst gs)) as [[s' buf'] answers].
  destruct Hrun as (a' & Hrun & <- & _). pose proof (serve_refines (sent gs) sl s l n Hok Hsent) as Hsr. rewrite Hrun in Hsr.
  destruct Hsr as (sl' & He & Hok' & _). by exists sl'.
Qed.
End promise.

(** ** The master *)
Record Master : Type := mkMaster {
  m_decoder : Decoder;
  m_seq : Z;
  m_wire : bytes;
  timeout_ms : Z;
  tries : nat;
  m_stats : Stats;
  m_address : Z;
}.

Section master.
Context {L : Type} `{!Line L}.

(** [Master::new]: the first sequence number is the low half of the clock. *)
Definition master_new (l : L) : L * Master :=
  let '(l, now) := line_now l in
  (l, mkMaster decoder_new (wrap16 now) (replicate MAX_WIRE 0%Z) 500 8 stats_default 0).

(** The bytes of one read: the decoder, and the exchange's end if a frame in them ends it. The bytes after that frame
    are not looked at. *)
Fixpoint scan (addr ch k sq : Z) (bs : bytes) (d : Decoder) (reply : bytes) : Decoder * option (bytes * result Error nat) :=
  match bs with
  | [] => (d, None)
  | b :: bs =>
      let '(r, d) := push d b in
      match r with
      | None => scan addr ch k sq bs d reply
      | Some h =>
          if (kind h &&& REPLY =? 0)%Z || negb (seq_no h =? sq)%Z || negb (channel h =? ch)%Z || negb (address h =? addr)%Z
          then scan addr ch k sq bs d reply
          else
            let p := payload d in
            if (kind h =? ERROR)%Z then (d, Some (reply, Err (Refused (default 0%Z (head p)))))
            else if negb (kind h =? k ||| REPLY)%Z then (d, Some (reply, Err Protocol))
            else if length p <=? length reply then (d, Some (p ++ drop (length p) reply, Ok (length p)))
            else (d, Some (reply, Err TooBig))
      end
  end.

(** One try's wait: reads until [end_] or the answer; [fuel] bounds the reads, and [None] means it ran out. *)
Fixpoint wait_loop (fuel : nat) (end_ : Z) (addr ch k sq : Z) (l : L) (d : Decoder) (reply : bytes) :
    L * Decoder * option (option (bytes * result Error nat)) :=
  match fuel with
  | O => (l, d, None)
  | S fuel =>
      let '(l, now) := line_now l in
      if (end_ <=? now)%Z then (l, d, Some None)
      else
        let '(l, got) := line_read l 256 (wrap32 (end_ - now)) in
        let '(d, out) := scan addr ch k sq got d reply in
        match out with
        | Some o => (l, d, Some (Some o))
        | None => wait_loop fuel end_ addr ch k sq l d reply
        end
  end.

(** How long try [attempt] waits. *)
Definition wait_ms (timeout : Z) (attempt : nat) : Z :=
  Z.min (Z.shiftl timeout (Z.of_nat (Nat.min attempt 4))) (Z.max timeout WAIT_MAX_MS).

(** The tries left, from number [attempt] on; [w] is the encoded request. *)
Fixpoint try_loop (fuel more attempt : nat) (w : bytes) (ch k sq : Z) (m : Master) (l : L) (reply : bytes) :
    Master * L * option (bytes * result Error nat) :=
  let with_stats m st := mkMaster (m_decoder m) (m_seq m) (m_wire m) (timeout_ms m) (tries m) st (m_address m) in
  match more with
  | O =>
      let st := mkStats (requests (m_stats m)) (retries (m_stats m)) (dropped (m_decoder m)) in
      (with_stats m st, l, Some (reply, Err Timeout))
  | S more =>
      let m := if 0 <? attempt
               then with_stats m (mkStats (requests (m_stats m)) (wrap32 (retries (m_stats m) + 1)) (stat_dropped (m_stats m)))
               else m in
      let '(l, sent) := line_write l w in
      if negb sent then (m, l, Some (reply, Err LineFailed))
      else
        let '(l, now) := line_now l in
        let end_ := (now + wait_ms (timeout_ms m) attempt)%Z in
        let '(l, d, r) := wait_loop fuel end_ (m_address m) ch k sq l (m_decoder m) reply in
        let m := mkMaster d (m_seq m) (m_wire m) (timeout_ms m) (tries m) (m_stats m) (m_address m) in
        match r with
        | None => (m, l, None)
        | Some (Some o) => (m, l, Some o)
        | Some None => try_loop fuel more (attempt + 1) w ch k sq m l reply
        end
  end.

(** [Master::exchange]. *)
Definition exchange (fuel : nat) (m : Master) (l : L) (ch k : Z) (p reply : bytes) :
    Master * L * option (bytes * result Error nat) :=
  let sq := wrap16 (m_seq m + 1) in
  match encode (mkHeader (m_address m) ch k 0 sq) p (m_wire m) with
  | None => (mkMaster (m_decoder m) sq (m_wire m) (timeout_ms m) (tries m) (m_stats m) (m_address m), l, Some (reply, Err TooBig))
  | Some (n, w) =>
      let st := mkStats (wrap32 (requests (m_stats m) + 1)) (retries (m_stats m)) (stat_dropped (m_stats m)) in
      let m := mkMaster (m_decoder m) sq w (timeout_ms m) (tries m) st (m_address m) in
      try_loop fuel (tries m) 0 (take n w) ch k sq m l reply
  end.

(** [Master::call]. *)
Definition call (fuel : nat) (m : Master) (l : L) (ch k : Z) (p reply : bytes) : Master * L * option (bytes * result Error nat) :=
  let '(m, l, r) := exchange fuel m (line_claim l) ch k p reply in
  (m, line_release l, r).
End master.

(** ** A witness: a service that counts the requests it carries out, on a line that records what was written *)
#[global] Instance trace_line : Line (list bytes) := {
  line_write l w := (l ++ [w], true);
  line_read l _ _ := (l, []);
  line_now l := (l, 0%Z);
  line_turnaround l := l;
  line_claim l := l;
  line_release l := l;
}.

#[global] Instance count_service : Service nat := fun s _ _ _ buf => (s + 1, buf, Ok s).

#[global] Instance count_laws : ServiceLaws nat.
Proof. by intros s c k p buf Hl Hb. Qed.

Definition sample_requests : list (Header * bytes * nat) :=
  [(mkHeader 0 2 11 0 5, [1; 2]%Z, 2); (mkHeader 0 2 11 0 6, [1; 2]%Z, 0)].

Lemma sample_requests_ok : Forall (request_for 0) (map fst sample_requests).
Proof.
  assert (Forall is_byte [1; 2]%Z) as Hb by (rewrite !Forall_cons; by split_and!).
  apply Forall_cons; split; [|apply Forall_cons; split; [|apply Forall_nil_2]];
    (split; [split; [by split_and!|split; [exact Hb|cbn; unfold MAX_PAYLOAD; lia]]|done]).
Qed.

Lemma slave_new_ok : slave_ok slave_new.
Proof.
  split; [exact decoder_new_clean|]. split; [apply length_replicate|]. split; [apply length_replicate|].
  split; [by apply Forall_replicate|done].
Qed.

Lemma slave_at_most_once_witness :
  exists sl', serve_loop (concat (map frame_wire (sent sample_requests))) slave_new 0 ([] : list bytes) 0 =
    (sl', 2, send_all [] (answers_sent sample_requests
       (carry_all 0 0 (reply slave_new) (map fst sample_requests)).2), Ok 4) /\ slave_ok sl'.
Proof.
  exact (slave_at_most_once (fun _ _ => eq_refl) sample_requests (map frame_wire (sent sample_requests)) slave_new 0 [] 0
    slave_new_ok sample_requests_ok ltac:(by split_and!) (encoded_map _ (Forall_impl _ _ _ (sent_requests 0 _ sample_requests_ok) (fun f Hf => proj1 Hf)))).
Defined.
