(* ===== verification/LinkPair.v ===== *)
(** * A master and a slave on one line ([linkproto/src/endpoint.rs])

    The two ends joined by a line that loses whole frames: a plan says, for each try, whether the request reaches the
    slave and whether the answer reaches the master. The theorem: as soon as one try gets through both ways, within the
    master's tries, the exchange returns the service's answer, and the service carried the request out exactly once,
    however many earlier tries reached it. *)
From S2P Require Import Prelude Cobs Crc Frame Endpoint.
Local Open Scope nat_scope.

Section pair.
Context {Sv : Type} `{!Service Sv, !ServiceLaws Sv}.

(** The line with the slave and its service at the far end, the bytes on their way to the master, and the clock. *)
Record Wire : Type := mkWire { far : Slave; far_service : Sv; rx : bytes; plan : list (bool * bool); clock : Z }.

#[export] Instance wire_line : Line Wire := {
  line_write l w :=
    match plan l with
    | [] => (l, true)
    | (request, answer) :: more =>
        let '(sl, s, outs) :=
          if request then
            let '(sl, s, outs, _) := serve_loop w (far l) (far_service l) ([] : list bytes) 0 in (sl, s, outs)
          else (far l, far_service l, []) in
        (mkWire sl s (rx l ++ if answer then concat outs else []) more (clock l), true)
    end;
  line_read l n t :=
    match rx l with
    | [] => (mkWire (far l) (far_service l) [] (plan l) (clock l + t), [])
    | w => (mkWire (far l) (far_service l) (drop n w) (plan l) (clock l), take n w)
    end;
  line_now l := (l, clock l);
  line_turnaround l := l;
  line_claim l := l;
  line_release l := l;
}.

(** ** The master's reading *)
Lemma scan_app addr ch k sq a b d reply :
  scan addr ch k sq (a ++ b) d reply =
    match scan addr ch k sq a d reply with (d1, None) => scan addr ch k sq b d1 reply | r => r end.
Proof.
  revert d. induction a as [|x a IH]; intros d; cbn [app scan]; [done|].
  destruct (push d x) as [[h|] d1]; [|apply IH]. repeat (case_match; try apply IH; try done).
Qed.

Lemma scan_skip addr ch k sq w d d' reply :
  pushes d w = ([], d') -> scan addr ch k sq w d reply = (d', None).
Proof.
  revert d. induction w as [|b w IH]; intros d; cbn [pushes scan]; [by intros [= <-]|].
  destruct (push d b) as [r d1]. destruct (pushes d1 w) as [fs d2] eqn:Hp. destruct r; [done|].
  intros [= -> <-]. by apply IH.
Qed.

(** What a master does with the answer [f] to its own request. *)
Definition outcome (k : Z) (f : Header * bytes) (reply : bytes) : bytes * result Error nat :=
  if (kind f.1 =? ERROR)%Z then (reply, Err (Refused (default 0%Z (head f.2))))
  else if negb (kind f.1 =? k ||| REPLY)%Z then (reply, Err Protocol)
  else if length f.2 <=? length reply then (f.2 ++ drop (length f.2) reply, Ok (length f.2))
  else (reply, Err TooBig).

Lemma scan_frame f k d reply :
  frame_ok f -> decoder_clean d -> (kind f.1 &&& REPLY <> 0)%Z ->
  exists d', scan (address f.1) (channel f.1) k (seq_no f.1) (frame_wire f) d reply = (d', Some (outcome k f reply)).
Proof.
  intros Hf Hd Hk. destruct (pushes_frame f d Hf Hd) as (d' & Hp & _). unfold frame_wire in *. rewrite pushes_app in Hp.
  destruct (pushes d (stuffed (body f.1 f.2))) as [fs d1] eqn:Hg.
  assert (fs = []) as -> by exact (gathers_nothing f d _ _ Hf Hd Hg).
  rewrite scan_app, (scan_skip _ _ _ _ _ _ _ _ Hg). cbn [pushes scan] in *. destruct (push d1 0) as [[h|] d2]; [|done].
  simplify_eq/=. rewrite (proj2 (Z.eqb_neq (kind h &&& REPLY) 0)), !Z.eqb_refl by done. cbn [orb negb].
  exists d'. unfold outcome. cbn [fst snd]. repeat case_match; done.
Qed.

(** A try whose answer is on its way gets it, in reads of 256 bytes. *)
Lemma wait_rx fuel : forall end_ addr ch k sq l d reply d' o,
  scan addr ch k sq (rx l) d reply = (d', Some o) -> length (rx l) <= fuel -> (clock l < end_)%Z ->
  exists rest, wait_loop fuel end_ addr ch k sq l d reply =
    (mkWire (far l) (far_service l) rest (plan l) (clock l), d', Some (Some o)).
Proof.
  induction fuel as [|fuel IH]; intros end_ addr ch k sq l d reply d' o Hs Hl Hc.
  - destruct (rx l); [done|simpl in Hl; lia].
  - cbn [wait_loop line_now wire_line]. rewrite (proj2 (Z.leb_gt _ _)) by done. cbn [line_read wire_line].
    destruct (rx l) as [|b w] eqn:Hrx; [done|]. rewrite <- Hrx in *. clear Hrx.
    destruct (scan addr ch k sq (take 256 (rx l)) d reply) as [d1 r] eqn:Ht.
    rewrite <- (take_drop 256 (rx l)), scan_app, Ht in Hs. destruct r as [o'|].
    + simplify_eq. by eexists.
    + destruct (IH end_ addr ch k sq (mkWire (far l) (far_service l) (drop 256 (rx l)) (plan l) (clock l)) d1 reply d' o)
        as [rest Hr]; [done| |done|by exists rest].
      cbn [rx]. rewrite length_drop. lia.
Qed.

(** A try with nothing on its way ends at its time. *)
Lemma wait_nothing fuel end_ addr ch k sq l d reply :
  rx l = [] -> (clock l < end_ < clock l + W32)%Z ->
  wait_loop (S (S fuel)) end_ addr ch k sq l d reply =
    (mkWire (far l) (far_service l) [] (plan l) end_, d, Some None).
Proof.
  intros Hrx Hc. cbn [wait_loop line_now line_read wire_line]. rewrite (proj2 (Z.leb_gt _ _)) by lia. rewrite Hrx.
  cbn [scan]. unfold wrap32. rewrite Z.mod_small by lia. cbn [clock].
  replace (clock l + (end_ - clock l))%Z with end_ by lia. by rewrite (proj2 (Z.leb_le _ _)).
Qed.

(** ** One request, several tries *)
Section tries.
Context (addr ch k sq : Z) (p : bytes).
Let f : Header * bytes := (mkHeader addr ch k 0 sq, p).

(** The far end holds [a]; nothing is on its way. *)
Definition far_holds (a : Abstract (Sv := Sv)) (l : Wire) : Prop :=
  slave_ok (far l) /\ s_address (far l) = addr /\ rx l = [] /\ abstract_of (far l) (far_service l) = a.

Lemma deliver_request l a answer more :
  request_for addr f -> far_holds a l -> plan l = (true, answer) :: more ->
  exists sl, line_write l (frame_wire f) =
    (mkWire sl (a_service (a_step addr a f)) (if answer then a_answer (a_step addr a f) else []) more (clock l), true) /\
    slave_ok sl /\ s_address sl = addr /\ abstract_of sl (a_service (a_step addr a f)) = a_step addr a f.
Proof.
  intros Hreq (Hok & Had & Hrx & Hab) Hp. cbn [line_write wire_line]. rewrite Hp.
  pose proof (serve_refines (L := list bytes) (fun _ _ => eq_refl) [f] (far l) (far_service l) ([] : list bytes) 0 Hok) as H.
  rewrite Had in H. specialize (H ltac:(by constructor)). rewrite Hab in H. cbn [a_run map concat] in H.
  rewrite app_nil_r in H. destruct H as (sl & -> & Hok' & Had' & Hab'). exists sl. rewrite Hrx.
  split; [|done]. cbn [app send_all foldl line_write line_turnaround trace_line fst concat]. by rewrite app_nil_r.
Qed.

Lemma a_step_again (a : Abstract (Sv := Sv)) : a_step addr (a_step addr a f) f = a_step addr a f.
Proof.
  unfold a_step at 2 3. case_bool_decide as He; [unfold a_step; by rewrite bool_decide_eq_true_2|].
  destruct (carry_out addr (a_service a) (a_reply a) f) as [[s buf] g]. unfold a_step. cbn [a_last].
  by rewrite bool_decide_eq_true_2.
Qed.

Lemma wait_ms_range timeout attempt : (0 < timeout < W32)%Z -> (0 < wait_ms timeout attempt < W32)%Z.
Proof.
  intros Ht. unfold wait_ms, WAIT_MAX_MS, W32 in *. rewrite Z.shiftl_mul_pow2 by lia.
  assert (1 <= 2 ^ Z.of_nat (Nat.min attempt 4))%Z by lia. nia.
Qed.

Context (a0 : Abstract (Sv := Sv)) (Hreq : request_for addr f) (Haddr : (0 <= addr <= ADDRESS_MAX)%Z).
Context (fuel : nat) (Hfuel : MAX_WIRE + 2 <= fuel).
Let a1 : Abstract (Sv := Sv) := a_step addr a0 f.
Context (g : Header * bytes) (Hg : frame_ok g) (Ha1 : a_answer a1 = frame_wire g).
Context (Hga : address g.1 = addr) (Hgc : channel g.1 = ch) (Hgs : seq_no g.1 = sq) (Hgk : (kind g.1 &&& REPLY <> 0)%Z).

(** The tries up to the first that gets through both ways; the far end is as at the start or has carried out [f]. *)
Lemma tries_reach pre : forall more attempt m l reply post,
  decoder_clean (m_decoder m) -> m_address m = addr -> (0 < timeout_ms m < W32)%Z ->
  far_holds a0 l \/ far_holds a1 l -> plan l = pre ++ (true, true) :: post ->
  Forall (fun x => x <> (true, true)) pre -> length pre < more ->
  exists m' l', try_loop fuel more attempt (frame_wire f) ch k sq m l reply = (m', l', Some (outcome k g reply)) /\
    far_service l' = a_service a1.
Proof.
  induction pre as [|[request answer] pre IH]; intros more attempt m l reply post Hd Hma Ht Hl Hp Hpre Hmore;
    (destruct more as [|more]; [simpl in Hmore; lia|]); cbn [try_loop];
    match goal with |- context [if 0 <? attempt then ?x else m] => set (m1 := if 0 <? attempt then x else m) end;
    (assert (m_decoder m1 = m_decoder m /\ m_address m1 = addr /\ timeout_ms m1 = timeout_ms m) as (Hd1 & Hma1 & Ht1)
      by (unfold m1; case_match; done)); rewrite <- Hd1 in Hd; rewrite <- Ht1 in Ht;
    pose proof (wait_ms_range _ attempt Ht) as Hw.
  - assert (exists sl, line_write l (frame_wire f) =
      (mkWire sl (a_service a1) (a_answer a1) post (clock l), true)) as [sl ->].
    { destruct Hl as [Hl|Hl]; destruct (deliver_request l _ true post Hreq Hl Hp) as (sl & -> & _); exists sl; [done|].
      unfold a1. by rewrite a_step_again. }
    cbn [negb line_now wire_line clock]. destruct (scan_frame g k (m_decoder m1) reply Hg Hd Hgk) as [d' Hs].
    rewrite Hga, Hgc, Hgs in Hs. rewrite Hma1.
    destruct (wait_rx fuel (clock l + wait_ms (timeout_ms m1) attempt) addr ch k sq
      (mkWire sl (a_service a1) (a_answer a1) post (clock l)) (m_decoder m1) reply d' (outcome k g reply)) as [rest ->].
    + cbn [rx]. by rewrite Ha1.
    + cbn [rx]. rewrite Ha1. unfold frame_wire. rewrite length_app. simpl.
      pose proof (wire_fits g.1 g.2 ltac:(apply Hg)). lia.
    + cbn [clock]. lia.
    + by eexists _, _.
  - apply Forall_cons in Hpre as [Hx Hpre]. cbn [app] in Hp.
    assert (exists l1, line_write l (frame_wire f) = (l1, true) /\ (far_holds a0 l1 \/ far_holds a1 l1) /\
      plan l1 = pre ++ (true, true) :: post) as (l1 & -> & Hl1 & Hp1).
    { destruct request.
      - destruct answer; [done|]. destruct Hl as [Hl|Hl]; destruct (deliver_request l _ false _ Hreq Hl Hp) as (sl & -> & H);
          eexists; (split; [reflexivity|]); (split; [right|done]); unfold a1 in *; rewrite ?a_step_again in *;
          (split; [apply H|]); (split; [apply H|]); (split; [done|apply H]).
      - cbn [line_write wire_line]. rewrite Hp. eexists. split; [reflexivity|]. split; [|done].
        destruct Hl as [Hl|Hl]; [left|right]; destruct Hl as (? & ? & Hrx & ?); rewrite Hrx; by destruct answer. }
    cbn [negb line_now wire_line].
    assert (rx l1 = []) as Hrx by (destruct Hl1 as [Hl1|Hl1]; apply Hl1).
    destruct fuel as [|[|fuel']]; [lia..|]. rewrite wait_nothing by (done || lia). cbn [m_decoder m_address].
    apply (IH more (attempt + 1) _ _ _ post); cbn [m_decoder m_address timeout_ms plan]; try done; [|simpl in Hmore; lia].
    destruct Hl1 as [Hl1|Hl1]; [left|right]; destruct Hl1 as (? & ? & _ & ?); by split_and!.
Qed.
End tries.

(** C16: reliability: if some try within the master's tries reaches the slave and its answer comes back, the exchange
    returns the outcome of that answer, and the service has carried the request out exactly once, also when earlier
    tries reached it and only their answers were lost. *)
Theorem exchange_reliable m l ch k p reply0 pre post fuel :
  let addr := m_address m in
  let f := (mkHeader addr ch k 0 (wrap16 (m_seq m + 1)), p) in
  decoder_clean (m_decoder m) -> length (m_wire m) = MAX_WIRE -> (0 < timeout_ms m < W32)%Z ->
  slave_ok (far l) -> s_address (far l) = addr -> rx l = [] ->
  request_for addr f -> last (far l) <> Some (request_id f.1 f.2) ->
  plan l = pre ++ (true, true) :: post -> Forall (fun x => x <> (true, true)) pre -> length pre < tries m ->
  MAX_WIRE + 2 <= fuel ->
  let '(s', _, g) := carry_out addr (far_service l) (reply (far l)) f in
  exists m' l', exchange fuel m l ch k p reply0 = (m', l', Some (outcome k g reply0)) /\ far_service l' = s'.
Proof.
  intros addr f Hd Hw Ht Hok Had Hrx Hreq Hne Hp Hpre Hlen Hfuel.
  pose proof Hok as (_ & _ & Hre & Hby & Hrange). rewrite Had in Hrange.
  pose proof (carry_out_ok addr (far_service l) (reply (far l)) f Hreq Hrange Hre Hby) as Hco.
  destruct (carry_out addr (far_service l) (reply (far l)) f) as [[s' buf] g] eqn:Hc. destruct Hco as (_ & _ & Hg).
  destruct (encode_fits f.1 p (m_wire m) ltac:(apply Hreq)) as [w He]; [lia|].
  unfold exchange. change (mkHeader (m_address m) ch k 0 (wrap16 (m_seq m + 1))) with f.1. rewrite He.
  rewrite (encode_wire _ _ _ _ _ He). change (f.1, p) with f.
  set (a0 := abstract_of (far l) (far_service l)).
  assert (a_step addr a0 f = mkAbstract s' buf (Some (request_id f.1 f.2)) (frame_wire g)) as Ha1.
  { unfold a_step, a0. cbn [a_last abstract_of a_service a_reply]. rewrite bool_decide_eq_false_2 by done. by rewrite Hc. }
  assert (address g.1 = addr /\ channel g.1 = ch /\ seq_no g.1 = wrap16 (m_seq m + 1) /\ (kind g.1 &&& REPLY <> 0)%Z)
    as (H1 & H2 & H3 & H4).
  { unfold carry_out in Hc. destruct (service_handle _ _ _ _ _) as [[? ?] [n|code]]; simplify_eq; cbn; split_and!; try done.
    rewrite Z.land_lor_distr_l. intros [_ ?]%Z.lor_eq_0_iff. done. }
  cbn [m_address m_decoder m_seq m_wire timeout_ms tries m_stats].
  match goal with |- context [try_loop fuel (tries m) 0 ?w ch k ?sq ?x l reply0] => set (m1 := x) end.
  assert (a_answer (a_step addr a0 f) = frame_wire g) as Hans by (by rewrite Ha1).
  assert (far_holds addr a0 l) as Hl by (by split_and!).
  destruct (tries_reach addr ch k (wrap16 (m_seq m + 1)) p a0 Hreq fuel Hfuel g Hg Hans H1 H2 H3 H4 pre (tries m) 0 m1 l
    reply0 post Hd eq_refl Ht (or_introl Hl) Hp Hpre Hlen) as (m' & l' & Hr & Hs).
  exists m', l'. split; [exact Hr|]. change (far_service l' = a_service (a_step addr a0 f)) in Hs. by rewrite Hs, Ha1.
Qed.
End pair.

(** Witness: the first request is lost, the second's answer is lost, the third try gets through; the counting service
    has carried out one request. *)
Definition sample_wire : Wire (Sv := nat) := mkWire slave_new 0 [] [(false, true); (true, false); (true, true)] 7.
Definition sample_master : Master := (master_new sample_wire).2.

Lemma sample_request_for : request_for 0 (mkHeader 0 2 11 0 8, [1; 2]%Z).
Proof.
  split; [|done]. split; [by split_and!|]. split; [cbn [snd]; rewrite !Forall_cons; by split_and!|cbn; unfold MAX_PAYLOAD; lia].
Qed.

Lemma exchange_reliable_witness :
  exists m' l', exchange (MAX_WIRE + 2) sample_master sample_wire 2 11 [1; 2]%Z [9]%Z =
    (m', l', Some (outcome 11 (mkHeader 0 2 (11 ||| REPLY) 0 8, []) [9]%Z)) /\ far_service l' = 1.
Proof.
  exact (exchange_reliable sample_master sample_wire 2 11 [1; 2]%Z [9]%Z [(false, true); (true, false)] [] (MAX_WIRE + 2)
    decoder_new_clean (length_replicate _ _) ltac:(done) slave_new_ok eq_refl eq_refl sample_request_for
    ltac:(done) eq_refl ltac:(rewrite !Forall_cons; by split_and!) ltac:(cbn; lia) ltac:(lia)).
Defined.
