(* ===== verification/Sha256.v ===== *)
(** * SHA-256 ([libmind/src/sha256.rs])

    The hash in progress ([new], [update], [finish]), the compression function, and a reference that pads the whole
    message and folds the compression over its blocks. The theorem: updates with the data in any pieces give the
    reference digest of the data. *)
From S2P Require Import Prelude.
Local Open Scope nat_scope.

Definition DIGEST : nat := 32.
Definition BLOCK : nat := 64.

(** The round constants, eight to a row. *)
Definition K : list Z := concat [
  [0x428a2f98; 0x71374491; 0xb5c0fbcf; 0xe9b5dba5; 0x3956c25b; 0x59f111f1; 0x923f82a4; 0xab1c5ed5];
  [0xd807aa98; 0x12835b01; 0x243185be; 0x550c7dc3; 0x72be5d74; 0x80deb1fe; 0x9bdc06a7; 0xc19bf174];
  [0xe49b69c1; 0xefbe4786; 0x0fc19dc6; 0x240ca1cc; 0x2de92c6f; 0x4a7484aa; 0x5cb0a9dc; 0x76f988da];
  [0x983e5152; 0xa831c66d; 0xb00327c8; 0xbf597fc7; 0xc6e00bf3; 0xd5a79147; 0x06ca6351; 0x14292967];
  [0x27b70a85; 0x2e1b2138; 0x4d2c6dfc; 0x53380d13; 0x650a7354; 0x766a0abb; 0x81c2c92e; 0x92722c85];
  [0xa2bfe8a1; 0xa81a664b; 0xc24b8b70; 0xc76c51a3; 0xd192e819; 0xd6990624; 0xf40e3585; 0x106aa070];
  [0x19a4c116; 0x1e376c08; 0x2748774c; 0x34b0bcb5; 0x391c0cb3; 0x4ed8aa4a; 0x5b9cca4f; 0x682e6ff3];
  [0x748f82ee; 0x78a5636f; 0x84c87814; 0x8cc70208; 0x90befffa; 0xa4506ceb; 0xbef9a3f7; 0xc67178f2]]%Z.
Definition H0 : list Z :=
  [0x6a09e667; 0xbb67ae85; 0x3c6ef372; 0xa54ff53a; 0x510e527f; 0x9b05688c; 0x1f83d9ab; 0x5be0cd19]%Z.

(** Words of [u32]: [rotate_right], [!], [wrapping_add], big-endian bytes. *)
Definition ror (x : Z) (n : Z) : Z := Z.shiftr x n ||| wrap32 (Z.shiftl x (32 - n)).
Definition not32 (x : Z) : Z := x ^^^ 0xFFFFFFFF.
Definition add32 (x y : Z) : Z := wrap32 (x + y).
Definition of_be (bs : bytes) : Z := of_le (rev bs).
Definition to_be (n : nat) (z : Z) : bytes := rev (to_le n z).

(** The message schedule of [compress]: sixteen words of the block, then [n] more. *)
Fixpoint schedule (n : nat) (w : list Z) : list Z :=
  match n with
  | O => w
  | S n =>
      let i := length w in
      let at_ k := nth (i - k) w 0%Z in
      let s0 := ror (at_ 15) 7 ^^^ ror (at_ 15) 18 ^^^ Z.shiftr (at_ 15) 3 in
      let s1 := ror (at_ 2) 17 ^^^ ror (at_ 2) 19 ^^^ Z.shiftr (at_ 2) 10 in
      schedule n (w ++ [add32 (add32 (add32 (at_ 16) s0) (at_ 7)) s1])
  end.

Definition words_of (block : bytes) : list Z := map (fun i => of_be (slice block (i * 4) 4)) (seq 0 16).

(** One round of [compress]. *)
Definition round (v : Z * Z * Z * Z * Z * Z * Z * Z) (kw : Z * Z) : Z * Z * Z * Z * Z * Z * Z * Z :=
  let '(a, b, c, d, e, f, g, h) := v in
  let s1 := ror e 6 ^^^ ror e 11 ^^^ ror e 25 in
  let ch := (e &&& f) ^^^ (not32 e &&& g) in
  let t1 := add32 (add32 (add32 (add32 h s1) ch) kw.1) kw.2 in
  let s0 := ror a 2 ^^^ ror a 13 ^^^ ror a 22 in
  let maj := (a &&& b) ^^^ (a &&& c) ^^^ (b &&& c) in
  let t2 := add32 s0 maj in
  (add32 t1 t2, a, b, c, add32 d t1, e, f, g).

(** [compress]. *)
Definition compress (state : list Z) (block : bytes) : list Z :=
  match state with
  | [a; b; c; d; e; f; g; h] =>
      let w := schedule 48 (words_of block) in
      let '(a', b', c', d', e', f', g', h') := foldl round (a, b, c, d, e, f, g, h) (zip K w) in
      zip_with add32 state [a'; b'; c'; d'; e'; f'; g'; h']
  | _ => state
  end.

(** [struct Sha256]. *)
Record Sha256 : Type := mkSha { state : list Z; block : bytes; filled : nat; len : Z }.

Definition new : Sha256 := mkSha H0 (replicate BLOCK 0%Z) 0 0.

(** The loop of [update] over whole blocks; [fuel] bounds its turns, and [length data] is enough. *)
Fixpoint whole_blocks (fuel : nat) (st : list Z) (data : bytes) : list Z * bytes :=
  match fuel with
  | O => (st, data)
  | S fuel => if BLOCK <=? length data then whole_blocks fuel (compress st (take BLOCK data)) (drop BLOCK data) else (st, data)
  end.

(** [self.block[at..at + src.len()].copy_from_slice(src)]. *)
Definition overwrite (block : bytes) (at_ : nat) (src : bytes) : bytes :=
  take at_ block ++ src ++ drop (at_ + length src) block.

(** [Sha256::update]. *)
Definition update (h : Sha256) (data : bytes) : Sha256 :=
  let length' := wrap64 (len h + Z.of_nat (length data)) in
  let rest st block data :=
    let '(st, data) := whole_blocks (length data) st data in
    mkSha st (overwrite block 0 data) (length data) length' in
  if 0 <? filled h then
    let n := Nat.min (length data) (BLOCK - filled h) in
    let block' := overwrite (block h) (filled h) (take n data) in
    let filled' := filled h + n in
    if filled' <? BLOCK then mkSha (state h) block' filled' length'
    else rest (compress (state h) block') block' (drop n data)
  else rest (state h) (block h) data.

(** The padding of [finish]. *)
Definition padding (filled : nat) (bits : Z) : bytes :=
  let zeros := (BLOCK + 56 - 1 - filled) mod BLOCK in
  [0x80%Z] ++ replicate zeros 0%Z ++ to_be 8 bits.

(** [Sha256::finish]. *)
Definition finish (h : Sha256) : bytes :=
  let bits := wrap64 (len h * 8) in
  concat (map (to_be 4) (state (update h (padding (filled h) bits)))).

(** [digest]. *)
Definition digest (data : bytes) : bytes := finish (update new data).

(** ** The reference: the padded message, block by block *)
Definition padded (msg : bytes) : bytes :=
  msg ++ padding (length msg mod BLOCK) (wrap64 (Z.of_nat (length msg) * 8)).
Definition absorb (st : list Z) (data : bytes) : list Z * bytes := whole_blocks (length data) st data.
Definition reference (msg : bytes) : bytes := concat (map (to_be 4) (absorb H0 (padded msg)).1).

(** What a hash in progress holds of the message so far. *)
Definition holds (h : Sha256) (msg : bytes) : Prop :=
  absorb H0 msg = (state h, take (filled h) (block h)) /\ filled h < BLOCK /\ length (block h) = BLOCK /\
  len h = wrap64 (Z.of_nat (length msg)).

(** ** Lemmas *)
Lemma whole_enough fuel st data : length data <= fuel -> whole_blocks fuel st data = absorb st data.
Proof.
  unfold absorb. revert st data. induction fuel as [fuel IH] using lt_wf_ind. intros st data Hl.
  destruct fuel as [|fuel]; [by destruct data; [|simpl in Hl; lia]|]. cbn [whole_blocks].
  destruct (length data) as [|n] eqn:Hn; [done|]. cbn [whole_blocks]. rewrite Hn.
  destruct (Nat.leb_spec BLOCK (S n)) as [Hb|Hb]; [|done]. unfold BLOCK in *.
  assert (length (drop 64 data) <= n) as Hd by (rewrite length_drop; lia).
  rewrite (IH fuel) by lia. destruct (decide (n < S fuel)) as [Hlt|]; [|lia]. by rewrite (IH n) by lia.
Qed.

Lemma absorb_short st data : length data < BLOCK -> absorb st data = (st, data).
Proof.
  intros Hl. unfold absorb. destruct (length data) as [|n] eqn:Hn; [done|]. cbn [whole_blocks]. rewrite Hn.
  by rewrite (proj2 (Nat.leb_gt _ _)) by lia.
Qed.

Lemma absorb_block st a b : length a = BLOCK -> absorb st (a ++ b) = absorb (compress st a) b.
Proof.
  intros Ha. rewrite <- (whole_enough (S (length (a ++ b)))) by lia. cbn [whole_blocks].
  rewrite (proj2 (Nat.leb_le _ _)) by (rewrite length_app; lia). rewrite <- Ha, take_app_length, drop_app_length.
  apply whole_enough. rewrite length_app. lia.
Qed.

Lemma absorb_rest st data st' rest : absorb st data = (st', rest) ->
  length rest < BLOCK /\ exists k, length data = k * BLOCK + length rest.
Proof.
  revert st. induction data as [data IH] using (induction_ltof1 _ (@length Z)); unfold ltof in IH. intros st.
  destruct (decide (length data < BLOCK)) as [Hl|Hl].
  - rewrite absorb_short by done. intros [= <- <-]. split; [done|]. by exists 0.
  - rewrite <- (take_drop BLOCK data) at 1. rewrite absorb_block by (rewrite length_take; lia). intros He.
    apply IH in He as (Hr & k & Hk); [|rewrite length_drop; unfold BLOCK in *; lia]. split; [done|].
    exists (S k). rewrite length_drop in Hk. lia.
Qed.

Lemma absorb_app st x y : absorb st (x ++ y) = let '(st', r) := absorb st x in absorb st' (r ++ y).
Proof.
  revert st. induction x as [x IH] using (induction_ltof1 _ (@length Z)); unfold ltof in IH. intros st.
  destruct (decide (length x < BLOCK)) as [Hl|Hl].
  - by rewrite (absorb_short st x).
  - specialize (IH (drop BLOCK x) ltac:(rewrite length_drop; unfold BLOCK in *; lia)).
    assert (length (take BLOCK x) = BLOCK) as Ht by (rewrite length_take; lia).
    rewrite <- (take_drop BLOCK x). revert IH Ht. generalize (take BLOCK x) (drop BLOCK x). intros a b IH Ht.
    rewrite <- app_assoc, !(absorb_block st a) by done. apply IH.
Qed.

(** ** The hash in progress follows the reference *)
Lemma length_overwrite block at_ src : at_ + length src <= length block -> length (overwrite block at_ src) = length block.
Proof. intros H. unfold overwrite. rewrite !length_app, length_take, length_drop. lia. Qed.

Lemma take_overwrite block at_ src :
  at_ <= length block -> take (at_ + length src) (overwrite block at_ src) = take at_ block ++ src.
Proof.
  intros H. unfold overwrite. rewrite app_assoc.
  replace (at_ + length src) with (length (take at_ block ++ src)) at 1 by (rewrite length_app, length_take; lia).
  apply take_app_length.
Qed.

Lemma wrap64_add a b : wrap64 (wrap64 a + b) = wrap64 (a + b).
Proof. unfold wrap64, W64. by rewrite Z.add_mod_idemp_l. Qed.

Lemma new_holds : holds new [].
Proof. split; [done|]. split; [unfold BLOCK; cbn; lia|]. split; [apply length_replicate|done]. Qed.

(** The end of [update]: whole blocks compressed from a state that absorbed [pre], the remainder kept. *)
Lemma rest_holds pre st blk data (n : Z) :
  absorb H0 pre = (st, []) -> length blk = BLOCK -> n = wrap64 (Z.of_nat (length (pre ++ data))) ->
  holds (let '(st, data) := whole_blocks (length data) st data in mkSha st (overwrite blk 0 data) (length data) n)
        (pre ++ data).
Proof.
  intros Hp Hb ->. change (whole_blocks (length data) st data) with (absorb st data).
  destruct (absorb st data) as [st' r] eqn:Ha. destruct (absorb_rest _ _ _ _ Ha) as [Hr _].
  split; [|split; [done|split; [|done]]]; cbn [state filled block].
  - rewrite absorb_app, Hp. cbn [app]. rewrite Ha. f_equal. symmetry. apply (take_overwrite blk 0 r). lia.
  - rewrite length_overwrite; [done|lia].
Qed.

Lemma update_holds h msg data : holds h msg -> holds (update h data) (msg ++ data).
Proof.
  intros (Ha & Hf & Hb & Hl). unfold update. rewrite Hl, wrap64_add.
  replace (Z.of_nat (length msg) + Z.of_nat (length data))%Z with (Z.of_nat (length (msg ++ data)))
    by (rewrite length_app; lia).
  destruct (Nat.ltb_spec 0 (filled h)) as [Hpos|Hz].
  - set (n := Nat.min (length data) (BLOCK - filled h)).
    assert (length (take n data) = n) as Hn by (rewrite length_take; lia).
    assert (take (filled h + n) (overwrite (block h) (filled h) (take n data)) = take (filled h) (block h) ++ take n data) as Ht.
    { rewrite <- Hn at 1. apply take_overwrite. lia. }
    assert (length (overwrite (block h) (filled h) (take n data)) = BLOCK) as Hlo.
    { rewrite length_overwrite; [done|]. rewrite Hn, Hb. lia. }
    assert (length (take (filled h) (block h)) = filled h) as Hlt by (rewrite length_take; lia).
    destruct (Nat.ltb_spec (filled h + n) BLOCK) as [Hshort|Hfull].
    + assert (take n data = data) as Hall by (apply take_ge; lia). rewrite Hall in *.
      split; [|split; [done|split; [done|done]]]. cbn [state filled block]. rewrite Ht, absorb_app, Ha.
      apply absorb_short. rewrite length_app. lia.
    + assert (overwrite (block h) (filled h) (take n data) = take (filled h) (block h) ++ take n data) as Hblk.
      { rewrite <- Ht. symmetry. apply take_ge. lia. }
      pose proof (rest_holds (msg ++ take n data) (compress (state h) (overwrite (block h) (filled h) (take n data)))
        (overwrite (block h) (filled h) (take n data)) (drop n data) _
        ltac:(rewrite absorb_app, Ha, Hblk; rewrite <- (app_nil_r (take (filled h) (block h) ++ take n data)) at 1;
              rewrite absorb_block by (rewrite length_app; lia); done) Hlo eq_refl) as H.
      by rewrite <- app_assoc, take_drop in H.
  - assert (filled h = 0) as Hf0 by lia. rewrite Hf0 in Ha. exact (rest_holds msg (state h) (block h) data _ Ha Hb eq_refl).
Qed.

Lemma finish_holds h msg : holds h msg -> finish h = reference msg.
Proof.
  intros Hh. pose proof Hh as (Ha & Hf & Hb & Hl). unfold finish, reference.
  destruct (absorb_rest _ _ _ _ Ha) as (_ & k & Hk). rewrite length_take in Hk.
  assert (length msg mod BLOCK = filled h) as Hmod.
  { rewrite Hk, Nat.add_comm, Nat.Div0.mod_add, Nat.mod_small; lia. }
  assert (wrap64 (len h * 8) = wrap64 (Z.of_nat (length msg) * 8)) as Hbits.
  { rewrite Hl. unfold wrap64, W64. by rewrite Z.mul_mod_idemp_l. }
  unfold padded. rewrite Hmod, <- Hbits.
  destruct (update_holds h msg (padding (filled h) (wrap64 (len h * 8))) Hh) as (-> & _). done.
Qed.

(** ** The state keeps its eight words, so a digest has 32 bytes *)
Lemma compress_length st b : length (compress st b) = length st.
Proof.
  unfold compress. do 8 (destruct st as [|? st]; [done|]). destruct st; [|done].
  destruct (foldl round _ _) as [[[[[[[a1 b1] c1] d1] e1] f1] g1] h1]. done.
Qed.

Lemma absorb_length st data : length (absorb st data).1 = length st.
Proof.
  unfold absorb. generalize (length data) as fuel. intros fuel. revert st data.
  induction fuel as [|fuel IH]; intros st data; cbn [whole_blocks]; [done|]. case_match; [|done].
  by rewrite IH, compress_length.
Qed.

Lemma update_length h data : length (state (update h data)) = length (state h).
Proof.
  unfold update. assert (forall st b x n, length (state (let '(st, data) := whole_blocks (length x) st x in
    mkSha st (overwrite b 0 data) (length data) n)) = length st) as H.
  { intros st b x n. pose proof (absorb_length st x) as Ha. unfold absorb in Ha. by destruct (whole_blocks (length x) st x). }
  cbv zeta. destruct (0 <? filled h); [|apply H]. destruct (_ <? BLOCK); [done|].
  etransitivity; [apply H|apply compress_length].
Qed.

Lemma finish_length h : length (state h) = 8 -> length (finish h) = 32.
Proof.
  intros H. unfold finish. rewrite <- (update_length h (padding (filled h) (wrap64 (len h * 8)))) in H.
  revert H. generalize (state (update h (padding (filled h) (wrap64 (len h * 8))))) as st. intros st H.
  do 8 (destruct st as [|? st]; [done|]). by destruct st.
Qed.

(** ** Properties *)

(** C20: SHA-256 of data given in any pieces is the reference digest of the data: the padded message compressed
    block by block. *)
Theorem sha_pieces pieces : finish (foldl update new pieces) = reference (concat pieces).
Proof.
  apply finish_holds. assert (forall ps h msg, holds h msg -> holds (foldl update h ps) (msg ++ concat ps)) as H.
  { induction ps as [|p ps IH]; intros h msg Hh; cbn [foldl concat]; [by rewrite app_nil_r|].
    rewrite app_assoc. by apply IH, update_holds. }
  exact (H pieces new [] new_holds).
Qed.

(** The FIPS 180-4 example: the digest of [abc]. *)
Example digest_abc : digest [97; 98; 99]%Z =
  to_be 32 0xba7816bf8f01cfea414140de5dae2223b00361a396177a9cb410ff61f20015ad.
Proof. vm_compute. reflexivity. Qed.
