(* ===== verification/Text.v ===== *)
(** * Text as the source's [str] sees it: UTF-8, character classes, splitting

    What the components use of Rust's strings, over byte lists: [from_utf8] and [chars], [is_control], [trim] and
    [split] on an ASCII character. *)
From S2P Require Import Prelude.
Local Open Scope nat_scope.

Definition between (lo hi x : Z) : bool := ((lo <=? x) && (x <=? hi))%Z.

(** [core::str::from_utf8(bs)] and the [chars] of the text: its code points, or [None] when it is not UTF-8. *)
Fixpoint utf8 (bs : bytes) : option (list Z) :=
  match bs with
  | [] => Some []
  | a :: r1 =>
      if between 0 0x7F a then cons a <$> utf8 r1
      else match r1 with
      | [] => None
      | b :: r2 =>
          if between 0xC2 0xDF a && between 0x80 0xBF b then cons ((a - 0xC0) * 64 + (b - 0x80))%Z <$> utf8 r2
          else match r2 with
          | [] => None
          | c :: r3 =>
              if between 0xE0 0xEF a && between (if (a =? 0xE0)%Z then 0xA0 else 0x80) (if (a =? 0xED)%Z then 0x9F else 0xBF) b
                 && between 0x80 0xBF c
              then cons (((a - 0xE0) * 64 + (b - 0x80)) * 64 + (c - 0x80))%Z <$> utf8 r3
              else match r3 with
              | [] => None
              | d :: r4 =>
                  if between 0xF0 0xF4 a && between (if (a =? 0xF0)%Z then 0x90 else 0x80) (if (a =? 0xF4)%Z then 0x8F else 0xBF) b
                     && between 0x80 0xBF c && between 0x80 0xBF d
                  then cons ((((a - 0xF0) * 64 + (b - 0x80)) * 64 + (c - 0x80)) * 64 + (d - 0x80))%Z <$> utf8 r4
                  else None
              end
          end
      end
  end.

(** [char::encode_utf8], [char::from_u32] and the scalar values, which a [char] holds. *)
Definition encode_utf8 (c : Z) : bytes :=
  (if c <? 0x80 then [c] else if c <? 0x800 then [0xC0 + c / 64; 0x80 + c mod 64]
   else if c <? 0x10000 then [0xE0 + c / 4096; 0x80 + c / 64 mod 64; 0x80 + c mod 64]
   else [0xF0 + c / 262144; 0x80 + c / 4096 mod 64; 0x80 + c / 64 mod 64; 0x80 + c mod 64])%Z.
Definition from_u32 (c : Z) : option Z := if between 0 0x10FFFF c && negb (between 0xD800 0xDFFF c) then Some c else None.
Definition scalar_value (c : Z) : Prop := from_u32 c = Some c.

(** [char::is_control] (general category Cc) and [char::is_whitespace]. *)
Definition is_control (c : Z) : bool := between 0 0x1F c || between 0x7F 0x9F c.
Definition is_whitespace (c : Z) : bool :=
  between 9 13 c || (c =? 32)%Z || (c =? 0x85)%Z || (c =? 0xA0)%Z || (c =? 0x1680)%Z || between 0x2000 0x200A c ||
  (c =? 0x2028)%Z || (c =? 0x2029)%Z || (c =? 0x202F)%Z || (c =? 0x205F)%Z || (c =? 0x3000)%Z.

(** [s.trim().is_empty()], over the characters. *)
Definition blank (cs : list Z) : bool := forallb is_whitespace cs.

(** [s.split(c)] for an ASCII character: at least one part. *)
Fixpoint split_on (c : Z) (s : bytes) : list bytes :=
  match s with
  | [] => [[]]
  | b :: s =>
      if (b =? c)%Z then [] :: split_on c s
      else match split_on c s with
           | [] => [[b]]
           | part :: parts => (b :: part) :: parts
           end
  end.

(** Parts joined by the character: the inverse of [split_on]. *)
Fixpoint join_with (c : Z) (parts : list bytes) : bytes :=
  match parts with
  | [] => []
  | [p] => p
  | p :: parts => p ++ c :: join_with c parts
  end.

Lemma split_on_nonempty c s : split_on c s <> [].
Proof. destruct s as [|b s]; simpl; [done|]. case_match; [done|]. by destruct (split_on c s). Qed.

Lemma join_split c s : join_with c (split_on c s) = s.
Proof.
  induction s as [|b s IH]; [done|]. cbn [split_on]. pose proof (split_on_nonempty c s) as Hne.
  destruct (Z.eqb_spec b c) as [->|].
  - destruct (split_on c s) eqn:E; [done|]. cbn [join_with app] in *. by rewrite IH.
  - destruct (split_on c s) as [|p ps] eqn:E; [done|]. destruct ps; cbn [join_with app] in *; by rewrite IH.
Qed.

Lemma split_on_parts c s : Forall (fun p => c ∉ p) (split_on c s).
Proof.
  assert (c ∉ ([] : bytes)) as Hnil by apply not_elem_of_nil.
  induction s as [|b s IH]; cbn [split_on]; [by constructor|].
  destruct (Z.eqb_spec b c) as [->|Hne]; [by constructor|].
  destruct (split_on c s) as [|p ps]; [constructor; [|done]; rewrite elem_of_cons; intros [?|?]; [by subst|done]|].
  apply Forall_cons in IH as [Hp Hps]. constructor; [|done]. rewrite elem_of_cons. intros [?|?]; [by subst|done].
Qed.

Lemma split_join c parts : parts <> [] -> Forall (fun p => c ∉ p) parts -> split_on c (join_with c parts) = parts.
Proof.
  assert (forall p rest, c ∉ p -> split_on c (p ++ c :: rest) = p :: split_on c rest) as Hcons.
  { induction p as [|b p IH]; intros rest Hp; cbn [app split_on]; [by rewrite Z.eqb_refl|].
    rewrite elem_of_cons in Hp. destruct (Z.eqb_spec b c); [subst; tauto|]. by rewrite IH by tauto. }
  assert (forall p, c ∉ p -> split_on c p = [p]) as Hone.
  { induction p as [|b p IH]; intros Hp; cbn [split_on]; [done|]. rewrite elem_of_cons in Hp.
    destruct (Z.eqb_spec b c); [subst; tauto|]. by rewrite IH by tauto. }
  induction parts as [|p parts IH]; intros Hne Hall; [done|]. apply Forall_cons in Hall as [Hp Hall].
  destruct parts as [|q parts]; [by apply Hone|]. change (join_with c (p :: q :: parts)) with (p ++ c :: join_with c (q :: parts)).
  rewrite Hcons by done. by rewrite IH.
Qed.

(** ** ASCII letters and numbers *)
Local Open Scope Z_scope.

(** [u8::is_ascii_digit], [to_ascii_lowercase], [eq_ignore_ascii_case]. *)
Definition is_digit (b : Z) : bool := between 48 57 b.
Definition lower (b : Z) : Z := if between 65 90 b then b + 32 else b.
Definition same_ascii (a b : bytes) : bool := bool_decide (map lower a = map lower b).

Definition starts_with (p s : bytes) : bool := bool_decide (take (length p) s = p).

(** [s.parse()] of an unsigned integer below [bound]: decimal digits, a [+] before them allowed. *)
Fixpoint parse_digits (bound acc : Z) (s : bytes) : option Z :=
  match s with
  | [] => Some acc
  | b :: s => if is_digit b && (acc * 10 + (b - 48) <? bound) then parse_digits bound (acc * 10 + (b - 48)) s else None
  end.
Definition parse_uint (bound : Z) (s : bytes) : option Z :=
  match s with
  | [] => None
  | [b] => if is_digit b then parse_digits bound 0 [b] else None
  | b :: r => if b =? 43 then parse_digits bound 0 r else parse_digits bound 0 s
  end.

(** [{}] of an unsigned integer of at most [n] digits. *)
Fixpoint decimal (n : nat) (v : Z) : bytes :=
  match n with
  | O => []
  | S n => (if v / 10 =? 0 then [] else decimal n (v / 10)) ++ [48 + v mod 10]
  end.

(** [split_ascii_whitespace]: the words of a line. *)
Definition is_ascii_space (b : Z) : bool := (b =? 32) || between 9 10 b || between 12 13 b.
Fixpoint words_from (cur : bytes) (s : bytes) : list bytes :=
  match s with
  | [] => if decide (cur = []) then [] else [cur]
  | b :: s => if is_ascii_space b then (if decide (cur = []) then words_from [] s else cur :: words_from [] s) else words_from (cur ++ [b]) s
  end.
Definition words (s : bytes) : list bytes := words_from [] s.

Lemma parse_digits_app bound acc a b : parse_digits bound acc (a ++ b) = v ← parse_digits bound acc a; parse_digits bound v b.
Proof. revert acc. induction a as [|x a IH]; intros acc; [done|]. cbn [app parse_digits]. by case_match. Qed.

Lemma decimal_digits n v : 0 <= v -> Forall (fun b => is_digit b = true) (decimal n v).
Proof.
  revert v. induction n as [|n IH]; intros v Hv; [constructor|]. cbn [decimal]. apply Forall_app. split.
  - case_match; [constructor|]. apply IH. apply Z.div_pos; lia.
  - constructor; [|done]. pose proof (Z.mod_pos_bound v 10). unfold is_digit, between. lia.
Qed.

Lemma decimal_nonempty n v : (0 < n)%nat -> decimal n v <> [].
Proof. destruct n; [lia|]. intros _. cbn. case_match; [done|]. by destruct (decimal n (v / 10)). Qed.

Lemma decimal_length n v : (length (decimal n v) <= n)%nat.
Proof.
  revert v. induction n as [|n IH]; intros v; [cbn; lia|]. cbn [decimal]. rewrite length_app. specialize (IH (v / 10)). case_match; cbn in *; lia.
Qed.

Lemma parse_decimal_digits bound n v : 0 <= v < bound -> v < 10 ^ Z.of_nat n -> parse_digits bound 0 (decimal n v) = Some v.
Proof.
  revert v. induction n as [|n IH]; intros v Hv Hn; [cbn in Hn; cbn; f_equal; lia|].
  cbn [decimal]. pose proof (Z.mod_pos_bound v 10 ltac:(lia)). pose proof (Z.div_mod v 10 ltac:(lia)).
  assert (forall acc, acc * 10 + v mod 10 = v -> parse_digits bound acc [48 + v mod 10] = Some v) as Hlast.
  { intros acc Ha. cbn [parse_digits]. replace (acc * 10 + (48 + v mod 10 - 48)) with v by lia.
    unfold is_digit, between. rewrite !(proj2 (Z.leb_le _ _)), (proj2 (Z.ltb_lt _ _)) by lia. done. }
  destruct (Z.eqb_spec (v / 10) 0) as [Hz|Hz]; [apply Hlast; lia|].
  rewrite parse_digits_app, IH; [apply Hlast; lia|lia|].
  rewrite Nat2Z.inj_succ, Z.pow_succ_r in Hn by lia. apply Z.div_lt_upper_bound; lia.
Qed.

Lemma parse_decimal bound n v : (0 < n)%nat -> 0 <= v < bound -> v < 10 ^ Z.of_nat n -> parse_uint bound (decimal n v) = Some v.
Proof.
  intros Hn0 Hv Hn. pose proof (parse_decimal_digits bound n v Hv Hn) as H. pose proof (decimal_digits n v ltac:(lia)) as Hd.
  pose proof (decimal_nonempty n v Hn0) as Hne. destruct (decimal n v) as [|b r] eqn:E; [done|]. apply Forall_cons in Hd as [Hb _]. cbn [parse_uint].
  destruct r; [by rewrite Hb|]. destruct (Z.eqb_spec b 43) as [->|]; [done|exact H].
Qed.

(** Words and the spaces between them. *)
Lemma words_from_word cur w r : Forall (fun b => is_ascii_space b = false) w -> words_from cur (w ++ r) = words_from (cur ++ w) r.
Proof.
  revert cur. induction w as [|b w IH]; intros cur Hw; [by rewrite app_nil_r|]. apply Forall_cons in Hw as [Hb Hw].
  cbn [app words_from]. rewrite Hb, IH by done. by rewrite <- app_assoc.
Qed.

Lemma words_cons w b r : w <> [] -> Forall (fun b => is_ascii_space b = false) w -> is_ascii_space b = true -> words (w ++ b :: r) = w :: words r.
Proof. intros Hne Hw Hb. unfold words. rewrite words_from_word by done. cbn [app words_from]. rewrite Hb. by rewrite decide_False. Qed.

Lemma words_spaces n r : words (replicate n 32 ++ r) = words r.
Proof. induction n as [|n IH]; [done|]. exact IH. Qed.

(** ** UTF-8: pieces, ASCII, characters *)
Local Open Scope nat_scope.
Lemma utf8_app a x b : utf8 a = Some x -> utf8 (a ++ b) = app x <$> utf8 b.
Proof.
  revert x. remember (length a) as n eqn:Hn. revert a Hn. induction n as [n IH] using lt_wf_ind. intros a -> x.
  assert (forall r v x, length r < length a -> cons v <$> utf8 r = Some x -> cons v <$> utf8 (r ++ b) = app x <$> utf8 b) as Hstep.
  { intros r v x' Hl H. destruct (utf8 r) as [y|] eqn:E; [|done]. injection H as <-. rewrite (IH _ Hl r eq_refl y E). by destruct (utf8 b). }
  destruct a as [|a0 r1]; cbn [utf8 app]; [intros [= <-]; by destruct (utf8 b)|]. destruct (between 0 127 a0); [apply Hstep; cbn; lia|].
  destruct r1 as [|a1 r2]; cbn [app]; [done|]. destruct (_ && _); [apply Hstep; cbn; lia|]. destruct r2 as [|a2 r3]; cbn [app]; [done|].
  destruct (_ && _ && _); [apply Hstep; cbn; lia|]. destruct r3 as [|a3 r4]; cbn [app]; [done|]. destruct (_ && _ && _ && _); [apply Hstep; cbn; lia|done].
Qed.
Lemma utf8_valid_app a b : is_Some (utf8 a) -> is_Some (utf8 b) -> is_Some (utf8 (a ++ b)).
Proof. intros [x Hx] [y Hy]. rewrite (utf8_app a x b Hx), Hy. by eexists. Qed.
Lemma utf8_ascii l : Forall (fun b => 0 <= b < 128)%Z l -> is_Some (utf8 l).
Proof. induction 1 as [|b l Hb _ [x Hx]]; [by eexists|]. cbn [utf8]. replace (between 0 127 b) with true by (unfold between; lia). rewrite Hx. by eexists. Qed.
(** Decides the next test of a decoder by arithmetic. *)
Ltac by_division := Z.to_euclidean_division_equations; lia.
Ltac test b := match goal with |- context [if ?c then _ else _] => replace c with b by by_division end.
Lemma utf8_encode c : scalar_value c -> utf8 (encode_utf8 c) = Some [c].
Proof.
  unfold scalar_value, from_u32. destruct (_ && _) eqn:Hc; [|done]. intros _. unfold between in Hc. unfold encode_utf8.
  destruct (Z.ltb_spec c 0x80); [|destruct (Z.ltb_spec c 0x800); [|destruct (Z.ltb_spec c 0x10000)]]; cbn [utf8]; unfold between.
  - by test true.
  - test false. test true. cbn. do 2 f_equal. by_division.
  - test false. test false.
    destruct (Z.eqb_spec (0xE0 + c / 4096) 0xE0) as [E1|E1], (Z.eqb_spec (0xE0 + c / 4096) 0xED) as [E2|E2]; try lia; (test true; cbn; do 2 f_equal; by_division).
  - test false. test false. test false.
    destruct (Z.eqb_spec (0xF0 + c / 262144) 0xF0) as [E1|E1], (Z.eqb_spec (0xF0 + c / 262144) 0xF4) as [E2|E2]; try lia; (test true; cbn; do 2 f_equal; by_division).
Qed.
