(* ===== verification/LinkApp.v ===== *)
(** * The link's file service ([linkproto/src/app.rs])

    The slave's side of the requests: names and paths it accepts, and [FileService::handle] over the trait [Files],
    a class over the state of the store. Each branch of [handle] is a definition in a small monad of state, the reply
    buffer, error codes and panics (an index out of the reply). The theorems: an accepted path stays below the slave's
    directory; in any run of requests a file is committed only when it was received whole, in order, and its SHA-256 is
    the master's; no request panics while the slave's name has at most 60 bytes. *)
From S2P Require Import Prelude Cobs Frame Endpoint Sha256 Text.
Local Open Scope nat_scope.

Definition NAME_MAX : nat := 255.
Definition COMMAND_MAX : nat := 240.
Definition UNIT_MAX : nat := 16.
Definition REPLACE_PATH_MAX : nat := 64.
Definition INPUT_MAX : nat := 64.
Definition MIN_PAYLOAD : nat := 64.
Definition DATA_HEAD : nat := 8.
Definition OUTPUT_HEAD : nat := 13.
Definition ROLE_MASTER : Z := 0.
Definition ROLE_SLAVE : Z := 1.
Definition U32_MAX : Z := 0xFFFFFFFF.

(** Channels, kinds and error codes ([endpoint::channel], [kind], [code]). *)
Definition CONTROL : Z := 0.
Definition CONSOLE_CH : Z := 1.
Definition FILES : Z := 2.
Definition LOG_CH : Z := 3.
Definition INPUT_CH : Z := 4.
Definition PROGRAMS : Z := 5.
Definition HELLO : Z := 1.
Definition POLL : Z := 2.
Definition REBOOT : Z := 3.
Definition PUT_OPEN : Z := 10.
Definition PUT_DATA : Z := 11.
Definition PUT_CLOSE : Z := 12.
Definition GET_OPEN : Z := 13.
Definition GET_DATA : Z := 14.
Definition GET_CLOSE : Z := 15.
Definition LIST : Z := 16.
Definition STAT : Z := 17.
Definition DELETE : Z := 18.
Definition MKDIR : Z := 19.
Definition CONSOLE : Z := 20.
Definition MOVE : Z := 21.
Definition RMDIR : Z := 22.
Definition LIST_DIR : Z := 23.
Definition LOG : Z := 30.
Definition INPUT : Z := 40.
Definition RUN : Z := 50.
Definition OUTPUT : Z := 51.
Definition STOP : Z := 52.
Definition RUNS : Z := 53.
Definition COMMAND : Z := 54.
Definition REPLACE : Z := 55.
Definition NOT_FOUND : Z := 1.
Definition DENIED : Z := 2.
Definition IO : Z := 3.
Definition MISMATCH : Z := 4.
Definition BAD_REQUEST : Z := 5.
Definition UNSUPPORTED : Z := 7.

(** [u64_at], [u32_at], [u16_at]. *)
Definition uint_at (n : nat) (p : bytes) (at_ : nat) : option Z := of_le <$> get_slice p at_ n.
Definition u64_at : bytes -> nat -> option Z := uint_at 8.
Definition u32_at : bytes -> nat -> option Z := uint_at 4.
Definition u16_at : bytes -> nat -> option Z := uint_at 2.

(** ** Names and paths *)

(** The closure [bad] of [plain_name]: a control character or one of [/ \ : NUL]. *)
Definition bad_char (c : Z) : bool := is_control c || (c =? 47)%Z || (c =? 92)%Z || (c =? 58)%Z || (c =? 0)%Z.

(** [plain_name]. *)
Definition plain_name (raw : bytes) : option bytes :=
  cs ← utf8 raw;
  if negb (length raw =? 0) && (length raw <=? NAME_MAX) && negb (bool_decide (raw = [46%Z])) &&
     negb (bool_decide (raw = [46; 46]%Z)) && negb (existsb bad_char cs)
  then Some raw else None.

(** [path_name]. *)
Definition path_name (raw : bytes) : option bytes :=
  _ ← utf8 raw;
  if negb (length raw =? 0) && (length raw <=? NAME_MAX) &&
     forallb (fun c => bool_decide (plain_name c <> None)) (split_on 47 raw)
  then Some raw else None.

(** What a path means to a file system that knows [.] and [..], from the directory [base] (components, innermost
    first). *)
Fixpoint walk (base : list bytes) (components : list bytes) : list bytes :=
  match components with
  | [] => base
  | c :: cs =>
      if bool_decide (c = []) || bool_decide (c = [46%Z]) then walk base cs
      else if bool_decide (c = [46; 46]%Z) then walk (tail base) cs
      else walk (c :: base) cs
  end.

Lemma plain_name_spec raw name : plain_name raw = Some name ->
  name = raw /\ raw <> [] /\ length raw <= NAME_MAX /\ raw <> [46%Z] /\ raw <> [46; 46]%Z /\
  exists cs, utf8 raw = Some cs /\ Forall (fun c => bad_char c = false) cs.
Proof.
  unfold plain_name, mbind, option_bind. destruct (utf8 raw) as [cs|]; [|done]. case_match eqn:Hc; [|done]. intros [= <-].
  rewrite !andb_true_iff, !negb_true_iff in Hc. destruct Hc as ((((H1 & H2) & H3) & H4) & H5).
  apply Nat.eqb_neq in H1. apply Nat.leb_le in H2. rewrite bool_decide_eq_false in H3, H4.
  split_and!; try done; [by destruct raw|]. exists cs. split; [done|]. apply Forall_forall. intros c Hin.
  destruct (bad_char c) eqn:Hb; [|done]. exfalso. apply not_true_iff_false in H5. apply H5. apply existsb_exists.
  exists c. split; [by apply list_elem_of_In|done].
Qed.

Lemma path_name_spec raw path : path_name raw = Some path ->
  path = raw /\ raw <> [] /\ length raw <= NAME_MAX /\ Forall (fun c => is_Some (plain_name c)) (split_on 47 raw).
Proof.
  unfold path_name, mbind, option_bind. destruct (utf8 raw) as [cs|]; [|done]. case_match eqn:Hc; [|done]. intros [= <-].
  rewrite !andb_true_iff, negb_true_iff in Hc. destruct Hc as ((H1 & H2) & H3).
  apply Nat.eqb_neq in H1. apply Nat.leb_le in H2. split_and!; try done; [by destruct raw|].
  rewrite forallb_forall in H3. apply Forall_forall. intros c Hin. apply list_elem_of_In in Hin.
  specialize (H3 c Hin). apply bool_decide_eq_true in H3. by destruct (plain_name c).
Qed.

Lemma walk_plain base cs : Forall (fun c => is_Some (plain_name c)) cs -> walk base cs = reverse cs ++ base.
Proof.
  intros H. revert base. induction H as [|c cs [n Hc] _ IH]; intros base; [done|]. cbn [walk].
  destruct (plain_name_spec c n Hc) as (_ & H1 & _ & H2 & H3 & _).
  rewrite !bool_decide_eq_false_2 by done. cbn [orb]. rewrite IH, reverse_cons, <- app_assoc. done.
Qed.

(** a path the service accepts stays below the slave's directory: walking it, with [.] and [..] meaning what
    they mean, goes down by its components and never up, and it has no backslash, colon or control character. *)
Theorem path_stays_below raw path base :
  path_name raw = Some path ->
  walk base (split_on 47 path) = reverse (split_on 47 path) ++ base /\
  Forall (fun part => part <> [] /\ exists cs, utf8 part = Some cs /\ Forall (fun c => bad_char c = false) cs) (split_on 47 path).
Proof.
  intros Hp. destruct (path_name_spec raw path Hp) as (-> & _ & _ & Hall). split; [by apply walk_plain|].
  eapply Forall_impl; [exact Hall|]. intros c [n Hc]. by destruct (plain_name_spec c n Hc) as (_ & ? & _ & _ & _ & ?).
Qed.

Lemma path_stays_below_witness :
  walk [[114%Z]] (split_on 47 [97; 47; 98]%Z) = reverse (split_on 47 [97; 47; 98]%Z) ++ [[114%Z]].
Proof. apply (path_stays_below [97; 47; 98]%Z [97; 47; 98]%Z [[114%Z]]). vm_compute. reflexivity. Defined.

(** ** The store: [trait Files] *)
Record RunOutput : Type := mkRunOutput { ro_state : Z; ro_exit : Z; ro_from : Z; ro_len : nat }.

(** Each method as a function of the store's state; a buffer the method writes is passed and given back. *)
Class Files (F : Type) : Type := {
  f_create : F -> bytes -> Z -> F * result Z unit;
  f_write_at : F -> Z -> bytes -> F * result Z unit;
  f_commit : F -> bytes -> bool -> F * result Z unit;
  f_open : F -> bytes -> F * result Z Z;
  f_read_at : F -> Z -> bytes -> F * bytes * result Z nat;
  f_list : F -> Z -> bytes -> F * bytes * result Z (nat * option Z);
  f_stat : F -> bytes -> F * result Z (Z * bytes);
  f_delete : F -> bytes -> F * result Z unit;
  f_log : F -> Z -> bytes -> F * bytes * result Z (nat * Z);
  f_console : F -> bytes -> bytes -> F * bytes * result Z nat;
  f_mkdir : F -> bytes -> F * result Z unit;
  f_rename : F -> bytes -> bytes -> bool -> F * result Z unit;
  f_rmdir : F -> bytes -> bool -> F * result Z unit;
  f_list_dir : F -> bytes -> Z -> bytes -> F * bytes * result Z (nat * option Z);
  f_run : F -> bytes -> bytes -> F * result Z (Z * Z);
  f_output : F -> Z -> Z -> bytes -> F * bytes * result Z RunOutput;
  f_stop : F -> Z -> F * result Z unit;
  f_runs : F -> Z -> bytes -> F * bytes * result Z (nat * option Z);
  f_command : F -> bytes -> F * result Z Z;
  f_replace : F -> bytes -> bytes -> F * result Z unit;
  f_reboot : F -> F * result Z unit;
  f_input : F -> list Z -> F * result Z Z;
}.

(** [struct Put]: [name[..name_len]] as a list. *)
Record Put : Type := mkPut { put_name : bytes; put_size : Z; put_done : Z; put_sha : Sha256 }.

(** [struct FileService]; [svc_name] is [name[..name_len]]. *)
Record FileService (F : Type) : Type := mkFileService {
  files : F;
  writing : option Put;
  reading : option (Z * Z * Sha256);
  limit : nat;
  svc_name : bytes;
}.
Arguments mkFileService {F} _ _ _ _ _.
Arguments files {F} _.
Arguments writing {F} _.
Arguments reading {F} _.
Arguments limit {F} _.
Arguments svc_name {F} _.

(** [FileService::new] and [set_name]. *)
Definition service_new {F} (f : F) : FileService F := mkFileService f None None MAX_PAYLOAD [].
Definition set_name {F} (s : FileService F) (name : bytes) : FileService F :=
  mkFileService (files s) (writing s) (reading s) (limit s) (take 64 name).

(** A handler's end: a value, an error code for the other end ([?] on a [Result]), or a panic. *)
Inductive Res (A : Type) : Type := Val (a : A) | Fail (code : Z) | Panic.
Arguments Val {A} _.
Arguments Fail {A} _.
Arguments Panic {A}.

(** The handlers' monad: the service and the reply buffer are threaded. *)
Definition Handler (F A : Type) : Type := FileService F -> bytes -> FileService F * bytes * Res A.
#[export] Instance handler_ret {F} : MRet (Handler F) := fun A a s r => (s, r, Val a).
#[export] Instance handler_bind {F} : MBind (Handler F) := fun A B k m s r =>
  let '(s, r, v) := m s r in
  match v with Val a => k a s r | Fail c => (s, r, Fail c) | Panic => (s, r, Panic) end.

Section handlers.
Context {F : Type} `{!Files F}.

Definition fail {A} (code : Z) : Handler F A := fun s r => (s, r, Fail code).
Definition some_or {A} (o : option A) (code : Z) : Handler F A :=
  match o with Some a => mret a | None => fail code end.
Definition with_writing (s : FileService F) w := mkFileService (files s) w (reading s) (limit s) (svc_name s).
Definition with_reading (s : FileService F) x := mkFileService (files s) (writing s) x (limit s) (svc_name s).
Definition get_service : Handler F (FileService F) := fun s r => (s, r, Val s).
Definition modify (f : FileService F -> FileService F) : Handler F unit := fun s r => (f s, r, Val tt).

(** [reply[at..at + src.len()].copy_from_slice(src)]: it panics out of range. *)
Definition reply_at (at_ : nat) (src : bytes) : Handler F unit := fun s r =>
  match put_slice r at_ src with Some r => (s, r, Val tt) | None => (s, r, Panic) end.
Definition reply_slice (at_ n : nat) : Handler F bytes := fun s r =>
  match get_slice r at_ n with Some d => (s, r, Val d) | None => (s, r, Panic) end.

(** A method of the store, and one that writes into [&mut reply[at..at + n]]. *)
Definition on_files {A} (m : F -> F * result Z A) : Handler F A := fun s r =>
  let '(f, v) := m (files s) in
  (mkFileService f (writing s) (reading s) (limit s) (svc_name s), r,
   match v with Ok a => Val a | Err c => Fail c end).
Definition on_files_buf {A} (at_ : nat) (n : option nat) (m : F -> bytes -> F * bytes * result Z A) : Handler F A := fun s r =>
  match get_slice r at_ (default (length r - at_) n) with
  | None => (s, r, Panic)
  | Some part =>
      let '(f, part, v) := m (files s) part in
      (mkFileService f (writing s) (reading s) (limit s) (svc_name s),
       default r (put_slice r at_ part),
       match v with Ok a => Val a | Err c => Fail c end)
  end.

Definition then_ret (n : nat) (m : Handler F unit) : Handler F nat := m ≫= fun _ => mret n.

(** *** The branches of [handle] *)
Definition h_hello (p : bytes) : Handler F nat :=
  theirs ← some_or (u16_at p 2) BAD_REQUEST;
  modify (fun s => mkFileService (files s) (writing s) (reading s)
                     (Nat.min (Nat.max (Z.to_nat theirs) MIN_PAYLOAD) MAX_PAYLOAD) (svc_name s)) ≫= fun _ =>
  reply_at 0 [VERSION; ROLE_SLAVE; wrap8 (Z.of_nat MAX_PAYLOAD); wrap8 (Z.shiftr (Z.of_nat MAX_PAYLOAD) 8)] ≫= fun _ =>
  s ← get_service;
  reply_at 4 (svc_name s) ≫= fun _ =>
  mret (4 + length (svc_name s)).

(** The arm of PUT_OPEN that starts a file afresh. *)
Definition start_put (name : bytes) (size : Z) : Handler F Z :=
  modify (fun s => with_writing s None) ≫= fun _ =>
  on_files (fun f => f_create f name size) ≫= fun _ =>
  modify (fun s => with_writing s (Some (mkPut name size 0 new))) ≫= fun _ => mret 0%Z.

Definition h_put_open (p : bytes) : Handler F nat :=
  size ← some_or (u64_at p 0) BAD_REQUEST;
  name ← some_or (path_name (drop 8 p)) DENIED;
  s ← get_service;
  resume ←
    (match writing s with
     | Some w => if (put_size w =? size)%Z && bool_decide (put_name w = name) then mret (put_done w) else start_put name size
     | None => start_put name size
     end);
  then_ret 8 (reply_at 0 (to_le 8 resume)).

Definition h_put_data (p : bytes) : Handler F nat :=
  offset ← some_or (u64_at p 0) BAD_REQUEST;
  let data := drop DATA_HEAD p in
  s ← get_service;
  w ← some_or (writing s) BAD_REQUEST;
  if negb (offset =? put_done w)%Z || (put_size w <? offset + Z.of_nat (length data))%Z then fail BAD_REQUEST
  else
    on_files (fun f => f_write_at f offset data) ≫= fun _ =>
    modify (fun s => with_writing s (Some (mkPut (put_name w) (put_size w) (put_done w + Z.of_nat (length data))
                                                 (update (put_sha w) data)))) ≫= fun _ =>
    mret 0.

Definition h_put_close (p : bytes) : Handler F nat :=
  if negb (length p =? 32) then fail BAD_REQUEST
  else
    s ← get_service;
    modify (fun s => with_writing s None) ≫= fun _ =>
    w ← some_or (writing s) BAD_REQUEST;
    let matches := (put_done w =? put_size w)%Z && bool_decide (finish (put_sha w) = p) in
    on_files (fun f => f_commit f p matches) ≫= fun _ =>
    if matches then mret 0 else fail MISMATCH.

Definition h_get_open (p : bytes) : Handler F nat :=
  name ← some_or (path_name p) DENIED;
  size ← on_files (fun f => f_open f name);
  modify (fun s => with_reading s (Some (size, 0%Z, new))) ≫= fun _ =>
  then_ret 8 (reply_at 0 (to_le 8 size)).

Definition h_get_data (p : bytes) : Handler F nat :=
  offset ← some_or (u64_at p 0) BAD_REQUEST;
  want ← some_or (u16_at p 8) BAD_REQUEST;
  s ← get_service;
  '(size, got, sha) ← some_or (reading s) BAD_REQUEST;
  if negb (offset =? got)%Z || (size <=? offset)%Z then fail BAD_REQUEST
  else fun s r =>
    let want := Nat.min (Nat.min (Z.to_nat want) (length r)) (Z.to_nat (size - offset)) in
    (n ← on_files_buf 0 (Some want) (fun f out => f_read_at f offset out);
     data ← reply_slice 0 n;
     modify (fun s => with_reading s (Some (size, (got + Z.of_nat n)%Z, update sha data))) ≫= fun _ =>
     mret n) s r.

Definition h_get_close : Handler F nat :=
  s ← get_service;
  modify (fun s => with_reading s None) ≫= fun _ =>
  '(_, _, sha) ← some_or (reading s) BAD_REQUEST;
  then_ret 32 (reply_at 0 (finish sha)).

Definition h_stat (p : bytes) : Handler F nat :=
  name ← some_or (path_name p) DENIED;
  '(size, digest) ← on_files (fun f => f_stat f name);
  reply_at 0 (to_le 8 size) ≫= fun _ => then_ret 40 (reply_at 8 digest).

Definition h_move (p : bytes) : Handler F nat :=
  flags ← some_or (p !! 0) BAD_REQUEST;
  len ← some_or (p !! 1) BAD_REQUEST;
  raw ← some_or (get_slice p 2 (Z.to_nat len)) BAD_REQUEST;
  from ← some_or (path_name raw) DENIED;
  to ← some_or (path_name (drop (2 + Z.to_nat len) p)) DENIED;
  then_ret 0 (on_files (fun f => f_rename f from to (negb (flags &&& 1 =? 0)%Z))).

Definition h_rmdir (p : bytes) : Handler F nat :=
  flags ← some_or (p !! 0) BAD_REQUEST;
  path ← some_or (path_name (drop 1 p)) DENIED;
  then_ret 0 (on_files (fun f => f_rmdir f path (negb (flags &&& 1 =? 0)%Z))).

(** The end of the paged listings: the next cursor in front, or [u32::MAX]. *)
Definition page (x : nat * option Z) : Handler F nat := then_ret (4 + x.1) (reply_at 0 (to_le 4 (default U32_MAX x.2))).

Definition h_list_dir (p : bytes) : Handler F nat :=
  cursor ← some_or (u32_at p 0) BAD_REQUEST;
  path ← (if length p =? 4 then mret [] else some_or (path_name (drop 4 p)) DENIED);
  on_files_buf 4 None (fun f out => f_list_dir f path cursor out) ≫= page.

Definition h_list (p : bytes) : Handler F nat :=
  cursor ← some_or (u32_at p 0) BAD_REQUEST;
  on_files_buf 4 None (fun f out => f_list f cursor out) ≫= page.

Definition h_log (p : bytes) : Handler F nat :=
  cursor ← some_or (u64_at p 0) BAD_REQUEST;
  '(n, next) ← on_files_buf 8 None (fun f out => f_log f cursor out);
  then_ret (8 + n) (reply_at 0 (to_le 8 next)).

Definition h_input (p : bytes) : Handler F nat :=
  if (length p =? 0) || negb (length p mod 8 =? 0) || (INPUT_MAX * 8 <? length p) then fail BAD_REQUEST
  else
    words ← some_or (mapM (fun i => u64_at p (8 * i)) (seq 0 (length p / 8))) BAD_REQUEST;
    posted ← on_files (fun f => f_input f words);
    then_ret 4 (reply_at 0 (to_le 4 posted)).

Definition h_run (p : bytes) : Handler F nat :=
  len ← some_or (p !! 0) BAD_REQUEST;
  raw ← some_or (get_slice p 1 (Z.to_nat len)) BAD_REQUEST;
  path ← some_or (path_name raw) DENIED;
  let args := drop (1 + Z.to_nat len) p in
  some_or (utf8 args) BAD_REQUEST ≫= fun _ =>
  '(run, pid) ← on_files (fun f => f_run f path args);
  reply_at 0 (to_le 4 run) ≫= fun _ => then_ret 12 (reply_at 4 (to_le 8 pid)).

Definition h_output (p : bytes) : Handler F nat :=
  run ← some_or (u32_at p 0) BAD_REQUEST;
  cursor ← some_or (u64_at p 4) BAD_REQUEST;
  o ← on_files_buf OUTPUT_HEAD None (fun f out => f_output f run cursor out);
  if (ro_from o <? cursor)%Z then fail IO
  else
    reply_at 0 [ro_state o] ≫= fun _ =>
    reply_at 1 (to_le 4 (ro_exit o)) ≫= fun _ =>
    then_ret (OUTPUT_HEAD + ro_len o) (reply_at 5 (to_le 8 (ro_from o))).

Definition h_runs (p : bytes) : Handler F nat :=
  cursor ← some_or (u32_at p 0) BAD_REQUEST;
  on_files_buf 4 None (fun f out => f_runs f cursor out) ≫= page.

Definition h_command (p : bytes) : Handler F nat :=
  cs ← some_or (utf8 p) BAD_REQUEST;
  if blank cs || (COMMAND_MAX <? length p) || existsb is_control cs then fail BAD_REQUEST
  else
    run ← on_files (fun f => f_command f p);
    then_ret 4 (reply_at 0 (to_le 4 run)).

(** [u8::is_ascii_alphanumeric] or an underscore. *)
Definition unit_byte (b : Z) : bool := between 48 57 b || between 65 90 b || between 97 122 b || (b =? 95)%Z.

Definition h_replace (p : bytes) : Handler F nat :=
  len ← some_or (p !! 0) BAD_REQUEST;
  unit ← some_or (get_slice p 1 (Z.to_nat len)) BAD_REQUEST;
  some_or (utf8 unit) BAD_REQUEST ≫= fun _ =>
  if (length unit =? 0) || (UNIT_MAX <? length unit) || negb (forallb unit_byte unit) then fail BAD_REQUEST
  else
    let rest := drop (1 + Z.to_nat len) p in
    path ← (if length rest =? 0 then mret [] else some_or (path_name rest) DENIED);
    if REPLACE_PATH_MAX <? length path then fail DENIED
    else then_ret 0 (on_files (fun f => f_replace f unit path)).

(** The [match (ch, k)] of [handle]. *)
Definition dispatch (ch k : Z) (p : bytes) : Handler F nat :=
  let req c x := ((ch =? c) && (k =? x))%Z in
  if req CONTROL POLL then mret 0
  else if req CONTROL REBOOT then then_ret 0 (on_files f_reboot)
  else if req CONTROL HELLO then h_hello p
  else if req FILES PUT_OPEN then h_put_open p
  else if req FILES PUT_DATA then h_put_data p
  else if req FILES PUT_CLOSE then h_put_close p
  else if req FILES GET_OPEN then h_get_open p
  else if req FILES GET_DATA then h_get_data p
  else if req FILES GET_CLOSE then h_get_close
  else if req FILES STAT then h_stat p
  else if req FILES DELETE then name ← some_or (path_name p) DENIED; then_ret 0 (on_files (fun f => f_delete f name))
  else if req FILES MKDIR then name ← some_or (path_name p) DENIED; then_ret 0 (on_files (fun f => f_mkdir f name))
  else if req FILES MOVE then h_move p
  else if req FILES RMDIR then h_rmdir p
  else if req FILES LIST_DIR then h_list_dir p
  else if req FILES LIST then h_list p
  else if req LOG_CH LOG then h_log p
  else if req CONSOLE_CH CONSOLE then on_files_buf 0 None (fun f out => f_console f p out)
  else if req INPUT_CH INPUT then h_input p
  else if req PROGRAMS RUN then h_run p
  else if req PROGRAMS OUTPUT then h_output p
  else if req PROGRAMS STOP then run ← some_or (u32_at p 0) BAD_REQUEST; then_ret 0 (on_files (fun f => f_stop f run))
  else if req PROGRAMS RUNS then h_runs p
  else if req PROGRAMS COMMAND then h_command p
  else if req PROGRAMS REPLACE then h_replace p
  else fail UNSUPPORTED.

(** [FileService::handle]: the reply is cut to the agreed limit first. *)
Definition handle (s : FileService F) (ch k : Z) (p reply : bytes) : FileService F * bytes * Res nat :=
  let n := Nat.min (limit s) (length reply) in
  let '(s, r, v) := dispatch ch k p s (take n reply) in
  (s, r ++ drop n reply, v).
End handlers.

(** ** What the store is told: the puts, over any run of requests *)

(** The store's calls that make a file: created, written, committed, and whether the store took them. *)
Inductive Event : Type :=
| ECreate (name : bytes) (size : Z) (ok : bool)
| EWrite (offset : Z) (data : bytes) (ok : bool)
| ECommit (digest : bytes) (matches : bool).

(** The file being put after the calls so far: its name, its size and the bytes written, in order. *)
Definition track (cur : option (bytes * Z * bytes)) (e : Event) : option (bytes * Z * bytes) :=
  match e, cur with
  | ECreate n s ok, _ => if ok then Some (n, s, []) else None
  | EWrite off d false, _ => cur
  | EWrite off d true, Some (n, s, x) => if (off =? Z.of_nat (length x))%Z then Some (n, s, x ++ d) else None
  | EWrite off d true, None => None
  | ECommit _ _, _ => None
  end.

(** A commit that says the file matches is of a file received whole whose SHA-256 is the given digest. *)
Definition commit_ok (cur : option (bytes * Z * bytes)) (e : Event) : Prop :=
  match e with
  | ECommit dg true => exists n s x, cur = Some (n, s, x) /\ Z.of_nat (length x) = s /\ reference x = dg
  | _ => True
  end.

Fixpoint commits_ok (cur : option (bytes * Z * bytes)) (es : list Event) : Prop :=
  match es with
  | [] => True
  | e :: es => commit_ok cur e /\ commits_ok (track cur e) es
  end.

Lemma commits_ok_snoc es e : forall cur,
  commits_ok cur es -> commit_ok (foldl track cur es) e -> commits_ok cur (es ++ [e]).
Proof.
  induction es as [|x es IH]; intros cur; cbn [commits_ok app foldl]; [done|]. intros [H1 H2] H. split; [done|]. by apply IH.
Qed.

Definition is_ok {E A} (r : result E A) : bool := match r with Ok _ => true | Err _ => false end.

(** Any store, with its calls recorded. *)
#[export] Instance recorded {F} `{!Files F} : Files (F * list Event) := {
  f_create s n z := let '(f, r) := f_create s.1 n z in (f, s.2 ++ [ECreate n z (is_ok r)], r);
  f_write_at s o d := let '(f, r) := f_write_at s.1 o d in (f, s.2 ++ [EWrite o d (is_ok r)], r);
  f_commit s d m := let '(f, r) := f_commit s.1 d m in (f, s.2 ++ [ECommit d m], r);
  f_open s n := let '(f, r) := f_open s.1 n in (f, s.2, r);
  f_read_at s o b := let '(f, b, r) := f_read_at s.1 o b in (f, s.2, b, r);
  f_list s c b := let '(f, b, r) := f_list s.1 c b in (f, s.2, b, r);
  f_stat s n := let '(f, r) := f_stat s.1 n in (f, s.2, r);
  f_delete s n := let '(f, r) := f_delete s.1 n in (f, s.2, r);
  f_log s c b := let '(f, b, r) := f_log s.1 c b in (f, s.2, b, r);
  f_console s i b := let '(f, b, r) := f_console s.1 i b in (f, s.2, b, r);
  f_mkdir s n := let '(f, r) := f_mkdir s.1 n in (f, s.2, r);
  f_rename s a b c := let '(f, r) := f_rename s.1 a b c in (f, s.2, r);
  f_rmdir s n b := let '(f, r) := f_rmdir s.1 n b in (f, s.2, r);
  f_list_dir s n c b := let '(f, b, r) := f_list_dir s.1 n c b in (f, s.2, b, r);
  f_run s n a := let '(f, r) := f_run s.1 n a in (f, s.2, r);
  f_output s n c b := let '(f, b, r) := f_output s.1 n c b in (f, s.2, b, r);
  f_stop s n := let '(f, r) := f_stop s.1 n in (f, s.2, r);
  f_runs s c b := let '(f, b, r) := f_runs s.1 c b in (f, s.2, b, r);
  f_command s l := let '(f, r) := f_command s.1 l in (f, s.2, r);
  f_replace s u n := let '(f, r) := f_replace s.1 u n in (f, s.2, r);
  f_reboot s := let '(f, r) := f_reboot s.1 in (f, s.2, r);
  f_input s w := let '(f, r) := f_input s.1 w in (f, s.2, r);
}.

Section integrity.
Context {F : Type} `{!Files F}.
Abbreviation Svc := (FileService (F * list Event)).

(** A handler that neither touches the put in progress nor makes a call of a put. *)
Definition quiet {A} (m : Handler (F * list Event) A) : Prop :=
  forall s r, writing (m s r).1.1 = writing s /\ (files (m s r).1.1).2 = (files s).2.

Lemma quiet_ret {A} (a : A) : quiet (mret a).
Proof. done. Qed.
Lemma quiet_fail {A} c : quiet (@fail _ A c).
Proof. done. Qed.
Lemma quiet_some_or {A} (o : option A) c : quiet (some_or o c).
Proof. by destruct o. Qed.
Lemma quiet_get : quiet get_service.
Proof. done. Qed.
Lemma quiet_bind {A B} (m : Handler _ A) (k : A -> Handler _ B) : quiet m -> (forall a, quiet (k a)) -> quiet (m ≫= k).
Proof.
  intros Hm Hk s r. unfold mbind, handler_bind. specialize (Hm s r). destruct (m s r) as [[s1 r1] v]. cbn [fst] in Hm.
  destruct Hm as [H1 H2]. destruct v as [a|c|]; [|done..]. destruct (Hk a s1 r1) as [H3 H4].
  split; [by rewrite H3|by rewrite H4].
Qed.
Lemma quiet_modify f : (forall s, writing (f s) = writing s /\ (files (f s)).2 = (files s).2) -> quiet (modify f).
Proof. intros H s r. apply H. Qed.
Lemma quiet_reply n src : quiet (reply_at n src).
Proof. intros s r. unfold reply_at. by destruct (put_slice r n src). Qed.
Lemma quiet_slice i n : quiet (reply_slice i n).
Proof. intros s r. unfold reply_slice. by destruct (get_slice r i n). Qed.
Lemma quiet_on_files {A} (m : F * list Event -> F * list Event * result Z A) :
  (forall f, (m f).1.2 = f.2) -> quiet (on_files m).
Proof. intros H s r. unfold on_files. specialize (H (files s)). by destruct (m (files s)) as [f v]. Qed.
Lemma quiet_on_files_buf {A} i n (m : F * list Event -> bytes -> F * list Event * bytes * result Z A) :
  (forall f b, (m f b).1.1.2 = f.2) -> quiet (on_files_buf i n m).
Proof.
  intros H s r. unfold on_files_buf. destruct (get_slice _ _ _) as [part|]; [|done].
  specialize (H (files s) part). by destruct (m (files s) part) as [[f b] v].
Qed.
Lemma quiet_then {n} (m : Handler (F * list Event) unit) : quiet m -> quiet (then_ret n m).
Proof. intros Hm. apply quiet_bind; [done|]. intros. apply quiet_ret. Qed.
End integrity.

Create HintDb quiet discriminated.
#[export] Hint Resolve quiet_ret quiet_fail quiet_some_or quiet_get quiet_reply quiet_slice : quiet.

(** Takes a handler apart along its monadic structure. *)
Ltac quiet_step :=
  match goal with
  | |- quiet (_ ≫= _) => apply quiet_bind; [|intros ?]
  | |- quiet (then_ret _ _) => apply quiet_then
  | |- quiet (on_files_buf _ _ _) => apply quiet_on_files_buf; intros; cbn; by repeat case_match
  | |- quiet (on_files _) => apply quiet_on_files; intros; cbn; by repeat case_match
  | |- quiet (modify _) => apply quiet_modify; done
  | |- quiet (if _ then _ else _) => case_match
  | |- quiet (match ?x with pair _ _ => _ end) => destruct x
  | |- quiet _ => auto with quiet
  end.
Ltac quiet_all := repeat quiet_step.

Section integrity_run.
Context {F : Type} `{!Files F}.

Lemma quiet_others (p : bytes) :
  quiet (F := F) (h_hello p) /\ quiet (F := F) (h_get_open p) /\ quiet (F := F) h_get_close /\ quiet (F := F) (h_stat p) /\
  quiet (F := F) (h_move p) /\ quiet (F := F) (h_rmdir p) /\ quiet (F := F) (h_list_dir p) /\ quiet (F := F) (h_list p) /\
  quiet (F := F) (h_log p) /\ quiet (F := F) (h_input p) /\ quiet (F := F) (h_run p) /\ quiet (F := F) (h_output p) /\
  quiet (F := F) (h_runs p) /\ quiet (F := F) (h_command p) /\ quiet (F := F) (h_replace p).
Proof.
  unfold h_hello, h_get_open, h_get_close, h_stat, h_move, h_rmdir, h_list_dir, h_list, h_log, h_input, h_run, h_output,
    h_runs, h_command, h_replace, page.
  split_and!; quiet_all.
Qed.

Lemma quiet_get_data (p : bytes) : quiet (F := F) (h_get_data p).
Proof.
  unfold h_get_data. quiet_all. intros sv rv.
  match goal with |- context [(?m sv rv).1.1] => assert (quiet m) as Hq by quiet_all end. apply Hq.
Qed.

(** The put in progress is what the store was told, and every matching commit so far was right. *)
Definition put_inv (s : FileService (F * list Event)) : Prop :=
  commits_ok None (files s).2 /\
  match writing s with
  | Some w => exists x, foldl track None (files s).2 = Some (put_name w, put_size w, x) /\
                        put_done w = Z.of_nat (length x) /\ holds (put_sha w) x
  | None => True
  end.

Lemma quiet_inv {A} (m : Handler (F * list Event) A) s r : quiet m -> put_inv s -> put_inv (m s r).1.1.
Proof. intros Hq. destruct (Hq s r) as [H1 H2]. unfold put_inv. by rewrite H1, H2. Qed.

(** Starting a file. *)
Lemma start_put_inv s r name size : put_inv s -> put_inv (start_put name size s r).1.1.
Proof.
  intros [Hc _]. unfold start_put, mbind, handler_bind, modify, on_files, mret, handler_ret.
  cbn [files with_writing f_create recorded]. destruct (f_create (files s).1 name size) as [f [u|c]] eqn:He;
    (split; [by apply commits_ok_snoc|]); cbn [writing with_writing files fst snd]; [|done].
  exists []. rewrite foldl_app. split; [done|]. split; [done|]. apply new_holds.
Qed.

Lemma bind_inv {A B} (m : Handler (F * list Event) A) (k : A -> Handler _ B) s r :
  put_inv (m s r).1.1 -> (forall a, quiet (k a)) -> put_inv ((m ≫= k) s r).1.1.
Proof.
  intros Hm Hk. unfold mbind, handler_bind. destruct (m s r) as [[s1 r1] [a|c|]]; [|done..]. by apply quiet_inv.
Qed.

Lemma put_open_inv p s r : put_inv s -> put_inv (h_put_open p s r).1.1.
Proof.
  intros Hi. unfold h_put_open, some_or. destruct (u64_at p 0) as [size|]; [|done].
  destruct (path_name (drop 8 p)) as [name|]; [|done].
  apply (bind_inv (match writing s with
     | Some w => if (put_size w =? size)%Z && bool_decide (put_name w = name) then mret (put_done w) else start_put name size
     | None => start_put name size
     end)); [|intros; quiet_all].
  destruct (writing s); [case_match; [done|]|]; by apply start_put_inv.
Qed.

Lemma put_data_inv p s r : put_inv s -> put_inv (h_put_data p s r).1.1.
Proof.
  intros Hi. unfold h_put_data, mbind, handler_bind, some_or, get_service. destruct (u64_at p 0) as [offset|]; [|done].
  cbn [mret handler_ret]. destruct (writing s) as [w|] eqn:Hw; [|done]. cbn [mret handler_ret].
  destruct (_ || _) eqn:Hb; [done|]. apply orb_false_iff in Hb as [Ho _]. apply negb_false_iff, Z.eqb_eq in Ho.
  unfold on_files, modify. cbn [f_write_at recorded]. destruct Hi as [Hc Hp]. rewrite Hw in Hp.
  destruct Hp as (x & Ht & Hd & Hh). set (data := drop DATA_HEAD p).
  destruct (f_write_at (files s).1 offset data) as [f [u|c]]; (split; [by apply commits_ok_snoc|]);
    cbn [mret handler_ret writing with_writing files fst snd is_ok].
  - exists (x ++ data). rewrite foldl_app. cbn [foldl track]. rewrite Ht. cbn [track].
    rewrite (proj2 (Z.eqb_eq _ _)) by congruence. split; [done|]. cbn [put_done put_sha]. split; [rewrite length_app; lia|].
    by apply update_holds.
  - rewrite Hw. exists x. rewrite foldl_app. by rewrite Ht.
Qed.

Lemma put_close_inv p s r : put_inv s -> put_inv (h_put_close p s r).1.1.
Proof.
  intros Hi. unfold h_put_close. case_match; [done|].
  unfold mbind, handler_bind, some_or, get_service, modify. destruct Hi as [Hc Hp].
  destruct (writing s) as [w|] eqn:Hw; [|by split]. cbn [mret handler_ret].
  unfold on_files. cbn [files with_writing f_commit recorded]. destruct Hp as (x & Ht & Hd & Hh).
  set (matches := _ && _). destruct (f_commit (files s).1 p matches) as [f [u|c]];
    (assert (put_inv (mkFileService (f, (files s).2 ++ [ECommit p matches]) None (reading s) (limit s) (svc_name s))) as Hdone;
     [split; [apply commits_ok_snoc; [done|]|done]|try (destruct matches; exact Hdone); exact Hdone]);
    cbn [commit_ok]; destruct matches eqn:Hm; try done; unfold matches in Hm;
    apply andb_true_iff in Hm as [Hs%Z.eqb_eq Hdg%bool_decide_eq_true];
    exists (put_name w), (put_size w), x; (split; [done|]); (split; [congruence|]); by rewrite <- (finish_holds _ _ Hh).
Qed.

Lemma dispatch_inv ch k p s r : put_inv s -> put_inv (dispatch ch k p s r).1.1.
Proof.
  intros Hi. unfold dispatch. destruct (quiet_others p) as (? & ? & ? & ? & ? & ? & ? & ? & ? & ? & ? & ? & ? & ? & ?).
  repeat (case_match; [first [by apply put_open_inv | by apply put_data_inv | by apply put_close_inv
    | apply quiet_inv; [first [done | apply quiet_get_data | quiet_all]|done]]|]).
  apply quiet_inv; [quiet_all|done].
Qed.

(** A run of requests, each with its reply buffer. *)
Definition requests_run (s : FileService (F * list Event)) (rs : list (Z * Z * bytes * bytes)) : FileService (F * list Event) :=
  foldl (fun s x => let '(ch, k, p, reply) := x in (handle s ch k p reply).1.1) s rs.

(** C18: integrity of puts: whatever requests come, in any order and with any store, the store is told that a file
    matches only when the bytes written since the file was created, in order and without a gap, are as many as the
    file's size and their SHA-256 is the digest given. *)
Theorem put_integrity (f : F) rs : commits_ok None (files (requests_run (service_new (f, [])) rs)).2.
Proof.
  assert (forall s, put_inv s -> put_inv (requests_run s rs)) as H; [|by apply H].
  induction rs as [|[[[ch k] p] reply] rs IH]; intros s Hs; [done|]. cbn [requests_run foldl]. apply IH. unfold handle.
  pose proof (dispatch_inv ch k p s (take (Nat.min (limit s) (length reply)) reply) Hs) as Hd.
  by destruct (dispatch ch k p s _) as [[s' r'] v].
Qed.
End integrity_run.

(** ** No request panics *)

(** What the store's methods keep: a buffer's length, and what they report fits. *)
Class FilesLaws (F : Type) `{!Files F} : Prop := {
  law_read_at : forall (f : F) o b, let '(_, b', r) := f_read_at f o b in
    length b' = length b /\ match r with Ok n => n <= length b | Err _ => True end;
  law_list : forall (f : F) c b, length (f_list f c b).1.2 = length b;
  law_list_dir : forall (f : F) n c b, length (f_list_dir f n c b).1.2 = length b;
  law_log : forall (f : F) c b, length (f_log f c b).1.2 = length b;
  law_console : forall (f : F) i b, length (f_console f i b).1.2 = length b;
  law_output : forall (f : F) n c b, length (f_output f n c b).1.2 = length b;
  law_runs : forall (f : F) c b, length (f_runs f c b).1.2 = length b;
  law_stat : forall (f : F) n, match (f_stat f n).2 with Ok (_, d) => length d = 32 | Err _ => True end;
}.

Section panics.
Context {F : Type} `{!Files F, !FilesLaws F}.

(** The service's own sizes. *)
Definition svc_ok (s : FileService F) : Prop :=
  MIN_PAYLOAD <= limit s <= MAX_PAYLOAD /\ length (svc_name s) <= 60 /\
  match reading s with Some (_, _, sha) => length (state sha) = 8 | None => True end.

(** A handler that does not panic on a reply of at least [MIN_PAYLOAD] bytes, keeps its length, and satisfies [Q]. *)
Definition safe {A} (m : Handler F A) (Q : A -> Prop) : Prop :=
  forall s r, svc_ok s -> MIN_PAYLOAD <= length r ->
    let '(s', r', v) := m s r in
    svc_ok s' /\ length r' = length r /\ match v with Val a => Q a | Fail _ => True | Panic => False end.

Lemma safe_ret {A} (a : A) (Q : A -> Prop) : Q a -> safe (mret a) Q.
Proof. by intros HQ s r Hs Hr. Qed.
Lemma safe_fail {A} c (Q : A -> Prop) : safe (fail c) Q.
Proof. by intros s r Hs Hr. Qed.
Lemma safe_some_or {A} (o : option A) c : safe (some_or o c) (fun a => o = Some a).
Proof. intros s r Hs Hr. by destruct o. Qed.
Lemma safe_get : safe get_service svc_ok.
Proof. by intros s r Hs Hr. Qed.
Lemma answer_safe_bind {A B} (m : Handler F A) (k : A -> Handler F B) P Q :
  safe m P -> (forall a, P a -> safe (k a) Q) -> safe (m ≫= k) Q.
Proof.
  intros Hm Hk s r Hs Hr. unfold mbind, handler_bind. specialize (Hm s r Hs Hr). destruct (m s r) as [[s1 r1] [a|c|]].
  - destruct Hm as (Hs1 & Hr1 & Ha). specialize (Hk a Ha s1 r1 Hs1). rewrite Hr1 in Hk. specialize (Hk Hr).
    destruct (k a s1 r1) as [[s2 r2] v]. done.
  - done.
  - by destruct Hm as (_ & _ & []).
Qed.
Lemma safe_weaken {A} (m : Handler F A) (P Q : A -> Prop) : safe m P -> (forall a, P a -> Q a) -> safe m Q.
Proof.
  intros Hm HPQ s r Hs Hr. specialize (Hm s r Hs Hr). destruct (m s r) as [[s' r'] [a|c|]]; try done.
  destruct Hm as (? & ? & ?). auto.
Qed.
Lemma safe_modify f : (forall s, svc_ok s -> svc_ok (f s)) -> safe (modify f) (fun _ => True).
Proof. intros H s r Hs Hr. split; [by apply H|done]. Qed.
Lemma safe_reply n src : n + length src <= MIN_PAYLOAD -> safe (reply_at n src) (fun _ => True).
Proof.
  intros Hn s r Hs Hr. unfold reply_at, put_slice. rewrite (proj2 (Nat.leb_le _ _)) by lia. split; [done|].
  split; [|done]. rewrite !length_app, length_take, length_drop. lia.
Qed.
Lemma safe_on_files {A} (m : F -> F * result Z A) (Q : A -> Prop) :
  (forall f, match (m f).2 with Ok a => Q a | Err _ => True end) -> safe (on_files m) Q.
Proof. intros H s r Hs Hr. unfold on_files. specialize (H (files s)). destruct (m (files s)) as [f [a|c]]; done. Qed.
Lemma safe_on_files_buf {A} i (m : F -> bytes -> F * bytes * result Z A) :
  i <= MIN_PAYLOAD -> (forall f b, length (m f b).1.2 = length b) -> safe (on_files_buf i None m) (fun _ => True).
Proof.
  intros Hi H s r Hs Hr. unfold on_files_buf, get_slice. cbn [default]. change (default (length r - i) None) with (length r - i).
  rewrite decide_True by lia. specialize (H (files s) (slice r i (length r - i))).
  destruct (m (files s) _) as [[f b] v]. cbn [fst snd] in H. unfold put_slice.
  assert (length (slice r i (length r - i)) = length r - i) as Hl by (unfold slice; rewrite length_take, length_drop; lia).
  rewrite (proj2 (Nat.leb_le _ _)) by lia. split; [done|].
  change (default r (Some ?x)) with x. split; [|by destruct v].
  rewrite !length_app, length_take, length_drop. lia.
Qed.
Lemma safe_then n m : safe m (fun _ => True) -> safe (then_ret n m) (fun _ => True).
Proof. intros Hm. eapply answer_safe_bind; [exact Hm|]. intros. by apply safe_ret. Qed.
End panics.

(** Takes a handler apart for [safe]; the replies' bounds are closed by arithmetic. *)
Ltac safe_step :=
  match goal with
  | |- safe (some_or _ _ ≫= _) _ => eapply answer_safe_bind; [apply safe_some_or|intros ? ?]
  | |- safe (get_service ≫= _) _ => eapply answer_safe_bind; [apply safe_get|intros ? ?]
  | |- safe (_ ≫= _) _ => eapply answer_safe_bind with (P := fun _ => True); [|intros ? _]
  | |- safe (then_ret _ _) _ => apply safe_then
  | |- safe (mret _) _ => apply safe_ret; done
  | |- safe (fail _) _ => apply safe_fail
  | |- safe (some_or _ _) _ => eapply safe_weaken; [apply safe_some_or|done]
  | |- safe (page _) _ => apply safe_then
  | |- safe (reply_at _ _) _ => apply safe_reply; rewrite ?length_to_le; unfold MIN_PAYLOAD; cbn; lia
  | |- safe (modify _) _ => apply safe_modify; intros ? ?; done
  | |- safe (on_files_buf _ None _) _ => apply safe_on_files_buf; [unfold MIN_PAYLOAD, OUTPUT_HEAD; lia|intros; apply law_list || apply law_list_dir || apply law_log || apply law_console || apply law_output || apply law_runs]
  | |- safe (on_files _) (fun _ => True) => apply safe_on_files; intros ?; by case_match
  | |- safe (if _ then _ else _) _ => case_match
  | |- safe (match ?x with pair _ _ => _ end) _ => destruct x
  end.
Ltac safe_all := repeat safe_step.

Section no_panic.
Context {F : Type} `{!Files F, !FilesLaws F}.

Lemma safe_hello p : safe (F := F) (h_hello p) (fun _ => True).
Proof.
  unfold h_hello. safe_step. eapply answer_safe_bind; [apply safe_modify|intros _ _].
  { intros s (Hl & Hn & Hr). split; [|done]. cbn [limit]. unfold MIN_PAYLOAD, MAX_PAYLOAD. lia. }
  safe_step; [safe_step|]. safe_step. safe_step; [|safe_step].
  match goal with H : svc_ok _ |- _ => destruct H as (_ & Hn & _) end.
  apply safe_reply. unfold MIN_PAYLOAD. lia.
Qed.

Lemma safe_puts p :
  safe (F := F) (h_put_open p) (fun _ => True) /\ safe (F := F) (h_put_data p) (fun _ => True) /\
  safe (F := F) (h_put_close p) (fun _ => True).
Proof.
  unfold h_put_open, h_put_data, h_put_close, start_put. split_and!; safe_all.
  match goal with |- safe (match writing ?s with _ => _ end) _ => destruct (writing s) end; safe_all.
Qed.

Lemma safe_get_open p : safe (F := F) (h_get_open p) (fun _ => True).
Proof.
  unfold h_get_open. safe_step. safe_step; [safe_step|]. eapply answer_safe_bind; [apply safe_modify|intros _ _; safe_all].
  intros s (Hl & Hn & Hr). split; [exact Hl|split; [exact Hn|reflexivity]].
Qed.

Lemma safe_get_close : safe (F := F) h_get_close (fun _ => True).
Proof.
  unfold h_get_close. safe_step. eapply answer_safe_bind; [apply safe_modify|intros _ _].
  { intros s (Hl & Hn & Hr). split; [exact Hl|split; [exact Hn|exact I]]. }
  safe_step. match goal with |- context [match ?a with _ => _ end] => destruct a as [[size got] sha] end.
  match goal with H : svc_ok ?s, Hr : reading ?s = _ |- _ => destruct H as (_ & _ & Hs); rewrite Hr in Hs end.
  safe_step. apply safe_reply. rewrite finish_length by done. unfold MIN_PAYLOAD. lia.
Qed.

Lemma safe_stat p : safe (F := F) (h_stat p) (fun _ => True).
Proof.
  unfold h_stat. safe_step. eapply answer_safe_bind with (P := fun x => length x.2 = 32).
  { apply safe_on_files. intros f. pose proof (law_stat f a) as Hl. destruct (f_stat f a).2 as [[z d]|]; done. }
  intros [z d] Hd. cbn [snd] in Hd. safe_step; [safe_step|]. safe_step. apply safe_reply. unfold MIN_PAYLOAD. lia.
Qed.

Lemma safe_get_data p : safe (F := F) (h_get_data p) (fun _ => True).
Proof.
  unfold h_get_data. safe_step. safe_step. safe_step. safe_step.
  match goal with |- context [match ?a with _ => _ end] => destruct a as [[size got] sha] end.
  match goal with H : svc_ok ?s, Hr : reading ?s = _ |- _ => destruct H as (_ & _ & Hs); rewrite Hr in Hs end.
  case_match; [apply safe_fail|]. intros s r Hok Hr. set (want := Nat.min _ _).
  assert (want <= length r) as Hw by lia.
  unfold mbind, handler_bind, on_files_buf, get_slice. change (default (length r - 0) (Some want)) with want.
  rewrite decide_True by lia. pose proof (law_read_at (files s) a (slice r 0 want)) as Hlaw.
  assert (length (slice r 0 want) = want) as Hsl by (unfold slice; rewrite length_take, length_drop; lia).
  destruct (f_read_at (files s) a (slice r 0 want)) as [[f b] [n|c]]; destruct Hlaw as [Hb Hn];
    unfold put_slice; rewrite (proj2 (Nat.leb_le _ _)) by lia; change (default r (Some ?x)) with x;
    (assert (length (take 0 r ++ b ++ drop (0 + length b) r) = length r) as Hlen
      by (rewrite !length_app, length_take, length_drop; lia)).
  - unfold reply_slice, get_slice. rewrite decide_True by lia. unfold modify.
    destruct Hok as (Hlim & Hname & _). split; [split; [exact Hlim|split; [exact Hname|]]|done].
    cbn. by rewrite update_length.
  - split; [|done]. exact Hok.
Qed.

Lemma safe_dispatch ch k p : safe (F := F) (dispatch ch k p) (fun _ => True).
Proof.
  destruct (safe_puts p) as (Hp1 & Hp2 & Hp3). unfold dispatch.
  repeat (case_match; [first [exact Hp1 | exact Hp2 | exact Hp3 | apply safe_hello | apply safe_get_open | apply safe_get_data
    | apply safe_get_close | apply safe_stat
    | unfold h_move, h_rmdir, h_list_dir, h_list, h_log, h_input, h_run, h_output, h_runs, h_command, h_replace; solve [safe_all]]|]).
  apply safe_fail.
Qed.

(** C19: no request makes the service panic, whatever its bytes, while the slave's name has at most 60 bytes; the
    service's own sizes are kept. *)
Theorem handle_no_panic (s : FileService F) ch k p reply :
  svc_ok s -> MIN_PAYLOAD <= length reply ->
  let '(s', reply', v) := handle s ch k p reply in
  v <> Panic /\ svc_ok s' /\ length reply' = length reply.
Proof.
  intros Hs Hr. unfold handle. set (n := Nat.min (limit s) (length reply)).
  assert (length (take n reply) = n) as Hn by (rewrite length_take; lia).
  pose proof (safe_dispatch ch k p s (take n reply) Hs) as H. rewrite Hn in H.
  specialize (H ltac:(destruct Hs as ((?&?)&_); lia)).
  destruct (dispatch ch k p s (take n reply)) as [[s' r'] v]. destruct H as (Hs' & Hr' & Hv).
  split; [by destruct v|]. split; [done|]. rewrite length_app, length_drop. lia.
Qed.
End no_panic.

(** A store that refuses everything, for closed instances. *)
#[export] Instance no_files : Files unit := {
  f_create f _ _ := (f, Err UNSUPPORTED); f_write_at f _ _ := (f, Err UNSUPPORTED); f_commit f _ _ := (f, Err UNSUPPORTED);
  f_open f _ := (f, Err UNSUPPORTED); f_read_at f _ b := (f, b, Err UNSUPPORTED); f_list f _ b := (f, b, Err UNSUPPORTED);
  f_stat f _ := (f, Err UNSUPPORTED); f_delete f _ := (f, Err UNSUPPORTED); f_log f _ b := (f, b, Err UNSUPPORTED);
  f_console f _ b := (f, b, Ok 0); f_mkdir f _ := (f, Err UNSUPPORTED); f_rename f _ _ _ := (f, Err UNSUPPORTED);
  f_rmdir f _ _ := (f, Err UNSUPPORTED); f_list_dir f _ _ b := (f, b, Err UNSUPPORTED); f_run f _ _ := (f, Err UNSUPPORTED);
  f_output f _ _ b := (f, b, Err UNSUPPORTED); f_stop f _ := (f, Err UNSUPPORTED); f_runs f _ b := (f, b, Err UNSUPPORTED);
  f_command f _ := (f, Err UNSUPPORTED); f_replace f _ _ := (f, Err UNSUPPORTED); f_reboot f := (f, Err UNSUPPORTED);
  f_input f _ := (f, Err UNSUPPORTED);
}.

#[export] Instance no_files_laws : FilesLaws unit.
Proof. by split. Qed.

Lemma handle_no_panic_witness :
  let '(s', reply', v) := handle (service_new ()) CONTROL HELLO [1; 0; 64; 0]%Z (replicate 64 0%Z) in
  v <> Panic /\ svc_ok s' /\ length reply' = 64.
Proof.
  apply (handle_no_panic (service_new ()) CONTROL HELLO [1; 0; 64; 0]%Z (replicate 64 0%Z)).
  - split; [cbn; unfold MIN_PAYLOAD, MAX_PAYLOAD; lia|]. split; [cbn; lia|exact I].
  - rewrite length_replicate. done.
Defined.

(** the bound on the name is needed: a slave whose name has 64 bytes, as [set_name] allows, panics at the second
    hello of a master that asked for payloads of 64 bytes, since the answer's 68 bytes no longer fit the agreed limit. *)
Theorem long_name_panics :
  let s := set_name (service_new ()) (replicate 64 97%Z) in
  let hello := [1; 0; 64; 0]%Z in
  let '(s1, r1, v1) := handle s CONTROL HELLO hello (replicate MAX_PAYLOAD 0%Z) in
  v1 = Val 68 /\ (handle s1 CONTROL HELLO hello r1).2 = Panic.
Proof. vm_compute. done. Qed.
