(* ===== verification/Outcome.v ===== *)
(** * Outcomes: a value, a refusal or a panic

    The effect of the source's checked readers: [Done] a value, [Refuse] the [Err] or [None] a function returns, [Crash]
    a panic (an index or a subtraction out of range). Their bind, the rules for "never panics" and for taking a run that
    ended well apart, and the slice accesses that panic; then programs over a state with such outcomes, and their triples. *)
From S2P Require Import Prelude.

Inductive outcome (E A : Type) : Type :=
| Done (a : A)
| Refuse (e : E)
| Crash.
Arguments Done {E A} _.
Arguments Refuse {E A} _.
Arguments Crash {E A}.

#[global] Instance outcome_ret {E} : MRet (outcome E) := fun A a => Done a.
#[global] Instance outcome_bind {E} : MBind (outcome E) :=
  fun A B f o => match o with Done a => f a | Refuse e => Refuse e | Crash => Crash end.
#[global] Instance outcome_fmap {E} : FMap (outcome E) :=
  fun A B f o => match o with Done a => Done (f a) | Refuse e => Refuse e | Crash => Crash end.

Definition or_refuse {E A} (o : option A) (e : E) : outcome E A := match o with Some a => Done a | None => Refuse e end.
Definition or_crash {E A} (o : option A) : outcome E A := match o with Some a => Done a | None => Crash end.

(** [data[at..at + n]] as an [n]-byte little-endian integer; it panics out of range. *)
Definition le_at {E} (n : nat) (data : bytes) (at_ : Z) : outcome E Z :=
  if (0 <=? at_) && (at_ + Z.of_nat n <=? Z.of_nat (length data)) then Done (of_le (slice data (Z.to_nat at_) n)) else Crash.

(** [data[from..to]]; it panics out of range. *)
Definition range_of {E A} (data : list A) (from to : Z) : outcome E (list A) :=
  if (0 <=? from) && (from <=? to) && (to <=? Z.of_nat (length data)) then Done (slice data (Z.to_nat from) (Z.to_nat (to - from))) else Crash.

(** [memory[from..to].copy_from_slice(src)]. *)
Definition copy_at {E A} (memory : list A) (from to : Z) (src : list A) : outcome E (list A) :=
  if (0 <=? from) && (from <=? to) && (to <=? Z.of_nat (length memory)) && (Z.of_nat (length src) =? to - from)
  then Done (take (Z.to_nat from) memory ++ src ++ drop (Z.to_nat to) memory) else Crash.

(** [for x in l { acc = f(acc, x)?; }]. *)
Fixpoint fold_out {E A B} (f : B -> A -> outcome E B) (acc : B) (l : list A) : outcome E B :=
  match l with
  | [] => Done acc
  | x :: l => acc ← f acc x; fold_out f acc l
  end.

Definition safe {E A} (o : outcome E A) : Prop := o <> Crash.
(** It does not panic, and a value it gives satisfies [P]. *)
Definition yields {E A} (P : A -> Prop) (o : outcome E A) : Prop := match o with Done a => P a | Refuse _ => True | Crash => False end.

Section rules.
Context {E A B : Type}.

Lemma safe_done (a : A) : safe (Done a : outcome E A).
Proof. done. Qed.
Lemma safe_refuse (e : E) : safe (Refuse e : outcome E A).
Proof. done. Qed.

Lemma safe_bind (o : outcome E A) (k : A -> outcome E B) : safe o -> (forall a, o = Done a -> safe (k a)) -> safe (o ≫= k).
Proof. intros Ho Hk. destruct o; cbn; [by apply Hk|done|done]. Qed.

Lemma bind_done (o : outcome E A) (k : A -> outcome E B) b : o ≫= k = Done b -> exists a, o = Done a /\ k a = Done b.
Proof. destruct o; cbn; [eauto|done|done]. Qed.

Lemma safe_if (c : bool) (x y : outcome E A) : (c = true -> safe x) -> (c = false -> safe y) -> safe (if c then x else y).
Proof. destruct c; auto. Qed.

Lemma safe_or_refuse (o : option A) (e : E) : safe (or_refuse o e).
Proof. by destruct o. Qed.

Lemma yields_bind (P : B -> Prop) (o : outcome E A) (k : A -> outcome E B) : safe o -> (forall a, o = Done a -> yields P (k a)) -> yields P (o ≫= k).
Proof. intros Ho Hk. destruct o; cbn; [by apply Hk|done|done]. Qed.
Lemma yields_iff (P : A -> Prop) (o : outcome E A) : yields P o <-> safe o /\ forall a, o = Done a -> P a.
Proof. destruct o; cbn; split; [intros H; split; [done|by intros ? [= <-]]|intros [_ H]; by apply H|done|done|done|intros [H _]; by apply H]. Qed.

Lemma or_refuse_done (o : option A) (e : E) a : or_refuse o e = Done a -> o = Some a.
Proof. destruct o; by intros [= ->]. Qed.

End rules.

Section folds.
Context {E A B : Type}.

Lemma safe_fold (f : B -> A -> outcome E B) (I : B -> Prop) acc l :
  I acc -> (forall acc x, I acc -> x ∈ l -> safe (f acc x)) -> (forall acc x acc', I acc -> x ∈ l -> f acc x = Done acc' -> I acc') -> safe (fold_out f acc l).
Proof.
  revert acc. induction l as [|x l IH]; intros acc Hi Hs Hp; [done|]. cbn [fold_out]. apply safe_bind; [apply Hs; [done|set_solver]|].
  intros acc' H. apply IH; [exact (Hp _ _ _ Hi (list_elem_of_here _ _) H)| |].
  - intros; apply Hs; [done|]. by apply list_elem_of_further.
  - intros a y a' Ha Hy. apply Hp; [done|]. by apply list_elem_of_further.
Qed.

(** An invariant over a fold that ended well, with the elements done so far. *)
Lemma fold_done_inv (f : B -> A -> outcome E B) (I : list A -> B -> Prop) l0 acc l acc' :
  I l0 acc -> fold_out f acc l = Done acc' ->
  (forall done_ acc x acc', x ∈ l -> I done_ acc -> f acc x = Done acc' -> I (done_ ++ [x]) acc') -> I (l0 ++ l) acc'.
Proof.
  revert l0 acc. induction l as [|x l IH]; intros l0 acc Hi; cbn [fold_out]; [intros [= <-] _; by rewrite app_nil_r|].
  intros [acc1 [H1 H2]]%bind_done Hs. rewrite cons_middle, app_assoc. eapply IH; [|exact H2|]; [exact (Hs _ _ _ _ (list_elem_of_here _ _) Hi H1)|].
  intros d a y a' Hy. apply Hs. by apply list_elem_of_further.
Qed.

Lemma fold_keeps (f : B -> A -> outcome E B) (I : B -> Prop) acc l :
  I acc -> (forall acc x, I acc -> x ∈ l -> safe (f acc x) /\ forall acc', f acc x = Done acc' -> I acc') ->
  safe (fold_out f acc l) /\ forall acc', fold_out f acc l = Done acc' -> I acc'.
Proof.
  intros Hi Hs. split.
  - apply (safe_fold f I); [done|intros; by apply Hs|]. intros a x a' Ha Hx. by apply Hs.
  - intros acc' H. refine (fold_done_inv f (fun _ => I) [] acc l acc' Hi H _). intros _ a x a' Hx Ha. by apply Hs.
Qed.
End folds.

Section slices.
Context {E : Type}.

Lemma le_at_safe n data at_ : 0 <= at_ -> at_ + Z.of_nat n <= Z.of_nat (length data) -> safe (le_at (E:=E) n data at_).
Proof. intros H1 H2. unfold le_at. by rewrite !(proj2 (Z.leb_le _ _)). Qed.

Lemma le_at_range n data at_ v : Forall is_byte data -> le_at (E:=E) n data at_ = Done v -> 0 <= v < 256 ^ Z.of_nat n.
Proof.
  intros Hb. unfold le_at. case_match eqn:Hc; [|done]. intros [= <-].
  pose proof (of_le_bound (slice data (Z.to_nat at_) n) (forall_slice _ _ _ _ Hb)) as H. rewrite slice_length in H by lia. done.
Qed.

Lemma range_of_safe {A} (data : list A) from to : 0 <= from -> from <= to -> to <= Z.of_nat (length data) -> safe (range_of (E:=E) data from to).
Proof. intros H1 H2 H3. unfold range_of. by rewrite !(proj2 (Z.leb_le _ _)). Qed.

Lemma range_of_done {A} (data : list A) from to s : range_of (E:=E) data from to = Done s ->
  0 <= from <= to /\ to <= Z.of_nat (length data) /\ s = slice data (Z.to_nat from) (Z.to_nat (to - from)) /\ Z.of_nat (length s) = to - from.
Proof.
  unfold range_of. case_match eqn:Hc; [|done]. intros [= <-]. split_and!; try lia; [done|]. rewrite slice_length; lia.
Qed.

Lemma copy_at_safe {A} (m : list A) from to src : 0 <= from -> from <= to -> to <= Z.of_nat (length m) -> Z.of_nat (length src) = to - from ->
  safe (copy_at (E:=E) m from to src).
Proof. intros H1 H2 H3 H4. unfold copy_at. by rewrite !(proj2 (Z.leb_le _ _)), (proj2 (Z.eqb_eq _ _)). Qed.

Lemma copy_at_done {A} (m : list A) from to src m' : copy_at (E:=E) m from to src = Done m' ->
  0 <= from <= to /\ to <= Z.of_nat (length m) /\ Z.of_nat (length src) = to - from /\ m' = take (Z.to_nat from) m ++ src ++ drop (Z.to_nat to) m /\ length m' = length m.
Proof.
  unfold copy_at. case_match eqn:Hc; [|done]. intros [= <-]. split_and!; try lia; [done|]. rewrite !length_app, length_take, length_drop. lia.
Qed.
End slices.

#[export] Hint Resolve safe_done safe_refuse safe_or_refuse : mind.

(** Takes the binds of [H : ... = Done _] apart, with the tests that refuse. *)
Ltac done_inv H :=
  repeat match type of H with
  | (_ ≫= _) = Done _ => let a := fresh "v" in let Ha := fresh "Hv" in apply bind_done in H as [a [Ha H]]
  | (if ?c then Refuse _ else _) = Done _ => let Hc := fresh "Hc" in destruct c eqn:Hc; [discriminate H|]
  | (if ?c then _ else Refuse _) = Done _ => let Hc := fresh "Hc" in destruct c eqn:Hc; [|discriminate H]
  end.

(** ** Programs over a state: a call that fails leaves the state it got to *)
Definition STE (E S A : Type) : Type := S -> outcome E A * S.
#[global] Instance st_ret {E S} : MRet (STE E S) := fun A a s => (Done a, s).
#[global] Instance st_bind {E S} : MBind (STE E S) := fun A B f m s =>
  match m s with (Done a, s) => f a s | (Refuse e, s) => (Refuse e, s) | (Crash, s) => (Crash, s) end.
Definition lift {E S A} (o : outcome E A) : STE E S A := fun s => (o, s).
Definition fail {E S A} (e : E) : STE E S A := lift (Refuse e).

Section triples.
Context {E S L : Type} (J : S -> Prop) (log : S -> L) (F : Prop).
(** From [J] and a view [l] of the state, a run gives [Q] and keeps [J], fails only where [F], and does not panic. *)
Definition spec {A} (l : L) (m : STE E S A) (Q : A -> L -> Prop) : Prop :=
  forall s, J s -> log s = l -> match m s with (Done a, s') => J s' /\ Q a (log s') | (Refuse _, _) => F | (Crash, _) => False end.
End triples.

Section triple_rules.
Context {E S L : Type} {J : S -> Prop} {log : S -> L} {F : Prop}.
Local Abbreviation triple := (spec (E:=E) J log F).
Lemma spec_ret {A} l (a : A) (Q : A -> L -> Prop) : Q a l -> triple l (mret a) Q.
Proof. intros H s Hs <-. cbn. done. Qed.
Lemma spec_bind {A C} l (m : STE E S A) (k : A -> STE E S C) P Q : triple l m P -> (forall a l', P a l' -> triple l' (k a) Q) -> triple l (m ≫= k) Q.
Proof.
  intros Hm Hk s Hs Hl. specialize (Hm s Hs Hl). unfold mbind, st_bind. destruct (m s) as [[a| |] s']; [|done|done]. destruct Hm as [Hj Hp]. by apply (Hk a (log s') Hp).
Qed.
Lemma spec_lift {A} l (o : outcome E A) a (Q : A -> L -> Prop) : o = Done a -> Q a l -> triple l (lift o) Q.
Proof. intros -> H s Hs <-. cbn. done. Qed.
Lemma spec_step {A C} l (o : outcome E A) a (k : A -> STE E S C) Q : o = Done a -> triple l (k a) Q -> triple l (lift o ≫= k) Q.
Proof. intros -> H s Hs Hl. exact (H s Hs Hl). Qed.
Lemma spec_weaken {A} l (m : STE E S A) (P Q : A -> L -> Prop) : triple l m P -> (forall a l', P a l' -> Q a l') -> triple l m Q.
Proof. intros Hm H s Hs Hl. specialize (Hm s Hs Hl). destruct (m s) as [[a| |] s']; naive_solver. Qed.
End triple_rules.
