(* ===== verification/BootSlots.v ===== *)
(** * Boot records, slots A and B, and the updater's plans ([bootloader/src/slots.rs], [updater/src/plan.rs])

    Two record files name the slot to boot, its fallback and the version floor. The codec of a record, the bootloader's
    choice ([plan], [spent]) and the updater's writes ([confirm], [trial_of_other], [raise]). The theorems: a record's
    512 bytes and its value determine each other; through every history of boots, updates and torn writes that stays below
    the last sequence number the version floor never falls, and a torn write leaves what the bootloader follows as it
    was; a trial that is never confirmed ends in its fallback. What happens at the last sequence number is
    [floor_lost_at_the_end] and [trial_at_the_end]. *)
From stdpp Require Import relations.
From S2P Require Import Prelude Crc Text.

Definition RECORD : nat := 512.
Definition MAGIC : bytes := [77; 73; 78; 68; 66; 79; 79; 84].
Definition FORMAT : Z := 2.
Definition CONFIRMED : Z := 1.
Definition U64_LAST : Z := W64 - 1.
Definition SEQUENCE_LAST : Z := U64_LAST - 2.
Definition SLOT_A : Z := 65.
Definition SLOT_B : Z := 66.

Record Record_ : Type := mkRecord { sequence : Z; slot : Z; fallback : Z; tries : Z; confirmed : bool; floor : Z }.

#[global] Instance Record_eq_dec : EqDecision Record_.
Proof. solve_decision. Defined.

(** [crc32]: the reflected IEEE polynomial, bit by bit. *)
Definition crc32_bit (c : Z) : Z := if negb (c &&& 1 =? 0) then Z.shiftr c 1 ^^^ 0xEDB88320 else Z.shiftr c 1.
Definition crc32 (data : bytes) : Z := not32 (foldl (fun c b => Nat.iter 8 crc32_bit (c ^^^ b)) (not32 0) data).

Definition is_slot (s : Z) : bool := (s =? SLOT_A) || (s =? SLOT_B).

(** [Record::parse]. *)
Definition parse (data : bytes) : option Record_ :=
  if negb (bool_decide (length data = RECORD) && bool_decide (take 8 data = MAGIC) && bool_decide (slice data 8 4 = to_le 4 FORMAT)) then None
  else if negb (bool_decide (drop (RECORD - 4) data = to_le 4 (crc32 (take (RECORD - 4) data)))) then None
  else
    let at_ i := nth i data 0 in
    let '(sl, fb, tr, flags) := (at_ 20%nat, at_ 21%nat, at_ 22%nat, at_ 23%nat) in
    if negb (is_slot sl) || negb ((fb =? 0) || is_slot fb) || negb (Z.ldiff flags CONFIRMED =? 0)
       || existsb (fun b => negb (b =? 0)) (slice data 32 (RECORD - 4 - 32)) then None
    else
      let sq := of_le (slice data 12 8) in
      if SEQUENCE_LAST <? sq then None
      else Some (mkRecord sq sl fb tr (negb (flags &&& CONFIRMED =? 0)) (of_le (slice data 24 8))).

(** [Record::other_format]. *)
Definition other_format (data : bytes) : option Z :=
  f ← get_slice data 8 4;
  let format := of_le f in
  if bool_decide (length data = RECORD) && bool_decide (take 8 data = MAGIC) && negb (format =? FORMAT) then Some format else None.

(** [Record::encode]. *)
Definition record_head (r : Record_) : bytes :=
  MAGIC ++ to_le 4 FORMAT ++ to_le 8 (sequence r) ++ [slot r; fallback r; tries r; if confirmed r then CONFIRMED else 0] ++ to_le 8 (floor r)
    ++ replicate (RECORD - 4 - 32) 0.
Definition encode (r : Record_) : bytes := record_head r ++ to_le 4 (crc32 (record_head r)).

(** The two record files, read. *)
Definition Records : Type := option Record_ * option Record_.
Definition file (rs : Records) (k : nat) : option Record_ := if (k =? 0)%nat then rs.1 else rs.2.
Definition other_file (k : nat) : nat := (1 - k)%nat.

Record Plan : Type := mkPlan { chosen : option nat; order : Z * Z; trial : bool; write : option (nat * Record_); plan_floor : Z }.

Definition with_tries (r : Record_) (n : Z) : Record_ := mkRecord (sequence r + 1) (slot r) (fallback r) n (confirmed r) (floor r).

(** [plan]. *)
Definition readable (r : option Record_) : option Record_ := r ← r; if sequence r <=? SEQUENCE_LAST then Some r else None.
Definition follow (k : nat) (r : Record_) : Plan :=
  let fb := if negb (fallback r =? slot r) then fallback r else 0 in
  let '(o, t, w) :=
    if confirmed r then ((slot r, fb), false, None)
    else if 0 <? tries r then ((slot r, fb), true, Some (other_file k, with_tries r (tries r - 1)))
    else if negb (fb =? 0) then ((fb, 0), false, None)
    else ((slot r, 0), false, None) in
  mkPlan (Some k) o t w (floor r).
Definition plan (rs : Records) : Plan :=
  match readable rs.1, readable rs.2 with
  | Some a, Some b => if sequence a <? sequence b then follow 1 b else follow 0 a
  | Some a, None => follow 0 a
  | None, Some b => follow 1 b
  | None, None => mkPlan None (SLOT_A, SLOT_B) false None 0
  end.

(** [spent]. *)
Definition spent (w : nat * Record_) : nat * Record_ := (other_file w.1, with_tries w.2 0).

(** ** The updater *)

Definition other (s : Z) : Z := if s =? SLOT_A then SLOT_B else SLOT_A.

(** [newest] and [floor] of the records. *)
Definition newest (rs : Records) : option (nat * Record_) :=
  match rs with
  | (Some a, Some b) => Some (if sequence a <? sequence b then (1%nat, b) else (0%nat, a))
  | (Some a, None) => Some (0%nat, a)
  | (None, Some b) => Some (1%nat, b)
  | (None, None) => None
  end.
Definition floor_of (rs : Records) : Z := match newest rs with Some (_, r) => floor r | None => 0 end.

(** [next]. *)
Definition next (rs : Records) (r : Record_) : option (nat * Record_) :=
  let '(f, sq) := match newest rs with Some (k, n) => (other_file k, sequence n + 1) | None => (0%nat, 1) end in
  if sq <=? SEQUENCE_LAST - 2
  then Some (f, mkRecord sq (slot r) (fallback r) (tries r) (confirmed r) (Z.max (floor_of rs) (floor r))) else None.

Definition confirm (rs : Records) (running : Z) : option (nat * Record_) :=
  '(_, current) ← newest rs;
  if negb (slot current =? running) || confirmed current then None
  else next rs (mkRecord 0 running (fallback current) 0 true 0).

Definition may_stage (rs : Records) (running : Z) (on_trial : bool) : bool :=
  negb on_trial || match newest rs with Some (_, r) => (slot r =? running) && confirmed r | None => false end.

Definition trial_of_other (rs : Records) (running n : Z) : option (nat * Record_) :=
  next rs (mkRecord 0 (other running) running n false 0).

Definition raise (rs : Records) (running minimum version : Z) : option (nat * Record_) :=
  '(_, current) ← newest rs;
  let ok := (slot current =? running) && confirmed current in
  if (floor_of rs <? minimum) && ok && (minimum <=? version)
  then next rs (mkRecord (sequence current) (slot current) (fallback current) (tries current) (confirmed current) minimum) else None.

(** [kind] of a file a manifest lists, [in_slot], [expired]. *)
Inductive Kind : Type := Boot | Loader | Application | Shared.
Definition KERNEL_ELF : bytes := [107; 101; 114; 110; 101; 108; 46; 101; 108; 102].
Definition DOT_ELF : bytes := [46; 101; 108; 102].
Definition SLASH : Z := 47.
Definition kind (path : bytes) (boot : list bytes) (loader : bytes) : Kind :=
  if same_ascii path KERNEL_ELF || existsb (fun name => same_ascii name path) boot then Boot
  else if same_ascii path loader then Loader
  else
    let elf := (4 <? length path)%nat && same_ascii (drop (length path - 4) path) DOT_ELF in
    if elf && negb (bool_decide (SLASH ∈ path)) then Application else Shared.
Definition in_slot (path : bytes) : bytes := default path (last (split_on SLASH path)).
Definition expired (expires : Z) (now : option Z) : bool := match now with None => true | Some now => expires <=? now end.

(** [manifest_version]. *)
Definition FILE_ : bytes := [102; 105; 108; 101; 32].
Definition VERSION_ : bytes := [118; 101; 114; 115; 105; 111; 110; 32].
Fixpoint version_line (lines : list bytes) : option bytes :=
  match lines with
  | [] => None
  | l :: lines => if starts_with FILE_ l then None else if starts_with VERSION_ l then Some l else version_line lines
  end.
Definition manifest_version (text : bytes) : Z :=
  default 0 (l ← version_line (split_on 10 text); _ ← utf8 (drop 8 l); parse_uint W64 (drop 8 l)).

(** ** A record and its bytes *)
Lemma record_len : RECORD = 512%nat.
Proof. reflexivity. Qed.
#[local] Opaque RECORD.

Definition record_ok (r : Record_) : Prop :=
  0 <= sequence r <= SEQUENCE_LAST /\ is_slot (slot r) = true /\ (fallback r = 0 \/ is_slot (fallback r) = true) /\ is_byte (tries r) /\ 0 <= floor r < W64.

Lemma crc32_bit_u32 c : is_u32 c -> is_u32 (crc32_bit c).
Proof.
  intros Hc. unfold crc32_bit. case_match; [apply lxor_u32|]; try (apply shiftr_u32; [lia|done]). unfold is_u32, W32. lia.
Qed.

Lemma crc32_u32 data : Forall is_byte data -> is_u32 (crc32 data).
Proof.
  intros Hd. unfold crc32. apply not32_u32. assert (is_u32 (not32 0)) as H by done. revert H. generalize (not32 0).
  induction Hd as [|b data Hb _ IH]; intros c Hc; [done|]. cbn [foldl]. apply IH.
  assert (is_u32 (c ^^^ b)) as Hx. { apply lxor_u32; [done|]. unfold is_u32, is_byte, W32 in *. lia. }
  revert Hx. generalize (c ^^^ b). intros x Hx. cbn. by do 8 apply crc32_bit_u32.
Qed.

Lemma is_slot_byte s : is_slot s = true -> is_byte s.
Proof. unfold is_slot, SLOT_A, SLOT_B, is_byte. rewrite orb_true_iff, !Z.eqb_eq. lia. Qed.

Lemma head_length r : length (record_head r) = (RECORD - 4)%nat.
Proof. unfold record_head. rewrite !length_app, !length_to_le, length_replicate, record_len. reflexivity. Qed.

Lemma head_bytes r : record_ok r -> Forall is_byte (record_head r).
Proof.
  intros (_ & Hs & Hf & Ht & _). unfold record_head. repeat (apply Forall_app_2); eauto using to_le_bytes.
  - repeat constructor; unfold is_byte; lia.
  - constructor; [by apply is_slot_byte|]. constructor; [destruct Hf as [->|]; [done|by apply is_slot_byte]|].
    constructor; [done|]. constructor; [|done]. by destruct (confirmed r).
  - by apply Forall_replicate.
Qed.

Lemma forall_zero l : existsb (fun b => negb (b =? 0)) l = false <-> l = replicate (length l) 0.
Proof.
  induction l as [|b l IH]; cbn [existsb length replicate]; [done|]. rewrite orb_false_iff, negb_false_iff, Z.eqb_eq, IH.
  split; [intros [-> <-]; done|by intros [= -> <-]].
Qed.

(** The parts of a record's bytes: thirty-two fixed ones, [n] that are 0 and the CRC. *)
Lemma parts_read (n : nat) sq fl s f t g crc : length sq = 8%nat -> length fl = 8%nat ->
  let data := (MAGIC ++ to_le 4 FORMAT ++ sq ++ [s; f; t; g] ++ fl ++ replicate n 0) ++ crc in
  take 8 data = MAGIC /\ slice data 8 4 = to_le 4 FORMAT /\ slice data 12 8 = sq /\ slice data 24 8 = fl /\
  nth 20 data 0 = s /\ nth 21 data 0 = f /\ nth 22 data 0 = t /\ nth 23 data 0 = g /\ slice data 32 n = replicate n 0.
Proof.
  intros Hq Hf. do 8 (destruct sq as [|? sq]; [done|]). destruct sq; [|done]. do 8 (destruct fl as [|? fl]; [done|]). destruct fl; [|done].
  cbn [app MAGIC to_le]. rewrite <- ?app_assoc. cbn [take drop slice nth app].
  split_and!; try reflexivity. unfold slice. cbn [drop]. apply take_app_length'. by rewrite length_replicate.
Qed.

Lemma confirmed_flag (b : bool) : (Z.ldiff (if b then CONFIRMED else 0) CONFIRMED =? 0) = true /\ negb ((if b then CONFIRMED else 0) &&& CONFIRMED =? 0) = b.
Proof. by destruct b. Qed.

(** The bootloader reads from the 512 bytes written for a record exactly that record. *)
Lemma parse_encode r : record_ok r -> parse (encode r) = Some r.
Proof.
  intros (Hq & Hs & Hf & Ht & Hfl). unfold parse.
  assert (length (encode r) = RECORD) as Hlen by (unfold encode; rewrite length_app, head_length, length_to_le, record_len; reflexivity).
  assert (drop (RECORD - 4) (encode r) = to_le 4 (crc32 (record_head r)) /\ take (RECORD - 4) (encode r) = record_head r) as [Hd Hk].
  { rewrite <- (head_length r). split; [apply drop_app_length|apply take_app_length]. }
  rewrite (bool_decide_eq_true_2 _ Hlen), Hd, Hk, (bool_decide_eq_true_2 (to_le 4 (crc32 (record_head r)) = to_le 4 (crc32 (record_head r))) eq_refl).
  destruct (parts_read (RECORD - 4 - 32) (to_le 8 (sequence r)) (to_le 8 (floor r)) (slot r) (fallback r) (tries r) (if confirmed r then CONFIRMED else 0)
    (to_le 4 (crc32 (record_head r))) (length_to_le _ _) (length_to_le _ _)) as (A & B & C & D & E & F & G & H & I).
  fold (record_head r) in A, B, C, D, E, F, G, H, I. fold (encode r) in A, B, C, D, E, F, G, H, I.
  rewrite A, B, C, D, E, F, G, H, I. rewrite !(bool_decide_eq_true_2 _ eq_refl). cbn [andb negb].
  rewrite Hs. destruct (confirmed_flag (confirmed r)) as [-> ->].
  assert (((fallback r =? 0) || is_slot (fallback r)) = true) as -> by (destruct Hf as [->|Hf]; [reflexivity|by rewrite Hf, orb_true_r]).
  rewrite (proj2 (forall_zero _)) by (by rewrite length_replicate). cbn [negb orb].
  rewrite !of_to_le by (unfold SEQUENCE_LAST, U64_LAST, W64 in *; lia).
  rewrite (proj2 (Z.ltb_ge _ _)) by lia. by destruct r.
Qed.

Lemma flag_values g : is_byte g -> (Z.ldiff g CONFIRMED =? 0) = true -> g = if negb (g &&& CONFIRMED =? 0) then CONFIRMED else 0.
Proof.
  intros Hg Hz%Z.eqb_eq. unfold CONFIRMED in *. pose proof (Z.lor_ldiff_and g 1) as H. rewrite Hz, Z.lor_0_l in H.
  destruct (Z.eqb_spec (g &&& 1) 0) as [He|He]; cbn [negb]; [congruence|].
  change 1 with (Z.ones 1) in H, He. rewrite Z.land_ones in H, He by lia. change (2 ^ 1) with 2 in *. pose proof (Z.mod_pos_bound g 2). lia.
Qed.

Lemma to_le_slice data i n : Forall is_byte data -> (i + n <= length data)%nat -> to_le n (of_le (slice data i n)) = slice data i n.
Proof.
  intros Hb Hl. rewrite <- (to_of_le (slice data i n)) at 2 by (by apply forall_slice). by rewrite slice_length.
Qed.

Lemma four_at (data : bytes) i : (i + 4 <= length data)%nat -> slice data i 4 = [nth i data 0; nth (i + 1) data 0; nth (i + 2) data 0; nth (i + 3) data 0].
Proof.
  revert i. induction data as [|b data IH]; intros i Hi; cbn [length] in Hi; [lia|]. destruct i as [|i].
  - destruct data as [|b1 [|b2 [|b3 data]]]; cbn [length] in Hi; try lia. reflexivity.
  - apply (IH i). lia.
Qed.

(** The rest of a list from [i], cut [n] further. *)
Ltac cut_at i n := rewrite (drop_slice _ i n); cbn [Nat.add].

(** Whatever 512 bytes the bootloader accepts are the encoding of the record it reads. *)
Lemma parse_canonical data r : Forall is_byte data -> parse data = Some r -> data = encode r /\ record_ok r.
Proof.
  intros Hb. unfold parse. case_bool_decide as Hlen; [|done]. case_bool_decide as Hm; [|done]. case_bool_decide as Hfmt; [|done]. cbn [andb negb].
  case_bool_decide as Hcrc; [|done]. cbn [negb].
  destruct (is_slot (nth 20 data 0)) eqn:Hs; [|done]. destruct ((nth 21 data 0 =? 0) || is_slot (nth 21 data 0)) eqn:Hf; [|done].
  destruct (Z.ldiff (nth 23 data 0) CONFIRMED =? 0) eqn:Hg; [|done]. cbn [negb orb].
  destruct (existsb _ _) eqn:Hz; [done|]. destruct (SEQUENCE_LAST <? of_le (slice data 12 8)) eqn:Hq; [done|]. intros [= <-].
  set (r := mkRecord _ _ _ _ _ _). rewrite record_len in *.
  assert (forall i, is_byte (nth i data 0)) as Hnth.
  { intros i. rewrite nth_lookup_default. destruct (data !! i) as [b|] eqn:Hi'; [by eapply Forall_lookup_1|done]. }
  assert (take (RECORD - 4) data = record_head r) as Hhead.
  { unfold record_head, r. cbn [sequence slot fallback tries confirmed floor]. rewrite record_len.
    rewrite <- (flag_values (nth 23 data 0)) by done. rewrite !(to_le_slice data) by (done || lia).
    pose proof (four_at data 20 ltac:(lia)) as H4. cbn [Nat.add] in H4. rewrite <- H4, <- Hfmt, <- Hm. apply forall_zero in Hz. rewrite slice_length in Hz by lia. rewrite <- Hz.
    change (take 8 data) with (slice data 0 8). change data with (drop 0 data) at 1. change (512 - 4)%nat with 508%nat. change (508 - 32)%nat with 476%nat.
    cut_at 0%nat 8%nat. cut_at 8%nat 4%nat. cut_at 12%nat 8%nat. cut_at 20%nat 4%nat. cut_at 24%nat 8%nat. cut_at 32%nat 476%nat.
    rewrite !app_assoc. rewrite take_app_length'; [by rewrite <- !app_assoc|]. rewrite !length_app, !slice_length by lia. reflexivity. }
  split.
  - unfold encode. rewrite <- Hhead, record_len. rewrite <- Hcrc. by rewrite take_drop.
  - apply Z.ltb_ge in Hq. split_and!; cbn; try done.
    + apply (of_le_bound (slice data 12 8)). by apply forall_slice.
    + apply orb_true_iff in Hf as [->%Z.eqb_eq|]; auto.
    + apply (of_le_bound (slice data 24 8)). by apply forall_slice.
    + pose proof (of_le_bound (slice data 24 8) (forall_slice _ _ _ _ Hb)) as H. rewrite slice_length in H by lia. exact (proj2 H).
Qed.

(** a boot record survives the disk, and a sector is read as a record only if it is its encoding: the
    bootloader reads [r] from a sector exactly when the sector holds the bytes written for [r], a record with slots,
    flags and a sequence in their ranges; no torn or foreign sector is taken for a record. *)
Theorem record_codec data r : Forall is_byte data -> (parse data = Some r <-> data = encode r /\ record_ok r).
Proof. intros Hb. split; [by apply parse_canonical|]. intros [-> Hr]. by apply parse_encode. Qed.

(** ** Histories of the two record files *)

(** What the bootloader reads of a file after [w] was written to it, and after a write was torn. *)
Definition set_file (rs : Records) (k : nat) (r : option Record_) : Records := if (k =? 0)%nat then (r, rs.2) else (rs.1, r).
Definition put (rs : Records) (w : nat * Record_) : Records := set_file rs w.1 (readable (Some w.2)).
Definition tear (rs : Records) (k : nat) : Records := set_file rs k None.

(** A write of the bootloader or of the updater: a try counted down, a confirmation, a staged update or rollback, a raised
    floor. A step of the records is one of them, done or torn, or a try counted down and, its slot failing to load, the
    record [spent] leaves after it, done or torn. *)
Inductive writes (rs : Records) : nat * Record_ -> Prop :=
| w_boot w : write (plan rs) = Some w -> writes rs w
| w_confirm running w : confirm rs running = Some w -> writes rs w
| w_trial running n w : trial_of_other rs running n = Some w -> writes rs w
| w_raise running minimum version w : raise rs running minimum version = Some w -> writes rs w.

Inductive record_step : Records -> Records -> Prop :=
| rs_write rs w : writes rs w -> record_step rs (put rs w)
| rs_torn rs w : writes rs w -> record_step rs (tear rs w.1)
| rs_spent rs w : write (plan rs) = Some w -> record_step rs (put (put rs w) (spent w))
| rs_spent_torn rs w : write (plan rs) = Some w -> record_step rs (tear (put rs w) (spent w).1).

(** Records as they are read. *)
Definition read_ok (rs : Records) : Prop := forall k r, file rs k = Some r -> sequence r <= SEQUENCE_LAST /\ 0 <= floor r.

Lemma readable_Some r r' : readable r = Some r' -> r = Some r' /\ sequence r' <= SEQUENCE_LAST.
Proof. unfold readable. destruct r as [r|]; [|done]. cbn. case_match; intros [= <-]. split; [done|lia]. Qed.

Lemma read_readable rs : read_ok rs -> readable rs.1 = rs.1 /\ readable rs.2 = rs.2.
Proof.
  intros H. split.
  - destruct rs.1 as [r|] eqn:E; [|done]. destruct (H 0%nat r E) as [Hr _]. cbn. by rewrite (proj2 (Z.leb_le _ _)).
  - destruct rs.2 as [r|] eqn:E; [|done]. destruct (H 1%nat r E) as [Hr _]. cbn. by rewrite (proj2 (Z.leb_le _ _)).
Qed.

(** The bootloader follows the newer record. *)
Lemma plan_newest rs : read_ok rs -> plan rs = match newest rs with Some (k, r) => follow k r | None => mkPlan None (SLOT_A, SLOT_B) false None 0 end.
Proof.
  intros Hok. destruct (read_readable rs Hok) as [H1 H2]. unfold plan. rewrite H1, H2. destruct rs as [[a|] [b|]]; cbn; try done. by case_match.
Qed.

Lemma follow_write k r : write (follow k r) = if confirmed r then None else if 0 <? tries r then Some (other_file k, with_tries r (tries r - 1)) else None.
Proof. unfold follow. destruct (confirmed r); [done|]. destruct (0 <? tries r); [done|]. by destruct (negb (_ =? 0)). Qed.

Lemma newest_file rs k r : newest rs = Some (k, r) -> file rs k = Some r /\ (k <= 1)%nat.
Proof. destruct rs as [[a|] [b|]]; cbn; [case_match|..]; intros [= <- <-]; cbn; auto. Qed.

Lemma newest_before rs k r r' : newest rs = Some (k, r) -> file rs (other_file k) = Some r' -> sequence r' <= sequence r.
Proof. destruct rs as [[a|] [b|]]; cbn; [case_match|..]; intros [= <- <-]; cbn; intros [= <-]; lia. Qed.

(** Every write goes to the file that does not count, one past the record that does, and keeps its floor. *)
Lemma next_spec rs r w : next rs r = Some w -> 0 <= floor r ->
  match newest rs with
  | Some (k, n) => w.1 = other_file k /\ sequence w.2 = sequence n + 1 /\ floor n <= floor w.2
  | None => w.1 = 0%nat /\ 0 <= floor w.2
  end.
Proof.
  unfold next, floor_of. destruct (newest rs) as [[k n]|]; (case_match; [|done]); intros [= <-] Hr; cbn; [|lia].
  split; [done|]. split; [done|lia].
Qed.

Lemma writes_spec rs w : read_ok rs -> writes rs w ->
  match newest rs with
  | Some (k, n) => w.1 = other_file k /\ sequence w.2 = sequence n + 1 /\ floor n <= floor w.2
  | None => w.1 = 0%nat /\ 0 <= floor w.2
  end.
Proof.
  intros Hok Hw. destruct Hw as [w Hw|running w Hw|running n w Hw|running minimum version w Hw].
  - rewrite plan_newest in Hw by done. destruct (newest rs) as [[k n]|]; [|done]. rewrite follow_write in Hw.
    destruct (confirmed n); [done|]. destruct (0 <? tries n); [|done]. injection Hw as <-. cbn. lia.
  - unfold confirm, mbind, option_bind in Hw. destruct (newest rs) as [[k n]|] eqn:E; [|done]. case_match; [done|].
    apply next_spec in Hw; [|done]. by rewrite E in Hw.
  - by apply next_spec in Hw.
  - unfold raise, mbind, option_bind in Hw. destruct (newest rs) as [[k n]|] eqn:E; [|done]. case_match eqn:Hc; [|done].
    apply next_spec in Hw; [by rewrite E in Hw|]. unfold floor_of in Hc. rewrite E in Hc. cbn.
    destruct (Hok k n) as [_ H0]; [by apply newest_file|lia].
Qed.

Lemma file_set rs k j r : (k <= 1)%nat -> (j <= 1)%nat -> file (set_file rs k r) j = if decide (j = k) then r else file rs j.
Proof. destruct k as [|[|k]], j as [|[|j]]; try lia; intros _ _; by destruct (decide _). Qed.

Lemma other_file_le k : (other_file k <= 1)%nat.
Proof. unfold other_file. lia. Qed.

(** What counts after the file that did not count changed. *)
Lemma newest_set rs k n r : newest rs = Some (k, n) ->
  newest (set_file rs (other_file k) r) = match r with Some r' => if (if (k =? 0)%nat then sequence n <? sequence r' else negb (sequence r' <? sequence n)) then Some (other_file k, r') else Some (k, n) | None => Some (k, n) end.
Proof.
  destruct rs as [[a|] [b|]]; cbn; [case_match|..]; intros [= <- <-]; destruct r as [r'|]; cbn; try done; by case_match.
Qed.

Lemma newest_put rs k n w : newest rs = Some (k, n) -> w.1 = other_file k -> sequence w.2 = sequence n + 1 ->
  newest (put rs w) = if sequence w.2 <=? SEQUENCE_LAST then Some (w.1, w.2) else Some (k, n).
Proof.
  intros Hn Hw Hs. unfold put. rewrite Hw, (newest_set _ _ _ _ Hn). unfold readable, mbind, option_bind. destruct (sequence w.2 <=? SEQUENCE_LAST); [|done].
  assert ((if (k =? 0)%nat then sequence n <? sequence w.2 else negb (sequence w.2 <? sequence n)) = true) as ->; [|done].
  case_match; [lia|]. apply negb_true_iff. lia.
Qed.

Lemma set_ok rs k r : read_ok rs -> (k <= 1)%nat -> (forall r', r = Some r' -> sequence r' <= SEQUENCE_LAST /\ 0 <= floor r') -> read_ok (set_file rs k r).
Proof.
  intros Hok Hk Hr j r'. destruct k as [|[|k]]; [| |lia]; destruct j as [|j]; cbn; intros H; auto;
    first [by apply (Hok 0%nat)|by apply (Hok 1%nat)|by apply (Hok (S j))].
Qed.

Lemma writes_file rs w : read_ok rs -> writes rs w -> (w.1 <= 1)%nat /\ 0 <= floor w.2.
Proof.
  intros Hok Hw. pose proof (writes_spec rs w Hok Hw) as H. destruct (newest rs) as [[k n]|] eqn:E.
  - destruct H as (-> & _ & H). split; [apply other_file_le|]. destruct (Hok k n) as [_ H0]; [by apply newest_file|lia].
  - destruct H as [-> H]. lia.
Qed.

Lemma record_put_ok rs w : read_ok rs -> (w.1 <= 1)%nat -> 0 <= floor w.2 -> read_ok (put rs w).
Proof.
  intros Hok H1 H2. apply set_ok; [done|done|]. intros r' [Heq H]%readable_Some. by simplify_eq.
Qed.

Lemma tear_ok rs k : read_ok rs -> (k <= 1)%nat -> read_ok (tear rs k).
Proof. intros Hok Hk. by apply set_ok. Qed.

Lemma plan_write rs w : read_ok rs -> write (plan rs) = Some w ->
  exists k n, newest rs = Some (k, n) /\ w = (other_file k, with_tries n (tries n - 1)) /\ confirmed n = false /\ 0 < tries n.
Proof.
  intros Hok. rewrite plan_newest by done. destruct (newest rs) as [[k n]|]; [|done]. rewrite follow_write.
  destruct (confirmed n) eqn:Hc; [done|]. destruct (Z.ltb_spec 0 (tries n)) as [Ht|Ht]; [|done]. intros [= <-]. eauto 6.
Qed.

Lemma other_other k : (k <= 1)%nat -> other_file (other_file k) = k.
Proof. unfold other_file. lia. Qed.

(** A write, done or torn, keeps the floor. *)
Lemma write_floor rs w : read_ok rs -> writes rs w -> floor_of rs <= floor_of (put rs w) /\ floor_of rs <= floor_of (tear rs w.1).
Proof.
  intros Hok Hw. pose proof (writes_spec rs w Hok Hw) as H. unfold floor_of. destruct (newest rs) as [[k n]|] eqn:E.
  - destruct H as (H1 & H2 & H3). rewrite (newest_put _ _ _ _ E H1 H2). split; [destruct (_ <=? _); lia|].
    unfold tear. rewrite H1, (newest_set _ _ _ _ E). cbn. lia.
  - destruct H as [H1 H2]. destruct rs as [[a|] [b|]]; cbn in E; [case_match|..]; try done. unfold put, tear, set_file. rewrite H1. cbn.
    destruct (_ <=? _); cbn; lia.
Qed.

(** After a trial's slot failed to load, its last record is the newest one. *)
Lemma newest_spent rs w k n : read_ok rs -> newest rs = Some (k, n) -> w = (other_file k, with_tries n (tries n - 1)) -> sequence w.2 < SEQUENCE_LAST ->
  newest (put (put rs w) (spent w)) = Some (k, (spent w).2).
Proof.
  intros Hok E -> Hs. destruct (newest_file _ _ _ E) as [_ Hk]. cbn [fst snd] in *.
  assert (newest (put rs (other_file k, with_tries n (tries n - 1))) = Some (other_file k, with_tries n (tries n - 1))) as E1.
  { rewrite (newest_put _ _ _ _ E) by done. cbn [fst snd]. by rewrite (proj2 (Z.leb_le _ _)) by lia. }
  rewrite (newest_put _ _ _ _ E1) by done. cbn [spent fst snd]. rewrite other_other by done.
  rewrite (proj2 (Z.leb_le _ _)); [done|]. cbn in *. lia.
Qed.

(** The sequence number the records have come to; a step takes it two on at most. *)
Definition last_sequence (rs : Records) : Z := match newest rs with Some (_, r) => sequence r | None => 0 end.
Lemma write_sequence rs w : read_ok rs -> writes rs w -> last_sequence (put rs w) <= last_sequence rs + 1 /\ last_sequence (tear rs w.1) = last_sequence rs.
Proof.
  intros Hok Hw. pose proof (writes_spec rs w Hok Hw) as H. unfold last_sequence. destruct (newest rs) as [[k n]|] eqn:E.
  - destruct H as (H1 & H2 & _). rewrite (newest_put _ _ _ _ E H1 H2). split; [destruct (_ <=? _); lia|]. unfold tear. by rewrite H1, (newest_set _ _ _ _ E).
  - assert (sequence w.2 = 1) as Hs.
    { destruct Hw as [w Hw|running w Hw|running n w Hw|running minimum version w Hw].
      - by rewrite plan_newest, E in Hw by done.
      - unfold confirm, mbind, option_bind in Hw. by rewrite E in Hw.
      - unfold trial_of_other, next in Hw. rewrite E in Hw. case_match; [|done]. by injection Hw as <-.
      - unfold raise, mbind, option_bind in Hw. by rewrite E in Hw. }
    destruct H as [H1 _]. destruct rs as [[a|] [b|]]; cbn in E; [case_match|..]; try done. unfold put, tear, set_file. rewrite H1. cbn. destruct (_ <=? _); cbn; lia.
Qed.

Lemma step_keeps rs rs' : record_step rs rs' -> read_ok rs -> last_sequence rs + 2 <= SEQUENCE_LAST ->
  read_ok rs' /\ floor_of rs <= floor_of rs' /\ last_sequence rs' <= last_sequence rs + 2.
Proof.
  destruct 1 as [rs w Hw|rs w Hw|rs w Hw|rs w Hw]; intros Hok Hl.
  - destruct (writes_file _ _ Hok Hw). split; [by apply record_put_ok|]. split; [by apply write_floor|]. destruct (write_sequence _ _ Hok Hw). lia.
  - destruct (writes_file _ _ Hok Hw). split; [by apply tear_ok|]. split; [by apply write_floor|]. destruct (write_sequence _ _ Hok Hw). lia.
  - destruct (plan_write _ _ Hok Hw) as (k & n & E & Heq & _). assert (sequence w.2 < SEQUENCE_LAST) as Hs by (subst w; unfold last_sequence in Hl; rewrite E in Hl; cbn; lia).
    pose proof (newest_spent _ _ _ _ Hok E Heq Hs) as H. destruct (newest_file _ _ _ E) as [Hf Hk].
    destruct (Hok _ _ Hf) as [_ H0]. subst w. split.
    + apply record_put_ok; [apply record_put_ok|..]; cbn; try done; [apply other_file_le|rewrite other_other; lia].
    + unfold floor_of, last_sequence. rewrite E, H. cbn. lia.
  - destruct (plan_write _ _ Hok Hw) as (k & n & E & -> & _). destruct (newest_file _ _ _ E) as [Hf Hk]. destruct (Hok _ _ Hf) as [_ H0].
    unfold last_sequence in *. rewrite E in Hl. set (w := (other_file k, with_tries n (tries n - 1))) in *.
    assert (newest (put rs w) = Some (other_file k, w.2)) as E1.
    { rewrite (newest_put _ _ _ _ E) by done. cbn. by rewrite (proj2 (Z.leb_le _ _)) by lia. }
    split; [apply tear_ok; [apply record_put_ok; [done|apply other_file_le|done]|apply other_file_le]|].
    unfold floor_of, tear. change (spent w).1 with (other_file (other_file k)). rewrite (newest_set _ _ _ _ E1), E. cbn. lia.
Qed.

Lemma steps_keep m rs rs' : nsteps record_step m rs rs' -> read_ok rs -> last_sequence rs + 2 * Z.of_nat m <= SEQUENCE_LAST -> read_ok rs' /\ floor_of rs <= floor_of rs'.
Proof.
  induction 1 as [rs|m rs rs1 rs2 H1 _ IH]; intros Hok Hl; [split; [done|lia]|]. destruct (step_keeps _ _ H1 Hok) as (H2 & H3 & H4); [lia|].
  destruct (IH H2) as [? ?]; [lia|]. split; [done|lia].
Qed.

Lemma plan_floor_of rs : read_ok rs -> plan_floor (plan rs) = floor_of rs.
Proof. intros Hr. rewrite plan_newest by done. unfold floor_of. destruct (newest rs) as [[k n]|]; [|done]. unfold follow. by repeat case_match; simplify_eq. Qed.

(** C32: the version floor never falls. Whatever [m] boots, failed trials, confirmations, staged updates, rollbacks and
    torn writes follow one another from records whose sequence is at least [2 * m] below the last one, the floor the
    bootloader holds a slot's manifest against is at least what it was. *)
Theorem floor_never_falls m rs rs' : read_ok rs -> nsteps record_step m rs rs' -> last_sequence rs + 2 * Z.of_nat m <= SEQUENCE_LAST ->
  plan_floor (plan rs) <= plan_floor (plan rs').
Proof. intros Hok Hs Hl. destruct (steps_keep _ _ _ Hs Hok Hl) as [Hok' Hf]. by rewrite !plan_floor_of. Qed.

(** a torn write is harmless: when a record is valid and power fails in the middle of a write of the bootloader or
    the updater, the bootloader then does just what it would have done before the write. *)
Theorem torn_write_harmless rs w : read_ok rs -> newest rs <> None -> writes rs w -> plan (tear rs w.1) = plan rs.
Proof.
  intros Hok Hn Hw. destruct (writes_file _ _ Hok Hw) as [Hk _]. pose proof (writes_spec rs w Hok Hw) as H.
  rewrite !plan_newest by (done || by apply tear_ok). destruct (newest rs) as [[k n]|] eqn:E; [|done].
  destruct H as (-> & _). unfold tear. by rewrite (newest_set _ _ _ _ E).
Qed.

(** A boot of the bootloader: the write its plan asks for. *)
Definition boot (rs : Records) : Records := match write (plan rs) with Some w => put rs w | None => rs end.

Lemma boot_newest rs k n : read_ok rs -> newest rs = Some (k, n) -> confirmed n = false -> 0 < tries n -> sequence n < SEQUENCE_LAST ->
  newest (boot rs) = Some (other_file k, with_tries n (tries n - 1)) /\ read_ok (boot rs).
Proof.
  intros Hok E Hc Ht Hs. destruct (newest_file _ _ _ E) as [Hf Hk]. destruct (Hok _ _ Hf) as [_ H0].
  assert (write (plan rs) = Some (other_file k, with_tries n (tries n - 1))) as Hw.
  { rewrite plan_newest, E by done. unfold follow. by rewrite Hc, (proj2 (Z.ltb_lt _ _)). }
  unfold boot. rewrite Hw. split; [|apply record_put_ok; [done|apply other_file_le|done]].
  rewrite (newest_put _ _ _ _ E) by done. cbn. by rewrite (proj2 (Z.leb_le _ _)) by lia.
Qed.

(** C33: a trial ends. A slot on trial with [tries] left, whose fallback is the other slot and whose sequence is at least
    that far below the last one, boots on trial exactly that often; the boot after that goes to the fallback, and stays
    there. *)
Theorem trial_ends rs k n : read_ok rs -> newest rs = Some (k, n) -> confirmed n = false -> 0 <= tries n -> fallback n <> slot n -> fallback n <> 0 ->
  sequence n + tries n <= SEQUENCE_LAST ->
  (forall i, (i < Z.to_nat (tries n))%nat -> trial (plan (Nat.iter i boot rs)) = true /\ (order (plan (Nat.iter i boot rs))).1 = slot n) /\
  (forall i, (Z.to_nat (tries n) <= i)%nat -> trial (plan (Nat.iter i boot rs)) = false /\ order (plan (Nat.iter i boot rs)) = (fallback n, 0)).
Proof.
  intros Hok E Hc Ht Hf Hf0 Hs.
  assert (forall i, (i <= Z.to_nat (tries n))%nat -> read_ok (Nat.iter i boot rs) /\ exists k', newest (Nat.iter i boot rs) =
    Some (k', mkRecord (sequence n + Z.of_nat i) (slot n) (fallback n) (tries n - Z.of_nat i) false (floor n))) as Hi.
  { induction i as [|i IH]; intros Hle.
    - split; [done|]. exists k. change (Nat.iter 0 boot rs) with rs. rewrite E, <- Hc, Z.add_0_r, Z.sub_0_r. by destruct n.
    - destruct (IH ltac:(lia)) as [H1 [k' H2]]. destruct (boot_newest _ _ _ H1 H2) as [H3 H4]; [done|cbn; lia|cbn; lia|].
      change (Nat.iter (S i) boot rs) with (boot (Nat.iter i boot rs)).
      split; [done|]. exists (other_file k'). rewrite H3. unfold with_tries. cbn. do 3 f_equal; lia. }
  split.
  - intros i Hlt. destruct (Hi i ltac:(lia)) as [H1 [k' H2]]. rewrite plan_newest, H2 by done. unfold follow. cbn.
    by rewrite (proj2 (Z.ltb_lt _ _)) by lia.
  - assert (forall m k', read_ok m -> newest m = Some (k', mkRecord (sequence n + tries n) (slot n) (fallback n) 0 false (floor n)) ->
      plan m = mkPlan (Some k') (fallback n, 0) false None (floor n)) as Hend.
    { intros m k' H1 H2. rewrite plan_newest, H2 by done. unfold follow. cbn. rewrite (proj2 (Z.eqb_neq _ _) Hf). cbn. by rewrite (proj2 (Z.eqb_neq _ _) Hf0). }
    destruct (Hi (Z.to_nat (tries n)) ltac:(lia)) as [H1 [k' H2]]. rewrite Z2Nat.id, Z.sub_diag in H2 by done.
    assert (forall j, Nat.iter (j + Z.to_nat (tries n)) boot rs = Nat.iter (Z.to_nat (tries n)) boot rs) as Hstay.
    { induction j as [|j IH]; [done|]. cbn [Nat.add]. change (Nat.iter (S ?a) boot rs) with (boot (Nat.iter a boot rs)). rewrite IH. unfold boot at 1. by rewrite (Hend _ _ H1 H2). }
    intros i Hle. replace i with (i - Z.to_nat (tries n) + Z.to_nat (tries n))%nat by lia. by rewrite Hstay, (Hend _ _ H1 H2).
Qed.

(** A manifest is read by its header: the first [version] line before any [file] line names the version, whatever the
    file's lines say. *)
Lemma version_line_header h v rest :
  Forall (fun l => starts_with FILE_ l = false /\ starts_with VERSION_ l = false) h -> version_line (h ++ (VERSION_ ++ v) :: rest) = Some (VERSION_ ++ v).
Proof.
  induction 1 as [|l h [Hf Hv] _ IH]; cbn [app version_line].
  - unfold starts_with. by rewrite (bool_decide_eq_false_2 (take _ _ = FILE_)), (bool_decide_eq_true_2 (take _ _ = VERSION_)).
  - by rewrite Hf, Hv.
Qed.

Lemma manifest_version_header h v rest : 0 <= v < W64 ->
  Forall (fun l => starts_with FILE_ l = false /\ starts_with VERSION_ l = false) h -> Forall (fun l => 10 ∉ l) (h ++ rest) ->
  manifest_version (join_with 10 (h ++ (VERSION_ ++ decimal 20 v) :: rest)) = v.
Proof.
  intros Hv Hh Hn. apply Forall_app in Hn as [Hn1 Hn2]. unfold manifest_version. rewrite split_join.
  - rewrite version_line_header by done. cbn [mbind option_bind]. change (drop 8 (VERSION_ ++ decimal 20 v)) with (decimal 20 v).
    assert (forall d, Forall (fun b => is_digit b = true) d -> utf8 d = Some d) as Hu.
    { induction 1 as [|b d Hb _ IH]; [done|]. cbn [utf8]. unfold is_digit, between in *. rewrite IH. by replace ((0 <=? b) && (b <=? 127)) with true by lia. }
    rewrite Hu by (apply decimal_digits; lia). cbn [mbind option_bind]. rewrite parse_decimal; [done|lia|lia|unfold W64 in Hv; lia].
  - by destruct h.
  - apply Forall_app. split; [done|]. constructor; [|done]. rewrite elem_of_app. intros [H|H].
    + repeat (apply elem_of_cons in H as [H|H]; [done|]). by apply elem_of_nil in H.
    + pose proof (proj1 (Forall_forall _ _) (decimal_digits 20 v ltac:(lia)) _ H) as Hd. by cbn in Hd.
Qed.

(** ** The loader's mark ([bootloader/src/mark.rs]) *)
Module Mark.

Definition LEN : nat := 48.
Definition TAG : bytes := [77; 73; 78; 68; 45; 82; 69; 65; 67; 72; 69; 68].
Definition FORMAT1 : bytes := [49].
Definition W_STARTED : bytes := [83; 84; 65; 82; 84; 69; 68].
Definition W_READ : bytes := [82; 69; 65; 68].
Definition W_HANDOVER : bytes := [72; 65; 78; 68; 79; 86; 69; 82].

Inductive Stage : Type := Started | Read | Handover.
Definition stage_name (s : Stage) : bytes := match s with Started => W_STARTED | Read => W_READ | Handover => W_HANDOVER end.

(** [count]. *)
Definition count (data : bytes) : option Z :=
  line ← head (split_on 10 data);
  _ ← utf8 line;
  match words line with
  | tag :: format :: digits :: w :: rest =>
      if bool_decide (tag = TAG) && bool_decide (format = FORMAT1) && forallb is_digit digits then
        n ← parse_uint W32 digits;
        if (bool_decide (w = W_STARTED) || bool_decide (w = W_READ) || bool_decide (w = W_HANDOVER)) && bool_decide (rest = []) then Some n else None
      else None
  | _ => None
  end.

(** [next]. *)
Definition next_count (last : option Z) : Z := let n := default 0 last in if n + 1 <? W32 then n + 1 else 1.

(** [encode]: the closure [put], the digits from the last one, the whole mark. *)
Definition put_byte (st : bytes * nat) (b : Z) : bytes * nat := if (st.2 <? LEN - 1)%nat then (<[st.2 := b]> st.1, S st.2) else st.
Definition put_text (st : bytes * nat) (bs : bytes) : bytes * nat := foldl put_byte st bs.
Fixpoint digit_loop (fuel : nat) (v : Z) (acc : bytes) : bytes :=
  match fuel with
  | O => acc
  | S fuel => let acc := (48 + v mod 10) :: acc in if v / 10 =? 0 then acc else digit_loop fuel (v / 10) acc
  end.
Definition encode_mark (n : Z) (s : Stage) : bytes :=
  let st := (<[(LEN - 1)%nat := 10]> (replicate LEN 32), 0%nat) in
  (put_text (put_text (put_text (put_text (put_text (put_text (put_text st TAG) [32]) FORMAT1) [32]) (digit_loop 10 n [])) [32]) (stage_name s)).1.

Lemma digit_loop_decimal fuel v acc : digit_loop fuel v acc = decimal fuel v ++ acc.
Proof.
  revert v acc. induction fuel as [|fuel IH]; intros v acc; [done|]. cbn [digit_loop decimal]. rewrite <- app_assoc. case_match; [done|]. by rewrite IH.
Qed.

(** What was put so far, spaces after it and the newline. *)
Definition padded (bs : bytes) : bytes * nat := (bs ++ replicate (LEN - 1 - length bs) 32 ++ [10], length bs).

Lemma put_byte_padded bs b : (length bs < LEN - 1)%nat -> put_byte (padded bs) b = padded (bs ++ [b]).
Proof.
  intros Hl. unfold put_byte, padded. cbn [fst snd]. rewrite (proj2 (Nat.ltb_lt _ _)) by done. f_equal; [|rewrite length_app; cbn; lia].
  replace (LEN - 1 - length bs)%nat with (S (LEN - 1 - length (bs ++ [b]))) by (rewrite length_app; cbn [length]; lia).
  rewrite insert_app_r_alt, Nat.sub_diag by lia. cbn [replicate app]. by rewrite <- app_assoc.
Qed.

Lemma put_padded bs cs : (length bs + length cs <= LEN - 1)%nat -> put_text (padded bs) cs = padded (bs ++ cs).
Proof.
  revert bs. induction cs as [|c cs IH]; intros bs Hl; [by rewrite app_nil_r|]. cbn [length] in Hl. unfold put_text. cbn [foldl].
  rewrite put_byte_padded by lia. fold (put_text (padded (bs ++ [c])) cs). rewrite IH by (rewrite length_app; cbn [length]; lia). by rewrite <- app_assoc.
Qed.

Definition mark_text (n : Z) (s : Stage) : bytes := TAG ++ [32] ++ FORMAT1 ++ [32] ++ decimal 10 n ++ [32] ++ stage_name s.

Lemma mark_text_length n s : (length (mark_text n s) <= 34)%nat.
Proof. unfold mark_text. rewrite !length_app. pose proof (decimal_length 10 n). destruct s; cbn [length TAG FORMAT1 stage_name W_STARTED W_READ W_HANDOVER]; lia. Qed.

Lemma encode_mark_text n s : encode_mark n s = mark_text n s ++ replicate (LEN - 1 - length (mark_text n s)) 32 ++ [10].
Proof.
  unfold encode_mark. rewrite digit_loop_decimal, app_nil_r. change (<[(LEN - 1)%nat:=10]> (replicate LEN 32), 0%nat) with (padded []).
  pose proof (decimal_length 10 n) as Hd.
  rewrite !put_padded; unfold LEN; rewrite ?length_app; cbn [length app TAG FORMAT1]; try lia;
    [|destruct s; cbn [stage_name W_STARTED W_READ W_HANDOVER length]; lia].
  rewrite <- !app_assoc. reflexivity.
Qed.

Definition plain (b : Z) : Prop := 33 <= b < 127.
Lemma plain_space b : plain b -> is_ascii_space b = false.
Proof. unfold plain, is_ascii_space, between. lia. Qed.
Lemma plain_list l : Forall plain l -> Forall (fun b => is_ascii_space b = false) l.
Proof. intros H. eapply Forall_impl; [exact H|apply plain_space]. Qed.

Lemma ascii_utf8 l : Forall (fun b => 0 <= b < 128) l -> utf8 l = Some l.
Proof. induction 1 as [|b l Hb _ IH]; [done|]. cbn [utf8]. unfold between. rewrite IH. by replace ((0 <=? b) && (b <=? 127)) with true by lia. Qed.

Lemma decimal_plain k n : 0 <= n -> Forall plain (decimal k n).
Proof. intros Hn. eapply Forall_impl; [by apply decimal_digits|]. intros b. unfold is_digit, between, plain. lia. Qed.

Lemma name_plain s : Forall plain (stage_name s).
Proof. destruct s; repeat constructor; unfold plain; lia. Qed.

(** The mark tells the count of the boot it was written for, at every stage, in its fixed size. *)
Theorem mark_roundtrip n s : 0 <= n < W32 -> length (encode_mark n s) = LEN /\ count (encode_mark n s) = Some n.
Proof.
  intros Hn. rewrite encode_mark_text. pose proof (mark_text_length n s) as Hl. set (k := (LEN - 1 - length (mark_text n s))%nat).
  split; [rewrite !length_app, length_replicate; unfold k, LEN in *; cbn [length]; lia|].
  assert (0 < k)%nat as Hk by (unfold k, LEN; lia). clearbody k.
  assert (Forall (fun b => 32 <= b < 127) (mark_text n s ++ replicate k 32)) as Hp.
  { unfold mark_text. rewrite !Forall_app. split_and!; try (by repeat constructor; lia).
    - eapply Forall_impl; [apply decimal_plain; lia|]. unfold plain. lia.
    - eapply Forall_impl; [apply name_plain|]. unfold plain. lia.
    - apply Forall_replicate. lia. }
  assert (split_on 10 (mark_text n s ++ replicate k 32 ++ [10]) = [mark_text n s ++ replicate k 32; []]) as Hs.
  { rewrite app_assoc. change (?x ++ [10]) with (join_with 10 [x; []]). apply split_join; [done|]. repeat constructor; [|apply not_elem_of_nil].
    intros H. eapply Forall_forall in Hp; [|exact H]. lia. }
  unfold count. rewrite Hs. cbn [head hd_error mbind option_bind]. rewrite ascii_utf8 by (eapply Forall_impl; [exact Hp|]; intros b Hb; cbn in Hb; lia).
  cbn [mbind option_bind]. assert (words (mark_text n s ++ replicate k 32) = [TAG; FORMAT1; decimal 10 n; stage_name s]) as ->.
  { unfold mark_text. rewrite <- !app_assoc. cbn [app].
    rewrite (words_cons TAG), (words_cons FORMAT1), (words_cons (decimal 10 n)); try done; try (by apply decimal_nonempty; lia);
      try (apply plain_list; first [apply decimal_plain; lia|repeat constructor; unfold plain; lia]).
    do 3 f_equal. destruct k as [|k]; [lia|]. cbn [replicate].
    rewrite (words_cons (stage_name s)); [|by destruct s|apply plain_list, name_plain|done]. rewrite <- (app_nil_r (replicate k 32)). by rewrite words_spaces. }
  rewrite !bool_decide_eq_true_2 by done. cbn [andb].
  rewrite (proj2 (forallb_forall is_digit (decimal 10 n)))
    by (intros b Hb; apply (proj1 (Forall_forall _ _) (decimal_digits 10 n ltac:(lia))); by apply list_elem_of_In).
  rewrite parse_decimal by (unfold W32 in *; lia). cbn [mbind option_bind]. by destruct s.
Qed.

Lemma mark_roundtrip_witness : length (encode_mark 4294967295 Handover) = LEN /\ count (encode_mark 4294967295 Handover) = Some 4294967295.
Proof. apply mark_roundtrip. unfold W32. lia. Defined.

(** The next boot's count is never 0 and fits its field. *)
Lemma next_count_range last : (forall n, last = Some n -> 0 <= n < W32) -> 1 <= next_count last < W32.
Proof. intros H. unfold next_count. destruct last as [n|]; cbn; [specialize (H n eq_refl)|]; unfold W32 in *; repeat case_match; lia. Qed.
End Mark.

(** ** The theorems at concrete records *)
Definition demo_record : Record_ := mkRecord 7 SLOT_B SLOT_A 2 false 5.
Definition demo_old : Record_ := mkRecord 6 SLOT_A 0 0 true 5.
Definition demo_records : Records := (Some demo_record, Some demo_old).

Lemma demo_records_ok : read_ok demo_records.
Proof. intros [|k] r H; cbn in H; injection H as <-; cbn; unfold SEQUENCE_LAST, U64_LAST, W64; lia. Qed.

Lemma record_codec_witness : parse (encode demo_record) = Some demo_record.
Proof.
  assert (record_ok demo_record) as Hr by (unfold record_ok, is_byte, SEQUENCE_LAST, U64_LAST, W64; cbn; split_and!; try lia; auto).
  apply record_codec; [|by split]. unfold encode. apply Forall_app_2; [by apply head_bytes|apply to_le_bytes].
Defined.

Definition demo_write : nat * Record_ := (1%nat, mkRecord 8 SLOT_B SLOT_A 1 false 5).
Definition demo_after : Records := (Some demo_record, Some (mkRecord 8 SLOT_B SLOT_A 1 false 5)).

Lemma floor_never_falls_witness : nsteps record_step 1 demo_records demo_after /\ plan_floor (plan demo_records) <= plan_floor (plan demo_after).
Proof.
  assert (nsteps record_step 1 demo_records demo_after) as H.
  { apply nsteps_once. change demo_after with (put demo_records demo_write). apply rs_write. by apply w_boot. }
  split; [exact H|]. apply (floor_never_falls 1); [exact demo_records_ok|exact H|]. cbn. unfold SEQUENCE_LAST, U64_LAST, W64. lia.
Defined.

(** The last sequence number the updater writes leaves room for two more, and a trial of three tries may need four: after
    two boots the third try cannot be counted, so the trial boots for ever; and when its slot then fails to load, both
    records of the bootloader are beyond the last sequence, and the floor is gone. *)
Definition late : Records := (Some (mkRecord (SEQUENCE_LAST - 3) SLOT_A 0 0 true 5), None).
Definition late_trial : Records := default late (put late <$> trial_of_other late SLOT_A 3).
Lemma trial_at_the_end : writes late (1%nat, mkRecord (SEQUENCE_LAST - 2) SLOT_B SLOT_A 3 false 5) /\
  forall i, (2 <= i)%nat -> trial (plan (Nat.iter i boot late_trial)) = true /\ (order (plan (Nat.iter i boot late_trial))).1 = SLOT_B.
Proof.
  split; [by apply (w_trial late SLOT_A 3)|]. assert (boot (Nat.iter 3 boot late_trial) = Nat.iter 3 boot late_trial) as Hfix by (vm_compute; reflexivity).
  assert (forall j, Nat.iter (j + 3) boot late_trial = Nat.iter 3 boot late_trial) as Hstay.
  { induction j as [|j IH]; [done|]. cbn [Nat.add]. change (Nat.iter (S ?a) boot late_trial) with (boot (Nat.iter a boot late_trial)). by rewrite IH. }
  intros i Hi. destruct (decide (i = 2%nat)) as [->|]; [vm_compute; auto|]. replace i with (i - 3 + 3)%nat by lia. rewrite Hstay. vm_compute. auto.
Qed.
Lemma floor_lost_at_the_end : exists rs, record_step (Nat.iter 2 boot late_trial) rs /\ plan_floor (plan late_trial) = 5 /\ plan_floor (plan rs) = 0.
Proof.
  eexists. split; [eapply rs_spent; vm_compute; reflexivity|]. split; vm_compute; reflexivity.
Qed.

Lemma torn_write_harmless_witness : plan (tear demo_records 1) = plan demo_records.
Proof. apply (torn_write_harmless demo_records demo_write); [exact demo_records_ok|done|by apply w_boot]. Defined.

Lemma trial_ends_witness : order (plan (Nat.iter 1 boot demo_records)) = (SLOT_B, SLOT_A) /\ order (plan (Nat.iter 5 boot demo_records)) = (SLOT_A, 0).
Proof.
  split; [reflexivity|].
  apply (trial_ends demo_records 0 demo_record); [exact demo_records_ok|reflexivity|reflexivity|cbn; lia|done|done|cbn; unfold SEQUENCE_LAST, U64_LAST, W64; lia|cbn; lia].
Defined.
