(* ===== verification/Elf.v ===== *)
(** * The program loader ([kernel/src/elf.rs], [bootloader/src/elf_reloc.rs])

    Static PIE images for x86-64: [parse] checks a file's headers and measures its image, [load] copies the segments into
    the task's memory and applies its RELATIVE relocations. The files come from outside, so every read is one that can
    panic here; the theorems: no file and no destination makes [parse] or [load] panic; what is loaded is, byte for byte,
    what the segments and the relocation table say, and the entry point lies in an executable segment of it. *)
From S2P Require Import Prelude Abi Outcome.

Inductive ElfError : Type :=
| RangeOverflow | RangeOutOfBounds | ExpectedPie | InvalidSegment | SegmentOverflow | InterpreterOrTls | NoLoadSegments
| InvalidImage | StackAbove | DestinationTooSmall | AddressBelowBase | EntryOverflow
| RelocBelowImage | RelocOverflow | RelocOutside | DynamicSize | SharedLibraries | UnsupportedTable | Unterminated | RelaEntrySize
| NotRelative | OverwritesTable.

Abbreviation Out := (outcome ElfError).

Definition PT_LOAD : Z := 1.
Definition PT_DYNAMIC : Z := 2.
Definition PT_GNU_STACK : Z := 0x6474e551.
Definition MACHINE : Z := 62.
Definition ELF_MAGIC : bytes := [127; 69; 76; 70; 2; 1; 1].
Definition IMAGE_MAX : Z := 8 * 1024 * 1024.

Definition u16_at (d : bytes) (at_ : Z) : Out Z := le_at 2 d at_.
Definition u32_at (d : bytes) (at_ : Z) : Out Z := le_at 4 d at_.
Definition word (d : bytes) (at_ : Z) : Out Z := le_at 8 d at_.
Definition len {A} (l : list A) : Z := Z.of_nat (length l).

(** [range]: [start..end] within [limit]. *)
Definition range (start n limit : Z) : Out (Z * Z) :=
  e ← or_refuse (checked_add start n) RangeOverflow;
  if limit <? e then Refuse RangeOutOfBounds else Done (start, e).

(** [chunks_exact(k)] and [(from..to).step_by(k)]. *)
Definition chunks_exact (k : nat) (l : bytes) : list bytes := map (fun i => slice l (i * k) k) (seq 0 (length l / k)).
Definition step_by (from to k : Z) : list Z := map (fun i => from + Z.of_nat i * k) (seq 0 (Z.to_nat ((to - from + k - 1) / k))).

Definition is_power_of_two (a : Z) : bool := (0 <? a) && (a &&& (a - 1) =? 0).

Record Image : Type := mkImage { data : bytes; headers : bytes; min : Z; size : Z; stack : Z; entry : Z }.

(** ** [Image::parse] *)
Record Scan : Type := mkScan { s_min : Z; s_max : Z; s_executable : bool; s_dynamic : Z; s_stack : Z }.

Definition scan (file : bytes) (ent : Z) (s : Scan) (p : bytes) : Out Scan :=
  kind ← u32_at p 0;
  if kind =? PT_LOAD then
    offset ← word p 8; address ← word p 16; filesz ← word p 32; memsz ← word p 40; align ← word p 48;
    if (memsz <? filesz) || ((1 <? align) && (negb (is_power_of_two align) || (4096 <? align) || negb (address mod align =? offset mod align)))
    then Refuse InvalidSegment else
    _ ← range offset filesz (len file);
    e ← or_refuse (checked_add address memsz) SegmentOverflow;
    flags ← u32_at p 4;
    Done (mkScan (if memsz =? 0 then s_min s else Z.min (s_min s) (Z.ldiff address 4095)) (if memsz =? 0 then s_max s else Z.max (s_max s) e)
                 (s_executable s || (negb (flags &&& 1 =? 0) && (address <=? ent) && (ent <? e))) (s_dynamic s) (s_stack s))
  else if kind =? PT_DYNAMIC then Done (mkScan (s_min s) (s_max s) (s_executable s) (s_dynamic s + 1) (s_stack s))
  else if kind =? PT_GNU_STACK then (w ← word p 40; Done (mkScan (s_min s) (s_max s) (s_executable s) (s_dynamic s) w))
  else if (kind =? 3) || (kind =? 7) then Refuse InterpreterOrTls
  else Done s.

Definition parse (file : bytes) : Out Image :=
  if (length file <? 64)%nat then Refuse ExpectedPie else
  kind ← u16_at file 16; machine ← u16_at file 18; version ← u32_at file 20; ehsize ← u16_at file 52; phsize ← u16_at file 54;
  if negb (bool_decide (take 7 file = ELF_MAGIC)) || negb (kind =? 3) || negb (machine =? MACHINE) || negb (version =? 1) || negb (ehsize =? 64) || negb (phsize =? 56)
  then Refuse ExpectedPie else
  phoff ← word file 32; phnum ← u16_at file 56;
  '(a, b) ← range phoff (phnum * 56) (len file);
  hs ← range_of file a b;
  ent ← word file 24;
  s ← fold_out (scan file ent) (mkScan (W64 - 1) 0 false 0 0) (chunks_exact 56 hs);
  sz ← or_refuse (checked_sub (s_max s) (s_min s)) NoLoadSegments;
  if (sz =? 0) || (IMAGE_MAX <? sz) || negb (s_executable s) || (1 <? s_dynamic s) then Refuse InvalidImage else
  if STACK_MAX_BYTES <? s_stack s then Refuse StackAbove else
  Done (mkImage file hs (s_min s) sz (Z.max (next_multiple_of (s_stack s) 4096) STACK_MIN_BYTES) ent).

(** [Image::segments]: place, size and flags of each mapped segment; it refuses nothing. *)
Definition segment (img : Image) (p : bytes) : outcome Empty_set (Z * Z * Z) :=
  address ← le_at 8 p 16; memsz ← le_at 8 p 40; flags ← le_at 4 p 4;
  off ← or_crash (checked_sub address (min img));
  Done (off, memsz, flags).
Definition segments (img : Image) : outcome Empty_set (list (Z * Z * Z)) :=
  fold_out (fun acc p => kind ← le_at 4 p 0; memsz ← le_at 8 p 40;
    if (kind =? PT_LOAD) && negb (memsz =? 0) then (s ← segment img p; Done (acc ++ [s])) else Done acc) [] (chunks_exact 56 (headers img)).

(** ** Relocation ([elf_reloc::apply]) *)
Definition RELATIVE : Z := 8.

Definition reloc_range (image_len min_vaddr address n : Z) : Out (Z * Z) :=
  start ← or_refuse (checked_sub address min_vaddr) RelocBelowImage;
  e ← or_refuse (checked_add start n) RelocOverflow;
  if image_len <? e then Refuse RelocOutside else Done (start, e).

Record Dynamic : Type := mkDynamic { rela_addr : Z; rela_size : Z; rela_entry_size : Z; terminated : bool }.

Fixpoint dynamic_loop (image : bytes) (d : Dynamic) (offsets : list Z) : Out Dynamic :=
  match offsets with
  | [] => Done d
  | offset :: rest =>
      tag ← word image offset; value ← word image (offset + 8);
      if tag =? 0 then Done (mkDynamic (rela_addr d) (rela_size d) (rela_entry_size d) true)
      else if tag =? 1 then Refuse SharedLibraries
      else if tag =? 7 then dynamic_loop image (mkDynamic value (rela_size d) (rela_entry_size d) (terminated d)) rest
      else if tag =? 8 then dynamic_loop image (mkDynamic (rela_addr d) value (rela_entry_size d) (terminated d)) rest
      else if tag =? 9 then dynamic_loop image (mkDynamic (rela_addr d) (rela_size d) value (terminated d)) rest
      else if ((tag =? 17) || (tag =? 18) || (tag =? 23) || (tag =? 35) || (tag =? 36)) && negb (value =? 0) then Refuse UnsupportedTable
      else dynamic_loop image d rest
  end.

(** One entry of the relocation table [from..to]. *)
Definition relocate (min_vaddr bias from to : Z) (image : bytes) (offset : Z) : Out bytes :=
  target ← word image offset; info ← word image (offset + 8); addend ← word image (offset + 16);
  if info =? 0 then Done image else
  if negb (info =? RELATIVE) then Refuse NotRelative else
  '(a, b) ← reloc_range (len image) min_vaddr target 8;
  if (a <? to) && (from <? b) then Refuse OverwritesTable else
  copy_at image a b (to_le 8 (wrap64 (bias + addend))).

Definition apply_relocs (image : bytes) (min_vaddr load_addr dynamic_addr dynamic_size : Z) : Out bytes :=
  '(a, b) ← reloc_range (len image) min_vaddr dynamic_addr dynamic_size;
  if negb (dynamic_size mod 16 =? 0) then Refuse DynamicSize else
  d ← dynamic_loop image (mkDynamic 0 0 0 false) (step_by a b 16);
  if negb (terminated d) then Refuse Unterminated else
  if rela_size d =? 0 then Done image else
  if negb (rela_entry_size d =? 24) || negb (rela_size d mod 24 =? 0) then Refuse RelaEntrySize else
  '(from, to) ← reloc_range (len image) min_vaddr (rela_addr d) (rela_size d);
  fold_out (relocate min_vaddr (wrap64 (load_addr - min_vaddr)) from to) image (step_by from to 24).

(** ** [Image::load] *)
Definition load_segment (img : Image) (memory : bytes) (p : bytes) : Out bytes :=
  kind ← u32_at p 0;
  if negb (kind =? PT_LOAD) then Done memory else
  address ← word p 16;
  dest ← or_refuse (checked_sub address (min img)) AddressBelowBase;
  filesz ← word p 32;
  '(a, b) ← range dest filesz (len memory);
  offset ← word p 8;
  '(from, to) ← range offset filesz (len (data img));
  src ← range_of (data img) from to;
  copy_at memory a b src.

Definition load_dynamic (img : Image) (base : Z) (memory : bytes) (p : bytes) : Out bytes :=
  kind ← u32_at p 0;
  if negb (kind =? PT_DYNAMIC) then Done memory else
  address ← word p 16; filesz ← word p 32;
  apply_relocs memory (min img) base address filesz.

Definition load (img : Image) (memory : bytes) (base : Z) : Out (bytes * Z) :=
  if len memory <? size img then Refuse DestinationTooSmall else
  let memory := replicate (length memory) 0 in
  memory ← fold_out (load_segment img) memory (chunks_exact 56 (headers img));
  memory ← fold_out (load_dynamic img base) memory (chunks_exact 56 (headers img));
  off ← or_crash (checked_sub (entry img) (min img));
  e ← or_refuse (checked_add base off) EntryOverflow;
  Done (memory, e).

(** ** Program headers *)
Lemma chunk_length k l p : (0 < k)%nat -> p ∈ chunks_exact k l -> length p = k.
Proof.
  intros Hk [i [-> Hi]]%list_elem_of_fmap. apply elem_of_seq in Hi. apply slice_length.
  pose proof (Nat.div_mod_eq (length l) k). assert (i + 1 <= length l / k)%nat as H1 by lia. pose proof (Nat.mul_le_mono_l _ _ k H1). lia.
Qed.

Lemma step_by_elem from to k x : 0 < k -> from <= to -> (to - from) mod k = 0 -> x ∈ step_by from to k -> from <= x /\ x + k <= to.
Proof.
  intros Hk Hle Hm [i [-> Hi]]%list_elem_of_fmap. apply elem_of_seq in Hi. apply Z.div_exact in Hm; [|lia]. set (q := (to - from) / k) in *.
  assert ((to - from + k - 1) / k = q) as Hq.
  { rewrite Hm. replace (k * q + k - 1) with (q * k + (k - 1)) by lia. rewrite Z.div_add_l, (Z.div_small (k - 1)) by lia. lia. }
  rewrite Hq in Hi. assert (Z.of_nat i + 1 <= q) as H1 by lia. nia.
Qed.

Lemma range_safe a n l : safe (range a n l).
Proof. unfold range. apply safe_bind; [auto with mind|]. intros e _. by case_match. Qed.

Lemma range_done a n l x y : 0 <= a -> 0 <= n -> range a n l = Done (x, y) -> x = a /\ y = a + n /\ a + n <= l /\ a + n < W64.
Proof.
  intros Ha Hn H. unfold range in H. done_inv H. apply or_refuse_done, checked_add_Some in Hv. injection H as <- <-. lia.
Qed.

Lemma reloc_range_safe l m a n : safe (reloc_range l m a n).
Proof. unfold reloc_range. apply safe_bind; [auto with mind|]. intros x _. apply safe_bind; [auto with mind|]. intros e _. by case_match. Qed.

Lemma reloc_range_done l m a n x y : 0 <= n -> reloc_range l m a n = Done (x, y) -> x = a - m /\ 0 <= x /\ y = x + n /\ y <= l.
Proof.
  intros Hn H. unfold reloc_range in H. done_inv H. apply or_refuse_done in Hv. unfold checked_sub in Hv. case_match; [|done]. simplify_eq.
  apply or_refuse_done, checked_add_Some in Hv0. lia.
Qed.

(** Reads of a header that has its 56 bytes, and of a file's fixed part. *)
Ltac safe_read := apply safe_bind; [apply le_at_safe; lia|]; intros ? ?.

Lemma scan_safe file ent s p : length p = 56%nat -> safe (scan file ent s p).
Proof.
  intros Hp. unfold scan. safe_read. case_match; [|repeat (case_match; try done); safe_read; done].
  do 5 safe_read. case_match; [done|]. apply safe_bind; [apply range_safe|]. intros _ _. apply safe_bind; [auto with mind|]. intros e _. by safe_read.
Qed.

Lemma parse_safe file : Forall is_byte file -> safe (parse file).
Proof.
  intros Hb. unfold parse. case_match eqn:Hl; [done|]. apply Nat.ltb_ge in Hl.
  do 5 safe_read. case_match; [done|]. do 2 safe_read. apply safe_bind; [apply range_safe|]. intros [x y] Hr.
  apply range_done in Hr as (-> & -> & Hr & _); [|by eapply le_at_range in H5 as [? _]|eapply le_at_range in H6 as [? _]; [lia|done]].
  assert (0 <= a4) by (eapply le_at_range in H5; [|done]; lia). assert (0 <= a5) by (eapply le_at_range in H6; [|done]; lia).
  apply safe_bind; [apply range_of_safe; unfold len in Hr; lia|]. intros hs _. safe_read.
  apply safe_bind. { apply (safe_fold _ (fun _ => True)); [done| |done]. intros acc p _ Hp. apply scan_safe. eapply chunk_length; [|eassumption]; lia. }
  intros s _. apply safe_bind; [auto with mind|]. intros sz _. by repeat (case_match; try done).
Qed.

(** A header's fields. *)
Definition field (n : nat) (d : bytes) (at_ : Z) : Z := of_le (slice d (Z.to_nat at_) n).
Definition p_type (p : bytes) : Z := field 4 p 0.
Definition p_flags (p : bytes) : Z := field 4 p 4.
Definition p_offset (p : bytes) : Z := field 8 p 8.
Definition p_vaddr (p : bytes) : Z := field 8 p 16.
Definition p_filesz (p : bytes) : Z := field 8 p 32.
Definition p_memsz (p : bytes) : Z := field 8 p 40.

Lemma le_at_field {E} n d a : 0 <= a -> a + Z.of_nat n <= len d -> le_at (E:=E) n d a = Done (field n d a).
Proof. intros H1 H2. unfold le_at. by rewrite !(proj2 (Z.leb_le _ _)). Qed.

Lemma field_nonneg n d a : Forall is_byte d -> 0 <= field n d a.
Proof. intros Hd. apply (of_le_bound (slice d (Z.to_nat a) n)). by apply forall_slice. Qed.

Lemma ldiff_page a : 0 <= a -> 0 <= Z.ldiff a 4095 <= a.
Proof.
  intros Ha. change 4095 with (Z.ones 12). rewrite Z.ldiff_ones_r by lia. rewrite Z.shiftl_mul_pow2, Z.shiftr_div_pow2 by lia.
  pose proof (Z.div_mod a (2 ^ 12)). pose proof (Z.mod_pos_bound a (2 ^ 12)). lia.
Qed.

(** What [parse] checked of a loaded segment, against the image measured so far. *)
Definition segment_ok (file : bytes) (s : Scan) (p : bytes) : Prop :=
  p_type p = PT_LOAD -> p_filesz p <= p_memsz p /\ p_offset p + p_filesz p <= len file /\ p_vaddr p + p_memsz p < W64 /\
  (p_memsz p <> 0 -> s_min s <= p_vaddr p /\ p_vaddr p + p_memsz p <= s_max s).
Definition holds_entry (ent : Z) (p : bytes) : Prop :=
  p_type p = PT_LOAD /\ Z.odd (p_flags p) = true /\ p_vaddr p <= ent < p_vaddr p + p_memsz p.

Lemma scan_done file ent s p s' : length p = 56%nat -> Forall is_byte p -> scan file ent s p = Done s' ->
  segment_ok file s' p /\ s_min s' <= s_min s /\ s_max s <= s_max s' /\ (s_executable s' = true -> s_executable s = true \/ holds_entry ent p).
Proof.
  intros Hp Hb. pose proof (field_nonneg 8 p 16 Hb) as Hv. pose proof (field_nonneg 8 p 8 Hb) as Ho. pose proof (field_nonneg 8 p 32 Hb) as Hf.
  unfold scan, u32_at, word. rewrite !le_at_field by (unfold len; lia). cbn [mbind outcome_bind].
  fold (p_type p) (p_flags p) (p_offset p) (p_vaddr p) (p_filesz p) (p_memsz p) in *. unfold segment_ok.
  destruct (Z.eqb_spec (p_type p) PT_LOAD) as [Ht|Ht].
  - case_match eqn:Hc; [done|]. intros H. done_inv H. injection H as <-. cbn [s_min s_max s_executable].
    destruct v as [x y]. apply range_done in Hv0 as (_ & _ & Hr & _); [|done|done]. apply or_refuse_done, checked_add_Some in Hv1 as [-> He].
    pose proof (ldiff_page (p_vaddr p) Hv). split_and!.
    + intros _. split_and!; [lia|lia|lia|]. intros Hne. rewrite (proj2 (Z.eqb_neq _ _) Hne). lia.
    + case_match; lia.
    + case_match; lia.
    + intros [He'|He']%orb_true_iff; [by left|]. right. unfold holds_entry. apply andb_true_iff in He' as [[Hfl H1]%andb_true_iff H2].
      split_and!; [done| |lia|lia]. change 1 with (Z.ones 1) in Hfl. rewrite Z.land_ones in Hfl by lia. change (2 ^ 1) with 2 in Hfl.
      rewrite Zmod_odd in Hfl. by destruct (Z.odd (p_flags p)).
  - intros H. assert (s_min s' = s_min s /\ s_max s' = s_max s /\ s_executable s' = s_executable s) as (-> & -> & ->).
    { repeat (case_match; try discriminate H); by injection H as <-. }
    split_and!; [done|lia|lia|auto].
Qed.

(** ** A parsed image *)
Definition is_dynamic (p : bytes) : bool := p_type p =? PT_DYNAMIC.
Definition dynamics (img : Image) : list bytes := List.filter is_dynamic (chunks_exact 56 (headers img)).

Lemma scan_dynamic file ent s p s' : length p = 56%nat -> scan file ent s p = Done s' ->
  s_dynamic s' = s_dynamic s + Z.of_nat (length (List.filter is_dynamic [p])).
Proof.
  intros Hp. unfold scan, u32_at, word. rewrite !le_at_field by (unfold len; lia). cbn [mbind outcome_bind List.filter]. fold (p_type p). unfold is_dynamic.
  destruct (Z.eqb_spec (p_type p) PT_LOAD) as [->|_]; [cbn; case_match; [done|]; intros Hs; done_inv Hs; injection Hs as <-; cbn; lia|].
  destruct (Z.eqb_spec (p_type p) PT_DYNAMIC); [intros [= <-]; cbn; lia|]. repeat case_match; intros [= <-]; cbn; lia.
Qed.

Definition image_ok (img : Image) : Prop :=
  Forall is_byte (data img) /\ 0 <= min img /\
  (forall p, p ∈ chunks_exact 56 (headers img) -> length p = 56%nat /\ Forall is_byte p) /\
  (forall p, p ∈ chunks_exact 56 (headers img) -> p_type p = PT_LOAD ->
     p_filesz p <= p_memsz p /\ p_offset p + p_filesz p <= len (data img) /\
     (p_memsz p <> 0 -> min img <= p_vaddr p /\ p_vaddr p + p_memsz p <= min img + size img)) /\
  (exists p, p ∈ chunks_exact 56 (headers img) /\ holds_entry (entry img) p) /\
  (length (dynamics img) <= 1)%nat.

Lemma chunk_bytes k l p : Forall is_byte l -> p ∈ chunks_exact k l -> Forall is_byte p.
Proof. intros Hb [i [-> _]]%list_elem_of_fmap. by apply forall_slice. Qed.

Lemma scan_min_nonneg file ent s p s' : length p = 56%nat -> Forall is_byte p -> scan file ent s p = Done s' -> 0 <= s_min s -> 0 <= s_min s'.
Proof.
  intros Hp Hb H Hs. unfold scan in H. done_inv H. case_match; [done_inv H|repeat (case_match; try discriminate H); try (done_inv H); injection H as <-; done].
  injection H as <-. cbn. pose proof (ldiff_page v1) as Hl. eapply le_at_range in Hv1 as [Hv1 _]; [|done]. case_match; lia.
Qed.

Lemma parse_ok file img : Forall is_byte file -> parse file = Done img -> image_ok img /\ data img = file /\ 0 < size img <= IMAGE_MAX.
Proof.
  intros Hb H. unfold parse in H. done_inv H. destruct v6 as [x y]. done_inv H. injection H as <-.
  apply range_of_done in Hv7 as (_ & _ & Hhs & _). apply or_refuse_done in Hv10. unfold checked_sub in Hv10. case_match; [|done]. injection Hv10 as <-.
  assert (forall p, p ∈ chunks_exact 56 v6 -> length p = 56%nat /\ Forall is_byte p) as Hch.
  { intros p Hp. split; [eapply chunk_length; [|eassumption]; lia|]. eapply chunk_bytes; [|exact Hp]. subst v6. by apply forall_slice. }
  assert (s_dynamic v8 = Z.of_nat (length (List.filter is_dynamic (chunks_exact 56 v6)))) as Hdyn.
  { refine (fold_done_inv (scan file v7) (fun l s => s_dynamic s = Z.of_nat (length (List.filter is_dynamic l))) [] _ (chunks_exact 56 v6) v8 _ Hv9 _); [done|].
    intros d acc p acc' Hp Hd Hsc. rewrite (scan_dynamic _ _ _ _ _ (proj1 (Hch p Hp)) Hsc), Hd, List.filter_app, length_app. lia. }
  assert (0 <= s_min v8 /\ (forall p, p ∈ chunks_exact 56 v6 -> segment_ok file v8 p) /\ (s_executable v8 = true -> exists p, p ∈ chunks_exact 56 v6 /\ holds_entry v7 p)) as (Hm & Hs & He).
  { pose (I := fun (l : list bytes) s => 0 <= s_min s /\ (forall p, p ∈ l -> segment_ok file s p) /\ (s_executable s = true -> exists p, p ∈ l /\ holds_entry v7 p)).
    refine (fold_done_inv (scan file v7) I [] _ (chunks_exact 56 v6) v8 _ Hv9 _).
    - split_and!; [unfold W64; cbn; lia|set_solver|done].
    - intros d acc p acc' Hp (H1 & H2 & H3) Hsc. destruct (Hch p Hp) as [Hl Hby]. destruct (scan_done _ _ _ _ _ Hl Hby Hsc) as (S1 & S2 & S3 & S4). split_and!.
      + by eapply scan_min_nonneg.
      + intros q [Hq| ->%list_elem_of_singleton]%elem_of_app; [|done]. intros Hq'. destruct (H2 q Hq Hq') as (A & B & C & D). split_and!; try done. intros Hne. specialize (D Hne). lia.
      + intros [Hx|Hx]%S4; [destruct (H3 Hx) as (q & Hq & Hq'); exists q; set_solver|exists p; set_solver]. }
  cbn [data headers min size entry]. unfold image_ok. cbn [data headers min size entry]. repeat (apply orb_false_iff in Hc1 as [Hc1 ?]).
  split_and!; try done; try lia.
  - intros p Hp Ht. destruct (Hs p Hp Ht) as (A & B & C & D). split_and!; try done. intros Hne. specialize (D Hne). lia.
  - apply He. by apply negb_false_iff.
  - unfold dynamics. cbn [headers]. lia.
Qed.

(** ** No panic *)
Definition bytes_of (n : nat) (m : bytes) : Prop := length m = n /\ Forall is_byte m.

Lemma copy_at_bytes {E} n m a b src m' : bytes_of n m -> Forall is_byte src -> copy_at (E:=E) m a b src = Done m' -> bytes_of n m'.
Proof.
  intros [Hl Hm] Hs H. apply copy_at_done in H as (_ & _ & _ & -> & H). split; [lia|].
  apply Forall_app_2; [by apply Forall_take|apply Forall_app_2; [done|by apply Forall_drop]].
Qed.

Lemma load_segment_spec img n m p : image_ok img -> p ∈ chunks_exact 56 (headers img) -> bytes_of n m ->
  safe (load_segment img m p) /\ (forall m', load_segment img m p = Done m' -> bytes_of n m').
Proof.
  intros (Hd & Hm & Hch & _) Hp Hby. destruct (Hch p Hp) as [Hl Hb].
  pose proof (field_nonneg 8 p 16 Hb) as Hva. pose proof (field_nonneg 8 p 8 Hb) as Ho. pose proof (field_nonneg 8 p 32 Hb) as Hf.
  unfold load_segment, u32_at, word. rewrite !le_at_field by (unfold len; lia). cbn [mbind outcome_bind].
  case_match; [split; [done|intros m' [= <-]; done]|].
  unfold checked_sub. destruct (Z.leb_spec (min img) (field 8 p 16)); [|by split]. cbn [or_refuse mbind outcome_bind].
  destruct (range _ _ (len m)) as [[a b]|e|] eqn:R1; [|by split|by apply range_safe in R1].
  apply range_done in R1 as (-> & -> & R1 & _); [|lia|done]. cbn [mbind outcome_bind].
  destruct (range _ _ (len (data img))) as [[a b]|e|] eqn:R2; [|by split|by apply range_safe in R2].
  apply range_done in R2 as (-> & -> & R2 & _); [|done|done]. cbn [mbind outcome_bind].
  destruct (range_of _ _ _) as [src|e|] eqn:R3; [|by split|exfalso; revert R3; apply range_of_safe; unfold len in *; lia].
  apply range_of_done in R3 as (_ & _ & Hsrc & Hsl). cbn [mbind outcome_bind]. split.
  - apply copy_at_safe; unfold len in *; lia.
  - intros m' H'. eapply copy_at_bytes; [exact Hby| |exact H']. subst src. by apply forall_slice.
Qed.

Definition dynamic_ok (d : Dynamic) : Prop := 0 <= rela_addr d /\ 0 <= rela_size d /\ 0 <= rela_entry_size d.

Lemma dynamic_loop_spec image d offs : Forall is_byte image -> dynamic_ok d -> (forall o, o ∈ offs -> 0 <= o /\ o + 16 <= len image) ->
  safe (dynamic_loop image d offs) /\ (forall d', dynamic_loop image d offs = Done d' -> dynamic_ok d').
Proof.
  intros Hb. revert d. induction offs as [|o offs IH]; intros d Hd Ho; [split; [done|by intros d' [= <-]]|].
  destruct (Ho o ltac:(set_solver)) as [H0 H1]. cbn [dynamic_loop]. unfold word. rewrite !le_at_field by lia. cbn [mbind outcome_bind].
  pose proof (field_nonneg 8 image (o + 8) Hb) as Hv. destruct Hd as (D1 & D2 & D3).
  repeat match goal with |- context [if ?c then _ else _] => destruct c end; try (by split; [|intros d' [= <-]]);
    (apply IH; [done|intros; apply Ho; set_solver]).
Qed.

Lemma relocate_spec min_vaddr bias from to n m o : bytes_of n m -> 0 <= o -> o + 24 <= Z.of_nat n ->
  safe (relocate min_vaddr bias from to m o) /\ (forall m', relocate min_vaddr bias from to m o = Done m' -> bytes_of n m').
Proof.
  intros Hby Ho Hn. destruct Hby as [Hl Hb]. unfold relocate, word. rewrite !le_at_field by (unfold len; lia). cbn [mbind outcome_bind].
  case_match; [split; [done|intros m' [= <-]; done]|]. case_match; [by split|].
  destruct (reloc_range _ _ _ _) as [[a b]|e|] eqn:R; [|by split|by apply reloc_range_safe in R]. apply reloc_range_done in R as (-> & R1 & -> & R2); [|lia].
  cbn [mbind outcome_bind]. case_match; [by split|]. split.
  - apply copy_at_safe; unfold len in *; rewrite ?length_to_le; lia.
  - intros m' H'. eapply copy_at_bytes; [|apply to_le_bytes|exact H']. done.
Qed.

Lemma apply_relocs_spec n m min_vaddr load_addr da ds : bytes_of n m -> 0 <= ds ->
  safe (apply_relocs m min_vaddr load_addr da ds) /\ (forall m', apply_relocs m min_vaddr load_addr da ds = Done m' -> bytes_of n m').
Proof.
  intros Hby Hds. destruct Hby as [Hl Hb]. unfold apply_relocs.
  destruct (reloc_range _ _ _ _) as [[a b]|e|] eqn:R; [|by split|by apply reloc_range_safe in R]. apply reloc_range_done in R as (-> & R1 & -> & R2); [|done].
  cbn [mbind outcome_bind]. destruct (Z.eqb_spec (ds mod 16) 0) as [Hm|]; [|by split]. cbn [negb].
  assert (forall o, o ∈ step_by (da - min_vaddr) (da - min_vaddr + ds) 16 -> 0 <= o /\ o + 16 <= len m) as Ho.
  { intros o Ho. apply step_by_elem in Ho; [lia|lia|lia|]. by rewrite Z.add_simpl_l. }
  destruct (dynamic_loop_spec m (mkDynamic 0 0 0 false) _ Hb ltac:(by unfold dynamic_ok) Ho) as [D1 D2].
  destruct (dynamic_loop _ _ _) as [d|e|]; [|by split|done]. destruct (D2 d eq_refl) as (Ha & Hs & He). cbn [mbind outcome_bind].
  case_match; [by split|]. case_match; [split; [done|intros m' [= <-]; done]|]. destruct (negb (rela_entry_size d =? 24) || _) eqn:Hc; [by split|]. apply orb_false_iff in Hc as [_ Hc]. apply negb_false_iff, Z.eqb_eq in Hc.
  destruct (reloc_range _ _ (rela_addr d) _) as [[a b]|e|] eqn:R; [|by split|by apply reloc_range_safe in R]. apply reloc_range_done in R as (-> & R3 & -> & R4); [|done].
  cbn [mbind outcome_bind]. set (from := rela_addr d - min_vaddr) in *.
  assert (forall o, o ∈ step_by from (from + rela_size d) 24 -> 0 <= o /\ o + 24 <= Z.of_nat n) as Ho'.
  { intros o Ho'. apply step_by_elem in Ho'; [unfold len in *; lia|lia|lia|]. by rewrite Z.add_simpl_l. }
  apply fold_keeps; [done|]. intros acc x Hacc Hx. destruct (Ho' x Hx). by apply relocate_spec.
Qed.

Lemma load_dynamic_spec img base n m p : image_ok img -> p ∈ chunks_exact 56 (headers img) -> bytes_of n m ->
  safe (load_dynamic img base m p) /\ (forall m', load_dynamic img base m p = Done m' -> bytes_of n m').
Proof.
  intros (_ & _ & Hch & _) Hp Hby. destruct (Hch p Hp) as [Hl Hb]. unfold load_dynamic, u32_at, word.
  rewrite !le_at_field by (unfold len; lia). cbn [mbind outcome_bind]. case_match; [split; [done|intros m' [= <-]; done]|].
  apply apply_relocs_spec; [done|by apply field_nonneg].
Qed.

Lemma zeros_bytes n : bytes_of n (replicate n 0).
Proof. split; [apply length_replicate|by apply Forall_replicate]. Qed.

Lemma entry_above img : image_ok img -> min img <= entry img < min img + size img.
Proof.
  intros (_ & _ & _ & Hseg & (p & Hp & Ht & _ & He) & _). destruct (Hseg p Hp Ht) as (_ & _ & H). lia.
Qed.

Lemma load_safe img memory base : image_ok img -> safe (load img memory base).
Proof.
  intros Hok. unfold load. case_match; [done|]. set (n := length memory). pose proof (zeros_bytes n) as Hz.
  destruct (fold_keeps (load_segment img) (bytes_of n) _ (chunks_exact 56 (headers img)) Hz) as [S1 S2]; [intros; by apply load_segment_spec|].
  apply safe_bind; [done|]. intros m1 H1.
  destruct (fold_keeps (load_dynamic img base) (bytes_of n) _ (chunks_exact 56 (headers img)) (S2 _ H1)) as [T1 T2]; [intros; by apply load_dynamic_spec|].
  apply safe_bind; [done|]. intros m2 H2. unfold checked_sub. pose proof (entry_above img Hok). rewrite (proj2 (Z.leb_le _ _)) by lia. cbn [or_crash mbind outcome_bind].
  apply safe_bind; [auto with mind|done].
Qed.

Lemma segments_safe img : image_ok img -> safe (segments img) /\ forall l, segments img = Done l -> forall off n fl, (off, n, fl) ∈ l -> 0 <= off /\ off + n <= size img.
Proof.
  intros (_ & _ & Hch & Hseg & _).
  apply (fold_keeps _ (fun l => forall off n fl, (off, n, fl) ∈ l -> 0 <= off /\ off + n <= size img)); [set_solver|].
  intros acc p Hacc Hp. destruct (Hch p Hp) as [Hl Hb]. specialize (Hseg p Hp). unfold segment, u32_at, word. rewrite !le_at_field by (unfold len; lia). cbn [mbind outcome_bind].
  fold (p_type p) (p_flags p) (p_vaddr p) (p_memsz p). destruct (Z.eqb_spec (p_type p) PT_LOAD) as [Ht|]; [|split; [done|by intros acc' [= <-]]].
  destruct (Z.eqb_spec (p_memsz p) 0) as [Hz|Hz]; [split; [done|by intros acc' [= <-]]|]. destruct (Hseg Ht) as (_ & _ & Hr). destruct (Hr Hz) as [R1 R2]. cbn [andb negb].
  unfold checked_sub. rewrite (proj2 (Z.leb_le _ _)) by lia. cbn. split; [done|]. intros acc' [= <-] off n fl [Hi|Hi]%elem_of_app; [by eapply Hacc|].
  apply list_elem_of_singleton in Hi. simplify_eq. lia.
Qed.

(** no program file makes the kernel panic. Whatever the bytes of a file, [parse] returns an image or an error;
    whatever image it returned, listing its segments and loading it into memory of any size at any base return as well,
    and every segment lies inside the image the kernel maps. *)
Theorem elf_no_panic file memory base : Forall is_byte file ->
  parse file <> Crash /\ forall img, parse file = Done img ->
    load img memory base <> Crash /\ 0 < size img <= IMAGE_MAX /\
    exists l, segments img = Done l /\ forall off n fl, (off, n, fl) ∈ l -> 0 <= off /\ off + n <= size img.
Proof.
  intros Hb. split; [by apply parse_safe|]. intros img H. destruct (parse_ok _ _ Hb H) as (Hok & _ & Hs).
  split; [by apply load_safe|]. split; [done|]. destruct (segments_safe img Hok) as [S1 S2].
  destruct (segments img) as [l|[]|]; [|done]. exists l. split; [done|by apply S2].
Qed.

(** ** What is loaded *)

(** Byte [i] of the image by the headers alone: the file's byte of the last segment whose file part covers it, else 0. *)
Definition seg_byte (img : Image) (i : Z) (b : Z) (p : bytes) : Z :=
  let dest := p_vaddr p - min img in
  if (p_type p =? PT_LOAD) && (dest <=? i) && (i <? dest + p_filesz p) then nth (Z.to_nat (p_offset p + (i - dest))) (data img) 0 else b.
Definition image_byte (img : Image) (i : Z) : Z := foldl (seg_byte img i) 0 (chunks_exact 56 (headers img)).

(** [v] stored at [at_], and the entries of a relocation table as the image holds them before any is applied. *)
Definition store8 (m : bytes) (at_ v : Z) : bytes := take (Z.to_nat at_) m ++ to_le 8 v ++ drop (Z.to_nat at_ + 8) m.
Definition patch (orig : bytes) (min_vaddr bias : Z) (m : bytes) (o : Z) : bytes :=
  if field 8 orig (o + 8) =? 0 then m else store8 m (field 8 orig o - min_vaddr) (wrap64 (bias + field 8 orig (o + 16))).

Lemma lookup_copy {E} (m : bytes) a b src m' (i : nat) : copy_at (E:=E) m a b src = Done m' ->
  m' !! i = if (a <=? Z.of_nat i) && (Z.of_nat i <? b) then src !! (i - Z.to_nat a)%nat else m !! i.
Proof.
  intros H. apply copy_at_done in H as (H1 & H2 & H3 & -> & _). assert (length (take (Z.to_nat a) m) = Z.to_nat a) as Hl by (rewrite length_take; lia).
  destruct (decide (Z.of_nat i < a)) as [Hi|Hi].
  - rewrite lookup_app_l, lookup_take_lt by (rewrite ?Hl; lia). by rewrite (proj2 (Z.leb_gt _ _)) by lia.
  - rewrite lookup_app_r, Hl by lia. rewrite (proj2 (Z.leb_le _ _)) by lia. cbn [andb]. destruct (Z.ltb_spec (Z.of_nat i) b).
    + by rewrite lookup_app_l by lia.
    + rewrite lookup_app_r, lookup_drop by lia. f_equal. lia.
Qed.

Lemma load_segment_byte img m p m' (i : nat) b : image_ok img -> p ∈ chunks_exact 56 (headers img) -> load_segment img m p = Done m' ->
  m !! i = Some b -> m' !! i = Some (seg_byte img (Z.of_nat i) b p).
Proof.
  intros (Hd & Hm & Hch & _) Hp H Hi. destruct (Hch p Hp) as [Hl Hb].
  pose proof (field_nonneg 8 p 16 Hb) as Hva. pose proof (field_nonneg 8 p 8 Hb) as Ho. pose proof (field_nonneg 8 p 32 Hb) as Hf.
  unfold load_segment, u32_at, word in H. rewrite !le_at_field in H by (unfold len; lia). cbn [mbind outcome_bind] in H. unfold seg_byte.
  fold (p_type p) (p_vaddr p) (p_offset p) (p_filesz p) in *. destruct (Z.eqb_spec (p_type p) PT_LOAD); cbn [negb andb] in *; [|by injection H as <-].
  apply bind_done in H as (dest & Hdest & H). apply or_refuse_done in Hdest. unfold checked_sub in Hdest. case_match; [|done]. injection Hdest as <-.
  apply bind_done in H as ([x y] & R1 & H). apply range_done in R1 as (-> & -> & R1 & _); [|lia|done].
  apply bind_done in H as ([x y] & R2 & H). apply range_done in R2 as (-> & -> & R2 & _); [|done|done].
  apply bind_done in H as (src & R3 & H). apply range_of_done in R3 as (_ & _ & Hsrc & Hsl). rewrite (lookup_copy _ _ _ _ _ _ H).
  case_match eqn:Hc; [|done]. rewrite nth_lookup_default. subst src. unfold slice. rewrite lookup_take_lt, lookup_drop by lia.
  replace (Z.to_nat (p_offset p) + (i - Z.to_nat (p_vaddr p - min img)))%nat with (Z.to_nat (p_offset p + (Z.of_nat i - (p_vaddr p - min img)))) by lia.
  set (k := Z.to_nat _). destruct (data img !! k) eqn:Hk; [done|]. apply lookup_ge_None in Hk. unfold len in *. lia.
Qed.

Lemma segments_copied img n m (i : nat) : image_ok img -> fold_out (load_segment img) (replicate n 0) (chunks_exact 56 (headers img)) = Done m ->
  (i < n)%nat -> m !! i = Some (image_byte img (Z.of_nat i)).
Proof.
  intros Hok H Hi. unfold image_byte.
  refine (fold_done_inv _ (fun l m => m !! i = Some (foldl (seg_byte img (Z.of_nat i)) 0 l)) [] _ _ m _ H _); [by apply lookup_replicate_2|].
  intros l acc p acc' Hp Hacc Hs. rewrite foldl_snoc. by eapply load_segment_byte.
Qed.

(** The table keeps its bytes while its entries are applied. *)
Definition agree (from to : Z) (m m' : bytes) : Prop := length m = length m' /\ forall i, from <= Z.of_nat i < to -> m !! i = m' !! i.

Lemma agree_field from to m m' n o : agree from to m m' -> 0 <= from <= o -> o + Z.of_nat n <= to -> field n m o = field n m' o.
Proof.
  intros [_ H] H1 H2. unfold field, slice. f_equal. apply list_eq. intros i. destruct (decide (i < n)%nat) as [Hi|Hi].
  - rewrite !lookup_take_lt, !lookup_drop by done. apply H. lia.
  - by rewrite !lookup_take_ge by lia.
Qed.

Definition entry_good (orig : bytes) (min_vaddr from to o : Z) : Prop :=
  let target := field 8 orig o - min_vaddr in
  field 8 orig (o + 8) = 0 \/
  (field 8 orig (o + 8) = RELATIVE /\ 0 <= target /\ target + 8 <= len orig /\ (target + 8 <= from \/ to <= target)).

Lemma relocate_done orig min_vaddr bias from to m o m' : Forall is_byte orig -> Forall is_byte m -> agree from to m orig -> 0 <= from <= o -> o + 24 <= to -> to <= len orig ->
  relocate min_vaddr bias from to m o = Done m' -> m' = patch orig min_vaddr bias m o /\ entry_good orig min_vaddr from to o /\ agree from to m' orig.
Proof.
  intros Hb Hbm Ha H1 H2 H3 H. assert (len m = len orig) as Hlen by (unfold len; f_equal; apply Ha).
  unfold relocate, word in H. rewrite !le_at_field in H by lia. cbn [mbind outcome_bind] in H.
  rewrite !(agree_field from to m orig) in H by (done || lia). unfold patch, entry_good.
  destruct (Z.eqb_spec (field 8 orig (o + 8)) 0) as [Hz|Hz]; [injection H as <-; auto|].
  destruct (Z.eqb_spec (field 8 orig (o + 8)) RELATIVE) as [Hr|]; [|done]. cbn [negb] in H.
  apply bind_done in H as ([a b] & R & H). apply reloc_range_done in R as (-> & R1 & -> & R2); [|lia]. case_match eqn:Hc; [done|].
  pose proof (fun i => lookup_copy _ _ _ _ _ i H) as Hlk. apply copy_at_done in H as (_ & _ & _ & -> & Hl). split_and!.
  - unfold store8. do 3 f_equal. lia.
  - right. split_and!; try done; lia.
  - destruct Ha as [Ha1 Ha2]. split; [lia|]. intros i Hi. rewrite Hlk. rewrite <- Ha2 by done. case_match; [lia|done].
Qed.

(** What a dynamic section of [ds] bytes at [da] says, read from an image: its pairs of tag and value up to the first 0,
    and the last value of a tag. *)
Definition dynamic_pairs (m : bytes) (offs : list Z) : list (Z * Z) := map (fun o => (field 8 m o, field 8 m (o + 8))) offs.
Fixpoint until_null (l : list (Z * Z)) : list (Z * Z) := match l with [] => [] | (t, v) :: l => if t =? 0 then [] else (t, v) :: until_null l end.
Definition tagged (t init : Z) (l : list (Z * Z)) : Z := foldl (fun acc x => if x.1 =? t then x.2 else acc) init l.

(** [m] is [raw] with its relocations applied: [DT_RELA] (7) and [DT_RELASZ] (8) of the dynamic section name a table
    inside the image; every entry of it is empty or RELATIVE with its word inside the image and outside the table; and
    the load bias plus the addend is stored at each entry's place, as the table stood at the start. *)
Definition relocated (raw m : bytes) (min_vaddr base da ds : Z) : Prop :=
  let l := until_null (dynamic_pairs raw (step_by (da - min_vaddr) (da - min_vaddr + ds) 16)) in
  let '(from, n) := (tagged 7 0 l - min_vaddr, tagged 8 0 l) in
  (n <> 0 -> 0 <= from /\ from + n <= len raw) /\ (forall o, o ∈ step_by from (from + n) 24 -> entry_good raw min_vaddr from (from + n) o) /\
  m = foldl (patch raw min_vaddr (wrap64 (base - min_vaddr))) raw (step_by from (from + n) 24).

Lemma dynamic_loop_values image d offs d' : (forall o, o ∈ offs -> 0 <= o /\ o + 16 <= len image) -> dynamic_loop image d offs = Done d' ->
  let l := until_null (dynamic_pairs image offs) in rela_addr d' = tagged 7 (rela_addr d) l /\ rela_size d' = tagged 8 (rela_size d) l.
Proof.
  revert d. induction offs as [|o offs IH]; intros d Ho; [by intros [= <-]|]. destruct (Ho o ltac:(set_solver)) as [H0 H1].
  cbn [dynamic_loop dynamic_pairs map until_null]. unfold word. rewrite !le_at_field by lia. cbn [mbind outcome_bind].
  assert (forall d, dynamic_loop image d offs = Done d' -> let l := until_null (dynamic_pairs image offs) in
    rela_addr d' = tagged 7 (rela_addr d) l /\ rela_size d' = tagged 8 (rela_size d) l) as IH' by (intros d0; apply IH; intros; apply Ho; set_solver). clear IH.
  destruct (Z.eqb_spec (field 8 image o) 0) as [_|N0]; [by intros [= <-]|]. cbn zeta. unfold tagged in *. cbn [foldl fst snd].
  destruct (Z.eqb_spec (field 8 image o) 1); [done|].
  destruct (Z.eqb_spec (field 8 image o) 7) as [E7|N7]; [intros H; apply IH' in H; by rewrite E7|].
  destruct (Z.eqb_spec (field 8 image o) 8) as [E8|N8]; [intros H; apply IH' in H; by rewrite ?E8|].
  destruct (Z.eqb_spec (field 8 image o) 9) as [E9|N9]; [intros H; by apply IH' in H|].
  destruct (_ && _); [done|]. intros H. by apply IH' in H.
Qed.

Lemma step_by_empty from k : 0 < k -> step_by from from k = [].
Proof. intros Hk. unfold step_by. replace (from - from + k - 1) with (k - 1) by lia. by rewrite Z.div_small by lia. Qed.

(** When [apply] succeeds it follows the image's own table. *)
Lemma relocs_follow_table image min_vaddr load_addr da ds image' : Forall is_byte image -> 0 <= ds ->
  apply_relocs image min_vaddr load_addr da ds = Done image' -> relocated image image' min_vaddr load_addr da ds.
Proof.
  intros Hb Hds H. unfold apply_relocs in H. apply bind_done in H as ([a b] & R & H). apply reloc_range_done in R as (-> & R1 & -> & R2); [|done].
  destruct (Z.eqb_spec (ds mod 16) 0) as [Hm|]; [|done]. cbn [negb] in H. apply bind_done in H as (d & Hd & H).
  assert (forall o, o ∈ step_by (da - min_vaddr) (da - min_vaddr + ds) 16 -> 0 <= o /\ o + 16 <= len image) as Hoff.
  { intros o Ho. apply step_by_elem in Ho; [lia|lia|lia|]. by rewrite Z.add_simpl_l. }
  destruct (dynamic_loop_values _ _ _ _ Hoff Hd) as [Ha Hs]. cbn [rela_addr rela_size] in Ha, Hs.
  assert (dynamic_ok d) as (Da & Dsz & De) by (by eapply dynamic_loop_spec in Hd).
  unfold relocated. cbv zeta. rewrite <- Ha, <- Hs. clear Ha Hs.
  case_match; [done|]. destruct (Z.eqb_spec (rela_size d) 0) as [Hz|Hz].
  { injection H as <-. rewrite Hz, Z.add_0_r, step_by_empty by lia. split_and!; [done| |done]. by intros o Ho%elem_of_nil. }
  destruct (negb (rela_entry_size d =? 24) || _) eqn:Hc; [done|]. apply orb_false_iff in Hc as [_ Hc]. apply negb_false_iff, Z.eqb_eq in Hc.
  apply bind_done in H as ([from to] & R & H). apply reloc_range_done in R as (-> & R3 & -> & R4); [|done]. set (from := rela_addr d - min_vaddr) in *.
  split; [lia|].
  assert (forall o, o ∈ step_by from (from + rela_size d) 24 -> from <= o /\ o + 24 <= from + rela_size d) as Ho.
  { intros o Ho. apply step_by_elem in Ho; [lia|lia|lia|]. by rewrite Z.add_simpl_l. }
  pose (I := fun l m => (forall o, o ∈ l -> entry_good image min_vaddr from (from + rela_size d) o) /\
    m = foldl (patch image min_vaddr (wrap64 (load_addr - min_vaddr))) image l /\ agree from (from + rela_size d) m image /\ Forall is_byte m).
  assert (I ([] ++ step_by from (from + rela_size d) 24) image') as (I1 & I2 & _); [|by split].
  refine (fold_done_inv _ I [] _ _ image' _ H _).
  - split_and!; [by intros o Ho'%elem_of_nil|done|done|done].
  - intros l acc o acc' Hin (A & B & C & D) Hst. destruct (Ho o Hin) as [O1 O2].
    destruct (relocate_done image min_vaddr _ _ _ acc o acc' Hb D C ltac:(lia) ltac:(lia) ltac:(lia) Hst) as (P1 & P2 & P3). split_and!.
    + intros x [Hx| ->%list_elem_of_singleton]%elem_of_app; [by apply A|done].
    + rewrite foldl_snoc. congruence.
    + done.
    + destruct C as [C _]. edestruct (relocate_spec min_vaddr) as [_ RS]; [split; [reflexivity|exact D]|..|by apply (RS _ Hst)]; unfold len in *; lia.
Qed.

(** The relocations of an image with at most one dynamic section. *)
Lemma load_dynamic_other img base m p : length p = 56%nat -> is_dynamic p = false -> load_dynamic img base m p = Done m.
Proof. intros Hl Hd. unfold load_dynamic, u32_at. rewrite le_at_field by (unfold len; lia). cbn [mbind outcome_bind]. unfold is_dynamic, p_type in Hd. by rewrite Hd. Qed.
Lemma load_dynamic_one img base m p m' : length p = 56%nat -> Forall is_byte p -> Forall is_byte m -> is_dynamic p = true -> load_dynamic img base m p = Done m' ->
  relocated m m' (min img) base (p_vaddr p) (p_filesz p).
Proof.
  intros Hl Hb Hm Hd. unfold load_dynamic, u32_at, word. rewrite !le_at_field by (unfold len; lia). cbn [mbind outcome_bind]. unfold is_dynamic, p_type in Hd. rewrite Hd. cbn [negb].
  intros H. apply relocs_follow_table in H; [done|done|]. by apply field_nonneg.
Qed.
Lemma dynamics_applied img base chunks : (forall p, p ∈ chunks -> length p = 56%nat /\ Forall is_byte p) -> (length (List.filter is_dynamic chunks) <= 1)%nat ->
  forall raw m, Forall is_byte raw -> fold_out (load_dynamic img base) raw chunks = Done m ->
  match List.filter is_dynamic chunks with [] => m = raw | p :: _ => relocated raw m (min img) base (p_vaddr p) (p_filesz p) end.
Proof.
  induction chunks as [|p chunks IH]; intros Hch Hl raw m Hb; cbn [fold_out List.filter] in *; [by intros [= <-]|]. destruct (Hch p ltac:(set_solver)) as [Hp Hpb].
  destruct (is_dynamic p) eqn:Hd.
  - destruct (load_dynamic img base raw p) as [m1| |] eqn:E; [|done..]. cbn [mbind outcome_bind length] in *. apply load_dynamic_one in E; [|done..].
    assert (List.filter is_dynamic chunks = []) as Hnil by (destruct (List.filter is_dynamic chunks); [done|cbn in Hl; lia]). intros H.
    assert (m = m1) as ->; [|done]. clear - H Hnil Hch. revert m1 H. induction chunks as [|q chunks IH]; intros m1; cbn [fold_out List.filter] in *; [by intros [= <-]|].
    destruct (is_dynamic q) eqn:Hq; [done|]. destruct (Hch q ltac:(set_solver)) as [Hql _]. rewrite load_dynamic_other by done. cbn [mbind outcome_bind]. apply IH; [intros x Hx; apply Hch; set_solver|done].
  - rewrite load_dynamic_other by done. cbn [mbind outcome_bind]. apply IH; [|done|done]. intros x Hx. apply Hch. set_solver.
Qed.

(** C37: a program is loaded as its headers say. In memory of any size that holds the image, each byte of it is the one
    its segments put there (the last one of those covering it) or 0; where a dynamic section is, of which there is at most
    one, its relocation table is applied to that as [relocated] says, the load bias plus the addend at each entry's place,
    and nothing else differs; the entry point returned lies, moved by the base, in an executable segment. *)
Theorem elf_loaded file img memory base m e : Forall is_byte file -> parse file = Done img -> load img memory base = Done (m, e) ->
  (exists raw, length raw = length memory /\ (forall i, (i < length memory)%nat -> raw !! i = Some (image_byte img (Z.of_nat i))) /\
     match dynamics img with [] => m = raw | [p] => relocated raw m (min img) base (p_vaddr p) (p_filesz p) | _ => False end) /\
  length m = length memory /\ e = base + (entry img - min img) /\ base <= e < base + size img /\
  exists p, p ∈ chunks_exact 56 (headers img) /\ holds_entry (entry img) p.
Proof.
  intros Hb Hp H. destruct (parse_ok _ _ Hb Hp) as (Hok & _ & _). pose proof (entry_above img Hok) as He. unfold load in H. case_match; [done|].
  apply bind_done in H as (raw & Hraw & H). apply bind_done in H as (m2 & Hm2 & H). unfold checked_sub in H. rewrite (proj2 (Z.leb_le _ _)) in H by lia.
  cbn [or_crash mbind outcome_bind] in H. destruct (checked_add base _) eqn:Hadd; [|done]. apply checked_add_Some in Hadd as [-> _]. injection H as <- <-.
  destruct (fold_keeps (load_segment img) (bytes_of (length memory)) _ (chunks_exact 56 (headers img)) (zeros_bytes _)) as [_ S]; [intros; by apply load_segment_spec|].
  destruct (fold_keeps (load_dynamic img base) (bytes_of (length memory)) _ (chunks_exact 56 (headers img)) (S _ Hraw)) as [_ T]; [intros; by apply load_dynamic_spec|].
  destruct (S _ Hraw) as [Hrl Hrb]. destruct (T _ Hm2) as [Hlen _]. split.
  - exists raw. split; [done|]. split; [intros i Hi; by eapply segments_copied|]. destruct Hok as (_ & _ & Hch & _ & _ & Hone).
    pose proof (dynamics_applied img base _ Hch Hone raw m2 Hrb Hm2) as Hd. unfold dynamics in *. destruct (List.filter is_dynamic _) as [|p [|q l]]; [done|done|cbn in Hone; lia].
  - split_and!; try lia. apply Hok.
Qed.

(** ** A program of one segment with one relocation *)
Definition demo_header (kind flags offset vaddr filesz memsz : Z) : bytes :=
  to_le 4 kind ++ to_le 4 flags ++ to_le 8 offset ++ to_le 8 vaddr ++ to_le 8 0 ++ to_le 8 filesz ++ to_le 8 memsz ++ to_le 8 1.
Definition demo_dynamic : bytes := concat (map (to_le 8) [7; 0x1040; 8; 24; 9; 24; 0; 0]).
Definition demo_rela : bytes := concat (map (to_le 8) [0x1058; 8; 0x1010]).
Definition demo_file : bytes :=
  ELF_MAGIC ++ replicate 9 0 ++ to_le 2 3 ++ to_le 2 MACHINE ++ to_le 4 1 ++ to_le 8 0x1000 ++ to_le 8 64 ++ to_le 8 0 ++ to_le 4 0
  ++ to_le 2 64 ++ to_le 2 56 ++ to_le 2 2 ++ to_le 2 0 ++ to_le 2 0 ++ to_le 2 0
  ++ demo_header PT_LOAD 5 176 0x1000 88 96 ++ demo_header PT_DYNAMIC 4 176 0x1000 64 64 ++ demo_dynamic ++ demo_rela.
Definition demo_image : Image := mkImage demo_file (slice demo_file 64 112) 0x1000 96 65536 0x1000.
Definition demo_memory : bytes := replicate 96 7.

Lemma demo_bytes : Forall is_byte demo_file.
Proof.
  assert (forallb (fun b => (0 <=? b) && (b <? 256)) demo_file = true) as H by reflexivity.
  apply Forall_forall. intros b Hb. apply list_elem_of_In in Hb. pose proof (proj1 (forallb_forall _ _) H b Hb) as Hx. cbn beta in Hx. unfold is_byte. lia.
Qed.

Lemma demo_parses : parse demo_file = Done demo_image.
Proof. reflexivity. Qed.

Lemma elf_no_panic_witness : parse demo_file <> Crash /\ load demo_image demo_memory 0x7000000 <> Crash.
Proof.
  destruct (elf_no_panic demo_file demo_memory 0x7000000 demo_bytes) as [H1 H2]. split; [exact H1|]. exact (proj1 (H2 demo_image demo_parses)).
Defined.

Definition demo_loaded : bytes := demo_dynamic ++ demo_rela ++ to_le 8 0x7000010.

(** The program is in memory as its segment says, its one relocated word moved with the base; by [elf_loaded], of an image
    [raw] as its headers say. *)
Lemma elf_loaded_witness : load demo_image demo_memory 0x7000000 = Done (demo_loaded, 0x7000000) /\
  exists raw, (forall i, (i < 96)%nat -> raw !! i = Some (image_byte demo_image (Z.of_nat i))) /\ relocated raw demo_loaded 0x1000 0x7000000 0x1000 64.
Proof.
  split; [reflexivity|].
  destruct (elf_loaded demo_file demo_image demo_memory 0x7000000 demo_loaded 0x7000000 demo_bytes demo_parses eq_refl) as ((raw & _ & H1 & H2) & _).
  exists raw. split; [exact H1|exact H2].
Defined.
