(* ===== verification/Editor.v ===== *)
(** * The editor's text ([edit/src/buffer.rs])

    A piece table over the file as it was read and an append buffer, the start of every line, and undo and redo of grouped
    changes. A position is a byte offset; [usize::MAX] of [saved] and [changed] ("never", "none") is [None] here. The
    theorems: the piece table and its line index are a plain byte list and the places after its newlines, through every
    change; undo and redo step along the texts the user saw, as [hist_op] says on plain texts; a text that is not
    [modified] is the text last saved. Insertions are at places in the text: one past its end is clamped but recorded
    unclamped, and undo does not take it back ([insert_past_end_not_undone]). *)
From stdpp Require Import relations.
From S2P Require Import Prelude Text.
Local Open Scope nat_scope.

Definition LIMIT : Z := Z.shiftl 8 20.
Definition NEWLINE : Z := 10%Z.
Definition CR : Z := 13%Z.

Inductive Source : Type := Original | Added.
#[global] Instance Source_eq_dec : EqDecision Source.
Proof. solve_decision. Defined.

Record Piece : Type := mkPiece { source : Source; pstart : nat; plen : nat }.
Inductive Change : Type := Insert (at_ : nat) (data : bytes) | Delete (at_ : nat) (data : bytes).
Record Group : Type := mkGroup { changes : list Change; before : nat; after : nat; typing : bool }.

Record Buffer : Type := mkBuffer {
  original : bytes; added : bytes; pieces : list Piece; blen : nat; lines : list nat;
  undos : list Group; redos : list Group; saved : option nat; open_group : bool; changed : option nat }.

(** The starts of lines after the newlines of [data], which is at [at_]. *)
Fixpoint starts_from (at_ : nat) (data : bytes) : list nat :=
  match data with
  | [] => []
  | b :: data => if (b =? NEWLINE)%Z then S at_ :: starts_from (S at_) data else starts_from (S at_) data
  end.

(** [Buffer::new]. *)
Definition new (orig : bytes) : Buffer :=
  mkBuffer orig [] (if 0 <? length orig then [mkPiece Original 0 (length orig)] else []) (length orig) (0 :: starts_from 0 orig) [] [] (Some 0) false None.

(** [slice] of a piece. *)
Definition piece_in (o a : bytes) (p : Piece) : bytes := slice (match source p with Original => o | Added => a end) (pstart p) (plen p).

Section reading.
Context (b : Buffer).

Definition line_count : nat := length (lines b).
(** [line_start]: [lines] is never empty. *)
Definition line_start (line : nat) : nat := nth (Nat.min line (length (lines b) - 1)) (lines b) 0.

Definition piece_bytes : Piece -> bytes := piece_in (original b) (added b).

(** [byte]. *)
Fixpoint byte_in (offset : nat) (ps : list Piece) (at_ : nat) : option Z :=
  match ps with
  | [] => None
  | p :: ps => if at_ <? offset + plen p then piece_bytes p !! (at_ - offset) else byte_in (offset + plen p) ps at_
  end.
Definition byte (at_ : nat) : option Z := byte_in 0 (pieces b) at_.

(** [bytes]: its loop, which breaks once the end is passed. *)
Fixpoint bytes_in (offset : nat) (ps : list Piece) (start end_ : nat) : bytes :=
  match ps with
  | [] => []
  | p :: ps =>
      let '(a, e) := (offset, offset + plen p) in
      let here := if (start <? e) && (a <? end_) then slice (piece_bytes p) (Nat.max start a - a) (Nat.min end_ e - a - (Nat.max start a - a)) else [] in
      if end_ <=? e then here else here ++ bytes_in e ps start end_
  end.
Definition bytes_of (start end_ : nat) : bytes := bytes_in 0 (pieces b) start (Nat.min end_ (blen b)).
Definition text : bytes := bytes_of 0 (blen b).

(** [read]: the bytes copied out, at most as many as the caller's buffer holds. *)
Definition read (at_ room : nat) : bytes := bytes_of at_ (at_ + room).

(** [line_of]: [partition_point] of the sorted starts, less one. *)
Definition line_of (at_ : nat) : nat := length (filter (fun s => s <= at_) (lines b)) - 1.

(** [line_end]. *)
Definition line_end (line : nat) : nat :=
  if line + 1 <? length (lines b) then
    let next := nth (line + 1) (lines b) 0 - 1 in
    if (line_start line <? next) && bool_decide (byte (next - 1) = Some CR) then next - 1 else next
  else blen b.

(** [crlf]. *)
Definition crlf : bool :=
  (1 <? length (lines b)) && (2 <=? nth 1 (lines b) 0) && bool_decide (byte (nth 1 (lines b) 0 - 2) = Some CR).

(** [modified]. *)
Definition modified : bool := negb (bool_decide (saved b = Some (length (undos b)))).
End reading.

(** [take_changed]. *)
Definition take_changed (b : Buffer) : option nat * Buffer :=
  (changed b, mkBuffer (original b) (added b) (pieces b) (blen b) (lines b) (undos b) (redos b) (saved b) (open_group b) None).

(** [split]: the pieces with a boundary at [at_], and its index. *)
Fixpoint split_at (offset : nat) (ps : list Piece) (at_ : nat) : list Piece * nat :=
  match ps with
  | [] => ([], 0)
  | p :: rest =>
      if at_ =? offset then (ps, 0)
      else if at_ <? offset + plen p then
        let inside := at_ - offset in
        (mkPiece (source p) (pstart p) inside :: mkPiece (source p) (pstart p + inside) (plen p - inside) :: rest, 1)
      else let '(rest, i) := split_at (offset + plen p) rest at_ in (p :: rest, S i)
  end.

Definition with_text (b : Buffer) (add : bytes) (ps : list Piece) (n : nat) (ls : list nat) (ch : option nat) : Buffer :=
  mkBuffer (original b) add ps n ls (undos b) (redos b) (saved b) (open_group b) ch.
Definition min_changed (c : option nat) (line : nat) : option nat := Some (match c with Some c => Nat.min c line | None => line end).

(** [raw_insert]. *)
Definition raw_insert (b : Buffer) (at_ : nat) (data : bytes) : Buffer :=
  if decide (data = []) then b else
  let at_ := Nat.min at_ (blen b) in
  let start := length (added b) in
  let add := added b ++ data in
  let '(ps, index) := split_at 0 (pieces b) at_ in
  let ps := match index with
            | S i => match ps !! i with
                     | Some p => if bool_decide (source p = Added) && (pstart p + plen p =? start)
                                 then <[i := mkPiece Added (pstart p) (plen p + length data)]> ps
                                 else take index ps ++ mkPiece Added start (length data) :: drop index ps
                     | None => ps
                     end
            | O => mkPiece Added start (length data) :: ps
            end in
  let line := line_of b at_ in
  let ls := take (line + 1) (lines b) ++ starts_from at_ data ++ map (fun s => s + length data) (drop (line + 1) (lines b)) in
  with_text b add ps (blen b + length data) ls (min_changed (changed b) line).

(** [raw_delete]: the buffer and the bytes removed. *)
Definition raw_delete (b : Buffer) (start end_ : nat) : Buffer * bytes :=
  let end_ := Nat.min end_ (blen b) in
  if end_ <=? start then (b, []) else
  let removed := bytes_of b start end_ in
  let ch := min_changed (changed b) (line_of b start) in
  let '(ps, first) := split_at 0 (pieces b) start in
  let '(ps, last) := split_at 0 ps end_ in
  let n := end_ - start in
  let ls := map (fun s => if end_ <? s then s - n else s) (filter (fun s => s <= start \/ end_ < s) (lines b)) in
  (with_text b (added b) (take first ps ++ drop last ps) (blen b - n) ls ch, removed).

Definition with_history (b : Buffer) (u r : list Group) (sv : option nat) (og : bool) : Buffer :=
  mkBuffer (original b) (added b) (pieces b) (blen b) (lines b) u r sv og (changed b).

(** [if self.saved > self.undo.len() { self.saved = usize::MAX }]. *)
Definition keep_saved (b : Buffer) : option nat := match saved b with Some s => if length (undos b) <? s then None else Some s | None => None end.

(** [record]. *)
Definition record (b : Buffer) (c : Change) (cb ca : nat) (ty : bool) : Buffer :=
  match last (undos b) with
  | Some g =>
      if ty && open_group b && typing g
      then with_history b (take (length (undos b) - 1) (undos b) ++ [mkGroup (changes g ++ [c]) (before g) ca (typing g)]) [] (saved b) ty
      else with_history b (undos b ++ [mkGroup [c] cb ca ty]) [] (keep_saved b) ty
  | None => with_history b (undos b ++ [mkGroup [c] cb ca ty]) [] (keep_saved b) ty
  end.

Definition close_group (b : Buffer) : Buffer := with_history b (undos b) (redos b) (saved b) false.

(** [insert]. *)
Definition insert (b : Buffer) (at_ : nat) (data : bytes) (ty : bool) : Buffer :=
  if bool_decide (data = []) || (LIMIT <? Z.of_nat (blen b + length data))%Z then b
  else record (raw_insert b at_ data) (Insert at_ data) at_ (at_ + length data) ty.

(** [delete]. *)
Definition delete (b : Buffer) (start end_ : nat) (ty : bool) : Buffer * bytes :=
  let '(b', removed) := raw_delete b start end_ in
  (if decide (removed = []) then b' else record b' (Delete start removed) end_ start ty, removed).

(** [replace]. *)
Definition replace (b : Buffer) (start end_ : nat) (data : bytes) : Buffer :=
  let end_ := Nat.min end_ (blen b) in
  if (end_ <? start) || (LIMIT <? Z.of_nat (blen b - (end_ - start) + length data))%Z then b else
  let b := close_group b in
  let '(b, removed) := raw_delete b start end_ in
  let b := raw_insert b start data in
  let cs := (if decide (removed = []) then [] else [Delete start removed]) ++ (if decide (data = []) then [] else [Insert start data]) in
  with_history b (undos b ++ [mkGroup cs end_ (start + length data) false]) [] (keep_saved b) false.

(** [replace_all]: the ranges from the last one on. *)
Definition replace_one (data : bytes) (st : Buffer * list Change) (r : nat * nat) : Buffer * list Change :=
  let '(b, removed) := raw_delete st.1 r.1 r.2 in
  (raw_insert b r.1 data, st.2 ++ [Delete r.1 removed; Insert r.1 data]).
Definition replace_all (b : Buffer) (ranges : list (nat * nat)) (data : bytes) : Buffer :=
  let removed := sum_list (map (fun r => r.2 - r.1) ranges) in
  match ranges with
  | [] => b
  | (first, _) :: _ =>
      if (LIMIT <? Z.of_nat (blen b - removed + length ranges * length data))%Z then b else
      let '(b, cs) := foldl (replace_one data) (close_group b, []) (reverse ranges) in
      with_history b (undos b ++ [mkGroup cs first first false]) [] (keep_saved b) false
  end.

(** [apply]. *)
Definition apply_change (forward : bool) (b : Buffer) (c : Change) : Buffer :=
  match c, forward with
  | Insert at_ d, true | Delete at_ d, false => raw_insert b at_ d
  | Insert at_ d, false | Delete at_ d, true => (raw_delete b at_ (at_ + length d)).1
  end.

(** [undo] and [redo]. *)
Definition undo (b : Buffer) : Buffer * option nat :=
  let b := close_group b in
  match last (undos b) with
  | None => (b, None)
  | Some g =>
      let b' := foldl (apply_change false) b (reverse (changes g)) in
      (with_history b' (take (length (undos b) - 1) (undos b)) (redos b ++ [g]) (saved b') (open_group b'), Some (before g))
  end.
Definition redo (b : Buffer) : Buffer * option nat :=
  match last (redos b) with
  | None => (b, None)
  | Some g =>
      let b' := foldl (apply_change true) b (changes g) in
      (with_history b' (undos b ++ [g]) (take (length (redos b) - 1) (redos b)) (saved b') (open_group b'), Some (after g))
  end.

Definition mark_saved (b : Buffer) : Buffer := with_history b (undos b) (redos b) (Some (length (undos b))) false.

(** ** The piece table as a byte list *)
Section table.
Context (o a : bytes).

Definition ptext (ps : list Piece) : bytes := concat (map (piece_in o a) ps).
Definition valid (p : Piece) : Prop := pstart p + plen p <= length (match source p with Original => o | Added => a end).

Lemma piece_length p : valid p -> length (piece_in o a p) = plen p.
Proof. intros H. by apply slice_length. Qed.

Lemma ptext_app ps qs : ptext (ps ++ qs) = ptext ps ++ ptext qs.
Proof. unfold ptext. by rewrite map_app, concat_app. Qed.

(** A piece cut in two. *)
Lemma piece_cut p i : valid p -> i <= plen p ->
  piece_in o a (mkPiece (source p) (pstart p) i) = take i (piece_in o a p) /\
  piece_in o a (mkPiece (source p) (pstart p + i) (plen p - i)) = drop i (piece_in o a p).
Proof.
  intros Hv Hi. unfold piece_in, slice. cbn [source pstart plen]. split.
  - rewrite take_take. f_equal. lia.
  - rewrite <- drop_drop, skipn_firstn_comm. done.
Qed.

Lemma split_at_spec offset ps at_ : Forall valid ps -> offset <= at_ <= offset + length (ptext ps) ->
  let '(ps', i) := split_at offset ps at_ in
  Forall valid ps' /\ i <= length ps' /\ ptext (take i ps') = take (at_ - offset) (ptext ps) /\ ptext (drop i ps') = drop (at_ - offset) (ptext ps).
Proof.
  revert offset. induction ps as [|p ps IH]; intros offset Hv Ha.
  - cbn in Ha |- *. replace (at_ - offset) with 0 by lia. done.
  - apply Forall_cons in Hv as [Hp Hv]. pose proof (piece_length p Hp) as Hl.
    assert (ptext (p :: ps) = piece_in o a p ++ ptext ps) as Ht by done. rewrite Ht in *. rewrite length_app, Hl in Ha. cbn [split_at].
    destruct (Nat.eqb_spec at_ offset) as [->|Hne].
    { rewrite Nat.sub_diag. cbn [take drop]. split_and!; [by constructor|lia|done|exact Ht]. }
    destruct (Nat.ltb_spec at_ (offset + plen p)) as [Hin|Hout].
    + destruct (piece_cut p (at_ - offset) Hp ltac:(lia)) as [C1 C2]. cbn [take drop length]. split_and!.
      * constructor; [|constructor; [|done]]; unfold valid in *; cbn [source pstart plen]; lia.
      * lia.
      * unfold ptext. cbn [map concat]. rewrite app_nil_r, C1, take_app_le by lia. done.
      * unfold ptext. cbn [map concat]. rewrite C2, drop_app_le by lia. done.
    + specialize (IH (offset + plen p) Hv ltac:(lia)). destruct (split_at _ ps at_) as [ps' i]. destruct IH as (I1 & I2 & I3 & I4). cbn [take drop length].
      split_and!; [by constructor|lia| |].
      * unfold ptext in *. cbn [map concat]. rewrite I3, take_app_ge, Hl by lia. do 2 f_equal. lia.
      * rewrite I4, drop_app_ge, Hl by lia. f_equal. lia.
Qed.

(** A split behind the first [k] pieces leaves them. *)
Lemma split_at_behind offset ps at_ k : Forall valid ps -> k <= length ps -> offset + length (ptext (take k ps)) < at_ ->
  let '(ps', i) := split_at offset ps at_ in take k ps' = take k ps /\ k <= i.
Proof.
  revert offset k. induction ps as [|p ps IH]; intros offset k Hv Hk Ha.
  - cbn in Hk |- *. by replace k with 0 by lia.
  - destruct k as [|k]; [destruct (split_at _ _ _); split; [done|lia]|]. apply Forall_cons in Hv as [Hp Hv]. pose proof (piece_length p Hp) as Hl.
    cbn [take length] in *. change (ptext (p :: take k ps)) with (piece_in o a p ++ ptext (take k ps)) in Ha. rewrite length_app, Hl in Ha. cbn [split_at].
    rewrite (proj2 (Nat.eqb_neq _ _)), (proj2 (Nat.ltb_ge _ _)) by lia. specialize (IH (offset + plen p) k Hv ltac:(lia) ltac:(lia)).
    destruct (split_at _ ps at_) as [ps' i]. destruct IH as [I1 I2]. cbn [take]. split; [by rewrite I1|lia].
Qed.
End table.

(** More added text leaves the pieces. *)
Lemma piece_in_grow o a d p : valid o a p -> piece_in o (a ++ d) p = piece_in o a p /\ valid o (a ++ d) p.
Proof.
  unfold valid, piece_in, slice. destruct (source p); [done|]. intros H. rewrite length_app. split; [|lia].
  by rewrite drop_app_le, take_app_le by (rewrite ?length_drop; lia).
Qed.

Lemma ptext_grow o a d ps : Forall (valid o a) ps -> ptext o (a ++ d) ps = ptext o a ps /\ Forall (valid o (a ++ d)) ps.
Proof.
  induction 1 as [|p ps Hp _ [IH1 IH2]]; [done|]. destruct (piece_in_grow o a d p Hp) as [G1 G2]. split; [|by constructor].
  unfold ptext in *. cbn [map concat]. by rewrite G1, IH1.
Qed.

(** ** Line starts *)
Lemma starts_app n a b : starts_from n (a ++ b) = starts_from n a ++ starts_from (n + length a) b.
Proof.
  revert n. induction a as [|x a IH]; intros n; cbn [starts_from app length]; [by rewrite Nat.add_0_r|].
  rewrite IH. replace (S n + length a) with (n + S (length a)) by lia. by case_match.
Qed.

Lemma starts_bound n d s : s ∈ starts_from n d -> n < s <= n + length d.
Proof.
  revert n. induction d as [|x d IH]; intros n; cbn [starts_from length]; [by intros H%elem_of_nil|].
  destruct (x =? NEWLINE)%Z; [intros [->|H]%elem_of_cons; [lia|]|intros H]; apply IH in H; lia.
Qed.

Lemma starts_shift n k d : starts_from (n + k) d = map (fun s => s + k) (starts_from n d).
Proof.
  revert n. induction d as [|x d IH]; intros n; [done|]. cbn [starts_from]. change (S (n + k)) with (S n + k). rewrite IH. by case_match.
Qed.

Lemma map_unchanged {A} (f : A -> A) l : (forall x, x ∈ l -> f x = x) -> map f l = l.
Proof. induction l as [|x l IH]; intros H; [done|]. cbn [map]. rewrite H, IH; [done| |by left]. intros; apply H; by right. Qed.

Record wf (b : Buffer) : Prop := {
  wf_pieces : Forall (valid (original b) (added b)) (pieces b);
  wf_len : blen b = length (ptext (original b) (added b) (pieces b));
  wf_lines : lines b = 0 :: starts_from 0 (ptext (original b) (added b) (pieces b)) }.

Definition content (b : Buffer) : bytes := ptext (original b) (added b) (pieces b).

Lemma cut_spec (P : bytes) offset s e :
  (if (s <? offset + length P) && (offset <? e) then slice P (Nat.max s offset - offset) (Nat.min e (offset + length P) - offset - (Nat.max s offset - offset)) else [])
  = drop (s - offset) (take (e - offset) P).
Proof.
  replace (Nat.max s offset - offset) with (s - offset) by lia. unfold slice. rewrite skipn_firstn_comm.
  destruct (Nat.ltb_spec s (offset + length P)); cbn [andb]; [destruct (Nat.ltb_spec offset e); cbn [andb]|].
  - destruct (decide (e <= offset + length P)); [f_equal; lia|]. rewrite !take_ge by (rewrite length_drop; lia). done.
  - by replace (e - offset) with 0 by lia.
  - rewrite (drop_ge P) by lia. by destruct (e - offset - (s - offset)).
Qed.

Lemma bytes_in_spec b offset ps s e : Forall (valid (original b) (added b)) ps ->
  bytes_in b offset ps s e = drop (s - offset) (take (e - offset) (ptext (original b) (added b) ps)).
Proof.
  revert offset. induction ps as [|p ps IH]; intros offset Hv; [unfold ptext; cbn [map concat]; by rewrite take_nil, drop_nil|]. apply Forall_cons in Hv as [Hp Hv].
  pose proof (piece_length _ _ p Hp) as Hl. cbn [bytes_in]. unfold piece_bytes. change (ptext _ _ (p :: ps)) with (piece_in (original b) (added b) p ++ ptext (original b) (added b) ps).
  set (P := piece_in _ _ p) in *. rewrite IH by done. set (T := ptext _ _ ps). rewrite <- Hl, cut_spec.
  destruct (Nat.leb_spec e (offset + length P)) as [He|He].
  - by rewrite take_app_le by lia.
  - rewrite (take_app_ge P T), (take_ge P) by lia. rewrite drop_app. f_equal. f_equal; [lia|f_equal; lia].
Qed.

Section reads.
Context (b : Buffer) (Hwf : wf b).

Lemma content_len : blen b = length (content b).
Proof. by destruct Hwf. Qed.

Lemma bytes_of_spec s e : bytes_of b s e = drop s (take e (content b)).
Proof.
  destruct Hwf as [Hp Hl _]. unfold bytes_of. rewrite bytes_in_spec by done. rewrite !Nat.sub_0_r, Hl. fold (content b).
  destruct (decide (e <= length (content b))); [f_equal; f_equal; lia|]. rewrite !(take_ge (content b)) by lia. done.
Qed.

Lemma text_content : text b = content b.
Proof. unfold text. rewrite bytes_of_spec, content_len. by rewrite take_ge, drop_0 by done. Qed.

Lemma byte_in_spec offset ps at_ : Forall (valid (original b) (added b)) ps -> offset <= at_ ->
  byte_in b offset ps at_ = ptext (original b) (added b) ps !! (at_ - offset).
Proof.
  revert offset. induction ps as [|p ps IH]; intros offset Hv Ha; [done|]. apply Forall_cons in Hv as [Hp Hv]. pose proof (piece_length _ _ p Hp) as Hl.
  cbn [byte_in]. change (ptext _ _ (p :: ps)) with (piece_in (original b) (added b) p ++ ptext (original b) (added b) ps). unfold piece_bytes.
  destruct (Nat.ltb_spec at_ (offset + plen p)); [by rewrite lookup_app_l by lia|]. rewrite IH, lookup_app_r, Hl by (done || lia). f_equal. lia.
Qed.

Lemma byte_spec at_ : byte b at_ = content b !! at_.
Proof. unfold byte. rewrite byte_in_spec by (apply Hwf || lia). by rewrite Nat.sub_0_r. Qed.

(** The starts of lines up to a place, and after it. *)
Lemma lines_at at_ : at_ <= length (content b) ->
  lines b = (0 :: starts_from 0 (take at_ (content b))) ++ starts_from at_ (drop at_ (content b)) /\
  line_of b at_ + 1 = length (0 :: starts_from 0 (take at_ (content b))).
Proof.
  intros Ha. assert (lines b = (0 :: starts_from 0 (take at_ (content b))) ++ starts_from at_ (drop at_ (content b))) as Hls.
  { destruct Hwf as [_ _ ->]. fold (content b). rewrite <- (take_drop at_ (content b)) at 1. rewrite starts_app, length_take.
    cbn [app]. by replace (0 + Nat.min at_ (length (content b))) with at_ by lia. }
  split; [done|]. unfold line_of. rewrite Hls, filter_app, filter_every, filter_none, app_nil_r.
  - cbn [length]. lia.
  - intros x Hx%starts_bound. lia.
  - intros x [->|Hx%starts_bound]%elem_of_cons; [lia|]. rewrite length_take in Hx. lia.
Qed.
End reads.

(** ** Changes of the text *)

(** The history of two buffers is the same. *)
Definition same_history (b b' : Buffer) : Prop := undos b' = undos b /\ redos b' = redos b /\ saved b' = saved b /\ open_group b' = open_group b.

(** The pieces after an insertion. *)
Lemma insert_pieces o a d ps i T at_ : Forall (valid o a) ps -> i <= length ps -> d <> [] ->
  ptext o a (take i ps) = take at_ T -> ptext o a (drop i ps) = drop at_ T ->
  let ps' := match i with
             | S j => match ps !! j with
                      | Some p => if bool_decide (source p = Added) && (pstart p + plen p =? length a)
                                  then <[j := mkPiece Added (pstart p) (plen p + length d)]> ps
                                  else take i ps ++ mkPiece Added (length a) (length d) :: drop i ps
                      | None => ps
                      end
             | O => mkPiece Added (length a) (length d) :: ps
             end in
  Forall (valid o (a ++ d)) ps' /\ ptext o (a ++ d) ps' = take at_ T ++ d ++ drop at_ T.
Proof.
  intros Hv Hi Hd H1 H2. destruct (ptext_grow o a d ps Hv) as [_ Hv']. set (q := mkPiece Added (length a) (length d)).
  assert (valid o (a ++ d) q /\ piece_in o (a ++ d) q = d) as [Hq Hq'].
  { unfold valid, piece_in, q, slice. cbn [source pstart plen]. rewrite length_app, drop_app_length, take_ge by lia. done. }
  assert (forall k, ptext o (a ++ d) (take k ps) = ptext o a (take k ps) /\ ptext o (a ++ d) (drop k ps) = ptext o a (drop k ps)) as Hg.
  { intros k. split; apply ptext_grow; [by apply Forall_take|by apply Forall_drop]. }
  assert (Forall (valid o (a ++ d)) (take i ps ++ q :: drop i ps) /\ ptext o (a ++ d) (take i ps ++ q :: drop i ps) = take at_ T ++ d ++ drop at_ T) as Hins.
  { split; [apply Forall_app; split; [by apply Forall_take|constructor; [done|by apply Forall_drop]]|].
    rewrite ptext_app. change (ptext o (a ++ d) (q :: drop i ps)) with (piece_in o (a ++ d) q ++ ptext o (a ++ d) (drop i ps)).
    destruct (Hg i) as [-> ->]. by rewrite Hq', H1, H2. }
  destruct i as [|j]; [exact Hins|]. destruct (ps !! j) as [p|] eqn:Hj; [|apply lookup_ge_None in Hj; lia]. case_match eqn:Hc; [|exact Hins].
  apply andb_true_iff in Hc as [Hs He]. apply bool_decide_eq_true in Hs. apply Nat.eqb_eq in He. set (p' := mkPiece _ _ _).
  assert (valid o a p) as Hp by (by eapply Forall_lookup_1).
  assert (valid o (a ++ d) p' /\ piece_in o (a ++ d) p' = piece_in o a p ++ d) as [Hp' Hb'].
  { unfold valid, piece_in, p', slice in *. cbn [source pstart plen]. rewrite Hs in *. rewrite length_app. split; [lia|].
    rewrite drop_app_le by lia. rewrite take_ge by (rewrite length_app, length_drop; lia). f_equal. rewrite take_ge; [done|]. rewrite length_drop. lia. }
  rewrite insert_take_drop by lia. rewrite (take_S_r _ _ _ Hj), ptext_app in H1. split.
  - apply Forall_app. split; [by apply Forall_take|]. constructor; [done|by apply Forall_drop].
  - rewrite ptext_app. change (ptext o (a ++ d) (p' :: drop (S j) ps)) with (piece_in o (a ++ d) p' ++ ptext o (a ++ d) (drop (S j) ps)).
    rewrite (proj1 (Hg j)), (proj2 (Hg (S j))), Hb', H2, <- H1. unfold ptext. cbn [map concat]. rewrite app_nil_r, <- !app_assoc. done.
Qed.

Lemma raw_insert_spec b at_ d : wf b -> at_ <= length (content b) ->
  let b' := raw_insert b at_ d in
  wf b' /\ content b' = take at_ (content b) ++ d ++ drop at_ (content b) /\ same_history b b'.
Proof.
  intros Hwf Ha. unfold raw_insert. case_decide as Hd; [subst d; split_and!; try done; cbn [app]; by rewrite take_drop|].
  rewrite (content_len b Hwf), (Nat.min_l at_) by done. pose proof (split_at_spec (original b) (added b) 0 (pieces b) at_ (wf_pieces b Hwf) ltac:(unfold content in Ha; lia)) as Hs.
  destruct (split_at 0 (pieces b) at_) as [ps i]. destruct Hs as (S1 & S2 & S3 & S4). rewrite Nat.sub_0_r in *.
  destruct (insert_pieces (original b) (added b) d ps i (content b) at_ S1 S2 Hd S3 S4) as [I1 I2].
  set (ps' := match i with O => _ | S _ => _ end) in *.
  destruct (lines_at b Hwf at_ Ha) as [L1 L2].
  split; [|split; [exact I2|done]]. constructor; cbn [original added pieces blen lines with_text]; [done| |]; rewrite I2.
  - rewrite !length_app, length_take, length_drop. lia.
  - rewrite L2, L1, take_app_length, drop_app_length. rewrite !starts_app, length_take, Nat.min_l by done. cbn [Nat.add app]. do 3 f_equal.
    symmetry. apply starts_shift.
Qed.

Lemma raw_delete_spec b start end_ : wf b ->
  let b' := (raw_delete b start end_).1 in
  let e := Nat.max start (Nat.min end_ (length (content b))) in
  wf b' /\ content b' = take start (content b) ++ drop e (content b) /\ (raw_delete b start end_).2 = slice (content b) start (e - start) /\ same_history b b'.
Proof.
  intros Hwf. unfold raw_delete. rewrite (content_len b Hwf). set (e0 := Nat.min end_ (length (content b))).
  destruct (Nat.leb_spec e0 start) as [He|He]; cbn [fst snd].
  { rewrite Nat.max_l by done. rewrite Nat.sub_diag, take_drop. done. }
  rewrite (Nat.max_r start e0) by lia. rewrite (bytes_of_spec b Hwf).
  pose proof (split_at_spec (original b) (added b) 0 (pieces b) start (wf_pieces b Hwf) ltac:(unfold content in *; lia)) as Hs.
  destruct (split_at 0 (pieces b) start) as [ps i]. destruct Hs as (S1 & S2 & S3 & S4). rewrite Nat.sub_0_r in *.
  assert (ptext (original b) (added b) ps = content b) as Hps by (rewrite <- (take_drop i ps), ptext_app, S3, S4; apply take_drop).
  pose proof (split_at_spec (original b) (added b) 0 ps e0 S1 ltac:(rewrite Hps; lia)) as Ht.
  pose proof (split_at_behind (original b) (added b) 0 ps e0 i S1 S2 ltac:(rewrite S3, length_take; fold (content b); lia)) as Hb.
  destruct (split_at 0 ps e0) as [qs j]. destruct Ht as (T1 & T2 & T3 & T4), Hb as [B1 B2]. rewrite Nat.sub_0_r, Hps in *.
  destruct (lines_at b Hwf start ltac:(lia)) as [L1 _].
  assert (ptext (original b) (added b) (take i qs ++ drop j qs) = take start (content b) ++ drop e0 (content b)) as Hq by (by rewrite ptext_app, T4, B1, S3).
  split_and!; cbn [fst snd]; [|exact Hq| |done].
  - constructor; cbn [original added pieces blen lines with_text]; [apply Forall_app; split; [by apply Forall_take|by apply Forall_drop]| |]; rewrite Hq.
    + rewrite length_app, length_take, length_drop. lia.
    + rewrite L1, <- (take_drop (e0 - start) (drop start (content b))), starts_app, drop_drop, length_take, length_drop.
      replace (start + (e0 - start)) with e0 by lia. replace (start + Nat.min (e0 - start) (length (content b) - start)) with e0 by lia.
      rewrite !filter_app, map_app, map_app.
      rewrite (filter_every _ (0 :: _)), (filter_none _ (starts_from start _)), (filter_every _ (starts_from e0 _)).
      * rewrite starts_app, length_take. cbn [app map]. rewrite (proj2 (Nat.ltb_ge e0 0)) by lia. f_equal. f_equal.
        -- apply map_unchanged. intros x Hx%starts_bound. rewrite length_take in Hx. by rewrite (proj2 (Nat.ltb_ge _ _)) by lia.
        -- replace e0 with (start + (e0 - start)) at 1 by lia. rewrite starts_shift, map_map. replace (0 + Nat.min start (length (content b))) with start by lia.
           apply map_unchanged. intros x Hx%starts_bound. rewrite (proj2 (Nat.ltb_lt _ _)) by lia. lia.
      * intros x Hx%starts_bound. lia.
      * intros x Hx%starts_bound. rewrite length_take, length_drop in Hx. lia.
      * intros x [->|Hx%starts_bound]%elem_of_cons; [lia|]. rewrite length_take in Hx. lia.
  - unfold slice. by rewrite skipn_firstn_comm.
Qed.

(** ** Undo and redo *)

(** A change of a byte list, where it fits one, and the texts a group of changes goes through. *)
Definition do_change (c : Change) (t : bytes) : bytes :=
  match c with
  | Insert at_ d => take at_ t ++ d ++ drop at_ t
  | Delete at_ d => take at_ t ++ drop (at_ + length d) t
  end.
Definition fits (c : Change) (t : bytes) : Prop :=
  match c with
  | Insert at_ _ => at_ <= length t
  | Delete at_ d => at_ + length d <= length t /\ slice t at_ (length d) = d
  end.
Inductive leads : bytes -> list Change -> bytes -> Prop :=
| leads_nil t : leads t [] t
| leads_cons t c cs t' : fits c t -> leads (do_change c t) cs t' -> leads t (c :: cs) t'.

Lemma leads_app t cs t' ds t'' : leads t cs t' -> leads t' ds t'' -> leads t (cs ++ ds) t''.
Proof. induction 1 as [|t c cs t' Hf _ IH]; [done|]. intros H. cbn [app]. apply leads_cons; auto. Qed.

Lemma same_history_trans a b c : same_history a b -> same_history b c -> same_history a c.
Proof. unfold same_history. intros (? & ? & ? & ?) (? & ? & ? & ?). split_and!; congruence. Qed.

Lemma apply_forward b c : wf b -> fits c (content b) ->
  let b' := apply_change true b c in wf b' /\ content b' = do_change c (content b) /\ same_history b b'.
Proof.
  intros Hwf Hf. destruct c as [at_ d|at_ d]; cbn [apply_change do_change fits] in *; [by apply raw_insert_spec|].
  destruct Hf as [Hl _]. destruct (raw_delete_spec b at_ (at_ + length d) Hwf) as (H1 & H2 & _ & H3). split_and!; [done| |done].
  rewrite H2. do 2 f_equal. lia.
Qed.

Lemma apply_backward b c t : wf b -> fits c t -> content b = do_change c t ->
  let b' := apply_change false b c in wf b' /\ content b' = t /\ same_history b b'.
Proof.
  intros Hwf Hf Hc. destruct c as [at_ d|at_ d]; cbn [apply_change do_change fits] in *.
  - destruct (raw_delete_spec b at_ (at_ + length d) Hwf) as (H1 & H2 & _ & H3). split_and!; [done| |done]. rewrite H2, Hc.
    rewrite !length_app, length_take, length_drop. replace (Nat.max at_ _) with (at_ + length d) by lia.
    assert (length (take at_ t) = at_) as Hl by (rewrite length_take; lia).
    rewrite take_app_length' by done. rewrite drop_app_ge, Hl by lia. replace (at_ + length d - at_) with (length d) by lia. by rewrite drop_app_length, take_drop.
  - destruct Hf as [Hl Hs]. assert (length (take at_ t) = at_) as Hk by (rewrite length_take; lia).
    destruct (raw_insert_spec b at_ d Hwf) as (H1 & H2 & H3); [rewrite Hc, length_app; lia|]. split_and!; [done| |done]. rewrite H2, Hc.
    rewrite take_app_length', drop_app_length' by done. rewrite <- Hs at 1. rewrite <- drop_slice. apply take_drop.
Qed.

Lemma changes_forward b cs t : wf b -> leads (content b) cs t ->
  let b' := foldl (apply_change true) b cs in wf b' /\ content b' = t /\ same_history b b'.
Proof.
  revert b. induction cs as [|c cs IH]; intros b Hwf H; inversion H as [|? ? ? ? Hf Hr]; subst; [done|]. cbn [foldl].
  destruct (apply_forward b c Hwf Hf) as (A1 & A2 & A3). rewrite <- A2 in Hr. destruct (IH _ A1 Hr) as (B1 & B2 & B3).
  split_and!; [done|done|]. by eapply same_history_trans.
Qed.

Lemma changes_backward b cs t : wf b -> leads t cs (content b) ->
  let b' := foldl (apply_change false) b (reverse cs) in wf b' /\ content b' = t /\ same_history b b'.
Proof.
  revert t. induction cs as [|c cs IH]; intros t Hwf H; inversion H as [|? ? ? ? Hf Hr]; subst; [done|]. rewrite reverse_cons, foldl_snoc.
  destruct (IH _ Hwf Hr) as (B1 & B2 & B3). destruct (apply_backward _ c t B1 Hf B2) as (A1 & A2 & A3).
  split_and!; [done|done|]. by eapply same_history_trans.
Qed.

(** The texts the groups of an undo stack and a redo stack step along. *)
Definition trail (gs : list Group) (ts : list bytes) : Prop :=
  length ts = S (length gs) /\ forall i g, gs !! i = Some g -> exists t t', ts !! i = Some t /\ ts !! S i = Some t' /\ leads t (changes g) t'.

(** The history a user sees: the texts undo goes back to, oldest first, the text now, the texts redo goes on to, and
    whether typing now joins what was typed last. An edit that joins changes the text now; any other is a text of its
    own. *)
Record Hist : Type := mkHist { past : list bytes; present : bytes; future : list bytes; joins : bool }.
Definition texts (h : Hist) : list bytes := past h ++ present h :: future h.
Definition edited (ty : bool) (t : bytes) (h : Hist) : Hist :=
  if ty && joins h then mkHist (past h) t [] true else mkHist (past h ++ [present h]) t [] ty.
Definition no_join (h : Hist) : Hist := mkHist (past h) (present h) (future h) false.

(** A buffer with that history, opened with the text [orig] and saved last with [sv]. *)
Record tracks (orig sv : bytes) (b : Buffer) (h : Hist) : Prop := {
  tr_wf : wf b;
  tr_trail : trail (undos b ++ reverse (redos b)) (texts h);
  tr_past : length (past h) = length (undos b);
  tr_now : present h = content b;
  tr_first : texts h !! 0 = Some orig;
  tr_saved : forall s, saved b = Some s -> texts h !! s = Some sv;
  tr_joins : joins h = open_group b;
  tr_open : open_group b = true -> redos b = [] /\ saved b <> Some (length (undos b)) /\ exists g, last (undos b) = Some g /\ typing g = true }.

Lemma texts_now h : texts h !! length (past h) = Some (present h).
Proof. unfold texts. by rewrite lookup_app_r, Nat.sub_diag by lia. Qed.
Lemma tracks_future orig sv b h : tracks orig sv b h -> length (future h) = length (redos b).
Proof. intros [_ [Hl _] Hp _ _ _ _ _]. unfold texts in Hl. rewrite !length_app, length_reverse in Hl. cbn [length] in Hl. lia. Qed.

(** A group pushed on the undo stack: what was to be redone is gone. *)
Lemma trail_push gs rest ts g t t' : trail (gs ++ rest) ts -> ts !! length gs = Some t -> leads t (changes g) t' ->
  trail (gs ++ [g]) (take (S (length gs)) ts ++ [t']).
Proof.
  intros [Hl Ht] Hn Hld. rewrite length_app in Hl. assert (length (take (S (length gs)) ts) = S (length gs)) as Hk by (rewrite length_take; lia). split.
  - rewrite !length_app, Hk. cbn [length]. lia.
  - intros i h Hi. apply lookup_app_Some in Hi as [Hi|[Hge Hi]].
    + pose proof (lookup_lt_Some _ _ _ Hi) as Hlt. destruct (Ht i h) as (x & y & Hx & Hy & Hxy); [by rewrite lookup_app_l|].
      exists x, y. rewrite !lookup_app_l, !lookup_take_lt by lia. done.
    + apply list_lookup_singleton_Some in Hi as [Hi ->]. replace i with (length gs) by lia. exists t, t'.
      rewrite lookup_app_l, lookup_take_lt, lookup_app_r, Hk, Nat.sub_diag by lia. done.
Qed.

Lemma take_texts h : take (S (length (past h))) (texts h) = past h ++ [present h].
Proof. unfold texts. change (present h :: future h) with ([present h] ++ future h). rewrite app_assoc. apply take_app_length'. rewrite length_app. cbn. lia. Qed.

(** The texts up to the one now, with another after them. *)
Lemma texts_kept (h : Hist) t f k : k <= length (past h) -> (past h ++ [present h] ++ t :: f) !! k = texts h !! k.
Proof.
  intros Hk. unfold texts. destruct (decide (k = length (past h))) as [->|]; [by rewrite !(lookup_app_r (past h)), Nat.sub_diag by lia|]. by rewrite !lookup_app_l by lia.
Qed.

(** A new group of changes, with the saved depth kept only below it. *)
Lemma group_push_ok orig sv b b' g h : wf b' -> tracks orig sv b h -> leads (content b) (changes g) (content b') ->
  undos b' = undos b ++ [g] -> redos b' = [] -> saved b' = keep_saved b -> (open_group b' = true -> typing g = true) -> forall t j, content b' = t -> open_group b' = j ->
  tracks orig sv b' (mkHist (past h ++ [present h]) t [] j).
Proof.
  intros Hwf [_ Ht Hp Hn H0 Hs _ _] Hl Hu Hr Hsv Hop ? ? <- <-. constructor; unfold texts; cbn [past present future joins]; rewrite ?Hu, ?Hr; try done.
  - cbn [reverse rev_append]. rewrite app_nil_r. pose proof (texts_now h) as Hnow. rewrite Hp in Hnow.
    pose proof (trail_push _ _ _ g _ _ Ht Hnow ltac:(rewrite Hn; exact Hl)) as H. rewrite <- Hp in H. by rewrite take_texts in H.
  - rewrite !length_app. cbn. lia.
  - rewrite <- app_assoc. rewrite texts_kept by lia. done.
  - intros s. rewrite Hsv. unfold keep_saved. destruct (saved b) as [s'|] eqn:E; [|done]. destruct (Nat.ltb_spec (length (undos b)) s'); [done|]. intros [= <-].
    rewrite <- app_assoc, texts_kept by lia. by apply Hs.
  - intros Ho. split; [done|]. split; [|exists g; split; [by rewrite last_snoc|auto]]. rewrite Hsv. unfold keep_saved. destruct (saved b) as [s'|]; [|done].
    destruct (Nat.ltb_spec (length (undos b)) s'); [done|]. intros [= ->]. rewrite length_app in *. cbn in *. lia.
Qed.

(** A change joined to the last group. *)
Lemma merge_ok orig sv b b' g c ca h : wf b' -> tracks orig sv b h -> last (undos b) = Some g -> open_group b = true ->
  leads (content b) [c] (content b') -> undos b' = take (length (undos b) - 1) (undos b) ++ [mkGroup (changes g ++ [c]) (before g) ca (typing g)] -> redos b' = [] ->
  saved b' = saved b -> open_group b' = true -> tracks orig sv b' (mkHist (past h) (content b') [] true).
Proof.
  intros Hwf [_ Ht Hp Hn H0 Hs _ Ho] Hlast Hopen Hl Hu Hr Hsv Hop. destruct (Ho Hopen) as (Hre & Hne & g' & Hg' & Hty). rewrite Hlast in Hg'. injection Hg' as <-.
  apply last_Some in Hlast as [us Hus]. rewrite Hre in Ht. cbn [reverse rev_append] in Ht. rewrite app_nil_r in Ht.
  assert (undos b' = us ++ [mkGroup (changes g ++ [c]) (before g) ca (typing g)]) as Hu'.
  { rewrite Hu, Hus, length_app. cbn [length]. replace (length us + 1 - 1) with (length us) by lia. by rewrite take_app_length. }
  assert (length (undos b) = S (length us)) as Hlen by (rewrite Hus, length_app; cbn; lia).
  destruct Ht as [Htl Ht]. destruct (Ht (length us) g) as (t & t' & Hx & Hy & Hxy); [by rewrite Hus, lookup_app_r, Nat.sub_diag by lia|].
  rewrite <- Hlen, <- Hp, texts_now in Hy. injection Hy as <-. rewrite Hn in Hxy.
  assert (take (S (length us)) (texts h) = past h) as Htk by (rewrite <- Hlen, <- Hp; unfold texts; apply take_app_length).
  constructor; unfold texts; cbn [past present future joins]; rewrite ?Hu', ?Hr; try done.
  - cbn [reverse rev_append]. rewrite app_nil_r, <- Htk. apply (trail_push us [g] _ _ t); [by rewrite <- Hus|done|]. cbn [changes]. by eapply leads_app.
  - rewrite length_app. cbn. lia.
  - destruct (past h) as [|p ps] eqn:Hpast; [cbn in Hp; lia|]. unfold texts in H0. by rewrite Hpast in H0.
  - intros s Hs'. rewrite Hsv in Hs'. pose proof (Hs s Hs') as Hts. assert (s < length (past h)) as Hlt.
    { pose proof (lookup_lt_Some _ _ _ Hts). destruct (decide (s = length (undos b))) as [->|]; [by rewrite Hs' in Hne|].
      rewrite Hus in Htl. rewrite length_app in Htl. cbn in Htl. lia. }
    unfold texts in Hts. rewrite lookup_app_l in * by done. done.
  - intros _. split; [done|]. split; [rewrite Hsv, length_app, Nat.add_comm; cbn [length Nat.add]; by rewrite <- Hlen|]. eexists. split; [by rewrite last_snoc|done].
Qed.

Lemma record_ok orig sv b0 b c cb ca ty h : wf b -> tracks orig sv b0 h -> same_history b0 b -> leads (content b0) [c] (content b) ->
  tracks orig sv (record b c cb ca ty) (edited ty (content b) h).
Proof.
  intros Hwf Hh (E1 & E2 & E3 & E4) Hl. unfold record, edited. rewrite (tr_joins _ _ _ _ Hh).
  assert (forall x, wf (with_history b x.1.1 x.1.2 x.2.1 x.2.2)) as Hw by (intros x; by destruct Hwf; constructor).
  assert (tracks orig sv (with_history b (undos b ++ [mkGroup [c] cb ca ty]) [] (keep_saved b) ty) (mkHist (past h ++ [present h]) (content b) [] ty)) as Hpush.
  { eapply (group_push_ok orig sv b0 _ (mkGroup [c] cb ca ty)); [apply (Hw ((_, _), (_, _)))|exact Hh|exact Hl|cbn; by rewrite E1|done| |done|done|done]. cbn. unfold keep_saved. by rewrite E1, E3. }
  rewrite E1 in *. destruct (ty && open_group b0) eqn:Hty.
  - apply andb_true_iff in Hty as [-> Hop]. destruct (tr_open _ _ _ _ Hh Hop) as (_ & _ & g & Hg & Hgt). rewrite E4, Hop, Hg, Hgt. cbn [andb].
    apply (merge_ok orig sv b0 (with_history b (take (length (undos b0) - 1) (undos b0) ++ [mkGroup (changes g ++ [c]) (before g) ca true]) [] (saved b) true) g c ca h); try done; [apply (Hw ((_, _), (_, _)))|by rewrite Hgt].
  - assert ((match last (undos b0) with Some g => ty && open_group b && typing g | None => false end) = false) as Hm by (rewrite E4, Hty; by case_match).
    destruct (last (undos b0)) as [g|]; [by rewrite Hm|done].
Qed.

(** The edits of a text: what each is to make of it. *)
Definition insert_text (at_ : nat) (d t : bytes) : bytes := take at_ t ++ d ++ drop at_ t.
Definition delete_text (s e : nat) (t : bytes) : bytes := take s t ++ drop e t.
Definition replace_text (s e : nat) (d t : bytes) : bytes := take s t ++ d ++ drop e t.
Definition hist_insert (at_ : nat) (d : bytes) (ty : bool) (h : Hist) : Hist :=
  if bool_decide (d = []) || (LIMIT <? Z.of_nat (length (present h) + length d))%Z then h else edited ty (insert_text at_ d (present h)) h.
Definition hist_delete (s e : nat) (ty : bool) (h : Hist) : Hist :=
  let e := Nat.min e (length (present h)) in if e <=? s then h else edited ty (delete_text s e (present h)) h.
Definition hist_replace (s e : nat) (d : bytes) (h : Hist) : Hist :=
  let e := Nat.min e (length (present h)) in
  if (e <? s) || (LIMIT <? Z.of_nat (length (present h) - (e - s) + length d))%Z then h else edited false (replace_text s e d (present h)) h.
Definition hist_replace_all (ranges : list (nat * nat)) (d : bytes) (h : Hist) : Hist :=
  let removed := sum_list (map (fun r => r.2 - r.1) ranges) in
  if bool_decide (ranges = []) || (LIMIT <? Z.of_nat (length (present h) - removed + length ranges * length d))%Z then h
  else edited false (foldr (fun r => replace_text r.1 r.2 d) (present h) ranges) h.
Definition hist_undo (h : Hist) : Hist :=
  match last (past h) with None => no_join h | Some t => mkHist (take (length (past h) - 1) (past h)) t (present h :: future h) false end.
Definition hist_redo (h : Hist) : Hist :=
  match future h with [] => h | t :: f => mkHist (past h ++ [present h]) t f (joins h) end.

Lemma tracks_len orig sv b h : tracks orig sv b h -> blen b = length (present h).
Proof. intros Hh. rewrite (tr_now _ _ _ _ Hh). apply content_len, (tr_wf _ _ _ _ Hh). Qed.

Lemma insert_ok orig sv b at_ d ty h : tracks orig sv b h -> at_ <= length (present h) -> tracks orig sv (insert b at_ d ty) (hist_insert at_ d ty h).
Proof.
  intros Hh Ha. unfold insert, hist_insert. rewrite (tracks_len _ _ _ _ Hh). case_match; [done|]. pose proof (tr_wf _ _ _ _ Hh) as Hwf. rewrite (tr_now _ _ _ _ Hh) in *.
  destruct (raw_insert_spec b at_ d Hwf Ha) as (H1 & H2 & H3). unfold insert_text. rewrite <- H2. eapply record_ok; [done|exact Hh|done|]. rewrite H2. apply leads_cons; [exact Ha|constructor].
Qed.

(** What [raw_delete] does is the change recorded for it. *)
Lemma delete_leads b start end_ : wf b ->
  let '(b', removed) := raw_delete b start end_ in
  wf b' /\ same_history b b' /\ (start <= length (content b) -> leads (content b) [Delete start removed] (content b')) /\ (removed = [] -> content b' = content b) /\
  (removed <> [] -> start <= length (content b)) /\ (start <= length (content b) -> start <= length (content b')).
Proof.
  intros Hwf. destruct (raw_delete_spec b start end_ Hwf) as (H1 & H2 & H3 & H4). destruct (raw_delete b start end_) as [b' removed]. cbn [fst snd] in *.
  set (e := Nat.max start _) in *. assert (start <= length (content b) -> e <= length (content b) /\ length removed = e - start) as He.
  { intros Hs. split; [lia|]. rewrite H3. apply slice_length. lia. }
  assert (start <= length (content b) -> e = start + length removed) as He' by (intros Hs; destruct (He Hs); lia).
  split_and!; [done|done| | | |].
  - intros Hs. rewrite H2, (He' Hs). apply leads_cons; [|constructor]. cbn [fits]. destruct (He Hs) as [H5 H6]. split; [lia|]. rewrite H6. by rewrite <- H3.
  - intros ->. rewrite H2. destruct (decide (start <= length (content b))) as [Hs|Hs].
    + rewrite (He' Hs). cbn [length]. by rewrite Nat.add_0_r, take_drop.
    + rewrite take_ge, drop_ge, app_nil_r by lia. done.
  - intros Hne. destruct (decide (start <= length (content b))) as [|Hs]; [done|]. exfalso. apply Hne. rewrite H3. unfold slice. rewrite drop_ge by lia. apply take_nil.
  - intros Hs. rewrite H2, length_app, length_take. lia.
Qed.

Lemma raw_delete_removed b start end_ : (raw_delete b start end_).2 = if Nat.min end_ (blen b) <=? start then [] else bytes_of b start (Nat.min end_ (blen b)).
Proof. unfold raw_delete. case_match; [done|]. destruct (split_at _ _ start) as [ps f]. by destruct (split_at _ ps _). Qed.

Lemma tracks_same orig sv b b' h : wf b' -> tracks orig sv b h -> same_history b b' -> content b' = content b -> tracks orig sv b' h.
Proof. intros Hwf [] (E1 & E2 & E3 & E4) Hc. constructor; rewrite ?E1, ?E2, ?E3, ?E4, ?Hc; done. Qed.

Lemma delete_ok orig sv b start end_ ty h : tracks orig sv b h -> tracks orig sv (delete b start end_ ty).1 (hist_delete start end_ ty h).
Proof.
  intros Hh. pose proof (tr_wf _ _ _ _ Hh) as Hwf. unfold delete, hist_delete. pose proof (delete_leads b start end_ Hwf) as H. pose proof (raw_delete_removed b start end_) as Hrem.
  destruct (raw_delete_spec b start end_ Hwf) as (_ & Hc & _ & _). rewrite (tracks_len _ _ _ _ Hh), (tr_now _ _ _ _ Hh) in Hrem. rewrite (tr_now _ _ _ _ Hh).
  destruct (raw_delete b start end_) as [b' removed]. cbn [fst snd] in *. destruct H as (H1 & H2 & H3 & H4 & H5 & _). set (e := Nat.min end_ (length (content b))) in *.
  destruct (Nat.leb_spec e start) as [Hle|Hlt].
  - rewrite decide_True by done. by apply (tracks_same _ _ b); auto.
  - rewrite decide_False.
    2: { intros E. rewrite E in Hrem. apply (f_equal length) in Hrem. rewrite (bytes_of_spec b Hwf), length_drop, length_take in Hrem. cbn in Hrem. lia. }
    rewrite Nat.max_r in Hc by lia. unfold delete_text. rewrite <- Hc. eapply record_ok; [done|exact Hh|done|]. apply H3. lia.
Qed.

Lemma closed_ok orig sv b h : tracks orig sv b h -> tracks orig sv (close_group b) (no_join h).
Proof. intros [[] ? ? ? ? ? ? ?]. constructor; try done. Qed.

Lemma wf_history b u r sv og : wf b -> wf (with_history b u r sv og).
Proof. intros []. by constructor. Qed.

Lemma keep_saved_same b b' : same_history b b' -> keep_saved b' = keep_saved b.
Proof. intros (E1 & _ & E3 & _). unfold keep_saved. by rewrite E1, E3. Qed.

Lemma leads_delete_opt t start removed t' : leads t [Delete start removed] t' -> leads t (if decide (removed = []) then [] else [Delete start removed]) t'.
Proof.
  case_decide as Hr; [|done]. intros H. subst removed. inversion H as [|? ? ? ? Hf Hr]; subst. inversion Hr; subst. cbn [do_change length]. rewrite Nat.add_0_r, take_drop. constructor.
Qed.

Lemma leads_insert_opt t at_ d : at_ <= length t -> leads t (if decide (d = []) then [] else [Insert at_ d]) (do_change (Insert at_ d) t).
Proof.
  intros Ha. case_decide as Hd; [subst d; cbn [do_change app]; rewrite take_drop; constructor|]. apply leads_cons; [exact Ha|constructor].
Qed.

Lemma replace_ok orig sv b start end_ d h : tracks orig sv b h -> tracks orig sv (replace b start end_ d) (hist_replace start end_ d h).
Proof.
  intros Hh. pose proof (tr_wf _ _ _ _ Hh) as Hwf. unfold replace, hist_replace. rewrite (tracks_len _ _ _ _ Hh). case_match eqn:Hc; [done|]. apply orb_false_iff in Hc as [Hse%Nat.ltb_ge _].
  pose proof (tr_now _ _ _ _ Hh) as Hnow. rewrite Hnow in *. pose proof (closed_ok _ _ _ _ Hh) as Hhc. pose proof (tr_wf _ _ _ _ Hhc) as Hwc. set (e := Nat.min end_ _) in *.
  pose proof (delete_leads (close_group b) start e Hwc) as H. destruct (raw_delete_spec (close_group b) start e Hwc) as (_ & Hdel & _ & _).
  destruct (raw_delete (close_group b) start e) as [b1 removed]. cbn [fst] in Hdel.
  change (content (close_group b)) with (content b) in *. destruct H as (H1 & H2 & H3 & _ & _ & H6).
  assert (start <= length (content b)) as Hs by lia. destruct (raw_insert_spec b1 start d H1 (H6 Hs)) as (I1 & I2 & I3).
  pose proof (same_history_trans _ _ _ H2 I3) as Hsame. pose proof Hsame as (E1 & E2 & E3 & E4).
  assert (content (raw_insert b1 start d) = replace_text start e d (content b)) as Ht.
  { rewrite I2, Hdel. replace (Nat.max start (Nat.min e (length (content b)))) with e by lia. unfold replace_text.
    assert (length (take start (content b)) = start) as Hl by (rewrite length_take; lia). by rewrite take_app_length', drop_app_length' by done. }
  rewrite <- Ht. unfold edited. cbn [andb]. rewrite Hnow. change (past h) with (past (no_join h)). rewrite <- Hnow. change (present h) with (present (no_join h)).
  eapply (group_push_ok orig sv (close_group b) (with_history _ _ [] _ false) (mkGroup _ e (start + length d) false)); [by apply wf_history|exact Hhc| |cbn [undos with_history]; rewrite E1; reflexivity|done| |done|done|done].
  - cbn [changes]. change (content (with_history ?x _ _ _ _)) with (content x). eapply leads_app; [apply leads_delete_opt; by apply H3|].
    rewrite I2. apply (leads_insert_opt (content b1)). by apply H6.
  - cbn [saved with_history]. by apply keep_saved_same.
Qed.

(** Ranges as [replace_all] takes them: within the text, in order and apart. *)
Fixpoint ranges_ok (from : nat) (ranges : list (nat * nat)) (limit : nat) : Prop :=
  match ranges with
  | [] => from <= limit
  | (s, e) :: ranges => from <= s <= e /\ ranges_ok e ranges limit
  end.

Lemma ranges_ok_snoc from ranges s e limit : ranges_ok from (ranges ++ [(s, e)]) limit -> ranges_ok from ranges s /\ s <= e <= limit.
Proof.
  revert from. induction ranges as [|[s' e'] ranges IH]; intros from; cbn [app ranges_ok]; [intros ([? ?] & ?); lia|].
  intros [H1 H2]. destruct (IH _ H2). split; [by split|lia].
Qed.

Lemma replace_fold d ranges b cs : wf b -> ranges_ok 0 ranges (length (content b)) ->
  let '(b', cs') := foldl (replace_one d) (b, cs) (reverse ranges) in
  wf b' /\ same_history b b' /\ content b' = foldr (fun r => replace_text r.1 r.2 d) (content b) ranges /\ exists ds, cs' = cs ++ ds /\ leads (content b) ds (content b').
Proof.
  revert b cs. induction ranges as [|[s e] ranges IH] using rev_ind; intros b cs Hwf Hr.
  - cbn. split_and!; [done|done|done|]. exists []. split; [by rewrite app_nil_r|constructor].
  - apply ranges_ok_snoc in Hr as [Hr Hse]. rewrite reverse_snoc, foldr_app. cbn [foldl foldr]. unfold replace_one at 2. cbn [fst snd].
    pose proof (delete_leads b s e Hwf) as H. destruct (raw_delete_spec b s e Hwf) as (_ & Hdel & _ & _). destruct (raw_delete b s e) as [b1 removed]. cbn [fst] in Hdel. destruct H as (H1 & H2 & H3 & _ & _ & H6).
    destruct (raw_insert_spec b1 s d H1 (H6 ltac:(lia))) as (I1 & I2 & I3).
    assert (content (raw_insert b1 s d) = replace_text s e d (content b)) as Ht.
    { rewrite I2, Hdel. replace (Nat.max s (Nat.min e (length (content b)))) with e by lia. unfold replace_text.
      assert (length (take s (content b)) = s) as Hl by (rewrite length_take; lia). by rewrite take_app_length', drop_app_length' by done. }
    assert (ranges_ok 0 ranges (length (content (raw_insert b1 s d)))) as Hr'.
    { assert (s <= length (content (raw_insert b1 s d))) as Hle by (rewrite I2, !length_app, length_take; specialize (H6 ltac:(lia)); lia).
      revert Hr Hle. generalize (length (content (raw_insert b1 s d))). clear. generalize 0. induction ranges as [|[x y] ranges IH]; intros from n; cbn; [lia|]. intros [H1 H2] Hle. split; [done|by apply IH]. }
    specialize (IH _ (cs ++ [Delete s removed; Insert s d]) I1 Hr').
    destruct (foldl (replace_one d) _ (reverse ranges)) as [b' cs']. destruct IH as (J1 & J2 & JT & ds & J3 & J4). split_and!; [done|by eapply same_history_trans; [eapply same_history_trans|]|by rewrite JT, Ht|].
    exists ([Delete s removed; Insert s d] ++ ds). split; [by rewrite J3, <- app_assoc|]. eapply leads_app; [|exact J4].
    change [Delete s removed; Insert s d] with ([Delete s removed] ++ [Insert s d]). eapply leads_app; [apply H3; lia|]. rewrite I2. apply leads_cons; [apply H6; lia|constructor].
Qed.

Lemma replace_all_ok orig sv b ranges d h : tracks orig sv b h -> ranges_ok 0 ranges (length (present h)) ->
  tracks orig sv (replace_all b ranges d) (hist_replace_all ranges d h).
Proof.
  intros Hh Hr. unfold replace_all, hist_replace_all. destruct ranges as [|[f e] ranges]; [done|]. rewrite bool_decide_eq_false_2 by done. cbn [orb]. rewrite (tracks_len _ _ _ _ Hh). case_match; [done|].
  pose proof (tr_now _ _ _ _ Hh) as Hnow. rewrite Hnow in Hr. pose proof (closed_ok _ _ _ _ Hh) as Hhc. pose proof (tr_wf _ _ _ _ Hhc) as Hwc.
  pose proof (replace_fold d ((f, e) :: ranges) (close_group b) [] Hwc Hr) as Hf. destruct (foldl (replace_one d) _ _) as [b' cs]. destruct Hf as (H1 & H2 & Ht & ds & -> & H4).
  pose proof H2 as (E1 & E2 & E3 & E4). rewrite Hnow. change (content (close_group b)) with (content b) in *. rewrite <- Ht. unfold edited. cbn [andb].
  change (past h) with (past (no_join h)). change (present h) with (present (no_join h)).
  eapply (group_push_ok orig sv (close_group b) (with_history _ _ [] _ false) (mkGroup _ f f false)); [by apply wf_history|exact Hhc|exact H4|cbn [undos with_history]; rewrite E1; reflexivity|done| |done|done|done].
  cbn [saved with_history]. by apply keep_saved_same.
Qed.

(** Undo and redo move along the texts. *)
Lemma undo_ok orig sv b h : tracks orig sv b h -> tracks orig sv (undo b).1 (hist_undo h).
Proof.
  intros Hh. pose proof (closed_ok _ _ _ _ Hh) as Hhc. unfold undo, hist_undo. change (undos (close_group b)) with (undos b).
  destruct (last (undos b)) as [g|] eqn:Hl.
  2: { apply last_None in Hl. pose proof (tr_past _ _ _ _ Hh) as Hp. rewrite Hl in Hp. by destruct (past h). }
  apply last_Some in Hl as [us Hus]. destruct Hhc as [Hwc [Htl Ht] Hp Hn H0 Hs Hj Ho]. change (undos (close_group b)) with (undos b) in *. change (redos (close_group b)) with (redos b) in *.
  cbn [past present future joins no_join] in *. change (texts (no_join h)) with (texts h) in *.
  assert (length (undos b) = S (length us)) as Hlen by (rewrite Hus, length_app; cbn; lia).
  destruct (last (past h)) as [t|] eqn:Hpl; [|apply last_None in Hpl; rewrite Hpl in Hp; cbn in Hp; lia]. apply last_Some in Hpl as [ps Hps].
  assert (length ps = length us) as Hpu by (rewrite Hps, length_app in Hp; cbn in Hp; lia).
  destruct (Ht (length us) g) as (t0 & t' & Hx & Hy & Hxy); [by rewrite Hus, <- app_assoc, lookup_app_r, Nat.sub_diag by lia|].
  rewrite <- Hlen, <- Hp, texts_now in Hy. injection Hy as <-. rewrite Hn in Hxy.
  assert (t0 = t) as ->. { unfold texts in Hx. rewrite Hps, <- app_assoc, lookup_app_r, Hpu, Nat.sub_diag in Hx by lia. cbn in Hx. congruence. }
  destruct (changes_backward (close_group b) (changes g) t Hwc Hxy) as (C1 & C2 & C3). destruct C3 as (_ & _ & E3 & E4). cbn [fst snd].
  assert (take (length (undos b) - 1) (undos b) = us) as Hus' by (rewrite Hlen, Hus; cbn [Nat.sub]; by rewrite Nat.sub_0_r, take_app_length).
  assert (take (length (past h) - 1) (past h) = ps) as Hps' by (rewrite Hp, Hlen, Hps; cbn [Nat.sub]; rewrite Nat.sub_0_r, <- Hpu; apply take_app_length).
  assert (ps ++ t :: present h :: future h = texts h) as Htx by (unfold texts; rewrite Hps, <- app_assoc; done).
  constructor; unfold texts; cbn [undos redos saved open_group with_history past present future joins]; rewrite ?Hus', ?Hps', ?Htx; try done.
  - by apply wf_history.
  - rewrite reverse_snoc. split; [rewrite Htl, Hus, !length_app; cbn [length]; rewrite !length_reverse; lia|]. intros i k Hi. apply Ht. rewrite Hus, <- app_assoc. done.
  - rewrite E3. done.
  - rewrite E4. done.
Qed.

Lemma redo_ok orig sv b h : tracks orig sv b h -> tracks orig sv (redo b).1 (hist_redo h).
Proof.
  intros Hh. pose proof (tracks_future _ _ _ _ Hh) as Hf. unfold redo, hist_redo. destruct (last (redos b)) as [g|] eqn:Hl.
  2: { apply last_None in Hl. rewrite Hl in Hf. by destruct (future h). }
  apply last_Some in Hl as [rs Hrs]. destruct Hh as [Hwf [Htl Ht] Hp Hn H0 Hs Hj Ho].
  destruct (Ht (length (undos b)) g) as (t & t' & Hx & Hy & Hxy); [by rewrite Hrs, reverse_snoc, lookup_app_r, Nat.sub_diag by lia|].
  rewrite <- Hp, texts_now in Hx. injection Hx as <-. rewrite Hn in Hxy. rewrite <- Hp in Hy. unfold texts in Hy. rewrite lookup_app_r in Hy by lia.
  replace (S (length (past h)) - length (past h)) with 1 in Hy by lia. cbn in Hy. destruct (future h) as [|t2 f] eqn:Hfu; [done|]. injection Hy as ->.
  destruct (changes_forward b (changes g) t' Hwf Hxy) as (C1 & C2 & C3). destruct C3 as (_ & _ & E3 & E4). cbn [fst snd].
  assert (take (length (redos b) - 1) (redos b) = rs) as Hrs'.
  { rewrite Hrs, length_app. cbn [length]. replace (length rs + 1 - 1) with (length rs) by lia. by rewrite take_app_length. }
  assert ((past h ++ [present h]) ++ t' :: f = texts h) as Htx by (unfold texts; rewrite Hfu, <- app_assoc; done).
  assert (open_group b = false) as Hop.
  { destruct (open_group b) eqn:E; [|done]. destruct (Ho eq_refl) as [Hre _]. rewrite Hre in Hrs. by destruct rs. }
  constructor; unfold texts; cbn [undos redos saved open_group with_history past present future joins]; rewrite ?Hrs', ?Htx; try done.
  - by apply wf_history.
  - rewrite Hrs, reverse_snoc in Ht, Htl. split; [rewrite Htl, !length_app; cbn [length]; lia|]. intros i k Hi. apply Ht. rewrite <- app_assoc in Hi. done.
  - rewrite !length_app. cbn. lia.
  - rewrite E3. done.
  - congruence.
  - rewrite E4, Hop. done.
Qed.

(** ** Editing sessions *)

(** What is done to a buffer, with the text last saved (at first, the file's) beside it. *)
Inductive Op : Type :=
| OInsert (at_ : nat) (d : bytes) (ty : bool) | ODelete (start end_ : nat) (ty : bool) | OReplace (start end_ : nat) (d : bytes)
| OReplaceAll (ranges : list (nat * nat)) (d : bytes) | OUndo | ORedo | OClose | OChanged | OSave.
Definition run_op (x : Buffer * bytes) (o : Op) : Buffer * bytes :=
  let '(b, sv) := x in
  match o with
  | OInsert at_ d ty => (insert b at_ d ty, sv)
  | ODelete start end_ ty => ((delete b start end_ ty).1, sv)
  | OReplace start end_ d => (replace b start end_ d, sv)
  | OReplaceAll ranges d => (replace_all b ranges d, sv)
  | OUndo => ((undo b).1, sv)
  | ORedo => ((redo b).1, sv)
  | OClose => (close_group b, sv)
  | OChanged => ((take_changed b).2, sv)
  | OSave => (mark_saved b, text b)
  end.
Definition hist_op (h : Hist) (o : Op) : Hist :=
  match o with
  | OInsert at_ d ty => hist_insert at_ d ty h
  | ODelete start end_ ty => hist_delete start end_ ty h
  | OReplace start end_ d => hist_replace start end_ d h
  | OReplaceAll ranges d => hist_replace_all ranges d h
  | OUndo => hist_undo h
  | ORedo => hist_redo h
  | OClose | OSave => no_join h
  | OChanged => h
  end.

(** What the editor's callers keep to: an insertion is at a place in the text, and the ranges of a replacement lie in it,
    in order. *)
Definition op_ok (t : bytes) (o : Op) : Prop :=
  match o with OInsert at_ _ _ => at_ <= length t | OReplaceAll ranges _ => ranges_ok 0 ranges (length t) | _ => True end.
Inductive edit_step : Buffer * bytes -> Buffer * bytes -> Prop :=
| es_op x o : op_ok (text x.1) o -> edit_step x (run_op x o).

Definition session (orig : bytes) (b : Buffer) (sv : bytes) : Prop := rtc edit_step (new orig, orig) (b, sv).

(** The history of a list of operations, and that each is as its caller is to make it. *)
Definition opened (orig : bytes) : Hist := mkHist [] orig [] false.
Fixpoint ops_ok (h : Hist) (ops : list Op) : Prop :=
  match ops with [] => True | o :: ops => op_ok (present h) o /\ ops_ok (hist_op h o) ops end.

Lemma new_ok orig : tracks orig orig (new orig) (opened orig).
Proof.
  assert (ptext orig [] (pieces (new orig)) = orig) as Ht.
  { unfold new, ptext. cbn [pieces]. destruct orig as [|x orig]; [done|]. change (0 <? length (x :: orig)) with true. cbn [map concat].
    rewrite app_nil_r. unfold piece_in, slice. cbn [source pstart plen drop]. by rewrite take_ge. }
  assert (wf (new orig)) as Hwf.
  { constructor; change (original (new orig)) with orig; change (added (new orig)) with (@nil Z); rewrite ?Ht; [|done|done]. unfold new. cbn [pieces]. case_match; [|done]. constructor; [|done]. unfold valid. cbn. lia. }
  constructor; try done.
  - by intros s [= <-].
Qed.

Lemma step_tracks orig x h o : tracks orig x.2 x.1 h -> op_ok (present h) o -> tracks orig (run_op x o).2 (run_op x o).1 (hist_op h o).
Proof.
  destruct x as [b sv]. cbn [fst snd]. intros Hh Ho. destruct o; cbn [run_op hist_op fst snd op_ok] in *.
  - by apply insert_ok.
  - by apply delete_ok.
  - by apply replace_ok.
  - by apply replace_all_ok.
  - by apply undo_ok.
  - by apply redo_ok.
  - by apply closed_ok.
  - destruct Hh as [[] ? ? ? ? ? ? ?]. by constructor.
  - pose proof (tr_wf _ _ _ _ Hh) as Hwf. rewrite (text_content b Hwf). destruct Hh as [_ H1 H2 H3 H4 H5 H6 H7]. constructor; try done; [by apply wf_history|].
    intros s [= <-]. change (texts (no_join h)) with (texts h). by rewrite <- H2, texts_now, H3.
Qed.

Lemma ops_tracks orig ops x h : tracks orig x.2 x.1 h -> ops_ok h ops -> let y := foldl run_op x ops in tracks orig y.2 y.1 (foldl hist_op h ops).
Proof.
  revert x h. induction ops as [|o ops IH]; intros x h Hh; [done|]. cbn [ops_ok foldl]. intros [Ho Hops]. apply IH; [by apply step_tracks|done].
Qed.

Lemma session_ok orig b sv : session orig b sv -> exists h, tracks orig sv b h.
Proof.
  assert (forall x y, rtc edit_step x y -> (exists h, tracks orig x.2 x.1 h) -> exists h, tracks orig y.2 y.1 h) as H.
  { induction 1 as [x|x y z H12 _ IH]; [done|]. intros [h Hh]. apply IH. destruct H12 as [x o Ho]. exists (hist_op h o). apply step_tracks; [done|].
    rewrite (text_content _ (tr_wf _ _ _ _ Hh)), <- (tr_now _ _ _ _ Hh) in Ho. done. }
  intros Hs. apply (H _ _ Hs). exists (opened orig). apply new_ok.
Qed.

(** the piece table and its line index are the text. In every session, the length, the bytes read at a place or in
    a range and the starts of lines are those of one byte list; an insertion (within the limit) puts its bytes into that
    list, and a deletion takes its range out and returns it. *)
Theorem buffer_is_text orig b sv : session orig b sv ->
  blen b = length (text b) /\ lines b = 0 :: starts_from 0 (text b) /\ (forall i, byte b i = text b !! i) /\ (forall s e, bytes_of b s e = drop s (take e (text b))) /\
  (forall at_ d ty, at_ <= length (text b) -> (Z.of_nat (length (text b) + length d) <= LIMIT)%Z -> text (insert b at_ d ty) = take at_ (text b) ++ d ++ drop at_ (text b)) /\
  (forall s e ty, s <= e <= length (text b) -> text (delete b s e ty).1 = take s (text b) ++ drop e (text b) /\ (delete b s e ty).2 = slice (text b) s (e - s)).
Proof.
  intros [h Hs]%session_ok. pose proof (tr_wf _ _ _ _ Hs) as Hwf. rewrite (text_content b Hwf). split_and!.
  - by apply content_len.
  - apply Hwf.
  - intros i. by apply byte_spec.
  - intros s e. by apply bytes_of_spec.
  - intros at_ d ty Ha Hl. pose proof (insert_ok _ _ _ at_ d ty _ Hs ltac:(by rewrite (tr_now _ _ _ _ Hs))) as Hi. rewrite (text_content _ (tr_wf _ _ _ _ Hi)), <- (tr_now _ _ _ _ Hi).
    unfold hist_insert. rewrite (tr_now _ _ _ _ Hs), (proj2 (Z.ltb_ge _ _)), orb_false_r by done. case_bool_decide as Hd; [subst d; cbn [app]; rewrite take_drop; apply (tr_now _ _ _ _ Hs)|].
    unfold edited. by case_match.
  - intros s e ty He. pose proof (delete_ok _ _ _ s e ty _ Hs) as Hi. rewrite (text_content _ (tr_wf _ _ _ _ Hi)). destruct (raw_delete_spec b s e Hwf) as (_ & H1 & H2 & _).
    unfold delete. destruct (raw_delete b s e) as [b' removed]. cbn [fst snd] in *. replace (Nat.max s (Nat.min e (length (content b)))) with e in * by lia.
    split; [|done]. rewrite <- H1. case_decide; [done|]. unfold record. by repeat case_match.
Qed.

(** Undoing and redoing along a history. *)
Lemma undo_times i h : i <= length (past h) -> let h' := Nat.iter i hist_undo h in
  past h' = take (length (past h) - i) (past h) /\ (past h ++ [present h]) !! (length (past h) - i) = Some (present h').
Proof.
  induction i as [|i IH]; intros Hi.
  - rewrite Nat.sub_0_r, take_ge by lia. split; [done|]. cbn. by rewrite lookup_app_r, Nat.sub_diag by lia.
  - change (Nat.iter (S i) hist_undo h) with (hist_undo (Nat.iter i hist_undo h)). destruct (IH ltac:(lia)) as [H1 H2]. set (h1 := Nat.iter i hist_undo h) in *. cbv zeta. unfold hist_undo.
    assert (length (past h1) = length (past h) - i) as Hl by (rewrite H1, length_take; lia).
    destruct (last (past h1)) as [t|] eqn:Ht; [|apply last_None in Ht; rewrite Ht in Hl; cbn in Hl; lia]. cbn [past present]. split.
    + rewrite Hl, H1, take_take. f_equal. lia.
    + rewrite last_lookup, Hl, H1, lookup_take_lt in Ht by lia. rewrite lookup_app_l by lia. rewrite <- Ht. f_equal. lia.
Qed.
Lemma redo_times i h : i <= length (future h) -> let h' := Nat.iter i hist_redo h in
  future h' = drop i (future h) /\ (present h :: future h) !! i = Some (present h').
Proof.
  induction i as [|i IH]; intros Hi; [done|].
  change (Nat.iter (S i) hist_redo h) with (hist_redo (Nat.iter i hist_redo h)). destruct (IH ltac:(lia)) as [H1 H2]. set (h1 := Nat.iter i hist_redo h) in *. cbv zeta. unfold hist_redo.
  destruct (lookup_lt_is_Some_2 (future h) i ltac:(lia)) as [t Ht]. rewrite (drop_S _ _ _ Ht) in H1. rewrite H1. cbn [future present]. done.
Qed.
Lemma tracks_iter orig sv b h i : tracks orig sv b h ->
  tracks orig sv (Nat.iter i (fun b => (undo b).1) b) (Nat.iter i hist_undo h) /\ tracks orig sv (Nat.iter i (fun b => (redo b).1) b) (Nat.iter i hist_redo h).
Proof. intros Hh. induction i as [|i [IH1 IH2]]; [done|]. split; [by apply (undo_ok _ _ _ _ IH1)|by apply (redo_ok _ _ _ _ IH2)]. Qed.

(** C38: undo and redo go along the texts the user saw. Take any operations on a file, insertions at places in the text
    and replacements of ranges in it: the text is the one [hist_op] says, where an edit joins the last one only if both
    are typing with nothing else done in between, and clears what was to be redone. Undoing [i] times gives the [i]-th
    text back, for every [i] down to the file as it was opened, and redoing [i] times the [i]-th text on; redoing what
    was undone gives the text and the stacks as they were. *)
Theorem undo_redo orig ops : ops_ok (opened orig) ops ->
  let b := (foldl run_op (new orig, orig) ops).1 in let h := foldl hist_op (opened orig) ops in
  text b = present h /\ length (undos b) = length (past h) /\ length (redos b) = length (future h) /\
  (past h ++ [present h]) !! 0 = Some orig /\
  (forall i, i <= length (past h) -> (past h ++ [present h]) !! (length (past h) - i) = Some (text (Nat.iter i (fun b => (undo b).1) b))) /\
  (forall i, i <= length (future h) -> (present h :: future h) !! i = Some (text (Nat.iter i (fun b => (redo b).1) b))) /\
  (undos b <> [] -> text (redo (undo b).1).1 = text b /\ length (undos (redo (undo b).1).1) = length (undos b) /\ length (redos (redo (undo b).1).1) = length (redos b)).
Proof.
  intros Hops b h. pose proof (ops_tracks orig ops (new orig, orig) (opened orig) (new_ok orig) Hops) as Hh. cbv zeta in Hh. fold b h in Hh.
  set (sv := (foldl run_op (new orig, orig) ops).2) in *. clearbody b h sv.
  assert (forall b h, tracks orig sv b h -> text b = present h) as Htext by (intros b' h' H; by rewrite (text_content _ (tr_wf _ _ _ _ H)), (tr_now _ _ _ _ H)).
  split_and!; [by apply Htext|symmetry; apply (tr_past _ _ _ _ Hh)|symmetry; by eapply tracks_future| | | |].
  - rewrite <- (tr_first _ _ _ _ Hh). unfold texts. by destruct (past h).
  - intros i Hi. destruct (undo_times i h Hi) as [_ ->]. f_equal. symmetry. apply Htext. by apply tracks_iter.
  - intros i Hi. destruct (redo_times i h Hi) as [_ ->]. f_equal. symmetry. apply Htext. by apply tracks_iter.
  - intros Hne. pose proof (redo_ok _ _ _ _ (undo_ok _ _ _ _ Hh)) as Hr. pose proof (tr_past _ _ _ _ Hh) as Hp.
    assert (past (hist_redo (hist_undo h)) = past h /\ present (hist_redo (hist_undo h)) = present h /\ future (hist_redo (hist_undo h)) = future h) as (E1 & E2 & E3).
    { unfold hist_undo. destruct (last (past h)) as [t|] eqn:Ht; [|apply last_None in Ht; rewrite Ht in Hp; by destruct (undos b)].
      unfold hist_redo. cbn [past present future]. split_and!; try done. apply last_Some in Ht as [ps ->]. rewrite length_app. cbn [length]. replace (length ps + 1 - 1) with (length ps) by lia. by rewrite take_app_length. }
    rewrite !(Htext _ _ Hr), (Htext _ _ Hh), <- !(tr_past _ _ _ _ Hr), <- (tr_past _ _ _ _ Hh), <- (tracks_future _ _ _ _ Hr), <- (tracks_future _ _ _ _ Hh), E1, E2, E3. done.
Qed.

(** the modified mark is sound: in every session, a buffer not shown as modified holds the text last saved (or
    opened), whatever was typed, undone and redone in between. *)
Theorem unmodified_is_saved orig b sv : session orig b sv -> modified b = false -> text b = sv.
Proof.
  intros [h Hh]%session_ok Hm. unfold modified in Hm. apply negb_false_iff, bool_decide_eq_true in Hm.
  rewrite (text_content b (tr_wf _ _ _ _ Hh)), <- (tr_now _ _ _ _ Hh). pose proof (tr_saved _ _ _ _ Hh _ Hm) as Hs. rewrite <- (tr_past _ _ _ _ Hh), texts_now in Hs. congruence.
Qed.

(** ** A session *)
Definition demo0 : Buffer := new [97; 10; 98]%Z.
Definition demo1 : Buffer := insert demo0 1 [120; 10]%Z true.
Definition demo2 : Buffer := (delete demo1 0 1 false).1.
Definition demo3 : Buffer := (undo (undo demo2).1).1.

Lemma demo_session : session [97; 10; 98]%Z demo2 [97; 10; 98]%Z /\ session [97; 10; 98]%Z demo3 [97; 10; 98]%Z.
Proof.
  assert (session [97; 10; 98]%Z demo2 [97; 10; 98]%Z) as H.
  { eapply rtc_l; [apply (es_op (demo0, [97; 10; 98]%Z) (OInsert 1 [120; 10]%Z true)); cbn; lia|].
    apply rtc_once. apply (es_op (demo1, [97; 10; 98]%Z) (ODelete 0 1 false)). exact I. }
  split; [exact H|]. unfold session; etrans; [exact H|]. eapply rtc_l; [apply (es_op (demo2, _) OUndo); exact I|]. apply rtc_once. apply (es_op ((undo demo2).1, _) OUndo). exact I.
Qed.

Lemma buffer_is_text_witness : text demo2 = [120; 10; 10; 98]%Z /\ lines demo2 = 0 :: starts_from 0 (text demo2).
Proof. split; [reflexivity|]. apply (buffer_is_text [97; 10; 98]%Z demo2 [97; 10; 98]%Z). exact (proj1 demo_session). Defined.

(** Two keys typed are one text to undo, a deletion after them another, a replacement undone a third: from [xy] undo gives
    [xyab], then [ab], and redo gives [zy]. *)
Definition demo_ops : list Op := [OInsert 0 [120]%Z true; OInsert 1 [121]%Z true; ODelete 2 4 false; OReplace 0 1 [122]%Z; OUndo].
Lemma undo_redo_witness : let b := (foldl run_op (new [97; 98]%Z, [97; 98]%Z) demo_ops).1 in
  foldl hist_op (opened [97; 98]%Z) demo_ops = mkHist [[97; 98]; [120; 121; 97; 98]]%Z [120; 121]%Z [[122; 121]]%Z false /\
  text b = [120; 121]%Z /\ text (undo b).1 = [120; 121; 97; 98]%Z /\ text (undo (undo b).1).1 = [97; 98]%Z /\ text (redo b).1 = [122; 121]%Z.
Proof.
  pose proof (undo_redo [97; 98]%Z demo_ops) as H. assert (foldl hist_op (opened [97; 98]%Z) demo_ops = mkHist [[97; 98]; [120; 121; 97; 98]]%Z [120; 121]%Z [[122; 121]]%Z false) as E by (vm_compute; reflexivity).
  assert (ops_ok (opened [97; 98]%Z) demo_ops) as Hok by (vm_compute; intuition lia). specialize (H Hok). clear Hok. cbv zeta in *. rewrite E in H.
  generalize dependent (foldl run_op (new [97; 98]%Z, [97; 98]%Z) demo_ops).1. intros b (H1 & _ & _ & _ & H2 & H3 & _). split; [exact E|]. split; [exact H1|].
  split; [apply (inj Some); symmetry; exact (H2 1 (le_S _ _ (le_n 1)))|]. split; apply (inj Some); symmetry; [exact (H2 2 (le_n 2))|exact (H3 1 (le_n 1))].
Defined.

(** An insertion past the end goes to the end, but is recorded where it was asked for: undo does not take it back. *)
Lemma insert_past_end_not_undone : let b := insert (new [97; 98]%Z) 5 [99]%Z false in text b = [97; 98; 99]%Z /\ text (undo b).1 = [97; 98; 99]%Z.
Proof. vm_compute. auto. Qed.

Lemma unmodified_is_saved_witness : modified demo2 = true /\ modified demo3 = false /\ text demo3 = [97; 10; 98]%Z.
Proof. split; [reflexivity|]. split; [reflexivity|]. apply (unmodified_is_saved [97; 10; 98]%Z); [exact (proj2 demo_session)|reflexivity]. Defined.
