(* ===== verification/EditorSearch.v ===== *)
(** * Characters and search in the editor's buffer ([edit/src/buffer.rs]: [decode], [char_at], [previous], [next], [find])

    An invalid byte is a character of its own, U+FFFD. Lower case ([char::to_lowercase]'s first character) is a parameter.
    The theorems: over a character the cursor goes forth and back by its bytes, wherever it stands in the text; [find_all]
    ends, and gives the matches in order, without overlap, leaving none out between them. *)
From S2P Require Import Prelude Text Editor.
Local Open Scope nat_scope.

Definition REPLACEMENT : Z := 0xFFFD.

(** [decode]; [None] is the panic of an index out of range. *)
Definition lead_need (lead : Z) : option nat :=
  if between 0xC2 0xDF lead then Some 1 else if between 0xE0 0xEF lead then Some 2 else if between 0xF0 0xF4 lead then Some 3 else None.
Definition decode (t : bytes) (at_ : nat) : option (Z * nat) :=
  lead ← t !! at_;
  if between 0 0x7F lead then Some (lead, 1) else
  match lead_need lead with
  | None => Some (REPLACEMENT, 1)
  | Some need =>
      match (s ← get_slice t at_ (need + 1); cs ← utf8 s; head cs) with
      | Some c => Some (c, need + 1)
      | None => Some (REPLACEMENT, 1)
      end
  end.

(** [char_at], [previous], [next]. *)
Definition char_at (b : Buffer) (at_ : nat) : option (Z * nat) := if blen b <=? at_ then None else decode (bytes_of b at_ (at_ + 4)) 0.
Definition one_char (s : bytes) : bool := match utf8 s with Some cs => length cs =? 1 | None => false end.
Definition previous (b : Buffer) (at_ : nat) : nat :=
  if at_ =? 0 then 0 else
  match List.find (fun back => (back <=? at_) && one_char (bytes_of b (at_ - back) at_)) [4; 3; 2] with
  | Some back => at_ - back
  | None => at_ - 1
  end.
Definition next (b : Buffer) (at_ : nat) : nat := match char_at b at_ with Some (_, n) => at_ + n | None => blen b end.

Section search.
Context (lower : Z -> Z).

(** [find_in]: the needle, folded, read off the text from a start; the starts are not inside a character. *)
Fixpoint try_at (t : bytes) (needle : list Z) (at_ : nat) : option nat :=
  match needle with
  | [] => Some at_
  | want :: needle =>
      if length t <=? at_ then None else
      '(c, n) ← decode t at_;
      if (lower c =? want)%Z then try_at t needle (at_ + n) else None
  end.
Definition starts_char (t : bytes) (i : nat) : bool := match t !! i with Some b => negb (between 0x80 0xBF b) | None => false end.
Fixpoint find_map (t : bytes) (needle : list Z) (l : list nat) : option (nat * nat) :=
  match l with
  | [] => None
  | i :: l => if starts_char t i then (match try_at t needle i with Some e => Some (i, e) | None => find_map t needle l end) else find_map t needle l
  end.
Definition find_in (t : bytes) (needle : list Z) (from : nat) (wrap : bool) : option (nat * nat) :=
  if decide (needle = []) then None else
  let from := Nat.min from (length t) in
  find_map t (map lower needle) (seq from (length t - from) ++ (if wrap then seq 0 from else [])).
Definition find (b : Buffer) (needle : list Z) (from : nat) : option (nat * nat) := find_in (text b) needle from true.
(** [find_all]: [None] is running out of fuel, of which there is the text's length and one. *)
Fixpoint find_all_n (fuel : nat) (t : bytes) (needle : list Z) (from : nat) : option (list (nat * nat)) :=
  match fuel with
  | 0 => None
  | S fuel => match find_in t needle from false with
              | None => Some []
              | Some (s, e) => cons (s, e) <$> find_all_n fuel t needle e
              end
  end.
Definition find_all (b : Buffer) (needle : list Z) : option (list (nat * nat)) := find_all_n (length (text b) + 1) (text b) needle 0.

(** ** Search *)
Definition matches_at (t : bytes) (needle : list Z) (i e : nat) : Prop := starts_char t i = true /\ try_at t (map lower needle) i = Some e.

Lemma decode_len t at_ c n : decode t at_ = Some (c, n) -> 1 <= n /\ at_ + n <= length t.
Proof.
  unfold decode, mbind, option_bind. destruct (t !! at_) as [lead|] eqn:E; [|done]. apply lookup_lt_Some in E. destruct (between 0 127 lead); [intros [= <- <-]; lia|].
  destruct (lead_need lead) as [need|]; [|intros [= <- <-]; lia]. destruct (get_slice t at_ (need + 1)) as [s|] eqn:Es; [|intros [= <- <-]; lia].
  apply get_slice_Some in Es as (Hl & _ & _). destruct (utf8 s) as [[|x cs]|]; cbn; intros [= <- <-]; lia.
Qed.
Lemma try_at_end t needle i e : i <= length t -> try_at t needle i = Some e -> i + length needle <= e <= length t.
Proof.
  revert i. induction needle as [|w needle IH]; intros i Hi; cbn; [intros [= <-]; lia|]. destruct (Nat.leb_spec (length t) i); [done|].
  destruct (decode t i) as [[c n]|] eqn:E; [|done]. cbn. apply decode_len in E as [H1 H2]. destruct (_ =? w)%Z; [|done]. intros H3%IH; lia.
Qed.
Lemma find_map_spec t needle l : match find_map t needle l with
  | Some (s, e) => exists l1 l2, l = l1 ++ s :: l2 /\ starts_char t s = true /\ try_at t needle s = Some e /\ forall i, i ∈ l1 -> starts_char t i = true -> try_at t needle i = None
  | None => forall i, i ∈ l -> starts_char t i = true -> try_at t needle i = None
  end.
Proof.
  induction l as [|x l IH]; cbn; [by intros i ?%not_elem_of_nil|]. destruct (starts_char t x) eqn:Ex.
  - destruct (try_at t needle x) as [e|] eqn:Et; [exists [], l; split_and!; try done; by intros i ?%not_elem_of_nil|].
    destruct (find_map t needle l) as [[s e]|]; [destruct IH as (l1 & l2 & -> & H1 & H2 & H3); exists (x :: l1), l2; split_and!; try done|]; intros i [->|Hi]%elem_of_cons; auto.
  - destruct (find_map t needle l) as [[s e]|]; [destruct IH as (l1 & l2 & -> & H1 & H2 & H3); exists (x :: l1), l2; split_and!; try done|]; intros i [->|Hi]%elem_of_cons; auto; congruence.
Qed.

(** From [from] on: the first match, or none at all. *)
Lemma find_in_first t needle from : needle <> [] -> from <= length t -> match find_in t needle from false with
  | Some (s, e) => from <= s /\ s < e <= length t /\ matches_at t needle s e /\ forall i, from <= i < s -> forall e', ~ matches_at t needle i e'
  | None => forall i, from <= i -> forall e', ~ matches_at t needle i e'
  end.
Proof.
  intros Hne Hf. unfold find_in. rewrite decide_False by done. replace (from `min` length t) with from by lia. rewrite app_nil_r. set (l := seq from (length t - from)).
  assert (forall i, i ∈ l <-> from <= i < length t) as Hl by (intros i; subst l; rewrite list_elem_of_In, in_seq; lia).
  pose proof (find_map_spec t (map lower needle) l) as H. destruct (find_map t (map lower needle) l) as [[s e]|].
  - destruct H as (l1 & l2 & El & H1 & H2 & H3). assert (from <= s < length t) as Hs by (apply Hl; rewrite El; set_solver).
    pose proof (try_at_end _ _ _ _ (Nat.lt_le_incl _ _ (proj2 Hs)) H2) as He. rewrite length_map in He. assert (length needle <> 0) by (by destruct needle). split_and!; try lia; [by split|].
    intros i Hi e' [Hc Ht]. assert (i ∈ l1) as Hin.
    { assert (i ∈ l) as Hil by (apply Hl; lia). rewrite El in Hil. apply elem_of_app in Hil as [?|Hil]; [done|exfalso].
      assert (s = from + length l1) as Es.
      { assert (l !! length l1 = Some s) as E1 by (rewrite El; by rewrite list_lookup_middle). subst l. by apply lookup_seq in E1 as [-> _]. }
      apply list_elem_of_lookup in Hil as [j Hj]. assert (l !! (length l1 + j) = Some i) as E2 by (rewrite El, lookup_app_r by lia; by replace (length l1 + j - length l1) with j by lia).
      subst l. apply lookup_seq in E2 as [-> _]. lia. }
    rewrite (H3 i Hin Hc) in Ht. done.
  - intros i Hi e' [Hc Ht]. assert (i < length t) as Hlt by (unfold starts_char in Hc; destruct (t !! i) eqn:E; [by apply lookup_lt_Some in E|done]).
    rewrite (H i (proj2 (Hl i) (conj Hi Hlt)) Hc) in Ht. done.
Qed.

(** Matches from [from] on, in order, not overlapping, none left out between them. *)
Inductive in_order (t : bytes) (needle : list Z) : nat -> list (nat * nat) -> Prop :=
| o_end from : (forall i e, from <= i -> ~ matches_at t needle i e) -> in_order t needle from []
| o_match from s e l : from <= s -> s < e <= length t -> matches_at t needle s e -> (forall i e', from <= i < s -> ~ matches_at t needle i e') ->
    in_order t needle e l -> in_order t needle from ((s, e) :: l).

(** [find_all] of a needle ends and gives every match that does not begin within one before it, in order and without
    overlap. *)
Theorem find_all_in_order b needle : needle <> [] -> exists l, find_all b needle = Some l /\ in_order (text b) needle 0 l.
Proof.
  intros Hne. unfold find_all. set (t := text b). assert (forall fuel from, from <= length t -> length t - from < fuel -> exists l, find_all_n fuel t needle from = Some l /\ in_order t needle from l) as H; [|apply H; lia].
  induction fuel as [|fuel IH]; intros from Hf Hl; [lia|]. cbn [find_all_n]. pose proof (find_in_first t needle from Hne Hf) as Hfi. destruct (find_in t needle from false) as [[s e]|].
  - destruct Hfi as (H1 & H2 & H3 & H4). destruct (IH e) as (l & -> & Hin); [lia|lia|]. exists ((s, e) :: l). split; [done|]. constructor; auto.
  - exists []. split; [done|]. constructor. auto.
Qed.
End search.

(** ** The cursor *)
Definition continuation (b : Z) : bool := between 0x80 0xBF b.

Lemma utf8_none s : utf8 s = Some [] -> s = [].
Proof. destruct s as [|a r1]; [done|]. cbn [utf8]. repeat (case_match; [|]); try done; by destruct (utf8 _). Qed.
Lemma utf8_starts y r cs : utf8 (y :: r) = Some cs -> continuation y = false.
Proof. unfold continuation. cbn [utf8]. destruct (between 128 191 y) eqn:E; [|done]. unfold between in *. repeat case_match; try done; lia. Qed.
(** One character: what comes after its first byte continues it. *)
Lemma utf8_one y r c : utf8 (y :: r) = Some [c] -> Forall (fun b => continuation b = true) r.
Proof.
  assert (forall l v, cons v <$> utf8 l = Some [c] -> l = []) as Hend by (intros l v H; destruct (utf8 l) as [[|]|] eqn:E; try done; by apply utf8_none).
  unfold continuation. cbn [utf8]. destruct (between 0 127 y); [intros ->%Hend; constructor|]. destruct r as [|b r]; [done|].
  destruct (_ && _) eqn:E1; [intros ->%Hend; apply andb_prop in E1; repeat constructor; apply E1|]. destruct r as [|b2 r]; [done|].
  destruct (_ && _ && _) eqn:E2; [intros ->%Hend; repeat constructor; unfold between in *; repeat case_match; lia|]. destruct r as [|b3 r]; [done|].
  destruct (_ && _ && _ && _) eqn:E3; [intros ->%Hend; repeat constructor; unfold between in *; repeat case_match; lia|done].
Qed.
Lemma encode_shape c : scalar_value c -> exists l r, encode_utf8 c = l :: r /\ continuation l = false /\ Forall (fun b => continuation b = true) r /\ length r <= 3 /\
  (between 0 0x7F l = true /\ r = [] \/ between 0 0x7F l = false /\ lead_need l = Some (length r)).
Proof.
  intros Hc. pose proof (utf8_encode c Hc) as Hu. unfold scalar_value, from_u32 in Hc. destruct (_ && _) eqn:Hs; [|done]. clear Hc. unfold between in Hs.
  destruct (encode_utf8 c) as [|l r] eqn:E; [done|]. exists l, r. split; [done|]. split; [by eapply utf8_starts|]. split; [by eapply utf8_one|]. clear Hu. unfold lead_need, between. revert E. unfold encode_utf8.
  destruct (Z.ltb_spec c 0x80); [|destruct (Z.ltb_spec c 0x800); [|destruct (Z.ltb_spec c 0x10000)]]; intros [= <- <-]; cbn [length].
  - split; [lia|]. left. split; [lia|done].
  - split; [lia|]. right. split; [by_division|]. by test true.
  - split; [lia|]. right. split; [by_division|]. test false. by test true.
  - split; [lia|]. right. split; [by_division|]. test false. test false. by test true.
Qed.

Lemma decode_encode c d : scalar_value c -> decode (encode_utf8 c ++ d) 0 = Some (c, length (encode_utf8 c)).
Proof.
  intros Hc. pose proof (utf8_encode c Hc) as Hu. destruct (encode_shape c Hc) as (l & r & E & _ & _ & _ & Hl). unfold decode. rewrite E in *. cbn [app lookup list_lookup mbind option_bind].
  destruct Hl as [[-> ->]|[-> ->]]; [cbn [utf8] in Hu; destruct (between 0 127 l); [by injection Hu as ->|done]|].
  assert (get_slice (l :: r ++ d) 0 (length r + 1) = Some (l :: r)) as ->.
  { unfold get_slice. rewrite decide_True by (cbn; rewrite length_app; lia). f_equal. cbn. rewrite Nat.add_1_r. cbn. by rewrite take_app_length. }
  cbn [mbind option_bind]. rewrite Hu. cbn. by rewrite Nat.add_1_r.
Qed.

(** A text ending in a character: of its last bytes, those of the character alone are one character. *)
Lemma one_char_last a c k : scalar_value c -> 0 < k <= length a + length (encode_utf8 c) ->
  one_char (drop (length a + length (encode_utf8 c) - k) (a ++ encode_utf8 c)) = (k =? length (encode_utf8 c)).
Proof.
  intros Hc Hk. destruct (encode_shape c Hc) as (l & r & E & Hl & Hr & _). pose proof (utf8_encode c Hc) as Hu. set (e := encode_utf8 c) in *. clearbody e. unfold one_char.
  destruct (Nat.eqb_spec k (length e)) as [->|Hne]; [rewrite Nat.add_sub, drop_app_length; by rewrite Hu|].
  destruct (utf8 (drop _ _)) as [[|x [|]]|] eqn:Ed; try done. exfalso. destruct (decide (k < length e)) as [Hlt|Hge].
  - rewrite drop_app_ge in Ed by lia. replace (_ - _ - _) with (S (length r - k)) in Ed by (subst e; cbn in *; lia). rewrite E in Ed. cbn [drop] in Ed.
    destruct (drop (length r - k) r) as [|y s] eqn:Es; [apply (f_equal length) in Es; rewrite length_drop in Es; subst e; cbn in *; lia|].
    apply utf8_starts in Ed. apply (Forall_drop _ (length r - k)) in Hr. rewrite Es in Hr. apply Forall_cons in Hr as [Hy _]. congruence.
  - rewrite drop_app_le in Ed by lia. destruct (drop _ a) as [|y s] eqn:Es; [apply (f_equal length) in Es; rewrite length_drop in Es; cbn in Es; lia|].
    cbn [app] in Ed. apply utf8_one in Ed. rewrite Forall_forall in Ed. rewrite (Ed l) in Hl; [done|]. subst e. set_solver.
Qed.

(** the cursor goes over characters. In an editing session, where the text has a character (whatever is before and after
    it, broken UTF-8 too), [char_at] reads it, [next] goes to its end and [previous] comes back to its start. *)
Theorem cursor_over_character orig b sv a c d : session orig b sv -> scalar_value c -> text b = a ++ encode_utf8 c ++ d ->
  char_at b (length a) = Some (c, length (encode_utf8 c)) /\ next b (length a) = length a + length (encode_utf8 c) /\ previous b (length a + length (encode_utf8 c)) = length a.
Proof.
  intros [hist Hh]%session_ok Hc Ht. pose proof (tr_wf _ _ _ _ Hh) as Hwf. rewrite (text_content b Hwf) in Ht. pose proof (content_len b Hwf) as Hl. rewrite Ht, !length_app in Hl.
  destruct (encode_shape c Hc) as (l & r & E & _ & _ & Hr & _). assert (length (encode_utf8 c) = S (length r)) as Hn by (by rewrite E). unfold next, char_at, previous.
  assert (decode (bytes_of b (length a) (length a + 4)) 0 = Some (c, length (encode_utf8 c))) as Hd.
  { rewrite (bytes_of_spec b Hwf), Ht. replace (drop _ _) with (encode_utf8 c ++ take (4 - length (encode_utf8 c)) d); [by apply decode_encode|].
    rewrite take_app_add, drop_app_length. rewrite take_app_ge by lia. done. }
  destruct (Nat.leb_spec (blen b) (length a)); [lia|]. rewrite Hd. do 2 (split; [done|]). destruct (Nat.eqb_spec (length a + length (encode_utf8 c)) 0); [lia|].
  assert (forall k, 0 < k -> (k <=? length a + length (encode_utf8 c)) && one_char (bytes_of b (length a + length (encode_utf8 c) - k) (length a + length (encode_utf8 c))) = (k =? length (encode_utf8 c))) as Hk.
  { intros k Hk. rewrite (bytes_of_spec b Hwf), Ht, app_assoc, <- length_app, take_app_length, length_app. destruct (Nat.leb_spec k (length a + length (encode_utf8 c))); [by apply one_char_last|].
    cbn [andb]. symmetry. apply Nat.eqb_neq. lia. }
  cbn [List.find]. rewrite !Hk by lia. rewrite Hn. repeat case_match; try lia; repeat match goal with H : (_ =? _) = true |- _ => apply Nat.eqb_eq in H | H : (_ =? _) = false |- _ => apply Nat.eqb_neq in H end; simplify_eq; lia.
Qed.
