(* ===== verification/Cid.v ===== *)
(** * Content identifiers ([libmind/src/cid.rs])

    The CIDv1 of a block: version, content type, hash algorithm and digest, in 36 bytes or as [b] and 58 base32 digits. The
    theorems: bytes, and text, are read as an identifier exactly when they are its one encoding (no second varint form,
    padding or stray bits), so identifiers compare as their encodings do; an identifier made of data matches it. *)
From S2P Require Import Prelude Sha256.

Definition VERSION : Z := 1.
Definition DIGEST : nat := 32.
Definition BYTES : nat := 4 + DIGEST.
Definition TEXT : nat := 59.
Definition BASE32 : bytes :=
  [97; 98; 99; 100; 101; 102; 103; 104; 105; 106; 107; 108; 109; 110; 111; 112; 113; 114; 115; 116; 117; 118; 119; 120; 121; 122] ++ [50; 51; 52; 53; 54; 55].

Inductive Codec : Type := Raw | DagCbor.
Inductive Algorithm : Type := Sha2_256.
Inductive Error : Type := Truncated | Trailing | Varint | Version | BadCodec | BadAlgorithm | Length | BadText.

Definition codec_code (c : Codec) : Z := match c with Raw => 0x55 | DagCbor => 0x71 end.
Definition codec_from_code (z : Z) : option Codec := if z =? 0x55 then Some Raw else if z =? 0x71 then Some DagCbor else None.
Definition algorithm_code (a : Algorithm) : Z := match a with Sha2_256 => 0x12 end.
Definition algorithm_from_code (z : Z) : option Algorithm := if z =? 0x12 then Some Sha2_256 else None.
Definition digest_len (a : Algorithm) : nat := match a with Sha2_256 => DIGEST end.
Definition algorithm_digest (a : Algorithm) (data : bytes) : bytes := match a with Sha2_256 => Sha256.digest data end.

Record Cid : Type := mkCid { codec : Codec; algorithm : Algorithm; cid_digest : bytes }.

(** [Cid::of], [matches]. *)
Definition of_data (c : Codec) (data : bytes) : Cid := mkCid c Sha2_256 (algorithm_digest Sha2_256 data).
Definition matches (c : Cid) (data : bytes) : bool := bool_decide (algorithm_digest (algorithm c) data = cid_digest c).

Definition to_bytes (c : Cid) : bytes :=
  [VERSION; codec_code (codec c); algorithm_code (algorithm c); Z.of_nat (length (cid_digest c))] ++ cid_digest c.

(** [varint]: its loop over at most 9 bytes. *)
Fixpoint varint_loop (i : nat) (value : Z) (bs : bytes) (total : nat) : result Error (Z * nat) :=
  match bs with
  | [] => if (9 <=? total)%nat then Err Varint else Err Truncated
  | byte :: bs =>
      let value := value ||| Z.shiftl (byte &&& 0x7F) (7 * Z.of_nat i) in
      if byte &&& 0x80 =? 0 then (if (byte =? 0) && (0 <? i)%nat then Err Varint else Ok (value, S i))
      else varint_loop (S i) value bs total
  end.
Definition varint (bs : bytes) : result Error (Z * nat) := varint_loop 0 0 (take 9 bs) (length bs).

(** [Cid::read] and [from_bytes]. *)
Definition read (bs : bytes) : result Error (Cid * nat) :=
  '(version, at1) ← varint bs;
  if negb (version =? VERSION) then Err Version else
  '(cc, n) ← varint (drop at1 bs);
  let at2 := (at1 + n)%nat in
  c ← ok_or (codec_from_code cc) BadCodec;
  '(ac, n) ← varint (drop at2 bs);
  let at3 := (at2 + n)%nat in
  a ← ok_or (algorithm_from_code ac) BadAlgorithm;
  '(ln, n) ← varint (drop at3 bs);
  let at4 := (at3 + n)%nat in
  if negb (ln =? Z.of_nat (digest_len a)) then Err Length else
  d ← ok_or (get_slice bs at4 (digest_len a)) Truncated;
  Ok (mkCid c a d, (at4 + digest_len a)%nat).
Definition from_bytes (bs : bytes) : result Error Cid :=
  '(c, n) ← read bs;
  if negb (n =? length bs)%nat then Err Trailing else Ok c.

(** [to_text]: the digits of a byte while five bits are there, each byte, the rest. *)
Definition digit_char (d : Z) : Z := nth (Z.to_nat d) BASE32 0.
Fixpoint emit (fuel : nat) (bits : Z) (count : nat) (out : bytes) : nat * bytes :=
  match fuel with
  | O => (count, out)
  | S fuel => if (5 <=? count)%nat then emit fuel bits (count - 5) (out ++ [digit_char (Z.shiftr bits (Z.of_nat (count - 5)) &&& 31)]) else (count, out)
  end.
Definition text_byte (st : Z * nat * bytes) (byte : Z) : Z * nat * bytes :=
  let '(bits, count, out) := st in
  let bits := wrap32 (Z.shiftl bits 8) ||| byte in
  let '(count, out) := emit (count + 8) bits (count + 8) out in (bits, count, out).
Definition to_text (c : Cid) : bytes :=
  let '(bits, count, out) := foldl text_byte (0, 0%nat, [98]) (to_bytes c) in
  if (0 <? count)%nat then out ++ [digit_char (wrap32 (Z.shiftl bits (Z.of_nat (5 - count))) &&& 31)] else out.

(** [from_text]. *)
Fixpoint text_loop (bits : Z) (count : nat) (out : bytes) (digits : bytes) : result Error (Z * nat * bytes) :=
  match digits with
  | [] => Ok (bits, count, out)
  | c :: digits =>
      match position (fun d => d =? c) BASE32 with
      | None => Err BadText
      | Some value =>
          let bits := wrap32 (Z.shiftl bits 5) ||| Z.of_nat value in
          let count := (count + 5)%nat in
          if (8 <=? count)%nat then
            let count := (count - 8)%nat in
            if (length out =? BYTES)%nat then Err Trailing
            else text_loop bits count (out ++ [wrap8 (Z.shiftr bits (Z.of_nat count))]) digits
          else text_loop bits count out digits
      end
  end.
Definition from_text (text : bytes) : result Error Cid :=
  match text with
  | 98 :: digits =>
      '(bits, count, out) ← text_loop 0 0 [] digits;
      if (5 <=? count)%nat || negb (bits &&& (Z.shiftl 1 (Z.of_nat count) - 1) =? 0) then Err BadText else from_bytes out
  | _ => Err BadText
  end.

(** ** The binary form *)
Definition cid_ok (c : Cid) : Prop := length (cid_digest c) = DIGEST.

Lemma lor_ge a b : 0 <= a -> 0 <= b -> b <= a ||| b.
Proof.
  intros Ha Hb. assert (0 <= Z.ldiff a b) by (apply Z.ldiff_nonneg; lia).
  assert (Z.ldiff a b + b = a ||| b) as <-; [|lia]. rewrite Z.add_nocarry_lor.
  - apply Z.bits_inj'. intros n _. rewrite !Z.lor_spec, Z.ldiff_spec. by destruct (Z.testbit a n), (Z.testbit b n).
  - apply Z.bits_inj'. intros n _. rewrite Z.land_spec, Z.ldiff_spec, Z.bits_0. by destruct (Z.testbit a n), (Z.testbit b n).
Qed.

Lemma varint_long i value bs total v n : (0 < i)%nat -> 0 <= value -> Forall is_byte bs -> varint_loop i value bs total = Ok (v, n) -> 128 <= v.
Proof.
  intros Hi Hv Hb. revert i value Hi Hv. induction Hb as [|b bs Hb _ IH]; intros i value Hi Hv; cbn [varint_loop]; [by case_match|].
  assert (0 <= b &&& 127) as H0 by (apply Z.land_nonneg; lia).
  assert (0 <= Z.shiftl (b &&& 127) (7 * Z.of_nat i)) as Hs by (apply Z.shiftl_nonneg; lia).
  destruct (Z.eqb_spec (b &&& 128) 0) as [Hz|Hz]; [|apply IH; [lia|apply Z.lor_nonneg; lia]].
  destruct (Z.eqb_spec b 0) as [->|Hb0]; [rewrite (proj2 (Nat.ltb_lt _ _)) by done; done|]. cbn [andb]. intros [= <- _].
  pose proof (lor_ge value _ Hv Hs) as Hge. assert (1 <= b &&& 127) as H1.
  { destruct (Z.eq_dec (b &&& 127) 0) as [He|]; [|lia]. exfalso. unfold is_byte in Hb. change 127 with (Z.ones 7) in He. rewrite Z.land_ones in He by lia.
    assert (b = 128) as -> by (apply Z.div_exact in He; [|lia]; change (2 ^ 7) with 128 in He; assert (b / 128 < 2) by (apply Z.div_lt_upper_bound; lia); assert (0 <= b / 128) by (apply Z.div_pos; lia); lia). done. }
  rewrite Z.shiftl_mul_pow2 in Hge |- * by lia. assert (2 ^ 7 <= 2 ^ (7 * Z.of_nat i)) as Hp by (apply Z.pow_le_mono_r; lia). change (2 ^ 7) with 128 in Hp. nia.
Qed.

Lemma byte_high b : is_byte b -> (b &&& 128 =? 0) = (b <? 128) /\ (b < 128 -> b &&& 127 = b).
Proof.
  intros Hb. unfold is_byte in Hb. split.
  - assert (b &&& 128 = if b <? 128 then 0 else 128) as ->; [|by destruct (b <? 128)].
    apply Z.bits_inj'. intros n Hn. rewrite Z.land_spec. change 128 with (2 ^ 7). destruct (Z.eqb_spec n 7) as [->|Hne].
    + rewrite Z.pow2_bits_true, andb_true_r by lia. destruct (Z.ltb_spec b (2 ^ 7)) as [Hlt|Hge].
      * rewrite Z.bits_0. by apply Z.bits_above_log2; [lia|]; destruct (Z.eq_dec b 0) as [->|]; [cbn; lia|apply Z.log2_lt_pow2; lia].
      * rewrite Z.pow2_bits_true by lia. assert (Z.log2 b = 7) as <- by (apply Z.log2_unique; [lia|]; change (2 ^ 7) with 128 in *; change (2 ^ Z.succ 7) with 256; lia).
        apply Z.bit_log2. change (2 ^ 7) with 128 in *. lia.
    + rewrite Z.pow2_bits_false, andb_false_r by lia. case_match; [by rewrite Z.bits_0|by rewrite Z.pow2_bits_false by lia].
  - intros Hlt. change 127 with (Z.ones 7). rewrite Z.land_ones by lia. apply Z.mod_small. change (2 ^ 7) with 128. lia.
Qed.

(** A number below 128 has one form. *)
Lemma varint_small bs v n : Forall is_byte bs -> 0 <= v < 128 -> varint bs = Ok (v, n) <-> exists rest, bs = v :: rest /\ n = 1%nat.
Proof.
  intros Hb Hv. unfold varint. destruct bs as [|b bs]; [split; [done|by intros (? & ? & _)]|]. apply Forall_cons in Hb as [Hb Hbs]. cbn [take varint_loop].
  destruct (byte_high b Hb) as [-> H127]. change (7 * Z.of_nat 0) with 0. rewrite Z.shiftl_0_r, Z.lor_0_l.
  destruct (Z.ltb_spec b 128) as [Hlt|Hge].
  - rewrite (H127 Hlt), andb_false_r. split; [intros [= -> <-]; eauto|by intros (rest & [= -> ->] & ->)].
  - split; [|intros (rest & [= -> ->] & _); lia]. intros H. apply varint_long in H; [lia|lia|apply Z.land_nonneg; lia|by apply Forall_take].
Qed.

Ltac bind_ok H := match type of H with (?o ≫= _) = Ok _ => let E := fresh "E" in destruct o eqn:E; cbn [mbind result_bind] in H; [|discriminate H] end.

(** What is read as an identifier is its binary form, whatever follows it. *)
Lemma read_only bs c n : Forall is_byte bs -> read bs = Ok (c, n) -> n = BYTES /\ (BYTES <= length bs)%nat /\ take BYTES bs = to_bytes c /\ cid_ok c.
Proof.
  intros Hb E. unfold read in E.
  bind_ok E. destruct a as [v n1]. destruct (Z.eqb_spec v VERSION) as [->|]; [|done]. cbn [negb] in E. apply varint_small in E0 as (r1 & -> & ->); [|done|done].
  apply Forall_cons in Hb as [_ Hb]. change (drop 1 (VERSION :: r1)) with r1 in E. bind_ok E. destruct a as [cc n2]. bind_ok E. unfold ok_or in E1. destruct (codec_from_code cc) as [c1|] eqn:Hcc; [|done]. injection E1 as <-.
  assert (cc = codec_code c1 /\ 0 <= cc < 128) as [Hc1 Hc2] by (unfold codec_from_code in Hcc; repeat case_match; simplify_eq; split; try lia; cbn; lia).
  apply varint_small in E0 as (r2 & -> & ->); [|done|done]. apply Forall_cons in Hb as [_ Hb]. change (drop (1 + 1) (VERSION :: cc :: r2)) with r2 in E. bind_ok E. destruct a as [ac n3]. bind_ok E.
  unfold ok_or in E1. destruct (algorithm_from_code ac) as [a1|] eqn:Hac; [|done]. injection E1 as <-.
  assert (ac = algorithm_code a1 /\ 0 <= ac < 128) as [Ha1 Ha2] by (unfold algorithm_from_code in Hac; repeat case_match; simplify_eq; split; cbn; lia).
  apply varint_small in E0 as (r3 & -> & ->); [|done|done]. apply Forall_cons in Hb as [_ Hb]. change (drop (1 + 1 + 1) (VERSION :: cc :: ac :: r3)) with r3 in E. bind_ok E. destruct a as [ln n4].
  destruct (Z.eqb_spec ln (Z.of_nat (digest_len a1))) as [->|]; [|done]. cbn [negb] in E.
  apply varint_small in E0 as (r4 & -> & ->); [|done|destruct a1; unfold digest_len, DIGEST; lia]. bind_ok E. unfold ok_or in E0. destruct (get_slice _ _ _) as [d|] eqn:Hd; [|done]. injection E0 as <-. injection E as <- <-.
  apply get_slice_Some in Hd as (Hl1 & -> & Hl2). destruct a1. unfold cid_ok. cbn [cid_digest digest_len] in *. split_and!; [done|unfold BYTES; cbn [length Nat.add] in *; lia| |done].
  unfold to_bytes. cbn [codec algorithm cid_digest digest_len]. rewrite Hl2, Hc1, Ha1. done.
Qed.

(** The bytes read as an identifier are its binary form. *)
Lemma from_bytes_iff bs c : Forall is_byte bs -> from_bytes bs = Ok c <-> bs = to_bytes c /\ cid_ok c.
Proof.
  intros Hb. unfold from_bytes. split.
  - intros H. bind_ok H. destruct a as [c' n]. destruct (Nat.eqb_spec n (length bs)) as [Hn|]; [|done]. injection H as ->. apply read_only in E as (-> & _ & Ht & Hc); [|done]. split; [|done]. by rewrite take_ge in Ht by lia.
  - unfold read. intros [-> Hc]. unfold cid_ok in Hc. destruct c as [cc [] d]. cbn [cid_digest] in Hc. unfold to_bytes in *. cbn [codec algorithm cid_digest app] in *.
    repeat (apply Forall_cons in Hb as [? Hb]).
    assert (forall v rest, 0 <= v < 128 -> Forall is_byte rest -> varint (v :: rest) = Ok (v, 1%nat)) as Hone.
    { intros v rest Hv Hr. apply varint_small; [constructor; [unfold is_byte; lia|done]|done|eauto]. }
    assert (0 <= codec_code cc < 128) as Hcc by (destruct cc; cbn; lia). rewrite Hc.
    assert (Forall is_byte d) as Hd by done.
    rewrite Hone; [|done|repeat constructor; unfold is_byte; try done; try lia]. cbn [mbind result_bind drop Nat.add]. cbn [negb Z.eqb VERSION Pos.eqb].
    rewrite Hone; [|done|repeat constructor; unfold is_byte; try done; try lia]. cbn [mbind result_bind drop Nat.add].
    assert (codec_from_code (codec_code cc) = Some cc) as -> by (by destruct cc). cbn [ok_or mbind result_bind].
    rewrite Hone; [|cbn; lia|repeat constructor; unfold is_byte; try done; try lia]. cbn [mbind result_bind drop Nat.add algorithm_code algorithm_from_code Z.eqb Pos.eqb ok_or].
    rewrite Hone; [|unfold DIGEST; lia|done]. cbn [mbind result_bind]. change (negb (Z.of_nat DIGEST =? Z.of_nat (digest_len Sha2_256))) with false. cbv iota.
    change (digest_len Sha2_256) with DIGEST. unfold get_slice. rewrite decide_True by (cbn [length]; rewrite Hc; lia). cbn [ok_or mbind result_bind].
    rewrite (proj2 (Nat.eqb_eq _ _)) by (cbn [length]; rewrite Hc; lia). cbn [negb]. change (slice _ _ DIGEST) with (take DIGEST d). by rewrite take_ge by (rewrite Hc; lia).
Qed.

(** ** The text form, by its bits *)

(** The low [n] bits of a number, the highest first. *)
Fixpoint low (n : nat) (z : Z) : list bool :=
  match n with
  | O => []
  | S n => Z.testbit z (Z.of_nat n) :: low n z
  end.

Lemma low_length n z : length (low n z) = n.
Proof. induction n as [|n IH]; [done|]. cbn. by rewrite IH. Qed.

Lemma low_ext n x y : (forall i, 0 <= i < Z.of_nat n -> Z.testbit x i = Z.testbit y i) -> low n x = low n y.
Proof. induction n as [|n IH]; intros H; [done|]. cbn [low]. rewrite H, IH by (lia || (intros; apply H; lia)). done. Qed.

Lemma low_add a b z : low (a + b) z = low a (Z.shiftr z (Z.of_nat b)) ++ low b z.
Proof. induction a as [|a IH]; [done|]. cbn [Nat.add low app]. rewrite IH, Z.shiftr_spec by lia. do 2 f_equal. lia. Qed.

Lemma low_inj n x y : 0 <= x < 2 ^ Z.of_nat n -> 0 <= y < 2 ^ Z.of_nat n -> low n x = low n y -> x = y.
Proof.
  intros Hx Hy H. apply Z.bits_inj'. intros i Hi. destruct (decide (i < Z.of_nat n)) as [Hlt|Hge].
  - revert H Hlt. clear Hx Hy. induction n as [|n IH]; [lia|]. cbn [low]. intros [= H1 H2] Hlt. destruct (decide (i = Z.of_nat n)) as [->|]; [done|]. apply IH; [done|lia].
  - rewrite <- (Z.mod_small x (2 ^ Z.of_nat n)), <- (Z.mod_small y (2 ^ Z.of_nat n)) by done. by rewrite !Z.mod_pow2_bits_high by lia.
Qed.

Lemma low_land n k z : (n <= k)%nat -> low n (z &&& Z.ones (Z.of_nat k)) = low n z.
Proof. intros Hk. apply low_ext. intros i Hi. rewrite Z.land_spec, Z.ones_spec_low, andb_true_r by lia. done. Qed.

(** [k] bits put behind [n] others in a word that holds them. *)
Lemma low_push n k z v : (n + k <= 32)%nat -> 0 <= v < 2 ^ Z.of_nat k -> low (n + k) (wrap32 (Z.shiftl z (Z.of_nat k)) ||| v) = low n z ++ low k v.
Proof.
  intros Hn Hv. rewrite low_add. f_equal; apply low_ext; intros i Hi.
  - rewrite Z.shiftr_spec, Z.lor_spec by lia. unfold wrap32, W32. rewrite Z.mod_pow2_bits_low, Z.shiftl_spec, Z.add_simpl_r by lia.
    rewrite <- (Z.mod_small v (2 ^ Z.of_nat k)), Z.mod_pow2_bits_high by lia. by rewrite orb_false_r.
  - rewrite Z.lor_spec. unfold wrap32, W32. by rewrite Z.mod_pow2_bits_low, Z.shiftl_spec_low by lia.
Qed.

Definition chunks (k : nat) (l : list Z) : list bool := concat (map (low k) l).

Lemma chunks_app k a b : chunks k (a ++ b) = chunks k a ++ chunks k b.
Proof. unfold chunks. by rewrite map_app, concat_app. Qed.

Lemma chunks_length k l : length (chunks k l) = (k * length l)%nat.
Proof. induction l as [|x l IH]; [cbn; lia|]. unfold chunks in *. cbn [map concat length]. rewrite length_app, low_length, IH. lia. Qed.

Lemma chunks_inj k l l' : Forall (fun x => 0 <= x < 2 ^ Z.of_nat k) l -> Forall (fun x => 0 <= x < 2 ^ Z.of_nat k) l' -> length l = length l' -> chunks k l = chunks k l' -> l = l'.
Proof.
  revert l'. induction l as [|x l IH]; intros [|y l'] Hl Hl' Hlen H; try done. apply Forall_cons in Hl as [Hx Hl], Hl' as [Hy Hl'].
  unfold chunks in H. cbn [map concat] in H. apply app_inj_1 in H as [H1 H2]; [|by rewrite !low_length]. f_equal; [by eapply low_inj|]. apply IH; [done|done|cbn in Hlen; lia|done].
Qed.

Definition digit_ok (d : Z) : Prop := 0 <= d < 32.

Lemma digit_position d : digit_ok d -> position (fun x => x =? digit_char d) BASE32 = Some (Z.to_nat d).
Proof.
  intros Hd. unfold digit_ok in Hd. assert (exists n, (n < 32)%nat /\ d = Z.of_nat n) as (n & Hn & ->) by (exists (Z.to_nat d); lia). rewrite Nat2Z.id.
  do 32 (destruct n as [|n]; [reflexivity|]). lia.
Qed.

Lemma position_digit c v : position (fun x => x =? c) BASE32 = Some v -> c = digit_char (Z.of_nat v) /\ digit_ok (Z.of_nat v).
Proof.
  intros H. apply position_Some in H as (x & Hx & Hc & _). apply Z.eqb_eq in Hc as ->. unfold digit_char, digit_ok. rewrite Nat2Z.id, nth_lookup_default, Hx.
  split; [done|]. apply lookup_lt_Some in Hx. cbn in Hx. lia.
Qed.

(** *** Writing *)
Lemma digit_bits bits k : digit_ok (Z.shiftr bits k &&& 31) /\ low 5 (Z.shiftr bits k &&& 31) = low 5 (Z.shiftr bits k).
Proof.
  split; [|apply (low_land 5 5); lia]. unfold digit_ok. change 31 with (Z.ones 5). rewrite Z.land_ones by lia. apply Z.mod_pos_bound. lia.
Qed.

Lemma emit_spec fuel bits count out : (count <= fuel)%nat ->
  exists ds c', emit fuel bits count out = (c', out ++ map digit_char ds) /\ (c' < 5)%nat /\ Forall digit_ok ds /\ low count bits = chunks 5 ds ++ low c' bits.
Proof.
  revert count out. induction fuel as [|fuel IH]; intros count out Hf; cbn [emit].
  - exists [], count. rewrite app_nil_r. split_and!; [done|lia|done|done].
  - destruct (Nat.leb_spec 5 count) as [H5|H5]; [|exists [], count; rewrite app_nil_r; done].
    destruct (IH (count - 5)%nat (out ++ [digit_char (Z.shiftr bits (Z.of_nat (count - 5)) &&& 31)]) ltac:(lia)) as (ds & c' & E & Hc & Hd & Hb).
    destruct (digit_bits bits (Z.of_nat (count - 5))) as [D1 D2]. set (d := _ &&& 31) in *.
    exists (d :: ds), c'. rewrite E, <- app_assoc. split_and!; [done|done|by constructor|].
    replace count with (5 + (count - 5))%nat at 1 by lia. rewrite low_add, <- D2, Hb. unfold chunks. cbn [map concat]. by rewrite <- app_assoc.
Qed.

Definition writing (bs : bytes) (st : Z * nat * bytes) : Prop :=
  let '(bits, count, out) := st in
  exists ds, out = 98 :: map digit_char ds /\ (count < 5)%nat /\ Forall digit_ok ds /\ chunks 8 bs = chunks 5 ds ++ low count bits.

Lemma text_byte_spec bs st b : is_byte b -> writing bs st -> writing (bs ++ [b]) (text_byte st b).
Proof.
  destruct st as [[bits count] out]. intros Hb (ds & -> & Hc & Hd & Hbits). unfold text_byte. set (bits' := wrap32 (Z.shiftl bits 8) ||| b).
  destruct (emit_spec (count + 8) bits' (count + 8) (98 :: map digit_char ds) ltac:(lia)) as (es & c' & E & Hc' & He & Hl). rewrite E.
  exists (ds ++ es). rewrite map_app. split_and!; [done|done|by apply Forall_app|].
  rewrite !chunks_app, Hbits, <- !app_assoc. f_equal. rewrite <- Hl. change 8 with (Z.of_nat 8) in bits'. subst bits'. rewrite low_push by (lia || exact Hb).
  done.
Qed.

Lemma text_bytes_spec bs cs st : Forall is_byte cs -> writing bs st -> writing (bs ++ cs) (foldl text_byte st cs).
Proof.
  intros Hc. revert bs st. induction Hc as [|c cs Hb _ IH]; intros bs st H; [by rewrite app_nil_r|]. cbn [foldl]. rewrite cons_middle, app_assoc. apply IH. by apply text_byte_spec.
Qed.

Lemma low_shiftl_zero k z : low k (Z.shiftl z (Z.of_nat k)) = replicate k false.
Proof.
  transitivity (low k 0); [apply low_ext; intros i Hi; by rewrite Z.shiftl_spec_low, Z.bits_0 by lia|]. clear z. induction k as [|k IH]; [done|]. cbn [low replicate]. by rewrite Z.bits_0, IH.
Qed.

(** The text is [b] and digits whose bits are the bytes' and less than five zeros. *)
Lemma to_text_bits c : Forall is_byte (to_bytes c) ->
  exists ds k, to_text c = 98 :: map digit_char ds /\ Forall digit_ok ds /\ (k < 5)%nat /\ chunks 5 ds = chunks 8 (to_bytes c) ++ replicate k false.
Proof.
  intros Hb. unfold to_text. pose proof (text_bytes_spec [] (to_bytes c) (0, 0%nat, [98]) Hb) as H. cbn [app] in H.
  destruct (foldl text_byte (0, 0%nat, [98]) (to_bytes c)) as [[bits count] out]. destruct H as (ds & -> & Hc & Hd & Hbits); [exists []; split_and!; [done|lia|done|done]|].
  destruct (Nat.ltb_spec 0 count) as [H0|H0].
  - set (d := wrap32 (Z.shiftl bits (Z.of_nat (5 - count))) &&& 31).
    assert (low 5 d = low count bits ++ replicate (5 - count) false) as Hlow.
    { subst d. change 31 with (Z.ones (Z.of_nat 5)). rewrite low_land by lia. replace 5%nat with (count + (5 - count))%nat at 1 by lia.
      rewrite <- (low_shiftl_zero (5 - count) bits). rewrite <- (Z.lor_0_r (wrap32 _)). rewrite low_push by lia. f_equal.
      rewrite low_shiftl_zero. rewrite <- (Z.shiftl_0_l (Z.of_nat (5 - count))). apply low_shiftl_zero. }
    exists (ds ++ [d]), (5 - count)%nat. rewrite map_app. split_and!; [done| |lia|].
    + apply Forall_app. split; [done|]. constructor; [|done]. subst d. unfold digit_ok. change 31 with (Z.ones 5). rewrite Z.land_ones by lia. apply Z.mod_pos_bound. lia.
    + rewrite chunks_app, Hbits, <- app_assoc. f_equal. unfold chunks. cbn [map concat]. by rewrite app_nil_r.
  - assert (count = 0)%nat as -> by lia. exists ds, 0%nat. cbn [low replicate] in *. split_and!; [done|done|lia|]. by rewrite Hbits, <- app_assoc, !app_nil_r.
Qed.

(** *** Reading *)
Lemma text_loop_spec ds es bits count out : Forall digit_ok ds -> (count < 8)%nat -> Forall is_byte out -> chunks 5 es = chunks 8 out ++ low count bits ->
  (5 * length (es ++ ds) < 8 * S BYTES)%nat ->
  exists bits' count' out', text_loop bits count out (map digit_char ds) = Ok (bits', count', out') /\ (count' < 8)%nat /\ Forall is_byte out' /\
    chunks 5 (es ++ ds) = chunks 8 out' ++ low count' bits'.
Proof.
  intros Hd. revert es bits count out. induction Hd as [|d ds Hd _ IH]; intros es bits count out Hc Ho Hb Hlen; cbn [map text_loop].
  - rewrite app_nil_r. by exists bits, count, out.
  - rewrite (digit_position d Hd), Z2Nat.id by (unfold digit_ok in Hd; lia). set (bits' := wrap32 (Z.shiftl bits 5) ||| d).
    assert (low (count + 5) bits' = low count bits ++ low 5 d) as Hp by (apply (low_push count 5); [lia|exact Hd]).
    assert (chunks 5 (es ++ [d]) = chunks 8 out ++ low (count + 5) bits') as Hbits.
    { rewrite chunks_app, Hb, Hp, <- app_assoc. done. }
    replace (es ++ d :: ds) with ((es ++ [d]) ++ ds) in * by (by rewrite <- app_assoc). destruct (Nat.leb_spec 8 (count + 5)) as [H8|H8]; [|by apply IH].
    pose proof (f_equal length Hbits) as Hl. rewrite length_app, !chunks_length, low_length in Hl. rewrite length_app in Hlen.
    rewrite (proj2 (Nat.eqb_neq _ _)) by (unfold BYTES, DIGEST in *; lia). set (w := wrap8 _).
    apply IH; [lia| | |by rewrite length_app].
    + apply Forall_app. split; [done|]. constructor; [|done]. apply (Z.mod_pos_bound _ W8). unfold W8. lia.
    + rewrite Hbits, chunks_app, <- app_assoc. f_equal. replace (count + 5)%nat with (8 + (count + 5 - 8))%nat at 1 by lia. rewrite low_add. f_equal.
      unfold chunks. cbn [map concat]. rewrite app_nil_r. subst w. unfold wrap8, W8. apply low_ext. intros i Hi. by rewrite Z.mod_pow2_bits_low by lia.
Qed.

(** A text that is read is made of digits. *)
Lemma text_loop_digits bits count out cs st : text_loop bits count out cs = Ok st -> exists ds, cs = map digit_char ds /\ Forall digit_ok ds.
Proof.
  revert bits count out. induction cs as [|c cs IH]; intros bits count out; cbn [text_loop]; [by exists []|].
  destruct (position _ BASE32) as [v|] eqn:Hv; [|done]. apply position_digit in Hv as [Hc Hd]. intros H.
  assert (exists b n o, text_loop b n o cs = Ok st) as (b & n & o & H'). { repeat (case_match; try discriminate H); eauto. }
  destruct (IH _ _ _ H') as (ds & -> & Hds). exists (Z.of_nat v :: ds). split; [by rewrite Hc|by constructor].
Qed.

Lemma text_loop_length bits count out cs st : text_loop bits count out cs = Ok st -> (count < 8)%nat -> (length out <= BYTES)%nat ->
  (8 * length out + count + 5 * length cs < 8 * S BYTES)%nat.
Proof.
  revert bits count out. induction cs as [|c cs IH]; intros bits count out H Hc Ho; cbn [text_loop length] in *; [unfold BYTES, DIGEST in *; lia|].
  destruct (position _ BASE32) as [v|]; [|done]. destruct (Nat.leb_spec 8 (count + 5)).
  - destruct (Nat.eqb_spec (length out) BYTES); [done|]. apply IH in H; [|lia|rewrite length_app; cbn [length]; lia]. rewrite length_app in H. cbn [length] in H. lia.
  - apply IH in H; lia.
Qed.

Lemma low_zero n z : low n z = replicate n false <-> z &&& (Z.shiftl 1 (Z.of_nat n) - 1) = 0.
Proof.
  replace (Z.shiftl 1 (Z.of_nat n) - 1) with (Z.ones (Z.of_nat n)) by (unfold Z.ones; lia). rewrite Z.land_ones by lia.
  assert (low n 0 = replicate n false) as H0 by (induction n as [|n IH]; [done|]; cbn [low replicate]; by rewrite Z.bits_0, IH).
  assert (low n z = low n (z mod 2 ^ Z.of_nat n)) as Hm by (apply low_ext; intros i Hi; by rewrite Z.mod_pow2_bits_low by lia).
  rewrite Hm, <- H0. split; [|by intros ->]. intros H. eapply low_inj; [| |exact H]; [apply Z.mod_pos_bound; lia|lia].
Qed.

(** identifiers are their text. A text is read as an identifier exactly when it is the text written for it: there
    is no second spelling (no upper case, padding, long number or stray bits) and every identifier is read back. *)
Theorem cid_text text c : Forall is_byte (cid_digest c) -> from_text text = Ok c <-> text = to_text c /\ cid_ok c.
Proof.
  intros Hdig.
  assert (cid_ok c -> Forall is_byte (to_bytes c)) as Hby.
  { intros Hc. unfold to_bytes, cid_ok in *. rewrite Hc. destruct c as [[] [] d]; cbn [codec algorithm app codec_code algorithm_code]; repeat (constructor; [unfold is_byte, VERSION, DIGEST; lia|]); done. }
  assert (forall c, cid_ok c -> length (to_bytes c) = BYTES) as Hlen by (intros x Hx; unfold to_bytes, cid_ok in *; rewrite length_app, Hx; done).
  split.
  - unfold from_text. intros H. destruct text as [|b cs]; [done|]. assert (b = 98) as -> by (repeat (case_match; try discriminate H); done).
    destruct (text_loop 0 0 [] cs) as [[[bits count] out]|e] eqn:E; [|done]. cbn [mbind result_bind] in H.
    destruct ((5 <=? count)%nat || negb (bits &&& (Z.shiftl 1 (Z.of_nat count) - 1) =? 0)) eqn:Hch; [done|]. apply orb_false_iff in Hch as [Hc5 Hz]. apply Nat.leb_gt in Hc5.
    apply negb_false_iff, Z.eqb_eq, low_zero in Hz.
    pose proof (text_loop_length _ _ _ _ _ E ltac:(lia) ltac:(cbn; lia)) as Hl. destruct (text_loop_digits _ _ _ _ _ E) as (ds & -> & Hds). rewrite length_map in Hl.
    destruct (text_loop_spec ds [] 0 0 [] Hds ltac:(lia) ltac:(done) eq_refl ltac:(cbn [app length] in *; lia)) as (b1 & c1 & o1 & E1 & _ & Ho & Hbits).
    rewrite E in E1. injection E1 as <- <- <-. apply from_bytes_iff in H as [Hout Hok]; [|done]. subst out. split; [|done].
    destruct (to_text_bits c Ho) as (ds' & k & -> & Hds' & Hk & Hbits'). do 2 f_equal. cbn [app] in Hbits. rewrite Hz in Hbits.
    assert (length ds = length ds' /\ count = k) as [Hdl ->].
    { pose proof (f_equal length Hbits) as L1. pose proof (f_equal length Hbits') as L2. rewrite !length_app, !chunks_length, !length_replicate in L1, L2. lia. }
    eapply (chunks_inj 5); [exact Hds|exact Hds'|done|congruence].
  - intros [-> Hok]. pose proof (Hby Hok) as Hb. destruct (to_text_bits c Hb) as (ds & k & -> & Hds & Hk & Hbits). pose proof (Hlen c Hok) as Hl.
    pose proof (f_equal length Hbits) as L. rewrite length_app, !chunks_length, length_replicate, Hl in L.
    destruct (text_loop_spec ds [] 0 0 [] Hds ltac:(lia) ltac:(done) eq_refl ltac:(cbn [app]; lia)) as (bits & count & out & E & Hc & Ho & Hbits').
    cbn [app] in Hbits'. unfold from_text. rewrite E. cbn [mbind result_bind].
    assert (length out = BYTES /\ count = k) as [Hlo ->].
    { pose proof (f_equal length Hbits') as L2. rewrite length_app, !chunks_length, low_length in L2. unfold BYTES, DIGEST in *. lia. }
    rewrite Hbits in Hbits'. apply app_inj_1 in Hbits' as [H1 H2]; [|by rewrite !chunks_length, Hl, Hlo].
    assert (to_bytes c = out) as <- by (eapply (chunks_inj 8); [exact Hb|exact Ho|congruence|exact H1]).
    symmetry in H2. apply low_zero in H2. rewrite (proj2 (Nat.leb_gt _ _)), H2 by done. cbn [orb negb Z.eqb]. by apply from_bytes_iff.
Qed.

Definition demo_cid : Cid := mkCid DagCbor Sha2_256 (replicate 32 0xA5).
Lemma cid_text_witness : from_text (to_text demo_cid) = Ok demo_cid /\ length (to_text demo_cid) = TEXT.
Proof.
  split; [|reflexivity]. apply cid_text; [by apply Forall_replicate|]. split; reflexivity.
Defined.

(** What an identifier is made of matches it, and other data with that digest only. *)
Lemma matches_of_data c data data' : matches (of_data c data) data' = true <-> Sha256.digest data' = Sha256.digest data.
Proof. unfold matches. by rewrite bool_decide_eq_true. Qed.
