(* ===== verification/Cbor.v ===== *)
(** * The DAG-CBOR of stored objects ([libmind/src/dag.rs]: [Sink], [Out], [Same], [In]; [tree.rs]: [Count])

    Encoders write to a sink: a buffer, a counter, or bytes to compare with. [Sink] is a class, with the law that two pushes
    are one of both parts; so what an encoder does to any sink is one push of its image, and a decoder's last step, comparing
    what it read with the bytes, accepts exactly an image. Readers give a value, an error or a panic. *)
From S2P Require Import Prelude Outcome Sha256 Cid.
Local Open Scope nat_scope.

Inductive Error : Type := Format | Version | Shape | Corrupt | NotFound | Full | TooLarge | Store.
#[global] Instance error_eq : EqDecision Error.
Proof. solve_decision. Defined.
#[global] Instance codec_eq : EqDecision Codec.
Proof. solve_decision. Defined.
#[global] Instance cid_eq : EqDecision Cid.
Proof. intros [c1 [] d1] [c2 [] d2]. destruct (decide (c1 = c2 /\ d1 = d2)) as [[-> ->]|H]; [by left|right; intros [= -> ->]; auto]. Defined.

(** tag 42, a 37-byte string, the identity prefix, the identifier *)
Definition LINK : nat := 2 + 2 + 1 + BYTES.

(** ** Sinks *)
Class Sink (S : Type) : Type := push : S -> bytes -> outcome Error S.

Record Out : Type := mkOut { obytes : bytes; oat : nat }.
Record Same : Type := mkSame { sbytes : bytes; sat : nat; equal : bool }.
Record Count : Type := mkCount { counted : nat }.

#[global] Instance out_sink : Sink Out := fun o data =>
  if oat o + length data <=? length (obytes o)
  then Done (mkOut (take (oat o) (obytes o) ++ data ++ drop (oat o + length data) (obytes o)) (oat o + length data))
  else Crash.
#[global] Instance same_sink : Sink Same := fun s data =>
  Done (mkSame (sbytes s) (sat s + length data) (equal s && bool_decide (get_slice (sbytes s) (sat s) (length data) = Some data))).
#[global] Instance count_sink : Sink Count := fun c data => Done (mkCount (counted c + length data)).

Section writing.
Context {S : Type} `{!Sink S}.

(** [head]: a CBOR head in its shortest form. *)
Definition head (major value : Z) (s : S) : outcome Error S :=
  let m := wrap8 (Z.shiftl major 5) in
  (if value <=? 23 then push s [m ||| value]
   else if value <=? 0xff then push s [m ||| 24; value]
   else if value <=? 0xffff then s ← push s [m ||| 25]; push s (to_be 2 value)
   else if value <=? 0xffffffff then s ← push s [m ||| 26]; push s (to_be 4 value)
   else s ← push s [m ||| 27]; push s (to_be 8 value))%Z.
Definition text (t : bytes) (s : S) : outcome Error S := s ← head 3 (Z.of_nat (length t)) s; push s t.
Definition link (c : Cid) (s : S) : outcome Error S :=
  s ← head 6 42 s; s ← head 2 (1 + Z.of_nat BYTES) s; s ← push s [0%Z]; push s (to_bytes c).
End writing.

(** ** Readers *)
Record In : Type := mkIn { ibytes : bytes; iat : nat }.

(** [In::take]: a length read from the bytes may be anything below 2^64. *)
Definition take_n (n : Z) (i : In) : outcome Error (bytes * In) :=
  match checked_add (Z.of_nat (iat i)) n with
  | None => Refuse Format
  | Some end_ =>
      if (end_ <=? Z.of_nat (length (ibytes i)))%Z then Done (slice (ibytes i) (iat i) (Z.to_nat n), mkIn (ibytes i) (iat i + Z.to_nat n)) else Refuse Format
  end.
Definition read_head (i : In) : outcome Error (Z * Z * In) :=
  '(b, i) ← take_n 1 i;
  first ← or_crash (b !! 0);
  let major := Z.shiftr first 5 in
  let info := (first &&& 31)%Z in
  if (info <=? 23)%Z then Done (major, info, i)
  else if (info <=? 27)%Z then
    '(b, i) ← take_n (Z.shiftl 1 (info - 24)) i;
    Done (major, foldl (fun v x => wrap64 (Z.shiftl v 8) ||| x) 0%Z b, i)
  else Refuse Format.
Definition expect (major : Z) (i : In) : outcome Error (Z * In) :=
  '(m, value, i) ← read_head i;
  if (m =? major)%Z then Done (value, i) else Refuse Format.
Definition key (name : bytes) (i : In) : outcome Error In :=
  '(len, i) ← expect 3 i;
  '(b, i) ← take_n len i;
  if bool_decide (b = name) then Done i else Refuse Format.
Definition read_link (i : In) : outcome Error (Cid * In) :=
  '(tag, i) ← expect 6 i;
  if negb (tag =? 42)%Z then Refuse Format else
  '(len, i) ← expect 2 i;
  if negb (len =? 1 + Z.of_nat BYTES)%Z then Refuse Format else
  '(b, i) ← take_n 1 i;
  if negb (bool_decide (b = [0%Z])) then Refuse Format else
  '(b, i) ← take_n (Z.of_nat BYTES) i;
  match from_bytes b with Ok c => Done (c, i) | Err _ => Refuse Format end.

(** ** What is written: images *)
Class SinkLaws (S : Type) `{!Sink S} : Prop :=
  push_app : forall (s : S) a b, (s ← push s a; push s b) = push s (a ++ b).

#[global] Instance out_laws : SinkLaws Out.
Proof.
  intros [bs i] a b. unfold push, out_sink. cbn [obytes oat]. rewrite length_app. destruct (Nat.leb_spec (i + length a) (length bs)) as [H|H]; cbn [mbind outcome_bind obytes oat].
  - rewrite !length_app, length_take, length_drop. replace (i `min` length bs + (length a + (length bs - (i + length a)))) with (length bs) by lia. rewrite Nat.add_assoc.
    destruct (Nat.leb_spec (i + length a + length b) (length bs)); [|done]. do 2 f_equal. rewrite (app_assoc (take i bs) a). set (p := take i bs ++ a).
    assert (length p = i + length a) as Hp by (subst p; rewrite length_app, length_take; lia). rewrite take_app_length' by lia. rewrite drop_app_ge, Hp, drop_drop by lia.
    subst p. rewrite <- !app_assoc. repeat f_equal. lia.
  - destruct (Nat.leb_spec (i + (length a + length b)) (length bs)); [lia|done].
Qed.
Lemma get_slice_app {A} (l a b : list A) i : get_slice l i (length (a ++ b)) = Some (a ++ b) <-> get_slice l i (length a) = Some a /\ get_slice l (i + length a) (length b) = Some b.
Proof.
  rewrite length_app. unfold get_slice, slice. rewrite <- drop_drop. set (d := drop i l). split.
  - case_decide as H; [|done]. intros [= E]. rewrite !decide_True by lia. assert (d = a ++ b ++ drop (length a + length b) d) as Ed by (rewrite app_assoc, <- E; by rewrite take_drop).
    rewrite Ed. by rewrite take_app_length, drop_app_length, take_app_length.
  - intros [H1 H2]. case_decide as Ha; [|done]. case_decide as Hb; [|done]. injection H1 as H1. injection H2 as H2. rewrite decide_True by lia.
    f_equal. rewrite <- (take_drop (length a) d), H1. rewrite take_app_ge by lia. replace (length a + length b - length a) with (length b) by lia. by rewrite H2.
Qed.
#[global] Instance same_laws : SinkLaws Same.
Proof.
  intros [bs i e] a b. unfold push, same_sink. cbn [mbind outcome_bind sbytes sat equal]. rewrite <- andb_assoc, <- bool_decide_and. do 2 f_equal; [rewrite length_app; lia|].
  f_equal. apply bool_decide_ext. symmetry. apply get_slice_app.
Qed.
#[global] Instance count_laws : SinkLaws Count.
Proof. intros [n] a b. unfold push, count_sink. cbn. do 2 f_equal. rewrite length_app. lia. Qed.

Definition head_image (major value : Z) : bytes :=
  let m := wrap8 (Z.shiftl major 5) in
  (if value <=? 23 then [m ||| value] else if value <=? 0xff then [m ||| 24; value] else if value <=? 0xffff then (m ||| 25) :: to_be 2 value
   else if value <=? 0xffffffff then (m ||| 26) :: to_be 4 value else (m ||| 27) :: to_be 8 value)%Z.
Definition text_image (t : bytes) : bytes := head_image 3 (Z.of_nat (length t)) ++ t.
Definition link_image (c : Cid) : bytes := head_image 6 42 ++ head_image 2 37 ++ [0%Z] ++ to_bytes c.

(** What an encoder does to any sink is one push of its image. *)
Definition writes {S} `{!Sink S} (f : S -> outcome Error S) (img : bytes) : Prop := forall s, f s = push s img.

Section images.
Context {S : Type} `{!Sink S} `{!SinkLaws S}.
Lemma writes_bind f g a b : writes f a -> writes g b -> writes (S:=S) (fun s => s ← f s; g s) (a ++ b).
Proof. intros Hf Hg s. rewrite Hf, <- push_app. destruct (push s a); cbn; [apply Hg|done|done]. Qed.
Lemma writes_push d : writes (S:=S) (fun s => push s d) d.
Proof. done. Qed.
Lemma writes_head m v : writes (S:=S) (head m v) (head_image m v).
Proof. intros s. unfold head, head_image. repeat case_match; rewrite ?push_app; done. Qed.
Lemma writes_text t : writes (S:=S) (text t) (text_image t).
Proof. apply writes_bind; [apply writes_head|apply writes_push]. Qed.
Lemma writes_link c : writes (S:=S) (link c) (link_image c).
Proof. repeat (apply writes_bind; [first [apply writes_head|apply writes_push]|]). apply writes_push. Qed.
End images.
#[export] Hint Resolve writes_bind writes_push writes_head writes_text writes_link : mind.


(** The canonical check: comparing an image with the bytes. *)
Definition canonical (o : outcome Error Same) (bs : bytes) : outcome Error bool := s ← o; Done (equal s && (sat s =? length bs)).
Lemma canonical_iff bs img : canonical (push (mkSame bs 0 true) img) bs = Done (bool_decide (img = bs)).
Proof.
  unfold canonical, push, same_sink. cbn [mbind outcome_bind sbytes sat equal andb]. f_equal. rewrite Nat.add_0_l. apply eq_true_iff_eq.
  rewrite andb_true_iff, !bool_decide_eq_true, Nat.eqb_eq. split.
  - intros [(_ & E & _)%get_slice_Some Hl]. unfold slice in E. rewrite drop_0, take_ge in E by lia. done.
  - intros ->. split; [|done]. unfold get_slice, slice. rewrite decide_True by lia. by rewrite drop_0, take_ge.
Qed.

(** ** Reading back *)
(** A reader reads an image as a value, wherever it stands. *)
Definition reads {A} (p : In -> outcome Error (A * In)) (img : bytes) (a : A) : Prop :=
  forall pre rest, (Z.of_nat (length (pre ++ img ++ rest)) < W64)%Z -> p (mkIn (pre ++ img ++ rest) (length pre)) = Done (a, mkIn (pre ++ img ++ rest) (length (pre ++ img))).

Lemma reads_bind {A B} (p : In -> outcome Error (A * In)) (q : A -> In -> outcome Error (B * In)) x y a b :
  reads p x a -> reads (q a) y b -> reads (fun i => '(a, i) ← p i; q a i) (x ++ y) b.
Proof.
  intros Hp Hq pre rest Hl. pose proof (Hp pre (y ++ rest)) as H1. pose proof (Hq (pre ++ x) rest) as H2. rewrite <- !app_assoc in *. rewrite H1 by done. cbn [mbind outcome_bind]. by rewrite H2.
Qed.
Lemma reads_take n s : n = Z.of_nat (length s) -> reads (take_n n) s s.
Proof.
  intros -> pre rest Hl. unfold take_n, checked_add. cbn [iat ibytes]. rewrite !length_app in Hl.
  rewrite (proj2 (Z.ltb_lt _ _)), (proj2 (Z.leb_le _ _)) by (rewrite ?length_app; lia). rewrite Nat2Z.id, length_app. by rewrite slice_mid.
Qed.

Lemma be_fold bs : Forall is_byte bs -> length bs <= 8 -> foldl (fun v x => wrap64 (Z.shiftl v 8) ||| x)%Z 0%Z bs = of_be bs.
Proof.
  induction bs as [|x bs IH] using rev_ind; intros Hb Hl; [done|]. apply Forall_app in Hb as [Hb Hx]. apply Forall_cons in Hx as [Hx _]. rewrite length_app in Hl. cbn in Hl.
  rewrite foldl_app. cbn [foldl]. rewrite IH by (done || lia). unfold of_be. rewrite rev_app_distr. cbn [rev app of_le].
  pose proof (of_le_bound (rev bs)) as Ho. rewrite length_rev in Ho. specialize (Ho ltac:(by apply Forall_rev)).
  assert (256 ^ Z.of_nat (length bs) <= 256 ^ 7)%Z by (apply Z.pow_le_mono_r; lia). unfold wrap64, W64, is_byte in *. rewrite Z.shiftl_mul_pow2 by lia. rewrite Z.mod_small by lia.
  rewrite <- Z.lxor_lor, <- Z.add_nocarry_lxor; [lia| |]; (apply Z.bits_inj_0; intros n; rewrite Z.land_spec; destruct (Z.ltb_spec n 8); [rewrite Z.mul_pow2_bits_low by lia; done|
    rewrite (Z.bits_above_log2 x), andb_false_r; [done|lia|]; destruct (Z.eq_dec x 0%Z) as [->|]; [cbn; lia|]; apply Z.log2_lt_pow2; [lia|]; apply (Z.lt_le_trans _ (2 ^ 8)%Z); [lia|apply Z.pow_le_mono_r; lia]]).
Qed.
Lemma be_to n v : n <= 8 -> (0 <= v < 256 ^ Z.of_nat n)%Z -> foldl (fun v x => wrap64 (Z.shiftl v 8) ||| x)%Z 0%Z (to_be n v) = v.
Proof.
  intros Hn Hv. unfold to_be. rewrite be_fold; [|apply Forall_rev, to_le_bytes|rewrite length_rev, length_to_le; lia]. unfold of_be. rewrite rev_involutive. by apply of_to_le.
Qed.

Lemma initial_byte major info : (0 <= major < 8)%Z -> (0 <= info < 32)%Z ->
  Z.shiftr (wrap8 (Z.shiftl major 5) ||| info) 5 = major /\ ((wrap8 (Z.shiftl major 5) ||| info) &&& 31 = info)%Z.
Proof.
  intros Hm Hi. assert (forallb (fun m => forallb (fun k => (Z.shiftr (wrap8 (Z.shiftl m 5) ||| k) 5 =? m)%Z && ((wrap8 (Z.shiftl m 5) ||| k) &&& 31 =? k)%Z) (seqZ 0 32)) (seqZ 0 8) = true) as H by (vm_compute; reflexivity).
  rewrite forallb_forall in H. specialize (H major). rewrite forallb_forall in H. assert (forall n z, (0 <= z < n)%Z -> List.In z (seqZ 0 n)) as Hs by (intros n z Hz; apply list_elem_of_In, elem_of_seqZ; lia).
  specialize (H (Hs 8%Z major Hm) info (Hs 32%Z info Hi)). lia.
Qed.

Lemma reads_head major v : (0 <= major < 8)%Z -> (0 <= v < W64)%Z -> reads (fun i => '(m, v, i) ← read_head i; Done ((m, v), i)) (head_image major v) (major, v).
Proof.
  intros Hm Hv pre rest Hl. unfold head_image in *. set (m := wrap8 (Z.shiftl major 5)) in *.
  assert (forall info tail x, (0 <= info < 32)%Z -> (if info <=? 23 then tail = [] /\ x = info else info <=? 27 = true /\ Z.of_nat (length tail) = Z.shiftl 1 (info - 24) /\ foldl (fun v x => wrap64 (Z.shiftl v 8) ||| x) 0 tail = x)%Z ->
    (Z.of_nat (length (pre ++ ((m ||| info) :: tail) ++ rest)) < W64)%Z ->
    (('(m, v, i) ← read_head (mkIn (pre ++ ((m ||| info) :: tail) ++ rest) (length pre)); Done ((m, v), i)) = Done ((major, x), mkIn (pre ++ ((m ||| info) :: tail) ++ rest) (length (pre ++ (m ||| info) :: tail)))) ) as H.
  { intros info tail x Hi Ht Hl'. unfold read_head. pose proof (reads_take 1 [(m ||| info)%Z] eq_refl pre (tail ++ rest) Hl') as H1. cbn [app] in *. rewrite H1. cbn [mbind outcome_bind lookup list_lookup or_crash].
    destruct (initial_byte major info Hm Hi) as [E1 E2]. fold m in E1, E2. rewrite E1, E2. destruct (info <=? 23)%Z.
    - destruct Ht as [-> ->]. cbn [app]. done.
    - destruct Ht as (Hi7 & Hlen & Hf). rewrite Hi7. pose proof (reads_take _ tail (eq_sym Hlen) (pre ++ [(m ||| info)%Z]) rest) as H2. rewrite <- !app_assoc in H2. cbn [app] in H2.
      rewrite H2 by done. cbn [mbind outcome_bind]. rewrite Hf. done. }
  unfold W64 in Hv. repeat match goal with |- context [(v <=? ?n)%Z] => destruct (Z.leb_spec v n) end;
    [apply (H v [])|apply (H 24%Z [v])|apply (H 25%Z)|apply (H 26%Z)|apply (H 27%Z)]; try lia; try exact Hl;
    try (rewrite (proj2 (Z.leb_le _ _)) by lia; done); (split; [done|]; split; [done|]); try (apply be_to; [lia|cbn; lia]).
  cbn [foldl]. unfold wrap64. done.
Qed.

Definition here (bs : bytes) (i : nat) (rest : bytes) : Prop := i <= length bs /\ drop i bs = rest /\ (Z.of_nat (length bs) < W64)%Z.
Lemma reads_here {A} (p : In -> outcome Error (A * In)) img a bs i rest : reads p img a -> here bs i (img ++ rest) ->
  p (mkIn bs i) = Done (a, mkIn bs (i + length img)) /\ here bs (i + length img) rest.
Proof.
  intros Hp (Hi & Hd & Hl). pose proof (Hp (take i bs) rest) as H. rewrite <- Hd, take_drop, length_app, length_take in H. replace (i `min` length bs) with i in H by lia.
  pose proof (f_equal length Hd) as Hn. rewrite length_app, length_drop in Hn. split; [by apply H|]. split_and!; [lia| |done]. rewrite <- drop_drop, Hd. apply drop_app_length.
Qed.

Lemma reads_map {A B} (f : A -> B) (p : In -> outcome Error (A * In)) img a : reads p img a -> reads (fun i => '(a, i) ← p i; Done (f a, i)) img (f a).
Proof. intros H pre rest Hl. by rewrite H. Qed.
Lemma reads_expect major v : (0 <= major < 8)%Z -> (0 <= v < W64)%Z -> reads (expect major) (head_image major v) v.
Proof.
  intros Hm Hv pre rest Hl. pose proof (reads_head major v Hm Hv pre rest Hl) as H. cbv beta in H. unfold expect. revert H. destruct (read_head _) as [[[m w] i]| |]; cbn; intros H; [|done|done].
  injection H as -> -> ->. by rewrite Z.eqb_refl.
Qed.
Lemma reads_key name : (Z.of_nat (length name) < W64)%Z -> reads (fun i => i ← key name i; Done (tt, i)) (text_image name) tt.
Proof.
  intros Hn pre rest Hl. unfold text_image in *. unfold key. rewrite <- app_assoc in Hl |- *. pose proof (reads_expect 3 (Z.of_nat (length name)) ltac:(lia) ltac:(lia) pre (name ++ rest) Hl) as H1.
  rewrite H1. cbn [mbind outcome_bind]. pose proof (reads_take _ name eq_refl (pre ++ head_image 3 (Z.of_nat (length name))) rest) as H2. rewrite <- !app_assoc in H2. rewrite H2 by done.
  cbn [mbind outcome_bind]. by rewrite bool_decide_true.
Qed.
Lemma length_digest data : length (Sha256.digest data) = 32.
Proof. apply finish_length. rewrite update_length. done. Qed.
Lemma length_to_bytes c : cid_ok c -> length (to_bytes c) = BYTES.
Proof. intros H. unfold to_bytes. rewrite length_app, H. done. Qed.
Lemma to_bytes_bytes c : cid_ok c -> Forall is_byte (cid_digest c) -> Forall is_byte (to_bytes c).
Proof. intros H Hb. unfold to_bytes. rewrite H. apply Forall_app. split; [|done]. unfold is_byte. repeat constructor; try done; destruct (codec c); try done; destruct (algorithm c); done. Qed.
Lemma reads_link c : cid_ok c -> Forall is_byte (cid_digest c) -> reads read_link (link_image c) c.
Proof.
  intros Hc Hb pre rest Hl. assert (here (pre ++ link_image c ++ rest) (length pre) (link_image c ++ rest)) as H by (split_and!; [rewrite length_app; lia|apply drop_app_length|done]).
  rewrite length_app. revert H. set (bs := pre ++ _ ++ rest). clearbody bs. intros H. unfold link_image in *. rewrite <- !app_assoc in H. unfold read_link.
  apply (reads_here _ _ _ _ _ _ (reads_expect 6 42 ltac:(lia) ltac:(unfold W64; lia))) in H as [-> H]. cbn [mbind outcome_bind]. cbn [Z.eqb Pos.eqb negb].
  apply (reads_here _ _ _ _ _ _ (reads_expect 2 37 ltac:(lia) ltac:(unfold W64; lia))) in H as [-> H]. cbn [mbind outcome_bind].
  apply (reads_here _ _ _ _ _ _ (reads_take 1 [0%Z] eq_refl)) in H as [E H]. change (negb (37 =? 1 + Z.of_nat BYTES)%Z) with false. cbv iota. rewrite E. cbn [mbind outcome_bind]. rewrite bool_decide_true by done. cbn [negb].
  apply (reads_here _ _ _ _ _ _ (reads_take (Z.of_nat BYTES) (to_bytes c) ltac:(by rewrite length_to_bytes))) in H as [-> H]. cbn [mbind outcome_bind].
  rewrite (proj2 (from_bytes_iff _ c (to_bytes_bytes c Hc Hb)) (conj eq_refl Hc)). rewrite !length_app. do 3 f_equal. lia.
Qed.

(** ** Readers never panic, go forward, and give words *)
Definition forward {A} (i : In) (o : outcome Error (A * In)) (P : A -> nat -> Prop) : Prop :=
  yields (fun x => ibytes x.2 = ibytes i /\ iat i <= iat x.2 <= length (ibytes i) /\ P x.1 (iat x.2 - iat i)) o.
Lemma take_forward n i : (0 <= n)%Z -> forward i (take_n n i) (fun b k => k = Z.to_nat n /\ b = slice (ibytes i) (iat i) k /\ length b = k).
Proof.
  intros Hn. unfold take_n, checked_add, forward. destruct (Z.ltb_spec (Z.of_nat (iat i) + n) W64); [|done]. destruct (Z.leb_spec (Z.of_nat (iat i) + n) (Z.of_nat (length (ibytes i)))); [|done]. cbn.
  replace (iat i + Z.to_nat n - iat i) with (Z.to_nat n) by lia. split_and!; try lia; [done|done|]. rewrite slice_length; lia.
Qed.
Lemma forward_bind {A B} i (o : outcome Error (A * In)) (k : A -> In -> outcome Error (B * In)) P Q :
  forward i o P -> (forall a n j, ibytes j = ibytes i -> iat j = iat i + n -> iat i <= length (ibytes i) -> P a n -> forward j (k a j) (fun b m => Q b (n + m))) -> forward i ('(a, j) ← o; k a j) Q.
Proof.
  intros Ho Hk. destruct o as [[a j]| |]; cbn in *; [|done|done]. destruct Ho as (E & Hj & Hp). specialize (Hk a (iat j - iat i) j E ltac:(lia) ltac:(lia) Hp).
  unfold forward, yields in *. destruct (k a j) as [[b j']| |]; cbn in *; [|done|done]. destruct Hk as (E' & Hj' & HQ). rewrite E in *. split_and!; try congruence; [lia|lia|]. by replace (iat j' - iat i) with (iat j - iat i + (iat j' - iat j)) by lia.
Qed.
Lemma forward_weaken {A} i (o : outcome Error (A * In)) (P Q : A -> nat -> Prop) : forward i o P -> (forall a n, P a n -> Q a n) -> forward i o Q.
Proof. unfold forward, yields. destruct o as [[]| |]; cbn; [|done|done]. naive_solver. Qed.
Lemma forward_done {A} i (a : A) (P : A -> nat -> Prop) : iat i <= length (ibytes i) -> P a 0 -> forward i (Done (a, i)) P.
Proof. intros H1 H2. cbn. rewrite Nat.sub_diag. split_and!; auto. Qed.
Lemma forward_if {A} (c : bool) i (o : outcome Error (A * In)) e P : (c = false -> forward i o P) -> forward i (if c then Refuse e else o) P.
Proof. destruct c; auto. done. Qed.

Lemma expect_forward m i : Forall is_byte (ibytes i) -> forward i (expect m i) (fun v k => (0 <= v < W64)%Z /\ 1 <= k /\ ((23 < v)%Z -> 2 <= k)).
Proof.
  intros Hb. unfold expect.
  assert (forward i ('(m0, v, i0) ← read_head i; Done ((m0, v), i0)) (fun mv k => (0 <= mv.2 < W64)%Z /\ 1 <= k /\ ((23 < mv.2)%Z -> 2 <= k))) as H.
  2: { destruct (read_head i) as [[[m0 v] j]| |]; cbn in *; [|done|done]. destruct (m0 =? m)%Z; [exact H|done]. }
  unfold read_head. destruct (take_n 1 i) as [[b j]| |] eqn:E; [|done|pose proof (take_forward 1 i ltac:(lia)) as H; by rewrite E in H].
  pose proof (take_forward 1 i ltac:(lia)) as H. rewrite E in H. cbn in H. destruct H as (Ej & Hj & Hk & Hbs & Hlb). cbn [mbind outcome_bind].
  destruct b as [|first [|]]; cbn in Hlb; try lia. cbn [lookup list_lookup or_crash mbind outcome_bind].
  pose proof (Z.land_ones first 5 ltac:(lia)) as El. change (Z.ones 5) with 31%Z in El. pose proof (Z.mod_pos_bound first (2 ^ 5) ltac:(lia)) as Hr. set (info := (first &&& 31)%Z) in *. clearbody info.
  destruct (Z.leb_spec info 23); [cbn; split_and!; unfold W64; try lia; done|]. destruct (Z.leb_spec info 27); [|done].
  assert (info = 24 \/ info = 25 \/ info = 26 \/ info = 27)%Z as Hinfo by lia. assert (1 <= Z.shiftl 1 (info - 24) <= 8)%Z as Hn by (destruct Hinfo as [->|[->|[->| ->]]]; vm_compute; split; discriminate).
  pose proof (take_forward (Z.shiftl 1 (info - 24)) j ltac:(lia)) as H2. destruct (take_n _ j) as [[b2 j2]| |]; cbn in H2 |- *; [|done|done].
  destruct H2 as (Ej2 & Hj2 & Hk2 & Hbs2 & Hl2). rewrite be_fold; [| |lia]; [|rewrite Hbs2, Ej; by apply forall_slice].
  assert (Forall is_byte (rev b2)) as Hby by (apply Forall_rev; rewrite Hbs2, Ej; by apply forall_slice). pose proof (of_le_bound _ Hby) as Hv. rewrite length_rev in Hv. fold (of_be b2) in Hv.
  assert (256 ^ Z.of_nat (length b2) <= 256 ^ 8)%Z by (apply Z.pow_le_mono_r; lia). unfold W64. rewrite Ej2, Ej in *. split_and!; [done|lia|lia|lia|lia|lia|lia].
Qed.
Lemma key_forward name i : Forall is_byte (ibytes i) -> forward i (i ← key name i; Done (tt, i)) (fun _ _ => True).
Proof.
  intros Hb. unfold key. pose proof (expect_forward 3 i Hb) as H1. destruct (expect 3 i) as [[v j]| |]; cbn in H1 |- *; [|done|done]. destruct H1 as (E & Hj & Hv & _).
  pose proof (take_forward v j ltac:(lia)) as H2. destruct (take_n v j) as [[b j2]| |]; cbn in H2 |- *; [|done|done]. case_bool_decide; cbn; [|done]. rewrite E in H2. split_and!; [naive_solver|naive_solver lia|naive_solver lia|done].
Qed.
Section steps.
Context (bs : bytes) (Hb : Forall is_byte bs).
Lemma key_goes name i : ibytes i = bs -> yields (fun j => ibytes j = bs /\ iat i <= iat j <= length bs) (key name i).
Proof. intros <-. pose proof (key_forward name i Hb) as H. destruct (key name i); cbn in *; naive_solver. Qed.
Lemma expect_goes m i : ibytes i = bs -> yields (fun x => ibytes x.2 = bs /\ iat i <= iat x.2 <= length bs /\ (0 <= x.1 < W64)%Z) (expect m i).
Proof. intros <-. pose proof (expect_forward m i Hb) as H. destruct (expect m i) as [[]| |]; cbn in *; naive_solver. Qed.
Lemma take_goes n i : ibytes i = bs -> (0 <= n)%Z -> yields (fun x => ibytes x.2 = bs /\ iat i <= iat x.2 <= length bs /\ x.1 = slice bs (iat i) (Z.to_nat n)) (take_n n i).
Proof. intros <- Hn. pose proof (take_forward n i Hn) as H. destruct (take_n n i) as [[]| |]; cbn in *; [|done|done]. destruct H as (? & ? & <- & ? & ?). naive_solver. Qed.
End steps.
(** Goes over a reader that heads a program: it ends well, not in a panic. *)
Ltac step_expect Hb v j E L V := match goal with |- yields _ (expect ?m ?i ≫= _) => let H := fresh "H" in
  pose proof (expect_goes _ Hb m i ltac:(done || assumption)) as H; destruct (expect m i) as [[v j]| |]; cbn [yields fst snd] in H; [|done|done]; destruct H as (E & L & V); cbn [iat] in L; cbn [mbind outcome_bind] end.
Ltac step_key Hb j E L := match goal with |- yields _ (key ?m ?i ≫= _) => let H := fresh "H" in
  pose proof (key_goes _ Hb m i ltac:(done || assumption)) as H; destruct (key m i) as [j| |]; cbn [yields] in H; [|done|done]; destruct H as (E & L); cbn [iat] in L; cbn [mbind outcome_bind] end.
(** A link takes 41 bytes or more, the last 36 its identifier's. *)
Lemma link_forward i : Forall is_byte (ibytes i) -> forward i (read_link i) (fun c k => LINK <= k /\ cid_ok c /\ Forall is_byte (cid_digest c) /\ slice (ibytes i) (iat i + k - BYTES) BYTES = to_bytes c).
Proof.
  intros Hb. unfold read_link. eapply forward_bind; [by apply expect_forward|]. intros tag n1 i1 B1 A1 L1 (_ & _ & H1). rewrite <- B1 in Hb. apply forward_if. intros ->%negb_false_iff%Z.eqb_eq. specialize (H1 ltac:(lia)).
  eapply forward_bind; [by apply expect_forward|]. intros len n2 i2 B2 A2 L2 (_ & _ & H2). rewrite <- B2 in Hb. apply forward_if. intros ->%negb_false_iff%Z.eqb_eq. specialize (H2 ltac:(unfold BYTES, DIGEST; lia)).
  eapply forward_bind; [apply take_forward; lia|]. intros z n3 i3 B3 A3 L3 (-> & _ & _). rewrite <- B3 in Hb. apply forward_if. intros _.
  eapply forward_bind; [apply take_forward; lia|]. intros b n4 i4 B4 A4 L4 (-> & Hs & Hl). destruct (from_bytes b) as [c|] eqn:Ec; [|done]. assert (Forall is_byte b) as Hbb by (rewrite Hs; by apply forall_slice).
  apply from_bytes_iff in Ec as [Ec Hc]; [|done]. assert (iat i3 + BYTES <= length (ibytes i3)) as Hle. { rewrite Hs in Hl. unfold slice in Hl. rewrite length_take, length_drop, Nat2Z.id in Hl. unfold BYTES in *. lia. }
  apply forward_done; [rewrite B4, A4, Nat2Z.id; lia|]. rewrite Nat2Z.id in *. assert (Z.to_nat 1 = 1) as -> by lia. split_and!; [unfold LINK, BYTES in *; lia|done| |].
  - rewrite Ec in Hbb. unfold to_bytes in Hbb. by apply Forall_app in Hbb as [_ ?].
  - rewrite <- Ec, Hs. rewrite <- B1, <- B2, <- B3. f_equal. lia.
Qed.
