(* ===== verification/Dag.v ===== *)
(** * Objects as trees of blocks ([libmind/src/dag.rs])

    An object's bytes are cut into chunks; nodes of up to 256 links hold them, in canonical DAG-CBOR, in a shape that follows
    from the size. This file holds the node codec, the readers ([size], [read_at], [each_chunk], [walk], [complete]) over any
    store of blocks, and the builder. A store is a class ([Blocks]): the readers do not trust it, the builder's round trip
    uses its laws. [subtree] is the reference: the tree of some bytes. *)
From S2P Require Import Prelude Outcome Sha256 Cid Cbor.
Local Open Scope nat_scope.

Abbreviation ST := (STE Error).

(** ** Nodes *)
Definition CHUNK : Z := 16384.
Definition FANOUT : Z := 256.
Definition VERSION : Z := 1.
Definition NODE_MAX : Z := 1 + 2 + 1 + 5 + 9 + 6 + 3 + FANOUT * Z.of_nat LINK.
Definition LEVELS : nat := 8.
Definition div_ceil (a b : Z) : Z := ((a + b - 1) / b)%Z.
(** [a - b] on unsigned numbers. *)
Definition minus {E} (a b : Z) : outcome E Z := or_crash (checked_sub a b).

Definition text_v : bytes := [118%Z].
Definition text_size : bytes := [115; 105; 122; 101]%Z.
Definition text_links : bytes := [108; 105; 110; 107; 115]%Z.

(** [height]: the least height of a tree over [size] bytes. *)
Fixpoint height_loop (fuel : nat) (size capacity : Z) (h : nat) : nat :=
  match fuel with
  | O => h
  | S fuel => if (capacity <? size)%Z then height_loop fuel size (capacity * FANOUT) (h + 1) else h
  end.
Definition height (size : Z) : nat := height_loop 64 size CHUNK 0.
(** [capacity]: bytes under one child of a node of height [h]. *)
Definition capacity (h : nat) : Z := CHUNK * FANOUT ^ (Z.of_nat h - 1).

Record Node : Type := mkNode { nsize : Z; nlinks : bytes; ncount : nat }.
Definition node_link (n : Node) (i : nat) : outcome Error Cid :=
  b ← or_crash (get_slice (nlinks n) (i * LINK + LINK - BYTES) BYTES);
  match from_bytes b with Ok c => Done c | Err _ => Crash end.
Fixpoint any_other (n : Node) (c : Codec) (ks : list nat) : outcome Error bool :=
  match ks with
  | [] => Done false
  | i :: ks => x ← node_link n i; if decide (codec x = c) then any_other n c ks else Done true
  end.
Definition check (n : Node) (h : nat) (size : Z) : outcome Error unit :=
  let children := div_ceil size (capacity h) in
  let c := if h =? 1 then Raw else DagCbor in
  if negb (nsize n =? size)%Z || negb (Z.of_nat (ncount n) =? children)%Z then Refuse Shape else
  other ← any_other n c (seq 0 (ncount n));
  if (other : bool) then Refuse Shape else Done tt.

Section encode.
Context {S : Type} `{!Sink S}.
Fixpoint encode_links (link_of : nat -> outcome Error Cid) (ks : list nat) (o : S) : outcome Error S :=
  match ks with
  | [] => Done o
  | k :: ks => c ← link_of k; o ← link c o; encode_links link_of ks o
  end.
Definition encode_with (size : Z) (count : nat) (link_of : nat -> outcome Error Cid) (o : S) : outcome Error S :=
  o ← head 5 3 o;
  o ← text text_v o;
  o ← head 0 VERSION o;
  o ← text text_size o;
  o ← head 0 size o;
  o ← text text_links o;
  o ← head 4 (Z.of_nat count) o;
  encode_links link_of (seq 0 count) o.
End encode.

(** [encode], into a buffer of [room] bytes: what it wrote. *)
Definition encode (size : Z) (links : list Cid) (room : nat) : outcome Error bytes :=
  o ← encode_with size (length links) (fun k => or_crash (links !! k)) (mkOut (replicate room 0%Z) 0);
  Done (take (oat o) (obytes o)).

Fixpoint skip_links (n : nat) (i : In) : outcome Error In :=
  match n with
  | O => Done i
  | S n => '(_, i) ← read_link i; skip_links n i
  end.
Definition decode (bs : bytes) : outcome Error Node :=
  '(entries, i) ← expect 5 (mkIn bs 0);
  i ← key text_v i;
  '(v, i) ← expect 0 i;
  if negb (v =? VERSION)%Z then Refuse Version else
  if negb (entries =? 3)%Z then Refuse Format else
  i ← key text_size i;
  '(size, i) ← expect 0 i;
  i ← key text_links i;
  '(count, i) ← expect 4 i;
  if (count =? 0)%Z || (FANOUT <? count)%Z then Refuse Format else
  let start := iat i in
  let count := Z.to_nat count in
  i ← skip_links count i;
  if negb (iat i =? length bs) || negb (iat i - start =? count * LINK) then Refuse Format else
  let n := mkNode size (drop start bs) count in
  ok ← canonical (encode_with size count (node_link n) (mkSame bs 0 true)) bs;
  if (ok : bool) then Done n else Refuse Format.

(** ** Readers over a store *)
(** [get] copies a block into a buffer of [room] bytes: what the caller reads of it. *)
Class Blocks (B : Type) : Type := {
  put : Codec -> bytes -> ST B Cid;
  get : Cid -> Z -> ST B bytes;
  has : Cid -> ST B bool
}.

Section readers.
Context {B : Type} `{!Blocks B}.

Definition fetch (c : Cid) : ST B bytes :=
  bs ← get c CHUNK;
  if (CHUNK <? Z.of_nat (length bs))%Z then lift Crash else
  if matches c bs then mret bs else fail Corrupt.
Definition node (c : Cid) : ST B Node :=
  if decide (codec c = DagCbor) then bs ← fetch c; lift (decode bs) else fail Shape.

Definition size (root : Cid) : ST B Z :=
  match codec root with
  | Raw => bs ← fetch root; mret (Z.of_nat (length bs))
  | DagCbor =>
      n ← node root;
      let h := height (nsize n) in
      if h =? 0 then fail Shape else
      _ ← lift (check n h (nsize n));
      mret (nsize n)
  end.

(** One step down from a checked node: the child holding [within], what it holds, and where in it. *)
Definition child_of (n : Node) (h : nat) (held within : Z) : outcome Error (Cid * Z * Z) :=
  let cap := capacity h in
  let child := (within / cap)%Z in
  c ← node_link n (Z.to_nat child);
  rest ← minus held (child * cap);
  within ← minus within (child * cap);
  Done (c, Z.min cap rest, within).
(** [read_at]: down from the root to the chunk. *)
Fixpoint down_to_chunk (h : nat) (c : Cid) (held within : Z) : ST B (Cid * Z * Z) :=
  match h with
  | O => mret (c, held, within)
  | S h' =>
      n ← node c;
      _ ← lift (check n h held);
      '(c, held, within) ← lift (child_of n h held within);
      down_to_chunk h' c held within
  end.
Fixpoint read_loop (fuel : nat) (root : Cid) (total offset room : Z) (out : bytes) : ST B bytes :=
  let done := Z.of_nat (length out) in
  if negb ((done <? room)%Z && (offset + done <? total)%Z) then mret out else
  match fuel with
  | O => lift Crash
  | S fuel =>
      '(c, held, within) ← down_to_chunk (height total) root total (offset + done);
      bs ← fetch c;
      if negb (bool_decide (codec c = Raw)) || negb (Z.of_nat (length bs) =? held)%Z then fail Shape else
      left ← lift (minus held within);
      let take_ := Z.min left (room - done) in
      read_loop fuel root total offset room (out ++ slice bs (Z.to_nat within) (Z.to_nat take_))
  end.
Definition read_at (root : Cid) (offset room : Z) : ST B bytes :=
  total ← size root;
  if (total <? offset)%Z then fail TooLarge else read_loop (Z.to_nat room) root total offset room [].

(** [each_chunk]: down to the node of height 1 over some chunks, and its chunks. *)
Fixpoint down_to_leaf (h : nat) (c : Cid) (held within : Z) : ST B (Node * Z) :=
  n ← node c;
  _ ← lift (check n h held);
  match h with
  | O => lift Crash
  | 1 => mret (n, held)
  | S h' => '(c, held, within) ← lift (child_of n h held within); down_to_leaf h' c held within
  end.
Fixpoint chunks_of (each : Z -> bytes -> ST B unit) (n : Node) (held base : Z) (ks : list nat) : ST B unit :=
  match ks with
  | [] => mret tt
  | i :: ks =>
      c ← lift (node_link n i);
      left ← lift (minus held (Z.of_nat i * CHUNK));
      bs ← fetch c;
      if negb (bool_decide (codec c = Raw)) || negb (Z.of_nat (length bs) =? Z.min CHUNK left)%Z then fail Shape else
      _ ← each (base + Z.of_nat i * CHUNK)%Z bs;
      chunks_of each n held base ks
  end.
Fixpoint leaves_of (each : Z -> bytes -> ST B unit) (root : Cid) (total : Z) (us : list nat) : ST B unit :=
  match us with
  | [] => mret tt
  | u :: us =>
      let base := (Z.of_nat u * capacity 2)%Z in
      '(n, held) ← down_to_leaf (height total) root total base;
      _ ← chunks_of each n held base (seq 0 (ncount n));
      leaves_of each root total us
  end.
Definition each_chunk (root : Cid) (each : Z -> bytes -> ST B unit) : ST B Z :=
  total ← size root;
  match codec root with
  | Raw => bs ← fetch root; _ ← each 0%Z bs; mret total
  | DagCbor => _ ← leaves_of each root total (seq 0 (Z.to_nat (div_ceil total (capacity 2)))); mret total
  end.

(** [walk]: every block of the object, to [visit]. *)
Fixpoint visit_links (visit : Cid -> ST B unit) (n : Node) (ks : list nat) : ST B unit :=
  match ks with
  | [] => mret tt
  | i :: ks => c ← lift (node_link n i); _ ← visit c; visit_links visit n ks
  end.
Fixpoint walk_down (visit : Cid -> ST B unit) (h : nat) (c : Cid) (held within : Z) : ST B unit :=
  n ← node c;
  _ ← lift (check n h held);
  match h with
  | O => lift Crash
  | 1 => visit_links visit n (seq 0 (ncount n))
  | S h' =>
      '(c, held, within) ← lift (child_of n h held within);
      _ ← visit c;
      walk_down visit h' c held within
  end.
Fixpoint walk_leaves (visit : Cid -> ST B unit) (root : Cid) (total : Z) (us : list nat) : ST B unit :=
  match us with
  | [] => mret tt
  | u :: us => _ ← walk_down visit (height total) root total (Z.of_nat u * capacity 2); walk_leaves visit root total us
  end.
Definition walk (root : Cid) (visit : Cid -> ST B unit) : ST B Z :=
  _ ← visit root;
  total ← size root;
  match codec root with
  | Raw => mret total
  | DagCbor => _ ← walk_leaves visit root total (seq 0 (Z.to_nat (div_ceil total (capacity 2)))); mret total
  end.
Definition complete (root : Cid) : ST B Z := walk root (fun c => h ← has c; if (h : bool) then mret tt else fail NotFound).
End readers.

(** ** The builder *)
Record Entry : Type := mkEntry { ekey : bytes; esize : Z }.
Definition entry_cid (e : Entry) : outcome Error Cid := match from_bytes (ekey e) with Ok c => Done c | Err _ => Crash end.
(** [chunk[..filled]], and the entries [..count] of each level. *)
Record Builder : Type := mkBuilder { chunk : bytes; total : Z; levels : list (list Entry) }.
Definition new : Builder := mkBuilder [] 0 (replicate LEVELS []).
Definition reset (b : Builder) : Builder := mkBuilder [] 0 (replicate LEVELS []).

Section builder.
Context {B : Type} `{!Blocks B}.
Abbreviation St := (ST (Builder * B)).

Definition on_blocks {A} (m : ST B A) : St A := fun '(b, s) => let '(o, s) := m s in (o, (b, s)).
Definition ask {A} (f : Builder -> A) : St A := fun s => (Done (f s.1), s).
Definition change (f : Builder -> Builder) : St unit := fun '(b, s) => (Done tt, (f b, s)).
Definition set_level (k : nat) (l : list Entry) (b : Builder) : Builder := mkBuilder (chunk b) (total b) (<[k := l]> (levels b)).

(** [Builder::put]. *)
Definition put_block (c : Codec) (data : bytes) : St Cid :=
  cid ← on_blocks (put c data);
  if decide (cid = of_data c data) then mret cid else fail Corrupt.

(** [wrap], with [push] for the level above. *)
Definition wrap_with (push_entry : nat -> Entry -> St unit) (level : nat) : St unit :=
  l ← ask levels;
  es ← lift (or_crash (l !! level));
  _ ← change (set_level level []);
  let size := zsum (map esize es) in
  if (W64 <=? size)%Z then lift Crash else
  o ← lift (encode_with size (length es) (fun k => e ← or_crash (es !! k); entry_cid e) (mkOut (replicate (Z.to_nat NODE_MAX) 0%Z) 0));
  cid ← put_block DagCbor (take (oat o) (obytes o));
  push_entry (level + 1) (mkEntry (to_bytes cid) size).
(** [push]. *)
Fixpoint push_entry (fuel : nat) (level : nat) (e : Entry) : St unit :=
  match fuel with
  | O => lift Crash
  | S fuel =>
      l ← ask levels;
      es ← lift (or_crash (l !! level));
      if (FANOUT <=? Z.of_nat (length es))%Z then lift Crash else
      _ ← change (set_level level (es ++ [e]));
      if (Z.of_nat (length (es ++ [e])) =? FANOUT)%Z then wrap_with (push_entry fuel) level else mret tt
  end.
Definition wrap (level : nat) : St unit := wrap_with (push_entry (S LEVELS)) level.

Definition flush_chunk : St unit :=
  c ← ask chunk;
  cid ← put_block Raw c;
  _ ← change (fun b => mkBuilder [] (total b) (levels b));
  push_entry (S LEVELS) 0 (mkEntry (to_bytes cid) (Z.of_nat (length c))).

(** [write]. *)
Fixpoint write_loop (fuel : nat) (data : bytes) : St unit :=
  if decide (data = []) then mret tt else
  match fuel with
  | O => lift Crash
  | S fuel =>
      c ← ask chunk;
      _ ← (if (Z.of_nat (length c) =? CHUNK)%Z then flush_chunk else mret tt);
      c ← ask chunk;
      let take_ := Nat.min (length data) (Z.to_nat CHUNK - length c) in
      _ ← change (fun b => mkBuilder (chunk b ++ take take_ data) (total b) (levels b));
      write_loop fuel (drop take_ data)
  end.
Definition write (data : bytes) : St unit :=
  t ← ask total;
  t ← lift (or_refuse (checked_add t (Z.of_nat (length data))) TooLarge);
  _ ← change (fun b => mkBuilder (chunk b) t (levels b));
  write_loop (length data) data.

(** [finish]. *)
Fixpoint finish_loop (ks : list nat) : St (Cid * Z) :=
  match ks with
  | [] => fail TooLarge
  | level :: ks =>
      l ← ask levels;
      es ← lift (or_crash (l !! level));
      let higher := existsb (fun l => match l with [] => false | _ => true end) (drop (level + 1) l) in
      match es with
      | [] => finish_loop ks
      | [e] => if higher then _ ← wrap level; finish_loop ks
               else _ ← change (set_level level []); c ← lift (entry_cid e); t ← ask total; mret (c, t)
      | _ => _ ← wrap level; finish_loop ks
      end
  end.
Definition finish : St (Cid * Z) :=
  c ← ask chunk;
  t ← ask total;
  _ ← (if negb (bool_decide (c = [])) || (t =? 0)%Z then flush_chunk else mret tt);
  finish_loop (seq 0 LEVELS).
End builder.

(** ** The node codec *)
Definition good (c : Cid) : Prop := cid_ok c /\ Forall is_byte (cid_digest c).
Definition links_image (cids : list Cid) : bytes := concat (map link_image cids).
Definition node_image (size : Z) (cids : list Cid) : bytes :=
  head_image 5 3 ++ text_image text_v ++ head_image 0 VERSION ++ text_image text_size ++ head_image 0 size ++ text_image text_links ++ head_image 4 (Z.of_nat (length cids)) ++ links_image cids.
(** A node the codec takes: a word for its size, 1 to 256 links. *)
Definition node_valid (size : Z) (cids : list Cid) : Prop := (0 <= size < W64)%Z /\ cids <> [] /\ (Z.of_nat (length cids) <= FANOUT)%Z /\ Forall good cids.

Lemma encode_links_writes {S} `{!Sink S} `{!SinkLaws S} link_of cids k : (forall i c, cids !! i = Some c -> link_of (k + i) = Done c) ->
  cids <> [] -> writes (S:=S) (encode_links link_of (seq k (length cids))) (links_image cids).
Proof.
  revert k. induction cids as [|c cids IH]; intros k Hk Hne; [done|]. intros s. cbn [length seq encode_links]. pose proof (Hk 0 c eq_refl) as E. rewrite Nat.add_0_r in E. rewrite E. cbn [mbind outcome_bind].
  destruct cids as [|c' cids].
  - cbn [length seq encode_links]. unfold links_image. cbn [map concat]. rewrite app_nil_r, <- writes_link. destruct (link c s); done.
  - unfold links_image. cbn [map concat].
    refine (writes_bind _ _ _ _ (writes_link c) (IH (Datatypes.S k) _ _) s); [|done]. intros i x Hx. rewrite Nat.add_succ_comm. by apply Hk.
Qed.
Lemma encode_writes {S} `{!Sink S} `{!SinkLaws S} size link_of cids : (forall i c, cids !! i = Some c -> link_of i = Done c) -> cids <> [] ->
  writes (S:=S) (encode_with size (length cids) link_of) (node_image size cids).
Proof. intros Hk Hne. unfold encode_with, node_image. repeat (apply writes_bind; [solve [auto with mind]|]). by apply encode_links_writes. Qed.

Lemma length_head m v : 1 <= length (head_image m v) <= 9.
Proof. unfold head_image. repeat case_match; cbn; lia. Qed.
Lemma length_link c : cid_ok c -> length (link_image c) = LINK.
Proof. intros H. unfold link_image. rewrite !length_app, length_to_bytes by done. done. Qed.
Lemma length_links cids : Forall good cids -> length (links_image cids) = length cids * LINK.
Proof. unfold links_image. induction 1 as [|c cids [Hc _] _ IH]; [done|]. cbn [map concat length]. rewrite length_app, IH, length_link by done. lia. Qed.
Lemma length_node size cids : Forall good cids -> (Z.of_nat (length cids) <= FANOUT)%Z -> (Z.of_nat (length (node_image size cids)) <= NODE_MAX)%Z.
Proof.
  intros Hg Hn. unfold node_image. rewrite !length_app, length_links by done. unfold text_image. rewrite !length_app. pose proof (length_head 0 size).
  assert (length (head_image 4 (Z.of_nat (length cids))) <= 3) by (unfold head_image, FANOUT in *; repeat case_match; try lia; cbn; lia).
  cbn [length text_v text_size text_links]. replace (length (head_image 5 3)) with 1 by done. replace (length (head_image 3 (Z.of_nat 1))) with 1 by done. replace (length (head_image 3 (Z.of_nat 4))) with 1 by done.
  replace (length (head_image 3 (Z.of_nat 5))) with 1 by done. replace (length (head_image 0 VERSION)) with 1 by done. unfold NODE_MAX, FANOUT, LINK, BYTES, DIGEST in *. lia.
Qed.

(** Reading back a node's links. *)
Lemma slice_drop {A} (l : list A) i j n : slice (drop i l) j n = slice l (i + j) n.
Proof. unfold slice. by rewrite drop_drop. Qed.
Lemma skip_links_spec n i : Forall is_byte (ibytes i) -> iat i <= length (ibytes i) ->
  yields (fun j => ibytes j = ibytes i /\ iat i + n * LINK <= iat j <= length (ibytes i) /\
    (iat j = iat i + n * LINK -> exists cids, length cids = n /\ Forall good cids /\ forall k c, cids !! k = Some c -> slice (ibytes i) (iat i + k * LINK + (LINK - BYTES)) BYTES = to_bytes c)) (skip_links n i).
Proof.
  revert i. induction n as [|n IH]; intros i Hb Hi.
  - cbn. split_and!; [done|lia|lia|]. intros _. exists []. split_and!; done.
  - cbn [skip_links]. pose proof (link_forward i Hb) as H. unfold forward in H. destruct (read_link i) as [[c j]| |]; cbn [yields fst snd] in H; [|done|done]. destruct H as (Ej & Hj & Hk & Hok & Hd & Hs).
    specialize (IH j). rewrite Ej in IH. specialize (IH Hb ltac:(lia)). cbn [mbind outcome_bind]. destruct (skip_links n j) as [j2| |]; cbn [yields] in *; [|done|done]. destruct IH as (E2 & H2 & H3).
    split_and!; [done|lia|lia|]. intros He. destruct H3 as (cids & Hl & Hg & Hc); [lia|]. exists (c :: cids). split_and!; [cbn; lia|by constructor|].
    intros [|k] x Hx; cbn in Hx.
    + injection Hx as <-. rewrite <- Hs. f_equal. assert (BYTES <= LINK) by (unfold LINK; lia). lia.
    + rewrite <- (Hc k x Hx). f_equal. lia.
Qed.
Lemma node_link_ok size links n (cids : list Cid) k c : good c -> cids !! k = Some c -> (forall k c, cids !! k = Some c -> get_slice links (k * LINK + LINK - BYTES) BYTES = Some (to_bytes c)) ->
  node_link (mkNode size links n) k = Done c.
Proof. intros [Hc Hb] Hk Hall. unfold node_link. cbn [nlinks]. rewrite (Hall k c Hk). cbn [or_crash mbind outcome_bind]. by rewrite (proj2 (from_bytes_iff _ c (to_bytes_bytes c Hc Hb)) (conj eq_refl Hc)). Qed.
Lemma links_slice cids k c rest : Forall good cids -> cids !! k = Some c -> get_slice (links_image cids ++ rest) (k * LINK + LINK - BYTES) BYTES = Some (to_bytes c).
Proof.
  intros Hg Hk. assert (cids = take k cids ++ c :: drop (S k) cids) as E by (by rewrite take_drop_middle). assert (good c) as [Hc Hb] by (by eapply Forall_lookup_1). pose proof (lookup_lt_Some _ _ _ Hk) as Hlt.
  assert (links_image cids ++ rest = (links_image (take k cids) ++ take (LINK - BYTES) (link_image c)) ++ to_bytes c ++ (links_image (drop (S k) cids) ++ rest)) as Es.
  { rewrite E at 1. unfold links_image. rewrite map_app, concat_app. cbn [map concat]. rewrite <- !app_assoc. done. }
  assert (length (links_image (take k cids) ++ take (LINK - BYTES) (link_image c)) = k * LINK + LINK - BYTES) as Hl.
  { rewrite length_app, length_links by (by apply Forall_take). rewrite length_take, length_take, length_link by done. unfold LINK. lia. }
  unfold get_slice. rewrite decide_True; [f_equal; rewrite Es; apply slice_mid; [lia|by rewrite length_to_bytes]|].
  rewrite Es, length_app, Hl, length_app, length_to_bytes by done. lia.
Qed.

Lemma key_here name bs i rest : (Z.of_nat (length name) < W64)%Z -> here bs i (text_image name ++ rest) ->
  key name (mkIn bs i) = Done (mkIn bs (i + length (text_image name))) /\ here bs (i + length (text_image name)) rest.
Proof.
  intros Hn H. destruct (reads_here _ _ _ _ _ _ (reads_key name Hn) H) as [E H']. split; [|done]. revert E. destruct (key name _) as [j| |]; cbn; [by intros [= ->]|done|done].
Qed.
Lemma skip_links_here bs i cids rest : Forall good cids -> here bs i (links_image cids ++ rest) -> skip_links (length cids) (mkIn bs i) = Done (mkIn bs (i + length (links_image cids))) /\ here bs (i + length (links_image cids)) rest.
Proof.
  intros Hg. revert i. induction Hg as [|c cids [Hc Hb] _ IH]; intros i H.
  - cbn. rewrite Nat.add_0_r. done.
  - unfold links_image in *. cbn [map concat length skip_links] in *. rewrite <- app_assoc in H. destruct (reads_here _ _ _ _ _ _ (reads_link c Hc Hb) H) as [-> H2]. cbn [mbind outcome_bind].
    destruct (IH _ H2) as [-> H3]. rewrite length_app, Nat.add_assoc. done.
Qed.

Lemma decode_image size cids : node_valid size cids -> decode (node_image size cids) = Done (mkNode size (links_image cids) (length cids)).
Proof.
  intros (Hsz & Hne & Hn & Hg). assert (here (node_image size cids) 0 (node_image size cids)) as H.
  { split_and!; [lia|done|]. pose proof (length_node size cids Hg Hn). unfold W64, NODE_MAX, FANOUT, LINK, BYTES, DIGEST in *. lia. }
  set (bs := node_image size cids) in *. unfold decode. remember bs as b eqn:Eb in H at 2. rewrite Eb in H. unfold bs in H at 2. unfold node_image in H. clear Eb b.
  assert (forall v, 0 <= v -> v <= 23 -> 0 <= v < W64)%Z as Hw by (unfold W64; intros; lia).
  destruct (reads_here _ _ _ _ _ _ (reads_expect 5 3 ltac:(lia) ltac:(unfold W64; lia)) H) as [-> H1]; clear H. cbn [mbind outcome_bind].
  destruct (key_here text_v _ _ _ ltac:(done) H1) as [-> H2]; clear H1. cbn [mbind outcome_bind].
  destruct (reads_here _ _ _ _ _ _ (reads_expect 0 VERSION ltac:(lia) ltac:(unfold W64, VERSION; lia)) H2) as [-> H1]; clear H2. cbn [mbind outcome_bind]. rewrite Z.eqb_refl. cbn [negb Z.eqb Pos.eqb].
  destruct (key_here text_size _ _ _ ltac:(done) H1) as [-> H2]; clear H1. cbn [mbind outcome_bind].
  destruct (reads_here _ _ _ _ _ _ (reads_expect 0 size ltac:(lia) Hsz) H2) as [-> H1]; clear H2. cbn [mbind outcome_bind].
  destruct (key_here text_links _ _ _ ltac:(done) H1) as [-> H2]; clear H1. cbn [mbind outcome_bind].
  destruct (reads_here _ _ _ _ _ _ (reads_expect 4 (Z.of_nat (length cids)) ltac:(lia) ltac:(unfold W64, FANOUT in *; lia)) H2) as [-> H1]; clear H2. cbn [mbind outcome_bind].
  assert (length cids <> 0) by (by destruct cids). destruct ((Z.of_nat (length cids) =? 0)%Z || (FANOUT <? Z.of_nat (length cids))%Z) eqn:Ec; [lia|]. cbn [iat]. rewrite Nat2Z.id.
  match goal with |- context [skip_links _ (mkIn _ ?k)] => set (start := k) in * end. pose proof H1 as (_ & Hd & _). rewrite <- (app_nil_r (links_image cids)) in H1.
  destruct (skip_links_here _ _ _ _ Hg H1) as [-> (Hle & Hr & _)]. cbn [mbind outcome_bind iat]. rewrite Hd.
  assert (start + length (links_image cids) = length bs) as Hlen by (apply (f_equal length) in Hr; rewrite length_drop in Hr; cbn [length] in Hr; clearbody bs start; lia).
  rewrite Hlen, Nat.eqb_refl. replace (length bs - start) with (length (links_image cids)) by lia. rewrite length_links, Nat.eqb_refl by done. cbn [negb orb].
  rewrite (encode_writes size _ cids); [|intros k c Hk; eapply node_link_ok; [by eapply Forall_lookup_1|exact Hk|]; intros k' c' Hk'; pose proof (links_slice cids k' c' [] Hg Hk') as Hx; by rewrite app_nil_r in Hx|done].
  rewrite canonical_iff. cbn [mbind outcome_bind]. by rewrite bool_decide_true.
Qed.

Lemma decode_only bs : Forall is_byte bs -> yields (fun n => exists size cids, node_valid size cids /\ bs = node_image size cids /\ n = mkNode size (links_image cids) (length cids)) (decode bs).
Proof.
  intros Hb. unfold decode. step_expect Hb v j E L V. step_key Hb j0 E0 L0. step_expect Hb v0 j1 E1 L1 V1. case_match; [done|]. case_match; [done|].
  step_key Hb j2 E2 L2. step_expect Hb v1 j3 E3 L3 V3. step_key Hb j4 E4 L4. step_expect Hb v2 j5 Eb L5 V5. destruct ((v2 =? 0)%Z || (FANOUT <? v2)%Z) eqn:Ec; [done|].
  pose proof (skip_links_spec (Z.to_nat v2) j5) as Hs. rewrite Eb in Hs. specialize (Hs Hb ltac:(lia)).
  destruct (skip_links (Z.to_nat v2) j5) as [k| |]; cbn [yields mbind outcome_bind] in *; [|done|done]. destruct Hs as (_ & Hk & Hl).
  destruct (negb (iat k =? length bs) || negb (iat k - iat j5 =? Z.to_nat v2 * LINK)) eqn:Et; [done|]. destruct Hl as (cids & Hn & Hg & Hc); [lia|]. set (n := mkNode v1 _ _).
  assert (cids <> []) as Hne by (intros ->; cbn in Hn; lia).
  assert (forall i c, cids !! i = Some c -> node_link n i = Done c) as Hlk.
  { intros i c Hi. pose proof (lookup_lt_Some _ _ _ Hi) as Hlt. eapply node_link_ok; [by eapply Forall_lookup_1|exact Hi|]. intros k' c' Hk'. pose proof (lookup_lt_Some _ _ _ Hk') as Hlt'. assert (BYTES <= LINK) by (unfold LINK; lia).
    assert (k' * LINK + LINK <= Z.to_nat v2 * LINK) by nia. unfold get_slice. rewrite decide_True by (rewrite length_drop; lia). rewrite slice_drop, <- (Hc k' c' Hk'). do 2 f_equal. lia. }
  rewrite <- Hn, (encode_writes v1 (node_link n) cids Hlk Hne), canonical_iff. cbn [mbind outcome_bind]. case_bool_decide as Hbs; [|done]. cbn [yields]. exists v1, cids.
  assert (node_valid v1 cids) as Hv by (split_and!; try done; lia). split; [done|]. split; [done|]. pose proof (decode_image v1 cids Hv) as Hd. subst n. f_equal; [|done].
  rewrite <- Hn in Et, Hk. clear - Hbs Et Hg Hk. rewrite <- Hbs in *. unfold node_image in *. rewrite !app_assoc in *. set (pre := _ ++ head_image 4 _) in *. rewrite length_app, length_links in Et by done.
  replace (iat j5) with (length pre) by lia. apply drop_app_length.
Qed.

(** a node has one encoding. Decoding never panics, and it accepts exactly the canonical encodings of a size and 1 to 256 links,
    which [encode] writes. *)
Theorem node_canonical bs : Forall is_byte bs -> safe (decode bs) /\ forall n, decode bs = Done n <->
  exists size cids, node_valid size cids /\ n = mkNode size (links_image cids) (length cids) /\ encode size cids (Z.to_nat NODE_MAX) = Done bs.
Proof.
  intros Hb. pose proof (decode_only bs Hb) as H. apply yields_iff in H as [Hs H]. split; [done|]. intros n.
  assert (forall size cids, node_valid size cids -> encode size cids (Z.to_nat NODE_MAX) = Done (node_image size cids)) as He.
  { intros size cids (_ & Hne & Hn & Hg). unfold encode. rewrite (encode_writes size _ cids); [|intros i c ->; done|done]. unfold push, out_sink. cbn [oat obytes]. pose proof (length_node size cids Hg Hn).
    rewrite length_replicate. destruct (Nat.leb_spec (0 + length (node_image size cids)) (Z.to_nat NODE_MAX)); [|lia]. cbn [mbind outcome_bind oat obytes]. rewrite take_0, Nat.add_0_l. cbn [app]. by rewrite take_app_length. }
  split.
  - intros (size & cids & Hv & -> & ->)%H. exists size, cids. split_and!; auto.
  - intros (size & cids & Hv & -> & E). rewrite He in E by done. injection E as <-. by apply decode_image.
Qed.
Definition demo_node : bytes := Eval vm_compute in node_image 20000 [demo_cid; demo_cid].
Lemma node_canonical_witness : exists size cids, node_valid size cids /\ encode size cids (Z.to_nat NODE_MAX) = Done demo_node.
Proof.
  destruct (proj1 (proj2 (node_canonical demo_node ltac:(unfold demo_node, is_byte; repeat (constructor; [split; [discriminate|reflexivity]|]); constructor)) (mkNode 20000 (links_image [demo_cid; demo_cid]) 2)) ltac:(reflexivity)) as (size & cids & Hv & _ & E).
  exists size, cids. split; [exact Hv|exact E].
Defined.
