(* ===== verification/DagTree.v ===== *)
(** * The tree of an object, and reading it ([libmind/src/dag.rs])

    [subtree] and [blocks_of] define the tree of some bytes: its root and its blocks. The readers are followed down that tree
    once, for any store whose [fetch] of a block of the tree gives that block or fails; this is so for a store that holds
    the blocks, where no read fails, and for any store at all that knows no second preimage of them, where a read gives the
    object's bytes or an error. *)
From S2P Require Import Prelude Outcome Sha256 Cid Cbor Dag.
Local Open Scope nat_scope.

(** ** The reference *)
(** Bytes a tree of height [h] holds at most. *)
Definition cap (h : nat) : Z := CHUNK * FANOUT ^ Z.of_nat h.
Fixpoint cut (n k : nat) (l : bytes) : list bytes :=
  match n with
  | O => []
  | S n => take k l :: cut n k (drop k l)
  end.
Definition zlen (l : bytes) : Z := Z.of_nat (length l).
(** The parts of some bytes under a node of height [h + 1]. *)
Definition parts (h : nat) (d : bytes) : list bytes := cut (Z.to_nat (div_ceil (zlen d) (cap h))) (Z.to_nat (cap h)) d.
Fixpoint subtree (h : nat) (d : bytes) : Cid :=
  match h with
  | O => of_data Raw d
  | S h => of_data DagCbor (node_image (zlen d) (map (subtree h) (parts h d)))
  end.
Definition node_block (h : nat) (d : bytes) : bytes := node_image (zlen d) (map (subtree h) (parts h d)).
Fixpoint blocks_of (h : nat) (d : bytes) : list (Codec * bytes) :=
  match h with
  | O => [(Raw, d)]
  | S h => (DagCbor, node_block h d) :: concat (map (blocks_of h) (parts h d))
  end.
Definition root_of (d : bytes) : Cid := subtree (height (zlen d)) d.
Definition object_blocks (d : bytes) : list (Codec * bytes) := blocks_of (height (zlen d)) d.

#[local] Opaque CHUNK FANOUT.

Lemma chunk_pos : (0 < CHUNK)%Z.
Proof. done. Qed.
Lemma fanout_pos : (1 < FANOUT)%Z.
Proof. done. Qed.
Lemma cap_pos h : (0 < cap h)%Z.
Proof. unfold cap. pose proof chunk_pos. pose proof fanout_pos. apply Z.mul_pos_pos; [done|]. apply Z.pow_pos_nonneg; lia. Qed.
Lemma cap_S h : cap (S h) = (cap h * FANOUT)%Z.
Proof. unfold cap. rewrite Nat2Z.inj_succ, Z.pow_succ_r by lia. lia. Qed.
Lemma capacity_S h : capacity (S h) = cap h.
Proof. unfold capacity, cap. do 2 f_equal. lia. Qed.
Lemma cap_mono h h' : h <= h' -> (cap h <= cap h')%Z.
Proof. intros H. unfold cap. pose proof chunk_pos. pose proof fanout_pos. apply Z.mul_le_mono_nonneg_l; [lia|]. apply Z.pow_le_mono_r; lia. Qed.

Lemma div_ceil_spec a b : (0 <= a)%Z -> (0 < b)%Z -> (a <= div_ceil a b * b < a + b /\ 0 <= div_ceil a b)%Z.
Proof. intros Ha Hb. unfold div_ceil. pose proof (Z.div_mod (a + b - 1) b). pose proof (Z.mod_pos_bound (a + b - 1) b Hb). split; [lia|apply Z.div_pos; lia]. Qed.

Lemma height_loop_spec fuel size h k : (size <= CHUNK * FANOUT ^ Z.of_nat (k + fuel))%Z -> h = k -> (k = 0 \/ (cap (k - 1) < size)%Z) ->
  exists r, height_loop fuel size (cap k) h = r /\ k <= r /\ (size <= cap r)%Z /\ (r = 0 \/ (cap (r - 1) < size)%Z).
Proof.
  revert h k. induction fuel as [|fuel IH]; intros h k Hs -> Hk; cbn [height_loop].
  - rewrite Nat.add_0_r in Hs. eauto.
  - destruct (Z.ltb_spec (cap k) size) as [Hl|Hl]; [|by exists k; auto]. rewrite <- cap_S. replace (S k) with (k + 1) by lia. destruct (IH (k + 1) (k + 1)) as (r & E & Hr & H1 & H2); [by replace (k + 1 + fuel) with (k + S fuel) by lia|done|right; by replace (k + 1 - 1) with k by lia|].
    exists r. split_and!; auto with lia.
Qed.
(** [height] is the least height that holds the size. *)
Lemma height_spec size : (0 <= size < W64)%Z -> (size <= cap (height size))%Z /\ (height size = 0 \/ (cap (height size - 1) < size)%Z).
Proof.
  intros Hs. unfold height. replace CHUNK with (cap 0) by (unfold cap; rewrite Z.mul_1_r; done). destruct (height_loop_spec 64 size 0 0) as (r & -> & _ & H1 & H2); [|done|by left|done].
  Transparent CHUNK FANOUT. unfold CHUNK, FANOUT, W64 in *. change (Z.of_nat (0 + 64)) with 64%Z. lia.
Qed.
#[local] Opaque CHUNK FANOUT.
Lemma height_unique size h : (0 <= size < W64)%Z -> (size <= cap h)%Z -> h = 0 \/ (cap (h - 1) < size)%Z -> height size = h.
Proof.
  intros Hs H1 H2. destruct (height_spec size Hs) as [H3 H4]. destruct (lt_eq_lt_dec (height size) h) as [[Hlt|]|Hgt]; [|done|].
  - destruct H2 as [->|H2]; [lia|]. pose proof (cap_mono (height size) (h - 1) ltac:(lia)). lia.
  - destruct H4 as [H4|H4]; [lia|]. pose proof (cap_mono h (height size - 1) ltac:(lia)). lia.
Qed.

Lemma length_cut n k l : length (cut n k l) = n.
Proof. revert l. induction n as [|n IH]; intros l; [done|]. cbn. by rewrite IH. Qed.
Lemma cut_lookup n k l i : i < n -> cut n k l !! i = Some (slice l (i * k) k).
Proof.
  revert l i. induction n as [|n IH]; intros l i Hi; [lia|]. destruct i as [|i]; [done|]. cbn [cut lookup list_lookup]. rewrite IH by lia. f_equal. rewrite slice_drop. f_equal. 
Qed.
Lemma concat_cut n k l : length l <= n * k -> concat (cut n k l) = l.
Proof. revert l. induction n as [|n IH]; intros l Hl; [by destruct l; cbn in *; [|lia]|]. cbn [cut concat]. rewrite IH by (rewrite length_drop; cbn in Hl; lia). apply take_drop. Qed.

Section parts.
Context (h : nat) (d : bytes) (Hd : (0 < zlen d <= cap (S h))%Z).
Let n := Z.to_nat (div_ceil (zlen d) (cap h)).
Lemma parts_count : length (parts h d) = n.
Proof. apply length_cut. Qed.
Lemma parts_bound : (1 <= Z.of_nat n <= FANOUT)%Z.
Proof.
  pose proof (cap_pos h) as Hp. destruct (div_ceil_spec (zlen d) (cap h) ltac:(lia) Hp) as [H1 H2]. rewrite cap_S in Hd. subst n. rewrite Z2Nat.id by done. split; nia.
Qed.
Lemma parts_lookup i : i < n -> parts h d !! i = Some (slice d (i * Z.to_nat (cap h)) (Z.to_nat (cap h))).
Proof. apply cut_lookup. Qed.
Lemma parts_within w : (0 <= w < zlen d)%Z -> Z.to_nat (w / cap h) < n.
Proof.
  intros Hw. pose proof (cap_pos h) as Hp. destruct (div_ceil_spec (zlen d) (cap h) ltac:(lia) Hp) as [H1 H2]. subst n. pose proof (Z.div_pos w (cap h) ltac:(lia) Hp). apply Z2Nat.inj_lt; [done|done|].
  pose proof (Z.mul_div_le w (cap h) Hp). nia.
Qed.
Lemma part_length i p : parts h d !! i = Some p -> zlen p = Z.min (cap h) (zlen d - Z.of_nat i * cap h) /\ (0 < zlen p)%Z.
Proof.
  intros Hi. pose proof (lookup_lt_Some _ _ _ Hi) as Hlt. rewrite parts_count in Hlt. rewrite parts_lookup in Hi by done. injection Hi as <-. pose proof (cap_pos h) as Hp.
  destruct (div_ceil_spec (zlen d) (cap h) ltac:(lia) Hp) as [H1 H2]. unfold zlen, slice in *. rewrite length_take, length_drop. subst n. assert (Z.of_nat i + 1 <= div_ceil (Z.of_nat (length d)) (cap h))%Z by lia.
  assert (Z.of_nat i * cap h < Z.of_nat (length d))%Z by nia. assert (Z.of_nat (i * Z.to_nat (cap h)) = Z.of_nat i * cap h)%Z by lia. lia.
Qed.
Lemma parts_concat : concat (parts h d) = d.
Proof.
  apply concat_cut. pose proof (cap_pos h) as Hp. destruct (div_ceil_spec (zlen d) (cap h) ltac:(lia) Hp) as [H1 H2]. unfold zlen in *.
  assert (Z.of_nat (Z.to_nat (div_ceil (Z.of_nat (length d)) (cap h)) * Z.to_nat (cap h)) = div_ceil (Z.of_nat (length d)) (cap h) * cap h)%Z by lia. lia.
Qed.
End parts.

(** ** Programs over a store: what they give, where they may fail *)
Section reading.
Context {B : Type} `{!Blocks B} {L : Type} (J : B -> Prop) (log : B -> L) (F : Prop).
Local Abbreviation spec := (Outcome.spec (E:=Error) J log F).

(** The store gives the blocks of a set or fails. *)
Context (known : list (Codec * bytes)).
Context (fetch_spec : forall c x l, (c, x) ∈ known -> spec l (fetch (of_data c x)) (fun bs l' => bs = x /\ l' = l)).

Lemma digest_good c x : good (of_data c x).
Proof.
  split; [apply length_digest|]. cbn. unfold digest, finish. apply Forall_concat, Forall_map, Forall_true. intros z. unfold to_be. apply Forall_rev, to_le_bytes.
Qed.
Lemma subtree_good h d : good (subtree h d).
Proof. destruct h; apply digest_good. Qed.
Lemma subtree_codec h d : codec (subtree h d) = if h =? 0 then Raw else DagCbor.
Proof. by destruct h. Qed.

Definition node_of (h : nat) (d : bytes) : Node := mkNode (zlen d) (links_image (map (subtree h) (parts h d))) (length (parts h d)).
Section one_node.
Context (h : nat) (d : bytes) (Hd : (0 < zlen d <= cap (S h))%Z) (H64 : (zlen d < W64)%Z).
Let good_links : Forall good (map (subtree h) (parts h d)).
Proof. apply Forall_map, Forall_true. intros x. apply subtree_good. Qed.
Lemma node_valid_of : node_valid (zlen d) (map (subtree h) (parts h d)).
Proof.
  pose proof (parts_bound h d Hd) as Hb. pose proof (parts_count h d) as Hc. split_and!; [lia|lia|intros E; apply (f_equal length) in E; rewrite length_map in E; cbn in E; lia|rewrite length_map; lia|done].
Qed.
Lemma node_spec l : (DagCbor, node_block h d) ∈ known -> spec l (node (subtree (S h) d)) (fun n l' => n = node_of h d /\ l' = l).
Proof.
  intros Hk. unfold node. rewrite subtree_codec. cbn [Nat.eqb]. rewrite decide_True by done. eapply spec_bind; [by apply (fetch_spec DagCbor (node_block h d))|]. intros bs l' [-> ->].
  eapply spec_lift; [|done]. unfold node_block. rewrite decode_image by apply node_valid_of. unfold node_of. by rewrite length_map.
Qed.
Lemma node_link_of i p : parts h d !! i = Some p -> node_link (node_of h d) i = Done (subtree h p).
Proof.
  intros Hi. eapply (node_link_ok _ _ _ (map (subtree h) (parts h d))); [apply subtree_good|by rewrite list_lookup_fmap, Hi|]. intros k c Hk. pose proof (links_slice _ k c [] good_links Hk) as H. by rewrite app_nil_r in H.
Qed.
Lemma any_other_none (ks : list nat) : (forall k, k ∈ ks -> k < length (parts h d)) -> any_other (node_of h d) (if S h =? 1 then Raw else DagCbor) ks = Done false.
Proof.
  induction ks as [|k ks IH]; intros Hk; [done|]. cbn [any_other]. destruct (lookup_lt_is_Some_2 (parts h d) k) as [p Hp]; [apply Hk; set_solver|]. rewrite (node_link_of k p Hp). cbn [mbind outcome_bind].
  rewrite subtree_codec. rewrite decide_True by (by destruct h). apply IH. intros; apply Hk; set_solver.
Qed.
Lemma check_of : check (node_of h d) (S h) (zlen d) = Done tt.
Proof.
  unfold check. change (nsize (node_of h d)) with (zlen d). change (ncount (node_of h d)) with (length (parts h d)). rewrite Z.eqb_refl, capacity_S. rewrite (parts_count h d).
  rewrite Z2Nat.id by (apply div_ceil_spec; [lia|apply cap_pos]). rewrite Z.eqb_refl. cbn [negb orb]. rewrite any_other_none; [done|].
  intros k Hk. apply list_elem_of_In, in_seq in Hk. rewrite (parts_count h d). lia.
Qed.
Lemma child_of_part w : (0 <= w < zlen d)%Z -> exists p, parts h d !! Z.to_nat (w / cap h) = Some p /\
  child_of (node_of h d) (S h) (zlen d) w = Done (subtree h p, zlen p, w mod cap h)%Z /\ (0 <= w mod cap h < zlen p)%Z /\ (zlen p <= cap h)%Z /\
  p = slice d (Z.to_nat (w - w mod cap h)) (Z.to_nat (cap h)).
Proof.
  intros Hr. pose proof (parts_within h d Hd w Hr) as Hi. pose proof (parts_lookup h d (Z.to_nat (w / cap h)) Hi) as Hp. eexists. split; [exact Hp|]. destruct (part_length h d Hd _ _ Hp) as [Hl Hl0].
  set (p := slice _ _ _) in *. pose proof (cap_pos h) as Hc. pose proof (Z.div_pos w (cap h) ltac:(lia) Hc). pose proof (Z.mod_eq w (cap h) ltac:(lia)) as Hm. pose proof (Z.mod_pos_bound w (cap h) Hc).
  rewrite Z2Nat.id in Hl by done. split_and!; [|lia|lia|lia|].
  - unfold child_of. rewrite capacity_S, (node_link_of _ p Hp). cbn [mbind outcome_bind]. unfold minus, checked_sub. rewrite (proj2 (Z.leb_le _ _)) by nia. cbn [or_crash mbind outcome_bind].
    rewrite (proj2 (Z.leb_le _ _)) by nia. cbn [or_crash mbind outcome_bind]. rewrite Hl. do 3 f_equal. lia.
  - subst p. f_equal. nia.
Qed.
Lemma blocks_part i p x : parts h d !! i = Some p -> x ∈ blocks_of h p -> x ∈ blocks_of (S h) d.
Proof. intros Hi Hx. cbn [blocks_of]. apply list_elem_of_further. apply list_elem_of_In, in_concat. exists (blocks_of h p). split; [apply in_map; by eapply list_elem_of_In, list_elem_of_lookup_2|by apply list_elem_of_In]. Qed.
End one_node.

Lemma slice_zlen (l : bytes) i n : (zlen (slice l i n) <= zlen l)%Z.
Proof. unfold zlen, slice. rewrite length_take, length_drop. lia. Qed.
Lemma slice_slice {A} (l : list A) a m i n : i + n <= m -> slice (slice l a m) i n = slice l (a + i) n.
Proof. intros H. unfold slice. rewrite skipn_firstn_comm, take_take, drop_drop. f_equal. lia. Qed.
Lemma slice_whole {A} (l : list A) n : length l <= n -> slice l 0 n = l.
Proof. intros H. unfold slice. rewrite drop_0. by apply take_ge. Qed.
Lemma cap_0 : cap 0 = CHUNK.
Proof. unfold cap. apply Z.mul_1_r. Qed.
Lemma cap_multiple h : (CHUNK | cap h)%Z.
Proof. exists (FANOUT ^ Z.of_nat h)%Z. unfold cap. lia. Qed.

Lemma down_spec h d w l : (0 <= w < zlen d)%Z -> (zlen d <= cap h)%Z -> (zlen d < W64)%Z -> (forall x, x ∈ blocks_of h d -> x ∈ known) ->
  spec l (down_to_chunk h (subtree h d) (zlen d) w) (fun r l' => l' = l /\ exists p, r = (of_data Raw p, zlen p, w mod CHUNK)%Z /\ (Raw, p) ∈ known /\ (0 <= w mod CHUNK < zlen p)%Z /\
    p = slice d (Z.to_nat (w - w mod CHUNK)) (Z.to_nat CHUNK)).
Proof.
  revert d w l. induction h as [|h IH]; intros d w l Hr Hc H64 Hk; cbn [down_to_chunk].
  - apply spec_ret. split; [done|]. rewrite cap_0 in Hc. rewrite Z.mod_small by lia. exists d. split_and!; [done|apply Hk; cbn; set_solver|lia|lia|]. rewrite Z.sub_diag. symmetry. apply slice_whole. unfold zlen in *. lia.
  - assert (0 < zlen d <= cap (S h))%Z as Hd by lia. eapply spec_bind; [apply (node_spec h d Hd H64); apply Hk; cbn; set_solver|]. intros n l' [-> ->]. eapply spec_step; [by apply check_of|].
    destruct (child_of_part h d Hd H64 w Hr) as (p & Hp & Ec & Hw' & Hpc & Es). eapply spec_step; [exact Ec|].
    assert (zlen p <= zlen d)%Z as Hle by (rewrite Es; apply slice_zlen).
    eapply spec_weaken; [apply IH; [done|done|lia|intros x Hx; apply Hk; eapply blocks_part; eauto]|]. intros r l' [-> (q & -> & Hq & Hm & Eq)]. split; [done|]. pose proof (cap_multiple h) as [m Hm'].
    pose proof chunk_pos as Hcp. pose proof (cap_pos h) as Hcc. assert ((w mod cap h) mod CHUNK = w mod CHUNK)%Z as Em by (apply Z.mod_mod_divide; by exists m). rewrite Em in *. exists q. split_and!; [done|done|lia|lia|].
    rewrite Eq, Es. pose proof (Z.mod_pos_bound w (cap h) Hcc). pose proof (Z.mod_pos_bound w CHUNK Hcp). pose proof (Z.div_mod (w mod cap h) CHUNK ltac:(lia)) as Hdm. rewrite Em in Hdm.
    pose proof (Z.mod_le w (cap h) ltac:(lia) Hcc). pose proof (Z.mod_le (w mod cap h) CHUNK ltac:(lia) Hcp) as Hml. rewrite Em in Hml. assert ((w mod cap h) / CHUNK < m)%Z by (apply Z.div_lt_upper_bound; lia).
    rewrite slice_slice; [f_equal; lia|]. assert (w mod cap h - w mod CHUNK + CHUNK <= cap h)%Z by nia. lia.
Qed.

Lemma slice_more {A} (l : list A) i n m : slice l i n ++ slice l (i + n) m = slice l i (n + m).
Proof. unfold slice. rewrite <- (take_take_drop (drop i l) n m), drop_drop. done. Qed.

Section object.
Context (data : bytes) (H64 : (zlen data < W64)%Z) (Hk : forall x, x ∈ object_blocks data -> x ∈ known).
Let h := height (zlen data).
Let Hcap : (zlen data <= cap h)%Z.
Proof. apply height_spec. unfold zlen in *. lia. Qed.

Lemma size_spec l : spec l (size (root_of data)) (fun t l' => t = zlen data /\ l' = l).
Proof.
  unfold size. assert (0 <= zlen data < W64)%Z as Hz by (unfold zlen in *; lia). pose proof (height_spec _ Hz) as [_ Hmin]. unfold root_of. fold h in Hmin |- *. unfold object_blocks in Hk. fold h in Hk. destruct h as [|h'] eqn:Eh; cbn [subtree codec of_data].
  - eapply spec_bind; [apply (fetch_spec Raw data), Hk; cbn; set_solver|]. intros bs l' [-> ->]. by apply spec_ret.
  - assert (0 < zlen data <= cap (S h'))%Z as Hd. { split; [|done]. destruct Hmin as [|Hmin]; [done|]. pose proof (cap_pos (S h' - 1)). lia. }
    eapply spec_bind; [apply (node_spec h' data Hd H64), Hk; cbn; set_solver|]. intros n l' [-> ->]. cbn [nsize node_of]. subst h. rewrite Eh. cbn [Nat.eqb].
    eapply spec_step; [by apply check_of|]. by apply spec_ret.
Qed.
Lemma read_loop_spec fuel offset room out l : (0 <= offset)%Z -> out = slice data (Z.to_nat offset) (length out) -> (zlen out <= room)%Z -> (room - zlen out <= Z.of_nat fuel)%Z ->
  spec l (read_loop fuel (root_of data) (zlen data) offset room out) (fun r l' => l' = l /\ r = slice data (Z.to_nat offset) (Z.to_nat room)).
Proof.
  intros Ho. revert out l. induction fuel as [|fuel IH]; intros out l Eo Hr Hf; cbn [read_loop].
  all: destruct ((Z.of_nat (length out) <? room)%Z && (offset + Z.of_nat (length out) <? zlen data)%Z) eqn:Ec; cbn [negb]; [|apply spec_ret; split; [done|]; rewrite Eo; destruct (Z.ltb_spec (Z.of_nat (length out)) room) as [Hlt|Hge];
    [unfold slice; rewrite take_ge, take_ge by (rewrite length_drop; unfold zlen in *; lia); done|f_equal; unfold zlen in *; lia]].
  - unfold zlen in *. lia.
  - set (w := (offset + Z.of_nat (length out))%Z) in *. unfold root_of. fold h. eapply spec_bind; [apply (down_spec h data w); [lia|done|done|exact Hk]|]. intros [[c held] within] l' [-> (p & [= -> -> ->] & Hp & Hm & Ep)].
    eapply spec_bind; [by apply (fetch_spec Raw p)|]. intros bs l' [-> ->]. cbn [codec of_data]. rewrite bool_decide_true, Z.eqb_refl by done. cbn [negb orb].
    eapply (spec_step _ _ (zlen p - w mod CHUNK)%Z); [unfold minus, checked_sub; by rewrite (proj2 (Z.leb_le _ _)) by lia|]. cbv zeta. set (t := Z.to_nat (Z.min (zlen p - w mod CHUNK) (room - Z.of_nat (length out)))). assert (0 < t) as Ht by lia. pose proof (Z.mod_le w CHUNK ltac:(lia) chunk_pos) as Hml. pose proof (Z.mod_pos_bound w CHUNK chunk_pos) as Hmb.
    assert (Z.of_nat (Z.to_nat (w mod CHUNK) + t) <= zlen p)%Z as Htl by lia. assert (slice p (Z.to_nat (w mod CHUNK)) t = slice data (Z.to_nat offset + length out) t) as Es.
    { rewrite Ep. assert (zlen p <= CHUNK)%Z by (rewrite Ep; unfold zlen, slice; rewrite length_take; lia). rewrite slice_slice by lia. f_equal. lia. }
    assert (length (slice p (Z.to_nat (w mod CHUNK)) t) = t) as Hlen by (apply slice_length; unfold zlen in *; lia).
    apply (IH (out ++ _)); unfold zlen; rewrite length_app, Hlen; [|unfold zlen in *; lia|unfold zlen in *; lia]. rewrite Es, Eo at 1. rewrite slice_more. done.
Qed.
Lemma read_at_spec offset room l : (0 <= offset <= zlen data)%Z -> (0 <= room)%Z -> spec l (read_at (root_of data) offset room) (fun r l' => l' = l /\ r = slice data (Z.to_nat offset) (Z.to_nat room)).
Proof.
  intros Ho Hr. unfold read_at. eapply spec_bind; [apply size_spec|]. intros t l' [-> ->]. destruct (Z.ltb_spec (zlen data) offset); [lia|]. apply read_loop_spec; [lia|by cbn| |]; unfold zlen; cbn [length]; lia.
Qed.

End object.

(** *** In order: [each_chunk] *)
Fixpoint contiguous (o : Z) (e : list (Z * bytes)) : Prop :=
  match e with
  | [] => True
  | (x, bs) :: e => x = o /\ contiguous (o + zlen bs) e
  end.
Lemma contiguous_app o e e' : contiguous o e -> contiguous (o + zlen (concat (map snd e))) e' -> contiguous o (e ++ e').
Proof.
  revert o. induction e as [|[x bs] e IH]; intros o He He'; cbn [app contiguous map concat snd] in *; [by replace (o + zlen [])%Z with o in He' by (unfold zlen; cbn; lia)|].
  destruct He as [-> He]. split; [done|]. apply IH; [done|]. unfold zlen in *. rewrite length_app in He'. by replace (o + Z.of_nat (length bs) + Z.of_nat (length (concat (map snd e))))%Z with (o + Z.of_nat (length bs + length (concat (map snd e))))%Z by lia.
Qed.

(** Down to the node of height 1 over a place. *)
Definition leaf (d : bytes) (w : Z) : bytes := slice d (Z.to_nat w) (Z.to_nat (cap 1)).
Lemma cap_1_multiple k : (cap 1 | cap (S k))%Z.
Proof. exists (FANOUT ^ Z.of_nat k)%Z. unfold cap. rewrite (Nat2Z.inj_succ k), Z.pow_succ_r by lia. change (Z.of_nat 1) with 1%Z. rewrite Z.pow_1_r. lia. Qed.
Section down_leaf.
Context (k : nat) (d : bytes) (w : Z) (Hr : (0 <= w < zlen d)%Z) (Hc : (zlen d <= cap (S (S k)))%Z) (Hw : (w mod cap 1 = 0)%Z).
Lemma leaf_part p : p = slice d (Z.to_nat (w - w mod cap (S k))) (Z.to_nat (cap (S k))) -> leaf p (w mod cap (S k)) = leaf d w /\ ((w mod cap (S k)) mod cap 1 = 0)%Z.
Proof.
  intros ->. destruct (cap_1_multiple k) as [m Hm]. pose proof (cap_pos 1) as H1. pose proof (cap_pos (S k)) as Hp. assert ((w mod cap (S k)) mod cap 1 = 0)%Z as E by (rewrite Z.mod_mod_divide by (by exists m); done).
  split; [|done]. unfold leaf. pose proof (Z.mod_pos_bound w (cap (S k)) Hp). pose proof (Z.mod_le w (cap (S k)) ltac:(lia) Hp). apply Z.mod_divide in E as [q Hq]; [|lia].
  rewrite slice_slice; [f_equal; lia|]. assert (q < m)%Z by nia. assert (w mod cap (S k) + cap 1 <= cap (S k))%Z by nia. lia.
Qed.
End down_leaf.
Lemma down_to_leaf_spec k d w l : (0 <= w < zlen d)%Z -> (zlen d <= cap (S k))%Z -> (zlen d < W64)%Z -> (w mod cap 1 = 0)%Z -> (forall x, x ∈ blocks_of (S k) d -> x ∈ known) ->
  spec l (down_to_leaf (S k) (subtree (S k) d) (zlen d) w) (fun r l' => l' = l /\ r = (node_of 0 (leaf d w), zlen (leaf d w)) /\ (0 < zlen (leaf d w) <= cap 1)%Z /\ forall x, x ∈ blocks_of 1 (leaf d w) -> x ∈ known).
Proof.
  revert d w l. induction k as [|k IH]; intros d w l Hr Hc H64 Hw Hk; assert (0 < zlen d)%Z as Hd by lia; (cbn [down_to_leaf]; eapply spec_bind; [apply (node_spec _ d (conj Hd Hc) H64); apply Hk; cbn; set_solver|]; intros n l' [-> ->]; eapply spec_step; [by apply check_of|]).
  - assert (w = 0)%Z as -> by (rewrite Z.mod_small in Hw by lia; done). assert (leaf d 0 = d) as -> by (apply slice_whole; unfold zlen in *; lia). apply spec_ret. done.
  - destruct (child_of_part _ d (conj Hd Hc) H64 w Hr) as (p & Hp & Ec & Hw' & Hpc & Es). eapply spec_step; [exact Ec|]. destruct (leaf_part k d w Hr Hw p Es) as [El Em]. rewrite <- El.
    assert (zlen p <= zlen d)%Z as Hle by (rewrite Es; apply slice_zlen).
    apply IH; [done|done|lia|done|]. intros x Hx. apply Hk. by eapply blocks_part.
Qed.

Section chunks.
Context {E : Type} (each : Z -> bytes -> ST B unit) (add : L -> Z -> bytes -> L) (each_spec : forall o bs l, spec l (each o bs) (fun _ l' => l' = add l o bs)).
Definition added (l : L) (e : list (Z * bytes)) : L := foldl (fun l x => add l x.1 x.2) l e.

Lemma chunks_of_spec p base ks i l : (0 < zlen p <= cap 1)%Z -> (zlen p < W64)%Z -> (forall x, x ∈ blocks_of 1 p -> x ∈ known) -> ks = seq i (length (parts 0 p) - i) -> i <= length (parts 0 p) ->
  spec l (chunks_of each (node_of 0 p) (zlen p) base ks) (fun _ l' => exists e, l' = added l e /\ length e = length ks /\ contiguous (base + Z.of_nat i * CHUNK) e /\ concat (map snd e) = drop (i * Z.to_nat CHUNK) p).
Proof.
  intros Hp H64 Hk. revert i l. induction ks as [|k ks IH]; intros i l Eks Hi; cbn [chunks_of]; pose proof (parts_count 0 p) as Hc; rewrite cap_0 in Hc; destruct (div_ceil_spec (zlen p) CHUNK ltac:(lia) chunk_pos) as [Hdc Hd0].
  - apply spec_ret. exists []. split_and!; [done|done|done|]. symmetry. apply drop_ge. symmetry in Eks. apply (f_equal length) in Eks. rewrite length_seq in Eks. cbn [length] in Eks.
    assert (Z.of_nat i * CHUNK >= zlen p)%Z by nia. unfold zlen in *. lia.
  - destruct (length (parts 0 p) - i) as [|n] eqn:En; [done|]. cbn [seq] in Eks. injection Eks as -> Eks. destruct (lookup_lt_is_Some_2 (parts 0 p) i) as [q Hq]; [lia|]. pose proof (part_length 0 p Hp i q Hq) as [Hl Hl0]. rewrite cap_0 in Hl.
    eapply spec_step; [by apply (node_link_of 0 p i q)|]. eapply (spec_step _ _ (zlen p - Z.of_nat i * CHUNK)%Z); [unfold minus, checked_sub; by rewrite (proj2 (Z.leb_le _ _)) by lia|].
    cbn [subtree]. eapply spec_bind; [apply (fetch_spec Raw q), Hk; eapply (blocks_part 0 p i q); [done|cbn; set_solver]|]. intros bs l' [-> ->]. cbn [codec of_data]. rewrite bool_decide_true by done. fold (zlen q).
    rewrite (proj2 (Z.eqb_eq (zlen q) _)) by lia. cbn [negb orb]. eapply spec_bind; [apply each_spec|]. intros _ l' ->. eapply spec_weaken; [apply (IH (S i)); [rewrite Eks; f_equal; lia|lia]|].
    intros _ l' (e & -> & Hel & He & Hce). exists ((base + Z.of_nat i * CHUNK, q)%Z :: e). assert (q = slice p (i * Z.to_nat CHUNK) (Z.to_nat CHUNK)) as Eq by (rewrite (parts_lookup 0 p) in Hq by (rewrite cap_0; lia); rewrite cap_0 in Hq; congruence).
    split_and!; [done|cbn; lia| |].
    + cbn [contiguous]. split; [done|]. destruct e as [|x e]; [done|]. assert (zlen q = CHUNK) as Hzq; [|rewrite Hzq; by replace (base + Z.of_nat i * CHUNK + CHUNK)%Z with (base + Z.of_nat (S i) * CHUNK)%Z by lia].
      rewrite Eks, length_seq in Hel. cbn [length] in Hel. assert ((Z.of_nat i + 1) * CHUNK < zlen p)%Z by nia. lia.
    + cbn [map concat snd]. rewrite Hce, Eq. replace (S i * Z.to_nat CHUNK) with (i * Z.to_nat CHUNK + Z.to_nat CHUNK) by lia. by rewrite <- drop_slice.
Qed.

Section all_chunks.
Context (data : bytes) (H64 : (zlen data < W64)%Z) (Hk : forall x, x ∈ object_blocks data -> x ∈ known).
Lemma leaves_of_spec k us u l : height (zlen data) = S k -> us = seq u (Z.to_nat (div_ceil (zlen data) (cap 1)) - u) -> u <= Z.to_nat (div_ceil (zlen data) (cap 1)) ->
  spec l (leaves_of each (root_of data) (zlen data) us) (fun _ l' => exists e, l' = added l e /\ (us = [] -> e = []) /\ contiguous (Z.of_nat u * cap 1) e /\ concat (map snd e) = drop (u * Z.to_nat (cap 1)) data).
Proof.
  intros Eh. assert (0 <= zlen data < W64)%Z as Hz by (unfold zlen in *; lia). pose proof (height_spec _ Hz) as [Hcap _]. rewrite Eh in Hcap. pose proof (cap_pos 1) as H1. destruct (div_ceil_spec (zlen data) (cap 1) ltac:(lia) H1) as [Hdc Hd0].
  revert u l. induction us as [|u' us IH]; intros u l Eus Hu; cbn [leaves_of].
  - apply spec_ret. exists []. split_and!; [done|done|done|]. symmetry. apply drop_ge. symmetry in Eus. apply (f_equal length) in Eus. rewrite length_seq in Eus. cbn [length] in Eus.
    assert (Z.of_nat u * cap 1 >= zlen data)%Z by nia. unfold zlen in *. lia.
  - destruct (Z.to_nat (div_ceil (zlen data) (cap 1)) - u) as [|n] eqn:En; [done|]. cbn [seq] in Eus. injection Eus as -> Eus. rewrite capacity_S. assert (0 <= Z.of_nat u * cap 1 < zlen data)%Z as Hr by nia.
    unfold root_of in *. rewrite Eh in *. eapply spec_bind; [apply down_to_leaf_spec; [done|done|done|apply Z_mod_mult|intros x Hx; apply Hk; unfold object_blocks; by rewrite Eh]|].
    intros r l' (-> & -> & Hp & Hkp). set (p := leaf data (Z.of_nat u * cap 1)) in *. assert (p = slice data (u * Z.to_nat (cap 1)) (Z.to_nat (cap 1))) as Ep by (unfold p, leaf; f_equal; lia).
    assert (zlen p <= zlen data)%Z as Hle by (rewrite Ep; apply slice_zlen). change (ncount (node_of 0 p)) with (length (parts 0 p)).
    eapply spec_bind; [apply (chunks_of_spec p _ _ 0 l Hp ltac:(lia) Hkp); [by rewrite Nat.sub_0_r|lia]|]. cbv beta. intros _ l2 (e & -> & _ & He & Hce). rewrite Nat.mul_0_l, drop_0 in Hce. rewrite Z.mul_0_l, Z.add_0_r in He.
    eapply spec_weaken; [apply (IH (S u)); [rewrite Eus; f_equal; lia|lia]|]. cbv beta. intros _ l3 (e2 & -> & Hus & He2 & Hce2). exists (e ++ e2). split_and!.
    + unfold added. by rewrite foldl_app.
    + done.
    + apply contiguous_app; [done|]. rewrite Hce. destruct e2 as [|x e2]; [done|]. assert (zlen p = cap 1) as Hzp; [|rewrite Hzp; by replace (Z.of_nat u * cap 1 + cap 1)%Z with (Z.of_nat (S u) * cap 1)%Z by lia].
      assert (n <> 0) as Hn by (intros ->; discriminate (Hus Eus)). assert ((Z.of_nat u + 1) * cap 1 < zlen data)%Z by nia. rewrite Ep. unfold zlen, slice in *. rewrite length_take, length_drop. lia.
    + rewrite map_app, concat_app, Hce, Hce2, Ep. replace (S u * Z.to_nat (cap 1)) with (u * Z.to_nat (cap 1) + Z.to_nat (cap 1)) by lia. by rewrite <- drop_slice.
Qed.
Lemma each_chunk_spec l : spec l (each_chunk (root_of data) each) (fun t l' => t = zlen data /\ exists e, l' = added l e /\ contiguous 0 e /\ concat (map snd e) = data).
Proof.
  assert (0 <= zlen data < W64)%Z as Hz by (unfold zlen in *; lia). unfold each_chunk. eapply spec_bind; [by apply size_spec|]. intros t l' [-> ->]. unfold root_of at 1. rewrite subtree_codec. destruct (height (zlen data)) as [|k] eqn:Eh; cbn [Nat.eqb].
  - unfold root_of. rewrite Eh. eapply spec_bind; [apply (fetch_spec Raw data), Hk; unfold object_blocks; rewrite Eh; cbn; set_solver|]. intros bs l' [-> ->]. eapply spec_bind; [apply each_spec|]. intros _ l' ->. apply spec_ret. split; [done|].
    exists [(0%Z, data)]. split_and!; [done|done|]. cbn. apply app_nil_r.
  - eapply spec_bind; [rewrite capacity_S; apply (leaves_of_spec k _ 0 l Eh); [by rewrite Nat.sub_0_r|lia]|]. cbv beta. intros _ l' (e & -> & _ & He & Hce). apply spec_ret. split; [done|]. exists e. rewrite Nat.mul_0_l, drop_0 in Hce. done.
Qed.
End all_chunks.
End chunks.

(** *** Every block: [walk] *)
Definition cid_of (x : Codec * bytes) : Cid := of_data x.1 x.2.
Fixpoint path_of (h : nat) (d : bytes) (w : Z) : list Cid :=
  match h with
  | O => []
  | 1 => map (subtree 0) (parts 0 d)
  | S h => let p := default [] (parts h d !! Z.to_nat (w / cap h)) in subtree h p :: path_of h p (w mod cap h)
  end.
Lemma path_SS k d w p : parts (S k) d !! Z.to_nat (w / cap (S k)) = Some p -> path_of (S (S k)) d w = subtree (S k) p :: path_of (S k) p (w mod cap (S k)).
Proof. intros E. cbn [path_of]. by rewrite E. Qed.

Section visits.
Context (visit : Cid -> ST B unit) (step : Cid -> L -> L -> Prop) (visit_spec : forall c l, c ∈ map cid_of known -> spec l (visit c) (fun _ l' => step c l l')).
Fixpoint steps (cs : list Cid) (l l' : L) : Prop :=
  match cs with
  | [] => l' = l
  | c :: cs => exists l1, step c l l1 /\ steps cs l1 l'
  end.
Lemma steps_app cs cs' l l1 l2 : steps cs l l1 -> steps cs' l1 l2 -> steps (cs ++ cs') l l2.
Proof. revert l. induction cs as [|c cs IH]; intros l; cbn [steps app]; [by intros ->|]. intros (l' & H1 & H2) H3. exists l'. eauto. Qed.

Lemma subtree_known h d : (forall x, x ∈ blocks_of h d -> x ∈ known) -> subtree h d ∈ map cid_of known.
Proof. intros H. destruct h as [|h]; apply list_elem_of_In, in_map_iff; [exists (Raw, d)|exists (DagCbor, node_block h d)]; (split; [done|]; apply list_elem_of_In, H; cbn; set_solver). Qed.
Lemma visit_links_spec h d ks i l : (0 < zlen d <= cap (S h))%Z -> (zlen d < W64)%Z -> (forall x, x ∈ blocks_of (S h) d -> x ∈ known) -> ks = seq i (length (parts h d) - i) -> spec l (visit_links visit (node_of h d) ks) (fun _ l' => steps (map (subtree h) (drop i (parts h d))) l l').
Proof.
  intros Hd H64 Hk. revert i l. induction ks as [|k ks IH]; intros i l Ek; cbn [visit_links].
  - apply spec_ret. rewrite drop_ge; [done|]. apply (f_equal length) in Ek. rewrite length_seq in Ek. cbn [length] in Ek. lia.
  - destruct (length (parts h d) - i) as [|n] eqn:En; [done|]. cbn [seq] in Ek. injection Ek as -> Ek. destruct (lookup_lt_is_Some_2 (parts h d) i) as [p Hp]; [lia|]. eapply spec_step; [by apply (node_link_of h d i p)|].
    eapply spec_bind; [apply visit_spec, subtree_known; intros x Hx; apply Hk; by eapply blocks_part|]. cbv beta. intros _ l1 H1. eapply spec_weaken; [apply (IH (S i)); rewrite Ek; f_equal; lia|]. cbv beta. intros _ l2 H2. rewrite (drop_S _ p) by done. cbn [map steps]. eauto.
Qed.
Lemma walk_down_spec k d w l : (0 <= w < zlen d)%Z -> (zlen d <= cap (S k))%Z -> (zlen d < W64)%Z -> (forall x, x ∈ blocks_of (S k) d -> x ∈ known) ->
  spec l (walk_down visit (S k) (subtree (S k) d) (zlen d) w) (fun _ l' => steps (path_of (S k) d w) l l').
Proof.
  revert d w l. induction k as [|k IH]; intros d w l Hr Hc H64 Hk; assert (0 < zlen d)%Z as Hd by lia; (cbn [walk_down]; eapply spec_bind; [apply (node_spec _ d (conj Hd Hc) H64); apply Hk; cbn; set_solver|]; intros n l' [-> ->]; eapply spec_step; [by apply check_of|]).
  - apply (visit_links_spec 0 d _ 0 l (conj Hd Hc) H64 Hk). by rewrite Nat.sub_0_r.
  - destruct (child_of_part _ d (conj Hd Hc) H64 w Hr) as (p & Hp & Ec & Hw' & Hpc & Es). eapply spec_step; [exact Ec|]. eapply spec_bind; [apply visit_spec, subtree_known; intros x Hx; apply Hk; by eapply blocks_part|]. cbv beta. intros _ l1 H1.
    assert (zlen p <= zlen d)%Z as Hle by (rewrite Es; apply slice_zlen). eapply spec_weaken; [apply IH; [done|done|lia|]; intros x Hx; apply Hk; by eapply blocks_part|]. cbv beta. intros _ l2 H2.
    rewrite (path_SS k d w p Hp). cbn [steps]. eauto.
Qed.

(** The paths to the leaves, together, are all the blocks. *)
Lemma part_place h d i p : (0 < zlen d <= cap (S h))%Z -> parts h d !! i = Some p -> forall w, (0 <= w < zlen p)%Z -> let w' := (Z.of_nat i * cap h + w)%Z in
  (0 <= w' < zlen d)%Z /\ Z.to_nat (w' / cap h) = i /\ (w' mod cap h = w)%Z.
Proof.
  intros Hd Hp w Hw w'. destruct (part_length h d Hd i p Hp) as [Hl _]. pose proof (cap_pos h). subst w'. split_and!; [nia|lia| |].
  - rewrite Z.div_add_l by lia. rewrite Z.div_small by lia. lia.
  - rewrite Z.add_comm, Z_mod_plus_full. apply Z.mod_small. lia.
Qed.
Lemma paths_blocks k d c : (0 < zlen d <= cap (S k))%Z -> c ∈ map cid_of (blocks_of (S k) d) <-> c = subtree (S k) d \/ exists w, (0 <= w < zlen d)%Z /\ (w mod cap 1 = 0)%Z /\ c ∈ path_of (S k) d w.
Proof.
  revert d. induction k as [|k IH]; intros d Hd.
  - assert (map cid_of (blocks_of 1 d) = subtree 1 d :: map (subtree 0) (parts 0 d)) as ->.
    { cbn [blocks_of map]. f_equal. induction (parts 0 d) as [|p l IHl]; [done|]. cbn [map concat blocks_of app]. by rewrite IHl. }
    rewrite elem_of_cons. split; [intros [->|H]; [by left|right; exists 0%Z; split_and!; [lia|lia|done|done]]|intros [->|(w & _ & _ & H)]; [by left|by right]].
  - assert (c ∈ map cid_of (blocks_of (S (S k)) d) <-> c = subtree (S (S k)) d \/ exists i p, parts (S k) d !! i = Some p /\ c ∈ map cid_of (blocks_of (S k) p)) as ->.
    { change (blocks_of (S (S k)) d) with ((DagCbor, node_block (S k) d) :: concat (map (blocks_of (S k)) (parts (S k) d))). cbn [map]. rewrite elem_of_cons. apply or_iff_compat_l.
      rewrite !list_elem_of_In, in_map_iff. split.
      - intros (x & <- & (l & (p & <- & Hp)%in_map_iff & Hx)%in_concat). apply list_elem_of_In, list_elem_of_lookup in Hp as [i Hi]. exists i, p. split; [done|]. by apply list_elem_of_In, in_map.
      - intros (i & p & Hi & (x & <- & Hx)%list_elem_of_In%in_map_iff). exists x. split; [done|]. apply in_concat. exists (blocks_of (S k) p). split; [apply in_map; by eapply list_elem_of_In, list_elem_of_lookup_2|done]. }
    pose proof (cap_pos 1) as Hc1. destruct (cap_1_multiple k) as [m Hm]. split.
    + intros [->|(i & p & Hi & Hc)]; [by left|]. right. destruct (part_length _ d Hd i p Hi) as [Hl Hl0]. pose proof (cap_pos (S k)).
      assert (exists w, (0 <= w < zlen p)%Z /\ (w mod cap 1 = 0)%Z /\ (c = subtree (S k) p \/ c ∈ path_of (S k) p w)) as (w & Hw & Hwm & Hcw).
      { apply IH in Hc as [->|(w & ? & ? & ?)]; [exists 0%Z; split_and!; [lia|lia|done|by left]|exists w; auto|lia]. }
      destruct (part_place _ d i p Hd Hi w Hw) as (H1 & H2 & H3). exists (Z.of_nat i * cap (S k) + w)%Z. split_and!; [lia|lia|rewrite Hm, Z.mul_assoc, Z.add_comm, Z_mod_plus_full; done|].
      rewrite (path_SS k d _ p) by (by rewrite H2). rewrite H3. set_solver.
    + intros [->|(w & Hw & Hwm & Hc)]; [by left|]. right. pose proof (parts_within (S k) d Hd w Hw) as Hi. destruct (lookup_lt_is_Some_2 (parts (S k) d) (Z.to_nat (w / cap (S k)))) as [p Hp]; [rewrite parts_count; lia|].
      exists (Z.to_nat (w / cap (S k))), p. split; [exact Hp|]. rewrite (path_SS k d w p Hp) in Hc. destruct (part_length _ d Hd _ p Hp) as [Hl Hl0]. apply IH; [lia|]. apply elem_of_cons in Hc as [->|Hc]; [by left|right]. exists (w mod cap (S k))%Z.
      pose proof (cap_pos (S k)) as Hcp. pose proof (Z.mod_pos_bound w _ Hcp). pose proof (Z.div_pos w _ ltac:(lia) Hcp). pose proof (Z.div_mod w (cap (S k)) ltac:(lia)). split_and!; [lia|lia|rewrite Z.mod_mod_divide by (by exists m); done|done].
Qed.

Context (data : bytes) (H64 : (zlen data < W64)%Z) (Hk : forall x, x ∈ object_blocks data -> x ∈ known).
Lemma walk_leaves_spec k us l : height (zlen data) = S k -> (forall u, u ∈ us -> (Z.of_nat u * cap 1 < zlen data)%Z) ->
  spec l (walk_leaves visit (root_of data) (zlen data) us) (fun _ l' => steps (concat (map (fun u => path_of (S k) data (Z.of_nat u * cap 1)) us)) l l').
Proof.
  intros Eh Hu. assert (0 <= zlen data < W64)%Z as Hz by (unfold zlen in *; lia). pose proof (height_spec _ Hz) as [Hcap _]. rewrite Eh in Hcap. pose proof (cap_pos 1) as H1. revert l. induction us as [|u us IH]; intros l; cbn [walk_leaves].
  - by apply spec_ret.
  - rewrite capacity_S. unfold root_of in *. rewrite Eh in *. eapply spec_bind; [apply walk_down_spec; [|done|done|]|]; [pose proof (Hu u ltac:(set_solver)); nia|intros x Hx; apply Hk; unfold object_blocks; by rewrite Eh|]. cbv beta. intros _ l1 Hs1.
    eapply spec_weaken; [apply IH; intros; apply Hu; set_solver|]. cbv beta. intros _ l2 Hs2. cbn [map concat]. by eapply steps_app.
Qed.
(** A walk takes the size and visits exactly the blocks of the object. *)
Lemma walk_blocks_spec l : spec l (walk (root_of data) visit) (fun t l' => t = zlen data /\ exists cs, steps cs l l' /\ forall c, c ∈ cs <-> c ∈ map cid_of (object_blocks data)).
Proof.
  assert (0 <= zlen data < W64)%Z as Hz by (unfold zlen in *; lia). pose proof (height_spec _ Hz) as [Hcap Hmin]. unfold walk. eapply spec_bind; [by apply visit_spec, subtree_known|]. cbv beta. intros _ l1 H1. eapply spec_bind; [by apply size_spec|]. intros t l' [-> ->].
  unfold root_of at 1. rewrite subtree_codec. unfold object_blocks. destruct (height (zlen data)) as [|k] eqn:Eh; cbn [Nat.eqb].
  - apply spec_ret. split; [done|]. exists [root_of data]. split; [cbn; eauto|]. intros c. unfold root_of. rewrite Eh. done.
  - pose proof (cap_pos 1) as Hc1. assert (0 < zlen data <= cap (S k))%Z as Hd. { split; [|done]. destruct Hmin as [|Hmin]; [done|]. pose proof (cap_pos (S k - 1)). lia. }
    destruct (div_ceil_spec (zlen data) (cap 1) ltac:(lia) Hc1) as [Hdc Hd0]. set (us := seq 0 _). assert (forall u, u ∈ us <-> (Z.of_nat u * cap 1 < zlen data)%Z) as Hus.
    { intros u. subst us. rewrite capacity_S, list_elem_of_In, in_seq. split; [intros Hu; assert (Z.of_nat u + 1 <= div_ceil (zlen data) (cap 1))%Z by lia; nia|intros Hu; assert (Z.of_nat u < div_ceil (zlen data) (cap 1))%Z by nia; lia]. }
    eapply spec_bind; [apply (walk_leaves_spec k us _ Eh); intros u; apply Hus|]. cbv beta. intros _ l2 H2. apply spec_ret. split; [done|].
    exists (root_of data :: concat (map (fun u => path_of (S k) data (Z.of_nat u * cap 1)) us)). split; [cbn [steps]; eauto|]. intros c. rewrite (paths_blocks k data c Hd), elem_of_cons. unfold root_of. rewrite Eh. apply or_iff_compat_l.
    rewrite list_elem_of_In, in_concat. split.
    + intros (x & (u & <- & Hu)%in_map_iff & Hc). apply list_elem_of_In, Hus in Hu. exists (Z.of_nat u * cap 1)%Z. split_and!; [lia|done|apply Z_mod_mult|by apply list_elem_of_In].
    + intros (w & Hw & Hwm & Hc). exists (path_of (S k) data w). split; [|by apply list_elem_of_In]. apply Z.mod_divide in Hwm as [q Hq]; [|lia]. apply in_map_iff. exists (Z.to_nat q). assert (0 <= q)%Z by nia. rewrite Z2Nat.id by done.
      split; [by rewrite Hq|]. apply list_elem_of_In, Hus. rewrite Z2Nat.id by done. lia.
Qed.
End visits.
End reading.
