(* ===== verification/DagBuild.v ===== *)
(** * Building objects, and reading them back ([libmind/src/dag.rs]: [Builder])

    The builder keeps, for each height, the full subtrees that are not yet under a node. Whatever pieces the bytes come in,
    it puts exactly blocks of their tree, and [finish] gives its root. A store that keeps what is put ([StoreLaws]) then
    gives every stretch of the object back. *)
From S2P Require Import Prelude Outcome Sha256 Cid Cbor Dag DagTree.
Local Open Scope nat_scope.
#[local] Opaque CHUNK FANOUT.

(** What a store promises: [holds] says which blocks it has. It may refuse a put only where [refuses]. *)
Class StoreLaws (B : Type) `{!Blocks B} : Type := {
  holds : B -> Cid -> bytes -> Prop;
  refuses : Prop;
  get_held : forall b c x room, holds b c x -> (zlen x <= room)%Z -> exists b', get c room b = (Done x, b') /\ forall c' y, holds b' c' y <-> holds b c' y;
  get_missing : forall b c room, (forall x, ~ holds b c x) -> exists e b', get c room b = (Refuse e, b') /\ forall c' y, holds b' c' y <-> holds b c' y;
  put_kept : forall b k x, (zlen x <= CHUNK)%Z -> (forall y, holds b (of_data k x) y -> y = x) ->
    match put k x b with
    | (Done c, b') => c = of_data k x /\ forall c' y, holds b' c' y <-> (c' = of_data k x /\ y = x) \/ holds b c' y
    | (Refuse _, b') => refuses
    | (Crash, _) => False
    end;
  has_held : forall b c, exists x b', has c b = (Done x, b') /\ (x = true <-> exists y, holds b c y) /\ forall c' y, holds b' c' y <-> holds b c' y
}.

(** ** Parts and levels *)
Lemma cut_concat h ps p : Forall (fun q => zlen q = cap h) ps -> (0 < zlen p <= cap h)%Z -> cut (length ps + 1) (Z.to_nat (cap h)) (concat (ps ++ [p])) = ps ++ [p].
Proof.
  intros Hps Hp. induction Hps as [|q ps Hq _ IH].
  - cbn [length Nat.add cut app concat]. rewrite app_nil_r, take_ge by (unfold zlen in *; lia). done.
  - cbn [length Nat.add cut app concat]. rewrite take_app_length', drop_app_length' by (unfold zlen in *; lia). by rewrite IH.
Qed.
Lemma concat_full h ps : Forall (fun q => zlen q = cap h) ps -> zlen (concat ps) = (Z.of_nat (length ps) * cap h)%Z.
Proof. induction 1 as [|q ps Hq _ IH]; [done|]. cbn [concat length]. unfold zlen in *. rewrite length_app. lia. Qed.
Lemma parts_full h ps p : Forall (fun q => zlen q = cap h) ps -> (0 < zlen p <= cap h)%Z -> parts h (concat (ps ++ [p])) = ps ++ [p].
Proof.
  intros Hps Hp. rewrite <- (cut_concat h ps p Hps Hp) at 2. unfold parts. f_equal. pose proof (cap_pos h) as Hc. rewrite concat_app. cbn [concat]. rewrite app_nil_r.
  pose proof (concat_full h ps Hps) as Hl. unfold zlen in *. rewrite length_app. destruct (div_ceil_spec (Z.of_nat (length (concat ps) + length p)) (cap h) ltac:(lia) Hc) as [H1 H2]. nia.
Qed.

(** The levels, lowest first: the bytes under the entries of each. *)
Fixpoint flat (lv : list (list bytes)) : bytes := match lv with [] => [] | ps :: lv => flat lv ++ concat ps end.
Definition low_empty (k : nat) (lv : list (list bytes)) : Prop := forall j, j < k -> lv !! j = Some [].
Definition all_full (lv : list (list bytes)) : Prop := forall k ps p, lv !! k = Some ps -> p ∈ ps -> zlen p = cap k.

Lemma flat_at lv k ps : low_empty k lv -> lv !! k = Some ps -> flat lv = flat (drop (S k) lv) ++ concat ps.
Proof.
  revert lv. induction k as [|k IH]; intros [|qs lv] Hlow Hk; try done; cbn in Hk.
  - injection Hk as ->. done.
  - pose proof (Hlow 0 ltac:(lia)) as H0. injection H0 as ->. cbn [flat drop concat]. rewrite app_nil_r. apply IH; [|done]. intros j Hj. apply (Hlow (S j)). lia.
Qed.
Lemma flat_set lv k ps ps' : low_empty k lv -> lv !! k = Some ps -> flat (<[k := ps']> lv) = flat (drop (S k) lv) ++ concat ps'.
Proof.
  intros Hlow Hk. rewrite (flat_at _ k ps'); [by rewrite drop_insert_lt by lia| |by apply list_lookup_insert_eq, (lookup_lt_Some _ _ _ Hk)].
  intros j Hj. rewrite list_lookup_insert_ne by lia. by apply Hlow.
Qed.
Lemma flat_empty lv : (forall j ps, lv !! j = Some ps -> ps = []) -> flat lv = [].
Proof. induction lv as [|ps lv IH]; intros H; [done|]. cbn. rewrite (H 0 ps eq_refl), IH; [done|]. intros j qs Hj. by apply (H (S j)). Qed.
Lemma flat_ge lv k ps p : lv !! k = Some ps -> p ∈ ps -> (zlen p <= zlen (flat lv))%Z.
Proof.
  assert (forall (qs : list bytes) (q : bytes), q ∈ qs -> length q <= length (concat qs)) as Hc.
  { induction qs as [|x qs IH]; intros q Hq; [by apply not_elem_of_nil in Hq|]. cbn. rewrite length_app. apply elem_of_cons in Hq as [->|Hq]; [lia|]. specialize (IH q Hq). lia. }
  revert lv. induction k as [|k IH]; intros [|qs lv] Hk Hp; try done; cbn in Hk; cbn [flat]; unfold zlen in *; rewrite length_app.
  - injection Hk as ->. specialize (Hc ps p Hp). lia.
  - specialize (IH lv Hk Hp). lia.
Qed.
Lemma full_multiple lv k : all_full lv -> exists i, (0 <= i)%Z /\ zlen (flat (drop k lv)) = (i * cap k)%Z.
Proof.
  intros Hf. remember (length lv - k) as n eqn:Hn. revert k Hn. induction n as [|n IH]; intros k Hn.
  - rewrite drop_ge by lia. exists 0%Z. done.
  - destruct (lookup_lt_is_Some_2 lv k) as [ps Hk]; [lia|]. rewrite (drop_S _ ps) by done. cbn [flat]. destruct (IH (S k)) as (i & Hi & Hl); [lia|].
    pose proof (concat_full k ps) as Hc. rewrite Forall_forall in Hc. specialize (Hc ltac:(intros p Hp; by eapply Hf)). rewrite cap_S in Hl. unfold zlen in *. rewrite length_app. exists (i * FANOUT + Z.of_nat (length ps))%Z. pose proof fanout_pos. split; [nia|nia].
Qed.

(** A stretch of an object at a multiple of a height's capacity is a subtree of it. *)
Lemma aligned_blocks k h d i x : k <= h -> (zlen d <= cap h)%Z -> (0 <= i)%Z -> (i * cap k < zlen d)%Z -> x ∈ blocks_of k (slice d (Z.to_nat (i * cap k)) (Z.to_nat (cap k))) -> x ∈ blocks_of h d.
Proof.
  intros Hkh. remember (h - k) as n eqn:Hn. revert h d i Hkh Hn. induction n as [|n IH]; intros h d i Hkh Hn Hd Hi Hr Hx.
  - assert (h = k) as -> by lia. pose proof (cap_pos k). assert (i = 0)%Z as -> by nia. rewrite Z.mul_0_l in Hx. change (Z.to_nat 0) with 0 in Hx. rewrite slice_whole in Hx by (unfold zlen in *; lia). done.
  - destruct h as [|h]; [lia|]. pose proof (cap_pos k) as Hck. pose proof (cap_pos h) as Hch. set (w := (i * cap k)%Z) in *. assert (0 <= w)%Z as Hw0 by (subst w; nia). assert (0 < zlen d <= cap (S h))%Z as Hd' by lia.
    pose proof (parts_within h d Hd' w (conj Hw0 Hr)) as Hj. destruct (lookup_lt_is_Some_2 (parts h d) (Z.to_nat (w / cap h))) as [p Hp]; [by rewrite parts_count|]. apply (blocks_part h d _ p x Hp).
    assert (exists m, 0 < m /\ cap h = m * cap k)%Z as (m & Hm0 & Hm). { exists (FANOUT ^ Z.of_nat (h - k))%Z. pose proof fanout_pos. split; [apply Z.pow_pos_nonneg; lia|]. unfold cap. replace (Z.of_nat h) with (Z.of_nat (h - k) + Z.of_nat k)%Z by lia. rewrite Z.pow_add_r by lia. lia. }
    assert (w mod cap h = (i mod m) * cap k)%Z as Em by (subst w; rewrite Hm; by rewrite Zmult_mod_distr_r). pose proof (Z.mod_pos_bound w _ Hch). pose proof (Z.mod_pos_bound i m Hm0). pose proof (Z.div_pos w _ Hw0 Hch) as Hdp. pose proof (Z.div_mod w (cap h) ltac:(lia)) as Hdm.
    pose proof (part_length h d Hd' _ p Hp) as [Hl _]. rewrite Z2Nat.id in Hl by done. assert (p = slice d (Z.to_nat (w / cap h) * Z.to_nat (cap h)) (Z.to_nat (cap h))) as Ep by (rewrite parts_lookup in Hp by done; congruence).
    apply (IH h p (i mod m)%Z); [lia|lia|lia|lia|nia|]. rewrite Ep, slice_slice by nia. replace (Z.to_nat (w / cap h) * Z.to_nat (cap h) + Z.to_nat (i mod m * cap k)) with (Z.to_nat w) by nia. done.
Qed.

(** ** What the builder keeps *)
Section building.
Context {B : Type} `{!Blocks B} `{!StoreLaws B}.
(** The object, and a set of byte strings without collisions that has its blocks and what the store holds. *)
Context (data : bytes) (H64 : (zlen data < W64)%Z) (U : bytes -> Prop).
Context (HU : forall x y, U x -> U y -> digest x = digest y -> x = y) (HO : forall x, x ∈ object_blocks data -> U x.2).

Definition sound (s : B) : Prop := forall c y, holds s c y -> U y /\ cid_digest c = digest y.
Definition held (s : B) (xs : list (Codec * bytes)) : Prop := forall x, x ∈ xs -> holds s (cid_of x) x.2.
Definition entry_of (k : nat) (p : bytes) : Entry := mkEntry (to_bytes (subtree k p)) (zlen p).
Definition bspec {A} (st : Builder * B) (m : ST (Builder * B) A) (Q : A -> Builder * B -> Prop) : Prop := spec (fun _ => True) (fun x => x) refuses st m Q.

(** The levels of a builder hold the entries of subtrees whose blocks the store has. *)
Record rep (lv : list (list bytes)) (b : Builder) (s : B) : Prop := {
  rep_length : length lv = LEVELS;
  rep_levels : levels b = imap (fun k ps => map (entry_of k) ps) lv;
  rep_held : forall k ps p, lv !! k = Some ps -> p ∈ ps -> held s (blocks_of k p)
}.
Definition small (lv : list (list bytes)) : Prop := forall k ps, lv !! k = Some ps -> (Z.of_nat (length ps) < FANOUT)%Z.
(** The last part [q] is the lowest; all others are full. *)
Record tail (lv : list (list bytes)) (k : nat) (ps : list bytes) (q : bytes) : Prop := {
  tail_low : low_empty k lv;
  tail_at : lv !! k = Some (ps ++ [q]);
  tail_full : all_full (<[k := ps]> lv);
  tail_size : (zlen q <= cap k)%Z;
  tail_some : (0 < zlen q)%Z \/ flat lv = [] /\ k = 0;
  tail_high : k = 0 \/ (cap (k - 1) < zlen (flat lv))%Z
}.
Record pushed (level : nat) (lv0 : list (list bytes)) (p : bytes) (b0 : Builder) (st : Builder * B) (lv : list (list bytes)) (k : nat) (ps : list bytes) (q : bytes) : Prop := {
  pu_rep : rep lv st.1 st.2;
  pu_sound : sound st.2;
  pu_small : small lv;
  pu_chunk : chunk st.1 = chunk b0;
  pu_total : total st.1 = total b0;
  pu_flat : flat lv = flat lv0 ++ p;
  pu_level : level <= k;
  pu_tail : tail lv k ps q;
  pu_full : zlen p = cap level -> all_full lv
}.
(** What a push at a level asks for. *)
Record may_push (level : nat) (lv : list (list bytes)) (p : bytes) (s : B) : Prop := {
  mp_low : low_empty level lv;
  mp_full : all_full lv;
  mp_small : small lv;
  mp_size : (zlen p <= cap level)%Z;
  mp_some : (0 < zlen p)%Z \/ flat lv ++ p = [] /\ level = 0;
  mp_prefix : exists rest, data = (flat lv ++ p) ++ rest;
  mp_end : zlen p = cap level \/ flat lv ++ p = data;
  mp_high : level = 0 \/ (cap (level - 1) < zlen (flat lv ++ p))%Z;
  mp_held : held s (blocks_of level p)
}.
Definition pushes (push : nat -> Entry -> ST (Builder * B) unit) (level : nat) : Prop := forall lv b s p, rep lv b s -> sound s -> may_push level lv p s ->
  bspec (b, s) (push level (entry_of level p)) (fun _ st => exists lv' k ps q, pushed level lv p b st lv' k ps q).

Lemma cap_7 : (W64 <= cap 7)%Z.
Proof. Transparent CHUNK FANOUT. unfold cap, CHUNK, FANOUT, W64. cbn. lia. Qed.
#[local] Opaque CHUNK FANOUT.
Lemma node_max : (NODE_MAX <= CHUNK)%Z.
Proof. Transparent CHUNK FANOUT. unfold NODE_MAX, CHUNK, FANOUT, LINK, BYTES, DIGEST. lia. Qed.
#[local] Opaque CHUNK FANOUT.

Lemma put_block_spec k x b s : sound s -> U x -> (zlen x <= CHUNK)%Z -> bspec (b, s) (put_block k x)
  (fun c st => c = of_data k x /\ st.1 = b /\ sound st.2 /\ (forall c' y, holds s c' y -> holds st.2 c' y) /\ holds st.2 (of_data k x) x).
Proof.
  intros Hs Hx Hl st _ ->. unfold put_block, mbind, st_bind, on_blocks. assert (forall y, holds s (of_data k x) y -> y = x) as Hu.
  { intros y [Hy Hd]%Hs. apply HU; [done|done|]. by cbn in Hd. }
  pose proof (put_kept s k x Hl Hu) as Hp. destruct (put k x s) as [[c| |] s']; [|done|done]. destruct Hp as [-> Hh]. rewrite decide_True by done. cbn. split; [done|]. split_and!; [done|done| |intros c y Hc; apply Hh; by right|apply Hh; by left].
  intros c y [[-> ->]|Hc]%Hh; [done|]. by apply Hs.
Qed.

(** A piece at its place is a subtree of the object. *)
Lemma piece_known lv level ps q x : low_empty level lv -> lv !! level = Some ps -> all_full lv -> (0 < zlen q <= cap level)%Z -> (exists rest, data = (flat lv ++ q) ++ rest) -> zlen q = cap level \/ flat lv ++ q = data ->
  level = 0 \/ (cap (level - 1) < zlen (flat lv ++ q))%Z -> x ∈ blocks_of level q -> x ∈ object_blocks data.
Proof.
  intros Hlow Hat Hf Hq [rest Hd] He Hh Hx. assert (exists i, (0 <= i)%Z /\ zlen (flat lv) = (i * cap level)%Z) as (i & Hi & Hl).
  { destruct (full_multiple lv level Hf) as (i & Hi & Hl). exists i. split; [done|]. rewrite <- Hl. rewrite (drop_S _ ps) by done. cbn [flat]. by rewrite (flat_at lv level ps Hlow Hat). }
  assert (0 <= zlen data < W64)%Z as Hz by (unfold zlen in *; lia). pose proof (height_spec _ Hz) as [Hcap _]. assert (zlen (flat lv ++ q) <= zlen data)%Z as Hle by (rewrite Hd; unfold zlen; rewrite (length_app (flat lv ++ q)); lia).
  assert (level <= height (zlen data)) as Hlv. { destruct Hh as [->|Hh]; [lia|]. destruct (decide (level <= height (zlen data))); [done|]. pose proof (cap_mono (height (zlen data)) (level - 1) ltac:(lia)). lia. }
  apply (aligned_blocks level _ data i); [done|done|done|unfold zlen in *; rewrite length_app in Hle; lia|]. replace (slice data _ _) with q; [done|].
  rewrite <- Hl. unfold zlen at 1. rewrite Nat2Z.id, Hd. unfold slice. rewrite <- app_assoc, drop_app_length. destruct He as [He|He].
  - rewrite take_app_length'; [done|unfold zlen in *; lia].
  - assert (rest = []) as ->. { rewrite He in Hd. apply (f_equal length) in Hd. rewrite length_app in Hd. destruct rest; [done|cbn in Hd; lia]. } rewrite app_nil_r, take_ge; [done|unfold zlen in *; lia].
Qed.

Lemma imap_insert {A C} (f : nat -> A -> C) l k x : imap f (<[k := x]> l) = <[k := f k x]> (imap f l).
Proof. apply list_eq. intros i. rewrite list_lookup_imap. destruct (decide (i = k)) as [->|Hne].
  - destruct (decide (k < length l)) as [Hlt|Hge]; [rewrite !list_lookup_insert_eq by (rewrite ?length_imap; lia); done|]. rewrite !list_insert_ge by (rewrite ?length_imap; lia). by rewrite list_lookup_imap.
  - rewrite !list_lookup_insert_ne by done. by rewrite list_lookup_imap.
Qed.
Lemma lookup_map {A C} (f : A -> C) (l : list A) i : map f l !! i = f <$> (l !! i).
Proof. apply list_lookup_fmap. Qed.
Lemma set_eq {A} (l : list A) k x y : <[k := x]> l !! k = Some y -> y = x.
Proof. intros H. pose proof (lookup_lt_Some _ _ _ H) as Hl. rewrite length_insert in Hl. rewrite list_lookup_insert_eq in H by done. congruence. Qed.
Lemma rep_at lv b s k ps : rep lv b s -> lv !! k = Some ps -> levels b !! k = Some (map (entry_of k) ps).
Proof. intros Hr Hk. rewrite (rep_levels _ _ _ Hr), list_lookup_imap, Hk. done. Qed.
Lemma rep_set lv b s k ps : rep lv b s -> (forall p, p ∈ ps -> held s (blocks_of k p)) -> rep (<[k := ps]> lv) (set_level k (map (entry_of k) ps) b) s.
Proof.
  intros [H1 H2 H3] Hp. split; [by rewrite length_insert|cbn; by rewrite imap_insert, H2|]. intros j qs p Hj Hin. destruct (decide (j = k)) as [->|Hne].
  - apply set_eq in Hj as ->. auto.
  - rewrite list_lookup_insert_ne in Hj by done. eauto.
Qed.
Lemma rep_grows lv b s s' : rep lv b s -> (forall c y, holds s c y -> holds s' c y) -> rep lv b s'.
Proof. intros [H1 H2 H3] Hg. split; [done|done|]. intros k ps p Hk Hp x Hx. apply Hg. by eapply H3. Qed.

Lemma entry_cid_of k p : entry_cid (entry_of k p) = Done (subtree k p).
Proof. unfold entry_cid, entry_of. cbn [ekey]. destruct (subtree_good k p) as [Hc Hb]. by rewrite (proj2 (from_bytes_iff _ _ (to_bytes_bytes _ Hc Hb)) (conj eq_refl Hc)). Qed.
Lemma zsum_entries k ps : zsum (map esize (map (entry_of k) ps)) = zlen (concat ps).
Proof. induction ps as [|p ps IH]; [done|]. cbn [map concat]. rewrite zsum_cons, IH. cbn. unfold zlen. rewrite length_app. lia. Qed.

Lemma bspec_ask {A C} (f : Builder -> A) (k : A -> ST (Builder * B) C) b s Q : bspec (b, s) (k (f b)) Q -> bspec (b, s) (ask f ≫= k) Q.
Proof. intros H st _ ->. exact (H (b, s) I eq_refl). Qed.
Lemma bspec_change {C} (f : Builder -> Builder) (k : unit -> ST (Builder * B) C) b s Q : bspec (f b, s) (k tt) Q -> bspec (b, s) (change f ≫= k) Q.
Proof. intros H st _ ->. exact (H (f b, s) I eq_refl). Qed.
Lemma bspec_step {A C} (o : outcome Error A) a (k : A -> ST (Builder * B) C) st Q : o = Done a -> bspec st (k a) Q -> bspec st (lift o ≫= k) Q.
Proof. apply spec_step. Qed.

Lemma wrap_spec push level lv b s ps p : pushes push (level + 1) -> rep lv b s -> sound s -> low_empty level lv -> lv !! level = Some (ps ++ [p]) -> all_full (<[level := ps]> lv) -> small (<[level := []]> lv) ->
  (Z.of_nat (length ps) + 1 <= FANOUT)%Z -> (0 < zlen p <= cap level)%Z -> (exists rest, data = flat lv ++ rest) -> (zlen p = cap level /\ (Z.of_nat (length ps) + 1 = FANOUT)%Z) \/ flat lv = data ->
  (cap level < zlen (flat lv))%Z ->
  bspec (b, s) (wrap_with push level) (fun _ st => exists lv' k qs q, pushed (level + 1) (<[level := []]> lv) (concat (ps ++ [p])) b st lv' k qs q).
Proof.
  intros Hpush Hrep Hs Hlow Hat Hf Hsm Hn Hp Hpre He Hh. unfold wrap_with. apply bspec_ask. pose proof (rep_at _ _ _ _ _ Hrep Hat) as El. eapply bspec_step; [by rewrite El|]. apply bspec_change.
  set (q := concat (ps ++ [p])). set (lv1 := <[level := []]> lv). assert (low_empty (level + 1) lv1) as Hlow1.
  { intros j Hj. subst lv1. destruct (decide (j = level)) as [->|]; [apply list_lookup_insert_eq, (lookup_lt_Some _ _ _ Hat)|rewrite list_lookup_insert_ne by done; apply Hlow; lia]. }
  assert (all_full lv1) as Hf1. { intros k qs x Hk Hx. subst lv1. destruct (decide (k = level)) as [->|]; [apply set_eq in Hk as ->; by apply not_elem_of_nil in Hx|].
    rewrite list_lookup_insert_ne in Hk by done. eapply (Hf k); [by rewrite list_lookup_insert_ne|done]. }
  assert (Forall (fun x => zlen x = cap level) ps) as Hps by (apply Forall_forall; intros x Hx; eapply Hf; [apply list_lookup_insert_eq, (lookup_lt_Some _ _ _ Hat)|done]).
  assert (flat lv = flat lv1 ++ q) as Efl. { subst lv1 q. rewrite (flat_set lv level (ps ++ [p]) [] Hlow Hat). cbn [concat]. rewrite app_nil_r. by apply flat_at. }
  pose proof (concat_full level ps Hps) as Hcl. assert (zlen q = Z.of_nat (length ps) * cap level + zlen p)%Z as Hzq by (subst q; rewrite concat_app; cbn [concat]; rewrite app_nil_r; unfold zlen in *; rewrite length_app; lia).
  assert (zlen q <= cap (S level))%Z as Hqc by (rewrite cap_S; nia). assert (0 < zlen q)%Z as Hq0 by (pose proof (cap_pos level); nia). pose proof (parts_full level ps p Hps Hp) as Hparts. fold q in Hparts.
  rewrite zsum_entries. fold q. destruct Hpre as [rest Hd]. assert (zlen q <= zlen (flat lv) /\ zlen (flat lv) <= zlen data)%Z as [Hle1 Hle2]. { split; [rewrite Efl|rewrite Hd]; unfold zlen; rewrite length_app; lia. }
  destruct (Z.leb_spec W64 (zlen q)); [lia|]. rewrite <- (length_map (fun e => e)), map_id.
  assert (forall i c, map (subtree level) (ps ++ [p]) !! i = Some c -> (e ← or_crash (map (entry_of level) (ps ++ [p]) !! i); entry_cid e) = Done c) as Hlk.
  { intros i c Hi. rewrite lookup_map in Hi. rewrite lookup_map. destruct ((ps ++ [p]) !! i) as [x|]; [|done]. injection Hi as <-. cbn. apply entry_cid_of. }
  pose proof (encode_writes (S:=Out) (zlen q) _ (map (subtree level) (ps ++ [p])) Hlk ltac:(by destruct ps)) as Hwr. rewrite !length_map in Hwr |- *.
  assert (node_valid (zlen q) (map (subtree level) (ps ++ [p]))) as (_ & _ & Hn256 & Hg) by (rewrite <- Hparts; apply node_valid_of; lia).
  pose proof (length_node (zlen q) _ Hg Hn256) as Hmax. pose proof node_max. eapply bspec_step; [rewrite Hwr; unfold Cbor.push, out_sink; cbn [oat obytes]; rewrite length_replicate; destruct (Nat.leb_spec (0 + length (node_image (zlen q) (map (subtree level) (ps ++ [p])))) (Z.to_nat NODE_MAX)); [done|lia]|].
  cbn [oat obytes]. rewrite take_0, Nat.add_0_l. cbn [app]. rewrite take_app_length. rewrite <- Hparts. fold (node_block level q).
  assert (zlen q = cap (level + 1) \/ flat lv1 ++ q = data) as He1. { rewrite <- Efl. destruct He as [[E1 E2]|E]; [left|by right]. rewrite Hzq, E1, Nat.add_1_r, cap_S. nia. }
  assert (forall x, x ∈ blocks_of (level + 1) q -> x ∈ object_blocks data) as Hkn.
  { intros x Hx. assert (level + 1 < length lv1 \/ length lv1 <= level + 1) as [Hlt|Hge] by lia.
    - destruct (lookup_lt_is_Some_2 lv1 (level + 1) Hlt) as [qs Hqs]. eapply (piece_known lv1 (level + 1) qs q); try done; [rewrite Nat.add_1_r; lia|exists rest; by rewrite <- Efl|right; rewrite <- Efl; by rewrite Nat.add_sub].
    - exfalso. subst lv1. rewrite length_insert, (rep_length _ _ _ Hrep) in Hge. pose proof (lookup_lt_Some _ _ _ Hat) as Hlt. rewrite (rep_length _ _ _ Hrep) in Hlt. assert (level = 7) as -> by (unfold LEVELS in *; lia). pose proof cap_7. lia. }
  eapply spec_bind; [apply (put_block_spec DagCbor (node_block level q)); [done| |unfold node_block; rewrite Hparts; unfold zlen in *; lia]|].
  { apply (HO (DagCbor, node_block level q)), Hkn. rewrite Nat.add_1_r. cbn. set_solver. }
  intros cid [b2 s2] (-> & Eb & Hs2 & Hgrow & Hnew). cbn [fst snd] in *. subst b2.
  assert (held s2 (blocks_of (level + 1) q)) as Hheld.
  { rewrite Nat.add_1_r. intros x Hx. cbn [blocks_of] in Hx. apply elem_of_cons in Hx as [->|Hx]; [done|]. rewrite Hparts in Hx. apply list_elem_of_In, in_concat in Hx as (l & (y & <- & Hy)%in_map_iff & Hx).
    apply Hgrow. eapply (rep_held _ _ _ Hrep level); [exact Hat|by apply list_elem_of_In|by apply list_elem_of_In]. }
  assert (rep lv1 (set_level level [] b) s2) as Hrep1 by (eapply rep_grows; [apply (rep_set lv b s level [] Hrep); intros x Hx; by apply not_elem_of_nil in Hx|done]).
  replace (mkEntry (to_bytes (of_data DagCbor (node_block level q))) (zlen q)) with (entry_of (level + 1) q) by (by rewrite Nat.add_1_r).
  eapply spec_weaken; [apply (Hpush lv1 (set_level level [] b) s2 q Hrep1 Hs2)|].
  - split; try done; [rewrite Nat.add_1_r; lia|by left|exists rest; by rewrite <- Efl|right; rewrite <- Efl; by rewrite Nat.add_sub].
  - intros _ st (lv' & k & qs & r & [P1 P2 P3 P4 P5 P6 P7 P8 P9]). exists lv', k, qs, r. by split.
Qed.

Lemma low_set k lv ps : low_empty k lv -> low_empty k (<[k := ps]> lv).
Proof. intros H j Hj. rewrite list_lookup_insert_ne by lia. by apply H. Qed.
Lemma small_set k lv ps : small lv -> (Z.of_nat (length ps) < FANOUT)%Z -> small (<[k := ps]> lv).
Proof. intros H Hn j qs Hj. destruct (decide (j = k)) as [->|]; [by apply set_eq in Hj as ->|]. rewrite list_lookup_insert_ne in Hj by done. by eapply H. Qed.
Lemma full_set k lv ps : all_full lv -> Forall (fun x => zlen x = cap k) ps -> all_full (<[k := ps]> lv).
Proof. intros H Hn j qs p Hj Hp. destruct (decide (j = k)) as [->|]; [apply set_eq in Hj as ->; by eapply Forall_forall in Hn|]. rewrite list_lookup_insert_ne in Hj by done. by eapply H. Qed.
Lemma level_bound level lv p s : may_push level lv p s -> level < LEVELS.
Proof.
  intros Hm. destruct (mp_high _ _ _ _ Hm) as [->|Hh]; [unfold LEVELS; lia|]. destruct (mp_prefix _ _ _ _ Hm) as [rest Hd]. assert (zlen (flat lv ++ p) <= zlen data)%Z by (rewrite Hd; unfold zlen; rewrite (length_app (flat lv ++ p)); lia).
  destruct (decide (level < LEVELS)); [done|]. pose proof (cap_mono 7 (level - 1) ltac:(unfold LEVELS in *; lia)). pose proof cap_7. lia.
Qed.

Lemma push_entry_spec fuel level : LEVELS < level + fuel -> pushes (push_entry fuel) level.
Proof.
  revert level. induction fuel as [|fuel IH]; intros level Hfuel lv b s p Hrep Hs Hm; pose proof (level_bound _ _ _ _ Hm) as Hlv; [lia|]. pose proof Hm as [Hlow Hf Hsm Hsz Hsome Hpre Hend Hhigh Hheld].
  destruct (lookup_lt_is_Some_2 lv level) as [ps Hat]; [by rewrite (rep_length _ _ _ Hrep)|]. assert (level < length lv) as Hll by (by rewrite (rep_length _ _ _ Hrep)).
  cbn [push_entry]. apply bspec_ask. eapply bspec_step; [by rewrite (rep_at _ _ _ _ _ Hrep Hat)|]. rewrite length_map. pose proof (Hsm _ _ Hat) as Hc. destruct (Z.leb_spec FANOUT (Z.of_nat (length ps))); [lia|]. apply bspec_change.
  assert (Forall (fun x => zlen x = cap level) ps) as Hps by (apply Forall_forall; intros x Hx; by eapply Hf).
  replace (map (entry_of level) ps ++ [entry_of level p]) with (map (entry_of level) (ps ++ [p])) by (by rewrite map_app). rewrite length_map, length_app. set (lv1 := <[level := ps ++ [p]]> lv).
  assert (rep lv1 (set_level level (map (entry_of level) (ps ++ [p])) b) s) as Hrep1. { apply rep_set; [done|]. intros x [Hx| ->%list_elem_of_singleton]%elem_of_app; [|done]. by eapply (rep_held _ _ _ Hrep). }
  assert (flat lv1 = flat lv ++ p) as Efl. { subst lv1. rewrite (flat_set lv level ps) by done. rewrite (flat_at lv level ps Hlow Hat). rewrite concat_app. cbn [concat]. by rewrite app_nil_r, app_assoc. }
  assert (lv1 !! level = Some (ps ++ [p])) as Hat1 by (by apply list_lookup_insert_eq). assert (<[level := ps]> lv1 = lv) as Eback. { subst lv1. rewrite list_insert_insert_eq. by apply list_insert_id. }
  destruct (Z.eqb_spec (Z.of_nat (length ps + length [p])) FANOUT) as [Hfull|Hnot]; cbn [length] in *.
  - pose proof fanout_pos as Hfp. pose proof (cap_pos level) as Hcp. assert (zlen (concat ps) <= zlen (flat lv))%Z as Hcf by (rewrite (flat_at lv level ps Hlow Hat); unfold zlen; rewrite length_app; lia).
    pose proof (concat_full level ps Hps) as Hcl. assert (cap level <= zlen (flat lv))%Z as Hge by nia. assert (0 < zlen p)%Z as Hp0. { destruct Hsome as [|[Hnil _]]; [done|]. apply app_eq_nil in Hnil as [Hnil _]. rewrite Hnil in Hge. unfold zlen in Hge. cbn in Hge. lia. }
    assert (zlen (flat lv ++ p) = zlen (flat lv) + zlen p)%Z as Hza by (unfold zlen; rewrite length_app; lia). destruct Hpre as [rest Hd].
    eapply spec_weaken; [eapply (wrap_spec (push_entry fuel) level lv1 _ s ps p); try done|].
    + apply IH. lia.
    + by apply low_set.
    + by rewrite Eback.
    + subst lv1. rewrite list_insert_insert_eq. apply small_set; [done|cbn; lia].
    + lia.
    + exists rest. by rewrite Efl.
    + rewrite Efl. destruct Hend; [left; split; [done|lia]|by right].
    + rewrite Efl, Hza. lia.
    + intros _ st (lv' & k & qs & q & [P1 P2 P3 P4 P5 P6 P7 P8 P9]). exists lv', k, qs, q. split; try done; [|lia|].
      * rewrite P6. subst lv1. rewrite list_insert_insert_eq. rewrite (flat_set lv level ps) by done. cbn [concat]. rewrite app_nil_r, (flat_at lv level ps Hlow Hat), concat_app. cbn [concat]. by rewrite app_nil_r, app_assoc.
      * intros Ep. apply P9. rewrite concat_app. cbn [concat]. rewrite app_nil_r. unfold zlen in *. rewrite length_app, Nat.add_1_r, cap_S. nia.
  - apply spec_ret. exists lv1, level, ps, p. split; try done.
    + apply small_set; [done|rewrite length_app; cbn [length]; lia].
    + split; [by apply low_set|done|by rewrite Eback|done| |by rewrite Efl]. rewrite Efl. done.
    + intros Ep. apply full_set; [done|]. apply Forall_app. split; [done|]. by constructor.
Qed.

(** The builder between two writes of [data]: the bytes so far. *)
Record writing (D : bytes) (lv : list (list bytes)) (b : Builder) (s : B) : Prop := {
  wr_rep : rep lv b s;
  wr_sound : sound s;
  wr_full : all_full lv;
  wr_small : small lv;
  wr_data : D = flat lv ++ chunk b;
  wr_chunk : (zlen (chunk b) <= CHUNK)%Z;
  wr_some : chunk b = [] -> flat lv = []
}.
Lemma zlen_0 (l : bytes) : (0 < zlen l)%Z \/ l = [].
Proof. destruct l; [by right|left; unfold zlen; cbn; lia]. Qed.

Lemma flush_spec D lv b s : writing D lv b s -> (exists rest, data = D ++ rest) -> zlen (chunk b) = CHUNK \/ D = data ->
  bspec (b, s) flush_chunk (fun _ st => exists lv' k ps q, pushed 0 lv (chunk b) (mkBuilder [] (total b) (levels b)) st lv' k ps q).
Proof.
  intros [Hrep Hs Hf Hsm Hd Hc Hsome] Hpre Hend. unfold flush_chunk. apply bspec_ask.
  assert (forall x, x ∈ blocks_of 0 (chunk b) -> x ∈ object_blocks data) as Hkn.
  { intros x Hx. destruct (zlen_0 (chunk b)) as [H0|H0].
    - destruct (lookup_lt_is_Some_2 lv 0) as [ps Hat]; [rewrite (rep_length _ _ _ Hrep); unfold LEVELS; lia|]. eapply (piece_known lv 0 ps (chunk b)); try done; rewrite ?cap_0, <- ?Hd; try done; [intros j Hj; lia|by left].
    - rewrite H0, app_nil_r in *. rewrite (Hsome eq_refl) in Hd. subst D. destruct Hend as [He|<-]; [unfold zlen in He; cbn in He; pose proof chunk_pos; lia|]. unfold object_blocks. exact Hx. }
  eapply spec_bind; [apply (put_block_spec Raw (chunk b)); [done| |lia]|]. { apply (HO (Raw, chunk b)), Hkn. cbn. set_solver. }
  intros cid [b2 s2] (-> & Eb & Hs2 & Hgrow & Hnew). cbn [fst snd] in *. subst b2. apply bspec_change. change (mkEntry (to_bytes (of_data Raw (chunk b))) (Z.of_nat (length (chunk b)))) with (entry_of 0 (chunk b)).
  apply (push_entry_spec (S LEVELS) 0 ltac:(lia) lv (mkBuilder [] (total b) (levels b)) s2 (chunk b)); [|done|].
  - destruct (rep_grows _ _ _ _ Hrep Hgrow) as [R1 R2 R3]. by split.
  - split; try done; rewrite ?cap_0, <- ?Hd; try done.
    + intros j Hj. lia.
    + destruct (zlen_0 (chunk b)) as [H0|H0]; [by left|right]. rewrite H0, app_nil_r, (Hsome H0) in Hd. done.
    + by left.
    + intros x ->%list_elem_of_singleton. done.
Qed.

Lemma write_loop_spec fuel d D rest lv b s : length d <= fuel -> writing D lv b s -> data = D ++ d ++ rest ->
  bspec (b, s) (write_loop fuel d) (fun _ st => total st.1 = total b /\ exists lv', writing (D ++ d) lv' st.1 st.2).
Proof.
  revert d D lv b s. induction fuel as [|fuel IH]; intros d D lv b s Hl Hw Hd; cbn [write_loop]; (destruct (decide (d = [])) as [->|Hne]; [apply spec_ret; rewrite app_nil_r; split; [done|by exists lv]|]).
  - destruct d; [done|cbn in Hl; lia].
  - apply bspec_ask. pose proof chunk_pos as Hcp. assert (length d <> 0) as Hd0 by (by destruct d).
    eapply (spec_bind _ _ _ (fun _ st => total st.1 = total b /\ exists lv', writing D lv' st.1 st.2 /\ (zlen (chunk st.1) < CHUNK)%Z \/ (rep lv' st.1 st.2 /\ sound st.2 /\ all_full lv' /\ small lv' /\ chunk st.1 = [] /\ flat lv' = D))).
    { pose proof (wr_chunk _ _ _ _ Hw). unfold zlen in *. destruct (Z.eqb_spec (Z.of_nat (length (chunk b))) CHUNK) as [Hc|Hc]; [|apply spec_ret; split; [done|]; exists lv; left; split; [done|]; cbn; lia].
      eapply spec_weaken; [apply (flush_spec D lv b s Hw); [eauto|by left]|]. intros _ st (lv' & k & ps & q & [P1 P2 P3 P4 P5 P6 P7 P8 P9]). split; [done|]. exists lv'. right. split_and!; try done.
      - apply P9. rewrite cap_0. done.
      - rewrite P6. symmetry. apply (wr_data _ _ _ _ Hw). }
    intros _ [b1 s1] (Ht & lv1 & H1). cbn [fst snd] in *. apply bspec_ask. set (n := Nat.min (length d) (Z.to_nat CHUNK - length (chunk b1))).
    assert (zlen (chunk b1) < CHUNK)%Z as Hlt by (destruct H1 as [[_ ?]|(_ & _ & _ & _ & -> & _)]; [done|unfold zlen; cbn; lia]). assert (0 < n <= length d) as Hn by (unfold zlen in *; lia). apply bspec_change.
    assert (writing (D ++ take n d) lv1 (mkBuilder (chunk b1 ++ take n d) (total b1) (levels b1)) s1) as Hw1.
    { assert (D = flat lv1 ++ chunk b1 /\ rep lv1 b1 s1 /\ sound s1 /\ all_full lv1 /\ small lv1) as (Ed & [R1 R2 R3] & ? & ? & ?). { destruct H1 as [[[] _]|(? & ? & ? & ? & Ec & ?)]; [done|]. rewrite Ec, app_nil_r. done. }
      split; cbn [chunk levels total]; try done; [by rewrite app_assoc, <- Ed|unfold zlen in *; rewrite length_app, length_take; lia|].
      intros [_ E]%app_eq_nil. apply (f_equal length) in E. rewrite length_take in E. cbn in E. lia. }
    eapply spec_weaken; [apply (IH (drop n d) (D ++ take n d) lv1); [rewrite length_drop; lia|done|]|].
    + rewrite Hd, <- !app_assoc. f_equal. rewrite app_assoc, take_drop. done.
    + cbn [total]. intros _ st [E (lv' & Hw')]. split; [congruence|]. exists lv'. by rewrite <- app_assoc, take_drop in Hw'.
Qed.
Lemma write_spec d D rest lv b s : writing D lv b s -> total b = zlen D -> data = D ++ d ++ rest ->
  bspec (b, s) (write d) (fun _ st => total st.1 = zlen (D ++ d) /\ exists lv', writing (D ++ d) lv' st.1 st.2).
Proof.
  intros Hw Ht Hd. unfold write. apply bspec_ask. assert (zlen (D ++ d) <= zlen data)%Z as Hle by (rewrite Hd, app_assoc; unfold zlen; rewrite (length_app (D ++ d)); lia). assert (zlen (D ++ d) = total b + Z.of_nat (length d))%Z as Hz by (rewrite Ht; unfold zlen; rewrite length_app; lia).
  eapply bspec_step; [unfold checked_add; by rewrite (proj2 (Z.ltb_lt _ _)) by lia|]. apply bspec_change. rewrite <- Hz. eapply spec_weaken; [eapply (write_loop_spec (length d) d D rest lv); [done| |done]|].
  - destruct Hw as [[R1 R2 R3] W2 W3 W4 W5 W6 W7]. split; done.
  - cbn [total]. done.
Qed.

Lemma higher_spec lv b s k : rep lv b s -> existsb (fun l : list Entry => match l with [] => false | _ => true end) (drop (k + 1) (levels b)) = true <-> exists j ps, k < j /\ lv !! j = Some ps /\ ps <> [].
Proof.
  intros Hrep. rewrite existsb_exists. split.
  - intros (l & Hin%list_elem_of_In & Hl). apply list_elem_of_lookup in Hin as [i Hi]. rewrite lookup_drop, (rep_levels _ _ _ Hrep), list_lookup_imap in Hi. destruct (lv !! (k + 1 + i)) as [ps|] eqn:E; [|done]. injection Hi as <-. exists (k + 1 + i), ps. split_and!; [lia|done|by intros ->].
  - intros (j & ps & Hj & Hps & Hne). exists (map (entry_of j) ps). split; [|by destruct ps]. apply list_elem_of_In, (list_elem_of_lookup_2 _ (j - (k + 1))). rewrite lookup_drop. replace (k + 1 + (j - (k + 1))) with j by lia. by apply (rep_at _ _ _ _ _ Hrep).
Qed.

Definition finished (r : Cid * Z) (st : Builder * B) : Prop := r = (root_of data, zlen data) /\ sound st.2 /\ held st.2 (object_blocks data).
Lemma finish_loop_spec n level lv k ps q b s : n + level = LEVELS -> rep lv b s -> sound s -> small lv -> tail lv k ps q -> level <= k -> flat lv = data -> total b = zlen data ->
  bspec (b, s) (finish_loop (seq level n)) finished.
Proof.
  revert level lv k ps q b s. induction n as [|n IH]; intros level lv k ps q b s Hn Hrep Hs Hsm Ht Hlk Hfl Htot; pose proof Ht as [Hlow Hat Hf Hsz Hsome Hhigh]; pose proof (lookup_lt_Some _ _ _ Hat) as Hkl; rewrite (rep_length _ _ _ Hrep) in Hkl.
  - exfalso. lia.
  - cbn [seq finish_loop]. apply bspec_ask. destruct (decide (level < k)) as [Hlt|Hge].
    { eapply bspec_step; [by rewrite (rep_at _ _ _ _ _ Hrep (Hlow level Hlt))|]. cbn [map]. eapply IH; eauto; lia. }
    assert (level = k) as -> by lia. eapply bspec_step; [by rewrite (rep_at _ _ _ _ _ Hrep Hat)|]. pose proof (higher_spec lv b s k Hrep) as Hhi. set (higher := existsb _ _) in *.
    assert ((ps <> [] \/ higher = true) -> bspec (b, s) (_ ← wrap k; finish_loop (seq (S k) n)) finished) as Hwrap.
    { intros Hcase. pose proof fanout_pos as Hfp. pose proof (cap_pos k) as Hcp. assert (Forall (fun x => zlen x = cap k) ps) as Hps by (apply Forall_forall; intros x Hx; eapply Hf; [by apply list_lookup_insert_eq; rewrite (rep_length _ _ _ Hrep)|done]).
      assert (flat lv = flat (drop (S k) lv) ++ concat (ps ++ [q])) as Efl by (by apply flat_at). assert (zlen (concat ps) + zlen q <= zlen (flat lv))%Z as Hlen by (rewrite Efl, concat_app; cbn [concat]; rewrite app_nil_r; unfold zlen; rewrite !length_app; lia).
      pose proof (concat_full k ps Hps) as Hcl. assert (cap k <= zlen (concat ps) \/ cap k < zlen (flat lv))%Z as Hbig.
      { destruct Hcase as [Hne|(j & qs & Hj & Hqs & Hne)%Hhi]; [left; assert (length ps <> 0) by (by destruct ps); nia|right]. destruct qs as [|r qs]; [done|].
        assert (zlen r = cap j) as Er by (eapply (Hf j); [by rewrite list_lookup_insert_ne by lia|set_solver]). pose proof (flat_ge lv j _ r Hqs ltac:(set_solver)). pose proof (cap_mono (S k) j ltac:(lia)) as Hm. rewrite cap_S in Hm. nia. }
      assert (0 < zlen q)%Z as Hq0. { destruct Hsome as [|[Hnil _]]; [done|]. rewrite Hnil in *. unfold zlen in Hlen, Hbig |- *. cbn in Hlen, Hbig. lia. }
      pose proof (Hsm k _ Hat) as Hsk. rewrite length_app in Hsk. cbn [length] in Hsk. unfold wrap.
      eapply spec_bind; [eapply (wrap_spec (push_entry (S LEVELS)) k lv b s ps q); try done|].
      - apply push_entry_spec. lia.
      - apply small_set; [done|cbn; lia].
      - lia.
      - exists []. by rewrite app_nil_r.
      - by right.
      - destruct Hbig; lia.
      - intros _ [b' s'] (lv' & k' & qs & r & [P1 P2 P3 P4 P5 P6 P7 P8 P9]). cbn [fst snd] in *. eapply (IH (S k) lv' k' qs r); try done; [lia|lia| |congruence].
        rewrite P6, (flat_set lv k _ [] Hlow Hat). cbn [concat]. by rewrite app_nil_r, <- Efl. }
    destruct ps as [|p0 ps].
    + cbn [app map] in *. destruct higher eqn:Eh; [apply Hwrap; by right|]. assert (q = data) as Eq.
      { rewrite <- Hfl, (flat_at lv k [q] Hlow Hat). cbn [concat]. rewrite app_nil_r, flat_empty; [done|]. intros j qs Hj. rewrite lookup_drop in Hj. destruct qs as [|r qs]; [done|]. exfalso.
        apply diff_false_true. apply Hhi. exists (S k + j), (r :: qs). split_and!; [lia|done|done]. }
      assert (height (zlen data) = k) as Ek. { apply height_unique; [unfold zlen in *; lia|by rewrite <- Eq|]. by rewrite Hfl in Hhigh. }
      apply bspec_change. eapply bspec_step; [apply entry_cid_of|]. apply bspec_ask. apply spec_ret. unfold finished. cbn [snd total set_level]. rewrite Htot, Eq. split_and!; [by rewrite <- Ek|done|].
      unfold object_blocks. rewrite Ek, <- Eq. eapply (rep_held _ _ _ Hrep k [q]); [done|set_solver].
    + destruct ps; cbn [app map] in *; apply Hwrap; by left.
Qed.
Lemma finish_spec lv b s : writing data lv b s -> total b = zlen data -> bspec (b, s) finish finished.
Proof.
  intros Hw Ht. unfold finish. apply bspec_ask, bspec_ask. pose proof Hw as [Hrep Hs Hf Hsm Hd Hc Hsome].
  assert (negb (bool_decide (chunk b = [])) || (total b =? 0)%Z = true) as ->.
  { case_bool_decide as E; [|done]. cbn. rewrite Ht, Hd, E, (Hsome E). done. }
  eapply spec_bind; [apply (flush_spec data lv b s Hw); [exists []; by rewrite app_nil_r|by right]|]. intros _ [b' s'] (lv' & k & ps & q & [P1 P2 P3 P4 P5 P6 P7 P8 P9]). cbn [fst snd] in *.
  eapply (finish_loop_spec LEVELS 0 lv' k ps q); try done; [by rewrite P6, <- Hd|by rewrite P5].
Qed.
End building.

(** ** A store of blocks *)
Lemma blocks_small h d x : (h = 0 /\ (zlen d <= CHUNK)%Z) \/ (0 < zlen d <= cap h)%Z -> (zlen d < W64)%Z -> x ∈ blocks_of h d -> (zlen x.2 <= CHUNK)%Z.
Proof.
  revert d. induction h as [|h IH]; intros d Hd H64 Hx; cbn [blocks_of] in Hx.
  - apply list_elem_of_singleton in Hx as ->. cbn. rewrite cap_0 in Hd. lia.
  - destruct Hd as [[? _]|Hd]; [done|]. apply elem_of_cons in Hx as [->|Hx].
    + cbn [snd]. destruct (node_valid_of h d Hd H64) as (_ & _ & Hn & Hg). pose proof (length_node (zlen d) _ Hg Hn). pose proof node_max. change (zlen (node_block h d)) with (Z.of_nat (length (node_image (zlen d) (map (subtree h) (parts h d))))). lia.
    + apply list_elem_of_In, in_concat in Hx as (l & (p & <- & Hp)%in_map_iff & Hx%list_elem_of_In). apply list_elem_of_In, list_elem_of_lookup in Hp as [i Hi]. pose proof (part_length h d Hd i p Hi) as [Hl Hl0]. pose proof (cap_pos h).
      apply (IH p); [right; lia|lia|done].
Qed.
Lemma object_small d x : (zlen d < W64)%Z -> x ∈ object_blocks d -> (zlen x.2 <= CHUNK)%Z.
Proof.
  intros H64. assert (0 <= zlen d < W64)%Z as Hz by (unfold zlen in *; lia). pose proof (height_spec _ Hz) as [Hcap Hmin]. apply blocks_small; [|done]. destruct (height (zlen d)) as [|h]; [left; by rewrite cap_0 in Hcap|right]. destruct Hmin as [|Hmin]; [done|]. pose proof (cap_pos (S h - 1)). lia.
Qed.

Section stored.
Context {B : Type} `{!Blocks B} `{!StoreLaws B} (data : bytes) (H64 : (zlen data < W64)%Z) (U : bytes -> Prop).
Context (HU : forall x y, U x -> U y -> digest x = digest y -> x = y) (HO : forall x, x ∈ object_blocks data -> U x.2).
Context (s0 : B) (Hs0 : sound U s0).
Definition same_blocks (s : B) : Prop := forall c y, holds s c y <-> holds s0 c y.

(** A block of the object is fetched, or the object is not all there. *)
Lemma stored_fetch c x (l : unit) : (c, x) ∈ object_blocks data -> spec same_blocks (fun _ => tt) (~ held s0 (object_blocks data)) l (fetch (of_data c x)) (fun bs l' => bs = x /\ l' = l).
Proof.
  intros Hx s Hs _. unfold fetch, mbind, st_bind. pose proof (object_small data (c, x) H64 Hx) as Hl. cbn [snd] in Hl.
  destruct (has_held s (of_data c x)) as (found & s1 & _ & Hfound & _). destruct found.
  - destruct (proj1 Hfound eq_refl) as [y Hy]. assert (y = x) as ->. { apply Hs, Hs0 in Hy as [Hu Hd]. apply HU; [done|by apply (HO (c, x))|done]. }
    destruct (get_held s _ x CHUNK Hy Hl) as (b' & -> & Hb'). destruct (Z.ltb_spec CHUNK (Z.of_nat (length x))); [unfold zlen in *; lia|]. rewrite (proj2 (matches_of_data c x x) eq_refl). cbn. split_and!; [|done|by destruct l]. intros c' y. rewrite Hb'. apply Hs.
  - assert (forall y, ~ holds s (of_data c x) y) as Hno by (intros y Hy; by assert (false = true) by (apply Hfound; eauto)). destruct (get_missing s _ CHUNK Hno) as (e & b' & -> & _). intros Hheld. apply (Hno x), Hs. apply (Hheld (c, x) Hx).
Qed.
Lemma stored_read offset room : held s0 (object_blocks data) -> (0 <= offset <= zlen data)%Z -> (0 <= room)%Z -> (read_at (root_of data) offset room s0).1 = Done (slice data (Z.to_nat offset) (Z.to_nat room)).
Proof.
  intros Hh Ho Hr. pose proof (read_at_spec same_blocks (fun _ => tt) (~ held s0 (object_blocks data)) (object_blocks data) stored_fetch data H64 (fun x Hx => Hx) offset room tt Ho Hr s0 ltac:(done) eq_refl) as H.
  destruct (read_at _ _ _ s0) as [[r| |] b']; [|done|done]. destruct H as [_ [_ ->]]. done.
Qed.
End stored.

(** The pieces of an object, one after the other. *)
Fixpoint write_all {B} `{!Blocks B} (ds : list bytes) : ST (Builder * B) unit := match ds with [] => mret tt | d :: ds => _ ← write d; write_all ds end.
Lemma write_all_spec {B} `{!Blocks B} `{!StoreLaws B} data (H64 : (zlen data < W64)%Z) U (HU : forall x y, U x -> U y -> digest x = digest y -> x = y) (HO : forall x, x ∈ object_blocks data -> U x.2) ds D lv b s :
  writing U D lv b s -> total b = zlen D -> data = D ++ concat ds -> bspec (b, s) (write_all ds) (fun _ st => total st.1 = zlen data /\ exists lv', writing U data lv' st.1 st.2).
Proof.
  revert D lv b s. induction ds as [|d ds IH]; intros D lv b s Hw Ht Hd; cbn [write_all concat] in *.
  - apply spec_ret. rewrite app_nil_r in Hd. subst D. split; [done|by exists lv].
  - eapply spec_bind; [by eapply (write_spec data H64 U HU HO d D)|]. intros _ [b' s'] [Ht' (lv' & Hw')]. cbn [fst snd] in *. eapply IH; [done|done|]. by rewrite <- app_assoc.
Qed.
Lemma writing_new {B} `{!Blocks B} `{!StoreLaws B} U b (s : B) : sound U s -> writing U [] (replicate LEVELS []) (reset b) s.
Proof.
  intros Hs. split; try done.
  - split; [done|done|]. intros k ps p [-> _]%lookup_replicate Hp. by apply not_elem_of_nil in Hp.
  - intros k ps p [-> _]%lookup_replicate Hp. by apply not_elem_of_nil in Hp.
  - intros k ps [-> _]%lookup_replicate. cbn. pose proof fanout_pos. lia.
Qed.

(** C21: an object comes back. Into a store that keeps its laws, bytes written in any pieces, from a fresh or a reset builder, give
    the root and the size of their tree, whatever the pieces, or the store's refusal, never a panic; and then every stretch
    of the object is read back as written. ([U]: no two of the strings in play share a SHA-256.) *)
Theorem object_round_trip {B} `{!Blocks B} `{!StoreLaws B} (U : bytes -> Prop) (ds : list bytes) (b : Builder) (s : B) : let data := concat ds in
  (zlen data < W64)%Z -> (forall x y, U x -> U y -> digest x = digest y -> x = y) -> (forall x, x ∈ object_blocks data -> U x.2) -> sound U s ->
  match (_ ← write_all ds; finish) (reset b, s) with
  | (Done r, (_, s')) => r = (root_of data, zlen data) /\
      forall offset room, (0 <= offset <= zlen data)%Z -> (0 <= room)%Z -> (read_at (root_of data) offset room s').1 = Done (slice data (Z.to_nat offset) (Z.to_nat room))
  | (Refuse _, _) => refuses
  | (Crash, _) => False
  end.
Proof.
  intros data H64 HU HO Hs. assert (bspec (reset b, s) (_ ← write_all ds; finish) (finished data U)) as H.
  { eapply spec_bind; [apply (write_all_spec data H64 U HU HO ds [] _ _ _ (writing_new U b s Hs)); done|]. intros _ [b' s'] [Ht (lv & Hw)]. by eapply finish_spec. }
  specialize (H (reset b, s) I eq_refl). destruct ((_ ← write_all ds; finish) (reset b, s)) as [[r| |] [b' s']]; [|done|done]. destruct H as [_ (-> & Hs' & Hh)]. split; [done|]. intros offset room Ho Hr. by eapply stored_read.
Qed.

(** C23: [complete] tells the truth. It says that an object is all there exactly when the store holds every block of it. *)
Theorem complete_exact {B} `{!Blocks B} `{!StoreLaws B} (U : bytes -> Prop) (data : bytes) (s : B) : (zlen data < W64)%Z -> (forall x y, U x -> U y -> digest x = digest y -> x = y) -> (forall x, x ∈ object_blocks data -> U x.2) -> sound U s ->
  safe (complete (root_of data) s).1 /\ ((complete (root_of data) s).1 = Done (zlen data) <-> held s (object_blocks data)) /\ forall t, (complete (root_of data) s).1 = Done t -> t = zlen data.
Proof.
  intros H64 HU HO Hs. set (R := fun c : Cid => exists y, holds s c y). set (F := ~ held s (object_blocks data)).
  assert (forall c (l : unit), c ∈ map cid_of (object_blocks data) -> spec (same_blocks s) (fun _ => tt) F l (h ← has c; if (h : bool) then mret tt else fail NotFound) (fun _ l' => R c)) as Hv.
  { intros c l Hc b Hb _. unfold mbind, st_bind. destruct (has_held b c) as (x & b' & -> & Hx & Hb'). destruct x; cbn.
    - split; [intros c' y; rewrite Hb'; apply Hb|]. destruct (proj1 Hx eq_refl) as [y Hy]. exists y. by apply Hb.
    - intros Hheld. apply list_elem_of_In, in_map_iff in Hc as (z & <- & Hz%list_elem_of_In). apply diff_false_true, Hx. exists z.2. apply Hb. by apply Hheld. }
  pose proof (walk_blocks_spec (same_blocks s) (fun _ => tt) F (object_blocks data) (fun c x l => stored_fetch data H64 U HU HO s Hs c x l) _ (fun c _ _ => R c) Hv data H64 (fun x Hx => Hx) tt s ltac:(done) eq_refl) as H.
  fold (complete (root_of data)) in H. destruct (complete (root_of data) s) as [[t|e|] b']; cbn [fst]; [|split_and!; [done| |done]; split; [done|by intros Hh]|done]. destruct H as [_ (-> & cs & Hst & Hcs)]. split_and!; [done| |by intros t [= ->]].
  split; [|done]. intros _ x Hx. assert (forall cs (l l' : unit), steps (fun c _ _ => R c) cs l l' -> forall c, c ∈ cs -> R c) as Hr.
  { clear. intros cs. induction cs as [|c cs IH]; intros l l' Hsteps c' Hc; [by apply not_elem_of_nil in Hc|]. cbn in Hsteps. destruct Hsteps as (l1 & H1 & H2). apply elem_of_cons in Hc as [->|Hc]; [done|by eapply IH]. }
  destruct (Hr cs _ _ Hst (cid_of x)) as [y Hy]; [apply Hcs; by apply list_elem_of_In, in_map, list_elem_of_In|]. pose proof (Hs _ _ Hy) as [Hu Hd]. assert (y = x.2) as -> by (apply HU; [done|by apply HO|done]). done.
Qed.

(** ** Any store *)
(** What the trait says of [get]: it copies at most the room, and does not panic. *)
Definition fits (B : Type) `{!Blocks B} : Prop := forall c room (b : B), yields (fun bs => (zlen bs <= room)%Z) (get c room b).1.
(** The store never answers another string with the SHA-256 of one of these. *)
Definition no_second_preimage (B : Type) `{!Blocks B} (known : list (Codec * bytes)) : Prop :=
  forall c room (b : B), yields (fun bs => forall x, x ∈ known -> digest bs = digest x.2 -> bs = x.2) (get c room b).1.

(** C22: what is read is the object. Whatever the store does (lose, change or swap blocks), reading an object by its root gives its
    own bytes or an error, as long as the store knows no second string with the SHA-256 of one of its blocks. *)
Theorem read_authentic {B} `{!Blocks B} (data : bytes) (offset room : Z) (s : B) : fits B -> no_second_preimage B (object_blocks data) -> (zlen data < W64)%Z -> (0 <= offset <= zlen data)%Z -> (0 <= room)%Z ->
  yields (fun out => out = slice data (Z.to_nat offset) (Z.to_nat room)) (read_at (root_of data) offset room s).1.
Proof.
  intros Hfit Hno H64 Ho Hr. assert (forall c x (l : unit), (c, x) ∈ object_blocks data -> spec (S:=B) (fun _ => True) (fun _ => tt) True l (fetch (of_data c x)) (fun bs l' => bs = x /\ l' = l)) as Hf.
  { intros c x l Hx b _ _. unfold fetch, mbind, st_bind. pose proof (Hfit (of_data c x) CHUNK b) as H1. pose proof (Hno (of_data c x) CHUNK b) as H2. destruct (get (of_data c x) CHUNK b) as [[bs| |] b']; [|done|done]. cbn in H1, H2. destruct (Z.ltb_spec CHUNK (Z.of_nat (length bs))); [unfold zlen in *; lia|].
    destruct (matches (of_data c x) bs) eqn:Em; [|done]. apply matches_of_data in Em. cbn. split_and!; [done|by apply (H2 (c, x))|by destruct l]. }
  pose proof (read_at_spec _ _ _ (object_blocks data) Hf data H64 (fun x Hx => Hx) offset room tt Ho Hr s I eq_refl) as H. destruct (read_at _ _ _ s) as [[r| |] b']; [|done|done]. by destruct H as (_ & _ & ->).
Qed.

(** ** A store in memory *)
Definition Memory : Type := list (Cid * bytes).
Definition find_block (m : Memory) (c : Cid) : option bytes := snd <$> List.find (fun e => bool_decide (e.1 = c)) m.
#[global] Instance memory_blocks : Blocks Memory := {
  put k x m := let c := of_data k x in match find_block m c with Some _ => (Done c, m) | None => (Done c, m ++ [(c, x)]) end;
  get c room m := match find_block m c with Some x => if (zlen x <=? room)%Z then (Done x, m) else (Refuse TooLarge, m) | None => (Refuse NotFound, m) end;
  has c m := (Done (match find_block m c with Some _ => true | None => false end), m)
}.
Lemma find_block_app m c' x c : find_block (m ++ [(c', x)]) c = match find_block m c with Some y => Some y | None => if bool_decide (c' = c) then Some x else None end.
Proof. unfold find_block. induction m as [|[c0 y0] m IH]; cbn [app List.find fst]; [cbn; by destruct (bool_decide _)|]. destruct (bool_decide (c0 = c)); [done|exact IH]. Qed.
#[global] Program Instance memory_laws : StoreLaws Memory := {| holds m c x := find_block m c = Some x; refuses := False |}.
Next Obligation. intros m c x room E Hl. exists m. cbn. rewrite E, (proj2 (Z.leb_le _ _)) by done. done. Qed.
Next Obligation. intros m c room Hno. cbn in *. destruct (find_block m c) as [x|] eqn:E; [by destruct (Hno x)|]. by exists NotFound, m. Qed.
Next Obligation.
  intros m k x Hl Hu. cbn. destruct (find_block m (of_data k x)) as [y|] eqn:E.
  - split; [done|]. intros c z. split; [by right|]. intros [[-> ->]|Hc]; [|done]. by rewrite E, (Hu y E).
  - split; [done|]. intros c z. rewrite find_block_app. destruct (find_block m c) as [w|] eqn:E2.
    + split; [by right|]. intros [[-> ->]|H]; congruence.
    + case_bool_decide as Hc; [subst c|]; split; [intros [= ->]; by left|by intros [[_ ->]|]|done|intros [[-> _]|]; done].
Qed.
Next Obligation. intros m c. cbn. eexists _, m. split; [reflexivity|]. split; [|done]. destruct (find_block m c) as [y|]; split; try done; [by exists y|by intros [? ?]]. Qed.

Lemma demo_object : object_blocks [1; 2; 3]%Z = [(Raw, [1; 2; 3]%Z)].
Proof. reflexivity. Qed.
Lemma object_round_trip_witness : match (_ ← write_all [[1; 2]; [3]]%Z; finish) (reset new, ([] : Memory)) with
  | (Done r, (_, s')) => r = (root_of [1; 2; 3]%Z, 3%Z) /\ (read_at (root_of [1; 2; 3]%Z) 1 5 s').1 = Done [2; 3]%Z
  | _ => False
  end.
Proof.
  pose proof (object_round_trip (B:=Memory) (fun x => x = [1; 2; 3]%Z) [[1; 2]; [3]]%Z new []) as H. cbv zeta in H. change (concat [[1; 2]; [3]]%Z) with [1; 2; 3]%Z in H.
  specialize (H ltac:(reflexivity) ltac:(intros x y -> -> _; reflexivity) ltac:(intros x; rewrite demo_object; intros ->%list_elem_of_singleton; reflexivity) ltac:(intros c y E; discriminate E)).
  destruct ((_ ← write_all [[1; 2]; [3]]%Z; finish) (reset new, ([] : Memory))) as [[r| |] [b' s']]; [|destruct H|destruct H]. destruct H as [-> H]. split; [reflexivity|]. apply (H 1%Z 5%Z); [split; discriminate|discriminate].
Defined.
Lemma complete_exact_witness : (complete (root_of [1; 2; 3]%Z) [(of_data Raw [1; 2; 3]%Z, [1; 2; 3]%Z)]).1 = Done 3%Z.
Proof.
  apply (complete_exact (B:=Memory) (fun x => x = [1; 2; 3]%Z) [1; 2; 3]%Z); [reflexivity|intros x y -> -> _; reflexivity|intros x; rewrite demo_object; intros ->%list_elem_of_singleton; reflexivity| |].
  - intros c y. cbn. unfold find_block. cbn. case_bool_decide as E; [|done]. cbn. intros [= <-]. by rewrite <- E.
  - rewrite demo_object. intros x ->%list_elem_of_singleton. cbn. unfold find_block. cbn. by rewrite bool_decide_true.
Defined.
(** A store that answers everything with one block. *)
Definition Liar : Type := unit.
Definition liar_blocks : Blocks Liar := {| put k x m := (Refuse Full, m); get c room m := if (3 <=? room)%Z then (Done [1; 2; 3]%Z, m) else (Refuse TooLarge, m); has c m := (Done true, m) |}.
Lemma read_authentic_witness : yields (fun out => out = [2; 3]%Z) (read_at (Blocks0:=liar_blocks) (root_of [1; 2; 3]%Z) 1 5 tt).1.
Proof.
  apply (read_authentic (Blocks0:=liar_blocks) [1; 2; 3]%Z 1 5 tt); [| |reflexivity|split; discriminate|discriminate].
  - intros c room b. cbn [get liar_blocks]. destruct (Z.leb_spec 3 room); cbn [fst yields]; [unfold zlen; cbn [length]; lia|exact I].
  - intros c room b. cbn [get liar_blocks]. destruct (3 <=? room)%Z; cbn [fst yields]; [|exact I]. rewrite demo_object. intros x ->%list_elem_of_singleton _. reflexivity.
Defined.
