(* ===== verification/Directory.v ===== *)
(** * Directories as blocks ([libmind/src/tree.rs]: the codec and the search)

    A directory is one DAG-CBOR block of entries sorted by name. The theorems: decoding never panics and accepts exactly the
    canonical encodings of sorted entries with valid names; a name is found exactly when the directory has it. *)
From S2P Require Import Prelude Outcome Text Sha256 Cid Cbor Dag.
Local Open Scope nat_scope.

Definition VERSION : Z := 1.
Definition NAME_MAX : Z := 255.
Definition ENTRY_MIN : Z := 1 + 2 + 1 + 1 + Z.of_nat LINK.
Definition ENTRIES : Z := CHUNK / ENTRY_MIN.

Inductive Kind : Type := File | Directory.
#[global] Instance kind_eq : EqDecision Kind.
Proof. solve_decision. Defined.
Definition kind_code (k : Kind) : Z := match k with File => 0 | Directory => 1 end.
Definition kind_from_code (z : Z) : option Kind := if (z =? 0)%Z then Some File else if (z =? 1)%Z then Some Directory else None.

Record DEntry : Type := mkDEntry { dname : bytes; dkind : Kind; dsize : Z; dcid : Cid }.

(** The order of byte strings. *)
Fixpoint compare (a b : bytes) : comparison :=
  match a, b with
  | [], [] => Eq
  | [], _ :: _ => Lt
  | _ :: _, [] => Gt
  | x :: a, y :: b => match (x ?= y)%Z with Eq => compare a b | c => c end
  end.
Definition before (a b : bytes) : bool := match compare a b with Lt => true | _ => false end.

Definition valid_name (n : bytes) : bool :=
  (1 <=? length n) && (Z.of_nat (length n) <=? NAME_MAX)%Z && (match utf8 n with Some _ => true | None => false end)
  && negb (existsb (fun b => (b =? 47)%Z || (b =? 0)%Z) n) && negb (bool_decide (n = [46%Z])) && negb (bool_decide (n = [46; 46]%Z)).
Definition entry_valid (e : DEntry) : bool := valid_name (dname e) && (bool_decide (dkind e = File) || bool_decide (codec (dcid e) = DagCbor)).

Definition text_entries : bytes := [101; 110; 116; 114; 105; 101; 115]%Z.

Section encode.
Context {S : Type} `{!Sink S}.
Definition encode_entry (e : DEntry) (o : S) : outcome Error S :=
  o ← head 4 4 o;
  o ← head 3 (Z.of_nat (length (dname e))) o;
  o ← push o (dname e);
  o ← head 0 (kind_code (dkind e)) o;
  o ← head 0 (dsize e) o;
  link (dcid e) o.
Fixpoint encode_entries (entry : nat -> outcome Error DEntry) (ks : list nat) (o : S) : outcome Error S :=
  match ks with
  | [] => Done o
  | k :: ks => e ← entry k; o ← encode_entry e o; encode_entries entry ks o
  end.
Definition encode_with (count : nat) (entry : nat -> outcome Error DEntry) (o : S) : outcome Error S :=
  o ← head 5 2 o;
  o ← text text_v o;
  o ← head 0 VERSION o;
  o ← text text_entries o;
  o ← head 4 (Z.of_nat count) o;
  encode_entries entry (seq 0 count) o.
End encode.

(** [encode], into a block. *)
Fixpoint ascending (es : list DEntry) : bool :=
  match es with
  | [] => true
  | e :: es => match es with [] => true | e' :: _ => before (dname e) (dname e') && ascending es end
  end.
Definition encode (es : list DEntry) : outcome Error bytes :=
  if negb (forallb entry_valid es && ascending es) then Refuse Format else
  let entry k := or_crash (es !! k) in
  n ← encode_with (length es) entry (mkCount 0);
  if (CHUNK <? Z.of_nat (counted n))%Z then Refuse TooLarge else
  o ← encode_with (length es) entry (mkOut (replicate (Z.to_nat CHUNK) 0%Z) 0);
  Done (take (oat o) (obytes o)).

(** [entry]: one entry, its name and link checked. *)
Definition read_entry (i : In) : outcome Error (DEntry * In) :=
  '(n, i) ← expect 4 i;
  if negb (n =? 4)%Z then Refuse Format else
  '(len, i) ← expect 3 i;
  '(name, i) ← take_n len i;
  '(k, i) ← expect 0 i;
  kind ← or_refuse (kind_from_code k) Format;
  '(size, i) ← expect 0 i;
  '(c, i) ← read_link i;
  let e := mkDEntry name kind size c in
  if entry_valid e then Done (e, i) else Refuse Format.

(** The entries by where each one starts ([starts[..count]]). *)
Record Dir : Type := mkDir { dbytes : bytes; starts : list nat }.
Definition dir_at (d : Dir) (start : nat) : outcome Error DEntry :=
  match read_entry (mkIn (dbytes d) start) with Done (e, _) => Done e | _ => Crash end.
Definition dir_entry (d : Dir) (i : nat) : outcome Error DEntry := s ← or_crash (starts d !! i); dir_at d s.

Fixpoint read_entries (n : nat) (i : In) (last : bytes) (acc : list nat) : outcome Error (list nat * In) :=
  match n with
  | O => Done (acc, i)
  | S n =>
      let at_ := Z.to_nat (wrap16 (Z.of_nat (iat i))) in
      '(e, i) ← read_entry i;
      if before last (dname e) then read_entries n i (dname e) (acc ++ [at_]) else Refuse Format
  end.
Definition decode (bs : bytes) : outcome Error Dir :=
  if (CHUNK <? Z.of_nat (length bs))%Z then Refuse TooLarge else
  '(keys, i) ← expect 5 (mkIn bs 0);
  i ← key text_v i;
  '(v, i) ← expect 0 i;
  if negb (v =? VERSION)%Z then Refuse Cbor.Version else
  if negb (keys =? 2)%Z then Refuse Format else
  i ← key text_entries i;
  '(count, i) ← expect 4 i;
  if (ENTRIES <? count)%Z then Refuse Format else
  let count := Z.to_nat count in
  '(starts, i) ← read_entries count i [] [];
  let d := mkDir bs starts in
  if negb (iat i =? length bs) then Refuse Format else
  ok ← canonical (encode_with count (dir_entry d) (mkSame bs 0 true)) bs;
  if (ok : bool) then Done d else Refuse Format.

(** [find]: the standard library's [binary_search_by] over the starts. *)
Fixpoint bisect {E} (fuel : nat) (cmp : nat -> outcome E comparison) (base size : nat) : outcome E nat :=
  match fuel with
  | O => Crash
  | S fuel =>
      if size <=? 1 then Done base else
      let half := Nat.div2 size in
      c ← cmp (base + half);
      bisect fuel cmp (match c with Gt => base | _ => base + half end) (size - half)
  end.
Definition binary_search {E} (n : nat) (cmp : nat -> outcome E comparison) : outcome E (option nat) :=
  if n =? 0 then Done None else
  base ← bisect n cmp 0 n;
  c ← cmp base;
  Done (match c with Eq => Some base | _ => None end).
Definition find (d : Dir) (n : bytes) : outcome Error (option DEntry) :=
  i ← binary_search (length (starts d)) (fun i => e ← dir_entry d i; Done (compare (dname e) n));
  match i with None => Done None | Some i => Some <$> dir_entry d i end.

(** ** The codec *)
Definition entry_image (e : DEntry) : bytes :=
  head_image 4 4 ++ head_image 3 (Z.of_nat (length (dname e))) ++ dname e ++ head_image 0 (kind_code (dkind e)) ++ head_image 0 (dsize e) ++ link_image (dcid e).
Definition dir_image (es : list DEntry) : bytes :=
  head_image 5 2 ++ text_image text_v ++ head_image 0 VERSION ++ text_image text_entries ++ head_image 4 (Z.of_nat (length es)) ++ concat (map entry_image es).
Definition entry_ok (e : DEntry) : Prop := entry_valid e = true /\ (0 <= dsize e < W64)%Z /\ good (dcid e) /\ Forall is_byte (dname e).
Definition dir_valid (es : list DEntry) : Prop := Forall entry_ok es /\ ascending es = true /\ (Z.of_nat (length (dir_image es)) <= CHUNK)%Z.

Section writes.
Context {S : Type} `{!Sink S} `{!SinkLaws S}.
Lemma encode_entry_writes e : writes (S:=S) (encode_entry e) (entry_image e).
Proof. unfold encode_entry, entry_image. repeat (apply writes_bind; [solve [auto with mind]|]). auto with mind. Qed.
Lemma encode_entries_writes entry es k s0 img : (forall i e, es !! i = Some e -> entry (k + i) = Done e) ->
  (o ← push s0 img; encode_entries (S:=S) entry (seq k (length es)) o) = push s0 (img ++ concat (map entry_image es)).
Proof.
  revert k img. induction es as [|e es IH]; intros k img Hk; cbn [length seq encode_entries map concat]; [rewrite app_nil_r; by destruct (push s0 img)|].
  pose proof (Hk 0 e eq_refl) as E. rewrite Nat.add_0_r in E. rewrite E. cbn [mbind outcome_bind]. specialize (IH (Datatypes.S k) (img ++ entry_image e)). rewrite <- push_app in IH. rewrite app_assoc, <- IH; [|intros i x Hx; rewrite Nat.add_succ_comm; by apply Hk].
  destruct (push s0 img) as [s1| |]; cbn [mbind outcome_bind]; [|done|done]. rewrite encode_entry_writes. done.
Qed.
Lemma encode_dir_writes entry es : (forall i e, es !! i = Some e -> entry i = Done e) -> writes (S:=S) (encode_with (length es) entry) (dir_image es).
Proof.
  intros Hk s. set (pre := fun s : S => o ← head 5 2 s; o ← text text_v o; o ← head 0 VERSION o; o ← text text_entries o; head 4 (Z.of_nat (length es)) o).
  assert (encode_with (length es) entry s = (o ← pre s; encode_entries entry (seq 0 (length es)) o)) as ->.
  { unfold encode_with, pre. destruct (head 5 2 s) as [s1| |]; cbn [mbind outcome_bind]; [|done|done]. destruct (text text_v s1) as [s2| |]; cbn [mbind outcome_bind]; [|done|done].
    destruct (head 0 VERSION s2) as [s3| |]; cbn [mbind outcome_bind]; [|done|done]. by destruct (text text_entries s3). }
  assert (writes pre (head_image 5 2 ++ text_image text_v ++ head_image 0 VERSION ++ text_image text_entries ++ head_image 4 (Z.of_nat (length es)))) as Hpre by (unfold pre; repeat (apply writes_bind; [solve [auto with mind]|]); auto with mind).
  rewrite Hpre, encode_entries_writes by done. unfold dir_image. by rewrite <- !app_assoc.
Qed.
End writes.

(** *** Entries *)
Lemma kind_code_back k : kind_from_code (kind_code k) = Some k.
Proof. by destruct k. Qed.
Lemma kind_code_only z k : kind_from_code z = Some k -> z = kind_code k.
Proof. unfold kind_from_code. destruct (Z.eqb_spec z 0) as [->|]; [by intros [= <-]|]. destruct (Z.eqb_spec z 1) as [->|]; [by intros [= <-]|done]. Qed.
Lemma name_bound e : entry_valid e = true -> (1 <= Z.of_nat (length (dname e)) <= 255)%Z.
Proof. unfold entry_valid, valid_name, NAME_MAX. destruct (Nat.leb_spec 1 (length (dname e))); [|done]. destruct (Z.leb_spec (Z.of_nat (length (dname e))) 255); [lia|done]. Qed.
Lemma entry_here bs i e rest : entry_ok e -> here bs i (entry_image e ++ rest) -> read_entry (mkIn bs i) = Done (e, mkIn bs (i + length (entry_image e))) /\ here bs (i + length (entry_image e)) rest.
Proof.
  intros (Hv & Hsz & [Hc Hb] & _) H. pose proof (name_bound e Hv) as Hn. unfold entry_image in *. rewrite <- !app_assoc in H. unfold read_entry.
  destruct (reads_here _ _ _ _ _ _ (reads_expect 4 4 ltac:(lia) ltac:(unfold W64; lia)) H) as [-> H1]; clear H. cbn [mbind outcome_bind]. cbn [Z.eqb Pos.eqb negb].
  destruct (reads_here _ _ _ _ _ _ (reads_expect 3 (Z.of_nat (length (dname e))) ltac:(lia) ltac:(unfold W64; lia)) H1) as [-> H]; clear H1. cbn [mbind outcome_bind].
  destruct (reads_here _ _ _ _ _ _ (reads_take _ (dname e) eq_refl) H) as [-> H1]; clear H. cbn [mbind outcome_bind].
  destruct (reads_here _ _ _ _ _ _ (reads_expect 0 (kind_code (dkind e)) ltac:(lia) ltac:(unfold W64; destruct (dkind e); cbn; lia)) H1) as [-> H]; clear H1. cbn [mbind outcome_bind]. rewrite kind_code_back. cbn [or_refuse mbind outcome_bind].
  destruct (reads_here _ _ _ _ _ _ (reads_expect 0 (dsize e) ltac:(lia) Hsz) H) as [-> H1]; clear H. cbn [mbind outcome_bind].
  destruct (reads_here _ _ _ _ _ _ (reads_link (dcid e) Hc Hb) H1) as [-> H]; clear H1. cbn [mbind outcome_bind]. replace (mkDEntry _ _ _ _) with e by (by destruct e). rewrite Hv.
  rewrite !length_app. rewrite !Nat.add_assoc in *. done.
Qed.
Lemma entry_goes i : Forall is_byte (ibytes i) -> iat i <= length (ibytes i) -> yields (fun x => ibytes x.2 = ibytes i /\ iat i <= iat x.2 <= length (ibytes i) /\ entry_ok x.1) (read_entry i).
Proof.
  intros Hb Hi. set (bs := ibytes i) in *. assert (ibytes i = bs) as E0 by done. clearbody bs. unfold read_entry. step_expect Hb v j E1 L1 V1. case_match; [done|]. step_expect Hb nl j2 E2 L2 V2.
  pose proof (take_goes bs Hb nl j2 E2 ltac:(lia)) as Ht. destruct (take_n nl j2) as [[nm j3]| |]; cbn [yields fst snd] in Ht; [|done|done]. destruct Ht as (E3 & L3 & Hnm). cbn [mbind outcome_bind].
  step_expect Hb k j4 E4 L4 V4. destruct (kind_from_code k) as [kd|]; cbn [or_refuse mbind outcome_bind]; [|done]. step_expect Hb sz j5 E5 L5 V5.
  pose proof (link_forward j5) as Hl. rewrite E5 in Hl. specialize (Hl Hb). unfold forward in Hl. destruct (read_link j5) as [[c j6]| |]; cbn [yields fst snd] in Hl; [|done|done]. destruct Hl as (E6 & L6 & _ & Hc & Hd & _). cbn [mbind outcome_bind].
  rewrite E5 in *. destruct (entry_valid _) eqn:Ev; [|done]. cbn [yields fst snd]. split; [done|]. split; [lia|]. split; [done|]. split; [done|]. split; [done|]. cbn [dname]. rewrite Hnm. by apply forall_slice.
Qed.

(** *** Directories *)
(** The place of each entry in the image, from [i] on. *)
Fixpoint places (i : nat) (es : list DEntry) : list nat := match es with [] => [] | e :: es => i :: places (i + length (entry_image e)) es end.
Lemma length_places i es : length (places i es) = length es.
Proof. revert i. induction es as [|e es IH]; intros i; cbn; [done|]. by rewrite IH. Qed.
Lemma link_length e : entry_ok e -> LINK <= length (entry_image e).
Proof. intros (_ & _ & [Hc _] & _). unfold entry_image. rewrite !length_app, length_link by done. lia. Qed.
Lemma entry_length e : entry_ok e -> (ENTRY_MIN <= Z.of_nat (length (entry_image e)))%Z.
Proof.
  intros (Hv & Hs & [Hc _] & _). pose proof (name_bound e Hv). unfold entry_image. rewrite !length_app, length_link by done. pose proof (length_head 4 4). pose proof (length_head 3 (Z.of_nat (length (dname e)))).
  pose proof (length_head 0 (kind_code (dkind e))). pose proof (length_head 0 (dsize e)). unfold ENTRY_MIN. lia.
Qed.
Lemma ascending_tail e es : ascending (e :: es) = true -> ascending es = true.
Proof. cbn. destruct es; [done|]. by intros [_ ?]%andb_true_iff. Qed.
Lemma wrap16_small n : (Z.of_nat n <= CHUNK)%Z -> Z.to_nat (wrap16 (Z.of_nat n)) = n.
Proof. intros H. unfold wrap16, W16. rewrite Z.mod_small by (unfold CHUNK in H; lia). lia. Qed.

Lemma read_entries_here bs i es last acc rest : (Z.of_nat (length bs) <= CHUNK)%Z -> Forall entry_ok es -> ascending es = true -> (match es with [] => true | e :: _ => before last (dname e) end) = true ->
  here bs i (concat (map entry_image es) ++ rest) ->
  exists j, read_entries (length es) (mkIn bs i) last acc = Done (acc ++ places i es, mkIn bs j) /\ here bs j rest /\ forall k e, es !! k = Some e -> exists s, places i es !! k = Some s /\ read_entry (mkIn bs s) = Done (e, mkIn bs (s + length (entry_image e))).
Proof.
  intros Hch Hok. revert i last acc. induction Hok as [|e es He Hes IH]; intros i last acc Hasc Hl H; cbn [length read_entries map concat places] in *.
  - exists i. rewrite app_nil_r. done.
  - rewrite <- app_assoc in H. pose proof H as (Hi & _ & _). destruct (entry_here bs i e _ He H) as [E H2]. rewrite E. cbn [mbind outcome_bind iat]. rewrite wrap16_small by lia. rewrite Hl.
    destruct (IH (i + length (entry_image e)) (dname e) (acc ++ [i]) (ascending_tail _ _ Hasc)) as (j & E2 & H3 & H4); [|done|].
    { cbn in Hasc. destruct es as [|e' es]; [done|]. by apply andb_true_iff in Hasc as [? _]. }
    exists j. rewrite E2, <- app_assoc. split_and!; [done|done|]. intros [|k] x Hx; cbn in Hx |- *; [injection Hx as <-; eauto|eauto].
Qed.

Lemma decode_dir_image es : dir_valid es -> exists d, decode (dir_image es) = Done d /\ length (starts d) = length es /\ forall k e, es !! k = Some e -> dir_entry d k = Done e.
Proof.
  intros (Hok & Hasc & Hlen). assert (here (dir_image es) 0 (dir_image es)) as H by (split_and!; [lia|done|unfold W64, CHUNK in *; lia]). unfold decode. destruct (Z.ltb_spec CHUNK (Z.of_nat (length (dir_image es)))) as [Hx|_]; [lia|].
  set (bs := dir_image es) in *. remember bs as b eqn:Eb in H at 2. rewrite Eb in H. unfold bs in H at 2. unfold dir_image in H. clear Eb b.
  destruct (reads_here _ _ _ _ _ _ (reads_expect 5 2 ltac:(lia) ltac:(unfold W64; lia)) H) as [-> H1]; clear H. cbn [mbind outcome_bind].
  destruct (key_here text_v _ _ _ ltac:(done) H1) as [-> H2]; clear H1. cbn [mbind outcome_bind].
  destruct (reads_here _ _ _ _ _ _ (reads_expect 0 VERSION ltac:(lia) ltac:(unfold W64, VERSION; lia)) H2) as [-> H1]; clear H2. cbn [mbind outcome_bind]. rewrite Z.eqb_refl. cbn [negb Z.eqb Pos.eqb].
  destruct (key_here text_entries _ _ _ ltac:(done) H1) as [-> H2]; clear H1. cbn [mbind outcome_bind].
  assert (Z.of_nat (length es) <= ENTRIES)%Z as Hn.
  { assert (ENTRY_MIN * Z.of_nat (length es) <= Z.of_nat (length (concat (map entry_image es))))%Z as Hsum. { clear - Hok. induction Hok as [|e es He _ IH]; [cbn; lia|]. cbn [map concat length]. rewrite length_app. pose proof (entry_length e He). lia. }
    assert (length (concat (map entry_image es)) <= length bs) by (subst bs; unfold dir_image; rewrite !length_app; lia). unfold ENTRIES. apply Z.div_le_lower_bound; [unfold ENTRY_MIN; lia|]. lia. }
  assert (ENTRIES < W64)%Z as He by (vm_compute; done).
  destruct (reads_here _ _ _ _ _ _ (reads_expect 4 (Z.of_nat (length es)) ltac:(lia) ltac:(lia)) H2) as [-> H1]; clear H2. cbn [mbind outcome_bind]. destruct (Z.ltb_spec ENTRIES (Z.of_nat (length es))); [lia|]. rewrite Nat2Z.id.
  rewrite <- (app_nil_r (concat (map entry_image es))) in H1. match goal with |- context [read_entries _ (mkIn _ ?k)] => set (start := k) in * end. clearbody start.
  assert ((match es with [] => true | e :: _ => before [] (dname e) end) = true) as Hfirst. { destruct Hok as [|e es (Hv & _) _]; [done|]. pose proof (name_bound e Hv) as Hb. unfold before. destruct (dname e); [cbn in Hb; lia|done]. }
  destruct (read_entries_here bs start es [] [] [] Hlen Hok Hasc Hfirst H1) as (j & -> & (Hj & Hd & _) & Hpl). cbn [mbind outcome_bind iat app]. set (d := mkDir bs (places start es)).
  assert (j = length bs) as -> by (apply (f_equal length) in Hd; rewrite length_drop in Hd; cbn [length] in Hd; lia). rewrite Nat.eqb_refl. cbn [negb].
  assert (forall k e, es !! k = Some e -> dir_entry d k = Done e) as Hde. { intros k e Hk. destruct (Hpl k e Hk) as (s & Hs & Hr). unfold dir_entry, d. cbn [starts]. rewrite Hs. cbn [or_crash mbind outcome_bind]. unfold dir_at. cbn [dbytes]. by rewrite Hr. }
  rewrite (encode_dir_writes (dir_entry d) es Hde), canonical_iff. cbn [mbind outcome_bind]. rewrite bool_decide_true by done. exists d. split_and!; [done|apply length_places|done].
Qed.

Lemma read_entries_spec bs n i last acc : Forall is_byte bs -> (Z.of_nat (length bs) <= CHUNK)%Z -> ibytes i = bs -> iat i <= length bs ->
  yields (fun x => ibytes x.2 = bs /\ exists es, length es = n /\ Forall entry_ok es /\ ascending es = true /\ (match es with [] => true | e :: _ => before last (dname e) end) = true /\
    exists ss, x.1 = acc ++ ss /\ length ss = n /\ forall k e, es !! k = Some e -> exists s, ss !! k = Some s /\ dir_at (mkDir bs (acc ++ ss)) s = Done e) (read_entries n i last acc).
Proof.
  intros Hb Hch. revert i last acc. induction n as [|n IH]; intros i last acc Ei Hi; cbn [read_entries].
  - cbn [yields fst snd]. split; [done|]. exists []. split_and!; [done|constructor|done|done|]. exists []. split_and!; [by rewrite app_nil_r|done|]. intros k e Hk. by rewrite lookup_nil in Hk.
  - pose proof (entry_goes i) as He. rewrite Ei in He. specialize (He Hb Hi). destruct (read_entry i) as [[e j]| |] eqn:Er; cbn [yields fst snd] in He; [|done|done]. destruct He as (Ej & Hj & Hok). cbn [mbind outcome_bind]. rewrite wrap16_small by lia.
    destruct (before last (dname e)) eqn:Hbf; [|done]. specialize (IH j (dname e) (acc ++ [iat i]) Ej ltac:(lia)). destruct (read_entries n j (dname e) (acc ++ [iat i])) as [[st k]| |]; cbn [yields fst snd] in *; [|done|done].
    destruct IH as (Ek & es & Hl & Hes & Hasc & Hfirst & ss & Hss & Hls & Hat). split; [done|]. exists (e :: es). split_and!; [cbn; lia|by constructor| |done|].
    + cbn [ascending]. destruct es as [|e' es]; [done|]. by rewrite Hfirst, Hasc.
    + exists (iat i :: ss). rewrite Hss, <- app_assoc. split_and!; [done|cbn; lia|]. intros [|m] x Hx; cbn in Hx |- *.
      * injection Hx as <-. exists (iat i). split; [done|]. unfold dir_at. cbn [dbytes]. destruct i as [ib ia]. cbn in Ei. subst ib. cbn [iat]. by rewrite Er.
      * destruct (Hat m x Hx) as (s & Hs & Hd). exists s. split; [done|]. unfold dir_at in *. done.
Qed.
Lemma decode_dir_only bs : Forall is_byte bs -> yields (fun d => exists es, dir_valid es /\ bs = dir_image es /\ length (starts d) = length es /\ forall k e, es !! k = Some e -> dir_entry d k = Done e) (decode bs).
Proof.
  intros Hb. unfold decode. destruct (Z.ltb_spec CHUNK (Z.of_nat (length bs))); [done|]. step_expect Hb v j E L V. step_key Hb j0 E0 L0. step_expect Hb v0 j1 E1 L1 V1. case_match; [done|]. case_match; [done|].
  step_key Hb j2 E2 L2. step_expect Hb v1 j3 E3 L3 V3. destruct (Z.ltb_spec ENTRIES v1); [done|]. pose proof (read_entries_spec bs (Z.to_nat v1) j3 [] [] Hb ltac:(lia) E3 ltac:(lia)) as Hr.
  destruct (read_entries (Z.to_nat v1) j3 [] []) as [[st k]| |]; cbn [yields fst snd] in Hr; [|done|done]. destruct Hr as (Ek & es & Hl & Hes & Hasc & _ & ss & Hss & Hls & Hat). cbn [app] in Hss. subst st. cbn [mbind outcome_bind].
  destruct (negb (iat k =? length bs)); [done|]. assert (forall k e, es !! k = Some e -> dir_entry (mkDir bs ss) k = Done e) as Hde.
  { intros m e Hm. destruct (Hat m e Hm) as (s & Hs & Hd). unfold dir_entry. cbn [starts]. rewrite Hs. exact Hd. }
  rewrite <- Hl, (encode_dir_writes (dir_entry (mkDir bs ss)) es Hde), canonical_iff. cbn [mbind outcome_bind]. case_bool_decide as Hbs; [|done]. cbn [yields]. exists es. split; [split_and!; [done|done|by rewrite Hbs]|]. split_and!; [done|cbn [starts]; lia|done].
Qed.

Lemma push_count img : push (mkCount 0) img = Done (E:=Error) (mkCount (length img)).
Proof. done. Qed.
Lemma push_out n img : length img <= n -> (o ← push (mkOut (replicate n 0%Z) 0) img; Done (take (oat o) (obytes o))) = Done (E:=Error) img.
Proof. intros H. unfold push, out_sink. cbn [oat obytes]. rewrite length_replicate. destruct (Nat.leb_spec (0 + length img) n); [|lia]. cbn [mbind outcome_bind oat obytes]. rewrite take_0, Nat.add_0_l. cbn [app]. by rewrite take_app_length. Qed.
(** The fields of an entry a caller can give: a size of 64 bits, a CID of 32 bytes, a name of bytes. *)
Definition entry_typed (e : DEntry) : Prop := (0 <= dsize e < W64)%Z /\ good (dcid e) /\ Forall is_byte (dname e).
Lemma encode_dir_iff es bs : Forall entry_typed es -> encode es = Done bs <-> dir_valid es /\ bs = dir_image es.
Proof.
  intros Hes. assert (forall k e, es !! k = Some e -> or_crash (E:=Error) (es !! k) = Done e) as Hk by (intros k e ->; done). unfold encode, dir_valid.
  rewrite (encode_dir_writes _ es Hk (mkCount 0)), (encode_dir_writes _ es Hk (mkOut _ 0)), push_count. cbn [mbind outcome_bind counted].
  assert (forallb entry_valid es = true <-> Forall entry_ok es) as Hf.
  { rewrite forallb_forall, Forall_forall. rewrite Forall_forall in Hes. split; intros H e He.
    - split; [apply H; by apply list_elem_of_In|by apply Hes].
    - apply (H e). by apply list_elem_of_In. }
  destruct (forallb entry_valid es); cbn [andb negb]; [|split; [done|]; intros [(H1 & _ & _) _]; by apply Hf in H1].
  destruct (ascending es); cbn [negb]; [|split; [done|]; by intros [(_ & ? & _) _]].
  destruct (Z.ltb_spec CHUNK (Z.of_nat (length (dir_image es)))) as [Hl|Hl]; [split; [done|]; intros [(_ & _ & ?) _]; lia|].
  rewrite (push_out (Z.to_nat CHUNK) (dir_image es)) by lia. split; [intros [= <-]|intros [_ ->]; done]. split; [|done]. split_and!; [by apply Hf|done|lia].
Qed.

(** a directory has one encoding. Decoding never panics; it gives the entries of, and only of, what [encode] writes for
    entries with valid names in order, within a block. *)
Theorem dir_canonical bs : Forall is_byte bs -> safe (decode bs) /\ forall es, Forall entry_typed es ->
  (encode es = Done bs <-> exists d, decode bs = Done d /\ length (starts d) = length es /\ forall k e, es !! k = Some e -> dir_entry d k = Done e).
Proof.
  intros Hb. pose proof (decode_dir_only bs Hb) as H. apply yields_iff in H as [Hs H]. split; [done|]. intros es Hes. rewrite encode_dir_iff by done. split.
  - intros [Hv ->]. by apply decode_dir_image.
  - intros (d & (es' & Hv & -> & Hl & Hd')%H & Hl2 & Hd). assert (es = es') as ->; [|done]. apply list_eq. intros k. destruct (es !! k) as [e|] eqn:Ek.
    + destruct (lookup_lt_is_Some_2 es' k) as [e' Ek']; [apply lookup_lt_Some in Ek; lia|]. rewrite Ek'. pose proof (Hd k e Ek) as X. rewrite (Hd' k e' Ek') in X. congruence.
    + symmetry. apply lookup_ge_None in Ek. apply lookup_ge_None. lia.
Qed.
Definition demo_dir : bytes := Eval vm_compute in dir_image [mkDEntry [97%Z] File 5 demo_cid; mkDEntry [98%Z] Directory 0 demo_cid].
Lemma dir_canonical_witness : encode [mkDEntry [97%Z] File 5 demo_cid; mkDEntry [98%Z] Directory 0 demo_cid] = Done demo_dir.
Proof.
  apply (proj2 (dir_canonical demo_dir ltac:(unfold demo_dir, is_byte; repeat (constructor; [split; [discriminate|reflexivity]|]); constructor))).
  - repeat constructor; try discriminate.
  - exists (mkDir demo_dir [13; 59]). split_and!; [reflexivity|reflexivity|]. intros [|[|k]] e [= <-]; reflexivity.
Defined.

(** ** The search *)
Lemma compare_eq a b : compare a b = Eq <-> a = b.
Proof.
  revert b. induction a as [|x a IH]; intros [|y b]; cbn; try done. destruct (Z.compare_spec x y) as [->|H|H].
  - rewrite IH. split; [by intros ->|by intros [= ->]].
  - split; [done|]. intros [= ->]. lia.
  - split; [done|]. intros [= ->]. lia.
Qed.
Lemma compare_flip a b : compare b a = CompOpp (compare a b).
Proof. revert b. induction a as [|x a IH]; intros [|y b]; cbn; [done|done|done|]. rewrite (Z.compare_antisym x y). destruct (x ?= y)%Z; cbn; [apply IH|done|done]. Qed.
Lemma compare_trans a b c : compare a b = Lt -> compare b c = Lt -> compare a c = Lt.
Proof.
  revert b c. induction a as [|x a IH]; intros [|y b] [|z c]; cbn; try done.
  destruct (Z.compare_spec x y) as [->|H|H]; [|intros _; destruct (Z.compare_spec y z) as [<-|H2|H2]|done].
  - destruct (y ?= z)%Z; [apply IH|done|done].
  - intros _. by apply Z.compare_lt_iff in H as ->.
  - intros _. by assert (x ?= z = Lt)%Z as -> by (apply Z.compare_lt_iff; lia).
  - done.
Qed.
Lemma before_trans a b c : before a b = true -> before b c = true -> before a c = true.
Proof. unfold before. destruct (compare a b) eqn:E1; try done. destruct (compare b c) eqn:E2; try done. by rewrite (compare_trans a b c). Qed.
Lemma ascending_lookup es i j x y : ascending es = true -> i < j -> es !! i = Some x -> es !! j = Some y -> before (dname x) (dname y) = true.
Proof.
  intros Ha Hij Hi Hj. revert i y Hij Hi Hj. induction j as [|j IH]; intros i y Hij Hi Hj; [lia|].
  assert (exists z, es !! j = Some z) as [z Hz] by (apply lookup_lt_is_Some_2; apply lookup_lt_Some in Hj; lia).
  assert (before (dname z) (dname y) = true) as Hzy.
  { clear - Ha Hz Hj. revert j Hz Hj. induction es as [|e es IH]; intros j Hz Hj; [done|]. destruct j as [|j]; cbn in Hz, Hj; [|apply (IH (ascending_tail _ _ Ha) j Hz Hj)].
    injection Hz as ->. destruct es as [|e' es]; [done|]. cbn in Hj. injection Hj as ->. cbn in Ha. by apply andb_true_iff in Ha as [? _]. }
  destruct (decide (i = j)) as [->|Hne]; [congruence|]. apply (before_trans _ (dname z)); [apply (IH i); [lia|done|done]|done].
Qed.

Section bisect.
Context {E : Type} (n : nat) (c : nat -> comparison) (cmp : nat -> outcome E comparison) (Hcmp : forall i, i < n -> cmp i = Done (c i)).
Context (Hmono : forall i j, i < j < n -> c j <> Gt -> c i = Lt).
Lemma bisect_spec fuel base size : 1 <= size <= fuel -> base + size <= n -> (forall k, k < base -> c k = Lt) -> (forall k, base + size <= k < n -> c k = Gt) ->
  exists b, bisect fuel cmp base size = Done b /\ b < n /\ (forall k, k < b -> c k = Lt) /\ (forall k, b < k < n -> c k = Gt).
Proof using Hcmp Hmono.
  revert base size. induction fuel as [|fuel IH]; intros base size Hf Hn Hl Hg; [lia|]. cbn [bisect]. destruct (Nat.leb_spec size 1).
  - exists base. split_and!; [done|lia|done|]. intros k Hk. apply Hg. lia.
  - assert (1 <= Nat.div2 size < size) as Hh. { rewrite Nat.div2_div. split; [apply Nat.div_le_lower_bound; lia|apply Nat.div_lt; lia]. }
    rewrite Hcmp by lia. cbn [mbind outcome_bind]. destruct (c (base + Nat.div2 size)) eqn:Em; apply IH; try lia; intros k Hk; try (by apply Hl).
    + apply (Hmono k (base + Nat.div2 size)); [lia|by rewrite Em].
    + apply Hg. lia.
    + apply (Hmono k (base + Nat.div2 size)); [lia|by rewrite Em].
    + apply Hg. lia.
    + destruct (c k) eqn:Ek; [| |done]; exfalso; (destruct (decide (k = base + Nat.div2 size)) as [->|]; [congruence|]); assert (c (base + Nat.div2 size) = Lt) by (apply (Hmono _ k); [lia|by rewrite Ek]); congruence.
Qed.
(** The search answers every order it asks of, and finds the one equal place when there is one. *)
Lemma binary_search_spec : exists r, binary_search n cmp = Done r /\ (forall k, r = Some k -> k < n) /\ forall k, k < n -> c k = Eq <-> r = Some k.
Proof using Hcmp Hmono.
  unfold binary_search. destruct (Nat.eqb_spec n 0) as [->|Hn]; [exists None; split_and!; [done|done|lia]|]. destruct (bisect_spec n 0 n) as (b & -> & Hb & Hl & Hg); [lia|lia|lia|lia|].
  cbn [mbind outcome_bind]. rewrite Hcmp by lia. cbn [mbind outcome_bind]. eexists. split; [done|]. split; [intros k; destruct (c b); [intros [= <-]; lia|done|done]|]. intros k Hk.
  destruct (Nat.lt_trichotomy k b) as [Hx|[->|Hx]].
  - rewrite (Hl k Hx). split; [done|]. destruct (c b); [|done|done]. intros [= ->]. lia.
  - destruct (c b); split; congruence.
  - rewrite (Hg k ltac:(lia)). split; [done|]. destruct (c b); [|done|done]. intros [= ->]. lia.
Qed.
End bisect.

(** a directory that decodes answers every name: [find] gives the entry of that name exactly when the directory has one, in its
    own order of search and without a panic. *)
Theorem find_exact bs d n : Forall is_byte bs -> decode bs = Done d -> exists es, dir_valid es /\ bs = dir_image es /\
  exists r, find d n = Done r /\ forall e, r = Some e <-> e ∈ es /\ dname e = n.
Proof.
  intros Hb Hd. pose proof (decode_dir_only bs Hb) as H. rewrite Hd in H. cbn [yields] in H. destruct H as (es & Hv & -> & Hl & He). exists es. split_and!; [done|done|]. pose proof Hv as (_ & Hasc & _).
  pose (c := fun i => match es !! i with Some e => compare (dname e) n | None => Eq end). unfold find.
  destruct (binary_search_spec (length (starts d)) c (fun i => e ← dir_entry d i; Done (compare (dname e) n))) as (r & -> & Hr & Hc).
  - intros i Hi. destruct (lookup_lt_is_Some_2 es i) as [e Hx]; [lia|]. rewrite (He i e Hx). unfold c. by rewrite Hx.
  - intros i j Hij. unfold c. destruct (lookup_lt_is_Some_2 es i) as [x Hx]; [lia|]. destruct (lookup_lt_is_Some_2 es j) as [y Hy]; [lia|]. rewrite Hx, Hy. pose proof (ascending_lookup es i j x y Hasc ltac:(lia) Hx Hy) as Hlt.
    unfold before in Hlt. destruct (compare (dname x) (dname y)) eqn:E; [done| |done]. destruct (compare (dname y) n) eqn:E2; [|by intros _; apply (compare_trans _ (dname y))|done]. apply compare_eq in E2. by rewrite <- E2.
  - cbn [mbind outcome_bind]. assert (forall e k, es !! k = Some e -> dname e = n <-> r = Some k) as Hk.
    { intros e k Hk. rewrite <- Hc by (apply lookup_lt_Some in Hk; lia). unfold c. rewrite Hk. by rewrite compare_eq. }
    destruct r as [i|].
    + destruct (lookup_lt_is_Some_2 es i) as [e Hi]; [specialize (Hr i eq_refl); lia|]. rewrite (He i e Hi). cbn [fmap outcome_fmap]. exists (Some e). split; [done|]. intros e'. split.
      * intros [= <-]. split; [by apply list_elem_of_lookup_2 in Hi|by apply (Hk e i)].
      * intros [[k Hx]%list_elem_of_lookup Hn]. apply (Hk e' k Hx) in Hn. congruence.
    + exists None. split; [done|]. intros e'. split; [done|]. intros [[k Hx]%list_elem_of_lookup Hn]. by apply (Hk e' k Hx) in Hn.
Qed.
Lemma find_exact_witness : exists es, dir_valid es /\ demo_dir = dir_image es /\ exists r, find (mkDir demo_dir [13; 59]) [98%Z] = Done r /\ forall e, r = Some e <-> e ∈ es /\ dname e = [98%Z].
Proof.
  apply (find_exact demo_dir (mkDir demo_dir [13; 59]) [98%Z]).
  - unfold demo_dir, is_byte. repeat (constructor; [split; [discriminate|reflexivity]|]). constructor.
  - reflexivity.
Defined.
