(* ===== verification/Journal.v ===== *)
(** * The journal ([libmind/src/journal.rs])

    An append-only log as a chain of DAG-CBOR blocks, published under a name by compare-and-swap. The theorems: an entry has one
    encoding; whatever a store answers, what a check accepts is a chain from the head down to the first entry with its times in
    order; and however writers interleave, an append keeps the journal, so a check of it refuses only where the store fails. *)
From S2P Require Import Prelude Outcome Text Sha256 Cid Cbor Dag.
Local Open Scope nat_scope.

Definition VERSION : Z := 1.
Definition LABEL : nat := 32.
Definition MAX : nat := 1 + (2 + 1) + (4 + 9) + (5 + 9) + (5 + 2 + LABEL) + (5 + LINK) + (6 + 1) + (7 + 2 + LABEL) + (8 + LINK) + (9 + 9) + (10 + 9).

(** A label: its length and its bytes, zero from there on; [as_str] of one made by [label_new] is its text. *)
Record Label : Type := mkLabel { llen : nat; lbytes : bytes }.
#[global] Instance label_eq : EqDecision Label.
Proof. solve_decision. Defined.
Definition label_new (t : bytes) : option Label :=
  if (length t =? 0) || (LABEL <? length t) || negb (forallb (fun c => (0x21 <=? c) && (c <? 0x7f))%Z t) then None
  else Some (mkLabel (length t) (t ++ replicate (LABEL - length t) 0%Z)).
Definition as_str (l : Label) : bytes := let t := take (llen l) (lbytes l) in match utf8 t with Some _ => t | None => [] end.

Inductive Clock : Type := NoClock | Chip | Network.
#[global] Instance clock_eq : EqDecision Clock.
Proof. solve_decision. Defined.
Definition clock_code (c : Clock) : Z := match c with NoClock => 0 | Chip => 1 | Network => 2 end.
Definition clock_from_code (z : Z) : option Clock := if (z =? 0)%Z then Some NoClock else if (z =? 1)%Z then Some Chip else if (z =? 2)%Z then Some Network else None.

Record Time : Type := mkTime { boot : Z; monotonic : Z; calendar : Z; clock : Clock }.
Record Entry : Type := mkEntry { seq_no : Z; time : Time; source : Label; kind : Label; content : Cid; prev : option Cid }.

Definition valid (e : Entry) : bool :=
  (1 <=? seq_no e)%Z && Bool.eqb (bool_decide (is_Some (prev e))) (1 <? seq_no e)%Z
  && (match prev e with None => true | Some p => bool_decide (codec p = DagCbor) end)
  && (bool_decide (clock (time e) <> NoClock) || (calendar (time e) =? 0)%Z).

Definition text_seq : bytes := [115; 101; 113]%Z.
Definition text_boot : bytes := [98; 111; 111; 116]%Z.
Definition text_kind : bytes := [107; 105; 110; 100]%Z.
Definition text_prev : bytes := [112; 114; 101; 118]%Z.
Definition text_clock : bytes := [99; 108; 111; 99; 107]%Z.
Definition text_source : bytes := [115; 111; 117; 114; 99; 101]%Z.
Definition text_content : bytes := [99; 111; 110; 116; 101; 110; 116]%Z.
Definition text_calendar : bytes := [99; 97; 108; 101; 110; 100; 97; 114]%Z.
Definition text_monotonic : bytes := [109; 111; 110; 111; 116; 111; 110; 105; 99]%Z.

Section encode.
Context {S : Type} `{!Sink S}.
Definition encode_prev (p : option Cid) (o : S) : outcome Error S :=
  match p with None => Done o | Some p => o ← text text_prev o; link p o end.
Definition encode_with (e : Entry) (o : S) : outcome Error S :=
  o ← head 5 (match prev e with Some _ => 10 | None => 9 end) o;
  o ← text text_v o;
  o ← head 0 VERSION o;
  o ← text text_seq o;
  o ← head 0 (seq_no e) o;
  o ← text text_boot o;
  o ← head 0 (boot (time e)) o;
  o ← text text_kind o;
  o ← text (as_str (kind e)) o;
  o ← encode_prev (prev e) o;
  o ← text text_clock o;
  o ← head 0 (clock_code (clock (time e))) o;
  o ← text text_source o;
  o ← text (as_str (source e)) o;
  o ← text text_content o;
  o ← link (content e) o;
  o ← text text_calendar o;
  o ← head 0 (calendar (time e)) o;
  o ← text text_monotonic o;
  head 0 (monotonic (time e)) o.
End encode.
(** [Entry::encode], into a buffer of [room] bytes. *)
Definition encode (e : Entry) (room : nat) : outcome Error bytes :=
  if negb (valid e) then Refuse Format else
  o ← encode_with e (mkOut (replicate room 0%Z) 0);
  Done (take (oat o) (obytes o)).

Definition label (i : In) : outcome Error (Label * In) :=
  '(n, i) ← expect 3 i;
  '(t, i) ← take_n n i;
  l ← or_refuse (_ ← utf8 t; label_new t) Format;
  Done (l, i).
Definition decode_prev (keys : Z) (i : In) : outcome Error (option Cid * In) :=
  if (keys =? 10)%Z then i ← key text_prev i; '(c, i) ← read_link i; Done (Some c, i) else Done (None, i).
Definition decode (bs : bytes) : outcome Error Entry :=
  '(keys, i) ← expect 5 (mkIn bs 0);
  i ← key text_v i;
  '(v, i) ← expect 0 i;
  if negb (v =? VERSION)%Z then Refuse Cbor.Version else
  if negb (keys =? 9)%Z && negb (keys =? 10)%Z then Refuse Format else
  i ← key text_seq i;
  '(sq, i) ← expect 0 i;
  i ← key text_boot i;
  '(bt, i) ← expect 0 i;
  i ← key text_kind i;
  '(kd, i) ← label i;
  '(pv, i) ← decode_prev keys i;
  i ← key text_clock i;
  '(c, i) ← expect 0 i;
  ck ← or_refuse (clock_from_code c) Format;
  i ← key text_source i;
  '(sc, i) ← label i;
  i ← key text_content i;
  '(ct, i) ← read_link i;
  i ← key text_calendar i;
  '(cal, i) ← expect 0 i;
  i ← key text_monotonic i;
  '(mono, i) ← expect 0 i;
  let e := mkEntry sq (mkTime bt mono cal ck) sc kd ct pv in
  if negb (iat i =? length bs) || negb (valid e) then Refuse Format else
  ok ← canonical (encode_with e (mkSame bs 0 true)) bs;
  if (ok : bool) then Done e else Refuse Format.

(** ** The store and the journal *)
Inductive JError : Type :=
  | EStore | ENotFound | ERemoved (version : Z) | EConflict | EMissing | ECorrupt | EFormat | EVersion | ESequence (seq : Z) | ETime | EInvalid | ETooLarge.
(** [get] copies a block into a buffer of [room] bytes; a name's head is its version and root. *)
Class Store (B : Type) : Type := {
  sput : bytes -> STE JError B Cid;
  sget : Cid -> Z -> STE JError B bytes;
  shead : bytes -> STE JError B (Z * option Cid);
  spublish : bytes -> Z -> Cid -> STE JError B Z
}.

Record Reading : Type := mkReading { r_monotonic : Z; r_calendar : Z; r_clock : Clock }.
Record Appended : Type := mkAppended { a_entry : Entry; a_cid : Cid }.
Record Checked : Type := mkChecked { version : Z; entries : Z; first : Z; last : Z }.
Record Refused : Type := mkRefused { error : JError; at_version : Z; at_seq : Z; checked : Z }.
Definition map_err {E E' A} (f : E -> E') (o : outcome E A) : outcome E' A := match o with Done a => Done a | Refuse e => Refuse (f e) | Crash => Crash end.
Definition plus {E} (a b : Z) : outcome E Z := or_crash (checked_add a b).

Section journal.
Context {B : Type} `{!Store B}.
Definition entry (c : Cid) : STE JError B Entry :=
  bs ← sget c CHUNK;
  if (CHUNK <? Z.of_nat (length bs))%Z then lift Crash else
  if negb (matches c bs) then fail ECorrupt else
  if negb (bool_decide (codec c = DagCbor)) then fail EFormat else
  lift (map_err (fun e => match e with Cbor.Version => EVersion | _ => EFormat end) (decode bs)).

Definition next_boot (e : Entry) (now : Reading) : outcome JError Z :=
  if (r_monotonic now <? monotonic (time e))%Z then or_refuse (checked_add (boot (time e)) 1) ETime else Done (boot (time e)).
Definition append (name : bytes) (now : Reading) (src knd : bytes) (ct : Cid) : STE JError B Appended :=
  src ← lift (or_refuse (label_new src) EInvalid);
  knd ← lift (or_refuse (label_new knd) EInvalid);
  '(ver, root) ← shead name;
  '(bt, pv) ← (match root with
    | None => if (0 <? ver)%Z then fail (ERemoved ver) else mret (1%Z, None)
    | Some h =>
        e ← entry h;
        if negb (seq_no e =? ver)%Z then fail (ESequence (seq_no e)) else
        b ← lift (next_boot e now);
        mret (b, Some h)
    end);
  sq ← lift (plus ver 1);
  let e := mkEntry sq (mkTime bt (r_monotonic now) (r_calendar now) (r_clock now)) src knd ct pv in
  bs ← lift (map_err (fun _ => EInvalid) (encode e (Z.to_nat CHUNK)));
  c ← sput bs;
  if negb (bool_decide (c = of_data DagCbor bs)) then fail ECorrupt else
  _ ← spublish name ver c;
  mret (mkAppended e c).

(** The readers run over the store and what their caller's [each] keeps. *)
Context {H : Type}.
Definition on_store {A} (f : JError -> Refused) (m : STE JError B A) : STE Refused (B * H) A := fun '(s, h) => let '(o, s) := m s in (map_err f o, (s, h)).
Definition tell (each : Entry -> Cid -> B * H -> B * H) (e : Entry) (c : Cid) : STE Refused (B * H) unit := fun sh => (Done tt, each e c sh).
Definition goes_back (after : option Time) (t : Time) : bool :=
  match after with None => false | Some a => (boot a <? boot t)%Z || ((boot t =? boot a)%Z && (monotonic a <? monotonic t)%Z) end.
Fixpoint down_loop (fuel : nat) (each : Entry -> Cid -> B * H -> B * H) (most ver ents fst_ : Z) (c : Cid) (after : option Time) : STE Refused (B * H) Checked :=
  match fuel with
  | O => lift Crash
  | S fuel =>
      if negb (ents <? most)%Z then mret (mkChecked ver ents fst_ ver) else
      at_ ← lift (minus ver ents);
      let refused err := mkRefused err ver at_ ents in
      e ← on_store refused (entry c);
      if negb (seq_no e =? at_)%Z then fail (refused (ESequence (seq_no e))) else
      if goes_back after (time e) then fail (refused ETime) else
      _ ← tell each e c;
      let ents := (ents + 1)%Z in
      match prev e with
      | None => mret (mkChecked ver ents (seq_no e) ver)
      | Some p => down_loop fuel each most ver ents (seq_no e) p (Some (time e))
      end
  end.
Definition down (name : bytes) (most : Z) (each : Entry -> Cid -> B * H -> B * H) : STE Refused (B * H) Checked :=
  '(ver, root) ← on_store (fun e => mkRefused e 0 0 0) (shead name);
  match root with
  | None => fail (mkRefused (if (ver =? 0)%Z then ENotFound else ERemoved ver) ver ver 0)
  | Some c =>
      f ← lift (plus ver 1);
      down_loop (S (Z.to_nat (Z.min most ver))) each most ver 0 f c None
  end.
Definition check_each (name : bytes) (steps : Z) (each : Entry -> Cid -> B * H -> B * H) : STE Refused (B * H) Checked :=
  d ← down name steps each;
  if negb (first d =? 1)%Z then
    a ← lift (minus (first d) 1);
    fail (mkRefused ETooLarge (version d) a (entries d))
  else mret d.
Definition list_last (name : bytes) (most : Z) (each : Entry -> Cid -> B * H -> B * H) : STE Refused (B * H) Checked := down name most each.
End journal.
Definition check {B} `{!Store B} (name : bytes) (steps : Z) : STE Refused (B * unit) Checked := check_each name steps (fun _ _ x => x).

(** ** The codec *)
Definition prev_image (p : option Cid) : bytes := match p with None => [] | Some p => text_image text_prev ++ link_image p end.
Definition entry_image (e : Entry) : bytes :=
  head_image 5 (match prev e with Some _ => 10 | None => 9 end) ++ text_image text_v ++ head_image 0 VERSION ++ text_image text_seq ++ head_image 0 (seq_no e)
  ++ text_image text_boot ++ head_image 0 (boot (time e)) ++ text_image text_kind ++ text_image (as_str (kind e)) ++ prev_image (prev e)
  ++ text_image text_clock ++ head_image 0 (clock_code (clock (time e))) ++ text_image text_source ++ text_image (as_str (source e))
  ++ text_image text_content ++ link_image (content e) ++ text_image text_calendar ++ head_image 0 (calendar (time e)) ++ text_image text_monotonic ++ head_image 0 (monotonic (time e)).
Definition label_ok (l : Label) : Prop := exists t, label_new t = Some l.
Definition word (z : Z) : Prop := (0 <= z < W64)%Z.
(** What the types of an entry's fields say. *)
Record typed (e : Entry) : Prop := {
  t_seq : word (seq_no e); t_boot : word (boot (time e)); t_mono : word (monotonic (time e)); t_cal : word (calendar (time e));
  t_source : label_ok (source e); t_kind : label_ok (kind e); t_content : good (content e); t_prev : forall p, prev e = Some p -> good p
}.

Lemma label_str t l : label_new t = Some l -> as_str l = t /\ 1 <= length t <= LABEL.
Proof.
  unfold label_new, as_str. destruct (Nat.eqb_spec (length t) 0); [done|]. destruct (Nat.ltb_spec LABEL (length t)); [done|]. destruct (forallb _ t) eqn:E; [|done]. cbn. intros [= <-]. cbn [llen lbytes]. rewrite take_app_length.
  destruct (utf8_ascii t) as [x ->]; [|split; [done|lia]]. rewrite forallb_forall in E. apply Forall_forall. intros c Hc%list_elem_of_In%E. lia.
Qed.
Lemma label_back l : label_ok l -> label_new (as_str l) = Some l /\ 1 <= length (as_str l) <= LABEL /\ is_Some (utf8 (as_str l)).
Proof.
  intros [t H]. pose proof (label_str t l H) as [-> Hl]. split_and!; [done|lia|lia|]. unfold label_new in H. destruct (_ || _) eqn:E in H; [done|]. rewrite !orb_false_iff, negb_false_iff, forallb_forall in E. destruct E as [_ E].
  apply utf8_ascii, Forall_forall. intros c Hc%list_elem_of_In%E. lia.
Qed.

Section writes.
Context {S : Type} `{!Sink S} `{!SinkLaws S}.
Lemma encode_journal_writes e : writes (S:=S) (encode_with e) (entry_image e).
Proof.
  unfold encode_with, entry_image. destruct (prev e) as [p|]; cbn [encode_prev prev_image mbind outcome_bind app]; repeat (apply writes_bind; [first [solve [auto with mind]|apply writes_bind; auto with mind]|]); auto with mind.
Qed.
End writes.

Ltac at_here H R := let E := fresh in let H' := fresh in destruct (reads_here _ _ _ _ _ _ R H) as [E H']; rewrite E; clear E H; rename H' into H; cbn [mbind outcome_bind].
Ltac at_key H k := let E := fresh in let H' := fresh in destruct (key_here k _ _ _ ltac:(done) H) as [E H']; rewrite E; clear E H; rename H' into H; cbn [mbind outcome_bind].
Lemma label_here bs i l rest : label_ok l -> here bs i (text_image (as_str l) ++ rest) -> label (mkIn bs i) = Done (l, mkIn bs (i + length (text_image (as_str l)))) /\ here bs (i + length (text_image (as_str l))) rest.
Proof.
  intros Hl H. destruct (label_back l Hl) as (E & Hn & [x Hu]). unfold text_image in *. rewrite <- app_assoc in H. unfold label. at_here H (reads_expect 3 (Z.of_nat (length (as_str l))) ltac:(lia) ltac:(unfold W64, LABEL in *; lia)).
  at_here H (reads_take _ (as_str l) eq_refl). rewrite Hu. cbn [mbind option_bind]. rewrite E. cbn [or_refuse mbind outcome_bind]. rewrite length_app, Nat.add_assoc. done.
Qed.
Lemma prev_here bs i p rest : (forall c, p = Some c -> good c) -> here bs i (prev_image p ++ rest) ->
  decode_prev (match p with Some _ => 10 | None => 9 end) (mkIn bs i) = Done (p, mkIn bs (i + length (prev_image p))) /\ here bs (i + length (prev_image p)) rest.
Proof.
  intros Hp H. destruct p as [c|]; unfold decode_prev; cbn [prev_image] in *; cbn [Z.eqb Pos.eqb]; [|cbn; by rewrite Nat.add_0_r]. rewrite <- app_assoc in H. destruct (Hp c eq_refl) as [Hc Hb].
  at_key H text_prev. at_here H (reads_link c Hc Hb). rewrite length_app, Nat.add_assoc. done.
Qed.
Lemma clock_back c : clock_from_code (clock_code c) = Some c.
Proof. by destruct c. Qed.
Lemma decode_journal_image e : typed e -> valid e = true -> (Z.of_nat (length (entry_image e)) < W64)%Z -> decode (entry_image e) = Done e.
Proof.
  intros Ht Hv Hl. assert (here (entry_image e) 0 (entry_image e)) as H by (split_and!; [lia|done|done]). unfold decode. set (bs := entry_image e) in *. remember bs as b eqn:Eb in H at 2. rewrite Eb in H. unfold bs in H at 2. unfold entry_image in H. clear Eb b. destruct Ht as [H1 H2 H3 H4 H5 H6 [H7 H8] H9].
  at_here H (reads_expect 5 (match prev e with Some _ => 10 | None => 9 end) ltac:(lia) ltac:(unfold W64; destruct (prev e); lia)). at_key H text_v. at_here H (reads_expect 0 VERSION ltac:(lia) ltac:(unfold W64, VERSION; lia)). cbn [negb Z.eqb Pos.eqb].
  replace (negb (_ =? 9)%Z && _) with false by (by destruct (prev e)). at_key H text_seq. at_here H (reads_expect 0 (seq_no e) ltac:(lia) H1). at_key H text_boot. at_here H (reads_expect 0 (boot (time e)) ltac:(lia) H2). at_key H text_kind.
  destruct (label_here _ _ _ _ H6 H) as [-> Hx]; clear H; rename Hx into H; cbn [mbind outcome_bind]. destruct (prev_here _ _ _ _ H9 H) as [-> Hx]; clear H; rename Hx into H; cbn [mbind outcome_bind]. at_key H text_clock.
  at_here H (reads_expect 0 (clock_code (clock (time e))) ltac:(lia) ltac:(unfold W64; destruct (clock (time e)); cbn; lia)). rewrite clock_back. cbn [or_refuse mbind outcome_bind]. at_key H text_source.
  destruct (label_here _ _ _ _ H5 H) as [-> Hx]; clear H; rename Hx into H; cbn [mbind outcome_bind]. at_key H text_content. at_here H (reads_link (content e) H7 H8). at_key H text_calendar. at_here H (reads_expect 0 (calendar (time e)) ltac:(lia) H4). at_key H text_monotonic.
  rewrite <- (app_nil_r (head_image 0 (monotonic (time e)))) in H. at_here H (reads_expect 0 (monotonic (time e)) ltac:(lia) H3). destruct H as (Hi & Hd & _). cbn [iat]. match goal with |- context [?j =? length bs] => replace j with (length bs) by (apply (f_equal length) in Hd; rewrite length_drop in Hd; cbn [length] in Hd; lia) end.
  rewrite Nat.eqb_refl. replace (mkEntry _ _ _ _ _ _) with e by (by destruct e as [? []]). rewrite Hv. cbn [negb orb]. rewrite (encode_journal_writes e), canonical_iff. cbn [mbind outcome_bind]. by rewrite bool_decide_true.
Qed.
Lemma label_goes bs i : Forall is_byte bs -> ibytes i = bs -> iat i <= length bs -> yields (fun x => ibytes x.2 = bs /\ iat i <= iat x.2 <= length bs /\ label_ok x.1) (label i).
Proof.
  intros Hb Ei Hi. unfold label. step_expect Hb v j E L V. pose proof (take_goes bs Hb v j E ltac:(lia)) as Ht. destruct (take_n v j) as [[t j2]| |]; cbn [yields fst snd] in Ht; [|done|done]. destruct Ht as (E2 & L2 & _). cbn [mbind outcome_bind].
  destruct (utf8 t) as [x|]; [|done]. cbn [mbind option_bind]. destruct (label_new t) as [l|] eqn:El; [|done]. cbn. split_and!; [done|lia|lia|by exists t].
Qed.
Lemma prev_goes bs keys i : Forall is_byte bs -> ibytes i = bs -> iat i <= length bs -> yields (fun x => ibytes x.2 = bs /\ iat i <= iat x.2 <= length bs /\ forall c, x.1 = Some c -> good c) (decode_prev keys i).
Proof.
  intros Hb Ei Hi. unfold decode_prev. destruct (keys =? 10)%Z; [|cbn; split_and!; [done|lia|lia|done]]. step_key Hb j E L. pose proof (link_forward j) as Hl. rewrite E in Hl. specialize (Hl Hb). unfold forward in Hl. rewrite E in Hl.
  destruct (read_link j) as [[c j2]| |]; cbn [yields fst snd] in Hl; [|done|done]. destruct Hl as (E2 & L2 & _ & Hc & Hd & _). cbn. split_and!; [done|lia|lia|]. intros c' [= <-]. done.
Qed.
Lemma link_goes bs i : Forall is_byte bs -> ibytes i = bs -> iat i <= length bs -> yields (fun x => ibytes x.2 = bs /\ iat i <= iat x.2 <= length bs /\ good x.1) (read_link i).
Proof. intros Hb Ei Hi. pose proof (link_forward i) as Hl. unfold forward in Hl. rewrite Ei in Hl. specialize (Hl Hb). destruct (read_link i) as [[c j2]| |]; cbn [yields fst snd] in *; [|done|done]. destruct Hl as (? & ? & _ & ? & ? & _). split; [done|]. split; [lia|]. by split. Qed.
Ltac step_by L x j E G := let H := fresh in pose proof L as H; match goal with |- yields _ (?m ≫= _) => destruct m as [[x j]| |]; cbn [yields fst snd] in H; [|done|done] end; destruct H as (E & ? & G); cbn [mbind outcome_bind].
Lemma decode_journal_only bs : Forall is_byte bs -> yields (fun e => typed e /\ valid e = true /\ bs = entry_image e) (decode bs).
Proof.
  intros Hb. unfold decode. step_expect Hb keys j1 E1 L1 V1. step_key Hb j2 E2 L2. step_expect Hb v j3 E3 L3 V3. case_match; [done|]. case_match; [done|].
  step_key Hb j4 E4 L4. step_expect Hb sq j5 E5 L5 V5. step_key Hb j6 E6 L6. step_expect Hb bt j7 E7 L7 V7. step_key Hb j8 E8 L8.
  step_by (label_goes bs j8 Hb E8 ltac:(lia)) kd j9 E9 G9. step_by (prev_goes bs keys j9 Hb E9 ltac:(lia)) pv j10 E10 G10. step_key Hb j11 E11 L11. step_expect Hb c j12 E12 L12 V12.
  destruct (clock_from_code c) as [ck|]; cbn [or_refuse mbind outcome_bind]; [|done]. step_key Hb j13 E13 L13. step_by (label_goes bs j13 Hb E13 ltac:(lia)) src j14 E14 G14. step_key Hb j15 E15 L15.
  step_by (link_goes bs j15 Hb E15 ltac:(lia)) ct j16 E16 G16. step_key Hb j17 E17 L17. step_expect Hb cal j18 E18 L18 V18. step_key Hb j19 E19 L19. step_expect Hb mono j20 E20 L20 V20.
  destruct (negb (iat j20 =? length bs)); cbn [orb]; [done|]. set (e := mkEntry _ _ _ _ _ _). destruct (valid e) eqn:Hv; cbn [negb]; [|done]. rewrite (encode_journal_writes e), canonical_iff. cbn [mbind outcome_bind]. case_bool_decide as Hbs; [|done]. cbn [yields]. split_and!; [|done|done]. by constructor.
Qed.
Lemma length_label l : label_ok l -> length (text_image (as_str l)) <= 2 + LABEL.
Proof. intros (_ & Hl & _)%label_back. unfold text_image. rewrite length_app. assert (length (head_image 3 (Z.of_nat (length (as_str l)))) <= 2); [|lia]. unfold head_image, LABEL in *. destruct (Z.leb_spec (Z.of_nat (length (as_str l))) 23); [cbn; lia|]. destruct (Z.leb_spec (Z.of_nat (length (as_str l))) 255); [cbn; lia|lia]. Qed.
Lemma length_entry e : typed e -> length (entry_image e) <= MAX.
Proof.
  intros [_ _ _ _ H5 H6 [H7 _] H9]. unfold entry_image. rewrite !length_app. pose proof (length_label _ H5). pose proof (length_label _ H6). pose proof (length_head 0 (seq_no e)). pose proof (length_head 0 (boot (time e))). pose proof (length_head 0 (calendar (time e))). pose proof (length_head 0 (monotonic (time e))).
  rewrite (length_link (content e)) by done. assert (length (prev_image (prev e)) <= 5 + LINK). { destruct (prev e) as [p|]; cbn [prev_image]; [|cbn; lia]. rewrite length_app, length_link by (by apply (H9 p)). change (length (text_image text_prev)) with 5. lia. }
  assert (length (head_image 5 (match prev e with Some _ => 10 | None => 9 end)) = 1) as -> by (by destruct (prev e)). assert (length (head_image 0 (clock_code (clock (time e)))) = 1) as -> by (by destruct (clock (time e))).
  change (length (text_image text_v)) with 2. change (length (head_image 0 VERSION)) with 1. change (length (text_image text_seq)) with 4. change (length (text_image text_boot)) with 5. change (length (text_image text_kind)) with 5. change (length (text_image text_clock)) with 6.
  change (length (text_image text_source)) with 7. change (length (text_image text_content)) with 8. change (length (text_image text_calendar)) with 9. change (length (text_image text_monotonic)) with 10. unfold MAX. lia.
Qed.
Lemma encode_journal e room : typed e -> MAX <= room -> encode e room = if valid e then Done (entry_image e) else Refuse Format.
Proof.
  intros Ht Hr. unfold encode. destruct (valid e); [|done]. cbn [negb]. rewrite (encode_journal_writes e). pose proof (length_entry e Ht). unfold push, out_sink. cbn [oat obytes]. rewrite length_replicate.
  destruct (Nat.leb_spec (0 + length (entry_image e)) room); [|lia]. cbn [mbind outcome_bind oat obytes]. rewrite take_0, Nat.add_0_l. cbn [app]. by rewrite take_app_length.
Qed.
Lemma decode_entry e : typed e -> valid e = true -> decode (entry_image e) = Done e.
Proof. intros Ht Hv. apply decode_journal_image; [done|done|]. pose proof (length_entry e Ht). assert (Z.of_nat MAX < W64)%Z by done. lia. Qed.

(** a journal entry has one encoding, of at most [MAX] bytes. Decoding never panics and gives an entry back from, and only from,
    what [encode] writes for it. *)
Theorem entry_canonical bs : Forall is_byte bs -> safe (decode bs) /\ forall e, decode bs = Done e <-> typed e /\ encode e MAX = Done bs.
Proof.
  intros Hb. pose proof (decode_journal_only bs Hb) as H. apply yields_iff in H as [Hs H]. split; [done|]. intros e. split.
  - intros (Ht & Hv & ->)%H. split; [done|]. by rewrite encode_journal, Hv.
  - intros [Ht E]. rewrite encode_journal in E by done. destruct (valid e) eqn:Hv; [|done]. injection E as <-. by apply decode_entry.
Qed.
Definition demo_label : Label := Eval vm_compute in default (mkLabel 0 []) (label_new [108; 111; 103]%Z).
Definition demo_entry : Entry := mkEntry 2 (mkTime 1 300 0 NoClock) demo_label demo_label demo_cid (Some demo_cid).
Definition demo_bytes : bytes := Eval vm_compute in entry_image demo_entry.
Lemma entry_canonical_witness : typed demo_entry /\ encode demo_entry MAX = Done demo_bytes.
Proof.
  apply (proj2 (entry_canonical demo_bytes ltac:(unfold demo_bytes, is_byte; repeat (constructor; [split; [discriminate|reflexivity]|]); constructor)) demo_entry). reflexivity.
Defined.
