(* ===== verification/JournalStore.v ===== *)
(** * The journal over a store ([libmind/src/journal.rs]: [append], [check], [list])

    [segment] says what a journal is: entries from a head down, each the block its identifier names, numbered without a gap, the times
    in order. Against any store a check that succeeds heard such a chain; with a store that keeps blocks and swaps names, and other
    writers that only append, an append keeps the journal and a check of it refuses only where the store fails. *)
From S2P Require Import Prelude Outcome Text Sha256 Cid Cbor Dag DagTree Journal.
Local Open Scope nat_scope.
#[local] Opaque CHUNK.

(** Entries from the head [root], whose sequence is [n], down to [n'] and [root'], newest first. *)
Fixpoint segment (n : Z) (root : option Cid) (after : option Time) (es : list (Entry * Cid)) (n' : Z) (root' : option Cid) : Prop :=
  match es with
  | [] => n = n' /\ root = root'
  | (e, c) :: es => root = Some c /\ c = of_data DagCbor (entry_image e) /\ typed e /\ valid e = true /\ seq_no e = n /\ goes_back after (time e) = false
      /\ segment (n - 1) (prev e) (Some (time e)) es n' root'
  end.
Definition chain (n : Z) (root : option Cid) (es : list (Entry * Cid)) : Prop := segment n root None es 0 None.

Lemma valid_seq e : valid e = true -> (1 <= seq_no e)%Z /\ (prev e = None <-> seq_no e = 1%Z).
Proof.
  unfold valid. intros [[[H1 H2%eqb_prop]%andb_prop _]%andb_prop _]%andb_prop. apply Z.leb_le in H1. split; [done|]. destruct (prev e) as [p|].
  - split; [done|]. intros E. rewrite E in H2. rewrite bool_decide_true in H2 by (by eexists). done.
  - split; [|done]. intros _. rewrite bool_decide_false in H2 by (by intros [? ?]). symmetry in H2. apply Z.ltb_ge in H2. lia.
Qed.
Lemma segment_length n root after es n' root' : segment n root after es n' root' -> n' = (n - Z.of_nat (length es))%Z.
Proof. revert n root after. induction es as [|[e c] es IH]; intros n root after; cbn; [intros [-> _]; lia|]. intros (_ & _ & _ & _ & _ & _ & H%IH). lia. Qed.
Lemma segment_end n root after es n' root' : es <> [] -> segment n root after es n' root' -> root' = None <-> n' = 0%Z.
Proof.
  revert n root after. induction es as [|[e c] es IH]; intros n root after Hne; [done|]. cbn. intros (_ & _ & _ & Hv & Hn & _ & H). destruct es as [|x es]; [|by apply (IH _ _ _ ltac:(done) H)].
  destruct H as [<- <-]. destruct (valid_seq e Hv) as [_ H]. rewrite H. lia.
Qed.
Lemma segment_seq n c after e es n' root' : segment n (Some c) after ((e, c) :: es) n' root' -> (1 <= n)%Z.
Proof. cbn. intros (_ & _ & _ & Hv & <- & _). by apply valid_seq in Hv as [? _]. Qed.

(** ** Any store *)
(** What the types say of a store's answers: bytes within the room, a version of 64 bits; and no call panics. *)
Definition answers (B : Type) `{!Store B} : Prop := (forall c room (s : B), yields (fun bs => (Z.of_nat (length bs) <= room)%Z /\ Forall is_byte bs) (sget c room s).1).
Lemma of_data_matches c bs : codec c = DagCbor -> matches c bs = true -> c = of_data DagCbor bs.
Proof. unfold matches, of_data. destruct c as [k [] d]. cbn. intros ->. case_bool_decide; [by intros _; f_equal|done]. Qed.

Section any.
Context {B : Type} `{!Store B} (Hans : answers B).
Lemma entry_sound c (s : B) : yields (fun e => typed e /\ valid e = true /\ c = of_data DagCbor (entry_image e)) (entry c s).1.
Proof using Hans.
  unfold entry, mbind, st_bind. pose proof (Hans c CHUNK s) as H. destruct (sget c CHUNK s) as [[bs| |] s1]; [|done|done]. destruct H as [Hl Hb]. destruct (Z.ltb_spec CHUNK (Z.of_nat (length bs))); [lia|].
  destruct (matches c bs) eqn:Em; cbn [negb]; [|done]. case_bool_decide as Hc; cbn [negb]; [|done]. unfold lift. cbn [fst]. pose proof (decode_journal_only bs Hb) as Hd. destruct (decode bs) as [e| |]; cbn [map_err yields] in *; [|done|done].
  destruct Hd as (Ht & Hv & ->). exact (conj Ht (conj Hv (of_data_matches _ _ Hc Em))).
Qed.

Context {H : Type} (f : H -> Entry * Cid -> H).
Definition listen (e : Entry) (c : Cid) (sh : B * H) : B * H := (sh.1, f sh.2 (e, c)).
Lemma down_loop_sound fuel most ver ents c after s h : (0 <= ents <= ver)%Z -> (ver < W64)%Z -> (Z.min most ver < Z.of_nat fuel + ents)%Z -> (0 < fuel)%nat -> (ents = ver -> (ents = most \/ ver = 0)%Z) -> (ents <= most)%Z ->
  match down_loop fuel listen most ver ents (ver - ents + 1) c after (s, h) with
  | (Done d, (_, h')) => exists es n' root', h' = foldl f h es /\ segment (ver - ents) (Some c) after es n' root' /\ d = mkChecked ver (ver - n') (n' + 1) ver
  | (Refuse _, _) => True
  | (Crash, _) => False
  end.
Proof using Hans.
  revert ents c after s h. induction fuel as [|fuel IH]; intros ents c after s h He Hv Hf Hf0 Hend Hm; [lia|]. cbn [down_loop]. destruct (Z.ltb_spec ents most) as [Hlt|Hge]; cbn [negb].
  2: { cbn. exists [], (ver - ents)%Z, (Some c). split; [done|]. split; [done|]. f_equal; lia. }
  unfold mbind, st_bind, lift, minus. unfold checked_sub. rewrite (proj2 (Z.leb_le _ _)) by lia. cbn [or_crash]. unfold on_store. pose proof (entry_sound c s) as Hs. destruct (entry c s) as [[e| |] s1]; cbn [map_err fst yields] in *; [|done|done]. destruct Hs as (Ht & Hval & Hc).
  destruct (Z.eqb_spec (seq_no e) (ver - ents)) as [Hsq|]; cbn [negb]; [|done]. destruct (goes_back after (time e)) eqn:Hg; [done|]. unfold tell, listen at 1. cbn [fst snd]. destruct (valid_seq e Hval) as [H1 H2].
  destruct (prev e) as [p|] eqn:Ep.
  - assert (seq_no e <> 1%Z) by (intros E; by apply H2 in E). specialize (IH (ents + 1)%Z p (Some (time e)) s1 (f h (e, c)) ltac:(lia) Hv). rewrite Hsq. replace (ver - (ents + 1) + 1)%Z with (ver - ents)%Z in IH by lia.
    specialize (IH ltac:(lia) ltac:(lia) ltac:(lia) ltac:(lia)). destruct (down_loop fuel _ _ _ _ _ _ _ _) as [[d| |] [s2 h2]]; [|done|done]. destruct IH as (es & n' & root' & Eh & Hsg & Hd). exists ((e, c) :: es), n', root'.
    split; [done|]. split; [|done]. cbn. repeat (split; [by auto|]). rewrite Ep. by replace (ver - ents - 1)%Z with (ver - (ents + 1))%Z by lia.
  - pose proof (proj1 H2 eq_refl) as H3. cbn. exists [(e, c)], (ver - ents - 1)%Z, None. split; [done|]. split; [|f_equal; lia]. cbn. repeat (split; [by auto|]). done.
Qed.
Lemma down_sound name most s ver root s1 h : shead name s = (Done (ver, Some root), s1) -> (1 <= ver)%Z -> (ver + 1 < W64)%Z -> (0 <= most)%Z ->
  match down name most listen (s, h) with
  | (Done d, (_, h')) => exists es n' root', h' = foldl f h es /\ segment ver (Some root) None es n' root' /\ d = mkChecked ver (ver - n') (n' + 1) ver
  | (Refuse _, _) => True
  | (Crash, _) => False
  end.
Proof using Hans.
  intros E H1 H2 H3. unfold down, mbind, st_bind, on_store. rewrite E. cbn [map_err]. unfold lift, plus, checked_add. rewrite (proj2 (Z.ltb_lt _ _)) by lia. cbn [or_crash].
  pose proof (down_loop_sound (S (Z.to_nat (Z.min most ver))) most ver 0 root None s1 h ltac:(lia) ltac:(lia) ltac:(lia) ltac:(lia) ltac:(lia) ltac:(lia)) as Hd. rewrite Z.sub_0_r in Hd. exact Hd.
Qed.
End any.
Lemma check_each_down {B} `{!Store B} {H} name steps (each : Entry -> Cid -> B * H -> B * H) sh d sh' : check_each name steps each sh = (Done d, sh') -> down name steps each sh = (Done d, sh') /\ first d = 1%Z.
Proof.
  unfold check_each, mbind, st_bind. destruct (down name steps each sh) as [[d0| |] sh0]; [|done|done]. destruct (Z.eqb_spec (first d0) 1) as [E|E]; cbn [negb]; [by intros [= -> ->]|]. unfold lift, fail, lift. destruct (minus (first d0) 1); done.
Qed.
Lemma check_each_safe {B} `{!Store B} {H} name steps (each : Entry -> Cid -> B * H -> B * H) sh :
  (match down name steps each sh with (Done d, _) => (1 <= first d)%Z | (Refuse _, _) => True | (Crash, _) => False end) -> safe (check_each name steps each sh).1.
Proof.
  unfold check_each, mbind, st_bind. destruct (down name steps each sh) as [[d0| |] sh0]; [|done|done]. intros Hd. destruct (first d0 =? 1)%Z; cbn [negb]; [done|]. unfold lift, fail, lift, minus, checked_sub. by rewrite (proj2 (Z.leb_le _ _)) by lia.
Qed.
(** What a listener keeps. *)
Definition keep {H : Type} (h : list H) (x : H) : list H := h ++ [x].
Lemma foldl_keep {H} (h es : list H) : foldl keep h es = h ++ es.
Proof. revert h. induction es as [|e es IH]; intros h; cbn; [by rewrite app_nil_r|]. rewrite IH. unfold keep. by rewrite <- app_assoc. Qed.

Lemma image_inj e e' : typed e -> valid e = true -> typed e' -> valid e' = true -> entry_image e = entry_image e' -> e = e'.
Proof. intros H1 H2 H3 H4 E. pose proof (decode_entry e H1 H2) as D. rewrite E, decode_entry in D by done. congruence. Qed.
(** No two entries, one of each list, have the same SHA-256. *)
Definition no_collision (es es' : list (Entry * Cid)) : Prop := forall x y, x ∈ es -> y ∈ es' -> digest (entry_image x.1) = digest (entry_image y.1) -> entry_image x.1 = entry_image y.1.
Lemma segment_unique n root after es es' n' root' : no_collision es es' ->
  segment n root after es n' root' -> segment n root after es' n' root' -> es = es'.
Proof.
  intros Hu Hs Hs'. pose proof (segment_length _ _ _ _ _ _ Hs) as Hl. pose proof (segment_length _ _ _ _ _ _ Hs') as Hl'. assert (length es = length es') as Hlen by lia. clear Hl Hl'. revert n root after es' Hu Hs Hs' Hlen.
  induction es as [|[e c] es IH]; intros n root after [|[e' c'] es'] Hu; cbn; try done. intros (-> & Ec & Ht & Hv & Hn & _ & Hs) ([= <-] & Ec' & Ht' & Hv' & Hn' & _ & Hs') [= Hlen].
  assert (entry_image e = entry_image e') as Ei. { apply (Hu (e, c) (e', c)); [by left|by left|]. cbn. rewrite Ec in Ec'. injection Ec'. done. }
  assert (e = e') as -> by (by apply image_inj). f_equal. apply (IH _ _ _ _ (fun x y Hx Hy => Hu x y ltac:(by right) ltac:(by right)) Hs Hs' Hlen).
Qed.
(** C26: what a check accepts is a journal. Of a store whose calls return and give no more bytes than there is room for,
    and whose blocks may be anything, a check from a head of version 1 to 2^64 - 2 does not panic, and one that succeeds has
    heard a chain from that head down to entry 1: every number once, each entry the block its identifier names, the times in
    order. A head decides its journal: any other chain from it is the same, where no two of their entries have the same
    SHA-256. *)
Theorem journal_sound {B} `{!Store B} name steps (s : B) ver root s1 : answers B -> shead name s = (Done (ver, Some root), s1) -> (1 <= ver)%Z -> (ver + 1 < W64)%Z -> (0 <= steps)%Z ->
  match check_each name steps (listen keep) (s, []) with
  | (Done d, (_, heard)) => d = mkChecked ver ver 1 ver /\ chain ver (Some root) heard /\ forall other, chain ver (Some root) other -> no_collision heard other -> heard = other
  | (Refuse _, _) => True
  | (Crash, _) => False
  end.
Proof.
  intros Ha E H1 H2 H3. pose proof (down_sound Ha keep name steps s ver root s1 [] E H1 H2 H3) as Hd. destruct (check_each name steps (listen keep) (s, [])) as [[d| |] [s2 h]] eqn:Ec; [|done|].
  - apply check_each_down in Ec as [Ed Hf]. rewrite Ed in Hd. destruct Hd as (es & n' & root' & -> & Hs & ->). cbn [first] in Hf. rewrite foldl_keep. cbn [app]. assert (n' = 0%Z) as -> by lia. split; [f_equal; lia|].
    assert (es <> []) as Hne by (intros ->; destruct Hs as [? _]; lia). pose proof (proj2 (segment_end _ _ _ _ _ _ Hne Hs) eq_refl) as ->. split; [done|]. intros other Ho Hu. by apply (segment_unique _ _ _ _ _ _ _ Hu Hs).
  - apply (f_equal fst) in Ec. cbn [fst] in Ec. apply (check_each_safe name steps (listen keep) (s, [])); [|done]. destruct (down name steps (listen keep) (s, [])) as [[d| |] [s3 h3]]; [|done|done].
    destruct Hd as (es & n' & root' & _ & Hs & ->). cbn [first]. destruct es as [|[e c] es]; [destruct Hs as [? _]; lia|]. clear - Hs. assert (0 <= n')%Z; [|lia]. revert Hs. generalize ver (Some root) (None : option Time). revert e c.
    induction es as [|[e' c'] es IH]; intros e c n r a; cbn [segment]; intros (_ & _ & _ & Hv & Hn & _ & Hs); [destruct Hs as [<- _]; apply valid_seq in Hv as [? _]; lia|]. by apply (IH _ _ _ _ _ Hs).
Qed.

(** ** A store that keeps blocks and swaps names, with other writers *)
(** The state of a store as the laws see it: the blocks it holds, and each name's version and root. *)
Class View (B : Type) : Type := { held : B -> Cid -> bytes -> Prop; named : B -> bytes -> Z * option Cid }.
Section laws.
Context {B : Type} `{!Store B} `{!View B} (name : bytes).
(** The journal under [name]: its chain, every entry stored. *)
Record journal (s : B) (es : list (Entry * Cid)) : Prop := {
  j_named : (named s name).1 = Z.of_nat (length es);
  j_chain : chain (Z.of_nat (length es)) (named s name).2 es;
  j_held : forall e c, (e, c) ∈ es -> held s c (entry_image e);
  j_word : (Z.of_nat (length es) < W64)%Z
}.
(** What the writers of [name] do to a store, one after another: blocks stay, and the journal only gets entries on top. *)
Definition grows (s s' : B) : Prop := (forall c x, held s c x -> held s' c x) /\ forall es, journal s es -> exists new, journal s' (new ++ es).
(** The name moved from [expected] to [root], nothing else changed. *)
Definition swapped (s s' : B) (expected : Z) (root : Cid) : Prop := (named s name).1 = expected /\ named s' name = ((expected + 1)%Z, Some root) /\ forall c x, held s c x -> held s' c x.
(** Between a writer's call and its answer the other writers may act: each call happens at one instant of a store that [grows]. *)
Class StoreLaws : Prop := {
  get_law : forall c room s, match sget c room s with (o, s') => grows s s' /\ o <> Crash /\ forall x, held s c x -> (Z.of_nat (length x) <= room)%Z -> o = Done x \/ o = Refuse EStore end;
  head_law : forall s, match shead name s with (o, s') => grows s s' /\ (o = Done (named s' name) \/ o = Refuse EStore) end;
  put_law : forall x s, match sput x s with (o, s') => grows s s' /\ ((Z.of_nat (length x) <= CHUNK)%Z -> o <> Crash /\ (o = Done (of_data DagCbor x) -> held s' (of_data DagCbor x) x)) end;
  publish_law : forall v c s, match spublish name v c s with
    | (Done _, s') => exists s1, grows s s1 /\ swapped s1 s' v c
    | (Refuse EConflict, s') => grows s s'
    | (Refuse _, s') => grows s s' \/ exists s1, grows s s1 /\ swapped s1 s' v c
    | (Crash, _) => False
    end
}.

Lemma grows_trans s1 s2 s3 : grows s1 s2 -> grows s2 s3 -> grows s1 s3.
Proof. intros [H1 J1] [H2 J2]. split; [auto|]. intros es [new1 [new2 Hj]%J2]%J1. exists (new2 ++ new1). by rewrite <- app_assoc. Qed.
Lemma grows_refl s : grows s s.
Proof. split; [done|]. intros es H. by exists []. Qed.
Lemma journal_unique s es es' : no_collision es es' -> journal s es -> journal s es' -> es = es'.
Proof. intros Hu [H1 H2 _ _] [H3 H4 _ _]. rewrite <- H1 in H2. rewrite <- H3 in H4. by apply (segment_unique _ _ _ _ _ _ _ Hu H2). Qed.

(** A swap that puts the next entry on top of the journal there is. *)
Lemma swap_appends s s' es e : journal s es -> typed e -> valid e = true -> seq_no e = (Z.of_nat (length es) + 1)%Z -> prev e = (named s name).2 ->
  (match es with [] => True | (e', _) :: _ => goes_back (Some (time e)) (time e') = false end) -> held s (of_data DagCbor (entry_image e)) (entry_image e) ->
  swapped s s' (Z.of_nat (length es)) (of_data DagCbor (entry_image e)) -> journal s' ((e, of_data DagCbor (entry_image e)) :: es).
Proof.
  intros [H1 H2 H3 H4] Ht Hv Hs Hp Hb Hh (Hn & Hn' & Hk). split; rewrite ?Hn'; cbn [fst snd].
  - cbn [length]. lia.
  - cbn [length]. unfold chain in *. cbn [segment]. repeat (split; [by auto|]). split; [lia|]. split; [done|]. replace (Z.of_nat (S (length es)) - 1)%Z with (Z.of_nat (length es)) by lia. rewrite Hp.
    destruct es as [|[e' c'] es]; [exact H2|]. cbn [segment] in *. destruct H2 as (E1 & E2 & E3 & E4 & E5 & _ & E6). repeat (split; [by auto|]). done.
  - intros e' c' Hx. apply elem_of_cons in Hx as [[= -> ->]|Hx]; [by apply Hk|]. by apply Hk, H3.
  - pose proof (t_seq e Ht) as [_ Hw]. cbn [length]. lia.
Qed.

Definition top_of (es : list (Entry * Cid)) : option Cid := match es with [] => None | (_, c) :: _ => Some c end.
Lemma journal_root s es : journal s es -> named s name = (Z.of_nat (length es), top_of es).
Proof. intros [H1 H2 _ _]. destruct (named s name) as [v r]. cbn in *. subst v. f_equal. destruct es as [|[e c] es]; [by destruct H2|]. by destruct H2. Qed.
Definition extends (es : list (Entry * Cid)) (s : B) : Prop := exists new, journal s (new ++ es).
Lemma grows_extends s s' es : grows s s' -> extends es s -> extends es s'.
Proof. intros [_ Hg] [new Hj]. destruct (Hg _ Hj) as [new' H']. exists (new' ++ new). by rewrite <- app_assoc. Qed.

Context {Hlaws : StoreLaws}.
Lemma entry_held s e c : held s c (entry_image e) -> c = of_data DagCbor (entry_image e) -> typed e -> valid e = true -> match entry c s with (o, s') => grows s s' /\ (o = Done e \/ o = Refuse EStore) end.
Proof using Hlaws.
  intros H3 Hc Ht Hv. unfold entry, mbind, st_bind. pose proof (get_law c CHUNK s) as Hg. destruct (sget c CHUNK s) as [o s']. destruct Hg as (Hg & _ & Hx). pose proof (length_entry e Ht). assert (Z.of_nat MAX <= CHUNK)%Z by (vm_compute; discriminate).
  destruct (Hx (entry_image e) H3 ltac:(lia)) as [->| ->]; [|by split; [|right]]. destruct (Z.ltb_spec CHUNK (Z.of_nat (length (entry_image e)))); [lia|]. rewrite Hc, (proj2 (matches_of_data DagCbor _ _) eq_refl). cbn [negb]. rewrite bool_decide_true by done. cbn [negb].
  unfold lift. rewrite decode_entry by done. cbn. split; [done|by left].
Qed.

Definition publish_entry (ver : Z) (e : Entry) : STE JError B Appended :=
  bs ← lift (map_err (fun _ => EInvalid) (encode e (Z.to_nat CHUNK)));
  c ← sput bs;
  if negb (bool_decide (c = of_data DagCbor bs)) then fail ECorrupt else
  _ ← spublish name ver c;
  mret (mkAppended e c).
(** [publish_entry] of an entry made after [es]: where other writers were first, nothing is published. *)
Lemma publish_entry_spec s es e : extends es s -> typed e -> seq_no e = (Z.of_nat (length es) + 1)%Z -> prev e = top_of es ->
  (match es with [] => True | (e', _) :: _ => goes_back (Some (time e)) (time e') = false end) ->
  match publish_entry (Z.of_nat (length es)) e s with (o, s') => o <> Crash /\ extends es s' /\ forall a, o = Done a -> a_entry a = e /\ journal s' ((e, a_cid a) :: es) end.
Proof using Hlaws.
  intros Hx Ht Hs Hp Hb. unfold publish_entry, mbind, st_bind, lift at 1. pose proof (length_entry e Ht) as Hl. assert (Z.of_nat MAX <= CHUNK)%Z as Hm by (vm_compute; discriminate). rewrite encode_journal by (done || lia). destruct (valid e) eqn:Hv; cbn [map_err]; [|split_and!; [done|done|by intros a [=]]].
  pose proof (put_law (entry_image e) s) as Hput. destruct (sput (entry_image e) s) as [o s1]. destruct Hput as [Hg Hput]. destruct (Hput ltac:(lia)) as [Hc Hh]. apply (grows_extends _ _ _ Hg) in Hx as Hx1. destruct o as [c| |]; [|split_and!; [done|done|by intros a [=]]|done].
  case_bool_decide as Hcid; cbn [negb]; [|split_and!; [done|done|by intros a [=]]]. subst c. specialize (Hh eq_refl). pose proof (publish_law (Z.of_nat (length es)) (of_data DagCbor (entry_image e)) s1) as Hpub.
  assert (forall s2 s', grows s1 s2 -> swapped s2 s' (Z.of_nat (length es)) (of_data DagCbor (entry_image e)) -> journal s' ((e, of_data DagCbor (entry_image e)) :: es)) as Hsw.
  { intros s2 s' Hg2 Hw. destruct (grows_extends _ _ _ Hg2 Hx1) as [new Hj]. destruct Hw as (Hn & Hw). assert (new = []) as ->. { destruct Hj as [Hj _ _ _]. rewrite length_app in Hj. destruct new; [done|]. cbn [length] in Hj. lia. }
    cbn [app] in Hj. apply (swap_appends s2 s' es e Hj Ht Hv Hs); [by rewrite (journal_root _ _ Hj)|done|by apply Hg2|by split]. }
  destruct (spublish name (Z.of_nat (length es)) (of_data DagCbor (entry_image e)) s1) as [[v|err|] s']; cbn [mret st_ret]; [| |done].
  - destruct Hpub as (s2 & Hg2 & Hw). specialize (Hsw s2 s' Hg2 Hw). split_and!; [done|by exists [(e, of_data DagCbor (entry_image e))]|]. intros a [= <-]. done.
  - split_and!; [done| |by intros a [=]]. assert (grows s1 s' \/ exists s2, grows s1 s2 /\ swapped s2 s' (Z.of_nat (length es)) (of_data DagCbor (entry_image e))) as [Hg2|(s2 & Hg2 & Hw)] by (destruct err; auto); [by apply (grows_extends _ _ _ Hg2)|].
    by exists [(e, of_data DagCbor (entry_image e))]; apply (Hsw s2 s').
Qed.

Lemma bind_run {E S A C} (m : STE E S A) (k : A -> STE E S C) s : (m ≫= k) s = match m s with (Done a, s) => k a s | (Refuse e, s) => (Refuse e, s) | (Crash, s) => (Crash, s) end.
Proof. done. Qed.
(** The place and time an append takes after [es], and the entry of it. *)
Definition follows (now : Reading) (es : list (Entry * Cid)) (bt : Z) : Prop :=
  word bt /\ match es with [] => True | (e', _) :: _ => goes_back (Some (mkTime bt (r_monotonic now) (r_calendar now) (r_clock now))) (time e') = false end.
Definition boot_after (now : Reading) (ver : Z) (root : option Cid) : STE JError B (Z * option Cid) :=
  match root with
  | None => if (0 <? ver)%Z then fail (ERemoved ver) else mret (1%Z, None)
  | Some h => e ← entry h; if negb (seq_no e =? ver)%Z then fail (ESequence (seq_no e)) else b ← lift (next_boot e now); mret (b, Some h)
  end.
Lemma boot_after_spec now s es : journal s es -> match boot_after now (Z.of_nat (length es)) (top_of es) s with (o, s') => grows s s' /\ o <> Crash /\ forall b p, o = Done (b, p) -> p = top_of es /\ follows now es b end.
Proof using Hlaws.
  intros Hj. destruct es as [|[e c] es]; cbn [top_of boot_after].
  - cbn. split_and!; [apply grows_refl|done|]. intros b p [= <- <-]. split; [done|]. split; [unfold word, W64; lia|done].
  - rewrite bind_run. destruct (j_chain _ _ Hj) as (_ & Ec & Ht & Hv & Hs & _). pose proof (entry_held s e c (j_held _ _ Hj e c ltac:(by left)) Ec Ht Hv) as He. destruct (entry c s) as [o s']. destruct He as [Hg [-> | ->]]; [|split_and!; [done|done|by intros b p [=]]]. rewrite Hs, Z.eqb_refl. cbn [negb].
    rewrite bind_run. unfold lift, next_boot. destruct (Z.ltb_spec (r_monotonic now) (monotonic (time e))) as [Hlt|Hge].
    + destruct (checked_add (boot (time e)) 1) as [b|] eqn:Eb; cbn [or_refuse mret st_ret]; split_and!; try done. intros b' p [= <- <-]. apply checked_add_Some in Eb as [-> Hb]. pose proof (t_boot e Ht) as [Hb0 _]. split; [done|]. split; [split; lia|]. unfold goes_back. cbn [boot monotonic]. lia.
    + cbn [mret st_ret]. split_and!; [done|done|]. intros b' p [= <- <-]. split; [done|]. split; [apply (t_boot e Ht)|]. unfold goes_back. cbn [boot monotonic]. lia.
Qed.
Lemma append_eq now src knd ct : append name now src knd ct =
  (src ← lift (or_refuse (label_new src) EInvalid); knd ← lift (or_refuse (label_new knd) EInvalid); '(ver, root) ← shead name; '(bt, pv) ← boot_after now ver root; sq ← lift (plus ver 1);
   publish_entry ver (mkEntry sq (mkTime bt (r_monotonic now) (r_calendar now) (r_clock now)) src knd ct pv)).
Proof. done. Qed.

(** An append from a journal: the journal grows, by the entry returned as its new head when it succeeds. *)
Definition appended (es : list (Entry * Cid)) (o : outcome JError Appended) (s' : B) : Prop :=
  extends es s' /\ (o = Crash -> (named s' name).1 = W64 - 1)%Z /\ forall a, o = Done a -> exists new, journal s' ((a_entry a, a_cid a) :: new ++ es).
Lemma append_spec now src knd ct s es : word (r_monotonic now) -> word (r_calendar now) -> good ct -> journal s es -> match append name now src knd ct s with (o, s') => appended es o s' end.
Proof using Hlaws.
  intros Hmo Hca Hct Hj. rewrite append_eq. assert (extends es s) as Hx by (by exists []). rewrite bind_run. unfold lift at 1. destruct (label_new src) as [ls|] eqn:Els; cbn [or_refuse]; [|by split; [|split]]. rewrite bind_run. unfold lift at 1. destruct (label_new knd) as [lk|] eqn:Elk; cbn [or_refuse]; [|by split; [|split]].
  rewrite bind_run. pose proof (head_law s) as Hh. destruct (shead name s) as [o s1]. destruct Hh as [Hg [-> | ->]]; apply (grows_extends _ _ _ Hg) in Hx; [|by split; [|split]]. destruct Hx as [new Hj1]. rewrite (journal_root _ _ Hj1). set (es1 := new ++ es) in *.
  rewrite bind_run. pose proof (boot_after_spec now s1 es1 Hj1) as Hb. destruct (boot_after now (Z.of_nat (length es1)) (top_of es1) s1) as [o s2]. destruct Hb as (Hg2 & Hc & Hb).
  assert (extends es s2) as Hx2 by (by apply (grows_extends _ _ _ Hg2); exists new). destruct o as [[b p]| |]; [|by split; [|split]|done]. destruct (Hb b p eq_refl) as [-> [Hbw Hbt]]. rewrite bind_run. unfold lift, plus. pose proof (j_word _ _ Hj1) as Hw. unfold checked_add. destruct (Z.ltb_spec (Z.of_nat (length es1) + 1) W64) as [Hlt|Hge]; cbn [or_crash].
  - assert (extends es1 s2) as Hx3 by (by apply (grows_extends _ _ _ Hg2); exists []). set (e := mkEntry _ _ _ _ _ _). pose proof (publish_entry_spec s2 es1 e Hx3) as Hp. destruct (publish_entry _ e s2) as [o s3]. destruct Hp as (Ho & [new3 He] & Ha); [|done|done|done|].
    { constructor; cbn; try done; [unfold word; lia|by exists src|by exists knd|]. intros c Hc'. clear - Hj1 Hc'. destruct es1 as [|[e1 c1] es1]; [done|]. injection Hc' as <-. destruct (j_chain _ _ Hj1) as (_ & -> & _). apply digest_good. }
    split_and!; [exists (new3 ++ new); by rewrite <- app_assoc|done|]. intros a Ea. exists new. destruct (Ha a Ea) as [-> H]. done.
  - split_and!; [done| |by intros a [=]]. intros _. destruct (grows_extends _ _ es1 Hg2 ltac:(by exists [])) as [new2 Hj2]. pose proof (j_word _ _ Hj2). rewrite (j_named _ _ Hj2). rewrite length_app in *. lia.
Qed.

(** Programs that keep every block. *)
Definition keeps {A} (m : STE JError B A) : Prop := forall s c x, held s c x -> held (m s).2 c x.
Lemma keeps_bind {A C} (m : STE JError B A) (k : A -> STE JError B C) : keeps m -> (forall a, keeps (k a)) -> keeps (m ≫= k).
Proof. intros Hm Hk s c x Hx. rewrite bind_run. specialize (Hm s c x Hx). destruct (m s) as [[a| |] s']; [by apply Hk|done|done]. Qed.
Lemma keeps_lift {A} (o : outcome JError A) : keeps (lift o).
Proof. by intros s c x. Qed.
Lemma keeps_entry c : keeps (entry c).
Proof using Hlaws.
  unfold entry. apply keeps_bind; [intros s c' x Hx; pose proof (get_law c CHUNK s) as H; destruct (sget c CHUNK s) as [o s']; by apply H|]. intros bs. repeat case_match; apply keeps_lift.
Qed.
Lemma keeps_append now src knd ct : keeps (append name now src knd ct).
Proof using Hlaws.
  unfold append. do 2 (apply keeps_bind; [apply keeps_lift|intros ?]). apply keeps_bind; [intros s c' x Hx; pose proof (head_law s) as H; destruct (shead name s) as [o s']; by apply H|]. intros [ver root]. apply keeps_bind.
  { destruct root as [h|]; [|case_match; apply keeps_lift]. apply keeps_bind; [apply keeps_entry|]. intros e. case_match; [apply keeps_lift|]. apply keeps_bind; intros; apply keeps_lift. }
  intros [bt pv]. apply keeps_bind; [apply keeps_lift|]. intros sq. apply keeps_bind; [apply keeps_lift|]. intros bs. apply keeps_bind; [intros s c' x Hx; pose proof (put_law bs s) as H; destruct (sput bs s) as [o s']; by apply H|].
  intros c. case_match; [apply keeps_lift|]. apply keeps_bind; [|intros; apply keeps_lift]. intros s c' x Hx. pose proof (publish_law ver c s) as H'. destruct (spublish name ver c s) as [[v|err|] s']; [| |done].
  - destruct H' as (s1 & [Hg _] & _ & _ & Hk). by apply Hk, Hg.
  - assert (grows s s' \/ exists s1, grows s s1 /\ swapped s1 s' ver c) as [[Hg _]|(s1 & [Hg _] & _ & _ & Hk)] by (destruct err; auto); [by apply Hg|by apply Hk, Hg].
Qed.

(** ** Checking a journal that is there *)
Context {H : Type} (f : H -> Entry * Cid -> H).
Lemma down_loop_held fuel most ver ents c after es s h : segment (ver - ents) (Some c) after es 0 None -> (forall e c, (e, c) ∈ es -> held s c (entry_image e)) -> (0 <= ents)%Z -> (ents <= most)%Z -> (Z.min most ver < Z.of_nat fuel + ents)%Z ->
  match down_loop fuel (listen f) most ver ents (ver - ents + 1) c after (s, h) with
  | (Done d, (s', h')) => grows s s' /\ exists k, k = Nat.min (length es) (Z.to_nat (most - ents)) /\ h' = foldl f h (take k es) /\ d = mkChecked ver (ents + Z.of_nat k) (ver - ents - Z.of_nat k + 1) ver
  | (Refuse r, (s', _)) => grows s s' /\ error r = EStore
  | (Crash, _) => False
  end.
Proof using Hlaws.
  revert ents c after es s h. induction fuel as [|fuel IH]; intros ents c after es s h Hs Hh He Hm Hf; destruct es as [|[e c'] es]; [by destruct Hs|pose proof (segment_length _ _ _ _ _ _ Hs); cbn [length] in *; lia|by destruct Hs|]. pose proof (segment_length _ _ _ _ _ _ Hs) as Hlen. cbn [length] in Hlen.
  cbn [down_loop]. destruct (Z.ltb_spec ents most) as [Hlt|Hge]; cbn [negb].
  2: { cbn [mret st_ret]. split; [apply grows_refl|]. exists 0. assert (most = ents) as -> by lia. rewrite Z.sub_diag. split; [by rewrite Nat.min_r by lia|]. split; [done|]. f_equal; lia. }
  rewrite bind_run. unfold lift at 1. unfold minus, checked_sub. rewrite (proj2 (Z.leb_le _ _)) by lia. cbn [or_crash]. rewrite bind_run. destruct Hs as ([= <-] & Hc & Ht & Hv & Hn & Hgb & Hs). unfold on_store at 1.
  pose proof (entry_held s e c (Hh e c ltac:(by left)) Hc Ht Hv) as Hent. destruct (entry c s) as [o s1]. destruct Hent as [Hg [-> | ->]]; cbn [map_err]; [|done]. rewrite Hn, Z.eqb_refl. cbn [negb]. rewrite Hgb. rewrite bind_run. unfold tell, listen at 1. cbn [fst snd].
  destruct (prev e) as [p|] eqn:Ep.
  - specialize (IH (ents + 1)%Z p (Some (time e)) es s1 (f h (e, c))). replace (ver - (ents + 1))%Z with (ver - ents - 1)%Z in IH by lia. replace (ver - ents - 1 + 1)%Z with (ver - ents)%Z in IH by lia.
    specialize (IH Hs ltac:(intros e' c' Hx; apply Hg, Hh; by right) ltac:(lia) ltac:(lia) ltac:(lia)). destruct (down_loop fuel _ _ _ _ _ _ _ _) as [[d|r|] [s2 h2]]; [|destruct IH as [IH1 IH2]; split; [by apply (grows_trans s s1)|done]|done].
    destruct IH as [Hg2 (k & -> & -> & ->)]. split; [by apply (grows_trans s s1)|]. exists (S (Nat.min (length es) (Z.to_nat (most - (ents + 1))))). cbn [length]. split; [lia|]. split; [done|]. f_equal; lia.
  - cbn [mret st_ret]. split; [done|]. destruct es as [|[e' c'] es]; [|by destruct Hs]. exists 1. cbn [length] in *. split; [lia|]. split; [done|]. f_equal; lia.
Qed.
Lemma check_held steps s es h : journal s es -> (0 <= steps)%Z ->
  match check_each name steps (listen f) (s, h) with
  | (Done d, (s', h')) => exists new, let all := new ++ es in all <> [] /\ grows s s' /\ extends all s' /\ d = mkChecked (Z.of_nat (length all)) (Z.of_nat (length all)) 1 (Z.of_nat (length all)) /\ h' = foldl f h all
  | (Refuse r, (s', _)) => grows s s' /\ (error r = EStore \/ error r = ENotFound /\ es = [] \/ error r = ETooLarge /\ (steps < (named s' name).1)%Z)
  | (Crash, (s', _)) => (named s' name).1 = (W64 - 1)%Z
  end.
Proof using Hlaws.
  intros Hj Hst. unfold check_each, down. rewrite !bind_run. unfold on_store at 1. pose proof (head_law s) as Hh. destruct (shead name s) as [o s1]. destruct Hh as [Hg [-> | ->]]; cbn [map_err]; [|split; [done|by left]].
  destruct (proj2 Hg _ Hj) as [new Hj1]. rewrite (journal_root _ _ Hj1). pose proof (j_held _ _ Hj1) as Hheld. pose proof (j_word _ _ Hj1) as Hw. pose proof (j_chain _ _ Hj1) as Hch. rewrite (journal_root _ _ Hj1) in Hch. cbn [snd] in Hch. pose proof (j_named _ _ Hj1) as Hnm. destruct (top_of (new ++ es)) as [c|] eqn:Et.
  2: { assert (new ++ es = []) as E by (destruct (new ++ es) as [|[]]; done). rewrite E. cbn. split; [done|]. right; left. split; [done|]. by apply app_eq_nil in E as [_ ?]. }
  rewrite bind_run. unfold lift at 1. unfold plus, checked_add. destruct (Z.ltb_spec (Z.of_nat (length (new ++ es)) + 1) W64) as [Hlt|Hge]; cbn [or_crash]; [|rewrite Hnm; lia].
  set (ver := Z.of_nat (length (new ++ es))) in *. pose proof (down_loop_held (S (Z.to_nat (Z.min steps ver))) steps ver 0 c None (new ++ es) s1 h) as Hd. rewrite Z.sub_0_r in Hd. specialize (Hd Hch Hheld ltac:(lia) ltac:(lia) ltac:(lia)).
  destruct (down_loop _ _ _ _ _ _ _ _ _) as [[d|r|] [s2 h2]]; [|destruct Hd as [Hg2 Hr]; split; [by apply (grows_trans s s1)|by left]|done]. destruct Hd as [Hg2 (k & Hk & -> & ->)]. cbn [first]. rewrite Z.sub_0_r in *.
  assert (new ++ es <> []) as Hne by (by intros E; rewrite E in Et). destruct (Z.eqb_spec (ver - Z.of_nat k + 1) 1) as [E|E]; cbn [negb].
  - cbn [mret st_ret]. exists new. assert (k = length (new ++ es)) as -> by lia. split; [done|]. split; [by apply (grows_trans s s1)|]. split; [by apply (grows_extends _ _ _ Hg2); exists []|]. split; [f_equal; lia|]. by rewrite take_ge by lia.
  - rewrite bind_run. unfold lift at 1. unfold minus, checked_sub. rewrite (proj2 (Z.leb_le _ _)) by lia. cbn. split; [by apply (grows_trans s s1)|]. right; right. split; [done|]. destruct (proj2 Hg2 _ Hj1) as [more Hj2]. rewrite (j_named _ _ Hj2), length_app. lia.
Qed.
End laws.

(** C24: writers keep a journal. However the writers' appends interleave, an append leaves every block stored and the journal there
    was below what it adds: when it succeeds its entry is the head, numbered next and not before the one below it in time; where another
    writer was first nothing of it is published. It does not panic before the version is the last a word holds. *)
Theorem append_keeps {B} `{!Store B} `{!View B} name now src knd ct (s : B) : StoreLaws name -> word (r_monotonic now) -> word (r_calendar now) -> good ct ->
  match append name now src knd ct s with (o, s') => grows name s s' /\ forall es, journal name s es -> appended name es o s' end.
Proof.
  intros Hl Hm Hc Hg. pose proof (fun es => append_spec name now src knd ct s es Hm Hc Hg) as Ha. pose proof (keeps_append name now src knd ct s) as Hk. destruct (append name now src knd ct s) as [o s']. split; [|done].
  split; [exact Hk|]. intros es Hj. by apply Ha.
Qed.
(** C25: a check of a journal finds it whole. While writers append, a check hears every entry there was when it read the head, newest
    first, and reports them all; it refuses only where the store failed, the journal was empty, or its steps were too few. *)
Theorem check_complete {B} `{!Store B} `{!View B} name steps (s : B) es : StoreLaws name -> journal name s es -> (0 <= steps)%Z ->
  match check_each name steps (listen keep) (s, []) with
  | (Done d, (s', heard)) => exists new, heard = new ++ es /\ extends name heard s' /\ d = mkChecked (Z.of_nat (length heard)) (Z.of_nat (length heard)) 1 (Z.of_nat (length heard))
  | (Refuse r, (s', _)) => error r = EStore \/ error r = ENotFound /\ es = [] \/ error r = ETooLarge /\ (steps < (named s' name).1)%Z
  | (Crash, (s', _)) => (named s' name).1 = (W64 - 1)%Z
  end.
Proof.
  intros Hl Hj Hs. pose proof (check_held name keep steps s es [] Hj Hs) as H. destruct (check_each _ _ _ _) as [[d|r|] [s' h]]; [|by destruct H|done]. destruct H as (new & _ & _ & He & -> & ->). exists new. rewrite foldl_keep. by split_and!.
Qed.

(** ** A store in memory *)
Record Mem : Type := mkMem { mblock : Cid -> option bytes; mname : bytes -> Z * option Cid }.
#[global] Instance mem_view : View Mem := {| held m c x := mblock m c = Some x; named := mname |}.
Definition mem_put (x : bytes) : STE JError Mem Cid := fun m => let c := of_data DagCbor x in
  match mblock m c with
  | Some y => (if decide (x = y) then Done c else Refuse EStore, m)
  | None => (Done c, mkMem (fun c' => if decide (c' = c) then Some x else mblock m c') (mname m))
  end.
Definition mem_publish (n : bytes) (v : Z) (c : Cid) : STE JError Mem Z := fun m =>
  if ((mname m n).1 =? v)%Z then (Done (v + 1)%Z, mkMem (mblock m) (fun n' => if decide (n' = n) then ((v + 1)%Z, Some c) else mname m n')) else (Refuse EConflict, m).
#[global] Instance mem_store : Store Mem := {|
  sput := mem_put; sget c room m := (match mblock m c with None => Refuse EMissing | Some x => if (Z.of_nat (length x) <=? room)%Z then Done x else Refuse EStore end, m);
  shead n m := (Done (mname m n), m); spublish := mem_publish
|}.
Lemma grows_blocks name (s s' : Mem) : mname s' = mname s -> (forall c x, held s c x -> held s' c x) -> grows name s s'.
Proof. intros Hn Hh. split; [done|]. intros es [H1 H2 H3 H4]. exists []. split; cbn in *; rewrite ?Hn; auto. Qed.
#[global] Instance mem_laws name : StoreLaws (B:=Mem) name.
Proof.
  split.
  - intros c room s. cbn. split; [apply grows_refl|]. split; [destruct (mblock s c) as [x|]; [|done]; by destruct (_ <=? _)%Z|]. intros x -> Hl. left. by rewrite (proj2 (Z.leb_le _ _)) by lia.
  - intros s. cbn. split; [apply grows_refl|by left].
  - intros x s. cbn [sput mem_store]. unfold mem_put. destruct (mblock s (of_data DagCbor x)) as [y|] eqn:E.
    + split; [apply grows_refl|]. intros _. destruct (decide (x = y)) as [->|]; by split.
    + split; [|intros _; split; [done|]; intros _; cbn; by rewrite decide_True]. apply grows_blocks; [done|]. intros c z Hz. cbn in *. destruct (decide (c = of_data DagCbor x)) as [->|]; [congruence|done].
  - intros v c s. cbn [spublish mem_store]. unfold mem_publish. destruct (Z.eqb_spec (mname s name).1 v) as [E|E]; [|apply grows_refl]. exists s. split; [apply grows_refl|]. split; [done|]. split; [cbn; by rewrite decide_True|done].
Qed.
Definition demo_name : bytes := [106%Z].
Definition mem_empty : Mem := mkMem (fun _ => None) (fun _ => (0%Z, None)).
Lemma empty_journal : journal demo_name mem_empty [].
Proof. split; [done|by split|by intros e c ?%not_elem_of_nil|done]. Qed.
Lemma append_keeps_witness : match append demo_name (mkReading 5 0 NoClock) [97%Z] [98%Z] demo_cid mem_empty with (o, s') => appended demo_name [] o s' end.
Proof.
  pose proof (append_keeps demo_name (mkReading 5 0 NoClock) [97%Z] [98%Z] demo_cid mem_empty _ ltac:(done) ltac:(done) ltac:(split; [reflexivity|repeat constructor; discriminate])) as H.
  destruct (append demo_name (mkReading 5 0 NoClock) [97%Z] [98%Z] demo_cid mem_empty) as [o s']. destruct H as [_ H]. exact (H [] empty_journal).
Defined.
Definition demo_first : Entry := mkEntry 1 (mkTime 1 300 0 NoClock) demo_label demo_label demo_cid None.
Definition mem_one : Mem := mkMem (fun c => if decide (c = of_data DagCbor (entry_image demo_first)) then Some (entry_image demo_first) else None) (fun _ => (1%Z, Some (of_data DagCbor (entry_image demo_first)))).
Lemma one_journal : journal demo_name mem_one [(demo_first, of_data DagCbor (entry_image demo_first))].
Proof.
  split; [done| | |done].
  - cbn [length]. unfold chain. cbn [segment named mem_view mem_one mname snd]. do 2 (split; [done|]). split; [|done]. constructor; try done; try (by exists [108; 111; 103]%Z). split; [reflexivity|repeat constructor; discriminate].
  - intros e c [= -> ->]%list_elem_of_singleton. cbn. by rewrite decide_True.
Qed.
Lemma check_complete_witness : match check_each demo_name 5 (listen keep) (mem_one, []) with
  | (Done d, (s', heard)) => exists new, heard = new ++ [(demo_first, of_data DagCbor (entry_image demo_first))]
  | (Refuse r, (s', _)) => True
  | (Crash, (s', _)) => (named s' demo_name).1 = (W64 - 1)%Z
  end.
Proof.
  pose proof (check_complete demo_name 5 mem_one _ _ one_journal ltac:(done)) as H. destruct (check_each demo_name 5 (listen keep) (mem_one, [])) as [[d|r|] [s' h]]; [|exact I|exact H]. destruct H as (new & H & _). exists new. exact H.
Defined.

(** A store that answers everything with one entry, the only one of its journal: the check of it succeeds and hears it. *)
Definition first_bytes : bytes := Eval vm_compute in entry_image demo_first.
Definition first_cid : Cid := of_data DagCbor (entry_image demo_first).
Inductive Parrot : Type := parrot.
Definition parrot_store : Store Parrot := {| sput x s := (Refuse EStore, s); sget c room s := if (Z.of_nat (length first_bytes) <=? room)%Z then (Done first_bytes, s) else (Refuse EStore, s); shead n s := (Done (1%Z, Some first_cid), s); spublish n v c s := (Refuse EStore, s) |}.
Lemma parrot_answers : answers Parrot (Store0:=parrot_store).
Proof.
  intros c room s. cbn [sget parrot_store]. destruct (Z.leb_spec (Z.of_nat (length first_bytes)) room); cbn [fst yields]; [|exact I]. split; [assumption|]. unfold first_bytes, is_byte. repeat (constructor; [split; [discriminate|reflexivity]|]). constructor.
Qed.
Lemma parrot_entry : entry (Store0:=parrot_store) first_cid parrot = (Done demo_first, parrot).
Proof.
  assert (Z.of_nat (length first_bytes) <= CHUNK)%Z as Hl by (vm_compute; intros [=]).
  unfold entry, mbind, st_bind. cbn [sget parrot_store]. rewrite (proj2 (Z.leb_le _ _) Hl). cbv beta iota. rewrite (proj2 (Z.ltb_ge _ _) Hl).
  assert (matches first_cid first_bytes = true) as -> by (change first_bytes with (entry_image demo_first); apply matches_of_data; reflexivity). cbn [negb].
  rewrite bool_decide_eq_true_2 by reflexivity. cbn [negb]. unfold lift. assert (decode first_bytes = Done demo_first) as -> by (vm_compute; reflexivity). reflexivity.
Qed.
Lemma parrot_checks : check_each (B:=Parrot) (Store0:=parrot_store) [106%Z] 5 (listen keep) (parrot, []) = (Done (mkChecked 1 1 1 1), (parrot, [(demo_first, first_cid)])).
Proof.
  unfold check_each, down, mbind, st_bind, on_store, lift. cbn [shead parrot_store map_err fst snd]. change (plus 1 1) with (Done (E:=Refused) 2%Z). cbv beta iota.
  change (S (Z.to_nat (Z.min 5 1))) with 2. cbn [down_loop]. change (0 <? 5)%Z with true. cbn [negb]. unfold mbind, st_bind, on_store, lift. change (minus 1 0) with (Done (E:=Refused) 1%Z). cbv beta iota. cbn [fst snd].
  rewrite parrot_entry. cbn [map_err]. reflexivity.
Qed.
Lemma journal_sound_witness : (check_each (B:=Parrot) (Store0:=parrot_store) [106%Z] 5 (listen keep) (parrot, [])).1 = Done (mkChecked 1 1 1 1) /\
  chain 1 (Some first_cid) [(demo_first, first_cid)] /\ forall other, chain 1 (Some first_cid) other -> no_collision [(demo_first, first_cid)] other -> [(demo_first, first_cid)] = other.
Proof.
  pose proof (journal_sound (B:=Parrot) (Store0:=parrot_store) [106%Z] 5 parrot 1 first_cid parrot parrot_answers eq_refl ltac:(discriminate) ltac:(reflexivity) ltac:(discriminate)) as H.
  rewrite parrot_checks. rewrite parrot_checks in H. cbv beta iota in H. destruct H as [_ H]. split; [exact (eq_refl (Done (mkChecked 1 1 1 1)))|]. exact H.
Defined.
