(* ===== verification/Tour.v ===== *)
(** * Walks of directory trees and of journals ([libmind/src/tree.rs], [libmind/src/journal.rs]: [walk], [size])

    A root is a file, a directory or a journal's entry; a walk visits its blocks within a number of steps, the directories
    on the way down a stack, each one read again on the way back. The theorem: whatever the store answers, a walk does not
    panic and ends, and where it succeeds every block under the root was visited, as long as the store never gives
    two different blocks that match one CID. *)
From S2P Require Import Prelude Outcome Sha256 Cid Cbor Dag DagTree Directory Journal.
Local Open Scope nat_scope.

Definition DEPTH : nat := 32.

Section tours.
Context {B : Type} `{!Blocks B}.

(** The steps left ([Cell<u64>], shared with the walks of files) beside the store. *)
Definition beside {A} (m : ST B A) : ST (Z * B) A := fun '(l, s) => let '(o, s) := m s in (o, (l, s)).
#[local] Instance counted_blocks : Blocks (Z * B) := {|
  put k x := beside (put k x);
  get c room := beside (get c room);
  has c := beside (has c)
|}.
Abbreviation T := (ST (Z * B)).
Definition step : T unit := fun '(l, s) =>
  match checked_sub l 1 with Some n => (Done tt, (n, s)) | None => (Refuse TooLarge, (l, s)) end.
Definition steps_left : T Z := fun s => (Done s.1, s).

(** *** Trees *)
Definition entries (c : Cid) : T (option nat) :=
  if decide (codec c = DagCbor) then
    bs ← fetch c;
    match Directory.decode bs with Done d => mret (Some (length (starts d))) | Refuse _ => mret None | Crash => lift Crash end
  else mret None.
Definition file (whole : bool) (visit : Cid -> T unit) (c : Cid) : T Z := if whole then Dag.walk c visit else Dag.size c.
(** A directory read, a file's node in its place told apart. *)
Definition directory (c : Cid) : T Dir :=
  bs ← fetch c;
  match Directory.decode bs with
  | Refuse Format => match Dag.decode bs with Done _ => fail Shape | Refuse _ => fail Format | Crash => lift Crash end
  | o => lift o
  end.
(** A file's bytes, a directory in its place told apart. *)
Definition held_file (whole : bool) (visit : Cid -> T unit) (c : Cid) : T Z := fun s =>
  match file whole visit c s with
  | (Refuse Format, s) => match entries c s with (Done (Some _), s) => (Refuse Shape, s) | (Crash, s) => (Crash, s) | (_, s) => (Refuse Format, s) end
  | r => r
  end.

(** The stack holds each directory's CID, the entries its parent says it has and the next entry, the innermost first. *)
Fixpoint tour_loop (fuel : nat) (whole : bool) (visit : Cid -> T unit) (stack : list (Cid * Z * nat)) (total : Z) : T Z :=
  match fuel with
  | O => lift Crash
  | S fuel =>
      match stack with
      | [] => mret total
      | (c, count, next) :: rest =>
          d ← directory c;
          let n := length (starts d) in
          if negb (Z.of_nat n =? count)%Z then fail Shape else
          if next =? n then tour_loop fuel whole visit rest total else
          _ ← step;
          e ← lift (dir_entry d next);
          let stack := (c, count, next + 1) :: rest in
          match dkind e with
          | File =>
              held ← held_file whole visit (dcid e);
              if negb (held =? dsize e)%Z then fail Shape else
              total ← lift (or_refuse (checked_add total (dsize e)) TooLarge);
              tour_loop fuel whole visit stack total
          | Directory =>
              if length stack =? DEPTH then fail Shape else
              _ ← visit (dcid e);
              tour_loop fuel whole visit ((dcid e, dsize e, 0) :: stack) total
          end
      end
  end.
Definition tour (whole : bool) (root : Cid) (visit : Cid -> ST B unit) : T Z :=
  let visit c := _ ← step; beside (visit c) in
  n ← entries root;
  match n with
  | None => file whole visit root
  | Some count =>
      _ ← visit root;
      n ← steps_left;
      tour_loop (Z.to_nat (2 * n + 3)) whole visit [(root, Z.of_nat count, 0)] 0
  end.
Definition walk_from (root : Cid) (visit : Cid -> ST B unit) : T Z := tour true root visit.
Definition size_from (root : Cid) : T Z := tour false root (fun _ => mret tt).
(** [m] with [steps] steps, those not taken forgotten. *)
Definition within {A} (steps : Z) (m : T A) : ST B A := fun s => let '(o, (_, s)) := m (steps, s) in (o, s).
Definition tree_walk (root : Cid) (steps : Z) (visit : Cid -> ST B unit) : ST B Z := within steps (walk_from root visit).
Definition tree_size (root : Cid) (steps : Z) : ST B Z := within steps (size_from root).

(** *** Journals *)
Definition read (c : Cid) : T (option Journal.Entry) :=
  if decide (codec c = DagCbor) then
    bs ← fetch c;
    match Journal.decode bs with Done e => mret (Some e) | Refuse _ => mret None | Crash => lift Crash end
  else mret None.
Fixpoint journal_loop (fuel : nat) (whole : bool) (visit : Cid -> ST B unit) (c : Cid) (e : Journal.Entry) (total : Z) : T Z :=
  match fuel with
  | O => lift Crash
  | S fuel =>
      _ ← step;
      _ ← beside (visit c);
      held ← (if whole then walk_from (content e) visit else size_from (content e));
      total ← lift (or_refuse (checked_add total held) TooLarge);
      match prev e with
      | None => mret total
      | Some p =>
          r ← read p;
          b ← lift (or_refuse r Shape);
          below ← lift (minus (seq_no e) 1);
          if negb (seq_no b =? below)%Z then fail Shape else
          journal_loop fuel whole visit p b total
      end
  end.
Definition journal_tour (whole : bool) (root : Cid) (steps : Z) (visit : Cid -> ST B unit) : ST B Z :=
  within steps (
    r ← read root;
    match r with
    | None => if whole then walk_from root visit else size_from root
    | Some e => journal_loop (Z.to_nat (steps + 1)) whole visit root e 0
    end).
Definition walk (root : Cid) (steps : Z) (visit : Cid -> ST B unit) : ST B Z := journal_tour true root steps visit.
Definition size (root : Cid) (steps : Z) : ST B Z := journal_tour false root steps (fun _ => mret tt).
End tours.

(** ** Runs over any store *)
Section goes.
Context {E S : Type} (J : S -> Prop) (R : S -> S -> Prop) `{!PreOrder R}.
(** A run from an [s] with [J] does not panic and [J] holds again; if it ends well the state went by [R] and [Q] holds. *)
Definition goes {A} (m : STE E S A) (s : S) (Q : A -> S -> Prop) : Prop :=
  J s -> match m s with (Done a, s') => J s' /\ R s s' /\ Q a s' | (Refuse _, s') => J s' | (Crash, _) => False end.
Lemma goes_bind {A C} (m : STE E S A) (k : A -> STE E S C) s P Q : goes m s P -> (forall a s', R s s' -> P a s' -> goes (k a) s' Q) -> goes (m ≫= k) s Q.
Proof using PreOrder0.
  unfold goes, mbind, st_bind. intros Hm Hk Hj. specialize (Hm Hj). destruct (m s) as [[a| |] s']; [|done|done]. destruct Hm as (Hj' & Hr & Hp). specialize (Hk a s' Hr Hp Hj'). destruct (k a s') as [[c| |] s'']; [|done|done]. destruct Hk as (Hj2 & Hr' & Hq). split_and!; [done|by transitivity s'|done].
Qed.
Lemma goes_ret {A} (a : A) s (Q : A -> S -> Prop) : Q a s -> goes (mret a) s Q.
Proof using PreOrder0. intros H Hj. cbn. split_and!; [done|reflexivity|done]. Qed.
Lemma goes_lift {A} (o : outcome E A) s (Q : A -> S -> Prop) : yields (fun a => Q a s) o -> goes (lift o) s Q.
Proof using PreOrder0. unfold goes. destruct o; cbn; [intros ? Hj; split_and!; [done|reflexivity|done]|done|done]. Qed.
Lemma goes_fail {A} e s (Q : A -> S -> Prop) : goes (fail e) s Q.
Proof. by intros Hj. Qed.
Lemma goes_weaken {A} (m : STE E S A) s (P Q : A -> S -> Prop) : goes m s P -> (forall a s', R s s' -> P a s' -> Q a s') -> goes m s Q.
Proof. unfold goes. intros Hm H Hj. specialize (Hm Hj). destruct (m s) as [[a| |] s']; naive_solver. Qed.
End goes.
(** A refusal, with nothing to show. *)
Ltac stop := solve [done | intros ?; done].

(** ** Files: nodes that nobody vouched for *)
#[local] Opaque CHUNK FANOUT.
Lemma node_facts bs n : Forall is_byte bs -> Dag.decode bs = Done n -> (0 <= nsize n < W64)%Z /\ forall i, i < ncount n -> exists x, node_link n i = Done x.
Proof.
  intros Hb E. pose proof (decode_only bs Hb) as H. rewrite E in H. destruct H as (size & cids & (Hs & Hne & Hl & Hg) & -> & ->). split; [done|]. cbn [ncount]. intros i Hi. destruct (lookup_lt_is_Some_2 cids i Hi) as [c Hc].
  exists c. apply (node_link_ok size _ _ cids i c); [by eapply Forall_lookup_1|done|]. intros k x Hx. rewrite <- (app_nil_r (links_image cids)). by apply links_slice.
Qed.
Lemma any_other_facts n c ks : (forall i, i ∈ ks -> exists x, node_link n i = Done x) -> yields (fun b => b = false -> forall i x, i ∈ ks -> node_link n i = Done x -> codec x = c) (any_other n c ks).
Proof.
  induction ks as [|k ks IH]; intros Hl; cbn [any_other]; [intros _ i x Hi; by apply elem_of_nil in Hi|]. destruct (Hl k) as [x Ex]; [set_solver|]. rewrite Ex. cbn [mbind outcome_bind]. case_decide as Hd; [|done].
  apply yields_iff. destruct (proj1 (yields_iff _ _) (IH ltac:(intros; apply Hl; set_solver))) as [Hs Hy]. split; [done|]. intros b Eb Hf i y [->|Hi]%elem_of_cons Ey; [congruence|by eapply Hy].
Qed.
Lemma check_facts bs n h t : Forall is_byte bs -> Dag.decode bs = Done n ->
  yields (fun _ => nsize n = t /\ Z.of_nat (ncount n) = div_ceil t (capacity h) /\ forall i x, i < ncount n -> node_link n i = Done x -> codec x = if h =? 1 then Raw else DagCbor) (Dag.check n h t).
Proof.
  intros Hb E. destruct (node_facts bs n Hb E) as [_ Hl]. unfold Dag.check. destruct (_ || _)%bool eqn:Hc; [done|]. pose proof (any_other_facts n (if h =? 1 then Raw else DagCbor) (seq 0 (ncount n)) ltac:(intros i Hi%list_elem_of_In%in_seq; apply Hl; lia)) as H.
  apply yields_iff in H as [Hs Hy]. apply yields_bind; [done|]. intros b Eb. specialize (Hy b Eb).
  destruct b; [done|]. cbn. split_and!; [lia|lia|]. intros i x Hi. apply Hy; [done|]. apply list_elem_of_In, in_seq. lia.
Qed.

(** ** What is under a root *)
Section under.
(** [U c x]: the store gives [x] for [c]; where it matches the CID, always the same. *)
Context (U : Cid -> bytes -> Prop) (HU : forall c x y, U c x -> U c y -> matches c x = true -> matches c y = true -> x = y).
Definition names (c : Cid) (bs : bytes) : Prop := codec c = DagCbor /\ U c bs /\ matches c bs = true /\ Forall is_byte bs.
Inductive in_file : Cid -> Cid -> Prop :=
| in_file_root c : in_file c c
| in_file_link c bs n i x y : names c bs -> Dag.decode bs = Done n -> i < ncount n -> node_link n i = Done x -> in_file x y -> in_file c y.
Inductive in_tree : Cid -> Cid -> Prop :=
| in_tree_file c x : in_file c x -> in_tree c x
| in_tree_entry c bs d i e x : names c bs -> Directory.decode bs = Done d -> i < length (starts d) -> dir_entry d i = Done e -> dkind e = File -> in_file (dcid e) x -> in_tree c x
| in_tree_below c bs d i e x : names c bs -> Directory.decode bs = Done d -> i < length (starts d) -> dir_entry d i = Done e -> dkind e = Directory -> in_tree (dcid e) x -> in_tree c x.
Inductive in_journal : Cid -> Cid -> Prop :=
| in_journal_tree c x : in_tree c x -> in_journal c x
| in_journal_content c bs e x : names c bs -> Journal.decode bs = Done e -> in_tree (content e) x -> in_journal c x
| in_journal_prev c bs e p x : names c bs -> Journal.decode bs = Done e -> prev e = Some p -> in_journal p x -> in_journal c x.

Lemma names_one c x y : names c x -> names c y -> x = y.
Proof using HU. intros (_ & Hx & Mx & _) (_ & Hy & My & _). by apply (HU c). Qed.
Ltac keys_inv H := done_inv H; match goal with p : (_ * In)%type |- _ => let k := fresh "k" in let i := fresh "i" in destruct p as [k i]; done_inv H; match goal with q : (_ * In)%type |- _ => destruct q; done_inv H end; exists_keys k i end
with exists_keys k i := first [exists k, i; split; [done|lia]|exists i; first [assert (k = 3%Z) by lia|assert (k = 2%Z) by lia]; congruence].
(** The three kinds of block are told apart by the number of their keys. *)
Lemma decode_keys bs n : Dag.decode bs = Done n -> exists i, expect 5 (mkIn bs 0) = Done (3%Z, i).
Proof using. unfold Dag.decode. intros H. keys_inv H. Qed.
Lemma decode_dir_keys bs d : Directory.decode bs = Done d -> exists i, expect 5 (mkIn bs 0) = Done (2%Z, i).
Proof using. unfold Directory.decode. intros H. keys_inv H. Qed.
Lemma decode_journal_keys bs e : Journal.decode bs = Done e -> exists k i, expect 5 (mkIn bs 0) = Done (k, i) /\ (9 <= k)%Z.
Proof using. unfold Journal.decode. intros H. keys_inv H. Qed.
Lemma dir_not_node bs d n : Directory.decode bs = Done d -> Dag.decode bs = Done n -> False.
Proof using. intros (i & H)%decode_dir_keys (j & H')%decode_keys. congruence. Qed.
Lemma entry_not_node bs e n : Journal.decode bs = Done e -> Dag.decode bs = Done n -> False.
Proof using. intros (k & i & H & Hk)%decode_journal_keys (j & H')%decode_keys. assert (k = 3%Z) by congruence. lia. Qed.
Lemma entry_not_dir bs e d : Journal.decode bs = Done e -> Directory.decode bs = Done d -> False.
Proof using. intros (k & i & H & Hk)%decode_journal_keys (j & H')%decode_dir_keys. assert (k = 2%Z) by congruence. lia. Qed.
Lemma in_file_raw c x : codec c = Raw -> in_file c x -> x = c.
Proof using. intros Hc H. inversion H; subst; [done|]. unfold names in *. destruct_and!. congruence. Qed.

Section any_store.
Context {St : Type} `{!Blocks St} (J : St -> Prop) (R : St -> St -> Prop) `{!PreOrder R} (seen : St -> Cid -> Prop) (seen_mono : forall s s' c, R s s' -> seen s c -> seen s' c).
Context (get_goes : forall c room s, goes J R (get c room) s (fun bs _ => (zlen bs <= room)%Z /\ Forall is_byte bs /\ U c bs)).

Lemma fetch_goes c s : goes J R (fetch c) s (fun bs _ => codec c = DagCbor -> names c bs).
Proof using All.
  unfold fetch. eapply goes_bind; [done|apply get_goes|]. cbv beta. intros bs s' _ (Hl & Hb & Hu). rewrite (proj2 (Z.ltb_ge _ _)) by done. destruct (matches c bs) eqn:Em; [|stop]. apply goes_ret; [stop|]. done.
Qed.
Lemma node_goes c s : goes J R (node c) s (fun n _ => exists bs, names c bs /\ Dag.decode bs = Done n).
Proof using All.
  unfold node. case_decide as Hc; [|stop]. eapply goes_bind; [done|apply fetch_goes|]. cbv beta. intros bs s' _ Hn. specialize (Hn Hc). apply goes_lift; [stop|]. apply yields_iff. split; [|eauto]. destruct Hn as (_ & _ & _ & Hb). apply (proj1 (proj1 (yields_iff _ _) (decode_only bs Hb))).
Qed.
(** [n] is the checked node of [c], of height [h] over [t] bytes. *)
Definition checked_node (c : Cid) (n : Node) (h : nat) (t : Z) : Prop := exists bs, names c bs /\ Dag.decode bs = Done n /\ (0 <= t < W64)%Z /\
  nsize n = t /\ Z.of_nat (ncount n) = div_ceil t (capacity h) /\ (forall i, i < ncount n -> exists x, node_link n i = Done x) /\ forall i x, i < ncount n -> node_link n i = Done x -> codec x = if h =? 1 then Raw else DagCbor.
Lemma check_goes c bs n h t s : names c bs -> Dag.decode bs = Done n -> goes J R (lift (Dag.check n h t)) s (fun _ _ => checked_node c n h t).
Proof using All.
  intros Hn E. assert (Forall is_byte bs) as Hb by apply Hn. apply goes_lift; [stop|]. pose proof (check_facts bs n h t Hb E) as H. destruct (Dag.check n h t); [|done|done]. cbn in *. destruct H as (Es & Hc & Hk). destruct (node_facts bs n Hb E) as [Hs Hl].
  exists bs. subst t. done.
Qed.
Lemma size_goes c s : goes J R (Dag.size c) s (fun t _ => codec c = DagCbor -> height t <> 0 /\ exists n, checked_node c n (height t) t).
Proof using All.
  unfold Dag.size. destruct (codec c) eqn:Ec.
  - eapply goes_bind; [done|apply fetch_goes|]. cbv beta. intros bs s' _ _. by apply goes_ret.
  - eapply goes_bind; [done|apply node_goes|]. cbv beta. intros n s' _ (bs & Hn & E). case_match eqn:Eh; [stop|]. apply Nat.eqb_neq in Eh. eapply goes_bind; [done|by eapply check_goes|]. cbv beta. intros _ s2 _ Hk. apply goes_ret; [stop|]. eauto.
Qed.

Context (visit : Cid -> ST St unit) (visit_goes : forall c s, goes J R (visit c) s (fun _ s' => seen s' c)).
Fixpoint path_seen (V : Cid -> Prop) (h : nat) (c : Cid) (held w : Z) : Prop :=
  match h with
  | O => False
  | 1 => exists n, checked_node c n h held /\ forall i x, i < ncount n -> node_link n i = Done x -> V x
  | S h' => exists n x held' w', checked_node c n h held /\ child_of n h held w = Done (x, held', w') /\ V x /\ path_seen V h' x held' w'
  end.
Lemma path_seen_mono (V V' : Cid -> Prop) h c held w : (forall x, V x -> V' x) -> path_seen V h c held w -> path_seen V' h c held w.
Proof using All. intros HV. revert c held w. induction h as [|[|h] IH]; intros c held w; cbn [path_seen]; [done|naive_solver|]. intros (n & x & h1 & w1 & ? & ? & ? & ?). exists n, x, h1, w1. split_and!; [done|done|by apply HV|by apply IH]. Qed.
Lemma visit_links_goes n ks s : (forall i, i ∈ ks -> exists x, node_link n i = Done x) -> goes J R (visit_links visit n ks) s (fun _ s' => forall i x, i ∈ ks -> node_link n i = Done x -> seen s' x).
Proof using All.
  revert s. induction ks as [|k ks IH]; intros s Hl; cbn [visit_links]; [apply goes_ret; [stop|]; intros i x Hi; by apply elem_of_nil in Hi|]. destruct (Hl k) as [y Ey]; [set_solver|].
  eapply goes_bind; [done|apply (goes_lift J R _ _ (fun x _ => x = y)); by rewrite Ey|]. cbv beta. intros _ s1 _ ->. eapply goes_bind; [done|apply visit_goes|]. cbv beta. intros _ s2 _ Hy.
  eapply goes_weaken; [apply IH; intros; apply Hl; set_solver|]. cbv beta. intros _ s3 Hr H i x [->|Hi]%elem_of_cons Ex; [|by eapply H]. assert (x = y) as -> by congruence. by eapply seen_mono.
Qed.
Lemma child_facts c n h held w : checked_node c n (S h) held -> (0 <= w < held)%Z -> let k := Z.to_nat (w / cap h) in exists x, k < ncount n /\ node_link n k = Done x /\ child_of n (S h) held w = Done (x, Z.min (cap h) (held - Z.of_nat k * cap h), w mod cap h)%Z.
Proof using All.
  intros (bs & _ & _ & Ht & _ & Hc & Hl & _) Hw k. rewrite capacity_S in Hc. pose proof (cap_pos h) as Hp. destruct (div_ceil_spec held (cap h) ltac:(lia) Hp) as [H1 H2]. pose proof (Z.div_pos w (cap h) ltac:(lia) Hp) as H3. pose proof (Z.mul_div_le w (cap h) Hp) as H4.
  assert (k < ncount n) as Hk by (unfold k; nia). destruct (Hl k Hk) as [x Ex]. exists x. split_and!; [done|done|]. unfold child_of. rewrite capacity_S. fold k. rewrite Ex. cbn [mbind outcome_bind]. unfold minus, checked_sub. rewrite !(proj2 (Z.leb_le _ _)) by nia. cbn [or_crash mbind outcome_bind].
  assert (Z.of_nat k = w / cap h)%Z as -> by (unfold k; lia). do 2 f_equal. rewrite Z.mod_eq by lia. lia.
Qed.
Lemma walk_down_goes h c held w s : h <> 0 -> (0 <= w < held)%Z -> goes J R (walk_down visit h c held w) s (fun _ s' => path_seen (seen s') h c held w).
Proof using All.
  revert c held w s. induction h as [|h IH]; intros c held w s Hh Hw; [stop|]. cbn [walk_down]. eapply goes_bind; [done|apply node_goes|]. cbv beta. intros n s1 _ (bs & Hn & E). eapply goes_bind; [done|by eapply check_goes|]. cbv beta. intros _ s2 _ Hk.
  destruct h as [|h].
  - eapply goes_weaken; [apply visit_links_goes|]; [destruct Hk as (? & _ & _ & _ & _ & _ & Hl & _); intros i Hi%list_elem_of_In%in_seq; apply Hl; lia|]. cbv beta. intros _ s3 _ H. cbn [path_seen]. exists n. split; [stop|]. intros i x Hi. apply H, list_elem_of_In, in_seq. lia.
  - destruct (child_facts c n (S h) held w Hk Hw) as (x & Hi & Ex & Ec). pose proof (cap_pos (S h)) as Hp. pose proof (Z.mod_pos_bound w _ Hp) as Hm. eapply goes_bind; [done|apply (goes_lift J R _ _ (fun a _ => a = (x, Z.min (cap (S h)) (held - Z.of_nat (Z.to_nat (w / cap (S h))) * cap (S h)), w mod cap (S h))%Z)); by rewrite Ec|].
    cbv beta. intros [[x' held'] w'] s3 _ [= -> -> ->]. eapply goes_bind; [done|apply visit_goes|]. cbv beta. intros _ s4 _ Hx. pose proof (Z.div_pos w _ ltac:(lia) Hp). pose proof (Z.div_mod w (cap (S h)) ltac:(lia)). eapply goes_weaken; [apply IH; [done|rewrite Z2Nat.id by done; lia]|]. cbv beta. intros _ s5 Hr H5.
    cbn [path_seen] in *. eauto 10.
Qed.
Lemma one_node c n h t n' bs' : checked_node c n h t -> names c bs' -> Dag.decode bs' = Done n' -> n' = n.
Proof using All. intros (bs & Hn & E & _) Hn' E'. rewrite (names_one c bs' bs Hn' Hn) in E'. congruence. Qed.
(** A node's children are all on paths to the leaves below it. *)
Lemma paths_cover (V : Cid -> Prop) h c held y : h <> 0 -> (0 < held)%Z -> (forall w, (0 <= w < held)%Z -> (w mod cap 1 = 0)%Z -> path_seen V h c held w) -> in_file c y -> y = c \/ V y.
Proof using All.
  revert c held. induction h as [|h IH]; intros c held Hh Hheld Hp Hy; [stop|]. inversion Hy as [c'|c' bs n i x y' Hn E Hi Hx Hxy]; subst; [by left|]. right. destruct h as [|h].
  - destruct (Hp 0%Z ltac:(lia) eq_refl) as (n' & Hk & HV). rewrite (one_node _ _ _ _ _ _ Hk Hn E) in Hi, Hx. destruct Hk as (_ & _ & _ & _ & _ & _ & _ & Hc). rewrite (in_file_raw x y (Hc i x Hi Hx) Hxy). by apply (HV i).
  - assert (checked_node c n (S (S h)) held) as Hk by (destruct (Hp 0%Z ltac:(lia) eq_refl) as (n' & ? & ? & ? & Hk & _); by rewrite (one_node _ _ _ _ _ _ Hk Hn E)). pose proof (cap_pos (S h)) as Hcp. destruct (cap_1_multiple h) as [m Hm]. pose proof (cap_pos 1) as Hc1.
    destruct (div_ceil_spec held (cap (S h)) ltac:(lia) Hcp) as [H1 _]. pose proof Hk as (_ & _ & _ & _ & _ & Hcount & _). rewrite capacity_S in Hcount. assert (Z.of_nat i * cap (S h) < held)%Z as Hib by nia.
    assert (forall w, (0 <= w < Z.min (cap (S h)) (held - Z.of_nat i * cap (S h)))%Z -> (w mod cap 1 = 0)%Z -> V x /\ path_seen V (S h) x (Z.min (cap (S h)) (held - Z.of_nat i * cap (S h))) w) as Hbelow.
    { intros w Hw Hwm. set (w' := (w + Z.of_nat i * cap (S h))%Z). assert (w' / cap (S h) = Z.of_nat i)%Z as Hd by (unfold w'; rewrite Z.div_add by lia; rewrite Z.div_small by lia; lia). assert (w' mod cap (S h) = w)%Z as Hmw by (unfold w'; rewrite Z_mod_plus_full; apply Z.mod_small; lia).
      destruct (Hp w') as (n' & x' & h' & w1 & Hk' & Ec & HV & Hps); [unfold w'; lia|unfold w'; rewrite Hm, Z.mul_assoc, Z_mod_plus_full; done|]. rewrite <- (one_node _ _ _ _ _ _ Hk' Hn E) in Ec. destruct (child_facts c n (S h) held w' Hk ltac:(unfold w'; lia)) as (x1 & _ & Ex & Ec1).
      rewrite Hd, Nat2Z.id in Ex. assert (x1 = x) as -> by congruence. rewrite Ec1, Hd, Hmw, Nat2Z.id in Ec. injection Ec as <- <- <-. done. }
    destruct (Hbelow 0%Z) as [Vx _]; [lia|done|]. destruct (IH x (Z.min (cap (S h)) (held - Z.of_nat i * cap (S h)))) as [->|]; [done|lia|intros w Hw Hwm; by apply Hbelow|done|done|done].
Qed.
Lemma walk_leaves_goes root t us s : height t <> 0 -> (forall u, u ∈ us -> (0 <= Z.of_nat u * cap 1 < t)%Z) -> goes J R (walk_leaves visit root t us) s (fun _ s' => forall u, u ∈ us -> path_seen (seen s') (height t) root t (Z.of_nat u * cap 1)).
Proof using All.
  intros Hh. revert s. induction us as [|u us IH]; intros s Hu; cbn [walk_leaves]; [apply goes_ret; [stop|]; intros u Hu'; by apply elem_of_nil in Hu'|]. rewrite capacity_S. eapply goes_bind; [done|apply walk_down_goes; [done|apply Hu; set_solver]|]. cbv beta. intros _ s1 _ H1.
  eapply goes_weaken; [apply IH; intros; apply Hu; set_solver|]. cbv beta. intros _ s2 Hr H2 v [->|Hv]%elem_of_cons; [|by apply H2]. eapply path_seen_mono; [|stop]. intros x. by apply seen_mono.
Qed.
(** Where a file's walk succeeds, every block of it was visited. *)
Lemma walk_goes root s : goes J R (Dag.walk root visit) s (fun _ s' => forall x, in_file root x -> seen s' x).
Proof using All.
  unfold Dag.walk. eapply goes_bind; [done|apply visit_goes|]. cbv beta. intros _ s1 _ Hroot. eapply goes_bind; [done|apply size_goes|]. cbv beta. intros t s2 Hr2 Ht. destruct (codec root) eqn:Ec.
  - apply goes_ret; [stop|]. intros x Hx. rewrite (in_file_raw root x Ec Hx). by eapply seen_mono.
  - destruct (Ht eq_refl) as (Hh & n & Hk). assert (0 <= t < W64)%Z as Ht0 by (by destruct Hk as (? & _ & _ & ? & _)). destruct (height_spec t Ht0) as [_ [|Hcap]]; [stop|]. pose proof (cap_pos (height t - 1)). pose proof (cap_pos 1) as Hc1. destruct (div_ceil_spec t (cap 1) ltac:(lia) Hc1) as [H1 H2].
    set (us := seq 0 _). assert (forall u, u ∈ us <-> (Z.of_nat u * cap 1 < t)%Z) as Hus.
    { intros u. subst us. rewrite capacity_S, list_elem_of_In, in_seq. split; [intros Hu; assert (Z.of_nat u + 1 <= div_ceil t (cap 1))%Z by lia; nia|intros Hu; assert (Z.of_nat u < div_ceil t (cap 1))%Z by nia; lia]. }
    eapply goes_bind; [done|apply (walk_leaves_goes root t us _ Hh); intros u Hu%Hus; lia|]. cbv beta. intros _ s3 Hr3 H3. apply goes_ret; [stop|]. intros x Hx.
    destruct (paths_cover (seen s3) (height t) root t x Hh ltac:(lia)) as [->|]; [|done|eapply seen_mono; [exact Hr3|]; by eapply seen_mono|done]. intros w Hw Hwm. apply Z.mod_divide in Hwm as [q Hq]; [|lia]. assert (0 <= q)%Z by nia.
    rewrite Hq, <- (Z2Nat.id q) by done. apply H3, Hus. rewrite Z2Nat.id by done. lia.
Qed.
End any_store.

(** *** Trees and journals, over the store with the steps beside it *)
Section trees.
Context {B : Type} `{!Blocks B} (J : B -> Prop) (R : B -> B -> Prop) `{!PreOrder R} (seen : B -> Cid -> Prop) (seen_mono : forall s s' c, R s s' -> seen s c -> seen s' c).
Context (get_goes : forall c room s, goes J R (get c room) s (fun bs _ => (zlen bs <= room)%Z /\ Forall is_byte bs /\ U c bs)).
Definition RZ (x y : Z * B) : Prop := (Z.min 0 x.1 <= y.1 <= x.1)%Z /\ R x.2 y.2.
Definition JZ (x : Z * B) : Prop := J x.2.
#[local] Instance RZ_pre : PreOrder RZ.
Proof using PreOrder0. split; [intros [l s]; split; [lia|reflexivity]|intros [l s] [l' s'] [l'' s''] [H1 H2] [H3 H4]; split; [cbn in *; lia|by transitivity s']]. Qed.
#[local] Existing Instance counted_blocks.
Lemma beside_goes {A} (m : ST B A) l s (Q : A -> B -> Prop) : goes J R m s Q -> goes JZ RZ (beside m) (l, s) (fun a x => Q a x.2 /\ x.1 = l).
Proof using All. unfold goes, beside, JZ. intros H Hj. specialize (H Hj). destruct (m s) as [[a| |] s']; [|done|done]. destruct H as (H0 & H1 & H2). split; [done|]. split; [split; [cbn; lia|done]|done]. Qed.
Lemma get_goes_z c room (x : Z * B) : goes JZ RZ (get c room) x (fun bs _ => (zlen bs <= room)%Z /\ Forall is_byte bs /\ U c bs).
Proof using All. destruct x as [l s]. eapply goes_weaken; [apply beside_goes, get_goes|]. cbv beta. intros bs x' _ [H _]. exact H. Qed.
Lemma step_goes (x : Z * B) : goes JZ RZ step x (fun _ y => y.1 = (x.1 - 1)%Z /\ (0 <= y.1)%Z).
Proof using All. destruct x as [l s]. unfold goes, step, checked_sub, JZ. intros Hj. destruct (Z.leb_spec 1 l); [|stop]. split; [stop|]. split; [split; [cbn; lia|cbn; reflexivity]|cbn; lia]. Qed.
Lemma left_goes (x : Z * B) : goes JZ RZ steps_left x (fun a y => a = y.1).
Proof using All. intros Hj. split; [done|]. split; [reflexivity|done]. Qed.
Lemma decode_safe bs : Forall is_byte bs -> Directory.decode bs <> Crash.
Proof using. intros Hb. apply (proj1 (proj1 (yields_iff _ _) (decode_dir_only bs Hb))). Qed.
Lemma fetch_bytes c (x : Z * B) : goes JZ RZ (fetch c) x (fun bs _ => Forall is_byte bs /\ U c bs /\ matches c bs = true).
Proof using All.
  unfold fetch. eapply goes_bind; [apply _|apply get_goes_z|]. cbv beta. intros bs s' _ (Hl & Hb & Hu). rewrite (proj2 (Z.ltb_ge _ _)) by done. destruct (matches c bs) eqn:Em; [|stop]. apply goes_ret; [apply _|]. done.
Qed.
Lemma entries_goes c (x : Z * B) : goes JZ RZ (entries c) x (fun n _ => match n with Some _ => codec c = DagCbor | None => forall bs d, names c bs -> Directory.decode bs = Done d -> False end).
Proof using All.
  unfold entries. case_decide as Hc; [|apply goes_ret; [apply _|]; by intros bs d [? _]]. eapply goes_bind; [apply _|apply fetch_bytes|]. cbv beta. intros bs s' _ (Hb & Hu & Hm). pose proof (decode_safe bs Hb). destruct (Directory.decode bs) as [d|e|] eqn:Ed; [by apply goes_ret; [apply _|]| |done].
  apply goes_ret; [apply _|]. intros bs' d Hn E. rewrite (names_one c bs' bs Hn) in E by done. congruence.
Qed.
(** [d] is the directory [c] names. *)
Definition is_dir (c : Cid) (d : Dir) : Prop := exists bs, names c bs /\ Directory.decode bs = Done d /\ forall i, i < length (starts d) -> exists e, dir_entry d i = Done e /\ entry_ok e.
Lemma directory_goes c (x : Z * B) : codec c = DagCbor -> goes JZ RZ (directory c) x (fun d _ => is_dir c d).
Proof using All.
  intros Hc. unfold directory. eapply goes_bind; [apply _|apply fetch_bytes|]. cbv beta. intros bs s' _ (Hb & Hu & Hm). pose proof (decode_dir_only bs Hb) as Hd. destruct (Directory.decode bs) as [d|e|] eqn:Ed; cbn [yields] in Hd; [| |done].
  - apply goes_lift; [apply _|]. destruct Hd as (es & (Hok & _) & -> & Hl & He). exists (dir_image es). split; [stop|]. split; [stop|]. rewrite Hl. intros i Hi. destruct (lookup_lt_is_Some_2 es i Hi) as [e Hx]. exists e. split; [by apply He|by eapply Forall_lookup_1].
  - destruct e; try stop. pose proof (decode_only bs Hb) as Hn. destruct (Dag.decode bs); stop.
Qed.

Context (visit : Cid -> ST B unit) (visit_goes : forall c s, goes J R (visit c) s (fun _ s' => seen s' c)).
Local Abbreviation seenz := (fun x : Z * B => seen x.2).
Local Abbreviation visitz := (fun c => _ ← step; beside (visit c)).
Lemma visitz_goes c (x : Z * B) : goes JZ RZ (visitz c) x (fun _ y => seen y.2 c).
Proof using All. eapply goes_bind; [apply _|apply step_goes|]. cbv beta. intros _ [l s] _ _. eapply goes_weaken; [apply beside_goes, visit_goes|]. cbv beta. by intros _ x' _ [H _]. Qed.
Lemma file_goes whole c (x : Z * B) : goes JZ RZ (file whole visitz c) x (fun _ y => whole = true -> forall a, in_file c a -> seen y.2 a).
Proof using All.
  unfold file. destruct whole.
  - eapply goes_weaken; [apply (walk_goes JZ RZ seenz); [|apply get_goes_z|apply visitz_goes]|]; [intros ? ? ? [_ H]; by apply seen_mono|]. cbv beta. auto.
  - eapply goes_weaken; [apply (size_goes JZ RZ seenz); [intros ? ? ? [_ H]; by apply seen_mono|apply get_goes_z]|]. done.
Qed.
Lemma held_file_goes whole c (x : Z * B) : goes JZ RZ (held_file whole visitz c) x (fun _ y => whole = true -> forall a, in_file c a -> seen y.2 a).
Proof using All.
  intros Hj. unfold held_file. pose proof (file_goes whole c x Hj) as H. destruct (file whole visitz c x) as [[a|e|] y]; [done| |done]. destruct e; try stop. pose proof (entries_goes c y H) as He. destruct (entries c y) as [[[n|]| |] y']; [apply He|apply He|done|done].
Qed.

(** What is under entries of a directory was visited. *)
Definition below (V : Cid -> Prop) (c : Cid) (d : Dir) (next : nat) : Prop :=
  forall i e x, next <= i < length (starts d) -> dir_entry d i = Done e -> (dkind e = File -> in_file (dcid e) x -> V x) /\ (dkind e = Directory -> in_tree (dcid e) x -> V x).
Lemma below_all (V : Cid -> Prop) c d x : is_dir c d -> V c -> below V c d 0 -> in_tree c x -> V x.
Proof using All.
  intros (bs & Hn & Ed & _) Hc Hb Hx. inversion Hx as [c' x' Hf|c' bs' d' i e x' Hn' E' Hi He Hk Hf|c' bs' d' i e x' Hn' E' Hi He Hk Hf]; subst.
  - inversion Hf as [|c' bs' n i y y' Hn' E']; subst; [stop|]. rewrite (names_one c bs' bs Hn' Hn) in E'. by destruct (dir_not_node bs d n).
  - rewrite (names_one c bs' bs Hn' Hn) in E'. assert (d' = d) as -> by congruence. destruct (Hb i e x ltac:(lia) He) as [H _]; by apply H.
  - rewrite (names_one c bs' bs Hn' Hn) in E'. assert (d' = d) as -> by congruence. destruct (Hb i e x ltac:(lia) He) as [_ H]; by apply H.
Qed.
Lemma dir_one c d d' : is_dir c d -> is_dir c d' -> d = d'.
Proof using All. intros (bs & Hn & E & _) (bs' & Hn' & E' & _). rewrite (names_one c bs' bs Hn' Hn) in E'. congruence. Qed.
Lemma tour_loop_goes fuel whole stack total (x : Z * B) : (2 * Z.max x.1 0 + Z.of_nat (length stack) < Z.of_nat fuel)%Z -> (forall c n k, (c, n, k) ∈ stack -> codec c = DagCbor /\ (Z.of_nat k <= n)%Z) ->
  goes JZ RZ (tour_loop fuel whole visitz stack total) x (fun _ y => whole = true -> forall c n k, (c, n, k) ∈ stack -> exists d, is_dir c d /\ below (seen y.2) c d k).
Proof using All.
  revert stack total x. induction fuel as [|fuel IH]; intros stack total x Hf Hs; [lia|]. cbn [tour_loop]. destruct stack as [|[[c n] k] rest]; [apply goes_ret; [apply _|]; intros _ c n k Hi; by apply elem_of_nil in Hi|].
  cbn [length] in Hf. destruct (Hs c n k ltac:(set_solver)) as [Hc Hkn]. eapply goes_bind; [apply _|by apply directory_goes|]. cbv beta. intros d x1 [Hl1 _] Hd. destruct (Z.eqb_spec (Z.of_nat (length (starts d))) n) as [En|]; [|stop]. cbn [negb]. destruct (Nat.eqb_spec k (length (starts d))) as [->|Hk].
  - eapply goes_weaken; [apply IH; [lia|intros; eapply Hs; by apply elem_of_cons; right]|]. cbv beta. intros _ y _ H W c' n' k' [[= -> -> ->]|Hi]%elem_of_cons; [|by eapply H]. exists d. split; [stop|]. intros i e a Hi. lia.
  - eapply goes_bind; [apply _|apply step_goes|]. cbv beta. intros _ x2 [Hl2 _] [Hx2 Hx20]. pose proof Hd as (bs & Hn & Ed & He). destruct (He k ltac:(lia)) as (e & Ee & Hok). eapply goes_bind; [apply _|apply (goes_lift JZ RZ _ _ (fun a _ => a = e)); by rewrite Ee|]. cbv beta. intros _ x3 [Hl3 _] ->.
    assert (forall c' n' k', (c', n', k') ∈ (c, n, k + 1) :: rest -> codec c' = DagCbor /\ (Z.of_nat k' <= n')%Z) as Hs' by (intros c' n' k' [[= -> -> ->]|Hi]%elem_of_cons; [split; [done|lia]|eapply Hs; by apply elem_of_cons; right]).
    (* What the rest of the loop visits, with entry [k], is what is below from [k] on. *)
    assert (forall y, (dkind e = File -> forall a, in_file (dcid e) a -> seen y a) -> (dkind e = Directory -> forall a, in_tree (dcid e) a -> seen y a) -> (forall c' n' k', (c', n', k') ∈ (c, n, k + 1) :: rest -> exists d, is_dir c' d /\ below (seen y) c' d k') ->
      forall c' n' k', (c', n', k') ∈ (c, n, k) :: rest -> exists d, is_dir c' d /\ below (seen y) c' d k') as Hback.
    { intros y Hfile Hdir H c' n' k' [[= -> -> ->]|Hi]%elem_of_cons; [|eapply H; by apply elem_of_cons; right]. exists d. split; [stop|]. destruct (H c n (k + 1) ltac:(set_solver)) as (d' & Hd' & Hb). rewrite (dir_one c d' d Hd' Hd) in Hb.
      intros i e' a Hi E'. destruct (decide (i = k)) as [->|Hne]; [|apply (Hb i); [lia|done]]. assert (e' = e) as -> by congruence. split; [intros K; by apply Hfile|intros K; by apply Hdir]. }
    destruct (dkind e) eqn:Ek.
    + eapply goes_bind; [apply _|apply held_file_goes|]. cbv beta. intros held x4 [Hl4 _] Hheld. destruct (negb _); [stop|]. eapply goes_bind; [apply _|apply (goes_lift JZ RZ _ _ (fun _ _ => True)); by destruct (checked_add _ _)|]. cbv beta. intros total' x5 [Hl5 Hr5] _.
      pose proof seen_mono as Hmono. eapply goes_weaken; [apply IH; [cbn [length]; lia|done]|]. cbv beta. intros _ y [_ Hr] H W. apply Hback; [intros _ a Ha; eapply Hmono; [|by apply Hheld]; by transitivity x5.2|done|by apply H].
    + destruct (_ =? _); [stop|]. eapply goes_bind; [apply _|apply visitz_goes|]. cbv beta. intros _ x4 [Hl4 _] Hseen. assert (codec (dcid e) = DagCbor /\ (0 <= dsize e)%Z) as [Hce Hse].
      { destruct Hok as (Hv & Hsz & _). split; [|lia]. unfold entry_valid in Hv. rewrite Ek in Hv. apply andb_true_iff in Hv as [_ Hv]. apply orb_true_iff in Hv as [Hv|Hv]; apply bool_decide_eq_true in Hv; done. }
      pose proof seen_mono as Hmono. eapply goes_weaken; [apply IH; [cbn [length]; lia|intros c' n' k' [[= -> -> ->]|Hi]%elem_of_cons; [split; [done|lia]|by apply Hs']]|]. cbv beta. intros _ y [_ Hr] H W. specialize (H W). apply Hback; [done| |intros; eapply H; by apply elem_of_cons; right].
      intros _ a Ha. destruct (H (dcid e) (dsize e) 0 ltac:(set_solver)) as (d' & Hd' & Hb). eapply below_all; [done| |done|done]. by eapply Hmono.
Qed.
(** [visit] through the journal's loop is not counted: its own step was taken before. *)
Lemma tour_goes whole root (x : Z * B) : (0 <= x.1)%Z -> goes JZ RZ (tour whole root visit) x (fun _ y => whole = true -> forall a, in_tree root a -> seen y.2 a).
Proof using All.
  intros H0. unfold tour. eapply goes_bind; [apply _|apply entries_goes|]. cbv beta. intros n x1 [Hl1 _] Hn. destruct n as [count|].
  - eapply goes_bind; [apply _|apply visitz_goes|]. cbv beta. intros _ x2 [Hl2 _] Hseen. eapply goes_bind; [apply _|apply (left_goes x2)|]. cbv beta. intros l x3 [Hl3 Hr3] ->. pose proof seen_mono as Hmono.
    eapply goes_weaken; [apply tour_loop_goes; [cbn [length]; lia|intros c n k [= -> -> ->]%list_elem_of_singleton; split; [exact Hn|lia]]|]. cbv beta. intros _ y [_ Hr] H W a Ha. destruct (H W root (Z.of_nat count) 0 ltac:(set_solver)) as (d & Hd & Hb). eapply below_all; [done| |done|done]. eapply Hmono; [exact Hr|]. by eapply Hmono.
  - eapply goes_weaken; [apply file_goes|]. cbv beta. intros _ y _ H W a Ha. apply H; [stop|]. inversion Ha; subst; [done|exfalso; by eapply Hn|exfalso; by eapply Hn].
Qed.
End trees.

Section journals.
Context {B : Type} `{!Blocks B} (J : B -> Prop) (R : B -> B -> Prop) `{!PreOrder R} (seen : B -> Cid -> Prop) (seen_mono : forall s s' c, R s s' -> seen s c -> seen s' c).
Context (get_goes : forall c room s, goes J R (get c room) s (fun bs _ => (zlen bs <= room)%Z /\ Forall is_byte bs /\ U c bs)).
Context (visit : Cid -> ST B unit) (visit_goes : forall c s, goes J R (visit c) s (fun _ s' => seen s' c)).
#[local] Existing Instance counted_blocks.
#[local] Existing Instance RZ_pre.
Lemma read_goes c (x : Z * B) : goes (JZ J) (RZ R) (read c) x (fun r _ => match r with Some e => exists bs, names c bs /\ Journal.decode bs = Done e | None => forall bs e, names c bs -> Journal.decode bs = Done e -> False end).
Proof using All.
  unfold read. case_decide as Hc; [|apply goes_ret; [apply _|]; by intros bs d [? _]]. eapply goes_bind; [apply _|by eapply (fetch_bytes J R seen)|]. cbv beta. intros bs s' _ (Hb & Hu & Hm). pose proof (decode_journal_only bs Hb) as Hd. destruct (Journal.decode bs) as [e|e|] eqn:Ed; [| |done].
  - apply goes_ret; [apply _|]. by exists bs.
  - apply goes_ret; [apply _|]. intros bs' d Hn E. rewrite (names_one c bs' bs Hn) in E by done. congruence.
Qed.
Lemma content_goes (whole : bool) c (x : Z * B) : (0 <= x.1)%Z -> goes (JZ J) (RZ R) (if whole then walk_from c visit else size_from c) x (fun _ y => whole = true -> forall a, in_tree c a -> seen y.2 a).
Proof using All.
  intros H0. destruct whole; [by apply tour_goes|]. eapply goes_weaken; [apply (tour_goes J R (fun _ _ => True)); [done|done| |done]|done]. intros c' s. by apply goes_ret.
Qed.
Lemma entry_tree c bs e a : names c bs -> Journal.decode bs = Done e -> in_tree c a -> a = c.
Proof using All.
  intros Hn E Ha. inversion Ha as [c' x' Hf|c' bs' d' i e' x' Hn' E' Hi He Hk Hf|c' bs' d' i e' x' Hn' E' Hi He Hk Hf]; subst; [|exfalso..].
  - inversion Hf as [|c' bs' n i y y' Hn' E']; subst; [stop|]. rewrite (names_one c bs' bs Hn' Hn) in E'. by destruct (entry_not_node bs e n).
  - rewrite (names_one c bs' bs Hn' Hn) in E'. by eapply entry_not_dir.
  - rewrite (names_one c bs' bs Hn' Hn) in E'. by eapply entry_not_dir.
Qed.
Lemma journal_loop_goes fuel whole c bs e total (x : Z * B) : (0 <= x.1 < Z.of_nat fuel)%Z -> names c bs -> Journal.decode bs = Done e ->
  goes (JZ J) (RZ R) (journal_loop fuel whole visit c e total) x (fun _ y => whole = true -> forall a, in_journal c a -> seen y.2 a).
Proof using All.
  revert c bs e total x. induction fuel as [|fuel IH]; intros c bs e total x Hf Hn E; [lia|]. cbn [journal_loop]. pose proof seen_mono as Hmono. eapply goes_bind; [apply _|by eapply (step_goes J R seen)|]. cbv beta. intros _ [l s] _ [Hx1 Hx0]. cbn [fst] in *.
  eapply goes_bind; [apply _|eapply (beside_goes J R seen); [done|done|apply visit_goes]|]. cbv beta. intros _ x2 _ [Hseen Hx2]. eapply goes_bind; [apply _|apply content_goes; lia|]. cbv beta. intros held x3 [Hl3 Hr3] Hheld. cbv beta in Hheld.
  eapply goes_bind; [apply _|apply (goes_lift (JZ J) (RZ R) _ _ (fun _ _ => True)); by destruct (checked_add _ _)|]. cbv beta. intros total' x4 [Hl4 Hr4] _.
  (* What the entry itself names is visited, whatever follows. *)
  assert (forall y a, R x4.2 y -> whole = true -> in_journal c a -> (forall p, prev e = Some p -> in_journal p a -> seen y a) -> seen y a) as Hback.
  { intros y a Hr W Ha Hp. inversion Ha as [c' a' Ht|c' bs' e' a' Hn' E' Ht|c' bs' e' p a' Hn' E' Ep Hj]; subst.
    - rewrite (entry_tree c bs e a Hn E Ht). eapply Hmono; [|exact Hseen]. transitivity x3.2; [stop|]. by transitivity x4.2.
    - rewrite (names_one c bs' bs Hn' Hn) in E'. assert (e' = e) as -> by congruence. eapply Hmono; [|by apply Hheld]. by transitivity x4.2.
    - rewrite (names_one c bs' bs Hn' Hn) in E'. assert (e' = e) as -> by congruence. by apply (Hp p). }
  destruct (prev e) as [p|] eqn:Ep.
  - eapply goes_bind; [apply _|apply read_goes|]. cbv beta. intros r x5 [Hl5 Hr5] Hrd. destruct r as [b|]; [|stop]. destruct Hrd as (bs' & Hn' & E'). eapply goes_bind; [apply _|apply (goes_lift (JZ J) (RZ R) _ _ (fun a _ => a = b)); done|]. cbv beta. intros b' x6 [Hl6 Hr6] ->.
    eapply goes_bind; [apply _|apply (goes_lift (JZ J) (RZ R) _ _ (fun _ _ => True))|].
    { pose proof (decode_journal_only bs ltac:(apply Hn)) as Hv. rewrite E in Hv. destruct Hv as (Ht & Hv & _). unfold valid in Hv. rewrite Ep in Hv. unfold minus, checked_sub. rewrite (proj2 (Z.leb_le _ _)); [stop|]. destruct (Z.leb_spec 1 (seq_no e)); [done|discriminate Hv]. }
    cbv beta. intros below x7 [Hl7 Hr7] _. destruct (negb _); [stop|]. eapply goes_weaken; [eapply (IH p bs' b); [lia|done|done]|]. cbv beta. intros _ y [_ Hr] H W a Ha. apply Hback; [|done|done|intros p' [= <-] Hp; by apply H]. transitivity x5.2; [stop|]. transitivity x6.2; [stop|]. by transitivity x7.2.
  - apply goes_ret; [apply _|]. intros W a Ha. apply Hback; [done|done|done|done].
Qed.
Lemma within_goes {A} (Q : A -> B -> Prop) (m : ST (Z * B) A) steps s : goes (JZ J) (RZ R) m (steps, s) (fun a y => Q a y.2) -> goes J R (within steps m) s Q.
Proof using All. unfold within, goes, JZ. intros H Hj. specialize (H Hj). destruct (m (steps, s)) as [[t| |] [l s']]; [|done|done]. destruct H as (Hj' & [_ Hr] & H). done. Qed.
(** A walk, or a size, of any root ends, without a panic; a walk that succeeds visited every block under it. *)
Lemma journal_tour_goes whole root steps s : (0 <= steps)%Z -> goes J R (journal_tour whole root steps visit) s (fun _ s' => whole = true -> forall a, in_journal root a -> seen s' a).
Proof using All.
  intros H0. apply (within_goes (fun _ s' => whole = true -> forall a, in_journal root a -> seen s' a)). eapply goes_bind; [apply _|apply read_goes|]. cbv beta. intros r x1 [Hl1 _] Hr. cbn [fst] in *. destruct r as [e|].
  - destruct Hr as (bs & Hn & E). eapply journal_loop_goes; [lia|done|done].
  - eapply goes_weaken; [apply content_goes; lia|]. cbv beta. intros _ y _ H W a Ha. apply H; [stop|]. inversion Ha; subst; [done|exfalso; by eapply Hr|exfalso; by eapply Hr].
Qed.
End journals.
End under.

(** A block that was visited stays so. *)
Definition keeps {B} (seen : B -> Cid -> Prop) (s s' : B) : Prop := forall c, seen s c -> seen s' c.
#[global] Instance keeps_pre {B} (seen : B -> Cid -> Prop) : PreOrder (keeps seen).
Proof. split; [by intros s c|intros s1 s2 s3 H1 H2 c Hc; auto]. Qed.

(** C27: a walk that succeeds was complete. Whatever blocks the store answers, a walk of a root ends without a panic, and if it
    succeeds every block under the root, of files, of directories and of a journal's entries and contents, was visited, as
    long as the store never gives two different blocks that match one CID. *)
Theorem walk_covers {B} `{!Blocks B} (J : B -> Prop) (U : Cid -> bytes -> Prop) (seen : B -> Cid -> Prop) (visit : Cid -> ST B unit) (root : Cid) (steps : Z) (s : B) :
  (forall c x y, U c x -> U c y -> matches c x = true -> matches c y = true -> x = y) -> (0 <= steps)%Z ->
  (forall c room s, goes J (keeps seen) (get c room) s (fun bs _ => (zlen bs <= room)%Z /\ Forall is_byte bs /\ U c bs)) ->
  (forall c s, goes J (keeps seen) (visit c) s (fun _ s' => seen s' c)) ->
  goes J (keeps seen) (walk root steps visit) s (fun _ s' => forall c, in_journal U root c -> seen s' c).
Proof.
  intros HU H0 Hget Hvisit. eapply goes_weaken; [apply (journal_tour_goes U HU J (keeps seen) seen ltac:(intros ? ? ? H; apply H) Hget visit Hvisit true root steps s H0)|]. cbv beta. auto.
Qed.
(** A store that gives the empty directory whatever is asked for, and the blocks visited. *)
Definition empty_dir : bytes := Eval vm_compute in dir_image [].
Definition one_block : Blocks (list Cid) := {| put k x s := (Refuse Full, s); get c room s := if (13 <=? room)%Z then (Done empty_dir, s) else (Refuse TooLarge, s); has c s := (Done true, s) |}.
Lemma walk_covers_witness : goes (fun _ => True) (keeps (fun s c => c ∈ s)) (walk (Blocks0:=one_block) (of_data DagCbor empty_dir) 8 (fun c s => (Done tt, c :: s))) [] (fun _ s' => of_data DagCbor empty_dir ∈ s').
Proof.
  eapply goes_weaken; [apply (walk_covers (Blocks0:=one_block) (fun _ => True) (fun _ x => x = empty_dir) (fun s c => c ∈ s) (fun c s => (Done tt, c :: s)) (of_data DagCbor empty_dir) 8 [])|].
  - intros c x y -> -> _ _. reflexivity.
  - lia.
  - intros c room s _. unfold get, one_block. destruct (Z.leb_spec 13 room); [|exact I]. split; [exact I|]. split; [intros x Hx; exact Hx|]. split; [exact H|]. split; [|reflexivity]. unfold empty_dir, is_byte. repeat constructor; lia.
  - intros c s _. split; [exact I|]. split; [intros x Hx; by apply elem_of_cons; right|by apply elem_of_cons; left].
  - cbv beta. intros t s' _ Hs. apply Hs. apply in_journal_tree, in_tree_file, in_file_root.
Defined.
