(* ===== verification/TreeDiff.v ===== *)
(** * The comparison of two trees ([libmind/src/tree.rs]: [side], [diff])

    Two directory trees are compared side by side, the entries of each pair of directories merged by name, a pair of
    directories that differ gone into, each pair read again on the way back. The theorem: whatever the store answers, the
    comparison does not panic and ends, and one that succeeds visited, in order and each once, exactly the paths where the
    two trees differ. *)
From S2P Require Import Prelude Outcome Sha256 Cid Cbor Dag DagTree Directory Tour.
From stdpp Require Import sorting.
Local Open Scope nat_scope.

Definition EMPTY : bytes := [0xa2; 0x61; 0x76; 0x01; 0x67; 0x65; 0x6e; 0x74; 0x72; 0x69; 0x65; 0x73; 0x80]%Z.
Record Side : Type := mkSide { skind : Kind; ssize : Z; scid : Cid }.
Definition entry_side (e : DEntry) : Side := mkSide (dkind e) (dsize e) (dcid e).
Inductive Change : Type := Added (s : Side) | Removed (s : Side) | Changed (s s' : Side).
#[global] Instance side_dec : EqDecision Side.
Proof. solve_decision. Defined.
(** A pair of directories: CIDs, the entries their parents say they have, the next entries, the length of the path. *)
Record Pair : Type := mkPair { pcid : option Cid * option Cid; pcount : option Z * option Z; pnext : nat * nat; ppath : nat }.

Section diff.
Context {B : Type} `{!Blocks B}.
#[local] Existing Instance counted_blocks.
Local Abbreviation T := (ST (Z * B)).

Definition side (c : option Cid) (count : option Z) : T Dir :=
  match c with
  | None => lift (Directory.decode EMPTY)
  | Some c =>
      _ ← step;
      if decide (codec c = DagCbor) then
        d ← directory c;
        match count with
        | Some n => if negb (n =? Z.of_nat (length (starts d)))%Z then fail Shape else mret d
        | None => mret d
        end
      else fail Shape
  end.

(** What the entries met say: nothing, a change, or two directories to go into. *)
Inductive met : Type := Same | Differs (name : bytes) (c : Change) | Into (name : bytes) (x y : DEntry).
Definition meet (x y : option DEntry) : outcome Error (met * (nat * nat)) :=
  match x, y with
  | Some x, Some y =>
      if decide (dname x = dname y) then
        if decide (entry_side x = entry_side y) then Done (Same, (1, 1)) else
        if bool_decide (dkind x = Directory) && bool_decide (dkind y = Directory) then Done (Into (dname x) x y, (1, 1)) else
        Done (Differs (dname x) (Changed (entry_side x) (entry_side y)), (1, 1))
      else if before (dname y) (dname x) then Done (Differs (dname y) (Added (entry_side y)), (0, 1))
      else Done (Differs (dname x) (Removed (entry_side x)), (1, 0))
  | Some x, None => Done (Differs (dname x) (Removed (entry_side x)), (1, 0))
  | None, Some y => Done (Differs (dname y) (Added (entry_side y)), (0, 1))
  | None, None => Crash
  end.
Definition entry_of (d : Dir) (i : nat) : outcome Error (option DEntry) :=
  if i <? length (starts d) then e ← dir_entry d i; Done (Some e) else Done None.
(** [path[at..at + data.len()].copy_from_slice(data)], which panics out of range. *)
Definition copy_at (path : bytes) (at_ : nat) (data : bytes) : outcome Error bytes :=
  if at_ + length data <=? length path then Done (take at_ path ++ data ++ drop (at_ + length data) path) else Crash.
(** The path of [name] in the directory whose path has [base] bytes, and its length. *)
Definition path_of (path : bytes) (base : nat) (name : bytes) : outcome Error (bytes * nat) :=
  let at_ := base + (if 0 <? base then 1 else 0) in
  let end_ := at_ + length name in
  if length path <? end_ then Refuse TooLarge else
  path ← (if 0 <? base then copy_at path base [47%Z] else Done path);
  path ← copy_at path at_ name;
  Done (path, end_).

(** The entries of a pair of directories, from [i] and [j] on, to the end or to two directories to go into. *)
Fixpoint merge_loop (fuel : nat) (visit : bytes -> Change -> ST B unit) (one two : Dir) (base depth : nat) (i j : nat) (path : bytes) (changes : Z) : T (option (Pair * (nat * nat)) * bytes * Z) :=
  match fuel with
  | O => lift Crash
  | S fuel =>
      if (i <? length (starts one)) || (j <? length (starts two)) then
        _ ← step;
        x ← lift (entry_of one i);
        y ← lift (entry_of two j);
        r ← lift (meet x y);
        let '(m, (di, dj)) := r in
        match m with
        | Same => merge_loop fuel visit one two base depth (i + di) (j + dj) path changes
        | Differs name c =>
            p ← lift (path_of path base name);
            let '(path, end_) := p in
            _ ← beside (visit (take end_ path) c);
            changes ← lift (or_crash (checked_add changes 1));
            merge_loop fuel visit one two base depth (i + di) (j + dj) path changes
        | Into name x y =>
            p ← lift (path_of path base name);
            let '(path, end_) := p in
            if depth =? DEPTH then fail Shape else
            mret (Some (mkPair (Some (dcid x), Some (dcid y)) (Some (dsize x), Some (dsize y)) (0, 0) end_, (i + di, j + dj)), path, changes)
        end
      else mret (None, path, changes)
  end.
(** The stack, the innermost pair first. *)
Fixpoint diff_loop (fuel : nat) (visit : bytes -> Change -> ST B unit) (stack : list Pair) (path : bytes) (changes : Z) : T Z :=
  match fuel with
  | O => lift Crash
  | S fuel =>
      match stack with
      | [] => mret changes
      | p :: rest =>
          one ← side (pcid p).1 (pcount p).1;
          two ← side (pcid p).2 (pcount p).2;
          let '(i, j) := pnext p in
          r ← merge_loop (S (length (starts one) + length (starts two))) visit one two (ppath p) (length stack) i j path changes;
          let '(down, path, changes) := r in
          match down with
          | Some (q, next) => diff_loop fuel visit (q :: mkPair (pcid p) (pcount p) next (ppath p) :: rest) path changes
          | None => diff_loop fuel visit rest path changes
          end
      end
  end.
Definition diff (a b : option Cid) (path : bytes) (visit : bytes -> Change -> ST B unit) : T Z :=
  if decide (a = b) then mret 0%Z else
  n ← steps_left;
  diff_loop (Z.to_nat (n + 2)) visit [mkPair (a, b) (None, None) (0, 0) 0] path 0.
End diff.

(** ** Where two trees differ *)
Section spec.
(** [U c x]: the store gives [x] for [c]; where it matches the CID, always the same. *)
Context (U : Cid -> bytes -> Prop) (HU : forall c x y, U c x -> U c y -> matches c x = true -> matches c y = true -> x = y).
Definition holds_dir (c : option Cid) (es : list DEntry) : Prop :=
  match c with None => es = [] | Some c => dir_valid es /\ names U c (dir_image es) end.
(** [at_in es p e]: the path [p], a list of names, leads to the entry [e] from a directory with the entries [es]. *)
Inductive at_in : list DEntry -> list bytes -> DEntry -> Prop :=
| at_here es e : e ∈ es -> at_in es [dname e] e
| at_below es d fs p e : d ∈ es -> dkind d = Directory -> holds_dir (Some (dcid d)) fs -> at_in fs p e -> at_in es (dname d :: p) e.
Definition dir_in (es : list DEntry) (p : list bytes) : Prop := p = [] \/ exists d, at_in es p d /\ dkind d = Directory.
(** A path is a change where both trees have its directory and they do not agree on its entry, two directories aside:
    those are compared entry by entry. *)
Definition differs_in (es fs : list DEntry) (p : list bytes) (c : Change) : Prop :=
  match c with
  | Added s => exists y, at_in fs p y /\ s = entry_side y /\ dir_in es (removelast p) /\ forall x, ~ at_in es p x
  | Removed s => exists x, at_in es p x /\ s = entry_side x /\ dir_in fs (removelast p) /\ forall y, ~ at_in fs p y
  | Changed s s' => exists x y, at_in es p x /\ at_in fs p y /\ s = entry_side x /\ s' = entry_side y /\ s <> s' /\ ~ (dkind x = Directory /\ dkind y = Directory)
  end.
Definition differs (a b : option Cid) (p : list bytes) (c : Change) : Prop := exists es fs, holds_dir a es /\ holds_dir b fs /\ differs_in es fs p c.
(** The order of paths: by the bytes of the first names that differ. *)
Inductive path_lt : list bytes -> list bytes -> Prop :=
| path_lt_here n m p q : before n m = true -> path_lt (n :: p) (m :: q)
| path_lt_below n p q : path_lt p q -> path_lt (n :: p) (n :: q).
(** The changes of two ordered lists of entries below [P], as a merge of the two. *)
Definition ahead (n : bytes) (es : list DEntry) : Prop := match es with [] => True | e :: _ => before n (dname e) = true end.
Inductive changes (P : list bytes) : list DEntry -> list DEntry -> list (list bytes * Change) -> Prop :=
| changes_nil : changes P [] [] []
| changes_same x y es fs l : dname x = dname y -> entry_side x = entry_side y -> changes P es fs l -> changes P (x :: es) (y :: fs) l
| changes_changed x y es fs l : dname x = dname y -> entry_side x <> entry_side y -> ~ (dkind x = Directory /\ dkind y = Directory) -> changes P es fs l ->
    changes P (x :: es) (y :: fs) ((P ++ [dname x], Changed (entry_side x) (entry_side y)) :: l)
| changes_into x y es fs es' fs' l l' : dname x = dname y -> entry_side x <> entry_side y -> dkind x = Directory -> dkind y = Directory ->
    holds_dir (Some (dcid x)) es' -> holds_dir (Some (dcid y)) fs' -> changes (P ++ [dname x]) es' fs' l' -> changes P es fs l -> changes P (x :: es) (y :: fs) (l' ++ l)
| changes_added y es fs l : ahead (dname y) es -> changes P es fs l -> changes P es (y :: fs) ((P ++ [dname y], Added (entry_side y)) :: l)
| changes_removed x es fs l : ahead (dname x) fs -> changes P es fs l -> changes P (x :: es) fs ((P ++ [dname x], Removed (entry_side x)) :: l).

Lemma before_irrefl n : before n n = false.
Proof using. unfold before. by rewrite (proj2 (compare_eq n n)). Qed.
Lemma before_total n m : n <> m -> before m n = false -> before n m = true.
Proof using. unfold before. rewrite (compare_flip n m). pose proof (proj1 (compare_eq n m)). destruct (compare n m); cbn; try done. naive_solver. Qed.
(** Entries in order: each is before those that follow. *)
Definition ordered (es : list DEntry) : Prop := ascending es = true.
Lemma ordered_head x es e : ordered (x :: es) -> e ∈ es -> before (dname x) (dname e) = true.
Proof using. intros Ho [i Hi]%list_elem_of_lookup. by apply (ascending_lookup (x :: es) 0 (S i)); [|lia| |]. Qed.
Lemma ordered_tail x es : ordered (x :: es) -> ordered es.
Proof using. apply ascending_tail. Qed.
Lemma ahead_all n es e : ordered es -> ahead n es -> e ∈ es -> before n (dname e) = true.
Proof using. destruct es as [|x es]; [intros _ _ H; by apply elem_of_nil in H|]. intros Ho Ha [->|He]%elem_of_cons; [done|]. eapply before_trans; [exact Ha|by eapply ordered_head]. Qed.
Lemma dir_image_inj es fs : dir_valid es -> dir_valid fs -> dir_image es = dir_image fs -> es = fs.
Proof using.
  intros He Hf E. destruct (decode_dir_image es He) as (d & Ed & Hl & Hd). destruct (decode_dir_image fs Hf) as (d' & Ed' & Hl' & Hd'). rewrite <- E, Ed in Ed'. injection Ed' as <-. apply list_eq_same_length with (n := length es); [congruence|congruence|]. intros i x y _ Hx Hy. specialize (Hd i x Hx). specialize (Hd' i y Hy). congruence.
Qed.
Lemma holds_dir_one c es fs : holds_dir c es -> holds_dir c fs -> es = fs.
Proof using HU. destruct c as [c|]; cbn; [|congruence]. intros [Hv Hn] [Hv' Hn']. apply dir_image_inj; [done|done|]. by eapply names_one. Qed.
Lemma holds_ordered c es : holds_dir c es -> ordered es.
Proof using. destruct c as [c|]; cbn; [by intros [(_ & H & _) _]|by intros ->]. Qed.

(** *** Entries by the first name of a path *)
Lemma at_in_nil es e : ~ at_in es [] e.
Proof using. intros H. inversion H. Qed.
Lemma at_in_single x n p e : at_in [x] (n :: p) e <-> n = dname x /\ (p = [] /\ e = x \/ dkind x = Directory /\ exists fs, holds_dir (Some (dcid x)) fs /\ at_in fs p e).
Proof using.
  split.
  - intros H. inversion H as [es' e' He|es' d fs p' e' Hd Hk Hh Hb]; subst; [apply list_elem_of_singleton in He as ->; auto|apply list_elem_of_singleton in Hd as ->; eauto 6].
  - intros [-> [[-> ->]|(Hk & fs & Hh & Hb)]]; [apply at_here|eapply at_below; [|done|done|done]]; by apply list_elem_of_singleton.
Qed.
Lemma at_in_sub es es' p e : es ⊆ es' -> at_in es p e -> at_in es' p e.
Proof using. intros Hs H. destruct H as [es e He|es d fs p e Hd Hk Hh Hb]; [apply at_here; by apply Hs|eapply at_below; [by apply Hs|done|done|done]]. Qed.
Lemma at_in_head es n p e : at_in es (n :: p) e -> exists d, d ∈ es /\ n = dname d.
Proof using. intros H. inversion H; subst; eauto. Qed.
Lemma at_in_cons x es p e : at_in (x :: es) p e -> at_in [x] p e \/ at_in es p e.
Proof using.
  intros H. inversion H as [es' e' He|es' d fs p' e' Hd Hk Hh Hb]; subst; [apply elem_of_cons in He as [->|He]|apply elem_of_cons in Hd as [->|Hd]].
  - left. apply at_here. by apply list_elem_of_singleton.
  - right. by apply at_here.
  - left. eapply at_below; [by apply list_elem_of_singleton|done|done|done].
  - right. by eapply at_below.
Qed.
Definition agree (n : bytes) (es es' : list DEntry) : Prop := forall p e, at_in es (n :: p) e <-> at_in es' (n :: p) e.
Lemma agree_head x es : ordered (x :: es) -> agree (dname x) (x :: es) [x].
Proof using HU.
  intros Ho p e. split; [|apply at_in_sub; set_solver]. intros [H|H]%at_in_cons; [done|]. apply at_in_head in H as (d & Hd & Hn). pose proof (ordered_head x es d Ho Hd) as Hb. by rewrite <- Hn, before_irrefl in Hb.
Qed.
Lemma agree_tail x es n : n <> dname x -> agree n (x :: es) es.
Proof using HU. intros Hn p e. split; [|apply at_in_sub; set_solver]. intros [H|H]%at_in_cons; [|done]. apply at_in_single in H as [? _]. done. Qed.
Lemma agree_none n es : ordered es -> ahead n es -> agree n es [].
Proof using HU. intros Ho Ha p e. split; [|apply at_in_sub; set_solver]. intros (d & Hd & ->)%at_in_head. pose proof (ahead_all _ es d Ho Ha Hd) as Hb. by rewrite before_irrefl in Hb. Qed.
Lemma dir_in_ext n es es' p : agree n es es' -> dir_in es (removelast (n :: p)) -> dir_in es' (removelast (n :: p)).
Proof using. intros H. unfold dir_in. destruct p as [|m p]; [by left|]. cbn [removelast]. intros [Hn|(d & Hd & Hk)]; [done|]. right. exists d. split; [by apply H|done]. Qed.
Lemma agree_sym n es es' : agree n es es' -> agree n es' es.
Proof using HU. intros H p e. by rewrite (H p e). Qed.
Lemma differs_to n es es' fs fs' p c : agree n es es' -> agree n fs fs' -> differs_in es fs (n :: p) c -> differs_in es' fs' (n :: p) c.
Proof using.
  intros He Hf. destruct c; cbn [differs_in].
  - intros (y & Hy & Hs & Hd & Hx). exists y. split; [by apply Hf|]. split; [done|]. split; [by eapply dir_in_ext|]. intros x Hx'%He. by eapply Hx.
  - intros (y & Hy & Hs & Hd & Hx). exists y. split; [by apply He|]. split; [done|]. split; [by eapply dir_in_ext|]. intros x Hx'%Hf. by eapply Hx.
  - intros (x & y & Hx & Hy & H). exists x, y. split; [by apply He|]. split; [by apply Hf|done].
Qed.
Lemma differs_ext n es es' fs fs' p c : agree n es es' -> agree n fs fs' -> differs_in es fs (n :: p) c <-> differs_in es' fs' (n :: p) c.
Proof using HU. intros He Hf. split; apply differs_to; auto using agree_sym. Qed.
Lemma differs_nil es fs c : ~ differs_in es fs [] c.
Proof using. destruct c; cbn [differs_in]; [intros (y & H & _)|intros (y & H & _)|intros (x & y & H & _)]; by apply at_in_nil in H. Qed.
Lemma ordered_one es x y : ordered es -> x ∈ es -> y ∈ es -> dname x = dname y -> x = y.
Proof using.
  intros Ho [i Hi]%list_elem_of_lookup [j Hj]%list_elem_of_lookup Hn. destruct (Nat.lt_trichotomy i j) as [H|[->|H]]; [|congruence|].
  - pose proof (ascending_lookup es i j x y Ho H Hi Hj) as Hb. by rewrite Hn, before_irrefl in Hb.
  - pose proof (ascending_lookup es j i y x Ho H Hj Hi) as Hb. by rewrite Hn, before_irrefl in Hb.
Qed.
Lemma at_in_one es p x y : ordered es -> at_in es p x -> at_in es p y -> x = y.
Proof using HU.
  intros Ho H. revert y Ho. induction H as [es e He|es d fs p e Hd Hk Hh Hb IH]; intros y Ho Hy.
  - inversion Hy as [es' e' He' Hn|es' d' fs' p' e' Hd' Hk' Hh' Hb']; subst; [by apply (ordered_one es)|]. by apply at_in_nil in Hb'.
  - inversion Hy as [es' e' He'|es' d' fs' p' e' Hd' Hk' Hh' Hb' Hn]; subst; [by apply at_in_nil in Hb|]. assert (d = d') as -> by (by apply (ordered_one es)). rewrite (holds_dir_one _ _ _ Hh' Hh) in Hb'. apply IH; [by eapply holds_ordered|done].
Qed.
(** A tree does not differ from itself. *)
Lemma differs_self es p c : ordered es -> ~ differs_in es es p c.
Proof using HU.
  intros Ho. destruct c; cbn [differs_in]; [naive_solver|naive_solver|]. intros (x & y & Hx & Hy & -> & -> & Hne & _). apply Hne. by rewrite (at_in_one es p x y).
Qed.
Lemma entry_eq x y : dname x = dname y -> entry_side x = entry_side y -> x = y.
Proof using. destruct x, y. unfold entry_side. cbn. by intros -> [= -> -> ->]. Qed.
Lemma one_added y n p c : differs_in [] [y] (n :: p) c <-> n = dname y /\ p = [] /\ c = Added (entry_side y).
Proof using.
  assert (forall q e, ~ at_in [] q e) as Hno by (intros q e H; inversion H as [? ? He|? ? ? ? ? He]; by apply elem_of_nil in He). split.
  - destruct c; cbn [differs_in]; [|by intros (? & ?%Hno & _)|by intros (? & ? & ?%Hno & _)]. intros (e & He & -> & Hd & _). apply at_in_single in He as [-> [[-> ->]|(_ & fs & _ & Hb)]]; [done|]. destruct p as [|m p]; [by apply at_in_nil in Hb|]. cbn in Hd. destruct Hd as [|(d & ?%Hno & _)]; done.
  - intros (-> & -> & ->). cbn. exists y. split; [apply at_in_single; auto|]. split; [done|]. split; [by left|]. intros x. apply Hno.
Qed.
Lemma one_removed x n p c : differs_in [x] [] (n :: p) c <-> n = dname x /\ p = [] /\ c = Removed (entry_side x).
Proof using.
  assert (forall q e, ~ at_in [] q e) as Hno by (intros q e H; inversion H as [? ? He|? ? ? ? ? He]; by apply elem_of_nil in He). split.
  - destruct c; cbn [differs_in]; [by intros (? & ?%Hno & _)| |by intros (? & ? & _ & ?%Hno & _)]. intros (e & He & -> & Hd & _). apply at_in_single in He as [-> [[-> ->]|(_ & fs & _ & Hb)]]; [done|]. destruct p as [|m p]; [by apply at_in_nil in Hb|]. cbn in Hd. destruct Hd as [|(d & ?%Hno & _)]; done.
  - intros (-> & -> & ->). cbn. exists x. split; [apply at_in_single; auto|]. split; [done|]. split; [by left|]. intros y. apply Hno.
Qed.
Lemma dir_in_single x n m p : dir_in [x] (removelast (n :: m :: p)) -> n = dname x /\ dkind x = Directory /\ (p <> [] -> exists fs, holds_dir (Some (dcid x)) fs /\ dir_in fs (removelast (m :: p))).
Proof using.
  cbn [removelast]. intros [|(d & Hd & Hk)]; [done|]. apply at_in_single in Hd as [-> [[Hp ->]|(Hx & fs & Hh & Hb)]].
  - split; [done|]. split; [done|]. destruct p; [done|]. discriminate Hp.
  - split; [done|]. split; [done|]. intros _. exists fs. split; [done|]. right. eauto.
Qed.
Lemma one_changed x y n p c : dname x = dname y -> entry_side x <> entry_side y -> ~ (dkind x = Directory /\ dkind y = Directory) ->
  differs_in [x] [y] (n :: p) c <-> n = dname x /\ p = [] /\ c = Changed (entry_side x) (entry_side y).
Proof using.
  intros Hn Hs Hk. split.
  - destruct c; cbn [differs_in].
    + intros (e & He & -> & Hd & Hno). apply at_in_single in He as [-> [[-> ->]|(Hy & fs & _ & Hb)]]; [exfalso; apply (Hno x), at_in_single; auto|]. destruct p as [|m p]; [by apply at_in_nil in Hb|]. apply dir_in_single in Hd as (_ & Hx & _). naive_solver.
    + intros (e & He & -> & Hd & Hno). apply at_in_single in He as [-> [[-> ->]|(Hy & fs & _ & Hb)]]; [exfalso; apply (Hno y), at_in_single; auto|]. destruct p as [|m p]; [by apply at_in_nil in Hb|]. apply dir_in_single in Hd as (_ & Hx & _). naive_solver.
    + intros (e & e' & He & He' & -> & -> & _ & _). apply at_in_single in He as [-> [[-> ->]|(Hx & fs & _ & Hb)]].
      * apply at_in_single in He' as [_ [[_ ->]|(_ & fs & _ & Hb)]]; [done|by apply at_in_nil in Hb].
      * apply at_in_single in He' as [_ [[-> _]|(Hy & _)]]; [by apply at_in_nil in Hb|naive_solver].
  - intros (-> & -> & ->). cbn. exists x, y. split; [apply at_in_single; auto|]. split; [apply at_in_single; auto|done].
Qed.
Lemma at_into x fs m p e : dkind x = Directory -> holds_dir (Some (dcid x)) fs -> at_in [x] (dname x :: m :: p) e <-> at_in fs (m :: p) e.
Proof using HU.
  intros Hk Hh. rewrite at_in_single. split; [|eauto 6]. intros [_ [[Hp _]|(_ & fs' & Hh' & Hb)]]; [discriminate Hp|]. by rewrite (holds_dir_one _ _ _ Hh Hh').
Qed.
Lemma dir_into x fs m p : dkind x = Directory -> holds_dir (Some (dcid x)) fs -> dir_in [x] (removelast (dname x :: m :: p)) <-> dir_in fs (removelast (m :: p)).
Proof using HU.
  intros Hk Hh. unfold dir_in. cbn [removelast]. destruct p as [|k p].
  - split; [by left|]. intros _. right. exists x. split; [apply at_in_single; auto|done].
  - split; (intros [|(d & Hd & Hd')]; [done|right; exists d; split; [|done]]); by apply (at_into x fs).
Qed.
Lemma one_into x y es fs p c : dname x = dname y -> dkind x = Directory -> dkind y = Directory -> holds_dir (Some (dcid x)) es -> holds_dir (Some (dcid y)) fs ->
  differs_in [x] [y] (dname x :: p) c <-> differs_in es fs p c.
Proof using HU.
  intros Hn Hx Hy He Hf. destruct p as [|m p].
  - split; [|by intros ?%differs_nil]. destruct c; cbn [differs_in].
    + intros (e & _ & _ & _ & Hno). exfalso. apply (Hno x), at_in_single. auto.
    + intros (e & _ & _ & _ & Hno). exfalso. apply (Hno y), at_in_single. auto.
    + intros (e & e' & He1 & He2 & _ & _ & _ & Hk). exfalso. apply at_in_single in He1 as [_ [[_ ->]|(_ & ? & _ & Hb)]]; [|by apply at_in_nil in Hb]. apply at_in_single in He2 as [_ [[_ ->]|(_ & ? & _ & Hb)]]; [|by apply at_in_nil in Hb]. by apply Hk.
  - destruct c; cbn [differs_in].
    + split; intros (e & H1 & H2 & H3 & H4); exists e; rewrite Hn in *; (split; [by apply (at_into y fs)|]); (split; [done|]); rewrite <- Hn in *; (split; [by apply (dir_into x es)|]); intros e' H; apply (H4 e'); by apply (at_into x es).
    + split; intros (e & H1 & H2 & H3 & H4); exists e; (split; [by apply (at_into x es)|]); (split; [done|]); rewrite Hn in *; (split; [by apply (dir_into y fs)|]); intros e' H; apply (H4 e'); by apply (at_into y fs).
    + split; intros (e & e' & H1 & H2 & H3); exists e, e'; (split; [by apply (at_into x es)|]); rewrite Hn in *; (split; [by apply (at_into y fs)|done]).
Qed.

(** *** The merge is exact *)
Lemma head_split n es fs es1 fs1 es2 fs2 q c : agree n es es1 -> agree n fs fs1 -> (forall m, m <> n -> agree m es es2 /\ agree m fs fs2) -> agree n es2 [] -> agree n fs2 [] ->
  differs_in es fs q c <-> (exists p, q = n :: p /\ differs_in es1 fs1 (n :: p) c) \/ differs_in es2 fs2 q c.
Proof using HU.
  intros He Hf Ho He2 Hf2. destruct q as [|m p]; [split; [by intros ?%differs_nil|intros [(p & Hp & _)|?%differs_nil]; [discriminate Hp|done]]|]. destruct (decide (m = n)) as [->|Hne].
  - rewrite (differs_ext n es es1 fs fs1) by done. split; [eauto|]. intros [(p' & [= <-] & H)|H]; [done|]. apply (differs_ext n _ _ _ _ p c He2 Hf2) in H. exfalso. by apply (differs_self [] (n :: p) c eq_refl).
  - destruct (Ho m Hne) as [H1 H2]. rewrite (differs_ext m es es2 fs fs2) by done. split; [by right|]. intros [(p' & [= ->] & _)|H]; done.
Qed.
Lemma differs_head es fs n p c : differs_in es fs (n :: p) c -> exists e, (e ∈ es \/ e ∈ fs) /\ n = dname e.
Proof using. destruct c; cbn [differs_in]; [intros (y & H & _)|intros (y & H & _)|intros (x & y & H & _)]; apply at_in_head in H as (d & Hd & ->); eauto. Qed.
Lemma path_lt_app P p q : path_lt p q -> path_lt (P ++ p) (P ++ q).
Proof using. intros H. induction P as [|n P IH]; [done|]. cbn. by apply path_lt_below. Qed.
Definition exact (P : list bytes) (es fs : list DEntry) (l : list (list bytes * Change)) : Prop :=
  (forall ns c, (ns, c) ∈ l <-> exists q, ns = P ++ q /\ differs_in es fs q c) /\ StronglySorted path_lt (map fst l).
(** The changes at the first name, and the others after them. *)
Lemma exact_app P n es fs es1 fs1 es2 fs2 l1 l2 : agree n es es1 -> agree n fs fs1 -> (forall m, m <> n -> agree m es es2 /\ agree m fs fs2) -> ordered es2 -> ordered fs2 -> ahead n es2 -> ahead n fs2 ->
  (forall ns c, (ns, c) ∈ l1 <-> exists p, ns = P ++ n :: p /\ differs_in es1 fs1 (n :: p) c) -> StronglySorted path_lt (map fst l1) -> exact P es2 fs2 l2 -> exact P es fs (l1 ++ l2).
Proof using HU.
  intros He Hf Ho Oe Of Ae Af H1 S1 [H2 S2]. assert (agree n es2 []) as He2 by (by apply agree_none). assert (agree n fs2 []) as Hf2 by (by apply agree_none). split.
  - intros ns c. rewrite elem_of_app, H1, H2. setoid_rewrite (head_split n es fs es1 fs1 es2 fs2); [|done..]. naive_solver.
  - rewrite map_app. apply StronglySorted_app. split_and!; [|done|done]. intros a b ([a' c] & -> & Ha)%list_elem_of_fmap ([b' c'] & -> & Hb)%list_elem_of_fmap. cbn [fst].
    apply H1 in Ha as (p & -> & _). apply H2 in Hb as ([|m q] & -> & Hd); [by apply differs_nil in Hd|]. apply path_lt_app, path_lt_here. apply differs_head in Hd as (e & [Hin|Hin] & ->); [by apply (ahead_all n es2)|by apply (ahead_all n fs2)].
Qed.
Lemma ordered_ahead x es : ordered (x :: es) -> ahead (dname x) es.
Proof using. intros Ho. destruct es; [done|]. apply (ordered_head x _ _ Ho). by apply elem_of_cons; left. Qed.
Lemma exact_pair P x y es fs l1 l2 : dname x = dname y -> ordered (x :: es) -> ordered (y :: fs) -> (forall ns c, (ns, c) ∈ l1 <-> exists p, ns = P ++ dname x :: p /\ differs_in [x] [y] (dname x :: p) c) ->
  StronglySorted path_lt (map fst l1) -> exact P es fs l2 -> exact P (x :: es) (y :: fs) (l1 ++ l2).
Proof using HU.
  intros Hn Oe Of H1 S1 H2. apply (exact_app P (dname x) _ _ [x] [y] es fs l1 l2); try done.
  - by apply agree_head.
  - rewrite Hn. by apply agree_head.
  - intros m Hm. split; apply agree_tail; congruence.
  - by eapply ordered_tail.
  - by eapply ordered_tail.
  - by apply ordered_ahead.
  - rewrite Hn. by apply ordered_ahead.
Qed.
Lemma sorted_one (x : list bytes * Change) : StronglySorted path_lt (map fst [x]).
Proof using. repeat constructor. Qed.
Lemma changes_exact P es fs l : changes P es fs l -> ordered es -> ordered fs -> exact P es fs l.
Proof using HU.
  induction 1 as [P|P x y es fs l Hn Hs Hc IH|P x y es fs l Hn Hs Hk Hc IH|P x y es fs es' fs' l l' Hn Hs Hx Hy He Hf Hc' IH' Hc IH|P y es fs l Ha Hc IH|P x es fs l Ha Hc IH]; intros Oe Of.
  - split; [|constructor]. intros ns c. split; [by intros ?%elem_of_nil|]. intros (q & _ & Hd). by apply differs_self in Hd.
  - rewrite (entry_eq x y Hn Hs) in *. apply (exact_pair P y y es fs [] l); [done|done|done| |constructor|apply IH; by eapply ordered_tail]. intros ns c. split; [by intros ?%elem_of_nil|]. intros (p & _ & Hd). by apply differs_self in Hd.
  - apply (exact_pair P x y es fs [_] l); [done|done|done| |apply sorted_one|apply IH; by eapply ordered_tail]. intros ns c. setoid_rewrite (one_changed x y); [|done..]. rewrite list_elem_of_singleton. naive_solver.
  - destruct IH' as [H' S']; [by eapply holds_ordered|by eapply holds_ordered|]. apply (exact_pair P x y es fs l' l); [done|done|done| |done|apply IH; by eapply ordered_tail]. intros ns c. setoid_rewrite (one_into x y es' fs'); [|done..]. rewrite H'. setoid_rewrite <- (assoc_L (++)). done.
  - apply (exact_app P (dname y) es (y :: fs) [] [y] es fs [_] l); [by apply agree_none|by apply agree_head|intros m Hm; split; [done|by apply agree_tail]|done|by eapply ordered_tail|done|by apply ordered_ahead| |apply sorted_one|apply IH; [done|by eapply ordered_tail]].
    intros ns c. setoid_rewrite (one_added y). rewrite list_elem_of_singleton. naive_solver.
  - apply (exact_app P (dname x) (x :: es) fs [x] [] es fs [_] l); [by apply agree_head|by apply agree_none|intros m Hm; split; [by apply agree_tail|done]|by eapply ordered_tail|done|by apply ordered_ahead|done| |apply sorted_one|apply IH; [by eapply ordered_tail|done]].
    intros ns c. setoid_rewrite (one_removed x). rewrite list_elem_of_singleton. naive_solver.
Qed.
End spec.

(** ** Runs *)
Fixpoint join (ns : list bytes) : bytes :=
  match ns with [] => [] | n :: ns => match ns with [] => n | _ => n ++ 47%Z :: join ns end end.
Definition out (x : list bytes * Change) : bytes * Change := (join x.1, x.2).
Lemma join_snoc P n : join (P ++ [n]) = match P with [] => n | _ => join P ++ 47%Z :: n end.
Proof.
  induction P as [|m P IH]; [done|]. change ((m :: P) ++ [n]) with (m :: (P ++ [n])). destruct P as [|k P]; [done|]. cbn [join]. rewrite IH. destruct (P ++ [n]) as [|z zs] eqn:E; [by destruct P|]. cbn [join app]. rewrite <- app_assoc. done.
Qed.
Lemma join_init P : exists z, join P = join (removelast P) ++ z.
Proof.
  destruct P as [|x P] using rev_ind; [by exists []|]. rewrite removelast_last, join_snoc. destruct P; [by exists x|eexists; reflexivity].
Qed.
Lemma join_nonempty P : P <> [] -> Forall (fun n => n <> []) P -> 0 < length (join P).
Proof. intros Hne Hp. destruct P as [|n P]; [done|]. apply Forall_cons in Hp as [Hn _]. cbn [join]. destruct n; [done|]. destruct P; cbn; lia. Qed.
(** The buffer holds the path [P] in its first bytes. *)
Definition holds_path (path : bytes) (P : list bytes) (base : nat) : Prop := take base path = join P /\ base = length (join P) /\ Forall (fun n => n <> []) P.
Lemma copy_at_spec path at_ data : yields (fun path' => at_ + length data <= length path /\ take (at_ + length data) path' = take at_ path ++ data /\ forall b, b <= at_ -> take b path' = take b path) (if length path <? at_ + length data then Refuse TooLarge else copy_at path at_ data).
Proof.
  destruct (Nat.ltb_spec (length path) (at_ + length data)) as [|Hle]; [done|]. unfold copy_at. rewrite (proj2 (Nat.leb_le _ _)) by done. cbn [yields]. split; [done|]. split.
  - rewrite app_assoc, take_app_le by (rewrite length_app, length_take; lia). apply take_ge. rewrite length_app, length_take. lia.
  - intros b Hb. rewrite take_app_le by (rewrite length_take; lia). rewrite take_take. f_equal. lia.
Qed.
Lemma path_of_spec path base P n : holds_path path P base -> n <> [] ->
  yields (fun '(path', e) => holds_path path' (P ++ [n]) e /\ holds_path path' P base) (path_of path base n).
Proof.
  intros (Ht & Hb & Hp) Hn. unfold path_of. assert (Forall (fun n => n <> []) (P ++ [n])) as HP by (apply Forall_app; split; [done|by apply Forall_singleton]). destruct P as [|m P].
  - cbn in Hb. subst base. change (0 <? 0) with false. cbv iota. change (0 + 0 + length n) with (0 + length n). pose proof (copy_at_spec path 0 n) as Hc. destruct (length path <? 0 + length n); [done|]. cbn [mbind outcome_bind]. change (0 + 0) with 0. destruct (copy_at path 0 n) as [path'|e|]; [|done|done]. destruct Hc as (_ & H1 & _). cbn [yields mbind outcome_bind]. split; [|done]. split; [|done]. cbn [app join]. by rewrite H1, take_0.
  - pose proof (join_nonempty (m :: P) ltac:(done) Hp) as Hpos. rewrite <- Hb in Hpos. rewrite (proj2 (Nat.ltb_lt 0 base)) by done. destruct (Nat.ltb_spec (length path) (base + 1 + length n)) as [|Hle]; [done|].
    pose proof (copy_at_spec path base [47%Z]) as Hc. cbn [length] in Hc. rewrite (proj2 (Nat.ltb_ge _ _)) in Hc by lia. destruct (copy_at path base [47%Z]) as [path1|e|] eqn:E1; [|done|done]. destruct Hc as (_ & H1 & H2). cbn [mbind outcome_bind].
    assert (length path1 = length path) as Hl by (unfold copy_at in E1; destruct (_ <=? _) eqn:El; [|done]; apply Nat.leb_le in El; injection E1 as <-; rewrite length_app, length_take; cbn [length app] in *; rewrite length_drop; lia).
    pose proof (copy_at_spec path1 (base + 1) n) as Hc. rewrite (proj2 (Nat.ltb_ge _ _)) in Hc by lia. destruct (copy_at path1 (base + 1) n) as [path2|e|]; [|done|done]. destruct Hc as (_ & H3 & H4). cbn [yields mbind outcome_bind]. split; split.
    + rewrite H3, H1, Ht, join_snoc, <- app_assoc. done.
    + split; [|done]. rewrite join_snoc, Hb, length_app. cbn [length]. lia.
    + rewrite H4 by lia. rewrite H2 by lia. done.
    + done.
Qed.

Section runs.
Context {B : Type} `{!Blocks B} (U : Cid -> bytes -> Prop) (HU : forall c x y, U c x -> U c y -> matches c x = true -> matches c y = true -> x = y) (J : B -> Prop) (trace : B -> list (bytes * Change)).
#[local] Existing Instance counted_blocks.
#[local] Existing Instance RZ_pre.
(** Reading leaves the trace of what was visited as it is. *)
Definition same_trace (s s' : B) : Prop := trace s' = trace s.
#[local] Instance same_trace_pre : PreOrder same_trace.
Proof using. split; [by intros s|intros s1 s2 s3 H1 H2]. unfold same_trace in *. congruence. Qed.
Definition any (s s' : B) : Prop := True.
#[local] Instance any_pre : PreOrder any.
Proof using. done. Qed.
Context (get_goes : forall c room s, goes J same_trace (get c room) s (fun bs _ => (zlen bs <= room)%Z /\ Forall is_byte bs /\ U c bs)).
Context (visit : bytes -> Change -> ST B unit) (visit_goes : forall p c s, goes J any (visit p c) s (fun _ s' => trace s' = trace s ++ [(p, c)])).
Local Abbreviation Goes := (goes (JZ J) (RZ any)).

Lemma goes_same {A} (m : ST (Z * B) A) x Q : goes (JZ J) (RZ same_trace) m x Q -> Goes m x (fun a y => Q a y /\ trace y.2 = trace x.2).
Proof using. unfold goes. intros H Hj. specialize (H Hj). destruct (m x) as [[a|e|] y]; [|done|done]. destruct H as (H1 & [H2 H3] & H4). split; [done|]. split; [|done]. split; [done|exact I]. Qed.
Lemma step_run x : Goes step x (fun _ y => y.1 = (x.1 - 1)%Z /\ (0 <= y.1)%Z /\ trace y.2 = trace x.2).
Proof using HU get_goes. eapply goes_weaken; [apply goes_same, (step_goes U HU J same_trace (fun _ _ => True)); done|]. cbv beta. tauto. Qed.
(** [d] is a directory with the entries [es]. *)
Definition rep (d : Dir) (es : list DEntry) : Prop := length (starts d) = length es /\ forall k e, es !! k = Some e -> dir_entry d k = Done e.
Lemma is_dir_rep c d : codec c = DagCbor -> is_dir U c d -> exists es, holds_dir U (Some c) es /\ rep d es.
Proof using.
  intros Hc (bs & Hn & Hd & _). pose proof (decode_dir_only bs ltac:(apply Hn)) as H. rewrite Hd in H. destruct H as (es & Hv & -> & Hl & He). exists es. done.
Qed.
Lemma side_run c count x : Goes (side c count) x (fun d y => (exists es, holds_dir U c es /\ rep d es) /\ trace y.2 = trace x.2 /\ (y.1 <= x.1)%Z /\ (is_Some c -> 0 <= y.1 < x.1)%Z).
Proof using HU get_goes.
  unfold side. destruct c as [c|].
  - eapply goes_bind; [apply _|apply step_run|]. cbv beta. intros _ x1 _ (E1 & H1 & T1). case_decide as Hc; [|stop]. eapply goes_bind; [apply _|apply goes_same, (directory_goes U HU J same_trace (fun _ _ => True)); done|]. cbv beta. intros d x2 [Hz _] [Hd T2]. destruct (is_dir_rep c d Hc Hd) as (es & Hh & Hr).
    assert (Goes (mret d : ST (Z * B) Dir) x2 (fun d y => (exists es, holds_dir U (Some c) es /\ rep d es) /\ trace y.2 = trace x.2 /\ (y.1 <= x.1)%Z /\ (is_Some (Some c) -> 0 <= y.1 < x.1)%Z)) as Hret.
    { apply goes_ret; [apply _|]. split; [eauto|]. split; [congruence|]. split; [lia|]. intros _. lia. }
    destruct count as [n|]; [|done]. destruct (negb _); [stop|done].
  - apply goes_lift; [apply _|]. cbn [yields]. split; [|split; [done|split; [lia|by intros [? ?]]]]. exists []. split; [done|]. split; [done|]. intros k e H. by rewrite lookup_nil in H.
Qed.
Lemma entry_of_spec d es i : rep d es -> entry_of d i = Done (es !! i).
Proof using.
  intros [Hl He]. unfold entry_of. destruct (Nat.ltb_spec i (length (starts d))) as [H|H]; [|by rewrite lookup_ge_None_2 by lia]. destruct (lookup_lt_is_Some_2 es i ltac:(lia)) as [e Hx]. rewrite (He i e Hx), Hx. done.
Qed.
Lemma name_nonempty e : entry_ok e -> dname e <> [].
Proof using. intros (Hv & _) E. pose proof (name_bound e Hv) as H. rewrite E in H. cbn in H. lia. Qed.
(** What two entries met mean for the merge of the rest. *)
Definition means (P : list bytes) (m : met) (es fs es' fs' : list DEntry) : Prop :=
  match m with
  | Same => forall l, changes U P es' fs' l -> changes U P es fs l
  | Differs n c => n <> [] /\ forall l, changes U P es' fs' l -> changes U P es fs ((P ++ [n], c) :: l)
  | Into n x y => n <> [] /\ forall es1 fs1 l1 l, holds_dir U (Some (dcid x)) es1 -> holds_dir U (Some (dcid y)) fs1 -> changes U (P ++ [n]) es1 fs1 l1 -> changes U P es' fs' l -> changes U P es fs (l1 ++ l)
  end.
Lemma meet_spec P es fs : Forall entry_ok es -> Forall entry_ok fs -> es <> [] \/ fs <> [] ->
  yields (fun '(m, (di, dj)) => 0 < di + dj /\ di <= length es /\ dj <= length fs /\ means P m es fs (drop di es) (drop dj fs)) (meet (head es) (head fs)).
Proof using.
  intros He Hf Hne. destruct es as [|x es], fs as [|y fs]; cbn [head].
  - by destruct Hne.
  - apply Forall_cons in Hf as [Hy _]. cbn. split; [lia|]. split; [lia|]. split; [lia|]. split; [by apply name_nonempty|]. intros l Hl. by apply changes_added.
  - apply Forall_cons in He as [Hx _]. cbn. split; [lia|]. split; [lia|]. split; [lia|]. split; [by apply name_nonempty|]. intros l Hl. by apply changes_removed.
  - apply Forall_cons in He as [Hx _]. apply Forall_cons in Hf as [Hy _]. unfold meet. case_decide as Hn.
    + case_decide as Hs; [cbn; split; [lia|]; split; [lia|]; split; [lia|]; intros l Hl; by apply changes_same|]. destruct (_ && _) eqn:Hk.
      * apply andb_true_iff in Hk as [Hk1%bool_decide_eq_true Hk2%bool_decide_eq_true]. cbn. split; [lia|]. split; [lia|]. split; [lia|]. split; [by apply name_nonempty|]. intros es1 fs1 l1 l H1 H2 H3 H4. apply (changes_into U P x y es fs es1 fs1 l l1); [exact Hn|exact Hs|exact Hk1|exact Hk2|exact H1|exact H2|exact H3|exact H4].
      * apply andb_false_iff in Hk as [Hk%bool_decide_eq_false|Hk%bool_decide_eq_false]; (cbn; split; [lia|]; split; [lia|]; split; [lia|]; split; [by apply name_nonempty|]); intros l Hl; apply changes_changed; try done; by intros [? ?].
    + destruct (before (dname y) (dname x)) eqn:Hb; (cbn; split; [lia|]; split; [lia|]; split; [lia|]; split; [by apply name_nonempty|]); intros l Hl; [by apply changes_added|]. apply changes_removed; [|done]. by apply before_total.
Qed.
Lemma head_drop {A} (l : list A) i : l !! i = head (drop i l).
Proof using. revert i. induction l as [|x l IH]; intros [|i]; cbn; try done. Qed.
(** What a merge leaves: the end of both directories, or two directories to go into with the rest to come. *)
Definition left_over (P : list bytes) (es fs : list DEntry) (i j : nat) (path : bytes) (l : list (list bytes * Change)) (down : option (Pair * (nat * nat))) : Prop :=
  match down with
  | None => changes U P (drop i es) (drop j fs) l
  | Some (q, (i', j')) => exists x y n, pcid q = (Some (dcid x), Some (dcid y)) /\ pnext q = (0, 0) /\ n <> [] /\ holds_path path (P ++ [n]) (ppath q) /\
      forall es1 fs1 l1 l2, holds_dir U (Some (dcid x)) es1 -> holds_dir U (Some (dcid y)) fs1 -> changes U (P ++ [n]) es1 fs1 l1 -> changes U P (drop i' es) (drop j' fs) l2 -> changes U P (drop i es) (drop j fs) (l ++ l1 ++ l2)
  end.
Definition merged (P : list bytes) (base : nat) (es fs : list DEntry) (i j : nat) (n : Z) (x : Z * B) (r : option (Pair * (nat * nat)) * bytes * Z) (y : Z * B) : Prop :=
  let '(down, path, n') := r in holds_path path P base /\ exists l, trace y.2 = trace x.2 ++ map out l /\ n' = (n + Z.of_nat (length l))%Z /\ (n' + y.1 <= n + x.1)%Z /\ left_over P es fs i j path l down.
Lemma left_over_next P es fs i j di dj path l (c : option (list bytes * Change)) m down : means P m (drop i es) (drop j fs) (drop di (drop i es)) (drop dj (drop j fs)) ->
  match m with Same => c = None | Differs n x => c = Some (P ++ [n], x) | Into _ _ _ => False end ->
  left_over P es fs (i + di) (j + dj) path l down -> left_over P es fs i j path (option_list c ++ l) down.
Proof using.
  rewrite !drop_drop. intros Hm Hc. destruct m as [|n x|]; [subst c|subst c; destruct Hm as [_ Hm]|done]; (destruct down as [[q [i' j']]|]; cbn [left_over option_list app]; [|by apply Hm]);
    intros (a & b & k & H1 & H2 & H3 & H4 & H5); exists a, b, k; (split; [done|]); (split; [done|]); (split; [done|]); (split; [done|]); intros es1 fs1 l1 l2 Ha Hb Hc Hd; apply Hm; by apply (H5 es1 fs1).
Qed.
Lemma lift_run {A C} (o : outcome Error A) (k : A -> ST (Z * B) C) x (P : A -> Prop) Q : yields P o -> (forall a, P a -> Goes (k a) x Q) -> Goes (lift o ≫= k) x Q.
Proof using. unfold goes, lift, mbind, st_bind. destruct o as [a|e|]; cbn [yields]; [|done|done]. intros Ha Hk. by apply Hk. Qed.
Lemma beside_run p c x : Goes (beside (visit p c)) x (fun _ y => y.1 = x.1 /\ trace y.2 = trace x.2 ++ [(p, c)]).
Proof using visit_goes.
  destruct x as [z s]. unfold goes, beside, JZ. cbn [snd]. intros Hj. pose proof (visit_goes p c s Hj) as H. destruct (visit p c s) as [[[]|e|] s']; [|done|done]. destruct H as (H1 & _ & H2). split; [done|]. split; [split; [cbn; lia|exact I]|]. done.
Qed.
Lemma merge_loop_run fuel one two es fs base depth i j path n P x : rep one es -> rep two fs -> Forall entry_ok es -> Forall entry_ok fs -> holds_path path P base -> (length es - i) + (length fs - j) < fuel -> (0 <= n /\ 0 <= x.1 /\ n + x.1 < W64)%Z ->
  Goes (merge_loop fuel visit one two base depth i j path n) x (merged P base es fs i j n x).
Proof using HU get_goes visit_goes.
  intros R1 R2 E1 E2. revert i j path n x. induction fuel as [|fuel IH]; intros i j path n x Hp Hf Hn; [lia|]. cbn [merge_loop]. rewrite (proj1 R1), (proj1 R2). destruct ((i <? length es) || (j <? length fs)) eqn:Hij.
  - eapply goes_bind; [apply _|apply step_run|]. cbv beta. intros _ x1 _ (L1 & L0 & T1). rewrite (entry_of_spec one es i R1), (entry_of_spec two fs j R2), !head_drop. eapply (lift_run _ _ _ (fun a => a = head (drop i es))); [done|]. intros ? ->. eapply (lift_run _ _ _ (fun a => a = head (drop j fs))); [done|]. intros ? ->.
    eapply lift_run; [apply (meet_spec P); [by apply Forall_drop|by apply Forall_drop|]|].
    { apply orb_true_iff in Hij as [H%Nat.ltb_lt|H%Nat.ltb_lt]; [left|right]; (intros E; apply (f_equal length) in E; rewrite length_drop in E; cbn in E; lia). }
    intros [m [di dj]] (H1 & H2 & H3 & Hm). rewrite !length_drop in *. destruct m as [|k c|k a b].
    + eapply goes_weaken; [apply IH; [done|lia|lia]|]. intros [[down path'] n'] y _ (Hp' & l & Ht & Hn' & Hle & Hl). split; [done|]. exists l. split; [congruence|]. split; [done|]. split; [lia|]. by apply (left_over_next P es fs i j di dj path' l None Same).
    + eapply lift_run; [apply path_of_spec; [done|apply Hm]|]. intros [path1 e] [Hp1 Hp2]. eapply goes_bind; [apply _|apply beside_run|]. cbv beta. intros _ x2 _ [L2 T2]. eapply (lift_run _ _ _ (fun a => a = n + 1)%Z); [|intros n1 Hn1; eapply goes_weaken; [apply (IH (i + di) (j + dj) path1 n1 x2)|]].
      * unfold checked_add. by rewrite (proj2 (Z.ltb_lt _ _)) by lia.
      * done. * lia. * cbv beta in Hn1. lia.
      * intros [[down path'] n'] y _ (Hp' & l & Ht & Hn' & Hle & Hl). split; [done|]. exists ((P ++ [k], c) :: l). cbv beta in Hn1. split; [|split; [cbn [length]; lia|split; [lia|]]].
        -- rewrite Ht, T2, T1, <- app_assoc. cbn [map app]. f_equal. unfold out at 2. cbn [fst snd]. by rewrite (proj1 Hp1).
        -- by apply (left_over_next P es fs i j di dj path' l (Some _) (Differs k c)).
    + eapply lift_run; [apply path_of_spec; [done|apply Hm]|]. intros [path1 e] [Hp1 Hp2]. destruct (depth =? DEPTH); [stop|]. apply goes_ret; [apply _|]. split; [done|]. exists []. cbn [map length left_over]. rewrite app_nil_r. split; [done|]. split; [lia|]. split; [lia|].
      exists a, b, k. split; [done|]. split; [done|]. split; [apply Hm|]. split; [done|]. intros es1 fs1 l1 l2 Ha Hb Hc Hd. cbn [app]. rewrite !drop_drop in Hm. by apply (proj2 Hm es1 fs1).
  - apply orb_false_iff in Hij as [Hi%Nat.ltb_ge Hj%Nat.ltb_ge]. apply goes_ret; [apply _|]. split; [done|]. exists []. cbn [map length left_over]. rewrite app_nil_r, !drop_ge by lia. split; [done|]. split; [lia|]. split; [lia|constructor].
Qed.

(** The stack: the pair on top has the path [P], each one below it the path one name shorter. *)
Fixpoint stacked (stack : list Pair) (P : list bytes) : Prop :=
  match stack with
  | [] => True
  | p :: rest => ppath p = length (join P) /\ (is_Some (pcid p).1 \/ is_Some (pcid p).2) /\ stacked rest (removelast P)
  end.
Fixpoint worked (stack : list Pair) (P : list bytes) (l : list (list bytes * Change)) : Prop :=
  match stack with
  | [] => l = []
  | p :: rest => exists es fs l1 l2, holds_dir U (pcid p).1 es /\ holds_dir U (pcid p).2 fs /\ changes U P (drop (pnext p).1 es) (drop (pnext p).2 fs) l1 /\ worked rest (removelast P) l2 /\ l = l1 ++ l2
  end.
Lemma holds_path_init path P base : holds_path path P base -> holds_path path (removelast P) (length (join (removelast P))).
Proof using.
  intros (Ht & Hb & Hp). destruct (join_init P) as [z Hz]. split; [|split; [done|]].
  - assert (take (length (join (removelast P))) path = take (length (join (removelast P))) (take base path)) as -> by (rewrite take_take; f_equal; rewrite Hb, Hz, length_app; lia). rewrite Ht, Hz. rewrite take_app_le by lia. by apply take_ge.
  - destruct P as [|k P] using rev_ind; [done|]. rewrite removelast_last. by apply Forall_app in Hp as [Hp _].
Qed.
Lemma holds_entries c es : holds_dir U c es -> Forall entry_ok es.
Proof using. destruct c as [c|]; cbn [holds_dir]; [by intros [[H _] _]|by intros ->]. Qed.
Lemma diff_loop_run fuel stack path n P x : stacked stack P -> holds_path path P (length (join P)) -> (x.1 + 2 <= Z.of_nat fuel)%Z -> (0 <= n /\ 0 <= x.1 /\ n + x.1 < W64)%Z ->
  Goes (diff_loop fuel visit stack path n) x (fun r y => exists l, trace y.2 = trace x.2 ++ map out l /\ r = (n + Z.of_nat (length l))%Z /\ worked stack P l).
Proof using HU get_goes visit_goes.
  revert stack path n P x. induction fuel as [|fuel IH]; intros stack path n P x Hs Hp Hf Hn; [lia|]. cbn [diff_loop]. destruct stack as [|p rest].
  { apply goes_ret; [apply _|]. exists []. cbn [map length worked]. rewrite app_nil_r. split; [done|]. split; [lia|done]. }
  destruct Hs as (Hb & Hsome & Hs). eapply goes_bind; [apply _|apply side_run|]. cbv beta. intros one x1 [Z1 _] ((es & He & R1) & T1 & L1 & M1). eapply goes_bind; [apply _|apply side_run|]. cbv beta. intros two x2 [Z2 _] ((fs & Hfs & R2) & T2 & L2 & M2).
  assert (0 <= x2.1 < x.1)%Z as L by (destruct Hsome as [H|H]; [specialize (M1 H)|specialize (M2 H)]; lia). destruct (pnext p) as [i j] eqn:Hnext. eapply goes_bind; [apply _|apply (merge_loop_run _ one two es fs _ _ i j path n P x2)|].
  { done. } { done. } { by eapply holds_entries. } { by eapply holds_entries. } { by rewrite Hb. } { rewrite (proj1 R1), (proj1 R2). lia. } { lia. }
  intros [[down path'] n'] x3 [Z3 _] (Hp' & l & Ht & Hn' & Hle & Hl). rewrite Hb in Hp'. destruct down as [[q [i' j']]|]; cbn [left_over] in Hl.
  - destruct Hl as (a & b & k & Hq & Hq0 & Hk & Hpq & Hl). eapply goes_weaken; [apply (IH _ path' n' (P ++ [k]) x3); [| |lia|lia]|].
    + cbn [stacked]. rewrite removelast_last, Hq. split; [apply Hpq|]. split; [by left|]. done.
    + rewrite <- (proj1 (proj2 Hpq)). done.
    + cbv beta. cbn [worked]. rewrite removelast_last, Hq, Hq0. cbn [fst snd pcid pnext]. intros r y _ (l' & T3 & -> & es1 & fs1 & l1 & l2 & H1 & H2 & H3 & (es2 & fs2 & l3 & l4 & H4 & H5 & H6 & H7 & ->) & ->).
      rewrite (holds_dir_one U HU _ _ _ H4 He), (holds_dir_one U HU _ _ _ H5 Hfs) in H6. exists ((l ++ l1 ++ l3) ++ l4). split; [|split; [|cbn [worked]; rewrite Hnext; cbn [fst snd]; eauto 10]].
      * rewrite T3, Ht, T2, T1, !map_app, <- !app_assoc. done.
      * rewrite !length_app. lia.
  - eapply goes_weaken; [apply (IH rest path' n' (removelast P) x3); [done|by eapply holds_path_init|lia|lia]|]. cbv beta. intros r y _ (l' & T3 & -> & Hw). exists (l ++ l'). split; [|split; [|cbn [worked]; rewrite Hnext; cbn [fst snd]; eauto 10]].
    + rewrite T3, Ht, T2, T1, !map_app, <- !app_assoc. done.
    + rewrite !length_app. lia.
Qed.
Lemma diff_run a b path x : (0 <= x.1 < W64)%Z -> Goes (diff a b path visit) x (fun n y => exists l, trace y.2 = trace x.2 ++ map out l /\ n = Z.of_nat (length l) /\ StronglySorted path_lt (map fst l) /\ forall ns c, (ns, c) ∈ l <-> differs U a b ns c).
Proof using HU get_goes visit_goes.
  intros Hx. unfold diff. case_decide as Hab.
  - subst b. apply goes_ret; [apply _|]. exists []. cbn [map length]. rewrite app_nil_r. split; [done|]. split; [done|]. split; [constructor|]. intros ns c. split; [by intros ?%elem_of_nil|]. intros (es & fs & He & Hf & Hd). rewrite (holds_dir_one U HU _ _ _ Hf He) in Hd. apply differs_self in Hd; [done|done|by eapply holds_ordered].
  - intros Hj. unfold steps_left, mbind, st_bind. revert Hj. eapply (goes_weaken _ _ (diff_loop _ visit _ path 0)); [apply (diff_loop_run _ [_] path 0 [] x)|].
    + cbn. split; [done|]. split; [|done]. destruct a, b; try done; [by left|by left|by right].
    + done. + lia. + lia.
    + cbv beta. cbn [worked pcid pnext fst snd drop]. intros n y _ (l & Ht & -> & es & fs & l1 & l2 & He & Hf & Hc & -> & ->). rewrite app_nil_r in *. exists l1. split; [done|]. split; [done|]. destruct (changes_exact U HU [] es fs l1 Hc) as [H1 H2]; [by eapply holds_ordered|by eapply holds_ordered|]. split; [done|]. intros ns c. rewrite H1. split.
      * intros (q & -> & Hd). by exists es, fs.
      * intros (es' & fs' & He' & Hf' & Hd). rewrite (holds_dir_one U HU _ _ _ He' He), (holds_dir_one U HU _ _ _ Hf' Hf) in Hd. eauto.
Qed.
End runs.

(** C28: a comparison of two trees is exact. Whatever blocks the store answers and whatever the visits do, a comparison ends without
    a panic; if it succeeds it visited, each once and in the order of the names, exactly the paths where the two trees
    differ, and it counted them, as long as the store never gives two different blocks that match one CID. *)
Theorem diff_exact {B} `{!Blocks B} (U : Cid -> bytes -> Prop) (J : B -> Prop) (trace : B -> list (bytes * Change)) (visit : bytes -> Change -> ST B unit) (a b : option Cid) (path : bytes) (left : Z) (s : B) :
  (forall c x y, U c x -> U c y -> matches c x = true -> matches c y = true -> x = y) -> (0 <= left < W64)%Z ->
  (forall c room s, goes J (same_trace trace) (get c room) s (fun bs _ => (zlen bs <= room)%Z /\ Forall is_byte bs /\ U c bs)) ->
  (forall p c s, goes J any (visit p c) s (fun _ s' => trace s' = trace s ++ [(p, c)])) ->
  goes (JZ J) (RZ any) (diff a b path visit) (left, s) (fun n y => exists l, trace y.2 = trace s ++ map out l /\ n = Z.of_nat (length l) /\
    StronglySorted path_lt (map fst l) /\ forall ns c, (ns, c) ∈ l <-> differs U a b ns c).
Proof. intros HU Hl Hget Hvisit. by apply (diff_run U HU J trace Hget visit Hvisit a b path (left, s)). Qed.
(** A store of two directories, and what was visited. *)
Definition one_entries : list DEntry := [mkDEntry [97%Z] File 5 demo_cid; mkDEntry [98%Z] Directory 0 demo_cid].
Definition two_entries : list DEntry := [mkDEntry [97%Z] File 6 demo_cid; mkDEntry [98%Z] Directory 0 demo_cid; mkDEntry [99%Z] File 1 demo_cid].
Definition one_bytes : bytes := Eval vm_compute in dir_image one_entries.
Definition two_bytes : bytes := Eval vm_compute in dir_image two_entries.
Definition one_cid : Cid := Eval vm_compute in of_data DagCbor one_bytes.
Definition two_cid : Cid := Eval vm_compute in of_data DagCbor two_bytes.
Definition two_dirs : Blocks (list (bytes * Change)) := {| put k x s := (Refuse Full, s);
  get c room s := if (room <? 300)%Z then (Refuse TooLarge, s) else if decide (c = one_cid) then (Done one_bytes, s) else if decide (c = two_cid) then (Done two_bytes, s) else (Refuse NotFound, s); has c s := (Done true, s) |}.
Definition demo_changes : list (bytes * Change) := [([97%Z], Changed (mkSide File 5 demo_cid) (mkSide File 6 demo_cid)); ([99%Z], Added (mkSide File 1 demo_cid))].
Definition note (p : bytes) (c : Change) : ST (list (bytes * Change)) unit := fun s => (Done tt, s ++ [(p, c)]).
Lemma demo_diff : diff (Blocks0:=two_dirs) (Some one_cid) (Some two_cid) (replicate 8 0%Z) note (100%Z, []) = (Done 2%Z, (95%Z, demo_changes)).
Proof. vm_compute. reflexivity. Qed.
Definition two_gives (c : Cid) (x : bytes) : Prop := c = one_cid /\ x = one_bytes \/ c = two_cid /\ x = two_bytes.
Lemma bytes_bool l : forallb (fun b => (0 <=? b)%Z && (b <? 256)%Z) l = true -> Forall is_byte l.
Proof. intros H. apply Forall_forall. intros x Hx%list_elem_of_In. rewrite forallb_forall in H. specialize (H x Hx). unfold is_byte. lia. Qed.
Lemma diff_exact_witness : exists l, demo_changes = map out l /\ 2%Z = Z.of_nat (length l) /\ StronglySorted path_lt (map fst l) /\ forall ns c, (ns, c) ∈ l <-> differs two_gives (Some one_cid) (Some two_cid) ns c.
Proof.
  pose proof (diff_exact (Blocks0:=two_dirs) two_gives (fun _ => True) (fun s => s) note (Some one_cid) (Some two_cid) (replicate 8 0%Z) 100 []) as H. unfold goes at 3 in H. rewrite demo_diff in H. apply H; clear H.
  - intros c x y [[-> ->]|[-> ->]] [[E ->]|[E ->]] _ _; try reflexivity; discriminate E.
  - split; reflexivity || discriminate.
  - intros c room s _. unfold get, two_dirs. destruct (Z.ltb_spec room 300) as [|Hr]; [exact I|]. case_decide as E; [|case_decide as E'; [|exact I]]; (split; [exact I|]); (split; [reflexivity|]); (split; [|split; [apply bytes_bool; reflexivity|]]).
    + apply (Z.le_trans _ 300); [apply Z.leb_le; reflexivity|exact Hr].
    + left. split; [exact E|reflexivity].
    + apply (Z.le_trans _ 300); [apply Z.leb_le; reflexivity|exact Hr].
    + right. split; [exact E'|reflexivity].
  - intros p c s _. split; [exact I|]. split; [exact I|reflexivity].
  - exact I.
Defined.
