(* ===== verification/Car.v ===== *)
(** * Copies of named roots in a file ([libmind/src/car.rs])

    A copy is a CAR v1: a header with one root, the names node, then every block under each name's root as a walk visits
    them. Its model: the header and the names node with their codecs, sections, the reader and the writer with their digests,
    the sections as a store of blocks a walk reads, the check, the import and the export. [CarCheck] says what a check shows. *)
From S2P Require Import Prelude Outcome Text Sha256 Cid Cbor Dag DagTree Directory Journal Tour.
Local Open Scope nat_scope.

Definition VERSION : Z := 1.
Definition SCHEMA : Z := 1.
Definition NAMES : nat := 8.
Definition NAME_MAX : nat := 64.
Definition HEADER : nat := 1 + 6 + 1 + LINK + 8 + 1.
Definition SECTION_MAX : Z := Z.of_nat BYTES + CHUNK.
Definition NODE_MAX : nat := 1 + 2 + 1 + 6 + 1 + NAMES * (1 + 2 + NAME_MAX + 9 + LINK).
Definition SEEN : nat := 32.
Definition LEAD : nat := 9 + BYTES.

Inductive CError : Type :=
  | CTruncated | CFormat | CVersion | CTooLarge | CCid (e : Cid.Error) | CCorrupt | CBlock | CMissing | COrder | CName | CChanged | CFile | CStore (e : Cbor.Error).
Record Refused : Type := mkRefused { error : CError; refused_at : Z }.

Class Source (R : Type) : Type := read_at : Z -> nat -> STE CError R bytes.
Class Target (T : Type) : Type := write_out : bytes -> STE CError T unit.
(** [Names::publish] and what copies need beside it. *)
Class Store (B : Type) : Type := {
  publish : bytes -> Z -> Cid -> ST B (option Z);
  snapshot : list bytes -> ST B (list (Z * option Cid));
  collect : ST B Z
}.
(** A copy in memory. *)
Definition memory_source : Source bytes := fun at_ room s => let from := Z.to_nat (Z.min at_ (Z.of_nat (length s))) in (Done (slice s from (Nat.min room (length s - from))), s).

(** ** The codecs *)
Fixpoint varint_loop (fuel : nat) (value : Z) : bytes :=
  match fuel with
  | O => []
  | S fuel => let b := Z.land value 0x7f in let value := Z.shiftr value 7 in if (value =? 0)%Z then [b] else Z.lor b 0x80 :: varint_loop fuel value
  end.
Definition varint (value : Z) : bytes := varint_loop 10 value.
Definition length_of (bs : bytes) : outcome CError (Z * nat) :=
  match Cid.varint bs with Ok x => Done x | Err Truncated => Refuse CTruncated | Err _ => Refuse CFormat end.
Definition format {A} (o : outcome Cbor.Error A) : outcome CError A := match o with Done a => Done a | Refuse _ => Refuse CFormat | Crash => Crash end.

Definition text_roots : bytes := [114; 111; 111; 116; 115]%Z.
Definition text_version : bytes := [118; 101; 114; 115; 105; 111; 110]%Z.
Definition text_names : bytes := [110; 97; 109; 101; 115]%Z.
Section sinks.
Context {S : Type} `{!Sink S}.
Definition header (root : Cid) (o : S) : outcome Cbor.Error S :=
  o ← head 5 2 o; o ← text text_roots o; o ← head 4 1 o; o ← link root o; o ← text text_version o; head 0 VERSION o.
End sinks.
Definition header_root (bs : bytes) : outcome CError Cid :=
  '(keys, i) ← format (expect 5 (mkIn bs 0));
  if (keys =? 1)%Z then
    i ← format (key text_version i);
    '(v, _) ← format (expect 0 i);
    Refuse (if negb (v =? VERSION)%Z then CVersion else CFormat)
  else
  if negb (keys =? 2)%Z then Refuse CFormat else
  i ← format (key text_roots i);
  '(n, i) ← format (expect 4 i);
  if negb (n =? 1)%Z then Refuse CFormat else
  '(root, i) ← format (read_link i);
  i ← format (key text_version i);
  '(v, i) ← format (expect 0 i);
  if negb (v =? VERSION)%Z then Refuse CVersion else
  same ← format (canonical (header root (mkSame bs 0 true)) bs);
  if negb same || negb (bool_decide (codec root = DagCbor)) then Refuse CFormat else Done root.

Record Named : Type := mkNamed { nname : bytes; nversion : Z; nroot : Cid }.
Definition name_char (c : Z) : bool := ((48 <=? c) && (c <=? 57) || (65 <=? c) && (c <=? 90) || (97 <=? c) && (c <=? 122) || (c =? 46) || (c =? 95) || (c =? 47) || (c =? 45))%Z.
Definition valid_name (name : bytes) : bool := (1 <=? length name) && (length name <=? NAME_MAX) && forallb name_char name.
Definition valid (n : Named) : bool := valid_name (nname n) && (1 <=? nversion n)%Z.
Fixpoint names_sorted (ns : list Named) : bool :=
  match ns with n :: (m :: _) as ns' => before (nname n) (nname m) && names_sorted ns' | _ => true end.
Section names.
Context {S : Type} `{!Sink S}.
Definition write_named (n : Named) (o : S) : outcome Cbor.Error S := o ← head 4 3 o; o ← text (nname n) o; o ← head 0 (nversion n) o; link (nroot n) o.
Fixpoint write_named_all (named : nat -> outcome Cbor.Error Named) (ks : list nat) (o : S) : outcome Cbor.Error S :=
  match ks with [] => Done o | k :: ks => n ← named k; o ← write_named n o; write_named_all named ks o end.
Definition names_with (count : nat) (named : nat -> outcome Cbor.Error Named) (o : S) : outcome Cbor.Error S :=
  o ← head 5 2 o; o ← text text_v o; o ← head 0 SCHEMA o; o ← text text_names o; o ← head 4 (Z.of_nat count) o; write_named_all named (seq 0 count) o.
End names.
Definition encode_names (ns : list Named) : outcome CError bytes :=
  if negb ((1 <=? length ns) && (length ns <=? NAMES)) || negb (forallb valid ns) || negb (names_sorted ns) then Refuse CName else
  match names_with (length ns) (fun k => or_crash (ns !! k)) (mkOut (replicate NODE_MAX 0%Z) 0) with
  | Done o => Done (take (oat o) (obytes o)) | Refuse _ => Refuse CFormat | Crash => Crash
  end.
Definition read_named (i : In) : outcome CError (Named * In) :=
  '(n, i) ← format (expect 4 i);
  if negb (n =? 3)%Z then Refuse CFormat else
  '(len, i) ← format (expect 3 i);
  '(name, i) ← format (take_n len i);
  match utf8 name with
  | None => Refuse CName
  | Some _ =>
      '(version, i) ← format (expect 0 i);
      '(root, i) ← format (read_link i);
      let n := mkNamed name version root in
      if negb (valid n) then Refuse CName else Done (n, i)
  end.
Record Roots : Type := mkRoots { rbytes : bytes; rstarts : list nat }.
(** [unwrap] panics where a name cannot be read. *)
Definition roots_get (r : Roots) (k : nat) : outcome CError Named :=
  s ← or_crash (rstarts r !! k);
  match read_named (mkIn (rbytes r) s) with Done (n, _) => Done n | _ => Crash end.
Fixpoint read_names (n : nat) (i : In) (last : option bytes) (acc : list nat) : outcome CError (list nat * In) :=
  match n with
  | O => Done (acc, i)
  | S n =>
      let at_ := Z.to_nat (wrap16 (Z.of_nat (iat i))) in
      '(x, i) ← read_named i;
      if match last with Some l => negb (before l (nname x)) | None => false end then Refuse CFormat else read_names n i (Some (nname x)) (acc ++ [at_])
  end.
Definition decode_names (bs : bytes) : outcome CError Roots :=
  if NODE_MAX <? length bs then Refuse CFormat else
  '(keys, i) ← format (expect 5 (mkIn bs 0));
  i ← format (key text_v i);
  '(v, i) ← format (expect 0 i);
  if negb (v =? SCHEMA)%Z then Refuse CVersion else
  if negb (keys =? 2)%Z then Refuse CFormat else
  i ← format (key text_names i);
  '(count, i) ← format (expect 4 i);
  if negb ((1 <=? count) && (count <=? Z.of_nat NAMES))%Z then Refuse CName else
  '(starts, i) ← read_names (Z.to_nat count) i None [];
  let r := mkRoots bs starts in
  if negb (iat i =? length bs) then Refuse CFormat else
  same ← format (canonical (names_with (length starts) (fun k => match roots_get r k with Done n => Done n | _ => Crash end) (mkSame bs 0 true)) bs);
  if (same : bool) then Done r else Refuse CFormat.

(** ** Sections *)
(** From the first bytes of the section at [at_]: its CID, where its block starts, the block's length, and where the next
    section starts; none where there are none. *)
Definition parse_lead (at_ : Z) (lead : bytes) : outcome CError (option (Cid * Z * Z * Z)) :=
  if length lead =? 0 then Done None else
  '(len, n) ← length_of (take 9 lead);
  if (SECTION_MAX <? len)%Z then Refuse CTooLarge else
  let read := drop n lead in
  let want := Nat.min (Z.to_nat len) BYTES in
  match Cid.read (take want read) with
  | Ok (c, taken) =>
      size ← minus len (Z.of_nat taken);
      Done (Some (c, at_ + Z.of_nat (n + taken), size, at_ + Z.of_nat n + len)%Z)
  | Err Truncated => Refuse (if length read <? want then CTruncated else CFormat)
  | Err e => Refuse (CCid e)
  end.

Section reader.
Context {R : Type} `{!Source R}.
Definition section (at_ : Z) : STE CError R (option (Cid * Z * Z * Z)) := lead ← read_at at_ LEAD; lift (parse_lead at_ lead).

Record Reader : Type := mkReader { source : R; root : Cid; at_ : Z; hash : Sha256 }.
Definition on_source {A} (m : STE CError R A) : STE CError Reader A := fun r => let '(o, s) := m (source r) in (o, mkReader s (root r) (at_ r) (hash r)).
(** [Reader::open], the reader's parts beside the source. *)
Definition open : STE CError R (Cid * Z * Sha256) :=
  lead ← read_at 0 9;
  '(len, n) ← lift (length_of lead);
  if (Z.of_nat HEADER <? len)%Z then fail CFormat else
  head ← read_at (Z.of_nat n) (Z.to_nat len);
  if length head <? Z.to_nat len then fail CTruncated else
  root ← lift (header_root head);
  mret (root, Z.of_nat (n + length head), Sha256.update (Sha256.update Sha256.new (take n lead)) head).
Definition digest (r : Reader) : bytes := Sha256.finish (hash r).
Definition next : STE CError Reader (option (Cid * bytes)) := fun r =>
  (x ← on_source (section (at_ r));
   match x with
   | None => mret None
   | Some (c, start, len, end_) =>
       _ ← lift (if (CHUNK <? len)%Z then Crash else Done tt);
       block ← on_source (read_at start (Z.to_nat len));
       if length block <? Z.to_nat len then fail CTruncated else
       if negb (matches c block) then fail CCorrupt else
       fun r => (Done (Some (c, block)), mkReader (source r) (root r) end_ (Sha256.update (Sha256.update (Sha256.update (hash r) (varint (Z.of_nat BYTES + len))) (to_bytes c)) block))
   end) r.

(** ** A copy's sections as a walk reads them *)
Record Sections : Type := mkSections { reader : Reader; first : Z; visited : Z; failed : option CError; last : bytes * Z; seen : list (bytes * Z * Z); clock : Z }.
Definition on_reader {A} (m : STE CError Reader A) : STE CError Sections A := fun s =>
  let '(o, r) := m (reader s) in (o, mkSections r (first s) (visited s) (failed s) (last s) (seen s) (clock s)).
(** [fail]: the refusal is kept, the walk hears that its store failed. *)
Definition failing {A} (m : STE CError Sections A) : ST Sections A := fun s =>
  match m s with
  | (Done a, s) => (Done a, s)
  | (Refuse e, s) => (Refuse Cbor.Store, mkSections (reader s) (first s) (visited s) (Some e) (last s) (seen s) (clock s))
  | (Crash, s) => (Crash, s)
  end.
(** The first of the places with the least clock. *)
Fixpoint oldest (k best : nat) (least : Z) (xs : list (bytes * Z * Z)) : nat :=
  match xs with [] => best | x :: xs => if (x.2 <? least)%Z then oldest (S k) k x.2 xs else oldest (S k) best least xs end.
Fixpoint position_of (key : bytes) (k : nat) (xs : list (bytes * Z * Z)) : option nat :=
  match xs with [] => None | x :: xs => if bool_decide (x.1.1 = key) then Some k else position_of key (S k) xs end.
Definition remember (key : bytes) (place : Z) : STE CError Sections unit := fun s =>
  let clock := (clock s + 1)%Z in
  let slot := match position_of key 0 (seen s) with Some k => k | None => match seen s with [] => 0 | x :: xs => oldest 1 0 x.2 xs end end in
  (Done tt, mkSections (reader s) (first s) (visited s) (failed s) (last s) (<[slot := (key, place, clock)]> (seen s)) clock).
Definition visit (c : Cid) : ST Sections unit := failing (fun s =>
  let place := at_ (reader s) in
  (x ← on_reader next;
   match x with
   | None => fail CMissing
   | Some (found, _) =>
       if negb (bool_decide (found = c)) then fail COrder else
       _ ← (fun s => (Done tt, mkSections (reader s) (first s) (visited s + 1) (failed s) (to_bytes found, place) (seen s) (clock s)));
       if bool_decide (codec found = DagCbor) then remember (to_bytes found) place else mret tt
   end) s).
Fixpoint find_loop (fuel : nat) (c : Cid) (from to : Z) : STE CError Sections (option Z) :=
  match fuel with
  | O => lift Crash
  | S fuel =>
      if (from <? to)%Z then
        x ← on_reader (on_source (section from));
        match x with
        | None => mret None
        | Some (found, _, _, after) =>
            if bool_decide (found = c) then
              _ ← (if bool_decide (codec found = DagCbor) then remember (to_bytes c) from else mret tt);
              mret (Some from)
            else find_loop fuel c after to
        end
      else mret None
  end.
Definition find (c : Cid) : STE CError Sections (option Z) := fun s =>
  let key := to_bytes c in
  (if bool_decide ((last s).1 = key) then mret (Some (last s).2) else
   match List.find (fun x => bool_decide (x.1.1 = key)) (seen s) with
   | Some (_, place, _) => _ ← remember key place; mret (Some place)
   | None =>
       let to := at_ (reader s) in
       x ← on_reader (on_source (section to));
       if match x with Some (found, _, _, _) => bool_decide (found = c) | None => false end then mret (Some to) else
       find_loop (S (Z.to_nat (to - first s))) c (first s) to
   end) s.
Definition read_block (c : Cid) (room : Z) : STE CError Sections (option bytes) :=
  place ← find c;
  match place with
  | None => mret None
  | Some place =>
      x ← on_reader (on_source (section place));
      match x with
      | None => mret None
      | Some (_, start, len, _) =>
          if (room <? len)%Z then fail CTooLarge else
          block ← on_reader (on_source (read_at start (Z.to_nat len)));
          if length block <? Z.to_nat len then fail CTruncated else mret (Some block)
      end
  end.
#[global] Instance sections_blocks : Blocks Sections := {|
  put _ _ := fail Cbor.Store;
  get c room := x ← failing (read_block c room); lift (or_refuse x NotFound);
  has c := x ← failing (find c); mret (bool_decide (is_Some x))
|}.

(** ** The check *)
Record Checked : Type := mkChecked { c_names : nat; c_blocks : Z; c_bytes : Z; c_digest : bytes }.
Definition walk_refusal (s : Sections) (e : Cbor.Error) : CError :=
  match failed s with Some f => f | None => match e with NotFound => CMissing | Cbor.Corrupt => CCorrupt | _ => CBlock end end.
Fixpoint walk_roots (r : Roots) (ks : list nat) (s : Sections) : outcome Refused unit * Sections :=
  match ks with
  | [] => (Done tt, s)
  | k :: ks =>
      match roots_get r k with
      | Done n =>
          match Tour.walk (nroot n) (W64 - 1) visit s with
          | (Done _, s) => walk_roots r ks s
          | (Refuse e, s) => (Refuse (mkRefused (walk_refusal s e) (at_ (reader s))), s)
          | (Crash, s) => (Crash, s)
          end
      | _ => (Crash, s)
      end
  end.
Definition refusing {A} (at_ : Z) (o : outcome CError A) : outcome Refused A := match o with Done a => Done a | Refuse e => Refuse (mkRefused e at_) | Crash => Crash end.
Definition no_sections (r : Reader) (first : Z) : Sections := mkSections r first 0 None (replicate BYTES 0%Z, 0%Z) (replicate SEEN (replicate BYTES 0%Z, 0%Z, 0%Z)) 0.
(** The names node and what was found. *)
Definition verify (s : R) : outcome Refused (bytes * Checked) * R :=
  match open s with
  | (Done (c, place, h), s) =>
      match next (mkReader s c place h) with
      | (Done (Some (found, node)), r) =>
          if negb (bool_decide (found = root r)) then (Refuse (mkRefused COrder place), source r) else
          if NODE_MAX <? length node then (Refuse (mkRefused CFormat place), source r) else
          match decode_names node with
          | Done roots =>
              match walk_roots roots (seq 0 (length (rstarts roots))) (no_sections r (at_ r)) with
              | (Done _, ss) =>
                  let r := reader ss in
                  match next r with
                  | (Done None, r) => (Done (node, mkChecked (length (rstarts roots)) (visited ss) (at_ r) (digest r)), source r)
                  | (Done (Some _), r') => (Refuse (mkRefused COrder (at_ r)), source r')
                  | (Refuse e, r') => (Refuse (mkRefused e (at_ r)), source r')
                  | (Crash, r') => (Crash, source r')
                  end
              | (Refuse e, ss) => (Refuse e, source (reader ss))
              | (Crash, ss) => (Crash, source (reader ss))
              end
          | Refuse e => (Refuse (mkRefused e place), source r)
          | Crash => (Crash, source r)
          end
      | (Done None, r) => (Refuse (mkRefused CMissing place), source r)
      | (Refuse e, r) => (Refuse (mkRefused e place), source r)
      | (Crash, r) => (Crash, source r)
      end
  | (Refuse e, s) => (Refuse (mkRefused e 0), s)
  | (Crash, s) => (Crash, s)
  end.
Fixpoint all_named (r : Roots) (ks : list nat) : outcome CError (list Named) :=
  match ks with [] => Done [] | k :: ks => n ← roots_get r k; ns ← all_named r ks; Done (n :: ns) end.
(** [check]: what was found, and the names heard. *)
Definition check (s : R) : outcome Refused (Checked * list Named) * R :=
  match verify s with
  | (Done (node, found), s) => (roots ← refusing 0 (decode_names node); ns ← refusing 0 (all_named roots (seq 0 (length (rstarts roots)))); Done (found, ns), s)
  | (Refuse e, s) => (Refuse e, s)
  | (Crash, s) => (Crash, s)
  end.
End reader.
Arguments Reader : clear implicits.
Arguments Sections : clear implicits.

(** ** The writer *)
Section writer.
Context {T : Type} `{!Target T}.
Record Writer : Type := mkWriter { target : T; wbytes : Z; whash : Sha256 }.
Definition put (data : bytes) : STE CError Writer unit := fun w =>
  match write_out data (target w) with
  | (Done _, t) => (Done tt, mkWriter t (wbytes w + Z.of_nat (length data)) (Sha256.update (whash w) data))
  | (Refuse e, t) => (Refuse e, mkWriter t (wbytes w) (whash w))
  | (Crash, t) => (Crash, mkWriter t (wbytes w) (whash w))
  end.
Definition header_bytes (root : Cid) : outcome CError bytes := format (o ← header root (mkOut (replicate HEADER 0%Z) 0); Done (obytes o)).
Definition writer_new (root : Cid) : STE CError Writer unit := head ← lift (header_bytes root); _ ← put (varint (Z.of_nat HEADER)); put head.
Definition write_section (c : Cid) (block : bytes) : STE CError Writer unit :=
  if (CHUNK <? Z.of_nat (length block))%Z then fail CTooLarge else
  _ ← put (varint (Z.of_nat (BYTES + length block)) ++ to_bytes c); put block.

Record Exported : Type := mkExported { e_names : nat; e_blocks : Z; e_bytes : Z; e_digest : bytes }.
Context {B : Type} `{!Blocks B}.
(** The store, the writer, the blocks written and the writer's refusal. *)
Definition Writing : Type := B * (Writer * (Z * option CError)).
Definition on_store {A} (m : ST B A) : ST Writing A := fun '(b, w) => let '(o, b) := m b in (o, (b, w)).
#[global] Instance writing_blocks : Blocks Writing := {| Dag.put k x := on_store (Dag.put k x); Dag.get c room := on_store (Dag.get c room); Dag.has c := on_store (Dag.has c) |}.
Definition write_block (c : Cid) (block : bytes) : ST Writing unit := fun '(b, (w, (n, f))) =>
  match write_section c block w with
  | (Done _, w) => (Done tt, (b, (w, (n + 1, f)%Z)))
  | (Refuse e, w) => (Refuse Cbor.Store, (b, (w, (n, Some e))))
  | (Crash, w) => (Crash, (b, (w, (n, f))))
  end.
Definition copy_block (c : Cid) : ST Writing unit :=
  block ← Dag.get c CHUNK;
  if negb (matches c block) then fail Cbor.Corrupt else write_block c block.
Fixpoint write_roots (ns : list Named) (steps : Z) (s : Writing) : outcome CError unit * Writing :=
  match ns with
  | [] => (Done tt, s)
  | n :: ns =>
      match Tour.walk (nroot n) steps copy_block s with
      | (Done _, s) => write_roots ns steps s
      | (Refuse e, s) => (Refuse (match s.2.2.2 with Some f => f | None => CStore e end), s)
      | (Crash, s) => (Crash, s)
      end
  end.
Definition write (ns : list Named) (steps : Z) (b : B) (t : T) : outcome CError (T * Exported) * B :=
  match encode_names ns with
  | Done node =>
      let root := of_data DagCbor node in
      match (_ ← writer_new root; write_section root node) (mkWriter t 0 Sha256.new) with
      | (Done _, w) =>
          match write_roots ns steps (b, (w, (0%Z, None))) with
          | (Done _, (b, (w, (n, _)))) => (Done (target w, mkExported (length ns) n (wbytes w) (Sha256.finish (whash w))), b)
          | (Refuse e, (b, _)) => (Refuse e, b)
          | (Crash, (b, _)) => (Crash, b)
          end
      | (Refuse e, _) => (Refuse e, b)
      | (Crash, _) => (Crash, b)
      end
  | Refuse e => (Refuse e, b)
  | Crash => (Crash, b)
  end.

(** [export]: the names with their versions and roots at one point, heard in order, then [write]. *)
Context `{!Store B}.
Fixpoint insert_by (x : bytes * (Z * option Cid)) (l : list (bytes * (Z * option Cid))) : list (bytes * (Z * option Cid)) :=
  match l with [] => [x] | y :: l => if before (y.1) (x.1) then y :: insert_by x l else x :: y :: l end.
Definition sort_by (l : list (bytes * (Z * option Cid))) : list (bytes * (Z * option Cid)) := foldr insert_by [] l.
Definition twice (ns : list bytes) : bool := existsb (fun k => bool_decide (ns !!! k ∈ take k ns)) (seq 1 (length ns - 1)).
Definition export (ns : list bytes) (steps : Z) (b : B) (t : T) : outcome CError ((T * Exported) * list (bytes * (Z * option Cid))) * B :=
  if negb ((1 <=? length ns) && (length ns <=? NAMES)) || negb (forallb valid_name ns) || twice ns then (Refuse CName, b) else
  match snapshot ns b with
  | (Done heads, b) =>
      let sorted := sort_by (zip ns heads) in
      match mapM (fun x => root ← x.2.2; Some (mkNamed x.1 x.2.1 root)) sorted with
      | None => (Refuse CMissing, b)
      | Some named => let '(o, b) := write named steps b t in (x ← o; Done (x, sorted), b)
      end
  | (Refuse e, b) => (Refuse (CStore e), b)
  | (Crash, b) => (Crash, b)
  end.
End writer.
Arguments Writer : clear implicits.

(** ** The import *)
Inductive Outcome_ : Type := Published (version : Z) | Same_ (version : Z) | Conflict (version : Z) (root : option Cid).
Record Imported : Type := mkImported { i_checked : Checked; i_stored : Z; i_repaired : Z; i_held : Z; i_collected : option (result Cbor.Error Z) }.
Section import.
Context {R B : Type} `{!Source R} `{!Blocks B} `{!Store B}.
(** A block put, read from the store first; which of the counts it adds to. *)
Inductive Kept : Type := KStored | KRepaired | KHeld.
Definition put_block (c : Cid) (block : bytes) (b : B) : outcome CError Kept * B :=
  match Dag.get c CHUNK b with
  | (Crash, b) => (Crash, b)
  | (got, b) =>
      match (match got with
             | Done x => if matches c x then Done KHeld else Refuse (CStore Cbor.Corrupt)
             | Refuse NotFound => Done KStored
             | Refuse Cbor.Corrupt => Done KRepaired
             | Refuse e => Refuse (CStore e)
             | Crash => Crash
             end) with
      | Done k =>
          match Dag.put (codec c) block b with
          | (Done put, b) => (if bool_decide (put = c) then Done k else Refuse (CStore Cbor.Corrupt), b)
          | (Refuse e, b) => (Refuse (CStore e), b)
          | (Crash, b) => (Crash, b)
          end
      | Refuse e => (Refuse e, b)
      | Crash => (Crash, b)
      end
  end.
Definition tally (k : Kept) (t : Z * Z * Z) : Z * Z * Z :=
  let '(stored, repaired, held) := t in
  match k with KStored => (stored + 1, repaired, held) | KRepaired => (stored, repaired + 1, held) | KHeld => (stored, repaired, held + 1) end%Z.
(** Every section but the first is put. *)
Fixpoint put_loop (fuel : nat) (head : bool) (t : Z * Z * Z) (b : B) (r : Reader R) : outcome Refused (Z * Z * Z) * (B * Reader R) :=
  match fuel with
  | O => (Crash, (b, r))
  | S fuel =>
      let place := at_ r in
      match next r with
      | (Done None, r) => (Done t, (b, r))
      | (Done (Some (c, block)), r) =>
          if head then put_loop fuel false t b r else
          match put_block c block b with
          | (Done k, b) => put_loop fuel false (tally k t) b r
          | (Refuse e, b) => (Refuse (mkRefused e place), (b, r))
          | (Crash, b) => (Crash, (b, r))
          end
      | (Refuse e, r) => (Refuse (mkRefused e place), (b, r))
      | (Crash, r) => (Crash, (b, r))
      end
  end.
(** What becomes of a name: at the copy's root, at another, or published from the version it is at. *)
Definition settle_name (n : Named) (h : Z * option Cid) : ST B Outcome_ :=
  match h with
  | (version, Some root) => mret (if bool_decide (root = nroot n) then Same_ version else Conflict version (Some root))
  | (version, None) =>
      p ← publish (nname n) version (nroot n);
      match p with
      | Some new => mret (Published new)
      | None =>
          now ← snapshot [nname n];
          match now with
          | (v, None) :: _ => mret (Conflict v None)
          | (v, Some root) :: _ => mret (if bool_decide (root = nroot n) then Same_ v else Conflict v (Some root))
          | [] => lift Crash
          end
      end
  end.
Fixpoint settle_names (ns : list Named) (hs : list (Z * option Cid)) : ST B (list (Named * Outcome_)) :=
  match ns, hs with
  | n :: ns, h :: hs => o ← settle_name n h; rest ← settle_names ns hs; mret ((n, o) :: rest)
  | [], _ => mret []
  | _ :: _, [] => lift Crash
  end.
Definition publish_all (place : Z) (ns : list Named) (b : B) : outcome Refused (list (Named * Outcome_)) * B :=
  match (hs ← snapshot (map nname ns); settle_names ns hs) b with
  | (Done x, b) => (Done x, b) | (Refuse e, b) => (Refuse (mkRefused (CStore e) place), b) | (Crash, b) => (Crash, b)
  end.
(** [fuel] is more than the sections of the second reading. *)
Definition import (fuel : nat) (b : B) (s : R) : outcome Refused (Imported * list (Named * Outcome_)) * (B * R) :=
  match verify s with
  | (Done (node, checked), s) =>
      match open s with
      | (Done (c, place, h), s) =>
          match put_loop fuel true (0, 0, 0)%Z b (mkReader s c place h) with
          | (Done (stored, repaired, held), (b, r)) =>
              if negb (at_ r =? c_bytes checked)%Z || negb (bool_decide (digest r = c_digest checked)) then (Refuse (mkRefused CChanged (at_ r)), (b, source r)) else
              match (roots ← refusing (at_ r) (decode_names node); refusing (at_ r) (all_named roots (seq 0 (length (rstarts roots))))) with
              | Done ns =>
                  match publish_all (at_ r) ns b with
                  | (Done outcomes, b) =>
                      if (0 <? repaired)%Z then
                        match collect b with
                        | (Done n, b) => (Done (mkImported checked stored repaired held (Some (Ok n)), outcomes), (b, source r))
                        | (Refuse e, b) => (Done (mkImported checked stored repaired held (Some (Err e)), outcomes), (b, source r))
                        | (Crash, b) => (Crash, (b, source r))
                        end
                      else (Done (mkImported checked stored repaired held None, outcomes), (b, source r))
                  | (Refuse e, b) => (Refuse e, (b, source r))
                  | (Crash, b) => (Crash, (b, source r))
                  end
              | Refuse e => (Refuse e, (b, source r))
              | Crash => (Crash, (b, source r))
              end
          | (Refuse e, (b, r)) => (Refuse e, (b, source r))
          | (Crash, (b, r)) => (Crash, (b, source r))
          end
      | (Refuse e, s) => (Refuse (mkRefused e 0), (b, s))
      | (Crash, s) => (Crash, (b, s))
      end
  | (Refuse e, s) => (Refuse e, (b, s))
  | (Crash, s) => (Crash, (b, s))
  end.
End import.
