(* ===== verification/CarCodec.v ===== *)
(** * The codecs of copies ([libmind/src/car.rs]: [varint], [length], [header_root], [decode_names], [section])

    Each reader accepts only the one encoding of what it gives: a length in its shortest form, a header, a names node, the
    start of a section. None of them panics. *)
From S2P Require Import Prelude Outcome Text Sha256 Cid Cbor Dag DagTree Directory Journal Tour Car.
Local Open Scope nat_scope.

(** ** Lengths *)
Lemma lor_shift_add (value x : Z) (k : Z) : (0 <= k)%Z -> (0 <= value < 2 ^ k)%Z -> (value ||| Z.shiftl x k = value + x * 2 ^ k)%Z.
Proof.
  intros Hk Hv. rewrite Z.shiftl_mul_pow2 by lia. rewrite <- Z.lxor_lor, <- Z.add_nocarry_lxor; [done| |]; apply Z.bits_inj_0; intros n; rewrite Z.land_spec; (destruct (Z.ltb_spec n k); [rewrite Z.mul_pow2_bits_low by lia; by rewrite andb_false_r|]);
    rewrite <- (Z.mod_small value (2 ^ k)), Z.mod_pow2_bits_high by lia; done.
Qed.
Lemma land_127 w : (w &&& 127 = w mod 128)%Z.
Proof. change 127%Z with (Z.ones 7). by rewrite Z.land_ones by lia. Qed.
Lemma shiftr_7 w : (Z.shiftr w 7 = w / 128)%Z.
Proof. by rewrite Z.shiftr_div_pow2 by lia. Qed.
(** A loop that read a number read its shortest form. *)
Lemma varint_loop_only bs : Forall is_byte bs -> forall i value total v n, (0 <= value < 2 ^ (7 * Z.of_nat i))%Z -> Cid.varint_loop i value bs total = Ok (v, n) ->
  exists k w, n = i + k /\ 1 <= k <= length bs /\ (v = value + w * 2 ^ (7 * Z.of_nat i))%Z /\ (0 <= w < 2 ^ (7 * Z.of_nat k))%Z /\ (0 < i -> (0 < w)%Z) /\ forall fuel, k <= fuel -> take k bs = varint_loop fuel w.
Proof.
  induction 1 as [|b bs Hb _ IH]; intros i value total v n Hv; cbn [Cid.varint_loop]; [by case_match|].
  destruct (byte_high b Hb) as [-> H127]. unfold is_byte in Hb. destruct (Z.ltb_spec b 128) as [Hlt|Hge].
  - rewrite (H127 Hlt). destruct ((b =? 0)%Z && (0 <? i)) eqn:H0; [done|]. intros [= <- <-]. exists 1, b. cbn [length]. split_and!; [lia|lia|lia| |lia|change (7 * Z.of_nat 1)%Z with 7%Z; lia| |].
    + apply lor_shift_add; lia.
    + intros Hi. destruct (Z.eqb_spec b 0); [|lia]. cbn [andb] in H0. apply Nat.ltb_ge in H0. lia.
    + intros [|fuel] Hf; [lia|]. cbn [take varint_loop]. rewrite (H127 Hlt), shiftr_7, Z.div_small by lia. done.
  - rewrite lor_shift_add by lia. rewrite land_127. assert (b mod 128 = b - 128)%Z as Em by (symmetry; apply (Z.mod_unique_pos _ _ 1); lia). rewrite Em. intros H.
    assert (2 ^ (7 * Z.of_nat (S i)) = 128 * 2 ^ (7 * Z.of_nat i))%Z as Ep by (replace (7 * Z.of_nat (S i))%Z with (7 + 7 * Z.of_nat i)%Z by lia; by rewrite Z.pow_add_r by lia).
    apply IH in H as (k & w & -> & Hk & -> & Hw & Hp & Hf); [|rewrite Ep; nia]. specialize (Hp ltac:(lia)). exists (S k), (b - 128 + 128 * w)%Z. cbn [length].
    assert (2 ^ (7 * Z.of_nat (S k)) = 128 * 2 ^ (7 * Z.of_nat k))%Z as Ek by (replace (7 * Z.of_nat (S k))%Z with (7 + 7 * Z.of_nat k)%Z by lia; by rewrite Z.pow_add_r by lia).
    split_and!; [lia|lia|lia|rewrite Ep; lia|lia|lia|lia|]. intros [|fuel] Hl; [lia|]. cbn [take varint_loop]. rewrite land_127, shiftr_7.
    assert ((b - 128 + 128 * w) mod 128 = b - 128)%Z as -> by (symmetry; apply (Z.mod_unique_pos _ _ w); lia). assert ((b - 128 + 128 * w) / 128 = w)%Z as -> by (symmetry; apply (Z.div_unique_pos _ _ _ (b - 128)); lia).
    destruct (Z.eqb_spec w 0); [lia|]. rewrite (Hf fuel) by lia. f_equal. pose proof (lor_shift_add (b - 128) 1 7 ltac:(lia) ltac:(lia)) as E. change (Z.shiftl 1 7) with 128%Z in E. rewrite E. lia.
Qed.
Lemma varint_only bs v n : Forall is_byte bs -> Cid.varint bs = Ok (v, n) -> 1 <= n <= length bs /\ n <= 9 /\ (0 <= v < 2 ^ 63)%Z /\ take n bs = varint v.
Proof.
  intros Hb H. unfold Cid.varint in H. apply varint_loop_only in H as (k & w & -> & Hk & -> & Hw & _ & Hf); [|by apply Forall_take|cbn; lia]. rewrite length_take in Hk. rewrite Nat.add_0_l. change (2 ^ (7 * Z.of_nat 0))%Z with 1%Z. rewrite Z.mul_1_r, Z.add_0_l.
  assert (2 ^ (7 * Z.of_nat k) <= 2 ^ 63)%Z by (apply Z.pow_le_mono_r; lia). split_and!; try lia. unfold varint. rewrite <- (Hf 10) by lia. rewrite take_take. f_equal. lia.
Qed.
Lemma length_only bs : Forall is_byte bs -> yields (fun x => 1 <= x.2 <= length bs /\ x.2 <= 9 /\ (0 <= x.1 < 2 ^ 63)%Z /\ take x.2 bs = varint x.1) (length_of bs).
Proof. intros Hb. unfold length_of. destruct (Cid.varint bs) as [[v n]|[]] eqn:E; try done. cbn [yields fst snd]. by apply varint_only. Qed.

(** ** Sections *)
Definition section_image (s : Cid * bytes) : bytes := varint (Z.of_nat (BYTES + length s.2)) ++ to_bytes s.1 ++ s.2.
(** The first bytes of a section hold its length and its CID; its block follows. *)
Lemma parse_only at_ lead : Forall is_byte lead -> yields (fun x => match x with
  | None => lead = []
  | Some (c, start, size, after) => exists n, start = (at_ + Z.of_nat (n + BYTES))%Z /\ after = (start + size)%Z /\ (0 <= size <= CHUNK)%Z /\ good c /\ n + BYTES <= length lead /\
      length (varint (Z.of_nat BYTES + size)) = n /\ take (n + BYTES) lead = varint (Z.of_nat BYTES + size) ++ to_bytes c
  end) (parse_lead at_ lead).
Proof.
  intros Hb. unfold parse_lead. destruct (Nat.eqb_spec (length lead) 0) as [H0|H0]; [by apply nil_length_inv in H0|]. pose proof (length_only (take 9 lead) ltac:(by apply Forall_take)) as Hl. apply yields_iff in Hl as [Hs Hl]. apply yields_bind; [done|]. intros [len n] E. specialize (Hl _ E). cbn [fst snd] in Hl.
  destruct Hl as (Hn & Hn9 & Hlen & Ht). rewrite length_take in Hn. rewrite take_take in Ht. replace (n `min` 9) with n in Ht by lia. destruct (Z.ltb_spec SECTION_MAX len) as [|Hmax]; [done|]. destruct (Cid.read _) as [[c taken]|[]] eqn:Er; try done.
  assert (Forall is_byte (take (Z.to_nat len `min` BYTES) (drop n lead))) as Hb' by (by apply Forall_take, Forall_drop). apply read_only in Er as (-> & Hlb & Hc & Hok); [|done]. rewrite length_take, length_drop in Hlb. rewrite take_take in Hc. replace (BYTES `min` _) with BYTES in Hc by lia.
  unfold minus, checked_sub. destruct (Z.leb_spec (Z.of_nat BYTES) len) as [Hge|]; [|lia]. cbn [or_crash mbind outcome_bind yields]. exists n. unfold SECTION_MAX in Hmax. replace (Z.of_nat BYTES + (len - Z.of_nat BYTES))%Z with len by lia.
  split_and!; try lia; [split; [done|]| |].
  - assert (Forall is_byte (to_bytes c)) as Hcb by (rewrite <- Hc; by apply Forall_take, Forall_drop). unfold to_bytes in Hcb. by apply Forall_app in Hcb as [_ ?].
  - rewrite <- Ht, length_take. lia.
  - by rewrite <- Ht, <- Hc, take_take_drop.
Qed.

(** ** CBOR the reader refused *)
Lemma format_bind {A C} (Q : A -> Prop) (P : C -> Prop) (o : outcome Cbor.Error A) (k : A -> outcome CError C) : yields Q o -> (forall a, Q a -> yields P (k a)) -> yields P (format o ≫= k).
Proof. destruct o; cbn; auto. Qed.
Section steps.
Context (bs : bytes) (Hb : Forall is_byte bs).
Lemma link_step i : ibytes i = bs -> yields (fun x => ibytes x.2 = bs /\ iat i <= iat x.2 <= length bs /\ good x.1) (read_link i).
Proof using Hb. intros E. pose proof (link_forward i) as H. rewrite E in H. specialize (H Hb). unfold forward in H. rewrite E in H. destruct (read_link i) as [[c j]| |]; cbn [yields fst snd] in *; [|done|done]. destruct H as (? & ? & ? & ? & ? & _). done. Qed.
End steps.
Ltac car_expect Hb v j E L V := eapply format_bind; [apply (expect_goes _ Hb); assumption || done|]; cbn [fst snd iat]; intros [v j] (E & L & V); cbn [fst snd] in E, L, V.
Ltac car_key Hb j E L := eapply format_bind; [apply (key_goes _ Hb); assumption || done|]; cbn [iat]; intros j (E & L).
Ltac car_link Hb c j E L V := eapply format_bind; [apply (link_step _ Hb); assumption || done|]; cbn [fst snd iat]; intros [c j] (E & L & V); cbn [fst snd] in E, L, V.

(** ** Headers *)
Definition header_image (root : Cid) : bytes := head_image 5 2 ++ text_image text_roots ++ head_image 4 1 ++ link_image root ++ text_image text_version ++ head_image 0 VERSION.
Lemma header_writes {S} `{!Sink S} `{!SinkLaws S} root : writes (S:=S) (header root) (header_image root).
Proof. unfold header, header_image. repeat (apply writes_bind; [solve [auto with mind]|]). auto with mind. Qed.
Lemma length_header_image root : cid_ok root -> length (header_image root) = HEADER.
Proof. intros H. unfold header_image. rewrite !length_app, length_link by done. reflexivity. Qed.
Lemma header_only bs : Forall is_byte bs -> yields (fun c => good c /\ codec c = DagCbor /\ bs = header_image c) (header_root bs).
Proof.
  intros Hb. unfold header_root. car_expect Hb keys i1 E1 L1 V1. destruct (keys =? 1)%Z; [car_key Hb i2 E2 L2; car_expect Hb v i3 E3 L3 V3; done|]. destruct (negb _); [done|]. car_key Hb i2 E2 L2. car_expect Hb n i3 E3 L3 V3. destruct (negb _); [done|].
  car_link Hb c i4 E4 L4 V4. car_key Hb i5 E5 L5. car_expect Hb v i6 E6 L6 V6. destruct (negb _); [done|]. rewrite (header_writes c), canonical_iff. cbn [format mbind outcome_bind]. case_bool_decide as Hbs; cbn [negb orb]; [|done]. case_bool_decide as Hc; [|done]. cbn [negb yields]. done.
Qed.

(** ** Names nodes *)
Definition named_image (n : Named) : bytes := head_image 4 3 ++ text_image (nname n) ++ head_image 0 (nversion n) ++ link_image (nroot n).
Definition names_image (ns : list Named) : bytes :=
  head_image 5 2 ++ text_image text_v ++ head_image 0 SCHEMA ++ text_image text_names ++ head_image 4 (Z.of_nat (length ns)) ++ concat (map named_image ns).
Definition named_ok (n : Named) : Prop := valid n = true /\ (0 <= nversion n < W64)%Z /\ good (nroot n).
Definition names_ok (ns : list Named) : Prop := 1 <= length ns <= NAMES /\ Forall named_ok ns /\ names_sorted ns = true.
Section writes.
Context {S : Type} `{!Sink S} `{!SinkLaws S}.
Lemma write_named_writes n : writes (S:=S) (write_named n) (named_image n).
Proof using SinkLaws0. unfold write_named, named_image. repeat (apply writes_bind; [solve [auto with mind]|]). auto with mind. Qed.
Lemma write_named_all_writes named ns k s0 img : (forall i n, ns !! i = Some n -> named (k + i) = Done n) ->
  (o ← push s0 img; write_named_all (S:=S) named (seq k (length ns)) o) = push s0 (img ++ concat (map named_image ns)).
Proof using SinkLaws0.
  revert k img. induction ns as [|n ns IH]; intros k img Hk; cbn [length seq write_named_all map concat]; [rewrite app_nil_r; by destruct (push s0 img)|].
  pose proof (Hk 0 n eq_refl) as E. rewrite Nat.add_0_r in E. rewrite E. cbn [mbind outcome_bind]. specialize (IH (Datatypes.S k) (img ++ named_image n)). rewrite <- push_app in IH. rewrite app_assoc, <- IH; [|intros i x Hx; rewrite Nat.add_succ_comm; by apply Hk].
  destruct (push s0 img) as [s1| |]; cbn [mbind outcome_bind]; [|done|done]. rewrite write_named_writes. done.
Qed.
Lemma names_writes named ns : (forall i n, ns !! i = Some n -> named i = Done n) -> writes (S:=S) (names_with (length ns) named) (names_image ns).
Proof using SinkLaws0.
  intros Hk s. set (pre := fun s : S => o ← head 5 2 s; o ← text text_v o; o ← head 0 SCHEMA o; o ← text text_names o; head 4 (Z.of_nat (length ns)) o).
  assert (names_with (length ns) named s = (o ← pre s; write_named_all named (seq 0 (length ns)) o)) as ->.
  { unfold names_with, pre. destruct (head 5 2 s) as [s1| |]; cbn [mbind outcome_bind]; [|done|done]. destruct (text text_v s1) as [s2| |]; cbn [mbind outcome_bind]; [|done|done].
    destruct (head 0 SCHEMA s2) as [s3| |]; cbn [mbind outcome_bind]; [|done|done]. by destruct (text text_names s3). }
  assert (writes pre (head_image 5 2 ++ text_image text_v ++ head_image 0 SCHEMA ++ text_image text_names ++ head_image 4 (Z.of_nat (length ns)))) as Hpre by (unfold pre; repeat (apply writes_bind; [solve [auto with mind]|]); auto with mind).
  rewrite Hpre, write_named_all_writes by done. unfold names_image. by rewrite <- !app_assoc.
Qed.
End writes.
Lemma named_step bs i : Forall is_byte bs -> ibytes i = bs -> yields (fun x => ibytes x.2 = bs /\ iat i <= iat x.2 <= length bs /\ named_ok x.1) (read_named i).
Proof.
  intros Hb E0. unfold read_named. car_expect Hb n i1 E1 L1 V1. destruct (negb _); [done|]. car_expect Hb ln i2 E2 L2 V2. eapply format_bind; [apply (take_goes _ Hb); [done|lia]|]. cbn [fst snd]. intros [name i3] (E3 & L3 & Hn). cbn [fst snd] in *. destruct (utf8 name); [|done].
  car_expect Hb vs i4 E4 L4 V4. car_link Hb rt i5 E5 L5 V5. destruct (valid _) eqn:Hv; cbn [negb]; [|done]. cbn [yields fst snd]. split_and!; [done|lia|lia|]. done.
Qed.
Lemma wrap16_node n : n <= NODE_MAX -> Z.to_nat (wrap16 (Z.of_nat n)) = n.
Proof. intros H. assert (Z.of_nat NODE_MAX < W16)%Z by reflexivity. unfold wrap16. rewrite Z.mod_small by lia. lia. Qed.
(** Each name starts where the reader stood, and is read from there again. *)
Lemma read_names_spec bs n i last acc : Forall is_byte bs -> length bs <= NODE_MAX -> ibytes i = bs -> iat i <= length bs ->
  yields (fun x => ibytes x.2 = bs /\ exists ns, length ns = n /\ Forall named_ok ns /\ names_sorted ns = true /\ (match last, ns with Some l, m :: _ => before l (nname m) | _, _ => true end) = true /\
    exists ss, x.1 = acc ++ ss /\ length ss = n /\ forall k m, ns !! k = Some m -> exists s j, ss !! k = Some s /\ read_named (mkIn bs s) = Done (m, j)) (read_names n i last acc).
Proof.
  intros Hb Hch. revert i last acc. induction n as [|n IH]; intros i last acc Ei Hi; cbn [read_names].
  - cbn [yields fst snd]. split; [done|]. exists []. split_and!; [done|constructor|done|by destruct last|]. exists []. split_and!; [by rewrite app_nil_r|done|]. intros k e Hk. by rewrite lookup_nil in Hk.
  - pose proof (named_step bs i Hb Ei) as He. destruct (read_named i) as [[m j]| |] eqn:Er; cbn [yields fst snd] in He; [|done|done]. destruct He as (Ej & Hj & Hok). cbn [mbind outcome_bind]. rewrite wrap16_node by lia.
    destruct (match last with Some l => _ | None => _ end) eqn:Hbf; [done|]. specialize (IH j (Some (nname m)) (acc ++ [iat i]) Ej ltac:(lia)). destruct (read_names n j _ _) as [[st k]| |]; cbn [yields fst snd] in *; [|done|done].
    destruct IH as (Ek & ns & Hl & Hns & Hasc & Hfirst & ss & Hss & Hls & Hat). split; [done|]. exists (m :: ns). split_and!; [cbn; lia|by constructor| | |].
    + cbn [names_sorted]. destruct ns as [|m' ns]; [done|]. by rewrite Hfirst, Hasc.
    + destruct last; [by apply negb_false_iff|done].
    + exists (iat i :: ss). rewrite Hss, <- app_assoc. split_and!; [done|cbn; lia|]. intros [|p] x Hx; cbn in Hx |- *; [|by apply Hat].
      injection Hx as <-. exists (iat i), j. split; [done|]. destruct i as [ib ia]. cbn in Ei. subst ib. exact Er.
Qed.
Lemma names_only bs : Forall is_byte bs -> yields (fun r => exists ns, names_ok ns /\ bs = names_image ns /\ length (rstarts r) = length ns /\ forall k n, ns !! k = Some n -> roots_get r k = Done n) (decode_names bs).
Proof.
  intros Hb. unfold decode_names. destruct (Nat.ltb_spec NODE_MAX (length bs)) as [|Hch]; [done|]. car_expect Hb keys i1 E1 L1 V1. car_key Hb i2 E2 L2. car_expect Hb v i3 E3 L3 V3. destruct (negb _); [done|]. destruct (negb _); [done|].
  car_key Hb i4 E4 L4. car_expect Hb count i5 E5 L5 V5. destruct (negb _) eqn:Hcount; [done|]. apply negb_false_iff, andb_true_iff in Hcount as [H1%Z.leb_le H8%Z.leb_le].
  pose proof (read_names_spec bs (Z.to_nat count) i5 None [] Hb Hch E5 ltac:(lia)) as Hr. destruct (read_names _ i5 None []) as [[st k]| |]; cbn [yields fst snd] in Hr; [|done|done]. destruct Hr as (Ek & ns & Hl & Hns & Hasc & _ & ss & Hss & Hls & Hat).
  cbn [app] in Hss. subst st. cbn [mbind outcome_bind]. destruct (negb (iat k =? length bs)); [done|]. set (r := mkRoots bs ss).
  assert (forall k n, ns !! k = Some n -> roots_get r k = Done n) as Hget by (intros p n Hp; destruct (Hat p n Hp) as (s & j & Hs & Hd); unfold roots_get; cbn [rstarts r rbytes]; rewrite Hs; cbn [or_crash mbind outcome_bind]; by rewrite Hd).
  replace (length ss) with (length ns) by lia. rewrite (names_writes _ ns), canonical_iff; [|intros p n Hp; by rewrite (Hget p n Hp)]. cbn [format mbind outcome_bind]. case_bool_decide as Hbs; [|done]. cbn [yields]. exists ns. unfold names_ok. split_and!; [lia|lia|done|done|done|cbn; lia|done].
Qed.
