(* ===== verification/CarCheck.v ===== *)
(** * What a check of a copy shows ([libmind/src/car.rs]: [verify])

    A check that succeeds read the whole copy: it is a header, a names node and blocks, each in its one encoding, each block
    matches its CID, and every block under each name's root is among them. Whatever the bytes, the check ends without a
    panic. *)
From S2P Require Import Prelude Outcome Text Sha256 Cid Cbor Dag DagTree Directory Journal Tour Car CarCodec.
Local Open Scope nat_scope.

(** ** Sources *)
(** What a copy's source promises: the copy's bytes, as many as there are; a read may fail but does not change them. *)
Class SourceLaws (R : Type) `{!Source R} : Type := {
  copy : R -> bytes;
  read_copy : forall at_ room s, (0 <= at_)%Z ->
    match read_at at_ room s with (Done bs, s') => copy s' = copy s /\ bs = slice (copy s) (Z.to_nat at_) room | (Refuse _, s') => copy s' = copy s | (Crash, _) => False end
}.
#[local] Existing Instance memory_source.
#[global] Instance memory_laws : SourceLaws (Source0:=memory_source) bytes.
Proof.
  refine {| copy s := s |}. intros at_ room s Hat. unfold read_at, memory_source. split; [done|]. unfold slice.
  destruct (Z.le_gt_cases at_ (Z.of_nat (length s))) as [H|H].
  - replace (Z.min at_ _) with at_ by lia. destruct (Nat.min_spec room (length s - Z.to_nat at_)) as [[? ->]|[? ->]]; [done|]. rewrite !take_ge; [done|rewrite length_drop; lia|rewrite length_drop; lia].
  - rewrite (drop_ge _ (Z.to_nat at_)) by lia. replace (Z.to_nat (Z.min _ _)) with (length s) by lia. by rewrite drop_all, !take_nil.
Defined.

(** ** The sections of a copy *)
Section copies.
Context (D : bytes) (HD : Forall is_byte D).
(** What is read of the section at a place. *)
Definition parse (a : Z) : outcome CError (option (Cid * Z * Z * Z)) := parse_lead a (slice D (Z.to_nat a) LEAD).
(** The section at [a] names [x], of [c], and ends at [b]. *)
Definition holds_at (a : Z) (c : Cid) (x : bytes) (b : Z) : Prop :=
  (0 <= a)%Z /\ exists start, parse a = Done (Some (c, start, zlen x, b)) /\ x = slice D (Z.to_nat start) (length x).
Inductive chain : Z -> list (Cid * bytes) -> Z -> Prop :=
| chain_nil a : chain a [] a
| chain_cons a c x b secs e : holds_at a c x b -> matches c x = true -> chain b secs e -> chain a ((c, x) :: secs) e.

Lemma parse_facts a c start size b : (0 <= a)%Z -> parse a = Done (Some (c, start, size, b)) ->
  exists n, start = (a + Z.of_nat (n + BYTES))%Z /\ b = (start + size)%Z /\ (0 <= size <= CHUNK)%Z /\ good c /\ Z.to_nat start <= length D /\ slice D (Z.to_nat a) (n + BYTES) = varint (Z.of_nat BYTES + size) ++ to_bytes c.
Proof using HD.
  intros Ha E. pose proof (parse_only a (slice D (Z.to_nat a) LEAD) ltac:(by apply forall_slice)) as H. unfold parse in E. rewrite E in H. cbn [yields] in H. destruct H as (n & -> & -> & Hs & Hg & Hl & _ & Ht).
  exists n. assert (BYTES = 36) as H36 by done. unfold slice in *. rewrite length_take, length_drop in Hl. rewrite take_take in Ht. replace (_ `min` _) with (n + BYTES) in Ht by lia. split_and!; try done; lia.
Qed.
Lemma parse_none a : (0 <= a)%Z -> Z.to_nat a <= length D -> parse a = Done None -> Z.to_nat a = length D.
Proof using HD.
  intros Ha Hl E. pose proof (parse_only a (slice D (Z.to_nat a) LEAD) ltac:(by apply forall_slice)) as H. unfold parse in E. rewrite E in H. cbn [yields] in H. apply (f_equal length) in H. unfold slice in H. rewrite length_take, length_drop in H. assert (LEAD = 45) by reflexivity. cbn [length] in H. lia.
Qed.
Lemma holds_step a c x b : holds_at a c x b -> (a < b)%Z /\ (Z.to_nat b <= length D) /\ length x <= Z.to_nat b /\ good c /\ (zlen x <= CHUNK)%Z /\ slice D (Z.to_nat a) (Z.to_nat (b - a)) = section_image (c, x).
Proof using HD.
  intros (Ha & start & E & Hx). destruct (parse_facts _ _ _ _ _ Ha E) as (n & Hst & Hb & Hs & Hg & Hl & Ht). assert (BYTES = 36) as H36 by done. unfold zlen in *. pose proof (f_equal length Hx) as Hlx. unfold slice in Hlx. rewrite length_take, length_drop in Hlx.
  split_and!; [lia|lia|lia|done|lia|]. unfold section_image. cbn [fst snd]. rewrite app_assoc. replace (Z.of_nat (BYTES + length x)) with (Z.of_nat BYTES + Z.of_nat (length x))%Z by lia. rewrite <- Ht. rewrite Hx at 1. unfold slice. replace (Z.to_nat start) with (Z.to_nat a + (n + BYTES)) by lia. rewrite <- drop_drop, take_take_drop. f_equal. lia.
Qed.
Lemma chain_le a secs e : chain a secs e -> (a <= e)%Z.
Proof using HD. induction 1 as [|a c x b secs e H _ _ IH]; [lia|]. apply holds_step in H. lia. Qed.
Lemma chain_one a secs e secs' : chain a secs e -> chain a secs' e -> secs = secs'.
Proof using HD.
  intros H. revert secs'. induction H as [a|a c x b secs e H _ Hc IH]; intros secs' H'; inversion H' as [|a' c' x' b' s' e' Hh _ Hc']; subst.
  - done.
  - apply chain_le in Hc'. apply holds_step in Hh. lia.
  - apply chain_le in Hc. apply holds_step in H. lia.
  - destruct H as (_ & st & E & Ex), Hh as (_ & st' & E' & Ex'). rewrite E in E'. injection E' as <- <- El <-. unfold zlen in El. assert (x' = x) as -> by (rewrite Ex, Ex'; f_equal; lia). f_equal. by apply IH.
Qed.
Lemma chain_snoc a secs e c x b : chain a secs e -> holds_at e c x b -> matches c x = true -> chain a (secs ++ [(c, x)]) b.
Proof using. induction 1 as [|a c' x' b' secs e H Hm _ IH]; intros Hh Hx; cbn [app]; [by econstructor; [| |constructor]|]. econstructor; [done|done|by apply IH]. Qed.
Lemma chain_bytes a secs e : (0 <= a)%Z -> Z.to_nat a <= length D -> chain a secs e -> slice D (Z.to_nat a) (Z.to_nat (e - a)) = concat (map section_image secs).
Proof using HD.
  intros Ha Hl H. induction H as [a|a c x b secs e H _ Hc IH]; [by rewrite Z.sub_diag|]. pose proof (holds_step _ _ _ _ H) as (Hab & Hbl & _ & _ & _ & Hs). apply chain_le in Hc. cbn [map concat]. rewrite <- Hs, <- IH by lia. unfold slice. replace (Z.to_nat b) with (Z.to_nat a + Z.to_nat (b - a)) by lia. rewrite <- drop_drop, take_take_drop. f_equal. lia.
Qed.
Lemma chain_matches a secs e : chain a secs e -> Forall (fun s => matches s.1 s.2 = true) secs.
Proof using. induction 1; by constructor. Qed.
Lemma chain_held a secs e c x : chain a secs e -> (c, x) ∈ secs -> exists p b, holds_at p c x b.
Proof using. induction 1 as [|a c' x' b secs e H _ _ IH]; intros Hi; [by apply elem_of_nil in Hi|]. apply elem_of_cons in Hi as [[= -> ->]|Hi]; [by exists a, b|by apply IH]. Qed.
End copies.

(** ** Reading them *)
#[local] Opaque CHUNK FANOUT LEAD BYTES.
#[local] Instance any_pre {S} : PreOrder (fun _ _ : S => True).
Proof. by split. Qed.
Section reading.
Context {R : Type} `{!Source R} `{!SourceLaws R} (D : bytes) (HD : Forall is_byte D).
Abbreviation from_copy := (goes (E:=CError) (fun r : R => copy r = D) (fun _ _ => True)).
Abbreviation parse := (parse D).
Abbreviation holds_at := (holds_at D).
Abbreviation chain := (chain D).

Lemma read_from a room r : (0 <= a)%Z -> from_copy (read_at a room) r (fun bs _ => bs = slice D (Z.to_nat a) room).
Proof using. intros Ha Hr. pose proof (read_copy a room r Ha) as H. destruct (read_at a room r) as [[bs| |] r']; [|by rewrite H|done]. destruct H as [E ->]. by rewrite E, Hr. Qed.
Lemma section_from a r : (0 <= a)%Z -> from_copy (section a) r (fun x _ => parse a = Done x).
Proof using HD.
  intros Ha. unfold section. eapply goes_bind; [apply _|by apply read_from|]. cbv beta. intros lead r' _ ->. apply goes_lift; [apply _|]. apply yields_iff. split; [|done]. eapply proj1, yields_iff, parse_only. by apply forall_slice.
Qed.

(** The reader stands in the copy, its hash over what is before. *)
Definition stands (r : Reader R) : Prop := copy (source r) = D /\ (0 <= at_ r)%Z /\ Z.to_nat (at_ r) <= length D /\ holds (hash r) (take (Z.to_nat (at_ r)) D).
Definition same_place (r r' : Reader R) : Prop := stands r' /\ at_ r' = at_ r /\ root r' = root r.
Lemma on_source_stands {A} (m : STE CError R A) (P : A -> Prop) r : stands r -> (forall s, from_copy m s (fun a _ => P a)) ->
  match on_source m r with (Done a, r') => same_place r r' /\ P a | (Refuse _, r') => same_place r r' | (Crash, _) => False end.
Proof using.
  intros (Hc & Ha & Hl & Hh) H. unfold on_source. specialize (H (source r) Hc). unfold same_place, stands. destruct (m (source r)) as [[a| |] s']; [|done|done]. destruct H as (Hc' & _ & Hp). done.
Qed.
Lemma same_trans r r' r'' : same_place r r' -> same_place r' r'' -> same_place r r''.
Proof using. intros (_ & E1 & E2) (H & E3 & E4). split_and!; congruence. Qed.
Lemma next_stands r : stands r -> match next r with
  | (Done None, r') => same_place r r' /\ Z.to_nat (at_ r) = length D
  | (Done (Some (c, x)), r') => stands r' /\ root r' = root r /\ holds_at (at_ r) c x (at_ r') /\ matches c x = true
  | (Refuse _, r') => same_place r r'
  | (Crash, _) => False
  end.
Proof using HD.
  intros Hr. pose proof Hr as (Hc & Ha & Hl & Hh). unfold next. pose proof (on_source_stands (section (at_ r)) (fun x => parse (at_ r) = Done x) r Hr ltac:(intros s; by apply section_from)) as H1. unfold mbind, st_bind.
  destruct (on_source (section (at_ r)) r) as [[[[[[c start] size] b]|]| |] r1]; [| |done|done]; destruct H1 as [S1 Ep].
  - destruct (parse_facts D HD _ _ _ _ _ Ha Ep) as (n & Est & Eb & Hs & Hg & Hst & _). rewrite (proj2 (Z.ltb_ge _ _)) by lia. unfold lift.
    pose proof (on_source_stands (read_at start (Z.to_nat size)) (fun x => x = slice D (Z.to_nat start) (Z.to_nat size)) r1 ltac:(apply S1) ltac:(intros s; apply read_from; lia)) as H2. destruct (on_source _ r1) as [[x| |] r2]; [|by eapply same_trans|done]. destruct H2 as [S2 Ex]. pose proof (same_trans _ _ _ S1 S2) as S3.
    destruct (Nat.ltb_spec (length x) (Z.to_nat size)) as [|Hlx]; [done|]. assert (length x <= Z.to_nat size) as Hle by (rewrite Ex; unfold slice; rewrite length_take; lia). assert (zlen x = size) as Ez by (unfold zlen; lia). destruct (matches c x) eqn:Em; cbn [negb]; [|done].
    assert (holds_at (at_ r) c x b) as Hat. { split; [done|]. exists start. split; [by rewrite Ez|]. by replace (length x) with (Z.to_nat size) by lia. }
    destruct (holds_step D HD _ _ _ _ Hat) as (Hab & Hbl & _ & _ & _ & Himg). destruct S3 as ((Hc3 & _ & _ & Hh3) & Ea3 & Er3). cbn [at_ root]. split; [|done]. unfold stands. cbn [source at_ hash]. split; [done|]. split; [lia|]. split; [done|].
    rewrite <- Ez. unfold section_image in Himg. cbn [fst snd] in Himg. replace (Z.of_nat BYTES + zlen x)%Z with (Z.of_nat (BYTES + length x)) by (unfold zlen; lia).
    assert (take (Z.to_nat b) D = ((take (Z.to_nat (at_ r)) D ++ varint (Z.of_nat (BYTES + length x))) ++ to_bytes c) ++ x) as ->. { rewrite <- !app_assoc, <- Himg. unfold slice. rewrite take_take_drop. f_equal. lia. }
    rewrite <- Ea3. by repeat apply update_holds.
  - split; [done|]. by apply (parse_none D HD).
Qed.

(** ** The sections as a walk reads them *)
Context (f : Z) (Hf : (0 <= f)%Z).
Definition key_at (key : bytes) (p : Z) : Prop := forall c, key = to_bytes c -> (0 <= p)%Z /\ exists start size b, parse p = Done (Some (c, start, size, b)).
Record walking (s : Sections R) : Prop := {
  w_reader : stands (reader s);
  w_first : first s = f;
  w_chain : exists secs, chain f secs (at_ (reader s)) /\ (failed s = None -> visited s = Z.of_nat (length secs));
  w_last : key_at (last s).1 (last s).2;
  w_seen : Forall (fun x => key_at x.1.1 x.1.2) (seen s)
}.
Definition met (s : Sections R) (c : Cid) : Prop := exists secs x, chain f secs (at_ (reader s)) /\ (c, x) ∈ secs.
(** What was met stays so, and a step that succeeds did not fail. *)
Definition onward (s s' : Sections R) : Prop := keeps met s s' /\ (failed s = None -> failed s' = None).
#[local] Instance onward_pre : PreOrder onward.
Proof using. split; [by split|]. intros s1 s2 s3 [H1 F1] [H2 F2]. split; [by transitivity s2|auto]. Qed.
Abbreviation goes_on := (goes walking onward).
Lemma cid_bytes_inj c d : to_bytes c = to_bytes d -> c = d.
Proof using. destruct c as [cc [] cd], d as [dc [] dd]. unfold to_bytes. cbn [codec algorithm cid_digest app]. intros [= E _ E']. destruct cc, dc; try done; congruence. Qed.
Lemma source_step {A} (m : STE CError R A) (P : A -> Prop) s : (forall r, from_copy m r (fun a _ => P a)) -> goes_on (on_reader (on_source m)) s (fun a _ => P a).
Proof using.
  intros H [Hr Hfi Hch Hla Hse]. unfold on_reader. pose proof (on_source_stands m P (reader s) Hr H) as Ho. assert (forall r', same_place (reader s) r' -> walking (mkSections r' (first s) (visited s) (failed s) (last s) (seen s) (clock s))) as Hw by (intros r' (Hs & Ea & _); split; [done|done|cbn [reader visited]; by rewrite Ea|done|done]).
  destruct (on_source m (reader s)) as [[a| |] r']; [|by apply Hw|done]. destruct Ho as [Hs Hp]. split; [by apply Hw|]. split; [|done]. split; [|done]. intros c. unfold met. cbn [reader]. by rewrite (proj1 (proj2 Hs)).
Qed.
Lemma remember_goes key p s : key_at key p -> goes_on (remember key p) s (fun _ _ => True).
Proof using.
  intros Hk [Hr Hfi Hch Hla Hse]. unfold remember. set (slot := match position_of key 0 (seen s) with Some k => k | None => _ end). clearbody slot. split; [|split; [split; [by intros c|done]|done]]. split; [done|done|done|done|]. cbn [seen]. by apply Forall_insert.
Qed.
Definition place_of (c : Cid) (p : option Z) : Prop := match p with Some p => (0 <= p)%Z /\ exists start size b, parse p = Done (Some (c, start, size, b)) | None => True end.
Lemma place_key c p : place_of c (Some p) -> key_at (to_bytes c) p.
Proof using. intros H d <-%cid_bytes_inj. done. Qed.
Lemma section_step a s : (0 <= a)%Z -> goes_on (on_reader (on_source (section a))) s (fun x _ => parse a = Done x).
Proof using HD. intros Ha. apply source_step. intros r. by apply section_from. Qed.
Lemma find_loop_goes fuel c from to s : 0 < fuel -> (0 <= from)%Z -> (to - from < Z.of_nat fuel)%Z -> goes_on (find_loop fuel c from to) s (fun p _ => place_of c p).
Proof using HD.
  revert from s. induction fuel as [|fuel IH]; intros from s H0 Hfrom Hfu; [lia|]. cbn [find_loop]. destruct (Z.ltb_spec from to); [|by apply goes_ret; [apply _|]].
  eapply goes_bind; [apply _|by apply section_step|]. cbv beta. intros [[[[d start] size] b]|] s' _ Ep; [|by apply goes_ret; [apply _|]]. case_bool_decide as Ed.
  - subst d. assert (place_of c (Some from)) as Hp by (split; [done|eauto]). eapply goes_bind; [apply _| |intros _ s'' _ _; by apply goes_ret; [apply _|]]. case_bool_decide; [by apply remember_goes, place_key|by apply goes_ret; [apply _|]].
  - destruct (parse_facts D HD _ _ _ _ _ Hfrom Ep) as (n & -> & -> & Hs & _). assert (BYTES = 36) by reflexivity. apply IH; lia.
Qed.
Lemma find_goes c s : goes_on (Car.find c) s (fun p _ => place_of c p).
Proof using HD Hf.
  intros Hw. pose proof Hw as [Hr Hfi Hch Hla Hse]. unfold Car.find. revert Hw. match goal with |- walking s -> match ?m s with _ => _ end => change (goes_on m s (fun p _ => place_of c p)) end. case_bool_decide as El; [apply goes_ret; [apply _|]; by apply Hla|].
  destruct (List.find _ (seen s)) as [[[key p] t]|] eqn:Es.
  - apply List.find_some in Es as [Hi Hk]. cbn [fst] in Hk. apply bool_decide_eq_true in Hk as ->. rewrite Forall_forall in Hse. specialize (Hse _ (proj2 (list_elem_of_In _ _) Hi)). cbn [fst snd] in Hse. eapply goes_bind; [apply _|by apply remember_goes|]. intros _ s' _ _. apply goes_ret; [apply _|]. by apply Hse.
  - destruct Hr as (_ & Ha & _). eapply goes_bind; [apply _|by apply section_step|]. cbv beta. intros x s' _ Ep. destruct (match x with Some _ => _ | None => _ end) eqn:Ex; [|apply find_loop_goes; lia].
    destruct x as [[[[d start] size] b]|]; [|done]. apply bool_decide_eq_true in Ex as ->. apply goes_ret; [apply _|]. split; [done|eauto].
Qed.
Definition given (c : Cid) (x : bytes) : Prop := exists p b, holds_at p c x b.
Lemma failing_goes {A} (m : STE CError (Sections R) A) s Q : goes_on m s Q -> goes_on (failing m) s Q.
Proof using. intros H Hw. specialize (H Hw). unfold failing. destruct (m s) as [[a| |] s']; [done| |done]. destruct H as [Ha Hb (secs & Hc & _) Hd He]. split; [done|done|by exists secs|done|done]. Qed.
Lemma read_block_goes c room s : goes_on (read_block c room) s (fun x _ => match x with Some x => (zlen x <= room)%Z /\ Forall is_byte x /\ given c x | None => True end).
Proof using HD Hf.
  unfold read_block. eapply goes_bind; [apply _|apply find_goes|]. cbv beta. intros [p|] s1 _ Hp; [|by apply goes_ret; [apply _|]]. destruct Hp as (Hp & st & sz & b & Ep). eapply goes_bind; [apply _|by apply section_step|]. cbv beta. intros x s2 _ Ex. rewrite Ep in Ex. injection Ex as <-.
  destruct (parse_facts D HD _ _ _ _ _ Hp Ep) as (n & Est & Eb & Hs & Hg & _). destruct (Z.ltb_spec room sz); [stop|]. eapply goes_bind; [apply _|apply (source_step _ (fun x => x = slice D (Z.to_nat st) (Z.to_nat sz))); intros r; apply read_from; lia|]. cbv beta. intros x s3 _ Ex.
  destruct (Nat.ltb_spec (length x) (Z.to_nat sz)); [stop|]. assert (length x <= Z.to_nat sz) by (rewrite Ex; unfold slice; rewrite length_take; lia). assert (zlen x = sz) as Ez by (unfold zlen; lia). apply goes_ret; [apply _|]. split; [lia|]. split; [rewrite Ex; by apply forall_slice|].
  exists p, b. split; [done|]. exists st. split; [by rewrite Ez|]. by replace (length x) with (Z.to_nat sz) by lia.
Qed.
Lemma section_get_goes c room s : goes_on (get c room) s (fun x _ => (zlen x <= room)%Z /\ Forall is_byte x /\ given c x).
Proof using HD Hf.
  unfold get, sections_blocks. eapply goes_bind; [apply _|apply failing_goes, read_block_goes|]. cbv beta. intros [x|] s' _ Hx; [|stop]. apply goes_lift; [apply _|]. done.
Qed.
Lemma visit_goes c s : goes_on (visit c) s (fun _ s' => met s' c).
Proof using HD Hf.
  intros Hw. pose proof Hw as [Hr Hfi (secs & Hch & Hv) Hla Hse]. pose proof (next_stands (reader s) Hr) as Hn. unfold visit, failing, mbind, st_bind, on_reader. destruct (next (reader s)) as [[[[d x]|]| |] r']; [| | |done].
  2: destruct Hn as [(? & Ea & ?) _]; split; cbn [reader first visited last seen]; [done|done|rewrite Ea; by exists secs|done|done].
  2: destruct Hn as (? & Ea & ?); split; cbn [reader first visited last seen]; [done|done|rewrite Ea; by exists secs|done|done].
  destruct Hn as (Hs & _ & Hat & Hm). pose proof (chain_snoc D _ _ _ _ _ _ Hch Hat Hm) as Hch'. case_bool_decide as Ed; cbn [negb].
  2: { cbn. split; [done|done|by eexists|done|done]. }
  subst d. cbn [reader first visited failed last seen clock]. set (s1 := mkSections r' (first s) (visited s + 1) _ (to_bytes c, _) _ _).
  assert (key_at (to_bytes c) (at_ (reader s))) as Hk. { apply place_key. destruct Hat as (Ha & st & Ep & _). split; [done|eauto]. }
  assert (walking s1) as Hw1. { split; [done|done| |done|done]. cbn [reader visited failed s1]. exists (secs ++ [(c, x)]). split; [done|]. intros Hf0. rewrite (Hv Hf0), length_app. cbn [length]. lia. }
  assert (onward s s1) as Ho1. { split; [|done]. intros d (secs' & y & Hch2 & Hi). exists (secs' ++ [(c, x)]), y. split; [by eapply chain_snoc|set_solver]. }
  assert (met s1 c) as Hmet by (exists (secs ++ [(c, x)]), x; split; [done|set_solver]). case_bool_decide as Ec.
  - pose proof (failing_goes _ s1 _ (remember_goes (to_bytes c) (at_ (reader s)) s1 Hk) Hw1) as Hrem. unfold failing in Hrem. destruct (remember _ _ s1) as [[u| |] s2]; [|done|done]. destruct Hrem as (Hw2 & Ho2 & _). split; [done|]. split; [by transitivity s1|]. by apply Ho2.
  - cbn. done.
Qed.
(** A root's walk: what it visits is what is under the root. *)
Context (no_two : forall c x y, given c x -> given c y -> matches c x = true -> matches c y = true -> x = y).
Lemma root_walk_goes c s : goes_on (Tour.walk c (W64 - 1) visit) s (fun _ s' => forall d, in_journal given c d -> met s' d).
Proof using HD Hf no_two.
  eapply goes_weaken; [apply (journal_tour_goes given no_two walking onward met ltac:(intros a b d [H _]; apply H) section_get_goes visit visit_goes true c (W64 - 1) s); unfold W64; lia|]. cbv beta. auto.
Qed.
Lemma walk_roots_goes roots ks s : (forall k, k ∈ ks -> exists n, roots_get roots k = Done n) -> walking s ->
  match walk_roots roots ks s with
  | (Done _, s') => walking s' /\ onward s s' /\ forall k n d, k ∈ ks -> roots_get roots k = Done n -> in_journal given (nroot n) d -> met s' d
  | (Refuse _, s') => walking s'
  | (Crash, _) => False
  end.
Proof using HD Hf no_two.
  revert s. induction ks as [|k ks IH]; intros s Hk Hw; cbn [walk_roots]; [split; [done|]; split; [done|]; intros k n d Hi; by apply elem_of_nil in Hi|]. destruct (Hk k ltac:(set_solver)) as [n En]. rewrite En. pose proof (root_walk_goes (nroot n) s Hw) as H. destruct (Tour.walk (nroot n) (W64 - 1) visit s) as [[t| |] s1]; [|done|done].
  destruct H as (Hw1 & Ho1 & Hm1). specialize (IH s1 ltac:(intros; apply Hk; set_solver) Hw1). destruct (walk_roots roots ks s1) as [[u| |] s2]; [|done|done]. destruct IH as (Hw2 & Ho2 & Hm2). split; [done|]. split; [by transitivity s1|]. intros j m d [->|Hj]%elem_of_cons Em Hd; [|by eapply Hm2].
  assert (m = n) as -> by congruence. apply Ho2. by apply Hm1.
Qed.
Lemma no_sections_walking r : stands r -> at_ r = f -> walking (no_sections r f).
Proof using.
  intros Hr Ea. assert (forall p, key_at (replicate BYTES 0%Z) p) as Hz by (intros p c E; discriminate (f_equal (fun l => l !! 0) E)). split; cbn [no_sections reader first visited failed last seen fst snd].
  - done.
  - done.
  - exists []. rewrite Ea. split; [constructor|done].
  - apply Hz.
  - apply Forall_replicate, Hz.
Qed.
End reading.

(** ** The check *)
Section checking.
Context {R : Type} `{!Source R} `{!SourceLaws R} (D : bytes) (HD : Forall is_byte D).
Abbreviation from_copy := (goes (E:=CError) (fun r : R => copy r = D) (fun _ _ => True)).
Definition HEAD : nat := 1 + HEADER.
Lemma open_from r : from_copy open r (fun x _ => let '(c, place, h) := x in good c /\ codec c = DagCbor /\ place = Z.of_nat HEAD /\ HEAD <= length D /\ take HEAD D = varint (Z.of_nat HEADER) ++ header_image c /\ holds h (take HEAD D)).
Proof using HD.
  unfold open. eapply goes_bind; [apply _|by apply read_from|]. cbv beta. intros lead r1 _ ->. change (slice D (Z.to_nat 0) 9) with (take 9 D).
  eapply goes_bind; [apply _|apply goes_lift; [apply _|]; apply (length_only (take 9 D)); by apply Forall_take|]. cbv beta. intros [len n] r2 _ (Hn & Hn9 & Hlen & Ht). cbn [fst snd] in *. rewrite length_take in Hn. rewrite take_take in Ht. replace (n `min` 9) with n in Ht by lia.
  destruct (Z.ltb_spec (Z.of_nat HEADER) len); [stop|]. eapply goes_bind; [apply _|apply read_from; lia|]. cbv beta. intros head r3 _ Eh. rewrite Nat2Z.id in Eh. destruct (Nat.ltb_spec (length head) (Z.to_nat len)) as [|Hl]; [stop|].
  assert (length head <= Z.to_nat len) as Hle by (rewrite Eh; unfold slice; rewrite length_take; lia). assert (Forall is_byte head) as Hb by (rewrite Eh; by apply forall_slice). eapply goes_bind; [apply _|apply (goes_lift _ _ _ _ (fun c _ => good c /\ codec c = DagCbor /\ head = header_image c)); exact (header_only head Hb)|]. cbv beta. intros c r4 _ (Hg & Hc & Ei).
  pose proof (f_equal length Ei) as El. rewrite length_header_image in El by apply Hg. assert (len = Z.of_nat HEADER) as -> by lia. assert (n = 1) as ->. { apply (f_equal length) in Ht. rewrite length_take in Ht. change (length (varint (Z.of_nat HEADER))) with 1 in Ht. lia. }
  assert (HEAD <= length D) as Hh. { unfold HEAD. rewrite Eh in El. unfold slice in El. rewrite length_take, length_drop in El. lia. }
  apply goes_ret; [apply _|]. assert (take HEAD D = varint (Z.of_nat HEADER) ++ head) as Et. { rewrite Eh, <- Ht. unfold slice. rewrite Nat2Z.id, take_take_drop. done. }
  split; [done|]. split; [done|]. split; [by rewrite El|]. split; [done|]. split; [by rewrite Et, Ei|]. rewrite take_take. change (1 `min` 9) with 1. rewrite Ht, Et. apply update_holds, (update_holds _ []), new_holds.
Qed.

(** [x] is under [c] by blocks of [U], so by blocks of [V] that has them all. *)
Section more.
Context (U V : Cid -> bytes -> Prop) (HUV : forall c x, U c x -> V c x).
Lemma names_more c x : names U c x -> names V c x.
Proof using HUV. intros (? & ? & ? & ?). repeat split; auto. Qed.
Lemma in_file_more c d : in_file U c d -> in_file V c d.
Proof using HUV. induction 1; econstructor; eauto using names_more. Qed.
Lemma in_tree_more c d : in_tree U c d -> in_tree V c d.
Proof using HUV. induction 1; [constructor 1|econstructor 2|econstructor 3]; eauto using names_more, in_file_more. Qed.
Lemma in_journal_more c d : in_journal U c d -> in_journal V c d.
Proof using HUV. induction 1; [constructor 1|econstructor 2|econstructor 3]; eauto using names_more, in_tree_more. Qed.
End more.

(** A copy of [root], [node] and [blocks] at the names of the node. *)
Record copied (root : Cid) (node : bytes) (blocks : list (Cid * bytes)) (ns : list Named) : Prop := {
  copied_bytes : D = varint (Z.of_nat HEADER) ++ header_image root ++ concat (map section_image ((root, node) :: blocks));
  copied_match : Forall (fun s => matches s.1 s.2 = true) ((root, node) :: blocks);
  copied_names : names_ok ns /\ node = names_image ns;
  copied_whole : forall n d, n ∈ ns -> in_journal (fun c x => (c, x) ∈ blocks) (nroot n) d -> exists x, (d, x) ∈ blocks
}.
Context (no_two : forall c x y, given D c x -> given D c y -> matches c x = true -> matches c y = true -> x = y).
(** The copy's parts, once its sections were walked. *)
Lemma copied_after c node f ns blocks : take HEAD D = varint (Z.of_nat HEADER) ++ header_image c -> HEAD <= length D -> holds_at D (Z.of_nat HEAD) c node f -> matches c node = true -> names_ok ns -> node = names_image ns -> chain D f blocks (Z.of_nat (length D)) ->
  (forall n d, n ∈ ns -> in_journal (given D) (nroot n) d -> exists secs x, chain D f secs (Z.of_nat (length D)) /\ (d, x) ∈ secs) -> copied c node blocks ns.
Proof using HD.
  intros Et Hh Hat Hm Hns En Hch Hall. assert (chain D (Z.of_nat HEAD) ((c, node) :: blocks) (Z.of_nat (length D))) as Hch' by (by econstructor). split.
  - pose proof (chain_bytes D HD (Z.of_nat HEAD) _ _ ltac:(lia) ltac:(lia) Hch') as Hb. rewrite <- Hb. rewrite app_assoc, <- Et. unfold slice. rewrite Nat2Z.id, take_take_drop, take_ge; [done|lia].
  - by eapply chain_matches.
  - done.
  - intros n d Hn Hd. destruct (Hall n d Hn) as (secs & x & Hs & Hi); [|rewrite (chain_one D HD _ _ _ _ Hch Hs); eauto]. revert Hd. apply in_journal_more. intros e x Hi. destruct (chain_held D _ _ _ _ _ Hch Hi) as (p & b & Hp). by exists p, b.
Qed.
Lemma verify_from s : copy s = D -> match verify s with
  | (Done (node, found), s') => copy s' = D /\ exists root blocks ns, copied root node blocks ns /\ found = mkChecked (length ns) (Z.of_nat (length blocks)) (Z.of_nat (length D)) (reference D)
  | (Refuse _, s') => copy s' = D
  | (Crash, _) => False
  end.
Proof using HD no_two.
  intros Hs. unfold verify. pose proof (open_from s Hs) as Ho. destruct (open s) as [[[[c place] h]| |] s1]; [|done|done]. destruct Ho as (Hc1 & _ & Hg & Hcc & -> & Hh & Et & Hho).
  assert (stands D (mkReader s1 c (Z.of_nat HEAD) h)) as Hst by (split; [done|]; cbn [at_ hash]; rewrite Nat2Z.id; split; [lia|]; split; [done|exact Hho]).
  pose proof (next_stands D HD _ Hst) as Hn. destruct (next _) as [[[[c' node]|]| |] r1]; [| | |done]; [|by destruct Hn as [[[Hx _] _] _]|by destruct Hn as [[Hx _] _]]. destruct Hn as (Hst1 & Er & Hat & Hm). cbn [root at_] in Er, Hat.
  assert (copy (source r1) = D) as Hc2 by apply Hst1. rewrite Er. case_bool_decide as Ec; [subst c'|done]. cbn [negb]. destruct (NODE_MAX <? length node); [done|]. assert (Forall is_byte node) as Hb by (destruct Hat as (_ & st & _ & ->); by apply forall_slice).
  pose proof (names_only node Hb) as Hno. destruct (decode_names node) as [roots| |]; [|done|done]. cbn [yields] in Hno. destruct Hno as (ns & Hns & En & Hlr & Hget). set (f := at_ r1) in *. assert (0 <= f)%Z as Hf by apply Hst1.
  pose proof (walk_roots_goes D HD f Hf no_two roots (seq 0 (length (rstarts roots))) (no_sections r1 f)) as Hw. unfold f in Hw at 2. specialize (Hw ltac:(intros k Hk%list_elem_of_In%in_seq; destruct (lookup_lt_is_Some_2 ns k ltac:(lia)) as [n Hk']; eauto) (no_sections_walking D f r1 Hst1 eq_refl)).
  destruct (walk_roots roots _ _) as [[[]| |] ss]; [|by destruct (w_reader _ _ _ Hw)|done]. destruct Hw as (Hwk & [_ Hfail] & Hmet). destruct Hwk as [Hr2 Hfi (blocks & Hch & Hv) _ _]. specialize (Hv (Hfail eq_refl)).
  pose proof (next_stands D HD _ Hr2) as Hn. destruct (next (reader ss)) as [[[[c' x]|]| |] r3]; [by destruct Hn as [[Hx _] _]| |by destruct Hn as [[Hx _] _]|done]. destruct Hn as [((Hc3 & Ha3 & _ & Hh3) & Ea & _) Hend].
  assert (at_ (reader ss) = Z.of_nat (length D)) as Eat by (destruct Hr2 as (_ & H0 & _); lia). split; [done|]. exists c, blocks, ns. rewrite Eat in *. split.
  - eapply (copied_after c node f ns blocks); try done. intros n d [k Hk]%list_elem_of_lookup Hd. unfold met in Hmet. rewrite Eat in Hmet. apply (Hmet k n d); [|by apply Hget|done]. apply list_elem_of_In, in_seq. apply lookup_lt_Some in Hk. lia.
  - rewrite Hlr, Hv, Ea. f_equal. unfold Car.digest. rewrite (finish_holds _ _ Hh3). f_equal. rewrite Ea, Nat2Z.id. by rewrite take_ge.
Qed.
End checking.

(** C29: a check that succeeds read a whole copy. Whatever the bytes, the check of a copy ends without a panic; if it
    succeeds, the copy is a header, the names node it names and blocks, all in their one encoding, every block matches its
    CID, every block under the root of every name in the node is among them, and what was found is the numbers of names and
    blocks, the length of the copy and its SHA-256; as long as no two different blocks in the copy match one CID. *)
Theorem copy_check_sound {R} `{!Source R} `{!SourceLaws R} (s : R) : Forall is_byte (copy s) ->
  (forall c x y, given (copy s) c x -> given (copy s) c y -> matches c x = true -> matches c y = true -> x = y) ->
  match verify s with
  | (Done (node, found), s') => copy s' = copy s /\ exists root blocks ns, copied (copy s) root node blocks ns /\
      found = mkChecked (length ns) (Z.of_nat (length blocks)) (Z.of_nat (length (copy s))) (reference (copy s))
  | (Refuse _, s') => copy s' = copy s
  | (Crash, _) => False
  end.
Proof. intros HD Hno. by apply verify_from. Qed.
(** A copy of one name, [a], whose root is a block of one byte; a writer into memory, and a store with only that block. *)
Definition memory_target : Target bytes := fun data t => (Done tt, t ++ data).
Definition seven : Blocks unit := {| Dag.put k x s := (Refuse Full, s); Dag.get c room s := if (1 <=? room)%Z then (Done [7%Z], s) else (Refuse TooLarge, s); Dag.has c s := (Done true, s) |}.
Definition demo_root : Cid := Eval vm_compute in of_data Raw [7%Z].
Definition demo_names : list Named := [mkNamed [97%Z] 1 demo_root].
Definition demo_node : bytes := Eval vm_compute in names_image demo_names.
Definition demo_copy : bytes := Eval vm_compute in match write (Target0:=memory_target) (Blocks0:=seven) demo_names 8 tt [] with (Done (t, _), _) => t | _ => [] end.
(** The sections that can be read anywhere in it: the CID, and where the block is. *)
Definition demo_sections : list (Cid * Z * Z) := Eval vm_compute in omap (fun p => match parse demo_copy p with Done (Some (c, start, size, _)) => Some (c, start, size) | _ => None end) (seqZ 0 (Z.of_nat (length demo_copy))).
Lemma demo_given c x : given demo_copy c x -> exists start, (c, start, zlen x) ∈ demo_sections /\ x = slice demo_copy (Z.to_nat start) (length x).
Proof.
  intros (p & b & Hp & start & E & Ex). exists start. split; [|exact Ex]. assert (p < Z.of_nat (length demo_copy))%Z as Hlt.
  { destruct (Z.lt_ge_cases p (Z.of_nat (length demo_copy))) as [|H]; [done|]. unfold parse, slice in E. rewrite drop_ge in E by lia. discriminate E. }
  assert (demo_sections = omap (fun p => match parse demo_copy p with Done (Some (c, start, size, _)) => Some (c, start, size) | _ => None end) (seqZ 0 (Z.of_nat (length demo_copy)))) as -> by (vm_compute; reflexivity).
  apply list_elem_of_omap. exists p. split; [apply elem_of_seqZ; lia|]. by rewrite E.
Qed.
Lemma demo_one c x y : given demo_copy c x -> given demo_copy c y -> x = y.
Proof.
  intros (s & Hs & Ex)%demo_given (s' & Hs' & Ey)%demo_given. assert (s = s' /\ length x = length y) as [-> El]; [|by rewrite Ex, Ey, El]. clear Ex Ey. unfold zlen in *.
  unfold demo_sections in Hs, Hs'. repeat (apply elem_of_cons in Hs as [[= -> -> Hx]|Hs]); try (by apply elem_of_nil in Hs); repeat (apply elem_of_cons in Hs' as [[= -> Hy]|Hs']); try (by apply elem_of_nil in Hs'); lia.
Qed.
Definition demo_digest : bytes := Eval vm_compute in reference demo_copy.
Lemma demo_verified : (verify (Source0:=memory_source) demo_copy).1 = Done (demo_node, mkChecked 1 1 190 demo_digest).
Proof. vm_compute. reflexivity. Qed.
Lemma copy_check_sound_witness : exists root blocks ns, copied demo_copy root demo_node blocks ns /\ length ns = 1 /\ Z.of_nat (length blocks) = 1%Z.
Proof.
  assert (Forall is_byte demo_copy) as Hb by (unfold is_byte, demo_copy; repeat constructor; lia).
  pose proof (copy_check_sound (SourceLaws0:=memory_laws) demo_copy Hb (fun c x y Hx Hy _ _ => demo_one c x y Hx Hy)) as H. pose proof demo_verified as E. revert E H. destruct (verify demo_copy) as [[[node found]| |] s']; cbn [fst]; intros E H.
  - destruct H as (_ & root & blocks & ns & Hc & Hf). assert (node = demo_node) as -> by congruence. assert (found = mkChecked 1 1 190 demo_digest) as -> by congruence. exists root, blocks, ns. split; [exact Hc|]. split; [exact (eq_sym (f_equal c_names Hf))|exact (eq_sym (f_equal c_blocks Hf))].
  - discriminate E.
  - discriminate E.
Defined.
