(* ===== verification/StoreRecords.v ===== *)
(** * The block store's records ([blockstore/src/store.rs]: keys, frames and records)

    Every record of the store lies in a sealed frame; names, commits, pins, domain keys, recovery keys, freed runs and blocks each have
    a record with a magic and a digest. The theorems: a record sealed for a place and a domain opens there, and only as what was
    sealed; and each kind of record is read back as it was written. The cipher is a parameter. *)
From S2P Require Import Prelude Outcome Cbor Dag DagTree Cid Sha256.
Local Open Scope nat_scope.

Definition SECTOR : nat := 512.
Definition BLOCK_MAX : Z := 16384.
Definition HEADER : nat := 84.
Definition FRAME : nat := 44.
Definition sealed_sectors (len : Z) : Z := (Z.of_nat FRAME + len + (Z.of_nat SECTOR - 1)) / Z.of_nat SECTOR.
Definition RECORD_SECTORS : Z := sealed_sectors (Z.of_nat HEADER + BLOCK_MAX).
Definition LAYOUT : Z := 4.
Definition NAME_MAX : nat := 64.
Definition NAME_RECORD : nat := 160 + 32.
Definition PIN_RECORD : nat := 56 + 32.
Definition COMMIT_MAX : nat := 8.
Definition VOLUME : Z := 0.
Definition KEYS : Z := 0xFFFF.
Definition RECOVERY : Z := 0xFFFE.
Definition KEY_RECORD : nat := 52 + 32.
Definition KEY_LIVE : Z := 1.
Definition KEY_GONE : Z := 2.
Definition RECOVERY_RECORD : nat := 48 + 32.
Definition FREE_RECORD : nat := 48.
(** The magics start with MIND-. *)
Definition mind (a b c : Z) : bytes := [77; 73; 78; 68; 45; a; b; c]%Z.
Definition FRAME_MAGIC : bytes := mind 83 76 68.
Definition RECORD_MAGIC : bytes := mind 66 76 75.
Definition NAME_MAGIC : bytes := mind 82 69 70.
Definition FREE_MAGIC : bytes := mind 68 69 76.
Definition PIN_MAGIC : bytes := mind 80 73 78.
Definition TXN_MAGIC : bytes := mind 84 88 78.
Definition KEY_MAGIC : bytes := mind 75 69 89.
Definition RECOVERY_MAGIC : bytes := mind 82 67 86.

(** [iter().any(|&b| b != 0)] of a slice. *)
Definition any_set (b : bytes) : bool := existsb (fun x => negb (x =? 0)%Z) b.
Definition rest_set (sector : bytes) (from : nat) : bool := any_set (drop from sector).

(** ** Keys and frames *)
(** The cipher: [seal] gives the ciphertext and the tag, [open] the plain text if the tag matches. *)
Class Crypto : Type := {
  seal : bytes -> bytes -> bytes -> bytes -> bytes * bytes;
  open : bytes -> bytes -> bytes -> bytes -> bytes -> option bytes
}.

Definition hmac_sha256 (key : bytes) (parts : list bytes) : bytes :=
  let pad := zip_with Z.lxor (replicate 64 0x36%Z) (key ++ replicate (64 - length key) 0%Z) in
  let inner := finish (foldl update (update new pad) parts) in
  let pad := map (fun p => p ^^^ (0x36 ^^^ 0x5c))%Z pad in
  finish (update (update new pad) inner).

Definition text_seal : bytes := [77; 73; 78; 68; 45; 83; 84; 79; 32; 115; 101; 97; 108]%Z.
Definition text_nonce : bytes := [77; 73; 78; 68; 45; 83; 84; 79; 32; 110; 111; 110; 99; 101]%Z.
Definition text_recovery : bytes := [77; 73; 78; 68; 45; 83; 84; 79; 32; 114; 101; 99; 111; 118; 101; 114; 121]%Z.
Record Keys : Type := mkKeys { k_seal : bytes; k_nonce : bytes }.
Definition keys_new (volume : bytes) : Keys := mkKeys (hmac_sha256 volume [text_seal]) (hmac_sha256 volume [text_nonce]).
Definition keys_recovery (recovery id : bytes) : Keys :=
  let salt := overwrite (replicate 32 0%Z) 0 id in
  let prk := hmac_sha256 salt [recovery] in
  keys_new (hmac_sha256 prk [text_recovery; [1%Z]]).

Section frames.
Context `{!Crypto}.
(** [Keys::seal]: the ciphertext, the nonce and the tag. *)
Definition keys_seal (k : Keys) (aad data : bytes) : bytes * bytes * bytes :=
  let nonce := take 12 (hmac_sha256 (k_nonce k) [aad; data]) in
  let '(data, tag) := seal (k_seal k) nonce aad data in
  (data, nonce, tag).

Definition parse_frame (sector : bytes) : option Z :=
  if negb (bool_decide (take 8 sector = FRAME_MAGIC)) || negb (of_le (slice sector 8 2) =? LAYOUT)%Z then None else
  let n := of_le (slice sector 12 4) in
  if (1 <=? n)%Z && (n <=? RECORD_SECTORS)%Z then Some n else None.
Definition aad (frame : bytes) (lba : Z) : bytes := take 16 frame ++ to_le 8 lba.

(** [seal_frame]: the buffer with the sealed record at its start, and its sectors. *)
Definition seal_frame (k : Keys) (buffer : bytes) (lba : Z) (len : nat) (domain : Z) : bytes * Z :=
  let n := sealed_sectors (Z.of_nat len) in
  let size := Z.to_nat n * SECTOR in
  let b := take size buffer in
  let b := overwrite b (FRAME + len) (replicate (size - (FRAME + len)) 0%Z) in
  let b := overwrite b 0 FRAME_MAGIC in
  let b := overwrite b 8 (to_le 2 LAYOUT) in
  let b := overwrite b 10 (to_le 2 domain) in
  let b := overwrite b 12 (to_le 4 n) in
  let a := aad b lba in
  let '(data, nonce, tag) := keys_seal k a (drop FRAME b) in
  let b := overwrite b FRAME data in
  let b := overwrite b 16 nonce in
  let b := overwrite b 28 tag in
  (b ++ drop size buffer, n).

(** [open_frame]: the buffer with the record at its start, or zeros where it does not open. *)
Definition open_frame (k : option Keys) (buffer : bytes) (lba : Z) (n : nat) (domain : Z) : bytes * bool :=
  let size := n * SECTOR in
  let b := take size buffer in
  let framed := bool_decide (parse_frame b = Some (Z.of_nat n)) && bool_decide (slice b 10 2 = to_le 2 domain) in
  let opened := if framed then k ← k; open (k_seal k) (slice b 16 12) (aad b lba) (drop FRAME b) (slice b 28 16) else None in
  match opened with
  | None => (replicate size 0%Z ++ drop size buffer, false)
  | Some data => (data ++ replicate FRAME 0%Z ++ drop size buffer, true)
  end.
End frames.

(** ** Records *)
(** A version of a name. *)
Record Version : Type := mkVersion { version : Z; owner : Z; root : bytes; points : bool; size : Z }.
#[global] Instance version_eq : EqDecision Version.
Proof. solve_decision. Defined.
Definition valid_name (n : bytes) : bool :=
  (1 <=? length n) && (length n <=? NAME_MAX)
  && forallb (fun c => ((48 <=? c) && (c <=? 57) || (65 <=? c) && (c <=? 90) || (97 <=? c) && (c <=? 122) || (c =? 46) || (c =? 95) || (c =? 47) || (c =? 45))%Z) n.

Definition name_record (name : bytes) (v : Version) (previous : option Cid) : bytes :=
  let r := replicate SECTOR 0%Z in
  let r := overwrite r 0 NAME_MAGIC in
  let r := overwrite r 8 (to_le 2 LAYOUT) in
  let r := overwrite r 10 (to_le 2 (wrap16 (Z.of_nat (length name)))) in
  let r := overwrite r 12 (to_le 8 (version v)) in
  let r := if points v then overwrite r 20 (root v) else r in
  let r := match previous with Some p => overwrite r 56 (to_bytes p) | None => r end in
  let r := overwrite r 92 name in
  let r := overwrite r 156 [if points v then 0%Z else 1%Z] in
  let r := overwrite r 158 (to_le 2 (owner v)) in
  overwrite r 160 (digest (take 160 r)).

Definition is_cid (b : bytes) : bool := match from_bytes b with Ok _ => true | Err _ => false end.
(** [name_fields]: the name padded with zeros, its length and the version. *)
Definition name_fields (sector : bytes) : option (bytes * nat * Version) :=
  if negb (of_le (slice sector 8 2) =? LAYOUT)%Z || rest_set sector NAME_RECORD then None else
  let len := Z.to_nat (of_le (slice sector 10 2)) in
  let version := of_le (slice sector 12 8) in
  name ← get_slice sector 92 len;
  if negb (valid_name name) || any_set (slice sector (92 + len) (156 - (92 + len))) || (version =? 0)%Z || negb (nth 157 sector 0 =? 0)%Z then None else
  points ← (if (nth 156 sector 0 =? 0)%Z then Some true else if (nth 156 sector 0 =? 1)%Z then Some false else None);
  let root := slice sector 20 36 in
  if negb (if (points : bool) then is_cid root else negb (any_set root)) then None else
  if any_set (slice sector 56 36) && negb (is_cid (slice sector 56 36)) then None else
  Some (slice sector 92 64, len, mkVersion version (of_le (slice sector 158 2)) root points 0).
Definition parse_name (sector : bytes) : option (bytes * nat * Version) :=
  if negb (bool_decide (take 8 sector = NAME_MAGIC)) || negb (bool_decide (slice sector 160 32 = digest (take 160 sector))) then None else name_fields sector.
(** A commit's entry. *)
Definition txn_entry (name : bytes) (v : Version) (previous : option Cid) : bytes :=
  overwrite (overwrite (name_record name v previous) 0 (replicate 8 0%Z)) 160 (replicate 32 0%Z).
Definition parse_entry (sector : bytes) : option (bytes * nat * Version) :=
  if any_set (take 8 sector) || any_set (slice sector 160 32) then None else name_fields sector.

Definition parse_txn (sector : bytes) : option nat :=
  if negb (bool_decide (take 8 sector = TXN_MAGIC)) || negb (of_le (slice sector 8 2) =? LAYOUT)%Z || negb (bool_decide (slice sector 12 4 = replicate 4 0%Z)) then None else
  if rest_set sector 48 then None else
  let count := Z.to_nat (of_le (slice sector 10 2)) in
  if (1 <=? count) && (count <=? COMMIT_MAX) then Some count else None.
Definition txn_digest (record : bytes) : bytes := finish (update (update new (take 16 record)) (drop SECTOR record)).
(** The record [commit] writes of its entries. *)
Definition txn_record (entries : list bytes) : bytes :=
  let r := replicate ((1 + length entries) * SECTOR) 0%Z in
  let r := overwrite r 0 TXN_MAGIC in
  let r := overwrite r 8 (to_le 2 LAYOUT) in
  let r := overwrite r 10 (to_le 2 (wrap16 (Z.of_nat (length entries)))) in
  let r := foldl (fun r e => overwrite r ((1 + fst e) * SECTOR) (snd e)) r (imap pair entries) in
  overwrite r 16 (txn_digest r).

(** [commit_entries]: the entries of the commit at the start of the buffer. *)
Definition entry_sector (record : bytes) (k : nat) : bytes := slice record ((1 + k) * SECTOR) SECTOR.
Definition named (e : option (bytes * nat * Version)) (name : bytes) : bool := match e with Some (n, l, _) => bool_decide (take l n = name) | None => false end.
Fixpoint entries_of (record : bytes) (ks : list nat) : option (list (bytes * nat * Version)) :=
  match ks with
  | [] => Some []
  | k :: ks =>
      e ← parse_entry (entry_sector record k);
      let '(n, l, _) := e in
      if existsb (fun j => named (parse_entry (entry_sector record j)) (take l n)) (seq 0 k) then None else
      es ← entries_of record ks; Some (e :: es)
  end.
Definition commit_entries (buffer : bytes) (count : nat) : option (list (bytes * nat * Version)) :=
  let record := take ((1 + count) * SECTOR) buffer in
  if negb (bool_decide (slice record 16 32 = txn_digest record)) then None else entries_of record (seq 0 count).

Record Pin : Type := mkPin { pin_id : Z; pin_owner : Z; pin_root : bytes; pin_lba : Z; pin_size : Z; pin_domain : Z }.
Definition pin_record (p : Pin) : bytes :=
  let r := replicate SECTOR 0%Z in
  let r := overwrite r 0 PIN_MAGIC in
  let r := overwrite r 8 (to_le 2 LAYOUT) in
  let r := overwrite r 12 (to_le 4 (pin_id p)) in
  let r := overwrite r 16 (to_le 2 (pin_owner p)) in
  let r := overwrite r 20 (pin_root p) in
  overwrite r 56 (digest (take 56 r)).
Definition parse_pin (sector : bytes) : option Pin :=
  if negb (bool_decide (take 8 sector = PIN_MAGIC)) || negb (bool_decide (slice sector 56 32 = digest (take 56 sector))) then None else
  if negb (of_le (slice sector 8 2) =? LAYOUT)%Z || negb (bool_decide (slice sector 10 2 = [0; 0]%Z)) || negb (bool_decide (slice sector 18 2 = [0; 0]%Z)) then None else
  if rest_set sector PIN_RECORD then None else
  if negb (is_cid (slice sector 20 36)) then None else
  Some (mkPin (of_le (slice sector 12 4)) (of_le (slice sector 16 2)) (slice sector 20 36) 0 0 VOLUME).

Definition key_record (domain state owner : Z) (key : bytes) : bytes :=
  let r := replicate KEY_RECORD 0%Z in
  let r := overwrite r 0 KEY_MAGIC in
  let r := overwrite r 8 (to_le 2 LAYOUT) in
  let r := overwrite r 10 (to_le 2 domain) in
  let r := overwrite r 12 (to_le 2 state) in
  let r := overwrite r 14 (to_le 2 owner) in
  let r := overwrite r 20 key in
  overwrite r 52 (digest (take 52 r)).
Definition parse_key (sector : bytes) : option (Z * Z * Z * bytes) :=
  if negb (bool_decide (take 8 sector = KEY_MAGIC)) || negb (bool_decide (slice sector 52 32 = digest (take 52 sector))) || rest_set sector KEY_RECORD then None else
  let domain := of_le (slice sector 10 2) in
  let state := of_le (slice sector 12 2) in
  let owner := of_le (slice sector 14 2) in
  let key := slice sector 20 32 in
  if (of_le (slice sector 8 2) =? LAYOUT)%Z && bool_decide (slice sector 16 4 = replicate 4 0%Z) && negb (domain =? VOLUME)%Z && (domain <? RECOVERY)%Z
     && ((state =? KEY_LIVE)%Z || ((state =? KEY_GONE)%Z && bool_decide (key = replicate 32 0%Z)))
  then Some (domain, state, owner, key) else None.

Definition recovery_record (volume : bytes) : bytes :=
  let r := replicate RECOVERY_RECORD 0%Z in
  let r := overwrite r 0 RECOVERY_MAGIC in
  let r := overwrite r 8 (to_le 2 LAYOUT) in
  let r := overwrite r 16 volume in
  overwrite r 48 (digest (take 48 r)).
Definition parse_recovery (sector : bytes) : option bytes :=
  if negb (bool_decide (take 8 sector = RECOVERY_MAGIC)) || negb (bool_decide (slice sector 48 32 = digest (take 48 sector))) || rest_set sector RECOVERY_RECORD then None else
  if (of_le (slice sector 8 2) =? LAYOUT)%Z && bool_decide (slice sector 10 6 = replicate 6 0%Z) then Some (slice sector 16 32) else None.

Definition free_marker (sectors : Z) : bytes :=
  let r := replicate FREE_RECORD 0%Z in
  let r := overwrite r 0 FREE_MAGIC in
  let r := overwrite r 8 (to_le 2 LAYOUT) in
  let r := overwrite r 12 (to_le 4 (wrap32 sectors)) in
  overwrite r 16 (digest (take 16 r)).
Definition parse_free (sector : bytes) : option Z :=
  if negb (bool_decide (take 8 sector = FREE_MAGIC)) || negb (bool_decide (slice sector 16 32 = digest (take 16 sector))) || rest_set sector 48 then None else
  if negb (of_le (slice sector 8 2) =? LAYOUT)%Z || negb (bool_decide (slice sector 10 2 = [0; 0]%Z)) then None else
  let n := of_le (slice sector 12 4) in
  if (1 <=? n)%Z then Some n else None.

Definition header (c : Cid) (len : nat) : bytes :=
  let h := replicate HEADER 0%Z in
  let h := overwrite h 0 RECORD_MAGIC in
  let h := overwrite h 8 (to_le 2 LAYOUT) in
  let h := overwrite h 12 (to_le 4 (wrap32 (Z.of_nat len))) in
  let h := overwrite h 16 (to_bytes c) in
  overwrite h 52 (digest (take 52 h)).
Definition parse_header (sector : bytes) : option (Cid * nat) :=
  if negb (bool_decide (take 8 sector = RECORD_MAGIC)) || negb (bool_decide (slice sector 52 32 = digest (take 52 sector))) then None else
  if negb (of_le (slice sector 8 2) =? LAYOUT)%Z || negb (bool_decide (slice sector 10 2 = [0; 0]%Z)) then None else
  let len := of_le (slice sector 12 4) in
  if (BLOCK_MAX <? len)%Z then None else
  match from_bytes (slice sector 16 36) with Ok c => Some (c, Z.to_nat len) | Err _ => None end.

(** ** Writing and reading fields *)
Lemma length_ow b i src : i + length src <= length b -> length (overwrite b i src) = length b.
Proof. intros H. unfold overwrite. rewrite !length_app, length_take, length_drop. lia. Qed.
Lemma slice_overwrite b i src n : i + length src <= length b -> n = length src -> slice (overwrite b i src) i n = src.
Proof. intros H ->. unfold overwrite. apply slice_mid; [rewrite length_take; lia|done]. Qed.
Lemma slice_before b i src j n : j + n <= i -> i + length src <= length b -> slice (overwrite b i src) j n = slice b j n.
Proof. intros Hj H. unfold overwrite, slice. rewrite drop_app_le by (rewrite length_take; lia). rewrite take_app_le by (rewrite length_drop, length_take; lia). rewrite skipn_firstn_comm. rewrite take_take. f_equal. lia. Qed.
Lemma slice_after b i src j n : i + length src <= j -> i + length src <= length b -> slice (overwrite b i src) j n = slice b j n.
Proof.
  intros Hj H. unfold overwrite, slice. rewrite drop_app_ge by (rewrite length_take; lia). rewrite length_take, drop_app_ge by lia. rewrite drop_drop. do 2 f_equal. lia.
Qed.
Lemma slice_over b i src n : i + length src <= length b -> length src <= n -> slice (overwrite b i src) i n = src ++ slice b (i + length src) (n - length src).
Proof.
  intros H Hn. unfold overwrite, slice. rewrite drop_app_ge by (rewrite length_take; lia). rewrite length_take, Nat.min_l, Nat.sub_diag, drop_0 by lia. rewrite take_app_ge by done. done.
Qed.
Lemma slice_take (b : bytes) n : take n b = slice b 0 n.
Proof. done. Qed.
Lemma slice_take_in (b : bytes) m i n : i + n <= m -> slice (take m b) i n = slice b i n.
Proof. intros H. unfold slice. rewrite skipn_firstn_comm, take_take. f_equal. lia. Qed.
Lemma slice_zeros m i n : i + n <= m -> slice (replicate m 0%Z) i n = replicate n 0%Z.
Proof. intros H. unfold slice. rewrite drop_replicate, take_replicate. f_equal. lia. Qed.
Lemma slice_app_before (a b : bytes) i n : i + n <= length a -> slice (a ++ b) i n = slice a i n.
Proof. intros H. unfold slice. rewrite drop_app_le by lia. rewrite take_app_le by (rewrite length_drop; lia). done. Qed.
Lemma any_set_zeros n : any_set (replicate n 0%Z) = false.
Proof. by induction n. Qed.
Lemma any_set_false b : any_set b = false -> b = replicate (length b) 0%Z.
Proof. induction b as [|x b IH]; [done|]. cbn. destruct (Z.eqb_spec x 0) as [->|]; [|done]. cbn. intros H. by rewrite <- IH. Qed.
Lemma is_cid_of c : cid_ok c -> Forall is_byte (cid_digest c) -> is_cid (to_bytes c) = true.
Proof. intros Hc Hb. unfold is_cid. by rewrite (proj2 (from_bytes_iff _ c (to_bytes_bytes c Hc Hb)) (conj eq_refl Hc)). Qed.

(** Lengths of fields, and a field of a record written field by field. *)
Lemma len_ow N b i src : length b = N -> i + length src <= N -> length (overwrite b i src) = N.
Proof. intros <-. apply length_ow. Qed.
Ltac magic := cbn [length mind FRAME_MAGIC RECORD_MAGIC NAME_MAGIC FREE_MAGIC PIN_MAGIC TXN_MAGIC KEY_MAGIC RECOVERY_MAGIC app].
Ltac short := rewrite ?length_to_le, ?length_replicate, ?length_digest, ?length_app; magic; unfold SECTOR, KEY_RECORD, RECOVERY_RECORD, FREE_RECORD, HEADER, FRAME; lia.
(** The length of what a chain of writes gives is that of its start. *)
Ltac chain_len b := lazymatch b with overwrite ?b' _ _ => chain_len b' | replicate ?n _ => n | _ => constr:(length b) end.
Ltac flen := lazymatch goal with
  | |- context [length (overwrite ?b ?i ?s)] => let n := chain_len b in (assert (length (overwrite b i s) = n) as -> by (repeat (lazymatch goal with |- length (overwrite _ _ _) = _ => apply len_ow; [|short] end); first [reflexivity|by rewrite length_replicate])); flen
  | |- _ => short
  end.
Ltac field1 := first [rewrite slice_zeros by flen | rewrite slice_overwrite by flen | rewrite slice_before by flen | rewrite slice_after by flen].
Ltac fields := repeat field1.
(** What every small record has: the digest of what comes before it. *)
Lemma sealed_digest r at_ tail : at_ + 32 <= length r -> let s := overwrite r at_ (digest (take at_ r)) ++ tail in slice s at_ 32 = digest (take at_ s).
Proof. intros H s. unfold s. rewrite slice_app_before by flen. rewrite slice_overwrite by flen. f_equal. rewrite !(slice_take _ at_). rewrite slice_app_before by flen. rewrite slice_before by flen. done. Qed.

Lemma bool_decide_refl {A} `{!EqDecision A} (x : A) : bool_decide (x = x) = true.
Proof. by apply bool_decide_eq_true_2. Qed.
#[local] Opaque digest.
Lemma le_2 z : (0 <= z < W16)%Z -> of_le (to_le 2 z) = z.
Proof. intros H. apply of_to_le. unfold W16 in H. lia. Qed.
Lemma le_4 z : (0 <= z < W32)%Z -> of_le (to_le 4 z) = z.
Proof. intros H. apply of_to_le. unfold W32 in H. lia. Qed.
Lemma le_8 z : (0 <= z < W64)%Z -> of_le (to_le 8 z) = z.
Proof. intros H. apply of_to_le. unfold W64 in H. lia. Qed.
Lemma le_layout : of_le (to_le 2 LAYOUT) = LAYOUT.
Proof. done. Qed.
Ltac le_back := rewrite ?le_layout, ?le_2, ?le_4, ?le_8 by (unfold W16, W32, W64 in *; lia).
(** A record [r] with its digest at [at_], followed by [tail]: its digest checks, and its fields are those of [r]. *)
Ltac sealed r at_ tail Hr := let Hd := fresh in pose proof (sealed_digest r at_ tail ltac:(lia)) as Hd; cbv zeta in Hd; rewrite Hd, (bool_decide_refl (digest _)); clear Hd;
  rewrite ?(slice_take _ 8); unfold rest_set; try (rewrite drop_app_length' by flen); rewrite ?slice_app_before by flen.

Lemma free_round_trip n tail : (1 <= n < W32)%Z -> any_set tail = false -> parse_free (free_marker n ++ tail) = Some n.
Proof.
  intros Hn Ht. unfold parse_free, free_marker. set (r := overwrite (overwrite _ 8 _) 12 _). assert (length r = 48) as Hr by (unfold r; flen). sealed r 16 tail Hr. rewrite Ht. unfold r. fields. rewrite !bool_decide_refl. cbn [negb orb].
  unfold wrap32. rewrite Z.mod_small by lia. le_back. rewrite Z.eqb_refl, (proj2 (Z.leb_le _ _)) by lia. done.
Qed.
Lemma recovery_round_trip k tail : length k = 32 -> any_set tail = false -> parse_recovery (recovery_record k ++ tail) = Some k.
Proof.
  intros Hk Ht. unfold parse_recovery, recovery_record. set (r := overwrite (overwrite _ 8 _) 16 _). assert (length r = 80) as Hr by (unfold r; flen). sealed r 48 tail Hr. rewrite Ht. unfold r. fields. rewrite !bool_decide_refl. cbn [negb orb andb].
  le_back. rewrite Z.eqb_refl. done.
Qed.
Lemma key_round_trip d st o k tail : (0 < d < RECOVERY)%Z -> (0 <= o < W16)%Z -> length k = 32 -> st = KEY_LIVE \/ st = KEY_GONE /\ k = replicate 32 0%Z -> any_set tail = false -> parse_key (key_record d st o k ++ tail) = Some (d, st, o, k).
Proof.
  intros Hd Ho Hk Hst Ht. unfold parse_key, key_record. set (r := overwrite (overwrite _ 14 _) 20 _). assert (length r = 84) as Hr by (unfold r; flen). sealed r 52 tail Hr. rewrite Ht. unfold r. fields. rewrite !bool_decide_refl. cbn [negb orb].
  assert (0 <= st < W16)%Z by (destruct Hst as [->|[-> _]]; done). unfold RECOVERY in *. rewrite !le_2, Z.eqb_refl by (unfold W16, LAYOUT in *; lia). rewrite (proj2 (Z.eqb_neq d VOLUME)), (proj2 (Z.ltb_lt d _)) by (unfold VOLUME; lia). cbn [andb negb].
  destruct Hst as [->|[-> ->]]; [done|]. by rewrite bool_decide_refl.
Qed.
Lemma header_round_trip c n data : good c -> (Z.of_nat n <= BLOCK_MAX)%Z -> parse_header (header c n ++ data) = Some (c, n).
Proof.
  intros [Hc Hb] Hn. unfold parse_header, header. pose proof (length_to_bytes c Hc) as Hl. change BYTES with 36 in Hl. set (r := overwrite (overwrite _ 12 _) 16 _). assert (length r = 84) as Hr by (unfold r; flen). sealed r 52 data Hr. unfold r. fields. rewrite !bool_decide_refl. cbn [negb orb].
  unfold BLOCK_MAX in *. unfold wrap32. rewrite Z.mod_small by (unfold W32; lia). rewrite le_4 by (unfold W32; lia). le_back. rewrite Z.eqb_refl. cbn [negb orb]. rewrite (proj2 (Z.ltb_ge _ _)) by lia.
  rewrite (proj2 (from_bytes_iff _ c (to_bytes_bytes c Hc Hb)) (conj eq_refl Hc)). by rewrite Nat2Z.id.
Qed.
Lemma drop_slice_end (b : bytes) i : drop i b = slice b i (length b - i).
Proof. unfold slice. rewrite take_ge; [done|]. rewrite length_drop. lia. Qed.
Ltac sealed_sector r at_ Hr := let Hd := fresh in pose proof (sealed_digest r at_ [] ltac:(lia)) as Hd; cbv zeta in Hd; rewrite app_nil_r in Hd; rewrite Hd, (bool_decide_refl (digest _)); clear Hd;
  rewrite ?(slice_take _ 8); unfold rest_set; rewrite drop_slice_end.
Lemma pin_round_trip p c : good c -> pin_root p = to_bytes c -> (0 <= pin_id p < W32)%Z -> (0 <= pin_owner p < W16)%Z -> parse_pin (pin_record p) = Some (mkPin (pin_id p) (pin_owner p) (pin_root p) 0 0 VOLUME).
Proof.
  intros [Hc Hb] Hp Hi Ho. unfold parse_pin, pin_record. pose proof (length_to_bytes c Hc) as Hl. change BYTES with 36 in Hl. rewrite Hp. set (r := overwrite (overwrite _ 16 _) 20 _). assert (length r = 512) as Hr by (unfold r; flen). sealed_sector r 56 Hr.
  replace (length (overwrite r 56 (digest (take 56 r))) - PIN_RECORD) with 424 by (unfold PIN_RECORD; flen). unfold PIN_RECORD. unfold r. fields. rewrite !bool_decide_refl. cbn [negb orb]. change (56 + 32) with 88. fields. rewrite any_set_zeros, is_cid_of by done. le_back. rewrite Z.eqb_refl. done.
Qed.

(** *** Names *)
Record version_ok (v : Version) : Prop := {
  v_version : (1 <= version v < W64)%Z; v_owner : (0 <= owner v < W16)%Z;
  v_root : if points v then exists c, good c /\ root v = to_bytes c else root v = replicate 36 0%Z
}.
(** What a record says of a version: all but the size of its object. *)
Definition unsized (v : Version) : Version := mkVersion (version v) (owner v) (root v) (points v) 0.
Definition padded_name (n : bytes) : bytes := n ++ replicate (NAME_MAX - length n) 0%Z.
Lemma name_len n : valid_name n = true -> 1 <= length n <= 64.
Proof. unfold valid_name, NAME_MAX. intros [[H1%Nat.leb_le H2%Nat.leb_le]%andb_prop _]%andb_prop. lia. Qed.
(** A sector whose fields are those of a name record. *)
Record names (s : bytes) (name : bytes) (v : Version) (p : option Cid) : Prop := {
  n_length : length s = SECTOR; n_layout : slice s 8 2 = to_le 2 LAYOUT; n_len : slice s 10 2 = to_le 2 (Z.of_nat (length name)); n_version : slice s 12 8 = to_le 8 (version v);
  n_root : slice s 20 36 = root v; n_previous : slice s 56 36 = match p with Some p => to_bytes p | None => replicate 36 0%Z end; n_name : slice s 92 (length name) = name;
  n_padded : slice s 92 64 = padded_name name; n_zero : slice s (92 + length name) (64 - length name) = replicate (64 - length name) 0%Z; n_kind : slice s 156 1 = [if points v then 0%Z else 1%Z]; n_pad : slice s 157 1 = [0%Z];
  n_owner : slice s 158 2 = to_le 2 (owner v); n_rest : slice s 192 320 = replicate 320 0%Z
}.
Lemma nth_slice (s : bytes) i x : slice s i 1 = [x] -> nth i s 0%Z = x.
Proof. unfold slice. intros H. rewrite <- (take_drop i s). assert (i <= length s) as Hi. { destruct (Nat.le_gt_cases i (length s)); [done|]. rewrite drop_ge in H by lia. done. } rewrite app_nth2; rewrite length_take, Nat.min_l by done; [|lia]. rewrite Nat.sub_diag. destruct (drop i s); [done|]. by injection H. Qed.
Lemma name_fields_names s name v p : valid_name name = true -> version_ok v -> (forall c, p = Some c -> good c) -> names s name v p -> name_fields s = Some (padded_name name, length name, unsized v).
Proof.
  intros Hn [Hv Ho Hr] Hp [H0 H1 H2 H3 H4 H5 H6 H7 H8 H9 H10 H11 H12]. pose proof (name_len name Hn) as Hl. unfold name_fields, rest_set. rewrite drop_slice_end, H0. change (slice s NAME_RECORD (SECTOR - NAME_RECORD)) with (slice s 192 320). rewrite H12, any_set_zeros, H1, le_layout, Z.eqb_refl. cbn [negb orb].
  rewrite H2, le_2, Nat2Z.id by (unfold W16; lia). unfold get_slice. rewrite decide_True by (rewrite H0; unfold SECTOR; lia). cbn [mbind option_bind]. rewrite H6, Hn. replace (156 - (92 + length name)) with (64 - length name) by lia. rewrite H8, any_set_zeros.
  rewrite H3, le_8 by lia. rewrite (proj2 (Z.eqb_neq _ _)) by lia. rewrite (nth_slice _ _ _ H9), (nth_slice _ _ _ H10). cbn [negb orb Z.eqb].
  rewrite H4, H5, H11, H7, le_2 by done. destruct (points v) eqn:Epts; cbn [Z.eqb mbind option_bind].
  - destruct Hr as (c & [Hc Hb] & Er). assert (is_cid (root v) = true) as -> by (rewrite Er; by apply is_cid_of). cbn [negb]. assert (any_set (match p with Some p => to_bytes p | None => replicate 36 0%Z end) && negb (is_cid (match p with Some p => to_bytes p | None => replicate 36 0%Z end)) = false) as ->.
    { destruct p as [q|]; [|by rewrite any_set_zeros]. destruct (Hp q eq_refl). rewrite is_cid_of by done. by rewrite andb_false_r. } unfold unsized. by rewrite Epts.
  - assert (any_set (root v) = false) as -> by (rewrite Hr; apply any_set_zeros). cbn [negb]. assert (any_set (match p with Some p => to_bytes p | None => replicate 36 0%Z end) && negb (is_cid (match p with Some p => to_bytes p | None => replicate 36 0%Z end)) = false) as ->.
    { destruct p as [q|]; [|by rewrite any_set_zeros]. destruct (Hp q eq_refl). rewrite is_cid_of by done. by rewrite andb_false_r. } unfold unsized. by rewrite Epts.
Qed.
Definition opt_ow (c : option bytes) (i : nat) (r : bytes) : bytes := match c with Some x => overwrite r i x | None => r end.
(** A sector whose 36 bytes at [i] are written or left zero, otherwise as before. *)
Lemma slice_opt N c i r j n : length r = N -> i + 36 <= N -> (forall x, c = Some x -> length x = 36) -> j + n <= i \/ i + 36 <= j -> slice (opt_ow c i r) j n = slice r j n.
Proof. intros Hl Hi Hx Hj. destruct c as [x|]; [|done]. specialize (Hx x eq_refl). cbn. destruct Hj; [rewrite slice_before by lia|rewrite slice_after by lia]; done. Qed.
Lemma len_opt N c i r : length r = N -> i + 36 <= N -> (forall x, c = Some x -> length x = 36) -> length (opt_ow c i r) = N.
Proof. intros Hl Hi Hx. destruct c as [x|]; [|done]. cbn. specialize (Hx x eq_refl). rewrite length_ow; lia. Qed.
Lemma slice_opt_here c i r : i + 36 <= length r -> (forall x, c = Some x -> length x = 36) -> slice r i 36 = replicate 36 0%Z -> slice (opt_ow c i r) i 36 = default (replicate 36 0%Z) c.
Proof. intros Hl Hx Hz. destruct c as [x|]; cbn; [|done]. specialize (Hx x eq_refl). rewrite slice_overwrite by lia. done. Qed.

Section name_record.
Context (name : bytes) (v : Version) (p : option Cid) (Hn : valid_name name = true) (Hv : version_ok v) (Hp : forall c, p = Some c -> good c).
Definition root_field : option bytes := if points v then Some (root v) else None.
Definition previous_field : option bytes := to_bytes <$> p.
Lemma root_field_36 x : root_field = Some x -> length x = 36.
Proof using Hv. unfold root_field. pose proof (v_root v Hv) as H. destruct (points v); [|done]. intros [= <-]. destruct H as (c & [Hc _] & ->). by apply length_to_bytes. Qed.
Lemma previous_field_36 x : previous_field = Some x -> length x = 36.
Proof using Hp. unfold previous_field. destruct p as [c|]; [|done]. intros [= <-]. destruct (Hp c eq_refl). by apply length_to_bytes. Qed.
Definition name_start : bytes := overwrite (overwrite (overwrite (overwrite (replicate SECTOR 0%Z) 0 NAME_MAGIC) 8 (to_le 2 LAYOUT)) 10 (to_le 2 (wrap16 (Z.of_nat (length name))))) 12 (to_le 8 (version v)).
Definition name_middle : bytes := opt_ow previous_field 56 (opt_ow root_field 20 name_start).
Definition name_body : bytes := overwrite (overwrite (overwrite name_middle 92 name) 156 [if points v then 0%Z else 1%Z]) 158 (to_le 2 (owner v)).
Lemma name_record_body : name_record name v p = overwrite name_body 160 (digest (take 160 name_body)).
Proof using Type. clear Hn Hv Hp. unfold name_record, name_body, name_middle, previous_field, root_field, opt_ow, name_start. destruct (points v), p; reflexivity. Qed.
Lemma length_start : length name_start = 512.
Proof using Type. clear Hn Hv Hp. unfold name_start. flen. Qed.
Lemma length_middle : length name_middle = 512.
Proof using Hn Hv Hp. unfold name_middle. apply len_opt; [|lia|apply previous_field_36]. apply len_opt; [apply length_start|lia|apply root_field_36]. Qed.
Lemma middle_out j n : j + n <= 20 \/ 92 <= j -> slice name_middle j n = slice name_start j n.
Proof using Hn Hv Hp.
  intros Hj. unfold name_middle. rewrite (slice_opt 512) by (try apply len_opt; try apply length_start; try apply previous_field_36; try apply root_field_36; lia). by rewrite (slice_opt 512) by (try apply length_start; try apply root_field_36; lia).
Qed.
Lemma start_zeros j n : 20 <= j -> j + n <= 512 -> slice name_start j n = replicate n 0%Z.
Proof using Type. clear Hn Hv Hp. intros Hj Hl. unfold name_start. fields. done. Qed.
Lemma names_body : names name_body name v p.
Proof using Hn Hv Hp.
  pose proof (name_len name Hn) as Hl. pose proof length_middle as Hm. assert (length (overwrite name_middle 92 name) = 512) as L1 by (rewrite length_ow; lia). assert (length (overwrite (overwrite name_middle 92 name) 156 [if points v then 0%Z else 1%Z]) = 512) as L2 by (rewrite length_ow; cbn; lia).
  assert (forall j n, j + n <= 92 \/ 156 <= j -> j + n <= 156 \/ 157 <= j -> j + n <= 158 \/ 160 <= j -> slice name_body j n = slice name_middle j n) as Hout.
  { intros j n H1 H2 H3. unfold name_body. destruct H3; [rewrite slice_before by (rewrite ?length_to_le; lia)|rewrite slice_after by (rewrite ?length_to_le; lia)]; (destruct H2; [rewrite slice_before by (cbn [length]; lia)|rewrite slice_after by (cbn [length]; lia)]); (destruct H1; [rewrite slice_before by lia|rewrite slice_after by lia]; done). }
  assert (forall j n, j + n <= 156 -> slice name_body j n = slice (overwrite name_middle 92 name) j n) as Hname.
  { intros j n H. unfold name_body. rewrite slice_before by (rewrite ?length_to_le; lia). rewrite slice_before by (cbn [length]; lia). done. }
  split.
  - unfold name_body. rewrite length_ow; [|rewrite length_to_le]; unfold SECTOR; lia.
  - rewrite Hout, middle_out by lia. unfold name_start. fields. done.
  - rewrite Hout, middle_out by lia. unfold name_start. fields. unfold wrap16. rewrite Z.mod_small by (unfold W16; lia). done.
  - rewrite Hout, middle_out by lia. unfold name_start. fields. done.
  - rewrite Hout by lia. unfold name_middle. rewrite (slice_opt 512); [|apply len_opt; [apply length_start|lia|apply root_field_36]|lia|apply previous_field_36|lia]. rewrite slice_opt_here; [|rewrite length_start; lia|apply root_field_36|by rewrite start_zeros by lia].
    unfold root_field. pose proof (v_root v Hv) as Hr. destruct (points v); cbn; [done|by rewrite Hr].
  - rewrite Hout by lia. unfold name_middle. rewrite slice_opt_here; [|rewrite (len_opt 512); [lia|apply length_start|lia|apply root_field_36]|apply previous_field_36|]; [unfold previous_field; by destruct p|]. rewrite (slice_opt 512); [|apply length_start|lia|apply root_field_36|lia]. by rewrite start_zeros by lia.
  - rewrite Hname by lia. by rewrite slice_overwrite by lia.
  - rewrite Hname by lia. rewrite slice_over by lia. unfold padded_name, NAME_MAX. f_equal. rewrite middle_out, start_zeros by lia. done.
  - rewrite Hname by lia. rewrite slice_after by lia. rewrite middle_out, start_zeros by lia. done.
  - unfold name_body. rewrite slice_before by (rewrite ?length_to_le; lia). by rewrite slice_overwrite by (cbn [length]; lia).
  - rewrite Hout, middle_out, start_zeros by lia. done.
  - unfold name_body. rewrite slice_overwrite by (rewrite ?length_to_le; lia). done.
  - rewrite Hout, middle_out, start_zeros by lia. done.
Qed.
Lemma names_keep s i x : names s name v p -> i = 0 /\ length x = 8 \/ i = 160 /\ length x = 32 -> names (overwrite s i x) name v p.
Proof using Hn.
  intros [H0 H1 H2 H3 H4 H5 H6 H7 H8 H9 H10 H11 H12] Hi. pose proof (name_len name Hn) as Hl. unfold SECTOR in H0.
  assert (forall j n, 8 <= j -> j + n <= 160 \/ 192 <= j -> slice (overwrite s i x) j n = slice s j n) as Hs.
  { intros j n Hj Hj2. destruct Hi as [[-> Hx]|[-> Hx]]; [by rewrite slice_after by lia|]. destruct Hj2; [by rewrite slice_before by lia|by rewrite slice_after by lia]. }
  split; try (rewrite Hs by lia; assumption). rewrite length_ow; [done|]. destruct Hi as [[-> ->]|[-> ->]]; lia.
Qed.
Lemma name_round_trip : parse_name (name_record name v p) = Some (padded_name name, length name, unsized v).
Proof using Hn Hv Hp.
  rewrite name_record_body. unfold parse_name. pose proof names_body as Hb. pose proof (n_length _ _ _ _ Hb) as Hl. unfold SECTOR in Hl. pose proof (sealed_digest name_body 160 [] ltac:(lia)) as Hd. cbv zeta in Hd. rewrite app_nil_r in Hd. rewrite Hd, (bool_decide_refl (digest _)). clear Hd.
  rewrite (slice_take _ 8), slice_before by (rewrite ?length_digest; lia). assert (slice name_body 0 8 = NAME_MAGIC) as ->.
  { pose proof length_middle. pose proof (name_len name Hn). unfold name_body. rewrite slice_before; [|lia|rewrite length_to_le, length_ow; rewrite ?length_ow; cbn [length]; lia]. rewrite slice_before; [|lia|rewrite length_ow; cbn [length]; lia]. rewrite slice_before by lia. rewrite middle_out by lia. unfold name_start. fields. done. }
  rewrite bool_decide_refl. cbn [negb orb]. apply (name_fields_names _ name v p); [done|done|done|]. apply names_keep; [done|]. right. by rewrite length_digest.
Qed.
Lemma entry_round_trip : parse_entry (txn_entry name v p) = Some (padded_name name, length name, unsized v).
Proof using Hn Hv Hp.
  unfold txn_entry, parse_entry. rewrite name_record_body. pose proof names_body as Hb. pose proof (n_length _ _ _ _ Hb) as Hl. unfold SECTOR in Hl. set (s1 := overwrite name_body 160 _). assert (names s1 name v p) as H1 by (apply names_keep; [done|]; right; by rewrite length_digest).
  set (s2 := overwrite s1 0 _). assert (names s2 name v p) as H2 by (apply names_keep; [done|]; left; done). set (s3 := overwrite s2 160 _). assert (names s3 name v p) as H3 by (apply names_keep; [done|]; right; done). pose proof (n_length _ _ _ _ H1) as L1. pose proof (n_length _ _ _ _ H2) as L2. unfold SECTOR in L1, L2.
  rewrite (slice_take _ 8). unfold s3 at 1 2. rewrite slice_before by (rewrite ?length_replicate; lia). rewrite slice_overwrite by (rewrite ?length_replicate; lia). unfold s2 at 1. rewrite slice_overwrite by (rewrite ?length_replicate; lia). rewrite !any_set_zeros. cbn [orb]. by apply (name_fields_names _ name v p).
Qed.
End name_record.

(** *** Commits *)
Lemma length_name_record name v p : valid_name name = true -> version_ok v -> (forall c, p = Some c -> good c) -> length (txn_entry name v p) = SECTOR.
Proof.
  intros Hn Hv Hp. unfold txn_entry. rewrite (name_record_body name v p). pose proof (n_length _ _ _ _ (names_body name v p Hn Hv Hp)) as Hl. unfold SECTOR in *.
  assert (length (overwrite (name_body name v p) 160 (digest (take 160 (name_body name v p)))) = 512) as L1 by (rewrite length_ow; rewrite ?length_digest; lia). rewrite (len_ow 512); [done| |rewrite length_replicate; lia]. apply len_ow; [done|rewrite length_replicate; lia].
Qed.
Lemma fold_entries es k r : Forall (fun e : bytes => length e = SECTOR) es -> length r = (1 + k + length es) * SECTOR ->
  foldl (fun r e => overwrite r ((1 + fst e) * SECTOR) (snd e)) r (imap (fun i e => (k + i, e)) es) = take ((1 + k) * SECTOR) r ++ concat es.
Proof.
  intros Hes. revert k r. induction Hes as [|e es He _ IH]; intros k r Hl.
  - cbn. rewrite app_nil_r, take_ge; [done|]. cbn in Hl. lia.
  - cbn [imap foldl concat fst snd]. rewrite (imap_ext _ (fun i e => (S k + i, e))) by (intros; cbn; f_equal; lia). cbn [length] in Hl. rewrite Nat.add_0_r. rewrite IH; [|rewrite length_ow; unfold SECTOR in *; lia]. unfold overwrite.
    rewrite (app_assoc (take _ r) e), take_app_le by (rewrite length_app, length_take; unfold SECTOR in *; lia). rewrite take_ge by (rewrite length_app, length_take; unfold SECTOR in *; lia). by rewrite <- app_assoc.
Qed.
Definition txn_head (n : nat) : bytes := overwrite (overwrite (overwrite (replicate SECTOR 0%Z) 0 TXN_MAGIC) 8 (to_le 2 LAYOUT)) 10 (to_le 2 (wrap16 (Z.of_nat n))).
Lemma take_ow m r i x : i + length x <= m -> take m (overwrite r i x) = overwrite (take m r) i x.
Proof.
  intros H. unfold overwrite. rewrite take_app_ge by (rewrite length_take; lia). rewrite length_take. rewrite take_take, (Nat.min_l i m) by lia. f_equal. destruct (Nat.le_gt_cases i (length r)).
  - rewrite Nat.min_l by done. rewrite take_app_ge by lia. f_equal. rewrite skipn_firstn_comm. f_equal. lia.
  - rewrite Nat.min_r by lia. rewrite !drop_ge by (rewrite ?length_take; lia). rewrite !app_nil_r. rewrite take_ge by lia. done.
Qed.
Lemma txn_record_eq es : Forall (fun e : bytes => length e = SECTOR) es -> exists d, length d = 32 /\ txn_record es = overwrite (txn_head (length es)) 16 d ++ concat es /\ d = txn_digest (txn_record es).
Proof.
  intros Hes. unfold txn_record. set (r := overwrite (overwrite (overwrite (replicate _ 0%Z) 0 _) 8 _) 10 _). assert (length r = (1 + length es) * SECTOR) as Hr.
  { unfold r. flen. }
  pose proof (fold_entries es 0 r Hes ltac:(lia)) as Hf. rewrite (imap_ext _ pair) in Hf by done. rewrite Hf. clear Hf. change ((1 + 0) * SECTOR) with SECTOR. assert (take SECTOR r = txn_head (length es)) as ->.
  { unfold r, txn_head. rewrite !take_ow by (rewrite ?length_to_le; unfold SECTOR; cbn [length TXN_MAGIC mind]; lia). rewrite take_replicate, Nat.min_l by (unfold SECTOR; lia). done. }
  set (h := txn_head (length es)). assert (length h = 512) as Hh by (unfold h, txn_head; flen). set (d := txn_digest (h ++ concat es)). assert (length d = 32) as Hd by (apply finish_length; by rewrite !update_length).
  assert (overwrite (h ++ concat es) 16 d = overwrite h 16 d ++ concat es) as Ho. { unfold overwrite. rewrite take_app_le, drop_app_le by lia. by rewrite <- !app_assoc. }
  exists d. split; [done|]. rewrite Ho. split; [done|]. unfold d at 1. unfold txn_digest. rewrite !drop_app_length' by (unfold SECTOR; rewrite ?length_ow; lia). do 3 f_equal.
Qed.
Lemma slice_concat (h : bytes) es k e : length h = SECTOR -> Forall (fun e : bytes => length e = SECTOR) es -> es !! k = Some e -> entry_sector (h ++ concat es) k = e.
Proof.
  intros Hh Hes Hk. unfold entry_sector. replace ((1 + k) * SECTOR) with (length h + k * SECTOR) by lia. unfold slice. rewrite <- drop_drop, drop_app_length. clear Hh h. revert k Hk. induction Hes as [|x es Hx _ IH]; intros k Hk; [done|]. destruct k as [|k]; cbn [concat].
  - injection Hk as ->. rewrite drop_0, take_app_length' by done. done.
  - replace (S k * SECTOR) with (length x + k * SECTOR) by lia. rewrite <- drop_drop, drop_app_length. by apply IH.
Qed.
(** A change of a name, as a commit holds it. *)
Record change : Type := mkChange { c_name : bytes; c_version : Version; c_previous : option Cid }.
Definition change_ok (c : change) : Prop := valid_name (c_name c) = true /\ version_ok (c_version c) /\ forall p, c_previous c = Some p -> good p.
Definition change_entry (c : change) : bytes := txn_entry (c_name c) (c_version c) (c_previous c).
Definition change_read (c : change) : bytes * nat * Version := (padded_name (c_name c), length (c_name c), unsized (c_version c)).
Lemma take_padded n : take (length n) (padded_name n) = n.
Proof. apply take_app_length. Qed.
Lemma entries_of_spec (record : bytes) cs m k : NoDup (map c_name cs) -> (forall i c, cs !! i = Some c -> parse_entry (entry_sector record i) = Some (change_read c)) -> m + k = length cs -> entries_of record (seq k m) = Some (map change_read (drop k cs)).
Proof.
  intros Hnd Hp. revert k. induction m as [|m IH]; intros k Hk; [rewrite drop_ge by lia; done|]. cbn [seq entries_of]. destruct (lookup_lt_is_Some_2 cs k) as [c Hc]; [lia|]. rewrite (Hp k c Hc). cbn [mbind option_bind change_read]. rewrite take_padded.
  assert (existsb (fun j => named (parse_entry (entry_sector record j)) (c_name c)) (seq 0 k) = false) as ->.
  { destruct (existsb _ _) eqn:E; [|done]. apply existsb_exists in E as (j & Hj & E). apply in_seq in Hj. destruct (lookup_lt_is_Some_2 cs j) as [c' Hc']; [lia|]. rewrite (Hp j c' Hc') in E. cbn [named change_read] in E. rewrite take_padded in E. case_bool_decide as En; [|done].
    assert (j = k); [|lia]. apply (NoDup_lookup _ j k (c_name c) Hnd); rewrite list_lookup_fmap; [by rewrite Hc', <- En|by rewrite Hc]. }
  rewrite IH by lia. cbn. rewrite (drop_S cs c k) by done. done.
Qed.
(** a commit is read back whole. The record written for changes of different names, with anything after it on the medium, is
    recognised with its count, its digest checks and its entries are the changes, in order. *)
Theorem commit_round_trip cs tail : Forall change_ok cs -> NoDup (map c_name cs) -> 1 <= length cs <= COMMIT_MAX ->
  let r := txn_record (map change_entry cs) ++ tail in parse_txn (take SECTOR r) = Some (length cs) /\ commit_entries r (length cs) = Some (map change_read cs).
Proof.
  intros Hok Hnd Hn r. assert (Forall (fun e : bytes => length e = SECTOR) (map change_entry cs)) as Hes. { apply Forall_map. apply (Forall_impl _ _ _ Hok). intros c (H1 & H2 & H3). unfold change_entry. exact (length_name_record _ _ _ H1 H2 H3). }
  destruct (txn_record_eq _ Hes) as (d & Hd & Er & Ed). rewrite length_map in Er. set (h := txn_head (length cs)) in *. assert (length h = 512) as Hh by (unfold h, txn_head; flen). assert (length (overwrite h 16 d) = SECTOR) as Hl by (rewrite length_ow; unfold SECTOR; lia).
  unfold r. split.
  - rewrite Er, <- app_assoc, take_app_length' by done. unfold parse_txn. rewrite (slice_take _ 8). unfold rest_set. rewrite drop_slice_end, Hl. change (SECTOR - 48) with 464. rewrite !slice_before by lia. rewrite slice_after by lia. unfold COMMIT_MAX in Hn. unfold h, txn_head. fields. rewrite !bool_decide_refl, any_set_zeros.
    unfold wrap16. rewrite Z.mod_small by (unfold W16; lia). le_back. rewrite Z.eqb_refl, Nat2Z.id. cbn [negb orb]. unfold COMMIT_MAX. rewrite !(proj2 (Nat.leb_le _ _)) by lia. done.
  - assert (length (txn_record (map change_entry cs)) = (1 + length cs) * SECTOR) as Hlr. { rewrite Er, length_app, Hl. assert (length (concat (map change_entry cs)) = length cs * SECTOR) as ->; [|lia]. rewrite <- (length_map change_entry cs). clear - Hes. induction Hes as [|x es Hx _ IH]; [done|]. cbn [concat length]. rewrite length_app, IH, Hx. lia. }
    unfold commit_entries. rewrite take_app_length' by lia. assert (slice (txn_record (map change_entry cs)) 16 32 = d) as -> by (rewrite Er; rewrite slice_app_before by (rewrite Hl; unfold SECTOR; lia); by rewrite slice_overwrite by lia). rewrite <- Ed, bool_decide_refl. cbn [negb]. apply (entries_of_spec _ cs (length cs) 0); [done| |lia]. intros i c Hc. rewrite Er. rewrite (slice_concat _ _ _ (change_entry c)); [|done|done|by rewrite list_lookup_fmap, Hc].
    rewrite Forall_forall in Hok. destruct (Hok c ltac:(by eapply list_elem_of_lookup_2)) as (H1 & H2 & H3). exact (entry_round_trip _ _ _ H1 H2 H3).
Qed.

(** ** Frames *)
(** What the cipher promises (RFC 8439): a text of the same length and a tag of 16 bytes, which open again. *)
Class CryptoLaws `{!Crypto} : Prop := {
  seal_length : forall k n a d, length (seal k n a d).1 = length d /\ length (seal k n a d).2 = 16;
  open_seal : forall k n a d, open k n a (seal k n a d).1 (seal k n a d).2 = Some d;
  open_length : forall k n a d t x, open k n a d t = Some x -> length x = length d
}.
(** what is sealed for a place opens there. A record sealed in a domain for a sector, with anything after it in the buffer, has a
    frame that says how many sectors it covers, and opens at that sector in that domain under the same keys to itself and zeros. *)
Theorem frame_round_trip `{!Crypto} `{!CryptoLaws} k record buffer lba domain : (1 <= Z.of_nat (length record) <= Z.of_nat HEADER + BLOCK_MAX)%Z -> (0 <= domain < W16)%Z -> Z.to_nat RECORD_SECTORS * SECTOR <= length buffer -> slice buffer FRAME (length record) = record ->
  let '(b, n) := seal_frame k buffer lba (length record) domain in
  parse_frame (take SECTOR b) = Some n /\ slice b 10 2 = to_le 2 domain /\ length b = length buffer /\
  open_frame (Some k) b lba (Z.to_nat n) domain = (record ++ replicate (Z.to_nat n * SECTOR - length record) 0%Z ++ drop (Z.to_nat n * SECTOR) buffer, true).
Proof.
  intros Hr Hd Hb Hrec. unfold seal_frame. set (n := sealed_sectors (Z.of_nat (length record))). assert (1 <= n <= RECORD_SECTORS)%Z as Hn. { unfold n, RECORD_SECTORS, sealed_sectors. split; [apply Z.div_le_lower_bound; unfold SECTOR, FRAME; lia|apply Z.div_le_mono; unfold SECTOR; lia]. }
  set (size := Z.to_nat n * SECTOR). assert (FRAME + length record <= size) as Hsz. { unfold size, n, sealed_sectors, SECTOR, FRAME. pose proof (Z.div_mod (Z.of_nat 44 + Z.of_nat (length record) + (Z.of_nat 512 - 1)) (Z.of_nat 512) ltac:(lia)). pose proof (Z.mod_pos_bound (Z.of_nat 44 + Z.of_nat (length record) + (Z.of_nat 512 - 1)) (Z.of_nat 512) ltac:(lia)). lia. }
  assert (size <= length buffer) as Hsb by (unfold size, SECTOR in *; lia). assert (RECORD_SECTORS < W32)%Z as HR by done. unfold FRAME in *.
  assert (length (take size buffer) = size) as L0 by (rewrite length_take; lia). set (b1 := overwrite (take size buffer) _ _). assert (length b1 = size) as L1 by (apply len_ow; [done|rewrite length_replicate; lia]). set (b2 := overwrite b1 0 _). assert (length b2 = size) as L2 by (apply len_ow; [done|magic; lia]).
  set (b3 := overwrite b2 8 _). assert (length b3 = size) as L3 by (apply len_ow; [done|rewrite length_to_le; lia]). set (b4 := overwrite b3 10 _). assert (length b4 = size) as L4 by (apply len_ow; [done|rewrite length_to_le; lia]). set (b5 := overwrite b4 12 _). assert (length b5 = size) as L5 by (apply len_ow; [done|rewrite length_to_le; lia]).
  assert (drop 44 b5 = record ++ replicate (size - 44 - length record) 0%Z) as Hplain.
  { rewrite drop_slice_end, L5. unfold b5; rewrite slice_after by (rewrite ?length_to_le; lia). unfold b4; rewrite slice_after by (rewrite ?length_to_le; lia). unfold b3; rewrite slice_after by (rewrite ?length_to_le; lia). unfold b2; rewrite slice_after by (magic; lia). replace (size - 44) with (length record + (size - 44 - length record)) by lia. rewrite <- slice_more. f_equal.
    - unfold b1. rewrite slice_before by (rewrite ?length_replicate; lia). by rewrite slice_take_in by lia.
    - unfold b1. rewrite slice_overwrite; [f_equal; lia|rewrite length_replicate; lia|rewrite length_replicate; lia]. }
  unfold keys_seal. set (nonce := take 12 _). assert (length nonce = 12) as Lnonce by (unfold nonce, hmac_sha256; rewrite length_take, finish_length by (by rewrite !update_length); done). clearbody nonce.
  destruct (seal_length (k_seal k) nonce (aad b5 lba) (drop 44 b5)) as [Ld Lt]. pose proof (open_seal (k_seal k) nonce (aad b5 lba) (drop 44 b5)) as Hopen. destruct (seal (k_seal k) nonce (aad b5 lba) (drop 44 b5)) as [data tag]. cbn [fst snd] in *. rewrite length_drop, L5 in Ld.
  set (b6 := overwrite b5 44 _). assert (length b6 = size) as L6 by (apply len_ow; [done|lia]). set (b7 := overwrite b6 16 _). assert (length b7 = size) as L7 by (apply len_ow; [done|lia]). set (b8 := overwrite b7 28 _). assert (length b8 = size) as L8 by (apply len_ow; [done|lia]).
  assert (forall i m, i + m <= 16 -> slice b8 i m = slice b5 i m) as Hhead. { intros i m Hi. unfold b8; rewrite slice_before by lia. unfold b7; rewrite slice_before by lia. unfold b6; by rewrite slice_before by lia. }
  assert (slice b8 0 8 = FRAME_MAGIC) as F0. { rewrite Hhead by lia. unfold b5; rewrite slice_before by (rewrite ?length_to_le; lia). unfold b4; rewrite slice_before by (rewrite ?length_to_le; lia). unfold b3; rewrite slice_before by (rewrite ?length_to_le; lia). unfold b2. by rewrite slice_overwrite by (magic; lia). }
  assert (slice b8 8 2 = to_le 2 LAYOUT) as F8. { rewrite Hhead by lia. unfold b5; rewrite slice_before by (rewrite ?length_to_le; lia). unfold b4; rewrite slice_before by (rewrite ?length_to_le; lia). unfold b3. by rewrite slice_overwrite by (rewrite ?length_to_le; lia). }
  assert (slice b8 10 2 = to_le 2 domain) as F10. { rewrite Hhead by lia. unfold b5; rewrite slice_before by (rewrite ?length_to_le; lia). unfold b4. by rewrite slice_overwrite by (rewrite ?length_to_le; lia). }
  assert (slice b8 12 4 = to_le 4 n) as F12. { rewrite Hhead by lia. unfold b5. by rewrite slice_overwrite by (rewrite ?length_to_le; lia). }
  assert (512 <= size) as Hmin by (unfold size, SECTOR; lia). assert (forall w, slice w 0 8 = FRAME_MAGIC -> slice w 8 2 = to_le 2 LAYOUT -> slice w 12 4 = to_le 4 n -> parse_frame w = Some n) as Hpf.
  { intros w W0 W8 W12. unfold parse_frame. rewrite (slice_take _ 8), W0, W8, W12, bool_decide_refl, le_layout, Z.eqb_refl, le_4 by lia. cbn [negb orb]. rewrite !(proj2 (Z.leb_le _ _)) by lia. done. }
  split_and!.
  - unfold SECTOR. rewrite take_app_le by lia. apply Hpf; rewrite slice_take_in by lia; assumption.
  - by rewrite slice_app_before by lia.
  - rewrite length_app, length_drop. lia.
  - unfold open_frame. fold size. rewrite take_app_length', drop_app_length' by done. rewrite (Hpf b8 F0 F8 F12), F10, Z2Nat.id, !bool_decide_refl by lia. cbn [andb mbind option_bind].
    assert (slice b8 16 12 = nonce) as ->. { unfold b8; rewrite slice_before by lia. unfold b7; by rewrite slice_overwrite by lia. } assert (slice b8 28 16 = tag) as -> by (unfold b8; by rewrite slice_overwrite by lia).
    assert (drop FRAME b8 = data) as ->. { rewrite drop_slice_end, L8. unfold FRAME, b8; rewrite slice_after by lia. unfold b7; rewrite slice_after by lia. unfold b6; by rewrite slice_overwrite by lia. }
    assert (aad b8 lba = aad b5 lba) as -> by (unfold aad; f_equal; rewrite !(slice_take _ 16); by apply Hhead). rewrite Hopen, Hplain. f_equal. rewrite <- app_assoc. f_equal. rewrite app_assoc. f_equal. rewrite <- replicate_add. f_equal. unfold FRAME. lia.
Qed.

Definition demo_version : Version := mkVersion 1 7 (to_bytes demo_cid) true 5.
Definition demo_change : change := mkChange [97%Z] demo_version None.
Lemma demo_good : good demo_cid.
Proof. split; [reflexivity|repeat constructor; discriminate]. Qed.
Lemma demo_change_ok : change_ok demo_change.
Proof. split; [reflexivity|]. split; [|done]. split; [done|done|]. cbn. exists demo_cid. split; [apply demo_good|done]. Qed.
Lemma commit_round_trip_witness : commit_entries (txn_record (map change_entry [demo_change]) ++ []) 1 = Some [change_read demo_change].
Proof.
  exact (proj2 (commit_round_trip [demo_change] [] (Forall_cons_2 _ _ _ demo_change_ok (Forall_nil_2 _)) (NoDup_singleton _) ltac:(unfold COMMIT_MAX; cbn [length]; lia))).
Defined.
(** A cipher that hides nothing. *)
Definition clear_crypto : Crypto := {| seal k n a d := (d, replicate 16 0%Z); open k n a d t := Some d |}.
Lemma clear_laws : @CryptoLaws clear_crypto.
Proof. split; [done|done|]. by intros ? ? ? ? ? ? [= ->]. Qed.
Lemma frame_round_trip_witness : exists b, @open_frame clear_crypto (Some (keys_new [])) b 3 1 VOLUME = ([1; 2; 3]%Z ++ replicate 509 0%Z ++ drop 512 (replicate FRAME 0%Z ++ [1; 2; 3]%Z ++ replicate (33 * 512) 0%Z), true).
Proof.
  pose proof (@frame_round_trip clear_crypto clear_laws (keys_new []) [1; 2; 3]%Z (replicate FRAME 0%Z ++ [1; 2; 3]%Z ++ replicate (33 * 512) 0%Z) 3 VOLUME) as H.
  specialize (H ltac:(split; discriminate) ltac:(split; [discriminate|reflexivity])). rewrite !length_app, !length_replicate in H.
  specialize (H ltac:(change RECORD_SECTORS with 33%Z; unfold SECTOR, FRAME; cbn [length]; lia) ltac:(apply slice_mid; [by rewrite length_replicate|done])). destruct (seal_frame _ _ _ _ _) as [b n] eqn:E. assert (n = 1%Z) as -> by (unfold seal_frame in E; destruct (keys_seal _ _ _) as [[? ?] ?]; by injection E). exists b. exact (proj2 (proj2 (proj2 H))).
Defined.
