(* ===== verification/StoreNames.v ===== *)
(** * The block store's names ([blockstore/src/store.rs]: [Head], [keep_version], [find_in], [resolve], [snapshot], [history])

    A name keeps its newest versions back to its last removal. A mount meets the records of versions in whatever order they lie on the
    medium. The theorem: the names a mount ends with depend only on which records there are, and are the newest versions of each
    name back to its last removal. *)
From S2P Require Import Prelude Outcome Sha256 Cid Directory StoreRecords.
From Stdlib Require Import Sorting.Permutation.
Local Open Scope nat_scope.

(** [enum Error] of the store. *)
Inductive SError : Type :=
  | NotFound | Corrupt | Full | TooLarge | ReadOnly | Device | Foreign | Layout (found : Z) | Key | Kept (id : bytes) | Invalid | Conflict | Incomplete | Quota | Rights | NoRandom.
Definition HISTORY : nat := 4.
Definition EMPTY : Version := mkVersion 0 0 (replicate 36 0%Z) false 0.
Definition version_root (v : Version) : outcome SError (option Cid) :=
  if points v then match from_bytes (root v) with Ok c => Done (Some c) | Err _ => Crash end else Done None.

Record Head : Type := mkHead { h_name : bytes; h_len : nat; kept : list Version; count : nat; h_domain : Z }.
Definition HEAD_EMPTY : Head := mkHead (replicate NAME_MAX 0%Z) 0 (replicate HISTORY EMPTY) 0 VOLUME.
Definition head_name (h : Head) : bytes := take (h_len h) (h_name h).
Definition versions (h : Head) : list Version := take (count h) (kept h).
Definition latest (h : Head) : Version := nth 0 (kept h) EMPTY.
Definition removed (h : Head) : bool := negb (points (latest h)).
Definition retains (h : Head) : list Version := List.filter (fun v => points v && negb (removed h)) (versions h).

(** [slice::iter().position]. *)
Fixpoint position {A} (f : A -> bool) (l : list A) : option nat :=
  match l with [] => None | x :: l => if f x then Some 0 else S <$> position f l end.
(** [kept.copy_within(at..HISTORY - 1, at + 1)], then [kept[at] = v]. *)
Definition shift_in (l : list Version) (at_ : nat) (v : Version) : list Version := take at_ l ++ v :: slice l at_ (HISTORY - 1 - at_).
Definition keep (h : Head) (v : Version) : Head :=
  let n := count h in
  if existsb (fun k => (version k =? version v)%Z || negb (points k) && (version v <? version k)%Z) (take n (kept h)) then h else
  let at_ := default n (position (fun k => (version k <? version v)%Z) (take n (kept h))) in
  if at_ =? HISTORY then h else
  let c := Nat.min (n + 1) HISTORY in
  let c := if points v then c else at_ + 1 in
  mkHead (h_name h) (h_len h) (shift_in (kept h) at_ v) c (h_domain h).
Definition head_new (domain : Z) (name : bytes) (v : Version) : Head :=
  keep (mkHead (overwrite (replicate NAME_MAX 0%Z) 0 name) (length name) (replicate HISTORY EMPTY) 0 domain) v.

(** *** The table of names, sorted by domain and name *)
Definition compare_head (h : Head) (domain : Z) (name : bytes) : comparison :=
  match (h_domain h ?= domain)%Z with Eq => Directory.compare (head_name h) name | c => c end.
(** [find_in]: the standard library's binary search, with the place where the name would go. *)
Definition find_in (heads : list Head) (domain : Z) (name : bytes) : outcome SError (nat + nat) :=
  if length heads =? 0 then Done (inr 0) else
  let cmp i := h ← or_crash (heads !! i); Done (compare_head h domain name) in
  base ← bisect (length heads) cmp 0 (length heads);
  c ← cmp base;
  Done (match c with Eq => inl base | Lt => inr (base + 1) | Gt => inr base end).
Definition add (heads : list Head) (at_ : nat) (h : Head) : list Head := take at_ heads ++ h :: drop at_ heads.
(** [keep_version]; [room] is how many names the table holds. *)
Definition keep_version (room : nat) (heads : list Head) (domain : Z) (name : bytes) (v : Version) : outcome SError (list Head) :=
  i ← find_in heads domain name;
  match i with
  | inl i => h ← or_crash (heads !! i); Done (<[i := keep h v]> heads)
  | inr i => if length heads =? room then Refuse Full else Done (add heads i (head_new domain name v))
  end.
Definition snapshot (heads : list Head) (domain : Z) (name : bytes) : outcome SError (Z * option Cid) :=
  if negb (valid_name name) then Refuse Invalid else
  i ← find_in heads domain name;
  match i with
  | inl i => h ← or_crash (heads !! i); r ← version_root (latest h); Done (version (latest h), r)
  | inr _ => Done (0%Z, None)
  end.
Definition history (heads : list Head) (domain : Z) (name : bytes) : outcome SError (list Version) :=
  if negb (valid_name name) then Refuse Invalid else
  i ← find_in heads domain name;
  match i with
  | inl i => h ← or_crash (heads !! i); Done (versions h)
  | inr _ => Refuse NotFound
  end.

(** ** The newest versions back to the last removal *)
Fixpoint ins (v : Version) (l : list Version) : list Version :=
  match l with
  | [] => [v]
  | k :: l => if (version k =? version v)%Z then k :: l else if (version k <? version v)%Z then v :: k :: l else k :: ins v l
  end.
(** Versions newest first, each number once. *)
Definition newest (vs : list Version) : list Version := foldr ins [] vs.
Fixpoint back_to_removal (l : list Version) : list Version := match l with [] => [] | v :: l => if points v then v :: back_to_removal l else [v] end.
Definition kept_of (vs : list Version) : list Version := take HISTORY (back_to_removal (newest vs)).

Fixpoint descending (l : list Version) : Prop := match l with [] => True | k :: l => (forall x, x ∈ l -> (version x < version k)%Z) /\ descending l end.
(** [keep] on the kept versions, [h] of them at most. *)
Fixpoint keep_list (h : nat) (v : Version) (l : list Version) : list Version :=
  match h, l with
  | O, _ => []
  | S h, [] => [v]
  | S h, k :: l =>
      if (version k =? version v)%Z then k :: l else
      if (version k <? version v)%Z then (if points v then v :: take h (k :: l) else [v]) else
      if points k then k :: keep_list h v l else k :: l
  end.
Lemma keep_list_spec h v L : take h (back_to_removal (ins v L)) = keep_list h v (take h (back_to_removal L)).
Proof.
  revert h. induction L as [|k L IH]; intros [|h]; cbn [ins back_to_removal take keep_list]; try done.
  - destruct (points v); cbn; by rewrite ?take_nil.
  - destruct (points k) eqn:Ek.
    + destruct (Z.eqb_spec (version k) (version v)) as [Hv|Hv]; cbn [back_to_removal]; rewrite ?Ek; cbn [take keep_list].
      * rewrite (proj2 (Z.eqb_eq _ _)) by done. done.
      * rewrite (proj2 (Z.eqb_neq _ _)) by done. destruct (version k <? version v)%Z eqn:Hlt; cbn [back_to_removal]; rewrite ?Ek; cbn [take].
        -- destruct (points v); cbn [take]; [|by rewrite take_nil]. destruct h as [|h]; [done|]. cbn [take]. do 2 f_equal. rewrite take_take. f_equal. lia.
        -- by rewrite IH.
    + destruct (Z.eqb_spec (version k) (version v)) as [Hv|Hv]; cbn [back_to_removal]; rewrite ?Ek; cbn [take keep_list].
      * rewrite (proj2 (Z.eqb_eq _ _)) by done. done.
      * rewrite (proj2 (Z.eqb_neq _ _)) by done. destruct (version k <? version v)%Z eqn:Hlt; cbn [back_to_removal]; rewrite ?Ek; cbn [take]; [|done].
        destruct (points v); cbn [take]; [|by rewrite take_nil]. destruct h as [|h]; [done|]. cbn [take]. by rewrite !take_nil.
Qed.
Definition blocked (v : Version) (l : list Version) : bool := existsb (fun k => (version k =? version v)%Z || negb (points k) && (version v <? version k)%Z) l.
Lemma blocked_below v k l : (version k < version v)%Z -> (forall x, x ∈ l -> (version x < version k)%Z) -> blocked v (k :: l) = false.
Proof.
  intros Hk Hl. unfold blocked. destruct (existsb _ _) eqn:E; [|done]. apply existsb_exists in E as (x & Hx & E). assert (version x < version v)%Z by (destruct Hx as [<-|Hx]; [done|]; apply list_elem_of_In, Hl in Hx; lia).
  rewrite (proj2 (Z.eqb_neq _ _)), (proj2 (Z.ltb_ge _ _)), andb_false_r in E by lia. done.
Qed.
Lemma keep_list_same h v l : length l <= h -> descending l -> blocked v l = true -> keep_list h v l = l.
Proof.
  revert h. induction l as [|k l IH]; intros [|h] Hh; cbn [length descending] in *; [done|done|lia|]. intros [Hd Hl] Hb. cbn [keep_list]. destruct (Z.eqb_spec (version k) (version v)) as [|Hne]; [done|]. destruct (Z.ltb_spec (version k) (version v)) as [Hlt|Hge].
  - by rewrite blocked_below in Hb.
  - destruct (points k) eqn:Ek; [|done]. f_equal. apply IH; [lia|done|]. cbn in Hb. rewrite (proj2 (Z.eqb_neq _ _)), Ek in Hb by done. done.
Qed.
Lemma keep_list_at h v l : length l <= h -> descending l -> blocked v l = false -> let at_ := default (length l) (position (fun k => (version k <? version v)%Z) l) in
  at_ <= length l /\ keep_list h v l = if at_ =? h then l else if points v then take h (take at_ l ++ v :: drop at_ l) else take at_ l ++ [v].
Proof.
  revert h. induction l as [|k l IH]; intros h Hh Hd Hb; cbn [length descending position from_option id] in *.
  - split; [lia|]. destruct h as [|h]; [done|]. cbn. by destruct (points v); rewrite ?take_nil.
  - destruct h as [|h]; [lia|]. destruct Hd as [Hd Hl]. cbn in Hb. apply orb_false_iff in Hb as [Hb1 Hb2]. apply orb_false_iff in Hb1 as [Hne Hrm]. cbn [keep_list]. rewrite Hne. destruct (Z.ltb_spec (version k) (version v)) as [Hlt|Hge]; cbn [from_option id].
    + split; [lia|]. done.
    + destruct (points k) eqn:Ek; [|apply Z.eqb_neq in Hne; rewrite (proj2 (Z.ltb_lt _ _)) in Hrm by lia; done]. destruct (IH h ltac:(lia) Hl Hb2) as [H1 H2]. destruct (position _ l) as [p|]; cbn [fmap option_fmap option_map from_option id] in *.
      * split; [lia|]. rewrite H2. cbn [Nat.eqb]. destruct (p =? h); [done|]. by destruct (points v).
      * split; [lia|]. rewrite H2. cbn [Nat.eqb]. destruct (length l =? h); [done|]. by destruct (points v).
Qed.
Record head_ok (h : Head) : Prop := { ok_kept : length (kept h) = HISTORY; ok_count : count h <= HISTORY; ok_desc : descending (versions h) }.
Lemma keep_versions h v : head_ok h -> versions (keep h v) = keep_list HISTORY v (versions h) /\ h_name (keep h v) = h_name h /\ h_len (keep h v) = h_len h /\ h_domain (keep h v) = h_domain h /\ length (kept (keep h v)) = HISTORY /\ count (keep h v) <= HISTORY.
Proof.
  intros [Hk Hc Hd]. assert (length (versions h) = count h) as Hl by (unfold versions; rewrite length_take; lia). unfold keep. fold (versions h). fold (blocked v (versions h)). destruct (blocked v (versions h)) eqn:Hb; [by rewrite keep_list_same by (done || lia)|].
  destruct (keep_list_at HISTORY v (versions h) ltac:(lia) Hd Hb) as [Hat Hkl]. rewrite Hl in *. set (at_ := default _ _) in *. rewrite Hkl. destruct (Nat.eqb_spec at_ HISTORY) as [|Hne]; [done|]. cbn [h_name h_len h_domain kept count]. split_and!; [|done|done|done| |].
  - unfold versions at 1. cbn [kept count]. unfold shift_in, versions, slice. unfold HISTORY in *. rewrite take_take, (Nat.min_l at_ (count h)) by lia. destruct (points v).
    + rewrite !take_app_ge by (rewrite length_take; lia). f_equal. rewrite !length_take. replace (at_ `min` length (kept h)) with at_ by lia. replace (Nat.min (count h + 1) 4 - at_) with (S (Nat.min (count h - at_) (3 - at_))) by lia. replace (4 - at_) with (S (3 - at_)) by lia. cbn [take]. f_equal.
      rewrite skipn_firstn_comm, !take_take. f_equal. lia.
    + rewrite take_app_ge by (rewrite length_take; lia). f_equal. rewrite length_take. replace (at_ + 1 - at_ `min` length (kept h)) with 1 by lia. done.
  - unfold shift_in, slice, HISTORY in *. rewrite length_app, length_take. cbn [length]. rewrite length_take, length_drop. lia.
  - unfold HISTORY in *. destruct (points v); lia.
Qed.
(** *** What is kept does not depend on the order *)
Lemma elem_ins x v l : x ∈ ins v l -> x = v \/ x ∈ l.
Proof. induction l as [|k l IH]; cbn; [set_solver|]. destruct (_ =? _)%Z; [auto|]. destruct (_ <? _)%Z; [set_solver|]. rewrite elem_of_cons. intros [->|H%IH]; set_solver. Qed.
Lemma descending_ins v l : descending l -> descending (ins v l).
Proof.
  induction l as [|k l IH]; cbn; [intros _; split; [set_solver|done]|]. intros [Hk Hl]. destruct (Z.eqb_spec (version k) (version v)); [done|]. destruct (Z.ltb_spec (version k) (version v)); cbn; split_and!; auto.
  - intros x [->|Hx]%elem_of_cons; [done|]. specialize (Hk x Hx). lia.
  - intros x [->|Hx]%elem_ins; [lia|auto].
Qed.
Lemma descending_take h l : descending l -> descending (take h l).
Proof. revert h. induction l as [|k l IH]; intros [|h]; cbn; try done. intros [Hk Hl]. split; [|auto]. intros x Hx. apply Hk. by eapply elem_of_take in Hx as (? & ?%list_elem_of_lookup_2 & ?). Qed.
Lemma descending_back l : descending l -> descending (back_to_removal l).
Proof.
  assert (forall l x, x ∈ back_to_removal l -> x ∈ l) as Hin. { clear. induction l as [|k l IH]; cbn; [done|]. destruct (points k); [|set_solver]. intros x [->|Hx]%elem_of_cons; set_solver. }
  induction l as [|k l IH]; cbn; [done|]. intros [Hk Hl]. destruct (points k); cbn; split; auto; set_solver.
Qed.
Lemma ins_comm v w l : (version v = version w -> v = w) -> ins v (ins w l) = ins w (ins v l).
Proof.
  intros Hvw. destruct (decide (version v = version w)) as [E|E]; [by rewrite (Hvw E)|]. clear Hvw. induction l as [|k l IH]; cbn [ins];
    repeat (match goal with |- context [(?a =? ?b)%Z] => destruct (Z.eqb_spec a b) | |- context [(?a <? ?b)%Z] => destruct (Z.ltb_spec a b) end; cbn [ins]); try congruence; lia.
Qed.
(** Records of one name: a number names one version. *)
Definition consistent (vs : list Version) : Prop := forall v w, v ∈ vs -> w ∈ vs -> version v = version w -> v = w.
Lemma newest_perm vs ws : consistent vs -> Permutation vs ws -> newest vs = newest ws.
Proof.
  intros Hc Hp. unfold newest. apply (foldr_permutation (=) ins [] vs ws); [|done]. intros j1 v j2 w l _ Hj1 Hj2. apply ins_comm. apply Hc; by eapply list_elem_of_lookup_2.
Qed.
Lemma newest_descending vs : descending (newest vs).
Proof. induction vs as [|v vs IH]; [done|]. by apply descending_ins. Qed.
Lemma kept_of_cons v vs : kept_of (v :: vs) = keep_list HISTORY v (kept_of vs).
Proof. apply keep_list_spec. Qed.
Lemma kept_descending vs : descending (kept_of vs).
Proof. by apply descending_take, descending_back, newest_descending. Qed.

(** ** The table *)
Definition ckey (a b : Z * bytes) : comparison := match (a.1 ?= b.1)%Z with Eq => Directory.compare a.2 b.2 | c => c end.
Definition key (h : Head) : Z * bytes := (h_domain h, head_name h).
Lemma ckey_eq a b : ckey a b = Eq <-> a = b.
Proof. destruct a as [d n], b as [d' n']. unfold ckey. cbn. destruct (Z.compare_spec d d') as [->|H|H]; [rewrite compare_eq; split; congruence|split; [done|intros [= -> _]; lia]|split; [done|intros [= -> _]; lia]]. Qed.
Lemma ckey_flip a b : ckey b a = CompOpp (ckey a b).
Proof. unfold ckey. rewrite (Z.compare_antisym a.1 b.1). destruct (a.1 ?= b.1)%Z; cbn; [apply compare_flip|done|done]. Qed.
Lemma ckey_trans a b c : ckey a b = Lt -> ckey b c = Lt -> ckey a c = Lt.
Proof.
  unfold ckey. destruct a as [d n], b as [d' n'], c as [d2 n2]. cbn. destruct (Z.compare_spec d d') as [->|H|H]; [|intros _; destruct (Z.compare_spec d' d2) as [<-|H2|H2]|done].
  - destruct (d' ?= d2)%Z; [apply compare_trans|done|done].
  - intros _. by apply Z.compare_lt_iff in H as ->.
  - intros _. by assert (d ?= d2 = Lt)%Z as -> by (apply Z.compare_lt_iff; lia).
  - done.
Qed.
Definition sorted (hs : list Head) : Prop := forall i j a b, i < j -> hs !! i = Some a -> hs !! j = Some b -> ckey (key a) (key b) = Lt.
Record table_ok (hs : list Head) : Prop := { t_sorted : sorted hs; t_heads : Forall head_ok hs }.
Definition look (hs : list Head) (domain : Z) (name : bytes) : option (list Version) := versions <$> List.find (fun h => bool_decide (key h = (domain, name))) hs.
Lemma find_in_spec hs d n : sorted hs -> exists r, find_in hs d n = Done r /\ match r with
  | inl i => exists h, hs !! i = Some h /\ key h = (d, n)
  | inr i => i <= length hs /\ (forall k h, hs !! k = Some h -> k < i -> ckey (key h) (d, n) = Lt) /\ (forall k h, hs !! k = Some h -> i <= k -> ckey (key h) (d, n) = Gt)
  end.
Proof.
  intros Hs. unfold find_in. cbv zeta. destruct (Nat.eqb_spec (length hs) 0) as [E|E]; [exists (inr 0); split; [done|]; destruct hs; [split_and!; [done|done|done]|done]|].
  pose (c := fun i => match hs !! i with Some h => ckey (key h) (d, n) | None => Eq end). set (cmp := fun i => h ← or_crash (hs !! i); Done (compare_head h d n)).
  assert (forall i, i < length hs -> cmp i = Done (E:=SError) (c i)) as Hcmp. { intros i Hi. destruct (lookup_lt_is_Some_2 hs i Hi) as [h Hh]. unfold cmp, c. rewrite Hh. done. }
  destruct (bisect_spec (length hs) c cmp Hcmp) with (fuel := length hs) (base := 0) (size := length hs) as (b & -> & Hb & Hl & Hg); [|lia|lia|lia|lia|].
  { intros i j Hij Hj. unfold c in *. destruct (lookup_lt_is_Some_2 hs i) as [x Hx]; [lia|]. destruct (lookup_lt_is_Some_2 hs j) as [y Hy]; [lia|]. rewrite Hx. rewrite Hy in Hj. pose proof (Hs i j x y ltac:(lia) Hx Hy) as Hxy. destruct (ckey (key y) (d, n)) eqn:Ey; [|by apply (ckey_trans _ (key y))|done]. apply ckey_eq in Ey. by rewrite <- Ey. }
  cbn [mbind outcome_bind]. destruct (lookup_lt_is_Some_2 hs b Hb) as [h Hh]. rewrite Hh. cbn [or_crash mbind outcome_bind]. eexists. split; [done|]. change (compare_head h d n) with (ckey (key h) (d, n)). assert (c b = ckey (key h) (d, n)) as Ecb by (unfold c; by rewrite Hh).
  assert (forall k x, hs !! k = Some x -> c k = ckey (key x) (d, n)) as Hck by (intros k x Hx; unfold c; by rewrite Hx). rewrite <- Ecb. destruct (c b) eqn:Ec.
  - exists h. split; [done|]. by apply ckey_eq.
  - split_and!; [lia| |]; intros k x Hx Hk; rewrite <- (Hck k x Hx); [destruct (decide (k = b)) as [->|]; [done|apply Hl; lia]|apply Hg; apply lookup_lt_Some in Hx; lia].
  - split_and!; [lia| |]; intros k x Hx Hk; rewrite <- (Hck k x Hx); [apply Hl; lia|destruct (decide (k = b)) as [->|]; [done|apply Hg; apply lookup_lt_Some in Hx; lia]].
Qed.
Lemma look_at hs i h : sorted hs -> hs !! i = Some h -> look hs (h_domain h) (head_name h) = Some (versions h).
Proof.
  intros Hs Hi. unfold look. change (h_domain h, head_name h) with (key h). destruct (List.find _ hs) as [h'|] eqn:E.
  - apply find_some in E as [[j Hj]%list_elem_of_In%list_elem_of_lookup E]. apply bool_decide_eq_true in E. cbn. do 2 f_equal. destruct (Nat.lt_trichotomy i j) as [H|[->|H]]; [|congruence|].
    + pose proof (Hs i j h h' H Hi Hj) as Hx. rewrite E in Hx. by rewrite (proj2 (ckey_eq _ _) eq_refl) in Hx.
    + pose proof (Hs j i h' h H Hj Hi) as Hx. rewrite E in Hx. by rewrite (proj2 (ckey_eq _ _) eq_refl) in Hx.
  - pose proof (find_none _ _ E h ltac:(by apply list_elem_of_In, (list_elem_of_lookup_2 _ i))) as Hx. by apply bool_decide_eq_false in Hx.
Qed.
Lemma look_none hs d n : (forall i h, hs !! i = Some h -> key h <> (d, n)) -> look hs d n = None.
Proof. intros H. unfold look. destruct (List.find _ hs) as [h|] eqn:E; [|done]. apply find_some in E as [[j Hj]%list_elem_of_In%list_elem_of_lookup E]. apply bool_decide_eq_true in E. by apply H in Hj. Qed.
(** Tables with the same heads at a key look the same there. *)
Lemma look_iff hs hs' d n : sorted hs -> sorted hs' -> (forall h, key h = (d, n) -> h ∈ hs <-> h ∈ hs') -> look hs d n = look hs' d n.
Proof.
  intros Hs Hs' H. destruct (look hs d n) as [vs|] eqn:E.
  - unfold look in E. destruct (List.find _ hs) as [h|] eqn:F; [|done]. injection E as <-. apply find_some in F as [Hin Hk]. apply bool_decide_eq_true in Hk. apply list_elem_of_In, (H h Hk), list_elem_of_lookup in Hin as [i Hi]. pose proof (look_at hs' i h Hs' Hi) as L. unfold key in Hk. injection Hk as <- <-. by rewrite L.
  - symmetry. apply look_none. intros i h Hi Hk. apply list_elem_of_lookup_2, (H h Hk), list_elem_of_lookup in Hi as [j Hj]. pose proof (look_at hs j h Hs Hj) as L. unfold key in Hk. injection Hk as <- <-. by rewrite L in E.
Qed.
Lemma head_new_spec d n v : length n <= NAME_MAX -> head_ok (head_new d n v) /\ key (head_new d n v) = (d, n) /\ versions (head_new d n v) = [v].
Proof.
  intros Hn. unfold head_new. set (h0 := mkHead _ _ _ _ _). assert (head_ok h0) as H0 by (split; [done|cbn; unfold HISTORY; lia|done]). destruct (keep_versions h0 v H0) as (H1 & H2 & H3 & H4 & H5 & H6). change (keep_list HISTORY v (versions h0)) with [v] in H1. split_and!; [split; [done|done|rewrite H1; cbn; split; [set_solver|done]]| |done].
  unfold key, head_name. rewrite H2, H3, H4. cbn [h_name h_len h_domain h0]. f_equal. unfold overwrite. rewrite take_0. cbn [app]. by rewrite take_app_length.
Qed.
Lemma keep_ok h v : head_ok h -> (exists vs, versions h = kept_of vs) -> head_ok (keep h v) /\ key (keep h v) = key h /\ versions (keep h v) = keep_list HISTORY v (versions h).
Proof.
  intros Hh [vs Hvs]. destruct (keep_versions h v Hh) as (H1 & H2 & H3 & H4 & H5 & H6). split_and!; [split; [done|done|]|unfold key, head_name; congruence|done]. rewrite H1, Hvs, <- kept_of_cons. apply kept_descending.
Qed.

Definition rec_ok (r : Z * bytes * Version) : Prop := length r.1.2 <= NAME_MAX.
Definition of_name (d : Z) (n : bytes) (rs : list (Z * bytes * Version)) : list Version := map snd (List.filter (fun r => bool_decide (r.1 = (d, n))) rs).
(** The table of the records met, newest record first. *)
Record mounted (rs : list (Z * bytes * Version)) (hs : list Head) : Prop := {
  m_table : table_ok hs; m_look : forall d n, look hs d n = match of_name d n rs with [] => None | vs => Some (kept_of vs) end
}.
Lemma sorted_insert hs i h h' : sorted hs -> hs !! i = Some h -> key h' = key h -> sorted (<[i := h']> hs).
Proof.
  intros Hs Hi Hk a b x y Hab Ha Hb. assert (forall j z, <[i := h']> hs !! j = Some z -> exists z', hs !! j = Some z' /\ key z = key z') as Hz.
  { intros j z. destruct (decide (i = j)) as [<-|Hne]; [rewrite list_lookup_insert_eq by (by apply lookup_lt_Some in Hi); intros [= <-]; eauto|rewrite list_lookup_insert_ne by done; eauto]. }
  destruct (Hz a x Ha) as (x' & Hx & ->), (Hz b y Hb) as (y' & Hy & ->). by apply (Hs a b).
Qed.
Lemma lookup_add hs i h k : i <= length hs -> add hs i h !! k = if decide (k < i) then hs !! k else if decide (k = i) then Some h else hs !! (k - 1).
Proof.
  intros Hi. unfold add. assert (length (take i hs) = i) as Hl by (rewrite length_take; lia). destruct (decide (k < i)); [rewrite lookup_app_l by lia; by rewrite lookup_take_lt by lia|]. rewrite lookup_app_r, Hl by lia. destruct (decide (k = i)) as [->|]; [by rewrite Nat.sub_diag|].
  replace (k - i) with (S (k - i - 1)) by lia. change ((h :: drop i hs) !! S (k - i - 1)) with (drop i hs !! (k - i - 1)). rewrite lookup_drop. f_equal. lia.
Qed.
Lemma sorted_add hs i h : sorted hs -> i <= length hs -> (forall k x, hs !! k = Some x -> k < i -> ckey (key x) (key h) = Lt) -> (forall k x, hs !! k = Some x -> i <= k -> ckey (key x) (key h) = Gt) -> sorted (add hs i h).
Proof.
  intros Hs Hi Hl Hg a b x y Hab. rewrite !lookup_add by done. repeat case_decide; try lia; intros Ha Hb; simplify_eq.
  - by apply (Hs a b).
  - by apply (Hl a).
  - apply (Hs a (b - 1)); [lia|done|done].
  - rewrite ckey_flip, (Hg (b - 1)); [done|done|lia].
  - apply (Hs (a - 1) (b - 1)); [lia|done|done].
Qed.
Lemma of_name_cons d n d' n' v rs : of_name d n ((d', n', v) :: rs) = if decide ((d', n') = (d, n)) then v :: of_name d n rs else of_name d n rs.
Proof. unfold of_name. cbn [List.filter fst]. case_decide; [by rewrite bool_decide_true|by rewrite bool_decide_false]. Qed.
Lemma keep_version_spec room hs rs d n v : mounted rs hs -> rec_ok (d, n, v) -> match keep_version room hs d n v with
  | Done hs' => mounted ((d, n, v) :: rs) hs' /\ length hs <= length hs'
  | Refuse e => e = Full /\ length hs = room /\ of_name d n rs = []
  | Crash => False
  end.
Proof.
  intros [[Hs Ho] Hlk] Hr. unfold keep_version. destruct (find_in_spec hs d n Hs) as ([i|i] & -> & H); cbn [mbind outcome_bind].
  - destruct H as (h & Hi & Hk). rewrite Hi. cbn [or_crash mbind outcome_bind]. pose proof (look_at hs i h Hs Hi) as Hh. injection Hk as Hd Hn. rewrite Hd, Hn, Hlk in Hh. destruct (of_name d n rs) as [|w ws] eqn:Ef; [done|]. injection Hh as Hh. rewrite Forall_forall in Ho.
    destruct (keep_ok h v (Ho h ltac:(by eapply list_elem_of_lookup_2)) ltac:(by exists (w :: ws))) as (K1 & K2 & K3). assert (sorted (<[i := keep h v]> hs)) as Hs' by (by apply (sorted_insert hs i h)). split; [|rewrite length_insert; lia]. split; [split; [done|]|].
    + apply Forall_forall. intros x [j Hj]%list_elem_of_lookup. destruct (decide (i = j)) as [<-|]; [rewrite list_lookup_insert_eq in Hj by (by apply lookup_lt_Some in Hi); congruence|rewrite list_lookup_insert_ne in Hj by done; apply Ho; by eapply list_elem_of_lookup_2].
    + intros d' n'. rewrite of_name_cons. case_decide as Hk'.
      * injection Hk' as <- <-. rewrite Ef, kept_of_cons, Hh, <- K3. pose proof (look_at (<[i := keep h v]> hs) i (keep h v) Hs' ltac:(rewrite list_lookup_insert_eq by (by apply lookup_lt_Some in Hi); done)) as L. unfold key in K2. injection K2 as E1 E2. by rewrite E1, E2, Hd, Hn in L.
      * rewrite <- Hlk. symmetry. apply look_iff; [done|done|]. intros x Hx. rewrite !list_elem_of_lookup. split; intros [j Hj]; exists j; (destruct (decide (i = j)) as [<-|]; [exfalso|by rewrite list_lookup_insert_ne in * by done]).
        -- rewrite Hi in Hj. injection Hj as <-. unfold key in Hx. congruence.
        -- rewrite list_lookup_insert_eq in Hj by (by apply lookup_lt_Some in Hi). injection Hj as <-. unfold key in *. congruence.
  - destruct H as (Hi & Hl & Hg). assert (forall k h, hs !! k = Some h -> key h <> (d, n)) as Hno. { intros k h Hk E. destruct (decide (k < i)); [pose proof (Hl k h Hk ltac:(done)) as C|pose proof (Hg k h Hk ltac:(lia)) as C]; by rewrite (proj2 (ckey_eq _ _) E) in C. }
    assert (of_name d n rs = []) as Hnone by (pose proof (Hlk d n) as Hx; rewrite (look_none _ _ _ Hno) in Hx; by destruct (of_name d n rs)). destruct (Nat.eqb_spec (length hs) room); [done|]. destruct (head_new_spec d n v Hr) as (K1 & K2 & K3). set (h := head_new d n v) in *.
    assert (sorted (add hs i h)) as Hs' by (apply sorted_add; [done|done| |]; rewrite K2; auto). assert (forall x, x ∈ add hs i h <-> x = h \/ x ∈ hs) as Hin by (intros x; unfold add; rewrite elem_of_app, elem_of_cons; rewrite <- (take_drop i hs) at 3; rewrite elem_of_app; tauto).
    split; [|unfold add; rewrite length_app; cbn [length]; rewrite length_take, length_drop; lia]. split; [split; [done|]|].
    + apply Forall_forall. intros x [->|Hx]%Hin; [done|]. rewrite Forall_forall in Ho. auto.
    + intros d' n'. rewrite of_name_cons. case_decide as Hk'.
      * injection Hk' as <- <-. rewrite Hnone. assert (add hs i h !! i = Some h) as Hat by (rewrite lookup_add by done; rewrite decide_False by lia; by rewrite decide_True). pose proof (look_at _ i h Hs' Hat) as L. pose proof (f_equal fst K2) as E1. pose proof (f_equal snd K2) as E2. cbn [fst snd key] in E1, E2. rewrite E1, E2, K3 in L. rewrite L. unfold kept_of. cbn. by destruct (points v).
      * rewrite <- Hlk. symmetry. apply look_iff; [done|done|]. intros x Hx. rewrite Hin. split; [by right|]. intros [->|]; [congruence|done].
Qed.

(** [keep_version] of each record a mount meets. *)
Definition mount_names (room : nat) (rs : list (Z * bytes * Version)) : outcome SError (list Head) := fold_out (fun hs r => keep_version room hs r.1.1 r.1.2 r.2) [] rs.
Lemma mount_names_spec room rs rs0 hs : mounted rs0 hs -> Forall rec_ok rs -> match fold_out (fun hs r => keep_version room hs r.1.1 r.1.2 r.2) hs rs with Done hs' => mounted (rev rs ++ rs0) hs' | Refuse e => e = Full | Crash => False end.
Proof.
  intros Hm Hr. revert rs0 hs Hm. induction Hr as [|[[d n] v] rs Hx _ IH]; intros rs0 hs Hm; cbn [fold_out]; [done|]. cbn [fst snd]. pose proof (keep_version_spec room hs rs0 d n v Hm Hx) as Hk. destruct (keep_version room hs d n v) as [hs'| |]; cbn [mbind outcome_bind]; [|by destruct Hk|done].
  destruct Hk as [Hk _]. cbn [rev]. rewrite <- app_assoc. by apply IH.
Qed.
Lemma mounted_nil : mounted [] [].
Proof. split; [split; [by intros i j a b ? Hi|constructor]|done]. Qed.
Lemma keep_version_length room hs d n v hs' : keep_version room hs d n v = Done hs' -> length hs' <= S (length hs).
Proof.
  unfold keep_version. destruct (find_in hs d n) as [[i|i]| |]; cbn [mbind outcome_bind]; [| |done|done].
  - destruct (hs !! i); cbn; [|done]. intros [= <-]. rewrite length_insert. lia.
  - destruct (_ =? _); [done|]. intros [= <-]. unfold add. rewrite length_app. cbn [length]. rewrite length_take, length_drop. lia.
Qed.
Lemma mount_enough room rs rs0 hs : mounted rs0 hs -> Forall rec_ok rs -> length hs + length rs <= room -> exists hs', fold_out (fun hs r => keep_version room hs r.1.1 r.1.2 r.2) hs rs = Done hs'.
Proof.
  intros Hm Hr. revert rs0 hs Hm. induction Hr as [|[[d n] v] rs Hx _ IH]; intros rs0 hs Hm Hl; cbn [fold_out length] in *; [by eexists|]. cbn [fst snd]. pose proof (keep_version_spec room hs rs0 d n v Hm Hx) as Hk.
  destruct (keep_version room hs d n v) as [hs'|e|] eqn:E; cbn [mbind outcome_bind]; [|destruct Hk as (_ & ? & _); lia|done]. destruct Hk as [Hk _]. apply (IH _ _ Hk). apply keep_version_length in E. lia.
Qed.
Lemma history_look hs d n : table_ok hs -> valid_name n = true -> history hs d n = match look hs d n with Some vs => Done vs | None => Refuse NotFound end.
Proof.
  intros [Hs _] Hn. unfold history. rewrite Hn. cbn [negb]. destruct (find_in_spec hs d n Hs) as ([i|i] & -> & H); cbn [mbind outcome_bind].
  - destruct H as (h & Hi & Hk). rewrite Hi. cbn. pose proof (look_at hs i h Hs Hi) as L. injection Hk as Hd Hm. rewrite Hd, Hm in L. by rewrite L.
  - destruct H as (_ & Hl & Hg). rewrite look_none; [done|]. intros k h Hk E. destruct (decide (k < i)); [pose proof (Hl k h Hk ltac:(done)) as C|pose proof (Hg k h Hk ltac:(lia)) as C]; by rewrite (proj2 (ckey_eq _ _) E) in C.
Qed.
Lemma of_name_perm d n rs rs' : Permutation rs rs' -> Permutation (of_name d n rs) (of_name d n rs').
Proof. intros H. unfold of_name. apply Permutation_map. induction H; cbn; repeat case_match; eauto using Permutation. Qed.
Lemma kept_perm vs ws : consistent vs -> Permutation vs ws -> kept_of vs = kept_of ws.
Proof. intros Hc Hp. unfold kept_of. by rewrite (newest_perm vs ws). Qed.
(** What the records of a name say of its history. *)
Definition history_of (vs : list Version) : outcome SError (list Version) := match vs with [] => Refuse NotFound | _ => Done (kept_of vs) end.
Lemma history_mounted rs rs' hs d n : mounted rs' hs -> Permutation rs rs' -> consistent (of_name d n rs) -> valid_name n = true -> history hs d n = history_of (of_name d n rs).
Proof.
  intros [Ht Hl] Hp Hc Hn. rewrite history_look, Hl by done. pose proof (of_name_perm d n rs rs' Hp) as Hpn. unfold history_of. rewrite (kept_perm _ _ Hc Hpn). destruct (of_name d n rs') as [|v vs], (of_name d n rs) as [|w ws]; try done; [by apply Permutation_nil_cons in Hpn || by symmetry in Hpn; apply Permutation_nil_cons in Hpn|by apply Permutation_nil_cons in Hpn].
Qed.

(** C31: the order of the records on the medium does not matter. Whatever order a mount meets the records of versions in, it ends with
    the same names: each one's newest versions, at most four, back to its last removal. *)
Theorem mount_order room rs rs' : Forall rec_ok rs -> (forall d n, consistent (of_name d n rs)) -> length rs <= room -> Permutation rs rs' ->
  exists hs hs', mount_names room rs = Done hs /\ mount_names room rs' = Done hs' /\ forall d n, valid_name n = true -> history hs d n = history_of (of_name d n rs) /\ history hs' d n = history_of (of_name d n rs).
Proof.
  intros Hr Hc Hl Hp. assert (Forall rec_ok rs') as Hr' by (by rewrite <- Hp). unfold mount_names. destruct (mount_enough room rs [] [] mounted_nil Hr Hl) as [hs E]. destruct (mount_enough room rs' [] [] mounted_nil Hr') as [hs' E']; [cbn; rewrite <- (Permutation_length Hp); lia|].
  exists hs, hs'. split_and!; [done|done|]. pose proof (mount_names_spec room rs [] [] mounted_nil Hr) as M. rewrite E, app_nil_r in M. pose proof (mount_names_spec room rs' [] [] mounted_nil Hr') as M'. rewrite E', app_nil_r in M'. intros d n Hn. split.
  - apply (history_mounted rs (rev rs)); [done|apply Permutation_rev|done|done].
  - apply (history_mounted rs (rev rs')); [done|rewrite <- Permutation_rev; done|done|done].
Qed.
Lemma mount_order_witness : let r k := (VOLUME, [97%Z], mkVersion k 0 (to_bytes demo_cid) (negb (k =? 2)%Z) 0) in
  exists hs hs', mount_names 8 [r 1; r 2; r 3]%Z = Done hs /\ mount_names 8 [r 3; r 1; r 2]%Z = Done hs' /\ history hs VOLUME [97%Z] = history hs' VOLUME [97%Z].
Proof.
  intros r. destruct (mount_order 8 [r 1; r 2; r 3]%Z [r 3; r 1; r 2]%Z) as (hs & hs' & E & E' & H).
  - repeat constructor; unfold rec_ok; cbn; unfold NAME_MAX; lia.
  - intros d n v w Hv Hw E. unfold of_name in *. apply list_elem_of_In, in_map_iff in Hv as (a & <- & Ha%filter_In), Hw as (b & <- & Hb%filter_In). destruct Ha as [Ha _], Hb as [Hb _]. cbn in Ha, Hb. destruct Ha as [<-|[<-|[<-|[]]]], Hb as [<-|[<-|[<-|[]]]]; cbn in E |- *; try reflexivity; discriminate E.
  - cbn. lia.
  - symmetry. apply (Permutation_cons_append [r 1; r 2]%Z (r 3%Z)).
  - exists hs, hs'. split_and!; [exact E|exact E'|]. destruct (H VOLUME [97%Z] eq_refl) as [-> ->]. reflexivity.
Defined.
