(* ===== verification/StoreIndex.v ===== *)
(** * The block store's index ([blockstore/src/store.rs]: [Entry], [home], [position], [insert], [remove], [limit])

    A hash table with open addressing and removal without tombstones, which a small store fills to the last slot. The theorem: whatever
    blocks enter and leave, the table answers like a finite map from block and domain to record, with the count and the bytes
    exact. In a full table no slot is empty, so the argument cuts the circle of slots at one that no search passes. *)
From S2P Require Import Prelude Cid.
Local Open Scope nat_scope.

Record Entry : Type := mkEntry { lease : Z; lba : Z; len : Z; flags : Z; key : bytes; domain : Z }.
Definition EMPTY : Entry := mkEntry 0 0 0 0 (replicate BYTES 0%Z) 0.
Definition USED : Z := 1.
Definition LIVE : Z := 2.
Definition used (e : Entry) : bool := negb (flags e &&& USED =? 0)%Z.
Definition live (e : Entry) : bool := negb (flags e &&& LIVE =? 0)%Z.
Definition LEASE_NS : Z := 60000000000.

Definition home (k : bytes) (d : Z) (slots : nat) : nat :=
  let h := (of_le (slice k 4 8) ^^^ wrap64 (nth 1 k 0 * 0x9E3779B97F4A7C15) ^^^ wrap64 (d * 0xC2B2AE3D27D4EB4F))%Z in
  Z.to_nat (h mod Z.of_nat slots).

(** The slot with the key, or the empty slot where it would go (the number of slots when none is empty). *)
Fixpoint probe (fuel : nat) (t : list Entry) (k : bytes) (d : Z) (at_ : nat) : nat + nat :=
  match fuel with
  | O => inr (length t)
  | S fuel =>
      let e := nth at_ t EMPTY in
      if negb (used e) then inr at_ else
      if bool_decide (key e = k) && (domain e =? d)%Z then inl at_ else
      probe fuel t k d (if at_ + 1 =? length t then 0 else at_ + 1)
  end.
Definition position (t : list Entry) (k : bytes) (d : Z) : nat + nat :=
  if length t =? 0 then inr 0 else probe (length t) t k d (home k d (length t)).
Definition limit (t : list Entry) : nat := let n := length t in if 64 <? n then n - n / 8 else n.

(** The index of a store: the slots, the blocks in them and their bytes. *)
Record Index : Type := mkIndex { slots : list Entry; count : Z; total : Z }.
Definition insert (ix : Index) (now : Z) (k : bytes) (d : Z) (l : Z) (n : Z) : option Index :=
  match position (slots ix) k d with
  | inl _ => None
  | inr at_ => if at_ <? length (slots ix) then Some (mkIndex (<[at_ := mkEntry now (wrap32 l) (wrap16 n) USED k d]> (slots ix)) (count ix + 1) (total ix + n)) else None
  end.

(** The loop of [remove]: it ends when it is round, so the number of slots is fuel enough. *)
Fixpoint remove_loop (fuel : nat) (t : list Entry) (at_ hole next : nat) : list Entry * nat :=
  match fuel with
  | O => (t, hole)
  | S fuel =>
      if (next =? at_) || negb (used (nth next t EMPTY)) then (t, hole) else
      let h := home (key (nth next t EMPTY)) (domain (nth next t EMPTY)) (length t) in
      let stays := if hole <? next then (hole <? h) && (h <=? next) else (hole <? h) || (h <=? next) in
      let '(t, hole) := if stays then (t, hole) else (<[hole := nth next t EMPTY]> t, next) in
      remove_loop fuel t at_ hole ((next + 1) mod length t)
  end.
Definition remove (ix : Index) (at_ : nat) : Index :=
  let '(t, hole) := remove_loop (length (slots ix)) (slots ix) at_ at_ ((at_ + 1) mod length (slots ix)) in
  mkIndex (<[hole := EMPTY]> t) (count ix - 1) (total ix - len (nth at_ (slots ix) EMPTY)).
Definition retained (now : Z) (e : Entry) : bool := live e || (now <? saturating_add (lease e) LEASE_NS)%Z.

(** ** Slots on a circle *)
Definition dist (n a b : nat) : nat := if a <=? b then b - a else b + n - a.
Definition step (n a : nat) : nat := if a + 1 =? n then 0 else a + 1.
(** The place of a slot when the circle is cut after [c]. *)
Definition place (n c q : nat) : nat := dist n (step n c) q.
Ltac circle := unfold place, step, dist in *; repeat match goal with
  | H : context [?a <=? ?b] |- _ => destruct (Nat.leb_spec a b) | |- context [?a <=? ?b] => destruct (Nat.leb_spec a b)
  | H : context [?a =? ?b] |- _ => destruct (Nat.eqb_spec a b) | |- context [?a =? ?b] => destruct (Nat.eqb_spec a b) end; try lia.
Lemma place_lt n c q : c < n -> q < n -> place n c q < n.
Proof. intros. circle. Qed.
Lemma place_inj n c p q : c < n -> p < n -> q < n -> place n c p = place n c q -> p = q.
Proof. intros. circle. Qed.
Lemma place_step n c q : c < n -> q < n -> place n c q + 1 < n -> place n c (step n q) = place n c q + 1.
Proof. intros. circle. Qed.
Lemma place_wrap n c q : c < n -> q < n -> place n c q + 1 = n -> q = c.
Proof. intros. circle. Qed.
(** Where [c] is not passed on the way from [h] to [p], the way is a stretch of places. *)
Lemma way_linear n c h p q : c < n -> h < n -> p < n -> q < n -> ~ dist n h c < dist n h p -> place n c h <= place n c p /\ (dist n h q < dist n h p <-> place n c h <= place n c q < place n c p).
Proof. intros. circle. Qed.
Lemma way_not_cut n c h p : c < n -> h < n -> p < n -> place n c h <= place n c p -> ~ dist n h c < dist n h p.
Proof. intros. circle. Qed.

(** ** What the table keeps *)
Definition home_of (n : nat) (e : Entry) : nat := home (key e) (domain e) n.
Lemma home_slot_lt n k d : 0 < n -> home k d n < n.
Proof. intros H. unfold home. match goal with |- Z.to_nat (?h mod _) < _ => pose proof (Z.mod_pos_bound h (Z.of_nat n) ltac:(lia)) end. lia. Qed.
Definition at_slot (t : list Entry) (p : nat) (e : Entry) : Prop := t !! p = Some e /\ used e = true.
Definition full_to (t : list Entry) (a b : nat) : Prop := forall q x, t !! q = Some x -> dist (length t) a q < dist (length t) a b -> used x = true.
(** From its home to where an entry is no slot is empty; one slot is on no entry's way; a key is there once. *)
Record table (t : list Entry) : Prop := {
  t_ways : forall p e, at_slot t p e -> full_to t (home_of (length t) e) p;
  t_cut : exists c, c < length t /\ forall p e, at_slot t p e -> ~ dist (length t) (home_of (length t) e) c < dist (length t) (home_of (length t) e) p;
  t_once : forall p q e e', at_slot t p e -> at_slot t q e' -> key e = key e' -> domain e = domain e' -> p = q
}.
Lemma nth_at (t : list Entry) p : p < length t -> t !! p = Some (nth p t EMPTY).
Proof. intros H. destruct (lookup_lt_is_Some_2 t p H) as [x Hx]. rewrite Hx. f_equal. rewrite nth_lookup_default, Hx. done. Qed.
Lemma at_slot_lt t p e : at_slot t p e -> p < length t.
Proof. intros [H _]. by apply lookup_lt_Some in H. Qed.
Lemma at_slot_nth t p : p < length t -> used (nth p t EMPTY) = true -> at_slot t p (nth p t EMPTY).
Proof. intros H Hu. split; [by apply nth_at|done]. Qed.

Lemma dist_step n h p : h < n -> p < n -> dist n h p + 1 < n -> dist n h (step n p) = dist n h p + 1.
Proof. intros. circle. Qed.
Lemma dist_inj n h p q : h < n -> p < n -> q < n -> dist n h p = dist n h q -> p = q.
Proof. intros. circle. Qed.
Lemma circle_lt n h p : h < n -> p < n -> dist n h p < n.
Proof. intros. circle. Qed.
Lemma dist_self n h : dist n h h = 0.
Proof. circle. Qed.
Lemma step_lt n p : p < n -> step n p < n.
Proof. intros. circle. Qed.

(** [j] slots from the home on are full and hold other keys. *)
Lemma probe_spec t k d fuel p : 0 < length t -> p < length t -> fuel + dist (length t) (home k d (length t)) p = length t ->
  (forall q x, t !! q = Some x -> dist (length t) (home k d (length t)) q < dist (length t) (home k d (length t)) p -> used x = true /\ ~ (key x = k /\ domain x = d)) ->
  match probe fuel t k d p with
  | inl q => exists e, at_slot t q e /\ key e = k /\ domain e = d
  | inr q => (forall x r, t !! r = Some x -> dist (length t) (home k d (length t)) r < dist (length t) (home k d (length t)) q \/ q = length t -> used x = true /\ ~ (key x = k /\ domain x = d)) /\
      (q = length t \/ q < length t /\ used (nth q t EMPTY) = false)
  end.
Proof.
  intros H0. pose proof (home_slot_lt (length t) k d H0) as Hh. set (h := home k d (length t)) in *. revert p. induction fuel as [|fuel IH]; intros p Hp Hf Hrun; [pose proof (circle_lt _ h p Hh Hp); lia|]. cbn [probe].
  destruct (used (nth p t EMPTY)) eqn:Hu; cbn [negb].
  - destruct (bool_decide (key (nth p t EMPTY) = k) && (domain (nth p t EMPTY) =? d)%Z) eqn:Hk.
    + apply andb_prop in Hk as [Hk%bool_decide_eq_true Hd%Z.eqb_eq]. exists (nth p t EMPTY). split; [by apply at_slot_nth|done].
    + assert (~ (key (nth p t EMPTY) = k /\ domain (nth p t EMPTY) = d)) as Hno. { intros [E1 E2]. by rewrite bool_decide_true, (proj2 (Z.eqb_eq _ _)) in Hk. } fold (step (length t) p).
      assert (forall q x, t !! q = Some x -> dist (length t) h q < dist (length t) h p + 1 -> used x = true /\ ~ (key x = k /\ domain x = d)) as Hrun'.
      { intros q x Hq Hd. destruct (decide (dist (length t) h q = dist (length t) h p)) as [E|]; [|apply (Hrun q x Hq); lia]. apply dist_inj in E as ->; [|done|by apply lookup_lt_Some in Hq|done]. rewrite nth_at in Hq by done. injection Hq as <-. done. }
      pose proof (circle_lt _ h p Hh Hp) as Hdl. destruct fuel as [|fuel].
      * cbn [probe]. split; [|by left]. intros x r Hr _. apply (Hrun' r x Hr). pose proof (circle_lt _ h r Hh ltac:(by apply lookup_lt_Some in Hr)). lia.
      * assert (dist (length t) h (step (length t) p) = dist (length t) h p + 1) as Es by (apply dist_step; [done|done|lia]). apply IH; [by apply step_lt|lia|]. intros q x Hq. rewrite Es. by apply Hrun'.
  - split; [|right; done]. intros x r Hr [Hd| ->]; [by apply (Hrun r x)|lia].
Qed.
Lemma position_spec t k d : table t -> 0 < length t -> match position t k d with
  | inl q => exists e, at_slot t q e /\ key e = k /\ domain e = d
  | inr q => (forall p e, at_slot t p e -> ~ (key e = k /\ domain e = d)) /\ (q = length t /\ (forall p x, t !! p = Some x -> used x = true) \/ q < length t /\ used (nth q t EMPTY) = false /\ full_to t (home k d (length t)) q)
  end.
Proof.
  intros [Hw _ _] H0. unfold position. destruct (Nat.eqb_spec (length t) 0); [lia|]. pose proof (home_slot_lt (length t) k d H0) as Hh. pose proof (probe_spec t k d (length t) (home k d (length t)) H0 Hh) as H. rewrite dist_self in H. specialize (H ltac:(lia) ltac:(lia)).
  destruct (probe _ _ _ _ _) as [q|q]; [done|]. destruct H as [Hrun Hq]. destruct Hq as [->|[Hq Hu]].
  - split; [|left; split; [done|]; intros p x Hx; by apply (Hrun x p Hx); right]. intros p e [Hp _]. apply (Hrun e p Hp). by right.
  - split; [|right; split_and!; [done|done|]; intros r x Hr Hd; by apply (Hrun x r Hr); left]. intros p e [Hp Hue] [Hk Hd]. destruct (decide (dist (length t) (home k d (length t)) p < dist (length t) (home k d (length t)) q)) as [Hlt|Hge]; [by apply (Hrun e p Hp (or_introl Hlt))|].
    destruct (decide (p = q)) as [->|Hne]; [rewrite nth_at in Hp by done; congruence|]. pose proof (Hw p e (conj Hp Hue) q (nth q t EMPTY) (nth_at t q Hq)) as Hx. unfold home_of in Hx. rewrite Hk, Hd in Hx. rewrite Hx in Hu; [done|].
    destruct (decide (dist (length t) (home k d (length t)) p = dist (length t) (home k d (length t)) q)) as [E|]; [|lia]. by apply dist_inj in E; [|done|by apply lookup_lt_Some in Hp|done].
Qed.

(** ** An entry goes in *)
Lemma at_insert t q e p x : q < length t -> at_slot (<[q := e]> t) p x <-> (p = q /\ x = e /\ used e = true) \/ (p <> q /\ at_slot t p x).
Proof.
  intros Hq. unfold at_slot. destruct (decide (p = q)) as [->|Hne].
  - rewrite list_lookup_insert_eq by done. split; [intros [[= <-] Hu]; by left|intros [(_ & -> & Hu)|[? _]]; done].
  - rewrite list_lookup_insert_ne by done. naive_solver.
Qed.
Lemma table_insert t q e : table t -> q < length t -> used (nth q t EMPTY) = false -> used e = true -> full_to t (home_of (length t) e) q -> (forall p x, at_slot t p x -> ~ (key x = key e /\ domain x = domain e)) -> table (<[q := e]> t).
Proof.
  intros [Hw _ Ho] Hq Hf Hu Hfull Hnew. assert (forall a b, full_to t a b -> full_to (<[q := e]> t) a b) as Hmono.
  { intros a b H r x Hr Hd. rewrite length_insert in Hd. destruct (decide (q = r)) as [<-|Hne]; [rewrite list_lookup_insert_eq in Hr by done; congruence|rewrite list_lookup_insert_ne in Hr by done; by apply (H r)]. }
  assert (forall p x, at_slot t p x -> ~ dist (length t) (home_of (length t) x) q < dist (length t) (home_of (length t) x) p) as Hcut by (intros p x Hx Hd; pose proof (Hw p x Hx q (nth q t EMPTY) (nth_at t q Hq) Hd); congruence).
  split; rewrite ?length_insert.
  - intros p x Hx. apply at_insert in Hx as [(-> & -> & _)|[_ Hx]]; [|apply Hmono; by apply Hw| done]. by apply Hmono.
  - exists q. split; [done|]. intros p x Hx. apply at_insert in Hx as [(-> & -> & _)|[_ Hx]]; [lia|by apply Hcut|done].
  - intros p p' x x' Hx Hx' Hk Hd. apply at_insert in Hx as [(-> & -> & _)|[_ Hx]]; [| |done]; apply at_insert in Hx' as [(-> & -> & _)|[_ Hx']]; try done.
    + exfalso. by apply (Hnew p' x' Hx').
    + exfalso. by apply (Hnew p x Hx).
    + by apply (Ho p p' x x').
Qed.

(** ** An entry goes out *)
Lemma step_mod n p : p < n -> (p + 1) mod n = step n p.
Proof. intros H. unfold step. destruct (Nat.eqb_spec (p + 1) n) as [->|]; [apply Nat.Div0.mod_same|apply Nat.mod_small; lia]. Qed.
Section removal.
Context (n c : nat) (Hc : c < n).
Local Abbreviation y := (place n c).
Local Abbreviation hm := (home_of n).
(** The table while the hole is at [hole], which still shows the entry that left it. *)
Definition linear (t : list Entry) (hole : nat) : Prop := forall p e, at_slot t p e -> p <> hole -> y (hm e) <= y p /\ forall q x, t !! q = Some x -> y (hm e) <= y q < y p -> used x = true.
Definition crosses (hole p : nat) (e : Entry) : Prop := y (hm e) <= y hole < y p.
Definition others (t : list Entry) (hole : nat) (e : Entry) : Prop := exists p, p <> hole /\ at_slot t p e.
Definition apart (t : list Entry) (hole : nat) : Prop := forall p q e e', p <> hole -> q <> hole -> at_slot t p e -> at_slot t q e' -> key e = key e' -> domain e = domain e' -> p = q.
Record moving (t : list Entry) (hole z : nat) : Prop := {
  mv_length : length t = n; mv_hole : hole < n; mv_here : exists e, at_slot t hole e; mv_z : y hole < z <= n;
  mv_linear : linear t hole; mv_cross : forall p e, at_slot t p e -> p <> hole -> crosses hole p e -> z <= y p; mv_apart : apart t hole
}.
Record moved (t : list Entry) (hole : nat) : Prop := { md_length : length t = n; md_hole : hole < n; md_linear : linear t hole; md_cross : forall p e, at_slot t p e -> p <> hole -> ~ crosses hole p e; md_apart : apart t hole }.

Lemma stays_iff hole next h : hole < n -> next < n -> h < n -> hole <> next -> (if hole <? next then (hole <? h) && (h <=? next) else (hole <? h) || (h <=? next)) = true <-> dist n h next < dist n hole next.
Proof. intros. unfold dist. destruct (Nat.ltb_spec hole next), (Nat.ltb_spec hole h), (Nat.leb_spec h next), (Nat.leb_spec hole next); cbn; split; intros; try lia; try done. Qed.
Lemma dist_place a p : a < n -> p < n -> y a <= y p -> dist n a p = y p - y a.
Proof. intros. circle. Qed.
Lemma dist_place_wrap a p : a < n -> p < n -> y p < y a -> dist n a p = y p + n - y a.
Proof. intros. circle. Qed.
Lemma hm_lt e : hm e < n.
Proof using Hc. apply home_slot_lt. lia. Qed.
Lemma loop_rest fuel t at_ hole next : moved t hole -> at_ < n -> next < n -> y at_ <= y hole -> y next <= y at_ -> remove_loop fuel t at_ hole next = (t, hole).
Proof using Hc.
  intros Hm Hat. revert next. induction fuel as [|fuel IH]; intros next Hn H1 H2; [done|]. cbn [remove_loop]. destruct Hm as [Hl Hh Hlin Hx Ha]. destruct (Nat.eqb_spec next at_) as [|Hne]; [done|]. cbn [orb]. destruct (used (nth next t EMPTY)) eqn:Hu; cbn [negb]; [|done].
  assert (y next <> y at_) by (intros E; by apply place_inj in E). assert (next <> hole) as Hnh by (intros ->; lia). destruct (Hlin next _ (at_slot_nth t next ltac:(lia) Hu) Hnh) as [Hy _]. set (e := nth next t EMPTY) in *. pose proof (hm_lt e) as Hhe.
  rewrite Hl. change (home (key e) (domain e) n) with (hm e). pose proof (place_lt n c hole Hc Hh). pose proof (place_lt n c at_ Hc Hat).
  rewrite (proj2 (stays_iff hole next (hm e) Hh Hn Hhe ltac:(done))) by (rewrite dist_place, dist_place_wrap by (done || lia); lia). cbv iota beta. rewrite Hl, step_mod by done. apply IH; [by apply step_lt|done|]. rewrite place_step by (done || lia). lia.
Qed.
Lemma moving_step t hole z next : moving t hole z -> next < n -> y next = z -> used (nth next t EMPTY) = true -> y hole < y (hm (nth next t EMPTY)) -> moving t hole (z + 1).
Proof using Hc.
  intros [Hl Hh He Hz Hlin Hx Ha] Hn Hy Hu Hs. pose proof (place_lt n c next Hc Hn). split; try done; [lia|]. intros p e Hp Hne Hcr. pose proof (Hx p e Hp Hne Hcr). destruct (decide (y p = z)) as [E|]; [|lia]. rewrite <- Hy in E. pose proof (at_slot_lt _ _ _ Hp). apply place_inj in E as ->; [|done|lia|done].
  destruct Hp as [Hp _]. rewrite nth_at in Hp by lia. injection Hp as <-. unfold crosses in Hcr. lia.
Qed.
Lemma moving_move t hole z next : moving t hole z -> next < n -> y next = z -> used (nth next t EMPTY) = true -> y (hm (nth next t EMPTY)) <= y hole ->
  moving (<[hole := nth next t EMPTY]> t) next (z + 1) /\ forall e, others (<[hole := nth next t EMPTY]> t) next e <-> others t hole e.
Proof using Hc.
  intros [Hl Hh (e0 & He0) Hz Hlin Hx Ha] Hn Hy Hu Hs. set (e := nth next t EMPTY) in *. pose proof (place_lt n c next Hc Hn) as Hpl. assert (hole <> next) as Hne by (intros ->; lia). assert (at_slot t next e) as Hnext by (apply at_slot_nth; [lia|done]).
  assert (forall q x, <[hole := e]> t !! q = Some x -> (forall w, t !! q = Some w -> used w = true) -> used x = true) as Hus. { intros q x Hq Hw. destruct (decide (hole = q)) as [<-|]; [rewrite list_lookup_insert_eq in Hq by lia; congruence|rewrite list_lookup_insert_ne in Hq by done; by apply Hw]. }
  assert (forall p x, at_slot (<[hole := e]> t) p x -> p <> next -> (p = hole /\ x = e) \/ (p <> hole /\ at_slot t p x)) as Hcase. { intros p x Hp _. apply at_insert in Hp as [(-> & -> & _)|[? ?]]; [by left|by right|lia]. }
  split; [split|].
  - by rewrite length_insert.
  - done.
  - exists e. apply at_insert; [lia|]. by right.
  - lia.
  - intros p x Hp Hpn. destruct (Hcase p x Hp Hpn) as [[-> ->]|[Hph Hp']].
    + split; [done|]. intros q w Hq Hw. apply (Hus q w Hq). intros w' Hw'. apply (proj2 (Hlin next e Hnext (not_eq_sym Hne)) q w' Hw'). lia.
    + destruct (Hlin p x Hp' Hph) as [H1 H2]. split; [done|]. intros q w Hq Hw. apply (Hus q w Hq). intros w' Hw'. by apply (H2 q w').
  - intros p x Hp Hpn Hcr. unfold crosses in Hcr. lia.
  - intros p q x x' Hp Hq Hpx Hqx Hk Hd. destruct (Hcase p x Hpx Hp) as [[-> ->]|[Hp1 Hp2]], (Hcase q x' Hqx Hq) as [[-> ->]|[Hq1 Hq2]]; [done| | |by apply (Ha p q x x')].
    + exfalso. apply Hq. symmetry. apply (Ha next q e x'); auto.
    + exfalso. apply Hp. apply (Ha p next x e); auto.
  - intros x. split.
    + intros (p & Hp & Hpx). destruct (Hcase p x Hpx Hp) as [[-> ->]|[? ?]]; [by exists next|by exists p].
    + intros (p & Hp & Hpx). destruct (decide (p = next)) as [->|Hpn].
      * exists hole. split; [done|]. apply at_insert; [lia|]. left. destruct Hpx as [Hpx Hux]. rewrite nth_at in Hpx by lia. injection Hpx as <-. done.
      * exists p. split; [done|]. apply at_insert; [lia|]. by right.
Qed.
Lemma loop_moves fuel t at_ hole next z : moving t hole z -> at_ < n -> next < n -> y at_ <= y hole -> (z < n -> y next = z) -> (z = n -> y next = 0) -> n <= z + fuel ->
  let '(t', hole') := remove_loop fuel t at_ hole next in moved t' hole' /\ forall e, others t' hole' e <-> others t hole e.
Proof using Hc.
  revert t hole next z. induction fuel as [|fuel IH]; intros t hole next z Hm Hat Hn H1 H2 H3 Hf; pose proof Hm as [Hl Hh He Hz Hlin Hx Ha].
  - cbn. split; [|done]. split; try done. intros p e Hp Hne Hcr. pose proof (Hx p e Hp Hne Hcr). pose proof (place_lt n c p Hc ltac:(apply at_slot_lt in Hp; lia)). lia.
  - destruct (decide (z = n)) as [->|Hzn].
    { assert (moved t hole) as Hmd. { split; try done. intros p e Hp Hne Hcr. pose proof (Hx p e Hp Hne Hcr). pose proof (place_lt n c p Hc ltac:(apply at_slot_lt in Hp; lia)). lia. }
      rewrite (loop_rest (S fuel) t at_ hole next Hmd Hat Hn H1) by (rewrite H3 by done; lia). done. }
    specialize (H2 ltac:(lia)). cbn [remove_loop]. destruct (Nat.eqb_spec next at_) as [->|_]; [lia|]. cbn [orb]. assert (next <> hole) as Hnh by (intros ->; lia). destruct (used (nth next t EMPTY)) eqn:Hu; cbn [negb].
    2: { split; [|done]. split; try done. intros p e Hp Hne Hcr. pose proof (Hx p e Hp Hne Hcr). pose proof (at_slot_lt _ _ _ Hp). unfold crosses in Hcr. destruct (decide (y p = y next)) as [E|].
      - apply place_inj in E as ->; [|done|lia|done]. destruct Hp as [Hp Hup]. rewrite nth_at in Hp by lia. congruence.
      - pose proof (proj2 (Hlin p e Hp Hne) next _ (nth_at t next ltac:(lia))) as Hux. rewrite Hux in Hu; [done|lia]. }
    rewrite Hl. set (e := nth next t EMPTY) in *. change (home (key e) (domain e) n) with (hm e). pose proof (hm_lt e) as Hhe. pose proof (proj1 (Hlin next e (at_slot_nth t next ltac:(lia) Hu) Hnh)) as Hye. pose proof (stays_iff hole next (hm e) Hh Hn Hhe (not_eq_sym Hnh)) as Hst. rewrite !dist_place in Hst by (done || lia).
    assert (z + 1 < n -> y (step n next) = z + 1) as Hnext1 by (intros Hlt; rewrite place_step by (done || lia); lia). assert (z + 1 = n -> y (step n next) = 0) as Hnext2. { intros E. assert (next = c) as -> by (apply (place_wrap n c next Hc Hn); lia). clear - Hc. circle. }
    destruct (if hole <? next then _ else _) eqn:Es; cbv iota beta; rewrite ?length_insert, Hl, step_mod by done.
    + pose proof (proj1 Hst eq_refl). assert (moving t hole (z + 1)) as Hm' by (apply (moving_step t hole z next Hm Hn H2 Hu); fold e; lia). exact (IH t hole (step n next) (z + 1) Hm' Hat (step_lt _ _ Hn) H1 Hnext1 Hnext2 ltac:(lia)).
    + assert (y (hm e) <= y hole) as Hle. { destruct (Nat.le_gt_cases (y (hm e)) (y hole)); [done|]. assert (false = true) by (apply Hst; lia). done. }
      destruct (moving_move t hole z next Hm Hn H2 Hu Hle) as [Hm' Ho']. pose proof (IH (<[hole := e]> t) next (step n next) (z + 1) Hm' Hat (step_lt _ _ Hn) ltac:(lia) Hnext1 Hnext2 ltac:(lia)) as H. destruct (remove_loop fuel _ _ _ _) as [t' hole']. destruct H as [H4 H5]. split; [done|]. intros x. by rewrite H5.
Qed.
End removal.
Definition present (t : list Entry) (e : Entry) : Prop := exists p, at_slot t p e.
Lemma moved_table n c t hole : c < n -> moved n c t hole -> table (<[hole := EMPTY]> t) /\ forall e, present (<[hole := EMPTY]> t) e <-> others t hole e.
Proof.
  intros Hc [Hl Hh Hlin Hx Ha]. assert (forall p e, at_slot (<[hole := EMPTY]> t) p e <-> p <> hole /\ at_slot t p e) as Hat. { intros p e. rewrite at_insert by lia. split; [intros [(_ & _ & ?)|?]; done|by right]. }
  assert (forall e, home_of n e < n) as Hhm by (intros; apply home_slot_lt; lia). split; [split|].
  - intros p e [Hp He]%Hat q x Hq Hd. rewrite length_insert, Hl in *. pose proof (at_slot_lt _ _ _ He) as Hlt. apply lookup_lt_Some in Hq as Hql. rewrite length_insert, Hl in *. destruct (Hlin p e He Hp) as [H1 H2]. pose proof (way_not_cut n c _ p Hc (Hhm e) Hlt H1) as Hnc.
    destruct (way_linear n c (home_of n e) p q Hc (Hhm e) Hlt Hql Hnc) as [_ Hw]. apply Hw in Hd. destruct (decide (hole = q)) as [<-|]; [exfalso; by apply (Hx p e He Hp)|]. rewrite list_lookup_insert_ne in Hq by done. by apply (H2 q x Hq).
  - exists c. rewrite length_insert, Hl. split; [done|]. intros p e [Hp He]%Hat. pose proof (at_slot_lt _ _ _ He) as Hlt. rewrite Hl in *. apply way_not_cut; [done|apply Hhm|done|]. by apply (Hlin p e).
  - intros p q e e' [Hp He]%Hat [Hq He']%Hat. by apply (Ha p q e e').
  - intros e. unfold present, others. setoid_rewrite Hat. done.
Qed.
Lemma table_moving t c a e : table t -> at_slot t a e -> c < length t -> (forall p e, at_slot t p e -> ~ dist (length t) (home_of (length t) e) c < dist (length t) (home_of (length t) e) p) -> moving (length t) c t a (place (length t) c a + 1).
Proof.
  intros [Hw _ Ho] Hae Hc Hcut. pose proof (at_slot_lt _ _ _ Hae) as Ha. assert (forall e, home_of (length t) e < length t) as Hhm by (intros; apply home_slot_lt; lia). pose proof (place_lt _ c a Hc Ha). split; try done; [by exists e|lia| | |].
  - intros p x Hp _. pose proof (at_slot_lt _ _ _ Hp) as Hlt. pose proof (Hcut p x Hp) as Hnc. split; [exact (proj1 (way_linear _ c _ p p Hc (Hhm x) Hlt Hlt Hnc))|]. intros q w Hq Hy. apply lookup_lt_Some in Hq as Hql. apply (Hw p x Hp q w Hq). exact (proj2 (proj2 (way_linear _ c _ p q Hc (Hhm x) Hlt Hql Hnc)) Hy).
  - intros p x _ _ Hcr. unfold crosses in Hcr. lia.
  - intros p q x x' _ _. by apply Ho.
Qed.
Lemma remove_table ix a e : table (slots ix) -> at_slot (slots ix) a e -> let ix' := remove ix a in length (slots ix') = length (slots ix) /\ table (slots ix') /\ (forall x, present (slots ix') x <-> others (slots ix) a x) /\ count ix' = (count ix - 1)%Z /\ total ix' = (total ix - len e)%Z.
Proof.
  intros Ht Hae. pose proof (at_slot_lt _ _ _ Hae) as Ha. destruct (t_cut _ Ht) as (c & Hc & Hcut). pose proof (table_moving _ c a e Ht Hae Hc Hcut) as Hm. unfold remove. set (n := length (slots ix)) in *. pose proof (place_lt n c a Hc Ha).
  pose proof (loop_moves n c Hc n (slots ix) a a (step n a) (place n c a + 1) Hm Ha (step_lt _ _ Ha) ltac:(lia)) as Hl. rewrite (step_mod n) by done.
  specialize (Hl ltac:(intros; by apply place_step) ltac:(intros E; assert (a = c) as -> by (by apply (place_wrap n c a Hc Ha)); clear - Hc; circle) ltac:(lia)). destruct (remove_loop n (slots ix) a a (step n a)) as [t' hole]. destruct Hl as [Hmd Ho]. destruct (moved_table n c t' hole Hc Hmd) as [H1 H2]. cbn [slots count total].
  split_and!; [rewrite length_insert; apply Hmd|done|intros x; by rewrite H2|done|]. destruct Hae as [Hae _]. rewrite nth_at in Hae by done. by injection Hae as ->.
Qed.

(** ** The index as a map *)
#[global] Instance entry_eq : EqDecision Entry.
Proof. solve_decision. Defined.
Definition keyed (e : Entry) : bytes * Z := (key e, domain e).
Definition with_lease (now : Z) (e : Entry) : Entry := mkEntry now (lba e) (len e) (flags e) (key e) (domain e).
Definition with_live (e : Entry) : Entry := mkEntry (lease e) (lba e) (len e) (flags e ||| LIVE) (key e) (domain e).
(** What the store does to its index: a block put or met (a new one unless the index is at its limit, a lease begun again otherwise), one
    that leaves, one marked as retained. *)
Inductive op : Type := Put (now : Z) (k : bytes) (d l n : Z) | Del (k : bytes) (d : Z) | Mark (k : bytes) (d : Z).
Definition update_at (ix : Index) (at_ : nat) (f : Entry -> Entry) : Index := mkIndex (<[at_ := f (nth at_ (slots ix) EMPTY)]> (slots ix)) (count ix) (total ix).
Definition run_op (ix : Index) (o : op) : option Index :=
  match o with
  | Put now k d l n => match position (slots ix) k d with
      | inl i => Some (update_at ix i (with_lease now))
      | inr _ => if (count ix =? Z.of_nat (limit (slots ix)))%Z then Some ix else insert ix now k d l n
      end
  | Del k d => match position (slots ix) k d with inl i => Some (remove ix i) | inr _ => Some ix end
  | Mark k d => match position (slots ix) k d with inl i => Some (update_at ix i with_live) | inr _ => Some ix end
  end.
Definition run_map (room : nat) (m : gmap (bytes * Z) Entry) (o : op) : gmap (bytes * Z) Entry :=
  match o with
  | Put now k d l n => match m !! (k, d) with
      | Some e => <[(k, d) := with_lease now e]> m
      | None => if size m =? room then m else <[(k, d) := mkEntry now l n USED k d]> m
      end
  | Del k d => delete (k, d) m
  | Mark k d => match m !! (k, d) with Some e => <[(k, d) := with_live e]> m | None => m end
  end.
Definition op_ok (o : op) : Prop := match o with Put _ _ _ l n => (0 <= l < W32)%Z /\ (0 <= n < W16)%Z | _ => True end.
Definition lengths (m : gmap (bytes * Z) Entry) : Z := map_fold (fun _ e acc => len e + acc)%Z 0%Z m.
Record simulates (ix : Index) (m : gmap (bytes * Z) Entry) : Prop := {
  s_table : table (slots ix); s_slots : 0 < length (slots ix); s_present : forall e, present (slots ix) e <-> m !! keyed e = Some e; s_keyed : forall k e, m !! k = Some e -> keyed e = k /\ used e = true;
  s_count : count ix = Z.of_nat (size m); s_total : total ix = lengths m
}.
Lemma lengths_insert m k e : m !! k = None -> lengths (<[k := e]> m) = (len e + lengths m)%Z.
Proof. intros H. unfold lengths. rewrite map_fold_insert_L; [done| |done]. intros. lia. Qed.
Lemma lengths_delete m k e : m !! k = Some e -> lengths (delete k m) = (lengths m - len e)%Z.
Proof. intros H. pose proof (lengths_insert (delete k m) k e ltac:(by rewrite lookup_delete_eq)) as E. rewrite insert_delete_id in E by done. lia. Qed.
Lemma lengths_replace m k e e' : m !! k = Some e -> len e' = len e -> lengths (<[k := e']> m) = lengths m.
Proof. intros H E. rewrite <- insert_delete_eq, lengths_insert, (lengths_delete m k e), E by (done || by rewrite lookup_delete_eq). lia. Qed.

Lemma position_map ix m k d : simulates ix m -> match position (slots ix) k d with
  | inl p => exists e, at_slot (slots ix) p e /\ keyed e = (k, d) /\ m !! (k, d) = Some e
  | inr p => m !! (k, d) = None /\ (size m < length (slots ix) -> p < length (slots ix) /\ used (nth p (slots ix) EMPTY) = false /\ full_to (slots ix) (home k d (length (slots ix))) p)
  end.
Proof.
  intros [Ht H0 Hp Hk _ _]. pose proof (position_spec _ k d Ht H0) as H. destruct (position (slots ix) k d) as [p|p].
  - destruct H as (e & He & <- & <-). exists e. split_and!; [done|done|]. apply Hp. by exists p.
  - destruct H as [Hno Hq]. split.
    + destruct (m !! (k, d)) as [e|] eqn:E; [|done]. destruct (Hk _ _ E) as [Ek _]. rewrite <- Ek in E. apply Hp in E as [q Hq']. exfalso. apply (Hno q e Hq'). by injection Ek.
    + intros Hsz. destruct Hq as [[_ Hall]|Hq]; [exfalso|done]. set (t := slots ix) in *. assert (NoDup (map keyed t)) as Hnd.
      { apply NoDup_alt. intros i j x Hi Hj. rewrite list_lookup_fmap in Hi, Hj. destruct (t !! i) as [a|] eqn:Ea; [|done]. destruct (t !! j) as [b|] eqn:Eb; [|done]. cbn in Hi, Hj. assert (keyed a = keyed b) as Hab by congruence. unfold keyed in Hab. injection Hab as Hab1 Hab2. apply (t_once _ Ht i j a b); [split; [done|by apply (Hall i)]|split; [done|by apply (Hall j)]|done|done]. }
      assert (list_to_set (map keyed t) ⊆ dom m) as Hsub. { intros x Hx. apply elem_of_list_to_set, list_elem_of_lookup in Hx as [i Hi]. rewrite list_lookup_fmap in Hi. destruct (t !! i) as [a|] eqn:Ea; [|done]. injection Hi as <-. apply elem_of_dom. exists a. apply Hp. exists i. split; [done|by apply (Hall i)]. }
      apply subseteq_size in Hsub. rewrite size_list_to_set, length_map, size_dom in Hsub by done. lia.
Qed.

Lemma table_update t p e e' : table t -> at_slot t p e -> keyed e' = keyed e -> used e' = true -> table (<[p := e']> t) /\ forall x, present (<[p := e']> t) x <-> x = e' \/ (x <> e /\ present t x).
Proof.
  intros [Hw (c & Hc & Hcut) Ho] He Hk Hu. pose proof (at_slot_lt _ _ _ He) as Hp. unfold keyed in Hk. injection Hk as Hk Hd. assert (forall q x, at_slot (<[p := e']> t) q x -> exists x', at_slot t q x' /\ key x' = key x /\ domain x' = domain x) as Hold.
  { intros q x Hq. apply at_insert in Hq as [(-> & -> & _)|[_ Hq]]; [by exists e|by exists x|done]. }
  assert (forall n x x', key x' = key x -> domain x' = domain x -> home_of n x' = home_of n x) as Hhome by (intros n x x' E1 E2; unfold home_of; by rewrite E1, E2). split; [split; rewrite ?length_insert|].
  - intros q x (x' & Hq & E1 & E2)%Hold r w Hr Hd'. rewrite length_insert in Hd'. rewrite <- (Hhome _ x x' E1 E2) in Hd'. destruct (decide (p = r)) as [<-|]; [rewrite list_lookup_insert_eq in Hr by done; congruence|]. rewrite list_lookup_insert_ne in Hr by done. by apply (Hw q x' Hq r).
  - exists c. split; [done|]. intros q x (x' & Hq & E1 & E2)%Hold. rewrite <- (Hhome _ x x' E1 E2). by apply Hcut.
  - intros q r x y (x' & Hq & E1 & E2)%Hold (y' & Hr & E3 & E4)%Hold Exy Dxy. apply (Ho q r x' y'); congruence.
  - intros x. unfold present. split.
    + intros (q & Hq). apply at_insert in Hq as [(-> & -> & _)|[Hqp Hq]]; [by left| |done]. right. split; [|by exists q]. intros ->. apply Hqp. by apply (Ho q p e e).
    + intros [->|[Hx (q & Hq)]]; [exists p; apply at_insert; [done|by left]|]. exists q. apply at_insert; [done|]. right. split; [|done]. intros ->. apply Hx. destruct Hq, He. congruence.
Qed.
Lemma sim_update ix m p e f : simulates ix m -> at_slot (slots ix) p e -> (forall x, used x = true -> keyed (f x) = keyed x /\ used (f x) = true /\ len (f x) = len x) -> simulates (update_at ix p f) (<[keyed e := f e]> m).
Proof.
  intros [Ht H0 Hpr Hk Hc Hs] He Hf. pose proof (at_slot_lt _ _ _ He) as Hp. pose proof He as [Hnth Hue]. rewrite nth_at in Hnth by done. injection Hnth as Hnth. destruct (Hf e Hue) as (F1 & F2 & F3). pose proof (table_update _ p e (f e) Ht He F1 F2) as [T1 T2]. assert (m !! keyed e = Some e) as Hme by (apply Hpr; by exists p).
  unfold update_at. rewrite Hnth. split; cbn [slots count total]; [done|by rewrite length_insert| | | |].
  - intros x. rewrite T2, Hpr. destruct (decide (keyed e = keyed x)) as [E|E].
    + rewrite <- E, lookup_insert_eq, Hme. split; [intros [->|[? [= <-]]]; done|intros [= <-]; by left].
    + rewrite lookup_insert_ne by done. split; [intros [->|[_ ?]]; [congruence|done]|]. intros Hx. right. split; [by intros ->|done].
  - intros k x. rewrite lookup_insert_Some. intros [[<- <-]|[_ Hx]]; [by split|by apply Hk].
  - rewrite map_size_insert_Some by (by rewrite Hme). done.
  - rewrite (lengths_replace m _ e) by done. done.
Qed.
Lemma sim_insert ix m now k d l n : simulates ix m -> (0 <= l < W32)%Z -> (0 <= n < W16)%Z -> m !! (k, d) = None -> size m < length (slots ix) -> exists ix', insert ix now k d l n = Some ix' /\ length (slots ix') = length (slots ix) /\ simulates ix' (<[(k, d) := mkEntry now l n USED k d]> m).
Proof.
  intros Hsim Hl Hn Hm Hsz. pose proof (position_map ix m k d Hsim) as H. unfold insert. destruct (position (slots ix) k d) as [p|p]; [destruct H as (e & _ & _ & ?); congruence|]. destruct H as [_ H]. destruct (H Hsz) as (Hp & Hu & Hfull). rewrite (proj2 (Nat.ltb_lt _ _)) by done.
  unfold wrap32, wrap16. rewrite !Z.mod_small by done. set (e := mkEntry now l n USED k d). destruct Hsim as [Ht H0 Hpr Hk Hc Hs]. assert (forall q x, at_slot (slots ix) q x -> ~ (key x = k /\ domain x = d)) as Hno. { intros q x Hq [<- <-]. assert (m !! keyed x = Some x) by (apply Hpr; by exists q). unfold keyed in *. congruence. }
  eexists. split; [done|]. cbn [slots]. split; [by rewrite length_insert|]. split; cbn [slots count total]; [by apply table_insert|by rewrite length_insert| | | |].
  - intros x. change (k, d) with (keyed e). unfold present. setoid_rewrite (at_insert _ _ _ _ _ Hp). destruct (decide (keyed e = keyed x)) as [E|E].
    + rewrite <- E, lookup_insert_eq. split; [|intros [= <-]; exists p; by left]. intros (q & [(_ & -> & _)|[_ Hq]]); [done|]. exfalso. apply (Hno q x Hq). unfold keyed in E. by injection E.
    + rewrite lookup_insert_ne by done. rewrite <- Hpr. split.
      * intros (q & [(_ & -> & _)|[_ Hq]]); [done|by exists q].
      * intros (q & Hq). exists q. right. split; [|done]. intros ->. destruct Hq as [Hq Hux]. rewrite nth_at in Hq by done. congruence.
  - intros k' x. rewrite lookup_insert_Some. intros [[<- <-]|[_ Hx]]; [done|by apply Hk].
  - rewrite map_size_insert_None by done. lia.
  - rewrite lengths_insert by done. cbn [len e]. lia.
Qed.
Lemma sim_remove ix m p e : simulates ix m -> at_slot (slots ix) p e -> length (slots (remove ix p)) = length (slots ix) /\ simulates (remove ix p) (delete (keyed e) m).
Proof.
  intros [Ht H0 Hpr Hk Hc Hs] He. destruct (remove_table ix p e Ht He) as (R1 & R2 & R3 & R4 & R5). cbv zeta in *. split; [done|]. assert (m !! keyed e = Some e) as Hme by (apply Hpr; by exists p). split; [done|by rewrite R1| | | |].
  - intros x. rewrite R3. unfold others. split.
    + intros (q & Hq & Hx). assert (m !! keyed x = Some x) as Hmx by (apply Hpr; by exists q). rewrite lookup_delete_ne; [done|]. intros E. apply Hq. unfold keyed in E. injection E as E1 E2. by apply (t_once _ Ht q p x e).
    + rewrite lookup_delete_Some. intros [Hne Hx]. apply Hpr in Hx as [q Hq]. exists q. split; [|done]. intros ->. apply Hne. destruct Hq, He. congruence.
  - intros k x [_ Hx]%lookup_delete_Some. by apply Hk.
  - rewrite map_size_delete_Some by (by rewrite Hme). assert (size m <> 0) by (intros E%map_size_empty_inv; rewrite E in Hme; done). lia.
  - rewrite (lengths_delete m _ e) by done. lia.
Qed.
Lemma limit_le t : limit t <= length t.
Proof. unfold limit. case_match; lia. Qed.
Lemma sim_op ix m o : simulates ix m -> op_ok o -> size m <= limit (slots ix) -> exists ix', run_op ix o = Some ix' /\ length (slots ix') = length (slots ix) /\ simulates ix' (run_map (limit (slots ix)) m o) /\ size (run_map (limit (slots ix)) m o) <= limit (slots ix).
Proof.
  intros Hsim Ho Hsz. destruct o as [now k d l n|k d|k d]; cbn [run_op run_map]; pose proof (position_map ix m k d Hsim) as H; destruct (position (slots ix) k d) as [p|p].
  - destruct H as (e & He & Hk & Hm). rewrite Hm. eexists. split; [done|]. split; [cbn; by rewrite length_insert|]. rewrite <- Hk. split; [apply sim_update; [done|done|by intros x Hx]|]. rewrite map_size_insert_Some; [done|]. by rewrite Hk, Hm.
  - destruct H as [Hm _]. rewrite Hm, (s_count _ _ Hsim). pose proof (limit_le (slots ix)). destruct (Z.eqb_spec (Z.of_nat (size m)) (Z.of_nat (limit (slots ix)))) as [E|E].
    + rewrite (proj2 (Nat.eqb_eq _ _)) by lia. exists ix. done.
    + rewrite (proj2 (Nat.eqb_neq _ _)) by lia. destruct Ho as [Hl Hn]. destruct (sim_insert ix m now k d l n Hsim Hl Hn Hm ltac:(lia)) as (ix' & H1 & H2 & H3). exists ix'. split_and!; [done|done|done|]. rewrite map_size_insert_None by done. lia.
  - destruct H as (e & He & Hk & Hm). destruct (sim_remove ix m p e Hsim He) as [H1 H2]. rewrite Hk in H2. eexists. split; [done|]. split_and!; [done|done|]. rewrite map_size_delete_Some by (by rewrite Hm). lia.
  - destruct H as [Hm _]. rewrite delete_id by done. by exists ix.
  - destruct H as (e & He & Hk & Hm). rewrite Hm. eexists. split; [done|]. split; [cbn; by rewrite length_insert|]. rewrite <- Hk. split; [|rewrite map_size_insert_Some; [done|]; by rewrite Hk, Hm]. apply sim_update; [done|done|]. intros x Hx. split_and!; [done| |done].
    unfold used, with_live, USED, LIVE in *. cbn [flags]. apply negb_true_iff, Z.eqb_neq. apply negb_true_iff, Z.eqb_neq in Hx. rewrite Z.land_lor_distr_l. cbn. by rewrite Z.lor_0_r.
  - destruct H as [Hm _]. rewrite Hm. by exists ix.
Qed.
Lemma empty_simulates n : 0 < n -> simulates (mkIndex (replicate n EMPTY) 0 0) ∅.
Proof.
  intros Hn. assert (forall p e, ~ at_slot (replicate n EMPTY) p e) as Hno by (intros p e [[-> _]%lookup_replicate Hu]; done). split; cbn [slots count total]; [|by rewrite length_replicate| |done|done|done].
  - split; [by intros p e ?%Hno| |by intros p q e e' ?%Hno]. exists 0. rewrite length_replicate. split; [done|]. by intros p e ?%Hno.
  - intros e. split; [by intros [p ?%Hno]|done].
Qed.
Fixpoint run_ops (ix : Index) (os : list op) : option Index := match os with [] => Some ix | o :: os => ix ← run_op ix o; run_ops ix os end.
(** The entry the index answers a block with. *)
Definition lookup_index (ix : Index) (k : bytes) (d : Z) : option Entry := match position (slots ix) k d with inl p => slots ix !! p | inr _ => None end.

(** C30: the index is a map. Whatever blocks are put, leave and are marked, an index of any size never panics and answers every search
    as the map of them does, with the count and the bytes exact; a new block is left out only at the limit. *)
Theorem index_is_map n os : 0 < n -> Forall op_ok os -> let room := limit (replicate n EMPTY) in let m := foldl (run_map room) ∅ os in
  exists ix, run_ops (mkIndex (replicate n EMPTY) 0 0) os = Some ix /\ (forall k d, lookup_index ix k d = m !! (k, d)) /\ count ix = Z.of_nat (size m) /\ total ix = lengths m.
Proof.
  intros Hn Hos room m. set (ix0 := mkIndex (replicate n EMPTY) 0 0). assert (forall ix m0, simulates ix m0 -> length (slots ix) = n -> size m0 <= room -> exists ix', run_ops ix os = Some ix' /\ simulates ix' (foldl (run_map room) m0 os)) as Hrun.
  { clear ix0 m. induction Hos as [|o os Ho _ IH]; intros ix m0 Hsim Hl Hsz; cbn [run_ops foldl]; [by exists ix|]. assert (limit (slots ix) = room) as Hlim by (unfold room, limit; by rewrite Hl, length_replicate). destruct (sim_op ix m0 o Hsim Ho ltac:(lia)) as (ix' & -> & H1 & H2 & H3). rewrite Hlim in *. cbn [mbind option_bind]. apply IH; [done|lia|done]. }
  destruct (Hrun ix0 ∅ (empty_simulates n Hn) (length_replicate _ _)) as (ix & E & Hsim); [rewrite map_size_empty; lia|]. exists ix. fold m in Hsim. split_and!; [done| |apply Hsim|apply Hsim].
  intros k d. unfold lookup_index. pose proof (position_map ix m k d Hsim) as H. destruct (position (slots ix) k d) as [p|p]; [|by destruct H]. destruct H as (e & [He _] & _ & ->). done.
Qed.
Lemma index_is_map_witness : exists ix, run_ops (mkIndex (replicate 2 EMPTY) 0 0) [Put 0 [1; 2]%Z 0 7 5; Put 0 [1; 3]%Z 0 9 6; Del [1; 2]%Z 0] = Some ix /\ lookup_index ix [1; 3]%Z 0 = Some (mkEntry 0 9 6 USED [1; 3]%Z 0) /\ count ix = 1%Z.
Proof.
  destruct (index_is_map 2 [Put 0 [1; 2]%Z 0 7 5; Put 0 [1; 3]%Z 0 9 6; Del [1; 2]%Z 0]) as (ix & E & Hl & Hc & _).
  - lia.
  - repeat constructor; cbn; try lia; try (unfold W32, W16; lia).
  - exists ix. split; [exact E|]. split; [rewrite Hl; reflexivity|rewrite Hc; reflexivity].
Defined.
