(* ===== verification/StoreMedium.v ===== *)
(** * The block store's medium ([blockstore/src/store.rs]: [Device], [Store], room, writing, opening and erasing records)

    The state of a mounted store and what its requests and its scans do to the medium: the runs of blank sectors, a record sealed
    and written into one, a record read back and opened, a record erased behind a marker. The medium and the cipher are
    parameters. *)
From S2P Require Import Prelude Outcome Sha256 Cid Cbor Dag DagTree Directory Journal StoreRecords StoreNames StoreIndex.
Local Open Scope nat_scope.

(** ** The medium: sectors, read and written some at a time *)
(** [read] gives the bytes of [n] sectors, or nothing where the device fails. *)
Class Medium (D : Type) : Type := {
  sectors : D -> Z;
  writable : D -> bool;
  dread : Z -> nat -> D -> option bytes * D;
  dwrite : Z -> bytes -> D -> bool * D;
  dflush : D -> bool * D
}.

Definition BUFFER : nat := Z.to_nat RECORD_SECTORS * SECTOR.
Definition DOMAINS : nat := 32.
Definition DEFERRED : nat := 64.
Definition RECOVERIES : nat := 4.

Record Extent : Type := mkExtent { start : Z; run_len : Z }.
Record Domain : Type := mkDomain { d_id : Z; d_owner : Z; forgotten : bool; d_records : Z; d_keys : Keys; key_at : Z; tomb_at : Z }.
(** [Keys::NONE]: of no volume. *)
Definition KEYS_NONE : Keys := mkKeys (replicate 32 0%Z) (replicate 32 0%Z).
Record Scrubbed : Type := mkScrubbed { s_records : Z; s_corrupt : Z; s_damaged : Z }.
Record Collected : Type := mkCollected { c_blocks : Z; c_names : Z; c_sectors : Z; c_free : Z }.

(** What a mount fixes: how many names, pins and runs fit, the quota, the volume's keys, and where its key came from. *)
Record Config : Type := mkConfig { heads_room : nat; pins_room : nat; holes_room : nat; quota : Z; keys : Keys; made : option bool; kept_key : option (bytes * bytes) }.

(** [struct Store]. [ix] is [index], [count] and [bytes]; lists stand for the slices up to their counts ([names], [pinned], [runs],
    [remembered]); [cur] is the domain requests work in. The buffer for walks, taken and put back within each, is left out. *)
Record Store (D : Type) : Type := mkStore {
  cfg : Config; dev : D; ix : Index; heads : list Head; pins : list Pin; next_pin : Z; holes : list Extent; buffer : bytes;
  now : Z; end_ : Z; corrupt : Z; damaged : Z; recoveries : list Z; recovered : Z; cur : Z; domains : list (option Domain);
  deferred : list (Z * Z * Z); waiting : Z; scrub_at : Z; scrubbing : Scrubbed; unread : option Cid
}.
Arguments mkStore {D} _ _ _ _ _ _ _ _ _ _ _ _ _ _ _ _ _ _ _ _ _.
Arguments cfg {D} _.
Arguments dev {D} _.
Arguments ix {D} _.
Arguments heads {D} _.
Arguments pins {D} _.
Arguments next_pin {D} _.
Arguments holes {D} _.
Arguments buffer {D} _.
Arguments now {D} _.
Arguments end_ {D} _.
Arguments corrupt {D} _.
Arguments damaged {D} _.
Arguments recoveries {D} _.
Arguments recovered {D} _.
Arguments cur {D} _.
Arguments domains {D} _.
Arguments deferred {D} _.
Arguments waiting {D} _.
Arguments scrub_at {D} _.
Arguments scrubbing {D} _.
Arguments unread {D} _.

Section store.
Context {D : Type} `{!Medium D} `{!Crypto}.
Local Abbreviation Store := (Store D).
Definition set_dev (x : D) (s : Store) : Store := mkStore (cfg s) x (ix s) (heads s) (pins s) (next_pin s) (holes s) (buffer s) (now s) (end_ s) (corrupt s) (damaged s) (recoveries s) (recovered s) (cur s) (domains s) (deferred s) (waiting s) (scrub_at s) (scrubbing s) (unread s).
Definition set_ix (x : Index) (s : Store) : Store := mkStore (cfg s) (dev s) x (heads s) (pins s) (next_pin s) (holes s) (buffer s) (now s) (end_ s) (corrupt s) (damaged s) (recoveries s) (recovered s) (cur s) (domains s) (deferred s) (waiting s) (scrub_at s) (scrubbing s) (unread s).
Definition set_heads (x : list Head) (s : Store) : Store := mkStore (cfg s) (dev s) (ix s) x (pins s) (next_pin s) (holes s) (buffer s) (now s) (end_ s) (corrupt s) (damaged s) (recoveries s) (recovered s) (cur s) (domains s) (deferred s) (waiting s) (scrub_at s) (scrubbing s) (unread s).
Definition set_pins (x : list Pin) (s : Store) : Store := mkStore (cfg s) (dev s) (ix s) (heads s) x (next_pin s) (holes s) (buffer s) (now s) (end_ s) (corrupt s) (damaged s) (recoveries s) (recovered s) (cur s) (domains s) (deferred s) (waiting s) (scrub_at s) (scrubbing s) (unread s).
Definition set_next_pin (x : Z) (s : Store) : Store := mkStore (cfg s) (dev s) (ix s) (heads s) (pins s) x (holes s) (buffer s) (now s) (end_ s) (corrupt s) (damaged s) (recoveries s) (recovered s) (cur s) (domains s) (deferred s) (waiting s) (scrub_at s) (scrubbing s) (unread s).
Definition set_holes (x : list Extent) (s : Store) : Store := mkStore (cfg s) (dev s) (ix s) (heads s) (pins s) (next_pin s) x (buffer s) (now s) (end_ s) (corrupt s) (damaged s) (recoveries s) (recovered s) (cur s) (domains s) (deferred s) (waiting s) (scrub_at s) (scrubbing s) (unread s).
Definition set_buffer (x : bytes) (s : Store) : Store := mkStore (cfg s) (dev s) (ix s) (heads s) (pins s) (next_pin s) (holes s) x (now s) (end_ s) (corrupt s) (damaged s) (recoveries s) (recovered s) (cur s) (domains s) (deferred s) (waiting s) (scrub_at s) (scrubbing s) (unread s).
Definition set_now (x : Z) (s : Store) : Store := mkStore (cfg s) (dev s) (ix s) (heads s) (pins s) (next_pin s) (holes s) (buffer s) x (end_ s) (corrupt s) (damaged s) (recoveries s) (recovered s) (cur s) (domains s) (deferred s) (waiting s) (scrub_at s) (scrubbing s) (unread s).
Definition set_end (x : Z) (s : Store) : Store := mkStore (cfg s) (dev s) (ix s) (heads s) (pins s) (next_pin s) (holes s) (buffer s) (now s) x (corrupt s) (damaged s) (recoveries s) (recovered s) (cur s) (domains s) (deferred s) (waiting s) (scrub_at s) (scrubbing s) (unread s).
Definition set_corrupt (x : Z) (s : Store) : Store := mkStore (cfg s) (dev s) (ix s) (heads s) (pins s) (next_pin s) (holes s) (buffer s) (now s) (end_ s) x (damaged s) (recoveries s) (recovered s) (cur s) (domains s) (deferred s) (waiting s) (scrub_at s) (scrubbing s) (unread s).
Definition set_damaged (x : Z) (s : Store) : Store := mkStore (cfg s) (dev s) (ix s) (heads s) (pins s) (next_pin s) (holes s) (buffer s) (now s) (end_ s) (corrupt s) x (recoveries s) (recovered s) (cur s) (domains s) (deferred s) (waiting s) (scrub_at s) (scrubbing s) (unread s).
Definition set_recoveries (x : list Z) (s : Store) : Store := mkStore (cfg s) (dev s) (ix s) (heads s) (pins s) (next_pin s) (holes s) (buffer s) (now s) (end_ s) (corrupt s) (damaged s) x (recovered s) (cur s) (domains s) (deferred s) (waiting s) (scrub_at s) (scrubbing s) (unread s).
Definition set_recovered (x : Z) (s : Store) : Store := mkStore (cfg s) (dev s) (ix s) (heads s) (pins s) (next_pin s) (holes s) (buffer s) (now s) (end_ s) (corrupt s) (damaged s) (recoveries s) x (cur s) (domains s) (deferred s) (waiting s) (scrub_at s) (scrubbing s) (unread s).
Definition set_cur (x : Z) (s : Store) : Store := mkStore (cfg s) (dev s) (ix s) (heads s) (pins s) (next_pin s) (holes s) (buffer s) (now s) (end_ s) (corrupt s) (damaged s) (recoveries s) (recovered s) x (domains s) (deferred s) (waiting s) (scrub_at s) (scrubbing s) (unread s).
Definition set_domains (x : list (option Domain)) (s : Store) : Store := mkStore (cfg s) (dev s) (ix s) (heads s) (pins s) (next_pin s) (holes s) (buffer s) (now s) (end_ s) (corrupt s) (damaged s) (recoveries s) (recovered s) (cur s) x (deferred s) (waiting s) (scrub_at s) (scrubbing s) (unread s).
Definition set_deferred (x : list (Z * Z * Z)) (s : Store) : Store := mkStore (cfg s) (dev s) (ix s) (heads s) (pins s) (next_pin s) (holes s) (buffer s) (now s) (end_ s) (corrupt s) (damaged s) (recoveries s) (recovered s) (cur s) (domains s) x (waiting s) (scrub_at s) (scrubbing s) (unread s).
Definition set_waiting (x : Z) (s : Store) : Store := mkStore (cfg s) (dev s) (ix s) (heads s) (pins s) (next_pin s) (holes s) (buffer s) (now s) (end_ s) (corrupt s) (damaged s) (recoveries s) (recovered s) (cur s) (domains s) (deferred s) x (scrub_at s) (scrubbing s) (unread s).
Definition set_scrub_at (x : Z) (s : Store) : Store := mkStore (cfg s) (dev s) (ix s) (heads s) (pins s) (next_pin s) (holes s) (buffer s) (now s) (end_ s) (corrupt s) (damaged s) (recoveries s) (recovered s) (cur s) (domains s) (deferred s) (waiting s) x (scrubbing s) (unread s).
Definition set_scrubbing (x : Scrubbed) (s : Store) : Store := mkStore (cfg s) (dev s) (ix s) (heads s) (pins s) (next_pin s) (holes s) (buffer s) (now s) (end_ s) (corrupt s) (damaged s) (recoveries s) (recovered s) (cur s) (domains s) (deferred s) (waiting s) (scrub_at s) x (unread s).
Definition set_unread (x : option Cid) (s : Store) : Store := mkStore (cfg s) (dev s) (ix s) (heads s) (pins s) (next_pin s) (holes s) (buffer s) (now s) (end_ s) (corrupt s) (damaged s) (recoveries s) (recovered s) (cur s) (domains s) (deferred s) (waiting s) (scrub_at s) (scrubbing s) x.

Abbreviation SM := (STE SError Store).
Definition gets {A} (f : Store -> A) : SM A := fun s => (Done (f s), s).
Definition modify (f : Store -> Store) : SM unit := fun s => (Done tt, f s).
(** The device's calls: false is the error [Device]. *)
Definition read_at (at_ : Z) (n : nat) : SM unit := fun s =>
  let '(r, d) := dread at_ n (dev s) in
  match r with
  | Some b => (Done tt, set_buffer (overwrite (buffer s) 0 b) (set_dev d s))
  | None => (Refuse Device, set_dev d s)
  end.
Definition write_at (at_ : Z) (b : bytes) : SM unit := fun s =>
  let '(ok, d) := dwrite at_ b (dev s) in (if ok : bool then Done tt else Refuse Device, set_dev d s).
Definition flush : SM unit := fun s => let '(ok, d) := dflush (dev s) in (if ok : bool then Done tt else Refuse Device, set_dev d s).

(** ** Runs of blank sectors *)
Definition hole (from n : Z) (s : Store) : Store :=
  if (0 <? n)%Z && (length (holes s) <? holes_room (cfg s)) then set_holes (holes s ++ [mkExtent from n]) s else s.
(** A run, if one is open, ends at [here]. *)
Definition occupied (run : option Z) (here n : Z) (s : Store) : Store :=
  let s := match run with Some from => hole from (here - from) s | None => s end in
  set_end (Z.max (end_ s) (here + n)) s.
Definition release (from n : Z) (s : Store) : Store :=
  if length (holes s) =? holes_room (cfg s) then s else
  let at_ := default (length (holes s)) (Prelude.position (fun h => (from <? start h)%Z) (holes s)) in
  set_holes (take at_ (holes s) ++ mkExtent from n :: drop at_ (holes s)) s.
Definition find_room (n : Z) (s : Store) : option Z := start <$> List.find (fun h => (n <=? run_len h)%Z) (holes s).
Definition claim (at_ n : Z) (s : Store) : Store :=
  let s := match Prelude.position (fun h => (start h =? at_)%Z) (holes s) with
    | Some i =>
        match holes s !! i with
        | Some h =>
            let h := mkExtent (start h + n) (run_len h - n) in
            if (run_len h =? 0)%Z then set_holes (delete i (holes s)) s else set_holes (<[i := h]> (holes s)) s
        | None => s
        end
    | None => s
    end in
  set_end (Z.max (end_ s) (at_ + n)) s.

(** ** Keys and records *)
Definition slot_of (id : Z) (s : Store) : option nat := Prelude.position (fun d => match d with Some d => (d_id d =? id)%Z | None => false end) (domains s).
Definition domain_of (id : Z) (s : Store) : option Domain := k ← slot_of id s; d ← domains s !! k; d.
Definition keys_for (id : Z) (s : Store) : option Keys :=
  if (id =? VOLUME)%Z || (id =? KEYS)%Z then Some (keys (cfg s)) else
  if (id =? RECOVERY)%Z then None else
  d ← domain_of id s; if forgotten d then None else Some (d_keys d).

(** [write_under]: the record of [n] bytes at [buffer[FRAME..]]. *)
Definition write_under (at_ : Z) (n : nat) (id : Z) (k : Keys) : SM unit :=
  b ← gets buffer;
  let '(b, c) := seal_frame k b at_ n id in
  _ ← modify (set_buffer b);
  _ ← modify (fun s => if (at_ + 1 <=? scrub_at s)%Z && (scrub_at s <? at_ + c)%Z then set_scrub_at (at_ + c) s else s);
  _ ← write_at at_ (take (Z.to_nat c * SECTOR) b);
  flush.
Definition write_sealed (at_ : Z) (n : nat) (id : Z) : SM unit :=
  k ← gets (keys_for id);
  k ← lift (or_refuse k NotFound);
  write_under at_ n id k.
Definition write_record (at_ : Z) (record : bytes) (id : Z) : SM unit :=
  _ ← modify (fun s => set_buffer (overwrite (buffer s) FRAME record) s);
  write_sealed at_ (length record) id.
(** [open]: the record of [n] sectors, at the start of the buffer. *)
Definition open_at (at_ : Z) (n : nat) (id : Z) : SM bool :=
  k ← gets (keys_for id);
  _ ← read_at at_ n;
  b ← gets buffer;
  let '(b, ok) := open_frame k b at_ n id in
  _ ← modify (set_buffer b);
  mret ok.

(** [erase]: a marker first, zeros after it, and zeros over it last; [k] sectors at a time. *)
Fixpoint zero_out (fuel : nat) (at_ to : Z) : SM unit :=
  match fuel with
  | O => lift Crash
  | S fuel =>
      if (at_ <? to)%Z then
        let k := Z.min (to - at_) RECORD_SECTORS in
        b ← gets buffer;
        _ ← write_at at_ (take (Z.to_nat k * SECTOR) b);
        zero_out fuel (at_ + k) to
      else mret tt
  end.
Definition erase (at_ n : Z) : SM unit :=
  _ ← write_record at_ (free_marker n) VOLUME;
  _ ← modify (set_buffer (replicate BUFFER 0%Z));
  _ ← zero_out (Z.to_nat n + 1) (at_ + 1) (at_ + n);
  _ ← flush;
  b ← gets buffer;
  _ ← write_at at_ (take SECTOR b);
  flush.

(** [typed]: a block is what its type says. *)
Definition is_done {E A} (o : outcome E A) : outcome SError bool := match o with Done _ => Done true | Refuse _ => Done false | Crash => Crash end.
Definition typed_block (c : Codec) (data : bytes) : outcome SError bool :=
  match c with
  | Raw => Done true
  | DagCbor =>
      a ← is_done (Dag.decode data);
      if a : bool then Done true else
      b ← is_done (Directory.decode data);
      if b : bool then Done true else is_done (Journal.decode data)
  end.
Definition record_sectors (n : Z) : Z := sealed_sectors (Z.of_nat HEADER + n).
(** [intact]: whether the opened record in the buffer is the block [c] of [n] bytes. *)
Definition intact (c : Cid) (n : nat) : SM bool :=
  b ← gets buffer;
  data ← lift (or_crash (get_slice b HEADER n));
  if bool_decide (parse_header (take SECTOR b) = Some (c, n)) && matches c data then lift (typed_block (codec c) data) else mret false.
Definition verify (at_ : Z) (c : Cid) (n : nat) : SM bool :=
  id ← gets cur;
  opened ← open_at at_ (Z.to_nat (record_sectors (Z.of_nat n))) id;
  whole ← (if opened : bool then intact c n else mret false);
  _ ← modify (fun s => if whole : bool then s else set_corrupt (corrupt s + 1) s);
  mret whole.
End store.
