(* ===== verification/StorePass.v ===== *)
(** * The block store's scans ([blockstore/src/store.rs]: [get], [walk], [pass], [record], [mount_pass], [collect], [room])

    A scan reads the medium window by window and meets its records one after another: a mount builds the tables from them, a
    sweep frees those that nothing retains. A collection marks what names and pins retain by walking each object through the
    store itself, then sweeps. *)
From S2P Require Import Prelude Outcome Sha256 Cid Cbor Dag DagTree Directory Journal Tour StoreRecords StoreNames StoreIndex StoreMedium.
Local Open Scope nat_scope.

Section store.
Context {D : Type} `{!Medium D} `{!Crypto}.
Local Abbreviation Store := (StoreMedium.Store D).
Local Abbreviation SM := (STE SError Store).

(** ** Blocks read *)
Definition slot (s : Store) (i : nat) : StoreIndex.Entry := nth i (slots (ix s)) StoreIndex.EMPTY.
Definition find_block (c : Cid) (s : Store) : nat + nat := StoreIndex.position (slots (ix s)) (to_bytes c) (cur s).
Definition contains (c : Cid) (s : Store) : bool := match find_block c s with inl _ => true | inr _ => false end.
(** [get], into a buffer of [room] bytes: the bytes copied there. *)
Definition get_block (c : Cid) (room : Z) : SM bytes :=
  p ← gets (find_block c);
  match p with
  | inr _ => fail NotFound
  | inl at_ =>
      e ← gets (fun s => slot s at_);
      let n := Z.to_nat (len e) in
      if (room <? len e)%Z then fail TooLarge else
      whole ← verify (lba e) c n;
      if whole : bool then b ← gets buffer; lift (or_crash (get_slice b HEADER n)) else
      _ ← modify (fun s => set_ix (StoreIndex.remove (ix s) at_) s);
      fail Corrupt
  end.
Definition check_block (c : Cid) : SM bool :=
  p ← gets (find_block c);
  match p with
  | inr _ => fail NotFound
  | inl at_ =>
      e ← gets (fun s => slot s at_);
      whole ← verify (lba e) c (Z.to_nat (len e));
      if whole : bool then mret true else
      _ ← modify (fun s => set_ix (StoreIndex.remove (ix s) at_) s);
      mret false
  end.

(** ** The store as blocks, for its walks: they read, and put nothing *)
Definition as_blocks {A} (f : SError -> Store -> Cbor.Error * Store) (m : SM A) : ST Store A := fun s =>
  match m s with
  | (Done a, s) => (Done a, s)
  | (Refuse e, s) => let '(e, s) := f e s in (Refuse e, s)
  | (Crash, s) => (Crash, s)
  end.
Definition blocks_get (c : Cid) (room : Z) : ST Store bytes := as_blocks (fun e s =>
  match e with
  | StoreNames.NotFound => (Cbor.NotFound, set_unread (Some c) s)
  | StoreNames.Corrupt => (Cbor.Corrupt, set_unread (Some c) s)
  | _ => (Cbor.Store, s)
  end) (get_block c room).
Definition blocks_has (c : Cid) : ST Store bool := fun s => (Done (contains c s), s).
Definition reading : Blocks Store := {| put _ _ s := (Refuse Cbor.Store, s); get := blocks_get; has := blocks_has |}.

Definition steps (s : Store) : Z := 4 * Z.of_nat (limit (slots (ix s))) + 64.
Definition walk_error (e : Cbor.Error) : SError :=
  match e with Cbor.NotFound => Incomplete | Cbor.Corrupt => Corrupt | Cbor.Store => Device | _ => Invalid end.
Definition walk (root : Cid) (visit : Cid -> ST Store unit) : SM Z := fun s =>
  let n := steps s in
  let '(o, s) := Tour.walk (Blocks0:=reading) root n visit (set_unread None s) in
  (Journal.map_err walk_error o, s).

(** ** Domains *)
(** The loop of [drop_domain] and of a sweep over the index: a removal shifts later entries back, so the slot is looked at again. *)
Fixpoint drop_entries (fuel : nat) (drop_it : StoreIndex.Entry -> bool) (i : nat) (x : Index) : Index :=
  match fuel with
  | O => x
  | S fuel =>
      if i <? length (slots x) then
        if used (nth i (slots x) StoreIndex.EMPTY) && drop_it (nth i (slots x) StoreIndex.EMPTY)
        then drop_entries fuel drop_it i (StoreIndex.remove x i) else drop_entries fuel drop_it (i + 1) x
      else x
  end.
Definition drop_all (drop_it : StoreIndex.Entry -> bool) (x : Index) : Index := drop_entries (2 * length (slots x) + 1) drop_it 0 x.
Definition drop_domain (id : Z) (s : Store) : Store :=
  let s := set_heads (List.filter (fun h => negb (h_domain h =? id)%Z) (heads s)) s in
  let s := set_pins (List.filter (fun p => negb (pin_domain p =? id)%Z) (pins s)) s in
  set_ix (drop_all (fun e => (domain e =? id)%Z) (ix s)) s.

Definition key_found (at_ : Z) (found : Z * Z * Z * bytes) : SM unit := fun s =>
  let '(id, state, owner, key) := found in
  let known := match slot_of id s with
    | Some k => Some (k, s)
    | None => k ← Prelude.position (fun d : option Domain => bool_decide (d = None)) (domains s); Some (k, set_domains (<[k := Some (mkDomain id owner false 0 KEYS_NONE 0 0)]> (domains s)) s)
    end in
  match known with
  | None => (Refuse Full, s)
  | Some (k, s) =>
      match domains s !! k with
      | Some (Some d) =>
          if (state =? KEY_GONE)%Z then
            let s := set_domains (<[k := Some (mkDomain (d_id d) (d_owner d) true (d_records d) KEYS_NONE (key_at d) at_)]> (domains s)) s in
            (Done tt, if forgotten d then s else drop_domain id s)
          else if (key_at d =? 0)%Z then
            (Done tt, set_domains (<[k := Some (mkDomain (d_id d) owner (forgotten d) (d_records d) (if forgotten d then d_keys d else keys_new key) at_ (tomb_at d))]> (domains s)) s)
          else (Done tt, s)
      | _ => (Crash, s)
      end
  end.

(** ** One record met by a scan *)
(** What a scan carries: the blank run it is in, and what it freed. *)
Definition Scan : Type := (option Z * Collected)%type.
Definition freed_sectors (n : Z) (f : Collected) : Collected := mkCollected (c_blocks f) (c_names f) (c_sectors f + n) (c_free f).
Definition freed_blocks (n : Z) (f : Collected) : Collected := mkCollected (c_blocks f + n) (c_names f) (c_sectors f) (c_free f).
Definition freed_names (n : Z) (f : Collected) : Collected := mkCollected (c_blocks f) (c_names f + n) (c_sectors f) (c_free f).
Definition corrupted : SM unit := modify (fun s => set_corrupt (corrupt s + 1) s).
Definition settle (keep : bool) (here n : Z) (x : Scan) : SM (Z * Scan) :=
  let '(run, freed) := x in
  if keep then _ ← modify (occupied run here n); mret (n, (None, freed)) else
  _ ← erase here n;
  mret (n, (Some (default here run), freed_sectors n freed)).

(** A key record: a mount learns the domain from it. *)
Definition key_record_met (here n : Z) (sweep : bool) (x : Scan) : SM (Z * Scan) :=
  _ ← (if sweep then mret tt else
    opened ← open_at here (Z.to_nat n) KEYS;
    if opened && (n =? 1)%Z then
      b ← gets buffer;
      match parse_key (take SECTOR b) with Some key => key_found here key | None => corrupted end
    else corrupted);
  settle true here n x.
Definition recovery_record_met (here n : Z) (sweep : bool) (x : Scan) : SM (Z * Scan) :=
  _ ← (if sweep then mret tt else modify (fun s =>
    let s := if length (recoveries s) <? RECOVERIES then set_recoveries (recoveries s ++ [here]) s else s in
    set_recovered (recovered s + 1) s));
  settle true here n x.

(** A block's record, opened: whether it is kept. *)
Definition block_met (c : Cid) (n : nat) (here id : Z) (sweep : bool) : SM bool :=
  let k := to_bytes c in
  if sweep then
    s ← gets (fun s => s);
    match StoreIndex.position (slots (ix s)) k id with
    | inl i =>
        if negb (lba (slot s i) =? here)%Z then mret false else
        if retained (now s) (slot s i) then mret true else
        _ ← modify (fun s => set_ix (StoreIndex.remove (ix s) i) s);
        mret false
    | inr _ => mret false
    end
  else
    whole ← intact c n;
    _ ← (if whole : bool then mret tt else corrupted);
    s ← gets (fun s => s);
    match StoreIndex.position (slots (ix s)) k id with
    | inr _ =>
        if whole : bool then
          if (StoreIndex.count (ix s) =? Z.of_nat (limit (slots (ix s))))%Z then fail Full else
          x ← lift (or_crash (StoreIndex.insert (ix s) (now s) k id here (Z.of_nat n)));
          _ ← modify (set_ix x);
          mret true
        else mret true
    | inl _ => mret true
    end.
(** A version's record, or a commit's: whether a name keeps one of them. *)
Definition still_kept (id : Z) (name : bytes) (v : Version) : SM bool :=
  hs ← gets heads;
  i ← lift (find_in hs id name);
  match i with
  | inl i => h ← lift (or_crash (hs !! i)); mret (existsb (fun k => (version k =? version v)%Z) (versions h))
  | inr _ => mret false
  end.
Fixpoint any_kept (id : Z) (es : list (bytes * nat * Version)) : SM bool :=
  match es with
  | [] => mret false
  | (name, n, v) :: es => k ← still_kept id (take n name) v; if k : bool then mret true else any_kept id es
  end.
Definition learn_version (id : Z) (name : bytes) (v : Version) : SM unit :=
  s ← gets (fun s => s);
  hs ← lift (keep_version (heads_room (cfg s)) (heads s) id name v);
  modify (set_heads hs).
Fixpoint learn_all (id : Z) (es : list (bytes * nat * Version)) : SM unit :=
  match es with
  | [] => mret tt
  | (name, n, v) :: es => _ ← learn_version id (take n name) v; learn_all id es
  end.
Definition versions_met (id : Z) (es : list (bytes * nat * Version)) (sweep : bool) : SM bool :=
  if sweep then any_kept id es else _ ← learn_all id es; mret true.
Definition pin_met (p : Pin) (here id : Z) (sweep : bool) : SM bool :=
  s ← gets (fun s => s);
  let held := List.find (fun q => (pin_id q =? pin_id p)%Z) (pins s) in
  if sweep then mret (match held with Some q => (pin_lba q =? here)%Z | None => false end) else
  match held with
  | Some _ => mret true
  | None =>
      if length (pins s) =? pins_room (cfg s) then fail Full else
      _ ← modify (set_pins (pins s ++ [mkPin (pin_id p) (pin_owner p) (pin_root p) here (pin_size p) id]));
      _ ← modify (set_next_pin (Z.max (next_pin s) (wrap32 (pin_id p + 1))));
      mret true
  end.

(** The record opened into the buffer, of a live domain or of the volume. *)
Definition opened_met (here n id : Z) (sweep : bool) (x : Scan) : SM (Z * Scan) :=
  let '(run, freed) := x in
  opened ← open_at here (Z.to_nat n) id;
  s ← gets (fun s => s);
  let sector := take SECTOR (buffer s) in
  let one := opened && (n =? 1)%Z in
  let block := r ← parse_header sector; if opened && (record_sectors (Z.of_nat r.2) =? n)%Z then Some r else None in
  match block with
  | Some (c, size) =>
      keep ← block_met c size here id sweep;
      settle keep here n (run, if keep : bool then freed else freed_blocks 1 freed)
  | None =>
  let txn := c ← parse_txn sector; if opened && (sealed_sectors (Z.of_nat ((1 + c) * SECTOR)) =? n)%Z then commit_entries (buffer s) c else None in
  match txn with
  | Some es =>
      keep ← versions_met id es sweep;
      settle keep here n (run, if keep : bool then freed else freed_names (Z.of_nat (length es)) freed)
  | None =>
  match (if one then parse_name sector else None) with
  | Some e =>
      keep ← versions_met id [e] sweep;
      settle keep here n (run, if keep : bool then freed else freed_names 1 freed)
  | None =>
  match (if one then parse_pin sector else None) with
  | Some p => keep ← pin_met p here id sweep; settle keep here n x
  | None =>
  match (m ← parse_free sector; if one && (id =? VOLUME)%Z && (here + m <=? sectors (dev s))%Z then Some m else None) with
  | Some m =>
      (* A collection stopped in the middle of freeing this: finish it. *)
      if writable (dev s) then _ ← erase here m; mret (m, (Some (default here run), freed)) else
      _ ← modify (occupied run here m); mret (m, (None, freed))
  | None =>
      if negb sweep || existsb (fun e => used e && (lba e =? here)%Z) (slots (ix s)) then _ ← corrupted; settle true here n x
      else settle false here n (run, freed_blocks 1 freed)
  end end end end end.

(** [record]: the record of [n] sectors at [here]; the sectors it covers. *)
Definition record (here n id : Z) (sweep : bool) (x : Scan) : SM (Z * Scan) :=
  let '(run, freed) := x in
  if (id =? KEYS)%Z then key_record_met here n sweep x else
  if (id =? RECOVERY)%Z && (n =? 1)%Z then recovery_record_met here n sweep x else
  if (id =? VOLUME)%Z then opened_met here n id sweep x else
  s ← gets (fun s => s);
  match slot_of id s with
  | None =>
      if negb sweep && negb (waiting s =? W64 - 1)%Z then
        _ ← modify (fun s =>
          let s := if (waiting s <? Z.of_nat DEFERRED)%Z then set_deferred (deferred s ++ [(here, n, id)]) s else s in
          set_waiting (waiting s + 1) s);
        settle true here n x
      else _ ← corrupted; settle true here n x
  | Some k =>
      d ← lift (or_crash (default None (domains s !! k)));
      _ ← modify (set_domains (<[k := Some (mkDomain (d_id d) (d_owner d) (forgotten d) (d_records d + 1) (d_keys d) (key_at d) (tomb_at d))]> (domains s)));
      if forgotten d then settle (negb sweep) here n (run, if sweep then freed_blocks 1 freed else freed)
      else opened_met here n id sweep x
  end.

(** ** A pass over the medium *)
(** The sectors of a window, read into [b], from [here] on: up to the first frame, whose record is then read again whole. *)
Fixpoint window_loop (w : nat) (b : bytes) (here : Z) (sweep : bool) (x : Scan) : SM (Z * Scan) :=
  match w with
  | O => mret (here, x)
  | S w =>
      let sector := take SECTOR b in
      m ← gets (fun s => sectors (dev s));
      match (n ← parse_frame sector; if (here + n <=? m)%Z then Some n else None) with
      | Some n => '(c, x) ← record here n (of_le (slice sector 10 2)) sweep x; mret (here + c, x)%Z
      | None =>
          let '(run, freed) := x in
          if any_set sector then
            _ ← modify (fun s => set_damaged (damaged s + 1) s);
            _ ← modify (occupied run here 1);
            window_loop w (drop SECTOR b) (here + 1) sweep (None, freed)
          else window_loop w (drop SECTOR b) (here + 1) sweep (Some (default here run), freed)
      end
  end.
Fixpoint pass_loop (fuel : nat) (at_ : Z) (sweep : bool) (x : Scan) : SM Scan :=
  match fuel with
  | O => lift Crash
  | S fuel =>
      m ← gets (fun s => sectors (dev s));
      if (at_ <? m)%Z then
        let w := Z.to_nat (Z.min (m - at_) RECORD_SECTORS) in
        _ ← read_at at_ w;
        b ← gets buffer;
        '(next, x) ← window_loop w b at_ sweep x;
        pass_loop fuel next sweep x
      else mret x
  end.
(** After a sweep: a forgotten domain's tombstone goes, and the domain. *)
Fixpoint drop_forgotten (ks : list nat) : SM unit :=
  match ks with
  | [] => mret tt
  | k :: ks =>
      ds ← gets domains;
      _ ← (match ds !! k with
        | Some (Some d) =>
            if forgotten d then
              _ ← (if negb (tomb_at d =? 0)%Z then _ ← erase (tomb_at d) 1; modify (release (tomb_at d) 1) else mret tt);
              modify (fun s => set_domains (<[k := None]> (domains s)) s)
            else mret tt
        | _ => mret tt
        end);
      drop_forgotten ks
  end.
Definition blank_sectors (s : Store) : Z := foldr (fun h n => run_len h + n)%Z 0%Z (holes s).
Definition no_records (d : option Domain) : option Domain :=
  match d with Some d => Some (mkDomain (d_id d) (d_owner d) (forgotten d) 0 (d_keys d) (key_at d) (tomb_at d)) | None => None end.
Definition pass (sweep : bool) : SM Collected :=
  _ ← modify (fun s => set_damaged 0 (set_end 1 (set_holes [] s)));
  _ ← modify (fun s => if sweep then set_corrupt 0 s else s);
  _ ← modify (fun s => set_domains (map no_records (domains s)) s);
  m ← gets (fun s => sectors (dev s));
  '(run, freed) ← pass_loop (Z.to_nat m) 1 sweep (None, mkCollected 0 0 0 0);
  _ ← modify (fun s => match run with Some from => hole from (m - from) s | None => s end);
  _ ← (if sweep then
    _ ← modify (fun s => set_ix (drop_all (fun e => negb (retained (now s) e)) (ix s)) s);
    drop_forgotten (seq 0 DOMAINS) else mret tt);
  n ← gets blank_sectors;
  mret (mkCollected (c_blocks freed) (c_names freed) (c_sectors freed) n).

(** [mount_pass]: the records of domains met before their key wait; past [DEFERRED] of them the scan is done once more. *)
Fixpoint open_deferred (l : list (Z * Z * Z)) : SM unit :=
  match l with
  | [] => mret tt
  | (at_, n, id) :: l =>
      k ← gets (slot_of id);
      _ ← (match k with Some _ => _ ← record at_ n id false (None, mkCollected 0 0 0 0); mret tt | None => corrupted end);
      open_deferred l
  end.
Fixpoint erase_forgotten_keys (ks : list nat) : SM unit :=
  match ks with
  | [] => mret tt
  | k :: ks =>
      ds ← gets domains;
      _ ← (match ds !! k with
        | Some (Some d) =>
            if forgotten d && negb (key_at d =? 0)%Z then
              _ ← modify (fun s => set_domains (<[k := Some (mkDomain (d_id d) (d_owner d) (forgotten d) (d_records d) (d_keys d) 0 (tomb_at d))]> (domains s)) s);
              w ← gets (fun s => writable (dev s));
              if w : bool then _ ← erase (key_at d) 1; modify (release (key_at d) 1) else mret tt
            else mret tt
        | _ => mret tt
        end);
      erase_forgotten_keys ks
  end.
Definition mount_pass : SM unit :=
  _ ← modify (fun s => set_waiting 0 (set_deferred [] s));
  _ ← pass false;
  s ← gets (fun s => s);
  _ ← (if (Z.of_nat DEFERRED <? waiting s)%Z then
    _ ← modify (fun s => set_corrupt 0 (set_next_pin 1 (set_pins [] (set_heads [] s))));
    _ ← modify (fun s => set_recovered 0 (set_recoveries [] s));
    _ ← modify (fun s => set_ix (mkIndex (replicate (length (slots (ix s))) StoreIndex.EMPTY) 0 0) s);
    _ ← modify (set_waiting (W64 - 1));
    _ ← pass false;
    mret tt
  else open_deferred (deferred s));
  _ ← modify (set_waiting 0);
  erase_forgotten_keys (seq 0 DOMAINS).

(** ** Collecting *)
Definition unmark (e : StoreIndex.Entry) : StoreIndex.Entry := mkEntry (lease e) (lba e) (len e) (flags e &&& Z.lnot LIVE)%Z (key e) (domain e).
Definition mark_block (c : Cid) : ST Store unit := fun s =>
  match find_block c s with
  | inl k =>
      let e := slot s k in
      (Done tt, set_ix (mkIndex (<[k := mkEntry (lease e) (lba e) (len e) (flags e ||| LIVE)%Z (key e) (domain e)]> (slots (ix s))) (StoreIndex.count (ix s)) (total (ix s))) s)
  | inr _ => (Refuse Cbor.NotFound, s)
  end.
Fixpoint mark_versions (removed_ : bool) (vs : list Version) : SM unit :=
  match vs with
  | [] => mret tt
  | v :: vs =>
      if removed_ then mret tt else
      r ← lift (version_root v);
      _ ← (match r with Some root => _ ← walk root mark_block; mret tt | None => mret tt end);
      mark_versions removed_ vs
  end.
Fixpoint mark_heads (hs : list Head) : SM unit :=
  match hs with
  | [] => mret tt
  | h :: hs => _ ← modify (set_cur (h_domain h)); _ ← mark_versions (removed h) (versions h); mark_heads hs
  end.
Definition pin_cid (p : Pin) : outcome SError Cid := match from_bytes (pin_root p) with Ok c => Done c | Err _ => Crash end.
Fixpoint mark_pins (ps : list Pin) : SM unit :=
  match ps with
  | [] => mret tt
  | p :: ps => _ ← modify (set_cur (pin_domain p)); root ← lift (pin_cid p); _ ← walk root mark_block; mark_pins ps
  end.
Definition mark : SM unit := s ← gets (fun s => s); _ ← mark_heads (heads s); mark_pins (pins s).
(** [collect]: the domain requests work in is put back whatever [mark] does. *)
Definition restoring {A} (m : SM A) : SM A := fun s => let '(o, s') := m s in (o, set_cur (cur s) s').
Definition collect : SM Collected :=
  w ← gets (fun s => writable (dev s));
  if negb w then fail ReadOnly else
  _ ← modify (fun s => set_ix (mkIndex (map unmark (slots (ix s))) (StoreIndex.count (ix s)) (total (ix s))) s);
  _ ← restoring mark;
  pass true.
Definition room (n : Z) : SM Z :=
  r ← gets (find_room n);
  match r with
  | Some at_ => mret at_
  | None => _ ← collect; r ← gets (find_room n); lift (or_refuse r Full)
  end.
End store.
