(* ===== verification/StoreOps.v ===== *)
(** * The block store's requests ([blockstore/src/store.rs]: [put], [publish], [unpublish], [commit], [pin], [unpin], domains)

    Each request over a mounted store, and what it reports of itself. *)
From S2P Require Import Prelude Outcome Sha256 Cid Cbor Dag DagTree Directory Journal Tour StoreRecords StoreNames StoreIndex StoreMedium StorePass.
Local Open Scope nat_scope.

Section store.
Context {D : Type} `{!Medium D} `{!Crypto}.
Local Abbreviation Store := (StoreMedium.Store D).
Local Abbreviation SM := (STE SError Store).

(** ** Blocks *)
Definition full (s : Store) : bool := (StoreIndex.count (ix s) =? Z.of_nat (limit (slots (ix s))))%Z.
(** [put] of a block not held: room in the index and on the medium, the record, the entry. *)
Definition put_new (c : Cid) (data : bytes) : SM Cid :=
  w ← gets (fun s => writable (dev s));
  if negb w then fail ReadOnly else
  let n := record_sectors (Z.of_nat (length data)) in
  f ← gets full;
  _ ← (if f : bool then _ ← collect; mret tt else mret tt);
  f ← gets full;
  if f : bool then fail Full else
  at_ ← room n;
  _ ← modify (fun s => set_buffer (overwrite (buffer s) FRAME (header c (length data) ++ data)) s);
  _ ← modify (claim at_ n);
  id ← gets cur;
  _ ← write_sealed at_ (HEADER + length data) id;
  s ← gets (fun s => s);
  x ← lift (or_crash (StoreIndex.insert (ix s) (now s) (to_bytes c) id at_ (Z.of_nat (length data))));
  _ ← modify (set_ix x);
  mret c.
Definition put_block (k : Codec) (data : bytes) : SM Cid :=
  if (BLOCK_MAX <? Z.of_nat (length data))%Z then fail TooLarge else
  t ← lift (typed_block k data);
  if negb t then fail Invalid else
  let c := of_data k data in
  p ← gets (find_block c);
  match p with
  | inl i =>
      _ ← modify (fun s => let e := slot s i in
        set_ix (mkIndex (<[i := mkEntry (now s) (lba e) (len e) (flags e) (key e) (domain e)]> (slots (ix s))) (StoreIndex.count (ix s)) (total (ix s))) s);
      mret c
  | inr _ => put_new c data
  end.
(** The store as the blocks of objects, trees and journals. *)
Definition store_blocks : Blocks Store := {|
  put k x := as_blocks (fun e s => (match e with StoreNames.Full => Cbor.Full | _ => Cbor.Store end, s)) (put_block k x);
  get := blocks_get;
  has := blocks_has
|}.
Definition set_time (t : Z) (s : Store) : Store := set_now t s.
Definition renew (t : Z) (s : Store) : Store :=
  let e x := if used x then mkEntry t (lba x) (len x) (flags x) (key x) (domain x) else x in
  set_ix (mkIndex (map e (slots (ix s))) (StoreIndex.count (ix s)) (total (ix s))) (set_now t s).

(** ** Accounts *)
Abbreviation Root := (bytes * Z)%type.
Definition owned (o : Z) (s : Store) : list (Root * Z) :=
  flat_map (fun h => map (fun v => ((root v, h_domain h), StoreRecords.size v)) (List.filter (fun v => (owner v =? o)%Z) (retains h))) (heads s)
  ++ map (fun p => ((pin_root p, pin_domain p), pin_size p)) (List.filter (fun p => (pin_owner p =? o)%Z) (pins s)).
Fixpoint distinct (seen : list (Root * Z)) (l : list (Root * Z)) : Z :=
  match l with
  | [] => 0
  | x :: l => (if existsb (fun y => bool_decide (y.1 = x.1)) seen then 0 else x.2) + distinct (seen ++ [x]) l
  end%Z.
Definition retained_by (o : Z) (extra : list (Root * Z)) (s : Store) : Z :=
  (distinct [] (owned o s) + distinct (owned o s) extra)%Z.
Record Usage : Type := mkUsage { u_retained : Z; u_quota : Z; u_names : Z; u_pins : Z }.
Definition usage (o : Z) (s : Store) : Usage :=
  mkUsage (retained_by o [] s) (quota (cfg s)) (Z.of_nat (length (List.filter (fun h => negb (removed h) && (owner (latest h) =? o)%Z) (heads s))))
    (Z.of_nat (length (List.filter (fun p => (pin_owner p =? o)%Z) (pins s)))).

(** ** Names *)
Definition find (name : bytes) : SM (nat + nat) := s ← gets (fun s => s); lift (find_in (heads s) (cur s) name).
Definition head_at (i : nat) : SM Head := hs ← gets heads; lift (or_crash (hs !! i)).
Definition resolve (name : bytes) : SM (Z * Cid) :=
  if negb (valid_name name) then fail Invalid else
  i ← find name;
  match i with
  | inr _ => fail NotFound
  | inl i => h ← head_at i; r ← lift (version_root (latest h)); root ← lift (or_refuse r NotFound); mret (version (latest h), root)
  end.
(** [names]: the current names from [after] on that start with [prefix]; a domain's names, and those with a prefix, are one run of
    the sorted heads. *)
Definition part_ok (n : bytes) : bool := (length n <=? NAME_MAX) && ((length n =? 0) || valid_name n).
Fixpoint named_from (prefix : bytes) (hs : list Head) : outcome SError (list (bytes * Z * Cid)) :=
  match hs with
  | [] => Done []
  | h :: hs =>
      if bool_decide (take (length prefix) (head_name h) = prefix) then
        r ← version_root (latest h);
        l ← named_from prefix hs;
        Done (match r with Some root => (head_name h, version (latest h), root) :: l | None => l end)
      else Done []
  end.
Definition names (prefix after : bytes) (s : Store) : outcome SError (list (bytes * Z * Cid)) :=
  if negb (part_ok prefix && part_ok after) then Refuse Invalid else
  let lo := partition_point (fun h => (h_domain h <? cur s)%Z) (heads s) in
  let hi := partition_point (fun h => (h_domain h <=? cur s)%Z) (heads s) in
  let hs := slice (heads s) lo (hi - lo) in
  let from := Nat.max (partition_point (fun h => before (head_name h) prefix) hs)
    (if length after =? 0 then 0 else partition_point (fun h => negb (before after (head_name h))) hs) in
  named_from prefix (drop from hs).
(** A walk that only asks whether each block is there. *)
Definition stored (c : Cid) : ST Store unit := fun s => if contains c s then (Done tt, s) else (Refuse Cbor.NotFound, s).
Definition complete_size (root : Cid) : SM Z := StorePass.walk root stored.
Definition current (name : bytes) : SM (option Head) :=
  i ← find name;
  match i with inl i => h ← head_at i; mret (Some h) | inr _ => mret None end.
Definition latest_version (h : option Head) : Z := match h with Some h => version (latest h) | None => 0 end.
Definition previous_root (h : option Head) : SM (option Cid) := match h with Some h => lift (version_root (latest h)) | None => mret None end.
Definition full_names (s : Store) : bool := length (heads s) =? heads_room (cfg s).
Definition publish (name : bytes) (expected : Z) (root : Cid) (o : Z) : SM Z :=
  if negb (valid_name name) then fail Invalid else
  w ← gets (fun s => writable (dev s));
  if negb w then fail ReadOnly else
  h ← current name;
  let cv := latest_version h in
  if negb (expected =? cv)%Z then fail Conflict else
  full ← gets full_names;
  if bool_decide (h = None) && full then fail Full else
  at_ ← room 1;
  size ← complete_size root;
  id ← gets cur;
  kept ← gets (retained_by o [((to_bytes root, id), size)]);
  q ← gets (fun s => quota (cfg s));
  if (q <? kept)%Z then fail Quota else
  h ← current name;
  previous ← previous_root h;
  next ← lift (plus cv 1);
  let v := mkVersion next o (to_bytes root) true size in
  _ ← modify (claim at_ 1);
  _ ← write_record at_ (take NAME_RECORD (name_record name v previous)) id;
  i ← find name;
  _ ← (match i with
    | inl i => h ← head_at i; modify (fun s => set_heads (<[i := keep h v]> (heads s)) s)
    | inr i => modify (fun s => set_heads (add (heads s) i (head_new id name v)) s)
    end);
  mret next.
Definition unpublish (name : bytes) (expected : Z) (o : Z) : SM Z :=
  if negb (valid_name name) then fail Invalid else
  w ← gets (fun s => writable (dev s));
  if negb w then fail ReadOnly else
  h ← current name;
  h ← lift (or_refuse h NotFound);
  if removed h then fail NotFound else
  if negb (expected =? version (latest h))%Z then fail Conflict else
  at_ ← room 1;
  i ← find name;
  match i with
  | inr _ => fail NotFound
  | inl i =>
      h ← head_at i;
      previous ← lift (version_root (latest h));
      next ← lift (plus expected 1);
      let v := mkVersion next o (StoreRecords.root StoreNames.EMPTY) false 0 in
      _ ← modify (claim at_ 1);
      id ← gets cur;
      _ ← write_record at_ (take NAME_RECORD (name_record name v previous)) id;
      _ ← modify (fun s => set_heads (<[i := keep h v]> (heads s)) s);
      mret next
  end.

(** ** Commits *)
Record Update : Type := mkUpdate { u_name : bytes; u_expected : Z; u_root : option Cid }.
Fixpoint names_ok (before : list bytes) (us : list Update) : bool :=
  match us with
  | [] => true
  | u :: us => valid_name (u_name u) && negb (bool_decide (u_name u ∈ before)) && names_ok (before ++ [u_name u]) us
  end.
(** Each change from the version it expects; how many names are new. *)
Fixpoint expected_all (us : list Update) : SM nat :=
  match us with
  | [] => mret 0
  | u :: us =>
      h ← current (u_name u);
      _ ← (match h with
        | Some h => if bool_decide (u_root u = None) && removed h then fail NotFound else mret tt
        | None => if bool_decide (u_root u = None) then fail NotFound else mret tt
        end);
      if negb (u_expected u =? latest_version h)%Z then fail Conflict else
      n ← expected_all us;
      mret (match h with Some _ => n | None => n + 1 end)
  end.
Fixpoint sizes_of (us : list Update) : SM (list (Root * Z)) :=
  match us with
  | [] => mret []
  | u :: us =>
      id ← gets cur;
      x ← (match u_root u with Some root => size ← complete_size root; mret ((to_bytes root, id), size) | None => mret ((replicate BYTES 0%Z, id), 0%Z) end);
      l ← sizes_of us;
      mret (x :: l)
  end.
Definition change_version (u : Update) (next o size : Z) : Version :=
  mkVersion next o (match u_root u with Some r => to_bytes r | None => replicate BYTES 0%Z end) (bool_decide (is_Some (u_root u))) size.
(** The entries of the record, and the versions they make. *)
Fixpoint changes_of (us : list Update) (sizes : list (Root * Z)) (o : Z) : SM (list (bytes * Version)) :=
  match us, sizes with
  | u :: us, (_, size) :: sizes =>
      h ← current (u_name u);
      previous ← previous_root h;
      next ← lift (plus (latest_version h) 1);
      let v := change_version u next o size in
      l ← changes_of us sizes o;
      mret ((txn_entry (u_name u) v previous, v) :: l)
  | _, _ => mret []
  end.
Fixpoint keep_all (us : list Update) (vs : list Version) (id : Z) : SM unit :=
  match us, vs with
  | u :: us, v :: vs => _ ← learn_version id (u_name u) v; keep_all us vs id
  | _, _ => mret tt
  end.
Definition commit (us : list Update) (o : Z) : SM (list Z) :=
  let n := length us in
  if (n =? 0) || (COMMIT_MAX <? n) then fail Invalid else
  if negb (names_ok [] us) then fail Invalid else
  w ← gets (fun s => writable (dev s));
  if negb w then fail ReadOnly else
  new ← expected_all us;
  s ← gets (fun s => s);
  if heads_room (cfg s) <? length (heads s) + new then fail Full else
  let size := (1 + n) * SECTOR in
  let c := sealed_sectors (Z.of_nat size) in
  at_ ← room c;
  extra ← sizes_of us;
  kept ← gets (retained_by o extra);
  if (quota (cfg s) <? kept)%Z then fail Quota else
  id ← gets cur;
  changes ← changes_of us extra o;
  _ ← modify (fun s => set_buffer (overwrite (buffer s) FRAME (txn_record (map fst changes))) s);
  _ ← modify (claim at_ c);
  _ ← write_sealed at_ size id;
  _ ← keep_all us (map snd changes) id;
  mret (map (fun c => version (snd c)) changes).

(** ** Pins *)
Definition pin (root : Cid) (o : Z) : SM Z :=
  w ← gets (fun s => writable (dev s));
  if negb w then fail ReadOnly else
  s ← gets (fun s => s);
  if length (pins s) =? pins_room (cfg s) then fail Full else
  at_ ← room 1;
  size ← complete_size root;
  id ← gets cur;
  kept ← gets (retained_by o [((to_bytes root, id), size)]);
  if (quota (cfg s) <? kept)%Z then fail Quota else
  k ← gets next_pin;
  let p := mkPin k o (to_bytes root) at_ size id in
  _ ← modify (claim at_ 1);
  _ ← write_record at_ (take PIN_RECORD (pin_record p)) id;
  _ ← modify (fun s => set_pins (pins s ++ [p]) (set_next_pin (Z.max (wrap32 (next_pin s + 1)) 1) s));
  mret k.
Definition unpin (k o : Z) : SM unit :=
  w ← gets (fun s => writable (dev s));
  if negb w then fail ReadOnly else
  s ← gets (fun s => s);
  i ← lift (or_refuse (Prelude.position (fun p => (pin_id p =? k)%Z && (pin_domain p =? cur s)%Z) (pins s)) NotFound);
  p ← lift (or_crash (pins s !! i));
  if negb (pin_owner p =? o)%Z then fail Rights else
  _ ← erase (pin_lba p) 1;
  _ ← modify (fun s => set_pins (delete i (pins s)) s);
  modify (release (pin_lba p) 1).

(** ** Domains *)
(** [domain_create]; [random] is what the source of random bytes gives. *)
Definition domain_create (o : Z) (random : option bytes) : SM Z :=
  w ← gets (fun s => writable (dev s));
  if negb w then fail ReadOnly else
  s ← gets (fun s => s);
  i ← lift (or_refuse (Prelude.position (fun d : option Domain => bool_decide (d = None)) (domains s)) Full);
  let id := (foldr (fun d m => match d with Some d => Z.max (d_id d) m | None => m end) VOLUME (domains s) + 1)%Z in
  if (RECOVERY <=? id)%Z then fail Full else
  k ← lift (or_refuse random NoRandom);
  at_ ← room 1;
  _ ← modify (claim at_ 1);
  _ ← write_record at_ (key_record id KEY_LIVE o k) KEYS;
  _ ← modify (fun s => set_domains (<[i := Some (mkDomain id o false 0 (keys_new k) at_ 0)]> (domains s)) s);
  mret id.
Definition domain_forget (id o : Z) : SM unit :=
  w ← gets (fun s => writable (dev s));
  if negb w then fail ReadOnly else
  s ← gets (fun s => s);
  k ← lift (or_refuse (slot_of id s) NotFound);
  d ← lift (or_refuse (default None (domains s !! k)) NotFound);
  if forgotten d then fail NotFound else
  if negb (d_owner d =? o)%Z then fail Rights else
  at_ ← room 1;
  _ ← modify (claim at_ 1);
  _ ← write_record at_ (key_record id KEY_GONE o (replicate 32 0%Z)) KEYS;
  s ← gets (fun s => s);
  d ← lift (or_crash (default None (domains s !! k)));
  _ ← modify (set_domains (<[k := Some (mkDomain (d_id d) (d_owner d) true (d_records d) KEYS_NONE 0 at_)]> (domains s)));
  _ ← modify (drop_domain id);
  _ ← modify (fun s => if (cur s =? id)%Z then set_cur VOLUME s else s);
  if negb (key_at d =? 0)%Z then _ ← erase (key_at d) 1; modify (release (key_at d) 1) else mret tt.
Definition set_domain (id : Z) : SM unit :=
  k ← gets (keys_for id);
  if (id =? KEYS)%Z || bool_decide (k = None) then fail NotFound else modify (set_cur id).
End store.
