(* ===== verification/StoreMount.v ===== *)
(** * Mounting, recovering and scrubbing the block store ([blockstore/src/store.rs]: [superblock], [mount], [recover], [scrub])

    The superblock with the volume key or where it is kept, mounting a blank medium or a store, the recovery records that keep the
    volume key under a recovery key, and the scrub, which reads the records some sectors at a time. *)
From S2P Require Import Prelude Outcome Sha256 Cid Cbor Dag DagTree Directory Journal Tour StoreRecords StoreNames StoreIndex StoreMedium StorePass StoreOps.
Local Open Scope nat_scope.

Definition SUPER : nat := 172.
Definition SUPER_MAGIC : bytes := mind 83 84 79.
Definition KEY_NONE : Z := 0.
Definition KEY_CLEAR : Z := 1.
Definition KEY_KEPT : Z := 2.

(** Where a volume key is kept off the medium. *)
Class Keeper (K : Type) : Type := {
  kput : bytes -> bytes -> K -> bool * K;
  kget : bytes -> K -> option bytes * K
}.

Section superblocks.
Context `{!Crypto}.
Definition superblock (key : option bytes) (kept : option bytes) : bytes :=
  let s := replicate SECTOR 0%Z in
  let s := overwrite s 0 SUPER_MAGIC in
  let s := overwrite s 8 (to_le 2 LAYOUT) in
  let s := overwrite s 10 (to_le 2 (Z.of_nat SECTOR)) in
  let s := overwrite s 12 [match key, kept with None, _ => KEY_NONE | Some _, None => KEY_CLEAR | Some _, Some _ => KEY_KEPT end] in
  let s := overwrite s 16 (digest (take 16 s)) in
  let s := match key with
    | Some k =>
        let s := match kept with Some id => overwrite s 48 id | None => overwrite s 48 k end in
        let '(data, nonce, tag) := keys_seal (keys_new k) (aad s 0) (slice s 92 32) in
        let s := overwrite s 92 data in
        let s := overwrite s 80 nonce in
        overwrite s 124 tag
    | None => s
    end in
  overwrite s 140 (digest (take 140 s)).
Definition check_superblock (s : bytes) : outcome SError unit :=
  if negb (bool_decide (take 8 s = SUPER_MAGIC)) || negb (bool_decide (slice s 16 32 = digest (take 16 s))) then Refuse Foreign else
  let layout := of_le (slice s 8 2) in
  if negb (layout =? LAYOUT)%Z then Refuse (StoreNames.Layout layout) else
  if negb (bool_decide (slice s 10 2 = to_le 2 (Z.of_nat SECTOR))) || negb (bool_decide (slice s 13 3 = replicate 3 0%Z))
     || negb (bool_decide (slice s 140 (SUPER - 140) = digest (take 140 s))) || rest_set s SUPER then Refuse Foreign else Done tt.
(** [opens]: whether a key opens a superblock's check. *)
Definition opens (s key : bytes) : bool :=
  bool_decide (open (k_seal (keys_new key)) (slice s 80 12) (aad s 0) (slice s 92 32) (slice s 124 16) = Some (replicate 32 0%Z)).
Context {K : Type} `{!Keeper K}.
(** The keeper asked for the key of [id], if there is a keeper. *)
Definition ask_keeper (id : bytes) (k : option K) : option bytes * option K :=
  match k with Some k => let '(r, k) := kget id k in (r, Some k) | None => (None, None) end.
Definition key_of (s : bytes) : STE SError (option K) (option bytes) := fun keeper =>
  let kind := nth 12 s 0%Z in
  let '(found, keeper) :=
    if (kind =? KEY_NONE)%Z && negb (any_set (slice s 48 (140 - 48))) then (Done None, keeper) else
    if (kind =? KEY_CLEAR)%Z then (Done (Some (slice s 48 32)), keeper) else
    if (kind =? KEY_KEPT)%Z && negb (any_set (slice s 56 (80 - 56))) then
      let id := slice s 48 8 in
      let '(r, keeper) := ask_keeper id keeper in
      (match r with Some key => Done (Some key) | None => Refuse (Kept id) end, keeper)
    else (Refuse StoreNames.Key, keeper) in
  (match found with
   | Done None => Done None
   | Done (Some key) => if opens s key then Done (Some key) else Refuse StoreNames.Key
   | Refuse e => Refuse e
   | Crash => Crash
   end, keeper).
End superblocks.

Section mount.
Context {D : Type} `{!Medium D} `{!Crypto}.
Local Abbreviation Store := (StoreMedium.Store D).
Local Abbreviation SM := (STE SError Store).
(** What only reads the medium runs over it and the buffer. *)
Abbreviation MB := (STE SError (D * bytes)).
Definition read_into (at_ : Z) (n : nat) : MB bytes := fun '(d, b) =>
  let '(r, d) := dread at_ n d in
  match r with
  | Some x => (Done x, (d, overwrite b 0 x))
  | None => (Refuse Device, (d, b))
  end.
Definition on_medium {A} (m : MB A) : SM A := fun s => let '(o, (d, b)) := m (dev s, buffer s) in (o, set_buffer b (set_dev d s)).
Definition buffer_of : MB bytes := fun s => (Done s.2, s).
Definition leave_buffer (b : bytes) : MB unit := fun s => (Done tt, (s.1, b)).
Definition size_of_medium : MB Z := fun s => (Done (sectors s.1), s).

Fixpoint blank_loop (fuel : nat) (at_ : Z) : MB bool :=
  match fuel with
  | O => lift Crash
  | S fuel =>
      m ← size_of_medium;
      if (at_ <? m)%Z then
        let w := Z.min (m - at_) RECORD_SECTORS in
        b ← read_into at_ (Z.to_nat w);
        if any_set b then mret false else blank_loop fuel (at_ + w)
      else mret true
  end.
Definition blank : MB bool := m ← size_of_medium; blank_loop (S (Z.to_nat m)) 0.

(** [find_recovery]: the first recovery record from [at_] on. *)
Fixpoint recovery_in (w : nat) (b : bytes) (here m : Z) : Z + Z :=
  match w with
  | O => inr here
  | S w =>
      let sector := take SECTOR b in
      match (n ← parse_frame sector; if (here + n <=? m)%Z then Some n else None) with
      | Some n => if (n =? 1)%Z && bool_decide (slice sector 10 2 = to_le 2 RECOVERY) then inl here else inr (here + n)%Z
      | None => recovery_in w (drop SECTOR b) (here + 1) m
      end
  end.
Fixpoint find_recovery_loop (fuel : nat) (at_ : Z) : MB (option Z) :=
  match fuel with
  | O => lift Crash
  | S fuel =>
      m ← size_of_medium;
      if (at_ <? m)%Z then
        let w := Z.to_nat (Z.min (m - at_) RECORD_SECTORS) in
        b ← read_into at_ w;
        match recovery_in w b at_ m with
        | inl here => mret (Some here)
        | inr next => find_recovery_loop fuel next
        end
      else mret None
  end.
Definition find_recovery (at_ : Z) : MB (option Z) := m ← size_of_medium; find_recovery_loop (S (Z.to_nat m)) at_.

(** ** Mounting *)
(** [size_retained]: the size of every retained object, read in its domain; what cannot be read counts nothing. *)
Definition size_of (root : Cid) : ST Store Z := fun s => Tour.size (Blocks0:=reading) root (steps s) s.
Definition size_or_0 (root : Cid) : SM Z := fun s => match size_of root s with (Done n, s) => (Done n, s) | (Refuse _, s) => (Done 0%Z, s) | (Crash, s) => (Crash, s) end.
Fixpoint size_versions (ks : list nat) (i : nat) : SM unit :=
  match ks with
  | [] => mret tt
  | k :: ks =>
      h ← head_at i;
      let v := nth k (kept h) StoreNames.EMPTY in
      r ← lift (version_root v);
      _ ← (match r with
        | Some root =>
            n ← size_or_0 root;
            modify (fun s => set_heads (<[i := mkHead (h_name h) (h_len h) (<[k := mkVersion (version v) (owner v) (StoreRecords.root v) (points v) n]> (kept h)) (StoreNames.count h) (h_domain h)]> (heads s)) s)
        | None => mret tt
        end);
      size_versions ks i
  end.
Fixpoint size_heads (is_ : list nat) : SM unit :=
  match is_ with
  | [] => mret tt
  | i :: is_ => h ← head_at i; _ ← modify (set_cur (h_domain h)); _ ← size_versions (seq 0 (StoreNames.count h)) i; size_heads is_
  end.
Fixpoint size_pins (is_ : list nat) : SM unit :=
  match is_ with
  | [] => mret tt
  | i :: is_ =>
      ps ← gets pins;
      p ← lift (or_crash (ps !! i));
      _ ← modify (set_cur (pin_domain p));
      root ← lift (pin_cid p);
      n ← size_or_0 root;
      _ ← modify (fun s => set_pins (<[i := mkPin (pin_id p) (pin_owner p) (pin_root p) (pin_lba p) n (pin_domain p)]> (pins s)) s);
      size_pins is_
  end.
Definition size_retained : SM unit :=
  s ← gets (fun s => s);
  _ ← size_heads (seq 0 (length (heads s)));
  _ ← size_pins (seq 0 (length (pins s)));
  modify (set_cur (cur s)).

Context {K : Type} `{!Keeper K}.
Definition text_volume : bytes := [77; 73; 78; 68; 45; 83; 84; 79; 32; 118; 111; 108; 117; 109; 101; 32; 107; 101; 121]%Z.
(** The room a mount is given: slots of the index, names, pins and runs. *)
Record Room : Type := mkRoom { r_slots : nat; r_heads : nat; r_pins : nat; r_holes : nat }.
(** A new volume key, random where there is a source ([key_bytes]), kept by the keeper under a random id ([id_bytes]) where both are there. *)
Definition make_key (t : Z) (key_bytes id_bytes : option bytes) (keeper : option K) (d : D) : bytes * option bytes * option K :=
  let key := match key_bytes with Some k => k | None => hmac_sha256 (replicate 32 0%Z) [text_volume; to_le 8 (sectors d); to_le 8 t] end in
  match key_bytes, id_bytes, keeper with
  | Some _, Some id, Some k => let '(ok, k) := kput id key k in (key, if ok : bool then Some id else None, Some k)
  | _, _, _ => (key, None, keeper)
  end.
Definition mount (d : D) (keeper : option K) (r : Room) (b : bytes) (t : Z) (key_bytes id_bytes : option bytes) : outcome SError Store * option K :=
  if (sectors d <? 2)%Z then (Refuse StoreNames.Full, keeper) else
  if (2 ^ 32 <? sectors d)%Z then (Refuse StoreNames.TooLarge, keeper) else
  match read_into 0 1 (d, b) with
  | (Refuse e, _) => (Refuse e, keeper)
  | (Crash, _) => (Crash, keeper)
  | (Done s, (d, b)) =>
      let '(found, keeper, (d, b)) :=
        if any_set s then
          match check_superblock s with
          | Done _ => let '(o, keeper) := key_of s keeper in (o, keeper, (d, b))
          | Refuse e => (Refuse e, keeper, (d, b))
          | Crash => (Crash, keeper, (d, b))
          end
        else
          match blank (d, b) with
          | (Done true, m) => (Done None, keeper, m)
          | (Done false, m) => (Refuse Foreign, keeper, m)
          | (Refuse e, m) => (Refuse e, keeper, m)
          | (Crash, m) => (Crash, keeper, m)
          end in
      let begin key made kept d b :=
        let c := mkConfig (r_heads r) (r_pins r) (r_holes r) (sectors d * Z.of_nat SECTOR / 4 * 3) (keys_new key) made kept in
        let st := mkStore c d (mkIndex (replicate (r_slots r) StoreIndex.EMPTY) 0 0) [] [] 1 [] b t 1 0 0 [] 0 VOLUME (replicate DOMAINS None) [] 0 0 (mkScrubbed 0 0 0) None in
        match (_ ← mount_pass; size_retained) st with
        | (Done _, st) => Done st
        | (Refuse e, _) => Refuse e
        | (Crash, _) => Crash
        end in
      match found with
      | Refuse e => (Refuse e, keeper)
      | Crash => (Crash, keeper)
      | Done (Some key) => (begin key None (if (nth 12 s 0 =? KEY_KEPT)%Z then Some (slice s 48 8, key) else None) d b, keeper)
      | Done None =>
          if negb (writable d) then (Refuse ReadOnly, keeper) else
          let '(key, kept, keeper) := make_key t key_bytes id_bytes keeper d in
          let '(ok, d) := dwrite 0 (superblock (Some key) kept) d in
          if negb ok then (Refuse Device, keeper) else
          let '(ok, d) := dflush d in
          if negb ok then (Refuse Device, keeper) else
          (begin key (Some (bool_decide (is_Some key_bytes))) (match kept with Some id => Some (id, key) | None => None end) d b, keeper)
      end
  end.

(** ** Recovery keys *)
(** [recover]: the volume key from the first recovery record that opens, given to the keeper. *)
Fixpoint recover_loop (fuel : nat) (s : bytes) (ks : Keys) (at_ : Z) : MB bytes :=
  match fuel with
  | O => lift Crash
  | S fuel =>
      r ← find_recovery at_;
      match r with
      | None => fail StoreNames.Key
      | Some here =>
          _ ← read_into here 1;
          b ← buffer_of;
          let '(b, ok) := open_frame (Some ks) b here 1 RECOVERY in
          if (ok : bool) then
            _ ← leave_buffer (overwrite b 0 (replicate SECTOR 0%Z));
            v ← lift (or_refuse (parse_recovery (take SECTOR b)) StoreNames.Key);
            if opens s v then mret v else fail StoreNames.Key
          else _ ← leave_buffer b; recover_loop fuel s ks (here + 1)
      end
  end.
Definition recover (recovery : bytes) (keeper : K) : STE SError (D * bytes) K :=
  m ← size_of_medium;
  if (m <? 2)%Z then fail Foreign else
  s ← read_into 0 1;
  _ ← lift (check_superblock s);
  let kind := nth 12 s 0%Z in
  id ← lift (if (kind =? KEY_KEPT)%Z && negb (any_set (slice s 56 (80 - 56))) then Done (slice s 48 8) else
    if (kind =? KEY_NONE)%Z || (kind =? KEY_CLEAR)%Z then Refuse Invalid else Refuse StoreNames.Key);
  v ← recover_loop (S (Z.to_nat m)) s (keys_recovery recovery id) 1;
  let '(ok, keeper) := kput id v keeper in
  if ok : bool then mret keeper else fail (Kept id).

Definition remember (at_ : Z) (s : Store) : Store :=
  let s := if length (recoveries s) <? RECOVERIES then set_recoveries (recoveries s ++ [at_]) s else s in
  set_recovered (recovered s + 1) s.
Definition recovery_new (random : option bytes) : SM bytes :=
  w ← gets (fun s => writable (dev s));
  if negb w then fail ReadOnly else
  k ← gets (fun s => kept_key (cfg s));
  '(id, volume) ← lift (or_refuse k Invalid);
  r ← lift (or_refuse random NoRandom);
  at_ ← room 1;
  _ ← modify (claim at_ 1);
  _ ← modify (fun s => set_buffer (overwrite (buffer s) FRAME (recovery_record volume)) s);
  _ ← write_under at_ RECOVERY_RECORD RECOVERY (keys_recovery r id);
  _ ← modify (remember at_);
  mret r.
Definition least (l : list Z) : option Z := match l with [] => None | x :: l => Some (foldr Z.min x l) end.
Definition next_recovery (from : Z) : SM (option Z) :=
  s ← gets (fun s => s);
  if (recovered s =? Z.of_nat (length (recoveries s)))%Z then mret (least (List.filter (fun p => (from <=? p)%Z) (recoveries s)))
  else on_medium (find_recovery from).
Definition recovery_opens (at_ : Z) (ks : Keys) (volume : bytes) : SM bool :=
  _ ← read_at at_ 1;
  b ← gets buffer;
  let '(b, ok) := open_frame (Some ks) b at_ 1 RECOVERY in
  _ ← modify (set_buffer (overwrite b 0 (replicate SECTOR 0%Z)));
  mret (ok && bool_decide (parse_recovery (take SECTOR b) = Some volume)).
Fixpoint erase_recoveries (fuel : nat) (keep : option (Keys * bytes)) (from erased : Z) : SM Z :=
  match fuel with
  | O => lift Crash
  | S fuel =>
      r ← next_recovery from;
      match r with
      | None => mret erased
      | Some at_ =>
          opens ← (match keep with Some (ks, v) => recovery_opens at_ ks v | None => mret false end);
          if opens : bool then erase_recoveries fuel keep (at_ + 1) erased else
          _ ← erase at_ 1;
          _ ← modify (fun s => match Prelude.position (fun p => (p =? at_)%Z) (recoveries s) with Some k => set_recoveries (delete k (recoveries s)) s | None => s end);
          n ← gets recovered;
          n ← lift (minus n 1);
          _ ← modify (set_recovered n);
          _ ← modify (release at_ 1);
          erase_recoveries fuel keep (at_ + 1) (erased + 1)
      end
  end.
Fixpoint opens_one (fuel : nat) (ks : Keys) (volume : bytes) (from : Z) : SM unit :=
  match fuel with
  | O => lift Crash
  | S fuel =>
      r ← next_recovery from;
      at_ ← lift (or_refuse r StoreNames.Key);
      ok ← recovery_opens at_ ks volume;
      if ok : bool then mret tt else opens_one fuel ks volume (at_ + 1)
  end.
Definition recovery_keep (recovery : bytes) : SM Z :=
  w ← gets (fun s => writable (dev s));
  if negb w then fail ReadOnly else
  k ← gets (fun s => kept_key (cfg s));
  '(id, volume) ← lift (or_refuse k Invalid);
  let ks := keys_recovery recovery id in
  m ← gets (fun s => sectors (dev s));
  _ ← opens_one (S (Z.to_nat m)) ks volume 1;
  erase_recoveries (S (Z.to_nat m)) (Some (ks, volume)) 1 0.
Definition recovery_forget : SM Z :=
  w ← gets (fun s => writable (dev s));
  if negb w then fail ReadOnly else
  m ← gets (fun s => sectors (dev s));
  erase_recoveries (S (Z.to_nat m)) None 1 0.

(** ** Scrubbing *)
(** [check]: whether a record opens and is whole, and the sectors it covers. *)
Definition check_record (here n id : Z) : SM (bool * Z) :=
  if (id =? RECOVERY)%Z && (n =? 1)%Z then mret (true, n) else
  s ← gets (fun s => s);
  let known := if negb (id =? VOLUME)%Z && negb (id =? KEYS)%Z then
    match domain_of id s with Some d => if forgotten d then Some true else None | None => Some false end else None in
  match known with
  | Some whole => mret (whole, n)
  | None =>
      opened ← open_at here (Z.to_nat n) id;
      if negb opened then mret (false, n) else
      b ← gets buffer;
      let sector := take SECTOR b in
      let one := (n =? 1)%Z in
      if (id =? KEYS)%Z then mret (one && bool_decide (is_Some (parse_key sector)), n) else
      match parse_header sector with
      | Some (c, size) => if (record_sectors (Z.of_nat size) =? n)%Z then whole ← intact c size; mret (whole, n) else mret (false, n)
      | None =>
      match parse_txn sector with
      | Some count => mret ((sealed_sectors (Z.of_nat ((1 + count) * SECTOR)) =? n)%Z && bool_decide (is_Some (commit_entries b count)), n)
      | None =>
      match (m ← parse_free sector; if one && (id =? VOLUME)%Z && (here + m <=? sectors (dev s))%Z then Some m else None) with
      | Some m => mret (true, m)
      | None => mret (one && (bool_decide (is_Some (parse_name sector)) || bool_decide (is_Some (parse_pin sector))), n)
      end end end
  end.
(** A window of the scrub: where the next one starts; [found] is told of each record that is not whole. *)
Definition indexed_at (here : Z) (s : Store) : option Cid :=
  e ← List.find (fun e => used e && (lba e =? here)%Z) (slots (ix s)); match from_bytes (key e) with Ok c => Some c | Err _ => None end.
Fixpoint scrub_window (w : nat) (b : bytes) (here : Z) (found : list (Z * option Cid)) : SM (Z * list (Z * option Cid)) :=
  match w with
  | O => mret (here, found)
  | S w =>
      let sector := take SECTOR b in
      m ← gets (fun s => sectors (dev s));
      match (n ← parse_frame sector; if (here + n <=? m)%Z then Some n else None) with
      | Some n =>
          '(whole, c) ← check_record here n (of_le (slice sector 10 2));
          s ← gets (fun s => s);
          let r := scrubbing s in
          _ ← modify (set_scrubbing (mkScrubbed (s_records r + 1) (if whole then s_corrupt r else s_corrupt r + 1) (s_damaged r)));
          mret (here + c, if (whole : bool) then found else found ++ [(here, indexed_at here s)])%Z
      | None =>
          _ ← modify (fun s => let r := scrubbing s in if any_set sector then set_scrubbing (mkScrubbed (s_records r) (s_corrupt r) (s_damaged r + 1)) s else s);
          scrub_window w (drop SECTOR b) (here + 1) found
      end
  end.
Fixpoint scrub_loop (fuel : nat) (done_ budget : Z) (found : list (Z * option Cid)) : SM (list (Z * option Cid)) :=
  match fuel with
  | O => lift Crash
  | S fuel =>
      s ← gets (fun s => s);
      let at_ := scrub_at s in
      if (done_ <? budget)%Z && (at_ <? sectors (dev s))%Z then
        let w := Z.to_nat (Z.min (sectors (dev s) - at_) RECORD_SECTORS) in
        _ ← read_at at_ w;
        b ← gets buffer;
        '(next, found) ← scrub_window w b at_ found;
        _ ← modify (set_scrub_at next);
        scrub_loop fuel (done_ + (next - at_)) budget found
      else mret found
  end.
Definition scrub (budget : Z) : SM (option Scrubbed * list (Z * option Cid)) :=
  _ ← modify (fun s => if (scrub_at s =? 0)%Z then set_scrubbing (mkScrubbed 0 0 0) (set_scrub_at 1 s) else s);
  m ← gets (fun s => sectors (dev s));
  found ← scrub_loop (S (Z.to_nat m)) 0 budget [];
  s ← gets (fun s => s);
  if (scrub_at s <? sectors (dev s))%Z then mret (None, found) else
  _ ← modify (set_scrub_at 0);
  mret (Some (scrubbing s), found).
Definition restart_scrub (s : Store) : Store := set_scrub_at 0 s.

Record Stats : Type := mkStats { st_blocks : Z; st_bytes : Z; st_used : Z; st_sectors : Z; st_corrupt : Z; st_damaged : Z; st_capacity : Z; st_names : Z; st_free : Z; st_pins : Z }.
Definition stats (s : Store) : Stats :=
  mkStats (wrap32 (StoreIndex.count (ix s))) (total (ix s)) (end_ s) (sectors (dev s)) (corrupt s) (damaged s) (wrap32 (Z.of_nat (limit (slots (ix s))))) (wrap32 (Z.of_nat (length (heads s)))) (blank_sectors s) (wrap32 (Z.of_nat (length (pins s)))).
End mount.
