(* ===== verification/StoreLayout.v ===== *)
(** * How a scan walks the block store's medium

    A scan stands at one sector after another: behind a frame's record, behind the run a marker frees, else one sector on. These
    places are a chain that depends only on the sectors it stands at; it goes on unchanged where a record is written over
    sectors it stood at, and where a record it met is made blank. *)
From S2P Require Import Prelude Outcome Sha256 Cid Cbor Dag DagTree Directory Journal StoreRecords StoreNames StoreIndex StoreMedium.
Local Open Scope nat_scope.
#[local] Opaque digest.

(** ** Sectors in a row *)
Definition zero_sector : bytes := replicate SECTOR 0%Z.
Fixpoint image (M : Z -> bytes) (a : Z) (n : nat) : bytes :=
  match n with
  | O => []
  | S n => M a ++ image M (a + 1)%Z n
  end.
Definition whole (M : Z -> bytes) : Prop := forall k, length (M k) = SECTOR.

Lemma length_image M a n : whole M -> length (image M a n) = n * SECTOR.
Proof. intros HM. revert a. induction n as [|n IH]; intros a; [done|]. cbn [image]. rewrite length_app, HM, IH. lia. Qed.
Lemma image_ext M M' a n : (forall k, (a <= k < a + Z.of_nat n)%Z -> M k = M' k) -> image M a n = image M' a n.
Proof. revert a. induction n as [|n IH]; intros a H; [done|]. cbn [image]. f_equal; [apply H; lia|apply IH; intros k Hk; apply H; lia]. Qed.
Lemma image_app M a n n' : image M a (n + n') = image M a n ++ image M (a + Z.of_nat n) n'.
Proof. revert a. induction n as [|n IH]; intros a; [by rewrite Z.add_0_r|]. cbn [image Nat.add]. rewrite IH, <- app_assoc. do 3 f_equal. lia. Qed.
Lemma image_first M a n : whole M -> take SECTOR (image M a (S n)) = M a.
Proof. intros HM. cbn [image]. rewrite take_app_le by (rewrite HM; lia). apply take_ge. rewrite HM. lia. Qed.
Lemma image_at M a n k : whole M -> k < n -> M (a + Z.of_nat k)%Z = slice (image M a n) (k * SECTOR) SECTOR.
Proof.
  intros HM Hk. replace n with (k + S (n - k - 1)) by lia. rewrite image_app. unfold slice. rewrite drop_app_ge by (rewrite length_image by done; lia). rewrite length_image, Nat.sub_diag, drop_0 by done. by rewrite image_first.
Qed.
Lemma image_eq M M' a n : whole M -> whole M' -> image M a n = image M' a n -> forall k, (a <= k < a + Z.of_nat n)%Z -> M k = M' k.
Proof. intros HM HM' E k Hk. replace k with (a + Z.of_nat (Z.to_nat (k - a)))%Z by lia. rewrite (image_at M a n), (image_at M' a n) by (done || lia). by rewrite E. Qed.
Lemma image_zero M a n : whole M -> image M a n = replicate (n * SECTOR) 0%Z -> forall k, (a <= k < a + Z.of_nat n)%Z -> M k = zero_sector.
Proof.
  intros HM E k Hk. apply (image_eq M (fun _ => zero_sector) a n); [done|intros ?; apply length_replicate| |done]. rewrite E. clear. revert a. induction n as [|n IH]; intros a; [done|]. cbn [image]. rewrite <- IH. unfold zero_sector. rewrite <- replicate_add. f_equal.
Qed.

(** ** Frames *)
Lemma parse_frame_app x y : 16 <= length x -> parse_frame (x ++ y) = parse_frame x.
Proof. intros H. unfold parse_frame. rewrite take_app_le by lia. by rewrite !slice_app_before by lia. Qed.
Lemma parse_frame_zero : parse_frame zero_sector = None.
Proof. reflexivity. Qed.
Lemma parse_frame_bound sec n : parse_frame sec = Some n -> (1 <= n <= RECORD_SECTORS)%Z.
Proof. unfold parse_frame. destruct (_ || _); [done|]. destruct (_ && _) eqn:E; [|done]. intros [= <-]. lia. Qed.

Section opening.
Context `{!Crypto}.
Lemma open_frame_app k x rest a n id : length x = n * SECTOR -> open_frame k (x ++ rest) a n id = ((open_frame k x a n id).1 ++ rest, (open_frame k x a n id).2).
Proof.
  intros Hx. unfold open_frame. rewrite take_app_le, drop_app_ge by lia. rewrite Hx, Nat.sub_diag, drop_0, (take_ge x), (drop_ge x (n * SECTOR)) by lia. destruct (if bool_decide _ && bool_decide _ then _ else _) as [data|]; cbn [fst snd]; rewrite ?app_nil_r, <- ?app_assoc; done.
Qed.
Lemma open_frame_true k x a n id b : length x = n * SECTOR -> open_frame k x a n id = (b, true) -> parse_frame x = Some (Z.of_nat n) /\ slice x 10 2 = to_le 2 id /\ is_Some k.
Proof.
  intros Hx. unfold open_frame. rewrite (take_ge x) by lia. destruct (bool_decide (parse_frame x = _)) eqn:E1; [|done]. destruct (bool_decide (slice x 10 2 = _)) eqn:E2; [|done]. apply bool_decide_eq_true in E1, E2. cbn [andb].
  destruct k as [k|]; [|done]. intros _. eauto.
Qed.
Lemma open_frame_none x a n id : (open_frame None x a n id).2 = false.
Proof. unfold open_frame. by destruct (_ && _). Qed.
End opening.

(** ** The places of a scan *)
Section chain.
Context {cipher : Crypto} (vk : Keys) (m : Z).
Definition frame_at (sec : bytes) (k : Z) : option Z := n ← parse_frame sec; if (k + n <=? m)%Z then Some n else None.
Definition frame_domain (sec : bytes) : Z := of_le (slice sec 10 2).
(** The run a marker at [k] frees. *)
Definition marker (sec : bytes) (k : Z) : option Z :=
  if (frame_domain sec =? VOLUME)%Z && bool_decide (frame_at sec k = Some 1%Z) then
    let '(b, ok) := open_frame (Some vk) sec k 1 VOLUME in
    if (ok : bool) then n ← parse_free b; if (k + n <=? m)%Z then Some n else None else None
  else None.
Definition covers (sec : bytes) (k : Z) : Z := match frame_at sec k with Some n => default n (marker sec k) | None => 1 end.

Lemma frame_at_bound sec k n : frame_at sec k = Some n -> (1 <= n <= RECORD_SECTORS)%Z /\ (k + n <= m)%Z.
Proof. unfold frame_at. destruct (parse_frame sec) as [n'|] eqn:E; [|done]. cbn. destruct (Z.leb_spec (k + n') m); [|done]. intros [= <-]. split; [by apply (parse_frame_bound sec)|done]. Qed.
Lemma parse_free_pos b n : parse_free b = Some n -> (1 <= n)%Z.
Proof. unfold parse_free. destruct (_ || _); [done|]. destruct (_ || _); [done|]. destruct (Z.leb_spec 1 (of_le (slice b 12 4))); [|done]. by intros [= <-]. Qed.
Lemma marker_bound sec k n : marker sec k = Some n -> (1 <= n)%Z /\ (k + n <= m)%Z.
Proof.
  unfold marker. destruct (_ && _); [|done]. destruct (open_frame _ _ _ _ _) as [b ok]. destruct ok; [|done]. destruct (parse_free b) as [n'|] eqn:E; [|done]. cbn. destruct (Z.leb_spec (k + n') m); [|done]. intros [= <-]. split; [by apply (parse_free_pos b)|done].
Qed.
Lemma covers_pos sec k : (1 <= covers sec k)%Z.
Proof.
  unfold covers. destruct (frame_at sec k) as [n|] eqn:E; [|lia]. destruct (marker sec k) as [n'|] eqn:E'; cbn; [apply marker_bound in E' as [? ?]; lia|apply frame_at_bound in E as [[? ?] ?]; lia].
Qed.
Lemma covers_end sec k : (k < m)%Z -> (k + covers sec k <= m)%Z.
Proof. intros Hk. unfold covers. destruct (frame_at sec k) as [n|] eqn:E; [|lia]. destruct (marker sec k) as [n'|] eqn:E'; cbn; [apply marker_bound in E' as [? ?]; lia|apply frame_at_bound in E as [[? ?] ?]; lia]. Qed.
Lemma covers_zero k : covers zero_sector k = 1%Z.
Proof. unfold covers, frame_at. by rewrite parse_frame_zero. Qed.

Fixpoint pos (M : Z -> bytes) (i : nat) : Z := match i with O => 1 | S i => let k := pos M i in k + covers (M k) k end%Z.
Definition visited (M : Z -> bytes) (k : Z) : Prop := exists i, pos M i = k.
Lemma pos_mono M i j : i < j -> (pos M i + covers (M (pos M i)) (pos M i) <= pos M j)%Z.
Proof. induction 1 as [|j _ IH]; [done|]. cbn [pos]. pose proof (covers_pos (M (pos M j)) (pos M j)). lia. Qed.
Lemma visited_start M : visited M 1.
Proof. by exists 0. Qed.
Lemma visited_next M k : visited M k -> visited M (k + covers (M k) k).
Proof. intros [i <-]. by exists (S i). Qed.
Lemma visited_pos M k : visited M k -> (1 <= k)%Z.
Proof. intros [i <-]. induction i as [|i IH]; [done|]. cbn [pos]. pose proof (covers_pos (M (pos M i)) (pos M i)). lia. Qed.
(** Nothing between a place and the next. *)
Lemma visited_apart M a k : visited M a -> visited M k -> (a < k)%Z -> (a + covers (M a) a <= k)%Z.
Proof.
  intros [i <-] [j <-] Hlt. destruct (decide (i < j)) as [Hij|Hij]; [by apply pos_mono|]. exfalso. destruct (decide (i = j)) as [->|]; [lia|]. pose proof (pos_mono M j i ltac:(lia)). pose proof (covers_pos (M (pos M j)) (pos M j)). lia.
Qed.

(** A stretch [a, a + c) between two places, changed so that a scan still comes from its start to its end. *)
Lemma visited_before M M' a : (forall k, (k < a)%Z -> M' k = M k) -> forall k, visited M k -> (k <= a)%Z -> visited M' k.
Proof.
  intros HM k [i <-]. induction i as [|i IH]; intros Hk; [apply visited_start|]. cbn [pos] in *. set (k := pos M i) in *. pose proof (covers_pos (M k) k). rewrite <- (HM k) by lia. apply visited_next, IH. lia.
Qed.
Lemma visited_change M M' a c : (1 <= c)%Z -> visited M a -> visited M (a + c) -> (forall k, (k < a \/ a + c <= k)%Z -> M' k = M k) -> (visited M' a -> visited M' (a + c)) ->
  forall k, visited M k -> (k <= a \/ a + c <= k)%Z -> visited M' k.
Proof.
  intros Hc Ha Hac HM Hreach k [i <-]. assert (visited M' (a + c)) as Hend by (apply Hreach, (visited_before M M' a); [intros; apply HM; lia|done|lia]). induction i as [|i IH]; intros Hk; [apply visited_start|]. cbn [pos] in *. set (k := pos M i) in *. pose proof (covers_pos (M k) k) as Hcp.
  assert (visited M k) as Hv by (by exists i). destruct (decide (k + covers (M k) k <= a)%Z) as [Hle|Hle]; [rewrite <- (HM k) by lia; apply visited_next, IH; lia|]. destruct (decide (a + c <= k)%Z) as [Hge|Hge]; [rewrite <- (HM k) by lia; apply visited_next, IH; lia|].
  pose proof (visited_apart M k (a + c) Hv Hac ltac:(lia)). replace (k + covers (M k) k)%Z with (a + c)%Z by lia. done.
Qed.
Lemma visited_zeros M a c : (0 <= c)%Z -> visited M a -> (forall k, (a <= k < a + c)%Z -> M k = zero_sector) -> forall k, (a <= k <= a + c)%Z -> visited M k.
Proof.
  intros Hc Ha HM k Hk. replace k with (a + Z.of_nat (Z.to_nat (k - a)))%Z by lia. assert (Z.of_nat (Z.to_nat (k - a)) <= c)%Z as Hn by lia. revert Hn. generalize (Z.to_nat (k - a)) as n. induction n as [|n IH]; intros Hn; [by rewrite Z.add_0_r|].
  pose proof (visited_next M _ (IH ltac:(lia))) as H. rewrite HM, covers_zero in H by lia. by replace (a + Z.of_nat (S n))%Z with (a + Z.of_nat n + 1)%Z by lia.
Qed.
(** A record made blank: every place stays one, and the record's sectors become places. *)
Lemma visited_erased M M' a : visited M a -> let c := covers (M a) a in (forall k, (k < a \/ a + c <= k)%Z -> M' k = M k) -> (forall k, (a <= k < a + c)%Z -> M' k = zero_sector) ->
  (forall k, visited M k -> visited M' k) /\ forall k, (a <= k <= a + c)%Z -> visited M' k.
Proof.
  intros Ha c HM Hz. pose proof (covers_pos (M a) a) as Hc. fold c in Hc. assert (visited M (a + c)) as Hac by (by apply visited_next). assert (visited M' a) as Ha' by (apply (visited_before M M' a); [intros; apply HM; lia|done|lia]).
  assert (forall k, (a <= k <= a + c)%Z -> visited M' k) as Hin by (apply visited_zeros; [lia|done|done]). split; [|done]. intros k Hk. destruct (decide (a <= k <= a + c)%Z) as [H|H]; [by apply Hin|].
  apply (visited_change M M' a c Hc Ha Hac HM); [intros _; apply Hin; lia|done|lia].
Qed.
(** A record written over blank sectors that are places: every other place stays one. *)
Lemma visited_written M M' a n : (1 <= n)%Z -> (forall k, (a <= k <= a + n)%Z -> visited M k) -> (forall k, (k < a \/ a + n <= k)%Z -> M' k = M k) -> covers (M' a) a = n ->
  forall k, visited M k -> (k <= a \/ a + n <= k)%Z -> visited M' k.
Proof. intros Hn Hv HM Hc. apply (visited_change M M' a n Hn); [apply Hv; lia|apply Hv; lia|done|]. intros Ha. rewrite <- Hc. by apply visited_next. Qed.
End chain.
