(* ===== verification/StoreInv.v ===== *)
(** * The block store's invariant

    While the medium keeps what is written to it, every block in the index lies whole at a place of the scan, and the runs of blank
    sectors are places of it too. This file states that, and shows that reading, claiming room, writing a record into it and
    erasing a record keep it. A device call that fails ends what is promised. *)
From S2P Require Import Prelude Outcome Sha256 Cid Cbor Dag DagTree Directory Journal StoreRecords StoreNames StoreIndex StoreMedium StorePass StoreLayout.
Local Open Scope nat_scope.
Lemma buffer_eq : BUFFER = Z.to_nat RECORD_SECTORS * SECTOR.
Proof. reflexivity. Qed.
Lemma frame_small : FRAME <= SECTOR.
Proof. apply Nat.leb_le. reflexivity. Qed.
Lemma sector_pos : (0 < Z.of_nat SECTOR)%Z.
Proof. reflexivity. Qed.
#[local] Opaque digest SECTOR BUFFER RECORD_SECTORS.

(** What a medium promises: sectors of a fixed size, reads that give them and change nothing, a write that succeeds and changes
    what it wrote, a flush. Of calls that fail nothing but that a read changes nothing. *)
Class MediumLaws (D : Type) `{!Medium D} : Type := {
  sector : D -> Z -> bytes;
  sector_length : forall d k, length (sector d k) = SECTOR;
  read_law : forall d at_ n, let '(r, d') := dread at_ n d in (forall k, sector d' k = sector d k) /\ sectors d' = sectors d /\ writable d' = writable d /\ forall b, r = Some b -> b = image (sector d) at_ n;
  write_law : forall d at_ b d' n, dwrite at_ b d = (true, d') -> length b = n * SECTOR -> (0 <= at_)%Z -> (at_ + Z.of_nat n <= sectors d)%Z ->
    sectors d' = sectors d /\ writable d' = writable d /\ image (sector d') at_ n = b /\ forall k, (k < at_ \/ at_ + Z.of_nat n <= k)%Z -> sector d' k = sector d k;
  flush_law : forall d d', dflush d = (true, d') -> (forall k, sector d' k = sector d k) /\ sectors d' = sectors d /\ writable d' = writable d
}.

Section invariant.
Context {D : Type} {med_ops : Medium D} {med_laws : MediumLaws D} {cipher : Crypto} {cipher_laws : CryptoLaws}.
Local Abbreviation Store := (StoreMedium.Store D).
Local Abbreviation SM := (STE SError Store).

Definition med (s : Store) : Z -> bytes := sector (dev s).
Definition size_ (s : Store) : Z := sectors (dev s).
Definition vkeys (s : Store) : Keys := keys (cfg s).
Definition place (s : Store) (k : Z) : Prop := visited (vkeys s) (size_ s) (med s) k.
Lemma whole_med s : whole (med s).
Proof. intros k. apply sector_length. Qed.

(** The record at a place: [n] sectors sealed in domain [id], which open to [b]. *)
Record record_at (s : Store) (k id n : Z) (b : bytes) : Prop := {
  r_place : place s k;
  r_frame : frame_at (size_ s) (med s k) k = Some n;
  r_domain : (0 <= id < W16)%Z;
  r_open : open_frame (keys_for id s) (image (med s) k (Z.to_nat n)) k (Z.to_nat n) id = (b, true)
}.
(** The block an entry of the index names, whole. *)
Record block_at (s : Store) (e : StoreIndex.Entry) (c : Cid) (data : bytes) : Prop := {
  b_key : key e = to_bytes c;
  b_good : cid_ok c;
  b_len : len e = Z.of_nat (length data);
  b_max : (len e <= BLOCK_MAX)%Z;
  b_live : domain e <> KEYS;
  b_bytes : Forall is_byte data;
  b_matches : matches c data = true;
  b_typed : typed_block (codec c) data = Done true;
  b_record : exists b, record_at s (lba e) (domain e) (record_sectors (len e)) b /\ parse_header (take SECTOR b) = Some (c, length data) /\ slice b HEADER (length data) = data
}.
(** A run of blank sectors, all places of the scan. *)
Record blank_run (s : Store) (from n : Z) : Prop := {
  h_start : (1 <= from)%Z; h_len : (0 < n)%Z; h_end : (from + n <= size_ s)%Z;
  h_blank : forall k, (from <= k < from + n)%Z -> place s k /\ med s k = zero_sector
}.
Fixpoint sorted_runs (from : Z) (hs : list Extent) : Prop :=
  match hs with
  | [] => True
  | h :: hs => (from <= start h)%Z /\ sorted_runs (start h + run_len h) hs
  end.
Record Inv (s : Store) : Prop := {
  i_buffer : length (buffer s) = BUFFER;
  i_size : (1 < size_ s <= 2 ^ 32)%Z;
  i_index : exists mp, simulates (ix s) mp /\ base.size mp <= limit (slots (ix s));
  i_holes : forall h, h ∈ holes s -> blank_run s (start h) (run_len h);
  i_sorted : sorted_runs 1 (holes s);
  i_blocks : forall e, present (slots (ix s)) e -> exists c data, block_at s e c data;
  i_domains : forall d, Some d ∈ domains s -> forgotten d = false /\ (0 < d_id d < RECOVERY)%Z
}.

(** ** States that are alike *)
(** The medium and what its records open with are the same. *)
Record sees (s s' : Store) : Prop := { v_med : forall k, med s' k = med s k; v_size : size_ s' = size_ s; v_cfg : cfg s' = cfg s; v_keys : forall id, keys_for id s' = keys_for id s }.
(** All that the invariant looks at is the same, and what requests answer from; the domains but for their counts of records. *)
Record alike (s s' : Store) : Prop := {
  a_sees : sees s s'; a_ix : ix s' = ix s; a_holes : holes s' = holes s; a_writable : writable (dev s') = writable (dev s); a_heads : heads s' = heads s; a_pins : pins s' = pins s; a_cur : cur s' = cur s; a_now : now s' = now s;
  a_domains : map no_records (domains s') = map no_records (domains s); a_buffer : length (buffer s) = BUFFER -> length (buffer s') = BUFFER
}.
#[global] Instance sees_pre : PreOrder sees.
Proof. split; [by intros s|]. intros s1 s2 s3 [A1 A2 A3 A4] [B1 B2 B3 B4]. split; [intros k; by rewrite B1|congruence|congruence|intros id; by rewrite B4]. Qed.
#[global] Instance alike_pre : PreOrder alike.
Proof. split; [by intros s|]. intros s1 s2 s3 [A1 A2 A3 A4 A5 A6 A7 A8 A9 A10] [B1 B2 B3 B4 B5 B6 B7 B8 B9 B10]. split; [by transitivity s2|congruence..|auto]. Qed.
Lemma pos_ext vk m M M' i : (forall k, M' k = M k) -> pos vk m M' i = pos vk m M i.
Proof. intros H. induction i as [|i IH]; [done|]. cbn [pos]. by rewrite IH, H. Qed.
Lemma place_sees s s' k : sees s s' -> place s' k <-> place s k.
Proof. intros [Hm Hs Hc _]. unfold place, visited, vkeys. rewrite Hs, Hc. split; intros [i Hi]; exists i; [rewrite <- Hi; symmetry; by apply pos_ext|rewrite <- Hi; by apply pos_ext]. Qed.
Lemma record_sees s s' k id n b : sees s s' -> record_at s k id n b -> record_at s' k id n b.
Proof.
  intros Ha [H1 H2 H3 H4]. split; [by apply (place_sees s s')| |done|]; [by rewrite (v_size _ _ Ha), (v_med _ _ Ha)|]. rewrite (v_keys s s') by done. rewrite (image_ext (med s') (med s)) by (intros; apply Ha). done.
Qed.
Lemma block_sees s s' e c x : sees s s' -> block_at s e c x -> block_at s' e c x.
Proof. intros Ha [H1 H2 H3 H4 H5 H9 H6 H7 (b & Hb & H8)]. split; [done..|]. exists b. split; [by apply (record_sees s s')|done]. Qed.
Lemma run_sees s s' f n : sees s s' -> blank_run s f n -> blank_run s' f n.
Proof. intros Ha [H1 H2 H3 H4]. split; [done|done|by rewrite (v_size _ _ Ha)|]. intros k Hk. destruct (H4 k Hk). split; [by apply (place_sees s s')|]. by rewrite (v_med _ _ Ha). Qed.
Definition domains_live (s : Store) : Prop := forall d, Some d ∈ domains s -> forgotten d = false /\ (0 < d_id d < RECOVERY)%Z.
Lemma Inv_sees s s' : sees s s' -> Inv s -> ix s' = ix s -> length (buffer s') = BUFFER -> sorted_runs 1 (holes s') -> (forall h, h ∈ holes s' -> blank_run s (start h) (run_len h)) -> domains_live s' -> Inv s'.
Proof.
  intros Ha [H1 H2 H3 H4 H5 H6 H7] Ei Hb Hs Hh Hd. split; [done|by rewrite (v_size _ _ Ha)|by rewrite Ei| |done| |done].
  - intros h Hi. apply (run_sees s s'); auto.
  - intros e. rewrite Ei. intros He. destruct (H6 e He) as (c & x & Hbl). exists c, x. by apply (block_sees s s').
Qed.
Lemma domains_counts (s s' : Store) : map no_records (domains s') = map no_records (domains s) -> domains_live s -> domains_live s'.
Proof.
  intros E Hl d Hd. assert (no_records (Some d) ∈ map no_records (domains s')) as Hi by (by apply list_elem_of_fmap_2). rewrite E in Hi. apply list_elem_of_fmap in Hi as ([d'|] & E' & Hi); [|done]. destruct (Hl d' Hi) as [F1 F2]. cbn in E'. injection E' as -> _ -> _ _ _. done.
Qed.
Lemma Inv_alike s s' : alike s s' -> Inv s -> Inv s'.
Proof. intros Ha Hi. apply (Inv_sees s s'); [apply Ha|done|apply Ha|by apply Ha, Hi|rewrite (a_holes _ _ Ha); apply Hi|rewrite (a_holes _ _ Ha); apply Hi|]. apply (domains_counts s s'); [apply Ha|exact (i_domains s Hi)]. Qed.

(** ** Runs *)
(** [Q] holds where a run ends well, [F] of the error where it is refused; [K] says whether it may panic. *)
Definition ends (F : SError -> Store -> Prop) (K : Prop) {A} (m : SM A) (s : Store) (Q : A -> Store -> Prop) : Prop :=
  match m s with (Done a, s') => Q a s' | (Refuse e, s') => F e s' | (Crash, _) => K end.
Lemma ends_bind {A B} F K (m : SM A) (k : A -> SM B) s P Q : ends F K m s P -> (forall a s', P a s' -> ends F K (k a) s' Q) -> ends F K (m ≫= k) s Q.
Proof. unfold ends, mbind, st_bind. intros Hm Hk. destruct (m s) as [[a|e|] s']; [by apply Hk|done|done]. Qed.
Lemma ends_gets {A B} F K (f : Store -> A) (k : A -> SM B) s Q : ends F K (k (f s)) s Q -> ends F K (gets f ≫= k) s Q.
Proof. done. Qed.
(** While the device fails no call: [E] where a run is refused for any other reason. *)
Definition runs (E : Store -> Prop) {A} (m : SM A) (s : Store) (Q : A -> Store -> Prop) : Prop := ends (fun e s' => e = StoreNames.Device \/ E s') True m s Q.
Lemma runs_bind {A B} E (m : SM A) (k : A -> SM B) s P Q : runs E m s P -> (forall a s', P a s' -> runs E (k a) s' Q) -> runs E (m ≫= k) s Q.
Proof. apply ends_bind. Qed.
Lemma runs_ret {A} E (a : A) s (Q : A -> Store -> Prop) : Q a s -> runs E (mret a) s Q.
Proof. done. Qed.
Lemma runs_gets {A B} E (f : Store -> A) (k : A -> SM B) s Q : runs E (k (f s)) s Q -> runs E (gets f ≫= k) s Q.
Proof. done. Qed.
Lemma runs_modify {B} E (f : Store -> Store) (k : unit -> SM B) s Q : runs E (k tt) (f s) Q -> runs E (modify f ≫= k) s Q.
Proof. done. Qed.
Lemma runs_lift {A B} (E : Store -> Prop) (o : outcome SError A) (k : A -> SM B) s Q : E s -> (forall a, o = Done a -> runs E (k a) s Q) -> runs E (lift o ≫= k) s Q.
Proof. intros Hi Hk. destruct o as [a|e|]; [by apply Hk|by right|done]. Qed.
Lemma runs_fail {A} (E : Store -> Prop) e s (Q : A -> Store -> Prop) : E s -> runs E (fail e) s Q.
Proof. intros H. by right. Qed.
Lemma runs_weaken {A} (E E' : Store -> Prop) (m : SM A) s (P Q : A -> Store -> Prop) : runs E m s P -> (forall s', E s' -> E' s') -> (forall a s', P a s' -> Q a s') -> runs E' m s Q.
Proof. unfold runs, ends. destruct (m s) as [[a|e|] s']; [auto| |auto]. intros [Hd|He] Hw _; [by left|right; auto]. Qed.

(** ** Reading *)
(** Only the medium was read, into the buffer. *)
Definition reread (s s' : Store) : Prop := exists d b, s' = set_buffer b (set_dev d s) /\ (forall k, sector d k = med s k) /\ sectors d = size_ s /\ writable d = writable (dev s) /\ (length (buffer s) = BUFFER -> length b = BUFFER).
Lemma reread_alike s s' : reread s s' -> alike s s'.
Proof. intros (d & b & -> & H1 & H2 & H3 & H4). by repeat split. Qed.
Lemma overwrite_start (b x : bytes) : length x <= length b -> overwrite b 0 x = x ++ drop (length x) b.
Proof. intros H. unfold overwrite. by rewrite take_0. Qed.
Lemma sectors_fit n : (Z.of_nat n <= RECORD_SECTORS)%Z -> n * SECTOR <= BUFFER.
Proof. intros H. rewrite buffer_eq. apply Nat.mul_le_mono_r. lia. Qed.
Section reads.
Context (F : SError -> Store -> Prop) (K : Prop).
Lemma ends_read {B} at_ n (k : unit -> SM B) s Q : length (buffer s) = BUFFER -> (Z.of_nat n <= RECORD_SECTORS)%Z -> (forall s', alike s s' -> F StoreNames.Device s') ->
  (forall s', reread s s' -> buffer s' = image (med s) at_ n ++ drop (n * SECTOR) (buffer s) -> ends F K (k tt) s' Q) -> ends F K (read_at at_ n ≫= k) s Q.
Proof using All.
  intros Hb Hn HF Hk. pose proof (sectors_fit n Hn) as Hf. unfold read_at, ends, mbind, st_bind. pose proof (read_law (dev s) at_ n) as L. destruct (dread at_ n (dev s)) as [[b|] d]; destruct L as (L1 & L2 & L3 & L4); [|apply HF; by repeat split]. rewrite (L4 b eq_refl) in *. clear L4.
  assert (length (image (med s) at_ n) = n * SECTOR) as Hl by (apply length_image, whole_med). change (sector (dev s)) with (med s). rewrite overwrite_start by lia. rewrite Hl.
  apply Hk; [|done]. exists d, (image (med s) at_ n ++ drop (n * SECTOR) (buffer s)). split; [done|]. split_and!; [done|done|done|]. intros _. rewrite length_app, length_drop. lia.
Qed.
End reads.
Lemma runs_read {B} E at_ n (k : unit -> SM B) s Q : length (buffer s) = BUFFER -> (Z.of_nat n <= RECORD_SECTORS)%Z ->
  (forall s', reread s s' -> buffer s' = image (med s) at_ n ++ drop (n * SECTOR) (buffer s) -> runs E (k tt) s' Q) -> runs E (read_at at_ n ≫= k) s Q.
Proof. intros Hb Hn Hk. apply ends_read; [done|done|by left|done]. Qed.
Lemma length_opened k x a n id : 1 <= n -> length x = n * SECTOR -> length (open_frame k x a n id).1 = n * SECTOR.
Proof.
  intros Hn Hx. unfold open_frame. rewrite (take_ge x), (drop_ge x (n * SECTOR)) by lia. destruct (if bool_decide _ && bool_decide _ then _ else _) as [data|] eqn:E; cbn [fst]; rewrite !length_app, ?length_replicate; cbn [length]; [|lia].
  destruct (_ && _); [|done]. destruct k as [k|]; [|done]. cbn in E. apply open_length in E. rewrite E, length_drop. pose proof frame_small. assert (SECTOR <= n * SECTOR) by nia. change 44 with FRAME. lia.
Qed.
(** What [open] finds: the record in the buffer, or zeros. *)
Lemma ends_open {B} F K at_ n id (k : bool -> SM B) s Q : Inv s -> 1 <= n -> (Z.of_nat n <= RECORD_SECTORS)%Z -> (forall s', alike s s' -> F StoreNames.Device s') ->
  (forall s' b ok, open_frame (keys_for id s) (image (med s) at_ n) at_ n id = (b, ok) -> reread s s' -> length b = n * SECTOR -> buffer s' = b ++ drop (n * SECTOR) (buffer s) -> ends F K (k ok) s' Q) -> ends F K (open_at at_ n id ≫= k) s Q.
Proof.
  intros Hi Hn Hm HF Hk. pose proof (i_buffer s Hi) as Hb. pose proof (length_image (med s) at_ n (whole_med s)) as Hl. destruct (open_frame (keys_for id s) (image (med s) at_ n) at_ n id) as [b ok] eqn:Eo. pose proof (length_opened (keys_for id s) _ at_ n id Hn Hl) as Hlb. rewrite Eo in Hlb. cbn [fst] in Hlb.
  assert (ends F K (open_at at_ n id) s (fun ok' s' => ok' = ok /\ reread s s' /\ buffer s' = b ++ drop (n * SECTOR) (buffer s))) as H.
  { unfold open_at. apply ends_gets. apply ends_read; [done|done|done|]. intros s1 Hr E1. unfold ends, gets, modify, mbind, st_bind, mret, st_ret. rewrite E1, open_frame_app, Eo by done. cbn [fst snd]. split; [done|]. destruct Hr as (d & b1 & -> & R1 & R2 & R3 & R4).
    split; [|done]. exists d, (b ++ drop (n * SECTOR) (buffer s)). split_and!; [done|done|done|done|]. intros _. rewrite length_app, length_drop. pose proof (sectors_fit n Hm). lia. }
  eapply ends_bind; [exact H|]. cbv beta. intros ok' s' (-> & Hr & Eb). by apply (Hk s' b ok).
Qed.
Lemma runs_open {B} E at_ n id (k : bool -> SM B) s Q : Inv s -> 1 <= n -> (Z.of_nat n <= RECORD_SECTORS)%Z ->
  (forall s' b ok, open_frame (keys_for id s) (image (med s) at_ n) at_ n id = (b, ok) -> reread s s' -> length b = n * SECTOR -> buffer s' = b ++ drop (n * SECTOR) (buffer s) -> runs E (k ok) s' Q) -> runs E (open_at at_ n id ≫= k) s Q.
Proof. intros Hi Hn Hm Hk. apply ends_open; [done|done|done|by left|done]. Qed.

(** A block the index names is given. *)
Lemma entry_whole s e c x : Inv s -> block_at s e c x -> 1 <= Z.to_nat (record_sectors (len e)) /\ (Z.of_nat (Z.to_nat (record_sectors (len e))) <= RECORD_SECTORS)%Z.
Proof. intros Hi [_ _ _ _ _ _ _ _ (b & [_ Hf _ _] & _)]. apply frame_at_bound in Hf. lia. Qed.
Lemma intact_whole c (x : bytes) (s : Store) : get_slice (buffer s) HEADER (length x) = Some x -> parse_header (take SECTOR (buffer s)) = Some (c, length x) -> matches c x = true -> typed_block (codec c) x = Done true -> intact c (length x) s = (Done true, s).
Proof. intros Hg Hh Hm Ht. unfold intact, gets, lift, mbind, st_bind. rewrite Hg. cbn [or_crash]. by rewrite Hh, bool_decide_refl, Hm, Ht. Qed.
Lemma ends_verify F K s e c x : Inv s -> (forall s', alike s s' -> F StoreNames.Device s') -> block_at s e c x -> cur s = domain e -> ends F K (verify (lba e) c (length x)) s (fun ok s' => ok = true /\ reread s s' /\ get_slice (buffer s') HEADER (length x) = Some x).
Proof.
  intros Hi HF Hbl Hc. destruct (entry_whole s e c x Hi Hbl) as [Hn1 Hn2]. pose proof Hbl as [_ _ Hlen Hmax _ _ Hm Ht (b & Hr & Hh & Hs)]. unfold verify. apply ends_gets. rewrite <- Hlen, Hc. apply ends_open; [done|done|done|done|]. intros s' b' ok Eo Hre Hlb Eb.
  rewrite (r_open _ _ _ _ _ Hr) in Eo. injection Eo as <- <-. set (n := Z.to_nat (record_sectors (len e))) in *. assert (SECTOR <= n * SECTOR) as Hsec by nia.
  assert (HEADER + length x <= n * SECTOR) as Hfit. { unfold n. rewrite Hlen. unfold record_sectors, sealed_sectors. pose proof (Z.div_mod (Z.of_nat FRAME + (Z.of_nat HEADER + Z.of_nat (length x)) + (Z.of_nat SECTOR - 1)) (Z.of_nat SECTOR)) as Hd. pose proof sector_pos as Hs0. pose proof (Z.mod_pos_bound (Z.of_nat FRAME + (Z.of_nat HEADER + Z.of_nat (length x)) + (Z.of_nat SECTOR - 1)) (Z.of_nat SECTOR) Hs0). specialize (Hd ltac:(lia)). nia. }
  assert (get_slice (buffer s') HEADER (length x) = Some x) as Hg. { unfold get_slice. rewrite Eb. rewrite decide_True by (rewrite length_app, length_drop; lia). f_equal. rewrite slice_app_before by lia. done. }
  unfold ends, mbind, st_bind. rewrite (intact_whole c x s' Hg); [done| |done|done]. by rewrite Eb, take_app_le by lia.
Qed.

(** ** What the index names *)
Lemma to_bytes_inj c c' : to_bytes c = to_bytes c' -> c = c'.
Proof. destruct c as [[] [] d], c' as [[] [] d']; unfold to_bytes; cbn; intros [=]; congruence. Qed.
Lemma record_same s k id id' n n' b b' : record_at s k id n b -> record_at s k id' n' b' -> id = id' /\ n = n' /\ b = b'.
Proof.
  intros [_ Hf Hi Ho] [_ Hf' Hi' Ho']. assert (n = n') as <- by congruence. assert (id = id') as <-; [|split_and!; [done|done|congruence]]. pose proof (length_image (med s) k (Z.to_nat n) (whole_med s)) as Hl.
  destruct (open_frame_true _ _ _ _ _ _ Hl Ho) as (_ & E & _). destruct (open_frame_true _ _ _ _ _ _ Hl Ho') as (_ & E' & _). rewrite E in E'. by rewrite <- (le_2 id), <- (le_2 id'), E'.
Qed.
Lemma block_same s e e' c c' x x' : block_at s e c x -> block_at s e' c' x' -> lba e = lba e' -> key e = key e' /\ domain e = domain e' /\ c = c' /\ x = x'.
Proof.
  intros [K _ L _ _ _ _ _ (b & Hr & Hh & Hs)] [K' _ L' _ _ _ _ _ (b' & Hr' & Hh' & Hs')] E. rewrite <- E in Hr'. destruct (record_same _ _ _ _ _ _ _ _ Hr Hr') as (Ei & _ & <-). assert (c = c' /\ length x = length x') as [<- El] by (rewrite Hh in Hh'; by injection Hh').
  rewrite <- El in Hs'. split_and!; [congruence|done|done|congruence].
Qed.
(** Two entries for one place are one. *)
Lemma entry_same s e e' : Inv s -> present (slots (ix s)) e -> present (slots (ix s)) e' -> lba e = lba e' -> e = e'.
Proof.
  intros Hi He He' E. destruct (i_blocks s Hi e He) as (c & x & Hb), (i_blocks s Hi e' He') as (c' & x' & Hb'). destruct (block_same _ _ _ _ _ _ _ Hb Hb' E) as (Ek & Ed & _). destruct (i_index s Hi) as (mp & Hs & _), He as [p Hp], He' as [q Hq].
  assert (p = q) as <- by (by apply (t_once _ (s_table _ _ Hs) p q e e')). destruct Hp, Hq. congruence.
Qed.
(** What the store holds: [x] under [c] in domain [id]. *)
Definition holds (s : Store) (id : Z) (c : Cid) (x : bytes) : Prop := exists e, present (slots (ix s)) e /\ domain e = id /\ block_at s e c x.
Lemma keyed_same s e e' : Inv s -> present (slots (ix s)) e -> present (slots (ix s)) e' -> key e = key e' -> domain e = domain e' -> e = e'.
Proof. intros Hi [p Hp] [q Hq] Ek Ed. destruct (i_index s Hi) as (mp & Hs & _). assert (p = q) as <- by (by apply (t_once _ (s_table _ _ Hs) p q e e')). destruct Hp, Hq. congruence. Qed.
Lemma holds_one s id c x y : Inv s -> holds s id c x -> holds s id c y -> x = y.
Proof.
  intros Hi (e & He & Ed & Hb) (e' & He' & Ed' & Hb'). assert (e = e') as <- by (apply (keyed_same s); [done|done|done|rewrite (b_key _ _ _ _ Hb), (b_key _ _ _ _ Hb'); done|congruence]). by destruct (block_same _ _ _ _ _ _ _ Hb Hb' eq_refl) as (_ & _ & _ & ->).
Qed.
Lemma find_holds s c p : Inv s -> find_block c s = inl p -> exists e x, slot s p = e /\ present (slots (ix s)) e /\ at_slot (slots (ix s)) p e /\ domain e = cur s /\ block_at s e c x.
Proof.
  intros Hi Hf. destruct (i_index s Hi) as (mp & [Ht H0 _ _ _ _] & _). pose proof (position_spec _ (to_bytes c) (cur s) Ht H0) as Hp. unfold find_block in Hf. rewrite Hf in Hp. destruct Hp as (e & He & Hk & Hd). assert (present (slots (ix s)) e) as Hpr by (by exists p).
  destruct (i_blocks s Hi e Hpr) as (c' & x & Hb). exists e, x. assert (c' = c) as -> by (apply to_bytes_inj; by rewrite <- Hk, (b_key _ _ _ _ Hb)). split_and!; [|done|done|done|done]. unfold slot. destruct He as [He _]. by rewrite nth_lookup_default, He.
Qed.
Lemma find_none s c p x : Inv s -> find_block c s = inr p -> ~ holds s (cur s) c x.
Proof.
  intros Hi Hf (e & [q Hq] & Ed & Hb). destruct (i_index s Hi) as (mp & [Ht H0 _ _ _ _] & _). pose proof (position_spec _ (to_bytes c) (cur s) Ht H0) as Hp. unfold find_block in Hf. rewrite Hf in Hp. destruct Hp as [Hno _]. apply (Hno q e Hq). by rewrite (b_key _ _ _ _ Hb).
Qed.
(** A block the index names is given, and nothing else changes, whatever the device does. *)
Lemma ends_get F K c room s : Inv s -> (forall e s', alike s s' -> F e s') -> ends F K (get_block c room) s (fun x s' => reread s s' /\ holds s (cur s) c x /\ (Z.of_nat (length x) <= room)%Z).
Proof.
  intros Hi HF. unfold get_block. apply ends_gets. destruct (find_block c s) as [p|p] eqn:Hf; [|by apply HF]. destruct (find_holds s c p Hi Hf) as (e & x & Hsl & Hpr & _ & Hd & Hb). apply ends_gets. rewrite Hsl, (b_len _ _ _ _ Hb), Nat2Z.id.
  destruct (Z.ltb_spec room (Z.of_nat (length x))); [by apply HF|]. eapply ends_bind; [by apply (ends_verify F K s e c x Hi); auto|]. cbv beta. intros ok s' (-> & Hr & Hg). unfold ends, gets, lift, mbind, st_bind. rewrite Hg. cbn. split_and!; [done| |done]. by exists e.
Qed.
End invariant.
