(* ===== verification/StoreWrite.v ===== *)
(** * Writing to the block store's medium

    A record sealed and written into blank sectors, and a record erased behind its marker: what is then on the medium, and that the
    store's invariant holds again. *)
From S2P Require Import Prelude Outcome Sha256 Cid Cbor Dag DagTree Directory Journal StoreRecords StoreNames StoreIndex StoreMedium StorePass StoreLayout StoreInv.
Local Open Scope nat_scope.
Lemma buffer_first : SECTOR <= BUFFER.
Proof. apply Nat.leb_le. reflexivity. Qed.
Lemma free_one : sealed_sectors (Z.of_nat FREE_RECORD) = 1%Z.
Proof. reflexivity. Qed.
Lemma length_free n : length (free_marker n) = FREE_RECORD.
Proof. unfold free_marker. flen. Qed.
Lemma sealed_pos n : (1 <= sealed_sectors (Z.of_nat n))%Z.
Proof. unfold sealed_sectors, FRAME, SECTOR. apply Z.div_le_lower_bound; lia. Qed.
Lemma sealed_most n : (Z.of_nat n <= Z.of_nat HEADER + BLOCK_MAX)%Z -> (sealed_sectors (Z.of_nat n) <= RECORD_SECTORS)%Z.
Proof. intros H. unfold RECORD_SECTORS, sealed_sectors. apply Z.div_le_mono; [reflexivity|]. unfold FRAME, SECTOR in *. lia. Qed.
Lemma take_magic (b : bytes) : take 8 (take SECTOR b) = take 8 b.
Proof. rewrite take_take. reflexivity. Qed.
Lemma parse_free_magic b n : parse_free b = Some n -> take 8 b = FREE_MAGIC.
Proof. unfold parse_free. destruct (bool_decide (take 8 b = FREE_MAGIC)) eqn:E; [by apply bool_decide_eq_true in E|done]. Qed.
Lemma parse_header_magic b r : parse_header b = Some r -> take 8 b = RECORD_MAGIC.
Proof. unfold parse_header. destruct (bool_decide (take 8 b = RECORD_MAGIC)) eqn:E; [by apply bool_decide_eq_true in E|done]. Qed.
Lemma header_not_free b r : parse_header (take SECTOR b) = Some r -> parse_free b = None.
Proof. intros H%parse_header_magic. rewrite take_magic in H. destruct (parse_free b) as [n|] eqn:E; [|done]. apply parse_free_magic in E. rewrite H in E. discriminate E. Qed.
#[local] Opaque digest SECTOR BUFFER RECORD_SECTORS free_marker.

(** Runs in order, and one of them claimed from its start. *)
Lemma sorted_lower lo lo' hs : sorted_runs lo hs -> (lo' <= lo)%Z -> sorted_runs lo' hs.
Proof. destruct hs as [|h hs]; [done|]. cbn. intros [H1 H2] H. split; [lia|done]. Qed.
Lemma sorted_from lo hs h : sorted_runs lo hs -> (forall x, x ∈ hs -> 0 < run_len x)%Z -> h ∈ hs -> (lo <= start h)%Z.
Proof.
  revert lo. induction hs as [|x hs IH]; intros lo Hs Hp Hi; [by apply elem_of_nil in Hi|]. destruct Hs as [H1 H2]. apply elem_of_cons in Hi as [->|Hi]; [done|]. specialize (IH _ H2 ltac:(intros; apply Hp; set_solver) Hi). specialize (Hp x ltac:(set_solver)). lia.
Qed.
Lemma sorted_start lo hs h h' : sorted_runs lo hs -> (forall x, x ∈ hs -> 0 < run_len x)%Z -> h ∈ hs -> h' ∈ hs -> start h = start h' -> h = h'.
Proof.
  revert lo. induction hs as [|y hs IH]; intros lo Hs Hp Hh Hh' E; [by apply elem_of_nil in Hh|]. destruct Hs as [H1 H2]. assert (forall x, x ∈ hs -> 0 < run_len x)%Z as Hp' by (intros; apply Hp; set_solver). pose proof (Hp y ltac:(set_solver)).
  apply elem_of_cons in Hh as [->|Hh]; apply elem_of_cons in Hh' as [->|Hh']; [done|pose proof (sorted_from _ _ _ H2 Hp' Hh'); lia|pose proof (sorted_from _ _ _ H2 Hp' Hh); lia|by apply (IH _ H2)].
Qed.
Definition claimed (hs : list Extent) (i : nat) (h : Extent) (n : Z) : list Extent :=
  if (run_len h - n =? 0)%Z then delete i hs else <[i := mkExtent (start h + n) (run_len h - n)]> hs.
Lemma claimed_runs lo hs i h n : sorted_runs lo hs -> (forall x, x ∈ hs -> 0 < run_len x)%Z -> hs !! i = Some h -> (1 <= n <= run_len h)%Z ->
  sorted_runs lo (claimed hs i h n) /\ forall x, x ∈ claimed hs i h n -> (x ∈ hs /\ (start x + run_len x <= start h \/ start h + run_len h <= start x)%Z) \/ x = mkExtent (start h + n) (run_len h - n) /\ (0 < run_len h - n)%Z.
Proof.
  revert lo i. induction hs as [|y hs IH]; intros lo i Hs Hp Hi Hn; [done|]. destruct Hs as [H1 H2]. assert (forall x, x ∈ hs -> 0 < run_len x)%Z as Hp' by (intros; apply Hp; set_solver). destruct i as [|i].
  - injection Hi as ->. unfold claimed. destruct (Z.eqb_spec (run_len h - n) 0) as [E|E]; cbn [delete list_delete insert list_insert].
    + split; [apply (sorted_lower _ _ _ H2); lia|]. intros x Hx. left. split; [set_solver|]. right. apply (sorted_from _ _ _ H2 Hp' Hx).
    + split; [cbn; split; [lia|apply (sorted_lower _ _ _ H2); lia]|]. intros x [->|Hx]%elem_of_cons; [right; split; [done|lia]|]. left. split; [set_solver|]. right. apply (sorted_from _ _ _ H2 Hp' Hx).
  - cbn in Hi. destruct (IH _ i H2 Hp' Hi Hn) as [S1 S2]. assert (claimed (y :: hs) (S i) h n = y :: claimed hs i h n) as -> by (unfold claimed; by destruct (_ =? _)%Z). split; [done|]. intros x [->|Hx]%elem_of_cons.
    + left. split; [set_solver|]. left. apply (sorted_from _ _ _ H2 Hp'). by eapply list_elem_of_lookup_2.
    + destruct (S2 x Hx) as [[? ?]|?]; [left; split; [set_solver|done]|by right].
Qed.

Section writing.
Context {D : Type} {med_ops : Medium D} {med_laws : MediumLaws D} {cipher : Crypto} {cipher_laws : CryptoLaws}.
Local Abbreviation Store := (StoreMedium.Store D).
Local Abbreviation SM := (STE SError Store).

(** Only the medium, the buffer and where the scrub stands are others. *)
Definition io (s s' : Store) : Prop := exists d b sc, s' = set_scrub_at sc (set_buffer b (set_dev d s)) /\ sectors d = size_ s /\ writable d = writable (dev s) /\ length b = BUFFER.
Definition same_outside (s s' : Store) (a c : Z) : Prop := forall k, (k < a \/ a + c <= k)%Z -> med s' k = med s k.
Lemma io_trans s s' s'' : io s s' -> io s' s'' -> io s s''.
Proof. intros (d & b & sc & -> & H1 & H2 & H3) (d' & b' & sc' & -> & H1' & H2' & H3'). exists d', b', sc'. split_and!; [done|by rewrite H1'|by rewrite H2'|done]. Qed.
Lemma io_self s : length (buffer s) = BUFFER -> io s s.
Proof. intros H. exists (dev s), (buffer s), (scrub_at s). by destruct s. Qed.
Lemma io_buffer s b : length b = BUFFER -> io s (set_buffer b s).
Proof. intros H. exists (dev s), b, (scrub_at s). by destruct s. Qed.
Lemma io_scrub s x : length (buffer s) = BUFFER -> io s (set_scrub_at x s).
Proof. intros H. exists (dev s), (buffer s), x. by destruct s. Qed.
Lemma io_size s s' : io s s' -> size_ s' = size_ s.
Proof. by intros (d & b & sc & -> & H1 & _). Qed.
Lemma io_keys s s' id : io s s' -> keys_for id s' = keys_for id s.
Proof. by intros (d & b & sc & -> & _). Qed.
Lemma io_length s s' : io s s' -> length (buffer s') = BUFFER.
Proof. by intros (d & b & sc & -> & _ & _ & H). Qed.

(** ** The device's writes *)
Lemma runs_write_at {B} E at_ n b (k : unit -> SM B) s Q : length (buffer s) = BUFFER -> length b = n * SECTOR -> (0 <= at_)%Z -> (at_ + Z.of_nat n <= size_ s)%Z ->
  (forall s', io s s' -> buffer s' = buffer s -> image (med s') at_ n = b -> same_outside s s' at_ (Z.of_nat n) -> runs E (k tt) s' Q) -> runs E (write_at at_ b ≫= k) s Q.
Proof using All.
  intros Hb Hl H0 Hs Hk. unfold write_at, runs, ends, mbind, st_bind. destruct (dwrite at_ b (dev s)) as [[] d] eqn:Ew; [|by left]. destruct (write_law (dev s) at_ b d n Ew Hl H0 Hs) as (W1 & W2 & W3 & W4). apply Hk; [|done|done|done].
  exists d, (buffer s), (scrub_at s). by destruct s.
Qed.
Lemma runs_flush {B} E (k : unit -> SM B) s Q : length (buffer s) = BUFFER -> (forall s', io s s' -> buffer s' = buffer s -> (forall k, med s' k = med s k) -> runs E (k tt) s' Q) -> runs E (flush ≫= k) s Q.
Proof using All.
  intros Hb Hk. unfold flush, runs, ends, mbind, st_bind. destruct (dflush (dev s)) as [[] d] eqn:Ew; [|by left]. destruct (flush_law (dev s) d Ew) as (W1 & W2 & W3). apply Hk; [|done|done]. exists d, (buffer s), (scrub_at s). by destruct s.
Qed.
Lemma runs_last {A} E (m : SM A) s Q : runs E (m ≫= mret) s Q -> runs E m s Q.
Proof. unfold runs, ends, mbind, st_bind. by destruct (m s) as [[a|e|] s']. Qed.

(** ** A record written *)
Record written (s' : Store) (at_ id c : Z) (k : Keys) (record : bytes) : Prop := {
  w_frame : parse_frame (med s' at_) = Some c;
  w_domain : slice (med s' at_) 10 2 = to_le 2 id;
  w_open : open_frame (Some k) (image (med s') at_ (Z.to_nat c)) at_ (Z.to_nat c) id = (record ++ replicate (Z.to_nat c * SECTOR - length record) 0%Z, true)
}.
Lemma runs_write_under E at_ n id k record s : length (buffer s) = BUFFER -> slice (buffer s) FRAME n = record -> length record = n -> (1 <= Z.of_nat n <= Z.of_nat HEADER + BLOCK_MAX)%Z -> (0 <= id < W16)%Z ->
  let c := sealed_sectors (Z.of_nat n) in (0 <= at_)%Z -> (at_ + c <= size_ s)%Z -> runs E (write_under at_ n id k) s (fun _ s' => io s s' /\ same_outside s s' at_ c /\ written s' at_ id c k record).
Proof using All.
  intros Hb Hrec Hn Hr Hid c H0 Hs. pose proof (sealed_pos n) as Hc1. fold c in Hc1. pose proof (sealed_most n ltac:(lia)) as Hc2. fold c in Hc2. unfold write_under. apply runs_gets.
  pose proof (frame_round_trip k record (buffer s) at_ id) as F. rewrite Hn in F. specialize (F Hr Hid). rewrite <- buffer_eq in F. specialize (F ltac:(lia) Hrec). destruct (seal_frame k (buffer s) at_ n id) as [b c'] eqn:Es. assert (c' = c) as -> by (unfold seal_frame in Es; destruct (keys_seal _ _ _) as [[? ?] ?]; by injection Es).
  destruct F as (F1 & F2 & F3 & F4). assert (Z.to_nat c * SECTOR <= BUFFER) as Hfit by (apply sectors_fit; lia). assert (SECTOR <= Z.to_nat c * SECTOR) as Hone by nia. set (x := take (Z.to_nat c * SECTOR) b). assert (length x = Z.to_nat c * SECTOR) as Hx by (unfold x; rewrite length_take; lia). assert (b = x ++ drop (Z.to_nat c * SECTOR) b) as Eb by (unfold x; by rewrite take_drop).
  assert (16 <= SECTOR) as H16 by (pose proof frame_small; unfold FRAME in *; lia).
  apply runs_modify, runs_modify. set (s1 := if _ && _ then _ else _). assert (io s s1) as Hio by (unfold s1; destruct (_ && _); [eapply io_trans; [apply io_buffer|apply io_scrub]|apply io_buffer]; cbn; lia). assert (forall k, med s1 k = med s k) as Hm1 by (intros j; unfold s1; by destruct (_ && _)). clearbody s1.
  apply (runs_write_at _ at_ (Z.to_nat c)); [by apply (io_length s)|done|done|rewrite (io_size s s1) by done; lia|]. intros s2 H2 _ Himg Hout. rewrite Z2Nat.id in Hout by lia. apply runs_last, runs_flush; [by apply (io_length s1)|]. intros s3 H3 _ Hm3. apply runs_ret.
  assert (image (med s3) at_ (Z.to_nat c) = x) as Himg3 by (rewrite <- Himg; apply image_ext; intros; apply Hm3). assert (med s3 at_ = take SECTOR x) as Hat. { rewrite <- Himg3. replace (Z.to_nat c) with (S (Z.to_nat c - 1)) by lia. symmetry. apply image_first, whole_med. }
  split; [by eapply io_trans; [|eapply io_trans]|]. split; [intros j Hj; rewrite Hm3, (Hout j Hj); apply Hm1|]. assert (take SECTOR b = take SECTOR x) as Et by (unfold x; rewrite take_take; f_equal; lia). split.
  - by rewrite Hat, <- Et.
  - rewrite Hat, <- Et, <- F2. apply slice_take_in. lia.
  - rewrite Himg3. rewrite Eb, (open_frame_app (Some k) x) in F4 by done. destruct (open_frame (Some k) x at_ (Z.to_nat c) id) as [y ok] eqn:Eo. cbn [fst snd] in F4. injection F4 as F4 ->. rewrite app_assoc in F4. f_equal. rewrite Hn. refine (proj1 (app_inj_1 _ _ _ _ _ F4)).
    pose proof (length_opened (Some k) x at_ (Z.to_nat c) id ltac:(lia) Hx) as Hly. rewrite Eo in Hly. cbn [fst] in Hly. rewrite Hly, length_app, length_replicate. assert (n <= Z.to_nat c * SECTOR); [|lia]. unfold c, sealed_sectors. pose proof sector_pos as Hs0.
    pose proof (Z.div_mod (Z.of_nat FRAME + Z.of_nat n + (Z.of_nat SECTOR - 1)) (Z.of_nat SECTOR) ltac:(lia)) as Hd. pose proof (Z.mod_pos_bound (Z.of_nat FRAME + Z.of_nat n + (Z.of_nat SECTOR - 1)) (Z.of_nat SECTOR) Hs0). nia.
Qed.
Lemma runs_write_sealed E at_ n id record s : length (buffer s) = BUFFER -> slice (buffer s) FRAME n = record -> length record = n -> (1 <= Z.of_nat n <= Z.of_nat HEADER + BLOCK_MAX)%Z -> (0 <= id < W16)%Z ->
  let c := sealed_sectors (Z.of_nat n) in (0 <= at_)%Z -> (at_ + c <= size_ s)%Z -> (keys_for id s = None -> E s) -> runs E (write_sealed at_ n id) s (fun _ s' => io s s' /\ same_outside s s' at_ c /\ exists k, keys_for id s = Some k /\ written s' at_ id c k record).
Proof using All.
  intros Hb Hrec Hn Hr Hid c H0 Hs He. unfold write_sealed. apply runs_gets. destruct (keys_for id s) as [k|] eqn:Ek; cbn [or_refuse]; [|by right; apply He]. eapply runs_weaken; [by apply (runs_write_under E at_ n id k record s)|done|]. cbv beta. intros _ s' (H1 & H2 & H3). split_and!; [done|done|]. by exists k.
Qed.
Lemma overwrite_fits record (s : Store) : length (buffer s) = BUFFER -> (Z.of_nat (length record) <= Z.of_nat HEADER + BLOCK_MAX)%Z -> length (overwrite (buffer s) FRAME record) = BUFFER /\ slice (overwrite (buffer s) FRAME record) FRAME (length record) = record.
Proof using All.
  intros Hb Hr. pose proof (sealed_most (length record) Hr) as Hm. assert (FRAME + length record <= BUFFER) as Hfit. { pose proof (sectors_fit (Z.to_nat (sealed_sectors (Z.of_nat (length record)))) ltac:(pose proof (sealed_pos (length record)); lia)) as Hf. etransitivity; [|exact Hf]. unfold sealed_sectors. pose proof sector_pos as Hs0.
    pose proof (Z.div_mod (Z.of_nat FRAME + Z.of_nat (length record) + (Z.of_nat SECTOR - 1)) (Z.of_nat SECTOR) ltac:(lia)) as Hd. pose proof (Z.mod_pos_bound (Z.of_nat FRAME + Z.of_nat (length record) + (Z.of_nat SECTOR - 1)) (Z.of_nat SECTOR) Hs0). nia. }
  split; [rewrite length_ow; lia|]. apply slice_overwrite; [lia|done].
Qed.
Lemma runs_write_record E at_ id record s : length (buffer s) = BUFFER -> (1 <= Z.of_nat (length record) <= Z.of_nat HEADER + BLOCK_MAX)%Z -> (0 <= id < W16)%Z ->
  let c := sealed_sectors (Z.of_nat (length record)) in (0 <= at_)%Z -> (at_ + c <= size_ s)%Z -> (keys_for id s = None -> forall b, length b = BUFFER -> E (set_buffer b s)) ->
  runs E (write_record at_ record id) s (fun _ s' => io s s' /\ same_outside s s' at_ c /\ exists k, keys_for id s = Some k /\ written s' at_ id c k record).
Proof using All.
  intros Hb Hr Hid c H0 Hs He. destruct (overwrite_fits record s Hb ltac:(lia)) as [Hl Hsl]. unfold write_record. apply runs_modify. eapply runs_weaken; [apply (runs_write_sealed E at_ (length record) id record); [done|done|done|done|done|done|done|intros Hk; apply He; done]|done|].
  cbv beta. intros _ s' (H1 & H2 & H3). split_and!; [|done|done]. eapply io_trans; [|exact H1]. by apply io_buffer.
Qed.

(** ** Erasing *)
Lemma image_zeros M a n : (forall k, (a <= k < a + Z.of_nat n)%Z -> M k = zero_sector) -> image M a n = replicate (n * SECTOR) 0%Z.
Proof using Type. revert a. induction n as [|n IH]; intros a H; [done|]. cbn [image]. rewrite H, IH by (intros; try apply H; lia). unfold zero_sector. rewrite <- replicate_add. f_equal. Qed.
Lemma runs_zero_out E fuel at_ to s Q : buffer s = replicate BUFFER 0%Z -> (0 <= at_)%Z -> (to <= size_ s)%Z ->
  (forall s', io s s' -> buffer s' = buffer s -> (forall k, (k < at_ \/ to <= k)%Z -> med s' k = med s k) -> (forall k, (at_ <= k < to)%Z -> med s' k = zero_sector) -> Q tt s') -> runs E (zero_out fuel at_ to) s Q.
Proof using All.
  revert at_ s. induction fuel as [|fuel IH]; intros at_ s Hb H0 Ht HQ; cbn [zero_out]; [done|]. assert (length (buffer s) = BUFFER) as Hlb by (rewrite Hb; apply length_replicate). destruct (Z.ltb_spec at_ to) as [Hlt|Hge]; [|apply runs_ret, HQ; [by apply io_self|done|done|intros; lia]].
  set (k := Z.min (to - at_) RECORD_SECTORS). assert (0 < RECORD_SECTORS)%Z as HR by reflexivity. assert (1 <= k)%Z as Hk by lia. assert (k <= to - at_)%Z by lia. apply runs_gets. assert (Z.to_nat k * SECTOR <= BUFFER) as Hfit by (apply sectors_fit; lia).
  apply (runs_write_at _ at_ (Z.to_nat k)); [done|rewrite length_take; lia|done|lia|]. intros s1 Hio Eb Himg Hout. rewrite Z2Nat.id in Hout by lia. rewrite Hb, take_replicate in Himg. rewrite Nat.min_l in Himg by lia.
  assert (forall j, (at_ <= j < at_ + k)%Z -> med s1 j = zero_sector) as Hz by (intros j Hj; apply (image_zero _ _ _ (whole_med s1) Himg); lia). apply IH; [by rewrite Eb|lia|by rewrite (io_size s s1)|].
  intros s2 Hio2 Eb2 Hout2 Hz2. apply HQ; [by eapply io_trans|congruence| |].
  - intros j Hj. rewrite Hout2 by lia. apply Hout. lia.
  - intros j Hj. destruct (decide (at_ + k <= j)%Z); [apply Hz2; lia|]. rewrite Hout2 by lia. apply Hz. lia.
Qed.
Lemma runs_erase E at_ n s : length (buffer s) = BUFFER -> (0 <= at_)%Z -> (1 <= n)%Z -> (at_ + n <= size_ s)%Z ->
  runs E (erase at_ n) s (fun _ s' => io s s' /\ same_outside s s' at_ n /\ forall k, (at_ <= k < at_ + n)%Z -> med s' k = zero_sector).
Proof using All.
  intros Hb H0 Hn Hs. unfold erase. pose proof (length_free n) as Hfl. eapply runs_bind; [apply (runs_write_record E at_ VOLUME (free_marker n) s)|].
  - exact Hb.
  - rewrite Hfl. unfold FREE_RECORD, HEADER, BLOCK_MAX. lia.
  - unfold VOLUME, W16. lia.
  - exact H0.
  - rewrite Hfl, free_one. lia.
  - discriminate.
  - cbv beta. intros _ s1 (I1 & O1 & _). rewrite Hfl, free_one in O1. apply runs_modify. set (s2 := set_buffer _ s1). assert (io s1 s2) as I2 by (apply io_buffer, length_replicate). assert (forall k, med s2 k = med s1 k) as M2 by (intros; reflexivity). assert (buffer s2 = replicate BUFFER 0%Z) as B2 by exact (eq_refl (buffer s2)). clearbody s2.
    eapply runs_bind; [apply (runs_zero_out E _ _ _ s2 (fun _ s' => io s2 s' /\ buffer s' = buffer s2 /\ (forall k, (k < at_ + 1 \/ at_ + n <= k)%Z -> med s' k = med s2 k) /\ forall k, (at_ + 1 <= k < at_ + n)%Z -> med s' k = zero_sector))|].
    { exact B2. }
    { lia. }
    { rewrite (io_size s1 s2), (io_size s s1) by assumption. lia. }
    { intros s' A1 A2 A3 A4. exact (conj A1 (conj A2 (conj A3 A4))). }
    cbv beta. intros _ s3 (I3 & B3 & O3 & Z3). assert (length (buffer s3) = BUFFER) as L3 by (by apply (io_length s2)). apply runs_flush; [done|]. intros s4 I4 B4 M4. apply runs_gets. rewrite B4, B3, B2, take_replicate, Nat.min_l by apply buffer_first.
    apply (runs_write_at _ at_ 1); [by apply (io_length s3)|rewrite length_replicate; lia|done|rewrite (io_size s3 s4), (io_size s2 s3), (io_size s1 s2), (io_size s s1) by done; lia|]. intros s5 I5 _ Himg O5. apply runs_last, runs_flush; [by apply (io_length s4)|]. intros s6 I6 _ M6. apply runs_ret.
    split; [exact (io_trans _ _ _ I1 (io_trans _ _ _ I2 (io_trans _ _ _ I3 (io_trans _ _ _ I4 (io_trans _ _ _ I5 I6)))))|]. split.
    + intros k Hk. rewrite M6, O5, M4, O3, M2 by lia. apply O1. lia.
    + intros k Hk. rewrite M6. destruct (decide (k = at_)) as [->|]; [|rewrite O5, M4 by lia; apply Z3; lia]. apply (image_zero (med s5) at_ 1 (whole_med s5)); [|lia]. rewrite Himg. f_equal; lia.
Qed.

(** ** The invariant after a stretch of the medium has changed *)
Lemma keys_for_volume (s : Store) : keys_for VOLUME s = Some (vkeys s).
Proof using Type. reflexivity. Qed.
Lemma record_covers s k id n b : record_at s k id n b -> parse_free b = None -> covers (vkeys s) (size_ s) (med s k) k = n.
Proof using All.
  intros [_ Hf Hi Ho] Hfree. unfold covers. rewrite Hf. destruct (marker _ _ _ _) as [n'|] eqn:Em; [exfalso|done]. revert Em. unfold marker. destruct (Z.eqb_spec (frame_domain (med s k)) VOLUME) as [Ed|]; [|done]. rewrite Hf. destruct (bool_decide_reflect (Some n = Some 1%Z)) as [[= ->]|]; [|done]. cbn [andb].
  change (Z.to_nat 1) with 1 in Ho. cbn [image] in Ho. rewrite app_nil_r in Ho. assert (length (med s k) = 1 * SECTOR) as Hl by (rewrite whole_med; lia). destruct (open_frame_true _ _ _ _ _ _ Hl Ho) as (_ & Es & _). unfold frame_domain in Ed. rewrite Es, le_2 in Ed by done. rewrite Ed, keys_for_volume in Ho. rewrite Ho, Hfree. done.
Qed.
Lemma block_covers s e c x : block_at s e c x -> covers (vkeys s) (size_ s) (med s (lba e)) (lba e) = record_sectors (len e).
Proof using All. intros [_ _ _ _ _ _ _ _ (b & Hr & Hh & _)]. apply (record_covers s _ _ _ b Hr). by eapply header_not_free. Qed.
Lemma io_place s s' k : io s s' -> place s' k <-> visited (vkeys s) (size_ s) (med s') k.
Proof using Type. intros H. unfold place. rewrite (io_size s s') by done. destruct H as (d & b & sc & -> & _). done. Qed.
(** What stays: the places and the records outside the stretch. *)
Record kept_outside (s s' : Store) (a c : Z) : Prop := {
  k_io : io s s'; k_med : same_outside s s' a c; k_places : forall k, place s k -> (k < a \/ a + c <= k)%Z -> place s' k; k_place : place s a; k_pos : (1 <= c)%Z
}.
Lemma record_kept s s' a c k id n b : kept_outside s s' a c -> record_at s k id n b -> parse_free b = None -> (k < a \/ a + c <= k)%Z -> record_at s' k id n b.
Proof using All.
  intros [Hio Hm Hp Ha Hc] Hr Hfree Hk. pose proof (record_covers s k id n b Hr Hfree) as Hcov. destruct Hr as [R1 R2 R3 R4]. pose proof (frame_at_bound _ _ _ _ R2) as [Hn _]. assert (forall j, (k <= j < k + n)%Z -> med s' j = med s j) as Hsame.
  { intros j Hj. apply Hm. destruct Hk; [|lia]. pose proof (visited_apart (vkeys s) (size_ s) (med s) k a R1 Ha ltac:(lia)). lia. }
  split; [by apply Hp| |done|].
  - rewrite (io_size s s'), Hsame by (done || lia). done.
  - rewrite (io_keys s s') by done. rewrite (image_ext _ (med s)); [done|]. intros j Hj. apply Hsame. lia.
Qed.
Lemma block_kept s s' a c e i x : kept_outside s s' a c -> block_at s e i x -> (lba e < a \/ a + c <= lba e)%Z -> block_at s' e i x.
Proof using All.
  intros Hk [B1 B2 B3 B4 B5 B6 B7 B8 (b & Hr & Hh & Hs)] Ho. split; [done..|]. exists b. split; [|done]. apply (record_kept s s' a c); [done|done|by eapply header_not_free|done].
Qed.
Definition apart_from (hs : list Extent) (a c : Z) : Prop := forall h, h ∈ hs -> (start h + run_len h <= a \/ a + c <= start h)%Z.
Lemma Inv_kept s s' a c : Inv s -> kept_outside s s' a c -> (forall e, present (slots (ix s)) e -> (lba e < a \/ a + c <= lba e)%Z) -> apart_from (holes s) a c -> Inv s'.
Proof using All.
  intros [I1 I2 I3 I4 I5 I6 I7] Hk He Hh. pose proof Hk as [Hio Hm Hp _ _]. assert (ix s' = ix s /\ holes s' = holes s /\ domains s' = domains s) as (E1 & E2 & E3) by (by destruct Hio as (d & b & sc & -> & _)). split.
  - by apply (io_length s).
  - by rewrite (io_size s s').
  - by rewrite E1.
  - intros h. rewrite E2. intros Hi. destruct (I4 h Hi) as [H1 H2 H3 H4]. specialize (Hh h Hi). split; [done|done|by rewrite (io_size s s')|]. intros k Hkk. destruct (H4 k Hkk) as [P1 P2]. split; [apply Hp; [done|lia]|]. rewrite Hm by lia. done.
  - by rewrite E2.
  - intros e. rewrite E1. intros Hi. destruct (I6 e Hi) as (i & x & Hb). exists i, x. apply (block_kept s s' a c); auto.
  - by rewrite E3.
Qed.

(** A record written over a run of blank sectors. *)
Lemma blank_no_entry s a c e i x : blank_run s a c -> block_at s e i x -> (lba e < a \/ a + c <= lba e)%Z.
Proof using All.
  intros [_ _ _ Hb] [_ _ _ _ _ _ _ _ (b & [_ Hf _ _] & _)]. destruct (decide (a <= lba e < a + c)%Z) as [Hin|]; [|lia]. destruct (Hb _ Hin) as [_ Hz]. unfold frame_at in Hf. rewrite Hz, parse_frame_zero in Hf. done.
Qed.
Lemma place_end s a c : blank_run s a c -> place s (a + c).
Proof using Type. intros [_ Hc _ Hb]. destruct (Hb (a + c - 1)%Z ltac:(lia)) as [P Z1]. pose proof (visited_next (vkeys s) (size_ s) (med s) _ P) as H. rewrite Z1, covers_zero in H. by replace (a + c - 1 + 1)%Z with (a + c)%Z in H by lia. Qed.
Lemma written_kept s s' a c : blank_run s a c -> io s s' -> same_outside s s' a c -> covers (vkeys s) (size_ s) (med s' a) a = c -> kept_outside s s' a c /\ place s' a.
Proof using Type.
  intros Hb Hio Hm Hc. pose proof (place_end s a c Hb) as Hend. pose proof Hb as [_ Hpos _ Hbl]. assert (forall k, place s k -> (k <= a \/ a + c <= k)%Z -> place s' k) as Hp.
  { intros k Hk Hr. apply (io_place s s' k Hio). apply (visited_written (vkeys s) (size_ s) (med s) (med s') a c); [lia| |exact Hm|done|exact Hk|done]. intros j Hj. destruct (decide (j = a + c)%Z) as [->|]; [done|]. apply Hbl. lia. }
  assert (place s a) as Ha by (apply Hbl; lia). split; [|apply Hp; [done|lia]]. split; [done|done| |done|lia]. intros k Hk Hr. apply Hp; [done|lia].
Qed.
(** A record made blank. *)
Lemma erased_kept s s' a c : place s a -> covers (vkeys s) (size_ s) (med s a) a = c -> (a + c <= size_ s)%Z -> io s s' -> same_outside s s' a c -> (forall k, (a <= k < a + c)%Z -> med s' k = zero_sector) ->
  kept_outside s s' a c /\ (forall k, place s k -> place s' k) /\ blank_run s' a c.
Proof using Type.
  intros Ha Hc He Hio Hm Hz. pose proof (covers_pos (vkeys s) (size_ s) (med s a) a) as Hpos. rewrite Hc in Hpos. pose proof (visited_erased (vkeys s) (size_ s) (med s) (med s') a Ha) as V. rewrite Hc in V. destruct (V Hm Hz) as [V1 V2]. split; [|split].
  - split; [done|done| |done|done]. intros k Hk _. apply (io_place s s' k Hio). by apply V1.
  - intros k Hk. apply (io_place s s' k Hio). by apply V1.
  - split; [by apply (visited_pos _ _ _ _ Ha)|lia|by rewrite (io_size s s')|]. intros k Hk. split; [|by apply Hz]. apply (io_place s s' k Hio), V2. lia.
Qed.
Lemma framed_no_hole s a n h : blank_run s (start h) (run_len h) -> place s a -> frame_at (size_ s) (med s a) a = Some n -> (start h + run_len h <= a \/ a + covers (vkeys s) (size_ s) (med s a) a <= start h)%Z.
Proof using Type.
  intros [_ Hl _ Hb] Ha Hf. destruct (decide (start h + run_len h <= a)%Z); [by left|]. destruct (decide (start h <= a)%Z) as [Hle|Hgt].
  - destruct (Hb a ltac:(lia)) as [_ Hz]. unfold frame_at in Hf. by rewrite Hz, parse_frame_zero in Hf.
  - right. destruct (Hb (start h) ltac:(lia)) as [P _]. apply (visited_apart (vkeys s) (size_ s) (med s) a (start h)); [done|done|lia].
Qed.

(** ** Runs of blank sectors, claimed *)
Lemma run_sub s a c a' c' : blank_run s a c -> (a <= a')%Z -> (a' + c' <= a + c)%Z -> (0 < c')%Z -> blank_run s a' c'.
Proof using Type. intros [H1 H2 H3 H4] Ha Hc H0. split; [lia|done|lia|]. intros k Hk. apply H4. lia. Qed.
(** What the invariant looks at but the runs. *)
Lemma Inv_holes s hs e : Inv s -> sorted_runs 1 hs -> (forall h, h ∈ hs -> blank_run s (start h) (run_len h)) -> Inv (set_end e (set_holes hs s)).
Proof using Type. intros Hi Hs Hb. apply (Inv_sees s); [done|done|done|apply Hi|done|done|exact (i_domains s Hi)]. Qed.
(** Room that was found. *)
Definition has_room (s : Store) (at_ n : Z) : Prop := exists h, h ∈ holes s /\ start h = at_ /\ (n <= run_len h)%Z.
Lemma find_room_some s n at_ : find_room n s = Some at_ -> has_room s at_ n.
Proof using Type. unfold find_room. destruct (List.find _ _) as [h|] eqn:Ef; [|done]. intros [= <-]. apply find_some in Ef as [Hi Hn]. exists h. split_and!; [by apply list_elem_of_In|done|lia]. Qed.
Lemma claim_run s at_ n : Inv s -> has_room s at_ n -> (1 <= n)%Z -> exists hs e, claim at_ n s = set_end e (set_holes hs s) /\ Inv (claim at_ n s) /\ blank_run (claim at_ n s) at_ n /\ apart_from hs at_ n.
Proof using Type.
  intros Hi (h0 & Hh0 & E0 & Hn0) Hn. unfold claim. destruct (Prelude.position (fun h => (start h =? at_)%Z) (holes s)) as [i|] eqn:Ep.
  - apply position_Some in Ep as (h & Hih & Hst & _). apply Z.eqb_eq in Hst. rewrite Hih. assert (h ∈ holes s) as Hh by (by eapply list_elem_of_lookup_2). assert (forall x, x ∈ holes s -> 0 < run_len x)%Z as Hp by (intros x Hx; apply (i_holes s Hi x Hx)).
    assert (h = h0) as -> by (apply (sorted_start 1 (holes s)); [apply Hi|done|done|done|lia]).
    destruct (claimed_runs 1 (holes s) i h0 n (i_sorted s Hi) Hp Hih ltac:(lia)) as [S1 S2]. pose proof (i_holes s Hi h0 Hh) as Hrun. exists (claimed (holes s) i h0 n), (Z.max (end_ s) (at_ + n)).
    assert (forall x, x ∈ claimed (holes s) i h0 n -> blank_run s (start x) (run_len x)) as Hb. { intros x Hx. destruct (S2 x Hx) as [[Hx' _]|[-> Hl]]; [by apply (i_holes s Hi)|]. cbn. apply (run_sub s _ _ _ _ Hrun); lia. }
    assert ((if (run_len (mkExtent (start h0 + n) (run_len h0 - n)) =? 0)%Z then set_holes (delete i (holes s)) s else set_holes (<[i := mkExtent (start h0 + n) (run_len h0 - n)]> (holes s)) s) = set_holes (claimed (holes s) i h0 n) s) as Eset by (unfold claimed; cbn [run_len]; by destruct (_ =? _)%Z).
    cbv zeta. rewrite Eset. split; [done|]. split; [by apply Inv_holes|]. split; [apply (run_sees s); [done|]; apply (run_sub s _ _ _ _ Hrun); lia|]. intros x Hx. destruct (S2 x Hx) as [[_ [?|?]]|[-> ?]]; cbn; lia.
  - exfalso. apply position_None in Ep. rewrite Forall_forall in Ep. specialize (Ep h0 Hh0). cbv beta in Ep. apply Z.eqb_neq in Ep. lia.
Qed.
End writing.
