(* ===== verification/StoreSweep.v ===== *)
(** * The sweep of a collection keeps every block that is retained

    A sweep goes from place to place over the medium: a record that something keeps ends the run of blank sectors before it, one
    that nothing keeps is erased and joins it. What is shown: the invariant holds throughout, the entries that stay in the index
    are those that were retained, and their blocks are as they were. *)
From S2P Require Import Prelude Outcome Sha256 Cid Cbor Dag DagTree Directory Journal StoreRecords StoreNames StoreIndex StoreMedium StorePass StoreLayout StoreInv StoreWrite.
Local Open Scope nat_scope.
Lemma magic_not_free b m : take 8 (take SECTOR b) = m -> m <> FREE_MAGIC -> parse_free (take SECTOR b) = None.
Proof. intros H Hm. destruct (parse_free (take SECTOR b)) as [n|] eqn:E; [|done]. apply parse_free_magic in E. congruence. Qed.
Lemma parse_txn_magic b n : parse_txn b = Some n -> take 8 b = TXN_MAGIC.
Proof. unfold parse_txn. destruct (bool_decide (take 8 b = TXN_MAGIC)) eqn:E; [by apply bool_decide_eq_true in E|done]. Qed.
Lemma parse_name_magic b r : parse_name b = Some r -> take 8 b = NAME_MAGIC.
Proof. unfold parse_name. destruct (bool_decide (take 8 b = NAME_MAGIC)) eqn:E; [by apply bool_decide_eq_true in E|done]. Qed.
Lemma parse_pin_magic b r : parse_pin b = Some r -> take 8 b = PIN_MAGIC.
Proof. unfold parse_pin. destruct (bool_decide (take 8 b = PIN_MAGIC)) eqn:E; [by apply bool_decide_eq_true in E|done]. Qed.
#[local] Opaque digest SECTOR BUFFER RECORD_SECTORS.

(** ** Changes of the index *)
Definition same_entry (e e0 : StoreIndex.Entry) : Prop := lba e = lba e0 /\ len e = len e0 /\ key e = key e0 /\ domain e = domain e0.
(** Every entry changed in its lease or its mark. *)
Lemma at_map f (t : list StoreIndex.Entry) p e : (forall x, used (f x) = used x) -> at_slot (map f t) p e <-> exists e0, at_slot t p e0 /\ e = f e0.
Proof.
  intros Hu. unfold at_slot. rewrite list_lookup_fmap. split.
  - intros [H1 H2]. destruct (t !! p) as [e0|] eqn:E; [|done]. injection H1 as <-. rewrite Hu in H2. eauto.
  - intros (e0 & [-> H2] & ->). cbn. by rewrite Hu.
Qed.
Lemma table_map f t : (forall x, used (f x) = used x /\ same_entry (f x) x) -> table t -> table (map f t).
Proof.
  intros Hf [Hw (c & Hc & Hcut) Ho]. assert (forall x, used (f x) = used x) as Hu by apply Hf. assert (forall n e, home_of n (f e) = home_of n e) as Hh by (intros n e; unfold home_of; destruct (Hf e) as (_ & _ & _ & -> & ->); done). split; rewrite ?length_map.
  - intros p e (e0 & He & ->)%at_map; [|done]. intros q x. rewrite list_lookup_fmap, Hh, length_map. destruct (t !! q) as [y|] eqn:Ey; [|done]. intros [= <-] Hd. rewrite Hu. by apply (Hw p e0 He q).
  - exists c. split; [done|]. intros p e (e0 & He & ->)%at_map; [|done]. rewrite Hh. by apply Hcut.
  - intros p q e e' (e0 & He & ->)%at_map (e1 & He' & ->)%at_map; [|done|done]. destruct (Hf e0) as (_ & _ & _ & -> & ->), (Hf e1) as (_ & _ & _ & -> & ->). by apply Ho.
Qed.
Lemma sim_map f ix m : (forall x, used (f x) = used x /\ same_entry (f x) x) -> simulates ix m -> simulates (mkIndex (map f (slots ix)) (StoreIndex.count ix) (total ix)) (f <$> m).
Proof.
  intros Hf [Ht H0 Hp Hk Hc Hl]. assert (forall x, used (f x) = used x) as Hu by apply Hf. assert (forall x, keyed (f x) = keyed x) as Hkf by (intros x; unfold keyed; destruct (Hf x) as (_ & _ & _ & -> & ->); done). split; cbn [slots StoreIndex.count total].
  - by apply table_map.
  - by rewrite length_map.
  - intros e. unfold present. rewrite lookup_fmap. split.
    + intros [p (e0 & He & ->)%at_map]; [|done]. rewrite Hkf. rewrite (proj1 (Hp e0)); [done|by exists p].
    + intros E. destruct (m !! keyed e) as [e0|] eqn:E0; [|done]. injection E as E. subst e. rewrite Hkf in E0. apply Hp in E0 as [p He]. exists p. apply at_map; [done|]. by exists e0.
  - intros k e. rewrite lookup_fmap. destruct (m !! k) as [e0|] eqn:E0; [|done]. intros [= <-]. rewrite Hkf, Hu. by apply Hk.
  - by rewrite map_size_fmap.
  - rewrite Hl. clear -Hf. induction m as [|k e m Hm IH] using map_ind; [done|]. rewrite fmap_insert, !lengths_insert by (rewrite ?lookup_fmap, Hm; done). destruct (Hf e) as (_ & _ & -> & _). by rewrite IH.
Qed.

Section sweeping.
Context {D : Type} {med_ops : Medium D} {med_laws : MediumLaws D} {cipher : Crypto} {cipher_laws : CryptoLaws}.
Local Abbreviation Store := (StoreMedium.Store D).
Local Abbreviation SM := (STE SError Store).
Definition ents (s : Store) (e : StoreIndex.Entry) : Prop := present (slots (ix s)) e.

Lemma block_entry (s : Store) e e0 c x : same_entry e e0 -> block_at s e0 c x -> block_at s e c x.
Proof using Type. intros (E1 & E2 & E3 & E4) [B1 B2 B3 B4 B5 B6 B7 B8 B9]. split; rewrite ?E1, ?E2, ?E3, ?E4; done. Qed.
Lemma Inv_ix s x : Inv s -> (exists mp, simulates x mp /\ base.size mp <= limit (slots x)) -> (forall e, present (slots x) e -> exists e0, ents s e0 /\ same_entry e e0) -> Inv (set_ix x s).
Proof using Type.
  intros [H1 H2 H3 H4 H5 H6 H7] Hs He. split; [done|done|done| |done| |done].
  - intros h Hh. by apply (run_sees s), H4.
  - intros e Hp. destruct (He e Hp) as (e0 & He0 & E). destruct (H6 e0 He0) as (c & y & Hb). exists c, y. by apply (block_sees s), (block_entry s e e0).
Qed.
Lemma Inv_remove s p e : Inv s -> at_slot (slots (ix s)) p e -> Inv (set_ix (StoreIndex.remove (ix s) p) s) /\ length (slots (StoreIndex.remove (ix s) p)) = length (slots (ix s)) /\ forall x, present (slots (StoreIndex.remove (ix s) p)) x <-> ents s x /\ x <> e.
Proof using Type.
  intros Hi He. destruct (i_index s Hi) as (mp & Hs & Hsz). destruct (sim_remove (ix s) mp p e Hs He) as [Hl Hs']. assert (mp !! keyed e = Some e) as Hme by (apply (s_present _ _ Hs); by exists p).
  assert (forall x, present (slots (StoreIndex.remove (ix s) p)) x <-> ents s x /\ x <> e) as Hpr.
  { intros x. rewrite (s_present _ _ Hs'). unfold ents. rewrite (s_present _ _ Hs). rewrite lookup_delete_Some. split; [intros [Hne Hx]; split; [done|by intros ->]|intros [Hx Hne]; split; [|done]]. intros Ek. rewrite <- Ek, Hme in Hx. by injection Hx as ->. }
  split; [|done]. apply Inv_ix; [done| |].
  - exists (delete (keyed e) mp). split; [done|]. unfold limit in *. rewrite Hl. rewrite map_size_delete, Hme. lia.
  - intros x [Hx _]%Hpr. by exists x.
Qed.
Lemma Inv_map s f : Inv s -> (forall x, used (f x) = used x /\ same_entry (f x) x) -> Inv (set_ix (mkIndex (map f (slots (ix s))) (StoreIndex.count (ix s)) (total (ix s))) s).
Proof using Type.
  intros Hi Hf. destruct (i_index s Hi) as (mp & Hs & Hsz). apply Inv_ix; [done| |].
  - exists (f <$> mp). split; [by apply sim_map|]. rewrite map_size_fmap. cbn [slots]. unfold limit in *. by rewrite length_map.
  - cbn [slots]. intros e [p (e0 & He & ->)%at_map]; [|apply Hf]. exists e0. split; [by exists p|apply Hf].
Qed.
Lemma Inv_update s p e f : Inv s -> at_slot (slots (ix s)) p e -> (forall x, used x = true -> used (f x) = true /\ same_entry (f x) x) -> Inv (set_ix (update_at (ix s) p f) s) /\ forall x, present (slots (update_at (ix s) p f)) x <-> x = f e \/ (x <> e /\ ents s x).
Proof using Type.
  intros Hi He Hf. destruct (i_index s Hi) as (mp & Hs & Hsz). pose proof (at_slot_lt _ _ _ He) as Hp. assert (nth p (slots (ix s)) StoreIndex.EMPTY = e) as Hn. { destruct He as [He _]. by rewrite nth_lookup_default, He. }
  assert (forall x, used x = true -> keyed (f x) = keyed x /\ used (f x) = true /\ len (f x) = len x) as Hf'. { intros x Hx. destruct (Hf x Hx) as (F1 & F2 & F3 & F4 & F5). unfold keyed. split_and!; [congruence|done|done]. }
  assert (forall x, present (slots (update_at (ix s) p f)) x <-> x = f e \/ (x <> e /\ ents s x)) as Hpr. { unfold update_at. cbn [slots]. rewrite Hn. destruct (Hf' e ltac:(apply He)) as (F1 & F2 & _). apply (table_update _ p e (f e) (s_table _ _ Hs) He F1 F2). }
  split; [|done]. apply Inv_ix; [done| |].
  - exists (<[keyed e := f e]> mp). split; [by apply sim_update|]. unfold update_at. cbn [slots]. unfold limit in *. rewrite length_insert, map_size_insert_Some; [done|]. exists e. apply (s_present _ _ Hs). by exists p.
  - intros x [->|[_ Hx]]%Hpr; [exists e; split; [by exists p|apply Hf; apply He]|by exists x].
Qed.

(** ** What a sweep has done so far, and where it stands *)
Record swept (s0 s : Store) : Prop := {
  sw_slots : length (slots (ix s)) = length (slots (ix s0)); sw_size : size_ s = size_ s0; sw_cfg : cfg s = cfg s0; sw_writable : writable (dev s) = writable (dev s0); sw_heads : heads s = heads s0; sw_pins : pins s = pins s0; sw_cur : cur s = cur s0; sw_now : now s = now s0;
  sw_domains : map no_records (domains s) = map no_records (domains s0);
  sw_sub : forall e, ents s e -> ents s0 e /\ forall c x, block_at s0 e c x -> block_at s e c x;
  sw_live : forall e, ents s0 e -> retained (now s0) e = true -> ents s e
}.
Lemma swept_alike s0 s s' : alike s s' -> swept s0 s -> swept s0 s'.
Proof using Type.
  intros [A1 A2 A3 A4 A5 A6 A7 A8 A9 _] [S0 S1 S2 S3 S4 S5 S6 S7 S8 S9 S10]. split; [by rewrite A2|by rewrite (v_size _ _ A1)|by rewrite (v_cfg _ _ A1)|congruence..| |].
  - intros e. unfold ents. rewrite A2. intros He. destruct (S9 e He) as [E1 E2]. split; [done|]. intros c x Hb. apply (block_sees s s'); auto.
  - intros e H1 H2. unfold ents. rewrite A2. by apply S10.
Qed.
(** The scan stands at [at_], a place; the runs end before it, and before the run it is in. *)
Record front (s : Store) (at_ : Z) (run : option Z) : Prop := {
  f_place : place s at_; f_end : (at_ <= size_ s)%Z; f_holes : forall h, h ∈ holes s -> (start h + run_len h <= default at_ run)%Z;
  f_run : forall from, run = Some from -> (1 <= from <= at_)%Z /\ forall k, (from <= k < at_)%Z -> place s k /\ med s k = zero_sector
}.
Lemma front_alike s s' at_ run : alike s s' -> front s at_ run -> front s' at_ run.
Proof using Type.
  intros Ha [F1 F2 F3 F4]. pose proof (a_sees _ _ Ha) as Hs. split; [by apply (place_sees s s')|by rewrite (v_size _ _ Hs)|by rewrite (a_holes _ _ Ha)|]. intros from E. destruct (F4 from E) as [G1 G2]. split; [done|]. intros k Hk. destruct (G2 k Hk) as [P1 P2]. split; [by apply (place_sees s s')|by rewrite (v_med _ _ Hs)].
Qed.
Record SW (s0 s : Store) (at_ : Z) (run : option Z) : Prop := { q_inv : Inv s; q_swept : swept s0 s; q_front : front s at_ run }.
Lemma SW_alike s0 s s' at_ run : alike s s' -> SW s0 s at_ run -> SW s0 s' at_ run.
Proof using Type. intros Ha [H1 H2 H3]. split; [by apply (Inv_alike s)|by apply (swept_alike s0 s)|by apply (front_alike s)]. Qed.
(** What a sweep that is refused leaves. *)
Definition left_by (s0 s : Store) : Prop := Inv s /\ swept s0 s.
Lemma SW_left s0 s at_ run : SW s0 s at_ run -> left_by s0 s.
Proof using Type. by intros [? ? _]. Qed.

Lemma sorted_snoc lo hs h : sorted_runs lo hs -> (forall x, x ∈ hs -> (start x + run_len x <= start h)%Z) -> (lo <= start h)%Z -> sorted_runs lo (hs ++ [h]).
Proof using Type. revert lo. induction hs as [|y hs IH]; intros lo Hs Hh Hlo; cbn [app sorted_runs] in *; [done|]. destruct Hs as [S1 S2]. split; [done|]. apply IH; [done|intros; apply Hh; by apply elem_of_cons; right|]. apply Hh. by apply elem_of_cons; left. Qed.
(** The run before [here] ends there. *)
Lemma SW_hole s0 s here from : SW s0 s here (Some from) -> SW s0 (hole from (here - from) s) here None.
Proof using Type.
  intros [Hi Hs [F1 F2 F3 F4]]. destruct (F4 from eq_refl) as [G1 G2]. cbn [default from_option id] in F3. assert (SW s0 s here None) as Hno by (split; [done|done|]; split; [done|done|intros h Hh; specialize (F3 h Hh); cbn; lia|done]). unfold hole. destruct (Z.ltb_spec 0 (here - from)) as [Hn|]; cbn [andb]; [|done]. destruct (_ <? _); [|done].
  set (h := mkExtent from (here - from)). assert (blank_run s from (here - from)) as Hb by (split; [lia|done|lia|]; intros k Hk; apply G2; lia). split.
  - apply (Inv_sees s); [done|done|done|apply Hi| | |exact (i_domains s Hi)]; cbn [holes set_holes].
    + apply sorted_snoc; [apply Hi|done|cbn; lia].
    + intros x [Hx|Hx%list_elem_of_singleton]%elem_of_app; [by apply Hi|by rewrite Hx].
  - destruct Hs as [S0 S1 S2 S3 S4 S5 S6 S7 S8 S9 S10]. split; [done..| |done]. intros e He. destruct (S9 e He) as [E1 E2]. split; [done|]. intros c x Hx. by apply (block_sees s), E2.
  - split; [by apply (place_sees s)|done| |done]. cbn [holes set_holes]. intros x [Hx|Hx%list_elem_of_singleton]%elem_of_app; [specialize (F3 x Hx); cbn; lia|rewrite Hx; cbn; lia].
Qed.
Lemma SW_end s0 s at_ run e : SW s0 s at_ run -> SW s0 (set_end e s) at_ run.
Proof using Type. apply SW_alike. by repeat split. Qed.
(** The scan goes on behind a record that is kept. *)
Lemma SW_keep s0 s here run n : SW s0 s here run -> covers (vkeys s) (size_ s) (med s here) here = n -> (here < size_ s)%Z -> SW s0 (occupied run here n s) (here + n) None.
Proof using Type.
  intros Hw Hc Hlt. unfold occupied. apply SW_end. set (s1 := match run with Some from => _ | None => _ end). assert (SW s0 s1 here None /\ sees s s1) as [[Hi Hs [F1 F2 F3 _]] Hse]. { unfold s1. destruct run as [from|]; [|done]. split; [by apply SW_hole|]. unfold hole. by destruct (_ && _). }
  clearbody s1. pose proof (covers_pos (vkeys s) (size_ s) (med s here) here) as Hp. pose proof (covers_end (vkeys s) (size_ s) (med s here) here Hlt) as Hce. rewrite Hc in *. split; [done|done|]. split.
  - apply (place_sees s s1); [done|]. rewrite <- Hc. apply visited_next. by apply (place_sees s s1).
  - rewrite (v_size _ _ Hse). lia.
  - intros h Hh. specialize (F3 h Hh). cbn in *. lia.
  - done.
Qed.
(** The scan goes on behind a record that is made blank. *)
Lemma entry_outside s here n e c x : place s here -> covers (vkeys s) (size_ s) (med s here) here = n -> block_at s e c x -> lba e <> here -> (lba e < here \/ here + n <= lba e)%Z.
Proof using Type.
  intros Hp Hc [_ _ _ _ _ _ _ _ (b & [Hl _ _ _] & _)] Hne. destruct (decide (lba e < here)%Z); [by left|]. right. rewrite <- Hc. apply (visited_apart (vkeys s) (size_ s) (med s) here); [done|done|lia].
Qed.
Lemma runs_free E s0 s here run n m : SW s0 s here run -> frame_at (size_ s) (med s here) here = Some n -> covers (vkeys s) (size_ s) (med s here) here = m -> (here < size_ s)%Z -> (forall e, ents s e -> lba e <> here) ->
  runs E (erase here m) s (fun _ s' => SW s0 s' (here + m) (Some (default here run))).
Proof using All.
  intros Hw Hf Hc Hlt Hno. pose proof Hw as [Hi Hs [F1 F2 F3 F4]]. pose proof (covers_pos (vkeys s) (size_ s) (med s here) here) as Hp. pose proof (covers_end (vkeys s) (size_ s) (med s here) here Hlt) as Hce. rewrite Hc in *. pose proof (visited_pos _ _ _ _ F1) as H1.
  eapply runs_weaken; [apply (runs_erase E here m s); [apply Hi|lia|lia|lia]|done|]. cbv beta. intros _ s' (Hio & Hout & Hz). destruct (erased_kept s s' here m F1 Hc Hce Hio Hout Hz) as (Hk & Hpl & Hbl).
  assert (forall e, ents s e -> forall c x, block_at s e c x -> (lba e < here \/ here + m <= lba e)%Z) as Houts by (intros e He c x Hb; apply (entry_outside s here m e c x); auto).
  assert (apart_from (holes s) here m) as Hap. { intros h Hh. rewrite <- Hc. apply (framed_no_hole s here n h); [by apply Hi|done|done]. }
  assert (forall k, place s k -> med s k = zero_sector -> (k < here)%Z -> place s' k /\ med s' k = zero_sector) as Hold by (intros k K1 K2 K3; split; [by apply Hpl|rewrite Hout by lia; done]). split.
  - apply (Inv_kept s s' here m); [done|done| |done]. intros e He. destruct (i_blocks s Hi e He) as (c & x & Hb). by apply (Houts e He c x).
  - pose proof (io_size s s' Hio) as Esz. destruct Hs as [S0 S1 S2 S3 S4 S5 S6 S7 S8 S9 S10]. assert (ix s' = ix s) as Eix by (by destruct Hio as (d & b & sc & -> & _)). assert (writable (dev s') = writable (dev s)) as Ew by (destruct Hio as (d & b & sc & -> & _ & W & _); exact W).
    destruct Hio as (d & b & sc & Es & _). split; [by rewrite Eix|congruence|by rewrite Es|congruence|by rewrite Es..| |].
    + unfold ents. rewrite Eix. intros e He. destruct (S9 e He) as [E1 E2]. split; [done|]. intros c x Hx. apply (block_kept s s' here m); [done|by apply E2|]. by apply (Houts e He c x), E2.
    + unfold ents. rewrite Eix. done.
  - assert (holes s' = holes s) as Eh by (by destruct Hio as (d & b & sc & -> & _)). destruct Hbl as [L1 L2 L3 L4]. split.
    + apply (place_end s' here m). by split.
    + rewrite (io_size s s') by done. lia.
    + rewrite Eh. cbn [default from_option id]. intros h Hh. specialize (F3 h Hh). destruct run as [from|]; cbn in *; lia.
    + intros from [= <-]. destruct run as [from|]; cbn [default from_option id] in *.
      * destruct (F4 from eq_refl) as [G1 G2]. split; [lia|]. intros k Hk'. destruct (decide (k < here)%Z); [apply Hold; try apply G2; lia|apply L4; lia].
      * split; [lia|]. intros k Hk'. apply L4. lia.
Qed.

(** ** One record *)
(** The record a sweep stands at: a frame of [n] sectors, [m] of them covered. *)
Record stands (s0 s : Store) (here : Z) (run : option Z) (n m : Z) : Prop := { t_sw : SW s0 s here run; t_frame : frame_at (size_ s) (med s here) here = Some n; t_covers : covers (vkeys s) (size_ s) (med s here) here = m; t_lt : (here < size_ s)%Z }.
Lemma stands_alike s0 s s' here run n m : alike s s' -> stands s0 s here run n m -> stands s0 s' here run n m.
Proof using Type.
  intros Ha [T1 T2 T3 T4]. pose proof (a_sees _ _ Ha) as [V1 V2 V3 _]. split; [by apply (SW_alike s0 s)|by rewrite V1, V2|unfold vkeys; by rewrite V1, V2, V3|by rewrite V2].
Qed.
Definition moved_on (s0 : Store) (here : Z) (r : Z * Scan) (s : Store) : Prop := (1 <= r.1)%Z /\ SW s0 s (here + r.1) r.2.1.
Lemma runs_settle E s0 s keep here run freed n m : stands s0 s here run n m -> (keep = false -> forall e, ents s e -> lba e <> here) -> runs E (settle keep here m (run, freed)) s (moved_on s0 here).
Proof using All.
  intros [T1 T2 T3 T4] Hno. pose proof (covers_pos (vkeys s) (size_ s) (med s here) here) as Hp. rewrite T3 in Hp. unfold settle. destruct keep.
  - apply runs_modify, runs_ret. split; [done|]. cbn [fst snd]. by apply SW_keep.
  - eapply runs_bind; [by apply (runs_free E s0 s here run n m); auto|]. cbv beta. intros _ s' Hs'. apply runs_ret. by split.
Qed.
Lemma covers_other s here n : frame_at (size_ s) (med s here) here = Some n -> frame_domain (med s here) <> VOLUME -> covers (vkeys s) (size_ s) (med s here) here = n.
Proof using Type. intros Hf Hd. unfold covers, marker. rewrite Hf, (proj2 (Z.eqb_neq _ _)) by done. done. Qed.
(** Only counters and the domains' counts. *)
Lemma alike_corrupt (s : Store) x : alike s (set_corrupt x s).
Proof using Type. by repeat split. Qed.
Lemma position_map_pred {A B} (g : A -> B) p q l : (forall x, q (g x) = p x) -> Prelude.position q (map g l) = Prelude.position p l.
Proof using Type. intros H. induction l as [|x l IH]; [done|]. cbn. by rewrite H, IH. Qed.
Lemma slot_counts (s s' : Store) id : map no_records (domains s') = map no_records (domains s) -> slot_of id s' = slot_of id s.
Proof using Type.
  intros E. unfold slot_of. set (p := fun d => match d with Some d => (d_id d =? id)%Z | None => false end). assert (forall x, p (no_records x) = p x) as Hp by (by intros [d|]). transitivity (Prelude.position p (map no_records (domains s'))); [symmetry; by apply position_map_pred|]. rewrite E. by apply position_map_pred.
Qed.
Lemma keys_counts (s s' : Store) id : cfg s' = cfg s -> map no_records (domains s') = map no_records (domains s) -> keys_for id s' = keys_for id s.
Proof using Type.
  intros Ec E. unfold keys_for, domain_of. rewrite Ec, (slot_counts s s' id E). destruct (_ || _); [done|]. destruct (_ =? _)%Z; [done|]. destruct (slot_of id s) as [k|]; [|done]. cbn [mbind option_bind]. assert (no_records <$> domains s' !! k = no_records <$> domains s !! k) as El by (pose proof (f_equal (lookup k) E) as Hk; by rewrite !list_lookup_fmap in Hk).
  destruct (domains s' !! k) as [[d'|]|], (domains s !! k) as [[d|]|]; cbn in *; try done. by injection El as _ _ -> -> _ _.
Qed.
Lemma alike_domains (s : Store) ds : map no_records ds = map no_records (domains s) -> alike s (set_domains ds s).
Proof using Type. intros E. split; try done. split; try done. intros id. by apply keys_counts. Qed.

(** What is known of a record once it has been opened. *)
Record seen_at (s0 s : Store) (here : Z) (run : option Z) (n id : Z) (b : bytes) (ok : bool) : Prop := {
  o_covers : exists m, stands s0 s here run n m /\ m = default n (m ← parse_free (take SECTOR b); if ok && (n =? 1)%Z && (id =? VOLUME)%Z && (here + m <=? size_ s)%Z then Some m else None);
  o_entry : forall e, ents s e -> lba e = here -> ok = true /\ exists c l, parse_header (take SECTOR b) = Some (c, l) /\ record_sectors (Z.of_nat l) = n /\ key e = to_bytes c /\ domain e = id
}.
Lemma opened_seen s0 s here run n m b ok : let id := frame_domain (med s here) in stands s0 s here run n m -> open_frame (keys_for id s) (image (med s) here (Z.to_nat n)) here (Z.to_nat n) id = (b, ok) -> length b = Z.to_nat n * SECTOR -> seen_at s0 s here run n id b ok.
Proof using All.
  intros id Hst Eo Hlb. pose proof Hst as [T1 T2 T3 T4]. split.
  - exists m. split; [done|]. rewrite <- T3. unfold covers. rewrite T2. unfold marker. fold id. f_equal. rewrite T2. destruct (Z.eqb_spec id VOLUME) as [Ei|]; [|rewrite !andb_false_r; by destruct (parse_free _)].
    destruct (Z.eqb_spec n 1) as [->|Hn]; [|rewrite bool_decide_false by (intros [= ?]; done); rewrite !andb_false_r; by destruct (parse_free _)]. rewrite bool_decide_refl. cbn [andb]. change (Z.to_nat 1) with 1 in *. cbn [image] in Eo. rewrite app_nil_r, Ei, keys_for_volume in Eo. rewrite Eo, (take_ge b) by lia. rewrite !andb_true_r. destruct ok; [done|by destruct (parse_free b)].
  - intros e He El. destruct (i_blocks s (q_inv _ _ _ _ T1) e He) as (c & x & [K _ L _ _ _ _ _ (b' & Hr & Hh & _)]). rewrite El in Hr. pose proof Hr as [_ Rf Ri Ro]. assert (record_sectors (len e) = n) as En by congruence. rewrite En in *.
    pose proof (length_image (med s) here (Z.to_nat n) (whole_med s)) as Hl. destruct (open_frame_true _ _ _ _ _ _ Hl Ro) as (_ & Es & _). pose proof (frame_at_bound _ _ _ _ Rf) as [Hnb _].
    assert (frame_domain (med s here) = domain e) as Ed. { unfold frame_domain. rewrite <- (le_2 (domain e)), <- Es by done. f_equal. replace (Z.to_nat n) with (S (Z.to_nat n - 1)) by lia. cbn [image]. symmetry. apply slice_app_before. rewrite whole_med. pose proof frame_small. unfold FRAME in *. lia. }
    fold id in Ed. rewrite Ed, Ro in Eo. injection Eo as <- <-. split; [done|]. exists c, (length x). split_and!; [done|by rewrite <- L|done|done].
Qed.
(** A block's record, whether its entry is retained. *)
Lemma runs_block_met E s0 s here run n id b c l : seen_at s0 s here run n id b true -> parse_header (take SECTOR b) = Some (c, l) ->
  runs E (block_met c l here id true) s (fun keep s' => (exists m, stands s0 s' here run n m /\ m = n) /\ (keep = false -> forall e, ents s' e -> lba e <> here)).
Proof using All.
  intros [(m & Hst & Em) Hent] Hh. assert (m = n) as ->. { rewrite Em. rewrite (magic_not_free b RECORD_MAGIC); [done|by eapply parse_header_magic|done]. } pose proof Hst as [[Hi Hs Hf] T2 T3 T4]. unfold block_met. apply runs_gets. destruct (i_index s Hi) as (mp & Hsim & _). pose proof (position_spec _ (to_bytes c) id (s_table _ _ Hsim) (s_slots _ _ Hsim)) as Hp.
  assert (forall e, ents s e -> lba e = here -> key e = to_bytes c /\ domain e = id) as Hkey. { intros e He El. destruct (Hent e He El) as (_ & c' & l' & Hh' & _ & Hk & Hd). rewrite Hh in Hh'. injection Hh' as <- <-. done. }
  destruct (StoreIndex.position (slots (ix s)) (to_bytes c) id) as [i|i].
  - destruct Hp as (e & He & Hk & Hd). assert (ents s e) as Hpe by (by exists i). assert (slot s i = e) as -> by (unfold slot; destruct He as [He _]; by rewrite nth_lookup_default, He). destruct (Z.eqb_spec (lba e) here) as [El|El]; cbn [negb].
    + destruct (retained (now s) e) eqn:Er; [apply runs_ret; by split; [exists n|]|]. destruct (Inv_remove s i e Hi He) as (Hi' & Hlen & Hpr). apply runs_modify, runs_ret. split.
      * exists n. split; [|done]. split; [|done|done|done]. split; [done| |by destruct Hf; split; try done; by apply (place_sees s)]. destruct Hs as [S0 S1 S2 S3 S4 S5 S6 S7 S8 S9 S10]. split; [by rewrite <- S0|done..| |].
        -- intros x Hx. apply Hpr in Hx as [Hx _]. destruct (S9 x Hx) as [X1 X2]. split; [done|]. intros c' y Hy. by apply (block_sees s), X2.
        -- intros x X1 X2. apply Hpr. split; [by apply S10|]. intros ->. rewrite S7 in Er. congruence.
      * intros _ x Hx Ex. apply Hpr in Hx as [Hx Hne]. apply Hne. destruct (Hkey x Hx Ex). by apply (keyed_same s); [done|done|done|congruence|congruence].
    + apply runs_ret. split; [by exists n|]. intros _ x Hx Ex. apply El. destruct (Hkey x Hx Ex) as [K1 K2]. rewrite <- Ex. f_equal. by apply (keyed_same s); [done|done|done|congruence|congruence].
  - apply runs_ret. split; [by exists n|]. intros _ x [q Hq] Ex. destruct Hp as [Hno _]. apply (Hno q x Hq). apply Hkey; [by exists q|done].
Qed.
(** Asking whether a version is kept changes nothing. *)
Lemma any_kept_quiet id es (s : Store) : exists o, any_kept id es s = (o, s).
Proof using Type.
  induction es as [|[[name k] v] es IH]; cbn [any_kept]; [by exists (Done false)|]. unfold mbind at 1, st_bind at 1. assert (exists o, still_kept id (take k name) v s = (o, s)) as [o ->].
  { unfold still_kept, gets, lift, mbind, st_bind. destruct (find_in _ _ _) as [[i|i]|e|]; [destruct (heads s !! i)|..]; cbn; by eexists. }
  destruct o as [[]|e|]; [by exists (Done true)|done|by exists (Refuse e)|by exists Crash].
Qed.
Lemma runs_quiet {A B} (E : Store -> Prop) (m : SM A) (k : A -> SM B) s Q : (exists o, m s = (o, s)) -> E s -> (forall a, runs E (k a) s Q) -> runs E (m ≫= k) s Q.
Proof using Type. intros [o Eo] He Hk. unfold runs, ends, mbind, st_bind. rewrite Eo. destruct o as [a|e|]; [apply Hk|by right|done]. Qed.
Lemma runs_opened_met s0 s here run freed n m : let id := frame_domain (med s here) in stands s0 s here run n m -> runs (left_by s0) (opened_met here n id true (run, freed)) s (moved_on s0 here).
Proof using All.
  intros id Hst. pose proof Hst as [T1 T2 T3 T4]. pose proof (frame_at_bound _ _ _ _ T2) as [Hn _]. unfold opened_met. apply runs_open; [apply T1|lia|lia|]. intros s1 b ok Eo Hre Hlb Eb. pose proof (reread_alike s s1 Hre) as Ha. pose proof (a_sees _ _ Ha) as [V1 V2 V3 V4].
  assert (frame_domain (med s1 here) = id) as Eid by (by rewrite V1). assert (seen_at s0 s1 here run n id b ok) as Hs. { rewrite <- Eid. apply (opened_seen s0 s1 here run n m); [by apply (stands_alike s0 s)| |done]. rewrite Eid, V4. rewrite (image_ext _ (med s)) by (intros; apply V1). done. }
  clearbody id. clear Hst T1 T2 T3 T4 Eo Hre Ha V1 V2 V3 V4 Eid. apply runs_gets. assert (take SECTOR (buffer s1) = take SECTOR b) as -> by (rewrite Eb; apply take_app_le; nia). clear Eb.
  assert (forall keep f m', m' = n -> parse_free (take SECTOR b) = None -> (keep = false -> forall e, ents s1 e -> lba e <> here) -> runs (left_by s0) (settle keep here m' (run, f)) s1 (moved_on s0 here)) as Hset.
  { intros keep f m' -> Hfree Hno. destruct (o_covers _ _ _ _ _ _ _ _ Hs) as (m' & Hst & Em). rewrite Hfree in Em. cbn in Em. subst m'. by apply (runs_settle _ s0 s1 keep here run f n n). }
  assert (left_by s0 s1) as Hleft by (destruct (o_covers _ _ _ _ _ _ _ _ Hs) as (m' & [T1 _ _ _] & _); by eapply SW_left).
  cbv zeta. set (blk := r ← parse_header _; _). destruct blk as [[c l]|] eqn:Eblk; unfold blk in Eblk; clear blk.
  { destruct (parse_header (take SECTOR b)) as [[c' l']|] eqn:Eh; [|done]. cbn [mbind option_bind snd] in Eblk. destruct ok; [|done]. cbn [andb] in Eblk. destruct (_ =? _)%Z eqn:En; [|done]. injection Eblk as -> ->. eapply runs_bind; [by apply (runs_block_met _ s0 s1 here run n id b c l)|].
    cbv beta. intros keep s2 ((m' & Hst & ->) & Hno). by apply (runs_settle _ s0 s2 keep here run _ n n). }
  assert (forall e, ents s1 e -> lba e <> here) as Hno. { intros e He El. destruct (o_entry _ _ _ _ _ _ _ _ Hs e He El) as (-> & c & l & Hh & Hr & _). rewrite Hh in Eblk. cbn [mbind option_bind snd andb] in Eblk. by rewrite Hr, Z.eqb_refl in Eblk. } clear Eblk.
  set (txn := c ← parse_txn _; _). destruct txn as [es|] eqn:Et; unfold txn in Et; clear txn.
  { destruct (parse_txn (take SECTOR b)) as [k|] eqn:Ep; [|done]. apply runs_quiet; [apply any_kept_quiet|done|]. intros keep. apply Hset; [done|by apply (magic_not_free b TXN_MAGIC); [eapply parse_txn_magic|]|done]. }
  clear Et. destruct (if ok && (n =? 1)%Z then parse_name _ else None) as [e|] eqn:En.
  { apply runs_quiet; [apply any_kept_quiet|done|]. intros keep. destruct (_ && _); [|done]. apply Hset; [done|by apply (magic_not_free b NAME_MAGIC); [eapply parse_name_magic|]|done]. }
  clear En. destruct (if ok && (n =? 1)%Z then parse_pin _ else None) as [e|] eqn:Ep.
  { apply runs_quiet; [unfold pin_met, gets, mbind, st_bind; cbn; by eexists|done|]. intros keep. destruct (_ && _); [|done]. apply Hset; [done|by apply (magic_not_free b PIN_MAGIC); [eapply parse_pin_magic|]|done]. }
  clear Ep. destruct (o_covers _ _ _ _ _ _ _ _ Hs) as (m' & Hst & Em). change (sectors (dev s1)) with (size_ s1). destruct (m ← parse_free _; _) as [k|] eqn:Ek; cbn in Em; subst m'.
  - pose proof Hst as [T1 T2 T3 T4]. pose proof (covers_pos (vkeys s1) (size_ s1) (med s1 here) here) as Hp. rewrite T3 in Hp. destruct (writable (dev s1)).
    + eapply runs_bind; [by apply (runs_free _ s0 s1 here run n k)|]. cbv beta. intros _ s2 H2. apply runs_ret. by split.
    + apply runs_modify, runs_ret. split; [done|]. by apply SW_keep.
  - cbn [negb orb]. destruct (existsb _ _) eqn:Ex.
    + apply runs_modify. by apply (runs_settle _ s0 _ true here run freed n n); [apply (stands_alike s0 s1); [apply alike_corrupt|]|].
    + by apply (runs_settle _ s0 s1 false here run _ n n).
Qed.
Lemma insert_counts (ds : list (option Domain)) k d n : ds !! k = Some (Some d) -> map no_records (<[k := Some (mkDomain (d_id d) (d_owner d) (forgotten d) n (d_keys d) (key_at d) (tomb_at d))]> ds) = map no_records ds.
Proof using Type. intros H. apply list_eq. intros j. rewrite !list_lookup_fmap. destruct (decide (k = j)) as [<-|Hne]; [|by rewrite list_lookup_insert_ne]. rewrite list_lookup_insert_eq by (by eapply lookup_lt_Some). by rewrite H. Qed.
Lemma runs_record s0 s here run freed n m : stands s0 s here run n m -> runs (left_by s0) (record here n (frame_domain (med s here)) true (run, freed)) s (moved_on s0 here).
Proof using All.
  intros Hst. pose proof Hst as [T1 T2 T3 T4]. unfold record. set (id := frame_domain (med s here)).
  assert (id <> VOLUME -> forall s' keep f, keep = true -> alike s s' -> runs (left_by s0) (settle keep here n (run, f)) s' (moved_on s0 here)) as Hkeep. { intros Hv s' keep f -> Ha. assert (m = n) as -> by (rewrite <- T3; by apply covers_other). apply (runs_settle _ s0 s' true here run f n n); [by apply (stands_alike s0 s)|done]. }
  destruct (Z.eqb_spec id KEYS) as [Ek|Ek]; [unfold key_record_met; apply Hkeep; [by rewrite Ek|done|done]|]. destruct ((id =? RECOVERY)%Z && (n =? 1)%Z) eqn:Er; [apply andb_prop in Er as [Er%Z.eqb_eq _]; unfold recovery_record_met; apply Hkeep; [by rewrite Er|done|done]|].
  destruct (Z.eqb_spec id VOLUME) as [Ev|Ev]; [by eapply runs_opened_met|]. apply runs_gets. destruct (slot_of id s) as [k|] eqn:Es; cbn [negb andb].
  - destruct (domains s !! k) as [[d|]|] eqn:Ed; cbn [default from_option id]; [|done|done]. cbn [or_crash]. unfold lift at 1, mbind at 1, st_bind at 1, runs at 1, ends at 1. cbn beta iota. apply runs_modify. set (s1 := set_domains _ s). assert (alike s s1) as Ha by (by apply alike_domains, insert_counts).
    destruct (i_domains s (q_inv _ _ _ _ T1) d ltac:(by eapply list_elem_of_lookup_2)) as [-> _]. pose proof (stands_alike s0 s s1 here run n m Ha Hst) as Hst1. assert (id = frame_domain (med s1 here)) as -> by done. by eapply runs_opened_met.
  - apply runs_modify. apply Hkeep; [done|done|apply alike_corrupt].
Qed.

(** ** The whole pass *)
Lemma runs_window s0 w b s here run freed : SW s0 s here run -> (here + Z.of_nat w <= size_ s)%Z -> (exists rest, b = image (med s) here w ++ rest) ->
  runs (left_by s0) (window_loop w b here true (run, freed)) s (fun r s' => SW s0 s' r.1 r.2.1).
Proof using All.
  revert b s here run freed. induction w as [|w IH]; intros b s here run freed Hw Hle Hb; cbn [window_loop]; [done|]. destruct Hb as [rest ->]. pose proof (q_front _ _ _ _ Hw) as Hf. pose proof (whole_med s here) as Hsl. assert (take SECTOR (image (med s) here (S w) ++ rest) = med s here) as ->. { rewrite take_app_le by (rewrite length_image by apply whole_med; lia). apply image_first, whole_med. }
  assert (drop SECTOR (image (med s) here (S w) ++ rest) = image (med s) (here + 1) w ++ rest) as -> by (cbn [image]; rewrite <- app_assoc; by apply drop_app_length'). cbv zeta. apply runs_gets. change (sectors (dev s)) with (size_ s). change (n ← parse_frame (med s here); if (here + n <=? size_ s)%Z then Some n else None) with (frame_at (size_ s) (med s here) here).
  destruct (frame_at (size_ s) (med s here) here) as [n|] eqn:Efr.
  - change (of_le (slice (med s here) 10 2)) with (frame_domain (med s here)). eapply runs_bind; [eapply runs_record; split; [done|done|done|lia]|]. cbv beta. intros [c x] s' [Hc Hs']. apply runs_ret. exact Hs'.
  - assert (covers (vkeys s) (size_ s) (med s here) here = 1%Z) as Hc by (unfold covers; by rewrite Efr). destruct (any_set (med s here)) eqn:Ea.
    + apply runs_modify, runs_modify. set (s1 := set_damaged _ s). assert (alike s s1) as Ha by (by repeat split). assert (SW s0 (occupied run here 1 s1) (here + 1) None) as Hs1 by (apply SW_keep; [by apply (SW_alike s0 s)|done|change (size_ s1) with (size_ s); lia]).
      assert (sees s1 (occupied run here 1 s1)) as Hse by (unfold occupied, hole; destruct run as [from|]; [destruct (_ && _)|]; done). apply IH; [done|rewrite (v_size _ _ Hse); change (size_ s1) with (size_ s); lia|]. exists rest. f_equal. apply image_ext. intros k _. symmetry. apply Hse.
    + apply any_set_false in Ea. rewrite Hsl in Ea. apply IH; [|lia|by exists rest]. destruct Hw as [Hi Hs [F1 F2 F3 F4]]. split; [done|done|]. split; [rewrite <- Hc; by apply visited_next|lia| |].
      * intros h Hh. specialize (F3 h Hh). destruct run; cbn in *; lia.
      * intros from [= <-]. destruct run as [from|]; cbn [default from_option id] in *.
        -- destruct (F4 from eq_refl) as [G1 G2]. split; [lia|]. intros k Hk. destruct (decide (k = here)) as [->|]; [done|apply G2; lia].
        -- split; [split; [by apply (visited_pos _ _ _ _ F1)|lia]|]. intros k Hk. assert (k = here) as -> by lia. done.
Qed.
Lemma runs_pass_loop s0 fuel s at_ run freed : SW s0 s at_ run -> runs (left_by s0) (pass_loop fuel at_ true (run, freed)) s (fun r s' => SW s0 s' (size_ s') r.1).
Proof using All.
  revert s at_ run freed. induction fuel as [|fuel IH]; intros s at_ run freed Hw; cbn [pass_loop]; [done|]. apply runs_gets. pose proof Hw as [Hi Hs Hf]. change (sectors (dev s)) with (size_ s). destruct (Z.ltb_spec at_ (size_ s)) as [Hlt|Hge]; [|apply runs_ret; pose proof (f_end _ _ _ Hf); by replace (size_ s) with at_ by lia].
  set (w := Z.min (size_ s - at_) RECORD_SECTORS). assert (0 < RECORD_SECTORS)%Z by reflexivity. apply runs_read; [apply Hi|lia|]. intros s1 Hre Eb. pose proof (reread_alike _ _ Hre) as Ha. apply runs_gets. eapply runs_bind; [apply (runs_window s0)|].
  - by apply (SW_alike s0 s).
  - rewrite (v_size _ _ (a_sees _ _ Ha)). lia.
  - rewrite Eb. eexists. f_equal. apply image_ext. intros k _. symmetry. apply Ha.
  - cbv beta. intros [next [run' freed']] s2 Hs2. by apply IH.
Qed.
Lemma drop_entries_kept s f fuel i : Inv s -> let x := drop_entries fuel f i (ix s) in Inv (set_ix x s) /\ length (slots x) = length (slots (ix s)) /\ (forall e, present (slots x) e -> ents s e) /\ forall e, ents s e -> f e = false -> present (slots x) e.
Proof using Type.
  revert s i. induction fuel as [|fuel IH]; intros s i Hi; cbn [drop_entries]; [cbv zeta; by split_and!; [destruct s|..]|]. destruct (Nat.ltb_spec i (length (slots (ix s)))) as [Hlt|]; [|cbv zeta; by split_and!; [destruct s|..]]. destruct (used _ && f _) eqn:Eu; [|by apply IH].
  apply andb_prop in Eu as [Eu Ef]. set (e := nth i _ _) in *. assert (at_slot (slots (ix s)) i e) as He by (by apply at_slot_nth). destruct (Inv_remove s i e Hi He) as (Hi' & Hlen & Hpr). destruct (IH _ i Hi') as (J1 & J0 & J2 & J3). cbn [ix set_ix] in J0, J1, J2, J3. cbv zeta. split; [exact J1|]. split; [by rewrite J0|]. split.
  - intros x Hx. by apply Hpr, J2.
  - intros x Hx Hfx. apply J3; [|done]. apply Hpr. split; [done|]. intros ->. congruence.
Qed.
Lemma drop_forgotten_none ks (s : Store) : domains_live s -> drop_forgotten ks s = (Done tt, s).
Proof using Type.
  intros Hl. induction ks as [|k ks IH]; cbn [drop_forgotten]; [done|]. unfold gets, mbind, st_bind. destruct (domains s !! k) as [[d|]|] eqn:E; [|exact IH|exact IH]. destruct (Hl d ltac:(by eapply list_elem_of_lookup_2)) as [-> _]. exact IH.
Qed.
Lemma no_records_twice ds : map no_records (map no_records ds) = map no_records ds.
Proof using Type. rewrite map_map. apply map_ext. by intros [d|]. Qed.
(** A sweep keeps every block that is retained, and the invariant. *)
Lemma runs_sweep s : Inv s -> runs (left_by s) (pass true) s (fun _ s' => left_by s s').
Proof using All.
  intros Hi. unfold pass. apply runs_modify, runs_modify, runs_modify, runs_gets. cbv beta. set (s1 := set_domains _ _). assert (sees s s1) as Hse. { split; try done. intros id. apply keys_counts; [done|]. apply no_records_twice. } assert (SW s s1 1 None) as Hw.
  { split.
    - apply (Inv_sees s); [done|done|done|apply Hi|done|by intros h Hh%elem_of_nil|]. apply (domains_counts s s1); [apply no_records_twice|exact (i_domains s Hi)].
    - split; try done; [apply no_records_twice|]. intros e He. split; [done|]. intros c x Hb. by apply (block_sees s).
    - split; [apply visited_start|change (size_ s1) with (size_ s); pose proof (i_size s Hi); lia|by intros h Hh%elem_of_nil|done]. }
  clearbody s1. eapply runs_bind; [by apply runs_pass_loop|]. cbv beta. intros [run freed] s2 Hw2. cbn [fst] in Hw2. apply runs_modify. change (sectors (dev s1)) with (size_ s1).
  set (s3 := match run with Some _ => _ | None => _ end). assert (left_by s s3) as [Hi3 Hs3]. { assert (size_ s1 = size_ s2) as Esz by (rewrite (sw_size _ _ (q_swept _ _ _ _ Hw2)); by rewrite (v_size _ _ Hse)). unfold s3. rewrite Esz. destruct run as [from|]; [eapply SW_left; by apply SW_hole|by eapply SW_left]. } clearbody s3.
  assert (runs (left_by s) (modify (fun s => set_ix (drop_all (fun e => negb (retained (now s) e)) (ix s)) s) ≫= (fun _ => drop_forgotten (seq 0 DOMAINS))) s3 (fun _ s' => left_by s s')) as Hdrop.
  { apply runs_modify. destruct (drop_entries_kept s3 (fun e => negb (retained (now s3) e)) (2 * length (slots (ix s3)) + 1) 0 Hi3) as (J1 & J0 & J2 & J3). set (s4 := set_ix _ s3). unfold runs, ends. rewrite drop_forgotten_none by exact (i_domains _ Hi3). split; [exact J1|]. destruct Hs3 as [S0 S1 S2 S3 S4 S5 S6 S7 S8 S9 S10]. split; [by rewrite <- S0|done..| |].
    - intros e He. destruct (S9 e (J2 e He)) as [X1 X2]. split; [done|]. intros c x Hx. by apply (block_sees s3), X2.
    - intros e X1 X2. apply J3; [by apply S10|]. by rewrite S7, X2. }
  eapply runs_bind; [exact Hdrop|]. cbv beta. intros _ s4 H4. by apply runs_gets, runs_ret.
Qed.
End sweeping.
