(* ===== verification/StoreMark.v ===== *)
(** * Marking and collecting keep what names and pins retain

    A collection clears the marks, walks every retained object through the store itself and sweeps. What is shown: a block under a
    retained root, at whatever depth, is marked where the walk ended well and is still held after the sweep; where a walk is
    refused nothing is swept. *)
From S2P Require Import Prelude Outcome Sha256 Cid Cbor Dag DagTree Directory Journal Tour StoreRecords StoreNames StoreIndex StoreMedium StorePass StoreLayout StoreInv StoreWrite StoreSweep.
Local Open Scope nat_scope.
#[local] Opaque digest SECTOR BUFFER RECORD_SECTORS.

(** ** What is under a root depends on the blocks under it only *)
Section agreeing.
Context (U U' : Cid -> bytes -> Prop).
Lemma agree_names c bs : (forall x, U c x <-> U' c x) -> Tour.names U c bs <-> Tour.names U' c bs.
Proof. intros H. unfold Tour.names. by rewrite H. Qed.
Lemma agree_file a c : (forall y, in_file U a y -> forall x, U y x <-> U' y x) -> in_file U a c <-> in_file U' a c.
Proof.
  intros H. split; intros Hc; revert H; induction Hc as [c|c bs n i x y Hn E Hi Hx _ IH]; intros H; try constructor.
  - eapply in_file_link; [apply agree_names; [apply H; constructor|exact Hn]|done|done|done|]. apply IH. intros z Hz. apply H. by eapply in_file_link.
  - apply agree_names in Hn; [|apply H; constructor]. eapply in_file_link; [exact Hn|done|done|done|]. apply IH. intros z Hz. apply H. by eapply in_file_link.
Qed.
Lemma agree_tree a c : (forall y, in_tree U a y -> forall x, U y x <-> U' y x) -> in_tree U a c <-> in_tree U' a c.
Proof.
  assert (forall a, in_tree U a a) as Hself by (intros b; apply in_tree_file; constructor). intros H. split; intros Hc; revert H; induction Hc as [c x Hf|c bs d i e x Hn E Hi He Hk Hf|c bs d i e x Hn E Hi He Hk _ IH]; intros H.
  - apply in_tree_file. apply agree_file; [|done]. intros y Hy. by apply H, in_tree_file.
  - eapply in_tree_entry; [apply agree_names; [apply H, Hself|exact Hn]|done|done|done|done|]. apply agree_file; [|done]. intros y Hy. apply H. by eapply in_tree_entry.
  - eapply in_tree_below; [apply agree_names; [apply H, Hself|exact Hn]|done|done|done|done|]. apply IH. intros y Hy. apply H. by eapply in_tree_below.
  - apply in_tree_file. apply agree_file in Hf; [done|]. intros y Hy. by apply H, in_tree_file.
  - apply agree_names in Hn; [|apply H, Hself]. eapply in_tree_entry; [exact Hn|done|done|done|done|]. apply agree_file in Hf; [done|]. intros y Hy. apply H. by eapply in_tree_entry.
  - apply agree_names in Hn; [|apply H, Hself]. eapply in_tree_below; [exact Hn|done|done|done|done|]. apply IH. intros y Hy. apply H. by eapply in_tree_below.
Qed.
Lemma journal_self a : in_journal U a a.
Proof. apply in_journal_tree, in_tree_file. constructor. Qed.
Lemma agree_journal a c : (forall y, in_journal U a y -> forall x, U y x <-> U' y x) -> in_journal U a c <-> in_journal U' a c.
Proof.
  intros H. split; intros Hc; revert H; induction Hc as [c x Ht|c bs e x Hn E Ht|c bs e p x Hn E Ep _ IH]; intros H.
  - apply in_journal_tree. apply agree_tree; [|done]. intros y Hy. by apply H, in_journal_tree.
  - eapply in_journal_content; [apply agree_names; [apply H, journal_self|exact Hn]|done|]. apply agree_tree; [|done]. intros y Hy. apply H. by eapply in_journal_content.
  - eapply in_journal_prev; [apply agree_names; [apply H, journal_self|exact Hn]|done|done|]. apply IH. intros y Hy. apply H. by eapply in_journal_prev.
  - apply in_journal_tree. apply agree_tree in Ht; [done|]. intros y Hy. by apply H, in_journal_tree.
  - apply agree_names in Hn; [|apply H, journal_self]. eapply in_journal_content; [exact Hn|done|]. apply agree_tree in Ht; [done|]. intros y Hy. apply H. by eapply in_journal_content.
  - apply agree_names in Hn; [|apply H, journal_self]. eapply in_journal_prev; [exact Hn|done|done|]. apply IH. intros y Hy. apply H. by eapply in_journal_prev.
Qed.
Lemma file_mono a c : (forall c x, U c x -> U' c x) -> in_file U a c -> in_file U' a c.
Proof. intros H. induction 1 as [c|c bs n i x y Hn E Hi Hx _ IH]; [constructor|]. destruct Hn as (N1 & N2 & N3). eapply in_file_link; [split; [done|split; [by apply H|done]]|done|done|done|done]. Qed.
Lemma tree_mono a c : (forall c x, U c x -> U' c x) -> in_tree U a c -> in_tree U' a c.
Proof.
  intros H. induction 1 as [c x Hf|c bs d i e x Hn E Hi He Hk Hf|c bs d i e x Hn E Hi He Hk _ IH]; [by apply in_tree_file, file_mono| |]; destruct Hn as (N1 & N2 & N3).
  - eapply in_tree_entry; [split; [done|split; [by apply H|done]]|done|done|done|done|by apply file_mono].
  - eapply in_tree_below; [split; [done|split; [by apply H|done]]|done|done|done|done|done].
Qed.
Lemma journal_mono a c : (forall c x, U c x -> U' c x) -> in_journal U a c -> in_journal U' a c.
Proof.
  intros H. induction 1 as [c x Ht|c bs e x Hn E Ht|c bs e p x Hn E Ep _ IH]; [by apply in_journal_tree, tree_mono| |]; destruct Hn as (N1 & N2 & N3).
  - eapply in_journal_content; [split; [done|split; [by apply H|done]]|done|by apply tree_mono].
  - eapply in_journal_prev; [split; [done|split; [by apply H|done]]|done|done|done].
Qed.
End agreeing.
(** Two stores give the same blocks under a root. *)
Definition agree (U U' : Cid -> bytes -> Prop) (root : Cid) : Prop := forall c, in_journal U root c -> forall x, U c x <-> U' c x.
(** Every block under a root is there. *)
Definition complete (U : Cid -> bytes -> Prop) (root : Cid) : Prop := forall c, in_journal U root c -> exists x, U c x.
Lemma agree_complete U U' root : agree U U' root -> complete U root -> complete U' root.
Proof. intros Ha Hc c Hj. apply (agree_journal U U' root c Ha) in Hj. destruct (Hc c Hj) as [x Hx]. exists x. by apply (Ha c Hj). Qed.
Lemma agree_trans U U' U'' root : agree U U' root -> agree U' U'' root -> agree U U'' root.
Proof. intros H1 H2 c Hj x. rewrite (H1 c Hj). apply H2. by apply (agree_journal U U' root c H1). Qed.
(** More blocks change nothing under a root that is complete. *)
Lemma complete_agree (U U' : Cid -> bytes -> Prop) root : complete U root -> (forall c x, U c x -> U' c x) -> (forall c x y, U' c x -> U' c y -> x = y) -> agree U U' root.
Proof. intros Hc Hs Hf c Hj x. split; [apply Hs|]. intros Hx. destruct (Hc c Hj) as [y Hy]. by rewrite (Hf c x y Hx (Hs _ _ Hy)). Qed.

Section marking.
Context {D : Type} {med_ops : Medium D} {med_laws : MediumLaws D} {cipher : Crypto} {cipher_laws : CryptoLaws}.
Local Abbreviation Store := (StoreMedium.Store D).
Local Abbreviation SM := (STE SError Store).

(** ** States that hold the same blocks: leases and marks may differ, and what reading changes *)
Record remarked (s s' : Store) : Prop := {
  m_slots : length (slots (ix s')) = length (slots (ix s)); m_sees : sees s s'; m_holes : holes s' = holes s; m_writable : writable (dev s') = writable (dev s); m_heads : heads s' = heads s; m_pins : pins s' = pins s; m_now : now s' = now s;
  m_domains : map no_records (domains s') = map no_records (domains s);
  m_back : forall e, ents s' e -> exists e0, ents s e0 /\ same_entry e e0; m_fwd : forall e, ents s e -> exists e', ents s' e' /\ same_entry e' e
}.
Lemma same_entry_trans e1 e2 e3 : same_entry e1 e2 -> same_entry e2 e3 -> same_entry e1 e3.
Proof using Type. unfold same_entry. intuition congruence. Qed.
#[local] Instance remarked_pre : PreOrder remarked.
Proof using Type.
  split; [intros s; split; try done; intros e He; by exists e|]. intros s1 s2 s3 [A0 A1 A2 A3 A4 A5 A6 A7 A8 A9] [B0 B1 B2 B3 B4 B5 B6 B7 B8 B9]. split; [congruence|by transitivity s2|congruence..| |].
  - intros e He. destruct (B8 e He) as (e2 & H2 & E2), (A8 e2 H2) as (e1 & H1 & E1). exists e1. split; [done|by apply (same_entry_trans e e2)].
  - intros e He. destruct (A9 e He) as (e2 & H2 & E2), (B9 e2 H2) as (e3 & H3 & E3). exists e3. split; [done|by apply (same_entry_trans e3 e2)].
Qed.
Lemma alike_remarked s s' : alike s s' -> remarked s s'.
Proof using Type. intros [A1 A2 A3 A4 A5 A6 A7 A8 A9 _]. split; [by rewrite A2|done..| |]; intros e; unfold ents; rewrite A2; intros He; by exists e. Qed.
Lemma holds_fwd s s' id c x : remarked s s' -> holds s id c x -> holds s' id c x.
Proof using Type. intros Hr (e & He & Ed & Hb). destruct (m_fwd _ _ Hr e He) as (e' & He' & E). exists e'. split_and!; [done|destruct E as (_ & _ & _ & ->); done|]. apply (block_sees s), (block_entry s e' e); [apply Hr|done|done]. Qed.
Lemma sees_sym (s s' : Store) : sees s s' -> sees s' s.
Proof using Type. intros [V1 V2 V3 V4]. by split. Qed.
Lemma holds_back s s' id c x : remarked s s' -> holds s' id c x -> holds s id c x.
Proof using Type. intros Hr (e & He & Ed & Hb). destruct (m_back _ _ Hr e He) as (e' & He' & E). exists e'. split_and!; [done|destruct E as (_ & _ & _ & E); congruence|]. apply (block_sees s'), (block_entry s' e' e); [by apply sees_sym, Hr| |done]. unfold same_entry in *. intuition congruence. Qed.

(** ** Walks through the store *)
Definition live_at (s : Store) (id : Z) (c : Cid) : Prop := exists e, ents s e /\ key e = to_bytes c /\ domain e = id /\ live e = true.
(** What a walk from [s0] keeps. *)
Definition on_walk (s0 s : Store) : Prop := Inv s /\ remarked s0 s /\ cur s = cur s0.
Definition further (s s' : Store) : Prop := remarked s s' /\ forall id c, live_at s id c -> live_at s' id c.
#[local] Instance further_pre : PreOrder further.
Proof using Type. split; [by intros s|]. intros s1 s2 s3 [A1 A2] [B1 B2]. split; [by transitivity s2|auto]. Qed.
Lemma alike_further s s' : alike s s' -> further s s'.
Proof using Type. intros Ha. split; [by apply alike_remarked|]. intros id c (e & He & H). exists e. unfold ents in *. rewrite (a_ix _ _ Ha). by split. Qed.
Lemma on_walk_alike s0 s s' : alike s s' -> on_walk s0 s -> on_walk s0 s'.
Proof using Type. intros Ha (H1 & H2 & H3). split_and!; [by apply (Inv_alike s)|transitivity s; [done|by apply alike_remarked]|by rewrite (a_cur _ _ Ha)]. Qed.
Lemma get_goes s0 c room s : goes (on_walk s0) further (get (Blocks:=reading) c room) s (fun bs _ => (zlen bs <= room)%Z /\ Forall is_byte bs /\ holds s0 (cur s0) c bs).
Proof using All.
  intros Hj. pose proof Hj as (Hi & Hr & Hc). pose proof (ends_get (fun _ s' => alike s s') False c room s Hi (fun _ _ Ha => Ha)) as H. unfold ends in H. cbn [get reading]. unfold blocks_get, as_blocks. destruct (get_block c room s) as [[x|e|] s'].
  - destruct H as (Hre & Hh & Hl). apply reread_alike in Hre. split; [by apply (on_walk_alike s0 s)|]. split; [by apply alike_further|]. split; [done|]. rewrite Hc in Hh. split; [by destruct Hh as (e & _ & _ & [_ _ _ _ _ Hb _ _ _])|by apply (holds_back s0 s)].
  - assert (forall y, alike s (set_unread y s')) as Hu by (intros y; transitivity s'; [done|by repeat split]). destruct e; cbn; apply (on_walk_alike s0 s); auto.
  - done.
Qed.
Lemma live_used e : used e = true -> used (with_live e) = true /\ same_entry (with_live e) e.
Proof using Type.
  intros Hu. split; [|done]. unfold used, with_live, USED, LIVE in *. cbn [flags]. apply negb_true_iff, Z.eqb_neq. apply negb_true_iff, Z.eqb_neq in Hu. rewrite Z.land_lor_distr_l. cbn. by rewrite Z.lor_0_r.
Qed.
Lemma live_with e : live (with_live e) = true.
Proof using Type.
  unfold live, with_live, LIVE. cbn [flags]. apply negb_true_iff, Z.eqb_neq. rewrite Z.land_lor_distr_l. change (2 &&& 2)%Z with 2%Z. intros E%Z.lor_eq_0_iff. by destruct E.
Qed.
(** An entry changed in its lease or its mark. *)
Lemma update_remarked s p e f : Inv s -> at_slot (slots (ix s)) p e -> (forall x, used x = true -> used (f x) = true /\ same_entry (f x) x) -> let s' := set_ix (update_at (ix s) p f) s in Inv s' /\ remarked s s' /\ forall x, ents s' x <-> x = f e \/ (x <> e /\ ents s x).
Proof using Type.
  intros Hi He Hf s'. destruct (Inv_update s p e f Hi He Hf) as [Hi' Hpr]. split_and!; [done| |done]. split; [cbn; by rewrite length_insert|done|done|done|done|done|done|done| |].
  - intros x Hx. apply Hpr in Hx as [->|[_ Hx]]; [exists e; split; [by exists p|apply Hf, He]|by exists x].
  - intros x Hx. destruct (decide (key x = key e /\ domain x = domain e)) as [[Ek Ed]|Hne].
    + assert (x = e) as -> by (apply (keyed_same s); [done|done|by exists p|done|done]). exists (f e). split; [apply Hpr; by left|apply Hf, He].
    + exists x. split; [apply Hpr; right; split; [intros ->; by apply Hne|done]|done].
Qed.
Lemma mark_goes s0 c s : goes (on_walk s0) further (mark_block c) s (fun _ s' => live_at s' (cur s0) c).
Proof using All.
  intros (Hi & Hr & Hc). unfold mark_block. destruct (find_block c s) as [p|p] eqn:Hf; [|done]. destruct (find_holds s c p Hi Hf) as (e & x & Hsl & Hpr & He & Hd & Hb). change (set_ix _ s) with (set_ix (update_at (ix s) p with_live) s). destruct (update_remarked s p e with_live Hi He live_used) as (U1 & U2 & U3). set (s' := set_ix _ s) in *.
  assert (live_at s' (cur s0) c) as Hlive. { exists (with_live e). split; [apply U3; by left|]. split; [apply Hb|]. split; [by rewrite <- Hc|apply live_with]. }
  split; [split_and!; [done|by transitivity s|done]|]. split; [|done]. split; [done|]. intros id c' (e' & He' & K1 & K2 & K3). destruct (decide (key e' = key e /\ domain e' = domain e)) as [[Ek Ed]|Hne].
  - assert (e' = e) as -> by (apply (keyed_same s); done). exists (with_live e). split_and!; [apply U3; by left|done|done|apply live_with].
  - exists e'. split_and!; [apply U3; right; split; [intros ->; by apply Hne|done]|done|done|done].
Qed.
Lemma stored_goes s0 c s : goes (on_walk s0) further (fun s : Store => if contains c s then (Done tt, s) else (Refuse Cbor.NotFound, s)) s (fun _ _ => exists x, holds s0 (cur s0) c x).
Proof using All.
  intros Hj. pose proof Hj as (Hi & Hr & Hc). unfold contains. destruct (find_block c s) as [p|p] eqn:Hf; [|done]. destruct (find_holds s c p Hi Hf) as (e & x & _ & Hpr & _ & Hd & Hb). split; [done|]. split; [done|]. exists x. apply (holds_back s0 s); [done|]. rewrite <- Hc. by exists e.
Qed.
(** A walk of a root through the store, marking or asking: every block under it was visited. *)
Lemma walk_ends (seen : Store -> Cid -> Prop) visit root s : (forall s s' c, further s s' -> seen s c -> seen s' c) -> (forall c s1, goes (on_walk s) further (visit c) s1 (fun _ s' => seen s' c)) -> Inv s ->
  ends (fun _ s' => on_walk s s') False (StorePass.walk root visit) s (fun _ s' => on_walk s s' /\ further s s' /\ forall c, in_journal (holds s (cur s)) root c -> seen s' c).
Proof using All.
  intros Hmono Hvisit Hi. unfold StorePass.walk. set (s1 := set_unread None s). assert (alike s s1) as Ha by (by repeat split). assert (on_walk s s) as H0 by done. pose proof (on_walk_alike s s s1 Ha H0) as H1.
  assert (0 <= steps s)%Z as Hst by (unfold steps; lia). pose proof (journal_tour_goes (holds s (cur s)) (fun c x y Hx Hy _ _ => holds_one s (cur s) c x y Hi Hx Hy) (on_walk s) further seen Hmono (get_goes s) visit Hvisit true root (steps s) s1 Hst H1) as H.
  unfold ends. change (Tour.walk (Blocks0:=reading) root (steps s) visit (set_unread None s)) with (journal_tour (Blocks0:=reading) true root (steps s) visit s1). destruct (journal_tour (Blocks0:=reading) true root (steps s) visit s1) as [[n|e|] s']; cbv beta iota zeta delta [Journal.map_err]; [|exact H|exact H]. destruct H as (J1 & J2 & J3). split_and!; [done| |auto]. transitivity s1; [by apply alike_further|done].
Qed.
Lemma runs_of_ends {A} (E : Store -> Prop) (F : SError -> Store -> Prop) K (m : SM A) s Q : ends F K m s Q -> (forall e s', F e s' -> E s') -> runs E m s Q.
Proof using Type. unfold runs, ends. destruct (m s) as [[a|e|] s']; [done| |done]. intros H1 H2. right. by eapply H2. Qed.

(** ** Marking all that is retained *)
Definition retained_root (s : Store) (id : Z) (root : Cid) : Prop :=
  (exists h v, h ∈ heads s /\ h_domain h = id /\ removed h = false /\ v ∈ versions h /\ version_root v = Done (Some root)) \/ exists p, p ∈ pins s /\ pin_domain p = id /\ pin_cid p = Done root.
(** Every block under a root of domain [id], as [s0] holds it, is marked. *)
Definition covered (s0 s : Store) (id : Z) (root : Cid) : Prop := forall c, in_journal (holds s0 id) root c -> live_at s id c.
(** What marking keeps from [s0] on, whatever domain it works in. *)
Definition marking (s0 s : Store) : Prop := Inv s /\ remarked s0 s.
Lemma covered_further s0 s s' id root : further s s' -> covered s0 s id root -> covered s0 s' id root.
Proof using Type. intros [_ H] Hc c Hj. auto. Qed.
Lemma runs_mark_root s0 s root : marking s0 s -> runs (marking s0) (StorePass.walk root mark_block) s (fun _ s' => marking s0 s' /\ further s s' /\ cur s' = cur s /\ covered s0 s' (cur s) root).
Proof using All.
  intros [Hi Hr]. eapply runs_weaken; [eapply runs_of_ends; [apply (walk_ends (fun s' c => live_at s' (cur s) c) mark_block root s); [intros s1 s2 c [_ H]; apply H|intros c s1; apply mark_goes|done]|]|done|].
  - intros _ s' (H1 & H2 & _). split; [done|by transitivity s].
  - cbv beta. intros _ s' ((H1 & H2 & H3) & Hf & Hseen). split; [split; [done|by transitivity s]|]. split_and!; [done|done|]. intros c Hj. apply Hseen. eapply (agree_journal (holds s0 (cur s))); [|exact Hj]. intros y _ x. split; [by apply holds_fwd|by apply holds_back].
Qed.
Lemma cur_marking s0 s x : marking s0 s -> marking s0 (set_cur x s) /\ further s (set_cur x s).
Proof using Type.
  intros [Hi Hr]. assert (remarked s (set_cur x s)) as Hc by (split; try done; intros e He; by exists e). split; [split; [|by transitivity s]|by split]. apply (Inv_sees s); [done|done|done|apply Hi|apply Hi|apply Hi|exact (i_domains s Hi)].
Qed.
Lemma runs_mark_versions s0 gone vs s : marking s0 s -> runs (marking s0) (mark_versions gone vs) s (fun _ s' => marking s0 s' /\ further s s' /\ cur s' = cur s /\ (gone = false -> forall v root, v ∈ vs -> version_root v = Done (Some root) -> covered s0 s' (cur s) root)).
Proof using All.
  revert s. induction vs as [|v vs IH]; intros s Hm; cbn [mark_versions]; [apply runs_ret; split_and!; [done|done|done|by intros _ v root Hv%elem_of_nil]|]. destruct gone; [by apply runs_ret|]. apply runs_lift; [done|]. intros r Er.
  assert (runs (marking s0) (match r with Some root => _ ← StorePass.walk root mark_block; mret tt | None => mret tt end) s (fun _ s' => marking s0 s' /\ further s s' /\ cur s' = cur s /\ forall root, r = Some root -> covered s0 s' (cur s) root)) as Hr.
  { destruct r as [root|]; [|by apply runs_ret]. eapply runs_bind; [by apply runs_mark_root|]. cbv beta. intros _ s' (H1 & H2 & H3 & H4). apply runs_ret. split_and!; [done|done|done|by intros root' [= <-]]. }
  eapply runs_bind; [exact Hr|]. cbv beta. intros _ s1 (H1 & H2 & H3 & H4). eapply runs_weaken; [by apply IH|done|]. cbv beta. intros _ s2 (J1 & J2 & J3 & J4). rewrite H3 in J3, J4. split_and!; [done|by transitivity s1|done|]. intros _ w root [->|Hw]%elem_of_cons Ew; [|by eapply J4]. apply (covered_further s0 s1); [done|]. apply H4. congruence.
Qed.
Lemma runs_mark_heads s0 hs s : marking s0 s -> runs (marking s0) (mark_heads hs) s (fun _ s' => marking s0 s' /\ further s s' /\ forall h v root, h ∈ hs -> removed h = false -> v ∈ versions h -> version_root v = Done (Some root) -> covered s0 s' (h_domain h) root).
Proof using All.
  revert s. induction hs as [|h hs IH]; intros s Hm; cbn [mark_heads]; [apply runs_ret; split_and!; [done|done|by intros h v root Hh%elem_of_nil]|]. apply runs_modify. destruct (cur_marking s0 s (h_domain h) Hm) as [Hm1 Hf1]. eapply runs_bind; [by apply runs_mark_versions|]. cbv beta. intros _ s1 (H1 & H2 & H3 & H4).
  eapply runs_weaken; [by apply IH|done|]. cbv beta. intros _ s2 (J1 & J2 & J3). split_and!; [done|transitivity (set_cur (h_domain h) s); [done|by transitivity s1]|]. intros h' v root [->|Hh]%elem_of_cons Hr Hv Ev; [|by eapply J3]. apply (covered_further s0 s1); [done|]. by eapply (H4 Hr v).
Qed.
Lemma runs_mark_pins s0 ps s : marking s0 s -> runs (marking s0) (mark_pins ps) s (fun _ s' => marking s0 s' /\ further s s' /\ forall p root, p ∈ ps -> pin_cid p = Done root -> covered s0 s' (pin_domain p) root).
Proof using All.
  revert s. induction ps as [|p ps IH]; intros s Hm; cbn [mark_pins]; [apply runs_ret; split_and!; [done|done|by intros p root Hp%elem_of_nil]|]. apply runs_modify. destruct (cur_marking s0 s (pin_domain p) Hm) as [Hm1 Hf1]. apply runs_lift; [done|]. intros root Er. eapply runs_bind; [by apply runs_mark_root|]. cbv beta. intros _ s1 (H1 & H2 & H3 & H4).
  eapply runs_weaken; [by apply IH|done|]. cbv beta. intros _ s2 (J1 & J2 & J3). split_and!; [done|transitivity (set_cur (pin_domain p) s); [done|by transitivity s1]|]. intros p' root' [->|Hp]%elem_of_cons Ep; [|by eapply J3]. apply (covered_further s0 s1); [done|]. assert (root' = root) as -> by congruence. done.
Qed.
Lemma runs_mark s : Inv s -> runs (marking s) mark s (fun _ s' => marking s s' /\ forall id root, retained_root s id root -> covered s s' id root).
Proof using All.
  intros Hi. unfold mark. apply runs_gets. assert (marking s s) as Hm by done. eapply runs_bind; [by apply runs_mark_heads|]. cbv beta. intros _ s1 (H1 & H2 & H3). eapply runs_weaken; [by apply runs_mark_pins|done|]. cbv beta. intros _ s2 (J1 & J2 & J3). split; [done|]. intros id root [(h & v & Hh & <- & Hr & Hv & Ev)|(p & Hp & <- & Ep)]; [|by apply J3].
  apply (covered_further s s1); [done|]. by apply (H3 h v).
Qed.

(** ** Collecting *)
(** What every request keeps: what requests answer from, and every block under a root that is retained. *)
Record kept (s s' : Store) : Prop := {
  kp_heads : heads s' = heads s; kp_pins : pins s' = pins s; kp_cur : cur s' = cur s; kp_cfg : cfg s' = cfg s; kp_writable : writable (dev s') = writable (dev s); kp_size : size_ s' = size_ s;
  kp_domains : map no_records (domains s') = map no_records (domains s);
  kp_slots : length (slots (ix s')) = length (slots (ix s)); kp_keys : forall e, ents s' e -> exists e0, ents s e0 /\ keyed e = keyed e0;
  kp_agree : forall id root, retained_root s id root -> agree (holds s id) (holds s' id) root
}.
Lemma agree_refl U root : agree U U root.
Proof using Type. by intros c _ x. Qed.
#[local] Instance kept_pre : PreOrder kept.
Proof using Type.
  split; [intros s; split; try done; intros e He; by exists e|]. intros s1 s2 s3 [A1 A2 A3 A4 A5 A6 A7 A9 A10 A8] [B1 B2 B3 B4 B5 B6 B7 B9 B10 B8]. split; [congruence..| |].
  { intros e He. destruct (B10 e He) as (e2 & H2 & E2), (A10 e2 H2) as (e1 & H1 & E1). exists e1. split; [done|congruence]. }
  intros id root Hr. eapply agree_trans; [by apply A8|]. apply B8. unfold retained_root in *. by rewrite A1, A2.
Qed.
Lemma remarked_kept s s' : remarked s s' -> cur s' = cur s -> kept s s'.
Proof using Type. intros Hr Hc. pose proof Hr as [M0 [V1 V2 V3 V4] M2 M3 M4 M5 M6 M7 M8 M9]. split; [done..| |].
  { intros e He. destruct (M8 e He) as (e0 & He0 & (_ & _ & E1 & E2)). exists e0. split; [done|]. unfold keyed. congruence. }
  intros id root _ c _ x. split; [by apply holds_fwd|by apply holds_back]. Qed.
Lemma unmark_same e : used (unmark e) = used e /\ same_entry (unmark e) e.
Proof using Type. split; [|done]. unfold used, unmark, USED, LIVE. cbn [flags]. rewrite <- Z.land_assoc. done. Qed.
Lemma map_remarked s f : (forall x, used (f x) = used x /\ same_entry (f x) x) -> remarked s (set_ix (mkIndex (map f (slots (ix s))) (StoreIndex.count (ix s)) (total (ix s))) s).
Proof using Type.
  intros Hf. split; try done; unfold ents; cbn [ix set_ix slots]; [by rewrite length_map|..].
  - intros e [p (e0 & He & ->)%at_map]; [|apply Hf]. exists e0. split; [by exists p|apply Hf].
  - intros e [p He]. exists (f e). split; [|apply Hf]. exists p. apply at_map; [apply Hf|]. by exists e.
Qed.
(** What a sweep leaves of a store where all that is retained is marked. *)
Lemma sweep_kept s s2 s3 : Inv s2 -> remarked s s2 -> cur s2 = cur s -> (forall id root, retained_root s id root -> covered s s2 id root) -> left_by s2 s3 -> kept s s3.
Proof using All.
  intros Hi2 Hr Hc Hcov [Hi3 Hs]. pose proof Hs as [S0 S1 S2 S3 S4 S5 S6 S7 S8 S9 S10]. pose proof Hr as [M0 [V1 V2 V3 V4] M2 M3 M4 M5 M6 M7 M8 _]. split; [congruence..| |].
  { intros e He. destruct (S9 e He) as [He2 _], (M8 e He2) as (e0 & He0 & (_ & _ & E1 & E2)). exists e0. split; [done|]. unfold keyed. congruence. }
  intros id root Hret c Hj x. split.
  - intros (e & He & Ed & Hb)%(holds_fwd s s2); [|done]. destruct (Hcov id root Hret c Hj) as (e' & He' & Ek & Ed' & Hl). assert (e' = e) as -> by (apply (keyed_same s2); [done|done|done|by rewrite Ek, (b_key _ _ _ _ Hb)|congruence]).
    assert (ents s3 e) as He3 by (apply S10; [done|]; unfold retained; by rewrite Hl). exists e. split_and!; [done|done|]. by apply (S9 e He3).
  - intros (e & He & Ed & Hb). apply (holds_back s s2); [done|]. destruct (S9 e He) as [He2 Hbl]. exists e. split_and!; [done|done|]. destruct (i_blocks s2 Hi2 e He2) as (c' & x' & Hb'). destruct (block_same _ _ _ _ _ _ _ Hb (Hbl _ _ Hb') eq_refl) as (_ & _ & -> & ->). done.
Qed.
Definition keeping (s s' : Store) : Prop := Inv s' /\ kept s s'.
Lemma runs_restoring {A} (E E' : Store -> Prop) (m : SM A) s (Q Q' : A -> Store -> Prop) : runs E m s Q -> (forall s', E s' -> E' (set_cur (cur s) s')) -> (forall a s', Q a s' -> Q' a (set_cur (cur s) s')) -> runs E' (restoring m) s Q'.
Proof using Type. unfold runs, ends, restoring. intros H H1 H2. destruct (m s) as [[a|e|] s']; [by apply H2| |done]. destruct H as [->|H]; [by left|right; by apply H1]. Qed.
Lemma runs_collect s : Inv s -> runs (keeping s) collect s (fun _ s' => keeping s s').
Proof using All.
  intros Hi. unfold collect. apply runs_gets. destruct (writable (dev s)); [|by apply runs_fail]. apply runs_modify. cbv beta. cbn [negb]. set (s1 := set_ix _ s). assert (Inv s1) as Hi1 by (apply Inv_map; [done|apply unmark_same]). assert (remarked s s1) as Hr1 by (apply map_remarked, unmark_same). assert (cur s1 = cur s) as Hc1 by done. clearbody s1.
  assert (forall id root, retained_root s id root -> retained_root s1 id root) as Hret by (intros id root; unfold retained_root; by rewrite (m_heads _ _ Hr1), (m_pins _ _ Hr1)).
  assert (forall s2, marking s1 s2 -> Inv (set_cur (cur s1) s2) /\ remarked s (set_cur (cur s1) s2)) as Hback. { intros s2 Hm. destruct (cur_marking s1 s2 (cur s1) Hm) as [[J1 J2] _]. split; [done|by transitivity s1]. }
  eapply runs_bind; [eapply (runs_restoring (marking s1) (keeping s) mark s1 _ (fun _ s2 => Inv s2 /\ remarked s s2 /\ cur s2 = cur s /\ forall id root, retained_root s id root -> covered s s2 id root)); [by apply runs_mark| |]|].
  - intros s2 Hm. destruct (Hback s2 Hm) as [J1 J2]. split; [done|]. by apply remarked_kept.
  - cbv beta. intros _ s2 [Hm Hcov]. destruct (Hback s2 Hm) as [J1 J2]. split_and!; [done|done|done|]. intros id root Hr c Hj. apply (Hcov id root (Hret id root Hr) c). eapply (agree_journal (holds s id)); [|exact Hj]. intros y _ x. split; [by apply holds_fwd|by apply holds_back].
  - cbv beta. intros _ s2 (Hi2 & Hr2 & Hc2 & Hcov). assert (forall s3, left_by s2 s3 -> keeping s s3) as Hk by (intros s3 H3; split; [apply H3|by apply (sweep_kept s s2)]). eapply runs_weaken; [by apply runs_sweep|exact Hk|cbv beta; intros _ s3 H3; by apply Hk].
Qed.
(** Room is found, after a collection where there was none. *)
Lemma runs_room s n : Inv s -> runs (keeping s) (room n) s (fun at_ s' => keeping s s' /\ has_room s' at_ n).
Proof using All.
  intros Hi. unfold room. apply runs_gets. destruct (find_room n s) as [at_|] eqn:Ef; [apply runs_ret; split; [done|by apply find_room_some]|]. eapply runs_bind; [by apply runs_collect|]. cbv beta. intros _ s1 H1. apply runs_gets. apply runs_last, runs_lift; [done|]. intros at_ Ea%or_refuse_done. apply runs_ret. split; [done|by apply find_room_some].
Qed.
End marking.
