(* ===== verification/StoreSafe.v ===== *)
(** * No request loses a block that a name or a pin retains

    The invariant of the block store's requests: the index and the medium agree, and every block under the root of a retained
    version of a name, or of a pin, is held. Each request keeps it, whether it ends well or is refused, as long as the device
    fails no call; so a block that is retained is given, whatever collections ran. Requests that erase a single record they
    remember the place of ([unpin], [domain_forget], [recovery_keep] and [recovery_forget]) are left out. *)
From S2P Require Import Prelude Outcome Sha256 Cid Cbor Dag DagTree Directory Journal Tour StoreRecords StoreNames StoreIndex StoreMedium StorePass StoreOps StoreMount StoreLayout StoreInv StoreWrite StoreSweep StoreMark.
Local Open Scope nat_scope.
Lemma length_header c n : cid_ok c -> length (header c n) = HEADER.
Proof. intros Hc. pose proof (length_to_bytes c Hc) as Hl. change BYTES with 36 in Hl. unfold header. flen. Qed.
Lemma header_sector : HEADER <= SECTOR.
Proof. apply Nat.leb_le. reflexivity. Qed.
Lemma domain_width : (RECOVERY < KEYS < W16)%Z.
Proof. done. Qed.
#[local] Opaque digest SECTOR BUFFER RECORD_SECTORS header parse_header.

Section requests.
Context {D : Type} {med_ops : Medium D} {med_laws : MediumLaws D} {cipher : Crypto} {cipher_laws : CryptoLaws}.
Local Abbreviation Store := (StoreMedium.Store D).
Local Abbreviation SM := (STE SError Store).
#[local] Existing Instance kept_pre.
#[local] Existing Instance remarked_pre.

Record Good (s : Store) : Prop := {
  g_inv : Inv s;
  g_cur : (0 <= cur s < RECOVERY)%Z;
  g_key : forall id v, kept_key (cfg s) = Some (id, v) -> length v = 32;
  g_heads : forall h, h ∈ heads s -> head_ok h /\ exists vs, versions h = kept_of vs;
  g_complete : forall id root, retained_root s id root -> complete (holds s id) root
}.
Lemma Good_keeping s s' : Good s -> keeping s s' -> Good s'.
Proof using Type.
  intros [G1 G2 G0 G3 G4] [Hi Hk]. pose proof Hk as [K1 K2 K3 K4 K5 K6 K7 K8 K9 K10]. split; [done|by rewrite K3|by rewrite K4|by rewrite K1|]. intros id root Hr. assert (retained_root s id root) as Hr0 by (unfold retained_root in *; by rewrite <- K1, <- K2). apply (agree_complete (holds s id)); auto.
Qed.
Lemma keeping_trans s1 s2 s3 : keeping s1 s2 -> keeping s2 s3 -> keeping s1 s3.
Proof using Type. intros [_ H1] [H2 H3]. split; [done|by transitivity s2]. Qed.
Lemma alike_keeping s s' : Inv s -> alike s s' -> keeping s s'.
Proof using Type. intros Hi Ha. split; [by apply (Inv_alike s)|]. apply remarked_kept; [by apply alike_remarked|apply Ha]. Qed.
Lemma runs_good {A} s (m : SM A) (P : A -> Store -> Prop) : Good s -> runs (keeping s) m s P -> runs Good m s P.
Proof using Type. intros Hg H. eapply runs_weaken; [exact H| |done]. intros s'. by apply Good_keeping. Qed.

(** ** A record put into room that was found *)
Lemma same_holds s s' : Inv s -> (forall e, ents s' e <-> ents s e) -> (forall e c x, ents s e -> block_at s e c x -> block_at s' e c x) -> forall id c x, holds s' id c x <-> holds s id c x.
Proof using All.
  intros Hi He Hb id c x. split.
  - intros (e & H1 & H2 & H3). apply He in H1. exists e. split_and!; [done|done|]. destruct (i_blocks s Hi e H1) as (c' & x' & B). destruct (block_same _ _ _ _ _ _ _ H3 (Hb _ _ _ H1 B) eq_refl) as (_ & _ & -> & ->). done.
  - intros (e & H1 & H2 & H3). exists e. split_and!; [by apply He|done|by apply Hb].
Qed.
(** The same blocks are held. *)
Definition steady (s s' : Store) : Prop := keeping s s' /\ forall id c x, holds s' id c x <-> holds s id c x.
Lemma steady_trans s1 s2 s3 : steady s1 s2 -> steady s2 s3 -> steady s1 s3.
Proof using Type. intros [A1 A2] [B1 B2]. split; [by apply (keeping_trans s1 s2)|]. intros id c x. by rewrite B2. Qed.
Lemma steady_complete s s' id root : steady s s' -> complete (holds s id) root -> complete (holds s' id) root.
Proof using Type. intros [_ H]. apply agree_complete. intros c _ x. symmetry. apply H. Qed.
Lemma alike_steady s s' : Inv s -> alike s s' -> steady s s'.
Proof using Type. intros Hi Ha. split; [by apply alike_keeping|]. intros id c x. apply alike_remarked in Ha. split; [by apply holds_back|by apply holds_fwd]. Qed.
Lemma claim_steady s at_ n : Inv s -> has_room s at_ n -> (1 <= n)%Z -> steady s (claim at_ n s) /\ blank_run (claim at_ n s) at_ n /\ apart_from (holes (claim at_ n s)) at_ n.
Proof using All.
  intros Hi Hr Hn. destruct (claim_run s at_ n Hi Hr Hn) as (hs & e & E & Hi' & Hb & Ha). rewrite E in *. split; [|done]. assert (forall id c x, holds (set_end e (set_holes hs s)) id c x <-> holds s id c x) as Hh by (apply same_holds; [done|done|intros y c' z _; by apply block_sees]). split; [|done]. split; [done|]. split; try done; [intros x Hx; by exists x|]. intros id root _ c _ x. symmetry. apply Hh.
Qed.
Lemma added s s' at_ id c k record : Inv s -> blank_run s at_ c -> apart_from (holes s) at_ c -> io s s' -> same_outside s s' at_ c -> written s' at_ id c k record -> (0 <= id < W16)%Z ->
  (id = VOLUME -> k = vkeys s /\ parse_free (record ++ replicate (Z.to_nat c * SECTOR - length record) 0%Z) = None) -> steady s s' /\ place s' at_ /\ frame_at (size_ s') (med s' at_) at_ = Some c.
Proof using All.
  intros Hi Hb Ha Hio Hout [W1 W2 W3] Hid Hv. assert (frame_at (size_ s) (med s' at_) at_ = Some c) as Hf by (unfold frame_at; rewrite W1; cbn; rewrite (proj2 (Z.leb_le _ _)); [done|apply Hb]). assert (frame_domain (med s' at_) = id) as Ed by (unfold frame_domain; rewrite W2; by apply le_2).
  assert (covers (vkeys s) (size_ s) (med s' at_) at_ = c) as Hc.
  { unfold covers. rewrite Hf. destruct (marker _ _ _ _) as [m|] eqn:Em; [exfalso|done]. revert Em. unfold marker. rewrite Ed, Hf. destruct (Z.eqb_spec id VOLUME) as [E|]; [|done]. destruct (bool_decide_reflect (Some c = Some 1%Z)) as [[= ->]|]; [|done]. cbn [andb]. destruct (Hv E) as [-> Hfree].
    change (Z.to_nat 1) with 1 in *. cbn [image] in W3. rewrite app_nil_r, E in W3. rewrite W3, Hfree. done. }
  destruct (written_kept s s' at_ c Hb Hio Hout Hc) as [Hk Hp]. assert (forall e i x, ents s e -> block_at s e i x -> block_at s' e i x) as Hbk by (intros e i x _ B; apply (block_kept s s' at_ c); [done|done|by eapply blank_no_entry]). assert (ix s' = ix s) as Eix by (by destruct Hio as (d & b & sc & -> & _)).
  assert (forall id c x, holds s' id c x <-> holds s id c x) as Hh by (apply same_holds; [done|unfold ents; by rewrite Eix|done]). split; [|split; [done|by rewrite (io_size s s')]]. split; [|done]. split.
  - apply (Inv_kept s s' at_ c); [done|done| |done]. intros e He. destruct (i_blocks s Hi e He) as (i & x & B). by eapply blank_no_entry.
  - assert (writable (dev s') = writable (dev s)) as Ew by (destruct Hio as (d & b & sc & -> & _ & W & _); exact W). pose proof (io_size s s' Hio) as Es. split; try exact Ew; try exact Es; try (by rewrite Eix); try (by destruct Hio as (d & b & sc & -> & _)).
    + unfold ents. rewrite Eix. intros e He. by exists e.
    + intros i root _ y _ x. symmetry. apply Hh.
Qed.

(** ** Putting a block *)
Lemma kept_count s s' mp mp' : kept s s' -> simulates (ix s) mp -> simulates (ix s') mp' -> base.size mp' <= base.size mp.
Proof using Type.
  intros Hk Hs Hs'. rewrite <- !size_dom. apply subseteq_size. intros k Hk'. apply elem_of_dom in Hk' as [e He]. destruct (s_keyed _ _ Hs' k e He) as [<- _]. apply (s_present _ _ Hs') in He. destruct (kp_keys _ _ Hk e He) as (e0 & He0 & ->). apply elem_of_dom. exists e0. by apply (s_present _ _ Hs).
Qed.
(** A new entry for a block that lies whole on the medium. *)
Lemma Good_insert s t k data at_ x mp : Good s -> let c := of_data k data in let e := mkEntry t at_ (Z.of_nat (length data)) USED (to_bytes c) (cur s) in
  simulates (ix s) mp -> base.size mp < limit (slots (ix s)) -> (0 <= at_ < W32)%Z -> block_at s e c data -> StoreIndex.insert (ix s) t (to_bytes c) (cur s) at_ (Z.of_nat (length data)) = Some x -> Good (set_ix x s).
Proof using All.
  intros Hg c e Hsim Hsz Hat Hb Hins. pose proof Hg as [Hi G2 G0 G3 G4]. assert (mp !! keyed e = None) as Hnone.
  { pose proof (position_map (ix s) mp (to_bytes c) (cur s) Hsim) as Hp. unfold StoreIndex.insert in Hins. destruct (StoreIndex.position _ _ _); [done|]. by destruct Hp. }
  pose proof (b_max _ _ _ _ Hb) as Hmax. cbn [len e] in Hmax. destruct (sim_insert (ix s) mp t (to_bytes c) (cur s) at_ (Z.of_nat (length data)) Hsim Hat) as (x' & E & Hl & Hs'); [unfold BLOCK_MAX, W16 in *; lia|done|pose proof (limit_le (slots (ix s))); lia|]. assert (x' = x) as -> by congruence.
  assert (forall e', present (slots x) e' <-> e' = e \/ ents s e') as Hpr.
  { intros e'. rewrite (s_present _ _ Hs'). change (to_bytes c, cur s) with (keyed e). rewrite lookup_insert_Some. unfold ents. rewrite (s_present _ _ Hsim). split; [intros [[_ <-]|[_ H]]; [by left|by right]|intros [->|H]; [by left|right; split; [|done]; intros Ek; by rewrite <- Ek, Hnone in H]]. }
  assert (Inv (set_ix x s)) as Hi'. { pose proof Hi as [I1 I2 I3 I4 I5 I6 I7]. split; [done|done| | |done| |done].
    - eexists. split; [exact Hs'|]. cbn [ix set_ix]. rewrite map_size_insert_None by done. unfold limit in *. rewrite Hl. lia.
    - intros h Hh. by apply (run_sees s), I4.
    - intros e' [->|He]%Hpr; [exists c, data; by apply (block_sees s)|]. destruct (I6 e' He) as (c' & y & B). exists c', y. by apply (block_sees s). }
  split; [done|done|done|done|]. intros id root Hr. apply (agree_complete (holds s id)); [|by apply G4]. apply complete_agree; [by apply G4| |intros i y z; by apply holds_one]. intros i y (e' & H1 & H2 & H3). exists e'. split_and!; [apply Hpr; by right|done|by apply (block_sees s)].
Qed.
Lemma update_good s p e f : Good s -> at_slot (slots (ix s)) p e -> (forall x, used x = true -> used (f x) = true /\ same_entry (f x) x) -> Good (set_ix (update_at (ix s) p f) s).
Proof using All. intros Hg He Hf. destruct (update_remarked s p e f (g_inv s Hg) He Hf) as (H1 & H2 & _). apply (Good_keeping s); [done|]. split; [done|by apply remarked_kept]. Qed.
(** The record of a block, as it is written and opened. *)
Lemma block_record c (data zeros : bytes) : good c -> (Z.of_nat (length data) <= BLOCK_MAX)%Z -> let b := (header c (length data) ++ data) ++ zeros in parse_header (take SECTOR b) = Some (c, length data) /\ slice b HEADER (length data) = data.
Proof using Type.
  intros Hc Hm b. pose proof (length_header c (length data) ltac:(apply Hc)) as Hl. unfold b. rewrite <- app_assoc. split.
  - rewrite take_app_ge by (rewrite Hl; apply header_sector). by apply header_round_trip.
  - apply slice_mid; done.
Qed.
Lemma runs_put_new k data s : Good s -> Forall is_byte data -> (Z.of_nat (length data) <= BLOCK_MAX)%Z -> typed_block k data = Done true -> runs Good (put_new (of_data k data) data) s (fun _ s' => Good s').
Proof using All.
  intros Hg Hby Hmax Hty. pose proof (digest_good k data) as Hgood. set (c := of_data k data) in *. unfold put_new. apply runs_gets. destruct (writable (dev s)); [|by apply runs_fail]. cbn [negb]. cbv zeta. set (n := record_sectors (Z.of_nat (length data))). apply runs_gets.
  eapply (runs_bind _ _ _ _ (fun _ s1 => Good s1)); [destruct (full s); [|by apply runs_ret]; eapply runs_bind; [apply runs_good, runs_collect; [done|apply Hg]|]; cbv beta; intros _ s' Hk; apply runs_ret; by apply (Good_keeping s)|]. cbv beta. intros _ s1 Hg1. apply runs_gets. destruct (full s1) eqn:Hfull; [by apply runs_fail|].
  eapply runs_bind; [apply runs_good, runs_room; [done|apply Hg1]|]. cbv beta. intros at_ s2 [Hk2 Hroom]. pose proof (Good_keeping s1 s2 Hg1 Hk2) as Hg2. apply runs_modify, runs_modify. set (rec := header c (length data) ++ data).
  assert (length rec = HEADER + length data) as Hlr by (unfold rec; rewrite length_app, length_header; [done|apply Hgood]). assert (1 <= Z.of_nat (length rec) <= Z.of_nat HEADER + BLOCK_MAX)%Z as Hrb by (rewrite Hlr, Nat2Z.inj_add; pose proof (eq_refl : HEADER = 84); lia). destruct (overwrite_fits rec s2 ltac:(apply Hg2) (proj2 Hrb)) as [Lb Sb]. set (s3 := set_buffer _ s2). assert (alike s2 s3) as Ha3 by (repeat split; done). pose proof (proj1 (alike_steady s2 s3 (g_inv s2 Hg2) Ha3)) as Hk3. pose proof (Good_keeping s2 s3 Hg2 Hk3) as Hg3.
  assert (n = sealed_sectors (Z.of_nat (HEADER + length data))) as En by (unfold n, record_sectors; f_equal; lia). assert (1 <= n)%Z as Hn by (rewrite En; apply sealed_pos). destruct (claim_steady s3 at_ n ltac:(apply Hg3) Hroom Hn) as ([Hk4 _] & Hbl & Hap). set (s4 := claim at_ n s3) in *. pose proof (Good_keeping s3 s4 Hg3 Hk4) as Hg4.
  apply runs_gets. assert (cur s4 = cur s3) as Ec4 by apply Hk4. assert (buffer s4 = overwrite (buffer s2) FRAME rec) as Eb4. { destruct (claim_run s3 at_ n ltac:(apply Hg3) Hroom Hn) as (hs & e & E & _). unfold s4. by rewrite E. } pose proof (g_cur s4 Hg4) as Hcur. pose proof domain_width as Hw.
  eapply runs_bind; [apply (runs_write_sealed Good at_ (HEADER + length data) (cur s4) rec s4); [by rewrite Eb4|by rewrite Eb4, <- Hlr|done|rewrite <- Hlr; exact Hrb|lia|pose proof (h_start _ _ _ Hbl); lia|rewrite <- En; apply Hbl|done]|].
  cbv beta. rewrite <- En. intros _ s5 (Hio & Hout & kk & Hkk & Hwr). destruct (block_record c data (replicate (Z.to_nat n * SECTOR - length rec) 0%Z) Hgood Hmax) as [Hh Hsl]. fold rec in Hh, Hsl.
  destruct (added s4 s5 at_ (cur s4) n kk rec ltac:(apply Hg4) Hbl Hap Hio Hout Hwr ltac:(lia)) as ([Hk5 _] & Hpl & Hfr). { intros E. rewrite E, keys_for_volume in Hkk. injection Hkk as <-. split; [done|by eapply header_not_free]. }
  pose proof (Good_keeping s4 s5 Hg4 Hk5) as Hg5. apply runs_gets. apply runs_lift; [done|]. intros x Hx. apply runs_modify, runs_ret. destruct (StoreIndex.insert _ _ _ _ _ _) as [x'|] eqn:Eins; [|done]. injection Hx as ->. rewrite <- (kp_cur _ _ (proj2 Hk5)) in *.
  destruct (i_index s5 (g_inv s5 Hg5)) as (mp & Hsim & _). apply (Good_insert s5 (now s5) k data at_ x mp); [done|done| | | |done].
  - assert (kept s1 s5) as Hk15 by (transitivity s4; [|apply Hk5]; transitivity s3; [|apply Hk4]; transitivity s2; [apply Hk2|apply Hk3]). destruct (i_index s1 (g_inv s1 Hg1)) as (mp1 & Hs1 & Hsz1). pose proof (kept_count s1 s5 mp1 mp Hk15 Hs1 Hsim) as Hle. pose proof (kp_slots _ _ Hk15) as Hsl5. unfold full in Hfull. apply Z.eqb_neq in Hfull. rewrite (s_count _ _ Hs1) in Hfull. unfold limit in *. rewrite Hsl5. lia.
  - pose proof (i_size s4 (g_inv s4 Hg4)) as Hsz. pose proof Hbl as [B1 B2 B3 _]. unfold W32. lia.
  - split; cbn [lba len key domain]; [done|apply Hgood|done|done|lia|done|by apply matches_of_data|done|]. exists (rec ++ replicate (Z.to_nat n * SECTOR - length rec) 0%Z). split; [|done]. fold n. split; [done|done|lia|]. rewrite (io_keys s4 s5), Hkk by done. apply Hwr.
Qed.
Lemma runs_put k data s : Good s -> Forall is_byte data -> runs Good (put_block k data) s (fun _ s' => Good s').
Proof using All.
  intros Hg Hby. unfold put_block. destruct (Z.ltb_spec BLOCK_MAX (Z.of_nat (length data))); [by apply runs_fail|]. apply runs_lift; [done|]. intros t Ht. destruct t; [|by apply runs_fail]. cbn [negb]. apply runs_gets. destruct (find_block (of_data k data) s) as [p|p] eqn:Ef; [|by apply runs_put_new].
  destruct (find_holds s _ p (g_inv s Hg) Ef) as (e & x & _ & _ & He & _). apply runs_modify, runs_ret. by apply (update_good s p e (with_lease (now s)) Hg He).
Qed.
End requests.
