(* ===== verification/StoreRuns.v ===== *)
(** * The block store's requests, one after another

    Each request that writes a record of its own keeps the invariant, and with it every block under a root that is retained: names
    published, removed and committed, pins, domains and recovery keys. The theorem is about any sequence of requests. *)
From S2P Require Import Prelude Outcome Sha256 Cid Cbor Dag DagTree Directory Journal Tour StoreRecords StoreNames StoreIndex StoreMedium StorePass StoreOps StoreMount StoreLayout StoreInv StoreWrite StoreSweep StoreMark StoreSafe.
Local Open Scope nat_scope.

(** ** The records written start with their magic, whatever their fields *)
Definition starts_with (M : bytes) (N : nat) (b : bytes) : Prop := take 8 b = M /\ N <= length b.
Lemma ow_start M N b i src : starts_with M N b -> 8 <= i <= N -> starts_with M N (overwrite b i src).
Proof.
  intros [H1 H2] Hi. unfold overwrite. split; [|rewrite !length_app, length_take, length_drop; lia]. rewrite take_app_le by (rewrite length_take; lia). rewrite take_take, Nat.min_l by lia. done.
Qed.
Lemma magic_start (M : bytes) N : length M = 8 -> 8 <= N -> starts_with M N (overwrite (replicate N 0%Z) 0 M).
Proof. intros HM HN. unfold overwrite. rewrite take_0, app_nil_l, HM. split; [by apply take_app_length'|]. rewrite length_app, length_drop, length_replicate. lia. Qed.
Lemma name_start name v p : starts_with NAME_MAGIC SECTOR (name_record name v p).
Proof.
  assert (forall x i, 8 <= i <= 160 -> forall b, starts_with NAME_MAGIC SECTOR b -> starts_with NAME_MAGIC SECTOR (overwrite b i x)) as H by (intros x i Hi b Hb; apply ow_start; [done|unfold SECTOR; lia]).
  unfold name_record. destruct p as [p|], (points v); do 6 (apply H; [lia|]); repeat (apply H; [lia|]); (apply magic_start; [reflexivity|unfold SECTOR; lia]).
Qed.
Lemma pin_start p : starts_with PIN_MAGIC SECTOR (pin_record p).
Proof. unfold pin_record. repeat (apply ow_start; [|unfold SECTOR; lia]). apply magic_start; [reflexivity|unfold SECTOR; lia]. Qed.
Lemma start_not_free M N n b z : starts_with M N b -> 8 <= n -> n <= N -> M <> FREE_MAGIC -> length (take n b) = n /\ parse_free (take n b ++ z) = None.
Proof.
  intros [H1 H2] H8 Hn HM. assert (length (take n b) = n) as Hl by (rewrite length_take; lia). split; [done|]. destruct (parse_free (take n b ++ z)) as [m|] eqn:E; [|done]. apply parse_free_magic in E. rewrite take_app_le, take_take, Nat.min_l in E by lia. congruence.
Qed.
Lemma one_sector : sealed_sectors (Z.of_nat NAME_RECORD) = 1%Z /\ sealed_sectors (Z.of_nat PIN_RECORD) = 1%Z /\ sealed_sectors (Z.of_nat KEY_RECORD) = 1%Z /\ sealed_sectors (Z.of_nat RECOVERY_RECORD) = 1%Z.
Proof. done. Qed.
Lemma record_fits n : (1 <= Z.of_nat n <= 16000)%Z -> (1 <= Z.of_nat n <= Z.of_nat HEADER + BLOCK_MAX)%Z.
Proof. unfold HEADER, BLOCK_MAX. lia. Qed.
Lemma length_key id st o k : length k = 32 -> length (key_record id st o k) = KEY_RECORD.
Proof. intros Hk. unfold key_record. flen. Qed.
Lemma length_recovery v : length v = 32 -> length (recovery_record v) = RECOVERY_RECORD.
Proof. intros Hv. unfold recovery_record. flen. Qed.
(** A commit's record. *)
Lemma length_txn_entry name v p : length name <= 64 -> (points v = true -> length (root v) = 36) -> (forall c, p = Some c -> cid_ok c) -> length (txn_entry name v p) = SECTOR.
Proof.
  intros Hn Hr Hp. unfold txn_entry. assert (length (name_record name v p) = 512) as Hl; [|rewrite !length_ow by (rewrite ?length_ow, ?length_replicate by (rewrite ?length_replicate; lia); lia); exact Hl]. unfold name_record.
  assert (forall c, p = Some c -> length (to_bytes c) = 36) as Hc by (intros c E; apply length_to_bytes; by apply Hp). destruct p as [c|]; [specialize (Hc c eq_refl)|]; (destruct (points v); [specialize (Hr eq_refl)|]); apply len_ow; rewrite ?length_digest; try lia; repeat (apply len_ow; [|rewrite ?length_to_le; cbn [length]; magic; lia]); apply length_replicate.
Qed.
Lemma concat_sectors (es : list bytes) : Forall (fun e : bytes => length e = SECTOR) es -> length (concat es) = length es * SECTOR.
Proof. induction 1 as [|e es He _ IH]; [done|]. cbn [concat length]. rewrite length_app, He, IH. lia. Qed.
Lemma txn_fits es : Forall (fun e : bytes => length e = SECTOR) es -> length (txn_record es) = (1 + length es) * SECTOR /\ forall z, parse_free (txn_record es ++ z) = None.
Proof.
  intros Hes. destruct (txn_record_eq es Hes) as (d & Hd & E & _). assert (length (overwrite (txn_head (length es)) 16 d) = SECTOR) as Hl by (unfold txn_head; flen). assert (length (txn_record es) = (1 + length es) * SECTOR) as Hlen by (rewrite E, length_app, Hl, concat_sectors by done; lia). split; [done|]. intros z.
  assert (starts_with TXN_MAGIC SECTOR (overwrite (txn_head (length es)) 16 d)) as [Hs _]. { unfold txn_head. repeat (apply ow_start; [|unfold SECTOR; lia]). apply magic_start; [reflexivity|unfold SECTOR; lia]. }
  destruct (parse_free (txn_record es ++ z)) as [m|] eqn:Ef; [|done]. apply parse_free_magic in Ef. rewrite E, <- app_assoc, take_app_le in Ef by (rewrite Hl; unfold SECTOR; lia). rewrite Hs in Ef. discriminate Ef.
Qed.
Lemma commit_fits n : 1 <= n <= COMMIT_MAX -> (1 <= Z.of_nat ((1 + n) * SECTOR) <= Z.of_nat HEADER + BLOCK_MAX)%Z.
Proof. intros H. apply record_fits. unfold COMMIT_MAX, SECTOR in *. lia. Qed.
Lemma cid_from b c : from_bytes b = Ok c -> cid_ok c.
Proof.
  unfold from_bytes, Cid.read. intros H. bind_ok H. destruct a as [c' n]. destruct (negb _); [done|]. injection H as ->. bind_ok E. destruct a as [v n1]. destruct (negb _); [done|]. bind_ok E. destruct a as [cc n2]. bind_ok E. bind_ok E. destruct a0 as [ac n3]. bind_ok E. bind_ok E. destruct a1 as [ln n4]. destruct (negb _); [done|].
  bind_ok E. injection E as <- _. unfold ok_or in E6. destruct (get_slice _ _ _) as [d|] eqn:Hd; [|done]. injection E6 as <-. apply get_slice_Some in Hd as (_ & -> & Hl). unfold cid_ok. cbn [cid_digest]. by destruct a0.
Qed.
#[local] Opaque digest SECTOR BUFFER RECORD_SECTORS header parse_header name_record pin_record key_record recovery_record txn_record parse_free.

(** ** Versions kept *)
Lemma keep_list_elem h v l w : w ∈ keep_list h v l -> w = v \/ w ∈ l.
Proof.
  revert l. induction h as [|h IH]; intros l; [by intros H%elem_of_nil|]. destruct l as [|k l]; cbn [keep_list]; [intros ->%list_elem_of_singleton; by left|]. destruct (_ =? _)%Z; [by right|]. destruct (_ <? _)%Z.
  - destruct (points v); [|intros ->%list_elem_of_singleton; by left]. intros [->|Hw]%elem_of_cons; [by left|]. right. by apply elem_of_take in Hw as (i & Hw & _); eapply list_elem_of_lookup_2.
  - destruct (points k); [|by right]. intros [->|Hw]%elem_of_cons; [right; set_solver|]. destruct (IH l Hw); [by left|right; set_solver].
Qed.
(** In a name that is removed no version points anywhere. *)
Lemma removed_none h vs w : versions h = kept_of vs -> removed h = true -> w ∈ versions h -> points w = false.
Proof.
  intros E Hr Hw. unfold removed, latest in Hr. apply negb_true_iff in Hr. unfold versions in *. destruct (StoreNames.kept h) as [|k l]; [rewrite take_nil in Hw; by apply elem_of_nil in Hw|]. cbn in Hr. destruct (StoreNames.count h) as [|c]; [by apply elem_of_nil in Hw|]. cbn [take] in *. unfold kept_of in E.
  destruct (newest vs) as [|k' L]; cbn [back_to_removal] in E; [by rewrite take_nil in E|]. destruct (points k') eqn:Ek; cbn [take HISTORY] in E; injection E as -> E; [congruence|]. rewrite E, ?take_nil in Hw. apply list_elem_of_singleton in Hw as ->. done.
Qed.
Definition kept_ok (h : Head) : Prop := head_ok h /\ exists vs, versions h = kept_of vs.
Lemma keep_kept h v : kept_ok h -> kept_ok (keep h v) /\ h_domain (keep h v) = h_domain h /\ forall w root, removed (keep h v) = false -> w ∈ versions (keep h v) -> version_root w = Done (Some root) -> w = v \/ (removed h = false /\ w ∈ versions h).
Proof.
  intros [Hok [vs Hvs]]. destruct (keep_ok h v Hok ltac:(by exists vs)) as (H1 & H2 & H3). split; [split; [done|exists (v :: vs); by rewrite H3, Hvs, kept_of_cons]|]. split; [unfold StoreNames.key in H2; by injection H2|]. intros w root _ Hw Er. rewrite H3 in Hw. apply keep_list_elem in Hw as [->|Hw]; [by left|]. right. split; [|done].
  destruct (removed h) eqn:Hr; [|done]. pose proof (removed_none h vs w Hvs Hr Hw) as Hp. unfold version_root in Er. by rewrite Hp in Er.
Qed.
Lemma new_kept d n v : length n <= NAME_MAX -> kept_ok (head_new d n v) /\ h_domain (head_new d n v) = d /\ versions (head_new d n v) = [v].
Proof.
  intros Hn. destruct (head_new_spec d n v Hn) as (H1 & H2 & H3). split; [split; [done|exists [v]; rewrite H3; unfold kept_of; cbn; by destruct (points v)]|]. split; [unfold StoreNames.key in H2; by injection H2|done].
Qed.

Section requests.
Context {D : Type} {med_ops : Medium D} {med_laws : MediumLaws D} {cipher : Crypto} {cipher_laws : CryptoLaws}.
Local Abbreviation Store := (StoreMedium.Store D).
Local Abbreviation SM := (STE SError Store).

(** ** Steps that requests share *)
Lemma steady_good s s' : Good s -> steady s s' -> Good s'.
Proof using Type. intros Hg [Hk _]. by apply (Good_keeping s). Qed.
Lemma runs_quiet_good {A B} (m : SM A) (k : A -> SM B) s Q : Good s -> (exists o, m s = (o, s)) -> (forall a, m s = (Done a, s) -> runs Good (k a) s Q) -> runs Good (m ≫= k) s Q.
Proof using Type. intros Hg [o Eo] Hk. unfold runs, ends, mbind, st_bind. rewrite Eo in *. destruct o as [a|e|]; [by apply Hk|by right|done]. Qed.
Lemma find_quiet name (s : Store) : exists o, StoreOps.find name s = (o, s).
Proof using Type. unfold StoreOps.find, gets, lift, mbind, st_bind. by eexists. Qed.
Lemma current_quiet name (s : Store) : exists o, current name s = (o, s).
Proof using Type.
  unfold current, mbind, st_bind. destruct (find_quiet name s) as [o ->]. destruct o as [[i|i]|e|]; [|by eexists..]. unfold head_at, gets, lift, mbind, st_bind. destruct (heads s !! i); by eexists.
Qed.
Lemma runs_room_good {B} n (k : Z -> SM B) s Q : Good s -> (forall at_ s', keeping s s' -> Good s' -> has_room s' at_ n -> runs Good (k at_) s' Q) -> runs Good (room n ≫= k) s Q.
Proof using All. intros Hg Hk. eapply runs_bind; [apply runs_good, runs_room; [done|apply Hg]|]. cbv beta. intros at_ s' [H1 H2]. apply Hk; [done|by apply (Good_keeping s)|done]. Qed.
Lemma runs_complete {B} root (k : Z -> SM B) s Q : Good s -> (forall n s', steady s s' -> Good s' -> holes s' = holes s -> complete (holds s' (cur s')) root -> runs Good (k n) s' Q) -> runs Good (complete_size root ≫= k) s Q.
Proof using All.
  intros Hg Hk. assert (forall s', on_walk s s' -> steady s s') as Hst. { intros s' (H1 & H2 & H3). split; [split; [done|by apply remarked_kept]|]. intros id c x. split; [by apply holds_back|by apply holds_fwd]. }
  eapply runs_bind; [eapply runs_of_ends; [apply (walk_ends (fun _ c => exists x, holds s (cur s) c x) stored root s)|]|].
  - done.
  - intros c s1. apply stored_goes.
  - apply Hg.
  - intros e s' Hw. cbv beta in Hw. apply (steady_good s); [done|by apply Hst].
  - cbv beta. intros n s' (Hw & _ & Hseen). pose proof (Hst s' Hw) as H1. apply Hk; [done|by apply (steady_good s)|exact (m_holes _ _ (proj1 (proj2 Hw)))|]. rewrite (proj2 (proj2 Hw)). by apply (steady_complete s).
Qed.
Lemma runs_write_added {B} at_ record id (k : unit -> SM B) s Q : Good s -> blank_run s at_ 1 -> apart_from (holes s) at_ 1 -> sealed_sectors (Z.of_nat (length record)) = 1%Z -> (1 <= Z.of_nat (length record) <= Z.of_nat HEADER + BLOCK_MAX)%Z -> (0 <= id < W16)%Z -> (id = VOLUME -> forall z, parse_free (record ++ z) = None) ->
  (forall s', steady s s' -> Good s' -> runs Good (k tt) s' Q) -> runs Good (write_record at_ record id ≫= k) s Q.
Proof using All.
  intros Hg Hb Ha E1 Hl Hid Hv Hk. eapply runs_bind; [apply (runs_write_record Good at_ id record s)|].
  - apply Hg.
  - exact Hl.
  - exact Hid.
  - pose proof (h_start _ _ _ Hb). lia.
  - rewrite E1. apply Hb.
  - intros _ b Hlb. apply (steady_good s); [done|]. apply alike_steady; [apply Hg|]. by repeat split.
  - cbv beta. rewrite E1. intros [] s' (Hio & Hout & kk & Hkk & Hwr). destruct (added s s' at_ id 1 kk record ltac:(apply Hg) Hb Ha Hio Hout Hwr Hid) as (Hst & _); [|apply Hk; [done|by apply (steady_good s)]]. intros E. split; [|by apply Hv]. rewrite E, keys_for_volume in Hkk. by injection Hkk.
Qed.
Lemma claimed_good s at_ : Good s -> has_room s at_ 1 -> let s' := claim at_ 1 s in Good s' /\ steady s s' /\ blank_run s' at_ 1 /\ apart_from (holes s') at_ 1.
Proof using All. intros Hg Hr s'. destruct (claim_steady s at_ 1 (g_inv s Hg) Hr ltac:(lia)) as (H1 & H2 & H3). split_and!; [by apply (steady_good s)|done|done|done]. Qed.

(** ** Names *)
Lemma Good_heads s hs : Good s -> (forall h, h ∈ hs -> kept_ok h) -> (forall id root, retained_root (set_heads hs s) id root -> complete (holds s id) root) -> Good (set_heads hs s).
Proof using All.
  intros [G1 G2 G0 G3 G4] H1 H2. split; [|done|done|exact H1|].
  - apply (Inv_sees s); [done|done|done|apply G1|apply G1|apply G1|exact (i_domains s G1)].
  - intros id root Hr. apply (agree_complete (holds s id)); [|by apply H2]. intros c _ x. symmetry. apply same_holds; [done|done|]. intros e c' y _. by apply block_sees.
Qed.
(** A version kept in a head that is there. *)
Lemma Good_keep s i h v : Good s -> heads s !! i = Some h -> (forall root, version_root v = Done (Some root) -> complete (holds s (h_domain h)) root) -> Good (set_heads (<[i := keep h v]> (heads s)) s).
Proof using All.
  intros Hg Hi Hv. assert (h ∈ heads s) as Hh by (by eapply list_elem_of_lookup_2). destruct (keep_kept h v (g_heads s Hg h Hh)) as (K1 & K2 & K3). assert (forall x, x ∈ <[i := keep h v]> (heads s) -> x = keep h v \/ x ∈ heads s) as Hin.
  { intros x (j & Hj)%list_elem_of_lookup. destruct (decide (i = j)) as [<-|Hne]; [rewrite list_lookup_insert_eq in Hj by (by eapply lookup_lt_Some); left; congruence|rewrite list_lookup_insert_ne in Hj by done; right; by eapply list_elem_of_lookup_2]. }
  apply Good_heads; [done|intros x [->|Hx]%Hin; [done|by apply Hg]|]. intros id root [(x & w & Hx & <- & Hr & Hw & Er)|Hp]; [|by apply Hg; right]. apply Hin in Hx as [->|Hx]; [|apply Hg; left; by exists x, w]. rewrite K2. destruct (K3 w root Hr Hw Er) as [->|[Hr' Hw']]; [by apply Hv|]. apply Hg. left. by exists h, w.
Qed.
Lemma Good_new s i name v : Good s -> length name <= NAME_MAX -> (forall root, version_root v = Done (Some root) -> complete (holds s (cur s)) root) -> forall id, id = cur s -> Good (set_heads (add (heads s) i (head_new id name v)) s).
Proof using All.
  intros Hg Hn Hv id ->. destruct (new_kept (cur s) name v Hn) as (K1 & K2 & K3). assert (forall x, x ∈ add (heads s) i (head_new (cur s) name v) -> x = head_new (cur s) name v \/ x ∈ heads s) as Hin.
  { intros x. unfold add. rewrite elem_of_app, elem_of_cons. intros [Hx|[->|Hx]]; [right|by left|right]; (rewrite <- (take_drop i (heads s)); apply elem_of_app; auto). }
  apply Good_heads; [done|intros x [->|Hx]%Hin; [done|by apply Hg]|]. intros id root [(x & w & Hx & <- & Hr & Hw & Er)|Hp]; [|by apply Hg; right]. apply Hin in Hx as [->|Hx]; [|apply Hg; left; by exists x, w]. rewrite K2. rewrite K3 in Hw. apply list_elem_of_singleton in Hw as ->. by apply Hv.
Qed.
Lemma find_in_domain hs d n i : find_in hs d n = Done (inl i) -> exists h, hs !! i = Some h /\ h_domain h = d.
Proof using Type.
  unfold find_in. destruct (_ =? _); [done|]. intros (base & _ & H)%bind_done. apply bind_done in H as (c & Hc & H). apply bind_done in Hc as (h & Hh & Hc). destruct (hs !! base) as [h'|] eqn:E; [|done]. injection Hh as ->. injection Hc as <-. unfold compare_head in H. destruct (Z.compare_spec (h_domain h) d) as [Ed|Hlt|Hgt]; [|done|done]. destruct (Directory.compare _ _); [|done|done]. injection H as ->. eauto.
Qed.
(** The head at a place where a name was found. *)
Lemma runs_found {B} name i (k : Head -> SM B) s Q : Good s -> StoreOps.find name s = (Done (inl i), s) -> (forall h, heads s !! i = Some h -> h_domain h = cur s -> runs Good (k h) s Q) -> runs Good (head_at i ≫= k) s Q.
Proof using Type.
  intros Hg Hf Hk. unfold StoreOps.find, gets, lift, mbind, st_bind in Hf. injection Hf as Hf. destruct (find_in_domain _ _ _ _ Hf) as (h & Hh & Hd). unfold runs, ends, head_at, gets, lift, mbind, st_bind. rewrite Hh. by apply Hk.
Qed.
Lemma root_of_version n o root size : good root -> version_root (mkVersion n o (to_bytes root) true size) = Done (Some root).
Proof using Type. intros [H1 H2]. unfold version_root. cbn [points StoreRecords.root]. by rewrite (proj2 (from_bytes_iff _ root (to_bytes_bytes root H1 H2)) (conj eq_refl H1)). Qed.
Lemma name_fits name v p : let r := take NAME_RECORD (name_record name v p) in sealed_sectors (Z.of_nat (length r)) = 1%Z /\ (1 <= Z.of_nat (length r) <= Z.of_nat HEADER + BLOCK_MAX)%Z /\ forall z, parse_free (r ++ z) = None.
Proof using Type.
  intros r. assert (forall z, length r = NAME_RECORD /\ parse_free (r ++ z) = None) as H by (intros z; apply (start_not_free NAME_MAGIC SECTOR); [apply name_start|unfold NAME_RECORD; lia|apply Nat.leb_le; reflexivity|done]). destruct (H []) as [-> _]. split; [apply one_sector|]. split; [apply record_fits; unfold NAME_RECORD; lia|intros z; apply H].
Qed.
Lemma pin_fits p : let r := take PIN_RECORD (pin_record p) in sealed_sectors (Z.of_nat (length r)) = 1%Z /\ (1 <= Z.of_nat (length r) <= Z.of_nat HEADER + BLOCK_MAX)%Z /\ forall z, parse_free (r ++ z) = None.
Proof using Type.
  intros r. assert (forall z, length r = PIN_RECORD /\ parse_free (r ++ z) = None) as H by (intros z; apply (start_not_free PIN_MAGIC SECTOR); [apply pin_start|unfold PIN_RECORD; lia|apply Nat.leb_le; reflexivity|done]). destruct (H []) as [-> _]. split; [apply one_sector|]. split; [apply record_fits; unfold PIN_RECORD; lia|intros z; apply H].
Qed.
Lemma runs_publish name expected root o s : Good s -> good root -> runs Good (publish name expected root o) s (fun _ s' => Good s').
Proof using All.
  intros Hg Hroot. unfold publish. destruct (valid_name name) eqn:Hn; [|by apply runs_fail]. cbn [negb]. apply runs_gets. destruct (writable (dev s)); [|by apply runs_fail]. cbn [negb]. apply runs_quiet_good; [done|apply current_quiet|]. intros h0 _. destruct (negb _); [by apply runs_fail|]. apply runs_gets. destruct (_ && _); [by apply runs_fail|].
  apply runs_room_good; [done|]. intros at_ s1 _ Hg1 Hr1. apply runs_complete; [done|]. intros size s2 _ Hg2 Hh2 Hc2. apply runs_gets, runs_gets, runs_gets. destruct (_ <? _)%Z; [by apply runs_fail|]. apply runs_quiet_good; [done|apply current_quiet|]. intros h1 _. apply runs_quiet_good; [done|destruct h1; by eexists|]. intros previous _. apply runs_lift; [done|]. intros next _. cbv zeta.
  apply runs_modify. destruct (claimed_good s2 at_ Hg2) as (Hg3 & St3 & Hb3 & Ha3); [unfold has_room; by rewrite Hh2|]. set (s3 := claim at_ 1 s2) in *. pose proof (g_cur s2 Hg2) as Hcur. pose proof domain_width as Hw. set (v := mkVersion next o (to_bytes root) true size). destruct (name_fits name v previous) as (F1 & F2 & F3). apply runs_write_added; [done|done|done|done|done|lia|done|]. intros s4 St4 Hg4.
  pose proof (steady_trans s2 s3 s4 St3 St4) as St. assert (cur s4 = cur s2) as Ec by apply St. assert (forall r, version_root v = Done (Some r) -> complete (holds s4 (cur s4)) r) as Hv. { intros r Er. unfold v in Er. rewrite root_of_version in Er by done. injection Er as <-. rewrite Ec. by apply (steady_complete s2). }
  apply runs_quiet_good; [done|apply find_quiet|]. intros i Hfi. eapply (runs_bind _ _ _ _ (fun _ s' => Good s')); [|cbv beta; intros _ s5 Hg5; by apply runs_ret]. destruct i as [i|i].
  - apply (runs_found name); [done|done|]. intros h Hh Hd. apply runs_last, runs_modify, runs_ret. apply Good_keep; [done|done|]. by rewrite Hd.
  - apply runs_last, runs_modify, runs_ret. apply Good_new; [done|by apply name_len in Hn; unfold NAME_MAX; lia|done|by rewrite Ec].
Qed.
Lemma runs_unpublish name expected o s : Good s -> runs Good (unpublish name expected o) s (fun _ s' => Good s').
Proof using All.
  intros Hg. unfold unpublish. destruct (valid_name name) eqn:Hn; [|by apply runs_fail]. cbn [negb]. apply runs_gets. destruct (writable (dev s)); [|by apply runs_fail]. cbn [negb]. apply runs_quiet_good; [done|apply current_quiet|]. intros h0 _. apply runs_lift; [done|]. intros h1 _. destruct (removed h1); [by apply runs_fail|]. destruct (negb _); [by apply runs_fail|].
  apply runs_room_good; [done|]. intros at_ s1 _ Hg1 Hr1. apply runs_quiet_good; [done|apply find_quiet|]. intros [i|i] Hfi; [|by apply runs_fail]. apply (runs_found name); [done|done|]. intros h Hh Hd. apply runs_lift; [done|]. intros previous _. apply runs_lift; [done|]. intros next _. cbv zeta. apply runs_modify. destruct (claimed_good s1 at_ Hg1 Hr1) as (Hg3 & St3 & Hb3 & Ha3). set (s3 := claim at_ 1 s1) in *.
  apply runs_gets. pose proof (g_cur s3 Hg3) as Hcur. pose proof domain_width as Hw. set (v := mkVersion next o _ false 0). destruct (name_fits name v previous) as (F1 & F2 & F3). apply runs_write_added; [done|done|done|done|done|lia|done|]. intros s4 St4 Hg4. apply runs_modify, runs_ret. apply Good_keep; [done| |done].
  assert (heads s4 = heads s1) as ->; [|done]. transitivity (heads s3); [apply St4|apply St3].
Qed.

(** ** Pins *)
Lemma Good_pin s p root np : Good s -> pin_cid p = Done root -> complete (holds s (pin_domain p)) root -> Good (set_pins (pins s ++ [p]) (set_next_pin np s)).
Proof using All.
  intros [G1 G2 G0 G3 G4] Hp Hc. split; [|done|done|exact G3|].
  - apply (Inv_sees s); [done|done|done|apply G1|apply G1|apply G1|exact (i_domains s G1)].
  - intros id r Hr. apply (agree_complete (holds s id)); [intros c _ x; symmetry; apply same_holds; [done|done|]; intros e c' y _; by apply block_sees|]. destruct Hr as [Hh|(q & Hq & <- & Eq)]; [by apply G4; left|]. cbn [pins set_pins] in Hq. apply elem_of_app in Hq as [Hq|Hq%list_elem_of_singleton]; [apply G4; right; by exists q|]. subst q. by assert (r = root) as -> by congruence.
Qed.
Lemma runs_pin root o s : Good s -> good root -> runs Good (pin root o) s (fun _ s' => Good s').
Proof using All.
  intros Hg Hroot. unfold pin. apply runs_gets. destruct (writable (dev s)); [|by apply runs_fail]. cbn [negb]. apply runs_gets. destruct (_ =? _); [by apply runs_fail|]. apply runs_room_good; [done|]. intros at_ s1 _ Hg1 Hr1. apply runs_complete; [done|]. intros size s2 _ Hg2 Hh2 Hc2. apply runs_gets, runs_gets. destruct (_ <? _)%Z; [by apply runs_fail|].
  apply runs_gets. cbv zeta. set (p := mkPin _ _ _ _ _ _). apply runs_modify. destruct (claimed_good s2 at_ Hg2) as (Hg3 & St3 & Hb3 & Ha3); [unfold has_room; by rewrite Hh2|]. set (s3 := claim at_ 1 s2) in *. pose proof (g_cur s2 Hg2) as Hcur. pose proof domain_width as Hw. destruct (pin_fits p) as (F1 & F2 & F3). apply runs_write_added; [done|done|done|done|done|lia|done|]. intros s4 St4 Hg4.
  pose proof (steady_trans s2 s3 s4 St3 St4) as St. apply runs_modify, runs_ret. apply (Good_pin s4 p root _ Hg4); [|by apply (steady_complete s2)]. unfold pin_cid, p. cbn [pin_root]. destruct Hroot as [R1 R2]. by rewrite (proj2 (from_bytes_iff _ root (to_bytes_bytes root R1 R2)) (conj eq_refl R1)).
Qed.

(** ** Domains *)
Lemma position_insert {A} p (l : list A) i x y : l !! i = Some y -> p x = false -> p y = false -> Prelude.position p (<[i := x]> l) = Prelude.position p l.
Proof using Type. revert i. induction l as [|z l IH]; intros [|i] Hi Hx Hy; cbn in *; [done|done|injection Hi as ->; by rewrite Hx, Hy|by rewrite IH]. Qed.
Lemma Good_domain s i d : Good s -> domains s !! i = Some None -> forgotten d = false -> (0 < d_id d < RECOVERY)%Z -> (forall d', Some d' ∈ domains s -> d_id d' <> d_id d) -> Good (set_domains (<[i := Some d]> (domains s)) s).
Proof using All.
  intros [G1 G2 G0 G3 G4] Hi Hf Hid Hnew. set (s' := set_domains _ s). assert (forall id k, keys_for id s = Some k -> keys_for id s' = Some k) as Hkeys.
  { intros id k. unfold keys_for, domain_of. change (cfg s') with (cfg s). destruct (_ || _); [done|]. destruct (_ =? _)%Z; [done|]. unfold slot_of. set (p := fun d => match d with Some d => (d_id d =? id)%Z | None => false end). destruct (Prelude.position p (domains s)) as [j|] eqn:Ep; [|done]. pose proof (position_Some _ _ _ Ep) as (x & Hx & Hpx & _). destruct x as [dx|]; [|done]. cbn in Hpx. apply Z.eqb_eq in Hpx.
    assert (Prelude.position p (domains s') = Some j) as ->. { rewrite <- Ep. apply (position_insert p _ i (Some d) None); [done| |done]. apply Z.eqb_neq. rewrite <- Hpx. intros E. apply (Hnew dx); [by eapply list_elem_of_lookup_2|done]. } cbn [mbind option_bind]. assert (i <> j) as Hij by (intros ->; congruence). change (domains s') with (<[i := Some d]> (domains s)). by rewrite list_lookup_insert_ne. }
  assert (forall e c x, block_at s e c x -> block_at s' e c x) as Hb. { intros e c x [B1 B2 B3 B4 B5 B6 B7 B8 (b & [R1 R2 R3 R4] & B9)]. split; [done..|]. exists b. split; [|done]. split; [done|done|done|]. pose proof (length_image (med s) (lba e) (Z.to_nat (record_sectors (len e))) (whole_med s)) as Hl. destruct (open_frame_true _ _ _ _ _ _ Hl R4) as (_ & _ & [k Ek]). rewrite (Hkeys _ _ Ek). by rewrite Ek in R4. }
  assert (Inv s') as Hi'. { destruct G1 as [I1 I2 I3 I4 I5 I6 I7]. split; [done|done|done| |done| |].
    - intros h Hh. destruct (I4 h Hh) as [H1 H2 H3 H4]. by split.
    - intros e He. destruct (I6 e He) as (c & x & B). exists c, x. by apply Hb.
    - intros x (j & Hj)%list_elem_of_lookup. change (domains s') with (<[i := Some d]> (domains s)) in Hj. destruct (decide (i = j)) as [<-|Hne]; [rewrite list_lookup_insert_eq in Hj by (by eapply lookup_lt_Some); by injection Hj as ->|rewrite list_lookup_insert_ne in Hj by done; apply I7; by eapply list_elem_of_lookup_2]. }
  split; [done|done|done|exact G3|]. intros id root Hr. apply (agree_complete (holds s id)); [|by apply G4]. intros c _ x. symmetry. apply same_holds; [done|done|auto].
Qed.
Definition top_domain (ds : list (option Domain)) : Z := foldr (fun d m => match d with Some d => Z.max (d_id d) m | None => m end) VOLUME ds.
Lemma top_domain_above ds d : Some d ∈ ds -> (d_id d <= top_domain ds)%Z.
Proof using Type. unfold top_domain. induction ds as [|x ds IH]; [by intros H%elem_of_nil|]. intros [<-|H]%elem_of_cons; cbn; [lia|]. specialize (IH H). destruct x as [x|]; cbn; lia. Qed.
Lemma top_domain_pos ds : (VOLUME <= top_domain ds)%Z.
Proof using Type. unfold top_domain. induction ds as [|[x|] l IH]; cbn; [done|lia|done]. Qed.
Lemma domains_counted (ds ds' : list (option Domain)) i : map no_records ds' = map no_records ds -> (ds !! i = Some None -> ds' !! i = Some None) /\ top_domain ds' = top_domain ds.
Proof using Type.
  intros E. split.
  - intros H. pose proof (f_equal (lookup i) E) as Ei. rewrite !list_lookup_fmap, H in Ei. destruct (ds' !! i) as [[d|]|]; by cbn in Ei.
  - assert (forall l, top_domain (map no_records l) = top_domain l) as Ht by (intros l; unfold top_domain; induction l as [|[x|] l IH]; cbn; [done|by rewrite IH|done]). by rewrite <- (Ht ds'), E, Ht.
Qed.
Lemma runs_domain_create o random s : Good s -> (forall k, random = Some k -> length k = 32) -> runs Good (domain_create o random) s (fun _ s' => Good s').
Proof using All.
  intros Hg Hrand. unfold domain_create. apply runs_gets. destruct (writable (dev s)); [|by apply runs_fail]. cbn [negb]. apply runs_gets. apply runs_lift; [done|]. intros i Ei%or_refuse_done. cbv zeta. fold (top_domain (domains s)). destruct (Z.leb_spec RECOVERY (top_domain (domains s) + 1)) as [|Hlt]; [by apply runs_fail|]. apply runs_lift; [done|]. intros k Ek%or_refuse_done.
  apply runs_room_good; [done|]. intros at_ s1 Hk1 Hg1 Hr1. apply runs_modify. destruct (claimed_good s1 at_ Hg1 Hr1) as (Hg3 & St3 & Hb3 & Ha3). set (s3 := claim at_ 1 s1) in *. pose proof domain_width as Hw. assert (0 <= KEYS < W16)%Z as Hkw by (unfold KEYS, W16; lia). set (id := (top_domain (domains s) + 1)%Z) in *.
  pose proof (length_key id KEY_LIVE o k (Hrand k Ek)) as Hlk. apply runs_write_added; [done|done|done|rewrite Hlk; apply one_sector|rewrite Hlk; apply record_fits; unfold KEY_RECORD; lia|done|intros E; discriminate E|]. intros s4 St4 Hg4. apply runs_modify, runs_ret.
  assert (map no_records (domains s4) = map no_records (domains s)) as Ed. { transitivity (map no_records (domains s3)); [apply St4|]. transitivity (map no_records (domains s1)); [apply St3|apply Hk1]. } destruct (domains_counted (domains s) (domains s4) i Ed) as [D1 D2]. apply position_Some in Ei as (x & Hx & Hxn & _). apply bool_decide_eq_true in Hxn. subst x.
  pose proof (top_domain_pos (domains s)) as Htop. unfold VOLUME in Htop. apply Good_domain; [done|by apply D1|done|cbn [d_id]; unfold id; lia|]. intros d' Hd'. cbn [d_id]. pose proof (top_domain_above _ _ Hd') as Hle. rewrite D2 in Hle. unfold id. lia.
Qed.
Lemma Good_cur s id : Good s -> (0 <= id < RECOVERY)%Z -> Good (set_cur id s).
Proof using All.
  intros [G1 G2 G0 G3 G4] Hid. split; [|done|done|done|].
  - apply (Inv_sees s); [done|done|done|apply G1|apply G1|apply G1|exact (i_domains s G1)].
  - intros i root Hr. apply (agree_complete (holds s i)); [|by apply G4]. intros c _ x. symmetry. apply same_holds; [done|done|]. intros e c' y _. by apply block_sees.
Qed.
Lemma runs_set_domain id s : Good s -> runs Good (set_domain id) s (fun _ s' => Good s').
Proof using All.
  intros Hg. unfold set_domain. apply runs_gets. destruct (Z.eqb_spec id KEYS) as [|Hk]; [by apply runs_fail|]. cbn [orb]. destruct (keys_for id s) as [k|] eqn:Ek; [rewrite bool_decide_false by done|by apply runs_fail]. apply runs_last, runs_modify, runs_ret, Good_cur; [done|]. revert Ek. unfold keys_for. rewrite (proj2 (Z.eqb_neq id KEYS)) by done.
  destruct (Z.eqb_spec id VOLUME) as [->|]; [intros _; unfold VOLUME, RECOVERY; lia|]. cbn [orb]. destruct (_ =? _)%Z; [done|]. unfold domain_of, slot_of. destruct (Prelude.position _ (domains s)) as [j|] eqn:Ep; [|done]. apply position_Some in Ep as ([d|] & Hd & Hpd & _); [|done]. apply Z.eqb_eq in Hpd. intros _.
  destruct (i_domains s (g_inv s Hg) d) as [_ Hr]; [by eapply list_elem_of_lookup_2|]. rewrite <- Hpd. lia.
Qed.

(** ** Commits *)
(** Every root a commit points to is complete. *)
Definition roots_complete (us : list Update) (s : Store) : Prop := forall u root, u ∈ us -> u_root u = Some root -> complete (holds s (cur s)) root.
Lemma roots_steady us s s' : steady s s' -> roots_complete us s -> roots_complete us s'.
Proof using Type. intros Hst H u root Hu Er. assert (cur s' = cur s) as -> by apply Hst. apply (steady_complete s); [done|by apply (H u)]. Qed.
Lemma steady_refl s : Inv s -> steady s s.
Proof using Type. intros Hi. by apply alike_steady. Qed.
Lemma runs_sizes us s : Good s -> runs Good (sizes_of us) s (fun l s' => Good s' /\ steady s s' /\ holes s' = holes s /\ length l = length us /\ roots_complete us s').
Proof using All.
  revert s. induction us as [|u us IH]; intros s Hg; cbn [sizes_of]; [apply runs_ret; split_and!; [done|apply steady_refl; apply Hg|done|done|by intros u root Hu%elem_of_nil]|]. apply runs_gets.
  eapply (runs_bind _ _ _ _ (fun _ s' => Good s' /\ steady s s' /\ holes s' = holes s /\ forall root, u_root u = Some root -> complete (holds s' (cur s')) root)).
  - destruct (u_root u) as [root|]; [|apply runs_ret; split_and!; [done|apply steady_refl; apply Hg|done|done]]. apply runs_complete; [done|]. intros n s' St Hg' Hh Hc. apply runs_ret. split_and!; [done|done|done|by intros r [= <-]].
  - cbv beta. intros x s1 (Hg1 & St1 & Hh1 & Hc1). eapply runs_bind; [by apply IH|]. cbv beta. intros l s2 (Hg2 & St2 & Hh2 & Hl & Hc2). apply runs_ret. split_and!; [done|by apply (steady_trans s s1)|congruence|cbn; lia|].
    intros w root [->|Hw]%elem_of_cons Er; [|by apply (Hc2 w)]. assert (cur s2 = cur s1) as -> by apply St2. apply (steady_complete s1); [done|by apply Hc1].
Qed.
(** What [changes_of] makes of an update: an entry of a sector, and a version that points where the update says. *)
Definition change_of (o : Z) (u : Update) (c : bytes * Version) : Prop := length c.1 = SECTOR /\ exists next size, c.2 = change_version u next o size.
Definition update_ok (u : Update) : Prop := length (u_name u) <= NAME_MAX /\ forall root, u_root u = Some root -> good root.
Lemma previous_ok h (s : Store) p : previous_root h s = (Done p, s) -> forall c, p = Some c -> cid_ok c.
Proof using Type.
  unfold previous_root. destruct h as [h|]; [|by intros [= <-]]. unfold lift. intros E c ->. injection E as E. unfold version_root in E. destruct (points (latest h)); [|done]. destruct (from_bytes _) as [c'|] eqn:Ef; [|done]. injection E as ->. by eapply cid_from.
Qed.
Lemma changes_quiet us sizes o (s : Store) : exists r, changes_of us sizes o s = (r, s) /\ forall cs, r = Done cs -> Forall update_ok us -> length sizes = length us -> Forall2 (change_of o) us cs.
Proof using Type.
  revert sizes. induction us as [|u us IH]; intros sizes; [exists (Done []); split; [done|]; intros cs [= <-]; constructor|]. cbn [changes_of]. destruct sizes as [|[rt size] sizes]; [by exists (Done [])|]. unfold mbind at 1, st_bind at 1. destruct (current_quiet (u_name u) s) as [oh ->]. destruct oh as [h|e|]; [|by eexists..].
  unfold mbind at 1, st_bind at 1. destruct (previous_root h s) as [op s'] eqn:Ep. assert (s' = s) as -> by (destruct h; unfold previous_root, lift in Ep; cbn in Ep; by injection Ep). destruct op as [previous|e|]; [|by eexists..]. unfold mbind at 1, st_bind at 1, lift at 1. destruct (plus _ _) as [next|e|]; [|by eexists..].
  unfold mbind at 1, st_bind at 1. destruct (IH sizes) as (r & -> & Hr). destruct r as [l|e|]; [|by eexists..]. eexists. split; [done|]. intros cs [= <-] Hus Hl. apply Forall_cons in Hus as [[U1 U2] Hus]. constructor; [|apply Hr; [done|done|by injection Hl]]. split; [|by exists next, size]. cbn [fst]. apply length_txn_entry; [exact U1| |by apply (previous_ok h s)].
  unfold change_version. cbn [points StoreRecords.root]. destruct (u_root u) as [root|] eqn:Er; [|rewrite bool_decide_false by (by intros [? ?]); done]. intros _. apply length_to_bytes. by apply U2.
Qed.
(** Versions kept one after another, in a table that has room. *)
Lemma runs_learn name v s : Good s -> length name <= NAME_MAX -> (forall root, version_root v = Done (Some root) -> complete (holds s (cur s)) root) -> runs Good (learn_version (cur s) name v) s (fun _ s' => Good s' /\ cur s' = cur s /\ forall id c x, holds s' id c x <-> holds s id c x).
Proof using All.
  intros Hg Hn Hv. unfold learn_version. apply runs_gets. apply runs_lift; [done|]. intros hs Hhs. apply runs_last, runs_modify, runs_ret. assert (forall id c x, holds (set_heads hs s) id c x <-> holds s id c x) as Hh by (apply same_holds; [apply Hg|done|intros e c' y _; by apply block_sees]). split_and!; [|done|done]. unfold keep_version in Hhs. apply bind_done in Hhs as ([i|i] & Hf & H).
  - destruct (find_in_domain _ _ _ _ Hf) as (h & Hi & Hd). rewrite Hi in H. injection H as <-. apply Good_keep; [done|done|]. by rewrite Hd.
  - destruct (_ =? _); [done|]. injection H as <-. by apply Good_new.
Qed.
Lemma complete_same (U U' : Cid -> bytes -> Prop) root : (forall c x, U' c x <-> U c x) -> complete U root -> complete U' root.
Proof using Type. intros H. apply agree_complete. intros c _ x. symmetry. apply H. Qed.
Lemma runs_keep_all o us cs s : Good s -> Forall update_ok us -> Forall2 (change_of o) us cs -> roots_complete us s -> runs Good (keep_all us (map snd cs) (cur s)) s (fun _ s' => Good s').
Proof using All.
  intros Hg Hus Hcs. revert s Hg. induction Hcs as [|u c us cs [_ (next & size & Ev)] _ IH]; intros s Hg Hr; cbn [keep_all map]; [done|]. apply Forall_cons in Hus as [[U1 U2] Hus]. eapply runs_bind; [apply runs_learn; [done|done|]|].
  - intros root Er. apply (Hr u); [set_solver|]. rewrite Ev in Er. unfold change_version, version_root in Er. cbn [points StoreRecords.root] in Er. destruct (u_root u) as [r|]; [|by rewrite bool_decide_false in Er by (by intros [? ?])]. destruct (U2 r eq_refl) as [R1 R2]. rewrite bool_decide_true, (proj2 (from_bytes_iff _ r (to_bytes_bytes r R1 R2)) (conj eq_refl R1)) in Er by (by exists r). by injection Er as ->.
  - cbv beta. intros _ s1 (Hg1 & Ec & Hh). rewrite <- Ec. apply IH; [done|done|]. intros w root Hw Er. rewrite Ec. apply (complete_same (holds s (cur s))); [apply Hh|]. apply (Hr w); [set_solver|done].
Qed.
Lemma names_ok_lengths seen us : names_ok seen us = true -> Forall (fun u => length (u_name u) <= NAME_MAX) us.
Proof using Type.
  revert seen. induction us as [|u us IH]; intros seen H; [done|]. cbn [names_ok] in H. apply andb_prop in H as [H1 H2]. apply andb_prop in H1 as [H1 _]. constructor; [apply name_len in H1; unfold NAME_MAX; lia|by eapply IH].
Qed.
Lemma expected_quiet us (s : Store) : exists r, expected_all us s = (r, s).
Proof using Type.
  induction us as [|u us [r IH]]; cbn [expected_all]; [by eexists|]. unfold mbind at 1, st_bind at 1. destruct (current_quiet (u_name u) s) as [oh ->]. destruct oh as [h|e|]; [|by eexists..]. unfold mbind at 1, st_bind at 1. assert (exists oo, (match h with Some h => if bool_decide (u_root u = None) && removed h then fail StoreNames.NotFound else mret tt | None => if bool_decide (u_root u = None) then fail StoreNames.NotFound else mret tt end : SM unit) s = (oo, s)) as [oo ->] by (destruct h; [destruct (_ && _)|destruct (bool_decide _)]; by eexists).
  destruct oo as [[]|e|]; [|by eexists..]. destruct (negb _); [by eexists|]. unfold mbind, st_bind. rewrite IH. destruct r; by eexists.
Qed.
Lemma runs_commit us o s : Good s -> Forall (fun u => forall root, u_root u = Some root -> good root) us -> runs Good (commit us o) s (fun _ s' => Good s').
Proof using All.
  intros Hg Hgood. unfold commit. cbv zeta. destruct ((length us =? 0) || (COMMIT_MAX <? length us)) eqn:Hn; [by apply runs_fail|]. apply orb_false_iff in Hn as [Hn1%Nat.eqb_neq Hn2%Nat.ltb_ge]. destruct (names_ok [] us) eqn:Hnames; [|by apply runs_fail]. cbn [negb]. apply names_ok_lengths in Hnames.
  assert (Forall update_ok us) as Hus by (apply Forall_and; by split). apply runs_gets. destruct (writable (dev s)); [|by apply runs_fail]. cbn [negb]. apply runs_quiet_good; [done|apply expected_quiet|]. intros new _. apply runs_gets. destruct (_ <? _); [by apply runs_fail|]. set (size := (1 + length us) * SECTOR). set (c := sealed_sectors (Z.of_nat size)). assert (1 <= c)%Z as Hc by apply sealed_pos.
  apply runs_room_good; [done|]. intros at_ s1 _ Hg1 Hr1. eapply runs_bind; [by apply runs_sizes|]. cbv beta. intros extra s2 (Hg2 & St2 & Hh2 & Hl2 & Hc2). apply runs_gets. destruct (_ <? _)%Z; [by apply runs_fail|]. apply runs_gets.
  destruct (changes_quiet us extra o s2) as (r & Er & Hr). apply runs_quiet_good; [done|by exists r|]. intros cs Ecs. rewrite Er in Ecs. injection Ecs as ->. specialize (Hr cs eq_refl Hus Hl2). assert (Forall (fun e : bytes => length e = SECTOR) (map fst cs)) as Hes by (apply Forall_map; clear -Hr; induction Hr as [|? ? ? ? [H _] _ IH]; constructor; done).
  destruct (txn_fits _ Hes) as [Ht1 Ht2]. rewrite length_map, <- (Forall2_length _ _ _ Hr) in Ht1. fold size in Ht1. set (rec := txn_record (map fst cs)) in *. assert (1 <= Z.of_nat (length rec) <= Z.of_nat HEADER + BLOCK_MAX)%Z as Hrb by (rewrite Ht1; apply commit_fits; lia). destruct (overwrite_fits rec s2 ltac:(apply Hg2) (proj2 Hrb)) as [Lb Sb].
  apply runs_modify, runs_modify. set (s3 := set_buffer _ s2). assert (alike s2 s3) as Ha3 by (repeat split; done). pose proof (alike_steady s2 s3 (g_inv s2 Hg2) Ha3) as St3. pose proof (steady_good s2 s3 Hg2 St3) as Hg3. assert (has_room s3 at_ c) as Hr3 by (unfold has_room; change (holes s3) with (holes s2); by rewrite Hh2).
  destruct (claim_steady s3 at_ c ltac:(apply Hg3) Hr3 Hc) as (St4 & Hbl & Hap). set (s4 := claim at_ c s3) in *. pose proof (steady_good s3 s4 Hg3 St4) as Hg4. assert (buffer s4 = overwrite (buffer s2) FRAME rec) as Eb4. { destruct (claim_run s3 at_ c ltac:(apply Hg3) Hr3 Hc) as (hs & e & E & _). unfold s4. by rewrite E. }
  pose proof (g_cur s2 Hg2) as Hcur. pose proof domain_width as Hw. eapply runs_bind; [apply (runs_write_sealed Good at_ size (cur s2) rec s4); [by rewrite Eb4|by rewrite Eb4, <- Ht1|done|rewrite <- Ht1; exact Hrb|lia|pose proof (h_start _ _ _ Hbl); lia|apply Hbl|done]|].
  cbv beta. fold c. intros _ s5 (Hio & Hout & kk & Hkk & Hwr). destruct (added s4 s5 at_ (cur s2) c kk rec ltac:(apply Hg4) Hbl Hap Hio Hout Hwr ltac:(lia)) as (St5 & _). { intros E. rewrite E, keys_for_volume in Hkk. injection Hkk as <-. split; [done|apply Ht2]. }
  pose proof (steady_good s4 s5 Hg4 St5) as Hg5. pose proof (steady_trans _ _ _ St3 (steady_trans _ _ _ St4 St5)) as St. assert (cur s5 = cur s2) as Ec by apply St. eapply runs_bind; [rewrite <- Ec; apply (runs_keep_all o us cs s5 Hg5 Hus Hr); by apply (roots_steady us s2)|]. cbv beta. intros _ s6 Hg6. by apply runs_ret.
Qed.

(** ** Recovery keys, reading, leases and the scrub *)
Lemma runs_recovery_new random s : Good s -> runs Good (recovery_new random) s (fun _ s' => Good s').
Proof using All.
  intros Hg. unfold recovery_new. apply runs_gets. destruct (writable (dev s)); [|by apply runs_fail]. cbn [negb]. apply runs_gets. apply runs_lift; [done|]. intros [id volume] Ek%or_refuse_done. apply runs_lift; [done|]. intros r _. apply runs_room_good; [done|]. intros at_ s1 Hk1 Hg1 Hr1. apply runs_modify. destruct (claimed_good s1 at_ Hg1 Hr1) as (Hg2 & St2 & Hb2 & Ha2). set (s2 := claim at_ 1 s1) in *.
  pose proof (length_recovery volume (g_key s Hg id volume Ek)) as Hlr. set (rec := recovery_record volume) in *. assert (1 <= Z.of_nat (length rec) <= Z.of_nat HEADER + BLOCK_MAX)%Z as Hrb by (rewrite Hlr; apply record_fits; unfold RECOVERY_RECORD; lia). destruct (overwrite_fits rec s2 ltac:(apply Hg2) (proj2 Hrb)) as [Lb Sb].
  apply runs_modify. set (s3 := set_buffer _ s2). assert (alike s2 s3) as Ha3 by (repeat split; done). pose proof (alike_steady s2 s3 (g_inv s2 Hg2) Ha3) as St3. pose proof (steady_good s2 s3 Hg2 St3) as Hg3. assert (sealed_sectors (Z.of_nat RECOVERY_RECORD) = 1%Z) as E1 by apply one_sector. assert (blank_run s3 at_ 1) as Hb3 by (by apply (run_sees s2); [apply Ha3|]). pose proof domain_width as Hw.
  eapply runs_bind; [apply (runs_write_under Good at_ RECOVERY_RECORD RECOVERY (keys_recovery r id) rec s3); [done|by rewrite <- Hlr|done|rewrite <- Hlr; exact Hrb|unfold RECOVERY in *; lia|pose proof (h_start _ _ _ Hb3); lia|rewrite E1; apply Hb3]|].
  cbv beta. rewrite E1. intros _ s4 (Hio & Hout & Hwr). destruct (added s3 s4 at_ RECOVERY 1 (keys_recovery r id) rec ltac:(apply Hg3) Hb3 Ha2 Hio Hout Hwr ltac:(unfold RECOVERY in *; lia) ltac:(discriminate)) as (St4 & _). pose proof (steady_good s3 s4 Hg3 St4) as Hg4. apply runs_modify, runs_ret. apply (steady_good s4); [done|]. apply alike_steady; [apply Hg4|]. unfold remember. destruct (_ <? _); by repeat split.
Qed.
Lemma Good_alike s s' : Good s -> alike s s' -> Good s'.
Proof using Type. intros Hg Ha. apply (steady_good s); [done|]. apply alike_steady; [apply Hg|done]. Qed.
Lemma runs_get_good c room s : Good s -> runs Good (get_block c room) s (fun _ s' => Good s').
Proof using All.
  intros Hg. eapply runs_weaken; [eapply runs_of_ends; [apply (ends_get (fun _ s' => Good s') True c room s (g_inv s Hg)); intros e s'; by apply Good_alike|done]|done|]. cbv beta. intros x s' [Hr _]. by apply (Good_alike s), reread_alike.
Qed.
Lemma runs_check_good c s : Good s -> runs Good (check_block c) s (fun _ s' => Good s').
Proof using All.
  intros Hg. unfold check_block. apply runs_gets. destruct (find_block c s) as [p|p] eqn:Hf; [|by apply runs_fail]. destruct (find_holds s c p (g_inv s Hg) Hf) as (e & x & Hsl & Hpr & _ & Hd & Hb). apply runs_gets. rewrite Hsl, (b_len _ _ _ _ Hb), Nat2Z.id. eapply runs_bind; [apply (ends_verify _ _ s e c x (g_inv s Hg)); [intros s' _; by left|done|done]|].
  cbv beta. intros ok s' (-> & Hr & _). apply runs_ret. by apply (Good_alike s), reread_alike.
Qed.
Lemma runs_collect_good s : Good s -> runs Good collect s (fun _ s' => Good s').
Proof using All. intros Hg. eapply runs_weaken; [apply runs_collect; apply Hg| |]; [|cbv beta; intros _]; intros s'; by apply Good_keeping. Qed.
Lemma Good_now s t : Good s -> Good (set_now t s).
Proof using All.
  intros [G1 G2 G0 G3 G4]. split; [|done|done|done|].
  - apply (Inv_sees s); [done|done|done|apply G1|apply G1|apply G1|exact (i_domains s G1)].
  - intros i root Hr. apply (agree_complete (holds s i)); [|by apply G4]. intros c _ x. symmetry. apply same_holds; [done|done|]. intros e c' y _. by apply block_sees.
Qed.
Lemma Good_renew s t : Good s -> Good (renew t s).
Proof using All.
  intros Hg. apply (Good_now s t) in Hg. unfold renew. set (s1 := set_now t s) in *. set (f := fun x => if used x then _ else x). change (slots (ix s)) with (slots (ix s1)). change (StoreIndex.count (ix s)) with (StoreIndex.count (ix s1)). change (total (ix s)) with (total (ix s1)).
  assert (forall x, used (f x) = used x /\ same_entry (f x) x) as Hf by (intros x; unfold f; destruct (used x) eqn:E; [|done]; split; [exact E|done]). apply (Good_keeping s1); [done|]. split; [apply Inv_map; [apply Hg|exact Hf]|apply remarked_kept; [apply map_remarked; exact Hf|done]].
Qed.
(** The scrub reads, and counts. *)
Lemma runs_check_record E s here n id : Inv s -> (forall s', alike s s' -> E s') -> (1 <= n <= RECORD_SECTORS)%Z -> runs E (check_record here n id) s (fun _ s' => alike s s').
Proof using All.
  intros Hi HE Hn. unfold check_record. destruct (_ && _); [done|]. apply runs_gets. cbv zeta. match goal with |- runs _ (match ?x with Some _ => _ | None => _ end) _ _ => destruct x as [w|] end; [done|]. apply runs_open; [done|lia|lia|]. intros s' b ok _ Hr _ _. pose proof (reread_alike _ _ Hr) as Ha. destruct ok; [|done]. cbn [negb]. apply runs_gets. destruct (_ =? _)%Z; [done|].
  destruct (parse_header _) as [[c l]|]; [|destruct (parse_txn _); [done|by case_match]]. destruct (_ =? _)%Z; [|done]. unfold intact, runs, ends, mbind, st_bind, gets, lift. destruct (get_slice _ _ _) as [x|]; [|done]. cbn [or_crash]. destruct (_ && _); [|done]. destruct (typed_block _ _); [done|right; by apply HE|done].
Qed.
Lemma alike_scrubbing (s : Store) x : alike s (set_scrubbing x s).
Proof using Type. by repeat split. Qed.
Lemma alike_scrub_at (s : Store) x : alike s (set_scrub_at x s).
Proof using Type. by repeat split. Qed.
Lemma runs_scrub_window E w b s here found : Inv s -> (forall s', alike s s' -> E s') -> runs E (scrub_window w b here found) s (fun _ s' => alike s s').
Proof using All.
  revert b s here found. induction w as [|w IH]; intros b s here found Hi HE; cbn [scrub_window]; [done|]. cbv zeta. apply runs_gets. destruct (parse_frame (take SECTOR b)) as [n|] eqn:Ef; cbn [mbind option_bind].
  - destruct (_ <=? _)%Z.
    + eapply runs_bind; [apply (runs_check_record E s here n); [done|done|by eapply parse_frame_bound]|]. cbv beta. intros [ok c] s1 Ha. apply runs_gets, runs_modify, runs_ret. transitivity s1; [done|apply alike_scrubbing].
    + apply runs_modify. set (s1 := if any_set _ then _ else _). assert (alike s s1) as Ha by (unfold s1; destruct (any_set _); [apply alike_scrubbing|done]). eapply runs_weaken; [apply (IH _ s1); [by apply (Inv_alike s)|intros s' Hs; apply HE; by transitivity s1]|done|]. cbv beta. intros _ s' Hs. by transitivity s1.
  - apply runs_modify. set (s1 := if any_set _ then _ else _). assert (alike s s1) as Ha by (unfold s1; destruct (any_set _); [apply alike_scrubbing|done]). eapply runs_weaken; [apply (IH _ s1); [by apply (Inv_alike s)|intros s' Hs; apply HE; by transitivity s1]|done|]. cbv beta. intros _ s' Hs. by transitivity s1.
Qed.
Lemma runs_scrub_loop E fuel s done_ budget found : Inv s -> (forall s', alike s s' -> E s') -> runs E (scrub_loop fuel done_ budget found) s (fun _ s' => alike s s').
Proof using All.
  revert s done_ found. induction fuel as [|fuel IH]; intros s done_ found Hi HE; cbn [scrub_loop]; [done|]. apply runs_gets. cbv zeta. destruct (_ && _) eqn:Ec; [|done]. apply andb_prop in Ec as [_ Ec%Z.ltb_lt]. assert (0 < RECORD_SECTORS)%Z by reflexivity. apply runs_read; [apply Hi|lia|]. intros s1 Hr _. pose proof (reread_alike _ _ Hr) as Ha1. pose proof (Inv_alike s s1 Ha1 Hi) as Hi1. apply runs_gets.
  eapply runs_bind; [apply (runs_scrub_window E _ _ s1); [done|intros s' Hs; apply HE; by transitivity s1]|]. cbv beta. intros [next found'] s2 Ha2. apply runs_modify. set (s3 := set_scrub_at next s2). assert (alike s s3) as Ha3 by (transitivity s1; [done|]; transitivity s2; [done|apply alike_scrub_at]).
  eapply runs_weaken; [apply (IH s3); [by apply (Inv_alike s)|intros s' Hs; apply HE; by transitivity s3]|done|]. cbv beta. intros _ s' Hs. by transitivity s3.
Qed.
Lemma runs_scrub_good budget s : Good s -> runs Good (scrub budget) s (fun _ s' => Good s').
Proof using All.
  intros Hg. assert (runs Good (scrub budget) s (fun _ s' => alike s s')) as H; [|eapply runs_weaken; [exact H|done|]; cbv beta; intros _ s'; by apply Good_alike]. unfold scrub. apply runs_modify. set (s1 := if (_ =? _)%Z then _ else _). assert (alike s s1) as Ha by (unfold s1; destruct (_ =? _)%Z; [transitivity (set_scrub_at 1 s); [apply alike_scrub_at|apply alike_scrubbing]|done]). clearbody s1. pose proof (Good_alike s s1 Hg Ha) as Hg1.
  apply runs_gets. eapply runs_bind; [apply (runs_scrub_loop Good _ s1); [apply Hg1|intros s'; by apply Good_alike]|]. cbv beta. intros found s2 Ha2. apply runs_gets. assert (alike s s2) as Has by (by transitivity s1). destruct (_ <? _)%Z; [done|]. apply runs_modify, runs_ret. transitivity s2; [done|apply alike_scrub_at].
Qed.

(** ** Any sequence of requests *)
(** A request, with what it is given; a [Cid] and random bytes are of the length their types say. *)
Inductive request : Type :=
  | RPut (k : Codec) (data : bytes) | RGet (c : Cid) (room : Z) | RCheck (c : Cid) | RPublish (name : bytes) (expected : Z) (root : Cid) (o : Z) | RUnpublish (name : bytes) (expected o : Z)
  | RCommit (us : list Update) (o : Z) | RPin (root : Cid) (o : Z) | RCreate (o : Z) (random : option bytes) | RDomain (id : Z) | RRecovery (random : option bytes) | RCollect | RTime (t : Z) | RRenew (t : Z) | RScrub (budget : Z).
Definition request_ok (r : request) : Prop :=
  match r with
  | RPut _ data => Forall is_byte data
  | RPublish _ _ root _ | RPin root _ => good root
  | RCommit us _ => Forall (fun u => forall root, u_root u = Some root -> good root) us
  | RCreate _ random => forall k, random = Some k -> length k = 32
  | _ => True
  end.
Definition ignore {A} (m : SM A) : SM unit := _ ← m; mret tt.
Definition serve (r : request) : SM unit :=
  match r with
  | RPut k data => ignore (put_block k data) | RGet c room => ignore (get_block c room) | RCheck c => ignore (check_block c)
  | RPublish name expected root o => ignore (publish name expected root o) | RUnpublish name expected o => ignore (unpublish name expected o) | RCommit us o => ignore (commit us o)
  | RPin root o => ignore (pin root o) | RCreate o random => ignore (domain_create o random) | RDomain id => set_domain id | RRecovery random => ignore (recovery_new random)
  | RCollect => ignore collect | RTime t => modify (set_time t) | RRenew t => modify (renew t) | RScrub budget => ignore (scrub budget)
  end.
Lemma runs_ignore {A} (m : SM A) s : runs Good m s (fun _ s' => Good s') -> runs Good (ignore m) s (fun _ s' => Good s').
Proof using Type. intros H. eapply runs_bind; [exact H|]. cbv beta. intros _ s' Hg. by apply runs_ret. Qed.
Lemma serve_good r s : Good s -> request_ok r -> runs Good (serve r) s (fun _ s' => Good s').
Proof using All.
  intros Hg Hr. destruct r; cbn [serve request_ok] in *; try apply runs_ignore.
  - by apply runs_put.
  - by apply runs_get_good.
  - by apply runs_check_good.
  - by apply runs_publish.
  - by apply runs_unpublish.
  - by apply runs_commit.
  - by apply runs_pin.
  - by apply runs_domain_create.
  - by apply runs_set_domain.
  - by apply runs_recovery_new.
  - by apply runs_collect_good.
  - by apply Good_now.
  - by apply Good_renew.
  - by apply runs_scrub_good.
Qed.
(** Requests served one after another; the device fails no call, and whatever else a request answers the next one is served. *)
Inductive serving : Store -> Store -> Prop :=
  | serving_none s : serving s s
  | serving_next s s1 s2 r o : serving s s1 -> request_ok r -> serve r s1 = (o, s2) -> o <> Crash -> o <> Refuse StoreNames.Device -> serving s s2.
Lemma serving_good s s' : serving s s' -> Good s -> Good s'.
Proof using All.
  induction 1 as [s|s s1 s2 r o _ IH Hr E Hc Hd]; intros Hg; [done|]. pose proof (serve_good r s1 (IH Hg) Hr) as H. unfold runs, ends in H. rewrite E in H. destruct o as [a|e|]; [done| |done]. destruct H as [->|H]; [done|done].
Qed.
End requests.
