(* ===== verification/StoreFresh.v ===== *)
(** * A store on a new medium never loses what is retained

    The mount of a blank medium gives a store with the invariant; the theorem follows the store through any sequence of requests. *)
From S2P Require Import Prelude Outcome Sha256 Cid Cbor Dag DagTree Directory Journal Tour StoreRecords StoreNames StoreIndex StoreMedium StorePass StoreOps StoreMount StoreLayout StoreInv StoreWrite StoreSweep StoreMark StoreSafe StoreRuns.
Local Open Scope nat_scope.
Lemma length_hmac k ps : length (hmac_sha256 k ps) = 32.
Proof. unfold hmac_sha256. rewrite finish_length by (by rewrite !update_length). done. Qed.
Lemma deferred_none : (Z.of_nat DEFERRED <? 0)%Z = false.
Proof. reflexivity. Qed.
Lemma length_superblock `{!Crypto} `{!CryptoLaws} key kept : (forall k, key = Some k -> length k = 32) -> (forall i, kept = Some i -> length i = 8) -> length (superblock key kept) = 1 * SECTOR.
Proof.
  intros Hk Hi. assert (length SUPER_MAGIC = 8) as Hm by reflexivity. unfold superblock. set (s0 := overwrite (overwrite (overwrite (overwrite (overwrite _ 0 _) 8 _) 10 _) 12 _) 16 _). assert (length s0 = 512) as H0 by (unfold s0; repeat (apply len_ow; [|rewrite ?length_to_le, ?length_digest, ?Hm; cbn [length]; lia]); apply length_replicate).
  clearbody s0. change (1 * SECTOR) with 512. apply len_ow; [|rewrite length_digest; lia]. destruct key as [k|]; [|exact H0]. specialize (Hk k eq_refl). set (s1 := match kept with Some _ => _ | None => _ end). assert (length s1 = 512) as Hs1 by (unfold s1; destruct kept as [i|]; [specialize (Hi i eq_refl)|]; (apply len_ow; [exact H0|lia])). clearbody s1.
  unfold keys_seal. set (n := take 12 _). assert (length n = 12) as Hn by (unfold n; rewrite length_take, length_hmac; reflexivity). destruct (seal_length (k_seal (keys_new k)) n (aad s1 0) (slice s1 92 32)) as [L1 L2]. destruct (seal _ _ _ _) as [data tag]. cbn [fst snd] in *. rewrite slice_length in L1 by lia. repeat (apply len_ow; [|lia]). exact Hs1.
Qed.
#[local] Opaque digest SECTOR BUFFER RECORD_SECTORS hmac_sha256 superblock keys_new.

Section fresh.
Context {D : Type} {med_ops : Medium D} {med_laws : MediumLaws D} {cipher : Crypto} {cipher_laws : CryptoLaws}.
Local Abbreviation Store := (StoreMedium.Store D).
Local Abbreviation SM := (STE SError Store).

(** ** Scanning a blank medium *)
Definition zeros_from (d : D) (a : Z) : Prop := forall k, (a <= k < sectors d)%Z -> sector d k = zero_sector.
Record fresh (s : Store) : Prop := {
  n_buffer : length (buffer s) = BUFFER; n_size : (1 < size_ s <= 2 ^ 32)%Z; n_zeros : zeros_from (dev s) 1; n_slots : exists n, 0 < n /\ ix s = mkIndex (replicate n StoreIndex.EMPTY) 0 0;
  n_heads : heads s = []; n_pins : pins s = []; n_cur : cur s = VOLUME; n_domains : forall d, d ∈ domains s -> d = None; n_key : forall id v, kept_key (cfg s) = Some (id, v) -> length v = 32; n_waiting : waiting s = 0%Z; n_deferred : deferred s = []
}.
Lemma fresh_places s k : fresh s -> (1 <= k <= size_ s)%Z -> place s k.
Proof using Type. intros Hf Hk. pose proof (n_size s Hf) as Hs. apply (visited_zeros (vkeys s) (size_ s) (med s) 1 (size_ s - 1)); [lia|apply visited_start|intros j Hj; apply (n_zeros s Hf); unfold size_ in *; lia|lia]. Qed.
Lemma fresh_good s : fresh s -> holes s = [] \/ holes s = [mkExtent 1 (size_ s - 1)] -> Good s.
Proof using Type.
  intros Hf Hh. pose proof Hf as [F1 F2 F3 (n & Hn & F4) F5 F6 F7 F8 F9 _ _]. assert (forall d, Some d ∈ domains s -> False) as Hd by (intros d H; by specialize (F8 _ H)). assert (forall e, ~ present (slots (ix s)) e) as Hno by (intros e [p [H Hu]]; rewrite F4 in H; apply lookup_replicate in H as [-> _]; done).
  assert (blank_run s 1 (size_ s - 1)) as Hb by (split; [lia|lia|lia|]; intros k Hk; split; [apply fresh_places; [done|lia]|apply F3; unfold size_ in *; lia]). split.
  - split; [done|done| | | | |].
    + exists ∅. rewrite F4. split; [by apply empty_simulates|]. rewrite map_size_empty. lia.
    + intros h. destruct Hh as [->| ->]; [by intros H%elem_of_nil|]. by intros ->%list_elem_of_singleton.
    + destruct Hh as [->| ->]; by cbn.
    + intros e He. by destruct (Hno e).
    + intros d H. by destruct (Hd d).
  - rewrite F7. unfold VOLUME, RECOVERY. lia.
  - done.
  - rewrite F5. by intros h H%elem_of_nil.
  - intros id root [(h & v & H & _)|(p & H & _)]; [rewrite F5 in H; by apply elem_of_nil in H|rewrite F6 in H; by apply elem_of_nil in H].
Qed.
Lemma fresh_reread s s' : reread s s' -> fresh s -> fresh s'.
Proof using Type.
  intros (d & b & -> & R1 & R2 & R3 & R4) [F1 F2 F3 F4 F5 F6 F7 F8 F9 F10 F11]. split; try done; [by apply R4|unfold size_ in *; cbn; by rewrite R2|]. intros k Hk. cbn [dev set_buffer set_dev] in *. rewrite R2 in Hk. rewrite R1. by apply F3.
Qed.
Lemma window_fresh w b s here run freed : fresh s -> (1 <= here)%Z -> (here + Z.of_nat w <= size_ s)%Z -> (exists rest, b = image (med s) here w ++ rest) -> run = None /\ here = 1%Z \/ run = Some 1%Z ->
  exists run', window_loop w b here false (run, freed) s = (Done (here + Z.of_nat w, (run', freed))%Z, s) /\ (run' = None /\ (here + Z.of_nat w = 1)%Z \/ run' = Some 1%Z).
Proof using Type.
  intros Hf. revert b here run. induction w as [|w IH]; intros b here run H1 Hle Hb Hr; cbn [window_loop]; [exists run; rewrite Z.add_0_r; by split|]. destruct Hb as [rest ->]. assert (med s here = zero_sector) as Hz by (apply (n_zeros s Hf); unfold size_ in *; lia). pose proof (whole_med s here) as Hsl.
  assert (take SECTOR (image (med s) here (S w) ++ rest) = zero_sector) as ->. { rewrite take_app_le by (rewrite length_image by apply whole_med; lia). rewrite image_first by apply whole_med. done. } assert (drop SECTOR (image (med s) here (S w) ++ rest) = image (med s) (here + 1) w ++ rest) as -> by (cbn [image]; rewrite <- app_assoc; by apply drop_app_length').
  cbv zeta. unfold gets, mbind at 1, st_bind at 1. rewrite parse_frame_zero. cbn [mbind option_bind]. assert (any_set zero_sector = false) as -> by apply any_set_zeros. destruct (IH (image (med s) (here + 1) w ++ rest) (here + 1)%Z (Some (default here run))) as (run' & E & Hr'); [lia|lia|by exists rest|right; destruct Hr as [[-> ->]| ->]; done|].
  exists run'. rewrite E. replace (here + 1 + Z.of_nat w)%Z with (here + Z.of_nat (S w))%Z in * by lia. by split.
Qed.
Lemma ends_modify {B} F K (f : Store -> Store) (k : unit -> SM B) s Q : ends F K (k tt) (f s) Q -> ends F K (modify f ≫= k) s Q.
Proof using Type. done. Qed.
Definition anyhow (e : SError) (s : Store) : Prop := True.
Lemma pass_fresh fuel s at_ run freed : fresh s -> (1 <= at_ <= size_ s)%Z -> run = None /\ at_ = 1%Z \/ run = Some 1%Z -> ends anyhow True (pass_loop fuel at_ false (run, freed)) s (fun r s' => fresh s' /\ size_ s' = size_ s /\ cfg s' = cfg s /\ holes s' = holes s /\ r.1 = Some 1%Z).
Proof using All.
  revert s at_ run. induction fuel as [|fuel IH]; intros s at_ run Hf Hat Hr; cbn [pass_loop]; [done|]. apply ends_gets. change (sectors (dev s)) with (size_ s). destruct (Z.ltb_spec at_ (size_ s)) as [Hlt|Hge]; [|pose proof (n_size s Hf); destruct Hr as [[_ ?]| ->]; [lia|done]].
  set (w := Z.min (size_ s - at_) RECORD_SECTORS). assert (0 < RECORD_SECTORS)%Z by reflexivity. apply ends_read; [apply Hf|lia|done|]. intros s1 Hre Eb. pose proof (fresh_reread s s1 Hre Hf) as Hf1. pose proof (reread_alike _ _ Hre) as Ha. assert (size_ s1 = size_ s) as Esz by apply Ha. apply ends_gets.
  destruct (window_fresh (Z.to_nat w) (buffer s1) s1 at_ run freed Hf1) as (run' & E & Hr'); [lia|lia| |done|].
  - rewrite Eb. eexists. f_equal. apply image_ext. intros k _. symmetry. apply Ha.
  - unfold ends, mbind, st_bind. rewrite E. assert (ends anyhow True (pass_loop fuel (at_ + Z.of_nat (Z.to_nat w)) false (run', freed)) s1 (fun r s' => fresh s' /\ size_ s' = size_ s /\ cfg s' = cfg s /\ holes s' = holes s /\ r.1 = Some 1%Z)) as H1; [|exact H1]. assert (cfg s1 = cfg s /\ holes s1 = holes s) as [<- <-] by (split; apply Ha). rewrite <- Esz. apply IH; [done|lia|done].
Qed.
Lemma erase_none ks (s : Store) : (forall d, d ∈ domains s -> d = None) -> erase_forgotten_keys ks s = (Done tt, s).
Proof using Type.
  intros Hd. induction ks as [|k ks IH]; cbn [erase_forgotten_keys]; [done|]. unfold gets, mbind, st_bind. destruct (domains s !! k) as [[d|]|] eqn:E; [|exact IH|exact IH]. by specialize (Hd _ ltac:(by eapply list_elem_of_lookup_2)).
Qed.
(** The scan a mount does of a blank medium. *)
Lemma mount_fresh s : fresh s -> ends anyhow True (_ ← mount_pass; size_retained) s (fun _ s' => Good s').
Proof using All.
  intros Hf. assert (ends anyhow True (pass false) (set_waiting 0 (set_deferred [] s)) (fun _ s' => fresh s' /\ (holes s' = [] \/ holes s' = [mkExtent 1 (size_ s' - 1)]))) as Hp.
  { unfold pass. do 3 apply ends_modify. cbv beta. set (s1 := set_domains _ _). assert (fresh s1) as Hf1. { destruct Hf as [F1 F2 F3 F4 F5 F6 F7 F8 F9 F10 F11]. split; try done. intros d (d0 & -> & Hd0)%list_elem_of_fmap. by rewrite (F8 d0 Hd0). } assert (holes s1 = []) as Hh1 by done. clearbody s1.
    apply ends_gets. change (sectors (dev s1)) with (size_ s1). pose proof (n_size s1 Hf1) as Hs1. eapply ends_bind; [apply pass_fresh; [done|lia|by left]|]. cbv beta. intros [run freed] s2 (Hf2 & Es & Ec & Hh & Er). cbn [fst] in Er. subst run. apply ends_modify. unfold ends, gets, mbind, st_bind. cbn [mret st_ret].
    rewrite Hh1 in Hh. unfold hole. rewrite Hh. destruct (_ && _); [|by split; [|left]]. split; [by destruct Hf2; split|]. right. cbn. by rewrite <- Es. }
  assert (ends anyhow True mount_pass s (fun _ s' => fresh s' /\ (holes s' = [] \/ holes s' = [mkExtent 1 (size_ s' - 1)]))) as Hm.
  { unfold mount_pass. apply ends_modify. eapply ends_bind; [exact Hp|]. cbv beta. intros _ s1 [Hf1 Hh1]. pose proof Hf1 as [F1 F2 F3 F4 F5 F6 F7 F8 F9 F10 F11]. apply ends_gets. rewrite F10, deferred_none, F11. eapply (ends_bind _ _ _ _ _ (fun _ s' => s' = s1)); [done|]. intros _ s2 ->. apply ends_modify. unfold ends. rewrite erase_none by done. split; [by split|done]. }
  eapply ends_bind; [exact Hm|]. cbv beta. intros _ s1 [Hf1 Hh1]. pose proof Hf1 as [F1 F2 F3 F4 F5 F6 F7 F8 F9 F10 F11]. unfold size_retained. apply ends_gets. rewrite F5, F6. eapply (ends_bind _ _ _ _ _ (fun _ s' => s' = s1)); [done|]. intros _ s2 ->. eapply (ends_bind _ _ _ _ _ (fun _ s' => s' = s1)); [done|]. intros _ s2 ->. apply fresh_good; [by split|done].
Qed.

(** ** Mounting a new medium *)
Lemma read_into_done at_ n d b x d' b' : read_into at_ n (d, b) = (Done x, (d', b')) -> length b = BUFFER -> (Z.of_nat n <= RECORD_SECTORS)%Z -> x = image (sector d) at_ n /\ (forall k, sector d' k = sector d k) /\ sectors d' = sectors d /\ writable d' = writable d /\ length b' = BUFFER.
Proof using All.
  intros H Hb Hn. unfold read_into in H. pose proof (read_law d at_ n) as L. destruct (dread at_ n d) as [[y|] d1]; [|done]. injection H as -> <- <-. destruct L as (L1 & L2 & L3 & L4). specialize (L4 x eq_refl). split_and!; [done|done|done|done|]. rewrite L4, overwrite_start by (rewrite length_image by (intros k; apply sector_length); pose proof (sectors_fit n Hn); lia).
  rewrite length_app, length_drop. assert (length (image (sector d) at_ n) <= BUFFER) by (rewrite length_image by (intros k; apply sector_length); by apply sectors_fit). lia.
Qed.
Lemma blank_zeros fuel at_ d b d' b' : blank_loop fuel at_ (d, b) = (Done true, (d', b')) -> length b = BUFFER -> (0 <= at_)%Z -> zeros_from d at_ /\ (forall k, sector d' k = sector d k) /\ sectors d' = sectors d /\ writable d' = writable d /\ length b' = BUFFER.
Proof using All.
  revert at_ d b. induction fuel as [|fuel IH]; intros at_ d b H Hb H0; [done|]. cbn [blank_loop] in H. unfold size_of_medium, mbind at 1, st_bind at 1 in H. cbn [fst] in H. destruct (Z.ltb_spec at_ (sectors d)) as [Hlt|Hge]; [|injection H as <- <-; split_and!; [intros k Hk; lia|done..]].
  cbv zeta in H. set (w := Z.min (sectors d - at_) RECORD_SECTORS) in *. assert (0 < RECORD_SECTORS)%Z by reflexivity. unfold mbind, st_bind in H. destruct (read_into at_ (Z.to_nat w) (d, b)) as [[x|e|] [d1 b1]] eqn:Er; [|done|done]. destruct (read_into_done _ _ _ _ _ _ _ Er Hb ltac:(lia)) as (-> & R1 & R2 & R3 & R4).
  destruct (any_set _) eqn:Ea; [done|]. destruct (IH (at_ + w)%Z d1 b1 H R4 ltac:(lia)) as (I1 & I2 & I3 & I4 & I5). split_and!; [|intros k; by rewrite I2|congruence|congruence|done]. apply any_set_false in Ea. rewrite length_image in Ea by (intros k; apply sector_length). intros k Hk. destruct (decide (k < at_ + w)%Z).
  - apply (image_zero _ _ _ (fun k => sector_length d k) Ea). lia.
  - rewrite <- R1. apply I1. rewrite R2. lia.
Qed.
Context {K : Type} {keeper_ops : Keeper K}.
Lemma make_key_lengths t kb ib (keeper : option K) (d : D) : (forall k, kb = Some k -> length k = 32) -> (forall i, ib = Some i -> length i = 8) -> let '(key, kept, _) := make_key t kb ib keeper d in length key = 32 /\ forall i, kept = Some i -> length i = 8.
Proof using Type.
  intros Hk Hi. unfold make_key. destruct kb as [k|]; [|split; [apply length_hmac|intros i E; discriminate E]]. specialize (Hk k eq_refl). destruct ib as [i|], keeper as [kp|]; try (split; [exact Hk|intros j E; discriminate E]). destruct (kput i k kp) as [[] kp']; (split; [exact Hk|]); intros j E; [|discriminate E]. injection E as <-. by apply Hi.
Qed.
Lemma mount_new d (keeper : option K) r b t kb ib s keeper' : sector d 0 = zero_sector -> length b = BUFFER -> 0 < r_slots r -> (forall k, kb = Some k -> length k = 32) -> (forall i, ib = Some i -> length i = 8) -> mount d keeper r b t kb ib = (Done s, keeper') -> Good s.
Proof using All.
  intros Hz Hb Hr Hkb Hib. unfold mount. destruct (Z.ltb_spec (sectors d) 2) as [|Hlo]; [done|]. destruct (Z.ltb_spec (2 ^ 32) (sectors d)) as [|Hhi]; [done|]. destruct (read_into 0 1 (d, b)) as [[x|e|] [d1 b1]] eqn:Er; [|done|done]. assert (Z.of_nat 1 <= RECORD_SECTORS)%Z as H1 by (apply Z.leb_le; reflexivity). destruct (read_into_done _ _ _ _ _ _ _ Er Hb H1) as (-> & R1 & R2 & R3 & R4).
  cbn [image]. rewrite app_nil_r, Hz. assert (any_set zero_sector = false) as -> by apply any_set_zeros. destruct (blank (d1, b1)) as [[[]|e|] [d2 b2]] eqn:Ebl; [|done|done|done]. unfold blank, size_of_medium, mbind at 1, st_bind at 1 in Ebl. cbn [fst] in Ebl. destruct (blank_zeros _ _ _ _ _ _ Ebl R4 ltac:(lia)) as (Z1 & Z2 & Z3 & Z4 & Z5). destruct (writable d2); [|done]. cbn [negb].
  destruct (make_key t kb ib keeper d2) as [[key kept] keeper2] eqn:Em. assert (length key = 32 /\ forall i, kept = Some i -> length i = 8) as [Hkey Hkept].
  { pose proof (make_key_lengths t kb ib keeper d2 Hkb Hib) as Hm. rewrite Em in Hm. exact Hm. }
  destruct (dwrite 0 (superblock (Some key) kept) d2) as [[] d3] eqn:Ew; [|done]. cbn [negb]. destruct (write_law d2 0 _ d3 1 Ew (length_superblock (Some key) kept ltac:(by intros k [= <-]) Hkept) ltac:(lia) ltac:(lia)) as (W1 & W2 & W3 & W4). destruct (dflush d3) as [[] d4] eqn:Ef; [|done]. cbn [negb]. destruct (flush_law d3 d4 Ef) as (L1 & L2 & L3).
  cbv zeta. set (st := mkStore _ _ _ _ _ _ _ _ _ _ _ _ _ _ _ _ _ _ _ _ _). assert (fresh st) as Hfresh.
  { split; try done.
    - unfold size_, st. cbn [dev]. lia.
    - unfold st. cbn [dev]. intros k Hk. rewrite L1, W4, Z2 by lia. apply Z1. lia.
    - by exists (r_slots r).
    - unfold st. cbn [domains]. intros dd (j & [-> _]%lookup_replicate)%list_elem_of_lookup. done.
    - unfold st. cbn [cfg kept_key]. destruct kept as [i|]; [|done]. by intros id v [= <- <-]. }
  pose proof (mount_fresh st Hfresh) as Hm. unfold ends in Hm. destruct ((_ ← mount_pass; size_retained) st) as [[[]|e|] st']; intros H; by simplify_eq.
Qed.

(** ** What is retained is given *)
(** What the store gives for [c] in domain [id]. *)
Definition gives (s : Store) (id : Z) (c : Cid) (x : bytes) : Prop := (get_block c BLOCK_MAX (set_cur id s)).1 = Done x.
(** Every block under a retained root, as the store itself gives them, is given, unless the device fails the read. *)
Definition all_given (s : Store) : Prop := forall id root c, retained_root s id root -> in_journal (gives s id) root c ->
  (get_block c BLOCK_MAX (set_cur id s)).1 = Refuse StoreNames.Device \/ exists x, gives s id c x /\ matches c x = true.
Lemma ends_get_held c x s : Inv s -> holds s (cur s) c x -> ends (fun e _ => e = StoreNames.Device) False (get_block c BLOCK_MAX) s (fun y _ => y = x).
Proof using All.
  intros Hi Hh. unfold get_block. apply ends_gets. destruct (find_block c s) as [p|p] eqn:Hf; [|by destruct (find_none s c p x Hi Hf)]. destruct (find_holds s c p Hi Hf) as (e & y & Hsl & Hpr & _ & Hd & Hb). assert (y = x) as -> by (apply (holds_one s (cur s) c); [done|by exists e|done]). apply ends_gets. pose proof (b_max _ _ _ _ Hb) as Hmax. rewrite Hsl. rewrite (proj2 (Z.ltb_ge _ _)) by done. rewrite (b_len _ _ _ _ Hb), Nat2Z.id.
  eapply ends_bind; [by apply (ends_verify _ _ s e c x Hi)|]. cbv beta. intros ok s' (-> & Hr & Hg). unfold ends, gets, lift, mbind, st_bind. by rewrite Hg.
Qed.
Lemma Good_given s : Good s -> all_given s.
Proof using All.
  intros Hg id root c Hr Hj. set (s1 := set_cur id s). assert (Inv s1) as Hi1. { pose proof (g_inv s Hg) as Hi. apply (Inv_sees s); [done|done|done|apply Hi|apply Hi|apply Hi|exact (i_domains s Hi)]. } assert (forall c x, holds s1 id c x <-> holds s id c x) as Hh by (intros c' x; apply same_holds; [apply Hg|done|intros e i y _; by apply block_sees]).
  assert (in_journal (holds s id) root c) as Hj'. { eapply journal_mono; [|exact Hj]. intros c' x Hx. apply Hh. pose proof (ends_get (fun _ _ => True) True c' BLOCK_MAX s1 Hi1 ltac:(done)) as H. unfold gives in Hx. fold s1 in Hx. unfold ends in H. destruct (get_block c' BLOCK_MAX s1) as [o s2]. cbn [fst] in Hx. subst o. by destruct H as (_ & H & _). }
  destruct (g_complete s Hg id root Hr c Hj') as [x Hx]. assert (matches c x = true) as Hm by (destruct Hx as (e & _ & _ & [_ _ _ _ _ _ Hm _ _]); done). apply Hh in Hx. pose proof (ends_get_held c x s1 Hi1 Hx) as H. unfold gives. fold s1. unfold ends in H. destruct (get_block c BLOCK_MAX s1) as [[y|e|] s2]; cbn [fst]; [|left; by rewrite H|done]. right. exists x. by rewrite H.
Qed.

(** C2: no request loses what a name or a pin retains. A store mounted on a new medium serves puts, gets, checks, publishes,
    removals, commits, pins, new domains, changes of the domain, new recovery keys, collections, the clock's time, renewals and
    scrubs in any order ([unpin], [domain_forget], [recovery_keep] and [recovery_forget] are not among them); as long as the device fails no call, every block under
    every version a name keeps and under every pin, down through files, directories and journals, is still given, and is
    the block its CID names. *)
Theorem retained_never_lost d (keeper : option K) r b t kb ib s keeper' s' : sector d 0 = zero_sector -> length b = BUFFER -> 0 < r_slots r -> (forall k, kb = Some k -> length k = 32) -> (forall i, ib = Some i -> length i = 8) ->
  mount d keeper r b t kb ib = (Done s, keeper') -> serving s s' -> all_given s'.
Proof using All. intros Hz Hb Hr Hk Hi Hm Hs. apply Good_given, (serving_good s); [done|]. by eapply mount_new. Qed.
End fresh.

(** ** A medium in memory *)
#[local] Transparent SECTOR.
Definition RAM : Z := 6.
Definition ram : Type := Z -> bytes.
Definition cell (x : bytes) : bytes := take SECTOR (x ++ replicate SECTOR 0%Z).
#[global] Instance ram_medium : Medium ram := {|
  sectors _ := RAM;
  writable _ := true;
  dread at_ n d := (Some (image (fun k => cell (d k)) at_ n), d);
  dwrite at_ b d := (true, fun k => if (at_ <=? k)%Z && (k <? at_ + Z.of_nat (length b / SECTOR))%Z then slice b (Z.to_nat (k - at_) * SECTOR) SECTOR else d k);
  dflush d := (true, d)
|}.
#[local] Opaque SECTOR.
Lemma length_cell x : length (cell x) = SECTOR.
Proof. unfold cell. rewrite length_take, length_app, length_replicate. lia. Qed.
Lemma cell_whole x : length x = SECTOR -> cell x = x.
Proof. intros H. unfold cell. rewrite take_app_le by lia. apply take_ge. lia. Qed.
Lemma image_slices b a n : length b = n * SECTOR -> image (fun k => slice b (Z.to_nat (k - a) * SECTOR) SECTOR) a n = b.
Proof.
  revert a b. induction n as [|n IH]; intros a b Hl; cbn [image]; [by destruct b|]. rewrite Z.sub_diag. cbn [Z.to_nat Nat.mul]. transitivity (take SECTOR b ++ drop SECTOR b); [|apply take_drop]. f_equal. rewrite <- (IH (a + 1)%Z (drop SECTOR b)) by (rewrite length_drop; lia). apply image_ext. intros k Hk. unfold slice. rewrite drop_drop. f_equal. f_equal. replace (Z.to_nat (k - a)) with (S (Z.to_nat (k - (a + 1)))) by lia. lia.
Qed.
#[global] Instance ram_laws : MediumLaws ram.
Proof.
  pose proof sector_pos as Hs. refine {| sector d k := cell (d k) |}.
  - intros d k. apply length_cell.
  - intros d at_ n. cbn. split; [done|]. split; [done|]. split; [done|]. by intros b [= <-].
  - intros d at_ b d' n H Hl H0 Hle. cbn in H. injection H as <-. rewrite Hl, Nat.div_mul by lia. split; [done|]. split; [done|]. split.
    + transitivity (image (fun k => slice b (Z.to_nat (k - at_) * SECTOR) SECTOR) at_ n); [|by apply image_slices]. apply image_ext. intros k Hk. rewrite (proj2 (Z.leb_le _ _)), (proj2 (Z.ltb_lt _ _)) by lia. cbn [andb]. apply cell_whole. apply slice_length. rewrite Hl. nia.
    + intros k Hk. destruct (Z.leb_spec at_ k); [rewrite (proj2 (Z.ltb_ge _ _)) by lia|]; done.
  - intros d d' [= <-]. done.
Defined.
Definition no_keeper : Keeper unit := {| kput _ _ k := (false, k); kget _ k := (None, k) |}.
Definition ram_mount : outcome SError (StoreMedium.Store ram) * option unit := @mount ram ram_medium clear_crypto unit no_keeper (fun _ => []) None (mkRoom 4 4 4 4) (replicate BUFFER 0%Z) 0 None None.
#[local] Transparent digest SECTOR BUFFER RECORD_SECTORS hmac_sha256 superblock keys_new.
Definition is_ok {A} (o : outcome SError A) : bool := match o with Done _ => true | _ => false end.

(** A store in memory serves some requests, all of them granted. *)
Definition served (rs : list request) (s : StoreMedium.Store ram) : bool * StoreMedium.Store ram :=
  foldl (fun '(ok, s) r => let '(o, s') := @serve ram ram_medium clear_crypto r s in (ok && is_ok o, s')) (true, s) rs.
Definition demo_root : Cid := of_data Raw [1; 2; 3]%Z.
Definition demo_requests : list request := [RPut Raw [1; 2; 3]%Z; RPin demo_root 0; RCollect; RGet demo_root 100].
Definition ram_run : bool := match ram_mount.1 with Done s => let '(ok, s') := served demo_requests s in ok && (length (pins s') =? 1)%nat | _ => false end.
Lemma ram_runs : ram_run = true.
Proof. vm_compute. reflexivity. Qed.
#[local] Opaque digest SECTOR BUFFER RECORD_SECTORS hmac_sha256 superblock keys_new of_data serve ram_mount.
Lemma served_false rs s s' : foldl (fun '(ok, s) r => let '(o, s') := @serve ram ram_medium clear_crypto r s in (ok && is_ok o, s')) (false, s) rs <> (true, s').
Proof. revert s. induction rs as [|r rs IH]; intros s; cbn [foldl]; [discriminate|]. destruct (serve r s) as [o s1]. apply IH. Qed.
Lemma cell_nil : cell [] = zero_sector.
Proof. unfold cell, zero_sector. rewrite app_nil_l. apply take_ge. by rewrite length_replicate. Qed.
Lemma served_serving rs : Forall request_ok rs -> forall s0 s s' ok, @serving ram ram_medium clear_crypto s0 s ->
  foldl (fun '(ok, s) r => let '(o, s') := @serve ram ram_medium clear_crypto r s in (ok && is_ok o, s')) (ok, s) rs = (true, s') -> ok = true /\ @serving ram ram_medium clear_crypto s0 s'.
Proof.
  induction 1 as [|r rs Hr _ IH]; intros s0 s s' ok Hs; cbn [foldl]; [by intros [= -> <-]|]. destruct (serve r s) as [o s1] eqn:E. intros Hf. destruct o as [x|e|].
  - destruct (IH s0 s1 s' _ ltac:(by eapply serving_next) Hf) as [H1 H2]. by rewrite andb_true_r in H1.
  - exfalso. cbn [is_ok] in Hf. rewrite andb_false_r in Hf. by apply served_false in Hf.
  - exfalso. cbn [is_ok] in Hf. rewrite andb_false_r in Hf. by apply served_false in Hf.
Qed.
Lemma demo_requests_ok : Forall request_ok demo_requests.
Proof. unfold demo_requests. apply Forall_cons. split; [repeat constructor; unfold is_byte; lia|]. apply Forall_cons. split; [apply digest_good|]. repeat constructor. Qed.
Lemma retained_never_lost_witness : exists s s', ram_mount.1 = Done s /\ served demo_requests s = (true, s') /\ length (pins s') = 1 /\ @all_given ram ram_medium clear_crypto s'.
Proof.
  pose proof ram_runs as H. unfold ram_run in H. destruct ram_mount as [o kp] eqn:Em. cbn [fst] in *. destruct o as [s|e|]; [|discriminate H|discriminate H]. destruct (served demo_requests s) as [ok s'] eqn:Es. apply andb_true_iff in H as [-> Hp%Nat.eqb_eq]. exists s, s'. split; [done|]. split; [done|]. split; [done|].
  apply (@retained_never_lost ram ram_medium ram_laws clear_crypto clear_laws unit no_keeper (fun _ => []) None (mkRoom 4 4 4 4) (replicate BUFFER 0%Z) 0 None None s kp s').
  - apply cell_nil.
  - apply length_replicate.
  - apply Nat.lt_0_succ.
  - intros k Hk. discriminate Hk.
  - intros i Hi. discriminate Hi.
  - exact Em.
  - apply (served_serving demo_requests demo_requests_ok s s s' true (serving_none s)). exact Es.
Defined.
