(* ===== verification/Wire.v ===== *)
(** * The IDL's buffer encoding ([libmind/src/idl/codec.rs])

    The trait [Wire] as a class of operations with its laws as a second class: integers, booleans, bounded text, bounded
    lists of any type of the class. A value's payload is its one encoding: it fits the type's [MAX], is written whole or
    not at all, and a payload decodes (with nothing left over) exactly when it is the encoding of the value. *)
From S2P Require Import Prelude Text.
Local Open Scope nat_scope.

Record Writer : Type := mkWriter { wbuffer : bytes; wat : nat }.
Record Reader : Type := mkReader { rbuffer : bytes; rat : nat }.

(** [Writer::bytes], [Reader::bytes], [Reader::done]. *)
Definition put_bytes (w : Writer) (bs : bytes) : option Writer :=
  let e := wat w + length bs in
  if e <=? length (wbuffer w) then Some (mkWriter (take (wat w) (wbuffer w) ++ bs ++ drop e (wbuffer w)) e) else None.
Definition get_bytes (r : Reader) (count : nat) : option (bytes * Reader) :=
  let e := rat r + count in
  if e <=? length (rbuffer r) then Some (slice (rbuffer r) (rat r) count, mkReader (rbuffer r) e) else None.
Definition reader_done (r : Reader) : bool := rat r =? length (rbuffer r).

(** The trait: [MAX], [encode] and [decode]. *)
Class Wire (T : Type) : Type := { MAX : nat; encode : T -> Writer -> option Writer; decode : Reader -> option (T * Reader) }.

(** What a type of the trait promises: the values it can hold and the bytes of each. *)
Class WireLaws (T : Type) `{!Wire T} : Type := {
  holds_value : T -> Prop;
  image : T -> bytes;
  image_max : forall t, holds_value t -> length (image t) <= MAX (T:=T);
  image_bytes : forall t, holds_value t -> Forall is_byte (image t);
  encode_image : forall t w, holds_value t -> encode t w = put_bytes w (image t);
  decode_image : forall t pre rest, holds_value t -> decode (mkReader (pre ++ image t ++ rest) (length pre)) = Some (t, mkReader (pre ++ image t ++ rest) (length pre + length (image t)));
  decode_only : forall buf at_ t r, Forall is_byte buf -> decode (mkReader buf at_) = Some (t, r) ->
    holds_value t /\ r = mkReader buf (at_ + length (image t)) /\ at_ + length (image t) <= length buf /\ slice buf at_ (length (image t)) = image t }.

(** ** Integers and booleans *)
Definition uint_wire (n : nat) : Wire Z :=
  {| MAX := n;
     encode v w := put_bytes w (to_le n v);
     decode r := '(bs, r) ← get_bytes r n; Some (of_le bs, r) |}.
Definition bool_byte (b : bool) : Z := if b then 1 else 0.
#[global] Instance bool_wire : Wire bool :=
  {| MAX := 1;
     encode v w := put_bytes w [bool_byte v];
     decode r := '(bs, r) ← get_bytes r 1; match bs with [0%Z] => Some (false, r) | [1%Z] => Some (true, r) | _ => None end |}.

(** Unsigned integers of a width, each type of its own. *)
Record uint (n : nat) : Type := mkUint { value : Z }.
Arguments mkUint {n} _.
Arguments value {n} _.
#[global] Instance uint_n_wire n : Wire (uint n) :=
  {| MAX := n;
     encode v w := encode (Wire := uint_wire n) (value v) w;
     decode r := '(v, r) ← decode (Wire := uint_wire n) r; Some (mkUint v, r) |}.
Abbreviation u16 := (uint 2).

(** ** [Text<N>] *)
Record WText (N : nat) : Type := mkText { tlen : Z; tbytes : bytes }.
Arguments mkText {N} _ _.
Arguments tlen {N} _.
Arguments tbytes {N} _.

(** [Text::new]. *)
Definition text_new {N} (text : bytes) : option (WText N) :=
  if N <? length text then None else Some (mkText (wrap16 (Z.of_nat (length text))) (text ++ replicate (N - length text) 0%Z)).
(** [as_str]. *)
Definition as_str {N} (t : WText N) : bytes :=
  let bs := take (Z.to_nat (tlen t)) (tbytes t) in match utf8 bs with Some _ => bs | None => [] end.

#[global] Instance text_wire N : Wire (WText N) :=
  {| MAX := 2 + N;
     encode t w := w ← encode (mkUint (n:=2) (tlen t)) w; put_bytes w (take (Z.to_nat (tlen t)) (tbytes t));
     decode r :=
       '(v, r) ← decode (T:=u16) r;
       let n := Z.to_nat (value v) in
       if N <? n then None else
       '(bs, r) ← get_bytes r n;
       _ ← utf8 bs;
       t ← text_new bs;
       Some (t, r) |}.

(** ** [List<T, N>] *)
Record WList (T : Type) (N : nat) : Type := mkList { llen : nat; items : list T }.
Arguments mkList {T N} _ _.
Arguments llen {T N} _.
Arguments items {T N} _.

Section lists.
Context {T : Type} `{!Wire T} (dflt : T) (N : nat).

(** [from_slice], [push], [as_slice]. *)
Definition from_slice (l : list T) : option (WList T N) :=
  if N <? length l then None else Some (mkList (length l) (l ++ replicate (N - length l) dflt)).
Definition push (l : WList T N) (x : T) : bool * WList T N :=
  if llen l =? N then (false, l) else (true, mkList (llen l + 1) (<[llen l := x]> (items l))).
Definition as_slice (l : WList T N) : list T := take (llen l) (items l).

(** [encode_slice]. *)
Fixpoint encode_items (l : list T) (w : Writer) : option Writer :=
  match l with
  | [] => Some w
  | x :: l => w ← encode x w; encode_items l w
  end.
Definition encode_slice (l : list T) (w : Writer) : option Writer :=
  if N <? length l then None else
  w ← encode (mkUint (n:=2) (wrap16 (Z.of_nat (length l)))) w; encode_items l w.

(** The items of a decoded list. *)
Fixpoint decode_items (n : nat) (r : Reader) : option (list T * Reader) :=
  match n with
  | O => Some ([], r)
  | S n => '(x, r) ← decode r; '(l, r) ← decode_items n r; Some (x :: l, r)
  end.
#[global] Instance list_wire : Wire (WList T N) :=
  {| MAX := 2 + N * MAX (T:=T);
     encode l w := encode_slice (as_slice l) w;
     decode r :=
       '(v, r) ← decode (T:=u16) r;
       let n := Z.to_nat (value v) in
       if N <? n then None else
       '(l, r) ← decode_items n r;
       Some (mkList n (l ++ replicate (N - n) dflt), r) |}.
End lists.

(** [encode_bytes], [decode_bytes], [encode_str]. *)
Definition encode_bytes (N : nat) (bs : bytes) (w : Writer) : option Writer :=
  if N <? length bs then None else w ← encode (mkUint (n:=2) (wrap16 (Z.of_nat (length bs)))) w; put_bytes w bs.
Definition decode_bytes (N : nat) (r : Reader) : option (bytes * Reader) :=
  '(v, r) ← decode (T:=u16) r; let n := Z.to_nat (value v) in if N <? n then None else get_bytes r n.
Definition encode_str (N : nat) (text : bytes) (w : Writer) : option Writer := encode_bytes N text w.

(** ** The laws *)
Lemma put_app w a b : (w' ← put_bytes w a; put_bytes w' b) = put_bytes w (a ++ b).
Proof.
  unfold put_bytes. rewrite length_app. destruct (Nat.leb_spec (wat w + length a) (length (wbuffer w))) as [H|H].
  - cbn [mbind option_bind wat wbuffer]. assert (length (take (wat w) (wbuffer w) ++ a ++ drop (wat w + length a) (wbuffer w)) = length (wbuffer w)) as ->.
    { rewrite !length_app, length_take, length_drop. lia. }
    rewrite Nat.add_assoc. case_match; [|done]. do 2 f_equal. rewrite <- app_assoc.
    assert (length (take (wat w) (wbuffer w)) = wat w) as Hl by (rewrite length_take; lia).
    rewrite (take_app_ge (take (wat w) (wbuffer w))), Hl by lia. replace (wat w + length a - wat w) with (length a) by lia.
    rewrite take_app_length, (drop_app_ge (take (wat w) (wbuffer w))), Hl by lia. rewrite drop_app_ge by lia. rewrite drop_drop, <- !app_assoc. do 4 f_equal. lia.
  - cbn. rewrite (proj2 (Nat.leb_gt _ _)); [done|lia].
Qed.

Lemma put_fits w bs w' : put_bytes w bs = Some w' -> wat w' <= length (wbuffer w').
Proof.
  unfold put_bytes. destruct (Nat.leb_spec (wat w + length bs) (length (wbuffer w))); [|done]. intros [= <-]. cbn [wat wbuffer].
  rewrite !length_app, length_take, length_drop. lia.
Qed.

Lemma put_nil w : wat w <= length (wbuffer w) -> put_bytes w [] = Some w.
Proof. intros H. unfold put_bytes. cbn. rewrite Nat.add_0_r, (proj2 (Nat.leb_le _ _)), take_drop by done. by destruct w. Qed.

Lemma get_at pre a rest : get_bytes (mkReader (pre ++ a ++ rest) (length pre)) (length a) = Some (a, mkReader (pre ++ a ++ rest) (length pre + length a)).
Proof. unfold get_bytes. cbn [rbuffer rat]. rewrite (proj2 (Nat.leb_le _ _)) by (rewrite !length_app; lia). by rewrite slice_mid. Qed.

Lemma get_only buf at_ n bs r : get_bytes (mkReader buf at_) n = Some (bs, r) ->
  r = mkReader buf (at_ + n) /\ at_ + n <= length buf /\ bs = slice buf at_ n /\ length bs = n.
Proof. unfold get_bytes. cbn. destruct (Nat.leb_spec (at_ + n) (length buf)); [|done]. intros [= <- <-]. rewrite slice_length by lia. done. Qed.

#[global, refine] Instance uint_laws n : WireLaws (uint n) :=
  {| holds_value v := (0 <= value v < 256 ^ Z.of_nat n)%Z; image v := to_le n (value v) |}.
Proof.
  - intros t _. by rewrite length_to_le.
  - intros t _. apply to_le_bytes.
  - done.
  - intros t pre rest Ht. pose proof (get_at pre (to_le n (value t)) rest) as H. rewrite length_to_le in *. cbn -[get_bytes]. rewrite H. cbn. rewrite of_to_le by done. by destruct t.
  - intros buf at_ t r Hb. cbn -[get_bytes]. destruct (get_bytes _ n) as [[bs r']|] eqn:E; [|done]. cbn. intros [= <- <-]. apply get_only in E as (-> & Hl & -> & Hn).
    cbn [value]. rewrite length_to_le. split; [|split; [done|split; [done|]]].
    + pose proof (of_le_bound (slice buf at_ n) (forall_slice _ _ _ _ Hb)) as H. by rewrite Hn in H.
    + rewrite <- Hn at 2. by rewrite to_of_le by (by apply forall_slice).
Defined.

#[global, refine] Instance bool_laws : WireLaws bool := {| holds_value _ := True; image b := [bool_byte b] |}.
Proof.
  - done.
  - intros [] _; repeat constructor; unfold is_byte; cbn; lia.
  - done.
  - intros t pre rest _. pose proof (get_at pre [bool_byte t] rest) as H. cbn -[get_bytes app]. cbn -[get_bytes app] in H. rewrite H. by destruct t.
  - intros buf at_ t r Hb. cbn -[get_bytes]. destruct (get_bytes _ 1) as [[bs r']|] eqn:E; [|done]. apply get_only in E as (-> & Hl & Hs & _). cbn [mbind option_bind].
    intros H. assert (bs = [bool_byte t] /\ r = mkReader buf (at_ + 1)) as [Hbs ->].
    { destruct bs as [|[|[]|] [|]]; try discriminate H; injection H as <- <-; done. }
    rewrite Hbs in Hs. split_and!; [done|done|done|done].
Defined.

(** A length and what it counts. *)
Section counted.
Context (n : nat) (Hn : (Z.of_nat n < W16)%Z).

Lemma count_holds : holds_value (mkUint (n:=2) (wrap16 (Z.of_nat n))).
Proof. cbn. unfold wrap16. apply Z.mod_pos_bound. done. Qed.

Lemma count_value : wrap16 (Z.of_nat n) = Z.of_nat n.
Proof. unfold wrap16. apply Z.mod_small. lia. Qed.

Definition count_image : bytes := image (mkUint (n:=2) (Z.of_nat n)).

Lemma count_length : length count_image = 2.
Proof. apply length_to_le. Qed.

Lemma encode_count w : encode (mkUint (n:=2) (wrap16 (Z.of_nat n))) w = put_bytes w count_image.
Proof. rewrite encode_image by apply count_holds. unfold count_image. by rewrite count_value. Qed.

Lemma decode_count pre rest : decode (mkReader (pre ++ count_image ++ rest) (length pre)) =
  Some (mkUint (n:=2) (Z.of_nat n), mkReader (pre ++ count_image ++ rest) (length pre + 2)).
Proof. unfold count_image. rewrite decode_image by (cbn; unfold W16 in Hn; lia). f_equal. Qed.
End counted.

(** A count that is read is the count of its bytes. *)
Lemma decode_count_only buf at_ v r : Forall is_byte buf -> decode (T:=u16) (mkReader buf at_) = Some (v, r) ->
  let n := Z.to_nat (value v) in
  (Z.of_nat n < W16)%Z /\ value v = Z.of_nat n /\ r = mkReader buf (at_ + 2) /\ at_ + 2 <= length buf /\ slice buf at_ 2 = count_image n.
Proof.
  intros Hb H. apply decode_only in H as (Hv & Hr & Hl & Hs); [|done]. change (image v) with (to_le 2 (value v)) in *. rewrite length_to_le in *.
  change (0 <= value v < 256 ^ 2)%Z in Hv. cbn zeta. rewrite Z2Nat.id by lia. split_and!; [unfold W16; lia|done|done|done|].
  rewrite Hs. unfold count_image. cbn [image uint_laws value]. by rewrite Z2Nat.id by lia.
Qed.

Lemma slice_split {A} (l : list A) i n m : i + n <= length l -> slice l i (n + m) = slice l i n ++ slice l (i + n) m.
Proof.
  intros H. unfold slice. rewrite <- drop_drop, <- (take_drop n (drop i l)) at 1.
  rewrite take_app_ge by (rewrite length_take, length_drop; lia). rewrite length_take, length_drop. do 2 f_equal. lia.
Qed.

(** [Text<N>]: a UTF-8 text of at most [N] bytes in its array, zeros after it. *)
Section text_laws.
Context (N : nat) (HN : (Z.of_nat N < W16)%Z).

Definition text_ok (t : WText N) : Prop := exists s, length s <= N /\ Forall is_byte s /\ utf8 s <> None /\ t = mkText (Z.of_nat (length s)) (s ++ replicate (N - length s) 0%Z).

Lemma text_new_ok s : length s <= N -> text_new (N:=N) s = Some (mkText (Z.of_nat (length s)) (s ++ replicate (N - length s) 0%Z)).
Proof. intros H. unfold text_new. rewrite (proj2 (Nat.ltb_ge _ _)) by done. by rewrite count_value by lia. Qed.

Definition text_image (t : WText N) : bytes := count_image (Z.to_nat (tlen t)) ++ take (Z.to_nat (tlen t)) (tbytes t).

Lemma text_image_of s : length s <= N -> text_image (mkText (Z.of_nat (length s)) (s ++ replicate (N - length s) 0%Z)) = count_image (length s) ++ s.
Proof. intros H. unfold text_image. cbn [tlen tbytes]. by rewrite Nat2Z.id, take_app_length. Qed.

#[refine] Instance text_laws : WireLaws (WText N) := {| holds_value := text_ok; image := text_image |}.
Proof.
  - intros t (s & Hs & _ & _ & ->). rewrite text_image_of, length_app, count_length by done. cbn. lia.
  - intros t (s & Hs & Hb & _ & ->). rewrite text_image_of by done. apply Forall_app_2; [apply to_le_bytes|done].
  - intros t w (s & Hs & Hb & _ & ->). rewrite text_image_of by done. cbn [encode text_wire tlen tbytes].
    rewrite <- (count_value (length s)) by lia. rewrite encode_count by lia. rewrite count_value by lia. by rewrite Nat2Z.id, take_app_length, put_app.
  - intros t pre rest (s & Hs & Hb & Hu & ->). rewrite text_image_of by done. cbn [decode text_wire]. rewrite <- !app_assoc, decode_count by lia. cbn [mbind option_bind value].
    rewrite Nat2Z.id, (proj2 (Nat.ltb_ge _ _)) by done. pose proof (get_at (pre ++ count_image (length s)) s rest) as H. rewrite <- !app_assoc, length_app, count_length in H. rewrite H.
    cbn [mbind option_bind]. destruct (utf8 s); [|done]. cbn [mbind option_bind]. rewrite text_new_ok by done. cbn [mbind option_bind]. do 3 f_equal. rewrite length_app, count_length. lia.
  - intros buf at_ t r Hb. cbn [decode text_wire]. destruct (decode (T:=u16) (mkReader buf at_)) as [[v r1]|] eqn:E; [|done]. apply decode_count_only in E as (H1 & H2 & -> & H3 & H4); [|done].
    cbn [mbind option_bind]. set (n := Z.to_nat (value v)) in *. destruct (Nat.ltb_spec N n); [done|]. destruct (get_bytes _ n) as [[bs r2]|] eqn:G; [|done].
    apply get_only in G as (-> & G1 & -> & G2). cbn [mbind option_bind]. destruct (utf8 (slice buf (at_ + 2) n)) eqn:Hu; [|done]. cbn [mbind option_bind].
    rewrite text_new_ok by lia. cbn [mbind option_bind]. intros [= <- <-]. rewrite text_image_of, G2 by lia. rewrite length_app, count_length, G2. split_and!.
    + exists (slice buf (at_ + 2) n). rewrite G2. split_and!; [lia|by apply forall_slice|by rewrite Hu|done].
    + f_equal. lia.
    + lia.
    + by rewrite slice_split, H4 by lia.
Defined.
End text_laws.

(** [List<T, N>] over any type of the class: at most [N] values, the default after them. *)
Section list_laws.
Context {T : Type} `{WT : !Wire T} `{LT : !WireLaws T} (dflt : T) (N : nat) (HN : (Z.of_nat N < W16)%Z).

Definition items_image (l : list T) : bytes := concat (map image l).
Definition list_ok (t : WList T N) : Prop := exists l, length l <= N /\ Forall holds_value l /\ t = mkList (length l) (l ++ replicate (N - length l) dflt).
Definition list_image (t : WList T N) : bytes := count_image (llen t) ++ items_image (as_slice N t).

Lemma list_image_of l : list_image (mkList (length l) (l ++ replicate (N - length l) dflt)) = count_image (length l) ++ items_image l.
Proof. unfold list_image, as_slice. cbn [llen items]. by rewrite take_app_length. Qed.

Lemma items_max l : Forall holds_value l -> length (items_image l) <= length l * MAX (T:=T).
Proof.
  induction 1 as [|x l Hx _ IH]; [cbn; lia|]. unfold items_image in *. cbn [map concat length]. rewrite length_app. pose proof (image_max x Hx). lia.
Qed.

Lemma encode_items_image l w : Forall holds_value l -> wat w <= length (wbuffer w) -> encode_items l w = put_bytes w (items_image l).
Proof.
  intros Hl. revert w. induction Hl as [|x l Hx _ IH]; intros w Hw; [by rewrite put_nil|]. cbn [encode_items]. rewrite encode_image by done.
  unfold items_image. cbn [map concat]. rewrite <- put_app. destruct (put_bytes w (image x)) as [w'|] eqn:E; [|done]. cbn [mbind option_bind]. apply IH. by eapply put_fits.
Qed.

Lemma decode_items_image l pre rest : Forall holds_value l ->
  decode_items (length l) (mkReader (pre ++ items_image l ++ rest) (length pre)) = Some (l, mkReader (pre ++ items_image l ++ rest) (length pre + length (items_image l))).
Proof.
  intros Hl. revert pre. induction Hl as [|x l Hx _ IH]; intros pre; [cbn; by rewrite Nat.add_0_r|]. unfold items_image in *. cbn [length decode_items map concat].
  rewrite <- app_assoc, decode_image by done. cbn [mbind option_bind]. specialize (IH (pre ++ image x)). rewrite <- !app_assoc, length_app in IH. rewrite IH. cbn [mbind option_bind].
  do 3 f_equal. rewrite length_app. lia.
Qed.

Lemma decode_items_only n buf at_ l r : Forall is_byte buf -> decode_items n (mkReader buf at_) = Some (l, r) -> at_ <= length buf ->
  length l = n /\ Forall holds_value l /\ r = mkReader buf (at_ + length (items_image l)) /\ at_ + length (items_image l) <= length buf /\ slice buf at_ (length (items_image l)) = items_image l.
Proof.
  intros Hb. revert at_ l r. induction n as [|n IH]; intros at_ l r H Ha; cbn [decode_items] in H.
  - injection H as <- <-. cbn. rewrite Nat.add_0_r. split_and!; [done|done|done|lia|done].
  - destruct (decode (mkReader buf at_)) as [[x r1]|] eqn:E; [|done]. apply decode_only in E as (Hx & -> & Hl & Hs); [|done]. cbn [mbind option_bind] in H.
    destruct (decode_items n _) as [[l2 r2]|] eqn:E2; [|done]. cbn [mbind option_bind] in H. injection H as <- <-. destruct (IH _ _ _ E2 Hl) as (I1 & I2 & -> & I4 & I5).
    unfold items_image in *. cbn [map concat length]. rewrite length_app, Nat.add_assoc. split_and!; [lia|by constructor|done|done|]. by rewrite slice_split, Hs, I5 by done.
Qed.

#[refine] Instance list_laws : WireLaws (WList T N) (Wire0 := list_wire dflt N) := {| holds_value := list_ok; image := list_image |}.
Proof.
  - intros t (l & Hl & Hv & ->). rewrite list_image_of, length_app, count_length. pose proof (items_max l Hv). cbn.
    assert (length l * MAX (T:=T) <= N * MAX (T:=T)) by (by apply Nat.mul_le_mono_r). lia.
  - intros t (l & Hl & Hv & ->). rewrite list_image_of. apply Forall_app_2; [apply to_le_bytes|]. unfold items_image. apply Forall_concat, Forall_map.
    eapply Forall_impl; [exact Hv|]. intros x Hx. by apply image_bytes.
  - intros t w (l & Hl & Hv & ->). rewrite list_image_of. cbn [encode list_wire]. unfold as_slice, encode_slice. cbn [llen items]. rewrite take_app_length.
    rewrite (proj2 (Nat.ltb_ge _ _)), encode_count by lia. rewrite <- put_app. destruct (put_bytes w _) as [w'|] eqn:E; [|done]. cbn [mbind option_bind].
    apply encode_items_image; [done|]. by eapply put_fits.
  - intros t pre rest (l & Hl & Hv & ->). rewrite list_image_of. cbn [decode list_wire]. rewrite <- !app_assoc, decode_count by lia. cbn [mbind option_bind value].
    rewrite Nat2Z.id, (proj2 (Nat.ltb_ge _ _)) by done. pose proof (decode_items_image l (pre ++ count_image (length l)) rest Hv) as H. rewrite <- !app_assoc, length_app, count_length in H.
    rewrite H. cbn [mbind option_bind]. do 3 f_equal. rewrite length_app, count_length. lia.
  - intros buf at_ t r Hb. cbn [decode list_wire]. destruct (decode (T:=u16) (mkReader buf at_)) as [[v r1]|] eqn:E; [|done]. apply decode_count_only in E as (H1 & H2 & -> & H3 & H4); [|done].
    cbn [mbind option_bind]. set (n := Z.to_nat (value v)) in *. destruct (Nat.ltb_spec N n); [done|]. destruct (decode_items n _) as [[l r2]|] eqn:G; [|done].
    apply decode_items_only in G as (G1 & G2 & -> & G4 & G5); [|done|done]. cbn [mbind option_bind]. intros [= <- <-]. rewrite <- G1 in *. rewrite list_image_of, length_app, count_length, Nat.add_assoc.
    split_and!; [|done|done|].
    + exists l. split_and!; [done|done|done].
    + by rewrite slice_split, H4, G5 by lia.
Defined.
End list_laws.

(** [decode_bytes] reads what [encode_bytes] wrote. *)
Lemma bytes_roundtrip N bs pre rest : (Z.of_nat N < W16)%Z -> length bs <= N ->
  (forall w, encode_bytes N bs w = put_bytes w (count_image (length bs) ++ bs)) /\
  decode_bytes N (mkReader (pre ++ (count_image (length bs) ++ bs) ++ rest) (length pre)) =
    Some (bs, mkReader (pre ++ (count_image (length bs) ++ bs) ++ rest) (length pre + length (count_image (length bs) ++ bs))).
Proof.
  intros HN Hl. split.
  - intros w. unfold encode_bytes. rewrite (proj2 (Nat.ltb_ge _ _)), encode_count by lia. apply put_app.
  - unfold decode_bytes. rewrite <- !app_assoc, decode_count by lia. cbn [mbind option_bind value]. rewrite Nat2Z.id, (proj2 (Nat.ltb_ge _ _)) by done.
    pose proof (get_at (pre ++ count_image (length bs)) bs rest) as H. rewrite <- !app_assoc, length_app, count_length in H. rewrite H. do 3 f_equal. rewrite length_app, count_length. lia.
Qed.

(** A whole payload, decoded as the generated stubs do: the value, and nothing left over. *)
Definition decode_payload {T} `{!Wire T} (payload : bytes) : option T :=
  '(t, r) ← decode (mkReader payload 0); if reader_done r then Some t else None.
Definition encode_payload {T} `{!Wire T} (t : T) (room : nat) : option bytes :=
  w ← encode t (mkWriter (replicate room 0%Z) 0); Some (take (wat w) (wbuffer w)).

Section payloads.
Context {T : Type} `{LT : WireLaws T}.

Lemma payload_iff payload t : Forall is_byte payload -> decode_payload payload = Some t <-> holds_value t /\ payload = image t.
Proof.
  intros Hb. unfold decode_payload. split.
  - destruct (decode _) as [[t' r]|] eqn:E; [|done]. apply decode_only in E as (Hv & -> & Hl & Hs); [|done]. cbn [mbind option_bind]. unfold reader_done. cbn [rat rbuffer Nat.add] in *.
    destruct (Nat.eqb_spec (length (image t')) (length payload)) as [He|]; [|done]. intros [= <-]. split; [done|]. rewrite <- Hs, He. unfold slice. by rewrite drop_0, take_ge.
  - intros [Hv ->]. pose proof (decode_image t [] [] Hv) as H. cbn [app length Nat.add] in H. rewrite app_nil_r in H. rewrite H. cbn [mbind option_bind]. unfold reader_done. cbn. by rewrite Nat.eqb_refl.
Qed.

Lemma encode_payload_image t room : holds_value t -> MAX (T:=T) <= room -> encode_payload t room = Some (image t).
Proof.
  intros Hv Hr. unfold encode_payload. rewrite encode_image by done. unfold put_bytes. cbn [wat wbuffer Nat.add]. pose proof (image_max t Hv).
  rewrite (proj2 (Nat.leb_le _ _)) by (rewrite length_replicate; lia). cbn [mbind option_bind wat wbuffer take app].
  rewrite take_0. cbn [app]. by rewrite take_app_length.
Qed.
End payloads.

(** an IDL payload is its value. For every type of the class (integers, booleans, bounded text, bounded lists of
    any of them): a buffer of [MAX] bytes always holds the encoding, and a payload is accepted exactly when it is, byte for
    byte, the encoding of the value it is decoded to. *)
Theorem payload_exact {T} `{LT : WireLaws T} (t : T) (payload : bytes) : holds_value t -> Forall is_byte payload ->
  encode_payload t (MAX (T:=T)) = Some (image t) /\ length (image t) <= MAX (T:=T) /\ decode_payload (image t) = Some t /\
  forall t', decode_payload payload = Some t' -> payload = image t' /\ encode_payload t' (MAX (T:=T)) = Some payload.
Proof.
  intros Hv Hb. split_and!; [by apply encode_payload_image|by apply image_max|apply payload_iff; [by apply image_bytes|done]|].
  intros t' [Ht ->]%payload_iff; [|done]. split; [done|]. by apply encode_payload_image.
Qed.

#[local] Existing Instance text_laws.
#[local] Existing Instance list_laws.

Definition demo_names : WList (WText 5) 3 := mkList 2 [mkText 2 [104; 105; 0; 0; 0]%Z; mkText 0 (replicate 5 0%Z); mkText 0 (replicate 5 0%Z)].
Definition demo_empty : WText 5 := mkText 0 (replicate 5 0%Z).

Lemma payload_exact_witness :
  decode_payload (Wire0 := list_wire demo_empty 3) [2; 0; 2; 0; 104; 105; 0; 0]%Z = Some demo_names.
Proof.
  assert ((Z.of_nat 5 < W16)%Z) as H5 by (unfold W16; lia). assert ((Z.of_nat 3 < W16)%Z) as H3 by (unfold W16; lia).
  assert (list_ok (LT := text_laws 5 H5) demo_empty 3 demo_names) as Hv.
  { exists [mkText 2 [104; 105; 0; 0; 0]%Z; mkText 0 (replicate 5 0%Z)]. split_and!; [cbn; lia| |reflexivity]. repeat constructor.
    - exists [104; 105]%Z. split_and!; [cbn; lia|repeat constructor; unfold is_byte; lia|done|reflexivity].
    - exists []. split_and!; [cbn; lia|done|done|reflexivity]. }
  exact (proj1 (proj2 (proj2 (payload_exact (LT := list_laws (LT := text_laws 5 H5) demo_empty 3 H3) demo_names [] Hv (Forall_nil_2 _))))).
Defined.
