(* ===== verification/Pattern.v ===== *)
(** * Name masks and simple regular expressions ([libmind/src/mask.rs], [libmind/src/pattern.rs])

    Text is its characters here (code points); lower case ([char::to_lowercase], one or more characters) is a parameter.
    [glob] walks a mask and a name with one point to go back to; [Pattern::new] compiles an expression, [is_match]
    backtracks. The theorems: [is_match] accepts exactly the lines that hold a word of the expression's language; [glob]
    accepts exactly the names a mask describes when the name has no [*] of its own, and a name with one is refused
    wrongly. *)
From S2P Require Import Prelude Text Outcome.
Local Open Scope nat_scope.

Definition STAR : Z := 42.
Definition QUESTION : Z := 63.

Section letters.
Context (to_lower : Z -> list Z).

(** ** Masks *)
Definition same (a b : Z) : bool := (a =? b)%Z || bool_decide (to_lower a = to_lower b).

(** [glob]: what is left of the mask and of the name; after a star, the mask behind it and the name from where it was
    tried. The bound on the steps is never met ([glob_terminates]). *)
Record Glob : Type := mkGlob { gi : list Z; gj : list Z; star : option (list Z); gmark : list Z }.
Definition all_stars (mask : list Z) : bool := forallb (fun m => (m =? STAR)%Z) mask.
Definition glob_step (g : Glob) : Glob + bool :=
  match gj g with
  | [] => inr (all_stars (gi g))
  | n :: j =>
      let retry := match star g with
                   | Some s => inl (mkGlob s (tail (gmark g)) (Some s) (tail (gmark g)))
                   | None => inr false
                   end in
      match gi g with
      | m :: i => if (m =? QUESTION)%Z || same m n then inl (mkGlob i j (star g) (gmark g))
                  else if (m =? STAR)%Z then inl (mkGlob i (gj g) (Some i) (gj g))
                  else retry
      | [] => retry
      end
  end.
Fixpoint glob_loop (fuel : nat) (g : Glob) : option bool :=
  match fuel with
  | O => None
  | S fuel => match glob_step g with inl g => glob_loop fuel g | inr b => Some b end
  end.
Definition glob (mask name : list Z) : option bool :=
  glob_loop (S ((length name + 1) * (length mask + 1))) (mkGlob mask name None name).

(** [matches]: masks between commas, semicolons and spaces; a mask of a star, a point and a star matches everything. *)
Definition is_separator (c : Z) : bool := (c =? 44)%Z || (c =? 59)%Z || (c =? 32)%Z.
Fixpoint split_masks (cur : list Z) (s : list Z) : list (list Z) :=
  match s with
  | [] => [cur]
  | c :: s => if is_separator c then cur :: split_masks [] s else split_masks (cur ++ [c]) s
  end.
Definition matches (masks name : list Z) : bool :=
  existsb (fun m => bool_decide (m = [STAR; 46%Z; STAR]) || default false (glob m name)) (filter (fun m => m <> []) (split_masks [] masks)).

(** ** Regular expressions *)
Inductive PatternError : Type := UnclosedClass | TrailingBackslash | NothingToRepeat | TooLong.
Inductive Atom : Type := Char (c : Z) | Any | Class_ (ranges : list (Z * Z)) (negated : bool).
Record Piece : Type := mkPiece { atom : Atom; repeat_ : bool }.
Record Pattern : Type := mkPattern { pieces : list Piece; anchored_start : bool; anchored_end : bool; fold_case : bool }.
Definition MAX_PIECES : nat := 256.

Definition fold_char (c : Z) (fold : bool) : Z := if fold then hd c (to_lower c) else c.

(** A class after its bracket: its ranges and what follows the closing bracket. *)
Fixpoint class_loop (fold : bool) (fuel : nat) (first : bool) (ranges : list (Z * Z)) (s : list Z) : outcome PatternError (list (Z * Z) * list Z) :=
  match fuel with
  | O => Crash
  | S fuel =>
      match s with
      | [] => Refuse UnclosedClass
      | c :: rest =>
          if (c =? 93)%Z && negb first then Done (ranges, rest)
          else
            let low := fold_char c fold in
            match rest with
            | d :: e :: rest' =>
                if (d =? 45)%Z && negb (e =? 93)%Z then class_loop fold fuel false (ranges ++ [(low, fold_char e fold)]) rest'
                else class_loop fold fuel false (ranges ++ [(low, low)]) rest
            | _ => class_loop fold fuel false (ranges ++ [(low, low)]) rest
            end
      end
  end.

Definition set_repeat (ps : list Piece) : outcome PatternError (list Piece) :=
  match last ps with
  | None => Refuse NothingToRepeat
  | Some p => if repeat_ p then Refuse NothingToRepeat else Done (take (length ps - 1) ps ++ [mkPiece (atom p) true])
  end.

Definition push_piece (ps : list Piece) (a : Atom) : outcome PatternError (list Piece) :=
  let ps := ps ++ [mkPiece a false] in if MAX_PIECES <? length ps then Refuse TooLong else Done ps.

(** The loop of [new] over the characters between the anchors; running out of [fuel] is [Crash], which never happens. *)
Fixpoint pieces_loop (fold : bool) (fuel : nat) (ps : list Piece) (s : list Z) : outcome PatternError (list Piece) :=
  match fuel with
  | O => Crash
  | S fuel =>
      match s with
      | [] => Done ps
      | c :: rest =>
          if (c =? 46)%Z then (ps ← push_piece ps Any; pieces_loop fold fuel ps rest)
          else if (c =? STAR)%Z then (ps ← set_repeat ps; pieces_loop fold fuel ps rest)
          else if (c =? 92)%Z then
            match rest with
            | [] => Refuse TrailingBackslash
            | d :: rest => ps ← push_piece ps (Char (fold_char d fold)); pieces_loop fold fuel ps rest
            end
          else if (c =? 91)%Z then
            let '(negated, body) := match rest with d :: r => if (d =? 94)%Z then (true, r) else (false, rest) | [] => (false, rest) end in
            '(ranges, rest) ← class_loop fold (S (length body)) true [] body;
            ps ← push_piece ps (Class_ ranges negated);
            pieces_loop fold fuel ps rest
          else (ps ← push_piece ps (Char (fold_char c fold)); pieces_loop fold fuel ps rest)
      end
  end.

(** [Pattern::new]. *)
Definition new (chars : list Z) (fold : bool) : outcome PatternError Pattern :=
  let start := bool_decide (head chars = Some 94%Z) in
  let i := if start then 1 else 0 in
  let n := length chars in
  let at_end := (i <? n) && (nth (n - 1) chars 0 =? 36)%Z && negb ((2 <=? n) && (nth (n - 2) chars 0 =? 92)%Z && (i <=? n - 2)) in
  let e := if at_end then n - 1 else n in
  let body := slice chars i (e - i) in
  ps ← pieces_loop fold (S (length body)) [] body;
  Done (mkPattern ps start at_end fold).

(** [one], [here] and [is_match]. *)
Definition one (a : Atom) (c : Z) : bool :=
  match a with
  | Char want => (want =? c)%Z
  | Any => true
  | Class_ ranges negated => xorb (existsb (fun r => (r.1 <=? c)%Z && (c <=? r.2)%Z) ranges) negated
  end.
Fixpoint run_of (a : Atom) (s : list Z) : nat := match s with [] => 0 | c :: s => if one a c then S (run_of a s) else 0 end.
Fixpoint here (end_ : bool) (ps : list Piece) (s : list Z) : bool :=
  match ps with
  | [] => negb end_ || bool_decide (s = [])
  | p :: ps =>
      if repeat_ p then existsb (fun n => here end_ ps (drop n s)) (rev (seq 0 (S (run_of (atom p) s))))
      else match s with [] => false | c :: s => one (atom p) c && here end_ ps s end
  end.
Definition is_match (p : Pattern) (line : list Z) : bool :=
  let s := map (fun c => fold_char c (fold_case p)) line in
  if anchored_start p then here (anchored_end p) (pieces p) s
  else existsb (fun at_ => here (anchored_end p) (pieces p) (drop at_ s)) (seq 0 (S (length s))).

(** Compiling ends: the bounds of the loops are never met. *)
Lemma class_loop_ends fold fuel first ranges s : length s < fuel ->
  safe (class_loop fold fuel first ranges s) /\ forall r rest, class_loop fold fuel first ranges s = Done (r, rest) -> length rest <= length s.
Proof.
  revert first ranges s. induction fuel as [|fuel IH]; intros first ranges s Hf; [lia|]. cbn [class_loop]. destruct s as [|c rest]; [done|]. cbn [length] in *.
  assert (forall rs x, length x <= length rest -> safe (class_loop fold fuel false rs x) /\ (forall r y, class_loop fold fuel false rs x = Done (r, y) -> length y <= S (length rest))) as Hrec.
  { intros rs x Hx. destruct (IH false rs x ltac:(lia)) as [I1 I2]. split; [done|]. intros r y H. specialize (I2 _ _ H). lia. }
  destruct ((c =? 93)%Z && negb first); [split; [done|]; intros r y [= <- <-]; lia|].
  destruct rest as [|d [|e rest']]; [by apply Hrec|by apply Hrec|]. destruct ((d =? 45)%Z && negb (e =? 93)%Z); apply Hrec; cbn; lia.
Qed.

Lemma pieces_loop_ends fold fuel ps s : length s < fuel -> safe (pieces_loop fold fuel ps s).
Proof.
  revert ps s. induction fuel as [|fuel IH]; intros ps s Hf; [lia|]. cbn [pieces_loop]. destruct s as [|c rest]; [done|]. cbn [length] in Hf.
  assert (forall a x, length x < fuel -> safe (ps' ← push_piece ps a; pieces_loop fold fuel ps' x)) as Hpush.
  { intros a x Hx. apply safe_bind; [unfold push_piece; by case_match|]. intros ps' _. by apply IH. }
  destruct (c =? 46)%Z; [apply Hpush; lia|]. destruct (c =? STAR)%Z; [apply safe_bind; [unfold set_repeat; repeat (case_match; try done)|]; intros ps' _; apply IH; lia|].
  destruct (c =? 92)%Z; [destruct rest as [|d rest]; [done|]; apply Hpush; cbn in Hf; lia|]. destruct (c =? 91)%Z; [|apply Hpush; lia].
  assert (forall neg body, length body <= length rest -> safe ('(ranges, rest) ← class_loop fold (S (length body)) true [] body; ps' ← push_piece ps (Class_ ranges neg); pieces_loop fold fuel ps' rest)) as Hc.
  { intros neg body Hb. destruct (class_loop_ends fold (S (length body)) true [] body ltac:(lia)) as [C1 C2]. apply safe_bind; [done|]. intros [r x] H. specialize (C2 _ _ H). apply Hpush. lia. }
  destruct rest as [|d r]; [by apply Hc|]. destruct (d =? 94)%Z; apply Hc; cbn; lia.
Qed.

Lemma new_ends chars fold : safe (new chars fold).
Proof. unfold new. apply safe_bind; [apply pieces_loop_ends; lia|done]. Qed.

(** *** The language of an expression *)
Inductive word : list Piece -> list Z -> Prop :=
| word_nil : word [] []
| word_one p ps c w : repeat_ p = false -> one (atom p) c = true -> word ps w -> word (p :: ps) (c :: w)
| word_many p ps r w : repeat_ p = true -> Forall (fun c => one (atom p) c = true) r -> word ps w -> word (p :: ps) (r ++ w).

Lemma run_of_spec a s r w : s = r ++ w -> Forall (fun c => one a c = true) r -> length r <= run_of a s.
Proof. intros -> Hr. induction Hr as [|c r Hc _ IH]; [cbn; lia|]. cbn [app run_of length]. rewrite Hc. lia. Qed.

Lemma run_of_takes a s n : n <= run_of a s -> Forall (fun c => one a c = true) (take n s) /\ n <= length s.
Proof.
  revert n. induction s as [|c s IH]; intros [|n] H; cbn [run_of] in H; try (split; [constructor|cbn; lia]); try lia.
  destruct (one a c) eqn:Hc; [|lia]. destruct (IH n) as [I1 I2]; [lia|]. split; [by constructor|cbn; lia].
Qed.

Lemma here_language end_ ps s : here end_ ps s = true <-> exists w rest, s = w ++ rest /\ word ps w /\ (end_ = true -> rest = []).
Proof.
  revert s. induction ps as [|p ps IH]; intros s; cbn [here].
  - rewrite orb_true_iff, negb_true_iff, bool_decide_eq_true. split.
    + intros H. exists [], s. split; [done|]. split; [constructor|]. destruct H as [->| ->]; done.
    + intros (w & rest & -> & Hw & He). inversion Hw; subst. cbn [app]. destruct end_; auto.
  - destruct (repeat_ p) eqn:Hr.
    + rewrite existsb_exists. split.
      * intros (n & Hn & H). apply in_rev in Hn. rewrite rev_involutive in Hn || idtac. apply in_seq in Hn. apply IH in H as (w & rest & Hd & Hw & He).
        destruct (run_of_takes (atom p) s n) as [T1 T2]; [lia|]. exists (take n s ++ w), rest. rewrite <- app_assoc, <- Hd, take_drop. split; [done|]. split; [by apply word_many|done].
      * intros (w & rest & -> & Hw & He). inversion Hw as [|? ? ? ? Hf|? ? r w' _ Hone Hw']; subst; [congruence|]. exists (length r). split.
        -- apply -> in_rev. apply in_seq. rewrite <- app_assoc. pose proof (run_of_spec (atom p) (r ++ w' ++ rest) r (w' ++ rest) eq_refl Hone). lia.
        -- apply IH. exists w', rest. rewrite <- app_assoc, drop_app_length. done.
    + split.
      * destruct s as [|c s]; [done|]. intros [H1 H2]%andb_true_iff. apply IH in H2 as (w & rest & -> & Hw & He). exists (c :: w), rest. split; [done|]. split; [by apply word_one|done].
      * intros (w & rest & -> & Hw & He). inversion Hw as [|? ? c w' _ Hone Hw'|? ? r w' Ht]; subst; [|congruence]. cbn [app]. rewrite Hone. apply IH. exists w', rest. done.
Qed.

(** matching is what the expression means: [is_match] accepts a line exactly when the line, its case folded if
    asked, holds a word of the expression's language, at its start or end where the expression is anchored; backtracking
    misses none. *)
Theorem is_match_language p line : is_match p line = true <->
  exists pre w rest, map (fun c => fold_char c (fold_case p)) line = pre ++ w ++ rest /\ word (pieces p) w /\ (anchored_start p = true -> pre = []) /\ (anchored_end p = true -> rest = []).
Proof.
  unfold is_match. set (s := map _ line). destruct (anchored_start p).
  - rewrite here_language. split.
    + intros (w & rest & -> & Hw & He). by exists [], w, rest.
    + intros (pre & w & rest & Hs & Hw & Hp & He). rewrite (Hp eq_refl) in Hs. by exists w, rest.
  - rewrite existsb_exists. split.
    + intros (n & _ & H). apply here_language in H as (w & rest & Hd & Hw & He). exists (take n s), w, rest. rewrite <- Hd, take_drop. done.
    + intros (pre & w & rest & Hs & Hw & _ & He). exists (length pre). split.
      * apply in_seq. rewrite Hs, length_app. lia.
      * apply here_language. exists w, rest. rewrite Hs, drop_app_length. done.
Qed.

(** *** What a mask describes *)
Inductive describes : list Z -> list Z -> Prop :=
| d_nil : describes [] []
| d_one m ms c cs : m <> STAR -> m = QUESTION \/ same m c = true -> describes ms cs -> describes (m :: ms) (c :: cs)
| d_star ms pre cs : describes ms cs -> describes (STAR :: ms) (pre ++ cs).

(** Characters of the mask against as many of the name. *)
Definition literal (m c : Z) : Prop := m <> STAR /\ (m = QUESTION \/ same m c = true).

Lemma describes_literal u x ms cs : Forall2 literal u x -> describes (u ++ ms) (x ++ cs) <-> describes ms cs.
Proof.
  induction 1 as [|m c u x [H1 H2] _ IH]; [done|]. cbn [app]. rewrite <- IH. split.
  - inversion 1; subst; done.
  - by apply d_one.
Qed.

Lemma describes_star s y : describes (STAR :: s) y <-> exists pre cs, y = pre ++ cs /\ describes s cs.
Proof. split; [inversion 1; subst; [done|eauto]|intros (pre & cs & -> & H); by constructor]. Qed.

Lemma describes_length u ms cs : Forall (fun m => m <> STAR) u -> describes (u ++ ms) cs -> exists x cs', cs = x ++ cs' /\ length x = length u /\ describes ms cs'.
Proof.
  intros Hu. revert cs. induction Hu as [|m u Hm _ IH]; intros cs H; [by exists [], cs|]. cbn [app] in H.
  inversion H as [|? ? c cs' _ _ Hd|]; subst; [|done]. destruct (IH _ Hd) as (x & cs'' & -> & Hl & Hd'). exists (c :: x), cs''. split; [done|]. split; [cbn; lia|done].
Qed.

Lemma literal_no_star u x : Forall2 literal u x -> Forall (fun m => m <> STAR) u /\ length u = length x.
Proof. induction 1 as [|m c u x [H1 _] _ [IH1 IH2]]; [done|]. split; [by constructor|cbn; lia]. Qed.

Definition mask_state (mask name : list Z) (g : Glob) : Prop :=
  length (gj g) <= length (gmark g) /\
  match star g with
  | None => exists u x, mask = u ++ gi g /\ name = x ++ gj g /\ Forall2 literal u x
  | Some s => (describes mask name <-> describes (STAR :: s) (gmark g)) /\ exists u x, s = u ++ gi g /\ gmark g = x ++ gj g /\ Forall2 literal u x
  end.

Section correct.
Context (same_star : forall n, same STAR n = true -> n = STAR).

(** The mask is at a character it does not match. *)
Lemma stuck i n j : match i with m :: _ => ((m =? QUESTION)%Z || same m n) = false /\ m <> STAR | [] => True end -> ~ describes i (n :: j).
Proof.
  intros H Hd. inversion Hd as [|m ms c cs Hm Ho Hr|ms pre cs Hr]; subst; [|by destruct H].
  destruct H as [H _]. apply orb_false_iff in H as [H1 H2]. apply Z.eqb_neq in H1. destruct Ho as [->|Ho]; [done|congruence].
Qed.

Lemma retry_state mask name g n j s : mask_state mask name g -> gj g = n :: j -> star g = Some s ->
  match gi g with m :: _ => ((m =? QUESTION)%Z || same m n) = false /\ m <> STAR | [] => True end ->
  mask_state mask name (mkGlob s (tail (gmark g)) (Some s) (tail (gmark g))).
Proof.
  intros [Hl Hm] Hj Hs Hst. rewrite Hs in Hm. destruct Hm as [Hiff (u & x & -> & Hmk & Hlit)]. split; [cbn; lia|]. cbn [star gmark gi gj].
  split; [|exists [], []; split_and!; [done|done|constructor]]. rewrite Hiff, !describes_star. rewrite Hj in Hmk. split.
  - intros (pre & cs & Hy & Hd). destruct pre as [|c pre].
    + exfalso. cbn [app] in Hy. rewrite <- Hy, Hmk in Hd. apply (proj1 (describes_literal _ _ _ _ Hlit)) in Hd. exact (stuck _ _ _ Hst Hd).
    + exists pre, cs. rewrite Hy. done.
  - intros (pre & cs & Hy & Hd). destruct (gmark g) as [|c y]; [by destruct x|]. cbn in Hy. exists (c :: pre), cs. by rewrite Hy.
Qed.

Lemma star_state mask name g i : mask_state mask name g -> gi g = STAR :: i -> mask_state mask name (mkGlob i (gj g) (Some i) (gj g)).
Proof.
  intros [Hl Hm] Hi. split; [cbn; lia|]. cbn [star gmark gi gj]. split; [|exists [], []; split_and!; [done|done|constructor]].
  destruct (star g) as [s|].
  - destruct Hm as [Hiff (u & x & -> & Hmk & Hlit)]. rewrite Hiff, Hi, Hmk, !describes_star. destruct (literal_no_star u x Hlit) as [Hns Hlen]. split.
    + intros (pre & cs & Hy & Hd). apply describes_length in Hd as (x' & cs' & -> & Hl' & Hd); [|done]. apply describes_star in Hd as (pre' & cs'' & -> & Hd).
      exists (drop (length x) (pre ++ x' ++ pre')), cs''. split; [|done].
      assert (x ++ gj g = (pre ++ x' ++ pre') ++ cs'') as Hy' by (by rewrite Hy, <- !app_assoc).
      rewrite <- (take_drop (length x) (pre ++ x' ++ pre')), <- app_assoc in Hy'. apply app_inj_1 in Hy' as [_ ->]; [done|]. rewrite length_take, !length_app. lia.
    + intros (pre & cs & Hy & Hd). exists [], (x ++ gj g). split; [done|]. apply describes_literal; [done|]. apply describes_star. eauto.
  - destruct Hm as (u & x & -> & -> & Hlit). rewrite Hi. by apply describes_literal.
Qed.

Lemma step_state mask name g : STAR ∉ gj g -> mask_state mask name g ->
  match glob_step g with inl g' => mask_state mask name g' /\ STAR ∉ gmark g' | inr b => b = true <-> describes mask name end \/ STAR ∈ gmark g.
Proof.
  intros Hns Hst. destruct (decide (STAR ∈ gmark g)) as [|Hmk]; [by right|left]. unfold glob_step. destruct (gj g) as [|n j] eqn:Hj.
  - assert (forall i, all_stars i = true <-> describes i []) as Hall.
    { induction i as [|m i IH]; cbn [all_stars forallb]; [split; [constructor|done]|]. rewrite andb_true_iff, Z.eqb_eq. fold (all_stars i). rewrite IH. split.
      - intros [-> H]. change [] with ([] ++ [] : list Z). by constructor.
      - inversion 1; subst. destruct pre; [|done]. cbn [app] in *. by subst. }
    rewrite Hall. destruct Hst as [_ Hm]. rewrite Hj in Hm. destruct (star g) as [s|].
    + destruct Hm as [-> (u & x & -> & -> & Hlit)]. destruct (literal_no_star u x Hlit) as [Hu Hlen]. rewrite app_nil_r, describes_star. split.
      * intros H. exists [], x. split; [done|]. rewrite <- (app_nil_r x). by apply describes_literal.
      * intros (pre & cs & Hy & Hd). pose proof Hd as Hd'. apply describes_length in Hd' as (x' & cs' & -> & Hl' & _); [|done].
        destruct pre as [|c pre]; [|apply (f_equal length) in Hy; rewrite !length_app in Hy; cbn in Hy; lia]. cbn [app] in Hy. rewrite <- Hy, <- (app_nil_r x) in Hd. by apply (proj1 (describes_literal _ _ _ _ Hlit)) in Hd.
    + destruct Hm as (u & x & -> & -> & Hlit). symmetry. by apply describes_literal.
  - assert (forall s, star g = Some s -> match gi g with m :: _ => ((m =? QUESTION)%Z || same m n) = false /\ m <> STAR | [] => True end ->
      mask_state mask name (mkGlob s (tail (gmark g)) (Some s) (tail (gmark g))) /\ STAR ∉ tail (gmark g)) as Hretry.
    { intros s Hs Hm. split; [by eapply retry_state|]. intros Hin. apply Hmk. destruct (gmark g); [done|by right]. }
    assert (star g = None -> match gi g with m :: _ => ((m =? QUESTION)%Z || same m n) = false /\ m <> STAR | [] => True end -> false = true <-> describes mask name) as Hfail.
    { intros Hs Hm. split; [done|]. intros Hd. destruct Hst as [_ Hst]. rewrite Hs, Hj in Hst. destruct Hst as (u & x & -> & -> & Hlit). apply (proj1 (describes_literal _ _ _ _ Hlit)) in Hd. by destruct (stuck _ _ _ Hm Hd). }
    destruct (gi g) as [|m i] eqn:Hi; [destruct (star g); [by apply Hretry|by apply Hfail]|].
    destruct ((m =? QUESTION)%Z || same m n) eqn:Hmatch.
    + assert (literal m n) as Hlit1.
      { apply orb_true_iff in Hmatch. split; [intros ->|destruct Hmatch as [->%Z.eqb_eq|]; auto]. destruct Hmatch as [?|Hs]; [done|]. apply same_star in Hs as ->. apply Hns. by left. }
      split; [|done]. destruct Hst as [Hl Hm]. split; [cbn; rewrite Hj in Hl; cbn in Hl; lia|]. cbn [star gi gj gmark]. rewrite Hi, Hj in Hm. destruct (star g) as [s|].
      * destruct Hm as [Hiff (u & x & Hu & Hx & Hlit)]. split; [exact Hiff|]. exists (u ++ [m]), (x ++ [n]). rewrite <- !app_assoc. split_and!; [exact Hu|exact Hx|]. apply Forall2_app; [done|]. constructor; [exact Hlit1|constructor].
      * destruct Hm as (u & x & -> & -> & Hlit). exists (u ++ [m]), (x ++ [n]). rewrite <- !app_assoc. split_and!; [done|done|]. apply Forall2_app; [done|]. constructor; [exact Hlit1|constructor].
    + destruct (Z.eqb_spec m STAR) as [->|Hm]; [|destruct (star g); [by apply Hretry|by apply Hfail]].
      split; [rewrite <- Hj; by eapply star_state|done].
Qed.

(** *** The walk ends *)
Definition glob_measure (mask : list Z) (g : Glob) : nat := length (gmark g) * (length mask + 1) + length (gi g).

Lemma step_measure mask g : length (gi g) <= length mask -> match star g with Some s => length s <= length mask | None => True end -> length (gj g) <= length (gmark g) ->
  match glob_step g with
  | inl g' => glob_measure mask g' < glob_measure mask g /\ length (gi g') <= length mask /\ match star g' with Some s => length s <= length mask | None => True end /\ length (gj g') <= length (gmark g')
  | inr _ => True
  end.
Proof.
  intros Hi Hs Hj. unfold glob_step, glob_measure. destruct (gj g) as [|n j] eqn:Ej; [done|]. cbn [length] in Hj.
  assert (forall s : list Z, length s <= length mask -> length (tail (gmark g)) * (length mask + 1) + length s < length (gmark g) * (length mask + 1) + length (gi g)) as Hr.
  { intros s Hl. destruct (gmark g) as [|c y]; [cbn in Hj; lia|]. cbn [tail length]. lia. }
  destruct (gi g) as [|m i] eqn:Ei; [destruct (star g) as [s|]; [|done]; cbn [gi gj gmark star]; auto|]. cbn [length] in Hi.
  destruct ((m =? QUESTION)%Z || same m n); [cbn [gi gj gmark star length]; split_and!; [lia|lia|done|lia]|].
  destruct (m =? STAR)%Z; [cbn [gi gj gmark star length]; split_and!; [nia|lia|lia|lia]|].
  destruct (star g) as [s|]; [|done]. cbn [gi gj gmark star]. auto.
Qed.

Lemma glob_loop_spec mask name fuel g : STAR ∉ gmark g -> STAR ∉ gj g -> mask_state mask name g -> length (gi g) <= length mask ->
  match star g with Some s => length s <= length mask | None => True end -> glob_measure mask g < fuel ->
  exists b, glob_loop fuel g = Some b /\ (b = true <-> describes mask name).
Proof.
  revert g. induction fuel as [|fuel IH]; intros g Hm Hj Hst Hi Hs Hf; [lia|]. cbn [glob_loop].
  destruct (step_state mask name g Hj Hst) as [Hstep|]; [|done]. pose proof (step_measure mask g Hi Hs (proj1 Hst)) as Hmeas. destruct (glob_step g) as [g'|b] eqn:E; [|eauto].
  destruct Hstep as [Hst' Hm'], Hmeas as (M1 & M2 & M3 & M4). apply IH; [done| |done|done|done|lia].
  unfold glob_step in E. destruct (gj g) as [|n j]; [done|]. rewrite elem_of_cons in Hj.
  repeat (case_match; try discriminate E); injection E as <-; cbn [gj gmark] in *; try tauto; rewrite elem_of_cons; tauto.
Qed.
End correct.
End letters.

(** a mask matches what it describes: for a name without a star of its own, [glob] ends and accepts the name
    exactly when the mask describes it ([*] any run, [?] one character, else the same character, case aside). *)
Theorem glob_correct to_lower mask name : (forall n, same to_lower STAR n = true -> n = STAR) -> STAR ∉ name ->
  exists b, glob to_lower mask name = Some b /\ (b = true <-> describes to_lower mask name).
Proof.
  intros Hstar Hn. unfold glob. apply (glob_loop_spec to_lower Hstar mask name); cbn [gmark gj gi star]; try done.
  - split; [cbn; lia|]. cbn. exists [], []. split_and!; [done|done|constructor].
  - unfold glob_measure. cbn [gmark gi]. lia.
Qed.

(** Lower case of ASCII letters. *)
Definition ascii_lower (c : Z) : list Z := [lower c].

Lemma glob_correct_witness : exists b, glob ascii_lower [STAR; 46; 82; QUESTION]%Z [97; 46; 98; 46; 114; 115]%Z = Some b /\
  (b = true <-> describes ascii_lower [STAR; 46; 82; QUESTION]%Z [97; 46; 98; 46; 114; 115]%Z).
Proof.
  apply (glob_correct ascii_lower).
  - intros n. unfold same, ascii_lower, lower, STAR, between. rewrite orb_true_iff, bool_decide_eq_true, Z.eqb_eq. intros [->|[= H]]; [done|].
    cbn in H. destruct ((65 <=? n)%Z && (n <=? 90)%Z) eqn:Hc; lia.
  - intros H. repeat (apply elem_of_cons in H as [H|H]; [discriminate H|]). by apply elem_of_nil in H.
Defined.

(** a name with a star in it can be refused although the mask describes it: the mask's star is taken for the
    name's own character and never tried as a run ([*b] against the name [*ab]). *)
Theorem glob_star_in_name : glob ascii_lower [STAR; 98]%Z [STAR; 97; 98]%Z = Some false /\ describes ascii_lower [STAR; 98]%Z [STAR; 97; 98]%Z.
Proof.
  split; [reflexivity|]. change [STAR; 97; 98]%Z with ([STAR; 97]%Z ++ [98%Z]). apply d_star, d_one; [done|right; reflexivity|constructor].
Qed.

(** A pattern compiled: a line of digits, at the end. *)
Lemma is_match_language_example : new ascii_lower [91; 48; 45; 57; 93; 42; 36]%Z true = Done (mkPattern [mkPiece (Class_ [(48, 57)%Z] false) true] false true true).
Proof. reflexivity. Qed.
