(* ===== verification/Inflate.v ===== *)
(** * DEFLATE, zlib and gzip ([libmind/src/inflate.rs])

    The decompressor: bits read least significant first from any input, canonical Huffman codes, blocks, a window of 32 KiB
    for back-references, and the output handed to a sink in pieces. The wrappers check an Adler-32 or a CRC-32 with the length.
    [InflateSpec] says what the streams mean and that they are read so. *)
From S2P Require Import Prelude Outcome.

Definition WINDOW : Z := 32 * 1024.
Definition LENGTH_BASE : list Z := [3; 4; 5; 6; 7; 8; 9; 10; 11; 13; 15; 17; 19; 23; 27; 31; 35; 43; 51; 59; 67; 83; 99; 115; 131; 163; 195; 227; 258].
Definition LENGTH_EXTRA : list Z := [0; 0; 0; 0; 0; 0; 0; 0; 1; 1; 1; 1; 2; 2; 2; 2; 3; 3; 3; 3; 4; 4; 4; 4; 5; 5; 5; 5; 0].
Definition DIST_BASE : list Z := [1; 2; 3; 4; 5; 7; 9; 13; 17; 25; 33; 49; 65; 97; 129; 193; 257; 385; 513; 769; 1025; 1537; 2049; 3073; 4097; 6145; 8193; 12289; 16385; 24577].
Definition DIST_EXTRA : list Z := [0; 0; 0; 0; 1; 1; 2; 2; 3; 3; 4; 4; 5; 5; 6; 6; 7; 7; 8; 8; 9; 9; 10; 10; 11; 11; 12; 12; 13; 13].
Definition ORDER : list nat := [16; 17; 18; 0; 8; 7; 9; 6; 10; 5; 11; 4; 12; 3; 13; 2; 14; 1; 15]%nat.

(** One constructor per message of the source. *)
Inductive Error : Type :=
  | EndsEarly | BadCode | CodeTooLong | DistanceBeforeStart | StoredLength | BadLength | BadDistance | UnknownBlock | RepeatNothing | TooManyLengths
  | NotZlib | ChecksumMissing | ChecksumDiffers | HeaderEndsEarly | NotGzip | TrailerMissing | CrcDiffers | LengthDiffers.

(** ** Where the bytes come from *)
Class Input (I : Type) : Type := byte : I -> option Z * I.
Record Parts : Type := mkParts { parts : list bytes; part : nat; at_part : nat }.
Fixpoint parts_loop (fuel : nat) (p : Parts) : option Z * Parts :=
  match fuel with
  | O => (None, p)
  | S fuel =>
      match parts p !! part p with
      | None => (None, p)
      | Some x =>
          match x !! at_part p with
          | Some b => (Some b, mkParts (parts p) (part p) (at_part p + 1))
          | None => parts_loop fuel (mkParts (parts p) (part p + 1) 0)
          end
      end
  end.
#[global] Instance parts_input : Input Parts := fun p => parts_loop (S (length (parts p))) p.

(** An array element, and its change; both panic out of range. *)
Definition nth_of {E A} (l : list A) (i : Z) : outcome E A := if i <? 0 then Crash else or_crash (l !! Z.to_nat i).
Definition set_nth {E A} (l : list A) (i : Z) (x : A) : outcome E (list A) :=
  if (0 <=? i) && (i <? Z.of_nat (length l)) then Done (<[Z.to_nat i := x]> l) else Crash.

Section readers.
Context {I : Type} `{!Input I}.
Record Bits : Type := mkBits { input : I; bit : Z; held : Z }.
Abbreviation R := (STE Error Bits).
Fixpoint need_loop (fuel : nat) (n : Z) : R unit := fun s =>
  match fuel with
  | O => (Crash, s)
  | S fuel =>
      if held s <? n then
        match byte (input s) with
        | (Some b, i) => need_loop fuel n (mkBits i (Z.lor (bit s) (wrap32 (Z.shiftl b (held s)))) (held s + 8))
        | (None, i) => (Refuse EndsEarly, mkBits i (bit s) (held s))
        end
      else (Done tt, s)
  end.
Definition need (n : Z) : R unit := need_loop (S (Z.to_nat n)) n.
Definition cut_bits (n : Z) : R Z := fun s => (Done (Z.land (bit s) (Z.shiftl 1 n - 1)), mkBits (input s) (Z.shiftr (bit s) n) (held s - n)).
Definition take_bits (n : Z) : R Z := if n =? 0 then mret 0 else _ ← need n; cut_bits n.
Definition align : R unit := fun s => let drop := held s mod 8 in (Done tt, mkBits (input s) (Z.shiftr (bit s) drop) (held s - drop)).

(** ** Codes *)
Record Huffman : Type := mkHuffman { counts : list Z; symbols : list Z }.
Definition bump {E} (l : list Z) (i : Z) : outcome E (list Z) := x ← nth_of l i; set_nth l i (x + 1).
Fixpoint count_lengths (counts lengths : list Z) : outcome Error (list Z) :=
  match lengths with [] => Done counts | l :: lengths => counts ← bump counts l; count_lengths counts lengths end.
(** [offsets[i] = offsets[i - 1] + counts[i - 1]]. *)
Fixpoint offsets_from (total : Z) (counts : list Z) : list Z :=
  match counts with [] => [] | c :: counts => total :: offsets_from (total + c) counts end.
Fixpoint place_symbols (symbol : Z) (lengths offsets symbols : list Z) : outcome Error (list Z) :=
  match lengths with
  | [] => Done symbols
  | l :: lengths =>
      if l =? 0 then place_symbols (symbol + 1) lengths offsets symbols else
      at_ ← nth_of offsets l;
      symbols ← set_nth symbols at_ symbol;
      offsets ← bump offsets l;
      place_symbols (symbol + 1) lengths offsets symbols
  end.
Definition huffman_new (lengths : list Z) : outcome Error Huffman :=
  counts ← count_lengths (replicate 16 0) lengths;
  counts ← set_nth counts 0 0;
  symbols ← place_symbols 0 lengths (offsets_from 0 counts) (replicate (length lengths) 0);
  Done (mkHuffman counts symbols).
(** [for len in 1..16], over the counts of the lengths left. *)
Fixpoint decode_loop (h : Huffman) (counts : list Z) (code first index : Z) : R Z :=
  match counts with
  | [] => fail CodeTooLong
  | count :: counts =>
      b ← take_bits 1;
      let code := Z.lor code b in
      if code - count <? first then
        (let i := index + code - first in lift (if i <? 0 then Refuse BadCode else or_refuse (symbols h !! Z.to_nat i) BadCode))
      else decode_loop h counts (Z.shiftl code 1) (Z.shiftl (first + count) 1) (index + count)
  end.
Definition decode (h : Huffman) : R Z := decode_loop h (tail (counts h)) 0 0 0.

(** ** A dynamic block's codes *)
Fixpoint code_lengths_loop (order : list nat) (ls : list Z) : R (list Z) :=
  match order with [] => mret ls | i :: order => l ← take_bits 3; ls ← lift (set_nth ls (Z.of_nat i) l); code_lengths_loop order ls end.
(** The lengths read so far; [n] of them in all. *)
Fixpoint lengths_loop (fuel : nat) (codes : Huffman) (n : nat) (ls : list Z) (i : nat) : R (list Z) :=
  match fuel with
  | O => lift Crash
  | S fuel =>
      if (i <? n)%nat then
        symbol ← decode codes;
        vr ← (if symbol <=? 15 then mret (symbol, 1)
              else if symbol =? 16 then v ← lift (match i with O => Refuse RepeatNothing | S k => or_refuse (ls !! k) RepeatNothing end); r ← take_bits 2; mret (v, 3 + r)
              else if symbol =? 17 then r ← take_bits 3; mret (0, 3 + r)
              else r ← take_bits 7; mret (0, 11 + r));
        let '(v, r) := vr in
        let r := Z.to_nat r in
        if (n <? i + r)%nat then fail TooManyLengths else
        if (length ls <? i + r)%nat then lift Crash else
        lengths_loop fuel codes n (take i ls ++ replicate r v ++ drop (i + r) ls) (i + r)
      else mret ls
  end.
Definition dynamic : R (Huffman * Huffman) :=
  hlit ← take_bits 5; hdist ← take_bits 5; hclen ← take_bits 4;
  let hlit := Z.to_nat (hlit + 257) in
  let hdist := Z.to_nat (hdist + 1) in
  code_lengths ← code_lengths_loop (take (Z.to_nat (hclen + 4)) ORDER) (replicate 19 0);
  codes ← lift (huffman_new code_lengths);
  lengths ← lengths_loop (S (hlit + hdist)) codes (hlit + hdist) (replicate (hlit + hdist) 0) 0;
  lit ← lift (huffman_new (take hlit lengths));
  dist ← lift (huffman_new (drop hlit lengths));
  mret (lit, dist).
End readers.
Arguments Bits : clear implicits.

(** ** The output *)
(** The sink: what it makes of a piece, and whether it goes on. *)
Class Sink (K : Type) : Type := give : bytes -> K -> bool * K.
Section output.
Context {K : Type} `{!Sink K}.
Record Out : Type := mkOut { window : list Z; oat : Z; filled : Z; pending : bytes; sink : K; stopped : bool }.
Definition flush (o : Out) : Out :=
  if negb (stopped o) && negb (bool_decide (pending o = [])) then
    let '(go, k) := give (pending o) (sink o) in mkOut (window o) (oat o) (filled o) [] k (negb go)
  else mkOut (window o) (oat o) (filled o) [] (sink o) (stopped o).
Definition push (b : Z) (o : Out) : outcome Error Out :=
  w ← set_nth (window o) (oat o) b;
  let o := mkOut w ((oat o + 1) mod WINDOW) (Z.min (filled o + 1) WINDOW) (pending o ++ [b]) (sink o) (stopped o) in
  Done (if 4096 <=? Z.of_nat (length (pending o)) then flush o else o).
Fixpoint copy_loop (n : nat) (distance : Z) (o : Out) : outcome Error Out :=
  match n with
  | O => Done o
  | S n => b ← nth_of (window o) ((oat o + WINDOW - distance) mod WINDOW); o ← push b o; copy_loop n distance o
  end.
Definition copy (distance length : Z) (o : Out) : outcome Error Out :=
  if filled o <? distance then Refuse DistanceBeforeStart else copy_loop (Z.to_nat length) distance o.
End output.
Arguments Out : clear implicits.

(** ** The blocks *)
Section deflate.
Context {I K : Type} `{!Input I} `{!Sink K}.
Abbreviation M := (STE Error (Bits I * Out K)).
Definition reading {A} (m : STE Error (Bits I) A) : M A := fun '(b, o) => let '(r, b) := m b in (r, (b, o)).
Definition writing (f : Out K -> outcome Error (Out K)) : M unit := fun '(b, o) =>
  match f o with Done o => (Done tt, (b, o)) | Refuse e => (Refuse e, (b, o)) | Crash => (Crash, (b, o)) end.
Definition is_stopped : M bool := fun s => (Done (stopped s.2), s).
Fixpoint stored_loop (n : nat) : M unit :=
  match n with O => mret tt | S n => b ← reading (take_bits 8); _ ← writing (push b); stored_loop n end.
(** The symbols of a block up to its end; false when the sink stopped it. *)
Fixpoint symbols_loop (fuel : nat) (lit dist : Huffman) : M bool :=
  match fuel with
  | O => lift Crash
  | S fuel =>
      symbol ← reading (decode lit);
      if symbol <? 256 then _ ← writing (push symbol); symbols_loop fuel lit dist else
      if symbol =? 256 then mret true else
      let i := symbol - 257 in
      if 29 <=? i then fail BadLength else
      base ← lift (nth_of LENGTH_BASE i); extra ← lift (nth_of LENGTH_EXTRA i);
      more ← reading (take_bits extra);
      let length := base + more in
      d ← reading (decode dist);
      if 30 <=? d then fail BadDistance else
      base ← lift (nth_of DIST_BASE d); extra ← lift (nth_of DIST_EXTRA d);
      more ← reading (take_bits extra);
      let distance := base + more in
      _ ← writing (copy distance length);
      stop ← is_stopped;
      if (stop : bool) then mret false else symbols_loop fuel lit dist
  end.
Definition fixed_lengths : list Z := replicate 144 8 ++ replicate 112 9 ++ replicate 24 7 ++ replicate 8 8.
Definition fixed : outcome Error (Huffman * Huffman) := lit ← huffman_new fixed_lengths; dist ← huffman_new (replicate 30 5); Done (lit, dist).
(** One block of a kind; false when the sink stopped it. *)
Definition one_block (fuel : nat) (kind : Z) : M bool :=
  if kind =? 0 then
    _ ← reading align;
    len ← reading (take_bits 16);
    check ← reading (take_bits 16);
    if negb (check =? Z.land (Z.lnot len) 0xFFFF) then fail StoredLength else
    _ ← stored_loop (Z.to_nat len);
    mret true
  else if (kind =? 1) || (kind =? 2) then
    codes ← (if kind =? 1 then lift fixed else reading dynamic);
    symbols_loop fuel codes.1 codes.2
  else fail UnknownBlock.
Fixpoint deflate_loop (fuel : nat) : M bool :=
  match fuel with
  | O => lift Crash
  | S fuel' =>
      last ← reading (take_bits 1);
      kind ← reading (take_bits 2);
      go ← one_block fuel kind;
      if negb go then mret false else
      stop ← is_stopped;
      if (stop : bool) then mret false else
      if last =? 1 then
        _ ← writing (fun o => Done (flush o));
        stop ← is_stopped;
        mret (negb stop)
      else deflate_loop fuel'
  end.
(** [fuel] is more than the bits of the input. *)
Definition out_new (k : K) : Out K := mkOut (replicate (Z.to_nat WINDOW) 0) 0 0 [] k false.
Definition deflate (fuel : nat) : STE Error (Bits I * K) bool := fun '(b, k) =>
  let '(r, (b, o)) := deflate_loop fuel (b, out_new k) in (r, (b, sink o)).
Definition inflate_from (fuel : nat) (i : I) (k : K) : outcome Error bool * (I * K) :=
  let '(r, (b, k)) := deflate fuel (mkBits i 0 0, k) in (r, (input b, k)).
End deflate.
Definition inflate {K} `{!Sink K} (data : bytes) (k : K) : outcome Error unit * K :=
  let '(r, (_, k)) := deflate (S (8 * length data)) (mkBits (mkParts [data] 0 0) 0 0, k) in (_ ← r; Done tt, k).

(** ** zlib and gzip *)
(** The Adler-32 of what is given, beside the sink. *)
Definition adler_byte (ab : Z * Z) (x : Z) : Z * Z := let a := (ab.1 + x) mod 65521 in (a, (ab.2 + a) mod 65521).
Definition adler_sink {K} `{!Sink K} : Sink ((Z * Z) * K) := fun p '(ab, k) => let ab := foldl adler_byte ab p in let '(go, k) := give p k in (go, (ab, k)).
(** [crc32], and the CRC-32 with the length of what is given. *)
Definition crc_bit (crc : Z) : Z := if negb (Z.land crc 1 =? 0) then Z.lxor (Z.shiftr crc 1) 0xEDB88320 else Z.shiftr crc 1.
Definition not32 (x : Z) : Z := W32 - 1 - x.
Definition crc32 (crc : Z) (data : bytes) : Z := not32 (foldl (fun crc b => Nat.iter 8 crc_bit (Z.lxor crc b)) (not32 crc) data).
Definition crc_sink {K} `{!Sink K} : Sink ((Z * Z) * K) := fun p '((crc, length), k) =>
  let '(go, k) := give p k in (go, ((crc32 crc p, wrap32 (length + Z.of_nat (List.length p))), k)).
Definition map_err {S A} (e : Error) (m : STE Error S A) : STE Error S A := fun s => match m s with (Refuse _, s) => (Refuse e, s) | r => r end.

Section wrapped.
Context {I K : Type} `{!Input I} `{!Sink K}.
Abbreviation W := (STE Error (Bits I * ((Z * Z) * K))).
Definition on_bits {A} (m : STE Error (Bits I) A) : W A := fun '(b, k) => let '(r, b) := m b in (r, (b, k)).
Definition sums : W (Z * Z) := fun s => (Done s.2.1, s).
Fixpoint check_loop (n : nat) (check : Z) : STE Error (Bits I) Z :=
  match n with O => mret check | S n => b ← map_err ChecksumMissing (take_bits 8); check_loop n (Z.lor (wrap32 (Z.shiftl check 8)) b) end.
Definition zlib_run (fuel : nat) : W bool :=
  hi ← on_bits (take_bits 8); lo ← on_bits (take_bits 8);
  let header := Z.lor (wrap16 (Z.shiftl hi 8)) lo in
  if negb (Z.land (Z.shiftr header 8) 0x0F =? 8) || negb (header mod 31 =? 0) || negb (Z.land header 0x20 =? 0) then fail NotZlib else
  whole ← deflate (Sink0:=adler_sink) fuel;
  if (whole : bool) then
    _ ← on_bits align;
    check ← on_bits (check_loop 4 0);
    ab ← sums;
    if negb (check =? Z.lor (wrap32 (Z.shiftl ab.2 16)) ab.1) then fail ChecksumDiffers else mret true
  else mret false.
Definition zlib_from (fuel : nat) (i : I) (k : K) : outcome Error bool * (I * K) :=
  let '(r, (b, (_, k))) := zlib_run fuel (mkBits i 0 0, ((1, 0), k)) in (r, (input b, k)).

(** A byte of a gzip header; [n] of them not looked at; a text up to its zero byte. *)
Definition header_byte : STE Error (Bits I) Z := map_err HeaderEndsEarly (take_bits 8).
Fixpoint skip_bytes (n : nat) : STE Error (Bits I) unit := match n with O => mret tt | S n => _ ← header_byte; skip_bytes n end.
Fixpoint skip_text (fuel : nat) : STE Error (Bits I) unit :=
  match fuel with O => lift Crash | S fuel => b ← header_byte; if negb (b =? 0) then skip_text fuel else mret tt end.
Definition gzip_header (fuel : nat) : STE Error (Bits I) unit :=
  h0 ← header_byte; h1 ← header_byte; h2 ← header_byte; flags ← header_byte;
  if negb ((h0 =? 0x1F) && (h1 =? 0x8B) && (h2 =? 8)) || negb (Z.land flags 0xE0 =? 0) then fail NotGzip else
  _ ← skip_bytes 6;
  _ ← (if negb (Z.land flags 4 =? 0) then lo ← header_byte; hi ← header_byte; skip_bytes (Z.to_nat (Z.lor lo (Z.shiftl hi 8))) else mret tt);
  _ ← (if negb (Z.land flags 8 =? 0) then skip_text fuel else mret tt);
  _ ← (if negb (Z.land flags 16 =? 0) then skip_text fuel else mret tt);
  if negb (Z.land flags 2 =? 0) then skip_bytes 2 else mret tt.
Fixpoint word_loop (shifts : list Z) (value : Z) : STE Error (Bits I) Z :=
  match shifts with [] => mret value | s :: shifts => b ← map_err TrailerMissing (take_bits 8); word_loop shifts (Z.lor value (wrap32 (Z.shiftl b s))) end.
Definition word : STE Error (Bits I) Z := word_loop [0; 8; 16; 24] 0.
Definition gzip_run (fuel : nat) : W bool :=
  _ ← on_bits (gzip_header fuel);
  whole ← deflate (Sink0:=crc_sink) fuel;
  if (whole : bool) then
    _ ← on_bits align;
    cl ← sums;
    crc ← on_bits word;
    if negb (crc =? cl.1) then fail CrcDiffers else
    length ← on_bits word;
    if negb (length =? cl.2) then fail LengthDiffers else mret true
  else mret false.
Definition gzip_from (fuel : nat) (i : I) (k : K) : outcome Error bool * (I * K) :=
  let '(r, (b, (_, k))) := gzip_run fuel (mkBits i 0 0, ((0, 0), k)) in (r, (input b, k)).
End wrapped.
Definition zlib_parts {K} `{!Sink K} (ps : list bytes) (k : K) : outcome Error unit * K :=
  let '(r, (_, k)) := zlib_from (S (8 * length (concat ps))) (mkParts ps 0 0) k in (_ ← r; Done tt, k).
Definition zlib {K} `{!Sink K} (data : bytes) (k : K) : outcome Error unit * K := zlib_parts [data] k.
Definition zlib_header (first second : Z) : bool :=
  let header := Z.lor (Z.shiftl first 8) second in
  (Z.land first 0x0F =? 8) && (Z.shiftr first 4 <=? 7) && (header mod 31 =? 0) && (Z.land second 0x20 =? 0).
