(* ===== verification/InflateBits.v ===== *)
(** * The bits of a DEFLATE stream ([libmind/src/inflate.rs]: [Bits])

    What a reader has left, as a list of bits, least significant first: the bits held and those of the bytes to come. Taking
    bits takes them from the front of that list; a run over it is judged by what it gives and what it leaves. *)
From S2P Require Import Prelude Outcome Inflate.

(** ** Numbers as bits, least significant first *)
Fixpoint val (bs : list bool) : Z := match bs with [] => 0 | b :: bs => Z.b2z b + 2 * val bs end.
Fixpoint lsb (n : nat) (v : Z) : list bool := match n with O => [] | S n => Z.odd v :: lsb n (Z.div2 v) end.
Lemma length_lsb n v : length (lsb n v) = n.
Proof. revert v. induction n; intros v; cbn; auto. Qed.
Lemma val_bound bs : 0 <= val bs < 2 ^ Z.of_nat (length bs).
Proof. induction bs as [|b bs IH]; [done|]. cbn [val length]. rewrite Nat2Z.inj_succ, Z.pow_succ_r by lia. destruct b; cbn [Z.b2z]; lia. Qed.
Lemma val_lsb n v : 0 <= v < 2 ^ Z.of_nat n -> val (lsb n v) = v.
Proof.
  revert v. induction n as [|n IH]; intros v Hv; [cbn in *; lia|]. rewrite Nat2Z.inj_succ, Z.pow_succ_r in Hv by lia. cbn [lsb val]. pose proof (Z.div2_odd v) as E. destruct (Z.odd v); cbn [Z.b2z] in *; rewrite IH by lia; lia.
Qed.
Lemma lsb_val bs : lsb (length bs) (val bs) = bs.
Proof. induction bs as [|b bs IH]; [done|]. cbn [length lsb val]. f_equal; [rewrite Z.odd_add_mul_2; by destruct b|]. rewrite Z.div2_div, Z.mul_comm, Z.div_add by lia. destruct b; exact IH. Qed.
Lemma val_app a b : val (a ++ b) = val a + 2 ^ Z.of_nat (length a) * val b.
Proof. induction a as [|x a IH]; [cbn; lia|]. cbn [app val length]. rewrite IH, Nat2Z.inj_succ, Z.pow_succ_r by lia. lia. Qed.
Lemma lor_high a b n : 0 <= n -> 0 <= a < 2 ^ n -> 0 <= b -> Z.lor a (Z.shiftl b n) = a + 2 ^ n * b.
Proof.
  intros Hn Ha Hb. assert (Z.land a (Z.shiftl b n) = 0) as H0.
  { apply Z.bits_inj'. intros k Hk. rewrite Z.land_spec, Z.bits_0, Z.shiftl_spec by lia. destruct (Z.ltb_spec k n); [rewrite (Z.testbit_neg_r b) by lia; apply andb_false_r|]. rewrite <- (Z.mod_small a (2 ^ n)), Z.mod_pow2_bits_high by lia. done. }
  rewrite <- Z.lxor_lor, <- Z.add_nocarry_lxor, Z.shiftl_mul_pow2 by done. lia.
Qed.
Lemma val_cut bs n : (n <= length bs)%nat -> val (take n bs) = val bs mod 2 ^ Z.of_nat n /\ val (drop n bs) = val bs / 2 ^ Z.of_nat n.
Proof.
  intros Hn. pose proof (val_app (take n bs) (drop n bs)) as E. rewrite take_drop, length_take_le in E by done. pose proof (val_bound (take n bs)) as Hb. rewrite length_take_le in Hb by done. rewrite E. split.
  - rewrite Z.mul_comm, Z.mod_add, Z.mod_small by lia. done.
  - rewrite Z.mul_comm, Z.div_add, Z.div_small by lia. done.
Qed.

(** ** What a reader has left *)
Section view.
Context {I : Type} `{!Input I}.
(** The bytes an input gives, up to its end. *)
Inductive gives : I -> bytes -> Prop :=
| gives_end i : (byte i).1 = None -> gives i []
| gives_byte i b i' l : byte i = (Some b, i') -> is_byte b -> gives i' l -> gives i (b :: l).
Definition stream (l : bytes) : list bool := concat (map (lsb 8) l).
Definition view (s : Bits I) (bs : list bool) : Prop := exists hb l, gives (input s) l /\ held s = Z.of_nat (length hb) /\ bit s = val hb /\ bs = hb ++ stream l.
Lemma length_stream l : length (stream l) = (8 * length l)%nat.
Proof. unfold stream. induction l as [|x l IH]; [done|]. cbn [map concat]. rewrite length_app, length_lsb, IH. cbn [length]. lia. Qed.
Lemma need_view fuel n s bs : 0 <= n <= 16 -> (Z.to_nat (n - held s) < fuel)%nat -> view s bs ->
  if n <=? Z.of_nat (length bs) then exists s', need_loop fuel n s = (Done tt, s') /\ view s' bs /\ n <= held s' else exists s', need_loop fuel n s = (Refuse EndsEarly, s').
Proof.
  intros Hn. revert s. induction fuel as [|fuel IH]; intros s Hf Hv; [lia|]. destruct Hv as (hb & l & Hg & Hh & Hb & ->). cbn [need_loop]. rewrite Hh, length_app, length_stream. destruct (Z.ltb_spec (Z.of_nat (length hb)) n) as [Hlt|Hge].
  - inversion Hg as [i He|i b i' l' He Hib Hg' Ei]; subst.
    + destruct (byte (input s)) as [[b|] i'']; [done|]. cbn [length]. rewrite (proj2 (Z.leb_gt _ _)) by lia. eauto.
    + rewrite He. unfold is_byte in Hib. specialize (IH (mkBits i' (Z.lor (bit s) (wrap32 (Z.shiftl b (Z.of_nat (length hb))))) (Z.of_nat (length hb) + 8))). cbn [held] in IH.
      assert (view (mkBits i' (Z.lor (bit s) (wrap32 (Z.shiftl b (Z.of_nat (length hb))))) (Z.of_nat (length hb) + 8)) (hb ++ stream (b :: l'))) as Hv.
      { exists (hb ++ lsb 8 b), l'. split; [done|]. cbn [held bit]. rewrite length_app, length_lsb. split; [lia|]. split; [|unfold stream; cbn [map concat]; by rewrite app_assoc]. rewrite Hb, val_app, val_lsb by (change (2 ^ Z.of_nat 8) with 256; lia).
        assert (2 ^ Z.of_nat (length hb) <= 2 ^ 16) by (apply Z.pow_le_mono_r; lia). change (2 ^ 16) with 65536 in *. unfold wrap32, W32. rewrite (Z.mod_small (Z.shiftl _ _)) by (rewrite Z.shiftl_mul_pow2 by lia; change (2 ^ 32) with 4294967296; nia). apply lor_high; [lia|apply val_bound|lia]. }
      specialize (IH ltac:(lia) Hv). rewrite length_app, length_stream in IH. exact IH.
  - rewrite (proj2 (Z.leb_le _ _)) by lia. exists s. split; [done|]. split; [by exists hb, l|lia].
Qed.
Lemma take_view n s bs : 0 <= n <= 16 -> view s bs ->
  if n <=? Z.of_nat (length bs) then exists s', take_bits n s = (Done (val (take (Z.to_nat n) bs)), s') /\ view s' (drop (Z.to_nat n) bs) else exists s', take_bits n s = (Refuse EndsEarly, s').
Proof.
  intros Hn Hv. unfold take_bits. destruct (Z.eqb_spec n 0) as [->|Hne]; [rewrite (proj2 (Z.leb_le _ _)) by lia; by exists s|]. assert (0 <= held s) as Hh by (destruct Hv as (hb & _ & _ & -> & _); lia). pose proof (need_view (S (Z.to_nat n)) n s bs Hn ltac:(lia) Hv) as H. unfold mbind, st_bind, need. destruct (Z.leb_spec n (Z.of_nat (length bs))) as [Hle|Hgt].
  - destruct H as (s' & -> & (hb & l & Hg & Hh' & Hb & ->) & Hge). unfold cut_bits. destruct (val_cut hb (Z.to_nat n) ltac:(lia)) as [E1 E2]. rewrite Z2Nat.id in E1, E2 by lia. eexists. split.
    + do 2 f_equal. rewrite take_app_le by lia. rewrite E1, Hb. rewrite Z.shiftl_1_l, Z.sub_1_r, <- Z.ones_equiv. apply Z.land_ones. lia.
    + exists (drop (Z.to_nat n) hb), l. cbn [input held bit]. split; [done|]. split; [rewrite length_drop; lia|]. split; [rewrite Hb, Z.shiftr_div_pow2, E2 by lia; done|]. by rewrite drop_app_le by lia.
  - destruct H as (s' & ->). eauto.
Qed.
Lemma align_view s bs : view s bs -> exists s', align s = (Done tt, s') /\ view s' (drop (length bs mod 8) bs).
Proof.
  intros (hb & l & Hg & Hh & Hb & ->). unfold align. rewrite Hh, length_app, length_stream. set (k := (length hb mod 8)%nat). assert ((length hb + 8 * length l) mod 8 = k)%nat as -> by (rewrite Nat.mul_comm; apply Nat.Div0.mod_add). assert (Z.of_nat (length hb) mod 8 = Z.of_nat k) as -> by (unfold k; lia). assert (k <= length hb)%nat as Hk by (apply Nat.Div0.mod_le).
  eexists. split; [done|]. destruct (val_cut hb k Hk) as [_ E]. exists (drop k hb), l. cbn [input held bit]. split; [done|]. split; [rewrite length_drop; lia|]. split; [rewrite Hb, Z.shiftr_div_pow2, E by lia; done|]. by rewrite drop_app_le by lia.
Qed.

(** ** Runs: what a reader gives from these bits, and that it never panics *)
Definition gets {A} (m : STE Error (Bits I) A) (bs : list bool) (a : A) (bs' : list bool) : Prop := forall s, view s bs -> exists s', m s = (Done a, s') /\ view s' bs'.
Definition holds {A} (m : STE Error (Bits I) A) (bs : list bool) (Q : A -> list bool -> Prop) : Prop :=
  forall s, view s bs -> match m s with (Done a, s') => exists bs', view s' bs' /\ Q a bs' | (Refuse _, _) => True | (Crash, _) => False end.
Lemma gets_bind {A C} (m : STE Error (Bits I) A) (k : A -> STE Error (Bits I) C) bs a bs1 c bs2 : gets m bs a bs1 -> gets (k a) bs1 c bs2 -> gets (m ≫= k) bs c bs2.
Proof. intros Hm Hk s Hs. destruct (Hm s Hs) as (s1 & E & H1). unfold mbind, st_bind. rewrite E. by apply Hk. Qed.
Lemma gets_ret {A} (a : A) bs : gets (mret a) bs a bs.
Proof. intros s Hs. by exists s. Qed.
Lemma gets_lift {A} (o : outcome Error A) a bs : o = Done a -> gets (lift o) bs a bs.
Proof. intros -> s Hs. by exists s. Qed.
Lemma gets_take bs rest n : (length bs <= 16)%nat -> n = Z.of_nat (length bs) -> gets (take_bits n) (bs ++ rest) (val bs) rest.
Proof.
  intros Hl -> s Hs. pose proof (take_view (Z.of_nat (length bs)) s _ ltac:(lia) Hs) as H. rewrite length_app, (proj2 (Z.leb_le _ _)) in H by lia. rewrite Nat2Z.id, take_app_le, drop_app_le, take_ge, drop_ge in H by lia. exact H.
Qed.
Lemma gets_lsb n v rest : (n <= 16)%nat -> 0 <= v < 2 ^ Z.of_nat n -> gets (take_bits (Z.of_nat n)) (lsb n v ++ rest) v rest.
Proof. intros Hn Hv. rewrite <- (val_lsb n v Hv) at 2. apply gets_take; rewrite length_lsb; done. Qed.
Lemma gets_align bs pad rest : bs = pad ++ rest -> (length pad < 8)%nat -> (length rest mod 8 = 0)%nat -> gets align bs tt rest.
Proof.
  intros -> Hp Hr s Hs. destruct (align_view s _ Hs) as (s' & E & H). exists s'. split; [done|]. assert (length (pad ++ rest) mod 8 = length pad)%nat as Hk. { rewrite length_app. pose proof (Nat.div_mod_eq (length rest) 8) as Hd. rewrite Hd, Hr, Nat.add_0_r, (Nat.mul_comm 8), Nat.Div0.mod_add, Nat.mod_small; lia. } rewrite Hk, drop_app_le, drop_ge in H by lia. exact H.
Qed.
Lemma holds_bind {A C} (m : STE Error (Bits I) A) (k : A -> STE Error (Bits I) C) bs P Q : holds m bs P -> (forall a bs', P a bs' -> holds (k a) bs' Q) -> holds (m ≫= k) bs Q.
Proof.
  intros Hm Hk s Hs. specialize (Hm s Hs). unfold mbind, st_bind. destruct (m s) as [[a|e|] s1]; [|done|done]. destruct Hm as (bs1 & H1 & Hp). exact (Hk a bs1 Hp s1 H1).
Qed.
Lemma holds_ret {A} (a : A) bs (Q : A -> list bool -> Prop) : Q a bs -> holds (mret a) bs Q.
Proof. intros H s Hs. by exists bs. Qed.
Lemma holds_lift {A} (o : outcome Error A) bs (Q : A -> list bool -> Prop) : yields (fun a => Q a bs) o -> holds (lift o) bs Q.
Proof. intros H s Hs. unfold lift. destruct o; [|done|done]. by exists bs. Qed.
Lemma holds_weaken {A} (m : STE Error (Bits I) A) bs (P Q : A -> list bool -> Prop) : holds m bs P -> (forall a bs', P a bs' -> Q a bs') -> holds m bs Q.
Proof. intros H HPQ s Hs. specialize (H s Hs). destruct (m s) as [[a|e|] s1]; [|done|done]. destruct H as (bs1 & H1 & Hp). eauto. Qed.
Lemma holds_take n bs : 0 <= n <= 16 -> holds (take_bits n) bs (fun v bs' => 0 <= v < 2 ^ n /\ Z.of_nat (length bs) = Z.of_nat (length bs') + n).
Proof.
  intros Hn s Hs. pose proof (take_view n s bs Hn Hs) as H. destruct (Z.leb_spec n (Z.of_nat (length bs))).
  - destruct H as (s' & -> & Hv). exists (drop (Z.to_nat n) bs). split; [done|]. pose proof (val_bound (take (Z.to_nat n) bs)) as Hb. rewrite length_take_le, Z2Nat.id in Hb by lia. split; [done|]. rewrite length_drop. lia.
  - by destruct H as (s' & ->).
Qed.
Lemma holds_align bs : holds align bs (fun _ bs' => (length bs' <= length bs)%nat).
Proof. intros s Hs. destruct (align_view s bs Hs) as (s' & -> & Hv). exists (drop (length bs mod 8) bs). split; [done|]. rewrite length_drop. lia. Qed.
End view.

(** ** Pieces as one input *)
Definition parts_left (p : Parts) : bytes := match parts p !! part p with Some x => drop (at_part p) x ++ concat (drop (S (part p)) (parts p)) | None => [] end.
Lemma parts_loop_left fuel p : (length (parts p) - part p < fuel)%nat ->
  match parts_left p with [] => (parts_loop fuel p).1 = None | b :: l => exists p', parts_loop fuel p = (Some b, p') /\ parts_left p' = l end.
Proof.
  revert p. induction fuel as [|fuel IH]; intros p Hf; [lia|]. cbn [parts_loop]. unfold parts_left. destruct (parts p !! part p) as [x|] eqn:Ex; [|done]. destruct (x !! at_part p) as [b|] eqn:Eb.
  - rewrite (drop_S _ _ _ Eb). cbn [app]. eexists. split; [done|]. unfold parts_left. cbn [parts part at_part]. rewrite Ex, Nat.add_1_r. done.
  - apply lookup_ge_None in Eb. rewrite drop_ge by done. cbn [app]. apply lookup_lt_Some in Ex as Hl. specialize (IH (mkParts (parts p) (part p + 1) 0)). cbn [parts part at_part] in IH. specialize (IH ltac:(lia)). unfold parts_left in IH. cbn [parts part at_part] in IH. rewrite Nat.add_1_r in IH. rewrite Nat.add_1_r. destruct (parts p !! S (part p)) as [y|] eqn:Ey.
    + rewrite (drop_S _ _ _ Ey). cbn [concat]. rewrite drop_0 in IH. exact IH.
    + apply lookup_ge_None in Ey. rewrite (drop_ge (parts p)) by lia. exact IH.
Qed.
Lemma parts_gives p : Forall is_byte (parts_left p) -> gives p (parts_left p).
Proof.
  remember (parts_left p) as l eqn:El. revert p El. induction l as [|b l IH]; intros p El Hb; pose proof (parts_loop_left (S (length (parts p))) p ltac:(lia)) as H; rewrite <- El in H.
  - by apply gives_end.
  - destruct H as (p' & Ep & El'). apply Forall_cons in Hb as [Hb Hl]. eapply gives_byte; [exact Ep|done|]. by apply IH.
Qed.
Lemma view_new data : Forall is_byte data -> view (mkBits (mkParts [data] 0 0) 0 0) (stream data).
Proof. intros Hd. exists [], data. split; [|done]. assert (parts_left (mkParts [data] 0 0) = data) as E by (unfold parts_left; cbn; by rewrite app_nil_r). rewrite <- E at 2. apply parts_gives. by rewrite E. Qed.
