(* ===== verification/Huffman.v ===== *)
(** * Canonical Huffman codes ([libmind/src/inflate.rs]: [Huffman])

    RFC 1951, 3.2.2: the code of a symbol is decided by the lengths alone; codes of one length follow each other in the order of
    the symbols, and shorter codes come before longer ones. The theorem: from the lengths the table is built without a panic,
    and the bits of a symbol's code are decoded to the symbol. *)
From S2P Require Import Prelude Outcome Inflate InflateBits.

(** ** The code of a symbol *)
(** How many symbols have codes of [l] bits. *)
Definition cnt (l : Z) (ls : list Z) : Z := Z.of_nat (count_occ Z.eq_dec ls l).
Definition used (l : nat) (ls : list Z) : Z := match l with O => 0 | _ => cnt (Z.of_nat l) ls end.
(** The first code of [l] bits. *)
Fixpoint first_code (ls : list Z) (l : nat) : Z := match l with O => 0 | S k => (first_code ls k + used k ls) * 2 end.
(** The symbols with shorter codes. *)
Fixpoint shorter (ls : list Z) (l : nat) : Z := match l with O => 0 | S k => shorter ls k + used k ls end.
Definition rank (ls : list Z) (s : nat) (l : nat) : Z := cnt (Z.of_nat l) (take s ls).
(** Most significant bit first. *)
Fixpoint msb (n : nat) (v : Z) : list bool := match n with O => [] | S n => Z.testbit v (Z.of_nat n) :: msb n v end.
(** [is_code ls s bs]: the lengths [ls] give the symbol [s] the code [bs]. *)
Definition is_code (ls : list Z) (s : nat) (bs : list bool) : Prop := exists l : nat, ls !! s = Some (Z.of_nat l) /\ (1 <= l <= 15)%nat /\
  first_code ls l + rank ls s l < 2 ^ Z.of_nat l /\ bs = msb l (first_code ls l + rank ls s l).
Definition lengths_ok (ls : list Z) : Prop := Forall (fun l => 0 <= l < 16) ls.

(** ** Counting *)
Lemma cnt_nonneg l ls : 0 <= cnt l ls.
Proof. unfold cnt. lia. Qed.
Lemma used_nonneg l ls : 0 <= used l ls.
Proof. unfold used. destruct l; [lia|apply cnt_nonneg]. Qed.
Lemma cnt_app l a b : cnt l (a ++ b) = cnt l a + cnt l b.
Proof. unfold cnt. rewrite count_occ_app. lia. Qed.
Lemma cnt_cons l x ls : cnt l (x :: ls) = (if Z.eqb l x then 1 else 0) + cnt l ls.
Proof. unfold cnt. cbn [count_occ]. destruct (Z.eq_dec x l), (Z.eqb_spec l x); lia. Qed.
Lemma rank_lt ls s (l : nat) : ls !! s = Some (Z.of_nat l) -> 0 <= rank ls s l < cnt (Z.of_nat l) ls.
Proof.
  intros H. unfold rank. split; [apply cnt_nonneg|]. rewrite <- (take_drop_middle _ _ _ H) at 2. rewrite cnt_app, cnt_cons, Z.eqb_refl. pose proof (cnt_nonneg (Z.of_nat l) (drop (S s) ls)). lia.
Qed.
Lemma shorter_mono ls k l : (k <= l)%nat -> shorter ls k <= shorter ls l.
Proof. induction 1 as [|m _ IH]; [lia|]. cbn [shorter]. pose proof (used_nonneg m ls). lia. Qed.
Lemma shorter_all ls l : shorter ls l <= Z.of_nat (length ls).
Proof.
  assert (forall n, shorter ls n <= Z.of_nat (length (filter (fun x => 0 < x < Z.of_nat n) ls))) as H.
  { induction n as [|n IH]; [cbn; lia|]. cbn [shorter]. assert (used n ls + Z.of_nat (length (filter (fun x => 0 < x < Z.of_nat n) ls)) <= Z.of_nat (length (filter (fun x => 0 < x < Z.of_nat (S n)) ls))) as Hs; [|lia].
    clear IH. induction ls as [|x ls IH]; [rewrite !filter_nil; unfold used, cnt; destruct n; cbn; lia|]. assert (used n (x :: ls) = used n ls + if Z.eqb (Z.of_nat n) x then (if Nat.eqb n 0 then 0 else 1) else 0) as ->.
    { unfold used. destruct n; [cbn [Nat.eqb]; destruct (Z.of_nat 0 =? x); lia|]. rewrite cnt_cons. cbn [Nat.eqb]. destruct (Z.eqb_spec (Z.of_nat (S n)) x); lia. }
    rewrite !filter_cons. repeat case_decide; cbn [length]; destruct (Z.eqb_spec (Z.of_nat n) x), (Nat.eqb_spec n 0); lia. }
  specialize (H l). pose proof (length_filter (fun x => 0 < x < Z.of_nat l) ls). lia.
Qed.

(** ** The table *)
Lemma nth_of_lookup {E A} (l : list A) (i : nat) x : l !! i = Some x -> nth_of (E:=E) l (Z.of_nat i) = Done x.
Proof. intros H. unfold nth_of. rewrite (proj2 (Z.ltb_ge _ _)), Nat2Z.id, H by lia. done. Qed.
Lemma set_nth_insert {E A} (l : list A) (i : nat) x : (i < length l)%nat -> set_nth (E:=E) l (Z.of_nat i) x = Done (<[i := x]> l).
Proof. intros H. unfold set_nth. rewrite (proj2 (Z.leb_le _ _)), (proj2 (Z.ltb_lt _ _)), Nat2Z.id by lia. done. Qed.
Lemma nth_of_in {E A} (l : list A) i x : l !! Z.to_nat i = Some x -> 0 <= i -> nth_of (E:=E) l i = Done x.
Proof. intros H Hi. rewrite <- (Z2Nat.id i Hi). by apply nth_of_lookup. Qed.
Lemma set_nth_in {E A} (l : list A) i x : 0 <= i < Z.of_nat (length l) -> set_nth (E:=E) l i x = Done (<[Z.to_nat i := x]> l).
Proof. intros H. rewrite <- (Z2Nat.id i) at 1 by lia. apply set_nth_insert. lia. Qed.
Lemma bump_insert {E} l (i : nat) x : l !! i = Some x -> bump (E:=E) l (Z.of_nat i) = Done (<[i := x + 1]> l).
Proof. intros H. unfold bump. rewrite (nth_of_lookup _ _ _ H). cbn [mbind outcome_bind]. apply set_nth_insert. by eapply lookup_lt_Some. Qed.
Lemma count_lengths_spec cs ls : length cs = 16%nat -> lengths_ok ls ->
  exists cs', count_lengths cs ls = Done cs' /\ length cs' = 16%nat /\ forall k x, cs !! k = Some x -> cs' !! k = Some (x + cnt (Z.of_nat k) ls).
Proof.
  intros Hl Hok. revert cs Hl. induction Hok as [|l ls Hb _ IH]; intros cs Hl; cbn [count_lengths].
  - exists cs. split; [done|]. split; [done|]. intros k x H. change (cnt (Z.of_nat k) []) with 0. by rewrite Z.add_0_r.
  - assert (exists i, l = Z.of_nat i /\ (i < 16)%nat) as (i & -> & Hi) by (exists (Z.to_nat l); lia). destruct (lookup_lt_is_Some_2 cs i ltac:(lia)) as [y Hy]. rewrite (bump_insert _ _ _ Hy). cbn [mbind outcome_bind]. destruct (IH (<[i := y + 1]> cs)) as (cs' & E & Hl' & Hc); [by rewrite length_insert|].
    exists cs'. split; [done|]. split; [done|]. intros k x Hk. rewrite cnt_cons. destruct (decide (k = i)) as [->|Hne].
    + rewrite (Hc i (y + 1)) by (apply list_lookup_insert_eq; lia). rewrite Z.eqb_refl. assert (x = y) by congruence. f_equal. lia.
    + rewrite (Hc k x) by (by rewrite list_lookup_insert_ne). rewrite (proj2 (Z.eqb_neq _ _)) by lia. done.
Qed.
Lemma offsets_shorter ls cs m k : (forall j, (j < length cs)%nat -> cs !! j = Some (used (m + j) ls)) -> (k < length cs)%nat -> offsets_from (shorter ls m) cs !! k = Some (shorter ls (m + k)).
Proof.
  revert m k. induction cs as [|c cs IH]; intros m k Hc Hk; [cbn in Hk; lia|]. cbn [offsets_from]. destruct k as [|k]; [by rewrite Nat.add_0_r|]. cbn [lookup list_lookup]. pose proof (Hc 0%nat ltac:(cbn; lia)) as H0. cbn in H0. rewrite Nat.add_0_r in H0. injection H0 as ->.
  change (shorter ls m + used m ls) with (shorter ls (S m)). rewrite <- Nat.add_succ_comm. apply IH; [|cbn in Hk; lia]. intros j Hj. rewrite Nat.add_succ_comm. apply (Hc (S j)). cbn. lia.
Qed.
Lemma length_offsets t cs : length (offsets_from t cs) = length cs.
Proof. revert t. induction cs; intros t; cbn; auto. Qed.

Section place.
Context (ls : list Z) (Hok : lengths_ok ls).
(** The first [length done_] symbols are placed. *)
Definition placed (done_ offs syms : list Z) : Prop := length offs = 16%nat /\ length syms = length ls /\ Forall (fun x => 0 <= x) syms /\
  (forall l : nat, (1 <= l < 16)%nat -> offs !! l = Some (shorter ls l + cnt (Z.of_nat l) done_)) /\
  (forall s (l : nat), (s < length done_)%nat -> (1 <= l)%nat -> ls !! s = Some (Z.of_nat l) -> syms !! Z.to_nat (shorter ls l + rank ls s l) = Some (Z.of_nat s)).
Lemma places_apart k l r r' : (1 <= k)%nat -> (1 <= l)%nat -> 0 <= r < cnt (Z.of_nat k) ls -> 0 <= r' < cnt (Z.of_nat l) ls -> shorter ls k + r = shorter ls l + r' -> k = l /\ r = r'.
Proof using.
  intros Hk Hl Hr Hr' E. destruct (Nat.lt_trichotomy k l) as [H|[->|H]]; [|lia|].
  - pose proof (shorter_mono ls (S k) l ltac:(lia)) as Hm. cbn [shorter] in Hm. assert (used k ls = cnt (Z.of_nat k) ls) as Hu by (destruct k; [lia|done]). lia.
  - pose proof (shorter_mono ls (S l) k ltac:(lia)) as Hm. cbn [shorter] in Hm. assert (used l ls = cnt (Z.of_nat l) ls) as Hu by (destruct l; [lia|done]). lia.
Qed.
Lemma place_in s (l : nat) : (1 <= l)%nat -> ls !! s = Some (Z.of_nat l) -> 0 <= shorter ls l + rank ls s l < Z.of_nat (length ls).
Proof using.
  intros Hl Hs. pose proof (rank_lt ls s l Hs) as Hr. pose proof (shorter_all ls (S l)) as Ha. cbn [shorter] in Ha. assert (used l ls = cnt (Z.of_nat l) ls) as Hu by (destruct l; [lia|done]). pose proof (shorter_mono ls 0 l ltac:(lia)) as Hm. cbn [shorter] in Hm. lia.
Qed.
Lemma place_symbols_spec done_ rest offs syms : ls = done_ ++ rest -> placed done_ offs syms ->
  exists syms' offs', place_symbols (Z.of_nat (length done_)) rest offs syms = Done syms' /\ placed ls offs' syms'.
Proof using Hok.
  revert done_ offs syms. induction rest as [|x rest IH]; intros done_ offs syms E Hp; cbn [place_symbols].
  { rewrite app_nil_r in E. subst done_. eauto. }
  assert (0 <= x < 16) as Hx by (unfold lengths_ok in Hok; rewrite E in Hok; apply Forall_app in Hok as [_ H]; by apply Forall_cons in H as [H _]). assert (exists l, x = Z.of_nat l /\ (l < 16)%nat) as (l & -> & Hl) by (exists (Z.to_nat x); lia).
  assert (ls !! length done_ = Some (Z.of_nat l)) as Hs by (rewrite E; by apply list_lookup_middle). assert (Z.of_nat (length done_) + 1 = Z.of_nat (length (done_ ++ [Z.of_nat l]))) as En by (rewrite length_app; cbn; lia). assert (rank ls (length done_) l = cnt (Z.of_nat l) done_) as Hrank by (unfold rank; by rewrite E, take_app_length).
  destruct Hp as (H1 & H2 & H3 & H4 & H5). destruct (Z.eqb_spec (Z.of_nat l) 0) as [El|El].
  - rewrite En. apply IH; [by rewrite <- app_assoc|]. split; [done|]. split; [done|]. split; [done|]. split.
    + intros k Hk. rewrite H4 by done. rewrite cnt_app, cnt_cons, (proj2 (Z.eqb_neq _ _)) by lia. f_equal. change (cnt (Z.of_nat k) []) with 0. lia.
    + intros s k Hlt Hk Hsk. apply H5; [|done|done]. rewrite length_app in Hlt. cbn in Hlt. destruct (decide (s = length done_)) as [->|]; [|lia]. assert (Z.of_nat k = Z.of_nat l) by congruence. lia.
  - pose proof (place_in (length done_) l ltac:(lia) Hs) as Hin. rewrite Hrank in Hin. pose proof (H4 l ltac:(lia)) as Ho. rewrite (nth_of_lookup _ _ _ Ho). cbn [mbind outcome_bind]. set (at_ := shorter ls l + cnt (Z.of_nat l) done_) in *. rewrite <- (Z2Nat.id at_) by lia. rewrite set_nth_insert by lia. cbn [mbind outcome_bind]. rewrite (bump_insert _ _ _ Ho). cbn [mbind outcome_bind]. rewrite En. apply IH; [by rewrite <- app_assoc|].
    split; [by rewrite length_insert|]. split; [by rewrite length_insert|]. split; [apply Forall_insert; [done|lia]|]. split.
    + intros k Hk. rewrite cnt_app, cnt_cons. change (cnt (Z.of_nat k) []) with 0. destruct (decide (k = l)) as [->|Hne].
      * rewrite list_lookup_insert_eq by lia. rewrite Z.eqb_refl. unfold at_. f_equal. lia.
      * rewrite list_lookup_insert_ne by done. rewrite (proj2 (Z.eqb_neq _ _)), H4 by lia. f_equal. lia.
    + intros s k Hlt Hk Hsk. rewrite length_app in Hlt. cbn in Hlt. destruct (decide (s = length done_)) as [->|Hne].
      * assert (k = l) as -> by (assert (Z.of_nat k = Z.of_nat l) by congruence; lia). rewrite Hrank. fold at_. apply list_lookup_insert_eq. lia.
      * rewrite list_lookup_insert_ne; [apply H5; [lia|done|done]|]. intros Eat. pose proof (place_in s k Hk Hsk) as Hin'. destruct (places_apart k l (rank ls s k) (cnt (Z.of_nat l) done_)) as [-> Er]; [done|lia|by apply rank_lt|rewrite <- Hrank; by apply rank_lt|unfold at_ in Eat; lia|].
        unfold rank in Er. assert (s < length done_)%nat as Hlt' by lia. rewrite E in Hsk, Er. rewrite lookup_app_l in Hsk by done. rewrite take_app_le in Er by lia. pose proof (rank_lt done_ s l Hsk) as Hrl. unfold rank in Hrl. lia.
Qed.
End place.
(** [h] is the table of the lengths [ls]. *)
Definition table (ls : list Z) (h : Huffman) : Prop := length (counts h) = 16%nat /\ (forall k, (k < 16)%nat -> counts h !! k = Some (used k ls)) /\ Forall (fun x => 0 <= x) (symbols h) /\
  forall s (l : nat), (1 <= l)%nat -> ls !! s = Some (Z.of_nat l) -> symbols h !! Z.to_nat (shorter ls l + rank ls s l) = Some (Z.of_nat s).
Lemma huffman_new_table ls : lengths_ok ls -> exists h, huffman_new ls = Done h /\ table ls h.
Proof.
  intros Hok. unfold huffman_new. destruct (count_lengths_spec (replicate 16 0) ls eq_refl Hok) as (cs & -> & Hl & Hc). cbn [mbind outcome_bind]. assert (set_nth (E:=Error) cs 0 0 = Done (<[0%nat := 0]> cs)) as -> by (apply (set_nth_insert cs 0%nat); lia). cbn [mbind outcome_bind]. set (cs' := <[0%nat := 0]> cs). assert (length cs' = 16%nat) as Hl' by (unfold cs'; by rewrite length_insert).
  assert (forall k, (k < 16)%nat -> cs' !! k = Some (used k ls)) as Hc'.
  { intros [|k] Hk; unfold cs'; [by rewrite list_lookup_insert_eq by lia|]. rewrite list_lookup_insert_ne by lia. rewrite (Hc (S k) 0) by (by apply lookup_replicate_2). done. }
  destruct (place_symbols_spec ls Hok [] ls (offsets_from 0 cs') (replicate (length ls) 0) eq_refl) as (syms & offs & E & H1 & H2 & H3 & H4 & H5).
  { split; [by rewrite length_offsets|]. split; [apply length_replicate|]. split; [apply Forall_replicate; lia|]. split; [|cbn; lia]. intros l Hk. pose proof (offsets_shorter ls cs' 0 l ltac:(intros j Hj; apply Hc'; lia) ltac:(lia)) as Ho. cbn [shorter Nat.add] in Ho. rewrite Ho. f_equal. change (cnt (Z.of_nat l) []) with 0. lia. }
  change (Z.of_nat (length [])) with 0 in E. rewrite E. cbn [mbind outcome_bind]. eexists. split; [done|]. split; [done|]. split; [done|]. split; [done|]. intros s l Hl1 Hs. apply H5; [|done|done]. by eapply lookup_lt_Some.
Qed.

(** ** Decoding *)
Lemma first_code_mono ls k l : (k < l)%nat -> (first_code ls k + used k ls) * 2 ^ Z.of_nat (l - k) <= first_code ls l.
Proof.
  induction l as [|l IH]; intros H; [lia|]. cbn [first_code]. destruct (decide (k = l)) as [->|Hne]; [replace (S l - l)%nat with 1%nat by lia; change (2 ^ Z.of_nat 1) with 2; lia|]. specialize (IH ltac:(lia)). pose proof (used_nonneg l ls). replace (S l - k)%nat with (S (l - k)) by lia. rewrite Nat2Z.inj_succ, Z.pow_succ_r by lia. nia.
Qed.
Section decode.
Context {I : Type} `{!Input I}.
(** After [len] of its [l] bits, the bits of the code [c] are [c / 2 ^ (l - len)]. *)
Lemma decode_loop_code ls h s (l len : nat) c rest : table ls h -> ls !! s = Some (Z.of_nat l) -> (l <= 15)%nat -> (len < l)%nat -> c = first_code ls l + rank ls s l -> 0 <= c < 2 ^ Z.of_nat l ->
  gets (I:=I) (decode_loop h (drop (S len) (counts h)) (c / 2 ^ Z.of_nat (l - len) * 2) (first_code ls (S len)) (shorter ls (S len))) (msb (l - len) c ++ rest) (Z.of_nat s) rest.
Proof.
  intros Ht Hs Hl15 Hlen Hc Hcb. destruct Ht as (Hl & Hcnt & _ & Hsym). remember (l - len - 1)%nat as d eqn:Ed. revert len Hlen Ed. induction d as [|d IH]; intros len Hlen Ed; replace (l - len)%nat with (S (l - len - 1)) by lia; rewrite <- Ed; cbn [msb app]; (assert (S len < 16)%nat as H16 by lia); rewrite (drop_S _ _ _ (Hcnt (S len) H16)); cbn [decode_loop].
  - eapply gets_bind; [apply (gets_take [_] rest 1); [cbn; lia|done]|]. assert (S len = l) as El by lia. rewrite El. cbn [val Nat.sub]. change (2 ^ Z.of_nat 1) with 2. change (Z.of_nat 0) with 0. rewrite Z.mul_0_r, Z.add_0_r, Z.bit0_odd. assert (Z.lor (c / 2 * 2) (Z.b2z (Z.odd c)) = c) as ->.
    { rewrite Z.lor_comm, <- Z.shiftl_mul_pow2 with (n := 1) by lia. rewrite lor_high; [|lia|destruct (Z.odd c); cbn; lia|apply Z.div_pos; lia]. rewrite <- Z.div2_div. change (2 ^ 1) with 2. rewrite (Z.div2_odd c) at 3. lia. }
    pose proof (rank_lt ls s l Hs) as Hr. assert (used l ls = cnt (Z.of_nat l) ls) as -> by (destruct l; [lia|done]). rewrite (proj2 (Z.ltb_lt _ _)) by lia. apply gets_lift. pose proof (place_in ls s l ltac:(lia) Hs) as Hin. rewrite (proj2 (Z.ltb_ge _ _)) by lia. replace (shorter ls l + c - first_code ls l) with (shorter ls l + rank ls s l) by lia. rewrite Hsym; [done|lia|done].
  - eapply gets_bind; [apply (gets_take [_] (msb (S d) c ++ rest) 1); [cbn; lia|done]|]. cbn [val]. rewrite Z.mul_0_r, Z.add_0_r. set (e := Z.of_nat (S d)). assert (c / 2 ^ Z.of_nat (S (S d)) * 2 = Z.shiftl (c / 2 ^ e / 2) 1) as ->.
    { rewrite Z.shiftl_mul_pow2, Z.pow_1_r, Z.div_div by (try lia; apply Z.pow_pos_nonneg; lia). unfold e. rewrite (Nat2Z.inj_succ (S d)), Z.pow_succ_r by lia. f_equal. f_equal. lia. }
    assert (Z.lor (Z.shiftl (c / 2 ^ e / 2) 1) (Z.b2z (Z.testbit c e)) = c / 2 ^ e) as ->.
    { assert (0 <= c / 2 ^ e) by (apply Z.div_pos; [lia|apply Z.pow_pos_nonneg; lia]). rewrite Z.lor_comm, lor_high; [|lia|destruct (Z.testbit c e); cbn; lia|apply Z.div_pos; lia]. change (2 ^ 1) with 2. rewrite Z.testbit_odd, Z.shiftr_div_pow2 by lia. rewrite <- Z.div2_div. rewrite (Z.div2_odd (c / 2 ^ e)) at 3. lia. }
    pose proof (first_code_mono ls (S len) l ltac:(lia)) as Hm. replace (l - S len)%nat with (S d) in Hm by lia. fold e in Hm. pose proof (rank_lt ls s l Hs) as Hr. assert (first_code ls (S len) + used (S len) ls <= c / 2 ^ e) as Hge by (apply Z.div_le_lower_bound; [apply Z.pow_pos_nonneg; lia|nia]).
    rewrite (proj2 (Z.ltb_ge _ _)) by lia. specialize (IH (S len) ltac:(lia) ltac:(lia)). replace (l - S len)%nat with (S d) in IH by lia. fold e in IH. rewrite !Z.shiftl_mul_pow2, Z.pow_1_r by lia. exact IH.
Qed.
Lemma decode_code ls h s bs rest : table ls h -> is_code ls s bs -> gets (I:=I) (decode h) (bs ++ rest) (Z.of_nat s) rest.
Proof.
  intros Ht (l & Hs & Hl & Hb & ->). unfold decode. pose proof (decode_loop_code ls h s l 0 _ rest Ht Hs ltac:(lia) ltac:(lia) eq_refl) as H. rewrite Nat.sub_0_r in H. pose proof (first_code_mono ls 0 l ltac:(lia)) as Hm. cbn [first_code used] in Hm. pose proof (rank_lt ls s l Hs) as Hr. specialize (H ltac:(lia)). rewrite Z.div_small in H by lia. cbn [first_code shorter used] in H.
  destruct (counts h) as [|c0 cs] eqn:Ec; [|exact H]. destruct Ht as [Ht _]. rewrite Ec in Ht. done.
Qed.
Lemma decode_loop_holds h cs code first index bs : Forall (fun x => 0 <= x) (symbols h) -> holds (I:=I) (decode_loop h cs code first index) bs (fun v bs' => 0 <= v /\ (length bs' < length bs)%nat).
Proof.
  intros Hs. revert code first index bs. induction cs as [|c cs IH]; intros code first index bs; cbn [decode_loop]; [by intros s Hv|]. eapply holds_bind; [apply (holds_take 1); lia|]. cbv beta. intros b bs1 [_ Hlen]. destruct (_ <? _).
  - apply holds_lift. destruct (_ <? _); [done|]. destruct (symbols h !! _) as [v|] eqn:E; [|done]. cbn. split; [|lia]. apply (Forall_lookup_1 _ _ _ _ Hs E).
  - eapply holds_weaken; [apply IH|]. cbv beta. intros v bs2 [H1 H2]. split; [done|lia].
Qed.
Lemma decode_holds ls h bs : table ls h -> holds (I:=I) (decode h) bs (fun v bs' => 0 <= v /\ (length bs' < length bs)%nat).
Proof. intros (_ & _ & H & _). by apply decode_loop_holds. Qed.
End decode.
