(* ===== verification/InflateSpec.v ===== *)
(** * What a DEFLATE stream means, and that it is read so ([libmind/src/inflate.rs]: [dynamic], [Out], [deflate])

    RFC 1951 as a relation between bits and bytes: blocks stored, with the fixed codes and with codes of their own, copies from
    the 32 KiB before. The theorems: every stream of the RFC is decompressed to its bytes, which reach the sink in order;
    and no input makes the decompressor panic or run on past its bits. *)
From S2P Require Import Prelude Outcome Inflate InflateBits Huffman.

(** ** The format *)
(** The last byte but [d - 1] of [h], [n] times, each one copied counting at once. *)
Fixpoint copied (n : nat) (d : Z) (h : bytes) : bytes :=
  match n with O => h | S n => copied n d (h ++ match h !! (length h - Z.to_nat d)%nat with Some b => [b] | None => [] end) end.
(** The symbols of a block, to its end: the output before and after. *)
Inductive body (lit dist : list Z) : list bool -> bytes -> bytes -> Prop :=
| body_end bs h : is_code lit 256 bs -> body lit dist bs h h
| body_literal c bs rest h h' : (c < 256)%nat -> is_code lit c bs -> body lit dist rest (h ++ [Z.of_nat c]) h' -> body lit dist (bs ++ rest) h h'
| body_copy i d bl el bd ed v w bs bs' rest h h' : LENGTH_BASE !! i = Some bl -> LENGTH_EXTRA !! i = Some (Z.of_nat el) -> DIST_BASE !! d = Some bd -> DIST_EXTRA !! d = Some (Z.of_nat ed) ->
    0 <= v < 2 ^ Z.of_nat el -> 0 <= w < 2 ^ Z.of_nat ed -> is_code lit (257 + i) bs -> is_code dist d bs' -> bd + w <= Z.of_nat (length h) ->
    body lit dist rest (copied (Z.to_nat (bl + v)) (bd + w) h) h' -> body lit dist (bs ++ lsb el v ++ bs' ++ lsb ed w ++ rest) h h'.
(** Code lengths, those before given: one at a time, the last one again, or zeros. *)
Inductive lengths_coded (codes : list Z) : list bool -> list Z -> list Z -> Prop :=
| coded_end ls : lengths_coded codes [] ls ls
| coded_one v bs rest acc ls : (v <= 15)%nat -> is_code codes v bs -> lengths_coded codes rest (acc ++ [Z.of_nat v]) ls -> lengths_coded codes (bs ++ rest) acc ls
| coded_again x r bs rest acc ls : 0 <= r < 4 -> is_code codes 16 bs -> lengths_coded codes rest ((acc ++ [x]) ++ replicate (3 + Z.to_nat r) x) ls -> lengths_coded codes (bs ++ lsb 2 r ++ rest) (acc ++ [x]) ls
| coded_zeros r bs rest acc ls : 0 <= r < 8 -> is_code codes 17 bs -> lengths_coded codes rest (acc ++ replicate (3 + Z.to_nat r) 0) ls -> lengths_coded codes (bs ++ lsb 3 r ++ rest) acc ls
| coded_more r bs rest acc ls : 0 <= r < 128 -> is_code codes 18 bs -> lengths_coded codes rest (acc ++ replicate (11 + Z.to_nat r) 0) ls -> lengths_coded codes (bs ++ lsb 7 r ++ rest) acc ls.
(** The head of a dynamic block: the two tables' lengths. *)
Definition tables_coded (bs : list bool) (lit dist : list Z) : Prop := exists (codes : list Z) (n : nat) bs', length codes = 19%nat /\ Forall (fun l => 0 <= l < 8) codes /\ (4 <= n <= 19)%nat /\ (257 <= length lit <= 288)%nat /\ (1 <= length dist <= 32)%nat /\
  (forall i, i ∈ drop n ORDER -> codes !! i = Some 0) /\ lengths_coded codes bs' [] (lit ++ dist) /\
  bs = lsb 5 (Z.of_nat (length lit - 257)) ++ lsb 5 (Z.of_nat (length dist - 1)) ++ lsb 4 (Z.of_nat (n - 4)) ++ concat (map (fun i => lsb 3 (codes !!! i)) (take n ORDER)) ++ bs'.
(** One block; [rest] is what follows it to the end of the input, a whole number of bytes. *)
Inductive block : list bool -> list bool -> bytes -> bytes -> Prop :=
| block_stored pad data rest h : (length pad < 8)%nat -> Forall is_byte data -> Z.of_nat (length data) < 2 ^ 16 -> (length rest mod 8 = 0)%nat ->
    block ([false; false] ++ pad ++ lsb 16 (Z.of_nat (length data)) ++ lsb 16 (0xFFFF - Z.of_nat (length data)) ++ stream data ++ rest) rest h (h ++ data)
| block_fixed bs rest h h' : body fixed_lengths (replicate 30 5) bs h h' -> block ([true; false] ++ bs ++ rest) rest h h'
| block_dynamic lit dist head bs rest h h' : tables_coded head lit dist -> body lit dist bs h h' -> block ([false; true] ++ head ++ bs ++ rest) rest h h'.
Inductive deflated : list bool -> list bool -> bytes -> bytes -> Prop :=
| deflated_last bs rest h h' : block bs rest h h' -> deflated (true :: bs) rest h h'
| deflated_more bs rest end_ h h' h'' : block bs rest h h' -> deflated rest end_ h' h'' -> deflated (false :: bs) end_ h h''.

(** ** A dynamic block's head *)
Section heads.
Context {I : Type} `{!Input I}.
Lemma is_code_ok ls s bs : is_code ls s bs -> (1 <= length bs)%nat.
Proof. intros (l & _ & Hl & _ & ->). assert (forall n v, length (msb n v) = n) as Hm by (induction n; intros v; cbn; auto). rewrite Hm. lia. Qed.
Lemma code_lengths_get (codes : list Z) order ls rest : Forall (fun l => 0 <= l < 8) codes -> length ls = 19%nat -> length codes = 19%nat -> Forall (fun i => (i < 19)%nat) order ->
  exists ls', gets (I:=I) (code_lengths_loop order ls) (concat (map (fun i => lsb 3 (codes !!! i)) order) ++ rest) ls' rest /\ length ls' = 19%nat /\
    forall i x, ls !! i = Some x -> ls' !! i = if decide (i ∈ order) then codes !! i else Some x.
Proof.
  intros Hc Hl Hlc Ho. revert ls Hl. induction Ho as [|i order Hi _ IH]; intros ls Hl; cbn [code_lengths_loop map concat].
  - exists ls. split; [apply gets_ret|]. split; [done|]. intros i x Hx. by rewrite decide_False by set_solver.
  - destruct (lookup_lt_is_Some_2 codes i ltac:(lia)) as [l Hil]. rewrite (list_lookup_total_correct _ _ _ Hil). destruct (IH (<[i := l]> ls) ltac:(by rewrite length_insert)) as (ls' & Hg & Hl' & Hx). exists ls'. split; [|split; [done|]].
    + rewrite <- app_assoc. eapply gets_bind; [apply (gets_lsb 3 l); [lia|apply (Forall_lookup_1 _ _ _ _ Hc Hil)]|]. eapply gets_bind; [apply gets_lift, set_nth_insert; lia|]. exact Hg.
    + intros j x Hj. destruct (decide (j = i)) as [->|Hne].
      * rewrite (Hx i l) by (apply list_lookup_insert_eq; lia). rewrite (decide_True (P := i ∈ i :: order)) by set_solver. case_decide; congruence.
      * rewrite (Hx j x) by (by rewrite list_lookup_insert_ne). destruct (decide (j ∈ order)); [rewrite decide_True by set_solver; done|rewrite decide_False by set_solver; done].
Qed.
Lemma order_all i : (i < 19)%nat -> i ∈ ORDER.
Proof. intros Hi. apply list_elem_of_In. do 19 (destruct i as [|i]; [cbn; tauto|]). lia. Qed.
Lemma order_small n : Forall (fun i => (i < 19)%nat) (take n ORDER).
Proof. apply Forall_take. repeat constructor; lia. Qed.
Lemma code_lengths_all codes n rest : Forall (fun l => 0 <= l < 8) codes -> length codes = 19%nat -> (forall i, i ∈ drop n ORDER -> codes !! i = Some 0) ->
  gets (I:=I) (code_lengths_loop (take n ORDER) (replicate 19 0)) (concat (map (fun i => lsb 3 (codes !!! i)) (take n ORDER)) ++ rest) codes rest.
Proof.
  intros Hc Hl Hz. destruct (code_lengths_get codes (take n ORDER) (replicate 19 0) rest Hc eq_refl Hl (order_small n)) as (ls' & Hg & Hl' & Hx). assert (ls' = codes) as <-; [|done]. apply list_eq_same_length with (n := 19%nat); [done|done|]. intros i x y Hi H1 H2. specialize (Hx i 0 ltac:(by apply lookup_replicate_2)). case_decide as Hd; [congruence|].
  pose proof (order_all i Hi) as Ha. rewrite <- (take_drop n ORDER), elem_of_app in Ha. destruct Ha as [|Ha]; [done|]. specialize (Hz i Ha). congruence.
Qed.
Lemma coded_prefix codes bs acc ls : lengths_coded codes bs acc ls -> (length acc <= length ls)%nat.
Proof. induction 1 as [|v bs rest acc ls _ _ _ IH|x r bs rest acc ls _ _ _ IH|r bs rest acc ls _ _ _ IH|r bs rest acc ls _ _ _ IH]; rewrite ?length_app, ?length_replicate in *; cbn [length] in *; lia. Qed.
Lemma fill_zeros (acc : list Z) n r v : (length acc + r <= n)%nat -> take (length acc) (acc ++ replicate (n - length acc) 0) ++ replicate r v ++ drop (length acc + r) (acc ++ replicate (n - length acc) 0) = (acc ++ replicate r v) ++ replicate (n - length (acc ++ replicate r v)) 0.
Proof.
  intros H. rewrite take_app_length, <- app_assoc, length_app, length_replicate. f_equal. f_equal. rewrite drop_app_ge by lia. replace (length acc + r - length acc)%nat with r by lia. rewrite drop_replicate. f_equal. lia.
Qed.
(** One turn of the loop, once the value and how often it comes are known. *)
Lemma lengths_turn fuel (codes : Huffman) n acc sym v r bs bs1 rest full : gets (I:=I) (decode codes) bs sym bs1 -> (length acc + r <= n)%nat -> (1 <= r)%nat ->
  gets (I:=I) (if sym <=? 15 then mret (sym, 1) else if sym =? 16 then v ← lift (match length acc with O => Refuse RepeatNothing | S k => or_refuse ((acc ++ replicate (n - length acc) 0) !! k) RepeatNothing end); r ← take_bits 2; mret (v, 3 + r)
    else if sym =? 17 then r ← take_bits 3; mret (0, 3 + r) else r ← take_bits 7; mret (0, 11 + r)) bs1 (v, Z.of_nat r) rest ->
  (forall bs2, gets (I:=I) (lengths_loop fuel codes n ((acc ++ replicate r v) ++ replicate (n - length (acc ++ replicate r v)) 0) (length (acc ++ replicate r v))) rest full bs2 ->
     gets (I:=I) (lengths_loop (S fuel) codes n (acc ++ replicate (n - length acc) 0) (length acc)) bs full bs2).
Proof.
  intros Hd Hn Hr Hv bs2 Hnext. cbn [lengths_loop]. rewrite (proj2 (Nat.ltb_lt _ _)) by lia. eapply gets_bind; [exact Hd|]. eapply gets_bind; [exact Hv|]. cbv beta iota. rewrite Nat2Z.id, (proj2 (Nat.ltb_ge n _)) by lia. rewrite (proj2 (Nat.ltb_ge _ _)) by (rewrite length_app, length_replicate; lia). rewrite fill_zeros by done. rewrite length_app, length_replicate in Hnext. rewrite length_app, length_replicate. exact Hnext.
Qed.
Lemma lengths_get codes h bs acc full fuel rest : table codes h -> lengths_coded codes bs acc full -> (length full - length acc < fuel)%nat ->
  gets (I:=I) (lengths_loop fuel h (length full) (acc ++ replicate (length full - length acc) 0) (length acc)) (bs ++ rest) full rest.
Proof.
  intros Ht Hc. revert fuel. induction Hc as [ls|v bs rest' acc ls Hv Hcode Hc IH|x r bs rest' acc ls Hr Hcode Hc IH|r bs rest' acc ls Hr Hcode Hc IH|r bs rest' acc ls Hr Hcode Hc IH]; intros fuel Hf; (destruct fuel as [|fuel]; [lia|]).
  - cbn [lengths_loop]. rewrite Nat.ltb_irrefl, Nat.sub_diag, app_nil_r. apply gets_ret.
  - pose proof (coded_prefix _ _ _ _ Hc) as Hp. rewrite length_app in Hp. cbn [length] in Hp. rewrite <- (app_assoc bs). eapply (lengths_turn fuel h _ acc _ (Z.of_nat v) 1); [by eapply decode_code|lia|lia| |].
    + rewrite (proj2 (Z.leb_le _ _)) by lia. apply gets_ret.
    + apply IH. rewrite length_app. cbn [length]. lia.
  - pose proof (coded_prefix _ _ _ _ Hc) as Hp. rewrite length_app, length_replicate in Hp. rewrite <- (app_assoc bs), <- (app_assoc (lsb _ _)). eapply (lengths_turn fuel h _ (acc ++ [x]) _ x (3 + Z.to_nat r)); [by eapply decode_code|lia|lia| |].
    + change (Z.of_nat 16 <=? 15) with false. change (Z.of_nat 16 =? 16) with true. cbv iota. eapply (gets_bind _ _ _ x); [apply gets_lift|].
      * rewrite length_app. cbn [length]. rewrite Nat.add_1_r. rewrite lookup_app_l by (rewrite length_app; cbn; lia). rewrite list_lookup_middle by done. done.
      * eapply gets_bind; [apply (gets_lsb 2 r); [lia|done]|]. replace (Z.of_nat (3 + Z.to_nat r)) with (3 + r) by lia. apply gets_ret.
    + apply IH. rewrite length_app, length_replicate. lia.
  - pose proof (coded_prefix _ _ _ _ Hc) as Hp. rewrite length_app, length_replicate in Hp. rewrite <- (app_assoc bs), <- (app_assoc (lsb _ _)). eapply (lengths_turn fuel h _ acc _ 0 (3 + Z.to_nat r)); [by eapply decode_code|lia|lia| |].
    + change (Z.of_nat 17 <=? 15) with false. change (Z.of_nat 17 =? 16) with false. change (Z.of_nat 17 =? 17) with true. cbv iota. eapply gets_bind; [apply (gets_lsb 3 r); [lia|done]|]. replace (Z.of_nat (3 + Z.to_nat r)) with (3 + r) by lia. apply gets_ret.
    + apply IH. rewrite length_app, length_replicate. lia.
  - pose proof (coded_prefix _ _ _ _ Hc) as Hp. rewrite length_app, length_replicate in Hp. rewrite <- (app_assoc bs), <- (app_assoc (lsb _ _)). eapply (lengths_turn fuel h _ acc _ 0 (11 + Z.to_nat r)); [by eapply decode_code|lia|lia| |].
    + change (Z.of_nat 18 <=? 15) with false. change (Z.of_nat 18 =? 16) with false. change (Z.of_nat 18 =? 17) with false. cbv iota. eapply gets_bind; [apply (gets_lsb 7 r); [lia|done]|]. replace (Z.of_nat (11 + Z.to_nat r)) with (11 + r) by lia. apply gets_ret.
    + apply IH. rewrite length_app, length_replicate. lia.
Qed.
Lemma coded_ok codes bs acc full : lengths_coded codes bs acc full -> lengths_ok acc -> lengths_ok full.
Proof.
  unfold lengths_ok. induction 1 as [|v bs rest acc ls Hv _ _ IH|x r bs rest acc ls _ _ _ IH|r bs rest acc ls _ _ _ IH|r bs rest acc ls _ _ _ IH]; intros Ha; [done| | | |]; apply IH; apply Forall_app; (split; [done|]).
  - apply Forall_singleton. lia.
  - apply Forall_app in Ha as [_ Ha]. apply Forall_cons in Ha as [Ha _]. apply Forall_replicate. exact Ha.
  - apply Forall_replicate. cbv beta. lia.
  - apply Forall_replicate. cbv beta. lia.
Qed.
Lemma dynamic_get head lit dist rest : tables_coded head lit dist -> exists l d, gets (I:=I) dynamic (head ++ rest) (l, d) rest /\ table lit l /\ table dist d.
Proof.
  intros (codes & n & bs' & Hl & Hc & Hn & Hlit & Hdist & Hz & Hcoded & ->). assert (lengths_ok codes) as Hok by (eapply Forall_impl; [exact Hc|]; cbv beta; lia). destruct (huffman_new_table codes Hok) as (h & Eh & Ht). pose proof (coded_ok _ _ _ _ Hcoded ltac:(constructor)) as Hboth. apply Forall_app in Hboth as [Hok1 Hok2].
  destruct (huffman_new_table lit Hok1) as (l & El & Htl). destruct (huffman_new_table dist Hok2) as (d & Ed & Htd). exists l, d. split; [|done]. rewrite <- !app_assoc. unfold dynamic.
  eapply gets_bind; [apply (gets_lsb 5); [lia|change (2 ^ Z.of_nat 5) with 32; lia]|]. eapply gets_bind; [apply (gets_lsb 5); [lia|change (2 ^ Z.of_nat 5) with 32; lia]|]. eapply gets_bind; [apply (gets_lsb 4); [lia|change (2 ^ Z.of_nat 4) with 16; lia]|]. cbv zeta.
  replace (Z.to_nat (Z.of_nat (length lit - 257) + 257)) with (length lit) by lia. replace (Z.to_nat (Z.of_nat (length dist - 1) + 1)) with (length dist) by lia. replace (Z.to_nat (Z.of_nat (n - 4) + 4)) with n by lia. eapply gets_bind; [by apply code_lengths_all|]. eapply gets_bind; [by apply gets_lift|].
  eapply gets_bind; [|eapply gets_bind; [apply gets_lift|eapply gets_bind; [apply gets_lift|apply gets_ret]]].
  - pose proof (lengths_get codes h bs' [] (lit ++ dist) (S (length lit + length dist)) rest Ht Hcoded ltac:(rewrite length_app; cbn [length]; lia)) as H. cbn [length app] in H. rewrite Nat.sub_0_r, length_app in H. exact H.
  - by rewrite take_app_length.
  - by rewrite drop_app_length.
Qed.
End heads.

(** ** The output *)
Lemma window_pos : 0 < WINDOW.
Proof. done. Qed.
Lemma distance_small d bd (ed : nat) w : DIST_BASE !! d = Some bd -> DIST_EXTRA !! d = Some (Z.of_nat ed) -> 0 <= w < 2 ^ Z.of_nat ed -> 1 <= bd + w <= WINDOW.
Proof.
  assert (forallb (fun '(b, e) => (1 <=? b) && (b + 2 ^ e <=? WINDOW + 1)) (zip DIST_BASE DIST_EXTRA) = true) as H by reflexivity. intros Hb He Hw. rewrite forallb_forall in H. specialize (H (bd, Z.of_nat ed)). rewrite <- list_elem_of_In in H. assert ((bd, Z.of_nat ed) ∈ zip DIST_BASE DIST_EXTRA) as Hin by (apply list_elem_of_lookup; exists d; rewrite lookup_zip_with, Hb, He; done). specialize (H Hin). lia.
Qed.
Lemma extra_small (l : list Z) i (e : nat) : l = LENGTH_EXTRA \/ l = DIST_EXTRA -> l !! i = Some (Z.of_nat e) -> (e <= 16)%nat.
Proof.
  intros Hl He. assert (forallb (fun x => x <=? 16) l = true) as H by (destruct Hl as [->| ->]; reflexivity). rewrite forallb_forall in H. specialize (H (Z.of_nat e)). rewrite <- list_elem_of_In in H. specialize (H ltac:(apply list_elem_of_lookup; eauto)). lia.
Qed.
#[local] Opaque WINDOW huffman_new.
Section output.
Context {K : Type} `{!Sink K} (has : K -> bytes -> Prop) (give_all : forall p k x, has k x -> exists k', give p k = (true, k') /\ has k' (x ++ p)) (g0 : bytes).
(** The output so far is [h]: its end is in the window, and all of it is with the sink or waits to go there. *)
Definition shows (o : Out K) (h : bytes) : Prop :=
  length (window o) = Z.to_nat WINDOW /\ oat o = Z.of_nat (length h) mod WINDOW /\ filled o = Z.min (Z.of_nat (length h)) WINDOW /\
  (forall j, Z.of_nat (length h) - WINDOW <= Z.of_nat j < Z.of_nat (length h) -> window o !! Z.to_nat (Z.of_nat j mod WINDOW) = h !! j) /\ (exists x, has (sink o) x /\ x ++ pending o = g0 ++ h) /\ stopped o = false.
Lemma flush_shows o h : shows o h -> shows (flush o) h /\ has (sink (flush o)) (g0 ++ h).
Proof using give_all.
  intros (H1 & H2 & H3 & H4 & (x & Hx & H5) & H6). unfold flush. rewrite H6. cbn [negb andb]. destruct (decide (pending o = [])) as [E|E].
  - rewrite bool_decide_true by done. cbn [negb]. rewrite E, app_nil_r in H5. subst x. split; [|done]. unfold shows. cbn. split_and!; try done; [exists (g0 ++ h); by rewrite app_nil_r].
  - rewrite bool_decide_false by done. cbn [negb]. destruct (give_all (pending o) (sink o) x Hx) as (k' & -> & Hk). rewrite H5 in Hk. split; [|done]. unfold shows. cbn. split_and!; try done; [exists (g0 ++ h); by rewrite app_nil_r].
Qed.
Lemma push_shows b o h : shows o h -> exists o', push b o = Done o' /\ shows o' (h ++ [b]).
Proof using give_all.
  intros (H1 & H2 & H3 & H4 & (x & Hx & H5) & H6). pose proof window_pos as Hw. pose proof (Z.mod_pos_bound (Z.of_nat (length h)) WINDOW Hw) as Hm. unfold push. rewrite H2, set_nth_in by lia. cbn [mbind outcome_bind].
  set (o1 := mkOut _ _ _ _ _ _). assert (shows o1 (h ++ [b])) as Hs.
  { unfold shows, o1. cbn [window oat filled pending sink stopped]. rewrite length_insert, length_app. cbn [length]. split; [done|]. split; [rewrite Zplus_mod_idemp_l; f_equal; lia|]. split; [lia|]. split; [|split; [exists x; by rewrite !app_assoc, H5|done]].
    intros j Hj. destruct (decide (j = length h)) as [->|Hne].
    - rewrite list_lookup_insert_eq by lia. by rewrite list_lookup_middle.
    - rewrite lookup_app_l by lia. rewrite list_lookup_insert_ne; [apply H4; lia|]. intros E. pose proof (Z.mod_pos_bound (Z.of_nat j) WINDOW Hw). assert (Z.of_nat (length h) mod WINDOW = Z.of_nat j mod WINDOW) as Em by lia. pose proof (Z.div_mod (Z.of_nat (length h)) WINDOW ltac:(lia)) as D1. pose proof (Z.div_mod (Z.of_nat j) WINDOW ltac:(lia)) as D2. rewrite Em in D1. set (p := Z.of_nat (length h) / WINDOW) in *. set (q := Z.of_nat j / WINDOW) in *. assert (WINDOW * (p - q) = Z.of_nat (length h) - Z.of_nat j) as Ed by lia. assert (p - q = 0 \/ 1 <= p - q \/ p - q <= -1) as [E0|[E0|E0]] by lia; [rewrite E0 in Ed; lia|nia|nia]. }
  destruct (_ <=? _); [|by exists o1]. exists (flush o1). split; [done|]. by apply flush_shows.
Qed.
Lemma copy_loop_shows n d o h : 1 <= d <= Z.min (Z.of_nat (length h)) WINDOW -> shows o h -> exists o', copy_loop n d o = Done o' /\ shows o' (copied n d h).
Proof using give_all.
  revert o h. induction n as [|n IH]; intros o h Hd Hs; cbn [copy_loop copied]; [by exists o|]. pose proof window_pos as Hw. pose proof Hs as (H1 & H2 & H3 & H4 & _). rewrite H2. set (j := (length h - Z.to_nat d)%nat). destruct (lookup_lt_is_Some_2 h j ltac:(lia)) as [b Hb].
  assert ((Z.of_nat (length h) mod WINDOW + WINDOW - d) mod WINDOW = Z.of_nat j mod WINDOW) as ->. { replace (Z.of_nat (length h) mod WINDOW + WINDOW - d) with (Z.of_nat (length h) mod WINDOW + (WINDOW - d)) by lia. rewrite Zplus_mod_idemp_l. replace (Z.of_nat (length h) + (WINDOW - d)) with (Z.of_nat j + 1 * WINDOW) by lia. apply Z_mod_plus_full. }
  pose proof (Z.mod_pos_bound (Z.of_nat j) WINDOW Hw) as Hm. rewrite (nth_of_in _ _ b) by (rewrite ?H4 by lia; done || lia). cbn [mbind outcome_bind]. destruct (push_shows b o h Hs) as (o1 & -> & Hs1). cbn [mbind outcome_bind]. rewrite Hb. apply IH; [rewrite length_app; cbn; lia|done].
Qed.

(** *** Blocks *)
Context {I : Type} `{!Input I}.
Definition makes {A} (m : STE Error (Bits I * Out K) A) (bs : list bool) (h : bytes) (a : A) (bs' : list bool) (h' : bytes) : Prop :=
  forall b o, view b bs -> shows o h -> exists b' o', m (b, o) = (Done a, (b', o')) /\ view b' bs' /\ shows o' h'.
Lemma makes_bind {A C} (m : STE Error (Bits I * Out K) A) (k : A -> STE Error (Bits I * Out K) C) bs h a bs1 h1 c bs2 h2 : makes m bs h a bs1 h1 -> makes (k a) bs1 h1 c bs2 h2 -> makes (m ≫= k) bs h c bs2 h2.
Proof using. intros Hm Hk b o Hb Ho. destruct (Hm b o Hb Ho) as (b1 & o1 & E & Hb1 & Ho1). unfold mbind, st_bind. rewrite E. by apply Hk. Qed.
Lemma makes_ret {A} (a : A) bs h : makes (mret a) bs h a bs h.
Proof using. intros b o Hb Ho. by exists b, o. Qed.
Lemma makes_lift {A} (x : outcome Error A) a bs h : x = Done a -> makes (lift x) bs h a bs h.
Proof using. intros -> b o Hb Ho. by exists b, o. Qed.
Lemma makes_reading {A} (m : STE Error (Bits I) A) bs a bs' h : gets m bs a bs' -> makes (reading m) bs h a bs' h.
Proof using. intros Hm b o Hb Ho. destruct (Hm b Hb) as (b' & E & Hb'). exists b', o. unfold reading. by rewrite E. Qed.
Lemma makes_push x bs h : makes (writing (push x)) bs h tt bs (h ++ [x]).
Proof using give_all. intros b o Hb Ho. destruct (push_shows x o h Ho) as (o' & E & Ho'). exists b, o'. unfold writing. by rewrite E. Qed.
Lemma makes_copy d n bs h : 1 <= d <= WINDOW -> d <= Z.of_nat (length h) -> makes (writing (copy d n)) bs h tt bs (copied (Z.to_nat n) d h).
Proof using give_all.
  intros Hd Hh b o Hb Ho. unfold writing, copy. pose proof Ho as (_ & _ & -> & _). rewrite (proj2 (Z.ltb_ge _ _)) by lia. destruct (copy_loop_shows (Z.to_nat n) d o h ltac:(lia) Ho) as (o' & -> & Ho'). by exists b, o'.
Qed.
Lemma makes_stopped bs h : makes is_stopped bs h false bs h.
Proof using. intros b o Hb Ho. exists b, o. unfold is_stopped. cbn [snd]. pose proof Ho as (_ & _ & _ & _ & _ & ->). done. Qed.
Lemma makes_stored data rest h : Forall is_byte data -> makes (stored_loop (length data)) (stream data ++ rest) h tt rest (h ++ data).
Proof using give_all.
  intros Hd. revert h. induction Hd as [|x data Hx _ IH]; intros h; cbn [length stored_loop]; [rewrite app_nil_r; apply makes_ret|]. unfold stream. cbn [map concat]. rewrite <- app_assoc. eapply makes_bind; [apply makes_reading, (gets_lsb 8 x); [lia|exact Hx]|]. eapply makes_bind; [apply makes_push|]. rewrite (cons_middle x h data), app_assoc. apply IH.
Qed.
Lemma makes_body lit dist l d bs rest h h' fuel : table lit l -> table dist d -> body lit dist bs h h' -> (length bs < fuel)%nat -> makes (symbols_loop fuel l d) (bs ++ rest) h true rest h'.
Proof using give_all.
  intros Hl Hd Hb. revert fuel. induction Hb as [bs h Hc|c bs rest' h h' Hlt Hc Hb IH|i k bl el bd ed v w bs bs' rest' h h' Hbl Hel Hbd Hed Hv Hw Hc Hc' Hdist Hb IH]; intros fuel Hf; (destruct fuel as [|fuel]; [lia|]); cbn [symbols_loop].
  - eapply makes_bind; [apply makes_reading; by eapply decode_code|]. change (Z.of_nat 256 <? 256) with false. change (Z.of_nat 256 =? 256) with true. apply makes_ret.
  - rewrite <- app_assoc. eapply makes_bind; [apply makes_reading; by eapply decode_code|]. rewrite (proj2 (Z.ltb_lt _ _)) by lia. eapply makes_bind; [apply makes_push|]. apply IH. rewrite length_app in Hf. pose proof (is_code_ok _ _ _ Hc). lia.
  - rewrite <- !app_assoc. eapply makes_bind; [apply makes_reading; by eapply decode_code|]. rewrite (proj2 (Z.ltb_ge _ _)), (proj2 (Z.eqb_neq _ _)) by lia. replace (Z.of_nat (257 + i) - 257) with (Z.of_nat i) by lia. assert (i < 29)%nat as Hi by (by apply lookup_lt_Some in Hbl). assert (k < 30)%nat as Hk by (by apply lookup_lt_Some in Hbd). rewrite (proj2 (Z.leb_gt _ _)) by lia.
    eapply makes_bind; [apply makes_lift; by apply nth_of_lookup|]. eapply makes_bind; [apply makes_lift; by apply nth_of_lookup|]. eapply makes_bind; [apply makes_reading, gets_lsb; [by eapply extra_small; [left|]|done]|]. cbv zeta. eapply makes_bind; [apply makes_reading; by eapply decode_code|]. rewrite (proj2 (Z.leb_gt _ _)) by lia.
    eapply makes_bind; [apply makes_lift; by apply nth_of_lookup|]. eapply makes_bind; [apply makes_lift; by apply nth_of_lookup|]. eapply makes_bind; [apply makes_reading, gets_lsb; [by eapply extra_small; [right|]|done]|]. pose proof (distance_small k bd ed w Hbd Hed Hw) as Hds. eapply makes_bind; [by apply makes_copy|]. eapply makes_bind; [apply makes_stopped|]. apply IH.
    rewrite !length_app in Hf. pose proof (is_code_ok _ _ _ Hc). lia.
Qed.
Lemma fixed_ok : exists l d, fixed = Done (l, d) /\ table fixed_lengths l /\ table (replicate 30 5) d.
Proof using.
  destruct (huffman_new_table fixed_lengths) as (l & El & Hl); [unfold lengths_ok, fixed_lengths; rewrite !Forall_app; split_and!; apply Forall_replicate; lia|]. destruct (huffman_new_table (replicate 30 5)) as (d & Ed & Hd); [apply Forall_replicate; cbv beta; lia|]. exists l, d. split; [|split; [exact Hl|exact Hd]]. unfold fixed. rewrite El. cbn [mbind outcome_bind]. rewrite Ed. reflexivity.
Qed.
Lemma stored_check n : 0 <= n < 2 ^ 16 -> Z.land (Z.lnot n) 0xFFFF = 0xFFFF - n.
Proof using. intros Hn. change 0xFFFF with (Z.ones 16) at 1. rewrite Z.land_ones by lia. unfold Z.lnot. symmetry. apply (Z.mod_unique_pos _ _ (-1)); change (2 ^ 16) with 65536 in *; lia. Qed.
Lemma makes_block bs rest h h' fuel : block bs rest h h' -> (length bs <= fuel)%nat -> makes (kind ← reading (take_bits 2); one_block fuel kind) bs h true rest h' /\ (length rest < length bs)%nat.
Proof using give_all.
  intros Hb Hf. destruct Hb as [pad data rest h Hp Hd Hl Hr|bs rest h h' Hb|lit dist head bs rest h h' Ht Hb].
  - split; [|rewrite !length_app; cbn [length]; lia]. eapply makes_bind; [apply makes_reading, (gets_take [false; false] _ 2); [cbn; lia|done]|]. unfold one_block. cbn [val Z.b2z]. change (0 + 2 * (0 + 2 * 0) =? 0) with true. cbv iota. eapply makes_bind; [apply makes_reading, (gets_align _ pad (lsb 16 (Z.of_nat (length data)) ++ lsb 16 (65535 - Z.of_nat (length data)) ++ stream data ++ rest)); [done|done|]|].
    + rewrite !length_app, !length_lsb, length_stream. replace (16 + (16 + (8 * length data + length rest)))%nat with (length rest + (4 + length data) * 8)%nat by lia. by rewrite Nat.Div0.mod_add.
    + eapply makes_bind; [apply makes_reading, (gets_lsb 16); [lia|lia]|]. eapply makes_bind; [apply makes_reading, (gets_lsb 16); [lia|change (2 ^ Z.of_nat 16) with 65536; change (2 ^ 16) with 65536 in Hl; lia]|]. rewrite stored_check, Z.eqb_refl by lia. cbn [negb]. rewrite Nat2Z.id. eapply makes_bind; [by apply makes_stored|apply makes_ret].
  - split; [|rewrite !length_app; cbn [length]; lia]. eapply makes_bind; [apply makes_reading, (gets_take [true; false] _ 2); [cbn; lia|done]|]. unfold one_block. cbn [val Z.b2z]. change (1 + 2 * (0 + 2 * 0)) with 1. cbn [Z.eqb Pos.eqb orb]. destruct fixed_ok as (l & d & E & Hl & Hd). eapply makes_bind; [by apply makes_lift|]. cbn [fst snd]. eapply makes_body; [done|done|done|]. rewrite !length_app in Hf. cbn [length] in Hf. lia.
  - split; [|rewrite !length_app; cbn [length]; lia]. eapply makes_bind; [apply makes_reading, (gets_take [false; true] _ 2); [cbn; lia|done]|]. unfold one_block. cbn [val Z.b2z]. change (0 + 2 * (1 + 2 * 0)) with 2. cbn [Z.eqb Pos.eqb orb]. destruct (dynamic_get (I:=I) head lit dist (bs ++ rest) Ht) as (l & d & E & Hl & Hd). eapply makes_bind; [by apply makes_reading|]. cbn [fst snd]. eapply makes_body; [done|done|done|]. rewrite !length_app in Hf. cbn [length] in Hf. lia.
Qed.
Lemma deflate_loop_makes bs end_ h h' fuel : deflated bs end_ h h' -> (length bs < fuel)%nat -> forall b o, view b bs -> shows o h ->
  exists b' o', deflate_loop fuel (b, o) = (Done true, (b', o')) /\ view b' end_ /\ has (sink o') (g0 ++ h').
Proof using give_all.
  intros Hd. revert fuel. induction Hd as [bs rest h h' Hb|bs rest end_ h h' h'' Hb Hd IH]; intros fuel Hf b o Hv Ho; (destruct fuel as [|fuel]; [lia|]); cbn [length] in Hf; destruct (makes_block bs rest h h' (S fuel) Hb ltac:(lia)) as [Hm Hlen]; cbn [deflate_loop].
  - destruct (makes_reading _ _ _ _ h (gets_take [true] bs 1 ltac:(cbn; lia) eq_refl) b o Hv Ho) as (b1 & o1 & E1 & Hv1 & Ho1). unfold mbind at 1, st_bind at 1. rewrite E1. destruct (Hm b1 o1 Hv1 Ho1) as (b2 & o2 & E2 & Hv2 & Ho2). unfold mbind, st_bind in E2 |- *. destruct (reading (take_bits 2) (b1, o1)) as [[kind|e|] s2]; [|done|done]. rewrite E2. cbn [negb].
    destruct (makes_stopped rest h' b2 o2 Hv2 Ho2) as (b3 & o3 & E3 & Hv3 & Ho3). rewrite E3. change (val [true] =? 1) with true. cbn. destruct (flush_shows o3 h' Ho3) as [(_ & _ & _ & _ & _ & Hs) Hg]. rewrite Hs. eauto.
  - destruct (makes_reading _ _ _ _ h (gets_take [false] bs 1 ltac:(cbn; lia) eq_refl) b o Hv Ho) as (b1 & o1 & E1 & Hv1 & Ho1). unfold mbind at 1, st_bind at 1. rewrite E1. destruct (Hm b1 o1 Hv1 Ho1) as (b2 & o2 & E2 & Hv2 & Ho2). unfold mbind, st_bind in E2 |- *. destruct (reading (take_bits 2) (b1, o1)) as [[kind|e|] s2]; [|done|done]. rewrite E2. cbn [negb].
    destruct (makes_stopped rest h' b2 o2 Hv2 Ho2) as (b3 & o3 & E3 & Hv3 & Ho3). rewrite E3. change (val [false] =? 1) with false. cbv iota. apply (IH fuel ltac:(lia) b3 o3 Hv3 Ho3).
Qed.
End output.
Lemma shows_new {K} `{!Sink K} (has : K -> bytes -> Prop) x k : has k x -> shows has x (out_new k) [].
Proof.
  intros Hk. unfold shows, out_new. cbn [window oat filled pending sink stopped length]. pose proof window_pos. split; [apply length_replicate|]. split; [done|]. split; [lia|]. split; [intros j Hj; lia|]. split; [by exists x|done].
Qed.

(** C34: every stream of RFC 1951 is decompressed. Whatever blocks it is made of, stored, fixed or with their own codes, and wherever
    its copies reach, a sink that takes what it is given ends up with exactly the bytes the stream stands for. *)
Theorem inflate_decodes {K} `{!Sink K} (has : K -> bytes -> Prop) (data : bytes) (rest : list bool) (x out : bytes) (k : K) :
  (forall p k x, has k x -> exists k', give p k = (true, k') /\ has k' (x ++ p)) -> has k x -> Forall is_byte data -> deflated (stream data) rest [] out ->
  exists k', inflate data k = (Done tt, k') /\ has k' (x ++ out).
Proof.
  intros Hg Hk Hd Hs. destruct (deflate_loop_makes has Hg x _ _ _ _ (S (8 * length data)) Hs ltac:(rewrite length_stream; lia) _ _ (view_new data Hd) (shows_new has x k Hk)) as (b' & o' & E & _ & Hr). exists (sink o'). split; [|done]. unfold inflate, deflate. by rewrite E.
Qed.

(** ** Any input *)
Section any_input.
Context {I K : Type} `{!Input I} `{!Sink K}.
Lemma code_lengths_holds order ls bs : length ls = 19%nat -> Forall (fun i => (i < 19)%nat) order -> lengths_ok ls -> holds (I:=I) (code_lengths_loop order ls) bs (fun ls' bs' => lengths_ok ls' /\ (length bs' <= length bs)%nat).
Proof using.
  intros Hl Ho. revert ls bs Hl. induction Ho as [|i order Hi _ IH]; intros ls bs Hl Hok; cbn [code_lengths_loop]; [by apply holds_ret|]. eapply holds_bind; [apply (holds_take 3); lia|]. cbv beta. intros l bs1 [Hb Hlen]. change (2 ^ 3) with 8 in Hb. rewrite set_nth_insert by lia.
  eapply holds_weaken; [apply IH; [by rewrite length_insert|apply Forall_insert; [done|lia]]|]. cbv beta. intros ls' bs2 [H1 H2]. split; [done|lia].
Qed.
Lemma lengths_holds fuel codes h n ls i bs : table codes h -> length ls = n -> lengths_ok ls -> (n - i < fuel)%nat ->
  holds (I:=I) (lengths_loop fuel h n ls i) bs (fun ls' bs' => lengths_ok ls' /\ (length bs' <= length bs)%nat).
Proof using.
  intros Ht. revert ls i bs. induction fuel as [|fuel IH]; intros ls i bs Hl Hok Hf; [lia|]. cbn [lengths_loop]. destruct (Nat.ltb_spec i n) as [Hi|Hi]; [|by apply holds_ret]. eapply holds_bind; [by eapply decode_holds|]. cbv beta. intros sym bs1 [Hs Hlen].
  eapply (holds_bind _ _ _ (fun '(v, r) bs2 => 0 <= v < 16 /\ 1 <= r /\ (length bs2 <= length bs1)%nat)).
  - destruct (Z.leb_spec sym 15); [apply holds_ret; lia|]. destruct (_ =? 16).
    + eapply (holds_bind _ _ _ (fun v bs2 => 0 <= v < 16 /\ bs2 = bs1)).
      * apply holds_lift. destruct i as [|k]; [done|]. destruct (ls !! k) as [v|] eqn:E; [|done]. cbn. split; [|done]. apply (Forall_lookup_1 _ _ _ _ Hok E).
      * intros v bs2 [Hv ->]. eapply holds_bind; [apply (holds_take 2); lia|]. cbv beta. intros r bs2 [Hr Hl2]. apply holds_ret. lia.
    + destruct (_ =? 17).
      * eapply holds_bind; [apply (holds_take 3); lia|]. cbv beta. intros r bs2 [Hr Hl2]. apply holds_ret. lia.
      * eapply holds_bind; [apply (holds_take 7); lia|]. cbv beta. intros r bs2 [Hr Hl2]. apply holds_ret. lia.
  - intros [v r] bs2 (Hv & Hr & Hl2). destruct (Nat.ltb_spec n (i + Z.to_nat r)) as [|Hle]; [by intros s _|]. rewrite (proj2 (Nat.ltb_ge _ _)) by lia. eapply holds_weaken; [apply IH; [|unfold lengths_ok; rewrite !Forall_app; split_and!|lia]|].
    + rewrite !length_app, length_take, length_replicate, length_drop. lia.
    + by apply Forall_take.
    + apply Forall_replicate. exact Hv.
    + by apply Forall_drop.
    + cbv beta. intros ls' bs3 [H1 H2]. split; [done|lia].
Qed.
Lemma dynamic_holds bs : holds (I:=I) dynamic bs (fun hs bs' => (exists lit dist, table lit hs.1 /\ table dist hs.2) /\ (length bs' <= length bs)%nat).
Proof using.
  unfold dynamic. eapply holds_bind; [apply (holds_take 5); lia|]. cbv beta. intros a bs1 [Ha L1]. eapply holds_bind; [apply (holds_take 5); lia|]. cbv beta. intros b bs2 [Hb L2]. eapply holds_bind; [apply (holds_take 4); lia|]. cbv beta zeta. intros c bs3 [Hc L3].
  eapply holds_bind; [apply code_lengths_holds; [apply length_replicate|apply order_small|apply Forall_replicate; cbv beta; lia]|]. cbv beta. intros codes bs4 [Hok L4]. destruct (huffman_new_table codes Hok) as (h & -> & Ht). eapply (holds_bind _ _ _ (fun x bs => x = h /\ bs = bs4)); [by apply holds_lift|]. intros ? ? [-> ->].
  eapply holds_bind; [eapply (lengths_holds _ codes); [done|apply length_replicate|apply Forall_replicate; cbv beta; lia|lia]|]. cbv beta. intros ls bs5 [Hls L5]. set (n := Z.to_nat (a + 257)). destruct (huffman_new_table (take n ls) ltac:(by apply Forall_take)) as (l & -> & Hl). destruct (huffman_new_table (drop n ls) ltac:(by apply Forall_drop)) as (d & -> & Hd).
  eapply (holds_bind _ _ _ (fun x bs => x = l /\ bs = bs5)); [by apply holds_lift|]. intros ? ? [-> ->]. eapply (holds_bind _ _ _ (fun x bs => x = d /\ bs = bs5)); [by apply holds_lift|]. intros ? ? [-> ->]. apply holds_ret. split; [by exists (take n ls), (drop n ls)|lia].
Qed.
(** The output's places are in range. *)
Definition placed_out (o : Out K) : Prop := length (window o) = Z.to_nat WINDOW /\ 0 <= oat o < WINDOW.
Lemma flush_placed o : placed_out o -> placed_out (flush o).
Proof using. intros H. unfold flush. destruct (_ && _); [|done]. by destruct (give _ _). Qed.
Lemma push_placed b o : placed_out o -> exists o', push b o = Done o' /\ placed_out o'.
Proof using.
  intros [H1 H2]. unfold push. rewrite set_nth_in by lia. cbn [mbind outcome_bind]. set (o1 := mkOut _ _ _ _ _ _). assert (placed_out o1) as Ho by (split; [cbn; by rewrite length_insert|cbn; apply Z.mod_pos_bound; apply window_pos]). destruct (_ <=? _); eexists; (split; [done|]); [by apply flush_placed|done].
Qed.
Lemma copy_loop_placed n d o : placed_out o -> exists o', copy_loop n d o = Done o' /\ placed_out o'.
Proof using.
  revert o. induction n as [|n IH]; intros o Ho; cbn [copy_loop]; [by exists o|]. pose proof (Z.mod_pos_bound (oat o + WINDOW - d) WINDOW window_pos) as Hm. pose proof Ho as [H1 _]. destruct (lookup_lt_is_Some_2 (window o) (Z.to_nat ((oat o + WINDOW - d) mod WINDOW)) ltac:(lia)) as [b Hb]. rewrite (nth_of_in _ _ b Hb) by lia. cbn [mbind outcome_bind].
  destruct (push_placed b o Ho) as (o1 & -> & Ho1). cbn [mbind outcome_bind]. by apply IH.
Qed.
Definition holds_all {A} (m : STE Error (Bits I * Out K) A) (bs : list bool) (Q : A -> list bool -> Prop) : Prop :=
  forall b o, view b bs -> placed_out o -> match m (b, o) with (Done a, (b', o')) => exists bs', view b' bs' /\ placed_out o' /\ Q a bs' | (Refuse _, _) => True | (Crash, _) => False end.
Lemma all_bind {A C} (m : STE Error (Bits I * Out K) A) (k : A -> STE Error (Bits I * Out K) C) bs P Q : holds_all m bs P -> (forall a bs', P a bs' -> holds_all (k a) bs' Q) -> holds_all (m ≫= k) bs Q.
Proof using.
  intros Hm Hk b o Hb Ho. specialize (Hm b o Hb Ho). unfold mbind, st_bind. destruct (m (b, o)) as [[a|e|] [b1 o1]]; [|done|done]. destruct Hm as (bs1 & Hb1 & Ho1 & Hp). exact (Hk a bs1 Hp b1 o1 Hb1 Ho1).
Qed.
Lemma all_ret {A} (a : A) bs (Q : A -> list bool -> Prop) : Q a bs -> holds_all (mret a) bs Q.
Proof using. intros H b o Hb Ho. by exists bs. Qed.
Lemma all_lift {A} (x : outcome Error A) bs (Q : A -> list bool -> Prop) : yields (fun a => Q a bs) x -> holds_all (lift x) bs Q.
Proof using. intros H b o Hb Ho. unfold lift. destruct x; [|done|done]. by exists bs. Qed.
Lemma all_reading {A} (m : STE Error (Bits I) A) bs Q : holds m bs Q -> holds_all (reading m) bs Q.
Proof using. intros Hm b o Hb Ho. specialize (Hm b Hb). unfold reading. destruct (m b) as [[a|e|] b']; [|done|done]. destruct Hm as (bs' & Hb' & Hq). by exists bs'. Qed.
Lemma all_push x bs : holds_all (writing (push x)) bs (fun _ bs' => bs' = bs).
Proof using. intros b o Hb Ho. unfold writing. destruct (push_placed x o Ho) as (o' & -> & Ho'). by exists bs. Qed.
Lemma all_copy d n bs : holds_all (writing (copy d n)) bs (fun _ bs' => bs' = bs).
Proof using. intros b o Hb Ho. unfold writing, copy. destruct (_ <? _); [done|]. destruct (copy_loop_placed (Z.to_nat n) d o Ho) as (o' & -> & Ho'). by exists bs. Qed.
Lemma all_stopped bs : holds_all is_stopped bs (fun _ bs' => bs' = bs).
Proof using. intros b o Hb Ho. by exists bs. Qed.
Lemma all_fail {A} e bs (Q : A -> list bool -> Prop) : holds_all (fail e) bs Q.
Proof using. done. Qed.
Lemma all_weaken {A} (m : STE Error (Bits I * Out K) A) bs (P Q : A -> list bool -> Prop) : holds_all m bs P -> (forall a bs', P a bs' -> Q a bs') -> holds_all m bs Q.
Proof using. intros H HPQ b o Hb Ho. specialize (H b o Hb Ho). destruct (m (b, o)) as [[a|e|] [b1 o1]]; [|done|done]. destruct H as (bs1 & H1 & H2 & Hp). eauto. Qed.
Lemma all_stored n bs : holds_all (stored_loop n) bs (fun _ bs' => (length bs' <= length bs)%nat).
Proof using.
  revert bs. induction n as [|n IH]; intros bs; cbn [stored_loop]; [by apply all_ret|]. eapply all_bind; [apply all_reading, (holds_take 8); lia|]. cbv beta. intros x bs1 [_ L]. eapply all_bind; [apply all_push|]. cbv beta. intros _ ? ->. eapply all_weaken; [apply IH|]. cbv beta. lia.
Qed.
Lemma array_entry (l : list Z) i (Q : Z -> list bool -> Prop) bs : 0 <= i < Z.of_nat (length l) -> (forall x, x ∈ l -> Q x bs) -> holds_all (lift (nth_of l i)) bs Q.
Proof using. intros Hi Hq. apply all_lift. destruct (lookup_lt_is_Some_2 l (Z.to_nat i) ltac:(lia)) as [x Hx]. rewrite (nth_of_in _ _ x Hx) by lia. apply Hq. apply list_elem_of_lookup. eauto. Qed.
Lemma extra_range l x : l = LENGTH_EXTRA \/ l = DIST_EXTRA -> x ∈ l -> 0 <= x <= 16.
Proof using. intros Hl Hx. assert (forallb (fun x => (0 <=? x) && (x <=? 16)) l = true) as H by (destruct Hl as [->| ->]; reflexivity). rewrite forallb_forall in H. specialize (H x). rewrite <- list_elem_of_In in H. specialize (H Hx). lia. Qed.
Lemma all_symbols fuel lit dist l d bs : table lit l -> table dist d -> (length bs < fuel)%nat -> holds_all (symbols_loop fuel l d) bs (fun _ bs' => (length bs' <= length bs)%nat).
Proof using.
  intros Hl Hd. revert bs. induction fuel as [|fuel IH]; intros bs Hf; [lia|]. cbn [symbols_loop]. eapply all_bind; [apply all_reading; by eapply decode_holds|]. cbv beta. intros sym bs1 [Hs L1]. destruct (Z.ltb_spec sym 256).
  { eapply all_bind; [apply all_push|]. cbv beta. intros _ ? ->. eapply all_weaken; [apply IH; lia|]. cbv beta. lia. }
  destruct (Z.eqb_spec sym 256); [apply all_ret; lia|]. destruct (Z.leb_spec 29 (sym - 257)); [apply all_fail|]. eapply (all_bind _ _ _ (fun _ bs => bs = bs1)); [apply array_entry; [cbn; lia|done]|]. intros base ? ->. eapply (all_bind _ _ _ (fun e bs => 0 <= e <= 16 /\ bs = bs1)); [apply array_entry; [cbn; lia|intros x Hx; split; [by eapply extra_range; [left|]|done]]|]. intros extra ? [He ->].
  eapply all_bind; [apply all_reading, holds_take; lia|]. cbv beta zeta. intros more bs2 [_ L2]. eapply all_bind; [apply all_reading; by eapply decode_holds|]. cbv beta. intros k bs3 [Hk L3]. destruct (Z.leb_spec 30 k); [apply all_fail|]. eapply (all_bind _ _ _ (fun _ bs => bs = bs3)); [apply array_entry; [cbn; lia|done]|]. intros base' ? ->. eapply (all_bind _ _ _ (fun e bs => 0 <= e <= 16 /\ bs = bs3)); [apply array_entry; [cbn; lia|intros x Hx; split; [by eapply extra_range; [right|]|done]]|]. intros extra' ? [He' ->].
  eapply all_bind; [apply all_reading, holds_take; lia|]. cbv beta. intros more' bs4 [_ L4]. eapply all_bind; [apply all_copy|]. cbv beta. intros _ ? ->. eapply all_bind; [apply all_stopped|]. cbv beta. intros stop ? ->. destruct stop; [apply all_ret; lia|]. eapply all_weaken; [apply IH; lia|]. cbv beta. lia.
Qed.
Lemma all_block fuel kind bs : (length bs < fuel)%nat -> holds_all (one_block fuel kind) bs (fun _ bs' => (length bs' <= length bs)%nat).
Proof using.
  intros Hf. unfold one_block. destruct (kind =? 0).
  - eapply all_bind; [apply all_reading, holds_align|]. cbv beta. intros _ bs1 L1. eapply all_bind; [apply all_reading, (holds_take 16); lia|]. cbv beta. intros n bs2 [_ L2]. eapply all_bind; [apply all_reading, (holds_take 16); lia|]. cbv beta. intros c bs3 [_ L3]. destruct (negb _); [apply all_fail|]. eapply all_bind; [apply all_stored|]. cbv beta. intros _ bs4 L4. apply all_ret. lia.
  - destruct (_ || _); [|apply all_fail]. eapply (all_bind _ _ _ (fun hs bs' => (exists lit dist, table lit hs.1 /\ table dist hs.2) /\ (length bs' <= length bs)%nat)).
    + destruct (kind =? 1); [|apply all_reading, dynamic_holds]. apply all_lift. destruct (fixed_ok) as (l & d & -> & Hl & Hd). cbn [yields fst snd]. split; [by exists fixed_lengths, (replicate 30 5)|lia].
    + intros hs bs1 [(lit & dist & Hl & Hd) L1]. eapply all_weaken; [eapply all_symbols; [done|done|lia]|]. cbv beta. lia.
Qed.
Lemma all_deflate fuel bs : (length bs < fuel)%nat -> holds_all (deflate_loop fuel) bs (fun _ _ => True).
Proof using.
  revert bs. induction fuel as [|fuel IH]; intros bs Hf; [lia|]. cbn [deflate_loop]. eapply all_bind; [apply all_reading, (holds_take 1); lia|]. cbv beta. intros last bs1 [_ L1]. eapply all_bind; [apply all_reading, (holds_take 2); lia|]. cbv beta. intros kind bs2 [_ L2]. eapply all_bind; [apply all_block; lia|]. cbv beta. intros go bs3 L3. destruct go; [|by apply all_ret]. cbn [negb].
  eapply all_bind; [apply all_stopped|]. cbv beta. intros stop ? ->. destruct stop; [by apply all_ret|]. destruct (last =? 1); [|apply IH; lia]. eapply (all_bind _ _ _ (fun _ bs => bs = bs3)); [intros b o Hb Ho; exists bs3; split; [done|]; split; [by apply flush_placed|done]|]. intros _ ? ->. eapply all_bind; [apply all_stopped|]. cbv beta. intros stop ? ->. by apply all_ret.
Qed.
End any_input.
Lemma new_placed {K} (k : K) : placed_out (out_new k).
Proof. pose proof window_pos. split; [apply length_replicate|cbn; lia]. Qed.
Lemma inflate_safe {K} `{!Sink K} (data : bytes) (k : K) : Forall is_byte data -> (inflate data k).1 <> Crash.
Proof.
  intros Hd. unfold inflate, deflate. pose proof (all_deflate (I:=Parts) (K:=K) (S (8 * length data)) (stream data) ltac:(rewrite length_stream; lia) _ (out_new k) (view_new data Hd) (new_placed k)) as H. destruct (deflate_loop _ _) as [[b|e|] [b' o']]; done.
Qed.
(** C35: no input makes the decompressor panic. Wherever the bytes come from, whatever they are and whatever the sink does,
    decompression ends, within the bits there are, with success or an error: every index is in range. *)
Theorem inflate_no_panic {I K} `{!Input I} `{!Sink K} (i : I) (l : bytes) (fuel : nat) (k : K) : gives i l -> (8 * length l < fuel)%nat -> (inflate_from fuel i k).1 <> Crash.
Proof.
  intros Hi Hf. unfold inflate_from, deflate. assert (view (mkBits i 0 0) (stream l)) as Hv by (by exists [], l). pose proof (all_deflate fuel (stream l) ltac:(by rewrite length_stream) _ (out_new k) Hv (new_placed k)) as H. destruct (deflate_loop _ _) as [[b|e|] [b' o']]; done.
Qed.
(** A sink that keeps everything. *)
#[local] Instance keep_all : Sink bytes := fun p k => (true, k ++ p).
Lemma inflate_no_panic_witness : (inflate_from 100 (mkParts [[75; 4]; [2; 0; 255]] 0 0) ([] : bytes)).1 <> Crash.
Proof. apply (inflate_no_panic _ [75; 4; 2; 0; 255]); [apply (parts_gives (mkParts [[75; 4]; [2; 0; 255]] 0 0)); repeat constructor; done|cbn; lia]. Defined.
(** Four letters: one, and a copy of three from one back. *)
Definition four : bytes := [75; 4; 2; 0].
Lemma code_at ls s (l : nat) : ls !! s = Some (Z.of_nat l) -> (1 <= l <= 15)%nat -> first_code ls l + rank ls s l < 2 ^ Z.of_nat l -> is_code ls s (msb l (first_code ls l + rank ls s l)).
Proof. intros H1 H2 H3. by exists l. Qed.
Lemma four_body : body fixed_lengths (replicate 30 5) (msb 8 145 ++ msb 7 1 ++ lsb 0 0 ++ msb 5 0 ++ lsb 0 0 ++ msb 7 0) [] [97; 97; 97; 97].
Proof.
  apply (body_literal _ _ 97); [lia|apply (code_at fixed_lengths 97 8); [reflexivity|lia|vm_compute; reflexivity]|]. apply (body_copy _ _ 0 0 3 0 1 0 0 0); try reflexivity; try done; try (cbn; lia).
  - apply (code_at fixed_lengths 257 7); [reflexivity|lia|vm_compute; reflexivity].
  - apply (code_at (replicate 30 5) 0 5); [reflexivity|lia|vm_compute; reflexivity].
  - apply body_end. apply (code_at fixed_lengths 256 7); [reflexivity|lia|vm_compute; reflexivity].
Qed.
Lemma four_deflated after : deflated (stream (four ++ after)) ([false; false] ++ stream after) [] [97; 97; 97; 97].
Proof. exact (deflated_last _ _ _ _ (block_fixed _ ([false; false] ++ stream after) _ _ four_body)). Qed.
Lemma inflate_decodes_witness : exists k, inflate four ([] : bytes) = (Done tt, k) /\ k = [97; 97; 97; 97].
Proof.
  destruct (inflate_decodes (fun k x : bytes => k = x) four [false; false] [] [97; 97; 97; 97] []) as (k & E & Hk); [intros p k x ->; by exists (x ++ p)|reflexivity|repeat constructor; done|exact (four_deflated [])|]. exists k. split; [exact E|exact Hk].
Defined.

(** ** What every piece given keeps *)
Section kept.
Context {I K : Type} `{!Input I} `{!Sink K} (P : K -> Prop) (give_keeps : forall p k, P k -> P (give p k).2).
Definition kept {A} (m : STE Error (Bits I * Out K) A) : Prop := forall b o, P (sink o) -> P (sink (m (b, o)).2.2).
Lemma kept_bind {A C} (m : STE Error (Bits I * Out K) A) (f : A -> STE Error (Bits I * Out K) C) : kept m -> (forall a, kept (f a)) -> kept (m ≫= f).
Proof using. intros Hm Hf b o Ho. specialize (Hm b o Ho). unfold mbind, st_bind. destruct (m (b, o)) as [[a|e|] [b1 o1]]; [|done|done]. by apply Hf. Qed.
Lemma kept_ret {A} (a : A) : kept (mret a).
Proof using. by intros b o Ho. Qed.
Lemma kept_lift {A} (x : outcome Error A) : kept (lift x).
Proof using. by intros b o Ho. Qed.
Lemma kept_reading {A} (m : STE Error (Bits I) A) : kept (reading m).
Proof using. intros b o Ho. unfold reading. by destruct (m b). Qed.
Lemma kept_stopped : kept is_stopped.
Proof using. by intros b o Ho. Qed.
Lemma flush_kept o : P (sink o) -> P (sink (flush o)).
Proof using give_keeps. intros Ho. unfold flush. destruct (_ && _); [|done]. pose proof (give_keeps (pending o) (sink o) Ho) as H. by destruct (give _ _). Qed.
Lemma push_kept x o o' : P (sink o) -> push x o = Done o' -> P (sink o').
Proof using give_keeps. intros Ho E. unfold push in E. destruct (set_nth _ _ _) as [w|e|]; [|done|done]. cbn [mbind outcome_bind] in E. destruct (_ <=? _); injection E as <-; [by apply flush_kept|done]. Qed.
Lemma kept_writing f : (forall o o', P (sink o) -> f o = Done o' -> P (sink o')) -> kept (writing f).
Proof using. intros Hf b o Ho. unfold writing. destruct (f o) as [o'|e|] eqn:E; [|done|done]. by eapply Hf. Qed.
Lemma copy_loop_kept n d o o' : P (sink o) -> copy_loop n d o = Done o' -> P (sink o').
Proof using give_keeps.
  revert o. induction n as [|n IH]; intros o Ho E; cbn [copy_loop] in E; [by injection E as <-|]. destruct (nth_of _ _) as [x|e|]; [|done|done]. cbn [mbind outcome_bind] in E. destruct (push x o) as [o1|e|] eqn:E1; [|done|done]. cbn [mbind outcome_bind] in E. eapply IH; [|exact E]. by eapply push_kept.
Qed.
Lemma kept_push x : kept (writing (push x)).
Proof using give_keeps. apply kept_writing. intros o o'. apply push_kept. Qed.
Lemma kept_copy d n : kept (writing (copy d n)).
Proof using give_keeps. apply kept_writing. intros o o' Ho. unfold copy. destruct (_ <? _); [done|]. by apply copy_loop_kept. Qed.
Hint Resolve kept_bind kept_ret kept_lift kept_reading kept_stopped kept_push kept_copy : kept.
Lemma kept_stored n : kept (stored_loop n).
Proof using give_keeps. induction n; cbn [stored_loop]; auto with kept. Qed.
Lemma kept_symbols fuel l d : kept (symbols_loop fuel l d).
Proof using give_keeps. induction fuel as [|fuel IH]; cbn [symbols_loop]; [apply kept_lift|]. repeat first [apply kept_bind; [solve [auto with kept]|intros ?] | case_match | exact IH | solve [auto with kept] | apply kept_lift]. Qed.
Lemma kept_block fuel kind : kept (one_block fuel kind).
Proof using give_keeps.
  unfold one_block. destruct (kind =? 0); [|destruct (_ || _); [|apply kept_lift]].
  - repeat first [apply kept_bind; [solve [auto using kept_stored with kept]|intros ?] | case_match | solve [auto with kept] | apply kept_lift].
  - apply kept_bind; [destruct (kind =? 1); auto with kept|]. intros ?. apply kept_symbols.
Qed.
Lemma kept_deflate fuel : kept (deflate_loop fuel).
Proof using give_keeps.
  induction fuel as [|fuel IH]; cbn [deflate_loop]; [apply kept_lift|]. do 2 (apply kept_bind; [apply kept_reading|intros ?]). apply kept_bind; [apply kept_block|intros go]. destruct (negb go); [apply kept_ret|]. apply kept_bind; [apply kept_stopped|intros stop]. destruct stop; [apply kept_ret|]. destruct (_ =? 1); [|exact IH].
  apply kept_bind; [apply kept_writing; intros o o' Ho [= <-]; by apply flush_kept|intros _]. apply kept_bind; [apply kept_stopped|intros stop']. apply kept_ret.
Qed.
End kept.
Lemma inflate_kept {K} `{!Sink K} (P : K -> Prop) data k : (forall p k, P k -> P (give p k).2) -> P k -> P (inflate data k).2.
Proof.
  intros Hg Hk. unfold inflate, deflate. pose proof (kept_deflate (I:=Parts) P Hg (S (8 * length data)) (mkBits (mkParts [data] 0 0) 0 0) (out_new k) Hk) as H. destruct (deflate_loop _ _) as [r [b o]]. exact H.
Qed.
