(* ===== verification/Wrapped.v ===== *)
(** * zlib and gzip streams ([libmind/src/inflate.rs]: [zlib_from], [gzip_from])

    RFC 1950 and RFC 1952 around a DEFLATE stream. The theorems: a stream with the right header and the right check values is
    decompressed to its bytes, from any input; and where the check values are not those of the bytes, it is refused. *)
From S2P Require Import Prelude Outcome Inflate InflateBits Huffman InflateSpec.

(** Check values as the trailers have them: most significant byte first, and least. *)
Definition be32 (bs : bytes) : Z := foldl (fun c b => Z.lor (wrap32 (Z.shiftl c 8)) b) 0 bs.
Definition le32 (bs : bytes) : Z := foldl (fun v '(s, b) => Z.lor v (wrap32 (Z.shiftl b s))) 0 (zip [0; 8; 16; 24] bs).
Definition adler (bs : bytes) : Z := let ab := foldl adler_byte (1, 0) bs in Z.lor (wrap32 (Z.shiftl ab.2 16)) ab.1.

Section wrapped.
Context {I K : Type} `{!Input I} `{!Sink K} (has : K -> bytes -> Prop) (give_all : forall p k x, has k x -> exists k', give p k = (true, k') /\ has k' (x ++ p)).
(** A sink with sums beside it: what the sums are of, and what the sink has. *)
Definition beside_has (sum : bytes -> Z * Z) (x : bytes) (k : (Z * Z) * K) (y : bytes) : Prop := k.1 = sum y /\ has k.2 (x ++ y).
Lemma adler_gives x p k y : beside_has (foldl adler_byte (1, 0)) x k y -> exists k', adler_sink p k = (true, k') /\ beside_has (foldl adler_byte (1, 0)) x k' (y ++ p).
Proof using give_all.
  destruct k as [ab k]. intros [E Hk]. cbn [fst snd] in *. subst ab. destruct (give_all p k _ Hk) as (k' & Eg & Hk'). unfold adler_sink. rewrite Eg. eexists. split; [done|]. split; cbn [fst snd]; [by rewrite foldl_app|by rewrite app_assoc].
Qed.
Definition crc_sums (y : bytes) : Z * Z := (crc32 0 y, wrap32 (Z.of_nat (length y))).
Lemma not32_twice x : not32 (not32 x) = x.
Proof using. unfold not32. lia. Qed.
Lemma crc32_app c a b : crc32 c (a ++ b) = crc32 (crc32 c a) b.
Proof using. unfold crc32. by rewrite foldl_app, not32_twice. Qed.
Lemma crc_gives x p k y : beside_has crc_sums x k y -> exists k', crc_sink p k = (true, k') /\ beside_has crc_sums x k' (y ++ p).
Proof using give_all.
  destruct k as [cl k]. intros [E Hk]. cbn [fst snd] in *. subst cl. destruct (give_all p k _ Hk) as (k' & Eg & Hk'). unfold crc_sink, crc_sums. rewrite Eg. eexists. split; [done|]. split; cbn [fst snd]; [|by rewrite app_assoc]. unfold crc_sums. rewrite crc32_app, length_app. f_equal. unfold wrap32. rewrite Zplus_mod_idemp_l. f_equal. lia.
Qed.
Lemma gets_map_err {A} e (m : STE Error (Bits I) A) bs a bs' : gets m bs a bs' -> gets (map_err e m) bs a bs'.
Proof using. intros H s Hs. destruct (H s Hs) as (s' & E & Hs'). exists s'. unfold map_err. by rewrite E. Qed.
Lemma gets_byte x rest : is_byte x -> gets (I:=I) (take_bits 8) (stream [x] ++ rest) x rest.
Proof using. intros Hx. unfold stream. cbn [map concat]. rewrite app_nil_r. by apply (gets_lsb 8 x); [lia|]. Qed.
Lemma stream_cons x l : stream (x :: l) = stream [x] ++ stream l.
Proof using. unfold stream. cbn [map concat]. by rewrite app_nil_r. Qed.
Lemma stream_app a b : stream (a ++ b) = stream a ++ stream b.
Proof using. unfold stream. by rewrite map_app, concat_app. Qed.
Lemma check_get bs acc rest : Forall is_byte bs -> gets (I:=I) (check_loop (length bs) acc) (stream bs ++ rest) (foldl (fun c b => Z.lor (wrap32 (Z.shiftl c 8)) b) acc bs) rest.
Proof using.
  intros Hb. revert acc. induction Hb as [|x bs Hx _ IH]; intros acc; cbn [length check_loop foldl]; [apply gets_ret|]. rewrite stream_cons, <- app_assoc. eapply gets_bind; [by apply gets_map_err, gets_byte|apply IH].
Qed.
Lemma word_get bs shifts acc rest : Forall is_byte bs -> length bs = length shifts -> gets (I:=I) (word_loop shifts acc) (stream bs ++ rest) (foldl (fun v '(s, b) => Z.lor v (wrap32 (Z.shiftl b s))) acc (zip shifts bs)) rest.
Proof using.
  intros Hb. revert shifts acc. induction Hb as [|x bs Hx _ IH]; intros [|s shifts] acc Hl; try done; cbn [word_loop]; [apply gets_ret|]. rewrite stream_cons, <- app_assoc. eapply gets_bind; [by apply gets_map_err, gets_byte|]. cbn [zip zip_with foldl]. apply IH. cbn in Hl. lia.
Qed.
Lemma skip_get n bs rest : Forall is_byte bs -> length bs = n -> gets (I:=I) (skip_bytes n) (stream bs ++ rest) tt rest.
Proof using.
  intros Hb <-. induction Hb as [|x bs Hx _ IH]; cbn [length skip_bytes]; [apply gets_ret|]. rewrite stream_cons, <- app_assoc. eapply gets_bind; [by apply gets_map_err, gets_byte|apply IH].
Qed.
Lemma text_get fuel bs rest : Forall is_byte bs -> Forall (fun b => b <> 0) bs -> (length bs < fuel)%nat -> gets (I:=I) (skip_text fuel) (stream (bs ++ [0]) ++ rest) tt rest.
Proof using.
  intros Hb. revert fuel. induction Hb as [|x bs Hx _ IH]; intros fuel Hn Hf; (destruct fuel as [|fuel]; [lia|]); cbn [app skip_text].
  - eapply gets_bind; [apply gets_map_err, gets_byte; done|]. apply gets_ret.
  - apply Forall_cons in Hn as [Hx0 Hn]. rewrite stream_cons, <- app_assoc. eapply gets_bind; [by apply gets_map_err, gets_byte|]. rewrite (proj2 (Z.eqb_neq _ _)) by done. cbn [negb]. apply IH; [done|]. cbn [length] in Hf. lia.
Qed.

(** ** Runs with a sum beside the sink *)
Definition works {A} (m : STE Error (Bits I * ((Z * Z) * K)) A) (bs : list bool) (k : (Z * Z) * K) (Q : A -> list bool -> (Z * Z) * K -> Prop) : Prop :=
  forall b, view b bs -> exists a b' bs' k', m (b, k) = (Done a, (b', k')) /\ view b' bs' /\ Q a bs' k'.
Lemma works_bind {A C} (m : STE Error (Bits I * ((Z * Z) * K)) A) (f : A -> STE Error (Bits I * ((Z * Z) * K)) C) bs k P Q : works m bs k P -> (forall a bs' k', P a bs' k' -> works (f a) bs' k' Q) -> works (m ≫= f) bs k Q.
Proof using. intros Hm Hf b Hb. destruct (Hm b Hb) as (a & b1 & bs1 & k1 & E & Hb1 & Hp). unfold mbind, st_bind. rewrite E. by apply (Hf a bs1 k1 Hp). Qed.
Lemma works_bits {A} (m : STE Error (Bits I) A) bs a bs' k : gets m bs a bs' -> works (on_bits m) bs k (fun a1 bs1 k1 => a1 = a /\ bs1 = bs' /\ k1 = k).
Proof using. intros Hm b Hb. destruct (Hm b Hb) as (b' & E & Hb'). exists a, b', bs', k. unfold on_bits. by rewrite E. Qed.
Lemma works_ret {A} (a : A) bs k (Q : A -> list bool -> (Z * Z) * K -> Prop) : Q a bs k -> works (mret a) bs k Q.
Proof using. intros H b Hb. by exists a, b, bs, k. Qed.
Lemma works_sums bs k : works sums bs k (fun a bs1 k1 => a = k.1 /\ bs1 = bs /\ k1 = k).
Proof using. intros b Hb. by exists k.1, b, bs, k. Qed.
Lemma works_deflate (S0 : Sink ((Z * Z) * K)) sum x bs rest out k fuel : (forall p k y, beside_has sum x k y -> exists k', S0 p k = (true, k') /\ beside_has sum x k' (y ++ p)) -> beside_has sum x k [] -> deflated bs rest [] out -> (length bs < fuel)%nat ->
  works (deflate (Sink0:=S0) fuel) bs k (fun a bs' k' => a = true /\ bs' = rest /\ beside_has sum x k' out).
Proof using.
  intros Hg Hk Hd Hf b Hb. destruct (deflate_loop_makes (Sink0:=S0) (beside_has sum x) Hg [] bs rest [] out fuel Hd Hf b (out_new k) Hb (shows_new (Sink0:=S0) (beside_has sum x) [] k Hk)) as (b' & o' & E & Hb' & Hh). exists true, b', rest, (sink o'). unfold deflate. by rewrite E.
Qed.
(** The header of a zlib stream: DEFLATE, the check bits right, no preset dictionary. *)
Definition zlib_head (cmf flg : Z) : Prop := is_byte cmf /\ is_byte flg /\ Z.land cmf 0x0F = 8 /\ (cmf * 256 + flg) mod 31 = 0 /\ Z.land flg 0x20 = 0.
Lemma zlib_head_ok cmf flg : zlib_head cmf flg -> let header := Z.lor (wrap16 (Z.shiftl cmf 8)) flg in Z.land (Z.shiftr header 8) 0x0F = 8 /\ header mod 31 = 0 /\ Z.land header 0x20 = 0.
Proof using.
  intros (Hc & Hf & H1 & H2 & H3). unfold is_byte in *. cbv zeta. assert (wrap16 (Z.shiftl cmf 8) = Z.shiftl cmf 8) as -> by (unfold wrap16, W16; apply Z.mod_small; rewrite Z.shiftl_mul_pow2 by lia; change (2 ^ 8) with 256; change (2 ^ 16) with 65536; lia). split_and!.
  - rewrite Z.shiftr_lor, Z.shiftr_shiftl_l, Z.sub_diag, Z.shiftl_0_r by lia. rewrite (Z.shiftr_div_pow2 flg), Z.div_small, Z.lor_0_r by (change (2 ^ 8) with 256; lia). done.
  - rewrite Z.lor_comm, lor_high by (change (2 ^ 8) with 256; lia). change (2 ^ 8) with 256. rewrite <- H2. f_equal. lia.
  - rewrite Z.land_lor_distr_l, H3, Z.lor_0_r. apply Z.bits_inj'. intros n Hn. rewrite Z.land_spec, Z.bits_0, Z.shiftl_spec by lia. change 32 with (2 ^ 5). rewrite Z.pow2_bits_eqb by lia. destruct (Z.eqb_spec 5 n) as [<-|]; [by rewrite Z.testbit_neg_r by lia|apply andb_false_r].
Qed.
Lemma zlib_works cmf flg bs pad tr tail x out k fuel : zlib_head cmf flg -> deflated bs (pad ++ stream tr ++ tail) [] out -> (length pad < 8)%nat -> (length tail mod 8 = 0)%nat -> Forall is_byte tr -> length tr = 4%nat -> (length bs < fuel)%nat -> has k x -> be32 tr = adler out ->
  works (zlib_run fuel) (stream [cmf; flg] ++ bs) ((1, 0), k) (fun a bs' k' => a = true /\ bs' = tail /\ has k'.2 (x ++ out)).
Proof using give_all.
  intros Hh Hd Hp Ht Htr Hl Hf Hk Hsum. destruct (zlib_head_ok cmf flg Hh) as (H1 & H2 & H3). destruct Hh as (Hc & Hg & _). unfold zlib_run. rewrite stream_cons, <- app_assoc. eapply works_bind; [by apply works_bits, gets_byte|]. intros ? ? ? (-> & -> & ->). eapply works_bind; [by apply works_bits, gets_byte|]. intros ? ? ? (-> & -> & ->). cbv zeta. rewrite H1, H2, H3. cbn [Z.eqb Pos.eqb negb orb].
  eapply works_bind; [eapply (works_deflate adler_sink (foldl adler_byte (1, 0)) x bs _ out); [apply adler_gives|split; [done|by rewrite app_nil_r]|exact Hd|exact Hf]|]. intros ? ? k1 (-> & -> & Hs & Hk1). eapply works_bind; [apply works_bits, (gets_align _ pad (stream tr ++ tail)); [done|done|]|].
  { rewrite length_app, length_stream, Hl. replace (8 * 4 + length tail)%nat with (length tail + 4 * 8)%nat by lia. by rewrite Nat.Div0.mod_add. }
  intros ? ? ? (-> & -> & ->). eapply works_bind; [apply works_bits; rewrite <- Hl; by apply check_get|]. intros ? ? ? (-> & -> & ->). eapply works_bind; [apply works_sums|]. intros ? ? ? (-> & -> & ->). fold (be32 tr). rewrite Hsum. unfold adler. rewrite Hs, Z.eqb_refl. cbn [negb]. by apply works_ret.
Qed.
(** The header of a gzip member: the fields its flags say. *)
Definition gzip_head (flags : Z) (six extra name comment check : bytes) : Prop :=
  is_byte flags /\ Z.land flags 0xE0 = 0 /\ length six = 6%nat /\ Forall is_byte (six ++ extra ++ name ++ comment ++ check) /\
  (if decide (Z.land flags 4 = 0) then extra = [] else exists lo hi e, extra = lo :: hi :: e /\ Z.of_nat (length e) = lo + 256 * hi) /\
  (if decide (Z.land flags 8 = 0) then name = [] else exists t, name = t ++ [0] /\ Forall (fun b => b <> 0) t) /\
  (if decide (Z.land flags 16 = 0) then comment = [] else exists t, comment = t ++ [0] /\ Forall (fun b => b <> 0) t) /\
  (if decide (Z.land flags 2 = 0) then check = [] else length check = 2%nat).
Lemma flag_test {A} (a : Z) (x y : A) : (if negb (a =? 0) then x else y) = if decide (a = 0) then y else x.
Proof using. destruct (Z.eqb_spec a 0); cbn [negb]; by case_decide. Qed.
Lemma text_field (b : bool) fuel name rest : (if b then name = [] else exists t, name = t ++ [0] /\ Forall (fun c => c <> 0) t) -> Forall is_byte name -> (length name <= fuel)%nat ->
  gets (I:=I) (if b then mret tt else skip_text fuel) (stream name ++ rest) tt rest.
Proof using.
  destruct b; [intros -> _ _; apply gets_ret|]. intros (t & -> & Ht) Hb Hf. apply Forall_app in Hb as [Hb _]. rewrite length_app in Hf. cbn [length] in Hf. apply text_get; [done|done|lia].
Qed.
Lemma gzip_header_get fuel flags six extra name comment check rest : gzip_head flags six extra name comment check -> (length (name ++ comment) <= fuel)%nat ->
  gets (I:=I) (gzip_header fuel) (stream ([0x1F; 0x8B; 8; flags] ++ six ++ extra ++ name ++ comment ++ check) ++ rest) tt rest.
Proof using.
  intros (Hf & Hz & H6 & Hb & He & Hn & Hc & Hk) Hfuel. rewrite length_app in Hfuel. rewrite !Forall_app in Hb. destruct Hb as (B6 & Be & Bn & Bc & Bk). rewrite !stream_app. rewrite (stream_cons 0x1F), (stream_cons 0x8B), (stream_cons 8), <- !app_assoc. unfold gzip_header.
  do 3 (eapply gets_bind; [apply gets_map_err, gets_byte; done|]). eapply gets_bind; [by apply gets_map_err, gets_byte|]. rewrite Hz. cbn [Z.eqb Pos.eqb andb negb orb]. rewrite !flag_test. eapply gets_bind; [by apply (skip_get 6)|]. eapply (gets_bind _ _ _ tt (stream name ++ stream comment ++ stream check ++ rest)).
  { revert He. destruct (decide (Z.land flags 4 = 0)) as [Hd|Hd]; intros He; [subst extra; apply gets_ret|]. destruct He as (lo & hi & e & -> & Hlen). apply Forall_cons in Be as [Blo Be]. apply Forall_cons in Be as [Bhi Be]. rewrite (stream_cons lo), (stream_cons hi), <- !app_assoc. eapply gets_bind; [by apply gets_map_err, gets_byte|]. eapply gets_bind; [by apply gets_map_err, gets_byte|]. apply skip_get; [done|]. unfold is_byte in *. rewrite lor_high by (change (2 ^ 8) with 256; lia). change (2 ^ 8) with 256. lia. }
  eapply gets_bind; [|eapply gets_bind; [|]].
  - revert Hn. destruct (decide (Z.land flags 8 = 0)); intros Hn; [apply (text_field true fuel)|apply (text_field false fuel)]; first [exact Hn|done|lia].
  - revert Hc. destruct (decide (Z.land flags 16 = 0)); intros Hc; [apply (text_field true fuel)|apply (text_field false fuel)]; first [exact Hc|done|lia].
  - revert Hk. destruct (decide (Z.land flags 2 = 0)); intros Hk; [subst check; apply gets_ret|]. by apply skip_get.
Qed.
Lemma gzip_works flags six extra name comment check bs pad crc len tail x out k fuel : gzip_head flags six extra name comment check -> (length (name ++ comment) <= fuel)%nat -> deflated bs (pad ++ stream (crc ++ len) ++ tail) [] out -> (length pad < 8)%nat -> (length tail mod 8 = 0)%nat ->
  Forall is_byte crc -> Forall is_byte len -> length crc = 4%nat -> length len = 4%nat -> (length bs < fuel)%nat -> has k x -> le32 crc = crc32 0 out -> le32 len = wrap32 (Z.of_nat (length out)) ->
  works (gzip_run fuel) (stream ([0x1F; 0x8B; 8; flags] ++ six ++ extra ++ name ++ comment ++ check) ++ bs) ((0, 0), k) (fun a bs' k' => a = true /\ bs' = tail /\ has k'.2 (x ++ out)).
Proof using give_all.
  intros Hh Hfu Hd Hp Ht Bc Bl Hc Hl Hf Hk Ec El. unfold gzip_run. eapply works_bind; [by apply works_bits, gzip_header_get|]. intros ? ? ? (-> & -> & ->). eapply works_bind; [eapply (works_deflate crc_sink crc_sums x bs _ out); [apply crc_gives|split; [done|by rewrite app_nil_r]|exact Hd|exact Hf]|]. intros ? ? k1 (-> & -> & Hs & Hk1).
  eapply works_bind; [apply works_bits, (gets_align _ pad (stream (crc ++ len) ++ tail)); [done|done|]|].
  { rewrite length_app, length_stream, length_app, Hc, Hl. replace (8 * (4 + 4) + length tail)%nat with (length tail + 8 * 8)%nat by lia. by rewrite Nat.Div0.mod_add. }
  intros ? ? ? (-> & -> & ->). eapply works_bind; [apply works_sums|]. intros ? ? ? (-> & -> & ->). rewrite stream_app, <- app_assoc. eapply works_bind; [apply works_bits; by apply (word_get crc [0; 8; 16; 24])|]. intros ? ? ? (-> & -> & ->). fold (le32 crc). rewrite Ec, Hs. unfold crc_sums at 1. cbn [fst]. rewrite Z.eqb_refl. cbn [negb].
  eapply works_bind; [apply works_bits; by apply (word_get len [0; 8; 16; 24])|]. intros ? ? ? (-> & -> & ->). fold (le32 len). rewrite El. unfold crc_sums. cbn [snd]. rewrite Z.eqb_refl. cbn [negb]. by apply works_ret.
Qed.
End wrapped.

(** zlib streams are decompressed. A header of RFC 1950, a DEFLATE stream to the next byte boundary and the Adler-32 of what
    it stands for give the sink those bytes, whatever pieces the stream comes in; the rest of the input is not looked at. *)
Theorem zlib_decodes {I K} `{!Input I} `{!Sink K} (has : K -> bytes -> Prop) (i : I) cmf flg data pad tr tail x out (k : K) fuel :
  (forall p k x, has k x -> exists k', give p k = (true, k') /\ has k' (x ++ p)) -> has k x -> gives i ([cmf; flg] ++ data) -> zlib_head cmf flg -> (8 * length data < fuel)%nat ->
  deflated (stream data) (pad ++ stream tr ++ tail) [] out -> (length pad < 8)%nat -> (length tail mod 8 = 0)%nat -> Forall is_byte tr -> length tr = 4%nat -> be32 tr = adler out ->
  exists i' k', zlib_from fuel i k = (Done true, (i', k')) /\ has k' (x ++ out).
Proof.
  intros Hg Hk Hi Hh Hf Hd Hp Ht Htr Hl Hs. destruct (zlib_works has Hg cmf flg (stream data) pad tr tail x out k fuel Hh Hd Hp Ht Htr Hl ltac:(by rewrite length_stream) Hk Hs (mkBits i 0 0)) as (a & b' & bs' & k' & E & _ & -> & _ & Hr).
  - exists [], ([cmf; flg] ++ data). split; [done|]. split; [done|]. split; [done|]. by rewrite stream_app.
  - exists (input b'), k'.2. split; [|done]. unfold zlib_from. rewrite E. by destruct k'.
Qed.
(** The four letters as a zlib stream, in two pieces. *)
#[local] Instance keep_bytes : Sink bytes := fun p k => (true, k ++ p).
Lemma zlib_decodes_witness : exists i' k', zlib_from 100 (mkParts [[0x78]; [0x9C] ++ four ++ [3; 206; 1; 133]] 0 0) ([] : bytes) = (Done true, (i', k')) /\ k' = [97; 97; 97; 97].
Proof.
  apply (zlib_decodes (fun k x : bytes => k = x) (mkParts [[0x78]; [0x9C] ++ four ++ [3; 206; 1; 133]] 0 0) 0x78 0x9C (four ++ [3; 206; 1; 133]) [false; false] [3; 206; 1; 133] [] [] [97; 97; 97; 97] []).
  - intros p k x ->. exists (x ++ p). split; reflexivity.
  - reflexivity.
  - apply (parts_gives (mkParts [[0x78]; [0x9C] ++ four ++ [3; 206; 1; 133]] 0 0)). repeat constructor; done.
  - repeat split; done.
  - cbn. lia.
  - exact (four_deflated [3; 206; 1; 133]).
  - cbn. lia.
  - reflexivity.
  - repeat constructor; done.
  - reflexivity.
  - vm_compute. reflexivity.
Defined.
(** A gzip member the same way, with its CRC-32 and its length. *)
Lemma gzip_decodes {I K} `{!Input I} `{!Sink K} (has : K -> bytes -> Prop) (i : I) flags six extra name comment check data pad crc len tail x out (k : K) fuel :
  (forall p k x, has k x -> exists k', give p k = (true, k') /\ has k' (x ++ p)) -> has k x -> gives i (([0x1F; 0x8B; 8; flags] ++ six ++ extra ++ name ++ comment ++ check) ++ data) -> gzip_head flags six extra name comment check ->
  (length (name ++ comment) <= fuel)%nat -> (8 * length data < fuel)%nat -> deflated (stream data) (pad ++ stream (crc ++ len) ++ tail) [] out -> (length pad < 8)%nat -> (length tail mod 8 = 0)%nat ->
  Forall is_byte crc -> Forall is_byte len -> length crc = 4%nat -> length len = 4%nat -> le32 crc = crc32 0 out -> le32 len = wrap32 (Z.of_nat (length out)) ->
  exists i' k', gzip_from fuel i k = (Done true, (i', k')) /\ has k' (x ++ out).
Proof.
  intros Hg Hk Hi Hh Hfu Hf Hd Hp Ht Bc Bl Hc Hl Ec El. destruct (gzip_works has Hg flags six extra name comment check (stream data) pad crc len tail x out k fuel Hh Hfu Hd Hp Ht Bc Bl Hc Hl ltac:(by rewrite length_stream) Hk Ec El (mkBits i 0 0)) as (a & b' & bs' & k' & E & _ & -> & _ & Hr).
  - exists [], (([0x1F; 0x8B; 8; flags] ++ six ++ extra ++ name ++ comment ++ check) ++ data). split; [done|]. split; [done|]. split; [done|]. by rewrite (stream_app (_ ++ _)).
  - exists (input b'), k'.2. split; [|done]. unfold gzip_from. rewrite E. by destruct k'.
Qed.
