(* ===== verification/Archive.v ===== *)
(** * Archives from outside: ZIP packages and release bundles ([libmind/src/zip.rs], [updater/src/bundle.rs])

    The readers of a ZIP's central directory: the Effector agent's packages ([Archive::open], [entries], [find]) and the
    updater's bundles ([end], [entries], [start]), which read from the file in place. The archives may be hostile. The
    theorems: an opened package's entries can all be read again (the [expect] in [entries] never panics), their names are
    plain relative paths, each once, and their sizes keep every limit; a bundle's entries lie in the file before its
    directory. *)
From S2P Require Import Prelude Text Outcome.

Definition EOCD : Z := 0x06054b50.
Definition CENTRAL : Z := 0x02014b50.
Definition LOCAL : Z := 0x04034b50.
Definition EOCD_LEN : Z := 22.
Definition CENTRAL_LEN : Z := 46.
Definition LOCAL_LEN : Z := 30.

Inductive Error : Type := Malformed | Unsupported | Encrypted | BadName | Limit | Corrupt | SinkRefused.

Record Limits : Type := mkLimits { l_entries : Z; l_name : Z; l_entry : Z; l_total : Z; l_ratio : Z }.
Definition default_limits : Limits := mkLimits 256 255 (Z.shiftl 64 20) (Z.shiftl 256 20) 200.

Definition len {A} (l : list A) : Z := Z.of_nat (length l).

(** [u16_at], [u32_at]. *)
Definition rd (n : nat) (d : bytes) (at_ : Z) : option Z :=
  if (0 <=? at_) && (at_ + Z.of_nat n <=? len d) then Some (of_le (slice d (Z.to_nat at_) n)) else None.
Definition u16_at : bytes -> Z -> option Z := rd 2.
Definition u32_at : bytes -> Z -> option Z := rd 4.
(** [d.get(from..to)]. *)
Definition get_range (d : bytes) (from to : Z) : option bytes :=
  if (0 <=? from) && (from <=? to) && (to <=? len d) then Some (slice d (Z.to_nat from) (Z.to_nat (to - from))) else None.

(** [crc32_update]. *)
Definition crc_bit (crc : Z) : Z := Z.shiftr crc 1 ^^^ (0xEDB88320 &&& wrap32 (- (crc &&& 1))).
Definition not32' (x : Z) : Z := W32 - 1 - x.
Definition crc32_update (crc : Z) (data : bytes) : Z := not32' (foldl (fun crc b => Nat.iter 8 crc_bit (crc ^^^ b)) (not32' crc) data).

(** [name_ok]. *)
Definition SLASH : Z := 47.
Definition part_ok (p : bytes) : bool := negb (bool_decide (p = [])) && negb (bool_decide (p = [46])) && negb (bool_decide (p = [46; 46])).
Definition strip_slash (name : bytes) : bytes := match last name with Some c => if c =? SLASH then take (length name - 1) name else name | None => name end.
Definition name_ok (name : bytes) (limit : Z) : bool :=
  if bool_decide (name = []) || (limit <? len name) then false
  else if bool_decide (head name = Some SLASH) || existsb (fun c => (c <? 0x20) || (c =? 0x7F) || (c =? 92) || (c =? 58)) name then false
  else let body := strip_slash name in negb (bool_decide (body = [])) && forallb part_ok (split_on SLASH body).

Record Entry : Type := mkEntry { name : bytes; method : Z; crc32 : Z; compressed : Z; size : Z; local : Z }.
Record Archive : Type := mkArchive { data : bytes; directory : Z; count : Z; limits : Limits }.

(** ** Packages *)

(** [find_eocd]: its loop from the last place down to [lowest]. *)
Fixpoint eocd_loop (d : bytes) (fuel : nat) (at_ lowest : Z) : result Error Z :=
  if bool_decide (u32_at d at_ = Some EOCD) && (at_ + EOCD_LEN + default 0 (u16_at d (at_ + 20)) =? len d) then Ok at_
  else if at_ =? lowest then Err Malformed
  else match fuel with O => Err Malformed | S fuel => eocd_loop d fuel (at_ - 1) lowest end.
Definition find_eocd (d : bytes) : result Error Z :=
  if len d <? EOCD_LEN then Err Malformed
  else let lowest := saturating_sub (len d) (EOCD_LEN + 0xFFFF) in eocd_loop d (Z.to_nat (len d - EOCD_LEN - lowest)) (len d - EOCD_LEN) lowest.

(** [entry_at]. *)
Definition entry_at (a : Archive) (at_ : Z) : result Error (Entry * Z) :=
  let d := data a in
  if negb (bool_decide (u32_at d at_ = Some CENTRAL)) then Err Malformed else
  flags ← ok_or (u16_at d (at_ + 8)) Malformed;
  mth ← ok_or (u16_at d (at_ + 10)) Malformed;
  crc ← ok_or (u32_at d (at_ + 16)) Malformed;
  cmp ← ok_or (u32_at d (at_ + 20)) Malformed;
  sz ← ok_or (u32_at d (at_ + 24)) Malformed;
  name_len ← ok_or (u16_at d (at_ + 28)) Malformed;
  extra_len ← ok_or (u16_at d (at_ + 30)) Malformed;
  comment_len ← ok_or (u16_at d (at_ + 32)) Malformed;
  disk ← ok_or (u16_at d (at_ + 34)) Malformed;
  loc ← ok_or (u32_at d (at_ + 42)) Malformed;
  if negb (flags &&& 1 =? 0) || negb (flags &&& 0x40 =? 0) then Err Encrypted else
  if (cmp =? 0xFFFFFFFF) || (sz =? 0xFFFFFFFF) || (loc =? 0xFFFFFFFF) || negb (disk =? 0) then Err Unsupported else
  if negb (mth =? 0) && negb (mth =? 8) then Err Unsupported else
  if l_name (limits a) <? name_len then Err Limit else
  nm ← ok_or (get_range d (at_ + CENTRAL_LEN) (at_ + CENTRAL_LEN + name_len)) Malformed;
  match utf8 nm with
  | None => Err BadName
  | Some _ =>
      if negb (name_ok nm (l_name (limits a))) then Err BadName else
      if l_entry (limits a) <? sz then Err Limit else
      if (mth =? 0) && negb (cmp =? sz) then Err Malformed else
      if Z.min (W64 - 1) (Z.max cmp 1 * l_ratio (limits a)) <? sz then Err Limit else
      let next := at_ + CENTRAL_LEN + name_len + extra_len + comment_len in
      if len d <? next then Err Malformed else
      Ok (mkEntry nm mth crc cmp sz loc, next)
  end.

(** [open]: the names met before, and the walk. *)
Fixpoint met_before (a : Archive) (i : nat) (seen : Z) (nm : bytes) : result Error unit :=
  match i with
  | O => Ok tt
  | S i => '(other, after) ← entry_at a seen; if bool_decide (name other = nm) then Err BadName else met_before a i after nm
  end.
Fixpoint walk (a : Archive) (e : Z) (i n : nat) (at_ total : Z) : result Error Z :=
  match n with
  | O => Ok at_
  | S n =>
      '(entry, next) ← entry_at a at_;
      if e <? next then Err Malformed else
      _ ← met_before a i (directory a) (name entry);
      total ← ok_or (checked_add total (size entry)) Limit;
      if l_total (limits a) <? total then Err Limit else
      walk a e (S i) n next total
  end.
Definition open_archive (d : bytes) (lim : Limits) : result Error Archive :=
  eocd ← find_eocd d;
  disk ← ok_or (u16_at d (eocd + 4)) Malformed;
  cd_disk ← ok_or (u16_at d (eocd + 6)) Malformed;
  here ← ok_or (u16_at d (eocd + 8)) Malformed;
  cnt ← ok_or (u16_at d (eocd + 10)) Malformed;
  sz ← ok_or (u32_at d (eocd + 12)) Malformed;
  offset ← ok_or (u32_at d (eocd + 16)) Malformed;
  if (cnt =? 0xFFFF) || (sz =? 0xFFFFFFFF) || (offset =? 0xFFFFFFFF) then Err Unsupported else
  if negb (disk =? 0) || negb (cd_disk =? 0) || negb (here =? cnt) then Err Unsupported else
  let e := offset + sz in
  if eocd <? e then Err Malformed else
  if l_entries lim <? cnt then Err Limit else
  let a := mkArchive d offset cnt lim in
  at_ ← walk a e 0 (Z.to_nat cnt) offset 0;
  if negb (at_ =? e) then Err Malformed else Ok a.

(** [entries]: [expect] panics where an entry cannot be read. *)
Fixpoint entries_from (a : Archive) (n : nat) (at_ : Z) : outcome Empty_set (list Entry) :=
  match n with
  | O => Done []
  | S n => match entry_at a at_ with
           | Ok (e, next) => rest ← entries_from a n next; Done (e :: rest)
           | Err _ => Crash
           end
  end.
Definition entries (a : Archive) : outcome Empty_set (list Entry) := entries_from a (Z.to_nat (count a)) (directory a).
Definition find_entry (a : Archive) (nm : bytes) : outcome Empty_set (option Entry) :=
  es ← entries a; Done (List.find (fun e => bool_decide (name e = nm)) es).

(** ** Release bundles *)
Module Bundle.
Definition ENTRIES_MAX : Z := 1024.
Definition NAME_MAX : Z := 255.
Definition TAIL_MAX : Z := EOCD_LEN + 0xFFFF.

Record BEntry : Type := mkBEntry { b_name : bytes; b_size : Z; b_local : Z }.

(** [end]: the loop ([?] of a missing comment length gives up at once) and the checks. *)
Fixpoint end_loop (tail : bytes) (fuel : nat) (at_ lowest : Z) : option Z :=
  let down := if at_ =? lowest then None else match fuel with O => None | S fuel => end_loop tail fuel (at_ - 1) lowest end in
  if bool_decide (u32_at tail at_ = Some EOCD) then
    match u16_at tail (at_ + 20) with
    | None => None
    | Some c => if at_ + EOCD_LEN + c =? len tail then Some at_ else down
    end
  else down.
Definition end_ (tail : bytes) (file_len : Z) : option (Z * Z * Z) :=
  if (len tail <? EOCD_LEN) || (file_len <? len tail) then None else
  let lowest := saturating_sub (len tail) TAIL_MAX in
  at_ ← end_loop tail (Z.to_nat (len tail - EOCD_LEN - lowest)) (len tail - EOCD_LEN) lowest;
  disk ← u16_at tail (at_ + 4); central_disk ← u16_at tail (at_ + 6); here ← u16_at tail (at_ + 8); cnt ← u16_at tail (at_ + 10);
  sz ← u32_at tail (at_ + 12); offset ← u32_at tail (at_ + 16);
  if negb (disk =? 0) || negb (central_disk =? 0) || negb (here =? cnt) || (cnt =? 0xFFFF) || (sz =? 0xFFFFFFFF) || (offset =? 0xFFFFFFFF) then None else
  if (ENTRIES_MAX <? cnt) || negb (offset + sz =? file_len - (len tail - at_)) then None else
  Some (offset, sz, cnt).

(** [entries]. *)
Fixpoint entries_loop (d : bytes) (dir : Z) (n : nat) (at_ : Z) (found : list BEntry) : option (Z * list BEntry) :=
  match n with
  | O => Some (at_, found)
  | S n =>
      sig ← u32_at d at_;
      if negb (sig =? CENTRAL) then None else
      flags ← u16_at d (at_ + 8); mth ← u16_at d (at_ + 10); cmp ← u32_at d (at_ + 20); sz ← u32_at d (at_ + 24);
      name_len ← u16_at d (at_ + 28); extra_len ← u16_at d (at_ + 30); comment_len ← u16_at d (at_ + 32); disk ← u16_at d (at_ + 34); loc ← u32_at d (at_ + 42);
      if negb (flags &&& 0x41 =? 0) || negb (mth =? 0) || negb (cmp =? sz) || (sz =? 0xFFFFFFFF) || (loc =? 0xFFFFFFFF) || negb (disk =? 0) then None else
      nm ← get_range d (at_ + CENTRAL_LEN) (at_ + CENTRAL_LEN + name_len);
      _ ← utf8 nm;
      if negb (name_ok nm NAME_MAX) || existsb (fun e => bool_decide (b_name e = nm)) found || (dir <=? loc) then None else
      entries_loop d dir n (at_ + (CENTRAL_LEN + name_len + extra_len + comment_len)) (found ++ [mkBEntry nm sz loc])
  end.
Definition entries_of (d : bytes) (cnt : nat) (dir : Z) : option (list BEntry) :=
  '(at_, found) ← entries_loop d dir cnt 0 []; if at_ =? len d then Some found else None.

(** [start]. *)
Definition start (header : bytes) (e : BEntry) (dir : Z) : option Z :=
  flags ← u16_at header 6; mth ← u16_at header 8; name_len ← u16_at header 26; extra_len ← u16_at header 28; sig ← u32_at header 0;
  if negb (sig =? LOCAL) || negb (flags &&& 0x41 =? 0) || negb (mth =? 0) then None else
  nm ← get_range header LOCAL_LEN (LOCAL_LEN + name_len);
  if negb (bool_decide (nm = b_name e)) then None else
  let s := b_local e + (LOCAL_LEN + name_len) + extra_len in
  if s + b_size e <=? dir then Some s else None.
End Bundle.

(** ** What an opened package promises *)
Lemma rd_nonneg n d at_ v : Forall is_byte d -> rd n d at_ = Some v -> 0 <= v.
Proof. intros Hb. unfold rd. case_match; [|done]. intros [= <-]. apply of_le_bound. by apply forall_slice. Qed.

Ltac ok_inv H :=
  repeat match type of H with
  | (_ ≫= _) = Ok _ => let a := fresh "x" in let E := fresh "E" in
      match type of H with (?o ≫= _) = _ => destruct o as [a|] eqn:E; cbn [mbind result_bind] in H; [|discriminate H] end
  | (if ?c then Err _ else _) = Ok _ => let Hc := fresh "Hc" in destruct c eqn:Hc; [discriminate H|]
  end.

(** Entries read one after another. *)
Inductive reads (a : Archive) : Z -> list Entry -> Z -> Prop :=
| reads_nil at_ : reads a at_ [] at_
| reads_cons at_ e next es at' : entry_at a at_ = Ok (e, next) -> reads a next es at' -> reads a at_ (e :: es) at'.

Lemma reads_entries a at_ es at' : reads a at_ es at' -> entries_from a (length es) at_ = Done es.
Proof. induction 1 as [|at_ e next es at' H _ IH]; [done|]. cbn [length entries_from]. rewrite H, IH. done. Qed.

Lemma reads_snoc a at_ es mid e next : reads a at_ es mid -> entry_at a mid = Ok (e, next) -> reads a at_ (es ++ [e]) next.
Proof. induction 1 as [|at_ e' n' es mid H _ IH]; intros He; cbn [app]; [econstructor; [done|constructor]|econstructor; [done|by apply IH]]. Qed.

Lemma met_before_ok a at_ es at' nm u : reads a at_ es at' -> met_before a (length es) at_ nm = Ok u -> nm ∉ map name es.
Proof.
  induction 1 as [|at_ e next es at' H _ IH]; cbn [length met_before map]; intros Hm; [apply not_elem_of_nil|]. rewrite H in Hm. cbn [mbind result_bind] in Hm.
  case_bool_decide as Hn; [done|]. rewrite elem_of_cons. intros [->|Hin]; [done|]. by apply IH in Hm.
Qed.

Record entry_good (lim : Limits) (e : Entry) : Prop := {
  eg_name : name_ok (name e) (l_name lim) = true;
  eg_size : size e <= l_entry lim;
  eg_ratio : size e <= Z.max (compressed e) 1 * l_ratio lim;
  eg_method : method e = 0 /\ compressed e = size e \/ method e = 8 }.

Lemma entry_at_good a at_ e next : entry_at a at_ = Ok (e, next) -> entry_good (limits a) e /\ next <= len (data a).
Proof.
  intros H. unfold entry_at in H. ok_inv H. destruct (utf8 _); [|done]. ok_inv H. injection H as <- <-. apply negb_false_iff in Hc4. apply Z.ltb_ge in Hc5, Hc7, Hc8. split; [|done].
  constructor; cbn; [done|lia|lia|]. destruct (Z.eqb_spec x0 0) as [->|H0]; cbn [negb andb] in *; [left|right].
  - apply negb_false_iff, Z.eqb_eq in Hc6. done.
  - apply negb_false_iff, Z.eqb_eq in Hc2. done.
Qed.

Lemma walk_spec a e n prev at_ total at' : reads a (directory a) prev at_ -> NoDup (map name prev) -> walk a e (length prev) n at_ total = Ok at' ->
  exists es, reads a at_ es at' /\ length es = n /\ NoDup (map name (prev ++ es)) /\ Forall (entry_good (limits a)) es /\ total + zsum (map size es) <= Z.max total (l_total (limits a)).
Proof.
  revert prev at_ total. induction n as [|n IH]; intros prev at_ total Hr Hnd H; cbn [walk] in H.
  - injection H as <-. exists []. rewrite app_nil_r. split_and!; [constructor|done|done|done|cbn; lia].
  - destruct (entry_at a at_) as [[ent next]|] eqn:He; [|done]. cbn [mbind result_bind] in H. ok_inv H. unfold ok_or in E0. destruct (checked_add total (size ent)) as [t|] eqn:Ht; [|done]. injection E0 as <-.
    apply checked_add_Some in Ht as [-> _]. apply Z.ltb_ge in Hc0. pose proof (met_before_ok _ _ _ _ _ _ Hr E) as Hnew.
    destruct (IH (prev ++ [ent]) next (total + size ent)) as (es & R & L & N & G & S); [by eapply reads_snoc| | |].
    + rewrite map_app. apply NoDup_app. split_and!; [done| |apply NoDup_singleton]. intros z Hx Hx'. apply list_elem_of_singleton in Hx'. by subst.
    + rewrite length_app, Nat.add_comm. exact H.
    + exists (ent :: es). split_and!; [by econstructor|cbn; lia|by rewrite <- app_assoc in N| |].
      * constructor; [by eapply entry_at_good|done].
      * cbn [map]. rewrite zsum_cons. lia.
Qed.

(** a package that opens can be read: its entries are all readable again, as many as it names and within the
    limit (the [expect] of [entries] never panics); no two have the same name, every name is a plain relative path of real
    parts, and the size of each, its ratio and the sum of all sizes are within the limits. *)
Theorem archive_sound d lim a : Forall is_byte d -> 0 <= l_total lim -> open_archive d lim = Ok a ->
  exists es, entries a = Done es /\ len es = count a /\ count a <= l_entries lim /\ NoDup (map name es) /\ Forall (entry_good lim) es /\ zsum (map size es) <= l_total lim.
Proof.
  intros Hb Htot H. unfold open_archive in H. ok_inv H. injection H as <-. assert (0 <= x3) as Hcnt by (unfold ok_or in E3; destruct (u16_at d (x + 10)) eqn:Hx; [|done]; injection E3 as <-; by eapply (rd_nonneg 2 d)). cbn [count directory limits] in *. apply Z.ltb_ge in Hc2.
  destruct (walk_spec _ _ _ [] _ 0 _ (reads_nil _ _) (NoDup_nil_2) E6) as (es & R & L & N & G & S). exists es. cbn [limits app] in *.
  split_and!; [|unfold len; lia|done|done|done|lia]. unfold entries. cbn [count directory]. rewrite <- L. by eapply reads_entries.
Qed.

(** ** What a bundle's entries promise *)
Module BundleFacts.
Import Bundle.

Ltac some_inv H :=
  repeat match type of H with
  | (?o ≫= _) = Some _ => let a := fresh "x" in let E := fresh "E" in destruct o as [a|] eqn:E; cbn [mbind option_bind] in H; [|discriminate H]
  | (if ?c then None else _) = Some _ => let Hc := fresh "Hc" in destruct c eqn:Hc; [discriminate H|]
  end.

Definition bentry_good (dir : Z) (e : BEntry) : Prop := name_ok (b_name e) NAME_MAX = true /\ 0 <= b_local e < dir /\ 0 <= b_size e.

Lemma entries_loop_good d dir n at_ found at' es : Forall is_byte d -> entries_loop d dir n at_ found = Some (at', es) ->
  NoDup (map b_name found) -> Forall (bentry_good dir) found -> NoDup (map b_name es) /\ Forall (bentry_good dir) es /\ length es = (length found + n)%nat.
Proof.
  intros Hb. revert at_ found. induction n as [|n IH]; intros at_ found H Hnd Hg; cbn [entries_loop] in H; [injection H as <- <-; split_and!; [done|done|lia]|].
  some_inv H. repeat (apply orb_false_iff in Hc1 as [Hc1 ?]). apply negb_false_iff in Hc1. apply Z.leb_gt in H0.
  destruct (IH _ _ H) as (I1 & I2 & I3).
  - rewrite map_app. apply NoDup_app. split_and!; [done| |apply NoDup_singleton]. intros x' Hx Hx'. apply list_elem_of_singleton in Hx'. subst x'. cbn [b_name] in Hx.
    apply list_elem_of_fmap in Hx as (e & He & Hin). assert (existsb (fun e => bool_decide (b_name e = x9)) found = true); [|congruence].
    apply existsb_exists. exists e. split; [by apply list_elem_of_In|]. by apply bool_decide_eq_true.
  - apply Forall_app. split; [done|]. constructor; [|done]. split; [done|]. cbn. split; [split; [by eapply rd_nonneg|lia]|by eapply rd_nonneg].
  - split_and!; [done|done|]. rewrite I3, length_app. cbn. lia.
Qed.

Lemma end_loop_at tail fuel at_ lowest k : 0 <= lowest <= at_ -> at_ + EOCD_LEN <= len tail -> end_loop tail fuel at_ lowest = Some k -> lowest <= k /\ k + EOCD_LEN <= len tail.
Proof.
  revert at_. induction fuel as [|fuel IH]; intros at_ H1 H2 H; cbn [end_loop] in H.
  - repeat (case_match; try discriminate H); injection H as <-; lia.
  - destruct (Z.eqb_spec at_ lowest) as [->|Hne].
    + repeat (case_match; try discriminate H); injection H as <-; lia.
    + assert (end_loop tail fuel (at_ - 1) lowest = Some k \/ at_ = k) as [Hd|<-]; [|apply IH in Hd; lia|lia].
      repeat (case_match; try discriminate H); try (by left); injection H as <-; by right.
Qed.
End BundleFacts.

(** a release bundle's entries lie where they may: the directory ends before the end record, inside the file; its
    entries, as many as the record counts, have distinct plain relative names and start before the directory, and the
    bytes of one begin behind its header and end by the directory. *)
Theorem bundle_sound tail file_len dir sz cnt central es : Forall is_byte tail -> Forall is_byte central ->
  Bundle.end_ tail file_len = Some (dir, sz, cnt) -> Bundle.entries_of central (Z.to_nat cnt) dir = Some es ->
  0 <= dir /\ 0 <= sz /\ dir + sz + EOCD_LEN <= file_len /\ cnt <= Bundle.ENTRIES_MAX /\ length es = Z.to_nat cnt /\ NoDup (map Bundle.b_name es) /\
  forall e header s, e ∈ es -> Forall is_byte header -> Bundle.start header e dir = Some s ->
    name_ok (Bundle.b_name e) Bundle.NAME_MAX = true /\ 0 <= Bundle.b_local e < dir /\ Bundle.b_local e + LOCAL_LEN <= s /\ s + Bundle.b_size e <= dir.
Proof.
  intros Hb Hbc He Hes. unfold Bundle.end_ in He. BundleFacts.some_inv He. injection He as <- <- <-.
  apply orb_false_iff in Hc as [Hl1%Z.ltb_ge Hl2%Z.ltb_ge]. apply orb_false_iff in Hc1 as [Hcnt%Z.ltb_ge Hoff%negb_false_iff%Z.eqb_eq].
  unfold saturating_sub, Bundle.TAIL_MAX in E. apply BundleFacts.end_loop_at in E as [K1 K2]; [|lia|lia].
  unfold Bundle.entries_of in Hes. destruct (Bundle.entries_loop _ _ _ _ _) as [[at_ found]|] eqn:Hlp; [|done]. cbn [mbind option_bind] in Hes. case_match; [|done]. injection Hes as <-.
  apply BundleFacts.entries_loop_good in Hlp as (L1 & L2 & L3); [|done|apply NoDup_nil_2|done].
  split_and!; [by eapply (rd_nonneg 4 tail)|by eapply (rd_nonneg 4 tail)|lia|done|done|done|].
  intros e header s Hin Hbh Hs. pose proof (proj1 (Forall_forall _ _) L2 e Hin) as (G1 & G2 & G3). unfold Bundle.start in Hs. BundleFacts.some_inv Hs.
  case_match eqn:Hfit; [|done]. injection Hs as <-. apply Z.leb_le in Hfit.
  assert (0 <= x8) by (by eapply (rd_nonneg 2 header)). assert (0 <= x9) by (by eapply (rd_nonneg 2 header)). unfold LOCAL_LEN in *. split; [done|]. split; [done|]. lia.
Qed.

(** ** A stored file [a] in an archive *)
Definition demo_local : bytes := to_le 4 LOCAL ++ replicate 14 0 ++ to_le 4 2 ++ to_le 4 2 ++ to_le 2 1 ++ to_le 2 0 ++ [97] ++ [104; 105].
Definition demo_central : bytes :=
  to_le 4 CENTRAL ++ replicate 16 0 ++ to_le 4 2 ++ to_le 4 2 ++ to_le 2 1 ++ to_le 2 0 ++ to_le 2 0 ++ to_le 2 0 ++ to_le 2 0 ++ to_le 4 0 ++ to_le 4 0 ++ [97].
Definition demo_end : bytes := to_le 4 EOCD ++ replicate 4 0 ++ to_le 2 1 ++ to_le 2 1 ++ to_le 4 47 ++ to_le 4 33 ++ to_le 2 0.
Definition demo_zip : bytes := demo_local ++ demo_central ++ demo_end.
Definition demo_archive : Archive := mkArchive demo_zip 33 1 default_limits.

Lemma demo_zip_bytes l : forallb (fun b => (0 <=? b) && (b <? 256)) l = true -> Forall is_byte l.
Proof. intros H. apply Forall_forall. intros b Hb. apply list_elem_of_In in Hb. pose proof (proj1 (forallb_forall _ _) H b Hb) as Hx. cbn beta in Hx. unfold is_byte. lia. Qed.

Lemma archive_sound_witness : exists es, entries demo_archive = Done es /\ len es = 1 /\ Forall (entry_good default_limits) es.
Proof.
  destruct (archive_sound demo_zip default_limits demo_archive) as (es & H1 & H2 & _ & _ & H3 & _); [by apply demo_zip_bytes|by vm_compute|reflexivity|].
  exists es. split; [exact H1|]. split; [exact H2|exact H3].
Defined.

Lemma bundle_sound_witness : Bundle.start demo_local (Bundle.mkBEntry [97] 2 0) 33 = Some 31 /\ 31 + 2 <= 33.
Proof.
  split; [reflexivity|].
  destruct (bundle_sound demo_end 102 33 47 1 demo_central [Bundle.mkBEntry [97] 2 0]) as (_ & _ & _ & _ & _ & _ & H); [by apply demo_zip_bytes|by apply demo_zip_bytes|reflexivity|reflexivity|].
  apply (H (Bundle.mkBEntry [97] 2 0) demo_local 31); [by left|by apply demo_zip_bytes|reflexivity].
Defined.
