(* ===== verification/Unzip.v ===== *)
(** * Reading a package's entry ([libmind/src/zip.rs]: [Archive::read])

    An entry's bytes go to a sink, stored as they are or through the decompressor, counted and summed on the way. The theorem:
    an entry of an opened package that reads well gave the sink exactly as many bytes as the directory says, with the CRC-32
    it says, whatever the data and the sink; and reading never panics. *)
From S2P Require Import Prelude Outcome Text Inflate InflateBits Huffman InflateSpec Archive.

(** What [feed] keeps, and the caller's sink. *)
Record Feed (K : Type) : Type := mkFeed { f_crc : Z; produced : Z; over : bool; refused : bool; caller : K }.
Arguments mkFeed {K} _ _ _ _ _.
Arguments f_crc {K} _.
Arguments produced {K} _.
Arguments over {K} _.
Arguments refused {K} _.
Arguments caller {K} _.
Section read.
Context {K : Type} `{!Sink K}.
Definition feed (e : Entry) (piece : bytes) (f : Feed K) : bool * Feed K :=
  let p := produced f + len piece in
  if size e <? p then (false, mkFeed (f_crc f) p true (refused f) (caller f)) else
  let crc := crc32_update (f_crc f) piece in
  let '(go, k) := give piece (caller f) in
  if negb go then (false, mkFeed crc p (over f) true k) else (true, mkFeed crc p (over f) (refused f) k).
Definition finish (e : Entry) (f : Feed K) : outcome Archive.Error unit * K :=
  (if refused f then Refuse SinkRefused
   else if over f || negb (produced f =? size e) || negb (f_crc f =? Archive.crc32 e) then Refuse Corrupt else Done tt, caller f).
Definition read (a : Archive) (e : Entry) (k : K) : outcome Archive.Error unit * K :=
  let d := data a in
  let at_ := local e in
  let head :=
    if (directory a <=? at_) || negb (bool_decide (u32_at d at_ = Some LOCAL)) then Refuse Malformed else
    mth ← or_refuse (u16_at d (at_ + 8)) Malformed;
    name_len ← or_refuse (u16_at d (at_ + 26)) Malformed;
    extra_len ← or_refuse (u16_at d (at_ + 28)) Malformed;
    if negb (mth =? method e) || negb (bool_decide (get_range d (at_ + LOCAL_LEN) (at_ + LOCAL_LEN + name_len) = Some (name e))) then Refuse Malformed else
    let start := at_ + LOCAL_LEN + name_len + extra_len in
    end_ ← or_refuse (checked_add start (compressed e)) Malformed;
    if directory a <? end_ then Refuse Malformed else range_of d start end_ in
  match head with
  | Refuse err => (Refuse err, k)
  | Crash => (Crash, k)
  | Done body =>
      let f := mkFeed 0 0 false false k in
      if method e =? 0 then finish e (feed e body f).2 else
      match inflate (Sink0:=feed e) body f with
      | (Crash, f) => (Crash, caller f)
      | (Refuse _, f) => if negb (over f) && negb (refused f) then (Refuse Corrupt, caller f) else finish e f
      | (Done _, f) => finish e f
      end
  end.
End read.

Lemma crc32_update_app c a b : crc32_update (crc32_update c a) b = crc32_update c (a ++ b).
Proof. unfold crc32_update. rewrite foldl_app. f_equal. f_equal. unfold not32'. lia. Qed.
Lemma entry_at_nonneg a at_ e next : Forall is_byte (data a) -> entry_at a at_ = Ok (e, next) -> 0 <= local e /\ 0 <= compressed e.
Proof.
  intros Hb H. unfold entry_at in H. ok_inv H. destruct (utf8 _); [|done]. ok_inv H. injection H as <- <-. cbn. assert (forall n at_ x, ok_or (rd n (data a) at_) Malformed = Ok x -> 0 <= x) as Hr by (intros n p y Hx; unfold ok_or in Hx; destruct (rd n (data a) p) eqn:Er; [|done]; injection Hx as <-; by eapply rd_nonneg). split; by eapply Hr.
Qed.
Lemma entries_from_read a n at_ es e : Forall is_byte (data a) -> entries_from a n at_ = Done es -> e ∈ es -> 0 <= local e /\ 0 <= compressed e.
Proof.
  intros Hb. revert at_ es. induction n as [|n IH]; intros at_ es H He; cbn [entries_from] in H; [injection H as <-; by apply elem_of_nil in He|]. destruct (entry_at a at_) as [[x next]|] eqn:Ex; [|done]. done_inv H. injection H as <-. apply elem_of_cons in He as [->|He]; [by eapply entry_at_nonneg|by eapply IH].
Qed.
Lemma open_directory d lim a : open_archive d lim = Ok a -> Forall is_byte d -> data a = d /\ 0 <= directory a <= len d.
Proof.
  intros H Hb. unfold open_archive in H. ok_inv H. injection H as <-. cbn. apply Z.ltb_ge in Hc1. assert (forall n at_ x, ok_or (rd n d at_) Malformed = Ok x -> 0 <= x) as Hr by (intros n p x' Hx; unfold ok_or in Hx; destruct (rd n d p) eqn:Er; [|done]; injection Hx as <-; by eapply rd_nonneg).
  pose proof (Hr _ _ _ E4) as H4. pose proof (Hr _ _ _ E5) as H5. unfold ok_or, u16_at, rd in E0. case_match eqn:Hx; [|done]. revert Hx. case_match eqn:Hy; [|done]. intros _. apply andb_true_iff in Hy as [_ Hy%Z.leb_le]. split; [done|]. split; [done|]. lia.
Qed.
Section exact.
Context {K : Type} `{!Sink K} (has : K -> bytes -> Prop) (give_has : forall p k x, has k x -> has (give p k).2 (x ++ p)) (x0 : bytes) (e : Entry).
(** Until an entry is too long, the sums are those of what the caller has. *)
Definition fed (f : Feed K) : Prop := over f = true \/ exists x, has (caller f) (x0 ++ x) /\ f_crc f = crc32_update 0 x /\ produced f = len x.
Lemma feed_fed p f : fed f -> fed (feed e p f).2.
Proof using give_has.
  intros Hf. unfold feed. destruct (size e <? produced f + len p) eqn:Es; [by left|]. pose proof (give_has p (caller f)) as Hg. destruct (give p (caller f)) as [go k]. cbn [snd] in Hg. destruct Hf as [Ho|(x & Hx & Hc & Hp)].
  - left. by destruct (negb go).
  - right. exists (x ++ p). rewrite app_assoc, <- crc32_update_app, <- Hc. unfold len in *. rewrite length_app, Nat2Z.inj_add, <- Hp. specialize (Hg _ Hx). by destruct (negb go).
Qed.
Lemma finish_exact f : fed f -> match finish e f with (Done _, k') => exists x, has k' (x0 ++ x) /\ len x = size e /\ crc32_update 0 x = Archive.crc32 e | (Refuse _, _) => True | (Crash, _) => False end.
Proof using.
  intros Hf. unfold finish. destruct (refused f); [done|]. destruct (over f) eqn:Ho; [done|]. cbn [orb]. destruct (Z.eqb_spec (produced f) (size e)) as [E1|]; [|done]. destruct (Z.eqb_spec (f_crc f) (Archive.crc32 e)) as [E2|]; [|done]. cbn [negb orb]. destruct Hf as [|(x & Hx & Hc & Hp)]; [congruence|]. exists x. split; [done|]. split; congruence.
Qed.
End exact.
(** C36: an entry that reads well is what the directory says. Of an entry of an opened package, whatever its data, reading never
    panics, and if it succeeds the sink was given exactly as many bytes as the entry's size, and their CRC-32 is the entry's. *)
Theorem read_exact {K} `{!Sink K} (has : K -> bytes -> Prop) d lim a es e (x0 : bytes) (k : K) : (forall p k x, has k x -> has (give p k).2 (x ++ p)) ->
  Forall is_byte d -> open_archive d lim = Ok a -> entries a = Done es -> e ∈ es -> has k x0 ->
  match read a e k with (Done _, k') => exists x, has k' (x0 ++ x) /\ len x = size e /\ crc32_update 0 x = Archive.crc32 e | (Refuse _, _) => True | (Crash, _) => False end.
Proof.
  intros Hg Hb Ho Hes He Hk. destruct (open_directory d lim a Ho Hb) as [Hd Hdir]. destruct (entries_from_read a _ _ es e ltac:(by rewrite Hd) Hes He) as [Hloc Hcmp]. unfold read. rewrite Hd. assert (fed has x0 (mkFeed 0 0 false false k)) as Hf by (right; exists []; by rewrite app_nil_r).
  set (head := if _ || _ then _ else _). assert (match head with Done body => Forall is_byte body | Refuse _ => True | Crash => False end) as Hhead.
  { unfold head. destruct (_ || _); [done|]. destruct (u16_at d (local e + 8)) as [m|]; [|done]. destruct (u16_at d (local e + 26)) as [nl|] eqn:En; [|done]. destruct (u16_at d (local e + 28)) as [el|] eqn:Ee; [|done]. cbn [or_refuse mbind outcome_bind]. destruct (_ || _); [done|]. destruct (checked_add _ _) as [z|] eqn:Ez; [|done]. cbn [or_refuse mbind outcome_bind]. destruct (directory a <? z) eqn:Elt; [done|]. apply Z.ltb_ge in Elt. apply checked_add_Some in Ez as [-> _].
    pose proof (rd_nonneg 2 d _ _ Hb En). pose proof (rd_nonneg 2 d _ _ Hb Ee). destruct (range_of d _ _) as [body|err|] eqn:Er; [|done|].
    - apply range_of_done in Er as (_ & _ & -> & _). by apply forall_slice.
    - revert Er. apply range_of_safe; unfold LOCAL_LEN, len in *; lia. }
  destruct head as [body|err|]; [|done|done]. destruct (method e =? 0); [by apply finish_exact, feed_fed|]. pose proof (inflate_safe (Sink0:=feed e) body (mkFeed 0 0 false false k) Hhead) as Hs. pose proof (inflate_kept (Sink0:=feed e) (fed has x0) body (mkFeed 0 0 false false k) (feed_fed has Hg x0 e) Hf) as Hk2.
  destruct (inflate body _) as [[u|err|] f]; cbn [fst snd] in *; [by apply finish_exact|destruct (_ && _); [done|by apply finish_exact]|done].
Qed.

(** A package with one compressed entry of four letters. *)
Definition four_zip : bytes := [80; 75; 3; 4; 20; 0; 0; 0; 8; 0; 0; 0; 0; 0; 69; 229; 152; 173; 4; 0; 0; 0; 4; 0; 0; 0; 1; 0; 0; 0; 97; 75; 4; 2; 0; 80; 75; 1; 2; 20; 0; 20; 0; 0; 0; 8; 0; 0; 0; 0; 0; 69; 229; 152; 173; 4; 0; 0; 0; 4; 0; 0; 0; 1; 0; 0; 0; 0; 0; 0; 0; 0; 0; 0; 0; 0; 0; 0; 0; 0; 0; 97; 80; 75; 5; 6; 0; 0; 0; 0; 1; 0; 1; 0; 47; 0; 0; 0; 35; 0; 0; 0; 0; 0].
Definition four_entry : Entry := mkEntry [97] 8 2912478533 4 4 0.
#[local] Instance keep_given : Sink bytes := fun p k => (true, k ++ p).
Lemma four_reads : read (mkArchive four_zip 35 1 default_limits) four_entry ([] : bytes) = (Done tt, [97; 97; 97; 97]).
Proof. vm_compute. reflexivity. Qed.
Lemma read_exact_witness : exists x, [97; 97; 97; 97] = [] ++ x /\ len x = 4 /\ crc32_update 0 x = 2912478533.
Proof.
  pose proof (read_exact (fun k x : bytes => k = x) four_zip default_limits (mkArchive four_zip 35 1 default_limits) [four_entry] four_entry [] []) as H. rewrite four_reads in H. apply H; clear H.
  - intros p k x ->. reflexivity.
  - apply demo_zip_bytes. vm_compute. reflexivity.
  - vm_compute. reflexivity.
  - vm_compute. reflexivity.
  - apply list_elem_of_singleton. reflexivity.
  - reflexivity.
Defined.
