(* ===== verification/Json.v ===== *)
(** * The JSON reader ([libmind/src/json.rs]: [Reader], [walk])

    A cursor over one text. Errors are [Refuse]; [Crash] stands for a panic and for running out of fuel, so that "safe"
    says both that no index is out of range and that the loops end. [visit] of [walk] is the caller's, an argument. The
    theorems: [new], [skip] and [end] accept exactly the texts of the grammar of RFC 8259 nested at most [DEPTH] deep whose
    escapes of UTF-16 surrogates come in pairs (the grammar allows a lone one, [lone_surrogate_refused]);
    [skip_string] passes over exactly what [string] reads; [walk] never panics and keeps its bounds. *)
From S2P Require Import Prelude Text Outcome.
Local Open Scope nat_scope.

Definition DEPTH : nat := 32.
Inductive Kind : Type := Object | Array | String_ | Number | True_ | False_ | Null.
#[global] Instance Kind_eq_dec : EqDecision Kind.
Proof. solve_decision. Defined.

Record Reader : Type := mkReader { text : bytes; at_ : nat; depth : nat; started : Z }.
Abbreviation json A := (outcome unit A).
Abbreviation Malformed := (Refuse tt).

Definition reader_new (t : bytes) : json Reader := _ ← or_refuse (utf8 t) tt; Done (mkReader t 0 0 0).
Definition adv (n : nat) (r : Reader) : Reader := mkReader (text r) (at_ r + n) (depth r) (started r).

(** How many elements from the start on satisfy [p]: a loop [while p { at += 1 }]. *)
Fixpoint run {A} (p : A -> bool) (l : list A) : nat := match l with x :: l => if p x then S (run p l) else 0 | [] => 0 end.
(** The bytes from the cursor on. *)
Definition rest (r : Reader) : bytes := drop (at_ r) (text r).

Definition is_space (b : Z) : bool := (b =? 32)%Z || (b =? 9)%Z || (b =? 10)%Z || (b =? 13)%Z.
Definition space (r : Reader) : Reader := adv (run is_space (rest r)) r.
Definition byte (r : Reader) : json (Z * Reader) := b ← or_refuse (text r !! at_ r) tt; Done (b, adv 1 r).
Definition literal (word : bytes) (r : Reader) : json Reader :=
  if bool_decide (get_slice (text r) (at_ r) (length word) = Some word) then Done (adv (length word) r) else Malformed.

Definition kind_of (b : Z) : option Kind :=
  if (b =? 123)%Z then Some Object else if (b =? 91)%Z then Some Array else if (b =? 34)%Z then Some String_
  else if (b =? 45)%Z || is_digit b then Some Number
  else if (b =? 116)%Z then Some True_ else if (b =? 102)%Z then Some False_ else if (b =? 110)%Z then Some Null else None.
Definition peek (r : Reader) : json (Kind * Reader) :=
  let r := space r in k ← or_refuse (b ← text r !! at_ r; kind_of b) tt; Done (k, r).

(** Containers: [open], [more]; bit [n] of [started] says that the container at level [n] had a member. *)
Definition bit (n : nat) : Z := Z.shiftl 1 (Z.of_nat n).
Definition open (bracket : Z) (r : Reader) : json Reader :=
  let r := space r in
  if depth r =? DEPTH then Malformed else
  '(b, r) ← byte r;
  if negb (b =? bracket)%Z then Malformed else
  Done (mkReader (text r) (at_ r) (depth r + 1) (Z.ldiff (started r) (bit (depth r)))).
Definition more (close : Z) (r : Reader) : json (bool * Reader) :=
  let r := space r in
  match depth r with
  | 0 => Crash
  | S level =>
      if bool_decide (text r !! at_ r = Some close) then Done (false, mkReader (text r) (at_ r + 1) level (started r))
      else
        r ← (if (Z.land (started r) (bit level) =? 0)%Z then Done r
             else '(b, r) ← byte r; if negb (b =? 44)%Z then Malformed else Done (space r));
        Done (true, mkReader (text r) (at_ r) (depth r) (Z.lor (started r) (bit level)))
  end.
Definition object (r : Reader) : json Reader := open 123 r.
Definition array (r : Reader) : json Reader := open 91 r.
Definition item (r : Reader) : json (bool * Reader) := if depth r =? 0 then Done (false, r) else more 93 r.

(** [char::to_digit(16)]. *)
Definition hex_digit (b : Z) : option Z :=
  if is_digit b then Some (b - 48)%Z else if between 97 102 b then Some (b - 87)%Z else if between 65 70 b then Some (b - 55)%Z else None.

Fixpoint hex_n (n : nat) (v : Z) (r : Reader) : json (Z * Reader) :=
  match n with
  | 0 => Done (v, r)
  | S n => '(b, r) ← byte r; d ← or_refuse (hex_digit b) tt; hex_n n (Z.lor (Z.shiftl v 4) d) r
  end.
Definition hex4 (r : Reader) : json (Z * Reader) := hex_n 4 0 r.

(** The code of a [\u] escape, of one or two halves. *)
Definition unicode (r : Reader) : json (Z * Reader) :=
  '(high, r) ← hex4 r;
  '(code, r) ← (if between 0xD800 0xDBFF high then
                  r ← literal [92; 117]%Z r; '(low, r) ← hex4 r;
                  if negb (between 0xDC00 0xDFFF low) then Malformed
                  else Done (0x10000 + Z.shiftl (high - 0xD800) 10 + (low - 0xDC00), r)%Z
                else if between 0xDC00 0xDFFF high then Malformed else Done (high, r));
  c ← or_refuse (from_u32 code) tt; Done (c, r).
Definition escape (r : Reader) : json (Z * Reader) :=
  '(b, r) ← byte r;
  (if (b =? 34) || (b =? 92) || (b =? 47) then Done (b, r) else if b =? 98 then Done (8, r) else if b =? 102 then Done (12, r)
   else if b =? 110 then Done (10, r) else if b =? 114 then Done (13, r) else if b =? 116 then Done (9, r)
   else if b =? 117 then unicode r else Malformed)%Z.

(** [string_into]: the decoded bytes, at most [cap] (the length of [out]); [n] bounds the loop. *)
Definition put (cap : nat) (out bs : bytes) : json bytes := if length out + length bs <=? cap then Done (out ++ bs) else Malformed.
Fixpoint string_n (n cap : nat) (out : bytes) (r : Reader) : json (bytes * Reader) :=
  match n with
  | 0 => Crash
  | S n =>
      '(b, r) ← byte r;
      if (b =? 34)%Z then Done (out, r)
      else if (b =? 92)%Z then '(c, r) ← escape r; out ← put cap out (encode_utf8 c); string_n n cap out r
      else if (b <? 32)%Z then Malformed
      else out ← put cap out [b]; string_n n cap out r
  end.
Definition string_into (cap : nat) (r : Reader) : json (bytes * Reader) :=
  let r := space r in '(b, r) ← byte r; if negb (b =? 34)%Z then Malformed else string_n (S (length (text r))) cap [] r.
Definition string (cap : nat) (r : Reader) : json (bytes * Reader) := string_into cap r.

Definition key (cap : nat) (r : Reader) : json (option bytes * Reader) :=
  if depth r =? 0 then Done (None, r) else
  '(m, r) ← more 125 r;
  if negb m then Done (None, r) else
  '(k, r) ← string_into cap r;
  '(b, r) ← byte (space r);
  if negb (b =? 58)%Z then Malformed else Done (Some k, r).

(** [skip_string]. *)
Definition skip_escape (r : Reader) : json Reader :=
  '(b, r) ← byte r;
  if ((b =? 34) || (b =? 92) || (b =? 47) || (b =? 98) || (b =? 102) || (b =? 110) || (b =? 114) || (b =? 116))%Z then Done r
  else if (b =? 117)%Z then
    '(high, r) ← hex4 r;
    if between 0xD800 0xDBFF high then
      r ← literal [92; 117]%Z r; '(low, r) ← hex4 r; if negb (between 0xDC00 0xDFFF low) then Malformed else Done r
    else if between 0xDC00 0xDFFF high then Malformed else Done r
  else Malformed.
Fixpoint skip_string_n (n : nat) (r : Reader) : json Reader :=
  match n with
  | 0 => Crash
  | S n =>
      '(b, r) ← byte r;
      if (b =? 34)%Z then Done r
      else if (b =? 92)%Z then r ← skip_escape r; skip_string_n n r
      else if (b <? 32)%Z then Malformed
      else skip_string_n n r
  end.
Definition skip_string (r : Reader) : json Reader :=
  let r := space r in '(b, r) ← byte r; if negb (b =? 34)%Z then Malformed else skip_string_n (S (length (text r))) r.

(** [number_text] and [integer]. *)
Definition digits (r : Reader) : nat * Reader := let n := run is_digit (rest r) in (n, adv n r).
Definition next_is (p : Z -> bool) (r : Reader) : bool := match text r !! at_ r with Some b => p b | None => false end.
Definition int_of (r : Reader) : json Reader :=
  if next_is (Z.eqb 48) r then Done (adv 1 r) else if next_is (between 49 57) r then Done (digits r).2 else Malformed.
Definition frac_of (r : Reader) : json Reader :=
  if next_is (Z.eqb 46) r then let '(n, r) := digits (adv 1 r) in if n =? 0 then Malformed else Done r else Done r.
Definition exp_of (r : Reader) : json Reader :=
  if next_is (fun b => (b =? 101) || (b =? 69))%Z r then
    let r := adv 1 r in
    let r := if next_is (fun b => (b =? 43) || (b =? 45))%Z r then adv 1 r else r in
    let '(n, r) := digits r in if n =? 0 then Malformed else Done r
  else Done r.
Definition number_text (r : Reader) : json (bytes * Reader) :=
  let r := space r in
  let start := at_ r in
  let r := if next_is (Z.eqb 45) r then adv 1 r else r in
  r ← int_of r; r ← frac_of r; r ← exp_of r;
  Done (slice (text r) start (at_ r - start), r).
Definition number (r : Reader) : json (bytes * Reader) := number_text r.
Definition integer (r : Reader) : json (Z * Reader) :=
  '(t, r) ← number_text r;
  if negb (forallb is_digit t) then Malformed else v ← or_refuse (parse_digits W64 0 t) tt; Done (v, r).

(** [skip]; the fuel bounds the recursion and the loops, [skip] gives enough of it. *)
Fixpoint skip_n (fuel : nat) (r : Reader) : json Reader :=
  match fuel with
  | 0 => Crash
  | S fuel =>
      '(k, r) ← peek r;
      match k with
      | Object => r ← object r; skip_members fuel r
      | Array => r ← array r; skip_items fuel r
      | String_ => skip_string r
      | Number => '(_, r) ← number_text r; Done r
      | True_ => literal [116; 114; 117; 101]%Z r
      | False_ => literal [102; 97; 108; 115; 101]%Z r
      | Null => literal [110; 117; 108; 108]%Z r
      end
  end
with skip_members (fuel : nat) (r : Reader) : json Reader :=
  match fuel with
  | 0 => Crash
  | S fuel =>
      '(m, r) ← more 125 r;
      if negb m then Done r else
      r ← skip_string r;
      '(b, r) ← byte (space r);
      if negb (b =? 58)%Z then Malformed else
      r ← skip_n fuel r; skip_members fuel r
  end
with skip_items (fuel : nat) (r : Reader) : json Reader :=
  match fuel with
  | 0 => Crash
  | S fuel => '(m, r) ← item r; if negb m then Done r else r ← skip_n fuel r; skip_items fuel r
  end.
Definition skip (r : Reader) : json Reader := skip_n (2 * length (text r) + 1) r.

Definition end_ (r : Reader) : json Reader := let r := space r in if (at_ r =? length (text r)) && (depth r =? 0) then Done r else Malformed.

(** [walk]: the open containers are a stack, the innermost first; the fuel bounds the loop. *)
Definition VALUES_MAX : nat := 1024.
Definition WALK_DEPTH : nat := 16.
Definition KEY_MAX : nat := 64.
Definition TEXT_MAX : nat := 512.
Record Value : Type := mkValue { v_kind : Kind; v_parent : option nat; v_key : bytes; v_text : bytes }.
Definition is_container (k : Kind) : bool := match k with Object | Array => true | _ => false end.

(** The key of the next value, empty in an array, or [None] at the end of the innermost container. *)
Definition next_key (first : bool) (stack : list (nat * bool)) (r : Reader) : json (option bytes * Reader) :=
  if first then Done (Some [], r)
  else match stack with
       | (_, true) :: _ => key KEY_MAX r
       | _ => '(m, r) ← item r; Done (if m : bool then Some [] else None, r)
       end.
Definition value_text (k : Kind) (r : Reader) : json (bytes * Reader) :=
  match k with
  | String_ => string TEXT_MAX r
  | Number => number r
  | True_ | False_ | Null => r ← skip r; Done ([], r)
  | Object | Array => Done ([], r)
  end.

Section walk.
Context {V : Type} (visit : V -> nat -> Value -> json V).

Fixpoint walk_n (fuel : nat) (r : Reader) (stack : list (nat * bool)) (count : nat) (first : bool) (v : V) : json (V * nat) :=
  match fuel with
  | 0 => Crash
  | S fuel =>
      if negb first && bool_decide (stack = []) then _ ← end_ r; Done (v, count) else
      '(m, r) ← next_key first stack r;
      match m with
      | None => walk_n fuel r (tail stack) count false v
      | Some k =>
          if count =? VALUES_MAX then Malformed else
          '(kind, r) ← peek r;
          '(t, r) ← value_text kind r;
          v ← visit v count (mkValue kind (fst <$> head stack) k t);
          if is_container kind then
            if length stack =? WALK_DEPTH then Malformed else
            r ← (if bool_decide (kind = Object) then object r else array r);
            walk_n fuel r ((count, bool_decide (kind = Object)) :: stack) (S count) false v
          else walk_n fuel r stack (S count) false v
      end
  end.
Definition walk (t : bytes) (v : V) : json (V * nat) := r ← reader_new t; walk_n (length t + 2) r [] 0 true v.
End walk.

(** ** The cursor *)
Lemma rest_adv n r : rest (adv n r) = drop n (rest r).
Proof. unfold rest, adv. cbn. by rewrite drop_drop. Qed.
Lemma adv_adv m n r : adv m (adv n r) = adv (n + m) r.
Proof. unfold adv. cbn. by rewrite Nat.add_assoc. Qed.
Lemma adv_zero r : adv 0 r = r.
Proof. destruct r. unfold adv. cbn. by rewrite Nat.add_0_r. Qed.

Lemma lookup_rest r : text r !! at_ r = head (rest r).
Proof. unfold rest. rewrite <- (Nat.add_0_r (at_ r)) at 1. rewrite <- lookup_drop. by destruct (drop _ _). Qed.

Lemma byte_rest r : byte r = match rest r with b :: _ => Done (b, adv 1 r) | [] => Malformed end.
Proof. unfold byte. rewrite lookup_rest. by destruct (rest r). Qed.
Lemma byte_done r b r' : byte r = Done (b, r') -> rest r = b :: rest r' /\ r' = adv 1 r.
Proof. rewrite byte_rest. destruct (rest r) as [|x l] eqn:E; [done|]. intros [= <- <-]. by rewrite rest_adv, E. Qed.

Lemma next_is_rest p r : next_is p r = match rest r with b :: _ => p b | [] => false end.
Proof. unfold next_is. rewrite lookup_rest. by destruct (rest r). Qed.

Lemma get_slice_rest r w : w <> [] -> (get_slice (text r) (at_ r) (length w) = Some w <-> exists k, rest r = w ++ k).
Proof.
  intros Hne. unfold get_slice, slice. fold (rest r). split.
  - case_decide; [|done]. intros [= Hw]. exists (drop (length w) (rest r)). rewrite <- Hw at 1. by rewrite take_drop.
  - intros [k Hk]. assert (length (rest r) = length w + length k) as Hl by (rewrite Hk, length_app; lia). unfold rest in Hl. rewrite length_drop in Hl.
    assert (length w <> 0) by (destruct w; cbn; [done|lia]). rewrite decide_True by lia. by rewrite Hk, take_app_length.
Qed.
Lemma literal_done w r r' : w <> [] -> (literal w r = Done r' <-> rest r = w ++ rest r' /\ r' = adv (length w) r).
Proof.
  intros Hw. unfold literal. case_bool_decide as H; rewrite get_slice_rest in H by done.
  - destruct H as [k Hk]. split; [|intros [_ ->]; done]. intros [= <-]. split; [|done]. by rewrite rest_adv, Hk, drop_app_length.
  - split; [done|]. intros [H' _]. exfalso. apply H. eauto.
Qed.
Lemma literal_safe w r : safe (literal w r).
Proof. unfold literal. by case_bool_decide. Qed.

Section runs.
Context {A : Type} (p : A -> bool).
Lemma run_take (l : list A) : Forall (fun x => p x = true) (take (run p l) l).
Proof. induction l as [|x l IH]; cbn; [constructor|]. destruct (p x) eqn:E; cbn; by constructor. Qed.
Lemma run_le (l : list A) : run p l <= length l.
Proof. induction l as [|x l IH]; cbn; [lia|]. destruct (p x); cbn; lia. Qed.
Lemma run_stop (l k : list A) : drop (run p l) l = k -> match k with x :: _ => p x = false | [] => True end.
Proof. intros <-. induction l as [|x l IH]; cbn; [done|]. destruct (p x) eqn:E; [done|]. by cbn. Qed.
Lemma run_app (w k : list A) : Forall (fun x => p x = true) w -> match k with x :: _ => p x = false | [] => True end -> run p (w ++ k) = length w.
Proof. intros Hw Hk. induction Hw as [|x w Hx _ IH]; cbn; [destruct k; [done|cbn; by rewrite Hk]|]. by rewrite Hx, IH. Qed.
End runs.

(** ** The grammar, over bytes: RFC 8259's, with surrogate escapes in pairs *)
Definition ws (w : bytes) : Prop := Forall (fun b => is_space b = true) w.
Definition some_digits (d : bytes) : Prop := d <> [] /\ Forall (fun b => is_digit b = true) d.
Definition int_part (i : bytes) : Prop := i = [48%Z] \/ exists b d, i = b :: d /\ between 49 57 b = true /\ Forall (fun b => is_digit b = true) d.
Definition frac_part (f : bytes) : Prop := f = [] \/ exists d, f = 46%Z :: d /\ some_digits d.
Definition exp_part (x : bytes) : Prop :=
  x = [] \/ exists e s d, x = e :: s ++ d /\ (e = 101 \/ e = 69)%Z /\ (s = [] \/ s = [43%Z] \/ s = [45%Z]) /\ some_digits d.
Definition jnumber (n : bytes) : Prop := exists m i f x, n = m ++ i ++ f ++ x /\ (m = [] \/ m = [45%Z]) /\ int_part i /\ frac_part f /\ exp_part x.

(** Four hex digits and their value; the characters of a string up to its closing quote. *)
Definition hex_quad (q : bytes) (v : Z) : Prop :=
  exists a b c d a' b' c' d', q = [a; b; c; d] /\ hex_digit a = Some a' /\ hex_digit b = Some b' /\ hex_digit c = Some c' /\ hex_digit d = Some d' /\
    v = (((a' * 16 + b') * 16 + c') * 16 + d')%Z.
Definition short_escape (b : Z) : option Z :=
  (if (b =? 34) || (b =? 92) || (b =? 47) then Some b else if b =? 98 then Some 8 else if b =? 102 then Some 12
   else if b =? 110 then Some 10 else if b =? 114 then Some 13 else if b =? 116 then Some 9 else None)%Z.

(** [esc e c]: [e] is what follows a backslash and stands for the character [c]. *)
Inductive esc : bytes -> Z -> Prop :=
| e_short b c : short_escape b = Some c -> esc [b] c
| e_unit q v : hex_quad q v -> between 0xD800 0xDFFF v = false -> esc (117%Z :: q) v
| e_pair q v q' v' : hex_quad q v -> hex_quad q' v' -> between 0xD800 0xDBFF v = true -> between 0xDC00 0xDFFF v' = true ->
    esc (117%Z :: q ++ 92%Z :: 117%Z :: q') (0x10000 + (v - 0xD800) * 1024 + (v' - 0xDC00))%Z.
(** [chars s d]: [s] is what follows the opening quote, its closing quote included, and stands for the bytes [d]. *)
Inductive chars : bytes -> bytes -> Prop :=
| c_end : chars [34%Z] []
| c_plain b s d : (32 <= b)%Z -> b <> 34%Z -> b <> 92%Z -> chars s d -> chars (b :: s) (b :: d)
| c_escape e c s d : esc e c -> chars s d -> chars (92%Z :: e ++ s) (encode_utf8 c ++ d).

(** [value n v]: [v] is a JSON value with containers nested at most [n] deep. [items] and [members] are what follows the
    opening bracket, its closing bracket included; the flag says whether a comma must come before another one. *)
Definition comma (more : bool) (c : bytes) : Prop := if more then exists w, c = 44%Z :: w /\ ws w else c = [].
Inductive value : nat -> bytes -> Prop :=
| v_true n : value n [116; 114; 117; 101]%Z
| v_false n : value n [102; 97; 108; 115; 101]%Z
| v_null n : value n [110; 117; 108; 108]%Z
| v_number n v : jnumber v -> value n v
| v_string n s d : chars s d -> value n (34%Z :: s)
| v_array n b : items n false b -> value (S n) (91%Z :: b)
| v_object n b : members n false b -> value (S n) (123%Z :: b)
with items : nat -> bool -> bytes -> Prop :=
| i_end n m w : ws w -> items n m (w ++ [93%Z])
| i_next n m w c v b : ws w -> comma m c -> value n v -> items n true b -> items n m (w ++ c ++ v ++ b)
with members : nat -> bool -> bytes -> Prop :=
| m_end n m w : ws w -> members n m (w ++ [125%Z])
| m_next n m w c s d w1 w2 v b : ws w -> comma m c -> chars s d -> ws w1 -> ws w2 -> value n v -> members n true b ->
    members n m (w ++ c ++ 34%Z :: s ++ w1 ++ 58%Z :: w2 ++ v ++ b).
Scheme value_ind3 := Induction for value Sort Prop
  with items_ind3 := Induction for items Sort Prop
  with members_ind3 := Induction for members Sort Prop.
Combined Scheme grammar_ind from value_ind3, items_ind3, members_ind3.

(** ** Reading: each operation against the grammar *)

(** The cursor passes over [bs]. *)
Definition passes (r : Reader) (bs : bytes) (r' : Reader) : Prop := rest r = bs ++ rest r' /\ r' = adv (length bs) r.

Lemma passes_app r a r1 b r2 : passes r a r1 -> passes r1 b r2 -> passes r (a ++ b) r2.
Proof. intros [H1 ->] [H2 ->]. split; [by rewrite H1, H2, <- app_assoc|]. by rewrite adv_adv, length_app. Qed.
Lemma passes_cons r x r1 b r2 : passes r [x] r1 -> passes r1 b r2 -> passes r (x :: b) r2.
Proof. apply (passes_app r [x]). Qed.
Lemma passes_nil r : passes r [] r.
Proof. split; [done|by rewrite adv_zero]. Qed.
Lemma passes_adv r bs k : rest r = bs ++ k -> passes r bs (adv (length bs) r) /\ rest (adv (length bs) r) = k.
Proof. intros H. assert (rest (adv (length bs) r) = k) as E by (by rewrite rest_adv, H, drop_app_length). split; [|done]. split; [by rewrite E|done]. Qed.
Lemma passes_length r bs r' : passes r bs r' -> length (rest r) = length bs + length (rest r').
Proof. intros [-> _]. apply length_app. Qed.
Lemma passes_fields r bs r' : passes r bs r' -> text r' = text r /\ at_ r' = at_ r + length bs /\ depth r' = depth r /\ started r' = started r.
Proof. by intros [_ ->]. Qed.

Lemma byte_passes r b r' : byte r = Done (b, r') <-> passes r [b] r'.
Proof.
  split; [intros [H ->]%byte_done; by split|]. intros [H ->]. rewrite byte_rest, H. done.
Qed.
Lemma literal_passes w r r' : w <> [] -> literal w r = Done r' <-> passes r w r'.
Proof. intros Hw. by rewrite literal_done. Qed.
Lemma byte_safe r : safe (byte r).
Proof. rewrite byte_rest. by destruct (rest r). Qed.

Definition no_space (k : bytes) : Prop := match k with b :: _ => is_space b = false | [] => True end.
Lemma space_passes r : exists w, ws w /\ passes r w (space r) /\ no_space (rest (space r)).
Proof.
  exists (take (run is_space (rest r)) (rest r)). split; [apply run_take|]. pose proof (run_le is_space (rest r)).
  assert (rest (space r) = drop (run is_space (rest r)) (rest r)) as E by apply rest_adv. split.
  - split; [by rewrite E, take_drop|]. unfold space. f_equal. rewrite length_take. lia.
  - rewrite E. exact (run_stop is_space (rest r) _ eq_refl).
Qed.
Lemma space_over r w k : ws w -> rest r = w ++ k -> no_space k -> space r = adv (length w) r.
Proof. intros Hw Hr Hk. unfold space. by rewrite Hr, run_app. Qed.
Lemma space_idle r : no_space (rest r) -> space r = r.
Proof. intros H. rewrite (space_over r [] (rest r)); [apply adv_zero|constructor|done|done]. Qed.
Lemma ws_app a b : ws a -> ws b -> ws (a ++ b).
Proof. apply Forall_app_2. Qed.

Lemma hex_digit_bound b d : hex_digit b = Some d -> (0 <= d < 16)%Z.
Proof. unfold hex_digit, is_digit, between. repeat case_match; intros; simplify_eq; lia. Qed.
Lemma hex_shift v d : (0 <= v -> 0 <= d < 16 -> Z.lor (Z.shiftl v 4) d = v * 16 + d)%Z.
Proof.
  intros Hv Hd. rewrite <- Z.add_nocarry_lor; [rewrite Z.shiftl_mul_pow2 by lia; lia|]. apply Z.bits_inj'. intros i Hi. rewrite Z.land_spec, Z.bits_0.
  destruct (Z.ltb_spec i 4); [by rewrite Z.shiftl_spec_low|]. replace d with (d mod 2 ^ 4)%Z by (apply Z.mod_small; lia). rewrite Z.mod_pow2_bits_high by lia. apply andb_false_r.
Qed.

Lemma hex_n_passes n v r v' r' : (0 <= v)%Z -> hex_n n v r = Done (v', r') <->
  exists q ds, length q = n /\ Forall2 (fun b d => hex_digit b = Some d) q ds /\ passes r q r' /\ v' = foldl (fun v d => v * 16 + d)%Z v ds.
Proof.
  revert v r. induction n as [|n IH]; intros v r Hv; cbn [hex_n].
  - split; [intros [= -> ->]; exists [], []; split_and!; [done|constructor|apply passes_nil|done]|].
    intros ([|] & ds & Hl & Hf & [_ ->] & ->); [|done]. inversion Hf; subst. cbn. by rewrite adv_zero.
  - split.
    + intros [[b r1] [Hb [d [Hd%or_refuse_done H]]%bind_done]]%bind_done. pose proof (hex_digit_bound b d Hd). rewrite hex_shift in H by lia.
      apply IH in H as (q & ds & Hl & Hf & Hp & ->); [|lia]. exists (b :: q), (d :: ds). split_and!; [cbn; lia|by constructor| |done].
      apply byte_passes in Hb. exact (passes_cons _ _ _ _ _ Hb Hp).
    + intros (q & ds & Hl & Hf & Hp & ->). destruct Hf as [|b d q ds Hd Hf]; [done|]. pose proof (hex_digit_bound b d Hd). destruct Hp as [Hr ->].
      destruct (passes_adv r [b] (q ++ rest (adv (length (b :: q)) r))) as [Hp1 Hr1]; [done|]. rewrite (proj2 (byte_passes _ _ _) Hp1). cbn [mbind outcome_bind]. rewrite Hd. cbn [or_refuse mbind outcome_bind].
      rewrite hex_shift by lia. apply IH; [lia|]. exists q, ds. split_and!; [cbn in Hl; lia|done| |done]. split; [done|]. by rewrite adv_adv.
Qed.
Lemma hex4_passes r v r' : hex4 r = Done (v, r') <-> exists q, hex_quad q v /\ passes r q r'.
Proof.
  unfold hex4. rewrite hex_n_passes by done. split.
  - intros (q & ds & Hl & Hf & Hp & ->). exists q. split; [|done]. do 4 (destruct Hf as [|? ? ? ? ? Hf]; [done|]). destruct Hf; [|done]. cbn [foldl]. by repeat eexists.
  - intros (q & (a & b & c & d & a' & b' & c' & d' & -> & Ha & Hb & Hc & Hd & ->) & Hp). exists [a; b; c; d], [a'; b'; c'; d']. split_and!; [done|by repeat constructor|done|done].
Qed.
Lemma hex_n_safe n v r : safe (hex_n n v r).
Proof.
  revert v r. induction n as [|n IH]; intros v r; [done|]. cbn. apply safe_bind; [apply byte_safe|]. intros [b r1] _. apply safe_bind; [auto with mind|]. intros d _. apply IH.
Qed.
Lemma hex_quad_bound q v : hex_quad q v -> (0 <= v < 0x10000)%Z /\ length q = 4.
Proof.
  intros (a & b & c & d & a' & b' & c' & d' & -> & Ha & Hb & Hc & Hd & ->). split; [|done].
  apply hex_digit_bound in Ha, Hb, Hc, Hd. lia.
Qed.

(** A step that is known to succeed. *)
Ltac step H := rewrite H; cbn [mbind outcome_bind].

Lemma escape_unicode r c r' : unicode r = Done (c, r') -> exists e, esc (117%Z :: e) c /\ passes r e r'.
Proof.
  unfold unicode. intros [[high r1] [Hh [[code r2] [Hc [c' [Hf%or_refuse_done [= <- <-]]]%bind_done]]%bind_done]]%bind_done.
  apply hex4_passes in Hh as (q & Hq & Hp). unfold from_u32 in Hf. destruct (_ && _) eqn:Hu; [|done]. injection Hf as <-.
  destruct (between 0xD800 0xDBFF high) eqn:E1.
  - apply bind_done in Hc as [r3 [Hl Hc]]. apply bind_done in Hc as [[low r4] [Hlow Hc]]. destruct (between 0xDC00 0xDFFF low) eqn:E2; [|done]. injection Hc as <- <-.
    apply literal_passes in Hl; [|done]. apply hex4_passes in Hlow as (q' & Hq' & Hp'). exists (q ++ 92%Z :: 117%Z :: q'). split.
    + rewrite Z.shiftl_mul_pow2 by lia. by apply e_pair.
    + refine (passes_app _ _ _ _ _ Hp _). exact (passes_app _ _ _ _ _ Hl Hp').
  - destruct (between 0xDC00 0xDFFF high) eqn:E2; [done|]. injection Hc as <- <-. exists q. split; [|done]. apply e_unit; [done|]. unfold between in *. lia.
Qed.

Lemma escape_passes r c r' : escape r = Done (c, r') <-> exists e, esc e c /\ passes r e r'.
Proof.
  unfold escape. split.
  - intros [[b r1] [Hb H]]%bind_done. apply byte_passes in Hb. destruct (b =? 117)%Z eqn:E; [apply Z.eqb_eq in E as ->; cbn in H; apply escape_unicode in H as (e & He & Hp); exists (117%Z :: e); split; [done|exact (passes_cons _ _ _ _ _ Hb Hp)]|].
    assert (short_escape b = Some c /\ r1 = r') as [Hs ->]; [|exists [b]; split; [by constructor|done]].
    unfold short_escape. destruct (_ || _); [by injection H as <- <-|]. repeat (case_match; [by injection H as <- <-|]). done.
  - intros (e & He & Hp). destruct He as [b c Hs|q v Hq Hv|q v q' v' Hq Hq' Hv Hv'].
    + step (proj2 (byte_passes _ _ _) Hp). unfold short_escape in Hs. destruct (_ || _); [by injection Hs as <-|]. repeat (case_match; [by injection Hs as <-|]). done.
    + destruct Hp as [Hr ->]. destruct (passes_adv _ [117%Z] _ Hr) as [Hp1 Hr1]. step (proj2 (byte_passes _ _ _) Hp1). cbn [Z.eqb Pos.eqb orb]. unfold unicode.
      destruct (hex_quad_bound _ _ Hq) as [Hb Hl]. destruct (passes_adv _ q _ Hr1) as [Hp2 Hr2].
      step (proj2 (hex4_passes _ _ _) (ex_intro _ q (conj Hq Hp2))). replace (between 0xD800 0xDBFF v) with false by (unfold between in *; lia).
      replace (between 0xDC00 0xDFFF v) with false by (unfold between in *; lia). cbn [mbind outcome_bind].
      replace (from_u32 v) with (Some v) by (unfold from_u32, between in *; by replace ((0 <=? v) && (v <=? 1114111) && negb ((0xD800 <=? v) && (v <=? 0xDFFF)))%Z with true by lia).
      cbn. by rewrite adv_adv.
    + destruct Hp as [Hr ->]. set (k := rest (adv _ _)) in Hr. assert (rest r = [117%Z] ++ q ++ [92; 117]%Z ++ q' ++ k) as Hr0 by (rewrite Hr; cbn [app]; rewrite <- app_assoc; reflexivity).
      destruct (passes_adv _ [117%Z] _ Hr0) as [Hp1 Hr1]. step (proj2 (byte_passes _ _ _) Hp1). cbn [Z.eqb Pos.eqb orb]. unfold unicode.
      destruct (hex_quad_bound _ _ Hq) as [Hb Hl]. destruct (hex_quad_bound _ _ Hq') as [Hb' Hl']. destruct (passes_adv _ q _ Hr1) as [Hp2 Hr2].
      step (proj2 (hex4_passes _ _ _) (ex_intro _ q (conj Hq Hp2))). rewrite Hv. destruct (passes_adv _ [92; 117]%Z _ Hr2) as [Hp3 Hr3].
      step (proj2 (literal_passes [92; 117]%Z _ _ ltac:(done)) Hp3). destruct (passes_adv _ q' _ Hr3) as [Hp4 Hr4].
      step (proj2 (hex4_passes _ _ _) (ex_intro _ q' (conj Hq' Hp4))). rewrite Hv'. cbn [negb mbind outcome_bind]. rewrite Z.shiftl_mul_pow2 by lia.
      change (2 ^ 10)%Z with 1024%Z. set (u := (0x10000 + _ + _)%Z).
      replace (from_u32 u) with (Some u) by (subst u; unfold from_u32, between in *; match goal with |- _ = (if ?c then _ else _) => by replace c with true by lia end).
      cbn [or_refuse mbind outcome_bind]. rewrite !adv_adv. f_equal. f_equal. f_equal. cbn [length]. rewrite length_app. cbn. lia.
Qed.

Lemma skip_escape_iff r r' : skip_escape r = Done r' <-> exists c, escape r = Done (c, r').
Proof.
  unfold skip_escape, escape. destruct (byte r) as [[b r1]| |]; cbn [mbind outcome_bind]; [|split; [done|by intros [? ?]]..].
  destruct ((b =? 34) || (b =? 92) || (b =? 47))%Z eqn:E; cbn [orb]; [split; [intros [= <-]; by eexists|by intros [c [= _ <-]]]|].
  repeat match goal with |- context [(b =? ?n)%Z] => destruct (b =? n)%Z eqn:?; cbn [orb]; [first [split; [intros [= <-]; by eexists|by intros [c [= _ <-]]]|idtac]|] end; [|split; [done|by intros [? ?]]].
  unfold unicode. destruct (hex4 r1) as [[high r2]| |] eqn:Eh; cbn [mbind outcome_bind]; [|split; [done|by intros [? ?]]..].
  apply hex4_passes in Eh as (q & Hq & _). apply hex_quad_bound in Hq as [Hb _].
  destruct (between 0xD800 0xDBFF high) eqn:E1.
  - destruct (literal _ r2) as [r3| |]; cbn [mbind outcome_bind]; [|split; [done|by intros [? ?]]..].
    destruct (hex4 r3) as [[low r4]| |]; cbn [mbind outcome_bind]; [|split; [done|by intros [? ?]]..].
    destruct (between 0xDC00 0xDFFF low) eqn:E2; cbn [negb mbind outcome_bind]; [|split; [done|by intros [? ?]]].
    rewrite Z.shiftl_mul_pow2 by lia. change (2 ^ 10)%Z with 1024%Z. unfold from_u32. replace (_ && _) with true by (unfold between in *; lia). cbn. split; [intros [= <-]; by eexists|by intros [c [= _ <-]]].
  - destruct (between 0xDC00 0xDFFF high) eqn:E2; cbn [mbind outcome_bind]; [split; [done|by intros [? ?]]|].
    unfold from_u32. replace (_ && _) with true by (unfold between in *; lia). cbn. split; [intros [= <-]; by eexists|by intros [c [= _ <-]]].
Qed.

(** ** Strings *)
Lemma chars_length s d : chars s d -> 1 <= length s.
Proof. induction 1; cbn; lia. Qed.

Lemma string_n_sound n cap out r o r' : string_n n cap out r = Done (o, r') ->
  exists s d, chars s d /\ passes r s r' /\ o = out ++ d /\ (d = [] \/ length o <= cap).
Proof.
  revert out r. induction n as [|n IH]; intros out r; cbn [string_n]; [done|]. intros [[b r1] [Hb H]]%bind_done. apply byte_passes in Hb.
  assert (forall c e out1 r2, put cap out c = Done out1 -> passes r e r2 -> (forall s d, chars s d -> chars (e ++ s) (c ++ d)) -> string_n n cap out1 r2 = Done (o, r') ->
    exists s d, chars s d /\ passes r s r' /\ o = out ++ d /\ (d = [] \/ length o <= cap)) as Hput.
  { intros c e out1 r2 Hput Hp Hc Hn. unfold put in Hput. destruct (_ <=? cap) eqn:Ecap; [|done]. injection Hput as <-. apply Nat.leb_le in Ecap.
    apply IH in Hn as (s & d & Hs & Hp2 & -> & Hcap). exists (e ++ s), (c ++ d). split_and!; [by apply Hc|exact (passes_app _ _ _ _ _ Hp Hp2)|by rewrite app_assoc|right].
    destruct Hcap as [->|?]; [|done]. rewrite app_nil_r, length_app. lia. }
  destruct (b =? 34)%Z eqn:E1; [apply Z.eqb_eq in E1 as ->; injection H as <- <-; exists [34%Z], []; split_and!; [constructor|done|by rewrite app_nil_r|by left]|].
  destruct (b =? 92)%Z eqn:E2.
  - apply Z.eqb_eq in E2 as ->. apply bind_done in H as [[c r2] [Hc H]]. apply bind_done in H as [out1 [Ho H]]. apply escape_passes in Hc as (e & He & Hp).
    refine (Hput _ (92%Z :: e) _ _ Ho (passes_cons _ _ _ _ _ Hb Hp) _ H). intros s d Hs. by apply c_escape.
  - destruct (b <? 32)%Z eqn:E3; [done|]. apply bind_done in H as [out1 [Ho H]]. refine (Hput _ [b] _ _ Ho Hb _ H). intros s d Hs. apply c_plain; [lia..|done].
Qed.

Lemma string_n_complete s d : chars s d -> forall n cap out r k, rest r = s ++ k -> length s <= n -> length out + length d <= cap ->
  string_n n cap out r = Done (out ++ d, adv (length s) r).
Proof.
  induction 1 as [|b s d H1 H2 H3 Hs IH|e c s d He Hs IH]; intros n cap out r k Hr Hn Hcap; destruct n as [|n]; try (cbn in Hn; lia); cbn [string_n].
  - destruct (passes_adv _ [34%Z] _ Hr) as [Hp _]. step (proj2 (byte_passes _ _ _) Hp). cbn. by rewrite app_nil_r.
  - destruct (passes_adv _ [b] _ Hr) as [Hp Hr1]. step (proj2 (byte_passes _ _ _) Hp). replace (b =? 34)%Z with false by lia. replace (b =? 92)%Z with false by lia.
    replace (b <? 32)%Z with false by lia. unfold put. cbn [length] in *. replace (length out + 1 <=? cap) with true by lia. cbn [mbind outcome_bind].
    rewrite (IH n cap (out ++ [b]) _ _ Hr1); [|lia|rewrite length_app; cbn; lia]. by rewrite <- app_assoc, adv_adv.
  - cbn [app] in Hr. destruct (passes_adv _ [92%Z] _ Hr) as [Hp Hr1]. step (proj2 (byte_passes _ _ _) Hp). cbn [Z.eqb Pos.eqb]. rewrite <- app_assoc in Hr1.
    destruct (passes_adv _ e _ Hr1) as [Hp2 Hr2]. step (proj2 (escape_passes _ _ _) (ex_intro _ e (conj He Hp2))). unfold put.
    cbn [length] in Hn. rewrite length_app in *. replace (length out + length (encode_utf8 c) <=? cap) with true by lia. cbn [mbind outcome_bind].
    rewrite (IH n cap (out ++ encode_utf8 c) _ _ Hr2); [|lia|rewrite length_app; lia]. rewrite <- app_assoc, !adv_adv. cbn [length]. by rewrite length_app.
Qed.

(** [skip_string]'s loop and [string]'s agree where the buffer is large enough. *)
Lemma skip_string_n_passes n r r' : length (rest r) < n -> skip_string_n n r = Done r' <-> exists s d, chars s d /\ passes r s r'.
Proof.
  revert r. induction n as [|n IH]; intros r Hn; [lia|]. cbn [skip_string_n]. split.
  - intros [[b r1] [Hb H]]%bind_done. apply byte_passes in Hb. pose proof (passes_length _ _ _ Hb) as Hl. cbn in Hl.
    destruct (b =? 34)%Z eqn:E1; [apply Z.eqb_eq in E1 as ->; injection H as <-; exists [34%Z], []; split; [constructor|done]|].
    destruct (b =? 92)%Z eqn:E2.
    + apply Z.eqb_eq in E2 as ->. apply bind_done in H as [r2 [[c Hc]%skip_escape_iff H]]. apply escape_passes in Hc as (e & He & Hp). pose proof (passes_length _ _ _ Hp).
      apply IH in H as (s & d & Hs & Hp2); [|lia]. exists (92%Z :: e ++ s), (encode_utf8 c ++ d). split; [by apply c_escape|].
      refine (passes_cons _ _ _ _ _ Hb _). exact (passes_app _ _ _ _ _ Hp Hp2).
    + destruct (b <? 32)%Z eqn:E3; [done|]. apply IH in H as (s & d & Hs & Hp2); [|lia]. exists (b :: s), (b :: d). split; [apply c_plain; [lia..|done]|exact (passes_cons _ _ _ _ _ Hb Hp2)].
  - intros (s & d & Hs & Hp). destruct Hs as [|b s d H1 H2 H3 Hs|e c s d He Hs].
    + by step (proj2 (byte_passes _ _ _) Hp).
    + destruct Hp as [Hr ->]. cbn [app] in Hr. destruct (passes_adv _ [b] _ Hr) as [Hp Hr1]. step (proj2 (byte_passes _ _ _) Hp). replace (b =? 34)%Z with false by lia.
      replace (b =? 92)%Z with false by lia. replace (b <? 32)%Z with false by lia. apply passes_length in Hp. cbn in Hp. apply IH; [cbn in *; lia|]. exists s, d. split; [done|]. split; [done|by rewrite adv_adv].
    + destruct Hp as [Hr ->]. cbn [app] in Hr. destruct (passes_adv _ [92%Z] _ Hr) as [Hp Hr1]. step (proj2 (byte_passes _ _ _) Hp). cbn [Z.eqb Pos.eqb]. rewrite <- app_assoc in Hr1.
      destruct (passes_adv _ e _ Hr1) as [Hp2 Hr2]. step (proj2 (skip_escape_iff _ _) (ex_intro _ c (proj2 (escape_passes _ _ _) (ex_intro _ e (conj He Hp2))))).
      pose proof (passes_length _ _ _ Hp) as L1. pose proof (passes_length _ _ _ Hp2). cbn in L1. apply IH; [cbn in *; lia|]. exists s, d. split; [done|]. split; [done|]. rewrite !adv_adv. cbn [length]. by rewrite length_app.
Qed.

Lemma rest_bound r : length (rest r) <= length (text r).
Proof. unfold rest. rewrite length_drop. lia. Qed.

Lemma skip_string_passes r r' : skip_string r = Done r' <-> exists w s d, ws w /\ chars s d /\ passes r (w ++ 34%Z :: s) r'.
Proof.
  unfold skip_string. split.
  - intros [[b r1] [Hb H]]%bind_done. apply byte_passes in Hb. destruct (b =? 34)%Z eqn:E; [|done]. apply Z.eqb_eq in E as ->. cbn [negb] in H.
    apply skip_string_n_passes in H as (s & d & Hs & Hp); [|pose proof (rest_bound r1); lia]. destruct (space_passes r) as (w & Hw & Hpw & _). exists w, s, d. split_and!; [done..|].
    refine (passes_app _ _ _ _ _ Hpw _). exact (passes_cons _ _ _ _ _ Hb Hp).
  - intros (w & s & d & Hw & Hs & [Hr ->]). rewrite <- app_assoc in Hr. cbn [app] in Hr. rewrite (space_over r w _ Hw Hr) by done. destruct (passes_adv _ _ _ Hr) as [_ Hr1].
    destruct (passes_adv _ [34%Z] _ Hr1) as [Hp2 Hr2]. step (proj2 (byte_passes _ _ _) Hp2). cbn [Z.eqb Pos.eqb negb].
    apply skip_string_n_passes; [pose proof (rest_bound (adv (length [34%Z]) (adv (length w) r))); lia|]. exists s, d. split; [done|]. split; [done|]. rewrite !adv_adv, length_app. cbn. f_equal; lia.
Qed.

Lemma string_into_sound cap r o r' : string_into cap r = Done (o, r') -> exists w s, ws w /\ chars s o /\ passes r (w ++ 34%Z :: s) r' /\ length o <= cap.
Proof.
  unfold string_into. intros [[b r1] [Hb H]]%bind_done. apply byte_passes in Hb. destruct (b =? 34)%Z eqn:E; [|done]. apply Z.eqb_eq in E as ->. cbn [negb] in H.
  apply string_n_sound in H as (s & d & Hs & Hp & -> & Hcap). destruct (space_passes r) as (w & Hw & Hpw & _). exists w, s. cbn [app] in *. split_and!; [done..| |].
  - refine (passes_app _ _ _ _ _ Hpw _). exact (passes_cons _ _ _ _ _ Hb Hp).
  - destruct Hcap as [->|?]; [cbn; lia|done].
Qed.
Lemma string_into_complete cap r w s d k : ws w -> chars s d -> rest r = w ++ 34%Z :: s ++ k -> length d <= cap ->
  string_into cap r = Done (d, adv (length (w ++ 34%Z :: s)) r).
Proof.
  intros Hw Hs Hr Hcap. unfold string_into. rewrite (space_over r w _ Hw Hr) by done. destruct (passes_adv _ _ _ Hr) as [_ Hr1].
  destruct (passes_adv _ [34%Z] _ Hr1) as [Hp2 Hr2]. step (proj2 (byte_passes _ _ _) Hp2). cbn [Z.eqb Pos.eqb negb].
  rewrite (string_n_complete s d Hs _ cap [] _ k Hr2); [|pose proof (rest_bound (adv (length [34%Z]) (adv (length w) r))) as Hb; rewrite Hr2, length_app in Hb; lia|cbn; lia].
  rewrite !adv_adv, length_app. cbn. repeat f_equal; lia.
Qed.

(** ** Numbers *)
Definition no_digit (k : bytes) : Prop := match k with b :: _ => is_digit b = false | [] => True end.
(** What may follow a number: nothing that would go on with it. *)
Definition stops (k : bytes) : Prop := match k with b :: _ => is_digit b = false /\ b <> 46%Z /\ b <> 101%Z /\ b <> 69%Z | [] => True end.

Lemma digits_passes r : exists d, Forall (fun b => is_digit b = true) d /\ digits r = (length d, adv (length d) r) /\ passes r d (adv (length d) r) /\ no_digit (rest (adv (length d) r)).
Proof.
  exists (take (run is_digit (rest r)) (rest r)). pose proof (run_le is_digit (rest r)). unfold digits. rewrite length_take. replace (_ `min` _) with (run is_digit (rest r)) by lia.
  split_and!; [apply run_take|done| |].
  - split; [by rewrite rest_adv, take_drop|]. f_equal. rewrite length_take. lia.
  - rewrite rest_adv. exact (run_stop is_digit (rest r) _ eq_refl).
Qed.
Lemma digits_over r d k : Forall (fun b => is_digit b = true) d -> rest r = d ++ k -> no_digit k -> digits r = (length d, adv (length d) r).
Proof. intros Hd Hr Hk. unfold digits. by rewrite Hr, run_app. Qed.

Lemma next_is_passes p r : next_is p r = true -> exists b, p b = true /\ passes r [b] (adv 1 r).
Proof. rewrite next_is_rest. destruct (rest r) as [|b l] eqn:E; [done|]. intros Hp. exists b. split; [done|]. destruct (passes_adv r [b] l E). done. Qed.
Lemma next_is_at p r b k : rest r = b :: k -> next_is p r = p b.
Proof. intros H. by rewrite next_is_rest, H. Qed.

Lemma int_passes r r' : int_of r = Done r' -> exists i, int_part i /\ passes r i r'.
Proof.
  unfold int_of. destruct (next_is (Z.eqb 48) r) eqn:E.
  - intros [= <-]. apply next_is_passes in E as (b & Hb%Z.eqb_eq & Hp). subst b. exists [48%Z]. split; [by left|done].
  - destruct (next_is (between 49 57) r) eqn:E2; [|done]. destruct (digits_passes r) as (d & Hd & Hdig & Hp & Hstop). rewrite Hdig. cbn [snd]. intros [= <-]. exists d. split; [|done].
    apply next_is_passes in E2 as (b & Hb & Hpb). destruct Hp as [Hr _], Hpb as [Hr2 _]. rewrite Hr in Hr2. destruct d as [|x d].
    + exfalso. cbn [app] in Hr2. rewrite Hr2 in Hstop. cbn in Hstop. unfold is_digit, between in *. lia.
    + injection Hr2 as -> _. apply Forall_cons in Hd as [_ Hd]. right. eauto.
Qed.
Lemma int_over r i k : int_part i -> rest r = i ++ k -> no_digit k -> int_of r = Done (adv (length i) r).
Proof.
  intros [->|(b & d & -> & Hb & Hd)] Hr Hk; unfold int_of.
  - by rewrite (next_is_at _ _ _ _ Hr).
  - rewrite !(next_is_at _ _ _ _ Hr), Hb. replace (48 =? b)%Z with false by (unfold between in *; lia). rewrite (digits_over r (b :: d) k); [done| |done|done].
    constructor; [|done]. unfold is_digit, between in *. lia.
Qed.

(** Digits that must be there. *)
Lemma some_digits_passes r r' : (let '(n, r) := digits r in if n =? 0 then Malformed else Done r) = Done r' -> exists d, some_digits d /\ passes r d r'.
Proof.
  destruct (digits_passes r) as (d & Hd & -> & Hp & _). destruct d as [|x d]; [done|]. cbn [length Nat.eqb]. intros [= <-]. by exists (x :: d).
Qed.
Lemma some_digits_over r d k : some_digits d -> rest r = d ++ k -> no_digit k ->
  (let '(n, r) := digits r in if n =? 0 then Malformed else Done r) = Done (adv (length d) r).
Proof. intros [Hne Hd] Hr Hk. rewrite (digits_over r d k) by done. by destruct d. Qed.

Lemma frac_passes r r' : frac_of r = Done r' -> exists f, frac_part f /\ passes r f r'.
Proof.
  unfold frac_of. destruct (next_is (Z.eqb 46) r) eqn:E.
  - apply next_is_passes in E as (b & Hb%Z.eqb_eq & Hp). subst b. intros (d & Hd & Hp2)%some_digits_passes. exists (46%Z :: d). split; [right; eauto|exact (passes_cons _ _ _ _ _ Hp Hp2)].
  - intros [= <-]. exists []. split; [by left|apply passes_nil].
Qed.
Lemma frac_over r f k : frac_part f -> rest r = f ++ k -> no_digit k -> (f = [] -> head k <> Some 46%Z) -> frac_of r = Done (adv (length f) r).
Proof.
  intros [->|(d & -> & Hd)] Hr Hk Hdot; unfold frac_of.
  - rewrite next_is_rest, Hr. cbn [app]. rewrite adv_zero. destruct k as [|b k]; [done|]. destruct (Z.eqb_spec 46 b) as [<-|]; [by destruct Hdot|done].
  - rewrite (next_is_at _ _ _ _ Hr). cbn [Z.eqb Pos.eqb]. destruct (passes_adv _ [46%Z] _ Hr) as [_ Hr1]. change (adv 1 r) with (adv (length [46%Z]) r). rewrite (some_digits_over _ d k Hd Hr1 Hk). by rewrite adv_adv.
Qed.

Lemma exp_passes r r' : exp_of r = Done r' -> exists x, exp_part x /\ passes r x r'.
Proof.
  unfold exp_of. destruct (next_is _ r) eqn:E; [|intros [= <-]; exists []; split; [by left|apply passes_nil]]. apply next_is_passes in E as (b & Hb & Hp).
  assert (exists s, (s = [] \/ s = [43%Z] \/ s = [45%Z]) /\ passes (adv 1 r) s (if next_is (fun b => (b =? 43) || (b =? 45))%Z (adv 1 r) then adv 1 (adv 1 r) else adv 1 r)) as (s & Hs & Hps).
  { destruct (next_is _ (adv 1 r)) eqn:E2; [|exists []; split; [by left|apply passes_nil]]. apply next_is_passes in E2 as (c & Hc & Hpc). exists [c]. split; [|done].
    apply orb_true_iff in Hc as [->%Z.eqb_eq| ->%Z.eqb_eq]; auto. }
  intros (d & Hd & Hp2)%some_digits_passes. exists (b :: s ++ d). split.
  - right. exists b, s, d. split_and!; try done. apply orb_true_iff in Hb as [->%Z.eqb_eq| ->%Z.eqb_eq]; auto.
  - refine (passes_cons _ _ _ _ _ Hp _). exact (passes_app _ _ _ _ _ Hps Hp2).
Qed.
Lemma exp_over r x k : exp_part x -> rest r = x ++ k -> stops k -> exp_of r = Done (adv (length x) r).
Proof.
  intros Hx Hr Hk. assert (no_digit k) as Hnd by (destruct k; [done|apply Hk]). destruct Hx as [->|(e & s & d & -> & He & Hs & Hd)]; unfold exp_of.
  - rewrite next_is_rest, Hr. cbn [app]. rewrite adv_zero. destruct k as [|b k]; [done|]. destruct Hk as (_ & _ & H1 & H2). by replace ((b =? 101) || (b =? 69))%Z with false by lia.
  - cbn [app] in Hr. rewrite (next_is_at _ _ _ _ Hr). replace ((e =? 101) || (e =? 69))%Z with true by lia. destruct (passes_adv _ [e] _ Hr) as [_ Hr1]. rewrite <- app_assoc in Hr1.
    assert (exists b d', d = b :: d' /\ is_digit b = true) as (b & d' & Ed & Hb). { destruct Hd as [Hne Hd]. destruct d as [|b d']; [done|]. apply Forall_cons in Hd as [? _]. eauto. }
    change (adv 1 r) with (adv (length [e]) r). set (r1 := adv (length [e]) r) in *.
    assert ((if next_is (fun b => (b =? 43) || (b =? 45))%Z r1 then adv 1 r1 else r1) = adv (length s) r1) as ->.
    { destruct Hs as [->|[->| ->]]; cbn [app] in Hr1.
      - rewrite Ed in Hr1. rewrite (next_is_at _ _ _ _ Hr1), adv_zero. unfold is_digit, between in Hb. by replace ((b =? 43) || (b =? 45))%Z with false by lia.
      - by rewrite (next_is_at _ _ _ _ Hr1).
      - by rewrite (next_is_at _ _ _ _ Hr1). }
    destruct (passes_adv _ s _ Hr1) as [_ Hr2]. rewrite (some_digits_over _ d k Hd Hr2 Hnd). subst r1. rewrite !adv_adv. cbn [length]. rewrite length_app. done.
Qed.

Lemma exp_then x k : exp_part x -> stops k -> match x ++ k with b :: _ => is_digit b = false /\ b <> 46%Z | [] => True end.
Proof.
  intros [->|(e & s & d & -> & He & _)] Hk; cbn [app]; [destruct k; [done|]; by destruct Hk as (? & ? & _)|]. destruct He as [-> | ->]; by split.
Qed.
Lemma frac_then f x k : frac_part f -> exp_part x -> stops k -> no_digit (f ++ x ++ k).
Proof. intros [->|(d & -> & _)] Hx Hk; cbn [app]; [|done]. pose proof (exp_then x k Hx Hk) as H. destruct (x ++ k); [done|apply H]. Qed.
Lemma int_head i : int_part i -> exists b i', i = b :: i' /\ is_digit b = true.
Proof. intros [->|(b & d & -> & Hb & _)]; eexists _, _; (split; [done|]); [done|]. unfold is_digit, between in *. lia. Qed.

Lemma number_sound r t r' : number_text r = Done (t, r') -> exists w, ws w /\ jnumber t /\ passes r (w ++ t) r'.
Proof.
  unfold number_text. destruct (space_passes r) as (w & Hw & Hpw & _). set (r0 := space r) in *.
  assert (exists m, (m = [] \/ m = [45%Z]) /\ passes r0 m (if next_is (Z.eqb 45) r0 then adv 1 r0 else r0)) as (m & Hm & Hpm).
  { destruct (next_is _ r0) eqn:E; [|exists []; split; [by left|apply passes_nil]]. apply next_is_passes in E as (b & <-%Z.eqb_eq & Hp). exists [45%Z]. auto. }
  intros [r1 [(i & Hi & Hpi)%int_passes [r2 [(f & Hf & Hpf)%frac_passes [r3 [(x & Hx & Hpx)%exp_passes [= <- <-]]]%bind_done]]%bind_done]]%bind_done.
  pose proof (passes_app _ _ _ _ _ Hpm (passes_app _ _ _ _ _ Hpi (passes_app _ _ _ _ _ Hpf Hpx))) as Hp. set (n := m ++ i ++ f ++ x) in *.
  destruct (passes_fields _ _ _ Hp) as (-> & -> & _ & _). change (at_ r + run is_space (rest r)) with (at_ r0). exists w. replace (slice (text r0) (at_ r0) (at_ r0 + length n - at_ r0)) with n.
  - split_and!; [done|exists m, i, f, x; split_and!; done|exact (passes_app _ _ _ _ _ Hpw Hp)].
  - unfold slice. fold (rest r0). replace (at_ r0 + length n - at_ r0) with (length n) by lia. destruct Hp as [-> _]. by rewrite take_app_length.
Qed.

Lemma number_complete r w t k : ws w -> jnumber t -> rest r = w ++ t ++ k -> stops k -> number_text r = Done (t, adv (length (w ++ t)) r).
Proof.
  intros Hw (m & i & f & x & -> & Hm & Hi & Hf & Hx) Hr Hk. destruct (int_head i Hi) as (b & i' & Ei & Hb).
  assert (no_space ((m ++ i ++ f ++ x) ++ k)) as Hns. { unfold is_digit, between in Hb. destruct Hm as [-> | ->]; cbn; [|done]. rewrite Ei. cbn. unfold is_space. lia. }
  unfold number_text. rewrite (space_over r w _ Hw Hr Hns). destruct (passes_adv _ _ _ Hr) as [_ Hr0]. set (r0 := adv (length w) r) in *. pose proof Hr0 as Hr0'. rewrite <- !app_assoc in Hr0.
  assert ((if next_is (Z.eqb 45) r0 then adv 1 r0 else r0) = adv (length m) r0) as ->.
  { destruct Hm as [-> | ->]; cbn [app] in Hr0; [|by rewrite (next_is_at _ _ _ _ Hr0)]. rewrite Ei in Hr0. cbn [app] in Hr0. rewrite (next_is_at _ _ _ _ Hr0), adv_zero.
    unfold is_digit, between in Hb. by replace (45 =? b)%Z with false by lia. }
  destruct (passes_adv _ m _ Hr0) as [_ Hr1]. step (int_over _ i _ Hi Hr1 (frac_then f x k Hf Hx Hk)). destruct (passes_adv _ i _ Hr1) as [_ Hr2].
  pose proof (exp_then x k Hx Hk) as Hxk. rewrite (frac_over _ f _ Hf Hr2); [|by destruct (x ++ k); [|apply Hxk]|intros _; destruct (x ++ k); [done|]; intros [= ->]; by destruct Hxk].
  cbn [mbind outcome_bind]. destruct (passes_adv _ f _ Hr2) as [_ Hr3]. step (exp_over _ x _ Hx Hr3 Hk). rewrite !adv_adv.
  replace (length m + (length i + (length f + length x))) with (length (m ++ i ++ f ++ x)) by (rewrite !length_app; lia). set (n := m ++ i ++ f ++ x) in *. subst r0. rewrite adv_adv, (length_app w n).
  f_equal. f_equal. unfold slice. cbn [adv text at_]. replace (at_ r + (length w + length n) - (at_ r + length w)) with (length n) by lia.
  change (drop (at_ r + length w) (text r)) with (rest (adv (length w) r)). rewrite Hr0'. by rewrite take_app_length.
Qed.

(** ** Containers *)

(** The cursor passes over [bs] and the flags of the levels below [D] stay. *)
Definition moves (D : nat) (r : Reader) (bs : bytes) (r' : Reader) : Prop :=
  text r' = text r /\ at_ r' = at_ r + length bs /\ rest r = bs ++ rest r' /\
  forall i, i < D -> Z.testbit (started r') (Z.of_nat i) = Z.testbit (started r) (Z.of_nat i).

Lemma passes_moves D r bs r' : passes r bs r' -> moves D r bs r' /\ depth r' = depth r.
Proof. intros [H ->]. split; [|done]. by split_and!. Qed.
Lemma moves_app D D' r a r1 b r2 : D <= D' -> moves D' r a r1 -> moves D r1 b r2 -> moves D r (a ++ b) r2.
Proof.
  intros HD (H1 & H2 & H3 & H4) (G1 & G2 & G3 & G4). split_and!; [congruence|rewrite length_app; lia|by rewrite H3, G3, <- app_assoc|].
  intros i Hi. rewrite G4 by done. apply H4. lia.
Qed.
Lemma moves_length D r bs r' : moves D r bs r' -> length (rest r) = length bs + length (rest r').
Proof. intros (_ & _ & -> & _). apply length_app. Qed.
Lemma moves_rest D r bs k r' : moves D r bs r' -> rest r = bs ++ k -> rest r' = k.
Proof. intros (_ & _ & H & _) Hk. rewrite H in Hk. by apply app_inv_head in Hk. Qed.

Lemma bit_spec n i : Z.testbit (bit n) (Z.of_nat i) = bool_decide (i = n).
Proof.
  unfold bit. rewrite Z.shiftl_1_l. case_bool_decide; [subst; apply Z.pow2_bits_true; lia|apply Z.pow2_bits_false; lia].
Qed.
Lemma bit_test x n : (Z.land x (bit n) =? 0)%Z = negb (Z.testbit x (Z.of_nat n)).
Proof.
  destruct (Z.testbit x (Z.of_nat n)) eqn:E; cbn [negb].
  - apply Z.eqb_neq. intros H. apply (f_equal (fun z => Z.testbit z (Z.of_nat n))) in H. rewrite Z.land_spec, E, bit_spec, bool_decide_eq_true_2, Z.bits_0 in H; done.
  - apply Z.eqb_eq, Z.bits_inj'. intros i Hi. rewrite Z.land_spec, Z.bits_0. rewrite <- (Z2Nat.id i) by done. rewrite bit_spec. case_bool_decide as Hb; [|by rewrite andb_false_r]. by rewrite Hb, E.
Qed.

Lemma open_sound b r r' : open b r = Done r' -> exists w, ws w /\ moves (depth r) r (w ++ [b]) r' /\ depth r' = S (depth r) /\ depth r <> DEPTH /\ Z.testbit (started r') (Z.of_nat (depth r)) = false.
Proof.
  unfold open. destruct (space_passes r) as (w & Hw & Hpw & _). set (r0 := space r) in *. destruct (passes_fields _ _ _ Hpw) as (T & A & Dp & St).
  destruct (depth r0 =? DEPTH) eqn:E; [done|]. apply Nat.eqb_neq in E. intros [[c r1] [Hc H]]%bind_done. destruct (c =? b)%Z eqn:Ec; [|done]. apply Z.eqb_eq in Ec as ->. injection H as <-.
  apply byte_passes in Hc. pose proof (passes_app _ _ _ _ _ Hpw Hc) as Hp. destruct (passes_fields _ _ _ Hp) as (T1 & A1 & Dp1 & St1). exists w. split_and!; [done| |cbn; lia|congruence|].
  - destruct Hp as [Hr _]. split_and!; [done|done|done|]. intros i Hi. cbn. rewrite Z.ldiff_spec, bit_spec, bool_decide_eq_false_2 by lia. by rewrite St1, andb_true_r.
  - cbn. rewrite Z.ldiff_spec, bit_spec, bool_decide_eq_true_2 by congruence. apply andb_false_r.
Qed.
Lemma open_over b r w k : ws w -> is_space b = false -> rest r = w ++ b :: k -> depth r < DEPTH ->
  exists r', open b r = Done r' /\ moves (depth r) r (w ++ [b]) r' /\ depth r' = S (depth r) /\ rest r' = k /\ Z.testbit (started r') (Z.of_nat (depth r)) = false.
Proof.
  intros Hw Hb Hr Hd. assert (is_Some (match open b r with Done r' => Some r' | _ => None end)) as [r' Hs].
  { unfold open. rewrite (space_over r w _ Hw Hr) by done. cbn [adv depth]. replace (depth r =? DEPTH) with false by lia. destruct (passes_adv _ _ _ Hr) as [_ Hr1].
    destruct (passes_adv _ [b] _ Hr1) as [Hp _]. step (proj2 (byte_passes _ _ _) Hp). rewrite Z.eqb_refl. by eexists. }
  destruct (open b r) as [r1| |] eqn:E; [|done..]. injection Hs as ->. pose proof E as E'. apply open_sound in E as (w' & Hw' & Hm & Hd' & _ & Hbit). exists r'.
  assert (w' = w) as ->; [|split_and!; try done; eapply (moves_rest _ _ _ k _ Hm); by rewrite Hr, <- app_assoc].
  destruct Hm as (_ & _ & Hm & _). rewrite Hr, <- app_assoc in Hm. cbn [app] in Hm.
  assert (forall w w' k k', ws w -> ws w' -> w ++ b :: k = w' ++ b :: k' -> w' = w) as Heq; [|by eapply Heq].
  clear -Hb. induction w as [|x w IH]; intros [|y w'] k k' Hw Hw' H; cbn in H; simplify_eq; try done.
  - apply Forall_cons in Hw' as [? _]. congruence.
  - apply Forall_cons in Hw as [? _]. congruence.
  - apply Forall_cons in Hw as [_ Hw], Hw' as [_ Hw']. f_equal. by eapply IH.
Qed.

Lemma more_sound close r D m r' : depth r = S D -> more close r = Done (m, r') -> exists w, ws w /\
  if m then exists c, comma (Z.testbit (started r) (Z.of_nat D)) c /\ moves D r (w ++ c) r' /\ depth r' = S D /\ Z.testbit (started r') (Z.of_nat D) = true
  else moves D r (w ++ [close]) r' /\ depth r' = D.
Proof.
  intros HD. unfold more. destruct (space_passes r) as (w & Hw & Hpw & _). set (r0 := space r) in *. destruct (passes_fields _ _ _ Hpw) as (T & A & Dp & St).
  clearbody r0. rewrite Dp, HD. rewrite lookup_rest. case_bool_decide as Hc.
  - intros [= <- <-]. exists w. split; [done|]. destruct (rest r0) as [|b k] eqn:E; [done|]. injection Hc as ->. split; [|done]. destruct Hpw as [Hr _].
    destruct (passes_adv r0 [close] k E) as [Hp _]. split_and!; [done|cbn [at_]; rewrite length_app; cbn [length]; lia| |by rewrite St].
    rewrite Hr, <- app_assoc. f_equal. apply Hp.
  - intros [r1 [H1 [= <- <-]]]%bind_done. exists w. split; [done|]. rewrite bit_test, St in H1.
    assert (exists c, comma (Z.testbit (started r) (Z.of_nat D)) c /\ passes r0 c r1) as (c & Hcm & Hp).
    { destruct (Z.testbit _ _); cbn [negb] in H1.
      - apply bind_done in H1 as [[b r2] [Hb%byte_passes H1]]. destruct (b =? 44)%Z eqn:Eb; [|done]. apply Z.eqb_eq in Eb as ->. injection H1 as <-.
        destruct (space_passes r2) as (w2 & Hw2 & Hp2 & _). exists (44%Z :: w2). split; [by exists w2|exact (passes_cons _ _ _ _ _ Hb Hp2)].
      - injection H1 as <-. exists []. split; [done|apply passes_nil]. }
    exists c. pose proof (passes_app _ _ _ _ _ Hpw Hp) as Hp1. destruct (passes_fields _ _ _ Hp1) as (T1 & A1 & Dp1 & St1). destruct Hp1 as [Hr1 _].
    split; [done|]. cbn [depth started]. split; [split_and!; try done|split; [lia|]].
    + intros i Hi. cbn. rewrite Z.lor_spec, bit_spec, bool_decide_eq_false_2, orb_false_r by lia. by rewrite St1.
    + rewrite Z.lor_spec, bit_spec, bool_decide_eq_true_2 by done. apply orb_true_r.
Qed.

Lemma more_close close r D w k : is_space close = false -> depth r = S D -> ws w -> rest r = w ++ close :: k ->
  exists r', more close r = Done (false, r') /\ moves D r (w ++ [close]) r' /\ depth r' = D.
Proof.
  intros Hs HD Hw Hr. unfold more. rewrite (space_over r w _ Hw Hr) by done. cbn [adv depth]. rewrite HD. destruct (passes_adv _ _ _ Hr) as [_ Hr1].
  rewrite (lookup_rest (adv _ _)), Hr1. rewrite bool_decide_eq_true_2 by done. eexists. split; [done|]. split; [|done].
  split_and!; [done|cbn; rewrite length_app; cbn; lia| |done]. rewrite Hr. unfold rest. cbn. rewrite <- app_assoc. f_equal. cbn. f_equal.
  change (drop (at_ r + length w + 1) (text r)) with (rest (adv 1 (adv (length w) r))). by rewrite rest_adv, Hr1.
Qed.
Lemma more_next close r D w c k : is_space close = false -> depth r = S D -> ws w -> comma (Z.testbit (started r) (Z.of_nat D)) c -> rest r = w ++ c ++ k ->
  no_space k -> head k <> Some close -> close <> 44%Z ->
  exists r', more close r = Done (true, r') /\ moves D r (w ++ c) r' /\ depth r' = S D /\ Z.testbit (started r') (Z.of_nat D) = true.
Proof.
  intros Hs HD Hw Hc Hr Hk Hkc H44.
  assert (no_space (c ++ k) /\ head (c ++ k) <> Some close) as [Hns Hh]. { destruct (Z.testbit _ _); cbn in Hc; [destruct Hc as (w' & -> & _); split; [done|cbn; congruence]|by subst c]. }
  assert (exists r1, passes (adv (length w) r) c r1 /\ more close r = Done (true, mkReader (text r1) (at_ r1) (depth r1) (Z.lor (started r1) (bit D)))) as (r1 & Hp1 & E).
  { unfold more. rewrite (space_over r w _ Hw Hr Hns). cbn [adv depth]. rewrite HD. destruct (passes_adv _ _ _ Hr) as [_ Hr1].
    rewrite (lookup_rest (adv _ _)), Hr1, bool_decide_eq_false_2 by done. rewrite bit_test. cbn [adv started]. destruct (Z.testbit _ _); cbn [negb].
    - destruct Hc as (w' & -> & Hw'). destruct (passes_adv _ [44%Z] _ Hr1) as [Hp Hr2]. step (proj2 (byte_passes _ _ _) Hp). cbn [Z.eqb Pos.eqb negb mbind outcome_bind].
      rewrite (space_over _ w' k Hw' Hr2 Hk). destruct (passes_adv _ w' _ Hr2) as [Hp2 _]. eexists. split; [exact (passes_cons _ _ _ _ _ Hp Hp2)|done].
    - cbn in Hc. subst c. eexists. split; [apply passes_nil|done]. }
  destruct (passes_adv _ _ _ Hr) as [Hpw _]. pose proof (passes_app _ _ _ _ _ Hpw Hp1) as Hp. destruct (passes_fields _ _ _ Hp) as (T1 & A1 & D1 & S1).
  destruct Hp as [Hr' _]. eexists. split; [exact E|]. cbn [depth started]. split; [split_and!; try done|split; [lia|]].
  - intros i Hi. cbn. rewrite Z.lor_spec, bit_spec, bool_decide_eq_false_2, orb_false_r by lia. by rewrite S1.
  - rewrite Z.lor_spec, bit_spec, bool_decide_eq_true_2 by done. apply orb_true_r.
Qed.

(** ** [skip] *)
Lemma peek_sound r k r' : peek r = Done (k, r') -> exists w b l, ws w /\ passes r w r' /\ rest r' = b :: l /\ kind_of b = Some k /\ is_space b = false.
Proof.
  unfold peek. destruct (space_passes r) as (w & Hw & Hpw & Hns). set (r0 := space r) in *. clearbody r0. rewrite lookup_rest. intros [k' [Hk%or_refuse_done [= <- <-]]]%bind_done.
  destruct (rest r0) as [|b l] eqn:E; [done|]. by exists w, b, l.
Qed.
Lemma peek_over r w b l k : ws w -> rest r = w ++ b :: l -> is_space b = false -> kind_of b = Some k -> peek r = Done (k, adv (length w) r).
Proof.
  intros Hw Hr Hb Hk. unfold peek. rewrite (space_over r w _ Hw Hr) by done. destruct (passes_adv _ _ _ Hr) as [_ Hr1]. rewrite lookup_rest, Hr1. cbn. by rewrite Hk.
Qed.

(** What [skip] passes over from level [D] on. *)
Definition skips (r : Reader) (r' : Reader) : Prop :=
  exists w v, ws w /\ value (DEPTH - depth r) v /\ moves (depth r) r (w ++ v) r' /\ depth r' = depth r.

(** Spaces after the comma, or before the first member. *)
Lemma comma_ws m w0 c w : ws w0 -> comma m c -> ws w -> exists w1 c', ws w1 /\ comma m c' /\ w0 ++ c ++ w = w1 ++ c'.
Proof.
  intros Hw0 Hc Hw. destruct m; cbn in Hc.
  - destruct Hc as (w' & -> & Hw'). exists w0, (44%Z :: w' ++ w). split_and!; [done| |done]. exists (w' ++ w). split; [done|by apply ws_app].
  - subst c. exists (w0 ++ w), []. split_and!; [by apply ws_app|done|by rewrite app_nil_r].
Qed.

Section sound.
Context (fuel : nat).
Definition members_sound : Prop := forall r r' D, depth r = S D -> S D <= DEPTH -> skip_members fuel r = Done r' ->
  exists b, members (DEPTH - S D) (Z.testbit (started r) (Z.of_nat D)) b /\ moves D r b r' /\ depth r' = D.
Definition items_sound : Prop := forall r r' D, depth r = S D -> S D <= DEPTH -> skip_items fuel r = Done r' ->
  exists b, items (DEPTH - S D) (Z.testbit (started r) (Z.of_nat D)) b /\ moves D r b r' /\ depth r' = D.
Definition value_sound : Prop := forall r r', depth r <= DEPTH -> skip_n fuel r = Done r' -> skips r r'.

(** A container: its opening bracket, then what its loop passes over. *)
Lemma container_sound (b : Z) (loop : Reader -> json Reader) (body : nat -> bool -> bytes -> Prop) r w r1 r' :
  (forall r r' D, depth r = S D -> S D <= DEPTH -> loop r = Done r' -> exists x, body (DEPTH - S D) (Z.testbit (started r) (Z.of_nat D)) x /\ moves D r x r' /\ depth r' = D) ->
  (forall n x, body n false x -> value (S n) (b :: x)) ->
  depth r <= DEPTH -> ws w -> passes r w r1 -> (r2 ← open b r1; loop r2) = Done r' -> skips r r'.
Proof.
  intros Hloop Hval Hd Hw Hp [r2 [Ho H]]%bind_done. destruct (passes_moves (depth r) _ _ _ Hp) as [Hm Hd1].
  apply open_sound in Ho as (w2 & Hw2 & Hm2 & Hd2 & Hne & Hbit). rewrite Hd1 in *. apply (Hloop r2 r' (depth r)) in H as (x & Hx & Hm3 & Hd3); [|done|lia].
  rewrite Hbit in Hx. exists (w ++ w2), (b :: x). split_and!; [by apply ws_app| | |done].
  - replace (DEPTH - depth r) with (S (DEPTH - S (depth r))) by lia. by apply Hval.
  - replace ((w ++ w2) ++ b :: x) with (w ++ (w2 ++ [b]) ++ x) by (by rewrite <- !app_assoc). eapply moves_app; [reflexivity|done|]. eapply moves_app; [reflexivity|exact Hm2|exact Hm3].
Qed.

(** A value without containers. *)
Lemma flat_sound r w r1 w2 v r' : ws w -> passes r w r1 -> ws w2 -> passes r1 (w2 ++ v) r' -> value (DEPTH - depth r) v -> skips r r'.
Proof.
  intros Hw Hp Hw2 Hp2 Hv. destruct (passes_moves (depth r) _ _ _ (passes_app _ _ _ _ _ Hp Hp2)) as [H1 H2]. rewrite app_assoc in H1.
  exists (w ++ w2), v. split_and!; [by apply ws_app|done..].
Qed.
End sound.

Lemma skip_value_sound fuel : members_sound fuel -> items_sound fuel -> value_sound (S fuel).
Proof.
  intros Hm Hi r r' Hd H. cbn [skip_n] in H. apply bind_done in H as [[k r1] [Hk H]]. apply peek_sound in Hk as (w & b & l & Hw & Hp & _). assert (ws []) as Hnil by constructor. destruct k.
  - exact (container_sound 123 (skip_members fuel) members r w r1 r' Hm v_object Hd Hw Hp H).
  - exact (container_sound 91 (skip_items fuel) items r w r1 r' Hi v_array Hd Hw Hp H).
  - apply skip_string_passes in H as (w2 & s & d & Hw2 & Hs & Hp2). exact (flat_sound r w r1 w2 _ r' Hw Hp Hw2 Hp2 (v_string _ s d Hs)).
  - apply bind_done in H as [[t r2] [(w2 & Hw2 & Ht & Hp2)%number_sound [= <-]]]. exact (flat_sound r w r1 w2 t r2 Hw Hp Hw2 Hp2 (v_number _ t Ht)).
  - apply literal_passes in H; [|done]. exact (flat_sound r w r1 [] _ r' Hw Hp Hnil H (v_true _)).
  - apply literal_passes in H; [|done]. exact (flat_sound r w r1 [] _ r' Hw Hp Hnil H (v_false _)).
  - apply literal_passes in H; [|done]. exact (flat_sound r w r1 [] _ r' Hw Hp Hnil H (v_null _)).
Qed.

Lemma skip_members_sound fuel : value_sound fuel -> members_sound fuel -> members_sound (S fuel).
Proof.
  intros IHv IHm r r' D HD Hle H. cbn [skip_members] in H. apply bind_done in H as [[m r1] [Hmore H]]. apply (more_sound _ _ D) in Hmore as (w & Hw & Hmo); [|done].
  destruct m; cbn [negb] in H; [|injection H as <-; destruct Hmo as [Hm Hd1]; eexists; split_and!; [|exact Hm|done]; by constructor].
  destruct Hmo as (c & Hc & Hm & Hd1 & Hb1). apply bind_done in H as [r2 [(w2 & s & d & Hw2 & Hs & Hp2)%skip_string_passes H]]. apply bind_done in H as [[b r3] [Hb%byte_passes H]].
  destruct (b =? 58)%Z eqn:Eb; [|done]. apply Z.eqb_eq in Eb as ->. cbn [negb] in H. apply bind_done in H as [r4 [Hsk H]]. destruct (space_passes r2) as (w3 & Hw3 & Hp3 & _).
  pose proof (passes_app _ _ _ _ _ Hp2 (passes_app _ _ _ _ _ Hp3 Hb)) as Hp. destruct (passes_moves D _ _ _ Hp) as [Hm3 Hd3]. destruct (passes_fields _ _ _ Hp) as (_ & _ & _ & S3).
  apply IHv in Hsk; [|lia]. destruct Hsk as (w4 & v & Hw4 & Hv & Hm4 & Hd4). rewrite Hd3, Hd1 in *.
  apply (IHm r4 r' D) in H as (body & Hbody & Hm5 & Hd5); [|done|done]. replace (Z.testbit (started r4) (Z.of_nat D)) with true in Hbody by (destruct Hm4 as (_ & _ & _ & ->); [by rewrite S3|lia]).
  destruct (comma_ws _ w c w2 Hw Hc Hw2) as (w1 & c' & Hw1 & Hc' & E).
  exists (w1 ++ c' ++ 34%Z :: s ++ w3 ++ 58%Z :: w4 ++ v ++ body). split_and!; [by econstructor| |done].
  replace (w1 ++ c' ++ 34%Z :: s ++ w3 ++ 58%Z :: w4 ++ v ++ body) with ((w ++ c) ++ ((w2 ++ 34%Z :: s) ++ w3 ++ [58%Z]) ++ (w4 ++ v) ++ body).
  - eapply moves_app; [reflexivity|done|]. eapply moves_app; [reflexivity|done|]. eapply moves_app; [|exact Hm4|done]. lia.
  - rewrite (app_assoc w1 c'), <- E. rewrite <- !app_assoc. reflexivity.
Qed.

Lemma skip_items_sound fuel : value_sound fuel -> items_sound fuel -> items_sound (S fuel).
Proof.
  intros IHv IHi r r' D HD Hle H. cbn [skip_items] in H. unfold item in H. rewrite HD in H. cbn [Nat.eqb] in H. apply bind_done in H as [[m r1] [Hmore H]].
  apply (more_sound _ _ D) in Hmore as (w & Hw & Hmo); [|done]. destruct m; cbn [negb] in H; [|injection H as <-; destruct Hmo as [Hm Hd1]; eexists; split_and!; [|exact Hm|done]; by constructor].
  destruct Hmo as (c & Hc & Hm & Hd1 & Hb1). apply bind_done in H as [r4 [Hsk H]]. apply IHv in Hsk; [|lia]. destruct Hsk as (w4 & v & Hw4 & Hv & Hm4 & Hd4). rewrite Hd1 in *.
  apply (IHi r4 r' D) in H as (body & Hbody & Hm5 & Hd5); [|done|done]. replace (Z.testbit (started r4) (Z.of_nat D)) with true in Hbody by (destruct Hm4 as (_ & _ & _ & ->); [done|lia]).
  destruct (comma_ws _ w c w4 Hw Hc Hw4) as (w1 & c' & Hw1 & Hc' & E). exists (w1 ++ c' ++ v ++ body). split_and!; [by econstructor| |done].
  replace (w1 ++ c' ++ v ++ body) with ((w ++ c) ++ (w4 ++ v) ++ body) by (rewrite (app_assoc w1 c'), <- E; by rewrite <- !app_assoc).
  eapply moves_app; [reflexivity|done|]. eapply moves_app; [|exact Hm4|done]. lia.
Qed.

Lemma skip_sound fuel : value_sound fuel /\ members_sound fuel /\ items_sound fuel.
Proof.
  induction fuel as [|fuel (IHv & IHm & IHi)]; [by split_and!; intros ? ? ?|]. split_and!; [by apply skip_value_sound|by apply skip_members_sound|by apply skip_items_sound].
Qed.

(** ** [skip] accepts every value of the grammar *)
Lemma kind_head b k : kind_of b = Some k -> is_space b = false /\ b <> 93%Z /\ b <> 125%Z.
Proof. unfold kind_of, is_space, is_digit, between. intros H. repeat (case_match; [split_and!; lia|]). done. Qed.
Lemma value_head n v : value n v -> exists b l, v = b :: l /\ is_Some (kind_of b).
Proof.
  destruct 1 as [| | |n v (m & i & f & x & -> & Hm & Hi & _)| | |]; try (eexists _, _; split; [done|by eexists]).
  destruct (int_head i Hi) as (b & i' & -> & Hb). destruct Hm as [-> | ->]; cbn [app]; eexists _, _; (split; [done|]); [|by eexists].
  unfold kind_of. rewrite Hb, orb_true_r. unfold is_digit, between in Hb. replace (b =? 123)%Z with false by lia. replace (b =? 91)%Z with false by lia. replace (b =? 34)%Z with false by lia. by eexists.
Qed.
Lemma number_kind v : jnumber v -> exists b l, v = b :: l /\ kind_of b = Some Number.
Proof.
  intros (m & i & f & x & -> & Hm & Hi & _). destruct (int_head i Hi) as (b & i' & -> & Hb). destruct Hm as [-> | ->]; cbn [app]; eexists _, _; (split; [done|]); [|done].
  unfold kind_of. rewrite Hb, orb_true_r. unfold is_digit, between in Hb. replace (b =? 123)%Z with false by lia. replace (b =? 91)%Z with false by lia. by replace (b =? 34)%Z with false by lia.
Qed.

Lemma stops_head w b l : ws w -> (b = 44 \/ b = 93 \/ b = 125)%Z -> stops (w ++ b :: l).
Proof.
  intros Hw Hb. destruct Hw as [|x w Hx _]; cbn [app stops].
  - unfold is_digit, between. lia.
  - unfold is_space in Hx. unfold is_digit, between. lia.
Qed.
Lemma items_stop n b k : items n true b -> stops (b ++ k).
Proof.
  intros H. inversion H as [? ? w Hw|? ? w c v b' Hw Hc]; subst; rewrite <- !app_assoc; [apply stops_head; auto|]. destruct Hc as (w' & -> & _). cbn. apply stops_head; auto.
Qed.
Lemma members_stop n b k : members n true b -> stops (b ++ k).
Proof.
  intros H. inversion H as [? ? w Hw|? ? w c s d w1 w2 v b' Hw Hc]; subst; rewrite <- !app_assoc; [apply stops_head; auto|]. destruct Hc as (w' & -> & _). cbn. apply stops_head; auto.
Qed.

(** What the value, the items or the members of the grammar promise of their loops. *)
Definition value_read (n : nat) (v : bytes) : Prop := forall r w k fuel, depth r <= DEPTH -> n = DEPTH - depth r -> ws w -> rest r = w ++ v ++ k -> stops k ->
  2 * length (rest r) + 1 <= fuel -> exists r', skip_n fuel r = Done r' /\ moves (depth r) r (w ++ v) r' /\ depth r' = depth r.
Definition body_read (loop : nat -> Reader -> json Reader) (n : nat) (m : bool) (b : bytes) : Prop :=
  forall r D k fuel, depth r = S D -> S D <= DEPTH -> n = DEPTH - S D -> Z.testbit (started r) (Z.of_nat D) = m -> rest r = b ++ k ->
  2 * length (rest r) + 2 <= fuel -> exists r', loop fuel r = Done r' /\ moves D r b r' /\ depth r' = D.

Lemma container_read b loop n x : body_read loop n false x -> is_space b = false ->
  forall r w k fuel, depth r <= DEPTH -> S n = DEPTH - depth r -> ws w -> rest r = w ++ b :: x ++ k -> 2 * length (rest r) <= fuel ->
  exists r', (r1 ← open b (adv (length w) r); loop fuel r1) = Done r' /\ moves (depth r) r (w ++ b :: x) r' /\ depth r' = depth r.
Proof.
  intros Hb Hs r w k fuel Hd Hn Hw Hr Hf. destruct (passes_adv r w _ Hr) as [Hp Hr1]. destruct (passes_moves (depth r) _ _ _ Hp) as [Hm1 Hd1].
  destruct (open_over b (adv (length w) r) [] (x ++ k)) as (r2 & -> & Hm2 & Hd2 & Hr2 & Hbit); [constructor|done|done|cbn; lia|]. cbn [mbind outcome_bind].
  assert (length (rest r) = length w + S (length (rest r2))) by (rewrite Hr, Hr2, length_app; cbn; lia).
  rewrite Hd1 in *. destruct (Hb r2 (depth r) k fuel) as (r' & -> & Hm3 & Hd3); [done|lia|lia|done|done|lia|]. exists r'. split_and!; [done| |done].
  replace (w ++ b :: x) with (w ++ [b] ++ x) by done. eapply moves_app; [reflexivity|exact Hm1|]. eapply moves_app; [reflexivity|exact Hm2|exact Hm3].
Qed.

Lemma flat_moves r w v k : rest r = w ++ v ++ k -> moves (depth r) r (w ++ v) (adv (length v) (adv (length w) r)) /\ depth (adv (length v) (adv (length w) r)) = depth r.
Proof.
  intros Hr. destruct (passes_adv r w _ Hr) as [Hp Hr1]. destruct (passes_adv _ v _ Hr1) as [Hp2 _]. exact (passes_moves _ _ _ _ (passes_app _ _ _ _ _ Hp Hp2)).
Qed.
(** A value that [o] reads where [peek] found it. *)
Lemma flat_read n v kd (o : Reader -> json Reader) : (exists b l, v = b :: l /\ kind_of b = Some kd) ->
  (forall fuel r r1, peek r = Done (kd, r1) -> skip_n (S fuel) r = o r1) ->
  (forall r k, rest r = v ++ k -> stops k -> o r = Done (adv (length v) r)) -> value_read n v.
Proof.
  intros (b & l & Hv & Hk) Hskip Ho r w k [|fuel] Hd Hn Hw Hr Hst Hf; [lia|]. pose proof (flat_moves r w v k Hr) as Hm. destruct (passes_adv r w _ Hr) as [_ Hr1].
  eexists. split; [|exact Hm]. rewrite (Hskip fuel r (adv (length w) r)); [by apply (Ho _ k)|]. subst v. apply (peek_over r w b (l ++ k)); [done|done|by apply (kind_head _ _ Hk)|done].
Qed.
Lemma literal_over w r k : w <> [] -> rest r = w ++ k -> literal w r = Done (adv (length w) r).
Proof. intros Hw Hr. apply literal_passes; [done|]. apply (passes_adv r w k Hr). Qed.
Lemma skip_string_over r s d k : chars s d -> rest r = 34%Z :: s ++ k -> skip_string r = Done (adv (length (34%Z :: s)) r).
Proof. intros Hs Hr. apply skip_string_passes. exists [], s, d. split_and!; [constructor|done|]. apply (passes_adv r (34%Z :: s) k Hr). Qed.

Lemma body_end loop close n m w :
  (forall fuel r D r1, depth r = S D -> more close r = Done (false, r1) -> loop (S fuel) r = Done r1) -> is_space close = false -> ws w -> body_read loop n m (w ++ [close]).
Proof.
  intros Hl Hs Hw r D k [|fuel] HD _ _ _ Hr Hf; [lia|]. rewrite <- app_assoc in Hr. destruct (more_close close r D w k Hs HD Hw Hr) as (r1 & E & Hm & Hd). exists r1. by rewrite (Hl fuel r D r1 HD E).
Qed.

Lemma items_next_read n m w c v b : ws w -> comma m c -> value n v -> value_read n v -> items n true b -> body_read skip_items n true b -> body_read skip_items n m (w ++ c ++ v ++ b).
Proof.
  intros Hw Hc Hv IHv Hb IHb r D k [|fuel] HD Hle Hn Hbit Hr Hf; [lia|]. destruct (value_head n v Hv) as (x & l & Ev & [kd Hk]). destruct (kind_head _ _ Hk) as (Hs & H93 & _).
  assert (rest r = w ++ c ++ (v ++ b ++ k)) as Hr0 by (rewrite Hr; by rewrite <- !app_assoc). rewrite <- Hbit in Hc.
  destruct (more_next 93 r D w c (v ++ b ++ k)) as (r1 & E & Hm1 & Hd1 & Hb1); [done|done|done|done|done|by rewrite Ev|rewrite Ev; cbn; congruence|done|].
  rewrite app_assoc in Hr0. pose proof (moves_rest _ _ _ _ _ Hm1 Hr0) as Hr1. pose proof (moves_length _ _ _ _ Hm1) as L1.
  destruct (IHv r1 [] (b ++ k) fuel) as (r2 & E2 & Hm2 & Hd2); [lia|by rewrite Hd1|constructor|done|by eapply items_stop|lia|]. cbn [app] in Hm2.
  pose proof (moves_rest _ _ _ _ _ Hm2 Hr1) as Hr2. pose proof (moves_length _ _ _ _ Hm2) as L2. rewrite Ev in L2. cbn in L2. rewrite Hd1 in *.
  destruct (IHb r2 D k fuel) as (r3 & E3 & Hm3 & Hd3); [done|done|done| |done|lia|]. { destruct Hm2 as (_ & _ & _ & ->); [done|lia]. }
  exists r3. cbn [skip_items]. unfold item. rewrite HD. cbn [Nat.eqb]. step E. cbn [negb]. step E2. split_and!; [done| |done].
  rewrite !app_assoc. rewrite <- (app_assoc (w ++ c)). eapply moves_app; [reflexivity|exact Hm1|]. eapply moves_app; [|exact Hm2|exact Hm3]. lia.
Qed.

Lemma members_next_read n m w c s d w1 w2 v b : ws w -> comma m c -> chars s d -> ws w1 -> ws w2 -> value n v -> value_read n v -> members n true b -> body_read skip_members n true b ->
  body_read skip_members n m (w ++ c ++ 34%Z :: s ++ w1 ++ 58%Z :: w2 ++ v ++ b).
Proof.
  intros Hw Hc Hs Hw1 Hw2 Hv IHv Hb IHb r D k [|fuel] HD Hle Hn Hbit Hr Hf; [lia|]. destruct (value_head n v Hv) as (x & l & Ev & _). rewrite <- Hbit in Hc.
  assert (rest r = w ++ c ++ (34%Z :: s ++ w1 ++ [58%Z] ++ w2 ++ v ++ b ++ k)) as Hr0. { rewrite Hr. rewrite <- !app_assoc. cbn. rewrite <- !app_assoc. cbn. by rewrite <- !app_assoc. }
  destruct (more_next 125 r D w c _ ltac:(done) HD Hw Hc Hr0) as (r1 & E & Hm1 & Hd1 & Hb1); [done|done|done|].
  rewrite app_assoc in Hr0. pose proof (moves_rest _ _ _ _ _ Hm1 Hr0) as Hr1. pose proof (moves_length _ _ _ _ Hm1) as L1.
  pose proof (skip_string_over r1 s d _ Hs Hr1) as E2. destruct (passes_adv r1 (34%Z :: s) _ Hr1) as [Hp2 Hr2]. set (r2 := adv _ r1) in *. clearbody r2.
  pose proof (space_over r2 w1 _ Hw1 Hr2 ltac:(done)) as E3. destruct (passes_adv r2 w1 _ Hr2) as [Hp3 Hr3]. rewrite <- E3 in *. destruct (passes_adv _ [58%Z] _ Hr3) as [Hp4 Hr4].
  set (r4 := adv (length [58%Z]) (space r2)) in *. pose proof (proj2 (byte_passes _ _ _) Hp4) as E4. clearbody r4.
  pose proof (passes_app _ _ _ _ _ Hp2 (passes_app _ _ _ _ _ Hp3 Hp4)) as Hp. destruct (passes_moves D _ _ _ Hp) as [Hm4 Hd4]. destruct (passes_fields _ _ _ Hp) as (_ & _ & _ & S4). pose proof (passes_length _ _ _ Hp) as L4.
  destruct (IHv r4 w2 (b ++ k) fuel) as (r5 & E5 & Hm5 & Hd5); [lia|by rewrite Hd4, Hd1|done|done|by eapply members_stop|lia|]. rewrite app_assoc in Hr4.
  pose proof (moves_rest _ _ _ _ _ Hm5 Hr4) as Hr5. pose proof (moves_length _ _ _ _ Hm5) as L5. rewrite Ev, length_app in L5. cbn in L5. rewrite Hd4, Hd1 in *.
  destruct (IHb r5 D k fuel) as (r6 & E6 & Hm6 & Hd6); [done|done|done| |done|lia|]. { destruct Hm5 as (_ & _ & _ & ->); [by rewrite S4|lia]. }
  exists r6. cbn [skip_members]. step E. cbn [negb]. step E2. step E4. cbn [Z.eqb Pos.eqb negb]. step E5. split_and!; [done| |done].
  replace (w ++ c ++ 34%Z :: s ++ w1 ++ 58%Z :: w2 ++ v ++ b) with ((w ++ c) ++ ((34%Z :: s) ++ w1 ++ [58%Z]) ++ (w2 ++ v) ++ b) by (by rewrite <- !app_assoc).
  eapply moves_app; [reflexivity|exact Hm1|]. eapply moves_app; [reflexivity|exact Hm4|]. eapply moves_app; [|exact Hm5|exact Hm6]. lia.
Qed.

Lemma skip_complete : (forall n v, value n v -> value_read n v) /\ (forall n m b, items n m b -> body_read skip_items n m b) /\ (forall n m b, members n m b -> body_read skip_members n m b).
Proof.
  apply grammar_ind.
  - intros n. apply (flat_read _ _ True_ (literal [116; 114; 117; 101]%Z)); [by repeat eexists|intros fuel r r1 E; cbn [skip_n]; by step E|intros r k Hr _; by apply (literal_over _ _ k)].
  - intros n. apply (flat_read _ _ False_ (literal [102; 97; 108; 115; 101]%Z)); [by repeat eexists|intros fuel r r1 E; cbn [skip_n]; by step E|intros r k Hr _; by apply (literal_over _ _ k)].
  - intros n. apply (flat_read _ _ Null (literal [110; 117; 108; 108]%Z)); [by repeat eexists|intros fuel r r1 E; cbn [skip_n]; by step E|intros r k Hr _; by apply (literal_over _ _ k)].
  - intros n v Hv. apply (flat_read _ _ Number (fun r => '(_, r) ← number_text r; Done r)); [by apply number_kind|intros fuel r r1 E; cbn [skip_n]; by step E|].
    intros r k Hr Hk. by step (number_complete r [] v k ltac:(constructor) Hv Hr Hk).
  - intros n s d Hs. apply (flat_read _ _ String_ skip_string); [by repeat eexists|intros fuel r r1 E; cbn [skip_n]; by step E|intros r k Hr _; by apply (skip_string_over r s d k)].
  - intros n b Hb IH r w k [|fuel] Hd Hn Hw Hr Hst Hf; [lia|]. cbn [skip_n]. step (peek_over r w 91 _ Array Hw Hr eq_refl eq_refl). eapply container_read; eauto. lia.
  - intros n b Hb IH r w k [|fuel] Hd Hn Hw Hr Hst Hf; [lia|]. cbn [skip_n]. step (peek_over r w 123 _ Object Hw Hr eq_refl eq_refl). eapply container_read; eauto. lia.
  - intros n m w Hw. apply body_end; [|done|done]. intros fuel r D r1 HD E. cbn [skip_items]. unfold item. rewrite HD. cbn [Nat.eqb]. by step E.
  - intros n m w c v b Hw Hc Hv IHv Hb IHb. by apply items_next_read.
  - intros n m w Hw. apply body_end; [|done|done]. intros fuel r D r1 HD E. cbn [skip_members]. by step E.
  - intros n m w c s d w1 w2 v b Hw Hc Hs Hw1 Hw2 Hv IHv Hb IHb. by apply (members_next_read n m w c s d w1 w2 v b).
Qed.

(** ** No panic, enough fuel *)
Lemma peek_safe r : safe (peek r).
Proof. unfold peek. apply safe_bind; [auto with mind|done]. Qed.
Lemma unicode_safe r : safe (unicode r).
Proof.
  unfold unicode. apply safe_bind; [apply hex_n_safe|]. intros [high r1] _. apply safe_bind; [|intros [code r2] _; apply safe_bind; auto with mind].
  repeat case_match; try done. apply safe_bind; [apply literal_safe|]. intros r2 _. apply safe_bind; [apply hex_n_safe|]. intros [low r3] _. by case_match.
Qed.
Lemma escape_safe r : safe (escape r).
Proof. unfold escape. apply safe_bind; [apply byte_safe|]. intros [b r1] _. repeat case_match; try done. apply unicode_safe. Qed.
Lemma skip_escape_safe r : safe (skip_escape r).
Proof.
  unfold skip_escape. apply safe_bind; [apply byte_safe|]. intros [b r1] _. repeat case_match; try done. apply safe_bind; [apply hex_n_safe|]. intros [high r2] _.
  repeat case_match; try done. apply safe_bind; [apply literal_safe|]. intros r3 _. apply safe_bind; [apply hex_n_safe|]. intros [low r4] _. by case_match.
Qed.

Lemma string_n_safe n cap out r : length (rest r) < n -> safe (string_n n cap out r).
Proof.
  revert out r. induction n as [|n IH]; intros out r Hn; [lia|]. cbn [string_n]. apply safe_bind; [apply byte_safe|]. intros [b r1] Hb. apply byte_passes, passes_length in Hb. cbn in Hb.
  destruct (b =? 34)%Z; [done|]. destruct (b =? 92)%Z; [|destruct (b <? 32)%Z; [done|]; apply safe_bind; [unfold put; by case_match|]; intros o _; apply IH; lia].
  apply safe_bind; [apply escape_safe|]. intros [c r2] (e & _ & Hp)%escape_passes. apply passes_length in Hp. apply safe_bind; [unfold put; by case_match|]. intros o _. apply IH. lia.
Qed.
Lemma skip_string_n_safe n r : length (rest r) < n -> safe (skip_string_n n r).
Proof.
  revert r. induction n as [|n IH]; intros r Hn; [lia|]. cbn [skip_string_n]. apply safe_bind; [apply byte_safe|]. intros [b r1] Hb. apply byte_passes, passes_length in Hb. cbn in Hb.
  destruct (b =? 34)%Z; [done|]. destruct (b =? 92)%Z; [|destruct (b <? 32)%Z; [done|]; apply IH; lia].
  apply safe_bind; [apply skip_escape_safe|]. intros r2 [c (e & _ & Hp)%escape_passes]%skip_escape_iff. apply passes_length in Hp. apply IH. lia.
Qed.
Lemma string_into_safe cap r : safe (string_into cap r).
Proof.
  unfold string_into. apply safe_bind; [apply byte_safe|]. intros [b r1] _. case_match; [done|]. apply string_n_safe. pose proof (rest_bound r1). lia.
Qed.
Lemma skip_string_safe r : safe (skip_string r).
Proof.
  unfold skip_string. apply safe_bind; [apply byte_safe|]. intros [b r1] _. case_match; [done|]. apply skip_string_n_safe. pose proof (rest_bound r1). lia.
Qed.
Lemma number_safe r : safe (number_text r).
Proof.
  unfold number_text, int_of, frac_of, exp_of. apply safe_bind; [by repeat case_match|]. intros r1 _. apply safe_bind; [repeat case_match; done|]. intros r2 _. apply safe_bind; [repeat case_match; done|done].
Qed.
Lemma open_safe b r : safe (open b r).
Proof. unfold open. case_match; [done|]. apply safe_bind; [apply byte_safe|]. intros [c r1] _. by case_match. Qed.
Lemma more_safe close r : depth r <> 0 -> safe (more close r).
Proof.
  intros Hd. unfold more. change (depth (space r)) with (depth r). destruct (depth r); [done|]. case_bool_decide; [done|]. apply safe_bind; [|done].
  case_match; [done|]. apply safe_bind; [apply byte_safe|]. intros [b r1] _. by case_match.
Qed.
Lemma item_safe r : safe (item r).
Proof. unfold item. destruct (Nat.eqb_spec (depth r) 0); [done|]. by apply more_safe. Qed.
#[local] Hint Resolve byte_safe peek_safe literal_safe string_into_safe skip_string_safe number_safe open_safe item_safe : mind.

Lemma skips_shrinks r r' : skips r r' -> length (rest r') < length (rest r) /\ depth r' = depth r.
Proof.
  intros (w & v & _ & Hv & Hm & Hd). split; [|done]. destruct (value_head _ _ Hv) as (b & l & -> & _). apply moves_length in Hm. rewrite length_app in Hm. cbn in Hm. lia.
Qed.

Lemma skip_n_safe fuel :
  (forall r, depth r <= DEPTH -> 2 * length (rest r) + 1 <= fuel -> safe (skip_n fuel r)) /\
  (forall r D, depth r = S D -> S D <= DEPTH -> 2 * length (rest r) + 2 <= fuel -> safe (skip_members fuel r) /\ safe (skip_items fuel r)).
Proof.
  induction fuel as [|fuel [IHv IHb]]; [split; intros; lia|]. split.
  - intros r Hd Hf. cbn [skip_n]. apply safe_bind; [auto with mind|]. intros [k r1] (w & b & l & _ & Hp & _)%peek_sound. pose proof (passes_length _ _ _ Hp). destruct (passes_fields _ _ _ Hp) as (_ & _ & Hd1 & _).
    assert (forall c (loop : Reader -> json Reader), (forall r2 D, depth r2 = S D -> S D <= DEPTH -> 2 * length (rest r2) + 2 <= fuel -> safe (loop r2)) -> safe (r2 ← open c r1; loop r2)) as Hc.
    { intros c loop Hl. apply safe_bind; [auto with mind|]. intros r2 (w2 & _ & Hm & Hd2 & Hne & _)%open_sound. apply moves_length in Hm. rewrite length_app in Hm. cbn in Hm. apply (Hl r2 (depth r1)); lia. }
    destruct k; auto with mind; [apply Hc; intros r2 D H1 H2 H3; by apply (IHb r2 D)..|]. apply safe_bind; [auto with mind|]. by intros [t r2] _.
  - intros r D HD Hle Hf. cbn [skip_members skip_items]. split.
    + apply safe_bind; [apply more_safe; lia|]. intros [m r1] Hm. destruct m; [|done]. cbn [negb]. apply (more_sound _ _ D) in Hm as (w & _ & c & _ & Hm & Hd1 & _); [|done]. apply moves_length in Hm.
      apply safe_bind; [auto with mind|]. intros r2 (w2 & s & d & _ & _ & Hp2)%skip_string_passes. apply safe_bind; [auto with mind|]. intros [b r3] Hb. case_match; [done|].
      destruct (space_passes r2) as (w3 & _ & Hp3 & _). apply byte_passes in Hb. pose proof (passes_app _ _ _ _ _ Hp2 (passes_app _ _ _ _ _ Hp3 Hb)) as Hp.
      pose proof (passes_length _ _ _ Hp). destruct (passes_fields _ _ _ Hp) as (_ & _ & Hd3 & _).
      apply safe_bind; [apply IHv; lia|]. intros r4 Hsk. apply skip_sound, skips_shrinks in Hsk as [? ?]; [|lia]. apply (IHb r4 D); lia.
    + unfold item. rewrite HD. cbn [Nat.eqb]. apply safe_bind; [apply more_safe; lia|]. intros [m r1] Hm. destruct m; [|done]. cbn [negb]. apply (more_sound _ _ D) in Hm as (w & _ & c & _ & Hm & Hd1 & _); [|done]. apply moves_length in Hm.
      apply safe_bind; [apply IHv; lia|]. intros r4 Hsk. apply skip_sound, skips_shrinks in Hsk as [? ?]; [|lia]. apply (IHb r4 D); lia.
Qed.
Lemma skip_safe r : depth r <= DEPTH -> safe (skip r).
Proof. intros Hd. apply skip_n_safe; [done|]. pose proof (rest_bound r). lia. Qed.

(** ** The theorems *)

Lemma read_whole t : safe (r ← reader_new t; r ← skip r; end_ r) /\
  ((exists r, (r ← reader_new t; r ← skip r; end_ r) = Done r) <->
   is_Some (utf8 t) /\ exists w v w', ws w /\ value DEPTH v /\ ws w' /\ t = w ++ v ++ w').
Proof.
  unfold reader_new. destruct (utf8 t) as [cs|] eqn:Eu; cbn [or_refuse mbind outcome_bind]; [|split; [done|]; split; [by intros []|by intros [[] _]]].
  set (r0 := mkReader t 0 0 0). assert (rest r0 = t) as Hr0 by done. assert (depth r0 = 0) as Hd0 by done. split; [|split].
  - apply safe_bind; [apply skip_safe; cbn; lia|]. intros r _. unfold end_. by case_match.
  - intros [r [r1 [Hsk He]]%bind_done]. split; [by eexists|]. apply skip_sound in Hsk as (w & v & Hw & Hv & Hm & Hd); [|cbn; lia]. rewrite Hd0 in *. unfold end_ in He.
    destruct (space_passes r1) as (w' & Hw' & [Hr1 _] & _). destruct (_ && _) eqn:E; [|done]. apply andb_true_iff in E as [E%Nat.eqb_eq _]. injection He as <-.
    assert (rest (space r1) = []) as Hend by (unfold rest; rewrite E; apply drop_all). destruct Hm as (_ & _ & Hm & _). rewrite Hr0, Hr1, Hend, app_nil_r in Hm.
    exists w, v, w'. split_and!; try done. by rewrite Hm, app_assoc.
  - intros [_ (w & v & w' & Hw & Hv & Hw' & Ht)]. assert (stops w') as Hst. { destruct Hw' as [|x w' Hx _]; [done|]. cbn. unfold is_space in Hx. unfold is_digit, between. lia. }
    destruct (proj1 skip_complete DEPTH v Hv r0 w w' (2 * length (text r0) + 1)) as (r1 & E & Hm & Hd); [rewrite Hd0; lia|by rewrite Hd0|done|by rewrite Hr0|done|rewrite Hr0; cbn; lia|].
    unfold skip. step E. assert (rest r1 = w') as Hr1 by (eapply (moves_rest _ _ _ _ _ Hm); by rewrite Hr0, <- app_assoc).
    unfold end_. rewrite (space_over r1 w' [] Hw'); [|by rewrite app_nil_r|done]. destruct Hm as (Ht1 & Ha1 & _). cbn [adv at_ text depth]. rewrite Ha1, Ht1, Hd.
    replace (_ && _) with true; [by eexists|]. cbn [at_ text depth r0]. rewrite Ht, !length_app. symmetry. apply andb_true_iff. split; [apply Nat.eqb_eq; lia|done].
Qed.

(** ** The grammar of RFC 8259 itself *)

(** The grammar of values with the strings [str], each what follows its opening quote, the closing one included. *)
Inductive gvalue (str : bytes -> Prop) : nat -> bytes -> Prop :=
| gv_true n : gvalue str n [116; 114; 117; 101]%Z
| gv_false n : gvalue str n [102; 97; 108; 115; 101]%Z
| gv_null n : gvalue str n [110; 117; 108; 108]%Z
| gv_number n v : jnumber v -> gvalue str n v
| gv_string n s : str s -> gvalue str n (34%Z :: s)
| gv_array n b : gitems str n false b -> gvalue str (S n) (91%Z :: b)
| gv_object n b : gmembers str n false b -> gvalue str (S n) (123%Z :: b)
with gitems (str : bytes -> Prop) : nat -> bool -> bytes -> Prop :=
| gi_end n m w : ws w -> gitems str n m (w ++ [93%Z])
| gi_next n m w c v b : ws w -> comma m c -> gvalue str n v -> gitems str n true b -> gitems str n m (w ++ c ++ v ++ b)
with gmembers (str : bytes -> Prop) : nat -> bool -> bytes -> Prop :=
| gm_end n m w : ws w -> gmembers str n m (w ++ [125%Z])
| gm_next n m w c s w1 w2 v b : ws w -> comma m c -> str s -> ws w1 -> ws w2 -> gvalue str n v -> gmembers str n true b ->
    gmembers str n m (w ++ c ++ 34%Z :: s ++ w1 ++ 58%Z :: w2 ++ v ++ b).
Scheme gvalue_ind3 := Induction for gvalue Sort Prop
  with gitems_ind3 := Induction for gitems Sort Prop
  with gmembers_ind3 := Induction for gmembers Sort Prop.
Combined Scheme ggrammar_ind from gvalue_ind3, gitems_ind3, gmembers_ind3.

(** RFC 8259's strings: characters as they are, and escapes, where [\u] and any four hex digits are a UTF-16 unit. *)
Inductive Unit_ : Type := Plain (b : Z) | Utf16 (v : Z).
Inductive rfc_chars : bytes -> list Unit_ -> Prop :=
| rc_end : rfc_chars [34%Z] []
| rc_plain b s us : (32 <= b)%Z -> b <> 34%Z -> b <> 92%Z -> rfc_chars s us -> rfc_chars (b :: s) (Plain b :: us)
| rc_short b c s us : short_escape b = Some c -> rfc_chars s us -> rfc_chars (92%Z :: b :: s) (Plain c :: us)
| rc_unit q v s us : hex_quad q v -> rfc_chars s us -> rfc_chars (92%Z :: 117%Z :: q ++ s) (Utf16 v :: us).
Definition rfc_string (s : bytes) : Prop := exists us, rfc_chars s us.

(** Every escape of a high surrogate is followed at once by one of a low one, and no low one is without it. *)
Fixpoint paired (us : list Unit_) : bool :=
  match us with
  | [] => true
  | Plain _ :: us => paired us
  | Utf16 v :: us =>
      if between 0xD800 0xDBFF v then match us with Utf16 w :: us => between 0xDC00 0xDFFF w && paired us | _ => false end
      else negb (between 0xDC00 0xDFFF v) && paired us
  end.
Definition paired_string (s : bytes) : Prop := exists us, rfc_chars s us /\ paired us = true.

Lemma chars_paired s d : chars s d -> paired_string s.
Proof.
  induction 1 as [|b s d H1 H2 H3 _ [us [IH1 IH2]]|e c s d He _ [us [IH1 IH2]]].
  - exists []. split; [constructor|done].
  - exists (Plain b :: us). split; [by constructor|done].
  - destruct He as [b c Hb|q v Hq Hv|q v q' v' Hq Hq' Hv Hv'].
    + exists (Plain c :: us). split; [by constructor|done].
    + exists (Utf16 v :: us). split; [by constructor|]. cbn. destruct (between 0xD800 0xDBFF v) eqn:E1, (between 0xDC00 0xDFFF v) eqn:E2; unfold between in *; try lia; done.
    + exists (Utf16 v :: Utf16 v' :: us). split; [|cbn; by rewrite Hv, Hv']. cbn [app]. rewrite <- app_assoc. cbn [app]. by repeat constructor.
Qed.
Lemma paired_chars s us : rfc_chars s us -> (paired us = true -> exists d, chars s d) /\
  match us with Utf16 w :: us' => between 0xDC00 0xDFFF w && paired us' = true -> exists q s' d, hex_quad q w /\ s = 92%Z :: 117%Z :: q ++ s' /\ chars s' d | _ => True end.
Proof.
  induction 1 as [|b s us H1 H2 H3 _ [IH _]|b c s us Hb _ [IH _]|q v s us Hq _ [IH1 IH2]].
  - split; [|done]. intros _. exists []. constructor.
  - split; [|done]. intros [d Hd]%IH. exists (b :: d). by constructor.
  - split; [|done]. intros [d Hd]%IH. exists (encode_utf8 c ++ d). apply (c_escape [b]); [by constructor|done].
  - split; [|intros [_ [d Hd]%IH1]%andb_true_iff; by exists q, s, d]. cbn [paired]. destruct (between 0xD800 0xDBFF v) eqn:Ev.
    + destruct us as [|[b|w] us]; [done|done|]. intros Hw. destruct (IH2 Hw) as (q' & s' & d & Hq' & -> & Hd). apply andb_true_iff in Hw as [Hw _]. eexists.
      replace (92%Z :: 117%Z :: q ++ 92%Z :: 117%Z :: q' ++ s') with (92%Z :: (117%Z :: q ++ 92%Z :: 117%Z :: q') ++ s') by (cbn [app]; by rewrite <- app_assoc).
      apply c_escape; [by apply e_pair|exact Hd].
    + intros [Hl%negb_true_iff [d Hd]%IH1]%andb_true_iff. eexists. apply (c_escape (117%Z :: q)); [|exact Hd]. apply e_unit; [done|]. unfold between in *. lia.
Qed.

Lemma gvalue_mono (P Q : bytes -> Prop) : (forall s, P s -> Q s) -> forall n v, gvalue P n v -> gvalue Q n v.
Proof.
  intros HPQ. apply (ggrammar_ind P (fun n v _ => gvalue Q n v) (fun n m b _ => gitems Q n m b) (fun n m b _ => gmembers Q n m b)); intros;
    [constructor|constructor|constructor|by constructor|apply gv_string; auto|by apply gv_array|by apply gv_object|by constructor|by constructor|by constructor|apply gm_next; auto].
Qed.
Lemma value_gvalue n v : value n v <-> gvalue paired_string n v.
Proof.
  split.
  - revert n v. apply (grammar_ind (fun n v _ => gvalue paired_string n v) (fun n m b _ => gitems paired_string n m b) (fun n m b _ => gmembers paired_string n m b)); intros;
      [constructor|constructor|constructor|by constructor|apply gv_string; by eapply chars_paired|by apply gv_array|by apply gv_object|by constructor|by constructor|by constructor|apply gm_next; eauto using chars_paired].
  - revert n v. assert (forall s, paired_string s -> exists d, chars s d) as Hs by (intros s (us & H1 & H2); by apply (paired_chars s us)).
    apply (ggrammar_ind paired_string (fun n v _ => value n v) (fun n m b _ => items n m b) (fun n m b _ => members n m b)); intros; try (by constructor).
    + destruct (Hs s) as [d Hd]; [done|]. by eapply v_string.
    + destruct (Hs s) as [d Hd]; [done|]. by eapply m_next.
Qed.

(** C39: reading a whole text ([new], then [skip], then [end]) always returns, and accepts it exactly if it is UTF-8 and
    one value of the JSON grammar of RFC 8259, nested at most [DEPTH] deep, its escaped surrogates in pairs, with only
    spaces around it. So what it accepts is a text of RFC 8259's grammar, and a text of that grammar it refuses is no
    UTF-8, nested deeper, or has an escaped surrogate without its other half. *)
Theorem json_grammar t : safe (r ← reader_new t; r ← skip r; end_ r) /\
  ((exists r, (r ← reader_new t; r ← skip r; end_ r) = Done r) <->
   is_Some (utf8 t) /\ exists w v w', ws w /\ gvalue paired_string DEPTH v /\ ws w' /\ t = w ++ v ++ w') /\
  ((exists r, (r ← reader_new t; r ← skip r; end_ r) = Done r) ->
   exists w v w', ws w /\ gvalue rfc_string DEPTH v /\ ws w' /\ t = w ++ v ++ w').
Proof.
  destruct (read_whole t) as [Hsafe Hread]. setoid_rewrite value_gvalue in Hread. split; [done|]. split; [done|].
  intros [_ (w & v & w' & Hw & Hv & Hw' & Ht)]%Hread. exists w, v, w'. split_and!; try done. eapply gvalue_mono; [|exact Hv]. intros s (us & Hs & _). by exists us.
Qed.

(** RFC 8259's grammar has the string of one escaped high surrogate; the reader refuses it. *)
Lemma lone_surrogate_refused : let t := [34; 92; 117; 100; 56; 48; 48; 34]%Z in gvalue rfc_string DEPTH t /\
  (r ← reader_new t; r ← skip r; end_ r) = Malformed.
Proof.
  split; [|vm_compute; reflexivity]. apply gv_string. eexists. apply (rc_unit [100; 56; 48; 48]%Z 0xD800 [34%Z]); [|constructor].
  by exists 100%Z, 56%Z, 48%Z, 48%Z, 13%Z, 8%Z, 0%Z, 0%Z.
Qed.

(** [skip_string] passes over exactly the strings [string] reads into a buffer that is long enough, to the same
    place; what [string] gives is the text the grammar gives the escapes. *)
Theorem skip_string_is_string r : (forall r', skip_string r = Done r' <-> exists cap s, string cap r = Done (s, r')) /\
  (forall cap s r', string cap r = Done (s, r') -> exists w l, ws w /\ chars l s /\ rest r = w ++ 34%Z :: l ++ rest r' /\ length s <= cap).
Proof.
  split.
  - intros r'. rewrite skip_string_passes. split.
    + intros (w & l & d & Hw & Hl & [Hr ->]). exists (length d), d. rewrite <- app_assoc in Hr. cbn [app] in Hr. apply (string_into_complete _ r w l d _ Hw Hl Hr). lia.
    + intros (cap & s & H). apply string_into_sound in H as (w & l & Hw & Hl & Hp & _). eauto 10.
  - intros cap s r' H. apply string_into_sound in H as (w & l & Hw & Hl & [Hr _] & Hcap). rewrite <- app_assoc in Hr. by exists w, l.
Qed.

(** ** [walk] *)
Lemma key_safe cap r : safe (key cap r).
Proof.
  unfold key. destruct (Nat.eqb_spec (depth r) 0); [done|]. apply safe_bind; [by apply more_safe|]. intros [m r1] _. case_match; [done|].
  apply safe_bind; [auto with mind|]. intros [k r2] _. apply safe_bind; [auto with mind|]. intros [b r3] _. by case_match.
Qed.
(** The next key or item takes a byte at least where it ends the container, and leaves the level otherwise. *)
Lemma key_sound cap r D o r' : depth r = S D -> key cap r = Done (o, r') ->
  length (rest r') <= length (rest r) /\
  match o with None => length (rest r') < length (rest r) /\ depth r' = D | Some k => depth r' = S D /\ length k <= cap end.
Proof.
  intros HD. unfold key. rewrite HD. cbn [Nat.eqb]. intros [[m r1] [Hm H]]%bind_done. apply (more_sound _ _ D) in Hm as (w & _ & Hm); [|done]. destruct m; cbn [negb] in H.
  - destruct Hm as (c & _ & Hm & Hd1 & _). apply moves_length in Hm. apply bind_done in H as [[k r2] [(w2 & s & _ & _ & Hp & Hcap)%string_into_sound H]].
    apply bind_done in H as [[b r3] [Hb%byte_passes H]]. case_match; [done|]. injection H as <- <-. destruct (space_passes r2) as (w3 & _ & Hp3 & _).
    pose proof (passes_app _ _ _ _ _ Hp (passes_app _ _ _ _ _ Hp3 Hb)) as Hpp. pose proof (passes_length _ _ _ Hpp). destruct (passes_fields _ _ _ Hpp) as (_ & _ & Hd & _). split_and!; [lia|lia|done].
  - injection H as <- <-. destruct Hm as [Hm ?]. apply moves_length in Hm. rewrite length_app in Hm. cbn in Hm. split_and!; [lia|lia|done].
Qed.
Lemma item_sound r D m r' : depth r = S D -> item r = Done (m, r') ->
  length (rest r') <= length (rest r) /\ if m then depth r' = S D else length (rest r') < length (rest r) /\ depth r' = D.
Proof.
  intros HD. unfold item. rewrite HD. cbn [Nat.eqb]. intros (w & _ & Hm)%(more_sound _ _ D); [|done]. destruct m.
  - destruct Hm as (c & _ & Hm & Hd1 & _). apply moves_length in Hm. split; [lia|done].
  - destruct Hm as [Hm ?]. apply moves_length in Hm. rewrite length_app in Hm. cbn in Hm. split_and!; [lia|lia|done].
Qed.
Lemma value_text_sound k r t r' : depth r <= DEPTH -> value_text k r = Done (t, r') ->
  depth r' = depth r /\ (if is_container k then r' = r /\ t = [] else length (rest r') < length (rest r)) /\ (k = String_ -> length t <= TEXT_MAX).
Proof.
  intros Hd H. destruct k; cbn [value_text is_container] in *; try (injection H as <- <-; done).
  - apply string_into_sound in H as (w & s & _ & _ & Hp & Hcap). pose proof (passes_length _ _ _ Hp) as L. rewrite length_app in L. cbn in L. destruct (passes_fields _ _ _ Hp) as (_ & _ & ? & _). split_and!; [done|lia|done].
  - apply number_sound in H as (w & _ & (b & l & -> & _)%number_kind & Hp). pose proof (passes_length _ _ _ Hp) as L. rewrite length_app in L. cbn in L. destruct (passes_fields _ _ _ Hp) as (_ & _ & ? & _). split_and!; [done|lia|done].
  - apply bind_done in H as [r1 [Hs [= <- <-]]]. apply skip_sound, skips_shrinks in Hs as [? ?]; done.
  - apply bind_done in H as [r1 [Hs [= <- <-]]]. apply skip_sound, skips_shrinks in Hs as [? ?]; done.
  - apply bind_done in H as [r1 [Hs [= <- <-]]]. apply skip_sound, skips_shrinks in Hs as [? ?]; done.
Qed.
Lemma value_text_safe k r : depth r <= DEPTH -> safe (value_text k r).
Proof. intros Hd. destruct k; cbn; auto with mind; apply safe_bind; try done; by apply skip_safe. Qed.

(** The visitor that keeps the values, and what holds of them: each is in a container before it, its key and its string
    are within their bounds, an item of an array has no key. *)
Definition collect (vs : list Value) (_ : nat) (x : Value) : json (list Value) := Done (vs ++ [x]).
Definition holder (vs : list Value) (x : Value) : Prop :=
  match v_parent x with
  | None => vs = [] /\ v_key x = []
  | Some p => exists y, vs !! p = Some y /\ is_container (v_kind y) = true /\ (v_kind y = Array -> v_key x = [])
  end /\ length (v_key x) <= KEY_MAX /\ (v_kind x = String_ -> length (v_text x) <= TEXT_MAX).
Definition good_values (vs : list Value) : Prop := forall i x, vs !! i = Some x -> holder (take i vs) x.
Lemma good_snoc vs x : good_values vs -> holder vs x -> good_values (vs ++ [x]).
Proof.
  intros Hg Hx i y Hi. apply lookup_app_Some in Hi as [Hi|[Hge Hi]].
  - rewrite take_app_le by (apply lookup_lt_Some in Hi; lia). by apply Hg.
  - apply list_lookup_singleton_Some in Hi as [Hz <-]. replace i with (length vs) by lia. by rewrite take_app_length.
Qed.

(** The loop's state: the reader is as deep as the stack, which holds containers already visited. *)
Record walking (r : Reader) (stack : list (nat * bool)) (count : nat) (first : bool) (vs : list Value) : Prop := {
  wk_depth : depth r = length stack; wk_max : length stack <= WALK_DEPTH; wk_count : count = length vs; wk_few : count <= VALUES_MAX;
  wk_stack : forall p o, (p, o) ∈ stack -> exists y, vs !! p = Some y /\ v_kind y = if o : bool then Object else Array;
  wk_first : if first then stack = [] /\ vs = [] else vs <> []; wk_good : good_values vs }.

Lemma next_key_sound first stack r count vs o r' : walking r stack count first vs -> negb first && bool_decide (stack = []) = false -> next_key first stack r = Done (o, r') ->
  length (rest r') <= length (rest r) /\
  match o with
  | None => length (rest r') < length (rest r) /\ depth r' = length (tail stack)
  | Some k => depth r' = depth r /\ length k <= KEY_MAX /\ match head stack with Some (_, true) => True | _ => k = [] end
  end.
Proof.
  intros Hwk Hns H. unfold next_key in H. pose proof (wk_depth _ _ _ _ _ Hwk) as Hd. destruct first; cbn in Hns.
  - injection H as <- <-. destruct (wk_first _ _ _ _ _ Hwk) as [-> _]. cbn. split_and!; try done; lia.
  - apply bool_decide_eq_false in Hns. destruct stack as [|[p [|]] stack]; [done|..]; cbn [length] in Hd.
    + apply (key_sound _ _ _ _ _ Hd) in H as [H1 H2]. split; [done|]. cbn. destruct o; [|done]. rewrite Hd. by destruct H2.
    + apply bind_done in H as [[m r1] [Hi [= <- <-]]]. apply (item_sound _ _ _ _ Hd) in Hi as [H1 H2]. split; [done|]. cbn. rewrite Hd. destruct m; [|done]. split_and!; try done. cbn. lia.
Qed.

(** The value at hand is held by what the stack says. *)
Lemma walking_holder r stack count first vs k kd t : walking r stack count first vs -> length k <= KEY_MAX -> match head stack with Some (_, true) => True | _ => k = [] end ->
  (stack = [] -> first = true) -> (kd = String_ -> length t <= TEXT_MAX) -> holder vs (mkValue kd (fst <$> head stack) k t).
Proof.
  intros Hwk Hk Hkey Hfirst Ht. split; [|done]. cbn [v_parent v_key]. destruct stack as [|[p o] stack]; cbn in *.
  - rewrite (Hfirst eq_refl) in Hwk. by destruct (wk_first _ _ _ _ _ Hwk).
  - destruct (wk_stack _ _ _ _ _ Hwk p o (list_elem_of_here _ _)) as (y & Hy & Hky). exists y. split; [done|]. rewrite Hky. destruct o; by split.
Qed.

Definition walked (res : list Value * nat) : Prop := res.2 = length res.1 /\ res.2 <= VALUES_MAX /\ res.1 <> [] /\ good_values res.1.

Lemma next_key_safe first stack r : safe (next_key first stack r).
Proof. unfold next_key. destruct first; [done|]. destruct stack as [|[p [|]] stack]; [|apply key_safe|]; (apply safe_bind; [auto with mind|by intros [? ?] _]). Qed.

(** The next state of the loop, once the value's own text is read. *)
Lemma walking_next r stack count first vs r' stack' x : walking r stack count first vs -> count <> VALUES_MAX -> holder vs x -> depth r' = length stack' -> length stack' <= WALK_DEPTH ->
  (forall p o, (p, o) ∈ stack' -> (p, o) ∈ stack \/ p = count /\ v_kind x = if o : bool then Object else Array) -> walking r' stack' (S count) false (vs ++ [x]).
Proof.
  intros [] Hc Hx Hd Hm Hs. split; [done|done|rewrite length_app; cbn; lia|lia| |by destruct vs|by apply good_snoc].
  intros p o Hp. destruct (Hs p o Hp) as [Hin|[-> Hk]].
  - destruct (wk_stack0 p o Hin) as (y & Hy & Hk). exists y. split; [|done]. by apply lookup_app_l_Some.
  - exists x. split; [|done]. rewrite wk_count0. by rewrite lookup_app_r, Nat.sub_diag by lia.
Qed.

Lemma walk_n_spec fuel r stack count first vs : walking r stack count first vs -> length (rest r) + (if first then 2 else 1) <= fuel ->
  yields walked (walk_n collect fuel r stack count first vs).
Proof.
  revert r stack count first vs. induction fuel as [|fuel IH]; intros r stack count first vs Hwk Hf; [destruct first; lia|]. cbn [walk_n].
  destruct (negb first && bool_decide (stack = [])) eqn:Ens.
  { apply andb_true_iff in Ens as [->%negb_true_iff _]. apply yields_bind; [unfold end_; by case_match|]. intros r1 _. destruct Hwk. by split_and!. }
  assert (stack = [] -> first = true) as Hfirst by (intros ->; destruct first; [done|]; by cbn in Ens).
  apply yields_bind; [apply next_key_safe|]. intros [o r1] Ho. pose proof (next_key_sound _ _ _ _ _ _ _ Hwk Ens Ho) as [L1 Hn]. destruct o as [k|].
  - destruct Hn as (Hd1 & Hk & Hkey). destruct (Nat.eqb_spec count VALUES_MAX) as [|Hc]; [done|]. apply yields_bind; [auto with mind|]. intros [kd r2] (w & b & l & _ & Hp & _)%peek_sound.
    pose proof (passes_length _ _ _ Hp) as L2. destruct (passes_fields _ _ _ Hp) as (_ & _ & Hd2 & _). pose proof (wk_depth _ _ _ _ _ Hwk) as Hd. pose proof (wk_max _ _ _ _ _ Hwk) as Hmax.
    assert (depth r2 <= DEPTH) as HD by (unfold DEPTH; unfold WALK_DEPTH in Hmax; lia). apply yields_bind; [by apply value_text_safe|]. intros [t r3] Ht.
    apply (value_text_sound _ _ _ _ HD) in Ht as (Hd3 & Hshrink & Ht). cbn [collect mbind outcome_bind]. pose proof (walking_holder _ _ _ _ _ k kd t Hwk Hk Hkey Hfirst Ht) as Hx.
    destruct (is_container kd) eqn:Ec.
    + destruct Hshrink as [-> ->]. destruct (Nat.eqb_spec (length stack) WALK_DEPTH) as [|Hne]; [done|].
      replace (if bool_decide (kd = Object) then object r2 else array r2) with (open (if bool_decide (kd = Object) then 123 else 91)%Z r2) by (unfold object, array; destruct (bool_decide (kd = Object)); reflexivity).
      apply yields_bind; [auto with mind|]. intros r4 (w4 & _ & Hm & Hd4 & _)%open_sound. apply moves_length in Hm. rewrite length_app in Hm. cbn in Hm. apply IH.
      * eapply (walking_next _ stack _ _ _ _ _ _ Hwk Hc Hx); [cbn; lia|cbn; lia|]. intros p o' Hp'. apply elem_of_cons in Hp' as [[= -> ->]|Hp']; [|by left]. right. split; [done|]. by destruct kd.
      * destruct first; lia.
    + apply IH; [|destruct first; lia]. apply (walking_next _ _ _ _ _ _ _ _ Hwk Hc Hx); [lia|done|by left].
  - destruct Hn as [L2 Hd1]. destruct first; [by unfold next_key in Ho|]. apply IH; [|lia]. destruct Hwk. split; try done; [destruct stack; cbn in *; lia|].
    intros p o Hp. apply wk_stack0. destruct stack; [done|]. by apply list_elem_of_further.
Qed.

(** [walk] always returns, and the values it visits of an accepted text are numbered in order, at most [VALUES_MAX],
    each but the first in an object or array visited before it, keys only in objects and at most [KEY_MAX] bytes, strings at most
    [TEXT_MAX] bytes. *)
Theorem walk_bounded t : safe (walk collect t []) /\ forall vs n, walk collect t [] = Done (vs, n) ->
  n = length vs /\ n <= VALUES_MAX /\ vs <> [] /\ good_values vs.
Proof.
  assert (yields walked (walk collect t [])) as H; [|apply yields_iff in H as [H1 H2]; split; [done|]; intros vs n E; exact (H2 _ E)].
  unfold walk, reader_new. apply yields_bind; [apply safe_bind; auto with mind|]. intros r [cs [_ [= <-]]]%bind_done. apply walk_n_spec; [|unfold rest; cbn [at_ text]; rewrite drop_0; lia].
  split; try done; [cbn; lia|cbn; lia|]. by intros ? ? ?%not_elem_of_nil.
Qed.
