(* ===== verification/JsonWriter.v ===== *)
(** * The JSON writer of the agent ([effector/src/json.rs]: [Writer])

    A bounded writer that keeps the open containers and whether a comma or a key is due. A call gives the writer as it is
    afterwards, also after an error, and what it returns. Strings are lists of characters. The theorems: an [Order] leaves
    the writer as it was; where no call ran out of room or of levels, a text that [finish] gives out is one value of the
    JSON grammar and the parser's reader ([Json]) accepts it; strings and unsigned numbers are read back as they were
    written. After [Full] or [Nesting] a writer that is used on may give out what is no JSON ([written_on_after_error]). *)
From S2P Require Import Prelude Text Outcome Json.
Local Open Scope nat_scope.

Definition WRITER_DEPTH : nat := 8.
Inductive WError : Type := Full | Nesting | Order.
Inductive Frame : Type := FObject | FArray.
#[global] Instance Frame_eq_dec : EqDecision Frame.
Proof. solve_decision. Defined.

(** [buf] is what is written, [cap] the buffer's length; the innermost container is the stack's first. *)
Record Writer : Type := mkWriter { cap : nat; buf : bytes; stack : list Frame; first : bool; keyed : bool; done_ : bool }.

(** A call: the writer after it and its answer; [?] between two steps. *)
Abbreviation wop := (Writer -> Writer * result WError unit).
Definition fails (e : WError) : wop := fun w => (w, Err e).
Definition modify (f : Writer -> Writer) : wop := fun w => (f w, Ok tt).
Definition ok : wop := modify id.
Definition and_then (a b : wop) : wop := fun w => match a w with (w, Ok _) => b w | (w, Err e) => (w, Err e) end.
#[local] Notation "a ;;; b" := (and_then a b) (at level 100, b at level 200, right associativity).

Definition writer_new (c : nat) : Writer := mkWriter c [] [] true false false.
Definition finish (w : Writer) : result WError bytes := if negb (length (stack w) =? 0) || negb (done_ w) then Err Order else Ok (buf w).

Definition write (b : bytes) : wop := fun w =>
  if cap w <? length (buf w) + length b then (w, Err Full) else (mkWriter (cap w) (buf w ++ b) (stack w) (first w) (keyed w) (done_ w), Ok tt).
Definition set_first (f : bool) (w : Writer) : Writer := mkWriter (cap w) (buf w) (stack w) f (keyed w) (done_ w).
Definition set_keyed (k : bool) (w : Writer) : Writer := mkWriter (cap w) (buf w) (stack w) (first w) k (done_ w).

(** A comma, but before the first. *)
Definition comma_due : wop := fun w => (if first w then ok else write [44%Z]) w.

(** [value]: before a value. *)
Definition before_value : wop := fun w =>
  if done_ w then fails Order w else
  match stack w with
  | [] => ok w
  | FObject :: _ => if negb (keyed w) then fails Order w else modify (set_keyed false) w
  | FArray :: _ => (comma_due ;;; modify (set_first false)) w
  end.
Definition closed (w : Writer) : Writer := if length (stack w) =? 0 then mkWriter (cap w) (buf w) (stack w) (first w) (keyed w) true else w.

(** [quoted], a character at a time. *)
Definition hex_char (d : Z) : Z := if (d <? 10)%Z then (48 + d)%Z else (87 + d)%Z.
Definition quoted_char (c : Z) : bytes :=
  (if c =? 34 then [92; 34] else if c =? 92 then [92; 92] else if c =? 10 then [92; 110] else if c =? 13 then [92; 114] else if c =? 9 then [92; 116]
   else if (c <? 0x20) || (c =? 0x7f) then [92; 117; 48; 48; hex_char (Z.land (Z.shiftr c 4) 15); hex_char (Z.land c 15)]
   else encode_utf8 c)%Z.
Fixpoint quoted_chars (s : list Z) : wop :=
  match s with [] => ok | c :: s => write (quoted_char c) ;;; quoted_chars s end.
Definition quoted (s : list Z) : wop := write [34%Z] ;;; quoted_chars s ;;; write [34%Z].

Definition open_frame (f : Frame) (w : Writer) : Writer := mkWriter (cap w) (buf w) (f :: stack w) true (keyed w) (done_ w).
Definition push_frame (f : Frame) (b : bytes) : wop :=
  before_value ;;;
  (fun w => if length (stack w) =? WRITER_DEPTH then fails Nesting w else (write b ;;; modify (open_frame f)) w).
Definition w_object : wop := push_frame FObject [123%Z].
Definition w_array : wop := push_frame FArray [91%Z].

Definition w_end : wop := fun w =>
  match stack w with
  | [] => fails Order w
  | f :: fs =>
      if bool_decide (f = FObject) && keyed w then fails Order w else
      (write (if bool_decide (f = FObject) then [125%Z] else [93%Z]) ;;;
       modify (fun w => closed (mkWriter (cap w) (buf w) fs false (keyed w) (done_ w)))) w
  end.

Definition w_key (k : list Z) : wop := fun w =>
  if negb (bool_decide (head (stack w) = Some FObject)) || keyed w then fails Order w else
  (comma_due ;;; modify (set_first false) ;;; quoted k ;;; write [58%Z] ;;; modify (set_keyed true)) w.

(** The scalar values. The digit loops fill a buffer from its end: the digits of the number. *)
Definition scalar (out : wop) : wop := before_value ;;; out ;;; modify closed.
Definition w_string (s : list Z) : wop := scalar (quoted s).
Definition w_boolean (v : bool) : wop := scalar (write (if v then [116; 114; 117; 101] else [102; 97; 108; 115; 101])%Z).
Definition w_null : wop := scalar (write [110; 117; 108; 108]%Z).
Definition digits_of (v : Z) : bytes := decimal 20 v.
Definition w_unsigned (v : Z) : wop := scalar (write (digits_of v)).
Definition w_signed (v : Z) : wop :=
  if (0 <=? v)%Z then w_unsigned v else scalar (write [45%Z] ;;; write (digits_of (- v))).
Definition w_decimal (thousandths : Z) : wop :=
  let f := (thousandths mod 1000)%Z in
  scalar (write (digits_of (thousandths / 1000) ++ [46; 48 + f / 100; 48 + f / 10 mod 10; 48 + f mod 10]%Z)).

(** A call of the writer's interface; a sequence of calls that ends at the first one without room or too deep, and one
    that goes on whatever they answer. *)
Inductive Call : Type :=
| CObject | CArray | CEnd | CKey (k : list Z) | CString (s : list Z) | CBoolean (v : bool) | CNull | CUnsigned (v : Z) | CSigned (v : Z) | CDecimal (v : Z).
Definition call (c : Call) : wop :=
  match c with
  | CObject => w_object | CArray => w_array | CEnd => w_end | CKey k => w_key k | CString s => w_string s | CBoolean v => w_boolean v
  | CNull => w_null | CUnsigned v => w_unsigned v | CSigned v => w_signed v | CDecimal v => w_decimal v
  end.
Fixpoint calls (cs : list Call) : wop :=
  match cs with
  | [] => ok
  | c :: cs => fun w => match call c w with (w, Err Full) => (w, Err Full) | (w, Err Nesting) => (w, Err Nesting) | (w, _) => calls cs w end
  end.
Definition attempts (cs : list Call) (w : Writer) : Writer := foldl (fun w c => (call c w).1) w cs.
(** The arguments are what their Rust types hold: characters are scalar values, numbers fit 64 bits. *)
Definition typed (c : Call) : Prop :=
  match c with
  | CKey s | CString s => Forall scalar_value s
  | CUnsigned v | CDecimal v => (0 <= v < W64)%Z
  | CSigned v => (- 2 ^ 63 <= v < 2 ^ 63)%Z
  | _ => True
  end.

(** ** Scalars *)
Lemma write_ok b w w' : write b w = (w', Ok tt) -> w' = mkWriter (cap w) (buf w ++ b) (stack w) (first w) (keyed w) (done_ w).
Proof. unfold write. case_match; [done|]. by intros [= <-]. Qed.
Lemma seq_ok (a b : wop) w w' : (a ;;; b) w = (w', Ok tt) -> exists w1, a w = (w1, Ok tt) /\ b w1 = (w', Ok tt).
Proof. unfold and_then. destruct (a w) as [w1 [[]|e]]; [eauto|done]. Qed.

Definition put_out (w : Writer) (b : bytes) (w' : Writer) : Prop := w' = mkWriter (cap w) (buf w ++ b) (stack w) (first w) (keyed w) (done_ w).
Lemma comma_ok w w' : comma_due w = (w', Ok tt) -> put_out w (if first w then [] else [44%Z]) w'.
Proof. unfold comma_due, put_out. destruct (first w) eqn:E; [|by intros ->%write_ok; rewrite E]. intros [= <-]. rewrite app_nil_r. destruct w. cbn in *. by subst. Qed.
Lemma quoted_chars_ok s w w' : quoted_chars s w = (w', Ok tt) -> put_out w (flat_map quoted_char s) w'.
Proof.
  revert w. induction s as [|c s IH]; intros w; cbn.
  - intros [= <-]. unfold put_out. rewrite app_nil_r. by destruct w.
  - intros [w1 [->%write_ok H]]%seq_ok. apply IH in H. unfold put_out in *. cbn in H. by rewrite <- app_assoc in H.
Qed.
Definition quote (s : list Z) : bytes := 34%Z :: flat_map quoted_char s ++ [34%Z].
Lemma quoted_ok s w w' : quoted s w = (w', Ok tt) -> put_out w (quote s) w'.
Proof.
  unfold quoted. intros [w1 [->%write_ok [w2 [H2%quoted_chars_ok ->%write_ok]]%seq_ok]]%seq_ok. unfold put_out in *. subst w2. cbn. by rewrite <- !app_assoc.
Qed.

Lemma hex_char_digit d : (0 <= d < 16)%Z -> hex_digit (hex_char d) = Some d.
Proof.
  intros Hd. unfold hex_char, hex_digit, is_digit, between. destruct (Z.ltb_spec d 10).
  - replace ((48 <=? 48 + d) && (48 + d <=? 57))%Z with true by lia. f_equal. lia.
  - replace ((48 <=? 87 + d) && (87 + d <=? 57))%Z with false by lia. replace ((97 <=? 87 + d) && (87 + d <=? 102))%Z with true by lia. f_equal. lia.
Qed.
Lemma chars_plain bs s d : Forall (fun b => 32 <= b /\ b <> 34 /\ b <> 92)%Z bs -> chars s d -> chars (bs ++ s) (bs ++ d).
Proof. intros Hb Hs. induction Hb as [|b bs (H1 & H2 & H3) _ IH]; [done|]. cbn. by constructor. Qed.
Lemma encode_plain c : (32 <= c)%Z -> c <> 34%Z -> c <> 92%Z -> Forall (fun b => 32 <= b /\ b <> 34 /\ b <> 92)%Z (encode_utf8 c).
Proof.
  intros H1 H2 H3. unfold encode_utf8. repeat case_match; repeat constructor; try lia; try by_division.
Qed.
Lemma quoted_char_reads c s d : scalar_value c -> chars s d -> chars (quoted_char c ++ s) (encode_utf8 c ++ d).
Proof.
  intros Hc Hs. assert (forall b, short_escape b = Some c -> chars ([92%Z; b] ++ s) (encode_utf8 c ++ d)) as Hshort by (intros b Hb; by apply (c_escape [b]); [constructor|]).
  unfold scalar_value, from_u32 in Hc. destruct (_ && _) eqn:Hr; [|done]. unfold between in Hr. unfold quoted_char.
  destruct (Z.eqb_spec c 34) as [->|]; [by apply Hshort|]. destruct (Z.eqb_spec c 92) as [->|]; [by apply Hshort|]. destruct (Z.eqb_spec c 10) as [->|]; [by apply Hshort|].
  destruct (Z.eqb_spec c 13) as [->|]; [by apply Hshort|]. destruct (Z.eqb_spec c 9) as [->|]; [by apply Hshort|].
  destruct (_ || _) eqn:E.
  - pose proof (Z.land_ones c 4 ltac:(lia)) as L1. pose proof (Z.land_ones (Z.shiftr c 4) 4 ltac:(lia)) as L2. change (Z.ones 4) with 15%Z in *. rewrite L1, L2, Z.shiftr_div_pow2 by lia.
    change (2 ^ 4)%Z with 16%Z. set (h := (c / 16 mod 16)%Z). set (l := (c mod 16)%Z). apply (c_escape (117%Z :: [48; 48; hex_char h; hex_char l]%Z)); [|done]. apply e_unit; [|unfold between; lia].
    exists 48%Z, 48%Z, (hex_char h), (hex_char l), 0%Z, 0%Z, h, l. split_and!; [done|done|done|apply hex_char_digit, Z.mod_pos_bound; lia|apply hex_char_digit, Z.mod_pos_bound; lia|].
    subst h l. by_division.
  - apply chars_plain; [|done]. apply encode_plain; lia.
Qed.
Lemma quote_reads s : Forall scalar_value s -> chars (flat_map quoted_char s ++ [34%Z]) (flat_map encode_utf8 s).
Proof. induction 1 as [|c s Hc _ IH]; cbn; [constructor|]. rewrite <- app_assoc. by apply quoted_char_reads. Qed.

Lemma decimal_int n v : (0 <= v < 10 ^ Z.of_nat n)%Z -> n <> 0 -> int_part (decimal n v).
Proof.
  intros Hv Hn. assert (forall n v, (0 < v < 10 ^ Z.of_nat n)%Z -> exists b d, decimal n v = b :: d /\ between 49 57 b = true /\ Forall (fun b => is_digit b = true) d) as Hpos.
  { clear. induction n as [|n IH]; intros v Hv; [cbn in Hv; lia|]. cbn [decimal]. rewrite Nat2Z.inj_succ, Z.pow_succ_r in Hv by lia.
    pose proof (Z.mod_pos_bound v 10 ltac:(lia)). destruct (Z.eqb_spec (v / 10) 0) as [E|E].
    - exists (48 + v mod 10)%Z, []. split_and!; [done|unfold between; by_division|constructor].
    - destruct (IH (v / 10)%Z) as (b & d & -> & Hb & Hd); [by_division|]. exists b, (d ++ [(48 + v mod 10)%Z]). split_and!; [done|done|]. apply Forall_app. split; [done|]. constructor; [|done]. unfold is_digit, between. lia. }
  destruct (decide (v = 0)%Z) as [->|Hne]; [left; by destruct n|right]. apply Hpos. lia.
Qed.
Lemma digits_int v : (0 <= v < W64)%Z -> int_part (digits_of v).
Proof. intros Hv. apply decimal_int; [|done]. unfold W64 in Hv. lia. Qed.
Lemma int_number i : int_part i -> jnumber i.
Proof. intros Hi. exists [], i, [], []. rewrite !app_nil_r. split_and!; auto; by left. Qed.
Lemma minus_number i : int_part i -> jnumber (45%Z :: i).
Proof. intros Hi. exists [45%Z], i, [], []. rewrite !app_nil_r. split_and!; auto; by left. Qed.
Lemma frac_number i d : int_part i -> some_digits d -> jnumber (i ++ 46%Z :: d).
Proof. intros Hi Hd. exists [], i, (46%Z :: d), []. rewrite app_nil_r. split_and!; auto; [right; eauto|by left]. Qed.

(** ** The invariant: what is written can be completed to a value of the grammar *)

(** What may follow inside a container, its closing bracket included. *)
Definition rest_of (f : Frame) : nat -> bool -> bytes -> Prop := match f with FArray => items | FObject => members end.
(** [q] is a whole value where the containers of [fs] are open: however they are completed, a value of the grammar results. *)
Fixpoint after (fs : list Frame) (q : bytes) : Prop :=
  match fs with
  | [] => value WRITER_DEPTH q
  | f :: fs' => forall x, rest_of f (WRITER_DEPTH - length fs) true x -> after fs' (q ++ x)
  end.
Definition pending (w : Writer) : Prop :=
  match stack w with
  | [] => if done_ w then value WRITER_DEPTH (buf w) else buf w = []
  | f :: fs =>
      done_ w = false /\
      if keyed w then f = FObject /\ first w = false /\ forall v, value (WRITER_DEPTH - length (stack w)) v -> after (stack w) (buf w ++ v)
      else forall x, rest_of f (WRITER_DEPTH - length (stack w)) (negb (first w)) x -> after fs (buf w ++ x)
  end.
Definition inv (w : Writer) : Prop := is_Some (utf8 (buf w)) /\ length (stack w) <= WRITER_DEPTH /\ (stack w = [] -> keyed w = false) /\ pending w.

Lemma inv_new c : inv (writer_new c).
Proof. split_and!; [by eexists|cbn; lia|done|done]. Qed.

(** A whole value was written. *)
Lemma inv_value w : is_Some (utf8 (buf w)) -> length (stack w) <= WRITER_DEPTH -> keyed w = false -> done_ w = false -> (stack w <> [] -> first w = false) ->
  after (stack w) (buf w) -> inv (closed w).
Proof.
  destruct w as [c q [|f fs] fi ke dn]; cbn; intros Hu Hl -> -> Hf Ha; unfold closed; cbn.
  - by split_and!.
  - rewrite (Hf ltac:(done)). split_and!; [done|done|done|]. by split.
Qed.

(** Items and members that go on with a value. *)
Lemma items_go n m v x : value n v -> items n true x -> items n m ((if m then [44%Z] else []) ++ v ++ x).
Proof. intros Hv Hx. apply (i_next n m []); [constructor| |done|done]. destruct m; [|done]. exists []. split; [done|constructor]. Qed.
Lemma members_go n m k v x : Forall scalar_value k -> value n v -> members n true x -> members n m (((if m then [44%Z] else []) ++ quote k ++ [58%Z]) ++ v ++ x).
Proof.
  intros Hk Hv Hx. replace (((if m then [44%Z] else []) ++ quote k ++ [58%Z]) ++ v ++ x) with ([] ++ (if m then [44%Z] else []) ++ 34%Z :: (flat_map quoted_char k ++ [34%Z]) ++ [] ++ 58%Z :: [] ++ v ++ x).
  - eapply m_next; [constructor| |by apply quote_reads|constructor|constructor|done|done]. destruct m; [|done]. exists []. split; [done|constructor].
  - unfold quote. cbn. rewrite <- !app_assoc. f_equal. cbn. f_equal. by rewrite <- !app_assoc.
Qed.

Lemma before_value_ok w w1 : inv w -> before_value w = (w1, Ok tt) ->
  stack w1 = stack w /\ is_Some (utf8 (buf w1)) /\ keyed w1 = false /\ done_ w1 = false /\ (stack w <> [] -> first w1 = false) /\
  forall v, value (WRITER_DEPTH - length (stack w)) v -> after (stack w) (buf w1 ++ v).
Proof.
  intros (Hu & Hl & Hk & Hp). unfold before_value, pending in *. destruct (done_ w) eqn:Hd; [done|]. destruct (stack w) as [|[|] fs] eqn:Hs.
  - intros [= <-]. rewrite Hp. split; [done|]. split; [by eexists|]. split; [by apply Hk|]. split_and!; [done|done|]. intros v Hv. exact Hv.
  - destruct (keyed w) eqn:Hke; [|done]. intros [= <-]. destruct Hp as (_ & _ & Hf & Hv). cbn. by split_and!.
  - destruct Hp as [_ Hp]. destruct (keyed w) eqn:Hke; [by destruct Hp|]. intros [w2 [H2 [= <-]]]%seq_ok.
    apply comma_ok in H2 as E2.
    unfold put_out in E2. subst w2. cbn [set_first stack buf keyed done_ first]. split_and!; auto; [apply utf8_valid_app; [done|destruct (first w); by eexists]|]. intros v Hv x Hx. rewrite <- !app_assoc. apply Hp.
    pose proof (items_go _ (negb (first w)) v x Hv Hx) as H. by destruct (first w).
Qed.

Lemma scalar_inv out v w w' : (forall w w', out w = (w', Ok tt) -> put_out w v w') -> (forall n, value n v) -> is_Some (utf8 v) -> inv w -> scalar out w = (w', Ok tt) -> inv w'.
Proof.
  intros Hout Hv Hu Hi [w1 [H1 [w2 [->%Hout [= <-]]]%seq_ok]]%seq_ok. pose proof Hi as (_ & Hl & _ & _). apply (before_value_ok _ _ Hi) in H1 as (Hs & Hu1 & Hk & Hd & Hf & Ha).
  apply inv_value; cbn; rewrite ?Hs; auto. by apply utf8_valid_app.
Qed.

Lemma push_inv f b w w' : (f = FObject /\ b = [123%Z] \/ f = FArray /\ b = [91%Z]) -> inv w -> push_frame f b w = (w', Ok tt) -> inv w'.
Proof.
  intros Hfb Hi [w1 [H1 H]]%seq_ok. pose proof Hi as (_ & Hl & _ & _). apply (before_value_ok _ _ Hi) in H1 as (Hs & Hu1 & Hk & Hd & _ & Ha). rewrite Hs in H.
  destruct (Nat.eqb_spec (length (stack w)) WRITER_DEPTH) as [|Hne]; [done|]. apply seq_ok in H as [w2 [->%write_ok [= <-]]]. unfold inv, pending. cbn. rewrite Hs, Hk, Hd.
  split_and!; [apply utf8_valid_app; [done|by destruct Hfb as [[_ ->]|[_ ->]]; eexists]|lia|done|done|]. intros x Hx. rewrite <- app_assoc. apply Ha.
  replace (WRITER_DEPTH - length (stack w)) with (S (WRITER_DEPTH - S (length (stack w)))) by lia. destruct Hfb as [[-> ->]|[-> ->]]; by constructor.
Qed.

Lemma end_inv w w' : inv w -> w_end w = (w', Ok tt) -> inv w'.
Proof.
  intros (Hu & Hl & _ & Hp). unfold w_end, pending in *. destruct (stack w) as [|f fs] eqn:Hs; [done|]. destruct Hp as [Hd Hp].
  destruct (bool_decide (f = FObject) && keyed w) eqn:E; [done|]. intros [w1 [->%write_ok [= <-]]]%seq_ok. cbn [buf cap stack first keyed done_].
  destruct (keyed w) eqn:Hk; [by destruct Hp as [-> _]|]. cbn in Hl. apply inv_value; cbn; auto; [apply utf8_valid_app; [done|case_bool_decide; by eexists]|lia|].
  apply Hp. case_bool_decide as Hf; [subst f; apply (m_end _ _ []); constructor|]. destruct f; [done|]. apply (i_end _ _ []). constructor.
Qed.

Lemma quote_utf8 k : Forall scalar_value k -> is_Some (utf8 (quote k)).
Proof.
  intros Hk. apply (utf8_valid_app [34%Z]); [by eexists|]. apply utf8_valid_app; [|by eexists]. induction Hk as [|c k Hc _ IH]; [by eexists|]. cbn. apply utf8_valid_app; [|done].
  unfold scalar_value, from_u32 in Hc. destruct (_ && _) eqn:Hr; [|done]. unfold between in Hr. unfold quoted_char. repeat (case_match; [apply utf8_ascii; repeat constructor; lia|]).
  case_match eqn:E.
  - assert (forall d, 0 <= d < 16 -> 0 <= hex_char d < 128)%Z as Hh by (intros d Hd; unfold hex_char; case_match; lia).
    apply utf8_ascii. repeat constructor; try lia; apply Hh; change 15%Z with (Z.ones 4); rewrite Z.land_ones by lia; by apply Z.mod_pos_bound.
  - rewrite utf8_encode; [by eexists|]. unfold scalar_value, from_u32, between. by rewrite Hr.
Qed.

Lemma key_inv k w w' : Forall scalar_value k -> inv w -> w_key k w = (w', Ok tt) -> inv w'.
Proof.
  intros Hk (Hu & Hl & _ & Hp). unfold w_key, pending in *. destruct (stack w) as [|[|] fs] eqn:Hs; [done| |done]. cbn [head]. destruct (keyed w) eqn:Hke; [done|]. destruct Hp as [Hd Hp].
  rewrite bool_decide_eq_true_2 by done. cbn [negb orb]. intros [w1 [H1 [w0 [[= <-] [w2 [H2%quoted_ok [w3 [->%write_ok [= <-]]]%seq_ok]]%seq_ok]]%seq_ok]]%seq_ok.
  apply comma_ok in H1 as E1.
  unfold put_out in E1, H2. subst w1. cbn in H2. subst w2. unfold inv, pending. cbn. rewrite Hs, Hd. split_and!; try done.
  - repeat apply utf8_valid_app; [done|destruct (first w); by eexists|by apply quote_utf8|by eexists].
  - intros v Hv x Hx. rewrite <- !app_assoc. apply Hp. pose proof (members_go _ (negb (first w)) k v x Hk Hv Hx) as H. rewrite <- !app_assoc in H. by destruct (first w).
Qed.

Lemma ascii_number n : jnumber n -> is_Some (utf8 n).
Proof.
  assert (forall d, Forall (fun b => is_digit b = true) d -> Forall (fun b => 0 <= b < 128)%Z d) as Hdig by (intros d Hd; eapply Forall_impl; [exact Hd|]; intros b Hb; unfold is_digit, between in Hb; lia).
  intros (m & i & f & x & -> & Hm & Hi & Hf & Hx). apply utf8_ascii. repeat apply Forall_app_2.
  - destruct Hm as [-> | ->]; repeat constructor; lia.
  - destruct Hi as [->|(b & d & -> & Hb & Hd)]; [repeat constructor; lia|]. constructor; [unfold between in Hb; lia|by apply Hdig].
  - destruct Hf as [->|(d & -> & _ & Hd)]; [constructor|]. constructor; [lia|by apply Hdig].
  - destruct Hx as [->|(e & s & d & -> & He & Hs & _ & Hd)]; [constructor|]. constructor; [lia|]. apply Forall_app_2; [|by apply Hdig]. destruct Hs as [->|[->| ->]]; repeat constructor; lia.
Qed.
Lemma write_put b w w' : write b w = (w', Ok tt) -> put_out w b w'.
Proof. apply write_ok. Qed.
Lemma number_inv n w w' : jnumber n -> inv w -> scalar (write n) w = (w', Ok tt) -> inv w'.
Proof. intros Hn. apply (scalar_inv _ n); [apply write_put|intros; by apply v_number|by apply ascii_number]. Qed.

Lemma call_inv c w w' : typed c -> inv w -> call c w = (w', Ok tt) -> inv w'.
Proof.
  intros Ht Hi. assert (forall v, 0 <= v < W64 -> w_unsigned v w = (w', Ok tt) -> inv w')%Z as Hun by (intros v Hv; apply number_inv; [by apply int_number, digits_int|done]).
  destruct c as [| | |k|s|v| |v|v|v]; cbn [call typed] in *.
  - apply push_inv; auto.
  - apply push_inv; auto.
  - by apply end_inv.
  - by apply key_inv.
  - apply (scalar_inv _ (quote s)); [intros; by apply quoted_ok|intros n; by eapply v_string, quote_reads|by apply quote_utf8|done].
  - apply (scalar_inv _ (if v then [116; 114; 117; 101] else [102; 97; 108; 115; 101])%Z); [apply write_put|intros; destruct v; constructor|destruct v; by eexists|done].
  - apply (scalar_inv _ [110; 117; 108; 108]%Z); [apply write_put|constructor|by eexists|done].
  - by apply Hun.
  - unfold w_signed. destruct (Z.leb_spec 0 v); [apply Hun; unfold W64; lia|]. assert (jnumber (45%Z :: digits_of (- v))) as Hn by (apply minus_number, digits_int; unfold W64; lia).
    apply (scalar_inv _ (45%Z :: digits_of (- v))); [|intros; by apply v_number|by apply ascii_number|done].
    intros w1 w2 [w3 [->%write_ok ->%write_ok]]%seq_ok. unfold put_out. cbn [buf cap stack first keyed done_]. by rewrite <- app_assoc.
  - apply number_inv; [|done]. apply frac_number; [apply digits_int; unfold W64 in *; by_division|]. split; [done|]. repeat constructor; unfold is_digit, between; by_division.
Qed.
(** An [Order] leaves the writer as it was: whatever comes after the checks fails for other reasons. *)
Definition no_order (a : wop) : Prop := forall w w', a w <> (w', Err Order).
Lemma no_order_seq a b : no_order a -> no_order b -> no_order (a ;;; b).
Proof. intros Ha Hb w w'. unfold and_then. destruct (a w) as [w1 [[]|e]] eqn:E; [apply Hb|]. intros [= -> ->]. by apply Ha in E. Qed.
Lemma no_order_modify f : no_order (modify f).
Proof. by intros w w'. Qed.
Lemma no_order_write b : no_order (write b).
Proof. intros w w'. unfold write. by case_match. Qed.
Lemma no_order_comma : no_order comma_due.
Proof. intros w w'. unfold comma_due. destruct (first w); [apply no_order_modify|apply no_order_write]. Qed.
Lemma no_order_quoted s : no_order (quoted s).
Proof. repeat apply no_order_seq; try apply no_order_write. induction s as [|c s IH]; [apply no_order_modify|]. apply no_order_seq; [apply no_order_write|done]. Qed.
Lemma before_value_order w w' : before_value w = (w', Err Order) -> w' = w.
Proof.
  unfold before_value. destruct (done_ w); [by intros [= <-]|]. destruct (stack w) as [|[|] fs]; [done|destruct (keyed w); [done|by intros [= <-]]|].
  intros H. by apply (no_order_seq _ _ no_order_comma (no_order_modify _)) in H.
Qed.
Lemma value_order out w w' : no_order out -> (before_value ;;; out) w = (w', Err Order) -> w' = w.
Proof. intros Ho. unfold and_then. destruct (before_value w) as [w1 [[]|e]] eqn:E; [intros H; by apply Ho in H|]. intros [= -> ->]. by apply before_value_order. Qed.
Lemma call_order c w w' : call c w = (w', Err Order) -> w' = w.
Proof.
  assert (forall f b, no_order (fun w => if length (stack w) =? WRITER_DEPTH then fails Nesting w else (write b ;;; modify (open_frame f)) w)) as Hpush.
  { intros f b w1 w2. case_match; [done|]. apply no_order_seq; [apply no_order_write|apply no_order_modify]. }
  assert (forall out, no_order out -> scalar out w = (w', Err Order) -> w' = w) as Hsc by (intros out Ho; apply value_order, no_order_seq; [done|apply no_order_modify]).
  destruct c as [| | |k|s|v| |v|v|v]; cbn [call]; try (apply Hsc; apply no_order_quoted || apply no_order_write).
  - apply value_order, Hpush.
  - apply value_order, Hpush.
  - unfold w_end. destruct (stack w) as [|f fs]; [by intros [= <-]|]. destruct (_ && _); [by intros [= <-]|]. intros H. by apply (no_order_seq _ _ (no_order_write _) (no_order_modify _)) in H.
  - unfold w_key. destruct (_ || _); [by intros [= <-]|]. intros H. exfalso.
    exact (no_order_seq _ _ no_order_comma (no_order_seq _ _ (no_order_modify _) (no_order_seq _ _ (no_order_quoted k) (no_order_seq _ _ (no_order_write _) (no_order_modify _)))) _ _ H).
  - unfold w_signed. case_match; apply Hsc; repeat apply no_order_seq; apply no_order_write.
Qed.

Lemma calls_inv cs w w' : Forall typed cs -> inv w -> calls cs w = (w', Ok tt) -> inv w'.
Proof.
  intros Hc. revert w. induction Hc as [|c cs Ht _ IH]; intros w Hi; cbn [calls]; [by intros [= <-]|]. destruct (call c w) as [w1 [[]|[| |]]] eqn:E; [|done|done|].
  - apply IH. by eapply call_inv.
  - apply call_order in E as ->. by apply IH.
Qed.

Lemma value_mono : (forall n v, value n v -> forall m, n <= m -> value m v) /\ (forall n f b, items n f b -> forall m, n <= m -> items m f b) /\
  (forall n f b, members n f b -> forall m, n <= m -> members m f b).
Proof.
  apply grammar_ind; intros; try (econstructor; eauto; done).
  - match goal with H : S _ <= ?m |- value ?m _ => destruct m; [lia|] end. apply v_array. match goal with IH : forall m, _ -> items m _ _ |- _ => apply IH; lia end.
  - match goal with H : S _ <= ?m |- value ?m _ => destruct m; [lia|] end. apply v_object. match goal with IH : forall m, _ -> members m _ _ |- _ => apply IH; lia end.
Qed.

(** ** The theorems *)

(** C40: what the writer gives out is JSON. Take any calls none of which ran out of room or of levels; one out of order
    may have been refused, and changed nothing. A text [finish] then gives out is one value of the JSON grammar nested at
    most [WRITER_DEPTH] deep, and the parser's reader accepts it. *)
Theorem writer_writes_json c cs w out : Forall typed cs -> calls cs (writer_new c) = (w, Ok tt) -> finish w = Ok out ->
  value WRITER_DEPTH out /\ exists r, (r ← reader_new out; r ← skip r; end_ r) = Done r.
Proof.
  intros Ht Hc Hf. apply (calls_inv _ _ _ Ht (inv_new c)) in Hc as (Hu & _ & _ & Hp). unfold finish in Hf. destruct (length (stack w) =? 0) eqn:El; [|done]. destruct (done_ w) eqn:Hd; [|done].
  injection Hf as <-. unfold pending in Hp. rewrite Hd in Hp. destruct (stack w); [|done]. split; [done|]. apply read_whole. split; [done|]. exists [], (buf w), []. rewrite app_nil_r.
  split_and!; [constructor| |constructor|done]. apply (proj1 value_mono _ _ Hp). unfold WRITER_DEPTH, DEPTH. lia.
Qed.

(** a string and an unsigned number are read back as they were written: the reader's [string] gives the UTF-8 of the
    characters and its [integer] the number. *)
Theorem written_read_back c s v w1 w2 : Forall scalar_value s -> (0 <= v < W64)%Z -> w_string s (writer_new c) = (w1, Ok tt) -> w_unsigned v (writer_new c) = (w2, Ok tt) ->
  (exists r, string (length (flat_map encode_utf8 s)) (mkReader (buf w1) 0 0 0) = Done (flat_map encode_utf8 s, r)) /\
  exists r, integer (mkReader (buf w2) 0 0 0) = Done (v, r).
Proof.
  intros Hs Hv [w3 [[= <-] [w4 [H4%quoted_ok [= <-]]]%seq_ok]]%seq_ok [w5 [[= <-] [w6 [H6%write_ok [= <-]]]%seq_ok]]%seq_ok. unfold put_out in H4. subst w4 w6. cbn [buf app writer_new closed length stack Nat.eqb]. split.
  - eexists. apply (string_into_complete _ _ [] (flat_map quoted_char s ++ [34%Z]) _ []); [constructor|by apply quote_reads| |done]. by rewrite app_nil_r.
  - set (r0 := mkReader (digits_of v) 0 0 0). assert (jnumber (digits_of v)) as Hn by (by apply int_number, digits_int). eexists. unfold integer.
    rewrite (number_complete r0 [] (digits_of v) []); [|constructor|done|by rewrite app_nil_r|done]. cbn [mbind outcome_bind].
    replace (forallb is_digit (digits_of v)) with true; [|symmetry; apply forallb_forall; intros b Hb%list_elem_of_In; revert b Hb; apply Forall_forall, (decimal_digits 20 v); lia]. cbn [negb].
    unfold digits_of. rewrite parse_decimal_digits; [done|done|]. unfold W64 in Hv. lia.
Qed.

(** An object with a boolean, an array of numbers and a string that needs escapes. *)
Definition demo_calls : list Call :=
  [CObject; CKey [111; 107]%Z; CBoolean true; CKey [110]%Z; CArray; CUnsigned 1; CSigned (-2); CEnd; CKey [97]%Z; CString [34; 9; 233]%Z; CEnd].
Lemma demo_typed : Forall typed demo_calls.
Proof. repeat constructor; unfold W64; cbn; lia. Qed.
Lemma writer_writes_json_witness : exists w out, calls demo_calls (writer_new 64) = (w, Ok tt) /\ finish w = Ok out /\ value WRITER_DEPTH out.
Proof.
  eexists _, _. split; [vm_compute; reflexivity|]. split; [vm_compute; reflexivity|].
  refine (proj1 (writer_writes_json 64 demo_calls _ _ demo_typed _ _)); [vm_compute; reflexivity|reflexivity].
Defined.

(** Eight objects deep, an object more is refused, but its key counts as used: the writer then closes the innermost as
    an object with a key and no value, and [finish] gives that out. A string cut where its next character did not fit is
    given out too, when the bracket after it fits. *)
Definition nested : list Call := concat (replicate 7 [CObject; CKey [107]%Z]) ++ [CObject; CKey [107]%Z].
Lemma written_on_after_error : let w := attempts (nested ++ [CObject] ++ replicate 8 CEnd) (writer_new 64) in
  (call CObject (attempts nested (writer_new 64))).2 = Err Nesting /\
  finish w = Ok (concat (replicate 8 [123; 34; 107; 34; 58]%Z) ++ replicate 8 125%Z) /\ ~ exists r, (r ← reader_new (buf w); r ← skip r; end_ r) = Done r.
Proof.
  split; [vm_compute; reflexivity|]. split; [vm_compute; reflexivity|]. intros [r H]. vm_compute in H. discriminate H.
Qed.
Lemma cut_string_given_out : finish (attempts [CArray; CString [97; 1]%Z; CEnd] (writer_new 6)) = Ok [91; 34; 97; 93]%Z.
Proof. vm_compute. reflexivity. Qed.
Lemma written_read_back_witness : exists r, integer (mkReader [49; 50]%Z 0 0 0) = Done (12%Z, r).
Proof.
  refine (proj2 (written_read_back 8 [34; 9; 233]%Z 12 (mkWriter 8 [34; 92; 34; 92; 116; 195; 169; 34]%Z [] true false true) (mkWriter 8 [49; 50]%Z [] true false true) _ _ _ _)); [repeat constructor|unfold W64; lia|vm_compute; reflexivity|].
  vm_compute. reflexivity.
Defined.
