(* ===== verification/Zone.v ===== *)
(** * What a file client may change ([vfs_server/src/zone.rs], with its uses in [vfs_server/src/main.rs])

    The zone of a handle, the zone of each name below a directory for a client's badge, the zones along a path (the part
    of [Server::walk] that decides access), the zone of a volume's root and the zone a scope gives. Names are their
    characters; [char::to_lowercase] is a parameter, as is the slot the system did not boot from. The file system itself
    (which names exist) is not here: access is refused by zone before it is asked. The theorems: below the boot disk a
    client writes exactly in the three places the badges name, and a scope never reaches more than the handle it is of. *)
From S2P Require Import Prelude Text.

(** Badges ([libmind/src/fs.rs], [vfs_server/src/main.rs]). *)
Definition BADGE_USER : Z := 1.
Definition BADGE_KEYSTORE : Z := 2.
Definition BADGE_NETPOLICY : Z := 3.
Definition BADGE_UPDATE : Z := 4.
Definition BADGE_EFFECTOR : Z := 6.
Definition BADGE_EFFECTOR_GW : Z := 7.
Definition BADGE_OWNERS : Z := 8.
Definition BADGE_TIMED : Z := 9.
Definition SCOPE_BADGE_FIRST : Z := 0x100.

Inductive Zone : Type := ReadOnly | Writable | BootRoot | BootReadOnly | System | Hidden | Slots | Record_.
#[global] Instance Zone_eq_dec : EqDecision Zone.
Proof. solve_decision. Defined.

(** Names the code compares with. *)
Definition DATA : list Z := [100; 97; 116; 97].
Definition SYSTEM : list Z := [115; 121; 115; 116; 101; 109].
Definition MIND : list Z := [77; 73; 78; 68].
Definition BOOT0 : list Z := [66; 79; 79; 84; 48].
Definition BOOT1 : list Z := [66; 79; 79; 84; 49].
Definition PRIVATE : list (list Z * Z) :=
  [([107; 101; 121; 115; 116; 111; 114; 101], BADGE_KEYSTORE);
   ([110; 101; 116; 112; 111; 108; 105; 99; 121], BADGE_NETPOLICY);
   ([101; 102; 102; 101; 99; 116; 111; 114], BADGE_EFFECTOR);
   ([101; 102; 102; 101; 99; 116; 111; 114; 95; 103; 119], BADGE_EFFECTOR_GW);
   ([111; 119; 110], BADGE_OWNERS);
   ([116; 105; 109; 101; 100], BADGE_TIMED)].

Section zones.
Context (to_lower : Z -> list Z) (inactive : option (list Z)).
Implicit Types (name : list Z) (badge : Z).

(** [fat::same_name]. *)
Definition same_name (a b : list Z) : bool := same_ascii a b || bool_decide (flat_map to_lower a = flat_map to_lower b).

Definition private_owner name : option Z := snd <$> List.find (fun '(dir, _) => same_name name dir) PRIVATE.
Definition is_inactive name : bool := match inactive with Some slot => same_name name slot | None => false end.

(** [Zone::below]. *)
Definition below (zone : Zone) name badge : Zone :=
  match zone with
  | BootRoot =>
      if same_name name DATA then Writable else if same_name name SYSTEM then System else ReadOnly
  | BootReadOnly =>
      if same_name name SYSTEM then System
      else if (badge =? BADGE_UPDATE) && bool_decide (is_Some inactive) && same_name name MIND then Slots else ReadOnly
  | System => match private_owner name with Some owner => if owner =? badge then Writable else Hidden | None => Hidden end
  | Slots => if is_inactive name then Writable else if same_name name BOOT0 || same_name name BOOT1 then Record_ else ReadOnly
  | Record_ => ReadOnly
  | zone => zone
  end.

(** The zones along [parts], as [Server::walk] goes: [None] where it refuses. *)
Fixpoint walk_zone (zone : Zone) badge (parts : list (list Z)) : option Zone :=
  match parts with
  | [] => Some zone
  | part :: parts => let next := below zone part badge in if decide (next = Hidden) then None else walk_zone next badge parts
  end.

(** The zone of a volume's root ([Request::Root]): the boot disk is the volume without a name. *)
Definition MODELS : list Z := [109; 111; 100; 101; 108; 115].
Definition root_zone (volume : list Z) badge : Zone :=
  let user := badge =? BADGE_USER in
  if decide (volume = []) then (if user then BootRoot else BootReadOnly)
  else if negb user then ReadOnly else if decide (volume = MODELS) then ReadOnly else Writable.

(** The zone of a scope ([Request::Scope]). *)
Definition scope_zone (writable : bool) (zone : Zone) : Zone :=
  match zone with
  | Writable => if writable then Writable else ReadOnly
  | BootRoot | BootReadOnly => BootReadOnly
  | System => System
  | _ => ReadOnly
  end.

(** ** Zones that stay *)
Lemma walk_stays zone badge parts : zone = Writable \/ zone = ReadOnly -> walk_zone zone badge parts = Some zone.
Proof. intros Hz. induction parts as [|p parts IH]; [done|]. cbn [walk_zone below]. destruct Hz as [-> | ->]; cbn; by rewrite decide_False. Qed.
Lemma walk_record badge parts z : walk_zone Record_ badge parts = Some z -> z <> Writable.
Proof. destruct parts as [|p parts]; cbn [walk_zone below]; [by intros [= <-]|]. rewrite walk_stays by auto. by intros [= <-]. Qed.
Lemma walk_to badge parts zone : zone <> Hidden -> (if decide (zone = Hidden) then None else walk_zone zone badge parts) = walk_zone zone badge parts.
Proof. intros Hz. by rewrite decide_False. Qed.

Lemma walk_system badge parts : walk_zone System badge parts = Some Writable <-> exists d r, parts = d :: r /\ private_owner d = Some badge.
Proof.
  destruct parts as [|d r]; cbn [walk_zone below]; [split; [done|by intros (? & ? & [=] & _)]|]. destruct (private_owner d) as [o|] eqn:E.
  - destruct (Z.eqb_spec o badge) as [->|Hne].
    + rewrite walk_to, walk_stays by (done || auto). split; [eauto|done].
    + rewrite decide_True by done. split; [done|]. intros (d' & r' & [= <- <-] & H). congruence.
  - rewrite decide_True by done. split; [done|]. intros (d' & r' & [= <- <-] & H). congruence.
Qed.
Lemma walk_slots badge parts : walk_zone Slots badge parts = Some Writable <-> exists s r, parts = s :: r /\ is_inactive s = true.
Proof.
  destruct parts as [|s r]; cbn [walk_zone below]; [split; [done|by intros (? & ? & [=] & _)]|]. destruct (is_inactive s) eqn:E; [rewrite walk_to, walk_stays by (done || auto); split; [eauto|done]|].
  destruct (_ || _); rewrite walk_to by done; [|rewrite walk_stays by auto]; (split; [|intros (s' & r' & [= <- <-] & H); congruence]); [|done].
  intros H. by apply walk_record in H.
Qed.

Lemma owner_badges name badge : private_owner name = Some badge -> 2 <= badge <= 9.
Proof.
  unfold private_owner. destruct (List.find _ _) as [[dir o]|] eqn:E; [|done]. intros [= <-]. apply List.find_some in E as [Hin _]. cbn [In PRIVATE] in Hin.
  repeat (destruct Hin as [Hin|Hin]; [injection Hin as _ <-; vm_compute; intuition discriminate|]). done.
Qed.

(** ** The theorems *)

(** below the boot disk's root a client reaches a writable directory or file in exactly these places: the user's
    badge below [data]; a service's badge below its own private directory of [system]; the update badge below the slot the
    system did not boot from. *)
Theorem zone_writable badge parts : walk_zone (root_zone [] badge) badge parts = Some Writable <->
  (badge = BADGE_USER /\ exists n r, parts = n :: r /\ same_name n DATA = true) \/
  (exists s d r, parts = s :: d :: r /\ same_name s SYSTEM = true /\ private_owner d = Some badge) \/
  (badge = BADGE_UPDATE /\ exists m s r slot, parts = m :: s :: r /\ inactive = Some slot /\ same_name m MIND = true /\ same_name m SYSTEM = false /\ same_name s slot = true).
Proof.
  assert (forall s, is_inactive s = true <-> exists slot, inactive = Some slot /\ same_name s slot = true) as Hin.
  { intros s. unfold is_inactive. destruct inactive as [slot|]; [|split; [done|by intros (? & ? & _)]]. split; [eauto|]. by intros (slot' & [= <-] & H). }
  assert (forall d, private_owner d = Some BADGE_USER -> False) as Huser. { intros d Hd%owner_badges. unfold BADGE_USER in Hd. lia. }
  unfold root_zone. rewrite decide_True by done. destruct (Z.eqb_spec badge BADGE_USER) as [->|Hu].
  - destruct parts as [|n r]; cbn [walk_zone below]; [split; [done|]; intros [(_ & n & r & [=] & _)|[(s & d & r & [=] & _)|([=] & _)]]|].
    destruct (same_name n DATA) eqn:Ed; [rewrite walk_to, walk_stays by (done || auto); split; [left; eauto|done]|]. destruct (same_name n SYSTEM) eqn:Es; rewrite walk_to by done.
    + rewrite walk_system. split; [intros (d & r' & _ & H); by apply Huser in H|]. intros [(_ & n' & r' & [= <- <-] & H)|[(s & d & r' & _ & _ & H)|([=] & _)]]; [congruence|by apply Huser in H].
    + rewrite walk_stays by auto. split; [done|]. intros [(_ & n' & r' & [= <- <-] & H)|[(s & d & r' & [= <- ->] & H & _)|([=] & _)]]; congruence.
  - destruct parts as [|n r]; cbn [walk_zone below]; [split; [done|]; intros [(? & _)|[(s & d & r & [=] & _)|(_ & m & s & r & slot & [=] & _)]]; done|].
    destruct (same_name n SYSTEM) eqn:Es; [rewrite walk_to, walk_system by done|].
    + split; [intros (d & r' & -> & H); right; left; eauto 10|]. intros [(? & _)|[(s & d & r' & [= <- ->] & _ & H)|(_ & m & s & r' & slot & [= <- ->] & _ & _ & H & _)]]; [done|eauto|congruence].
    + destruct (_ && _) eqn:Em.
      * apply andb_true_iff in Em as [[->%Z.eqb_eq _]%andb_true_iff Hm]. rewrite walk_to, walk_slots by done. split.
        -- intros (s & r' & -> & (slot & Hi & Hs)%Hin). right. right. eauto 10.
        -- intros [(? & _)|[(s & d & r' & [= <- ->] & H & _)|(_ & m & s & r' & slot & [= <- ->] & Hi & _ & _ & Hs)]]; [done|congruence|]. exists s, r'. split; [done|]. apply Hin. eauto.
      * rewrite walk_to, walk_stays by (done || auto). split; [done|]. intros [(? & _)|[(s & d & r' & [= <- ->] & H & _)|(-> & m & s & r' & slot & [= <- ->] & Hi & Hm & _ & _)]]; [done|congruence|].
        rewrite Hi, Hm, bool_decide_eq_true_2 in Em by (by eexists). done.
Qed.

(** a scope never reaches more than the handle it was made of: what a scoped client may write below it the handle's
    client may write, and what it may open the handle's client may open. *)
Theorem scope_no_more zone badge scoped writable parts : SCOPE_BADGE_FIRST <= scoped -> zone <> Hidden ->
  (walk_zone (scope_zone writable zone) scoped parts = Some Writable -> walk_zone zone badge parts = Some Writable) /\
  (is_Some (walk_zone (scope_zone writable zone) scoped parts) -> is_Some (walk_zone zone badge parts)).
Proof.
  intros Hscope Hz. unfold SCOPE_BADGE_FIRST in Hscope.
  assert (forall d, private_owner d <> Some scoped) as Hno by (intros d Hd%owner_badges; lia).
  assert (forall parts, parts <> [] -> walk_zone System scoped parts = None) as Hsys.
  { intros [|d r] Hne; [done|]. cbn [walk_zone below]. destruct (private_owner d) as [o|] eqn:E; [|by rewrite decide_True]. destruct (Z.eqb_spec o scoped) as [->|]; [by destruct (Hno d)|by rewrite decide_True]. }
  assert (forall parts, walk_zone System scoped parts <> Some Writable) as Hsysw by (intros [|d r]; [done|by rewrite Hsys]).
  assert (forall z r, is_Some (walk_zone System scoped r) -> z <> Hidden -> is_Some (walk_zone z badge r)) as Hopen.
  { intros z [|d r] H Hz'; [by eexists|]. rewrite Hsys in H by done. by destruct H. }
  assert (forall z r, z = ReadOnly \/ z = Writable \/ z = Slots \/ z = Record_ -> is_Some (walk_zone z badge r)) as Hfree.
  { intros z r [->|[->|[->| ->]]]; [rewrite walk_stays by auto; by eexists..| |]; (destruct r as [|s r]; [by eexists|]); cbn [walk_zone below].
    - destruct (is_inactive s); [rewrite walk_to, walk_stays by (done || auto); by eexists|]. destruct (_ || _); rewrite walk_to by done; [|rewrite walk_stays by auto; by eexists].
      destruct r as [|s' r]; [by eexists|]. cbn [walk_zone below]. rewrite walk_to, walk_stays by (done || auto). by eexists.
    - rewrite walk_stays by auto. by eexists. }
  assert (forall z, z = ReadOnly \/ z = Slots \/ z = Record_ -> (Some ReadOnly = Some Writable -> walk_zone z badge parts = Some Writable) /\ (is_Some (Some ReadOnly) -> is_Some (walk_zone z badge parts))) as Hro by (intros z Hz'; split; [done|intros _; apply Hfree; tauto]).
  assert (forall z, z = BootRoot \/ z = BootReadOnly -> (walk_zone BootReadOnly scoped parts = Some Writable -> walk_zone z badge parts = Some Writable) /\ (is_Some (walk_zone BootReadOnly scoped parts) -> is_Some (walk_zone z badge parts))) as Hboot.
  { intros z Hz'. destruct parts as [|n r]; [split; [done|by eexists]|]. cbn [walk_zone below]. replace (scoped =? BADGE_UPDATE) with false by (unfold BADGE_UPDATE; lia). cbn [andb]. destruct (same_name n SYSTEM) eqn:Es.
    - rewrite walk_to by done. split; [intros H; by apply Hsysw in H|]. intros H. destruct Hz' as [-> | ->]; cbn [walk_zone below]; rewrite Es; [|rewrite walk_to by done; by apply Hopen].
      destruct (same_name n DATA); rewrite walk_to by done; by apply Hopen.
    - rewrite walk_to, walk_stays by (done || auto). split; [done|]. intros _. destruct Hz' as [-> | ->]; cbn [walk_zone below]; rewrite Es; match goal with |- context [if ?b then _ else ReadOnly] => destruct b end; rewrite walk_to by done; apply Hfree; tauto. }
  destruct zone; cbn [scope_zone]; try done; try (rewrite walk_stays by auto; apply Hro; tauto); try (apply Hboot; tauto).
  - rewrite walk_stays by (destruct writable; auto). split; [destruct writable; [|done]|]; intros _; [by apply walk_stays; auto|]. apply Hfree; tauto.
  - split; [intros H; by apply Hsysw in H|]. intros H. by apply Hopen.
Qed.
End zones.

Lemma scope_no_more_witness : walk_zone (fun c => [c]) None (scope_zone true BootRoot) 0x100 [SYSTEM; [111; 119; 110]] = None /\
  (is_Some (walk_zone (fun c => [c]) None (scope_zone true BootRoot) 0x100 [DATA]) -> is_Some (walk_zone (fun c => [c]) None BootRoot BADGE_USER [DATA])).
Proof. split; [reflexivity|]. refine (proj2 (scope_no_more (fun c => [c]) None BootRoot BADGE_USER 0x100 true [DATA] _ _)); [unfold SCOPE_BADGE_FIRST; lia|discriminate]. Defined.
