(* ===== verification/Path.v ===== *)
(** * Paths from a current directory ([libmind/src/path.rs])

    [cd] and the file commands of the shell and the console. A path is its characters. The theorems: from a directory in
    normal form the result is in normal form or the path comes back as typed, and going along [a] and then along [b] is
    going along [a/b]; a leading [/] does not keep a name with a colon on the boot disk. *)
From S2P Require Import Prelude Text.
Local Open Scope nat_scope.

Definition COLON : Z := 58.
Definition SLASH : Z := 47.
Definition DOT : list Z := [46%Z].
Definition DOTDOT : list Z := [46; 46]%Z.

(** [split]: the volume and the rest. *)
Definition split (path : list Z) : list Z * list Z :=
  match position (Z.eqb COLON) path with
  | Some i => if bool_decide (SLASH ∈ take i path) then ([], path) else (take i path, drop (i + 1) path)
  | None => ([], path)
  end.

Definition join (volume : list Z) (parts : list (list Z)) : list Z :=
  (if decide (volume = []) then [] else map lower volume ++ [COLON]) ++ join_with SLASH parts.

(** [str::trim]. *)
Fixpoint trim_start (s : list Z) : list Z := match s with c :: r => if is_whitespace c then trim_start r else s | [] => [] end.
Definition trim (s : list Z) : list Z := reverse (trim_start (reverse (trim_start s))).

(** The parts walked, on a stack; [None] above the root. *)
Fixpoint walk (parts rest : list (list Z)) : option (list (list Z)) :=
  match rest with
  | [] => Some parts
  | p :: rest =>
      if decide (p = [] \/ p = DOT) then walk parts rest
      else if decide (p = DOTDOT) then (match last parts with None => None | Some _ => walk (removelast parts) rest end)
      else walk (parts ++ [p]) rest
  end.
Definition dir_parts (d : list Z) : list (list Z) := filter (fun p => p <> [] /\ p <> DOT) (split_on SLASH d).

(** [resolve]. *)
Definition resolve (cwd path : list Z) : list Z :=
  let path := trim path in
  let '(volume, rest) := split path in
  let absolute := negb (bool_decide (volume = [])) || bool_decide (head path = Some SLASH) in
  let '(volume, parts) := if absolute then (volume, []) else (let '(v, d) := split cwd in (v, dir_parts d)) in
  match walk parts (split_on SLASH rest) with None => path | Some parts => join volume parts end.

(** [relative], [shown], [prompt], [split_word]. *)
Definition relative (word : list Z) : bool :=
  negb (bool_decide (word = [])) && negb (bool_decide (head word = Some 45%Z)) && negb (bool_decide (head word = Some SLASH)) && bool_decide ((split word).1 = []).
Definition shown (cwd : list Z) : list Z := let '(volume, dir) := split cwd in if decide (volume = []) then SLASH :: dir else cwd.
Definition prompt (cwd : list Z) : list Z := if decide (cwd = []) then [] else 32%Z :: cwd.
Definition rposition (c : Z) (s : list Z) : option nat := (fun i => length s - 1 - i) <$> position (Z.eqb c) (reverse s).
Definition split_word (word : list Z) : list Z * list Z :=
  match rposition SLASH word with
  | Some i => (take (i + 1) word, drop (i + 1) word)
  | None => match position (Z.eqb COLON) word with Some i => (take (i + 1) word, drop (i + 1) word) | None => ([], word) end
  end.

(** ** Parts *)

(** A name a directory can hold, and a directory in the form [resolve] gives it. *)
Definition clean (p : list Z) : Prop := p <> [] /\ p <> DOT /\ p <> DOTDOT /\ SLASH ∉ p /\ COLON ∉ p.
Definition normal (volume : list Z) (parts : list (list Z)) : Prop := COLON ∉ volume /\ SLASH ∉ volume /\ Forall clean parts.

Lemma position_notin c s : c ∉ s -> position (Z.eqb c) s = None.
Proof. intros H. apply position_None, Forall_forall. intros x Hx. apply Z.eqb_neq. intros ->. done. Qed.
Lemma position_app c a r : c ∉ a -> position (Z.eqb c) (a ++ c :: r) = Some (length a).
Proof.
  induction a as [|x a IH]; intros H; cbn; [by rewrite Z.eqb_refl|]. rewrite elem_of_cons in H. destruct (Z.eqb_spec c x); [tauto|]. rewrite IH by tauto. done.
Qed.

Lemma split_plain s : COLON ∉ s -> split s = ([], s).
Proof. intros H. unfold split. by rewrite position_notin. Qed.
Lemma split_volume v s : COLON ∉ v -> SLASH ∉ v -> split (v ++ COLON :: s) = (v, s).
Proof.
  intros Hc Hs. unfold split. rewrite position_app, take_app_length by done. rewrite bool_decide_eq_false_2 by done. f_equal.
  rewrite drop_app_ge by lia. replace (length v + 1 - length v) with 1 by lia. done.
Qed.

Lemma lower_in c s : c ∈ map lower s -> (c < 97 \/ 122 < c)%Z -> c ∈ s.
Proof.
  intros (x & Hx & Hin)%list_elem_of_fmap Hc. unfold lower in Hx. destruct (between 65 90 x) eqn:E; [unfold between in E; lia|]. by subst.
Qed.
Lemma lower_idem s : map lower (map lower s) = map lower s.
Proof. rewrite map_map. apply map_ext. intros c. unfold lower. destruct (between 65 90 c) eqn:E; [|by rewrite E]. unfold between in *. by replace ((65 <=? c + 32) && (c + 32 <=? 90))%Z with false by lia. Qed.

Lemma join_with_in c d parts : c ∈ join_with d parts -> c = d \/ exists p, p ∈ parts /\ c ∈ p.
Proof.
  induction parts as [|p [|q parts] IH]; [by intros ?%not_elem_of_nil|intros H; right; exists p; split; [apply list_elem_of_here|done]|].
  change (join_with d (p :: q :: parts)) with (p ++ d :: join_with d (q :: parts)). rewrite elem_of_app, elem_of_cons. intros [H|[->|H]]; [|by left|].
  - right. exists p. split; [apply list_elem_of_here|done].
  - destruct (IH H) as [->|(x & Hx & Hc)]; [by left|]. right. exists x. split; [by apply list_elem_of_further|done].
Qed.
Lemma join_no_colon parts : Forall clean parts -> COLON ∉ join_with SLASH parts.
Proof. intros H [E|(p & Hp & Hc)]%join_with_in; [done|]. rewrite Forall_forall in H. by destruct (H p Hp) as (_ & _ & _ & _ & ?). Qed.

(** A normal directory is read back: its volume in lower case, its parts. *)
Lemma split_join_dir v parts : normal v parts -> split (join v parts) = (map lower v, join_with SLASH parts).
Proof.
  intros (Hc & Hs & Hp). unfold join. destruct (decide (v = [])) as [->|Hne].
  - rewrite app_nil_l. apply split_plain. by apply join_no_colon.
  - rewrite <- app_assoc. apply split_volume; intros H%lower_in; try done; unfold COLON, SLASH; lia.
Qed.
Lemma dir_parts_join parts : Forall clean parts -> dir_parts (join_with SLASH parts) = parts.
Proof.
  intros Hp. unfold dir_parts. destruct parts as [|p parts]; [done|]. rewrite split_join; [|done|].
  - apply filter_every. intros x Hx. rewrite Forall_forall in Hp. destruct (Hp x Hx) as (? & ? & _). done.
  - eapply Forall_impl; [exact Hp|]. by intros x (_ & _ & _ & ? & _).
Qed.

Lemma split_on_app c a b : split_on c (a ++ c :: b) = split_on c a ++ split_on c b.
Proof.
  induction a as [|x a IH]; cbn; [by rewrite Z.eqb_refl|]. destruct (x =? c)%Z; [by rewrite IH|]. rewrite IH. pose proof (split_on_nonempty c a). by destruct (split_on c a).
Qed.
Lemma walk_app parts a b : walk parts (a ++ b) = walk parts a ≫= fun parts => walk parts b.
Proof.
  revert parts. induction a as [|p a IH]; intros parts; [done|]. cbn. repeat case_decide; try apply IH. destruct (last parts); [apply IH|done].
Qed.
Lemma forall_removelast {A} (P : A -> Prop) l : Forall P l -> Forall P (removelast l).
Proof. induction 1 as [|x [|y l] Hx Hl IH]; [done|done|]. by constructor. Qed.
Lemma walk_clean parts rest parts' : Forall clean parts -> Forall (fun p => SLASH ∉ p /\ COLON ∉ p) rest -> walk parts rest = Some parts' -> Forall clean parts'.
Proof.
  intros Hp Hr. revert parts Hp. induction Hr as [|p rest [Hs Hc] _ IH]; intros parts Hp; cbn; [by intros [= <-]|].
  case_decide as H1; [by apply IH|]. case_decide as H2; [destruct (last parts); [|done]; apply IH; by apply forall_removelast|].
  apply IH. apply Forall_app. split; [done|]. constructor; [|done]. by split_and!; [tauto|tauto|..].
Qed.

(** A path to take from the current directory, as typed: no spaces around it, no volume, not from the root. *)
Definition plain (a : list Z) : Prop :=
  COLON ∉ a /\ (exists c, head a = Some c /\ is_whitespace c = false /\ c <> SLASH) /\ (exists e, last a = Some e /\ is_whitespace e = false).

Lemma trim_plain a c e : head a = Some c -> is_whitespace c = false -> last a = Some e -> is_whitespace e = false -> trim a = a.
Proof.
  intros Hc Hwc He Hwe. unfold trim. assert (forall l x, head l = Some x -> is_whitespace x = false -> trim_start l = l) as Hid by (intros [|y l] x [= ->] H; cbn; by rewrite H).
  rewrite (Hid a c Hc Hwc). rewrite (Hid (reverse a) e); [apply reverse_involutive| |done]. by rewrite head_reverse.
Qed.
Lemma split_parts a : COLON ∉ a -> Forall (fun p => SLASH ∉ p /\ COLON ∉ p) (split_on SLASH a).
Proof.
  intros Ha. pose proof (split_on_parts SLASH a) as Hs. apply Forall_forall. intros p Hp. rewrite Forall_forall in Hs. split; [by apply Hs|]. intros Hc. apply Ha.
  rewrite <- (join_split SLASH a). clear -Hp Hc. induction (split_on SLASH a) as [|q [|q' l] IH]; [by apply not_elem_of_nil in Hp|apply list_elem_of_singleton in Hp as ->; done|].
  change (join_with SLASH (q :: q' :: l)) with (q ++ SLASH :: join_with SLASH (q' :: l)). rewrite elem_of_app, elem_of_cons. apply elem_of_cons in Hp as [->|Hp]; [by left|]. right; right. by apply IH.
Qed.

Lemma resolve_plain cwd a v d : plain a -> split cwd = (v, d) ->
  resolve cwd a = match walk (dir_parts d) (split_on SLASH a) with None => a | Some parts => join v parts end.
Proof.
  intros (Hc & (c & Hh & Hwc & Hsl) & (e & Hl & Hwe)) Hd. unfold resolve. rewrite (trim_plain a c e) by done. rewrite split_plain by done. rewrite Hh.
  rewrite (bool_decide_eq_true_2 ([] = [])) by done. rewrite (bool_decide_eq_false_2 (Some c = Some SLASH)) by congruence. cbn [negb orb]. by rewrite Hd.
Qed.
Lemma plain_slash a b : plain a -> plain b -> plain (a ++ SLASH :: b).
Proof.
  intros (Hc & (c & Hh & Hwc & Hsl) & _) (Hc' & _ & (e & Hl & Hwe)). split_and!.
  - rewrite elem_of_app, elem_of_cons. unfold COLON, SLASH in *. intros [?|[?|?]]; done.
  - exists c. destruct a; [done|]. by split_and!.
  - exists e. split; [|done]. rewrite last_app. by destruct b as [|x b]; [|rewrite last_cons, Hl].
Qed.

Lemma normal_lower v parts : normal v parts -> normal (map lower v) parts.
Proof. intros (Hc & Hs & Hp). split_and!; [..|done]; intros H%lower_in; try done; unfold COLON, SLASH; lia. Qed.
Lemma join_lower v parts : join (map lower v) parts = join v parts.
Proof. unfold join. rewrite lower_idem. by destruct v. Qed.

(** ** The theorems *)

(** from a directory in normal form, going along [a] gives a directory in normal form of the same volume, unless [a]
    climbs above the root, when it comes back as typed; and going along [a] and then along [b] is going along [a/b] wherever
    that does not climb above the root. *)
Theorem cd_composes v parts a b : normal v parts -> plain a -> plain b ->
  ((exists parts', normal (map lower v) parts' /\ resolve (join v parts) a = join v parts') \/ (walk parts (split_on SLASH a) = None /\ resolve (join v parts) a = a)) /\
  (walk parts (split_on SLASH (a ++ SLASH :: b)) <> None -> resolve (resolve (join v parts) a) b = resolve (join v parts) (a ++ SLASH :: b)).
Proof.
  intros Hn Ha Hb. pose proof (plain_slash a b Ha Hb) as Hab. pose proof (split_join_dir v parts Hn) as Hd. pose proof Hn as (_ & _ & Hp).
  rewrite (resolve_plain _ a _ _ Ha Hd), (resolve_plain _ _ _ _ Hab Hd), dir_parts_join by done. rewrite split_on_app, walk_app.
  destruct (walk parts (split_on SLASH a)) as [parts'|] eqn:E; cbn [mbind option_bind]; [|split; [by right|done]]. rewrite !join_lower. destruct Ha as (Hca & _).
  assert (normal (map lower v) parts') as Hn' by (destruct (normal_lower _ _ Hn) as (? & ? & _); split_and!; [done|done|]; exact (walk_clean parts _ parts' Hp (split_parts a Hca) E)).
  split; [left; eauto|]. intros Hw. rewrite <- (join_lower v parts'). rewrite (resolve_plain _ b _ _ Hb (split_join_dir _ _ Hn')), dir_parts_join, lower_idem by apply Hn'.
  destruct (walk parts' (split_on SLASH b)); [done|]. done.
Qed.

(** a leading [/] does not start at the boot disk's root where the first name holds a colon: [/ram:x] comes back as
    [ram:x], the file [x] of the volume [ram]. *)
Theorem slash_reaches_volume cwd : resolve cwd [47; 114; 97; 109; 58; 120]%Z = [114; 97; 109; 58; 120]%Z /\
  split (resolve cwd [47; 114; 97; 109; 58; 120]%Z) = ([114; 97; 109], [120])%Z.
Proof. done. Qed.

(** [split_word] only cuts. *)
Lemma split_word_app w : (split_word w).1 ++ (split_word w).2 = w.
Proof. unfold split_word. destruct (rposition SLASH w); [apply take_drop|]. destruct (position _ w); [apply take_drop|done]. Qed.

(** Decides a closed proposition. *)
Ltac decided := refine (bool_decide_unpack _ _); vm_compute; exact I.
(** From [ram:n], along [../a] and then along [b]. *)
Lemma cd_composes_witness : resolve (resolve [114; 97; 109; 58; 110]%Z [46; 46; 47; 97]%Z) [98]%Z = [114; 97; 109; 58; 97; 47; 98]%Z.
Proof.
  refine (eq_trans (proj2 (cd_composes [114; 97; 109]%Z [[110]]%Z [46; 46; 47; 97]%Z [98]%Z _ _ _) _) eq_refl).
  - unfold normal. split_and!; [decided..|]. constructor; [|constructor]. unfold clean. split_and!; decided.
  - unfold plain. split_and!; [decided|exists 46%Z; split_and!; [reflexivity|reflexivity|discriminate]|exists 97%Z; split; reflexivity].
  - unfold plain. split_and!; [decided|exists 98%Z; split_and!; [reflexivity|reflexivity|discriminate]|exists 98%Z; split; reflexivity].
  - vm_compute. discriminate.
Defined.
