(* ===== verification/LogRing.v ===== *)
(** * The log service's ring ([logd/src/ring.rs])

    The last [SLOTS] records, numbered in sequence, and a rate limit per sender. A record's name and text are the bytes
    kept of them. The theorems: the ring is the end of the log of everything that was accepted, record by record, with the
    records dropped and refused counted; a sender is refused exactly while it has written [RATE] records in the second. *)
From S2P Require Import Prelude Text.
Local Open Scope nat_scope.

Definition SLOTS : nat := 2048.
Definition TEXT : nat := 200.
Definition NAME : nat := 16.
Definition RATE : Z := 64.
Definition SENDERS : nat := 32.
Definition INIT_PID : Z := 1.
Definition LEVEL_WARN : Z := 2.

Record LogRecord : Type := mkRecord { seq_ : nat; time_ms : Z; pid : Z; name : bytes; level : Z; text : bytes }.
Definition EMPTY : LogRecord := mkRecord 0 0 0 [] 0 [].

(** [clip]: without line endings at the end, cut at a character's start. *)
Fixpoint trim_lines (rev : bytes) : bytes := match rev with b :: r => if ((b =? 10) || (b =? 13))%Z then trim_lines r else rev | [] => [] end.
Definition is_boundary (s : bytes) (i : nat) : bool := match s !! i with Some b => negb (between 0x80 0xBF b) | None => i =? length s end.
Fixpoint boundary (s : bytes) (e : nat) : nat := match e with 0 => 0 | S e' => if is_boundary s e then e else boundary s e' end.
Definition clip (s : bytes) (max : nat) : bytes :=
  let s := reverse (trim_lines (reverse s)) in take (boundary s (Nat.min (length s) max)) s.

Record Sender : Type := mkSender { s_pid : Z; window : Z; count : Z; s_suppressed : Z }.
Record Ring : Type := mkRing { records : list LogRecord; next : nat; dropped : Z; suppressed : Z; senders : list Sender }.

Definition ring_new : Ring := mkRing (replicate SLOTS EMPTY) 0 0 0 (replicate SENDERS (mkSender 0 0 0 0)).
Definition first (r : Ring) : nat := next r - SLOTS.
Definition get (r : Ring) (seq : nat) : option LogRecord :=
  if (first r <=? seq) && (seq <? next r) then records r !! (seq mod SLOTS) else None.

(** [append], of a record whose number is the next. *)
Definition record_of (seq : nat) (time p : Z) (nm : bytes) (lv : Z) (tx : bytes) : LogRecord := mkRecord seq time p (clip nm NAME) (Z.min lv 3) (clip tx TEXT).
Definition append (r : Ring) (time p : Z) (nm : bytes) (lv : Z) (tx : bytes) : Ring :=
  mkRing (<[next r mod SLOTS := record_of (next r) time p nm lv tx]> (records r)) (next r + 1)
    (if SLOTS <=? next r then (dropped r + 1)%Z else dropped r) (suppressed r) (senders r).

(** The entry used longest ago ([min_by_key]: the first of the least). *)
Definition older (a b : Sender) : bool :=
  match (s_pid a =? 0)%Z, (s_pid b =? 0)%Z with
  | true, false => true
  | false, true => false
  | _, _ => (window a <? window b)%Z
  end.
Fixpoint oldest_from (best : nat) (bs : Sender) (i : nat) (l : list Sender) : nat :=
  match l with [] => best | s :: l => if older s bs then oldest_from i s (S i) l else oldest_from best bs (S i) l end.
Definition oldest (l : list Sender) : nat := match l with [] => 0 | s :: l => oldest_from 0 s 1 l end.

(** [format_note]. *)
Definition NOTE : bytes := [32; 114; 101; 99; 111; 114; 100; 115; 32; 114; 101; 102; 117; 115; 101; 100; 58; 32; 109; 111; 114; 101;
  32; 116; 104; 97; 110; 32; 54; 52; 32; 97; 32; 115; 101; 99; 111; 110; 100]%Z.
Definition format_note (n : Z) : bytes := take 64 (decimal 10 n ++ NOTE).

(** [push], with the entry the sender has or gets and whether its second is a new one; [None] is an index out of range. *)
Definition set_senders (l : list Sender) (r : Ring) : Ring := mkRing (records r) (next r) (dropped r) (suppressed r) l.
Definition entry_of (r : Ring) (w p : Z) : nat * Ring :=
  match position (fun s => s_pid s =? p)%Z (senders r) with
  | Some i => (i, r)
  | None => let i := oldest (senders r) in (i, set_senders (<[i := mkSender p w 0 0]> (senders r)) r)
  end.
Definition push (r : Ring) (time p : Z) (nm : bytes) (lv : Z) (tx : bytes) : option (Ring * bool) :=
  if (p =? INIT_PID)%Z then Some (append r time p nm lv tx, true) else
  let w := (time / 1000)%Z in
  let '(i, r) := entry_of r w p in
  match senders r !! i with
  | None => None
  | Some s =>
      let '(refused, s) := if (window s =? w)%Z then (0%Z, s) else (s_suppressed s, mkSender p w 0 0) in
      if (RATE <=? count s)%Z then
        Some (mkRing (records r) (next r) (dropped r) (suppressed r + 1) (<[i := mkSender (s_pid s) (window s) (count s) (s_suppressed s + 1)]> (senders r)), false)
      else
        let r := set_senders (<[i := mkSender (s_pid s) (window s) (count s + 1) (s_suppressed s)]> (senders r)) r in
        let r := if (0 <? refused)%Z then append r time p nm LEVEL_WARN (format_note refused) else r in
        Some (append r time p nm lv tx, true)
  end.

(** ** The ring as the end of a log *)
Record kept (r : Ring) (log : list LogRecord) : Prop := {
  k_len : length (records r) = SLOTS; k_next : next r = length log; k_dropped : dropped r = Z.of_nat (length log - SLOTS);
  k_get : forall seq, first r <= seq < next r -> records r !! (seq mod SLOTS) = log !! seq; k_seq : forall i x, log !! i = Some x -> seq_ x = i;
  k_senders : length (senders r) = SENDERS }.

Lemma kept_new : kept ring_new [].
Proof. by split; cbn; try done; try (rewrite length_replicate; done); lia. Qed.
Lemma kept_senders r log l n : kept r log -> length l = SENDERS -> kept (mkRing (records r) (next r) (dropped r) n l) log.
Proof. intros [] Hl. by split. Qed.

Lemma kept_append r log time p nm lv tx : kept r log -> kept (append r time p nm lv tx) (log ++ [record_of (length log) time p nm lv tx]).
Proof.
  intros []. unfold append. rewrite k_next0. assert (length log mod SLOTS < SLOTS) as Hm by (apply Nat.mod_upper_bound; done).
  split; cbn [records next dropped senders]; rewrite ?length_app, ?length_insert; cbn [length]; try done.
  - destruct (Nat.leb_spec SLOTS (length log)); lia.
  - unfold first in *. cbn [next]. intros seq Hs. destruct (decide (seq = length log)) as [->|Hne].
    + rewrite list_lookup_insert_eq by lia. by rewrite list_lookup_middle.
    + rewrite list_lookup_insert_ne.
      * rewrite k_get0 by lia. by rewrite lookup_app_l by lia.
      * intros E. pose proof (Nat.div_mod_eq (length log) SLOTS). pose proof (Nat.div_mod_eq seq SLOTS). unfold SLOTS in *. nia.
  - intros i x Hi. apply lookup_app_Some in Hi as [Hi|[Hge Hi]]; [by apply k_seq0|]. apply list_lookup_singleton_Some in Hi as [Hz <-]. cbn. lia.
Qed.

(** One push, and a run of pushes with their results. *)
Record Push : Type := mkPush { p_time : Z; p_pid : Z; p_name : bytes; p_level : Z; p_text : bytes }.
Definition do_push (r : Ring) (o : Push) : option (Ring * bool) := push r (p_time o) (p_pid o) (p_name o) (p_level o) (p_text o).
Fixpoint pushes (r : Ring) (ops : list Push) : option (Ring * list bool) :=
  match ops with [] => Some (r, []) | o :: ops => '(r, ok) ← do_push r o; '(r, oks) ← pushes r ops; Some (r, ok :: oks) end.
Definition record_at (n : nat) (o : Push) : LogRecord := record_of n (p_time o) (p_pid o) (p_name o) (p_level o) (p_text o).
Definition note_at (n : nat) (o : Push) (refused : Z) : LogRecord := record_of n (p_time o) (p_pid o) (p_name o) LEVEL_WARN (format_note refused).

(** The log of a run that began with [log]: every accepted record in order, a note before it where some were refused. *)
Inductive logged : list LogRecord -> list Push -> list bool -> list LogRecord -> Prop :=
| l_nil log : logged log [] [] log
| l_refused log o ops oks log' : logged log ops oks log' -> logged log (o :: ops) (false :: oks) log'
| l_plain log o ops oks log' : logged (log ++ [record_at (length log) o]) ops oks log' -> logged log (o :: ops) (true :: oks) log'
| l_noted log o ops oks log' n : (0 < n)%Z -> logged (log ++ [note_at (length log) o n] ++ [record_at (length log + 1) o]) ops oks log' -> logged log (o :: ops) (true :: oks) log'.

Lemma oldest_lt l : l <> [] -> oldest l < length l.
Proof.
  destruct l as [|s l]; [done|intros _]. cbn [oldest length]. assert (forall l best bs i n, best < n -> i + length l = n -> oldest_from best bs i l < n) as H; [|apply H; lia].
  clear. induction l as [|s l IH]; intros best bs i n Hb Hn; cbn in *; [done|]. destruct (older s bs); apply IH; lia.
Qed.
Lemma entry_ok r w p log : kept r log -> let '(i, r1) := entry_of r w p in
  kept r1 log /\ suppressed r1 = suppressed r /\ exists s, senders r1 !! i = Some s /\ s_pid s = p.
Proof.
  intros Hk. pose proof (k_senders _ _ Hk) as Hl. unfold entry_of. destruct (position _ _) as [i|] eqn:E.
  - apply position_Some in E as (s & Hs & Hp%Z.eqb_eq & _). eauto.
  - assert (oldest (senders r) < length (senders r)) as Ho by (apply oldest_lt; intros E0; by rewrite E0 in Hl). split_and!; [|done|].
    + apply kept_senders; [done|]. by rewrite length_insert.
    + eexists. split; [by apply list_lookup_insert_eq|done].
Qed.

Lemma ring_push_ok r log o : kept r log -> exists r' ok, do_push r o = Some (r', ok) /\
  (if ok then suppressed r' = suppressed r /\ (kept r' (log ++ [record_at (length log) o]) \/ exists n, (0 < n)%Z /\ kept r' (log ++ [note_at (length log) o n] ++ [record_at (length log + 1) o]))
   else suppressed r' = (suppressed r + 1)%Z /\ kept r' log).
Proof.
  intros Hk. unfold do_push, push. destruct (_ =? INIT_PID)%Z; [eexists _, true; split; [done|]; split; [done|left; by apply kept_append]|].
  pose proof (entry_ok r (p_time o / 1000) (p_pid o) log Hk) as He. destruct (entry_of _ _ _) as [i r1]. destruct He as (Hk1 & Hsup & s & Hs & _). rewrite Hs.
  destruct (if (_ =? _)%Z then _ else _) as [refused s'] eqn:Er. destruct (RATE <=? count s')%Z.
  - eexists _, false. split; [done|]. split; [cbn; lia|]. apply kept_senders; [done|]. rewrite length_insert. apply (k_senders _ _ Hk1).
  - set (r2 := set_senders _ r1). assert (kept r2 log) as Hk2 by (apply kept_senders; [done|]; rewrite length_insert; apply (k_senders _ _ Hk1)).
    destruct (Z.ltb_spec 0 refused) as [Hn|_].
    + eexists _, true. split; [done|]. split; [cbn; done|right]. exists refused. split; [done|]. pose proof (kept_append _ _ (p_time o) (p_pid o) (p_name o) LEVEL_WARN (format_note refused) Hk2) as Hk3.
      pose proof (kept_append _ _ (p_time o) (p_pid o) (p_name o) (p_level o) (p_text o) Hk3) as Hk4. rewrite length_app, <- app_assoc in Hk4. exact Hk4.
    + eexists _, true. split; [done|]. split; [cbn; done|left]. by apply kept_append.
Qed.

Lemma ring_pushes_ok ops r log : kept r log -> exists r' oks log', pushes r ops = Some (r', oks) /\ logged log ops oks log' /\ kept r' log' /\
  suppressed r' = (suppressed r + Z.of_nat (count_occ bool_dec oks false))%Z.
Proof.
  revert r log. induction ops as [|o ops IH]; intros r log Hk; [eexists _, [], log; split_and!; [done|constructor|done|cbn; lia]|].
  destruct (ring_push_ok r log o Hk) as (r1 & ok & E & H). cbn [pushes]. rewrite E. cbn [mbind option_bind]. destruct ok.
  - destruct H as [Hs [Hk1|(n & Hn & Hk1)]]; destruct (IH r1 _ Hk1) as (r2 & oks & log' & -> & Hl & Hk2 & Hsup); cbn [mbind option_bind]; eexists _, (true :: oks), log'; split_and!; try done; try (cbn; lia).
    + by apply l_plain.
    + by apply (l_noted _ _ _ _ _ n).
  - destruct H as [Hs Hk1]. destruct (IH r1 _ Hk1) as (r2 & oks & log' & -> & Hl & Hk2 & Hsup). cbn [mbind option_bind]. eexists _, (false :: oks), log'. split_and!; try done; [by constructor|].
    cbn [count_occ]. destruct (bool_dec false false); [|done]. lia.
Qed.

(** ** The theorems *)

(** whatever is pushed, no index is out of range, and the ring holds the end of the log of everything accepted:
    [get] gives the record with that number for the last [SLOTS] and nothing else, [dropped] counts what was overwritten,
    [suppressed] what was refused, and the log is the accepted records in order, numbered in sequence, with a note before the
    first one after refusals. *)
Theorem ring_is_log ops : exists r oks log, pushes ring_new ops = Some (r, oks) /\ logged [] ops oks log /\
  (forall seq, get r seq = if bool_decide (length log - SLOTS <= seq) then log !! seq else None) /\ (forall i x, log !! i = Some x -> seq_ x = i) /\
  dropped r = Z.of_nat (length log - SLOTS) /\ suppressed r = Z.of_nat (count_occ bool_dec oks false).
Proof.
  destruct (ring_pushes_ok ops ring_new [] kept_new) as (r & oks & log & E & Hl & Hk & Hs). exists r, oks, log. split_and!; [done|done| |apply (k_seq _ _ Hk)|apply (k_dropped _ _ Hk)|by rewrite Hs].
  intros seq. pose proof (k_next _ _ Hk) as Hn. pose proof (k_get _ _ Hk seq) as Hg. unfold get, first in *. rewrite Hn in *. case_bool_decide as H1.
  - rewrite (proj2 (Nat.leb_le _ _) H1). cbn [andb]. destruct (Nat.ltb_spec seq (length log)); [apply Hg; lia|]. symmetry. by apply lookup_ge_None_2.
  - by rewrite (proj2 (Nat.leb_gt _ _)) by lia.
Qed.

(** a record is refused exactly if its sender is not [init] and has an entry with [RATE] records already written in
    this second. *)
Theorem refused_over_rate r log o : kept r log ->
  (exists r', do_push r o = Some (r', false)) <->
  p_pid o <> INIT_PID /\ exists i s, position (fun s => s_pid s =? p_pid o)%Z (senders r) = Some i /\ senders r !! i = Some s /\ window s = (p_time o / 1000)%Z /\ (RATE <= count s)%Z.
Proof.
  intros Hk. unfold do_push, push. destruct (Z.eqb_spec (p_pid o) INIT_PID) as [Hi|Hi]; [split; [by intros [? ?]|by intros [? _]]|]. unfold entry_of.
  destruct (position _ _) as [i|] eqn:E.
  - pose proof E as E'. apply position_Some in E' as (s & Hs & _ & _). rewrite Hs. destruct (Z.eqb_spec (window s) (p_time o / 1000)) as [Hw|Hw].
    + destruct (Z.leb_spec RATE (count s)) as [Hr|Hr]; [split; [intros _; split; [done|]; eauto 10|by eexists]|]. split; [by intros [? ?]|]. intros (_ & i' & s' & [= <-] & Hs' & _ & Hr'). simplify_eq. lia.
    + cbn. split; [intros [? H]; by destruct (0 <? s_suppressed s)%Z|]. intros (_ & i' & s' & [= <-] & Hs' & Hw' & _). simplify_eq.
  - assert (oldest (senders r) < length (senders r)) as Ho by (apply oldest_lt; intros E0; pose proof (k_senders _ _ Hk) as Hl; by rewrite E0 in Hl).
    cbn [senders set_senders]. rewrite list_lookup_insert_eq by done. cbn [window]. rewrite Z.eqb_refl. cbn. split; [by intros [? ?]|]. intros (_ & i' & s' & [=] & _).
Qed.

Lemma refused_over_rate_witness : exists r', do_push (mkRing (replicate SLOTS EMPTY) 0 0 0 (mkSender 7 3 64 0 :: replicate 31 (mkSender 0 0 0 0))) (mkPush 3500 7 [97]%Z 1 [98]%Z) = Some (r', false).
Proof.
  apply (refused_over_rate _ []); [split; cbn [records next dropped senders length first]; try done; try (rewrite length_replicate; done); intros; lia|].
  split; [discriminate|]. exists 0, (mkSender 7 3 64 0). split_and!; reflexivity || (vm_compute; intuition discriminate).
Defined.
